(* ===== verification/_CoqProject ===== *)
-Q . S2P
Prelude.v
Events.v
HotStoreSig.v
HotStore.v
SpaceMatcher.v
RSpace.v
RSpaceSpec.v
RSpaceInv.v
RSpaceCheckpoint.v
RSpaceThms.v
ReplayRSpace.v
ReplayTable.v
ReplayThms.v
ReplayIds.v
ReplayMatch.v
ReplaySim.v
ReplaySteps.v
ReplayEquiv.v
ReplayExamples.v
Reporting.v
Locks.v
KeyValueStore.v
TypedStore.v
Serializers.v
RadixCodec.v
RadixTree.v
RadixSpec.v
RadixRefine.v
RadixActions.v
RadixHistory.v
HistoryRepo.v
HistoryRepoSpec.v
HistoryRows.v
HistoryThms.v
MergingLogic.v
MergingIndex.v
MergingMaps.v
MergingCombine.v
RelatedSets.v
MergingExamples.v
StateChange.v
StateChangeSpec.v
StateChangeThms.v
BlockReplay.v
Blake2b512Block.v
Blake2bSpec.v
Blake2b512Random.v
Blake2b512RandomThms.v
Blake2b512RandomBytes.v
Blake2b512Merge.v
NumberChannels.v
NumberChannelsThms.v
CasperMessage.v
CasperMessageThms.v
EventConverter.v
BlockDag.v
BlockDagThms.v
BlockDagWalk.v
BlockDagFinal.v
BlockDagExamples.v
Clique.v
CliqueThms.v
FloatRounding.v
CliqueOracle.v
CliqueOracleThms.v
Finalizer.v
FinalizerThms.v
FinalityExamples.v
ForkChoice.v
ForkChoiceThms.v
Snapshot.v
ConflictSetMerger.v
ConflictSetMergerThms.v
MergedBalances.v
DeployChains.v
DagMerger.v
DagMergerOps.v
DagMergerThms.v
OneBlockMerge.v
DagMergerExamples.v
