(* ===== verification/Prelude.v ===== *)
(** * A verified model of the F1R3FLY node

    The F1R3FLY node runs Rholang programs against a tuple space, records the outcome in
    blocks, keeps the blocks in a DAG, agrees on them and merges the branches of the DAG.
    This library models the Rust implementation under [src/] and proves what its parts promise.  File and
    function names below are those of [src/]; definitions keep the names of the functions
    they translate, with a prefix or suffix where two functions share a name.

    ** The parts

    - Tuple space ([rspace++/src/rspace/]).  A client sends data to channels ([produce]) and
      waits for data that match patterns ([consume]).  [Events] has the events and rows,
      [HotStoreSig] the interface of the hot store with its abstract [View], [HotStore] the
      in-memory implementation over a read-only history, [SpaceMatcher] the matching loops,
      [RSpace] the operations, [Locks] the two-phase channel locks.  [RSpaceSpec],
      [RSpaceInv] and [RSpaceCheckpoint] hold the proofs, [RSpaceThms] the theorems:
      [consume] and [produce] either run a match and change exactly the rows that took part
      or store what they were given; no space reached by operations on pairwise distinct
      channels, soft checkpoints and reverts, checkpoints and resets has a waiting continuation
      that could run; checkpoints and resets show the space they were taken of; the locks
      exclude each other and cannot deadlock.  A consume that names a channel twice is outside
      these theorems; two lemmas of [RSpaceThms] show what goes wrong with it.
    - Replay ([rspace++/src/rspace/replay_rspace.rs], [reporting_rspace.rs]).  [ReplayRSpace]
      has the replay space, rigged with the log of a run, and its operations, [Reporting] the
      space that records reports.  [ReplayTable], [ReplayIds], [ReplayMatch], [ReplaySim],
      [ReplaySteps] and [ReplayEquiv] hold the proofs.  [ReplayThms]: a replay performs only
      COMMs of its log, each as often as the log has it; [ReplayExamples]: replaying the log
      of a run whose operations have distinct identities gives every operation the result it
      had and uses up the log.
    - Stores.  [KeyValueStore] is the trait of byte stores as a class with laws and its
      in-memory implementation, [TypedStore] the typed store over it
      ([shared/src/rust/store/]), which refines a finite map.
    - History ([rspace++/src/rspace/history/]).  [Serializers] writes rows, [RadixCodec] the
      nodes of the radix tree, [RadixTree] is the tree with its caches over a store,
      [RadixHistory] the history interface, [HistoryRepo] the repository with its leaves and
      roots.  [RadixSpec] gives tries without hashes and pointers, [RadixRefine] and
      [RadixActions] show that the tree simulates them; [HistoryRepoSpec] and [HistoryRows]
      that the repository keeps its promises ([HistoryRepositoryLaws]) to the tuple space.
      [RadixHistory] and [HistoryThms] have the theorems: a batch of actions gives the map
      with the batch applied, the root hash is determined by the contents, every recorded
      root can be read and reset to, also after a restart, and no reader panics.
    - Merging logic ([rspace++/src/rspace/merger/]).  [MergingLogic] summarizes event logs and
      compares two of them, [MergingIndex] builds the conflict and dependency maps in one
      pass, [RelatedSets] groups and rejects, [StateChange] has the differences of blocks
      and the actions that apply them.  [MergingMaps], [MergingCombine],
      [StateChangeSpec], [StateChangeThms] and [BlockReplay] show: the one-pass maps are the
      pairwise ones; groups are the connected components; rejection options are, on symmetric
      and irreflexive maps, exactly the minimal ones; logs combine in any order; the difference of a block, applied to the
      state it was built on, gives the root the block left.
    - Number channels and the generator of names.  [Blake2b512Block] and [Blake2b512Random]
      ([crypto/src/rust/hash/]) with [Blake2bSpec] (BLAKE2b as RFC 7693 states it),
      [Blake2b512RandomThms], [Blake2b512RandomBytes] and [Blake2b512Merge]: the compression
      is that of BLAKE2b, drawn names are halves of hashes of the path and a counter, the
      byte form reads back, merging generators ends and never panics.  [NumberChannels] and
      [NumberChannelsThms] ([rholang/src/rust/interpreter/merging/]): differences of balances
      add up to the values they came from, and the merged datum reads back as the merged
      number.
    - Messages.  [CasperMessage] ([models/src/rust/casper/protocol/], signatures of
      [crypto/src/rust/signatures/]), [CasperMessageThms], [EventConverter]: exactly which
      blocks are read back as they were sent.
    - Block DAG ([block-storage/src/rust/dag/]).  [BlockDag] has the metadata store, the
      representation with its walks and the storage; [BlockDagThms], [BlockDagWalk] and
      [BlockDagFinal] show that the in-memory maps are determined by the stored metadata and
      rebuilt by a restart, that walks end and are exact, that inserting keeps the maps
      exact and that finalizing finalizes exactly the ancestors that were not finalized.
    - Finality ([casper/src/rust/]).  [Clique] is the search for the heaviest clique
      ([util/clique.rs]), [CliqueOracle] the safety oracle ([safety/clique_oracle.rs]) with the
      caches of a run, [Finalizer] the finalizer ([finality/finalizer.rs]).  [FloatRounding]
      says what the floating-point operations give on whole numbers.  [CliqueThms],
      [CliqueOracleThms] and [FinalizerThms]: the pruned search is exact, the oracle returns the
      tolerance of the heaviest set of validators that see no disagreement, the finalizer
      accepts only blocks with a majority and a safe set, finds them when time permits and the
      total stake is below 2^24 (the [f64] bound that prunes candidates is safe there), does
      not depend on the order of hash maps, and two runs whose blocks have the same bonds
      accept blocks of one main chain.  [FinalityExamples] evaluates them.
    - Fork choice and snapshots.  [ForkChoice] has breadth-first traversal
      ([shared/src/rust/dag/dag_ops.rs]), the lowest universal common ancestor
      ([casper/src/rust/util/dag_operations.rs]) and the estimator ([estimator.rs]);
      [ForkChoiceThms] shows that ancestors, scores and the ranking of tips are exact.
      [Snapshot] is [get_snapshot] of [multi_parent_casper_impl.rs] with its caches, over the
      storage of [BlockDag] and the ancestors of [ForkChoice]; what other tasks do to the
      storage between reading the DAG and reading its generation is a parameter.  Parents are
      chosen by height, bonds and depth, alike on all nodes; along runs of inserts,
      finalizations and snapshots that are not interleaved the deploys in scope are exact; and
      when the generation grows between the two reads the next snapshot has stale deploys.
    - Merging of blocks ([casper/src/rust/merging/]).  [DeployChains] indexes the deploys of a
      block, [ConflictSetMerger] resolves conflicts under balances, [DagMerger] merges the
      blocks of a scope.  [ConflictSetMergerThms], [MergedBalances], [DagMergerOps],
      [DagMergerThms] and [OneBlockMerge]: kept branches do not conflict and keep balances
      non-negative, the rejection is a cheapest one among the options completed by the greedy
      pass, the expansion drops the descendants of rejected blocks, merged balances are not
      negative if it drops no branch of their channel, no user deploy is lost or merged twice,
      merging the chains of one block without number channels onto its pre-state gives its
      post-state.
    - [MergingExamples], [BlockDagExamples], [DagMergerExamples] and the example modules in the
      other files evaluate the definitions on concrete inputs and apply the theorems there.

    ** Conventions

    A fallible function returns [res E A]: [Ok], [Err] or [Panic] for an assertion, an
    [unwrap] of nothing, an index out of range or arithmetic that overflows where the code
    does not wrap.  Stateful code is a function [ST S A]; a state that a method shares with
    others (stores behind [Arc], caches) is part of [S].  [i64] and [u64] are [Z] with the
    wrap-around written out ([wrap_i64], [wrap_u64]).  A hash map or set is a [gmap] or
    [gset]; where the result may depend on the order of iteration the order is a parameter
    constrained to be a permutation of the elements, or the theorem shows that it does not
    matter.  Equality of produces is by their hash, as in the source.  The lemmas that the
    components share, the notations of the monads and the hint databases are in this file.

    ** Fuel

    Loops that are not structural carry fuel and return [None] when it runs out: the groups
    and rejection options of [RelatedSets] (the number of keys bounds the rounds), the
    merging of generators (every round shortens the list), the walks over the DAG (a block is
    visited once, so that two more rounds than there are blocks are enough; main chains are
    bounded by the difference of the heights), [descendants_within_scope] (the number of
    blocks in scope), the clique oracle and the finalizer (self justifications and layers go
    down in sequence number and height), common ancestors (every round lowers the highest
    block, so that the number of blocks is enough), supporting chains and breadth-first
    traversal (the number of edges), the ranking of tips (the greatest height).  The theorems
    show that the fuel given suffices.  The radix tree uses the length of keys.

    ** Assumptions

    Third-party code is a parameter: the hash functions, [bincode], the generated protobuf
    messages, the signature schemes, the pattern matcher and the number conversion of
    Rholang terms.  Theorems that need it assume that serialization reads back, that the
    hash has no collisions among the nodes, leaves and channels of the run, that of the
    permutations of a channel vector at most one is in use (the history files them together,
    [permuted_channels_share_continuations] in [HistoryThms]), and that stores answer.
    Witnesses instantiate the parameters and discharge these assumptions.

    ** Not modelled

    State export and import; LMDB and the store managers, which do input and output only; the
    Rholang interpreter besides the code that merging uses; validation of blocks and
    equivocation detection, which check incoming blocks against the interpreter, the
    signatures and the clock; the block store and the buffer of blocks whose parents are
    missing (the block store is a parameter of [Snapshot]); the rest of
    [multi_parent_casper_impl.rs], the engine, the API and genesis; networking ([comm]), the
    process wiring ([node]), graph output ([graphz]), metrics, tracing and timings; the
    parallel loops of Rayon, whose results do not depend on the schedule; the Scala predecessor. *)
From Stdlib Require Export Strings.Byte.
From stdpp Require Export strings sorting.
From stdpp Require Export prelude gmap list functions.
Export list_basics.list list_relations.list list_monad.list list_misc.list.

(** ** Results, errors and panics

    A fallible Rust function returns [Result<A, E>]; an [assert!], [unwrap] on
    [None], out-of-range index or [panic!] aborts.  [res E A] has one constructor
    for each of the three outcomes. *)

Inductive res (E A : Type) : Type :=
| Ok (a : A)
| Err (e : E)
| Panic.
Arguments Ok {E A} a.
Arguments Err {E A} e.
Arguments Panic {E A}.

Definition res_bind {E A B} (m : res E A) (k : A -> res E B) : res E B :=
  match m with
  | Ok a => k a
  | Err e => Err e
  | Panic => Panic
  end.

Definition res_map {E A B} (f : A -> B) (m : res E A) : res E B :=
  res_bind m (fun a => Ok (f a)).

(** [assert!(b)] *)
Definition assert {E} (b : bool) : res E unit := if b then Ok tt else Panic.

(** [Option::unwrap] *)
Definition unwrap {E A} (o : option A) : res E A :=
  match o with Some a => Ok a | None => Panic end.

Declare Scope res_scope.
Delimit Scope res_scope with res.
Notation "' p <-! m ; k" := (res_bind m (fun p => k))
  (at level 20, p pattern, m at level 100, k at level 200) : res_scope.
Notation "x <-! m ; k" := (res_bind m (fun x => k))
  (at level 20, m at level 100, k at level 200) : res_scope.
Notation "m ;;! k" := (res_bind m (fun _ => k))
  (at level 100, k at level 200, right associativity) : res_scope.

Definition is_Ok {E A} (m : res E A) : Prop := exists a, m = Ok a.

Section res_facts.
Context {E A B : Type}.

Lemma res_bind_Ok (m : res E A) (k : A -> res E B) b :
  res_bind m k = Ok b <-> exists a, m = Ok a /\ k a = Ok b.
Proof. destruct m; simpl; naive_solver. Qed.

Lemma assert_Ok (b : bool) (u : unit) : assert (E:=E) b = Ok u <-> b = true.
Proof. destruct b, u; simpl; split; congruence. Qed.

Lemma unwrap_Ok (o : option A) a : unwrap (E:=E) o = Ok a <-> o = Some a.
Proof. destruct o; naive_solver. Qed.
End res_facts.

(** Inverts the hypotheses that say a [res] computation returned [Ok]. *)
Ltac res_inv :=
  repeat match goal with
  | H : res_bind _ _ = Ok _ |- _ =>
      let a := fresh "a" in
      let Ha := fresh "Hok" in
      apply res_bind_Ok in H as (a & Ha & H)
  | H : assert _ = Ok _ |- _ => apply assert_Ok in H
  | H : unwrap _ = Ok _ |- _ => apply unwrap_Ok in H
  | H : Ok _ = Ok _ |- _ => injection H as H
  | H : Err _ = Ok _ |- _ => discriminate H
  | H : Panic = Ok _ |- _ => discriminate H
  end; subst.

(** [iter().map(f).collect::<Result<Vec<_>, _>>()]: the first error wins. *)
Fixpoint res_mapM {E A B} (f : A -> res E B) (l : list A) : res E (list B) :=
  match l with
  | [] => Ok []
  | x :: l =>
    res_bind (f x) (fun y => res_bind (res_mapM f l) (fun ys => Ok (y :: ys)))
  end.

Lemma res_mapM_Ok {E A B} (f : A -> res E B) l k :
  res_mapM f l = Ok k <-> Forall2 (fun x y => f x = Ok y) l k.
Proof.
  revert k. induction l as [|x l IH]; intros k; simpl.
  - split; [intros [= <-]; constructor | by inversion 1].
  - rewrite res_bind_Ok. split.
    + intros (y & Hy & Hk). apply res_bind_Ok in Hk as (ys & Hys & [= <-]).
      constructor; [done|]. by apply IH.
    + inversion 1 as [|? y ? ys Hy Hys]; subst. exists y. split; [done|].
      apply res_bind_Ok. exists ys. split; [by apply IH|done].
Qed.

(** [try_fold] over a list of inputs with a threaded state. *)
Fixpoint res_foldM {E S A} (f : S -> A -> res E S) (s : S) (l : list A) : res E S :=
  match l with
  | [] => Ok s
  | x :: l => res_bind (f s x) (fun s' => res_foldM f s' l)
  end.
Lemma res_foldM_fmap {E S A B} (g : A -> B) (f : S -> B -> res E S) s l :
  res_foldM f s (g <$> l) = res_foldM (fun s a => f s (g a)) s l.
Proof.
  revert s. induction l as [|a l IH]; intros s; [done|]. cbn [fmap list_fmap res_foldM].
  destruct (f s (g a)); simpl; auto.
Qed.
Lemma res_foldM_no_panic {E S A} (f : S -> A -> res E S) s l :
  (forall s a, a ∈ l -> f s a <> Panic) -> res_foldM f s l <> Panic.
Proof.
  revert s. induction l as [|a l IH]; intros s Hf; [done|]. cbn [res_foldM].
  destruct (f s a) as [s'|e|] eqn:Ha; simpl; [|done|].
  - apply IH. intros s'' b Hb. apply Hf. by right.
  - by destruct (Hf s a); [left|].
Qed.
Lemma res_mapM_no_panic {E A B} (f : A -> res E B) l :
  (forall a, a ∈ l -> f a <> Panic) -> res_mapM f l <> Panic.
Proof.
  induction l as [|a l IH]; intros Hf; [done|]. cbn [res_mapM].
  destruct (f a) as [b|e|] eqn:Ha; simpl; [|done|by destruct (Hf a); [left|]].
  specialize (IH (fun a' Ha' => Hf a' (list_elem_of_further _ _ _ Ha'))).
  by destruct (res_mapM f l).
Qed.

(** ** State passing

    A method on [&self] that mutates shared state and returns an [A]. *)

Definition ST (S A : Type) : Type := S -> A * S.
#[global] Instance st_ret {S} : MRet (ST S) := fun _ a s => (a, s).
#[global] Instance st_bind {S} : MBind (ST S) := fun _ _ k m s =>
  let '(a, s) := m s in k a s.

Definition modify {S} (f : S -> S) : ST S unit := fun s => (tt, f s).
Definition gets {S A} (f : S -> A) : ST S A := fun s => (f s, s).

(** [for x in l { body(x) }], collecting the results *)
Fixpoint st_mapM {S A B} (f : A -> ST S B) (l : list A) : ST S (list B) :=
  match l with
  | [] => mret []
  | x :: l => y ← f x; ys ← st_mapM f l; mret (y :: ys)
  end.

(** [m?] in a stateful method: the state changes made so far stay on an error. *)
Definition try_bind {S E A B} (m : ST S (res E A)) (k : A -> ST S (res E B)) :
  ST S (res E B) := fun s =>
  match m s with
  | (Ok a, s) => k a s
  | (Err e, s) => (Err e, s)
  | (Panic, s) => (Panic, s)
  end.
(** A computation that does not touch the state. *)
Definition lift {S E A} (m : res E A) : ST S (res E A) := fun s => (m, s).
Notation "x <- m ;? k" := (try_bind m (fun x => k))
  (at level 20, m at level 100, k at level 200) : res_scope.

(** [Result::map_err] *)
Definition map_err {E E' A} (f : E -> E') (m : res E A) : res E' A :=
  match m with Ok a => Ok a | Err e => Err (f e) | Panic => Panic end.

(** ** Bytes *)

#[global] Instance byte_eq_dec : EqDecision byte.
Proof. intros x y. destruct (Byte.byte_eq_dec x y); [by left | by right]. Defined.

#[global] Program Instance byte_countable : Countable byte :=
  inj_countable' Byte.to_N (fun n => default x00 (Byte.of_N n)) _.
Next Obligation. intros b; simpl. by rewrite Byte.of_to_N. Qed.

#[global] Instance byte_inhabited : Inhabited byte := populate x00.

Abbreviation bytes := (list byte).

(** [b as usize] *)
Definition byte_to_nat (b : byte) : nat := N.to_nat (Byte.to_N b).
(** [i as u8], which keeps the low eight bits *)
Definition nat_to_byte (i : nat) : byte := default x00 (Byte.of_N (N.of_nat (i mod 256))).

Lemma byte_to_nat_lt b : byte_to_nat b < 256.
Proof. unfold byte_to_nat. pose proof (Byte.to_N_bounded b). lia. Qed.

Lemma nat_to_byte_to_nat b : nat_to_byte (byte_to_nat b) = b.
Proof.
  unfold nat_to_byte. rewrite Nat.mod_small by apply byte_to_nat_lt.
  unfold byte_to_nat. by rewrite N2Nat.id, Byte.of_to_N.
Qed.

Lemma byte_to_nat_to_byte i : i < 256 -> byte_to_nat (nat_to_byte i) = i.
Proof.
  intros Hi. unfold nat_to_byte, byte_to_nat. rewrite Nat.mod_small by lia.
  destruct (Byte.of_N (N.of_nat i)) as [b|] eqn:Hb; simpl.
  - apply Byte.to_of_N in Hb. rewrite Hb. lia.
  - apply Byte.of_N_None_iff in Hb. lia.
Qed.

#[global] Instance byte_to_nat_inj : Inj (=) (=) byte_to_nat.
Proof. intros x y H. by rewrite <-(nat_to_byte_to_nat x), H, nat_to_byte_to_nat. Qed.

(** ** Filters that keep nothing, everything or the same *)

Section filters.
Context {A : Type}.
Implicit Types (P Q : A -> Prop) (l : list A).
Lemma filter_same_on P Q `{!forall x, Decision (P x)} `{!forall x, Decision (Q x)} l :
  (forall x, x ∈ l -> P x <-> Q x) -> filter P l = filter Q l.
Proof.
  induction l as [|x l IH]; intros Hl; [done|]. rewrite !filter_cons, IH by (intros; apply Hl; by right).
  destruct (Hl x) as [H1 H2]; [left|]. repeat case_decide; tauto.
Qed.
Lemma filter_nothing P `{!forall x, Decision (P x)} l : (forall x, x ∈ l -> ~ P x) -> filter P l = [].
Proof.
  induction l as [|x l IH]; intros Hl; [done|]. rewrite filter_cons, decide_False by (apply Hl; left).
  apply IH. intros y Hy. apply Hl. by right.
Qed.
Lemma filter_everything P `{!forall x, Decision (P x)} l : (forall x, x ∈ l -> P x) -> filter P l = l.
Proof.
  induction l as [|x l IH]; intros Hl; [done|]. rewrite filter_cons, decide_True by (apply Hl; left).
  f_equal. apply IH. intros y Hy. apply Hl. by right.
Qed.
End filters.

(** ** Comparison functions

    Rust's [Ord::cmp] and the closures given to [sort_by] are comparison functions.
    [CmpPreorder] is what [sort_by] requires of them, [CmpOrder] is a total order
    that agrees with equality. *)

Definition cmp_le {A} (cmp : A -> A -> comparison) (x y : A) : Prop := cmp x y <> Gt.

Class CmpPreorder {A} (cmp : A -> A -> comparison) : Prop := {
  cmp_sym : forall x y, cmp y x = CompOpp (cmp x y);
  cmp_le_trans : forall x y z, cmp_le cmp x y -> cmp_le cmp y z -> cmp_le cmp x z;
}.

Class CmpOrder {A} (cmp : A -> A -> comparison) : Prop := {
  cmp_order_pre :: CmpPreorder cmp;
  cmp_eq : forall x y, cmp x y = Eq -> x = y;
}.
Arguments cmp_sym {A} cmp {_} x y.
Arguments cmp_le_trans {A} cmp {_} x y z.
Arguments cmp_eq {A} cmp {_} x y.

(** [Ordering::then_with] *)
Definition then_with (c d : comparison) : comparison :=
  match c with Eq => d | _ => c end.

Section cmp_facts.
Context {A : Type} (cmp : A -> A -> comparison) `{!CmpPreorder cmp}.

Lemma cmp_refl x : cmp x x = Eq.
Proof. pose proof (cmp_sym cmp x x). by destruct (cmp x x). Qed.

Lemma cmp_le_refl x : cmp_le cmp x x.
Proof. unfold cmp_le. by rewrite (cmp_refl). Qed.

Lemma cmp_le_total x y : cmp_le cmp x y \/ cmp_le cmp y x.
Proof. unfold cmp_le. rewrite (cmp_sym cmp x y). destruct (cmp x y); naive_solver. Qed.

Lemma cmp_Gt_le x y : cmp x y = Gt -> cmp_le cmp y x.
Proof. unfold cmp_le. rewrite (cmp_sym cmp x y). by intros ->. Qed.

Lemma cmp_le_antisym x y : cmp_le cmp x y -> cmp_le cmp y x -> cmp x y = Eq.
Proof. unfold cmp_le. rewrite (cmp_sym cmp x y). by destruct (cmp x y). Qed.

Lemma cmp_le_lt_trans x y z : cmp_le cmp x y -> cmp y z = Lt -> cmp x z = Lt.
Proof.
  intros Hxy Hyz. assert (cmp_le cmp x z) as Hxz.
  { apply (cmp_le_trans cmp x y z); [done|]. unfold cmp_le. congruence. }
  destruct (cmp x z) eqn:E; [|done|by destruct Hxz].
  assert (cmp_le cmp z y) as Hzy.
  { apply (cmp_le_trans cmp z x y); [|done]. unfold cmp_le.
    by rewrite (cmp_sym cmp x z), E. }
  unfold cmp_le in Hzy. by rewrite (cmp_sym cmp y z), Hyz in Hzy.
Qed.
Lemma cmp_Lt_trans x y z : cmp x y = Lt -> cmp y z = Lt -> cmp x z = Lt.
Proof. intros Hxy. apply cmp_le_lt_trans. unfold cmp_le. congruence. Qed.

Lemma cmp_Eq_l x y z : cmp x y = Eq -> cmp x z = cmp y z.
Proof.
  intros E. assert (cmp_le cmp x y) as Hxy by (unfold cmp_le; congruence).
  assert (cmp_le cmp y x) as Hyx by (unfold cmp_le; by rewrite (cmp_sym cmp x y), E).
  destruct (cmp y z) eqn:Ey.
  - apply cmp_le_antisym.
    + apply (cmp_le_trans cmp x y z); [done|]. unfold cmp_le. congruence.
    + apply (cmp_le_trans cmp z y x); [|done]. unfold cmp_le.
      by rewrite (cmp_sym cmp y z), Ey.
  - by apply (cmp_le_lt_trans x y z).
  - destruct (cmp x z) eqn:Ex; [exfalso|exfalso|done].
    + assert (cmp_le cmp y z) as H; [|by unfold cmp_le in H; rewrite Ey in H].
      apply (cmp_le_trans cmp y x z); [done|]. unfold cmp_le. congruence.
    + by rewrite (cmp_le_lt_trans y x z) in Ey.
Qed.
Lemma cmp_Eq_r x y z : cmp y z = Eq -> cmp x y = cmp x z.
Proof. intros E. rewrite (cmp_sym cmp y x), (cmp_sym cmp z x). f_equal. by apply cmp_Eq_l. Qed.
End cmp_facts.

#[global] Instance Z_cmp_order : CmpOrder Z.compare.
Proof.
  split; [split|]; unfold cmp_le; intros *.
  - apply Z.compare_antisym.
  - rewrite !Z.compare_gt_iff. lia.
  - apply Z.compare_eq.
Qed.

#[global] Instance nat_cmp_order : CmpOrder Nat.compare.
Proof.
  split; [split|]; unfold cmp_le; intros *.
  - apply Nat.compare_antisym.
  - rewrite !Nat.compare_gt_iff. lia.
  - apply Nat.compare_eq.
Qed.

(** [Ord for u8] *)
Definition byte_cmp (x y : byte) : comparison := Nat.compare (byte_to_nat x) (byte_to_nat y).

#[global] Instance byte_cmp_order : CmpOrder byte_cmp.
Proof.
  split; [split|]; unfold cmp_le, byte_cmp; intros *.
  - apply (cmp_sym Nat.compare).
  - apply (cmp_le_trans Nat.compare).
  - intros H%(cmp_eq Nat.compare). by simplify_eq.
Qed.

(** [Ord for bool]: [false < true] *)
Definition bool_cmp (x y : bool) : comparison :=
  match x, y with
  | false, true => Lt
  | true, false => Gt
  | _, _ => Eq
  end.

#[global] Instance bool_cmp_order : CmpOrder bool_cmp.
Proof.
  split; [split|]; unfold cmp_le.
  - by intros [] [].
  - by intros [] [] [].
  - by intros [] [].
Qed.

(** [Ord for Vec<A>]: lexicographic *)
Fixpoint list_cmp {A} (cmp : A -> A -> comparison) (l k : list A) : comparison :=
  match l, k with
  | [], [] => Eq
  | [], _ :: _ => Lt
  | _ :: _, [] => Gt
  | x :: l, y :: k => then_with (cmp x y) (list_cmp cmp l k)
  end.

#[global] Instance list_cmp_preorder {A} (cmp : A -> A -> comparison) `{!CmpPreorder cmp} :
  CmpPreorder (list_cmp cmp).
Proof.
  split; unfold cmp_le.
  - intros l. induction l as [|x l IH]; intros [|y k]; simpl; try done.
    rewrite (cmp_sym cmp x y). by destruct (cmp x y); simpl.
  - intros l. induction l as [|x l IH]; intros [|y k] [|z j]; simpl; try done.
    intros H1 H2.
    destruct (cmp x y) eqn:Hxy; simpl in *; [| |done].
    + rewrite (cmp_Eq_l cmp x y z Hxy). destruct (cmp y z); simpl in *; eauto.
    + destruct (cmp y z) eqn:Hyz; simpl in *; [| |done].
      * by rewrite <- (cmp_Eq_r cmp x y z Hyz), Hxy.
      * by rewrite (cmp_Lt_trans cmp x y z).
Qed.
Lemma list_cmp_Eq {A} (cmp : A -> A -> comparison) l k :
  list_cmp cmp l k = Eq <-> Forall2 (fun x y => cmp x y = Eq) l k.
Proof.
  revert k. induction l as [|x l IH]; intros [|y k]; simpl; [by split|split; inversion 1..|].
  rewrite Forall2_cons, <- IH. destruct (cmp x y); simpl; naive_solver.
Qed.
#[global] Instance list_cmp_order {A} (cmp : A -> A -> comparison) `{!CmpOrder cmp} :
  CmpOrder (list_cmp cmp).
Proof.
  split; [apply _|]. intros l k Hlk%list_cmp_Eq. apply list_eq_Forall2.
  eapply Forall2_impl; [done|]. apply (cmp_eq cmp).
Qed.

(** Comparing by a key, as in [sort_by_key]. *)
Lemma cmp_on_preorder {A B} (f : A -> B) (cmp : B -> B -> comparison) `{!CmpPreorder cmp} :
  CmpPreorder (fun x y => cmp (f x) (f y)).
Proof.
  split; intros *; [apply (cmp_sym cmp)|apply (cmp_le_trans cmp (f x) (f y) (f z))].
Qed.

(** [Ord for (A, B)] *)
Definition pair_cmp {A B} (cmp1 : A -> A -> comparison) (cmp2 : B -> B -> comparison)
  (x y : A * B) : comparison := then_with (cmp1 x.1 y.1) (cmp2 x.2 y.2).

#[global] Instance pair_cmp_preorder {A B} (cmp1 : A -> A -> comparison)
    (cmp2 : B -> B -> comparison) `{!CmpPreorder cmp1, !CmpPreorder cmp2} :
  CmpPreorder (pair_cmp cmp1 cmp2).
Proof.
  split; unfold cmp_le, pair_cmp.
  - intros [x1 x2] [y1 y2]; simpl. rewrite (cmp_sym cmp1 x1 y1), (cmp_sym cmp2 x2 y2).
    by destruct (cmp1 x1 y1).
  - intros [x1 x2] [y1 y2] [z1 z2]; simpl. intros H1 H2.
    destruct (cmp1 x1 y1) eqn:Hxy; simpl in *; [| |done].
    + rewrite (cmp_Eq_l cmp1 x1 y1 z1 Hxy). destruct (cmp1 y1 z1); simpl in *; [|done..].
      by apply (cmp_le_trans cmp2 x2 y2 z2).
    + destruct (cmp1 y1 z1) eqn:Hyz; simpl in *; [| |done].
      * by rewrite <- (cmp_Eq_r cmp1 x1 y1 z1 Hyz), Hxy.
      * by rewrite (cmp_Lt_trans cmp1 x1 y1 z1).
Qed.
#[global] Instance pair_cmp_order {A B} (cmp1 : A -> A -> comparison)
    (cmp2 : B -> B -> comparison) `{!CmpOrder cmp1, !CmpOrder cmp2} :
  CmpOrder (pair_cmp cmp1 cmp2).
Proof.
  split; [apply _|]. intros [x1 x2] [y1 y2]. unfold pair_cmp. simpl.
  destruct (cmp1 x1 y1) eqn:Hxy; simpl; try done.
  intros Hy%(cmp_eq cmp2). apply (cmp_eq cmp1) in Hxy. congruence.
Qed.

Abbreviation bytes_cmp := (list_cmp byte_cmp).

(** ** Stable sorting ([slice::sort_by])

    Rust's [sort_by] is a stable sort; on a total preorder the stable sorted
    permutation of a list is unique, so an insertion sort models it. *)

Fixpoint sort_insert {A} (cmp : A -> A -> comparison) (x : A) (l : list A) : list A :=
  match l with
  | [] => [x]
  | y :: l => match cmp x y with Gt => y :: sort_insert cmp x l | _ => x :: y :: l end
  end.

Definition sort_by {A} (cmp : A -> A -> comparison) (l : list A) : list A :=
  foldr (sort_insert cmp) [] l.

Section sort_facts.
Context {A : Type} (cmp : A -> A -> comparison).

Lemma sort_insert_perm x l : sort_insert cmp x l ≡ₚ x :: l.
Proof.
  induction l as [|y l IH]; simpl; [done|].
  destruct (cmp x y); [done..|]. rewrite IH. apply Permutation_swap.
Qed.

Lemma sort_by_perm l : sort_by cmp l ≡ₚ l.
Proof. induction l as [|x l IH]; simpl; [done|]. by rewrite sort_insert_perm, IH. Qed.

Lemma elem_of_sort_by x l : x ∈ sort_by cmp l <-> x ∈ l.
Proof. by rewrite sort_by_perm. Qed.

Lemma length_sort_by l : length (sort_by cmp l) = length l.
Proof. by rewrite sort_by_perm. Qed.

Context `{!CmpPreorder cmp}.

Lemma sort_insert_sorted x l :
  StronglySorted (cmp_le cmp) l -> StronglySorted (cmp_le cmp) (sort_insert cmp x l).
Proof.
  induction 1 as [|y l Hl IH Hy]; simpl; [repeat constructor|].
  assert (cmp_le cmp x y -> StronglySorted (cmp_le cmp) (x :: y :: l)) as Hle.
  { intros Hxy. repeat constructor; [done..|].
    eapply Forall_impl; [exact Hy|]. intros z Hz. by eapply (cmp_le_trans cmp). }
  destruct (cmp x y) eqn:Hxy; [apply Hle; unfold cmp_le; congruence..|].
  constructor; [done|]. rewrite sort_insert_perm. constructor; [by apply cmp_Gt_le|done].
Qed.

Lemma sort_by_sorted l : StronglySorted (cmp_le cmp) (sort_by cmp l).
Proof. induction l; simpl; [constructor|]. by apply sort_insert_sorted. Qed.

Lemma sort_by_head x l k :
  sort_by cmp l = x :: k -> x ∈ l /\ forall y, y ∈ l -> cmp_le cmp x y.
Proof.
  intros Hs. split.
  - apply elem_of_sort_by. rewrite Hs. by left.
  - intros y Hy. apply elem_of_sort_by in Hy. pose proof (sort_by_sorted l) as Hso.
    rewrite Hs in Hy, Hso. apply StronglySorted_inv in Hso as [_ Hall].
    apply elem_of_cons in Hy as [->|Hy]; [by apply cmp_le_refl|].
    rewrite Forall_forall in Hall. by apply Hall.
Qed.
End sort_facts.

(** An order on the elements of a list makes the sorted list unique. *)
Lemma sort_by_unique_on {A} (cmp : A -> A -> comparison) `{!CmpPreorder cmp} l k :
  (forall x y, x ∈ l -> y ∈ l -> cmp x y = Eq -> x = y) ->
  l ≡ₚ k -> sort_by cmp l = sort_by cmp k.
Proof.
  intros Hinj Hlk. apply (StronglySorted_unique_strong (cmp_le cmp)).
  - intros x y. rewrite !elem_of_sort_by, <- Hlk. intros Hx Hy Hxy Hyx.
    apply Hinj; [done..|]. by apply (cmp_le_antisym cmp).
  - by apply sort_by_sorted.
  - by apply sort_by_sorted.
  - by rewrite !sort_by_perm.
Qed.
Lemma sort_by_unique {A} (cmp : A -> A -> comparison) `{!CmpOrder cmp} l k :
  l ≡ₚ k -> sort_by cmp l = sort_by cmp k.
Proof. apply (sort_by_unique_on cmp). intros x y _ _. apply (cmp_eq cmp). Qed.

(** ** Vectors

    [Vec::remove(i)] on an index in range is stdpp's list [delete i];
    [iter().position(p)] and [iter().enumerate()] are the following. *)

Definition position {A} (f : A -> bool) (l : list A) : option nat :=
  fst <$> list_find (fun x => f x = true) l.

Definition enumerate {A} (l : list A) : list (nat * A) := imap pair l.

Lemma position_Some {A} (f : A -> bool) (l : list A) i :
  position f l = Some i <->
  exists x, l !! i = Some x /\ f x = true /\
    forall j y, l !! j = Some y -> j < i -> f y = false.
Proof.
  unfold position. rewrite fmap_Some. split.
  - intros ([j x] & (Hx & Hf & Hmin)%list_find_Some & ->). exists x.
    repeat split; [done..|]. intros k y Hy Hk.
    apply not_true_iff_false. by eapply Hmin.
  - intros (x & Hx & Hf & Hmin). exists (i, x). split; [|done].
    apply list_find_Some. repeat split; [done..|]. intros j y Hy Hj.
    rewrite (Hmin j y Hy Hj). done.
Qed.

Lemma position_None {A} (f : A -> bool) (l : list A) :
  position f l = None <-> forall x, x ∈ l -> f x = false.
Proof.
  unfold position. rewrite fmap_None, list_find_None. split.
  - intros Hf x Hx. apply not_true_iff_false.
    rewrite Forall_forall in Hf. by apply Hf.
  - intros Hf. apply Forall_forall. intros x Hx.
    by rewrite (Hf x Hx).
Qed.

Lemma lookup_enumerate {A} (l : list A) i p :
  enumerate l !! i = Some p <-> p.1 = i /\ l !! i = Some p.2.
Proof.
  unfold enumerate. rewrite list_lookup_imap. destruct p as [j x]. simpl.
  destruct (l !! i); naive_solver.
Qed.

Lemma elem_of_enumerate {A} (l : list A) i x :
  (i, x) ∈ enumerate l <-> l !! i = Some x.
Proof.
  rewrite list_elem_of_lookup. setoid_rewrite lookup_enumerate. simpl. naive_solver.
Qed.

Lemma length_enumerate {A} (l : list A) : length (enumerate l) = length l.
Proof. apply length_imap. Qed.

Lemma omap_fmap_None {A B D} (f : B -> option D) (g : A -> B) (l : list A) :
  (forall x, f (g x) = None) -> omap f (g <$> l) = [].
Proof. intros Hf. induction l as [|x l IH]; [done|]. csimpl. by rewrite Hf. Qed.

Lemma omap_fmap_Some {A B} (f : B -> option A) (g : A -> B) (l : list A) :
  (forall x, f (g x) = Some x) -> omap f (g <$> l) = l.
Proof. intros Hf. induction l as [|x l IH]; [done|]. csimpl. by rewrite Hf, IH. Qed.

(** ** Functions updated at a point *)

Lemma fn_lookup_insert_decide {A B} `{EqDecision A} (f : A -> B) a b x :
  <[a := b]> f x = if decide (a = x) then b else f x.
Proof. done. Qed.

(** ** Machine integers *)

Definition i64_min : Z := (- 2 ^ 63)%Z.
Definition i64_max : Z := (2 ^ 63 - 1)%Z.
Definition i64_range (z : Z) : Prop := (i64_min <= z <= i64_max)%Z.

(** two's complement wrap-around to 64 bits, read as signed *)
Definition wrap_i64 (z : Z) : Z := ((z + 2 ^ 63) mod 2 ^ 64 - 2 ^ 63)%Z.
(** two's complement wrap-around to 32 bits, read as signed *)
Definition wrap_i32 (z : Z) : Z := ((z + 2 ^ 31) mod 2 ^ 32 - 2 ^ 31)%Z.
(** [z as u64] *)
Definition as_u64 (z : Z) : Z := (z mod 2 ^ 64)%Z.
Lemma as_u64_wrap z : as_u64 (wrap_i64 z) = as_u64 z.
Proof. unfold as_u64, wrap_i64. rewrite Zminus_mod_idemp_l. f_equal. lia. Qed.
(** [i64::checked_add] *)
Definition checked_add_i64 (a b : Z) : option Z :=
  if decide (i64_min <= a + b <= i64_max)%Z then Some (a + b)%Z else None.

Lemma wrap_i64_range z : i64_range (wrap_i64 z).
Proof.
  unfold i64_range, wrap_i64, i64_min, i64_max.
  pose proof (Z.mod_pos_bound (z + 2 ^ 63) (2 ^ 64) ltac:(lia)). lia.
Qed.

Lemma wrap_i64_id z : i64_range z -> wrap_i64 z = z.
Proof.
  unfold i64_range, wrap_i64, i64_min, i64_max. intros ?.
  rewrite Z.mod_small by lia. lia.
Qed.

Lemma checked_add_i64_Some a b c :
  checked_add_i64 a b = Some c <-> c = (a + b)%Z /\ i64_range c.
Proof. unfold checked_add_i64, i64_range. case_decide; naive_solver. Qed.

(** ** Hint database of the development *)

Create HintDb rspace.
#[export] Hint Resolve cmp_le_refl sort_by_perm sort_by_sorted wrap_i64_range : rspace.
#[export] Hint Rewrite @length_sort_by @length_enumerate : rspace.
