(* ===== verification/Events.v ===== *)
(** * Events and tuple-space data

    The data of [rspace++/src/rspace/trace/event.rs], [internal.rs] and
    [rspace_interface.rs], and the hashing of [hashing/stable_hash_provider.rs].

    Blake2b and bincode are third-party code: the hash function is an argument
    [blake2b256], the serializers of the four type parameters are the fields of
    [Codecs]. *)
From S2P Require Import Prelude.

(** [Blake2b256Hash(pub Vec<u8>)] *)
Abbreviation Blake2b256Hash := bytes.

(** ** Events *)

(** [struct Produce] *)
Record Produce := mkProduce {
  channel_hash : Blake2b256Hash;
  p_hash : Blake2b256Hash;
  p_persistent : bool;
  is_deterministic : bool;
  output_value : list bytes;
  failed : bool;
}.

(** [struct Consume] *)
Record Consume := mkConsume {
  channel_hashes : list Blake2b256Hash;
  c_hash : Blake2b256Hash;
  c_persistent : bool;
}.

#[global] Instance Produce_eq_dec : EqDecision Produce.
Proof. solve_decision. Defined.
#[global] Instance Consume_eq_dec : EqDecision Consume.
Proof. solve_decision. Defined.

#[global] Program Instance Consume_countable : Countable Consume :=
  inj_countable' (fun c => (channel_hashes c, c_hash c, c_persistent c))
    (fun '(chs, h, p) => mkConsume chs h p) _.
Next Obligation. by intros []. Qed.

(** [impl PartialEq for Produce]: identity is the hash alone. *)
Definition produce_eqb (p q : Produce) : bool := bool_decide (p_hash p = p_hash q).
(** [impl Ord for Produce] *)
Definition produce_cmp (p q : Produce) : comparison := bytes_cmp (p_hash p) (p_hash q).

(** [BTreeSet<i32>] as a finite set; its iteration order is ascending. *)
Abbreviation i32_set := (gset Z).

(** [BTreeMap<Produce, i32>]: the key order and equality are those of the hash, so
    the map is keyed by the hash and remembers the key object that was inserted first
    ([BTreeMap::insert] on a present key replaces the value and keeps the key). *)
Abbreviation produce_counter_map := (gmap Blake2b256Hash (Produce * Z)).

Definition counter_get (m : produce_counter_map) (p : Produce) : option Z :=
  snd <$> m !! p_hash p.
Definition counter_insert (m : produce_counter_map) (p : Produce) (n : Z) :
  produce_counter_map :=
  <[p_hash p := (from_option fst p (m !! p_hash p), n)]> m.

(** [struct COMM] *)
Record COMM := mkCOMM {
  comm_consume : Consume;
  comm_produces : list Produce;
  comm_peeks : i32_set;
  comm_times_repeated : produce_counter_map;
}.

(** [enum IOEvent], [enum Event] *)
Inductive IOEvent :=
| IOProduce (p : Produce)
| IOConsume (c : Consume).
Inductive Event :=
| Comm (c : COMM)
| IoEvent (e : IOEvent).

(** [trace::Log] *)
Abbreviation Log := (list Event).

(** [Produce::new], [Produce::mark_as_non_deterministic], [Produce::with_error] *)
Definition Produce_new (ch h : Blake2b256Hash) (persistent : bool) : Produce :=
  mkProduce ch h persistent true [] false.
Definition mark_as_non_deterministic (p : Produce) (previous : list bytes) : Produce :=
  mkProduce (channel_hash p) (p_hash p) (p_persistent p) false previous (failed p).
Definition with_error (p : Produce) : Produce :=
  mkProduce (channel_hash p) (p_hash p) (p_persistent p)
    (is_deterministic p) (output_value p) true.

(** ** Tuple-space rows *)

Section internal.
Context {C P A K : Type}.

(** [struct Datum<A>] *)
Record Datum := mkDatum {
  datum_a : A;
  datum_persist : bool;
  datum_source : Produce;
}.

(** [struct WaitingContinuation<P, K>] *)
Record WaitingContinuation := mkWC {
  wc_patterns : list P;
  wc_continuation : K;
  wc_persist : bool;
  wc_peeks : i32_set;
  wc_source : Consume;
}.

(** [struct ConsumeCandidate<C, A>] *)
Record ConsumeCandidate := mkCC {
  cc_channel : C;
  cc_datum : Datum;
  cc_removed_datum : A;
  cc_datum_index : Z;
}.

(** [struct ProduceCandidate<C, P, A, K>] *)
Record ProduceCandidate := mkPC {
  pc_channels : list C;
  pc_continuation : WaitingContinuation;
  pc_continuation_index : Z;
  pc_data_candidates : list ConsumeCandidate;
}.

(** [struct Install<P, K>] *)
Record Install := mkInstall {
  in_patterns : list P;
  in_continuation : K;
}.

(** [struct Row<P, A, K>] *)
Record Row := mkRow {
  row_data : list Datum;
  row_wks : list WaitingContinuation;
}.

(** [struct RSpaceResult<C, A>], [struct ContResult<C, P, K>] *)
Record RSpaceResult := mkRR {
  rr_channel : C;
  rr_matched_datum : A;
  rr_removed_datum : A;
  rr_persistent : bool;
}.
Record ContResult := mkCR {
  cr_continuation : K;
  cr_persistent : bool;
  cr_channels : list C;
  cr_patterns : list P;
  cr_peek : bool;
}.
End internal.

Arguments Datum A : clear implicits.
Arguments WaitingContinuation P K : clear implicits.
Arguments ConsumeCandidate C A : clear implicits.
Arguments ProduceCandidate C P A K : clear implicits.
Arguments Install P K : clear implicits.
Arguments Row P A K : clear implicits.
Arguments RSpaceResult C A : clear implicits.
Arguments ContResult C P K : clear implicits.

(** [COMM::new]: the produces of the candidates, ordered by channel hash, then
    hash, then persistence. *)
Definition produce_ref_cmp (a b : Produce) : comparison :=
  then_with (bytes_cmp (channel_hash a) (channel_hash b))
    (then_with (bytes_cmp (p_hash a) (p_hash b))
       (bool_cmp (p_persistent a) (p_persistent b))).

Definition COMM_new {C A} (data_candidates : list (ConsumeCandidate C A))
    (consume_ref : Consume) (peeks : i32_set)
    (produce_counters : list Produce -> produce_counter_map) : COMM :=
  let produce_refs :=
    sort_by produce_ref_cmp ((fun c => datum_source (cc_datum c)) <$> data_candidates) in
  mkCOMM consume_ref produce_refs peeks (produce_counters produce_refs).

(** ** Hashing *)

(** [bincode::serialize] of the four type parameters and of the byte vectors that are
    hashed, and [Blake2b::<U32>]. *)
Record Codecs (C P A K : Type) := mkCodecs {
  ser_channel : C -> bytes;
  ser_pattern : P -> bytes;
  ser_datum : A -> bytes;
  ser_continuation : K -> bytes;
  ser_bool : bool -> bytes;
  ser_bytes_list : list bytes -> bytes;
  blake2b256 : bytes -> Blake2b256Hash;
}.
Arguments ser_channel {C P A K} _ _.
Arguments ser_pattern {C P A K} _ _.
Arguments ser_datum {C P A K} _ _.
Arguments ser_continuation {C P A K} _ _.
Arguments ser_bool {C P A K} _ _.
Arguments ser_bytes_list {C P A K} _ _.
Arguments blake2b256 {C P A K} _ _.

Section stable_hash_provider.
Context {C P A K : Type} (cd : Codecs C P A K).

(** [fn hash] *)
Definition hash (channel : C) : Blake2b256Hash := blake2b256 cd (ser_channel cd channel).

(** [fn hash_vec] *)
Definition hash_vec (channels : list C) : list Blake2b256Hash :=
  sort_by bytes_cmp (hash <$> channels).

(** [fn hash_from_hashes] *)
Definition hash_from_hashes (channels_hashes : list Blake2b256Hash) : Blake2b256Hash :=
  blake2b256 cd (mjoin (sort_by bytes_cmp channels_hashes)).

(** [fn hash_from_vec] *)
Definition hash_from_vec (channels : list C) : Blake2b256Hash :=
  hash_from_hashes (hash_vec channels).

(** [fn hash_consume] *)
Definition hash_consume (encoded_channels : list bytes) (patterns : list P)
    (continuation : K) (persist : bool) : Blake2b256Hash :=
  let encoded_patterns := sort_by bytes_cmp (ser_pattern cd <$> patterns) in
  let encoded :=
    encoded_channels ++ encoded_patterns
      ++ [ser_continuation cd continuation; ser_bool cd persist] in
  blake2b256 cd (ser_bytes_list cd encoded).

(** [fn hash_produce] *)
Definition hash_produce (encoded_channel : bytes) (datum : A) (persist : bool) :
  Blake2b256Hash :=
  blake2b256 cd
    (ser_bytes_list cd [encoded_channel; ser_datum cd datum; ser_bool cd persist]).

(** [Produce::create] *)
Definition Produce_create (channel : C) (datum : A) (persistent : bool) : Produce :=
  let ch := hash channel in
  mkProduce ch (hash_produce ch datum persistent) persistent true [] false.

(** [Consume::create] *)
Definition Consume_create (channels : list C) (patterns : list P) (continuation : K)
    (persistent : bool) : Consume :=
  let chs := hash_vec channels in
  mkConsume chs (hash_consume chs patterns continuation persistent) persistent.

(** [Datum::create], [WaitingContinuation::create] *)
Definition Datum_create (channel : C) (a : A) (persist : bool) : Datum A :=
  mkDatum a persist (Produce_create channel a persist).
Definition WC_create (channels : list C) (patterns : list P) (continuation : K)
    (persist : bool) (peeks : i32_set) : WaitingContinuation P K :=
  mkWC patterns continuation persist peeks
    (Consume_create channels patterns continuation persist).
End stable_hash_provider.

(** ** Identity of events *)

#[global] Instance produce_ref_cmp_preorder : CmpPreorder produce_ref_cmp.
Proof.
  apply (cmp_on_preorder (fun p => (channel_hash p, (p_hash p, p_persistent p)))
    (pair_cmp bytes_cmp (pair_cmp bytes_cmp bool_cmp))).
Qed.

Section identity.
Context {C P A K : Type} (cd : Codecs C P A K).

Lemma hash_vec_perm channels channels' :
  channels ≡ₚ channels' -> hash_vec cd channels = hash_vec cd channels'.
Proof. intros H. apply sort_by_unique; [apply _|]. by rewrite H. Qed.

Lemma hash_from_vec_perm channels channels' :
  channels ≡ₚ channels' -> hash_from_vec cd channels = hash_from_vec cd channels'.
Proof. intros H. unfold hash_from_vec. by rewrite (hash_vec_perm _ _ H). Qed.

Lemma hash_consume_perm chs patterns patterns' k persist :
  patterns ≡ₚ patterns' ->
  hash_consume cd chs patterns k persist = hash_consume cd chs patterns' k persist.
Proof.
  intros H. unfold hash_consume.
  by rewrite (sort_by_unique bytes_cmp (ser_pattern cd <$> patterns)
    (ser_pattern cd <$> patterns')) by (by rewrite H).
Qed.

(** The identity of a consume depends neither on the order of its channels nor
    on the order of its patterns: permuting both gives the same [Consume] event. *)
Theorem consume_identity_order_independent channels channels' patterns patterns' k persist :
  channels ≡ₚ channels' -> patterns ≡ₚ patterns' ->
  Consume_create cd channels patterns k persist =
  Consume_create cd channels' patterns' k persist.
Proof.
  intros Hc Hp. unfold Consume_create.
  by rewrite (hash_vec_perm _ _ Hc), (hash_consume_perm _ _ _ _ _ Hp).
Qed.

(** [COMM::new] records exactly the produces of its data candidates, in the order
    of channel hash, hash and persistence, and asks for the counters of that list;
    the order in which candidates are handed over matters only among produces that
    agree on those three fields. *)
Theorem comm_new_produces (cands : list (ConsumeCandidate C A)) consume peeks counters :
  let comm := COMM_new cands consume peeks counters in
  comm_produces comm ≡ₚ ((fun c => datum_source (cc_datum c)) <$> cands) /\
  StronglySorted (cmp_le produce_ref_cmp) (comm_produces comm) /\
  comm_times_repeated comm = counters (comm_produces comm) /\
  comm_consume comm = consume /\ comm_peeks comm = peeks.
Proof.
  simpl. split; [apply sort_by_perm|]. split; [apply sort_by_sorted, _|done].
Qed.
End identity.

(** ** Results handed to the caller ([util.rs]) *)
Section util.
Context {C P K R : Type}.

(** [fn unpack_tuple], [fn unpack_option] *)
Definition unpack_tuple (t : ContResult C P K * list (RSpaceResult C R)) : K * list R :=
  let '(cr, data) := t in (cr_continuation cr, rr_matched_datum <$> data).
Definition unpack_option (v : option (ContResult C P K * list (RSpaceResult C R))) :
  option (K * list R) := unpack_tuple <$> v.

(** [fn unpack_produce_tuple], [fn unpack_produce_option] *)
Definition unpack_produce_tuple
    (t : ContResult C P K * list (RSpaceResult C R) * Produce) : K * list R * Produce :=
  let '(cr, data, previous) := t in
  (cr_continuation cr, rr_matched_datum <$> data, previous).
Definition unpack_produce_option
    (v : option (ContResult C P K * list (RSpaceResult C R) * Produce)) :
  option (K * list R * Produce) := unpack_produce_tuple <$> v.

(** [fn unpack_tuple_with_peek], [fn unpack_option_with_peek] *)
Definition unpack_tuple_with_peek (t : ContResult C P K * list (RSpaceResult C R)) :
  K * list (C * R * R * bool) * bool :=
  let '(cr, data) := t in
  (cr_continuation cr,
   (fun d => (rr_channel d, rr_matched_datum d, rr_removed_datum d, rr_persistent d))
     <$> data,
   cr_peek cr).
Definition unpack_option_with_peek
    (v : option (ContResult C P K * list (RSpaceResult C R))) :
  option (K * list (C * R * R * bool) * bool) := unpack_tuple_with_peek <$> v.
End util.

(** ** [struct MultisetMultiMap<K, V>]

    A [DashMap<K, Counter<V>>] as a map of maps to counts. *)
Section multiset_multimap.
Context {K V : Type} `{Countable K, Countable V}.

Abbreviation multimap := (gmap K (gmap V nat)).

Definition add_binding (m : multimap) (k : K) (v : V) : multimap :=
  match m !! k with
  | Some current =>
    match current !! v with
    | Some count => <[k := <[v := count + 1]> current]> m
    | None => <[k := <[v := 1]> current]> m
    end
  | None => <[k := {[v := 1]}]> m
  end.

Definition remove_binding_in_place (m : multimap) (k : K) (v : V) : multimap :=
  match m !! k with
  | Some current =>
    let current' :=
      match current !! v with
      | Some count =>
        if decide (1 < count) then <[v := count - 1]> current else delete v current
      | None => current
      end in
    if decide (current' = ∅) then delete k m else <[k := current']> m
  | None => m
  end.

(** The multiset a multimap denotes: the number of copies of each binding. *)
Definition binding_count (m : multimap) (k : K) (v : V) : nat :=
  default 0 (m !! k ≫= fun c => c !! v).

(** No key has an empty counter and no counter a zero count. *)
Definition multimap_wf (m : multimap) : Prop :=
  forall k c, m !! k = Some c -> c <> ∅ /\ forall v n, c !! v = Some n -> 0 < n.

Lemma binding_count_insert m k c k' v' :
  binding_count (<[k := c]> m) k' v' =
  if decide (k = k') then default 0 (c !! v') else binding_count m k' v'.
Proof. unfold binding_count. rewrite lookup_insert. by case_decide. Qed.

Lemma multimap_wf_insert m k c :
  multimap_wf m -> c <> ∅ -> (forall v n, c !! v = Some n -> 0 < n) ->
  multimap_wf (<[k := c]> m).
Proof.
  intros Hm Hc Hn k' c'. rewrite lookup_insert. case_decide; [naive_solver|apply Hm].
Qed.

Lemma multimap_wf_delete m k : multimap_wf m -> multimap_wf (delete k m).
Proof. intros Hm k' c' [_ Hc]%lookup_delete_Some. by eapply Hm. Qed.

Lemma add_binding_wf m k v : multimap_wf m -> multimap_wf (add_binding m k v).
Proof.
  intros Hm. unfold add_binding.
  destruct (m !! k) as [c|] eqn:Hk; [destruct (c !! v) as [n|] eqn:Hv|];
    apply multimap_wf_insert; try done; try apply insert_non_empty;
    try apply map_non_empty_singleton; intros v' n';
    try (rewrite lookup_insert; case_decide; [intros [= <-]; lia|]; by eapply Hm).
  rewrite lookup_singleton_Some. intros [_ <-]. lia.
Qed.

Lemma remove_binding_wf m k v :
  multimap_wf m -> multimap_wf (remove_binding_in_place m k v).
Proof.
  intros Hm. unfold remove_binding_in_place.
  destruct (m !! k) as [c|] eqn:Hk; [|done]. destruct (Hm k c Hk) as [Hne Hpos].
  case_decide as Hemp; [by apply multimap_wf_delete|].
  apply multimap_wf_insert; [done..|]. intros v' n' Hv'.
  destruct (c !! v) as [n|] eqn:Hv; [|by eapply Hpos]. case_decide as Hn.
  - apply lookup_insert_Some in Hv' as [[_ <-]|[_ Hv']]; [lia|by eapply Hpos].
  - apply lookup_delete_Some in Hv' as [_ Hv']. by eapply Hpos.
Qed.

Lemma add_binding_count m k v k' v' :
  binding_count (add_binding m k v) k' v' =
  binding_count m k' v' + (if decide (k = k' /\ v = v') then 1 else 0).
Proof.
  unfold add_binding.
  destruct (m !! k) as [c|] eqn:Hk; [destruct (c !! v) as [n|] eqn:Hv|];
    rewrite binding_count_insert;
    (destruct (decide (k = k')) as [<-|Hne]; [|rewrite decide_False by naive_solver; lia]);
    unfold binding_count; rewrite Hk; simpl;
    (destruct (decide (v = v')) as [<-|Hne];
      [rewrite decide_True by done|rewrite decide_False by naive_solver]);
    by simplify_map_eq.
Qed.

Lemma remove_binding_count m k v k' v' :
  multimap_wf m ->
  binding_count (remove_binding_in_place m k v) k' v' =
  binding_count m k' v' - (if decide (k = k' /\ v = v') then 1 else 0).
Proof.
  intros Hm. unfold remove_binding_in_place.
  destruct (m !! k) as [c|] eqn:Hk.
  2:{ case_decide as Hd; [|lia]. destruct Hd as [<- <-].
      unfold binding_count. by rewrite Hk. }
  set (c' := match c !! v with Some _ => _ | None => _ end).
  assert (binding_count (if decide (c' = ∅) then delete k m else <[k:=c']> m) k' v' =
    if decide (k = k') then default 0 (c' !! v') else binding_count m k' v') as ->.
  { case_decide as Hemp; [|apply binding_count_insert].
    unfold binding_count. destruct (decide (k = k')) as [<-|Hne]; simplify_map_eq; [|done].
    by rewrite Hemp. }
  destruct (decide (k = k')) as [<-|Hne]; [|rewrite decide_False by naive_solver; lia].
  unfold binding_count. rewrite Hk. simpl. subst c'.
  destruct (Hm k c Hk) as [_ Hpos].
  destruct (decide (v = v')) as [<-|Hne];
    [rewrite decide_True by done|rewrite decide_False by naive_solver];
    destruct (c !! v) as [n|] eqn:Hv; try case_decide; simplify_map_eq; try lia;
    try (rewrite Hv; simpl; lia).
Qed.

(** [MultisetMultiMap] refines a multiset of bindings: [add_binding] adds one copy of
    the binding, [remove_binding_in_place] removes one if there is one, neither touches
    any other binding, and both keep the map free of empty counters and zero counts. *)
Theorem multiset_multimap_refines m k v :
  multimap_wf m ->
  multimap_wf (add_binding m k v) /\ multimap_wf (remove_binding_in_place m k v) /\
  (forall k' v', binding_count (add_binding m k v) k' v' =
     binding_count m k' v' + (if decide (k = k' /\ v = v') then 1 else 0)) /\
  (forall k' v', binding_count (remove_binding_in_place m k v) k' v' =
     binding_count m k' v' - (if decide (k = k' /\ v = v') then 1 else 0)).
Proof.
  intros Hm. split_and!; intros;
    auto using add_binding_wf, remove_binding_wf, add_binding_count, remove_binding_count.
Qed.
End multiset_multimap.

Lemma multiset_multimap_refines_witness :
  binding_count (remove_binding_in_place (add_binding (add_binding ∅ 1 2) 1 2) 1 2) 1 2 = 1.
Proof.
  assert (multimap_wf (add_binding (add_binding (∅ : gmap nat (gmap nat nat)) 1 2) 1 2))
    as Hwf by (apply add_binding_wf, add_binding_wf; intros ? ?; by rewrite lookup_empty).
  destruct (multiset_multimap_refines _ 1 2 Hwf) as (_ & _ & _ & Hrem).
  rewrite Hrem. vm_compute. reflexivity.
Defined.

(** A small instance of the codecs, used where a concrete input is evaluated: numbers as
    channels, patterns, data and continuations, and a hash that keeps its input. *)
Definition nat_codecs : Codecs nat nat nat nat :=
  let enc n := [nat_to_byte n] in
  mkCodecs _ _ _ _ enc enc enc enc (fun b => if b : bool then enc 1 else enc 0) mjoin id.

Lemma consume_identity_order_independent_witness :
  Consume_create nat_codecs [2; 1] [7; 8] 0 false =
  Consume_create nat_codecs [1; 2] [8; 7] 0 false.
Proof.
  apply (consume_identity_order_independent nat_codecs); apply Permutation_swap.
Defined.
