(* ===== verification/HotStoreSig.v ===== *)
(** * The hot store interface

    The trait [HotStore] of [rspace++/src/rspace/hot_store.rs] as a type class, with an
    abstract state [View] that says what the store promises: for each channel (or
    vector of channels) the data, waiting continuations and joins a client sees,
    whether they come from the hot state or from history.  The tuple space is verified
    against the laws of the class; [HotStore.v] shows that [InMemHotStore] satisfies
    them. *)
From S2P Require Import Prelude Events.
From stdpp Require Import pretty.

(** ** Errors ([errors.rs], [shared/.../key_value_store.rs]) *)

Inductive KvStoreError :=
| KvKeyNotFound (msg : string)
| KvIoError (msg : string)
| KvSerializationError (msg : string)
| KvInvalidArgument (msg : string)
| KvLockError (msg : string).

Inductive RadixTreeError :=
| KeyNotFound (msg : string)
| RadixKvStoreError (e : KvStoreError)
| PrefixError (msg : string)
| CollisionError (msg : string)
| SerializationError (msg : string).

Inductive RootError :=
| RootKvStoreError (msg : string)
| UnknownRootError (msg : string).

Inductive HistoryError :=
| ActionError (msg : string)
| HistoryRadixTreeError (e : RadixTreeError)
| HistoryKvStoreError (e : KvStoreError)
| HistoryRootError (e : RootError)
| MergeError (msg : string).

Inductive RSpaceError :=
| InterpreterError (msg : string)
| RSpaceHistoryError (e : HistoryError)
| RSpaceRadixTreeError (e : RadixTreeError)
| RSpaceKvStoreError (e : KvStoreError)
| BugFoundError (msg : string)
| ReportingError (msg : string).

(** ** Debug formatting ([{:?}]) of the type parameters *)

Class Debug (T : Type) := debug : T -> string.

(** [{:?}] of a vector and of a [BTreeSet], which differ in the delimiters only *)
Definition debug_seq (l r : string) (xs : list string) : string :=
  l +:+ String.concat ", " xs +:+ r.

(** [BTreeSet] iterates in ascending order. *)
Definition btree_elements (s : i32_set) : list Z := sort_by Z.compare (elements s).

Section sig.
Context {C P A K : Type} `{Countable C}.

Abbreviation wc := (WaitingContinuation P K).
Abbreviation datum := (Datum A).

(** [InMemHotStore::continuation_identity] *)
Definition continuation_identity `{!Debug P, !Debug K} (w : wc) : string :=
  debug_seq "[" "]" (debug <$> wc_patterns w) +:+ "|" +:+
  debug (wc_continuation w) +:+ "|" +:+
  (if wc_persist w then "true" else "false") +:+ "|" +:+
  debug_seq "{" "}" (pretty <$> btree_elements (wc_peeks w)).

(** [struct HotStoreState] *)
Record HotStoreState := mkState {
  continuations : gmap (list C) (list wc);
  installed_continuations : gmap (list C) wc;
  data : gmap C (list datum);
  joins : gmap C (list (list C));
  installed_joins : gmap C (list (list C));
}.

(** [HotStoreState::default()] *)
Definition empty_state : HotStoreState := mkState ∅ ∅ ∅ ∅ ∅.

(** [trait HistoryReaderBase] *)
Record HistoryReaderBase := mkReader {
  get_data_proj : C -> list datum;
  get_continuations_proj : list C -> list wc;
  get_joins_proj : C -> list (list C);
}.

(** [enum HotStoreAction], with [InsertAction] and [DeleteAction] *)
Inductive InsertAction :=
| InsertData (channel : C) (d : list datum)
| InsertJoins (channel : C) (j : list (list C))
| InsertContinuations (channels : list C) (k : list wc).
Inductive DeleteAction :=
| DeleteData (channel : C)
| DeleteJoins (channel : C)
| DeleteContinuations (channels : list C).
Inductive HotStoreAction :=
| Insert (i : InsertAction)
| Delete (d : DeleteAction).

(** ** What a client of the hot store sees *)

Record View := mkView {
  v_conts : list C -> list wc;
  v_installed : list C -> option wc;
  v_data : C -> list datum;
  v_joins : C -> list (list C);
  v_installed_joins : C -> list (list C);
}.

(** Views are compared pointwise. *)
#[global] Instance view_equiv : Equiv View := fun v w =>
  (forall chs, v_conts v chs = v_conts w chs) /\
  (forall chs, v_installed v chs = v_installed w chs) /\
  (forall ch, v_data v ch = v_data w ch) /\
  (forall ch, v_joins v ch = v_joins w ch) /\
  (forall ch, v_installed_joins v ch = v_installed_joins w ch).

#[global] Instance view_equivalence : Equivalence (≡@{View}).
Proof.
  split.
  - intros v; repeat split.
  - intros v w (?&?&?&?&?); repeat split; congruence.
  - intros u v w (?&?&?&?&?) (?&?&?&?&?); repeat split; intros; etrans; eauto.
Qed.

#[global] Instance v_conts_proper : Proper ((≡) ==> (=) ==> (=)) v_conts.
Proof. intros ?? (?&?&?&?&?) ?? ->; auto. Qed.
#[global] Instance v_installed_proper : Proper ((≡) ==> (=) ==> (=)) v_installed.
Proof. intros ?? (?&?&?&?&?) ?? ->; auto. Qed.
#[global] Instance v_data_proper : Proper ((≡) ==> (=) ==> (=)) v_data.
Proof. intros ?? (?&?&?&?&?) ?? ->; auto. Qed.
#[global] Instance v_joins_proper : Proper ((≡) ==> (=) ==> (=)) v_joins.
Proof. intros ?? (?&?&?&?&?) ?? ->; auto. Qed.
#[global] Instance v_installed_joins_proper :
  Proper ((≡) ==> (=) ==> (=)) v_installed_joins.
Proof. intros ?? (?&?&?&?&?) ?? ->; auto. Qed.

Definition set_conts (chs : list C) (k : list wc) (v : View) : View :=
  mkView (<[chs := k]> (v_conts v)) (v_installed v) (v_data v) (v_joins v)
    (v_installed_joins v).
Definition set_data (ch : C) (d : list datum) (v : View) : View :=
  mkView (v_conts v) (v_installed v) (<[ch := d]> (v_data v)) (v_joins v)
    (v_installed_joins v).
Definition set_joins (ch : C) (j : list (list C)) (v : View) : View :=
  mkView (v_conts v) (v_installed v) (v_data v) (<[ch := j]> (v_joins v))
    (v_installed_joins v).

(** *** The operations on views *)

Definition view_get_continuations (v : View) (chs : list C) : list wc :=
  option_list (v_installed v chs) ++ v_conts v chs.

Definition view_get_joins (v : View) (ch : C) : list (list C) :=
  v_installed_joins v ch ++ v_joins v ch.

(** A continuation is added in front unless one with the same identity waits already. *)
Definition view_put_continuation `{!Debug P, !Debug K} (chs : list C) (w : wc) (v : View) :
  option bool * View :=
  if decide (continuation_identity w ∈ (continuation_identity <$> v_conts v chs))
  then (Some false, v)
  else (Some true, set_conts chs (w :: v_conts v chs) v).

Definition view_install_continuation (chs : list C) (w : wc) (v : View) :
  option unit * View :=
  (Some tt, mkView (v_conts v) (<[chs := Some w]> (v_installed v)) (v_data v) (v_joins v)
     (v_installed_joins v)).

(** Index 0 names the installed continuation if there is one; it cannot be removed. *)
Definition view_remove_continuation (chs : list C) (index : Z) (v : View) :
  option unit * View :=
  let i := if v_installed v chs then (index - 1)%Z else index in
  if decide (0 <= i < Z.of_nat (length (v_conts v chs)))%Z
  then (Some tt, set_conts chs (delete (Z.to_nat i) (v_conts v chs)) v)
  else (None, v).

Definition view_put_datum (ch : C) (d : datum) (v : View) : View :=
  set_data ch (d :: v_data v ch) v.

Definition out_of_bounds (index : Z) (len : nat) : string :=
  "Index " +:+ pretty index +:+ " out of bounds when removing datum (len=" +:+
  pretty len +:+ ")".

Definition view_remove_datum (ch : C) (index : Z) (v : View) : res RSpaceError unit * View :=
  if decide (0 <= index < Z.of_nat (length (v_data v ch)))%Z
  then (Ok tt, set_data ch (delete (Z.to_nat index) (v_data v ch)) v)
  else (Err (BugFoundError (out_of_bounds index (length (v_data v ch)))), v).

Definition add_join (join : list C) (js : list (list C)) : list (list C) :=
  if decide (join ∈ js) then js else join :: js.

(** Removes the first occurrence. *)
Fixpoint drop_join (join : list C) (js : list (list C)) : list (list C) :=
  match js with
  | [] => []
  | j :: js => if decide (j = join) then js else j :: drop_join join js
  end.

Definition view_put_join (ch : C) (join : list C) (v : View) : option unit * View :=
  (Some tt, set_joins ch (add_join join (v_joins v ch)) v).

Definition view_install_join (ch : C) (join : list C) (v : View) : option unit * View :=
  (Some tt, mkView (v_conts v) (v_installed v) (v_data v) (v_joins v)
     (<[ch := add_join join (v_installed_joins v ch)]> (v_installed_joins v))).

(** A join stays as long as a continuation waits on it. *)
Definition view_remove_join (ch : C) (join : list C) (v : View) : option unit * View :=
  match view_get_continuations v join with
  | [] => (Some tt, set_joins ch (drop_join join (v_joins v ch)) v)
  | _ :: _ => (Some tt, v)
  end.

(** *** Hot state over history *)

Definition history_view (h : HistoryReaderBase) : View :=
  mkView (get_continuations_proj h) (const None) (get_data_proj h) (get_joins_proj h)
    (const []).

(** The entries of the hot state hide those of history. *)
Definition overlay (st : HotStoreState) (v : View) : View :=
  mkView
    (fun chs => default (v_conts v chs) (continuations st !! chs))
    (fun chs => installed_continuations st !! chs)
    (fun ch => default (v_data v ch) (data st !! ch))
    (fun ch => default (v_joins v ch) (joins st !! ch))
    (fun ch => default [] (installed_joins st !! ch)).

(** The effect of a checkpoint action on a history without installed entries. *)
Definition apply_action (v : View) (a : HotStoreAction) : View :=
  match a with
  | Insert (InsertData ch d) => set_data ch d v
  | Insert (InsertJoins ch j) => set_joins ch j v
  | Insert (InsertContinuations chs k) => set_conts chs k v
  | Delete (DeleteData ch) => set_data ch [] v
  | Delete (DeleteJoins ch) => set_joins ch [] v
  | Delete (DeleteContinuations chs) => set_conts chs [] v
  end.

(** ** The trait *)

Class HotStore (S : Type) := {
  get_continuations : list C -> S -> list wc * S;
  put_continuation : list C -> wc -> S -> option bool * S;
  install_continuation : list C -> wc -> S -> option unit * S;
  remove_continuation : list C -> Z -> S -> option unit * S;
  get_data : C -> S -> list datum * S;
  put_datum : C -> datum -> S -> S;
  remove_datum : C -> Z -> S -> res RSpaceError unit * S;
  get_joins : C -> S -> list (list C) * S;
  put_join : C -> list C -> S -> option unit * S;
  install_join : C -> list C -> S -> option unit * S;
  remove_join : C -> list C -> S -> option unit * S;
  changes : S -> list HotStoreAction;
  to_map : S -> gmap (list C) (Row P A K);
  snapshot : S -> HotStoreState;
  clear : S -> S;
  is_empty : S -> bool;
  set_state : HotStoreState -> S -> S;
}.
End sig.

Arguments HotStoreState C P A K {_ _}.
Arguments HistoryReaderBase : clear implicits.
Arguments InsertAction : clear implicits.
Arguments DeleteAction : clear implicits.
Arguments HotStoreAction : clear implicits.
Arguments View : clear implicits.
Arguments HotStore C P A K {_ _} S.

(** ** What the trait promises

    [view] is what a client sees, [base] what it would see after [clear]; [refines]
    says that an operation returns what the operation on views returns, has the same
    effect, and leaves history and well-formedness alone. *)
Section laws.
Context {C P A K : Type} `{Countable C}.

Definition refines {S R} (wf : S -> Prop) (view base : S -> View C P A K)
    (op : S -> R * S) (vop : View C P A K -> R * View C P A K) : Prop :=
  forall s, wf s ->
    wf (op s).2 /\ (op s).1 = (vop (view s)).1 /\ view (op s).2 ≡ (vop (view s)).2 /\
    base (op s).2 ≡ base s.

Class HotStoreLaws (S : Type) `{!HotStore C P A K S, !Debug P, !Debug K} := {
  hs_wf : S -> Prop;
  view : S -> View C P A K;
  base : S -> View C P A K;
  law_get_continuations : forall chs, refines hs_wf view base
    (get_continuations chs) (fun v => (view_get_continuations v chs, v));
  law_put_continuation : forall chs w, refines hs_wf view base
    (put_continuation chs w) (view_put_continuation chs w);
  law_install_continuation : forall chs w, refines hs_wf view base
    (install_continuation chs w) (view_install_continuation chs w);
  law_remove_continuation : forall chs i, refines hs_wf view base
    (remove_continuation chs i) (view_remove_continuation chs i);
  law_get_data : forall ch, refines hs_wf view base
    (get_data ch) (fun v => (v_data v ch, v));
  law_put_datum : forall ch d, refines hs_wf view base
    (fun s => (tt, put_datum ch d s)) (fun v => (tt, view_put_datum ch d v));
  law_remove_datum : forall ch i, refines hs_wf view base
    (remove_datum ch i) (view_remove_datum ch i);
  law_get_joins : forall ch, refines hs_wf view base
    (get_joins ch) (fun v => (view_get_joins v ch, v));
  law_put_join : forall ch j, refines hs_wf view base
    (put_join ch j) (view_put_join ch j);
  law_install_join : forall ch j, refines hs_wf view base
    (install_join ch j) (view_install_join ch j);
  law_remove_join : forall ch j, refines hs_wf view base
    (remove_join ch j) (view_remove_join ch j);
  law_changes : forall s l, hs_wf s -> l ≡ₚ changes s ->
    overlay (mkState ∅ (installed_continuations (snapshot s)) ∅ ∅
      (installed_joins (snapshot s))) (foldl apply_action (base s) l) ≡ view s;
  law_snapshot : forall s, hs_wf s -> overlay (snapshot s) (base s) ≡ view s;
  law_clear : forall s, hs_wf s ->
    hs_wf (clear s) /\ view (clear s) ≡ base s /\ base (clear s) ≡ base s;
  law_set_state : forall st s, hs_wf s ->
    hs_wf (set_state st s) /\ view (set_state st s) ≡ overlay st (base s) /\
    base (set_state st s) ≡ base s;
}.
End laws.
Arguments HotStoreLaws C P A K {_ _} S {_ _ _}.

(** ** Sequences of operations *)
Section runs.
Context {C P A K : Type} `{Countable C} `{!Debug P, !Debug K}.

Inductive HotOp :=
| OpGetContinuations (chs : list C)
| OpPutContinuation (chs : list C) (w : WaitingContinuation P K)
| OpInstallContinuation (chs : list C) (w : WaitingContinuation P K)
| OpRemoveContinuation (chs : list C) (index : Z)
| OpGetData (ch : C)
| OpPutDatum (ch : C) (d : Datum A)
| OpRemoveDatum (ch : C) (index : Z)
| OpGetJoins (ch : C)
| OpPutJoin (ch : C) (join : list C)
| OpInstallJoin (ch : C) (join : list C)
| OpRemoveJoin (ch : C) (join : list C)
| OpClear
| OpSetState (st : HotStoreState C P A K).

Inductive HotOut :=
| OutContinuations (k : list (WaitingContinuation P K))
| OutData (d : list (Datum A))
| OutJoins (j : list (list C))
| OutInserted (b : option bool)
| OutUnit (u : option unit)
| OutRemoved (r : res RSpaceError unit)
| OutDone.

Definition out {R S} (f : R -> HotOut) (p : R * S) : HotOut * S := (f p.1, p.2).

Definition hot_step {S} `{!HotStore C P A K S} (op : HotOp) (s : S) : HotOut * S :=
  match op with
  | OpGetContinuations chs => out OutContinuations (get_continuations chs s)
  | OpPutContinuation chs w => out OutInserted (put_continuation chs w s)
  | OpInstallContinuation chs w => out OutUnit (install_continuation chs w s)
  | OpRemoveContinuation chs i => out OutUnit (remove_continuation chs i s)
  | OpGetData ch => out OutData (get_data ch s)
  | OpPutDatum ch d => (OutDone, put_datum ch d s)
  | OpRemoveDatum ch i => out OutRemoved (remove_datum ch i s)
  | OpGetJoins ch => out OutJoins (get_joins ch s)
  | OpPutJoin ch j => out OutUnit (put_join ch j s)
  | OpInstallJoin ch j => out OutUnit (install_join ch j s)
  | OpRemoveJoin ch j => out OutUnit (remove_join ch j s)
  | OpClear => (OutDone, clear s)
  | OpSetState st => (OutDone, set_state st s)
  end.

Definition view_step (h : View C P A K) (op : HotOp) (v : View C P A K) :
  HotOut * View C P A K :=
  match op with
  | OpGetContinuations chs => (OutContinuations (view_get_continuations v chs), v)
  | OpPutContinuation chs w => out OutInserted (view_put_continuation chs w v)
  | OpInstallContinuation chs w => out OutUnit (view_install_continuation chs w v)
  | OpRemoveContinuation chs i => out OutUnit (view_remove_continuation chs i v)
  | OpGetData ch => (OutData (v_data v ch), v)
  | OpPutDatum ch d => (OutDone, view_put_datum ch d v)
  | OpRemoveDatum ch i => out OutRemoved (view_remove_datum ch i v)
  | OpGetJoins ch => (OutJoins (view_get_joins v ch), v)
  | OpPutJoin ch j => out OutUnit (view_put_join ch j v)
  | OpInstallJoin ch j => out OutUnit (view_install_join ch j v)
  | OpRemoveJoin ch j => out OutUnit (view_remove_join ch j v)
  | OpClear => (OutDone, h)
  | OpSetState st => (OutDone, overlay st h)
  end.

Fixpoint run {S} (step : HotOp -> S -> HotOut * S) (ops : list HotOp) (s : S) :
  list HotOut * S :=
  match ops with
  | [] => ([], s)
  | op :: ops =>
    let '(o, s) := step op s in
    let '(os, s) := run step ops s in (o :: os, s)
  end.

(** The operations on views respect the pointwise equality of views. *)
#[global] Instance set_conts_proper :
  Proper ((=) ==> (=) ==> (≡) ==> (≡)) (@set_conts C P A K _).
Proof.
  intros ? chs -> ? k -> v w (?&?&?&?&?). repeat split; simpl; auto.
  intros chs'. rewrite !fn_lookup_insert_decide. by case_decide.
Qed.
#[global] Instance set_data_proper :
  Proper ((=) ==> (=) ==> (≡) ==> (≡)) (@set_data C P A K _).
Proof.
  intros ? ch -> ? d -> v w (?&?&?&?&?). repeat split; simpl; auto.
  intros ch'. rewrite !fn_lookup_insert_decide. by case_decide.
Qed.
#[global] Instance set_joins_proper :
  Proper ((=) ==> (=) ==> (≡) ==> (≡)) (@set_joins C P A K _).
Proof.
  intros ? ch -> ? d -> v w (?&?&?&?&?). repeat split; simpl; auto.
  intros ch'. rewrite !fn_lookup_insert_decide. by case_decide.
Qed.
#[global] Instance overlay_proper st : Proper ((≡) ==> (≡)) (@overlay C P A K _ _ st).
Proof. intros v w (?&?&?&?&?). repeat split; intros; simpl; f_equal; auto. Qed.

Lemma view_step_proper op (h h' v w : View C P A K) :
  h ≡ h' -> v ≡ w ->
  (view_step h op v).1 = (view_step h' op w).1 /\
  (view_step h op v).2 ≡ (view_step h' op w).2.
Proof.
  intros Hh Hvw. pose proof Hvw as (Hc & Hi & Hd & Hj & Hij). destruct op; simpl;
    unfold view_get_continuations, view_put_continuation, view_remove_continuation,
      view_put_datum, view_remove_datum, view_get_joins, view_remove_join,
      view_get_continuations; simpl;
    rewrite ?Hc, ?Hi, ?Hd, ?Hj, ?Hij;
    try (by rewrite Hvw); repeat case_match; simpl; try by rewrite ?Hvw.
  - split; [done|]. repeat split; simpl; auto. intros chs'.
    rewrite !fn_lookup_insert_decide. by case_decide.
  - split; [done|]. repeat split; simpl; auto. intros ch'.
    rewrite !fn_lookup_insert_decide. by case_decide.
  - by rewrite Hh.
Qed.

Context {S : Type} `{!HotStore C P A K S, !HotStoreLaws C P A K S}.

Lemma out_refines {R} (f : R -> HotOut) (op : S -> R * S) vop :
  refines hs_wf view base op vop ->
  refines hs_wf view base (fun s => out f (op s)) (fun v => out f (vop v)).
Proof. intros Hop s Hs. destruct (Hop s Hs) as (? & Hr & ? & ?). simpl. by rewrite Hr. Qed.

Lemma hot_step_refines op s : hs_wf s ->
  hs_wf (hot_step op s).2 /\ (hot_step op s).1 = (view_step (base s) op (view s)).1 /\
  view (hot_step op s).2 ≡ (view_step (base s) op (view s)).2 /\
  base (hot_step op s).2 ≡ base s.
Proof.
  intros Hs. destruct op; simpl;
    try (apply (out_refines _ _ _ (law_put_continuation _ _)); done);
    try (apply (out_refines _ _ _ (law_install_continuation _ _)); done);
    try (apply (out_refines _ _ _ (law_remove_continuation _ _)); done);
    try (apply (out_refines _ _ _ (law_remove_datum _ _)); done);
    try (apply (out_refines _ _ _ (law_put_join _ _)); done);
    try (apply (out_refines _ _ _ (law_install_join _ _)); done);
    try (apply (out_refines _ _ _ (law_remove_join _ _)); done).
  - apply (out_refines OutContinuations _ _ (law_get_continuations chs) s Hs).
  - apply (out_refines OutData _ _ (law_get_data ch) s Hs).
  - destruct (law_put_datum ch d s Hs) as (? & _ & ? & ?). done.
  - apply (out_refines OutJoins _ _ (law_get_joins ch) s Hs).
  - destruct (law_clear s Hs) as (? & ? & ?). done.
  - destruct (law_set_state st s Hs) as (? & ? & ?). done.
Qed.

(** Every sequence of operations on a hot store returns what the sequence of operations
    on views returns and has the same effect. *)
Lemma hot_run_refines ops s (h v : View C P A K) : hs_wf s -> base s ≡ h -> view s ≡ v ->
  hs_wf (run hot_step ops s).2 /\ base (run hot_step ops s).2 ≡ h /\
  (run hot_step ops s).1 = (run (view_step h) ops v).1 /\
  view (run hot_step ops s).2 ≡ (run (view_step h) ops v).2.
Proof.
  revert s v. induction ops as [|op ops IH]; intros s v Hs Hh Hv; simpl; [done|].
  destruct (hot_step_refines op s Hs) as (Hs' & Ho & Hv' & Hb').
  destruct (view_step_proper op _ _ _ _ Hh Hv) as [Ho2 Hv2].
  destruct (hot_step op s) as [o s'], (view_step h op v) as [o' v']. simpl in *.
  destruct (IH s' v') as (? & ? & Hos & ?); [done|by etrans|by etrans|].
  destruct (run hot_step ops s') as [os s''], (run (view_step h) ops v') as [os' v''].
  simpl in *. by rewrite Ho, Ho2, Hos.
Qed.
End runs.
Arguments HotOp C P A K {_ _}.
Arguments HotOut : clear implicits.
