(* ===== verification/HotStore.v ===== *)
(** * The in-memory hot store

    [InMemHotStore] of [rspace++/src/rspace/hot_store.rs]: a hot state over a read-only
    history, with a bounded cache of what was read from history.  Locks and metrics
    are left out: each operation runs under the write lock of its state, and the
    metrics do not influence results. *)
From S2P Require Import Prelude Events HotStoreSig.

Definition MAX_HISTORY_STORE_CACHE_ENTRIES : nat := 512.
Definition MAX_HISTORY_STORE_CACHE_CONT_ITEMS : nat := 8192.
Definition MAX_HISTORY_STORE_CACHE_DATA_ITEMS : nat := 8192.
Definition MAX_HISTORY_STORE_CACHE_JOIN_ITEMS : nat := 8192.

Section inmem.
Context {C P A K : Type} `{Countable C} `{!Debug P, !Debug K}.

Abbreviation wc := (WaitingContinuation P K).
Abbreviation datum := (Datum A).

(** [struct HistoryStoreCache] *)
Record HistoryStoreCache := mkCache {
  hc_continuations : gmap (list C) (list wc);
  hc_datums : gmap C (list datum);
  hc_joins : gmap C (list (list C));
}.

(** [struct InMemHotStore] *)
Record InMemHotStore := mkInMem {
  hs_state : HotStoreState C P A K;
  history_cache : HistoryStoreCache;
  history_reader_base : HistoryReaderBase C P A K;
}.

Definition with_state (st : HotStoreState C P A K) (s : InMemHotStore) : InMemHotStore :=
  mkInMem st (history_cache s) (history_reader_base s).
Definition with_cache (c : HistoryStoreCache) (s : InMemHotStore) : InMemHotStore :=
  mkInMem (hs_state s) c (history_reader_base s).

Definition with_continuations (chs : list C) (k : list wc) (s : InMemHotStore) :=
  let st := hs_state s in
  with_state (mkState (<[chs := k]> (continuations st)) (installed_continuations st)
    (data st) (joins st) (installed_joins st)) s.
Definition with_data (ch : C) (d : list datum) (s : InMemHotStore) :=
  let st := hs_state s in
  with_state (mkState (continuations st) (installed_continuations st)
    (<[ch := d]> (data st)) (joins st) (installed_joins st)) s.
Definition with_joins (ch : C) (j : list (list C)) (s : InMemHotStore) :=
  let st := hs_state s in
  with_state (mkState (continuations st) (installed_continuations st)
    (data st) (<[ch := j]> (joins st)) (installed_joins st)) s.

(** ** Reading history through the cache *)

(** [values().map(|v| v.len()).sum()] *)
Definition items {I X} `{Countable I} (m : gmap I (list X)) : nat :=
  map_fold (fun _ v n => length v + n) 0 m.

(** One of the three clauses of [enforce_history_cache_bounds]. *)
Definition bound_cache {I X} `{Countable I} (max_items : nat) (m : gmap I (list X)) :
  gmap I (list X) :=
  if decide (MAX_HISTORY_STORE_CACHE_ENTRIES <= size m \/ max_items <= items m)
  then ∅ else m.

Definition enforce_history_cache_bounds (c : HistoryStoreCache) : HistoryStoreCache :=
  mkCache (bound_cache MAX_HISTORY_STORE_CACHE_CONT_ITEMS (hc_continuations c))
    (bound_cache MAX_HISTORY_STORE_CACHE_DATA_ITEMS (hc_datums c))
    (bound_cache MAX_HISTORY_STORE_CACHE_JOIN_ITEMS (hc_joins c)).

Definition get_cont_from_history_store (chs : list C) (s : InMemHotStore) :
  list wc * InMemHotStore :=
  let c := enforce_history_cache_bounds (history_cache s) in
  match hc_continuations c !! chs with
  | Some k => (k, with_cache c s)
  | None =>
    let ks := get_continuations_proj (history_reader_base s) chs in
    (ks, with_cache (mkCache (<[chs := ks]> (hc_continuations c)) (hc_datums c)
           (hc_joins c)) s)
  end.

Definition get_data_from_history_store (ch : C) (s : InMemHotStore) :
  list datum * InMemHotStore :=
  let c := enforce_history_cache_bounds (history_cache s) in
  match hc_datums c !! ch with
  | Some d => (d, with_cache c s)
  | None =>
    let datums := get_data_proj (history_reader_base s) ch in
    (datums, with_cache (mkCache (hc_continuations c) (<[ch := datums]> (hc_datums c))
               (hc_joins c)) s)
  end.

Definition get_joins_from_history_store (ch : C) (s : InMemHotStore) :
  list (list C) * InMemHotStore :=
  let c := enforce_history_cache_bounds (history_cache s) in
  match hc_joins c !! ch with
  | Some j => (j, with_cache c s)
  | None =>
    let js := get_joins_proj (history_reader_base s) ch in
    (js, with_cache (mkCache (hc_continuations c) (hc_datums c)
           (<[ch := js]> (hc_joins c))) s)
  end.

(** ** The operations of the trait *)

(** [fn get_continuations] *)
Definition inmem_get_continuations (chs : list C) (s : InMemHotStore) :
  list wc * InMemHotStore :=
  match continuations (hs_state s) !! chs, installed_continuations (hs_state s) !! chs with
  | Some conts, Some inst => (inst :: conts, s)
  | Some conts, None => (conts, s)
  | None, Some inst =>
    let '(from_history_store, s) := get_cont_from_history_store chs s in
    (inst :: from_history_store, with_continuations chs from_history_store s)
  | None, None =>
    let '(from_history_store, s) := get_cont_from_history_store chs s in
    (from_history_store, with_continuations chs from_history_store s)
  end.

(** [iter().any(|existing| continuation_identity(existing) == wc_identity)] *)
Definition has_identity (id : string) (l : list wc) : bool :=
  existsb (fun existing => bool_decide (continuation_identity existing = id)) l.

(** [fn put_continuation] *)
Definition inmem_put_continuation (chs : list C) (w : wc) (s : InMemHotStore) :
  option bool * InMemHotStore :=
  let wc_identity := continuation_identity w in
  match continuations (hs_state s) !! chs with
  | Some occupied =>
    if has_identity wc_identity occupied then (Some false, s)
    else (Some true, with_continuations chs (w :: occupied) s)
  | None =>
    let '(new_continuations, s) := get_cont_from_history_store chs s in
    if has_identity wc_identity new_continuations
    then (Some false, with_continuations chs new_continuations s)
    else (Some true, with_continuations chs (w :: new_continuations) s)
  end.

(** [fn install_continuation] *)
Definition inmem_install_continuation (chs : list C) (w : wc) (s : InMemHotStore) :
  option unit * InMemHotStore :=
  let st := hs_state s in
  (Some tt,
   with_state (mkState (continuations st) (<[chs := w]> (installed_continuations st))
     (data st) (joins st) (installed_joins st)) s).

(** [removed_index < 0 || removed_index as usize >= len] *)
Definition index_out_of_bounds {X} (i : Z) (l : list X) : bool :=
  bool_decide (i < 0)%Z || bool_decide (Z.of_nat (length l) <= i)%Z.

(** [fn remove_continuation] *)
Definition inmem_remove_continuation (chs : list C) (index : Z) (s : InMemHotStore) :
  option unit * InMemHotStore :=
  let is_installed := bool_decide (is_Some (installed_continuations (hs_state s) !! chs)) in
  let removing_installed := is_installed && bool_decide (index = 0%Z) in
  let removed_index := if is_installed then (index - 1)%Z else index in
  if removing_installed then (None, s)
  else
    match continuations (hs_state s) !! chs with
    | Some occupied =>
      if index_out_of_bounds removed_index occupied then (None, s)
      else (Some tt, with_continuations chs (delete (Z.to_nat removed_index) occupied) s)
    | None =>
      let '(from_history_store, s) := get_cont_from_history_store chs s in
      if index_out_of_bounds removed_index from_history_store
      then (None, with_continuations chs from_history_store s)
      else (Some tt, with_continuations chs
              (delete (Z.to_nat removed_index) from_history_store) s)
    end.

(** [fn get_data] *)
Definition inmem_get_data (ch : C) (s : InMemHotStore) : list datum * InMemHotStore :=
  match data (hs_state s) !! ch with
  | Some d => (d, s)
  | None =>
    let '(d, s) := get_data_from_history_store ch s in
    (d, with_data ch d s)
  end.

(** [fn put_datum] *)
Definition inmem_put_datum (ch : C) (d : datum) (s : InMemHotStore) : InMemHotStore :=
  match data (hs_state s) !! ch with
  | Some occupied => with_data ch (d :: occupied) s
  | None =>
    let '(new_data, s) := get_data_from_history_store ch s in
    with_data ch (d :: new_data) s
  end.

(** [fn remove_datum] *)
Definition inmem_remove_datum (ch : C) (index : Z) (s : InMemHotStore) :
  res RSpaceError unit * InMemHotStore :=
  match data (hs_state s) !! ch with
  | Some occupied =>
    if index_out_of_bounds index occupied
    then (Err (BugFoundError (out_of_bounds index (length occupied))), s)
    else (Ok tt, with_data ch (delete (Z.to_nat index) occupied) s)
  | None =>
    let '(from_history_store, s) := get_data_from_history_store ch s in
    if index_out_of_bounds index from_history_store
    then (Err (BugFoundError (out_of_bounds index (length from_history_store))),
          with_data ch from_history_store s)
    else (Ok tt, with_data ch (delete (Z.to_nat index) from_history_store) s)
  end.

(** [fn get_joins] *)
Definition inmem_get_joins (ch : C) (s : InMemHotStore) : list (list C) * InMemHotStore :=
  let installed := default [] (installed_joins (hs_state s) !! ch) in
  match joins (hs_state s) !! ch with
  | Some joins_data => (installed ++ joins_data, s)
  | None =>
    let '(from_history_store, s) := get_joins_from_history_store ch s in
    (installed ++ from_history_store, with_joins ch from_history_store s)
  end.

(** [iter().any(|j| j.as_slice() == join)] *)
Definition has_join (join : list C) (js : list (list C)) : bool :=
  existsb (fun j => bool_decide (j = join)) js.

(** [fn put_join] *)
Definition inmem_put_join (ch : C) (join : list C) (s : InMemHotStore) :
  option unit * InMemHotStore :=
  match joins (hs_state s) !! ch with
  | Some occupied =>
    (Some tt, if has_join join occupied then s else with_joins ch (join :: occupied) s)
  | None =>
    let '(js, s) := get_joins_from_history_store ch s in
    (Some tt, with_joins ch (if has_join join js then js else join :: js) s)
  end.

(** [fn install_join] *)
Definition inmem_install_join (ch : C) (join : list C) (s : InMemHotStore) :
  option unit * InMemHotStore :=
  let st := hs_state s in
  let set j := with_state (mkState (continuations st) (installed_continuations st)
    (data st) (joins st) (<[ch := j]> (installed_joins st))) s in
  (Some tt,
   match installed_joins st !! ch with
   | Some occupied => if has_join join occupied then s else set (join :: occupied)
   | None => set [join]
   end).

(** The removal of the first equal join, found with [position]. *)
Definition remove_first (join : list C) (js : list (list C)) : list (list C) :=
  match position (fun x => bool_decide (x = join)) js with
  | Some idx => delete idx js
  | None => js
  end.

(** [fn remove_join] *)
Definition inmem_remove_join (ch : C) (join : list C) (s : InMemHotStore) :
  option unit * InMemHotStore :=
  let has_join_in_state := bool_decide (is_Some (joins (hs_state s) !! ch)) in
  let installed := option_list (installed_continuations (hs_state s) !! join) in
  let '(conts, s) :=
    match continuations (hs_state s) !! join with
    | Some k => (k, s)
    | None => get_cont_from_history_store join s
    end in
  match installed ++ conts with
  | _ :: _ =>
    if has_join_in_state then (Some tt, s)
    else
      let '(js, s) := get_joins_from_history_store ch s in
      (Some tt, with_joins ch js s)
  | [] =>
    match joins (hs_state s) !! ch with
    | Some occupied => (Some tt, with_joins ch (remove_first join occupied) s)
    | None =>
      let '(js, s) := get_joins_from_history_store ch s in
      (Some tt, with_joins ch (remove_first join js) s)
    end
  end.

(** [fn changes]: the entries of the three maps, in the iteration order of the maps. *)
Definition inmem_changes (s : InMemHotStore) : list (HotStoreAction C P A K) :=
  ((fun '(k, v) => match v with
     | [] => Delete (DeleteContinuations k)
     | _ => Insert (InsertContinuations k v)
     end) <$> map_to_list (continuations (hs_state s))) ++
  ((fun '(k, v) => match v with
     | [] => Delete (DeleteData k)
     | _ => Insert (InsertData k v)
     end) <$> map_to_list (data (hs_state s))) ++
  ((fun '(k, v) => match v with
     | [] => Delete (DeleteJoins k)
     | _ => Insert (InsertJoins k v)
     end) <$> map_to_list (joins (hs_state s))).

(** [fn to_map]: rows of the single channels with data or continuations; installed
    continuations come last. *)
Definition inmem_to_map (s : InMemHotStore) : gmap (list C) (Row P A K) :=
  let all_continuations : gmap (list C) (list wc) :=
    union_with (fun k i => Some (k ++ i)) (continuations (hs_state s))
      ((fun w => [w]) <$> installed_continuations (hs_state s)) in
  omap (fun row => if decide (row_data row = [] /\ row_wks row = []) then None else Some row)
    (list_to_map
      ((fun '(k, v) => ([k], mkRow v (default [] (all_continuations !! [k]))))
        <$> map_to_list (data (hs_state s)))).

(** [fn clear] *)
Definition inmem_clear (s : InMemHotStore) : InMemHotStore :=
  mkInMem empty_state (mkCache ∅ ∅ ∅) (history_reader_base s).

(** [fn is_empty] *)
Definition inmem_is_empty (s : InMemHotStore) : bool :=
  negb (existsb (fun a => match a with Insert _ => true | Delete _ => false end)
    (inmem_changes s)).

(** [InMemHotStore] implements the trait; [snapshot] and [set_state] read and replace
    the hot state. *)
#[global] Instance inmem_hot_store : HotStore C P A K InMemHotStore := {|
  get_continuations := inmem_get_continuations;
  put_continuation := inmem_put_continuation;
  install_continuation := inmem_install_continuation;
  remove_continuation := inmem_remove_continuation;
  get_data := inmem_get_data;
  put_datum := inmem_put_datum;
  remove_datum := inmem_remove_datum;
  get_joins := inmem_get_joins;
  put_join := inmem_put_join;
  install_join := inmem_install_join;
  remove_join := inmem_remove_join;
  changes := inmem_changes;
  to_map := inmem_to_map;
  snapshot := hs_state;
  clear := inmem_clear;
  is_empty := inmem_is_empty;
  set_state := with_state;
|}.

(** [HotStoreInstances::create_from_hs_and_hr], [create_from_hr] *)
Definition create_from_hs_and_hr (cache : HotStoreState C P A K)
  (history_reader : HistoryReaderBase C P A K) : InMemHotStore :=
  mkInMem cache (mkCache ∅ ∅ ∅) history_reader.
Definition create_from_hr (history_reader : HistoryReaderBase C P A K) : InMemHotStore :=
  create_from_hs_and_hr empty_state history_reader.

(** ** The cache agrees with history and stays bounded *)

Record cache_ok (h : HistoryReaderBase C P A K) (c : HistoryStoreCache) : Prop := {
  ok_continuations chs k :
    hc_continuations c !! chs = Some k -> k = get_continuations_proj h chs;
  ok_datums ch d : hc_datums c !! ch = Some d -> d = get_data_proj h ch;
  ok_joins ch j : hc_joins c !! ch = Some j -> j = get_joins_proj h ch;
  size_continuations : size (hc_continuations c) <= MAX_HISTORY_STORE_CACHE_ENTRIES;
  size_datums : size (hc_datums c) <= MAX_HISTORY_STORE_CACHE_ENTRIES;
  size_joins : size (hc_joins c) <= MAX_HISTORY_STORE_CACHE_ENTRIES;
}.

Definition inmem_wf (s : InMemHotStore) : Prop :=
  cache_ok (history_reader_base s) (history_cache s).

Definition inmem_base (s : InMemHotStore) : View C P A K :=
  history_view (history_reader_base s).
Definition inmem_view (s : InMemHotStore) : View C P A K :=
  overlay (hs_state s) (inmem_base s).

Lemma bound_cache_lookup {I X} `{Countable I} n (m : gmap I (list X)) i x :
  bound_cache n m !! i = Some x -> m !! i = Some x.
Proof. unfold bound_cache. case_decide; [by rewrite lookup_empty|done]. Qed.

Lemma bound_cache_size {I X} `{Countable I} n (m : gmap I (list X)) :
  size (bound_cache n m) < MAX_HISTORY_STORE_CACHE_ENTRIES.
Proof.
  unfold bound_cache. case_decide as Hd; [|lia].
  rewrite map_size_empty. unfold MAX_HISTORY_STORE_CACHE_ENTRIES. lia.
Qed.

Lemma enforce_ok h c : cache_ok h c -> cache_ok h (enforce_history_cache_bounds c).
Proof.
  intros []. split; simpl; intros;
    eauto using bound_cache_lookup, Nat.lt_le_incl, bound_cache_size.
Qed.

Lemma insert_bounded {I X} `{Countable I} n (m : gmap I (list X)) i x :
  size (<[i := x]> (bound_cache n m)) <= MAX_HISTORY_STORE_CACHE_ENTRIES.
Proof.
  pose proof (bound_cache_size n m). rewrite map_size_insert. case_match; unfold id; lia.
Qed.

(** Reading history through the cache returns what history holds and changes nothing
    but the cache. *)
Definition reads_history {R} (r : R) (read : R * InMemHotStore) (s : InMemHotStore) : Prop :=
  inmem_wf read.2 /\ read.1 = r /\ hs_state read.2 = hs_state s /\
  history_reader_base read.2 = history_reader_base s.

Ltac solve_reads Hc :=
  repeat split; simpl; destruct Hc; simpl in *; intros; try done; eauto;
  try apply insert_bounded;
  match goal with
  | HL : <[_ := _]> _ !! _ = Some _ |- _ =>
    apply lookup_insert_Some in HL as [[<- <-]|[_ HL]]; eauto
  end.

Lemma get_cont_from_history_spec chs s : inmem_wf s ->
  reads_history (get_continuations_proj (history_reader_base s) chs)
    (get_cont_from_history_store chs s) s.
Proof.
  intros Hs. unfold get_cont_from_history_store.
  pose proof (enforce_ok _ _ Hs) as Hc.
  destruct (_ !! chs) as [k|] eqn:Hk; solve_reads Hc.
Qed.

Lemma get_data_from_history_spec ch s : inmem_wf s ->
  reads_history (get_data_proj (history_reader_base s) ch)
    (get_data_from_history_store ch s) s.
Proof.
  intros Hs. unfold get_data_from_history_store.
  pose proof (enforce_ok _ _ Hs) as Hc.
  destruct (_ !! ch) as [d|] eqn:Hd; solve_reads Hc.
Qed.

Lemma get_joins_from_history_spec ch s : inmem_wf s ->
  reads_history (get_joins_proj (history_reader_base s) ch)
    (get_joins_from_history_store ch s) s.
Proof.
  intros Hs. unfold get_joins_from_history_store.
  pose proof (enforce_ok _ _ Hs) as Hc.
  destruct (_ !! ch) as [j|] eqn:Hj; solve_reads Hc.
Qed.

(** ** Each operation refines the operation on views *)

Ltac view_ext :=
  repeat split; intros; simpl;
  rewrite ?fn_lookup_insert_decide, ?lookup_insert; repeat case_decide;
  subst; simpl; try done.

Lemma view_with_continuations chs k s :
  inmem_view (with_continuations chs k s) ≡ set_conts chs k (inmem_view s).
Proof. view_ext. Qed.
Lemma view_with_data ch d s :
  inmem_view (with_data ch d s) ≡ set_data ch d (inmem_view s).
Proof. view_ext. Qed.
Lemma view_with_joins ch j s :
  inmem_view (with_joins ch j s) ≡ set_joins ch j (inmem_view s).
Proof. view_ext. Qed.

Lemma set_conts_id chs (v : View C P A K) : set_conts chs (v_conts v chs) v ≡ v.
Proof. view_ext. Qed.
Lemma set_data_id ch (v : View C P A K) : set_data ch (v_data v ch) v ≡ v.
Proof. view_ext. Qed.
Lemma set_joins_id ch (v : View C P A K) : set_joins ch (v_joins v ch) v ≡ v.
Proof. view_ext. Qed.

(** Entries in view, by whether the hot state holds one. *)
Lemma view_conts_Some chs s k :
  continuations (hs_state s) !! chs = Some k -> v_conts (inmem_view s) chs = k.
Proof. simpl. by intros ->. Qed.
Lemma view_data_Some ch s d :
  data (hs_state s) !! ch = Some d -> v_data (inmem_view s) ch = d.
Proof. simpl. by intros ->. Qed.
Lemma view_joins_Some ch s j :
  joins (hs_state s) !! ch = Some j -> v_joins (inmem_view s) ch = j.
Proof. simpl. by intros ->. Qed.

(** A read of history for an entry the hot state lacks returns the entry in view. *)
Definition loaded {R} (r : R) (read : R * InMemHotStore) (s : InMemHotStore) : Prop :=
  exists s', read = (r, s') /\ inmem_wf s' /\ inmem_view s' = inmem_view s /\
    inmem_base s' = inmem_base s /\ hs_state s' = hs_state s.

Lemma reads_history_loaded {R} (r : R) read s : reads_history r read s -> loaded r read s.
Proof.
  destruct read as [r' s']. intros (Hwf & Hr & Hst & Hrd). exists s'. simpl in *.
  unfold inmem_view, inmem_base. by rewrite Hst, Hrd, Hr.
Qed.

Lemma load_conts chs s : inmem_wf s -> continuations (hs_state s) !! chs = None ->
  loaded (v_conts (inmem_view s) chs) (get_cont_from_history_store chs s) s.
Proof.
  intros Hs Hk. apply reads_history_loaded. simpl. rewrite Hk.
  by apply get_cont_from_history_spec.
Qed.
Lemma load_data ch s : inmem_wf s -> data (hs_state s) !! ch = None ->
  loaded (v_data (inmem_view s) ch) (get_data_from_history_store ch s) s.
Proof.
  intros Hs Hk. apply reads_history_loaded. simpl. rewrite Hk.
  by apply get_data_from_history_spec.
Qed.
Lemma load_joins ch s : inmem_wf s -> joins (hs_state s) !! ch = None ->
  loaded (v_joins (inmem_view s) ch) (get_joins_from_history_store ch s) s.
Proof.
  intros Hs Hk. apply reads_history_loaded. simpl. rewrite Hk.
  by apply get_joins_from_history_spec.
Qed.

Definition inmem_refines {R} := refines (R:=R) inmem_wf inmem_view inmem_base.

(** Closes the four conjuncts of a refinement once the result is computed. *)
Ltac finish_refines :=
  split_and!;
  [ done | cbn [fst snd]; try done
  | cbn [fst snd];
    rewrite ?view_with_continuations, ?view_with_data, ?view_with_joins;
    repeat match goal with Hv : inmem_view _ = inmem_view _ |- _ => rewrite Hv end;
    rewrite ?set_conts_id, ?set_data_id, ?set_joins_id; try done
  | cbn [fst snd]; try done;
    match goal with Hb : inmem_base _ = inmem_base _ |- _ => by rewrite <-Hb end ].

Lemma inmem_law_get_continuations chs :
  inmem_refines (inmem_get_continuations chs) (fun v => (view_get_continuations v chs, v)).
Proof.
  intros s Hs. unfold inmem_get_continuations, view_get_continuations.
  change (v_installed (inmem_view s) chs)
    with (installed_continuations (hs_state s) !! chs).
  destruct (continuations (hs_state s) !! chs) as [k|] eqn:Hk.
  - rewrite (view_conts_Some _ _ _ Hk).
    by destruct (installed_continuations (hs_state s) !! chs).
  - destruct (load_conts chs s Hs Hk) as (s' & -> & Hwf & Hv & Hb & _).
    destruct (installed_continuations (hs_state s) !! chs); finish_refines.
Qed.

Lemma has_identity_spec id (l : list wc) :
  has_identity id l =
  if decide (id ∈ (continuation_identity <$> l)) then true else false.
Proof.
  change (has_identity id l = bool_decide (id ∈ (continuation_identity <$> l))).
  unfold has_identity. apply eq_true_iff_eq. rewrite existsb_exists, bool_decide_eq_true.
  rewrite list_elem_of_fmap. setoid_rewrite list_elem_of_In.
  setoid_rewrite bool_decide_eq_true. naive_solver.
Qed.

Lemma inmem_law_put_continuation chs w :
  inmem_refines (inmem_put_continuation chs w) (view_put_continuation chs w).
Proof.
  intros s Hs. unfold inmem_put_continuation, view_put_continuation.
  destruct (continuations (hs_state s) !! chs) as [k|] eqn:Hk.
  - rewrite (view_conts_Some _ _ _ Hk), has_identity_spec.
    case_decide; finish_refines.
  - destruct (load_conts chs s Hs Hk) as (s' & -> & Hwf & Hv & Hb & _).
    rewrite has_identity_spec.
    case_decide; finish_refines.
Qed.

Lemma inmem_law_install_continuation chs w :
  inmem_refines (inmem_install_continuation chs w) (view_install_continuation chs w).
Proof. intros s Hs. split_and!; [done|done| |done]. view_ext. Qed.

Lemma index_out_of_bounds_spec {X} i (l : list X) :
  index_out_of_bounds i l = if decide (0 <= i < Z.of_nat (length l))%Z then false else true.
Proof.
  unfold index_out_of_bounds. repeat case_bool_decide; case_decide; simpl; try done; lia.
Qed.

Lemma inmem_law_remove_continuation chs i :
  inmem_refines (inmem_remove_continuation chs i) (view_remove_continuation chs i).
Proof.
  intros s Hs. unfold inmem_remove_continuation, view_remove_continuation.
  change (v_installed (inmem_view s) chs)
    with (installed_continuations (hs_state s) !! chs).
  set (inst := installed_continuations (hs_state s) !! chs).
  set (j := if inst then (i - 1)%Z else i).
  replace (if bool_decide (is_Some inst) then (i - 1)%Z else i) with j
    by (subst j; by destruct inst).
  destruct (bool_decide (is_Some inst) && bool_decide (i = 0%Z)) eqn:Hinst.
  { apply andb_true_iff in Hinst as [Hin%bool_decide_eq_true ->%bool_decide_eq_true].
    destruct Hin as [w Hw]. subst j. rewrite Hw. rewrite decide_False by lia. done. }
  clear Hinst. clearbody j. clear inst.
  destruct (continuations (hs_state s) !! chs) as [k|] eqn:Hk.
  - rewrite (view_conts_Some _ _ _ Hk), index_out_of_bounds_spec.
    case_decide; finish_refines.
  - destruct (load_conts chs s Hs Hk) as (s' & -> & Hwf & Hv & Hb & _).
    rewrite index_out_of_bounds_spec.
    case_decide; finish_refines.
Qed.

Lemma inmem_law_get_data ch :
  inmem_refines (inmem_get_data ch) (fun v => (v_data v ch, v)).
Proof.
  intros s Hs. unfold inmem_get_data.
  destruct (data (hs_state s) !! ch) as [d|] eqn:Hd.
  - by rewrite (view_data_Some _ _ _ Hd).
  - destruct (load_data ch s Hs Hd) as (s' & -> & Hwf & Hv & Hb & _). finish_refines.
Qed.

Lemma inmem_law_put_datum ch d :
  inmem_refines (fun s => (tt, inmem_put_datum ch d s))
    (fun v => (tt, view_put_datum ch d v)).
Proof.
  intros s Hs. unfold inmem_put_datum, view_put_datum.
  destruct (data (hs_state s) !! ch) as [l|] eqn:Hd.
  - rewrite (view_data_Some _ _ _ Hd). finish_refines.
  - destruct (load_data ch s Hs Hd) as (s' & -> & Hwf & Hv & Hb & _). finish_refines.
Qed.

Lemma inmem_law_remove_datum ch i :
  inmem_refines (inmem_remove_datum ch i) (view_remove_datum ch i).
Proof.
  intros s Hs. unfold inmem_remove_datum, view_remove_datum.
  destruct (data (hs_state s) !! ch) as [l|] eqn:Hd.
  - rewrite (view_data_Some _ _ _ Hd), index_out_of_bounds_spec.
    case_decide; finish_refines.
  - destruct (load_data ch s Hs Hd) as (s' & -> & Hwf & Hv & Hb & _).
    rewrite index_out_of_bounds_spec. case_decide; finish_refines.
Qed.

Lemma inmem_law_get_joins ch :
  inmem_refines (inmem_get_joins ch) (fun v => (view_get_joins v ch, v)).
Proof.
  intros s Hs. unfold inmem_get_joins, view_get_joins.
  destruct (joins (hs_state s) !! ch) as [j|] eqn:Hj.
  - by rewrite (view_joins_Some _ _ _ Hj).
  - destruct (load_joins ch s Hs Hj) as (s' & -> & Hwf & Hv & Hb & _). finish_refines.
Qed.

Lemma has_join_add join js :
  (if has_join join js then js else join :: js) = add_join join js.
Proof.
  unfold has_join, add_join. case_decide as Hin.
  - destruct (existsb _ js) eqn:He; [done|]. apply not_true_iff_false in He. destruct He.
    apply existsb_exists. exists join. rewrite bool_decide_eq_true.
    by apply list_elem_of_In in Hin.
  - destruct (existsb _ js) eqn:He; [|done]. destruct Hin.
    apply existsb_exists in He as (x & Hx & ->%bool_decide_eq_true).
    by apply list_elem_of_In.
Qed.

Lemma remove_first_drop join js : remove_first join js = drop_join join js.
Proof.
  unfold remove_first, position. induction js as [|j js IH]; simpl; [done|].
  case_bool_decide as Hj; destruct (decide (j = join)); try done; simpl.
  rewrite <-IH. by destruct (list_find _ js) as [[]|].
Qed.

Lemma inmem_law_put_join ch j :
  inmem_refines (inmem_put_join ch j) (view_put_join ch j).
Proof.
  intros s Hs. unfold inmem_put_join, view_put_join.
  destruct (joins (hs_state s) !! ch) as [js|] eqn:Hj.
  - pose proof (has_join_add j js) as Hadd.
    destruct (has_join j js); rewrite <-?Hadd, (view_joins_Some _ _ _ Hj), <-Hadd.
    + rewrite <-(view_joins_Some _ _ _ Hj). finish_refines.
    + finish_refines.
  - destruct (load_joins ch s Hs Hj) as (s' & -> & Hwf & Hv & Hb & _).
    rewrite has_join_add. finish_refines.
Qed.

Lemma inmem_law_install_join ch j :
  inmem_refines (inmem_install_join ch j) (view_install_join ch j).
Proof.
  intros s Hs. unfold inmem_install_join, view_install_join. simpl.
  destruct (installed_joins (hs_state s) !! ch) as [js|] eqn:Hj; simpl.
  - rewrite <-has_join_add. destruct (has_join j js); split_and!; try done; view_ext.
    by rewrite Hj.
  - split_and!; try done. view_ext.
Qed.

Lemma inmem_law_remove_join ch j :
  inmem_refines (inmem_remove_join ch j) (view_remove_join ch j).
Proof.
  intros s Hs. unfold inmem_remove_join, view_remove_join, view_get_continuations.
  assert (loaded (v_conts (inmem_view s) j)
    (match continuations (hs_state s) !! j with
     | Some k => (k, s) | None => get_cont_from_history_store j s end) s)
    as (s1 & -> & Hwf & Hv & Hb & Hst).
  { destruct (continuations (hs_state s) !! j) as [k|] eqn:Hk.
    - exists s. by rewrite (view_conts_Some _ _ _ Hk).
    - by apply load_conts. }
  change (v_installed (inmem_view s) j)
    with (installed_continuations (hs_state s) !! j).
  rewrite <-Hst.
  destruct (option_list _ ++ _) as [|k ks]; destruct (joins (hs_state s1) !! ch) eqn:Hj.
  - rewrite remove_first_drop, <-(view_joins_Some _ _ _ Hj), Hv. finish_refines.
  - destruct (load_joins ch s1 Hwf Hj) as (s' & -> & Hwf' & Hv' & Hb' & _).
    rewrite remove_first_drop, <-Hv. rewrite Hv in Hv'. rewrite Hb in Hb'. finish_refines.
  - rewrite bool_decide_true by done. finish_refines.
  - rewrite bool_decide_false by (intros [? ?]; done).
    destruct (load_joins ch s1 Hwf Hj) as (s' & -> & Hwf' & Hv' & Hb' & _).
    rewrite Hv in *. rewrite Hb in Hb'. finish_refines.
Qed.

(** ** Checkpoint actions *)

Definition data_upd (a : HotStoreAction C P A K) : option (C * list datum) :=
  match a with
  | Insert (InsertData ch d) => Some (ch, d)
  | Delete (DeleteData ch) => Some (ch, [])
  | _ => None
  end.
Definition joins_upd (a : HotStoreAction C P A K) : option (C * list (list C)) :=
  match a with
  | Insert (InsertJoins ch j) => Some (ch, j)
  | Delete (DeleteJoins ch) => Some (ch, [])
  | _ => None
  end.
Definition conts_upd (a : HotStoreAction C P A K) : option (list C * list wc) :=
  match a with
  | Insert (InsertContinuations chs k) => Some (chs, k)
  | Delete (DeleteContinuations chs) => Some (chs, [])
  | _ => None
  end.

(** The value an update list leaves at a key: the last update wins. *)
Definition last_upd {I X} `{Countable I} (l : list (I * X)) (x : X) (i : I) : X :=
  default x ((list_to_map (reverse l) : gmap I X) !! i).

Lemma last_upd_snoc {I X} `{Countable I} (l : list (I * X)) j y x i :
  last_upd (l ++ [(j, y)]) x i = if decide (j = i) then y else last_upd l x i.
Proof. unfold last_upd. rewrite reverse_snoc. simpl. rewrite lookup_insert. by case_decide. Qed.

Lemma last_upd_map {I X} `{Countable I} (l : list (I * X)) (m : gmap I X) x i :
  l ≡ₚ map_to_list m -> last_upd l x i = default x (m !! i).
Proof.
  intros Hl. unfold last_upd. f_equal.
  rewrite <-(list_to_map_to_list m). f_equal. apply list_to_map_proper.
  - rewrite reverse_Permutation, Hl. apply NoDup_fst_map_to_list.
  - by rewrite reverse_Permutation.
Qed.

Lemma foldl_apply_action (l : list (HotStoreAction C P A K)) v :
  (forall ch, v_data (foldl apply_action v l) ch =
    last_upd (omap data_upd l) (v_data v ch) ch) /\
  (forall ch, v_joins (foldl apply_action v l) ch =
    last_upd (omap joins_upd l) (v_joins v ch) ch) /\
  (forall chs, v_conts (foldl apply_action v l) chs =
    last_upd (omap conts_upd l) (v_conts v chs) chs).
Proof.
  induction l as [|a l IH] using rev_ind; [done|]. destruct IH as (IHd & IHj & IHc).
  rewrite foldl_snoc, !omap_app.
  split_and!; intros; destruct a as [[]|[]]; simpl;
    rewrite ?app_nil_r, ?last_upd_snoc, ?fn_lookup_insert_decide, ?IHd, ?IHj, ?IHc; done.
Qed.

Lemma changes_updates s :
  omap conts_upd (inmem_changes s) = map_to_list (continuations (hs_state s)) /\
  omap data_upd (inmem_changes s) = map_to_list (data (hs_state s)) /\
  omap joins_upd (inmem_changes s) = map_to_list (joins (hs_state s)).
Proof.
  unfold inmem_changes. rewrite !omap_app. split_and!.
  - rewrite (omap_fmap_Some conts_upd), !omap_fmap_None by (by intros [? []]).
    by rewrite !app_nil_r.
  - rewrite (omap_fmap_Some data_upd), !omap_fmap_None by (by intros [? []]).
    by rewrite app_nil_r.
  - by rewrite (omap_fmap_Some joins_upd), !omap_fmap_None by (by intros [? []]).
Qed.

Lemma inmem_law_changes s (l : list (HotStoreAction C P A K)) :
  inmem_wf s -> l ≡ₚ inmem_changes s ->
  overlay (mkState ∅ (installed_continuations (hs_state s)) ∅ ∅
    (installed_joins (hs_state s))) (foldl apply_action (inmem_base s) l) ≡ inmem_view s.
Proof.
  intros _ Hl. destruct (foldl_apply_action l (inmem_base s)) as (Hd & Hj & Hc).
  destruct (changes_updates s) as (Uc & Ud & Uj).
  repeat split; intros; simpl; rewrite ?lookup_empty; simpl; try done;
    rewrite ?Hd, ?Hj, ?Hc; apply last_upd_map; rewrite Hl.
  - by rewrite Uc.
  - by rewrite Ud.
  - by rewrite Uj.
Qed.

Lemma cache_ok_empty h : cache_ok h (mkCache ∅ ∅ ∅).
Proof.
  split; simpl; try (intros *; by rewrite lookup_empty);
    rewrite map_size_empty; apply Nat.le_0_l.
Qed.

(** ** [InMemHotStore] satisfies the laws of the trait *)

#[global] Instance inmem_hot_store_laws : HotStoreLaws C P A K InMemHotStore.
Proof.
  refine {| hs_wf := inmem_wf; view := inmem_view; base := inmem_base |}; simpl.
  - exact inmem_law_get_continuations.
  - exact inmem_law_put_continuation.
  - exact inmem_law_install_continuation.
  - exact inmem_law_remove_continuation.
  - exact inmem_law_get_data.
  - exact inmem_law_put_datum.
  - exact inmem_law_remove_datum.
  - exact inmem_law_get_joins.
  - exact inmem_law_put_join.
  - exact inmem_law_install_join.
  - exact inmem_law_remove_join.
  - exact inmem_law_changes.
  - done.
  - intros s Hs. split_and!; [apply cache_ok_empty| |done]. view_ext.
  - done.
Defined.

(** ** Correctness of the hot store *)

(** The store after a sequence of operations on a fresh store over history [h]. *)
Definition after (h : HistoryReaderBase C P A K) (ops : list (HotOp C P A K)) :
  InMemHotStore := (run hot_step ops (create_from_hr h)).2.

Lemma after_refines h ops :
  inmem_wf (after h ops) /\ inmem_base (after h ops) ≡ history_view h /\
  (run hot_step ops (create_from_hr h)).1 =
    (run (view_step (history_view h)) ops (history_view h)).1 /\
  inmem_view (after h ops) ≡ (run (view_step (history_view h)) ops (history_view h)).2.
Proof.
  assert (hs_wf (create_from_hr h)) as Hwf by exact (cache_ok_empty h).
  assert (base (create_from_hr h) ≡ history_view h) as Hb by done.
  assert (view (create_from_hr h) ≡ history_view h) as Hv by view_ext.
  exact (hot_run_refines ops _ _ _ Hwf Hb Hv).
Qed.

(** C30: any sequence of hot-store operations on a store created over a history returns,
    operation by operation, what the abstract store (data, continuations and joins per
    channel, no cache, no copy-on-read) returns, and ends in a state that a client
    cannot tell from the abstract one. *)
Theorem hot_store_simulates_view h ops :
  (run hot_step ops (create_from_hr h)).1 =
    (run (view_step (history_view h)) ops (history_view h)).1 /\
  inmem_view (run hot_step ops (create_from_hr h)).2 ≡
    (run (view_step (history_view h)) ops (history_view h)).2.
Proof. by destruct (after_refines h ops) as (_ & _ & ? & ?). Qed.

(** After any sequence of operations each of the three history caches holds at most
    512 entries, and every cached entry is the one history holds. *)
Theorem history_cache_bounded_and_coherent h ops :
  let c := history_cache (after h ops) in
  let r := history_reader_base (after h ops) in
  (size (hc_continuations c) <= 512 /\ size (hc_datums c) <= 512 /\
   size (hc_joins c) <= 512) /\
  (forall chs k, hc_continuations c !! chs = Some k -> k = get_continuations_proj r chs) /\
  (forall ch d, hc_datums c !! ch = Some d -> d = get_data_proj r ch) /\
  (forall ch j, hc_joins c !! ch = Some j -> j = get_joins_proj r ch).
Proof. destruct (after_refines h ops) as ([] & _). done. Qed.

(** The checkpoint actions of [changes], applied to history in whatever order the
    hash maps are iterated, give the data, joins and waiting continuations that clients
    of the hot store see. *)
Theorem changes_reproduce_hot_state h ops l :
  l ≡ₚ inmem_changes (after h ops) ->
  let v := foldl apply_action (history_view h) l in
  (forall ch, v_data v ch = v_data (inmem_view (after h ops)) ch) /\
  (forall ch, v_joins v ch = v_joins (inmem_view (after h ops)) ch) /\
  (forall chs, v_conts v chs = v_conts (inmem_view (after h ops)) chs).
Proof.
  intros Hl. destruct (after_refines h ops) as (Hwf & Hb & _).
  pose proof (inmem_law_changes _ l Hwf Hl) as (Hc & _ & Hd & Hj & _). simpl in *.
  setoid_rewrite lookup_empty in Hc. setoid_rewrite lookup_empty in Hd.
  setoid_rewrite lookup_empty in Hj. simpl in *.
  destruct (foldl_apply_action l (history_view h)) as (Fd & Fj & Fc).
  destruct (foldl_apply_action l (inmem_base (after h ops))) as (Gd & Gj & Gc).
  destruct Hb as (Bc & _ & Bd & Bj & _).
  split_and!; intros.
  - rewrite <-Hd, Fd, Gd. by rewrite Bd.
  - rewrite <-Hj, Fj, Gj. by rewrite Bj.
  - rewrite <-Hc, Fc, Gc. by rewrite Bc.
Qed.

(** Restoring a snapshot undoes every operation made since it was taken: a client
    sees again what it saw then. *)
Theorem snapshot_restores_view h ops ops' :
  let s := after h ops in
  let s' := (run hot_step ops' s).2 in
  inmem_view (set_state (snapshot s) s') ≡ inmem_view s.
Proof.
  simpl. destruct (after_refines h ops) as (Hwf & Hb & _).
  assert (hs_wf (after h ops)) as Hwf' by exact Hwf.
  assert (base (after h ops) ≡ history_view h) as Hb0 by exact Hb.
  destruct (hot_run_refines ops' _ _ _ Hwf' Hb0 (reflexivity _)) as (_ & Hb' & _).
  change (overlay (hs_state (after h ops))
    (inmem_base (run hot_step ops' (after h ops)).2) ≡ inmem_view (after h ops)).
  unfold inmem_view. rewrite Hb. f_equiv. exact Hb'.
Qed.

(** [to_map] has a row for [chs] exactly when [chs] is a single channel with an entry
    in the data of the hot state and the row is not empty; its continuations are the
    waiting ones followed by the installed one.  A vector of channels that has waiting
    continuations but no data entry is not in the map. *)
Theorem to_map_rows s chs row :
  inmem_to_map s !! chs = Some row <->
  exists ch d, chs = [ch] /\ data (hs_state s) !! ch = Some d /\
    row = mkRow d (default [] (continuations (hs_state s) !! [ch]) ++
                   option_list (installed_continuations (hs_state s) !! [ch])) /\
    ~ (row_data row = [] /\ row_wks row = []).
Proof.
  unfold inmem_to_map. set (all := union_with _ _ _).
  assert (forall k, default [] (all !! k) =
    default [] (continuations (hs_state s) !! k) ++
    option_list (installed_continuations (hs_state s) !! k)) as Hall.
  { intros k. subst all. rewrite lookup_union_with, lookup_fmap.
    destruct (continuations (hs_state s) !! k), (installed_continuations (hs_state s) !! k);
      simpl; by rewrite ?app_nil_r. }
  rewrite lookup_omap_Some. setoid_rewrite <-elem_of_list_to_map.
  2:{ rewrite <-list_fmap_compose.
      erewrite (list_fmap_ext _ ((fun k => [k]) ∘ fst)) by (by intros ? []).
      rewrite list_fmap_compose.
      apply NoDup_fmap; [by intros ?? [= ->]|]. apply NoDup_fst_map_to_list. }
  setoid_rewrite list_elem_of_fmap. split.
  - intros (r & Hr & [ch d] & [= -> ->] & Hin%elem_of_map_to_list). case_decide; [done|].
    injection Hr as <-. exists ch, d. rewrite <-Hall. done.
  - intros (ch & d & -> & Hd & -> & Hne). eexists. split; [by rewrite decide_False|].
    exists (ch, d). rewrite Hall. split; [done|]. by apply elem_of_map_to_list.
Qed.
End inmem.

(** The same history seen twice: a datum read from history and removed is gone. *)
Lemma changes_reproduce_hot_state_witness :
  let h : HistoryReaderBase nat nat nat nat :=
    mkReader (fun _ => [Datum_create nat_codecs 1 5 false]) (const []) (const []) in
  let _ : Debug nat := fun _ => "n"%string in
  v_data (foldl apply_action (history_view h)
    (inmem_changes (after h [OpRemoveDatum 1 0]))) 1 = [].
Proof.
  intros h dbg.
  destruct (changes_reproduce_hot_state h [OpRemoveDatum 1 0]
    (inmem_changes (after h [OpRemoveDatum 1 0])) (reflexivity _)) as [Hd _].
  rewrite Hd. vm_compute. reflexivity.
Defined.
