(* ===== verification/SpaceMatcher.v ===== *)
(** * Matching data against patterns

    [rspace++/src/rspace/space_matcher.rs].  The matcher of patterns and data
    ([trait Match]) is an argument [get]: it is implemented by the Rholang interpreter. *)
From S2P Require Import Prelude Events.

(** A vector of rows with the index each has in the store. *)
Abbreviation indexed X := (list (X * Z)).

Section space_matcher.
Context {C P A K : Type} `{Countable C}.
(** [Match::get] *)
Context (get : P -> A -> option A).

Abbreviation channel_data := (gmap C (indexed (Datum A))).
Abbreviation candidate := (ConsumeCandidate C A).

(** The candidate for a datum that matched with result [mat]. *)
Definition matched (channel : C) (d : Datum A) (data_index : Z) (mat : A) : candidate :=
  mkCC channel (mkDatum mat (datum_persist d) (datum_source d)) (datum_a d) data_index.

(** The loop of [find_matching_data_candidate] from position [idx] on. *)
Fixpoint find_loop (channel : C) (data : indexed (Datum A)) (pattern : P) (idx : nat)
    (rest : indexed (Datum A)) : option (candidate * indexed (Datum A)) :=
  match rest with
  | [] => None
  | (d, data_index) :: rest =>
    match get pattern (datum_a d) with
    | Some mat =>
      let indexed_datums :=
        if datum_persist d then data else take idx data ++ drop (idx + 1) data in
      Some (matched channel d data_index mat, indexed_datums)
    | None => find_loop channel data pattern (idx + 1) rest
    end
  end.

(** [fn find_matching_data_candidate] *)
Definition find_matching_data_candidate (channel : C) (data : indexed (Datum A))
    (pattern : P) : option (candidate * indexed (Datum A)) :=
  find_loop channel data pattern 0 data.

(** [fn extract_data_candidates_rollback]: returns the candidates, the mutated map and
    the rollback log, oldest entry first. *)
Fixpoint extract_data_candidates_rollback (pairs : list (C * P)) (m : channel_data)
    (rollback : list (C * indexed (Datum A))) :
  list (option candidate) * channel_data * list (C * indexed (Datum A)) :=
  match pairs with
  | [] => ([], m, rollback)
  | (channel, pattern) :: pairs =>
    let maybe_tuple :=
      match m !! channel with
      | Some indexed_data => find_matching_data_candidate channel indexed_data pattern
      | None => None
      end in
    match maybe_tuple with
    | Some (cand, rem) =>
      let rollback :=
        match m !! channel with
        | Some original => rollback ++ [(channel, original)]
        | None => rollback
        end in
      let '(acc, m, rollback) :=
        extract_data_candidates_rollback pairs (<[channel := rem]> m) rollback in
      (Some cand :: acc, m, rollback)
    | None =>
      let '(acc, m, rollback) := extract_data_candidates_rollback pairs m rollback in
      (None :: acc, m, rollback)
    end
  end.

(** [fn extract_data_candidates] *)
Definition extract_data_candidates (pairs : list (C * P)) (m : channel_data) :
  list (option candidate) :=
  (extract_data_candidates_rollback pairs m []).1.1.

(** [for (ch, original) in rollback { map.insert(ch, original) }] *)
Definition restore (m : channel_data) (rollback : list (C * indexed (Datum A))) :
  channel_data :=
  foldl (fun m '(ch, original) => <[ch := original]> m) m rollback.

(** [fn extract_first_match] *)
Fixpoint extract_first_match (channels : list C)
    (match_candidates : indexed (WaitingContinuation P K)) (m : channel_data) :
  option (ProduceCandidate C P A K) :=
  match match_candidates with
  | [] => None
  | (cont, index) :: rest =>
    let pairs := zip channels (wc_patterns cont) in
    let '(data_candidates, m, rollback) := extract_data_candidates_rollback pairs m [] in
    if forallb (fun x => bool_decide (is_Some x)) data_candidates
    then Some (mkPC channels cont index (omap id data_candidates))
    else extract_first_match channels rest (restore m rollback)
  end.

(** ** One pattern against one channel *)

Lemma find_loop_Some channel data pattern idx rest cand rem :
  find_loop channel data pattern idx rest = Some (cand, rem) <->
  exists j d i mat, rest !! j = Some (d, i) /\ get pattern (datum_a d) = Some mat /\
    cand = matched channel d i mat /\
    rem = (if datum_persist d then data else delete (idx + j) data) /\
    forall k e, rest !! k = Some e -> k < j -> get pattern (datum_a e.1) = None.
Proof.
  revert idx. induction rest as [|[d i] rest IH]; intros idx; simpl.
  { split; [done|]. intros (j & ? & ? & ? & ? & _). done. }
  destruct (get pattern (datum_a d)) as [mat|] eqn:Hm.
  - split.
    + intros [= <- <-]. exists 0, d, i, mat. split_and!; try done.
      * rewrite Nat.add_0_r, delete_take_drop, Nat.add_1_r. done.
      * intros; lia.
    + intros ([|j] & d' & i' & mat' & Hj & Hm' & -> & -> & Hmin).
      * simplify_eq/=. by rewrite Nat.add_0_r, delete_take_drop, Nat.add_1_r.
      * specialize (Hmin 0 (d, i) eq_refl ltac:(lia)). simpl in *. congruence.
  - rewrite IH. split.
    + intros (j & d' & i' & mat & Hj & Hm' & -> & -> & Hmin).
      exists (S j), d', i', mat. split_and!; try done.
      * by replace (idx + S j) with (idx + 1 + j) by lia.
      * intros [|k] e He Hk; simplify_eq/=; [done|]. eapply Hmin; [done|lia].
    + intros ([|j] & d' & i' & mat & Hj & Hm' & -> & -> & Hmin); [simplify_eq/=|].
      exists j, d', i', mat. split_and!; try done.
      * by replace (idx + S j) with (idx + 1 + j) by lia.
      * intros k e He Hk. apply (Hmin (S k)); [done|lia].
Qed.

Lemma find_loop_None channel data pattern idx rest :
  find_loop channel data pattern idx rest = None <->
  forall e, e ∈ rest -> get pattern (datum_a e.1) = None.
Proof.
  revert idx. induction rest as [|[d i] rest IH]; intros idx; simpl.
  { split; [intros _ e; by rewrite elem_of_nil|done]. }
  destruct (get pattern (datum_a d)) as [mat|] eqn:Hm.
  - split; [done|]. intros Hall. specialize (Hall (d, i) ltac:(by left)). simpl in *. congruence.
  - rewrite IH. setoid_rewrite elem_of_cons. naive_solver.
Qed.

Lemma find_Some channel data pattern cand rem :
  find_matching_data_candidate channel data pattern = Some (cand, rem) <->
  exists j d i mat, data !! j = Some (d, i) /\ get pattern (datum_a d) = Some mat /\
    cand = matched channel d i mat /\
    rem = (if datum_persist d then data else delete j data) /\
    forall k e, data !! k = Some e -> k < j -> get pattern (datum_a e.1) = None.
Proof. apply find_loop_Some. Qed.

Lemma find_None channel data pattern :
  find_matching_data_candidate channel data pattern = None <->
  forall e, e ∈ data -> get pattern (datum_a e.1) = None.
Proof. apply find_loop_None. Qed.

(** ** Several patterns *)

(** The candidate a pattern finds in a map, regardless of the other patterns. *)
Definition find_in (m : channel_data) (cp : C * P) : option candidate :=
  match m !! cp.1 with
  | Some l => fst <$> find_matching_data_candidate cp.1 l cp.2
  | None => None
  end.

Lemma find_in_insert_ne m ch l cp :
  cp.1 <> ch -> find_in (<[ch := l]> m) cp = find_in m cp.
Proof. intros. unfold find_in. by rewrite lookup_insert_ne. Qed.

(** The step of [extract_data_candidates_rollback] on one pair. *)
Lemma extract_cons cp pairs m rb :
  extract_data_candidates_rollback (cp :: pairs) m rb =
  match m !! cp.1 ≫= fun l => pair l <$> find_matching_data_candidate cp.1 l cp.2 with
  | Some (l, (cand, rem)) =>
    let '(acc, m', rb') := extract_data_candidates_rollback pairs (<[cp.1 := rem]> m)
      (rb ++ [(cp.1, l)]) in (Some cand :: acc, m', rb')
  | None =>
    let '(acc, m', rb') := extract_data_candidates_rollback pairs m rb in
    (None :: acc, m', rb')
  end.
Proof.
  destruct cp as [ch p]. simpl. destruct (m !! ch) as [l|]; [|done]. simpl.
  by destruct (find_matching_data_candidate ch l p) as [[]|].
Qed.

(** On distinct channels the patterns do not compete: each finds what it would find
    alone. *)
Lemma extract_nodup pairs m rb :
  NoDup pairs.*1 ->
  (extract_data_candidates_rollback pairs m rb).1.1 = find_in m <$> pairs.
Proof.
  revert m rb. induction pairs as [|cp pairs IH]; intros m rb Hnd; [done|].
  csimpl in Hnd. apply NoDup_cons in Hnd as [Hch Hnd]. rewrite extract_cons. csimpl.
  unfold find_in at 1. destruct (m !! cp.1) as [l|] eqn:Hl; csimpl.
  2:{ specialize (IH m rb Hnd). destruct (extract_data_candidates_rollback _ _ _) as [[??]?].
      simpl in *. by rewrite IH. }
  destruct (find_matching_data_candidate _ l _) as [[cand rem]|] eqn:Hf; csimpl.
  - specialize (IH (<[cp.1 := rem]> m) (rb ++ [(cp.1, l)]) Hnd).
    destruct (extract_data_candidates_rollback _ _ _) as [[??]?]. simpl in *. rewrite IH.
    f_equal. apply list_fmap_ext. intros i x Hx. apply find_in_insert_ne.
    intros Heq. apply Hch. rewrite <-Heq. apply list_elem_of_fmap. exists x.
    eauto using list_elem_of_lookup_2.
  - specialize (IH m rb Hnd). destruct (extract_data_candidates_rollback _ _ _) as [[??]?].
    simpl in *. by rewrite IH.
Qed.

(** On distinct channels, replaying the rollback log restores the map. *)
Lemma restore_app m rb rb' : restore m (rb ++ rb') = restore (restore m rb) rb'.
Proof. apply foldl_app. Qed.

Lemma restore_insert_fresh m ch l rb :
  ch ∉ rb.*1 -> restore (<[ch := l]> m) rb = <[ch := l]> (restore m rb).
Proof.
  revert m. induction rb as [|[ch' o] rb IH]; intros m Hin; [done|].
  csimpl in Hin. apply not_elem_of_cons in Hin as [Hne Hin].
  change (restore (<[ch':=o]> (<[ch:=l]> m)) rb = <[ch:=l]> (restore (<[ch':=o]> m) rb)).
  rewrite insert_insert_ne by done. by apply IH.
Qed.

Lemma extract_rollback pairs m rb acc m' rb' :
  NoDup pairs.*1 ->
  extract_data_candidates_rollback pairs m rb = (acc, m', rb') ->
  exists new, rb' = rb ++ new /\ new.*1 ⊆ pairs.*1 /\ restore m' new = m.
Proof.
  revert m rb acc m' rb'. induction pairs as [|cp pairs IH]; intros m rb acc m' rb' Hnd Hex.
  { injection Hex as <- <- <-. exists []. by rewrite app_nil_r. }
  csimpl in Hnd. apply NoDup_cons in Hnd as [Hch Hnd]. rewrite extract_cons in Hex.
  destruct (m !! cp.1) as [l|] eqn:Hl; csimpl in Hex;
    [destruct (find_matching_data_candidate _ l _) as [[cand rem]|]; csimpl in Hex|];
    destruct (extract_data_candidates_rollback _ _ _) as [[acc1 m1] rb1] eqn:Hrec;
    injection Hex as <- <- <-; apply IH in Hrec as (new & -> & Hsub & Hres); try done.
  - exists ((cp.1, l) :: new). rewrite <-app_assoc. split_and!; [done|set_solver|].
    change (restore (<[cp.1 := l]> m1) new = m).
    rewrite restore_insert_fresh by set_solver. rewrite Hres, insert_insert_eq.
    by apply insert_id.
  - exists new. split_and!; [done|set_solver|done].
  - exists new. split_and!; [done|set_solver|done].
Qed.

(** ** Soundness of the candidates *)

(** [cand] is a match of pattern [cp.2] with a datum that [m] has on channel [cp.1]. *)
Definition candidate_of (m : channel_data) (cp : C * P) (cand : candidate) : Prop :=
  exists l d i mat, m !! cp.1 = Some l /\ (d, i) ∈ l /\
    get cp.2 (datum_a d) = Some mat /\ cand = matched cp.1 d i mat.

(** Every entry of the data map has distinct store indices. *)
Definition indices_distinct (m : channel_data) : Prop :=
  forall ch l, m !! ch = Some l -> NoDup l.*2.

Lemma find_in_candidate m cp cand : find_in m cp = Some cand -> candidate_of m cp cand.
Proof.
  unfold find_in. destruct (m !! cp.1) as [l|] eqn:Hl; [|done].
  destruct (find_matching_data_candidate _ l _) as [[c rem]|] eqn:Hf; [|done].
  intros [= ->]. apply find_Some in Hf as (j & d & i & mat & Hj & Hm & -> & _).
  exists l, d, i, mat. eauto using list_elem_of_lookup_2.
Qed.

Lemma find_in_None m cp :
  find_in m cp = None <->
  forall l d i, m !! cp.1 = Some l -> (d, i) ∈ l -> get cp.2 (datum_a d) = None.
Proof.
  unfold find_in. destruct (m !! cp.1) as [l|] eqn:Hl; [|naive_solver].
  rewrite fmap_None, find_None. split.
  - intros Hall ? d i [= <-] Hin. apply (Hall _ Hin).
  - intros Hall [d i] Hin. by eapply Hall.
Qed.

Lemma candidate_of_insert m ch l rem cp cand :
  m !! ch = Some l -> rem ⊆ l ->
  candidate_of (<[ch := rem]> m) cp cand -> candidate_of m cp cand.
Proof.
  intros Hl Hsub (l' & d & i & mat & Hm & Hin & Hg & ->).
  apply lookup_insert_Some in Hm as [[Heq <-]|[_ Hm]].
  - exists l, d, i, mat. rewrite <-Heq. split_and!; [done|by apply Hsub| |done].
    by rewrite Hg.
  - by exists l', d, i, mat.
Qed.

Lemma delete_subseteq {X} j (l : list X) : delete j l ⊆ l.
Proof. apply sublist_subseteq, sublist_delete. Qed.

Lemma extract_sound pairs m rb i cand :
  (extract_data_candidates_rollback pairs m rb).1.1 !! i = Some (Some cand) ->
  exists cp, pairs !! i = Some cp /\ candidate_of m cp cand.
Proof.
  revert m rb i. induction pairs as [|cp pairs IH]; intros m rb i; [done|].
  rewrite extract_cons. destruct (m !! cp.1) as [l|] eqn:Hl; csimpl;
    [destruct (find_matching_data_candidate _ l _) as [[c rem]|] eqn:Hf; csimpl|].
  - specialize (IH (<[cp.1 := rem]> m) (rb ++ [(cp.1, l)])).
    destruct (extract_data_candidates_rollback _ _ _) as [[acc m'] rb']; simpl in *.
    destruct i as [|i]; simpl; intros Hi.
    { simplify_eq. exists cp. split; [done|]. apply find_in_candidate. unfold find_in.
      by rewrite Hl, Hf. }
    destruct (IH i Hi) as (cp' & ? & Hc). exists cp'.
    split; [done|]. apply find_Some in Hf as (j & d & k & mat & _ & _ & _ & -> & _).
    eapply candidate_of_insert; [done| |done].
    destruct (datum_persist d); [done|apply delete_subseteq].
  - specialize (IH m rb).
    destruct (extract_data_candidates_rollback _ _ _) as [[acc m'] rb']; simpl in *.
    destruct i as [|i]; simpl; [done|apply IH].
  - specialize (IH m rb).
    destruct (extract_data_candidates_rollback _ _ _) as [[acc m'] rb']; simpl in *.
    destruct i as [|i]; simpl; [done|apply IH].
Qed.

Lemma delete_distinct {X} (l : indexed X) j e :
  NoDup l.*2 -> l !! j = Some e -> e.2 ∉ (delete j l).*2.
Proof.
  intros Hnd Hj Hin. apply list_elem_of_fmap in Hin as ([d i] & Heq & Hin). simpl in *.
  apply list_elem_of_lookup in Hin as [k Hk].
  assert (exists k', k' <> j /\ l !! k' = Some (d, i)) as (k' & Hne & Hk').
  { destruct (decide (k < j)).
    - exists k. rewrite list_lookup_delete_lt in Hk by done. split; [lia|done].
    - exists (S k). rewrite list_lookup_delete_ge in Hk by lia. split; [lia|done]. }
  apply Hne. apply (NoDup_lookup l.*2 k' j i Hnd); rewrite list_lookup_fmap.
  - by rewrite Hk'.
  - by rewrite Hj, <-Heq.
Qed.

Lemma indices_distinct_insert m ch l rem :
  indices_distinct m -> m !! ch = Some l -> sublist rem l ->
  indices_distinct (<[ch := rem]> m).
Proof.
  intros Hm Hl Hsub ch' l' [[<- <-]|[_ Hl']]%lookup_insert_Some; [|by eapply Hm].
  eapply sublist_NoDup; [by eapply Hm|by apply fmap_sublist].
Qed.

Lemma candidate_same_datum m cp cp' c c' :
  indices_distinct m -> candidate_of m cp c -> candidate_of m cp' c' ->
  cc_channel c = cc_channel c' -> cc_datum_index c = cc_datum_index c' ->
  datum_persist (cc_datum c) = datum_persist (cc_datum c').
Proof.
  intros Hm (l & d & i & mat & Hl & Hin & _ & ->) (l' & d' & i' & mat' & Hl' & Hin' & _ & ->).
  simpl. intros Hch <-. rewrite <-Hch, Hl in Hl'. injection Hl' as <-.
  apply list_elem_of_lookup in Hin as [k Hk], Hin' as [k' Hk'].
  assert (k = k') as <-.
  { apply (NoDup_lookup l.*2 k k' i (Hm _ _ Hl)); rewrite list_lookup_fmap.
    - by rewrite Hk.
    - by rewrite Hk'. }
  congruence.
Qed.

Lemma extract_disjoint_lt pairs m rb i j ci cj :
  indices_distinct m ->
  (extract_data_candidates_rollback pairs m rb).1.1 !! i = Some (Some ci) ->
  (extract_data_candidates_rollback pairs m rb).1.1 !! j = Some (Some cj) -> i < j ->
  cc_channel ci = cc_channel cj -> cc_datum_index ci = cc_datum_index cj ->
  datum_persist (cc_datum ci) = true.
Proof.
  revert m rb i j. induction pairs as [|cp pairs IH]; intros m rb i j Hm; [done|].
  rewrite extract_cons. destruct (m !! cp.1) as [l|] eqn:Hl; csimpl;
    [destruct (find_matching_data_candidate _ l _) as [[c rem]|] eqn:Hf; csimpl|].
  - pose proof (extract_sound pairs (<[cp.1 := rem]> m) (rb ++ [(cp.1, l)])) as Hsound.
    specialize (IH (<[cp.1 := rem]> m) (rb ++ [(cp.1, l)])).
    destruct (extract_data_candidates_rollback _ _ _) as [[acc m'] rb']; simpl in *.
    apply find_Some in Hf as (k & d & x & mat & Hk & Hg & -> & -> & _).
    destruct i as [|i], j as [|j]; simpl; intros Hi Hj Hlt; try lia; intros Hch Hidx.
    + injection Hi as <-. simpl in *. destruct (datum_persist d); [done|].
      destruct (Hsound j cj Hj) as (cp' & _ & l' & d' & x' & mat' & Hl' & Hin & _ & ->).
      simpl in *. subst x'. rewrite <-Hch, lookup_insert_eq in Hl'. injection Hl' as <-.
      destruct (delete_distinct l k (d, x) (Hm _ _ Hl) Hk).
      apply list_elem_of_fmap. by exists (d', x).
    + eapply (IH i j); try done; [|lia]. eapply indices_distinct_insert; [done..|].
      destruct (datum_persist d); [done|apply sublist_delete].
  - specialize (IH m rb).
    destruct (extract_data_candidates_rollback _ _ _) as [[acc m'] rb']; simpl in *.
    destruct i as [|i], j as [|j]; simpl; intros ?? Hlt; try done; try lia.
    apply (IH i j); auto; lia.
  - specialize (IH m rb).
    destruct (extract_data_candidates_rollback _ _ _) as [[acc m'] rb']; simpl in *.
    destruct i as [|i], j as [|j]; simpl; intros ?? Hlt; try done; try lia.
    apply (IH i j); auto; lia.
Qed.

(** ** The first matching continuation *)

(** [into_iter().collect::<Option<Vec<_>>>()] *)
Fixpoint collect_option {X} (l : list (option X)) : option (list X) :=
  match l with
  | [] => Some []
  | None :: _ => None
  | Some x :: l => cons x <$> collect_option l
  end.

Lemma collect_option_spec {X} (l : list (option X)) :
  collect_option l =
  if forallb (fun x => bool_decide (is_Some x)) l then Some (omap id l) else None.
Proof.
  induction l as [|[x|] l IH]; [done| |done].
  csimpl. rewrite IH. by destruct (forallb _ l).
Qed.

Lemma collect_option_fmap {X Y} (f : X -> option Y) l :
  collect_option (f <$> l) = mapM f l.
Proof.
  induction l as [|x l IH]; [done|]. csimpl. rewrite IH.
  destruct (f x); [|done]. by destruct (mapM f l).
Qed.

(** The candidates of all patterns of a continuation, on distinct channels. *)
Definition find_all (m : channel_data) (channels : list C) (patterns : list P) :
  option (list candidate) := collect_option (find_in m <$> zip channels patterns).

Lemma NoDup_zip_fst {X Y} (l : list X) (k : list Y) : NoDup l -> NoDup (zip l k).*1.
Proof.
  revert k. induction l as [|x l IH]; intros [|y k] Hnd; csimpl; try apply NoDup_nil_2.
  apply NoDup_cons in Hnd as [Hx Hl]. apply NoDup_cons. split; [|by apply IH].
  intros (p & -> & Hp)%list_elem_of_fmap. apply Hx. destruct p. by eapply elem_of_zip_l.
Qed.

Lemma extract_first_match_nodup channels mcs m :
  NoDup channels ->
  (forall pc, extract_first_match channels mcs m = Some pc ->
    exists j cont idx cands, mcs !! j = Some (cont, idx) /\
      pc = mkPC channels cont idx cands /\
      find_all m channels (wc_patterns cont) = Some cands) /\
  (extract_first_match channels mcs m = None ->
    forall cont idx, (cont, idx) ∈ mcs -> find_all m channels (wc_patterns cont) = None).
Proof.
  intros Hnd. induction mcs as [|[cont idx] mcs [IHs IHn]]; simpl.
  { split; [done|]. intros _ cont idx. by rewrite elem_of_nil. }
  pose proof (NoDup_zip_fst channels (wc_patterns cont) Hnd) as Hnd'.
  destruct (extract_data_candidates_rollback _ m []) as [[acc m'] rb] eqn:Hex.
  pose proof (extract_nodup _ m [] Hnd') as Hacc. rewrite Hex in Hacc. simpl in Hacc.
  assert (find_all m channels (wc_patterns cont) = collect_option acc) as Hall
    by (unfold find_all; by rewrite Hacc).
  rewrite collect_option_spec in Hall.
  destruct (forallb _ acc).
  - split; [|done]. intros pc [= <-]. by exists 0, cont, idx, (omap id acc).
  - apply extract_rollback in Hex as (new & -> & _ & Hres); [|done].
    rewrite app_nil_l, Hres. split.
    + intros pc Hpc. destruct (IHs pc Hpc) as (j & ? & ? & ? & ? & ? & ?).
      by eexists (S j), _, _, _.
    + intros Hn c i [[= -> ->]|Hin]%elem_of_cons; [done|]. by eapply IHn.
Qed.

Lemma find_all_Some m channels patterns cands :
  find_all m channels patterns = Some cands ->
  Forall2 (fun cp c => find_in m cp = Some c) (zip channels patterns) cands.
Proof. unfold find_all. by rewrite collect_option_fmap, mapM_Some. Qed.

Lemma find_all_None m channels patterns :
  find_all m channels patterns = None <->
  exists cp, cp ∈ zip channels patterns /\ find_in m cp = None.
Proof.
  unfold find_all. by rewrite collect_option_fmap, mapM_None, Exists_exists.
Qed.

(** The data candidates a match returns are sound and disjoint: each comes from a
    datum its channel really has, its pattern really matches, and no datum that is not
    persistent is handed to two patterns, even when a channel occurs more than once. *)
Theorem extract_disjoint pairs m rb i j ci cj :
  indices_distinct m ->
  let acc := (extract_data_candidates_rollback pairs m rb).1.1 in
  acc !! i = Some (Some ci) -> acc !! j = Some (Some cj) -> i <> j ->
  (exists cp, pairs !! i = Some cp /\ candidate_of m cp ci) /\
  (cc_channel ci = cc_channel cj -> cc_datum_index ci = cc_datum_index cj ->
   datum_persist (cc_datum ci) = true).
Proof.
  intros Hm acc Hi Hj Hne. split; [by eapply extract_sound|]. intros Hch Hidx.
  destruct (decide (i < j)).
  - by eapply (extract_disjoint_lt pairs m rb i j).
  - destruct (extract_sound _ _ _ _ _ Hi) as (cpi & _ & Hci).
    destruct (extract_sound _ _ _ _ _ Hj) as (cpj & _ & Hcj).
    rewrite (candidate_same_datum m cpi cpj ci cj) by done.
    eapply (extract_disjoint_lt pairs m rb j i); try done. lia.
Qed.
End space_matcher.

Lemma extract_disjoint_witness :
  let get (p a : nat) := if decide (p = 0) then Some a else None in
  let d a := Datum_create nat_codecs 1 a false in
  let m : gmap nat (indexed (Datum nat)) := {[ 1 := [(d 5, 0%Z); (d 6, 1%Z)] ]} in
  exists cp, [(1, 0); (1, 0)] !! 0 = Some cp /\
    candidate_of get m cp (matched 1 (d 5) 0%Z 5).
Proof.
  intros get d m. assert (indices_distinct m) as Hm.
  { intros ch l [<- <-]%lookup_singleton_Some.
    apply (bool_decide_unpack _). vm_compute. reflexivity. }
  destruct (extract_disjoint get [(1, 0); (1, 0)] m [] 0 1 (matched 1 (d 5) 0%Z 5)
    (matched 1 (d 6) 1%Z 6) Hm) as [Hc _];
    [vm_compute; reflexivity|vm_compute; reflexivity|lia|exact Hc].
Defined.
