(* ===== verification/RSpace.v ===== *)
(** * The tuple space

    [rspace++/src/rspace/rspace.rs]: produce, consume and install on a hot store over
    history, with the event log, the produce counters and the checkpoints.

    The state [RSpace] holds what the Rust struct holds behind its locks.  An operation
    runs under the locks of its channels ([Locks.v]), so it is a function on the whole
    state.  [oracle] is the source of the nondeterminism the code has: [thread_rng] for
    shuffling and the iteration order of hash maps.  Rows are shorter than [2^31], so
    [i as i32] is the identity.  Metrics and tracing are left out. *)
From S2P Require Import Prelude Events HotStoreSig SpaceMatcher.

(** ** Interfaces the tuple space is written against *)

(** A random permutation: [SliceRandom::shuffle], and hash-map iteration order. *)
Class Oracle (G : Type) := {
  permute : forall {X : Type}, list X -> ST G (list X);
  permute_perm : forall X (l : list X) g, (permute l g).1 ≡ₚ l;
}.

(** [trait HistoryRepository], the part that [RSpace] uses.  [checkpoint] has no error
    result, it panics; [reset] changes the stores of the repository it is called on. *)
Class HistoryRepository (C P A K H : Type) := {
  repo_checkpoint : list (HotStoreAction C P A K) -> H -> res HistoryError H;
  repo_reset : Blake2b256Hash -> ST H (res HistoryError H);
  get_history_reader : Blake2b256Hash -> H -> res HistoryError (HistoryReaderBase C P A K);
  repo_root : H -> Blake2b256Hash;
}.

(** [HotStoreInstances::create_from_hs_and_hr], for the store type in use *)
Class HotStoreFactory (C P A K S : Type) `{Countable C} :=
  new_hot_store : HotStoreState C P A K -> HistoryReaderBase C P A K -> S.

(** [struct SoftCheckpoint], [struct Checkpoint] *)
Record SoftCheckpoint (C P A K : Type) `{Countable C} := mkSoft {
  sc_cache_snapshot : HotStoreState C P A K;
  sc_log : Log;
  sc_produce_counter : produce_counter_map;
}.
Arguments mkSoft {C P A K _ _}.
Arguments sc_cache_snapshot {C P A K _ _}.
Arguments sc_log {C P A K _ _}.
Arguments sc_produce_counter {C P A K _ _}.

Record Checkpoint := mkCheckpoint { cp_root : Blake2b256Hash; cp_log : Log }.

Section rspace.
Context {C P A K H S G : Type} `{Countable C} `{!HotStore C P A K S}.
Context `{!HistoryRepository C P A K H, !HotStoreFactory C P A K S, !Oracle G}.
Context (cd : Codecs C P A K) (get : P -> A -> option A).
(** [RadixHistory::empty_root_node_hash()] *)
Context (empty_root_node_hash : Blake2b256Hash).

Abbreviation wc := (WaitingContinuation P K).
Abbreviation datum := (Datum A).
Abbreviation candidate := (ConsumeCandidate C A).

(** [struct RSpace] *)
Record RSpace := mkRSpace {
  history_repository : H;
  store : S;
  installs : gmap (list C) (Install P K);
  event_log : Log;
  produce_counter : produce_counter_map;
  oracle : G;
}.

Definition MaybeConsumeResult : Type :=
  option (ContResult C P K * list (RSpaceResult C A)).
Definition MaybeProduceResult : Type :=
  option (ContResult C P K * list (RSpaceResult C A) * Produce).

Definition set_repo (h : H) (r : RSpace) : RSpace :=
  mkRSpace h (store r) (installs r) (event_log r) (produce_counter r) (oracle r).
Definition set_store (s : S) (r : RSpace) : RSpace :=
  mkRSpace (history_repository r) s (installs r) (event_log r) (produce_counter r) (oracle r).
Definition set_installs (i : gmap (list C) (Install P K)) (r : RSpace) : RSpace :=
  mkRSpace (history_repository r) (store r) i (event_log r) (produce_counter r) (oracle r).
Definition set_log (l : Log) (r : RSpace) : RSpace :=
  mkRSpace (history_repository r) (store r) (installs r) l (produce_counter r) (oracle r).
Definition set_counter (m : produce_counter_map) (r : RSpace) : RSpace :=
  mkRSpace (history_repository r) (store r) (installs r) (event_log r) m (oracle r).
Definition set_oracle (g : G) (r : RSpace) : RSpace :=
  mkRSpace (history_repository r) (store r) (installs r) (event_log r) (produce_counter r) g.

(** A call on [self.get_store()] *)
Definition on_store {R} (op : S -> R * S) : ST RSpace R := fun r =>
  let '(x, s) := op (store r) in (x, set_store s r).
Definition permuted {X} (l : list X) : ST RSpace (list X) := fun r =>
  let '(l, g) := permute l (oracle r) in (l, set_oracle g r).

(** [fn shuffle_with_index] *)
Definition with_index {D} (t : list D) : indexed D :=
  imap (fun i d => (d, Z.of_nat i)) t.
Definition shuffle_with_index {D} (t : list D) : ST RSpace (indexed D) :=
  permuted (with_index t).

(** [fn produce_counters]: collecting into a [BTreeMap] keeps the last of equal keys. *)
Definition produce_counters (counter : produce_counter_map) (produce_refs : list Produce) :
  produce_counter_map :=
  foldl (fun m p => <[p_hash p := (p, default 0%Z (counter_get counter p))]> m) ∅ produce_refs.

(** [fn log_comm], [fn log_consume], [fn log_produce] *)
Definition log_event (e : Event) : ST RSpace unit :=
  modify (fun r => set_log (e :: event_log r) r).
Definition log_comm (comm : COMM) : ST RSpace unit := log_event (Comm comm).
Definition log_consume (consume_ref : Consume) : ST RSpace unit :=
  log_event (IoEvent (IOConsume consume_ref)).
Definition log_produce (produce_ref : Produce) (persist : bool) : ST RSpace unit :=
  _ ← log_event (IoEvent (IOProduce produce_ref));
  if persist then mret tt
  else modify (fun r =>
    let counter := produce_counter r in
    let current := default 0%Z (counter_get counter produce_ref) in
    set_counter (counter_insert counter produce_ref (wrap_i32 (current + 1))) r).

(** [fn fetch_channel_to_index_data] *)
Fixpoint fetch_loop (channels : list C) (m : gmap C (indexed datum)) :
  ST RSpace (gmap C (indexed datum)) :=
  match channels with
  | [] => mret m
  | c :: channels =>
    data ← on_store (get_data c);
    shuffled_data ← shuffle_with_index data;
    fetch_loop channels (<[c := shuffled_data]> m)
  end.
Definition fetch_channel_to_index_data (channels : list C) :
  ST RSpace (gmap C (indexed datum)) := fetch_loop channels ∅.

(** [fn wrap_result] *)
Definition wrap_result (channels : list C) (wk : wc) (data_candidates : list candidate) :
  MaybeConsumeResult :=
  Some (mkCR (wc_continuation wk) (wc_persist wk) channels (wc_patterns wk)
          (bool_decide (wc_peeks wk <> ∅)),
        (fun c => mkRR (cc_channel c) (datum_a (cc_datum c)) (cc_removed_datum c)
                    (datum_persist (cc_datum c))) <$> data_candidates).

(** [fn store_waiting_continuation] *)
Definition store_waiting_continuation (channels : list C) (w : wc) :
  ST RSpace MaybeConsumeResult :=
  _ ← on_store (put_continuation channels w);
  _ ← st_mapM (fun channel => on_store (put_join channel channels)) channels;
  mret None.

(** [fn store_data] *)
Definition store_data (channel : C) (a : A) (persist : bool) (produce_ref : Produce) :
  ST RSpace MaybeProduceResult :=
  _ ← modify (fun r => set_store (put_datum channel (mkDatum a persist produce_ref)
                                   (store r)) r);
  mret None.

(** [sorted_candidates.sort_by(|a, b| b.datum_index.cmp(&a.datum_index))], then
    [into_iter().rev()] *)
Definition removal_order (cands : list candidate) : list candidate :=
  reverse (sort_by (fun a b => Z.compare (cc_datum_index b) (cc_datum_index a)) cands).

(** [if results.iter().any(|res| res.is_none()) { None } else { Some(...) }] *)
Definition all_some (results : list (option unit)) : option (list unit) :=
  if existsb (fun x => bool_decide (x = None)) results then None else Some (omap id results).

(** [Result::ok] *)
Definition ok {E X} (m : res E X) : option X := match m with Ok x => Some x | _ => None end.

(** [fn store_persistent_data], with the closure over the candidates *)
Definition remove_candidate (c : candidate) : ST RSpace (option unit) :=
  if datum_persist (cc_datum c) then mret (Some tt)
  else r ← on_store (remove_datum (cc_channel c) (cc_datum_index c)); mret (ok r).
Definition store_persistent_data (data_candidates : list candidate) :
  ST RSpace (option (list unit)) :=
  results ← st_mapM remove_candidate (removal_order data_candidates);
  mret (all_some results).

(** [fn remove_matched_datum_and_join], with the closure over the candidates *)
Definition remove_candidate_and_join (channels : list C) (c : candidate) :
  ST RSpace (option unit) :=
  removed ←
    (if bool_decide (0 <= cc_datum_index c)%Z && negb (datum_persist (cc_datum c))
     then on_store (remove_datum (cc_channel c) (cc_datum_index c))
     else mret (Ok tt));
  match removed with
  | Ok _ =>
    _ ← on_store (remove_join (cc_channel c) channels);
    mret (Some tt)
  | _ => mret None
  end.
Definition remove_matched_datum_and_join (channels : list C)
    (data_candidates : list candidate) : ST RSpace (option (list unit)) :=
  results ← st_mapM (remove_candidate_and_join channels) (removal_order data_candidates);
  mret (all_some results).

(** [fn locked_consume] *)
Definition locked_consume (channels : list C) (patterns : list P) (continuation : K)
    (persist : bool) (peeks : i32_set) (consume_ref : Consume) :
  ST RSpace (res RSpaceError MaybeConsumeResult) :=
  _ ← log_consume consume_ref;
  channel_to_indexed_data ← fetch_channel_to_index_data channels;
  let options := collect_option
    (extract_data_candidates get (zip channels patterns) channel_to_indexed_data) in
  let wk := mkWC patterns continuation persist peeks consume_ref in
  match options with
  | Some data_candidates =>
    counter ← gets produce_counter;
    _ ← log_comm (COMM_new data_candidates consume_ref peeks (produce_counters counter));
    _ ← store_persistent_data data_candidates;
    mret (Ok (wrap_result channels wk data_candidates))
  | None =>
    _ ← store_waiting_continuation channels wk;
    mret (Ok None)
  end.

(** [fn run_matcher_for_channels], with the closures of [extract_produce_candidate] *)
Definition fetch_matching_continuations (channels : list C) : ST RSpace (indexed wc) :=
  continuations ← on_store (get_continuations channels);
  shuffle_with_index continuations.

Definition fetch_matching_data (bat_channel : C) (d : datum) (channel : C) :
  ST RSpace (C * indexed datum) :=
  data_vec ← on_store (get_data channel);
  shuffled_data ← shuffle_with_index data_vec;
  mret (channel,
    if decide (channel = bat_channel) then (d, (-1)%Z) :: shuffled_data else shuffled_data).

Fixpoint run_matcher_for_channels (bat_channel : C) (d : datum)
    (grouped_channels : list (list C)) : ST RSpace (option (ProduceCandidate C P A K)) :=
  match grouped_channels with
  | [] => mret None
  | channels :: rest =>
    match_candidates ← fetch_matching_continuations channels;
    fetched ← st_mapM (fetch_matching_data bat_channel d) channels;
    let channel_to_indexed_data :=
      foldl (fun m '(c, l) => <[c := l]> m) (∅ : gmap C (indexed datum)) fetched in
    match extract_first_match get channels match_candidates channel_to_indexed_data with
    | Some produce_candidate => mret (Some produce_candidate)
    | None => run_matcher_for_channels bat_channel d rest
    end
  end.

(** [fn extract_produce_candidate] *)
Definition extract_produce_candidate (grouped_channels : list (list C)) (bat_channel : C)
    (d : datum) : ST RSpace (option (ProduceCandidate C P A K)) :=
  run_matcher_for_channels bat_channel d grouped_channels.

(** [fn process_match_found] *)
Definition process_match_found (pc : ProduceCandidate C P A K) :
  ST RSpace MaybeConsumeResult :=
  let channels := pc_channels pc in
  let continuation := pc_continuation pc in
  let data_candidates := pc_data_candidates pc in
  counter ← gets produce_counter;
  _ ← log_comm (COMM_new data_candidates (wc_source continuation) (wc_peeks continuation)
        (produce_counters counter));
  _ ← (if wc_persist continuation then mret None
       else on_store (remove_continuation channels (pc_continuation_index pc)));
  _ ← remove_matched_datum_and_join channels data_candidates;
  mret (wrap_result channels continuation data_candidates).

(** [fn locked_produce] *)
Definition locked_produce (channel : C) (a : A) (persist : bool) (produce_ref : Produce) :
  ST RSpace (res RSpaceError MaybeProduceResult) :=
  grouped_channels ← on_store (get_joins channel);
  _ ← log_produce produce_ref persist;
  extracted ← extract_produce_candidate grouped_channels channel
    (mkDatum a persist produce_ref);
  match extracted with
  | Some produce_candidate =>
    result ← process_match_found produce_candidate;
    mret (Ok ((fun cr => (cr.1, cr.2, produce_ref)) <$> result))
  | None =>
    result ← store_data channel a persist produce_ref;
    mret (Ok result)
  end.

(** [fn consume] *)
Definition consume (channels : list C) (patterns : list P) (continuation : K)
    (persist : bool) (peeks : i32_set) : ST RSpace (res RSpaceError MaybeConsumeResult) :=
  if decide (channels = []) then mret Panic
  else if decide (length channels <> length patterns) then mret Panic
  else
    let consume_ref := Consume_create cd channels patterns continuation persist in
    locked_consume channels patterns continuation persist peeks consume_ref.

(** [fn produce]; [produce_lock] reads the joins of the channel before
    [locked_produce] does. *)
Definition produce (channel : C) (a : A) (persist : bool) :
  ST RSpace (res RSpaceError MaybeProduceResult) :=
  let produce_ref := Produce_create cd channel a persist in
  _ ← on_store (get_joins channel);
  locked_produce channel a persist produce_ref.

(** [fn locked_install_internal] *)
Definition locked_install_internal (channels : list C) (patterns : list P)
    (continuation : K) (record_install : bool) :
  ST RSpace (res RSpaceError (option (K * list A))) :=
  if decide (length channels <> length patterns) then mret Panic
  else
    let consume_ref := Consume_create cd channels patterns continuation true in
    channel_to_indexed_data ← fetch_channel_to_index_data channels;
    let options := collect_option
      (extract_data_candidates get (zip channels patterns) channel_to_indexed_data) in
    match options with
    | None =>
      _ ← (if record_install
           then modify (fun r => set_installs
                  (<[channels := mkInstall patterns continuation]> (installs r)) r)
           else mret tt);
      _ ← on_store (install_continuation channels
            (mkWC patterns continuation true ∅ consume_ref));
      _ ← st_mapM (fun channel => on_store (install_join channel channels)) channels;
      mret (Ok None)
    | Some _ =>
      mret (Err (BugFoundError "RUST ERROR: Installing can be done only on startup"))
    end.

(** [fn install] *)
Definition install (channels : list C) (patterns : list P) (continuation : K) :
  ST RSpace (res RSpaceError (option (K * list A))) :=
  locked_install_internal channels patterns continuation true.

(** [fn restore_installs]: the [unwrap] of a failed install panics. *)
Fixpoint reinstall (l : list (list C * Install P K)) : ST RSpace (res RSpaceError unit) :=
  match l with
  | [] => mret (Ok tt)
  | (channels, i) :: l =>
    r ← locked_install_internal channels (in_patterns i) (in_continuation i) true;
    match r with
    | Ok _ => reinstall l
    | _ => mret Panic
    end
  end.
Definition restore_installs : ST RSpace (res RSpaceError unit) :=
  taken ← gets installs;
  _ ← modify (set_installs ∅);
  order ← permuted (map_to_list taken);
  reinstall order.

(** [fn create_new_hot_store] *)
Definition create_new_hot_store (history_reader : HistoryReaderBase C P A K) :
  ST RSpace unit :=
  modify (set_store (new_hot_store empty_state history_reader)).

(** [fn create_checkpoint] *)
Definition after_checkpoint : ST RSpace (res RSpaceError Checkpoint) :=
  log ← gets event_log;
  _ ← modify (set_log []);
  _ ← modify (set_counter ∅);
  reader ← gets (fun r => get_history_reader (repo_root (history_repository r))
                             (history_repository r));
  match reader with
  | Ok history_reader =>
    _ ← create_new_hot_store history_reader;
    restored ← restore_installs;
    match restored with
    | Ok _ =>
      root ← gets (fun r => repo_root (history_repository r));
      mret (Ok (mkCheckpoint root log))
    | Err e => mret (Err e)
    | Panic => mret Panic
    end
  | Err e => mret (Err (RSpaceHistoryError e))
  | Panic => mret Panic
  end.

Definition create_checkpoint : ST RSpace (res RSpaceError Checkpoint) :=
  actions ← gets (fun r => changes (store r));
  actions ← permuted actions;
  next ← gets (fun r => repo_checkpoint actions (history_repository r));
  match next with
  | Ok next_history =>
    _ ← modify (set_repo next_history);
    after_checkpoint
  | Err e => mret (Err (RSpaceHistoryError e))
  | Panic => mret Panic
  end.

(** A method of [self.history_repository]. *)
Definition on_repo {X} (m : ST H X) : ST RSpace X := fun r =>
  let '(x, h) := m (history_repository r) in (x, set_repo h r).

(** [fn reset] *)
Definition reset (root : Blake2b256Hash) : ST RSpace (res RSpaceError unit) :=
  next ← on_repo (repo_reset root);
  match next with
  | Ok next_history =>
    _ ← modify (set_repo next_history);
    _ ← modify (set_log []);
    _ ← modify (set_counter ∅);
    reader ← gets (fun r => get_history_reader root (history_repository r));
    match reader with
    | Ok history_reader =>
      _ ← create_new_hot_store history_reader;
      restore_installs
    | Err e => mret (Err (RSpaceHistoryError e))
    | Panic => mret Panic
    end
  | Err e => mret (Err (RSpaceHistoryError e))
  | Panic => mret Panic
  end.

(** [fn clear] *)
Definition rspace_clear : ST RSpace (res RSpaceError unit) := reset empty_root_node_hash.

(** [fn create_soft_checkpoint], [fn take_event_log] *)
Definition create_soft_checkpoint : ST RSpace (SoftCheckpoint C P A K) :=
  cache_snapshot ← gets (fun r => snapshot (store r));
  curr_event_log ← gets event_log;
  _ ← modify (set_log []);
  curr_produce_counter ← gets produce_counter;
  _ ← modify (set_counter ∅);
  mret (mkSoft cache_snapshot curr_event_log curr_produce_counter).
Definition take_event_log : ST RSpace Log :=
  curr_event_log ← gets event_log;
  _ ← modify (set_log []);
  _ ← modify (set_counter ∅);
  mret curr_event_log.

(** [fn revert_to_soft_checkpoint] *)
Definition revert_to_soft_checkpoint (cp : SoftCheckpoint C P A K) :
  ST RSpace (res RSpaceError unit) :=
  reader ← gets (fun r => get_history_reader (repo_root (history_repository r))
                             (history_repository r));
  match reader with
  | Ok history_reader =>
    _ ← modify (set_store (new_hot_store (sc_cache_snapshot cp) history_reader));
    _ ← modify (set_log (sc_log cp));
    _ ← modify (set_counter (sc_produce_counter cp));
    mret (Ok tt)
  | Err e => mret (Err (RSpaceHistoryError e))
  | Panic => mret Panic
  end.

(** [fn update_produce] *)
Definition update_ref (produce_ref p : Produce) : Produce :=
  if decide (p_hash p = p_hash produce_ref) then produce_ref else p.
Definition update_event (produce_ref : Produce) (e : Event) : Event :=
  match e with
  | IoEvent (IOProduce p) => IoEvent (IOProduce (update_ref produce_ref p))
  | Comm comm =>
    Comm (mkCOMM (comm_consume comm) (update_ref produce_ref <$> comm_produces comm)
      (comm_peeks comm)
      ((fun kv => (update_ref produce_ref kv.1, kv.2)) <$> comm_times_repeated comm))
  | IoEvent (IOConsume c) => e
  end.
Definition update_produce (produce_ref : Produce) : ST RSpace unit :=
  modify (fun r => set_log (update_event produce_ref <$> event_log r) r).

(** [RSpace::apply], [fn spawn]: the new space shares the stores of the repository. *)
Definition rspace_apply (h : H) (s : S) (g : G) : RSpace := mkRSpace h s ∅ [] ∅ g.
Definition spawn (r : RSpace) : res RSpaceError RSpace :=
  let h := history_repository r in
  match (repo_reset (repo_root h) h).1 with
  | Ok next_history =>
    match get_history_reader (repo_root next_history) next_history with
    | Ok reader =>
      let fresh := rspace_apply next_history (new_hot_store empty_state reader) (oracle r) in
      match restore_installs fresh with
      | (Ok _, fresh) => Ok fresh
      | (Err e, _) => Err e
      | (Panic, _) => Panic
      end
    | Err e => Err (RSpaceHistoryError e)
    | Panic => Panic
    end
  | Err e => Err (RSpaceHistoryError e)
  | Panic => Panic
  end.
End rspace.
Arguments RSpace C P K H S G {_ _}.
