(* ===== verification/RSpaceSpec.v ===== *)
(** * What produce, consume and install do

    The operations of [RSpace.v] over any hot store that satisfies the laws of
    [HotStoreSig.v]: the effect of each branch on what clients see, on the event log and
    on the produce counters. *)
From S2P Require Import Prelude Events HotStoreSig SpaceMatcher RSpace.

(** The laws of a store constructor. *)
Class HotStoreFactoryLaws (C P A K S : Type) `{Countable C}
    `{!HotStore C P A K S, !Debug P, !Debug K, !HotStoreLaws C P A K S}
    `{!HotStoreFactory C P A K S} : Prop := {
  factory_wf : forall st h, hs_wf (new_hot_store (S:=S) st h);
  factory_view : forall st h,
    view (new_hot_store (S:=S) st h) ≡ overlay st (history_view h);
  factory_base : forall st h, base (new_hot_store (S:=S) st h) ≡ history_view h;
}.

Section spec.
Context {C P A K H S G : Type} `{Countable C} `{!HotStore C P A K S}.
Context `{!HistoryRepository C P A K H, !HotStoreFactory C P A K S, !Oracle G}.
Context `{!Debug P, !Debug K, !HotStoreLaws C P A K S}.
Context (cd : Codecs C P A K) (get : P -> A -> option A).

Abbreviation space := (RSpace C P K H S G).
Abbreviation wc := (WaitingContinuation P K).
Abbreviation datum := (Datum A).
Abbreviation candidate := (ConsumeCandidate C A).
Abbreviation View := (View C P A K).

(** What clients of the space see. *)
Definition V (r : space) : View := view (store r).

(** ** Computations that touch the store and the oracle only *)

Record meta_eq (r r' : space) : Prop := {
  meta_repo : history_repository r' = history_repository r;
  meta_installs : installs r' = installs r;
  meta_log : event_log r' = event_log r;
  meta_counter : produce_counter r' = produce_counter r;
}.

Definition good (r : space) : Prop := hs_wf (store r).

Record store_step (r r' : space) : Prop := {
  step_good : good r';
  step_meta : meta_eq r r';
  step_base : base (store r') ≡ base (store r);
}.

(** [m] touches the store and the oracle only, and relates the views before and after
    and its result by [Φ]. *)
Definition spec {R} (m : ST space R) (Φ : View -> R -> View -> Prop) : Prop :=
  forall r, good r -> store_step r (m r).2 /\ Φ (V r) (m r).1 (V (m r).2).

Lemma meta_eq_refl r : meta_eq r r.
Proof. done. Qed.
Lemma meta_eq_trans r1 r2 r3 : meta_eq r1 r2 -> meta_eq r2 r3 -> meta_eq r1 r3.
Proof. intros [] []. split; congruence. Qed.
Lemma store_step_trans r1 r2 r3 : store_step r1 r2 -> store_step r2 r3 -> store_step r1 r3.
Proof.
  intros [? ? ?] [? ? ?]. split; [done|by eapply meta_eq_trans|by etrans].
Qed.

Lemma spec_ret {R} (x : R) : spec (mret x) (fun v y v' => y = x /\ v' ≡ v).
Proof. intros r Hr. split; [split; [done|by split|done]|done]. Qed.

Lemma spec_bind {R R'} (m : ST space R) (k : R -> ST space R') Φ Ψ :
  spec m Φ -> (forall x, spec (k x) (Ψ x)) ->
  spec (m ≫= k) (fun v y v'' => exists x v', Φ v x v' /\ Ψ x v' y v'').
Proof.
  intros Hm Hk r Hr. unfold mbind, st_bind. destruct (Hm r Hr) as [Hs HΦ].
  destruct (m r) as [x r1]. simpl in *. destruct (Hk x r1 (step_good _ _ Hs)) as [Hs' HΨ].
  split; [by eapply store_step_trans|]. eauto.
Qed.

Lemma spec_impl {R} (m : ST space R) Φ (Ψ : View -> R -> View -> Prop) :
  spec m Φ -> (forall v x v', Φ v x v' -> Ψ v x v') -> spec m Ψ.
Proof. intros Hm Himp r Hr. destruct (Hm r Hr). eauto. Qed.

Lemma spec_on_store {R} (op : S -> R * S) vop :
  refines hs_wf view base op vop ->
  spec (on_store op) (fun v x v' => x = (vop v).1 /\ v' ≡ (vop v).2).
Proof.
  intros Hop r Hr. destruct (Hop (store r) Hr) as (Hwf & Hx & Hv & Hb).
  unfold on_store, V. destruct (op (store r)) as [x s]. simpl in *.
  split; [split; [done|by split|done]|done].
Qed.

Lemma spec_permuted {X} (l : list X) :
  spec (permuted l) (fun v l' v' => l' ≡ₚ l /\ v' ≡ v).
Proof.
  intros r Hr. unfold permuted, V. pose proof (permute_perm X l (oracle r)) as Hp.
  destruct (permute l (oracle r)) as [l' g]. simpl in *.
  split; [split; [done|by split|done]|done].
Qed.

Lemma spec_put_datum ch d :
  spec (modify (fun r => set_store (put_datum ch d (store r)) r))
    (fun v _ v' => v' ≡ view_put_datum ch d v).
Proof.
  intros r Hr. unfold modify, V.
  destruct (law_put_datum ch d (store r) Hr) as (Hwf & _ & Hv & Hb). simpl in *.
  split; [split; [done|by split|done]|done].
Qed.

(** ** Reading the data of the channels *)

Definition indexes (l : indexed datum) (d : list datum) : Prop := l ≡ₚ with_index d.

Lemma elem_of_with_index {D} (t : list D) d i :
  (d, i) ∈ with_index t <-> exists n, i = Z.of_nat n /\ t !! n = Some d.
Proof.
  unfold with_index. rewrite elem_of_lookup_imap. naive_solver.
Qed.

Lemma with_index_distinct {D} (t : list D) : NoDup (with_index t).*2.
Proof.
  apply NoDup_alt. intros i j x. rewrite !list_lookup_fmap. unfold with_index.
  rewrite !list_lookup_imap. destruct (t !! i), (t !! j); simpl; try done.
  intros [= <-] [= Heq]. lia.
Qed.

(** The data of [channels], read from a store with view [v]. *)
Definition fetched (channels : list C) (v : View) (m : gmap C (indexed datum)) : Prop :=
  forall ch, ch ∈ channels -> exists l, m !! ch = Some l /\ indexes l (v_data v ch).

Lemma spec_fetch_loop channels m :
  spec (fetch_loop channels m) (fun v m' v' => v' ≡ v /\ fetched channels v m' /\
    forall ch, ch ∉ channels -> m' !! ch = m !! ch).
Proof.
  revert m. induction channels as [|c channels IH]; intros m; simpl.
  { eapply spec_impl; [apply spec_ret|]. intros v ? v' [-> Hv]. split; [done|].
    split; [|done]. intros ch Hin. by apply elem_of_nil in Hin. }
  eapply spec_impl.
  { eapply spec_bind; [apply (spec_on_store _ _ (law_get_data c))|]. intros d.
    eapply spec_bind; [apply spec_permuted|]. intros l. apply IH. }
  intros v m' v' (d & v1 & [-> Hv1] & l & v2 & [Hl Hv2] & Hv' & Hf & Hnin). simpl in *.
  assert (v2 ≡ v) as Hv by (by etrans). split; [by etrans|]. split.
  - intros ch Hch. destruct (decide (ch ∈ channels)) as [Hin|Hni].
    + destruct (Hf ch Hin) as (l' & Hm' & Hl'). exists l'. by rewrite <-Hv.
    + apply elem_of_cons in Hch as [->|]; [|done]. exists l.
      by rewrite Hnin, lookup_insert_eq.
  - intros ch [Hne Hni]%not_elem_of_cons. by rewrite Hnin, lookup_insert_ne.
Qed.

Lemma spec_fetch channels :
  spec (fetch_channel_to_index_data channels) (fun v m v' => v' ≡ v /\ fetched channels v m).
Proof. eapply spec_impl; [apply spec_fetch_loop|]. naive_solver. Qed.

(** ** Matching against a view *)

(** [cand] matches pattern [cp.2] with the datum at its index on channel [cp.1]. *)
Definition picks (v : View) (cp : C * P) (cand : candidate) : Prop :=
  exists n d mat, v_data v cp.1 !! n = Some d /\ get cp.2 (datum_a d) = Some mat /\
    cand = matched cp.1 d (Z.of_nat n) mat.

(** No datum on channel [cp.1] matches pattern [cp.2]. *)
Definition unmatched (v : View) (cp : C * P) : Prop :=
  forall d, d ∈ v_data v cp.1 -> get cp.2 (datum_a d) = None.

Lemma find_in_picks channels v m cp cand :
  fetched channels v m -> find_in get m cp = Some cand -> cp.1 ∈ channels ->
  picks v cp cand.
Proof.
  intros Hf Hc Hin. apply find_in_candidate in Hc as (l & d & i & mat & Hl & Hd & Hg & ->).
  destruct (Hf _ Hin) as (l' & Hl' & Hp). rewrite Hl in Hl'. injection Hl' as <-.
  rewrite Hp in Hd. apply elem_of_with_index in Hd as (n & -> & Hn). by exists n, d, mat.
Qed.

Lemma find_in_unmatched channels v m cp :
  fetched channels v m -> find_in get m cp = None -> cp.1 ∈ channels -> unmatched v cp.
Proof.
  intros Hf Hn Hin d Hd. destruct (Hf _ Hin) as (l & Hl & Hp).
  apply list_elem_of_lookup in Hd as [n Hd].
  rewrite find_in_None in Hn. apply (Hn l d (Z.of_nat n)); [done|].
  rewrite Hp. apply elem_of_with_index. eauto.
Qed.

Lemma zip_fst {X Y} (l : list X) (k : list Y) : length l = length k -> (zip l k).*1 = l.
Proof. intros Hl. apply fst_zip. lia. Qed.

(** On distinct channels, a consume either finds a datum for every pattern or has a
    pattern that no datum of its channel matches. *)
Lemma options_cases channels patterns v m :
  NoDup channels -> fetched channels v m ->
  match collect_option (extract_data_candidates get (zip channels patterns) m) with
  | Some cands => Forall2 (picks v) (zip channels patterns) cands
  | None => exists cp, cp ∈ zip channels patterns /\ unmatched v cp
  end.
Proof.
  intros Hnd Hf. unfold extract_data_candidates.
  rewrite extract_nodup by by apply NoDup_zip_fst.
  change (collect_option _) with (find_all get m channels patterns).
  assert (forall cp, cp ∈ zip channels patterns -> cp.1 ∈ channels) as Hz.
  { intros [ch p] Hin. by eapply elem_of_zip_l. }
  destruct (find_all get m channels patterns) as [cands|] eqn:Hall.
  - apply find_all_Some, Forall2_same_length_lookup in Hall as [Hlen Hall].
    apply Forall2_same_length_lookup. split; [done|]. intros i cp c Hcp Hc.
    eapply find_in_picks; eauto using list_elem_of_lookup_2.
  - apply find_all_None in Hall as (cp & Hcp & Hn). exists cp.
    split; [done|]. eapply find_in_unmatched; eauto.
Qed.

(** ** Removing the matched data *)

(** The data left on the channel of [c] when the datum of [c] is taken. *)
Definition remaining (c : candidate) (l : list datum) : list datum :=
  if bool_decide (0 <= cc_datum_index c)%Z && negb (datum_persist (cc_datum c))
  then delete (Z.to_nat (cc_datum_index c)) l else l.

(** The data of [v'] are those of [v] without the matched ones. *)
Definition data_after (cs : list candidate) (v v' : View) : Prop :=
  (forall ch, ch ∉ cc_channel <$> cs -> v_data v' ch = v_data v ch) /\
  (forall c, c ∈ cs -> v_data v' (cc_channel c) = remaining c (v_data v (cc_channel c))).

Definition conts_same (v v' : View) : Prop :=
  (forall chs, v_conts v' chs = v_conts v chs) /\
  (forall chs, v_installed v' chs = v_installed v chs).
Definition joins_same (v v' : View) : Prop :=
  (forall ch, v_joins v' ch = v_joins v ch) /\
  (forall ch, v_installed_joins v' ch = v_installed_joins v ch).

(** The index of a candidate to be removed is one of the row. *)
Definition in_row (v : View) (c : candidate) : Prop :=
  datum_persist (cc_datum c) = false ->
  (cc_datum_index c < Z.of_nat (length (v_data v (cc_channel c))))%Z.

Lemma remove_datum_in_row v c :
  datum_persist (cc_datum c) = false -> (0 <= cc_datum_index c)%Z -> in_row v c ->
  view_remove_datum (cc_channel c) (cc_datum_index c) v =
  (Ok tt, set_data (cc_channel c) (remaining c (v_data v (cc_channel c))) v).
Proof.
  intros Hp Hi Hr. unfold view_remove_datum. rewrite decide_True by auto.
  unfold remaining. rewrite bool_decide_true by done. by rewrite Hp.
Qed.

Lemma spec_remove_candidate c :
  spec (remove_candidate c) (fun v x v' => (0 <= cc_datum_index c)%Z -> in_row v c ->
    x = Some tt /\ v' ≡ set_data (cc_channel c) (remaining c (v_data v (cc_channel c))) v).
Proof.
  unfold remove_candidate. destruct (datum_persist (cc_datum c)) eqn:Hp.
  - eapply spec_impl; [apply spec_ret|]. intros v x v' [-> Hv] Hi _. split; [done|].
    unfold remaining. rewrite Hp, andb_false_r. rewrite Hv. symmetry.
    repeat split; intros; simpl. rewrite fn_lookup_insert_decide. by case_decide; subst.
  - eapply spec_impl.
    { eapply spec_bind; [apply (spec_on_store _ _ (law_remove_datum _ _))|].
      intros x. apply spec_ret. }
    intros v x v' (y & v1 & [-> Hv1] & -> & Hv') Hi Hr.
    rewrite remove_datum_in_row in Hv1 |- * by done. split; [done|by etrans].
Qed.

Lemma data_after_cons c cs v v1 v2 :
  cc_channel c ∉ cc_channel <$> cs ->
  v1 ≡ set_data (cc_channel c) (remaining c (v_data v (cc_channel c))) v ->
  data_after cs v1 v2 -> data_after (c :: cs) v v2.
Proof.
  intros Hc Hv1 [Ho Hi]. split.
  - intros ch [Hne Hni]%not_elem_of_cons. rewrite Ho by done. rewrite Hv1. simpl.
    by rewrite fn_lookup_insert_ne.
  - intros c' [->|Hin]%elem_of_cons.
    + rewrite Ho by done. rewrite Hv1. simpl. by rewrite fn_lookup_insert.
    + rewrite (Hi c' Hin). rewrite Hv1. simpl. rewrite fn_lookup_insert_ne; [done|].
      intros Heq. apply Hc. rewrite Heq. by apply list_elem_of_fmap_2.
Qed.

Lemma in_row_set_data v v1 (c c' : candidate) l :
  v1 ≡ set_data (cc_channel c) l v -> cc_channel c <> cc_channel c' ->
  in_row v c' -> in_row v1 c'.
Proof.
  intros Hv1 Hne Hr Hp. specialize (Hr Hp). rewrite Hv1. simpl.
  by rewrite fn_lookup_insert_ne.
Qed.

Lemma spec_remove_candidates cs :
  spec (st_mapM remove_candidate cs) (fun v xs v' =>
    NoDup (cc_channel <$> cs) ->
    (forall c, c ∈ cs -> (0 <= cc_datum_index c)%Z /\ in_row v c) ->
    xs = replicate (length cs) (Some tt) /\
    data_after cs v v' /\ conts_same v v' /\ joins_same v v').
Proof.
  induction cs as [|c cs IH]; simpl.
  { eapply spec_impl; [apply spec_ret|]. intros v x v' [-> Hv] _ _. split; [done|].
    destruct Hv as (?&?&?&?&?). repeat split; try done.
    intros c Hc. by apply elem_of_nil in Hc. }
  eapply spec_impl.
  { eapply spec_bind; [apply spec_remove_candidate|]. intros x.
    eapply spec_bind; [apply IH|]. intros xs. apply spec_ret. }
  intros v ? v3 (x & v1 & H1 & xs & v2 & H2 & -> & Hv3) Hnd Hr. csimpl in Hnd.
  apply NoDup_cons in Hnd as [Hc Hnd]. destruct (Hr c) as [Hi Hrow]; [by left|].
  destruct (H1 Hi Hrow) as [-> Hv1]. destruct (H2 Hnd) as (-> & Hd & [] & []).
  { intros c' Hin. destruct (Hr c') as [? ?]; [by right|]. split; [done|].
    eapply in_row_set_data; [done| |done]. intros Heq. apply Hc. rewrite Heq.
    by apply list_elem_of_fmap_2. }
  split; [done|]. pose proof Hv1 as (?&?&?&?&?). pose proof Hv3 as (?&?&E&?&?).
  split_and!; [|split; intros; etrans; eauto; etrans; eauto..].
  assert (data_after (c :: cs) v v2) as [Ho Hin'] by by eapply data_after_cons.
  split; intros; rewrite E; auto.
Qed.

Lemma removal_order_perm (cs : list candidate) : removal_order cs ≡ₚ cs.
Proof. unfold removal_order. by rewrite reverse_Permutation, sort_by_perm. Qed.

Lemma data_after_perm cs cs' v v' : cs ≡ₚ cs' -> data_after cs v v' -> data_after cs' v v'.
Proof.
  intros Hp [Ho Hi]. split.
  - intros ch Hch. apply Ho. by rewrite Hp.
  - intros c Hc. apply Hi. by rewrite Hp.
Qed.

Lemma spec_store_persistent_data cs :
  spec (store_persistent_data cs) (fun v x v' =>
    NoDup (cc_channel <$> cs) ->
    (forall c, c ∈ cs -> (0 <= cc_datum_index c)%Z /\ in_row v c) ->
    data_after cs v v' /\ conts_same v v' /\ joins_same v v').
Proof.
  eapply spec_impl.
  { eapply spec_bind; [apply spec_remove_candidates|]. intros xs. apply spec_ret. }
  intros v x v' (xs & v1 & H1 & _ & Hv') Hnd Hr. pose proof (removal_order_perm cs) as Hp.
  destruct H1 as (_ & Hd & [? ?] & [? ?]).
  { by rewrite Hp. }
  { intros c Hc. apply Hr. by rewrite <-Hp. }
  apply (data_after_perm _ cs) in Hd as [Ho Hi]; [|done].
  destruct Hv' as (Ec & Ei & Ed & Ej & Eij).
  split_and!; split; intros; rewrite ?Ec, ?Ei, ?Ed, ?Ej, ?Eij; auto.
Qed.

(** Candidates picked from a view satisfy the conditions of the removal. *)
Lemma picks_in_row v cp c : picks v cp c -> (0 <= cc_datum_index c)%Z /\ in_row v c.
Proof.
  intros (n & d & mat & Hn & _ & ->). split; simpl; [lia|]. intros _. simpl.
  apply lookup_lt_Some in Hn. lia.
Qed.

Lemma picks_channels v cps cands :
  Forall2 (picks v) cps cands -> cc_channel <$> cands = cps.*1.
Proof.
  induction 1 as [|cp c cps cands Hp _ IH]; [done|]. csimpl. rewrite IH.
  by destruct Hp as (? & ? & ? & ? & ? & ->).
Qed.

Lemma picks_all_in_row v cps cands :
  Forall2 (picks v) cps cands ->
  forall c, c ∈ cands -> (0 <= cc_datum_index c)%Z /\ in_row v c.
Proof.
  intros HF c Hc. apply list_elem_of_lookup in Hc as [i Hc].
  destruct (Forall2_lookup_r _ _ _ _ _ HF Hc) as (cp & _ & Hp).
  by apply picks_in_row in Hp.
Qed.

(** ** Storing a continuation *)

Definition view_put_joins (channels join : list C) (v : View) : View :=
  foldl (fun v ch => (view_put_join ch join v).2) v channels.

Lemma view_put_join_proper ch join (v w : View) :
  v ≡ w -> (view_put_join ch join v).2 ≡ (view_put_join ch join w).2.
Proof. intros Hv. unfold view_put_join. simpl. by rewrite Hv. Qed.

#[global] Instance view_put_joins_proper channels join :
  Proper ((≡) ==> (≡)) (view_put_joins channels join).
Proof.
  unfold view_put_joins. induction channels as [|ch channels IH]; intros v w Hv; simpl; [done|].
  apply IH. by apply view_put_join_proper.
Qed.

Lemma spec_put_joins channels join :
  spec (st_mapM (fun channel => on_store (put_join channel join)) channels)
    (fun v _ v' => v' ≡ view_put_joins channels join v).
Proof.
  induction channels as [|ch channels IH]; simpl.
  { eapply spec_impl; [apply spec_ret|]. naive_solver. }
  eapply spec_impl.
  { eapply spec_bind; [apply (spec_on_store _ _ (law_put_join _ _))|]. intros x.
    eapply spec_bind; [apply IH|]. intros xs. apply spec_ret. }
  intros v ? v3 (x & v1 & [_ H1] & xs & v2 & H2 & _ & H3).
  rewrite H3, H2. unfold view_put_joins at 2. simpl. by apply view_put_joins_proper.
Qed.

Definition view_store_continuation (channels : list C) (w : wc) (v : View) : View :=
  view_put_joins channels channels (view_put_continuation channels w v).2.

Lemma spec_store_waiting_continuation channels w :
  spec (store_waiting_continuation channels w)
    (fun v x v' => x = None /\ v' ≡ view_store_continuation channels w v).
Proof.
  eapply spec_impl.
  { eapply spec_bind; [apply (spec_on_store _ _ (law_put_continuation _ _))|]. intros x.
    eapply spec_bind; [apply spec_put_joins|]. intros xs. apply spec_ret. }
  intros v ? v3 (x & v1 & [_ H1] & xs & v2 & H2 & -> & H3). split; [done|].
  rewrite H3, H2. unfold view_store_continuation. by f_equiv.
Qed.

(** ** Consume *)

(** What a consume does: it either takes a matching datum from every channel, or one of
    its patterns matches no datum and the continuation waits. *)
Definition consume_outcome (channels : list C) (patterns : list P) (k : K)
    (persist : bool) (peeks : i32_set) (r : space)
    (out : res RSpaceError (MaybeConsumeResult (C:=C) (P:=P) (A:=A) (K:=K))) (r' : space) :
  Prop :=
  let cref := Consume_create cd channels patterns k persist in
  let wk := mkWC patterns k persist peeks cref in
  (exists cands,
    Forall2 (picks (V r)) (zip channels patterns) cands /\
    out = Ok (wrap_result channels wk cands) /\
    event_log r' =
      Comm (COMM_new cands cref peeks (produce_counters (produce_counter r)))
        :: IoEvent (IOConsume cref) :: event_log r /\
    data_after cands (V r) (V r') /\ conts_same (V r) (V r') /\ joins_same (V r) (V r')) \/
  (exists cp, cp ∈ zip channels patterns /\ unmatched (V r) cp /\
    out = Ok None /\
    event_log r' = IoEvent (IOConsume cref) :: event_log r /\
    V r' ≡ view_store_continuation channels wk (V r)).

Definition kept (r r' : space) : Prop :=
  good r' /\ history_repository r' = history_repository r /\ installs r' = installs r /\
  base (store r') ≡ base (store r).

Lemma view_store_continuation_proper channels w (v v' : View) :
  v ≡ v' -> view_store_continuation channels w v ≡ view_store_continuation channels w v'.
Proof.
  intros Hv. unfold view_store_continuation. f_equiv.
  by destruct (view_step_proper (OpPutContinuation channels w) v v v v' (reflexivity _) Hv).
Qed.

Lemma data_after_proper cs (v v1 v' : View) :
  v1 ≡ v -> data_after cs v1 v' -> data_after cs v v'.
Proof. intros Hv [Ho Hi]. split; intros; rewrite <-Hv; auto. Qed.
Lemma conts_same_proper (v v1 v' : View) : v1 ≡ v -> conts_same v1 v' -> conts_same v v'.
Proof. intros Hv [Ho Hi]. split; intros; rewrite <-Hv; auto. Qed.
Lemma joins_same_proper (v v1 v' : View) : v1 ≡ v -> joins_same v1 v' -> joins_same v v'.
Proof. intros Hv [Ho Hi]. split; intros; rewrite <-Hv; auto. Qed.
Lemma in_row_proper (v v1 : View) c : v1 ≡ v -> in_row v c -> in_row v1 c.
Proof. intros Hv Hr Hp. rewrite Hv. auto. Qed.

Lemma consume_spec channels patterns k persist peeks r :
  good r -> channels <> [] -> length channels = length patterns -> NoDup channels ->
  let out := consume cd get channels patterns k persist peeks r in
  kept r out.2 /\ produce_counter out.2 = produce_counter r /\
  consume_outcome channels patterns k persist peeks r out.1 out.2.
Proof.
  intros Hr Hne Hlen Hnd. unfold consume. rewrite decide_False by done.
  rewrite decide_False by lia. set (cref := Consume_create _ _ _ _ _).
  unfold locked_consume, log_consume, log_event, modify, gets, mbind, st_bind.
  set (r0 := set_log _ r).
  destruct (spec_fetch channels r0 Hr) as [[Hg1 [Hrp1 Hin1 Hlg1 Hct1] Hb1] [Hv1 Hf]].
  destruct (fetch_channel_to_index_data channels r0) as [m r1]. simpl in *.
  pose proof (options_cases channels patterns (V r) m Hnd Hf) as Hopt.
  destruct (collect_option _) as [cands|].
  - unfold log_comm, log_event, modify. set (r2 := set_log _ r1).
    destruct (spec_store_persistent_data cands r2 Hg1) as [[Hg3 [Hrp3 Hin3 Hlg3 Hct3] Hb3] Hd].
    destruct (store_persistent_data cands r2) as [x r3]. simpl in *.
    destruct Hd as (Hd & Hc & Hj).
    { rewrite (picks_channels _ _ _ Hopt), zip_fst; done. }
    { intros c Hin. destruct (picks_all_in_row _ _ _ Hopt c Hin).
      split; [done|]. by eapply in_row_proper. }
    split; [|split; [congruence|]].
    + split_and!; [done|congruence|congruence|by etrans].
    + left. exists cands. split_and!; [done|done| | | |].
      * rewrite Hlg3. simpl. by rewrite Hlg1, Hct1.
      * by eapply data_after_proper.
      * by eapply conts_same_proper.
      * by eapply joins_same_proper.
  - set (wk := mkWC _ _ _ _ _).
    destruct (spec_store_waiting_continuation channels wk r1 Hg1) as [[Hg3 [Hrp3 Hin3 Hlg3 Hct3] Hb3] [Hx Hv]].
    destruct (store_waiting_continuation channels wk r1) as [x r3]. simpl in *.
    split; [|split; [congruence|]].
    + split_and!; [done|congruence|congruence|by etrans].
    + right. destruct Hopt as (cp & Hcp & Hun). exists cp. split_and!; [done|done|done| |].
      { by rewrite Hlg3, Hlg1. }
      rewrite Hv. by apply view_store_continuation_proper.
Qed.

(** ** Matching a new datum *)

Definition new_row (bat : C) (d : datum) (ch : C) (l : indexed datum) : indexed datum :=
  if decide (ch = bat) then (d, (-1)%Z) :: l else l.

(** The rows of [channels], with the new datum in front of the row of [bat]. *)
Definition fetched_new (bat : C) (d : datum) (channels : list C) (v : View)
    (m : gmap C (indexed datum)) : Prop :=
  forall ch, ch ∈ channels ->
    exists l, m !! ch = Some (new_row bat d ch l) /\ indexes l (v_data v ch).

Lemma spec_fetch_matching_data bat d channels :
  spec (st_mapM (fetch_matching_data bat d) channels) (fun v fs v' => v' ≡ v /\
    fs.*1 = channels /\
    forall ch l', (ch, l') ∈ fs -> exists l, l' = new_row bat d ch l /\ indexes l (v_data v ch)).
Proof.
  induction channels as [|ch channels IH]; simpl.
  { eapply spec_impl; [apply spec_ret|]. intros v ? v' [-> Hv]. split_and!; try done.
    intros ? ? Hin. by apply elem_of_nil in Hin. }
  eapply spec_impl.
  { eapply spec_bind.
    { eapply spec_bind; [apply (spec_on_store _ _ (law_get_data ch))|]. intros x.
      eapply spec_bind; [apply spec_permuted|]. intros l. apply spec_ret. }
    intros f. eapply spec_bind; [apply IH|]. intros fs. apply spec_ret. }
  intros v ? v6 (f & v3 & (x & v1 & [-> H1] & l & v2 & [Hl H2] & -> & H3) &
    fs & v5 & (H5 & Hfs & Hrows) & -> & H6). simpl in *.
  assert (v3 ≡ v) as Hv3 by (rewrite H3, H2; done).
  split_and!; [rewrite H6, H5; done|by rewrite <-Hfs|].
  intros ch' l' [[= -> ->]|Hin]%elem_of_cons; [by exists l|].
  destruct (Hrows _ _ Hin) as (l0 & -> & Hl0). exists l0. by rewrite <-Hv3.
Qed.

Lemma foldl_insert_lookup {X} (fs : list (C * X)) (m : gmap C X) ch :
  ch ∈ fs.*1 ->
  exists x, (ch, x) ∈ fs /\ foldl (fun m '(c, l) => <[c := l]> m) m fs !! ch = Some x.
Proof.
  induction fs as [|[c x] fs IH] using rev_ind; [by intros ?%elem_of_nil|].
  rewrite fmap_app, elem_of_app, foldl_snoc. simpl. intros Hin.
  destruct (decide (c = ch)) as [->|Hne].
  - exists x. rewrite lookup_insert_eq. split; [|done]. apply elem_of_app. right. by left.
  - destruct IH as (y & Hy & Hl); [destruct Hin; [done|set_solver]|].
    exists y. rewrite lookup_insert_ne by done. split; [|done]. apply elem_of_app. by left.
Qed.

(** [cand] matches with a datum of the view or with the new one. *)
Definition picks_new (bat : C) (d : datum) (v : View) (cp : C * P) (cand : candidate) : Prop :=
  picks v cp cand \/
  (cp.1 = bat /\ exists mat, get cp.2 (datum_a d) = Some mat /\
     cand = matched bat d (-1) mat).

Lemma find_in_picks_new bat d channels v m cp cand :
  fetched_new bat d channels v m -> find_in get m cp = Some cand -> cp.1 ∈ channels ->
  picks_new bat d v cp cand.
Proof.
  intros Hf Hc Hin. apply find_in_candidate in Hc as (l & d' & i & mat & Hl & Hd & Hg & ->).
  destruct (Hf _ Hin) as (l' & Hl' & Hp). rewrite Hl in Hl'. injection Hl' as ->.
  assert ((d', i) ∈ l' -> picks v cp (matched cp.1 d' i mat)) as Hold.
  { intros Hd'. rewrite Hp in Hd'. apply elem_of_with_index in Hd' as (n & -> & Hn).
    by exists n, d', mat. }
  unfold new_row in Hd. case_decide as Hch; [|left; auto].
  apply elem_of_cons in Hd as [[= -> ->]|Hd]; [|left; auto].
  right. split; [done|]. exists mat. by rewrite Hch.
Qed.

Lemma find_in_unmatched_new bat d channels v m cp :
  fetched_new bat d channels v m -> find_in get m cp = None -> cp.1 ∈ channels ->
  unmatched (view_put_datum bat d v) cp.
Proof.
  intros Hf Hn Hin d' Hd. destruct (Hf _ Hin) as (l & Hl & Hp).
  rewrite find_in_None in Hn. simpl in Hd. rewrite fn_lookup_insert_decide in Hd.
  assert (d' ∈ v_data v cp.1 -> get cp.2 (datum_a d') = None) as Hold.
  { intros Hd'. apply list_elem_of_lookup in Hd' as [n Hd'].
    apply (Hn _ d' (Z.of_nat n) Hl). unfold new_row.
    assert ((d', Z.of_nat n) ∈ l) by (rewrite Hp; apply elem_of_with_index; eauto).
    destruct (decide (cp.1 = bat)); [by right|done]. }
  case_decide as Hch; [|auto]. subst bat. apply elem_of_cons in Hd as [->|Hd]; [|auto].
  apply (Hn _ d (-1)%Z Hl). unfold new_row. rewrite decide_True by done. by left.
Qed.

(** [pc] is a match of a continuation waiting on [pc_channels pc]. *)
Definition match_found (bat : C) (d : datum) (v : View) (pc : ProduceCandidate C P A K) : Prop :=
  exists n, pc_continuation_index pc = Z.of_nat n /\
    view_get_continuations v (pc_channels pc) !! n = Some (pc_continuation pc) /\
    Forall2 (picks_new bat d v) (zip (pc_channels pc) (wc_patterns (pc_continuation pc)))
      (pc_data_candidates pc).

(** No continuation waiting on [channels] matches, even with the new datum. *)
Definition no_match (bat : C) (d : datum) (v : View) (channels : list C) : Prop :=
  forall cont, cont ∈ view_get_continuations v channels ->
    exists cp, cp ∈ zip channels (wc_patterns cont) /\ unmatched (view_put_datum bat d v) cp.

Lemma picks_proper (v v' : View) cp c : v ≡ v' -> picks v cp c -> picks v' cp c.
Proof. intros Hv (n & d & mat & Hn & ?). exists n, d, mat. by rewrite <-Hv. Qed.

Lemma match_found_proper bat d (v v' : View) pc :
  v ≡ v' -> match_found bat d v pc -> match_found bat d v' pc.
Proof.
  intros Hv (n & Hi & Hn & HF). exists n. split_and!; [done| |].
  - unfold view_get_continuations in *. by rewrite <- !Hv.
  - eapply Forall2_impl; [done|]. intros cp c [Hp|?]; [left|by right].
    by eapply picks_proper.
Qed.

Lemma no_match_proper bat d (v v' : View) chs :
  v ≡ v' -> no_match bat d v chs -> no_match bat d v' chs.
Proof.
  intros Hv Hn cont. unfold view_get_continuations. rewrite <- !Hv. intros Hc.
  destruct (Hn cont Hc) as (cp & Hcp & Hu). exists cp. split; [done|]. intros e.
  unfold view_put_datum. rewrite <- !Hv. apply Hu.
Qed.

Lemma extract_first_match_spec bat d channels v mcs m :
  NoDup channels -> fetched_new bat d channels v m ->
  mcs ≡ₚ with_index (view_get_continuations v channels) ->
  match extract_first_match get channels mcs m with
  | Some pc => pc_channels pc = channels /\ match_found bat d v pc
  | None => no_match bat d v channels
  end.
Proof.
  intros Hnd Hf Hmcs. destruct (extract_first_match_nodup get channels mcs m Hnd) as [HS HN].
  assert (forall (cont : wc) (cp : C * P),
    cp ∈ zip channels (wc_patterns cont) -> cp.1 ∈ channels) as Hz.
  { intros cont [ch p] Hin. by eapply elem_of_zip_l. }
  destruct (extract_first_match _ _ _ _) as [pc|].
  - destruct (HS pc eq_refl) as (j & cont & idx & cands & Hj & -> & Hall). simpl.
    split; [done|]. apply list_elem_of_lookup_2 in Hj. rewrite Hmcs in Hj.
    apply elem_of_with_index in Hj as (n & -> & Hn). exists n. split_and!; [done..|]. simpl.
    apply find_all_Some, Forall2_same_length_lookup in Hall as [Hlen Hall].
    apply Forall2_same_length_lookup. split; [done|]. intros i cp c Hcp Hc.
    eapply find_in_picks_new; eauto using list_elem_of_lookup_2.
  - intros cont Hcont. apply list_elem_of_lookup in Hcont as [n Hn].
    assert ((cont, Z.of_nat n) ∈ mcs) as Hin
      by (rewrite Hmcs; apply elem_of_with_index; eauto).
    specialize (HN eq_refl _ _ Hin). apply find_all_None in HN as (cp & Hcp & HN).
    exists cp. split; [done|]. eapply find_in_unmatched_new; eauto.
Qed.

Lemma spec_run_matcher bat d grouped :
  spec (run_matcher_for_channels get bat d grouped) (fun v x v' => v' ≡ v /\
    ((forall chs, chs ∈ grouped -> NoDup chs) ->
     match x with
     | Some pc => pc_channels pc ∈ grouped /\ match_found bat d v pc
     | None => forall chs, chs ∈ grouped -> no_match bat d v chs
     end)).
Proof.
  induction grouped as [|channels grouped IH]; simpl.
  { eapply spec_impl; [apply spec_ret|]. intros v ? v' [-> Hv]. split; [done|].
    intros _ chs Hin. by apply elem_of_nil in Hin. }
  intros r Hr. unfold mbind, st_bind.
  assert (spec (fetch_matching_continuations channels) (fun v mcs v' => v' ≡ v /\
    mcs ≡ₚ with_index (view_get_continuations v channels))) as Hfc.
  { eapply spec_impl.
    { eapply spec_bind; [apply (spec_on_store _ _ (law_get_continuations channels))|].
      intros x. apply spec_permuted. }
    intros v mcs v2 (x & v1 & [-> H1] & Hp & H2). simpl in *. split; [by etrans|done]. }
  destruct (Hfc r Hr) as [S1 [Hv1 Hmcs]].
  destruct (fetch_matching_continuations channels r) as [mcs r1]. simpl in *.
  destruct (spec_fetch_matching_data bat d channels r1 (step_good _ _ S1))
    as [S2 (Hv2 & Hfs & Hrows)].
  destruct (st_mapM (fetch_matching_data bat d) channels r1) as [fs r2]. simpl in *.
  set (m := foldl _ _ fs).
  assert (fetched_new bat d channels (V r) m) as Hf.
  { intros ch Hch. rewrite <-Hfs in Hch.
    destruct (foldl_insert_lookup fs (∅ : gmap C (indexed datum)) ch Hch)
      as (l' & Hin & Hm).
    destruct (Hrows _ _ Hin) as (l & -> & Hl). exists l. by rewrite <-Hv1. }
  pose proof (store_step_trans _ _ _ S1 S2) as S12.
  destruct (extract_first_match get channels mcs m) as [pc|] eqn:Hex; simpl.
  - split; [done|]. split; [by etrans|]. intros Hnd.
    pose proof (extract_first_match_spec bat d channels (V r) mcs m) as Hspec.
    rewrite Hex in Hspec. destruct Hspec as [-> Hmf]; [apply Hnd; by left|done..|].
    split; [by left|done].
  - destruct (IH r2 (step_good _ _ S2)) as [S3 [Hv3 Hrest]].
    split; [by eapply store_step_trans|]. split; [by rewrite Hv3, Hv2|].
    intros Hnd. assert (V r2 ≡ V r) as Hv by (by etrans).
    pose proof (extract_first_match_spec bat d channels (V r) mcs m) as Hspec.
    rewrite Hex in Hspec. specialize (Hrest ltac:(intros; apply Hnd; by right)).
    destruct (run_matcher_for_channels get bat d grouped r2).1 as [pc|].
    + destruct Hrest as [Hin Hmf]. split; [by right|]. by eapply match_found_proper.
    + intros chs [->|Hin]%elem_of_cons.
      * apply Hspec; [apply Hnd; by left|done..].
      * eapply no_match_proper; [done|]. by apply Hrest.
Qed.

(** ** Removing the matched data and the joins *)

(** The join of a channel after a match on [channels]: kept while continuations wait. *)
Definition join_left (channels : list C) (v : View) (ch : C) : list (list C) :=
  match view_get_continuations v channels with
  | [] => drop_join channels (v_joins v ch)
  | _ :: _ => v_joins v ch
  end.

Definition joins_after (channels : list C) (cs : list candidate) (v v' : View) : Prop :=
  (forall ch, ch ∉ cc_channel <$> cs -> v_joins v' ch = v_joins v ch) /\
  (forall c, c ∈ cs -> v_joins v' (cc_channel c) = join_left channels v (cc_channel c)) /\
  (forall ch, v_installed_joins v' ch = v_installed_joins v ch).

Lemma join_left_proper channels (v v' : View) ch :
  v ≡ v' -> join_left channels v ch = join_left channels v' ch.
Proof.
  intros (E1 & E2 & _ & E4 & _). unfold join_left, view_get_continuations.
  by rewrite E1, E2, E4.
Qed.

Lemma view_remove_join_spec ch channels (v : View) :
  (view_remove_join ch channels v).1 = Some tt /\
  (view_remove_join ch channels v).2 ≡ set_joins ch (join_left channels v ch) v.
Proof.
  unfold view_remove_join, join_left. destruct (view_get_continuations v channels); [done|].
  split; [done|]. repeat split; intros; simpl. rewrite fn_lookup_insert_decide.
  by case_decide; subst.
Qed.

Lemma set_data_remaining_id c (v : View) :
  bool_decide (0 <= cc_datum_index c)%Z && negb (datum_persist (cc_datum c)) = false ->
  set_data (cc_channel c) (remaining c (v_data v (cc_channel c))) v ≡ v.
Proof.
  intros Hb. unfold remaining. rewrite Hb. clear Hb. repeat split; intros; simpl.
  rewrite fn_lookup_insert_decide. by case_decide; subst.
Qed.

Lemma spec_remove_candidate_and_join channels c :
  spec (remove_candidate_and_join channels c) (fun v x v' => in_row v c ->
    x = Some tt /\
    v' ≡ set_joins (cc_channel c) (join_left channels v (cc_channel c))
           (set_data (cc_channel c) (remaining c (v_data v (cc_channel c))) v)).
Proof.
  set (ch := cc_channel c).
  assert (spec (if bool_decide (0 <= cc_datum_index c)%Z && negb (datum_persist (cc_datum c))
     then on_store (remove_datum ch (cc_datum_index c)) else mret (Ok tt))
     (fun v x v' => in_row v c ->
       x = Ok tt /\ v' ≡ set_data ch (remaining c (v_data v ch)) v)) as Hrem.
  { destruct (bool_decide _ && _) eqn:Hb.
    - apply andb_true_iff in Hb as [Hi%bool_decide_eq_true Hp%negb_true_iff].
      eapply spec_impl; [apply (spec_on_store _ _ (law_remove_datum _ _))|].
      intros v x v' [-> Hv] Hr. subst ch. by rewrite remove_datum_in_row in Hv |- *.
    - eapply spec_impl; [apply spec_ret|]. intros v x v' [-> Hv] _. split; [done|].
      subst ch. by rewrite set_data_remaining_id. }
  eapply spec_impl.
  { eapply (spec_bind _ _ _ (fun x v y v' => x = Ok tt ->
      y = Some tt /\ v' ≡ set_joins ch (join_left channels v ch) v)); [exact Hrem|].
    intros [[]|e|]; [|by eapply spec_impl; [apply spec_ret|]..].
    eapply spec_impl.
    { eapply spec_bind; [apply (spec_on_store _ _ (law_remove_join ch channels))|].
      intros ?. apply spec_ret. }
    intros v y v' (? & v1 & [_ H1] & -> & H2) _. split; [done|].
    by rewrite H2, H1, (proj2 (view_remove_join_spec _ _ _)). }
  intros v y v' (x & v1 & H1 & H2) Hrow. destruct (H1 Hrow) as [-> Hv1].
  destruct (H2 eq_refl) as [-> Hv2]. split; [done|]. rewrite Hv2.
  rewrite (join_left_proper _ _ _ ch Hv1). by rewrite Hv1.
Qed.

Lemma spec_remove_candidates_and_joins channels cs :
  spec (st_mapM (remove_candidate_and_join channels) cs) (fun v xs v' =>
    NoDup (cc_channel <$> cs) -> (forall c, c ∈ cs -> in_row v c) ->
    xs = replicate (length cs) (Some tt) /\
    data_after cs v v' /\ conts_same v v' /\ joins_after channels cs v v').
Proof.
  induction cs as [|c cs IH]; simpl.
  { eapply spec_impl; [apply spec_ret|]. intros v x v' [-> Hv] _ _. split; [done|].
    destruct Hv as (?&?&?&?&?). repeat split; try done;
      intros c Hc; by apply elem_of_nil in Hc. }
  eapply spec_impl.
  { eapply spec_bind; [apply spec_remove_candidate_and_join|]. intros x.
    eapply spec_bind; [apply IH|]. intros xs. apply spec_ret. }
  intros v ? v3 (x & v1 & H1 & xs & v2 & H2 & -> & Hv3) Hnd Hr. csimpl in Hnd.
  apply NoDup_cons in Hnd as [Hc Hnd]. destruct (H1 (Hr c ltac:(by left))) as [-> Hv1].
  assert (forall c', c' ∈ cs -> cc_channel c <> cc_channel c') as Hne.
  { intros c' Hin Heq. apply Hc. rewrite Heq. by apply list_elem_of_fmap_2. }
  destruct (H2 Hnd) as (-> & Hd & [C1 C2] & (J1 & J2 & J3)).
  { intros c' Hin Hp. specialize (Hr c' ltac:(by right) Hp). rewrite Hv1. simpl.
    rewrite fn_lookup_insert_ne by by apply Hne. done. }
  split; [done|]. destruct Hv3 as (E1&E2&E3&E4&E5).
  assert (v1 ≡ set_data (cc_channel c) (remaining c (v_data v (cc_channel c)))
    (set_joins (cc_channel c) (join_left channels v (cc_channel c)) v)) as Hv1' by done.
  split_and!.
  - assert (data_after (c :: cs) v v2) as [Ho Hi].
    { eapply (data_after_cons _ _ (set_joins (cc_channel c)
        (join_left channels v (cc_channel c)) v)) in Hd; done. }
    split; intros; rewrite E3; auto.
  - split; intros; rewrite ?E1, ?E2, ?C1, ?C2, Hv1; done.
  - assert (forall ch, join_left channels v1 ch =
      match view_get_continuations v channels with
      | [] => drop_join channels (v_joins v1 ch) | _ :: _ => v_joins v1 ch end) as Hjl.
    { intros ch. unfold join_left. replace (view_get_continuations v1 channels)
        with (view_get_continuations v channels); [done|].
      unfold view_get_continuations. by rewrite !Hv1. }
    split_and!.
    + intros ch [Hn Hni]%not_elem_of_cons. rewrite E4, J1 by done. rewrite Hv1. simpl.
      by rewrite fn_lookup_insert_ne.
    + intros c' [->|Hin]%elem_of_cons.
      * rewrite E4, J1 by done. rewrite Hv1. simpl. by rewrite fn_lookup_insert.
      * rewrite E4, J2 by done. rewrite Hjl. unfold join_left.
        assert (v_joins v1 (cc_channel c') = v_joins v (cc_channel c')) as ->; [|done].
        rewrite Hv1. simpl. by rewrite fn_lookup_insert_ne by by apply Hne.
    + intros ch. rewrite E5, J3, Hv1. done.
Qed.

Lemma joins_after_perm channels cs cs' v v' :
  cs ≡ₚ cs' -> joins_after channels cs v v' -> joins_after channels cs' v v'.
Proof.
  intros Hp (J1 & J2 & J3). split_and!; [|intros c Hc; apply J2; by rewrite Hp|done].
  intros ch Hch. apply J1. by rewrite Hp.
Qed.

Lemma spec_remove_matched_datum_and_join channels cs :
  spec (remove_matched_datum_and_join channels cs) (fun v x v' =>
    NoDup (cc_channel <$> cs) -> (forall c, c ∈ cs -> in_row v c) ->
    data_after cs v v' /\ conts_same v v' /\ joins_after channels cs v v').
Proof.
  eapply spec_impl.
  { eapply spec_bind; [apply spec_remove_candidates_and_joins|]. intros xs. apply spec_ret. }
  intros v x v' (xs & v1 & H1 & _ & (E1&E2&E3&E4&E5)) Hnd Hr.
  pose proof (removal_order_perm cs) as Hp.
  destruct H1 as (_ & Hd & [? ?] & Hj).
  { by rewrite Hp. }
  { intros c Hc. apply Hr. by rewrite <-Hp. }
  apply (data_after_perm _ cs) in Hd as [Ho Hi]; [|done].
  apply (joins_after_perm _ _ cs) in Hj as (J1 & J2 & J3); [|done].
  split_and!; [split|split|]; [..|split_and!]; intros;
    rewrite ?E1, ?E2, ?E3, ?E4, ?E5; auto.
Qed.

(** ** Produce *)

Lemma picks_new_in_row bat d v cp c : picks_new bat d v cp c -> in_row v c.
Proof.
  intros [Hp|(_ & mat & _ & ->)]; [by destruct (picks_in_row _ _ _ Hp)|].
  intros _. simpl. lia.
Qed.

Lemma picks_new_channels bat d v cps cands :
  Forall2 (picks_new bat d v) cps cands -> cc_channel <$> cands = cps.*1.
Proof.
  induction 1 as [|cp c cps cands Hp _ IH]; [done|]. csimpl. rewrite IH.
  destruct Hp as [(? & ? & ? & ? & ? & ->)|(Hch & ? & ? & ->)]; [done|]. by rewrite <-Hch.
Qed.

Lemma match_found_removable bat d v pc :
  NoDup (pc_channels pc) -> match_found bat d v pc ->
  NoDup (cc_channel <$> pc_data_candidates pc) /\
  forall c, c ∈ pc_data_candidates pc -> in_row v c.
Proof.
  intros Hnd (n & _ & _ & HF). split.
  - rewrite (picks_new_channels _ _ _ _ _ HF). by apply NoDup_zip_fst.
  - intros c Hc. apply list_elem_of_lookup in Hc as [i Hc].
    destruct (Forall2_lookup_r _ _ _ _ _ HF Hc) as (cp & _ & Hp).
    by eapply picks_new_in_row.
Qed.

(** The view once the matched continuation is taken, before the data are. *)
Definition continuation_taken (pc : ProduceCandidate C P A K) (v : View) : View :=
  if wc_persist (pc_continuation pc) then v
  else (view_remove_continuation (pc_channels pc) (pc_continuation_index pc) v).2.

Lemma continuation_taken_proper pc (v v' : View) :
  v ≡ v' -> continuation_taken pc v ≡ continuation_taken pc v'.
Proof.
  intros Hv. unfold continuation_taken. destruct (wc_persist _); [done|].
  by destruct (view_step_proper (OpRemoveContinuation (pc_channels pc)
    (pc_continuation_index pc)) v v v v' (reflexivity _) Hv).
Qed.

Lemma continuation_taken_data pc (v : View) ch :
  v_data (continuation_taken pc v) ch = v_data v ch.
Proof.
  unfold continuation_taken, view_remove_continuation. destruct (wc_persist _); [done|].
  by case_decide.
Qed.

(** The effect of a match on the space. *)
Definition match_processed (pc : ProduceCandidate C P A K) (v v' : View) : Prop :=
  data_after (pc_data_candidates pc) v v' /\
  conts_same (continuation_taken pc v) v' /\
  joins_after (pc_channels pc) (pc_data_candidates pc) (continuation_taken pc v) v'.

Lemma joins_after_proper channels cs (v v1 v' : View) :
  v1 ≡ v -> joins_after channels cs v1 v' -> joins_after channels cs v v'.
Proof.
  intros Hv (J1 & J2 & J3). split_and!; intros.
  - rewrite J1 by done. by rewrite Hv.
  - rewrite J2 by done. by apply join_left_proper.
  - rewrite J3. by rewrite Hv.
Qed.

Lemma spec_take_and_remove pc :
  spec (_ ← (if wc_persist (pc_continuation pc) then mret None
             else on_store (remove_continuation (pc_channels pc) (pc_continuation_index pc)));
        remove_matched_datum_and_join (pc_channels pc) (pc_data_candidates pc))
    (fun v _ v' => NoDup (cc_channel <$> pc_data_candidates pc) ->
       (forall c, c ∈ pc_data_candidates pc -> in_row v c) -> match_processed pc v v').
Proof.
  eapply spec_impl.
  { eapply (spec_bind _ _ (fun v _ v' => v' ≡ continuation_taken pc v)).
    - unfold continuation_taken. destruct (wc_persist _).
      + eapply spec_impl; [apply spec_ret|]. naive_solver.
      + eapply spec_impl; [apply (spec_on_store _ _ (law_remove_continuation _ _))|].
        naive_solver.
    - intros x. apply spec_remove_matched_datum_and_join. }
  intros v y v' (x & v1 & Hv1 & Hrem) Hnd Hrow.
  destruct Hrem as ([D1 D2] & Hc & Hj); [done| |].
  { intros c Hin Hp. rewrite Hv1, continuation_taken_data. by apply Hrow. }
  split_and!.
  - split; intros.
    + rewrite D1 by done. rewrite Hv1. apply continuation_taken_data.
    + rewrite D2 by done. rewrite Hv1. by rewrite continuation_taken_data.
  - by eapply conts_same_proper.
  - by eapply joins_after_proper.
Qed.

(** The produce counters after a produce. *)
Definition counted (pref : Produce) (persist : bool) (m : produce_counter_map) :
  produce_counter_map :=
  if persist then m
  else counter_insert m pref (wrap_i32 (default 0%Z (counter_get m pref) + 1)).

(** What a produce does: it either completes a waiting continuation, or no continuation
    waiting on a join of the channel matches and the datum is stored. *)
Definition produce_outcome (channel : C) (a : A) (persist : bool) (r : space)
    (out : res RSpaceError (MaybeProduceResult (C:=C) (P:=P) (A:=A) (K:=K))) (r' : space) :
  Prop :=
  let pref := Produce_create cd channel a persist in
  let d := mkDatum a persist pref in
  (exists pc,
    pc_channels pc ∈ view_get_joins (V r) channel /\ match_found channel d (V r) pc /\
    out = Ok ((fun cr => (cr.1, cr.2, pref)) <$>
      wrap_result (pc_channels pc) (pc_continuation pc) (pc_data_candidates pc)) /\
    event_log r' =
      Comm (COMM_new (pc_data_candidates pc) (wc_source (pc_continuation pc))
              (wc_peeks (pc_continuation pc))
              (produce_counters (counted pref persist (produce_counter r))))
        :: IoEvent (IOProduce pref) :: event_log r /\
    match_processed pc (V r) (V r')) \/
  ((forall chs, chs ∈ view_get_joins (V r) channel -> no_match channel d (V r) chs) /\
   out = Ok None /\
   event_log r' = IoEvent (IOProduce pref) :: event_log r /\
   V r' ≡ view_put_datum channel d (V r)).

Lemma match_processed_proper pc (v v1 v' : View) :
  v1 ≡ v -> match_processed pc v1 v' -> match_processed pc v v'.
Proof.
  intros Hv (Hd & Hc & Hj). pose proof (continuation_taken_proper pc _ _ Hv).
  split_and!; [by eapply data_after_proper|by eapply conts_same_proper|
    by eapply joins_after_proper].
Qed.

Lemma log_produce_spec pref persist (r : space) :
  log_produce pref persist r =
  (tt, set_counter (counted pref persist (produce_counter r))
         (set_log (IoEvent (IOProduce pref) :: event_log r) r)).
Proof. unfold counted. by destruct persist. Qed.

Lemma produce_spec channel a persist r :
  good r -> (forall chs, chs ∈ view_get_joins (V r) channel -> NoDup chs) ->
  let out := produce cd get channel a persist r in
  kept r out.2 /\
  produce_counter out.2 =
    counted (Produce_create cd channel a persist) persist (produce_counter r) /\
  produce_outcome channel a persist r out.1 out.2.
Proof.
  intros Hr Hnd. unfold produce, locked_produce, produce_outcome.
  set (pref := Produce_create cd channel a persist). set (d := mkDatum a persist pref).
  unfold mbind, st_bind.
  destruct (spec_on_store _ _ (law_get_joins channel) r Hr) as [S1 [_ Hv1]].
  destruct (on_store (get_joins channel) r) as [j0 r1]. simpl in *.
  destruct (spec_on_store _ _ (law_get_joins channel) r1 (step_good _ _ S1)) as [S2 [Hj2 Hv2]].
  destruct (on_store (get_joins channel) r1) as [js r2]. simpl in *.
  pose proof (store_step_trans _ _ _ S1 S2) as [Hg2 [Hrp2 Hin2 Hlg2 Hct2] Hb2].
  assert (V r2 ≡ V r) as Hv12 by (by etrans).
  assert (js = view_get_joins (V r) channel) as ->.
  { rewrite Hj2. unfold view_get_joins. by rewrite !Hv1. }
  rewrite log_produce_spec. set (r4 := set_counter _ _).
  assert (good r4) as Hg4 by done.
  assert (event_log r4 = IoEvent (IOProduce pref) :: event_log r2) as Hlg4 by done.
  assert (produce_counter r4 = counted pref persist (produce_counter r2)) as Hct4 by done.
  assert (store r4 = store r2) as Hst4 by done.
  assert (installs r4 = installs r2) as Hin4 by done.
  assert (history_repository r4 = history_repository r2) as Hrp4 by done.
  clearbody r4.
  assert (V r4 ≡ V r) as Hv4 by (unfold V in *; by rewrite Hst4).
  unfold extract_produce_candidate.
  destruct (spec_run_matcher channel d (view_get_joins (V r) channel) r4 Hg4)
    as [[Hg5 [Hrp5 Hin5 Hlg5 Hct5] Hb5] [Hv5 Hm]]. specialize (Hm Hnd).
  destruct (run_matcher_for_channels get channel d _ r4) as [[pc|] r5]; simpl in *.
  - destruct Hm as [Hpc Hmf]. apply (match_found_proper _ _ _ (V r)) in Hmf; [|done].
    destruct (match_found_removable _ _ _ _ (Hnd _ Hpc) Hmf) as [Hndc Hrow].
    unfold process_match_found, gets, log_comm, log_event, modify, mbind, st_bind.
    set (r6 := set_log _ r5). assert (good r6) as Hg6 by done.
    destruct (spec_take_and_remove pc r6 Hg6) as [[Hg8 [Hrp8 Hin8 Hlg8 Hct8] Hb8] Hmp].
    unfold mbind, st_bind in Hg8, Hrp8, Hin8, Hlg8, Hct8, Hb8, Hmp.
    destruct (_ r6) as [x r7]. destruct (remove_matched_datum_and_join _ _ r7) as [y r8].
    simpl in *. assert (V r6 ≡ V r) as Hv6 by (by rewrite <-Hv4).
    split; [|split].
    + split_and!; [done|rewrite Hrp8; simpl; congruence|rewrite Hin8; simpl; congruence|].
      rewrite Hb8. simpl. by rewrite Hb5, Hst4.
    + rewrite Hct8. simpl. by rewrite Hct5, Hct4, Hct2.
    + left. exists pc. split_and!; [done..| |].
      * rewrite Hlg8. simpl. by rewrite Hlg5, Hlg4, Hlg2, Hct5, Hct4, Hct2.
      * eapply match_processed_proper; [done|]. apply Hmp; [done|].
        intros c Hc. eapply in_row_proper; [done|]. by apply Hrow.
  - unfold store_data, mbind, st_bind.
    destruct (spec_put_datum channel d r5 Hg5) as [[Hg6 [Hrp6 Hin6 Hlg6 Hct6] Hb6] Hv6].
    unfold modify in *. simpl in *. split; [|split].
    + split_and!; [done|simpl; congruence|simpl; congruence|].
      etrans; [exact Hb6|]. by rewrite Hb5, Hst4.
    + simpl. by rewrite Hct5, Hct4, Hct2.
    + right. split_and!; [|done|simpl; by rewrite Hlg5, Hlg4, Hlg2|].
      * intros chs Hchs. eapply no_match_proper; [done|]. by apply Hm.
      * etrans; [exact Hv6|]. unfold view_put_datum. by rewrite Hv5, Hv4.
Qed.

(** ** Install *)

Definition view_install_joins (channels join : list C) (v : View) : View :=
  foldl (fun v ch => (view_install_join ch join v).2) v channels.

#[local] Instance view_install_joins_proper channels join :
  Proper ((≡) ==> (≡)) (view_install_joins channels join).
Proof.
  unfold view_install_joins. induction channels as [|ch channels IH]; intros v w Hv; simpl;
    [done|].
  apply IH. by destruct (view_step_proper (OpInstallJoin ch join) v v v w (reflexivity _) Hv).
Qed.

Lemma spec_install_joins channels join :
  spec (st_mapM (fun channel => on_store (install_join channel join)) channels)
    (fun v _ v' => v' ≡ view_install_joins channels join v).
Proof.
  induction channels as [|ch channels IH]; simpl.
  { eapply spec_impl; [apply spec_ret|]. naive_solver. }
  eapply spec_impl.
  { eapply spec_bind; [apply (spec_on_store _ _ (law_install_join _ _))|]. intros x.
    eapply spec_bind; [apply IH|]. intros xs. apply spec_ret. }
  intros v ? v3 (x & v1 & [_ H1] & xs & v2 & H2 & _ & H3).
  rewrite H3, H2. unfold view_install_joins at 2. simpl. by apply view_install_joins_proper.
Qed.

Definition view_install (channels : list C) (w : wc) (v : View) : View :=
  view_install_joins channels channels (view_install_continuation channels w v).2.

Lemma view_install_proper channels w (v v' : View) :
  v ≡ v' -> view_install channels w v ≡ view_install channels w v'.
Proof.
  intros Hv. unfold view_install. f_equiv.
  by destruct (view_step_proper (OpInstallContinuation channels w) v v v v' (reflexivity _) Hv).
Qed.

(** The continuation an install registers. *)
Definition installed_wc (channels : list C) (patterns : list P) (k : K) : wc :=
  mkWC patterns k true ∅ (Consume_create cd channels patterns k true).

(** What an install does: it fails if the data of the channels already match, and
    registers the continuation otherwise. *)
Definition install_outcome (channels : list C) (patterns : list P) (k : K) (r : space)
    (out : res RSpaceError (option (K * list A))) (r' : space) : Prop :=
  ((exists cands, Forall2 (picks (V r)) (zip channels patterns) cands) /\
   out = Err (BugFoundError "RUST ERROR: Installing can be done only on startup") /\
   installs r' = installs r /\ V r' ≡ V r) \/
  ((exists cp, cp ∈ zip channels patterns /\ unmatched (V r) cp) /\
   out = Ok None /\
   installs r' = <[channels := mkInstall patterns k]> (installs r) /\
   V r' ≡ view_install channels (installed_wc channels patterns k) (V r)).

Lemma install_spec channels patterns k r :
  good r -> length channels = length patterns -> NoDup channels ->
  let out := locked_install_internal cd get channels patterns k true r in
  (good out.2 /\ history_repository out.2 = history_repository r /\
   event_log out.2 = event_log r /\ produce_counter out.2 = produce_counter r /\
   base (store out.2) ≡ base (store r)) /\
  install_outcome channels patterns k r out.1 out.2.
Proof.
  intros Hr Hlen Hnd. unfold locked_install_internal. rewrite decide_False by lia.
  unfold mbind, st_bind.
  destruct (spec_fetch channels r Hr) as [[Hg1 [Hrp1 Hin1 Hlg1 Hct1] Hb1] [Hv1 Hf]].
  destruct (fetch_channel_to_index_data channels r) as [m r1]. simpl in *.
  pose proof (options_cases channels patterns (V r) m Hnd Hf) as Hopt.
  destruct (collect_option _) as [cands|]; simpl.
  { split; [done|]. left. split_and!; [by exists cands|done|done|done]. }
  unfold modify. set (r2 := set_installs _ r1). assert (good r2) as Hg2 by done.
  destruct (spec_on_store _ _ (law_install_continuation channels
    (installed_wc channels patterns k)) r2 Hg2) as [S3 [_ Hv3]].
  destruct (on_store (install_continuation channels _) r2) as [x r3]. simpl in *.
  destruct (spec_install_joins channels channels r3 (step_good _ _ S3)) as [S4 Hv4].
  destruct (st_mapM _ channels r3) as [y r4]. simpl in *.
  pose proof (store_step_trans _ _ _ S3 S4) as [Hg4 [Hrp4 Hin4 Hlg4 Hct4] Hb4].
  split.
  - split_and!; [done|by rewrite Hrp4|by rewrite Hlg4|by rewrite Hct4|].
    rewrite Hb4. exact Hb1.
  - right. split_and!; [done|done| |].
    + rewrite Hin4. simpl. by rewrite Hin1.
    + rewrite Hv4. unfold view_install. rewrite Hv3.
      change (V r2) with (V r1). by apply view_install_proper.
Qed.
End spec.
