(* ===== verification/RSpaceInv.v ===== *)
(** * The tuple space stays quiescent

    The invariant of the tuple space: no continuation waits that the stored data could
    run, and every waiting continuation is registered as a join on each of its channels
    (which is how a later produce finds it).  Every operation on distinct channels keeps
    it; [rspace_quiescent] states it for all reachable spaces.

    The invariant speaks of the channels and channel vectors that are in use: a history
    keeps rows under hashes, so that it can tell apart only finitely many of them, and
    under a hash of the channel vector that does not depend on its order. *)
From S2P Require Import Prelude Events HotStoreSig HotStore SpaceMatcher RSpace RSpaceSpec.

Section inv.
Context {C P A K : Type} `{Countable C} `{!Debug P, !Debug K}.
Context (get : P -> A -> option A).
(** The channels and the channel vectors in use. *)
Context (ch_in : C -> Prop) (chs_in : list C -> Prop).

Abbreviation View := (View C P A K).
Abbreviation wc := (WaitingContinuation P K).
Abbreviation candidate := (ConsumeCandidate C A).
Abbreviation unmatched := (unmatched get).

(** Waiting continuations have one pattern per channel, on distinct channels. *)
Definition continuations_wf (v : View) : Prop :=
  forall chs w, chs_in chs -> w ∈ view_get_continuations v chs ->
    NoDup chs /\ length chs = length (wc_patterns w).
(** Waiting continuations are found through the joins of each of their channels. *)
Definition joins_complete (v : View) : Prop :=
  forall chs ch, chs_in chs -> v_conts v chs <> [] -> ch ∈ chs -> chs ∈ v_joins v ch.
Definition installed_joins_complete (v : View) : Prop :=
  forall chs w ch, v_installed v chs = Some w -> ch ∈ chs -> chs ∈ v_installed_joins v ch.
Definition joins_wf (v : View) : Prop :=
  forall ch chs, ch_in ch -> chs ∈ view_get_joins v ch -> chs_in chs /\ NoDup chs.
(** Installed continuations are persistent, so a match never tries to remove one. *)
Definition installed_persistent (v : View) : Prop :=
  forall chs w, v_installed v chs = Some w -> wc_persist w = true.
(** No waiting continuation has a matching datum on every channel. *)
Definition quiescent (v : View) : Prop :=
  forall chs w, chs_in chs -> w ∈ view_get_continuations v chs ->
    exists cp, cp ∈ zip chs (wc_patterns w) /\ unmatched v cp.

Record Inv (v : View) : Prop := {
  inv_wf : continuations_wf v;
  inv_joins : joins_complete v;
  inv_installed_joins : installed_joins_complete v;
  inv_joins_wf : joins_wf v;
  inv_installed : installed_persistent v;
  inv_quiescent : quiescent v;
}.

#[global] Instance Inv_proper : Proper ((≡) ==> iff) Inv.
Proof.
  assert (forall v w, v ≡ w -> Inv v -> Inv w) as Himp.
  { intros v w (E1 & E2 & E3 & E4 & E5) [I1 I2 I3 I4 I5 I6].
    unfold continuations_wf, joins_complete, installed_joins_complete, joins_wf,
      installed_persistent, quiescent, view_get_continuations, view_get_joins,
      RSpaceSpec.unmatched in *.
    split; unfold continuations_wf, joins_complete, installed_joins_complete, joins_wf,
      installed_persistent, quiescent, view_get_continuations, view_get_joins,
      RSpaceSpec.unmatched; intros *; rewrite <-?E1, <-?E2, <-?E4, <-?E5; eauto.
    intros Hi Hw. destruct (I6 _ _ Hi Hw) as (cp & Hcp & Hu). exists cp. split; [done|].
    intros d. rewrite <-E3. apply Hu. }
  intros v w Hv. split; apply Himp; [done|by symmetry].
Qed.

Lemma cp_channel (cp : C * P) chs ps : cp ∈ zip chs ps -> cp.1 ∈ chs.
Proof. destruct cp as [ch p]. intros. by eapply elem_of_zip_l. Qed.

(** ** Taking data away keeps it *)

Lemma remaining_subseteq (c : candidate) l : remaining c l ⊆ l.
Proof. unfold remaining. destruct (_ && _); [|done]. apply delete_subseteq. Qed.

Lemma data_after_subseteq cs (v v' : View) ch :
  data_after cs v v' -> v_data v' ch ⊆ v_data v ch.
Proof.
  intros [Ho Hi]. destruct (decide (ch ∈ cc_channel <$> cs)) as [Hin|Hn].
  - apply list_elem_of_fmap in Hin as (c & -> & Hc). rewrite (Hi c Hc).
    apply remaining_subseteq.
  - by rewrite Ho.
Qed.

Lemma unmatched_mono (v v' : View) cp :
  v_data v' cp.1 ⊆ v_data v cp.1 -> unmatched v cp -> unmatched v' cp.
Proof. intros Hsub Hu d Hd. by apply Hu, Hsub. Qed.

Lemma Inv_data_removed cs (v v' : View) :
  data_after cs v v' -> conts_same v v' -> joins_same v v' -> Inv v -> Inv v'.
Proof.
  intros Hd [C1 C2] [J1 J2] [I1 I2 I3 I4 I5 I6].
  assert (forall chs, view_get_continuations v' chs = view_get_continuations v chs) as HC.
  { intros chs. unfold view_get_continuations. by rewrite C1, C2. }
  split.
  - intros chs w. rewrite HC. apply I1.
  - intros chs ch. rewrite C1, J1. apply I2.
  - intros chs w ch. rewrite C2, J2. apply I3.
  - intros ch chs. unfold view_get_joins. rewrite J1, J2. apply I4.
  - intros chs w. rewrite C2. apply I5.
  - intros chs w Hin. rewrite HC. intros Hw. destruct (I6 _ _ Hin Hw) as (cp & Hcp & Hu).
    exists cp. split; [done|]. eapply unmatched_mono; [|done]. by eapply data_after_subseteq.
Qed.

(** ** Storing a continuation that does not match keeps it *)

Lemma elem_of_add_join (join j : list C) js : j ∈ add_join join js <-> j = join \/ j ∈ js.
Proof. clear ch_in chs_in. unfold add_join. case_decide; set_solver. Qed.

Lemma add_join_idem (join : list C) js : add_join join (add_join join js) = add_join join js.
Proof.
  unfold add_join at 1. rewrite decide_True; [done|]. apply elem_of_add_join. by left.
Qed.

Lemma view_put_joins_spec channels join (v : View) :
  (forall ch, v_joins (view_put_joins channels join v) ch =
    if decide (ch ∈ channels) then add_join join (v_joins v ch) else v_joins v ch) /\
  (forall chs, v_conts (view_put_joins channels join v) chs = v_conts v chs) /\
  (forall chs, v_installed (view_put_joins channels join v) chs = v_installed v chs) /\
  (forall ch, v_data (view_put_joins channels join v) ch = v_data v ch) /\
  (forall ch, v_installed_joins (view_put_joins channels join v) ch = v_installed_joins v ch).
Proof.
  unfold view_put_joins. revert v. induction channels as [|c channels IH]; intros v; simpl.
  { done. }
  destruct (IH (view_put_join c join v).2) as (J & K1 & K2 & K3 & K4).
  split_and!; intros; rewrite ?J, ?K1, ?K2, ?K3, ?K4; try done. simpl.
  rewrite fn_lookup_insert_decide.
  clear. destruct (decide (ch ∈ c :: channels)) as [Hin|Hn];
    destruct (decide (c = ch)) as [->|Hne]; destruct (decide (ch ∈ channels)); try done.
  - by rewrite add_join_idem.
  - by apply elem_of_cons in Hin as [?|?].
  - destruct Hn. by left.
  - destruct Hn. by left.
  - destruct Hn. by right.
Qed.

Lemma view_put_continuation_conts chs (w : wc) (v : View) :
  exists l, (forall chs', v_conts (view_put_continuation chs w v).2 chs' =
      if decide (chs' = chs) then l else v_conts v chs') /\
    (l = v_conts v chs \/ l = w :: v_conts v chs) /\ l <> [].
Proof.
  unfold view_put_continuation. case_decide as Hid; simpl.
  - exists (v_conts v chs). split_and!; [|by left|].
    + intros chs'. case_decide; congruence.
    + intros Hnil. rewrite Hnil in Hid. by apply elem_of_nil in Hid.
  - exists (w :: v_conts v chs). split_and!; [|by right|done].
    intros chs'. rewrite fn_lookup_insert_decide. repeat case_decide; congruence.
Qed.

Lemma Inv_store_continuation channels (w : wc) (v : View) :
  chs_in channels -> NoDup channels -> length channels = length (wc_patterns w) ->
  (exists cp, cp ∈ zip channels (wc_patterns w) /\ unmatched v cp) ->
  Inv v -> Inv (view_store_continuation channels w v).
Proof.
  intros Hdom Hnd Hlen Hun [I1 I2 I3 I4 I5 I6]. unfold view_store_continuation.
  destruct (view_put_continuation_conts channels w v) as (l & Hl & Hlw & Hlne).
  set (v1 := (view_put_continuation channels w v).2) in *.
  assert (v_installed v1 = v_installed v /\ v_data v1 = v_data v /\ v_joins v1 = v_joins v /\
    v_installed_joins v1 = v_installed_joins v) as (E1 & E2 & E3 & E4).
  { subst v1. unfold view_put_continuation. by case_decide. }
  destruct (view_put_joins_spec channels channels v1) as (J & K1 & K2 & K3 & K4).
  rewrite E1 in K2. rewrite E2 in K3. rewrite E3 in J. rewrite E4 in K4.
  set (v2 := view_put_joins channels channels v1) in *. clearbody v2. clearbody v1.
  assert (forall chs w', w' ∈ view_get_continuations v2 chs ->
    w' ∈ view_get_continuations v chs \/ (chs = channels /\ w' = w)) as Hold.
  { intros chs w'. unfold view_get_continuations. rewrite K1, K2, Hl, !elem_of_app.
    case_decide; [|naive_solver]. subst chs. destruct Hlw as [->| ->]; [naive_solver|].
    rewrite elem_of_cons. naive_solver. }
  split.
  - intros chs w' Hi [Hw|[-> ->]]%Hold; [by apply I1|done].
  - intros chs ch Hi Hc Hch. rewrite K1, Hl in Hc. rewrite J.
    destruct (decide (chs = channels)) as [->|Hne].
    + rewrite decide_True by done. apply elem_of_add_join. by left.
    + specialize (I2 _ _ Hi Hc Hch). case_decide; [|done]. apply elem_of_add_join. by right.
  - intros chs w' ch. rewrite K2, K4. apply I3.
  - intros ch chs Hi. unfold view_get_joins. rewrite K4, J.
    rewrite elem_of_app. intros Hin. assert (chs = channels \/
      chs ∈ v_installed_joins v ch \/ chs ∈ v_joins v ch) as [->|Hin'].
    { destruct Hin as [|Hin]; [auto|]. case_decide; [|auto].
      apply elem_of_add_join in Hin. naive_solver. }
    { done. }
    apply (I4 ch); [done|]. by apply elem_of_app.
  - intros chs w'. rewrite K2. apply I5.
  - assert (forall cp, unmatched v cp -> unmatched v2 cp) as Hmono.
    { intros cp Hu. eapply unmatched_mono; [|done]. by rewrite K3. }
    intros chs w' Hi [Hw|[-> ->]]%Hold; [destruct (I6 _ _ Hi Hw) as (cp & ? & ?)|
      destruct Hun as (cp & ? & ?)]; exists cp; auto.
Qed.

(** ** Storing a datum that completes nothing keeps it *)

Lemma Inv_put_datum bat (d : Datum A) (v : View) :
  (forall chs, chs ∈ view_get_joins v bat -> no_match get bat d v chs) ->
  Inv v -> Inv (view_put_datum bat d v).
Proof.
  intros Hno [I1 I2 I3 I4 I5 I6]. split; try done.
  intros chs w Hdom Hw. change (w ∈ view_get_continuations v chs) in Hw.
  destruct (decide (bat ∈ chs)) as [Hin|Hn].
  - apply (Hno chs); [|done]. unfold view_get_joins. apply elem_of_app.
    unfold view_get_continuations in Hw. apply elem_of_app in Hw as [Hw|Hw].
    + left. destruct (v_installed v chs) as [w'|] eqn:Hi; [|by apply elem_of_nil in Hw].
      by eapply I3.
    + right. apply I2; [done| |done]. intros Hnil. rewrite Hnil in Hw. by apply elem_of_nil in Hw.
  - destruct (I6 _ _ Hdom Hw) as (cp & Hcp & Hu). exists cp. split; [done|].
    eapply unmatched_mono; [|done]. simpl. rewrite fn_lookup_insert_ne; [done|].
    intros ->. apply Hn. by eapply cp_channel.
Qed.

(** ** Processing a match keeps it *)

Lemma drop_join_subseteq (join : list C) js : drop_join join js ⊆ js.
Proof.
  induction js as [|j js IH]; simpl; [done|]. case_decide; [by apply list_subseteq_cons|].
  by apply list_subseteq_skip.
Qed.

Lemma elem_of_drop_join (join j : list C) js : j ∈ js -> j <> join -> j ∈ drop_join join js.
Proof.
  induction 1 as [|j j' js Hj IH]; intros Hne; simpl.
  - rewrite decide_False by done. by left.
  - case_decide; [done|]. right. auto.
Qed.

Lemma continuation_taken_spec (pc : ProduceCandidate C P A K) (v : View) :
  (forall chs, v_conts (continuation_taken pc v) chs ⊆ v_conts v chs) /\
  v_installed (continuation_taken pc v) = v_installed v /\
  v_data (continuation_taken pc v) = v_data v /\
  v_joins (continuation_taken pc v) = v_joins v /\
  v_installed_joins (continuation_taken pc v) = v_installed_joins v.
Proof.
  unfold continuation_taken, view_remove_continuation. destruct (wc_persist _); [done|].
  case_decide; [|done]. simpl. split_and!; try done. intros chs.
  rewrite fn_lookup_insert_decide. case_decide; [|done]. subst. apply delete_subseteq.
Qed.

Lemma nonempty_subseteq {X} (l k : list X) : l ⊆ k -> l <> [] -> k <> [].
Proof.
  intros Hs Hl ->. destruct l as [|x l]; [done|].
  assert (x ∈ []) as Hx by (apply Hs; by left). by apply elem_of_nil in Hx.
Qed.

Lemma Inv_match_processed (pc : ProduceCandidate C P A K) (v v' : View) :
  match_processed pc v v' -> Inv v -> Inv v'.
Proof.
  intros (Hd & [C1 C2] & (J1 & J2 & J3)) [I1 I2 I3 I4 I5 I6].
  destruct (continuation_taken_spec pc v) as (T1 & T2 & T3 & T4 & T5).
  set (vt := continuation_taken pc v) in *. clearbody vt.
  assert (forall chs w, w ∈ view_get_continuations v' chs -> w ∈ view_get_continuations v chs)
    as Hsub.
  { intros chs w. unfold view_get_continuations. rewrite C1, C2, T2, !elem_of_app.
    intros [?|Hw]; [by left|right]. by apply T1. }
  assert (forall ch, v_joins v' ch = v_joins v ch \/ v_joins v' ch = join_left (pc_channels pc) vt ch)
    as Hj.
  { intros ch. destruct (decide (ch ∈ cc_channel <$> pc_data_candidates pc)) as [Hin|Hn].
    - apply list_elem_of_fmap in Hin as (c & -> & Hc). right. by apply J2.
    - left. rewrite J1 by done. by rewrite T4. }
  split.
  - intros chs w Hi Hw%Hsub. by apply I1.
  - intros chs ch Hi Hc Hch. rewrite C1 in Hc.
    assert (chs ∈ v_joins v ch) as Hin
      by (apply I2; [done|exact (nonempty_subseteq _ _ (T1 chs) Hc)|done]).
    destruct (Hj ch) as [->| ->]; [done|]. unfold join_left. rewrite T4.
    destruct (view_get_continuations vt (pc_channels pc)) eqn:Hk; [|done].
    apply elem_of_drop_join; [done|]. intros ->. unfold view_get_continuations in Hk.
    by apply app_eq_nil in Hk as [_ ?].
  - intros chs w ch. rewrite C2, J3, T2, T5. apply I3.
  - intros ch chs Hi. unfold view_get_joins. rewrite J3, T5, elem_of_app. intros Hin.
    apply (I4 ch); [done|]. apply elem_of_app. destruct Hin as [Hin|Hin]; [by left|right].
    destruct (Hj ch) as [E|E]; rewrite E in Hin; [done|]. unfold join_left in Hin.
    rewrite T4 in Hin. destruct (view_get_continuations vt _); [|done].
    by apply drop_join_subseteq in Hin.
  - intros chs w. rewrite C2, T2. apply I5.
  - intros chs w Hi Hw%Hsub. destruct (I6 _ _ Hi Hw) as (cp & Hcp & Hu). exists cp.
    split; [done|]. eapply unmatched_mono; [|done]. by eapply data_after_subseteq.
Qed.

(** ** Installing a continuation that does not match keeps it *)

Lemma view_install_joins_spec channels join (v : View) :
  (forall ch, v_installed_joins (view_install_joins channels join v) ch =
    if decide (ch ∈ channels) then add_join join (v_installed_joins v ch)
    else v_installed_joins v ch) /\
  v_conts (view_install_joins channels join v) = v_conts v /\
  v_installed (view_install_joins channels join v) = v_installed v /\
  v_data (view_install_joins channels join v) = v_data v /\
  v_joins (view_install_joins channels join v) = v_joins v.
Proof.
  unfold view_install_joins. revert v. induction channels as [|c channels IH]; intros v; simpl.
  { done. }
  destruct (IH (view_install_join c join v).2) as (J & K1 & K2 & K3 & K4).
  split_and!; intros; rewrite ?J, ?K1, ?K2, ?K3, ?K4; try done. simpl.
  rewrite fn_lookup_insert_decide.
  clear. destruct (decide (ch ∈ c :: channels)) as [Hin|Hn];
    destruct (decide (c = ch)) as [->|Hne]; destruct (decide (ch ∈ channels)); try done.
  - by rewrite add_join_idem.
  - by apply elem_of_cons in Hin as [?|?].
  - destruct Hn. by left.
  - destruct Hn. by left.
  - destruct Hn. by right.
Qed.

Lemma Inv_install channels (w : wc) (v : View) :
  chs_in channels -> NoDup channels -> length channels = length (wc_patterns w) -> wc_persist w = true ->
  (exists cp, cp ∈ zip channels (wc_patterns w) /\ unmatched v cp) ->
  Inv v -> Inv (view_install channels w v).
Proof.
  intros Hdom Hnd Hlen Hpers Hun [I1 I2 I3 I4 I5 I6]. unfold view_install.
  destruct (view_install_joins_spec channels channels (view_install_continuation channels w v).2)
    as (J & K1 & K2 & K3 & K4). simpl in *.
  set (v2 := view_install_joins _ _ _) in *. clearbody v2.
  assert (forall chs w', v_installed v2 chs = Some w' ->
    v_installed v chs = Some w' \/ (chs = channels /\ w' = w)) as Hinst.
  { intros chs w'. rewrite K2, fn_lookup_insert_decide. case_decide; naive_solver. }
  assert (forall chs w', w' ∈ view_get_continuations v2 chs ->
    w' ∈ view_get_continuations v chs \/ (chs = channels /\ w' = w)) as Hold.
  { intros chs w'. unfold view_get_continuations. rewrite K1, !elem_of_app.
    intros [Hw|?]; [|naive_solver].
    destruct (v_installed v2 chs) as [w1|] eqn:Hi; [|by apply elem_of_nil in Hw].
    apply list_elem_of_singleton in Hw as ->. apply Hinst in Hi as [->|?]; [|naive_solver].
    left. left. by left. }
  split.
  - intros chs w' Hi [Hw|[-> ->]]%Hold; [by apply I1|done].
  - intros chs ch. rewrite K1, K4. apply I2.
  - intros chs w' ch Hi Hch. rewrite J. apply Hinst in Hi as [Hi|[-> ->]].
    + specialize (I3 _ _ _ Hi Hch). case_decide; [|done]. apply elem_of_add_join. by right.
    + rewrite decide_True by done. apply elem_of_add_join. by left.
  - intros ch chs Hi. unfold view_get_joins. rewrite K4, J, elem_of_app. intros Hin.
    assert (chs = channels \/ chs ∈ v_installed_joins v ch \/ chs ∈ v_joins v ch) as [->|Hin'].
    { destruct Hin as [Hin|]; [|auto]. case_decide; [|auto].
      apply elem_of_add_join in Hin. naive_solver. }
    { done. }
    apply (I4 ch); [done|]. by apply elem_of_app.
  - intros chs w' [Hi|[-> ->]]%Hinst; [by eapply I5|done].
  - assert (forall cp, unmatched v cp -> unmatched v2 cp) as Hmono.
    { intros cp Hu. eapply unmatched_mono; [|done]. by rewrite K3. }
    intros chs w' Hi [Hw|[-> ->]]%Hold; [destruct (I6 _ _ Hi Hw) as (cp & ? & ?)|
      destruct Hun as (cp & ? & ?)]; exists cp; auto.
Qed.
End inv.

(** ** Reachable spaces *)
Section reachable.
Context {C P A K H S G : Type} `{Countable C} `{!HotStore C P A K S}.
Context `{!HistoryRepository C P A K H, !HotStoreFactory C P A K S, !Oracle G}.
Context `{!Debug P, !Debug K, !HotStoreLaws C P A K S}.
Context (cd : Codecs C P A K) (get : P -> A -> option A).
Context (ch_in : C -> Prop) (chs_in : list C -> Prop).

Abbreviation space := (RSpace C P K H S G).
Abbreviation Inv := (Inv get ch_in chs_in).

(** The operations a client may call, on distinct channels with one pattern each. *)
Inductive space_step (r : space) : space -> Prop :=
| step_consume channels patterns k persist peeks :
    chs_in channels -> channels <> [] -> length channels = length patterns ->
    NoDup channels ->
    space_step r (consume cd get channels patterns k persist peeks r).2
| step_produce channel a persist :
    ch_in channel ->
    space_step r (produce cd get channel a persist r).2
| step_install channels patterns k :
    chs_in channels -> length channels = length patterns -> NoDup channels ->
    space_step r (install cd get channels patterns k r).2
| step_create_soft_checkpoint : space_step r (create_soft_checkpoint r).2
| step_take_event_log : space_step r (take_event_log r).2
| step_update_produce p : space_step r (update_produce p r).2.

(** The registered installs are the installed continuations. *)
Definition installs_ok (r : space) : Prop :=
  forall chs, v_installed (V r) chs =
    (fun i => installed_wc cd chs (in_patterns i) (in_continuation i)) <$> installs r !! chs.

Record space_inv (r : space) : Prop := {
  si_good : good r;
  si_inv : Inv (V r);
  si_installs : installs_ok r;
  si_installs_in : forall chs i, installs r !! chs = Some i -> chs_in chs;
}.

Lemma installs_ok_same (r r' : space) :
  installs r' = installs r -> (forall chs, v_installed (V r') chs = v_installed (V r) chs) ->
  installs_ok r -> installs_ok r'.
Proof. intros Hi Hv Hok chs. by rewrite Hi, Hv. Qed.

Lemma consume_keeps channels patterns k persist peeks r :
  chs_in channels -> channels <> [] -> length channels = length patterns -> NoDup channels ->
  space_inv r -> space_inv (consume cd get channels patterns k persist peeks r).2.
Proof.
  intros Hdom Hne Hlen Hnd [Hg Hinv Hok Hiin].
  destruct (consume_spec cd get channels patterns k persist peeks r Hg Hne Hlen Hnd)
    as ((Hg' & _ & Hin & _) & _ & [(cands & _ & _ & _ & Hd & Hc & Hj)|
        (cp & Hcp & Hu & _ & _ & Hv)]).
  - split; [done|by eapply Inv_data_removed| |by rewrite Hin].
    eapply installs_ok_same; [done| |done]. apply Hc.
  - split; [done| | |by rewrite Hin].
    + rewrite Hv. apply Inv_store_continuation; eauto.
    + eapply installs_ok_same; [done| |done]. intros chs. rewrite Hv.
      unfold view_store_continuation.
      destruct (view_put_joins_spec channels channels
        (view_put_continuation channels (mkWC patterns k persist peeks
          (Consume_create cd channels patterns k persist)) (V r)).2) as (_ & _ & -> & _).
      unfold view_put_continuation. by case_decide.
Qed.

Lemma produce_keeps channel a persist r :
  ch_in channel -> space_inv r -> space_inv (produce cd get channel a persist r).2.
Proof.
  intros Hdom [Hg Hinv Hok Hiin].
  destruct (produce_spec cd get channel a persist r Hg) as ((Hg' & _ & Hin & _) & _ &
    [(pc & _ & _ & _ & _ & Hmp)|(Hno & _ & _ & Hv)]).
  - intros chs Hchs. by apply (inv_joins_wf _ _ _ _ Hinv channel).
  - split; [done|by eapply Inv_match_processed| |by rewrite Hin].
    eapply installs_ok_same; [done| |done].
    intros chs. destruct Hmp as (_ & [_ C2] & _). rewrite C2.
    by destruct (continuation_taken_spec pc (V r)) as (_ & -> & _).
  - split; [done| | |by rewrite Hin].
    + rewrite Hv. by apply Inv_put_datum.
    + eapply installs_ok_same; [done| |done]. intros chs. by rewrite Hv.
Qed.

Lemma view_install_installed chs0 (w : WaitingContinuation P K) (v : View C P A K) chs :
  v_installed (view_install chs0 w v) chs =
  if decide (chs0 = chs) then Some w else v_installed v chs.
Proof.
  unfold view_install.
  destruct (view_install_joins_spec chs0 chs0 (view_install_continuation chs0 w v).2)
    as (_ & _ & -> & _). done.
Qed.

Lemma install_keeps channels patterns k r :
  chs_in channels -> length channels = length patterns -> NoDup channels ->
  space_inv r -> space_inv (install cd get channels patterns k r).2.
Proof.
  intros Hdom Hlen Hnd [Hg Hinv Hok Hiin]. unfold install.
  destruct (install_spec cd get channels patterns k r Hg Hlen Hnd)
    as ((Hg' & _) & [(_ & _ & Hin & Hv)|(Hun & _ & Hin & Hv)]).
  - split; [done|by rewrite Hv| |by rewrite Hin]. eapply installs_ok_same; [done| |done].
    intros chs. by rewrite Hv.
  - split; [done| | |].
    + rewrite Hv. by apply Inv_install.
    + intros chs. rewrite Hv, Hin, view_install_installed, lookup_insert.
      case_decide; [by subst|]. apply Hok.
    + intros chs i. rewrite Hin, lookup_insert_Some. intros [[<- _]|[_ Hi]]; [done|].
      by eapply Hiin.
Qed.

(** The installed continuations are determined by the registered ones. *)
Lemma installs_ok_installed r r' chs :
  space_inv r -> space_inv r' -> installs r' = installs r ->
  v_installed (V r') chs = v_installed (V r) chs.
Proof. intros [_ _ Hok _] [_ _ Hok' _] Heq. by rewrite Hok, Hok', Heq. Qed.

Lemma space_step_keeps r r' : space_step r r' -> space_inv r -> space_inv r'.
Proof.
  destruct 1; eauto using consume_keeps, produce_keeps, install_keeps.
  - by intros [].
  - by intros [].
  - by intros [].
Qed.

Lemma reachable_inv r0 r : rtc space_step r0 r -> space_inv r0 -> space_inv r.
Proof. induction 1; eauto using space_step_keeps. Qed.

Lemma history_view_inv (h : HistoryReaderBase C P A K) :
  (forall ch, get_data_proj h ch = []) -> (forall chs, get_continuations_proj h chs = []) ->
  (forall ch, get_joins_proj h ch = []) -> Inv (history_view h).
Proof.
  intros Hd Hk Hj.
  assert (forall chs, view_get_continuations (history_view h) chs = []) as Hnil.
  { intros chs. unfold view_get_continuations. simpl. by rewrite Hk. }
  split.
  - intros chs w _. rewrite Hnil. by intros ?%elem_of_nil.
  - intros chs ch _. simpl. by rewrite Hk.
  - intros chs w ch. done.
  - intros ch chs _. unfold view_get_joins. simpl. rewrite Hj. by intros ?%elem_of_nil.
  - done.
  - intros chs w _. rewrite Hnil. by intros ?%elem_of_nil.
Qed.
End reachable.
