(* ===== verification/RSpaceCheckpoint.v ===== *)
(** * Checkpoints of the tuple space

    [create_checkpoint] writes the hot state to history, replaces the hot store and
    installs the registered continuations again; soft checkpoints save and restore the
    hot state.  The history repository is used through its interface: the reader of a
    repository after a checkpoint shows the checkpointed actions applied to the reader
    before, up to the order within a row, since a row is sorted when it is written. *)
From S2P Require Import Prelude Events HotStoreSig SpaceMatcher RSpace RSpaceSpec RSpaceInv.

(** The rows of data, waiting continuations and joins of the channels and channel vectors
    in use agree up to their order. *)
Definition stored_same {C P A K} (ch_in : C -> Prop) (chs_in : list C -> Prop)
    (v v' : View C P A K) : Prop :=
  (forall ch, ch_in ch -> v_data v' ch ≡ₚ v_data v ch) /\
  (forall chs, chs_in chs -> v_conts v' chs ≡ₚ v_conts v chs) /\
  (forall ch, ch_in ch -> v_joins v' ch ≡ₚ v_joins v ch).

Section stored_same.
Context {C P A K : Type} (ch_in : C -> Prop) (chs_in : list C -> Prop).
Implicit Types v : View C P A K.

Lemma stored_same_trans v1 v2 v3 :
  stored_same ch_in chs_in v1 v2 -> stored_same ch_in chs_in v2 v3 ->
  stored_same ch_in chs_in v1 v3.
Proof.
  intros (D1 & C1 & J1) (D2 & C2 & J2).
  split_and!; intros; [rewrite D2|rewrite C2|rewrite J2]; auto.
Qed.

Lemma stored_same_equiv v v' : v ≡ v' -> stored_same ch_in chs_in v v'.
Proof. intros (E1 & _ & E3 & E4 & _). split_and!; intros; by rewrite ?E1, ?E3, ?E4. Qed.
End stored_same.

(** What a history repository promises to the tuple space.  It tells apart the channels
    and channel vectors in use ([repo_ch], [repo_chs]: those whose hashes differ);
    [repo_wf] is its invariant, [actions_ok] delimits the checkpoints it can take
    (actions on channels in use, whose encodings have distinct hashes), and [recorded]
    are the roots it can go back to. *)
Class HistoryRepositoryLaws (C P A K H : Type) `{Countable C}
    `{!HistoryRepository C P A K H} := {
  repo_ch : C -> Prop;
  repo_chs : list C -> Prop;
  repo_wf : H -> Prop;
  actions_ok : H -> list (HotStoreAction C P A K) -> Prop;
  recorded : H -> Blake2b256Hash -> Prop;
  reader_at : H -> Blake2b256Hash -> HistoryReaderBase C P A K;
  law_repo_chs : forall chs ch, repo_chs chs -> ch ∈ chs -> repo_ch ch;
  law_root_recorded : forall h, repo_wf h -> recorded h (repo_root h);
  law_reader : forall h root, repo_wf h -> recorded h root ->
    get_history_reader root h = Ok (reader_at h root);
  law_repo_checkpoint : forall h l, repo_wf h -> actions_ok h l ->
    exists h', repo_checkpoint l h = Ok h' /\ repo_wf h' /\
      stored_same repo_ch repo_chs
        (foldl apply_action (history_view (reader_at h (repo_root h))) l)
        (history_view (reader_at h' (repo_root h'))) /\
      (forall root, recorded h root ->
        recorded h' root /\ history_view (reader_at h' root) ≡ history_view (reader_at h root)) /\
      (forall root, recorded h' root -> recorded h root \/ root = repo_root h');
  law_repo_reset : forall h root, repo_wf h -> recorded h root ->
    exists h', (repo_reset root h).1 = Ok h' /\ repo_wf h' /\ repo_root h' = root /\
      (forall root, recorded h root ->
        recorded h' root /\ history_view (reader_at h' root) ≡ history_view (reader_at h root)) /\
      (forall root, recorded h' root -> recorded h root);
}.

Section repository.
Context {C P A K H : Type} `{HistoryRepositoryLaws C P A K H}.

(** The rows that the current root of a repository shows. *)
Definition current_rows (h : H) : View C P A K := history_view (reader_at h (repo_root h)).

(** Every root that could be gone back to still can, and shows the same rows. *)
Definition roots_kept (h h' : H) : Prop :=
  forall root, recorded h root ->
    recorded h' root /\ history_view (reader_at h' root) ≡ history_view (reader_at h root).

Lemma roots_kept_refl h : roots_kept h h.
Proof. by split. Qed.

Lemma roots_kept_trans h1 h2 h3 : roots_kept h1 h2 -> roots_kept h2 h3 -> roots_kept h1 h3.
Proof.
  intros H12 H23 root Hr. destruct (H12 root Hr) as [Hr2 E2].
  destruct (H23 root Hr2) as [Hr3 E3]. split; [done|]. by rewrite E3.
Qed.
End repository.

Section checkpoint.
Context {C P A K H S G : Type} `{Countable C} `{!HotStore C P A K S}.
Context `{!HistoryRepository C P A K H, !HotStoreFactory C P A K S, !Oracle G}.
Context `{!Debug P, !Debug K, !HotStoreLaws C P A K S}.
Context `{!HotStoreFactoryLaws C P A K S, !HistoryRepositoryLaws C P A K H}.
Context (cd : Codecs C P A K) (get : P -> A -> option A).

Abbreviation space := (RSpace C P K H S G).
Abbreviation View := (View C P A K).
Abbreviation stored_same := (stored_same repo_ch repo_chs).
Abbreviation Inv := (Inv get repo_ch repo_chs).
Abbreviation space_inv := (space_inv cd get repo_ch repo_chs).
Abbreviation space_step := (space_step cd get repo_ch repo_chs).

(** ** Installing again *)

Definition installable (v : View) (ci : list C * Install P K) : Prop :=
  repo_chs ci.1 /\ NoDup ci.1 /\ length ci.1 = length (in_patterns ci.2) /\
  exists cp, cp ∈ zip ci.1 (in_patterns ci.2) /\ unmatched get v cp.

Lemma stored_same_install chs w (v v' : View) :
  v' ≡ view_install chs w v -> stored_same v v'.
Proof.
  intros (E1 & _ & E3 & E4 & _). unfold view_install in *.
  destruct (view_install_joins_spec chs chs (view_install_continuation chs w v).2)
    as (_ & K1 & _ & K3 & K4).
  rewrite K1 in E1. rewrite K3 in E3. rewrite K4 in E4.
  split_and!; intros x; by rewrite ?E1, ?E3, ?E4.
Qed.

Lemma installable_same v v' ci : stored_same v v' -> installable v ci -> installable v' ci.
Proof.
  intros (Hd & _) (Hin & ? & ? & cp & Hcp & Hu). split_and!; [done..|]. exists cp.
  split; [done|]. intros d. rewrite Hd; [apply Hu|].
  eapply law_repo_chs; [exact Hin|]. by eapply cp_channel.
Qed.

Lemma reinstall_spec (l : list (list C * Install P K)) (r : space) :
  NoDup l.*1 -> good r -> Inv (V r) -> (forall ci, ci ∈ l -> installable (V r) ci) ->
  let out := reinstall cd get l r in
  out.1 = Ok tt /\ good out.2 /\ Inv (V out.2) /\
  history_repository out.2 = history_repository r /\ event_log out.2 = event_log r /\
  produce_counter out.2 = produce_counter r /\ base (store out.2) ≡ base (store r) /\
  installs out.2 = list_to_map l ∪ installs r /\ stored_same (V r) (V out.2) /\
  (forall chs, v_installed (V out.2) chs =
    match (list_to_map l : gmap (list C) (Install P K)) !! chs with
    | Some i => Some (installed_wc cd chs (in_patterns i) (in_continuation i))
    | None => v_installed (V r) chs
    end).
Proof.
  revert r. induction l as [|[chs i] l IH]; intros r Hnd Hg Hinv Hall.
  { simpl. rewrite (left_id_L ∅ (∪)). split_and!; try done. }
  csimpl in Hnd. apply NoDup_cons in Hnd as [Hch Hnd].
  destruct (Hall (chs, i) ltac:(by left)) as (Hdom & Hndc & Hlen & cp & Hcp & Hu). simpl in *.
  unfold mbind, st_bind.
  destruct (install_spec cd get chs (in_patterns i) (in_continuation i) r Hg Hlen Hndc)
    as ((Hg1 & Hrp1 & Hlg1 & Hct1 & Hb1) & [([cands HF] & _)|(Hun & Hx & Hin & Hv)]).
  { exfalso. apply list_elem_of_lookup in Hcp as [n Hn].
    destruct (Forall2_lookup_l _ _ _ _ _ HF Hn) as (c & _ & m & d & mat & Hd & Hm & _).
    apply list_elem_of_lookup_2 in Hd. rewrite (Hu _ Hd) in Hm. done. }
  destruct (locked_install_internal cd get chs _ _ true r) as [x r1]. simpl in *. subst x.
  assert (Inv (V r1)) as Hinv1.
  { rewrite Hv. apply Inv_install; try done. }
  pose proof (stored_same_install _ _ _ _ Hv) as Hst.
  destruct (IH r1 Hnd Hg1 Hinv1) as (Hok & Hg2 & Hinv2 & Hrp2 & Hlg2 & Hct2 & Hb2 & Hin2 & Hst2 & Hi2).
  { intros ci Hci. eapply installable_same; [done|]. apply Hall. by right. }
  split_and!; try done; try congruence.
  - by rewrite Hb2.
  - rewrite Hin2, Hin. apply map_eq. intros chs'. rewrite !lookup_union, !lookup_insert.
    case_decide; [subst chs'|done].
    rewrite (not_elem_of_list_to_map_1 l chs Hch). destruct i.
    by destruct (installs r !! chs).
  - by eapply stored_same_trans.
  - intros chs'. rewrite Hi2, lookup_insert. case_decide as Hc.
    + subst chs'. rewrite (not_elem_of_list_to_map_1 l chs Hch), Hv, view_install_installed.
      by rewrite decide_True.
    + destruct (list_to_map l !! chs'); [done|]. rewrite Hv, view_install_installed.
      by rewrite decide_False.
Qed.

Lemma list_to_map_permuted (m : gmap (list C) (Install P K)) l :
  l ≡ₚ map_to_list m -> NoDup l.*1 /\ list_to_map l = m.
Proof.
  intros Hl. assert (NoDup l.*1) as Hnd by (rewrite Hl; apply NoDup_fst_map_to_list).
  split; [done|]. rewrite <-(list_to_map_to_list m). by apply list_to_map_proper.
Qed.

Lemma restore_installs_spec (r : space) :
  good r -> Inv (V r) ->
  (forall ci, installs r !! ci.1 = Some ci.2 -> installable (V r) ci) ->
  let out := restore_installs cd get r in
  out.1 = Ok tt /\ good out.2 /\ Inv (V out.2) /\
  history_repository out.2 = history_repository r /\ event_log out.2 = event_log r /\
  produce_counter out.2 = produce_counter r /\ base (store out.2) ≡ base (store r) /\
  installs out.2 = installs r /\ stored_same (V r) (V out.2) /\
  (forall chs, v_installed (V out.2) chs =
    match installs r !! chs with
    | Some i => Some (installed_wc cd chs (in_patterns i) (in_continuation i))
    | None => v_installed (V r) chs
    end).
Proof.
  intros Hg Hinv Hall. unfold restore_installs, gets, modify, mbind, st_bind.
  set (r0 := set_installs ∅ r).
  destruct (spec_permuted (map_to_list (installs r)) r0 Hg)
    as [[Hg1 [Hrp1 Hin1 Hlg1 Hct1] Hb1] [Hl Hv1]].
  destruct (permuted (map_to_list (installs r)) r0) as [l r1]. simpl in *.
  destruct (list_to_map_permuted _ _ Hl) as [Hnd Hm].
  assert (stored_same (V r) (V r1)) as Hst1.
  { apply stored_same_equiv. by symmetry. }
  destruct (reinstall_spec l r1 Hnd Hg1) as (Hok & Hg2 & Hinv2 & Hrp2 & Hlg2 & Hct2 & Hb2 &
    Hin2 & Hst2 & Hi2).
  { rewrite Hv1. exact Hinv. }
  { intros [chs i] Hci. rewrite Hl in Hci. apply elem_of_map_to_list in Hci.
    eapply installable_same; [exact Hst1|]. by apply Hall. }
  rewrite Hm in Hin2, Hi2.
  split_and!; try done.
  - by rewrite Hrp2, Hrp1.
  - by rewrite Hlg2, Hlg1.
  - by rewrite Hct2, Hct1.
  - rewrite Hb2. exact Hb1.
  - rewrite Hin2, Hin1. simpl. apply (right_id_L ∅ (∪)).
  - by eapply stored_same_trans.
  - intros chs. rewrite Hi2. destruct (installs r !! chs); [done|].
    destruct Hv1 as (_ & Hv1 & _). apply Hv1.
Qed.

(** ** Creating a checkpoint *)

(** The hot store reads from the current history, and every recorded root holds rows that
    satisfy the invariant. *)
Definition roots_inv (h : H) : Prop :=
  forall root, recorded h root -> Inv (history_view (reader_at h root)).
Definition coherent (r : space) : Prop :=
  repo_wf (history_repository r) /\
  base (store r) ≡ current_rows (history_repository r) /\
  roots_inv (history_repository r).

Lemma apply_action_proper (a : HotStoreAction C P A K) (v w : View) :
  v ≡ w -> apply_action v a ≡ apply_action w a.
Proof. intros Hv. destruct a as [[]|[]]; simpl; by rewrite Hv. Qed.

Lemma foldl_apply_action_proper (l : list (HotStoreAction C P A K)) (v w : View) :
  v ≡ w -> foldl apply_action v l ≡ foldl apply_action w l.
Proof.
  revert v w. induction l as [|a l IH]; intros v w Hv; [done|]. by apply IH, apply_action_proper.
Qed.

Lemma Inv_without_installed (v v' : View) :
  stored_same v v' -> (forall chs, v_installed v' chs = None) ->
  (forall ch, v_installed_joins v' ch = []) -> Inv v -> Inv v'.
Proof.
  intros (Hd & Hc & Hj) Hi Hij [I1 I2 I3 I4 I5 I6].
  assert (forall chs w, repo_chs chs -> w ∈ view_get_continuations v' chs ->
    w ∈ view_get_continuations v chs) as Hsub.
  { intros chs w Hin. unfold view_get_continuations. rewrite Hi, Hc by done. simpl.
    intros Hw. apply elem_of_app. by right. }
  split.
  - intros chs w Hin Hw%Hsub; [by apply I1|done].
  - intros chs ch Hin Hne Hch. rewrite Hj by (by eapply law_repo_chs).
    apply I2; [done| |done]. intros Hnil. apply Hne.
    specialize (Hc chs Hin). rewrite Hnil in Hc. by apply Permutation_nil_r in Hc.
  - intros chs w ch. by rewrite Hi.
  - intros ch chs Hch. unfold view_get_joins. rewrite Hij, Hj by done. intros Hin.
    apply (I4 ch); [done|]. apply elem_of_app. by right.
  - intros chs w. by rewrite Hi.
  - intros chs w Hin Hw%Hsub; [|done]. destruct (I6 _ _ Hin Hw) as (cp & Hcp & Hu).
    exists cp. split; [done|]. intros d. rewrite Hd; [apply Hu|].
    eapply law_repo_chs; [exact Hin|]. by eapply cp_channel.
Qed.

Lemma installs_installable (r : space) (v : View) ci :
  space_inv r -> stored_same (V r) v -> installs r !! ci.1 = Some ci.2 ->
  installable v ci.
Proof.
  intros [_ [I1 _ _ _ _ I6] Hok Hiin] Hst Hci. destruct ci as [chs i]. simpl in *.
  specialize (Hiin _ _ Hci).
  assert (installed_wc cd chs (in_patterns i) (in_continuation i) ∈
    view_get_continuations (V r) chs) as Hin.
  { unfold view_get_continuations. rewrite (Hok chs), Hci. simpl. by left. }
  destruct (I1 _ _ Hiin Hin) as [? ?]. destruct (I6 _ _ Hiin Hin) as (cp & Hcp & Hu).
  eapply installable_same; [done|]. split_and!; [done..|]. by exists cp.
Qed.

(** A new hot store over the history of [h], with the installed continuations installed
    again. *)
Lemma rebuild_spec (r : space) (v : View) h root :
  repo_wf h -> recorded h root -> history_repository r = h ->
  stored_same v (history_view (reader_at h root)) -> Inv v ->
  (forall ci, installs r !! ci.1 = Some ci.2 -> installable v ci) ->
  (forall chs i, installs r !! chs = Some i -> repo_chs chs) ->
  let out := restore_installs cd get (set_store (new_hot_store empty_state (reader_at h root)) r) in
  out.1 = Ok tt /\ history_repository out.2 = h /\ event_log out.2 = event_log r /\
  produce_counter out.2 = produce_counter r /\ installs out.2 = installs r /\
  base (store out.2) ≡ history_view (reader_at h root) /\
  stored_same v (V out.2) /\ space_inv out.2.
Proof.
  intros Hwf Hrec Hr Hst Hinv Hall Hiin.
  set (r2 := set_store (new_hot_store empty_state (reader_at h root)) r).
  assert (good r2) as Hg2 by (apply factory_wf).
  assert (stored_same v (V r2) /\ (forall chs, v_installed (V r2) chs = None) /\
    (forall ch, v_installed_joins (V r2) ch = [])) as (Hst2 & Hi2 & Hij2).
  { destruct (factory_view empty_state (reader_at h root)) as (F1 & F2 & F3 & F4 & F5).
    destruct Hst as (R3 & R1 & R4). unfold V. simpl. split_and!.
    - split_and!; intros x Hx; [rewrite F3|rewrite F1|rewrite F4];
        simpl; rewrite !lookup_empty; simpl; [by apply R3|by apply R1|by apply R4].
    - intros chs. by rewrite F2.
    - intros ch. by rewrite F5. }
  destruct (restore_installs_spec r2 Hg2) as (Hok3 & Hg3 & Hinv3 & Hrp3 & Hlg3 & Hct3 & Hb3 &
    Hin3 & Hst3 & Hi3).
  { by eapply Inv_without_installed. }
  { intros ci Hci. eapply installable_same; [exact Hst2|]. by apply Hall. }
  split_and!; try done.
  - by rewrite Hrp3.
  - rewrite Hb3. apply factory_base.
  - by eapply stored_same_trans.
  - split; [done|done| |].
    + intros chs. rewrite Hi3, Hin3, Hi2. simpl. by destruct (installs r !! chs).
    + intros chs i. rewrite Hin3. apply Hiin.
Qed.

Lemma create_checkpoint_spec (r : space) :
  space_inv r -> coherent r ->
  (forall l, l ≡ₚ changes (store r) -> actions_ok (history_repository r) l) ->
  let out := create_checkpoint cd get r in
  out.1 = Ok (mkCheckpoint (repo_root (history_repository out.2)) (event_log r)) /\
  event_log out.2 = [] /\ produce_counter out.2 = ∅ /\ installs out.2 = installs r /\
  stored_same (V r) (V out.2) /\ space_inv out.2 /\ coherent out.2 /\
  stored_same (V r) (current_rows (history_repository out.2)) /\
  roots_kept (history_repository r) (history_repository out.2).
Proof.
  intros Hsi (Hwf & Hcoh & Hri) Hact. pose proof Hsi as [Hg Hinv Hok Hiin].
  unfold create_checkpoint, after_checkpoint, gets, modify, mbind, st_bind.
  destruct (spec_permuted (changes (store r)) r Hg)
    as [[Hg1 [Hrp1 Hin1 Hlg1 Hct1] Hb1] [Hl Hv1]].
  destruct (permuted (changes (store r)) r) as [l r1]. cbn [fst snd] in *.
  rewrite Hrp1 in *. destruct (law_repo_checkpoint (history_repository r) l Hwf (Hact l Hl))
    as (h' & -> & Hwf' & Hlaw & Hroots & Honly).
  cbn [history_repository set_repo set_log set_counter].
  rewrite law_reader by (auto using law_root_recorded). unfold create_new_hot_store, modify.
  match goal with |- context [restore_installs cd get (set_store _ ?x)] => set (r2 := x) end.
  assert (stored_same (V r) (current_rows h')) as Hst.
  { eapply stored_same_trans; [|exact Hlaw].
    destruct (law_changes (store r) l Hg Hl) as (E1 & _ & E3 & E4 & _). simpl in *.
    destruct (foldl_apply_action_proper l _ _ Hcoh) as (F1 & _ & F3 & F4 & _).
    unfold V, current_rows in *.
    split_and!; intros x _; [rewrite <-E3, F3|rewrite <-E1, F1|rewrite <-E4, F4]; done. }
  destruct (rebuild_spec r2 (V r) h' (repo_root h')) as (Hx & Hrp3 & Hlg3 & Hct3 & Hin3 & Hb3 &
    Hst3 & Hsi3); [done|by apply law_root_recorded|done|done|done| | |].
  { intros ci Hci. simpl in Hci. rewrite Hin1 in Hci. eapply installs_installable; eauto.
    by apply stored_same_equiv. }
  { simpl. rewrite Hin1. exact Hiin. }
  simpl in Hx, Hrp3, Hlg3, Hct3, Hin3, Hb3, Hst3, Hsi3 |- *.
  destruct (restore_installs cd get _) as [x r3]. cbn [fst snd] in *. subst x. simpl.
  rewrite Hrp3, Hlg3, Hct3, Hin3, Hin1. split_and!; try done.
  - by rewrite Hlg1.
  - unfold coherent. rewrite Hrp3. split_and!; [done..|]. intros root [Hr| ->]%Honly.
    + rewrite (proj2 (Hroots root Hr)). by apply Hri.
    + by apply (Inv_without_installed (V r)).
Qed.

(** ** Going back to a recorded root *)

Lemma reset_spec (r : space) root :
  coherent r -> recorded (history_repository r) root ->
  (forall ci, installs r !! ci.1 = Some ci.2 ->
    installable (history_view (reader_at (history_repository r) root)) ci) ->
  let out := reset cd get root r in
  out.1 = Ok tt /\ event_log out.2 = [] /\ produce_counter out.2 = ∅ /\
  installs out.2 = installs r /\ repo_root (history_repository out.2) = root /\
  stored_same (history_view (reader_at (history_repository r) root)) (V out.2) /\
  space_inv out.2 /\ coherent out.2 /\
  roots_kept (history_repository r) (history_repository out.2).
Proof.
  intros (Hwf & Hcoh & Hri) Hrec Hall.
  unfold reset, on_repo, gets, modify, mbind, st_bind.
  destruct (law_repo_reset (history_repository r) root Hwf Hrec)
    as (h' & Hreset & Hwf' & Hroot & Hroots & Honly).
  destruct (repo_reset root (history_repository r)) as [x h1]. simpl in Hreset. subst x.
  cbn [history_repository set_repo set_log set_counter].
  destruct (Hroots root Hrec) as [Hrec' Hview].
  rewrite law_reader by done. unfold create_new_hot_store, modify.
  match goal with |- context [restore_installs cd get (set_store _ ?x)] => set (r2 := x) end.
  destruct (rebuild_spec r2 (history_view (reader_at (history_repository r) root)) h' root)
    as (Hx & Hrp3 & Hlg3 & Hct3 & Hin3 & Hb3 & Hst3 & Hsi3); try done.
  { by apply stored_same_equiv. }
  { by apply Hri. }
  { intros chs i Hi. by apply (Hall (chs, i)). }
  rewrite Hrp3, Hlg3, Hct3, Hin3. split_and!; try done.
  unfold coherent. rewrite Hrp3. split_and!; [done| |].
  - unfold current_rows. by rewrite Hroot.
  - intros root' Hr%Honly. rewrite (proj2 (Hroots root' Hr)). by apply Hri.
Qed.

(** ** Soft checkpoints *)

Lemma soft_checkpoint_spec (r r' : space) (sc : SoftCheckpoint C P A K) :
  good r -> coherent r -> create_soft_checkpoint r = (sc, r') ->
  V r' ≡ V r /\ event_log r' = [] /\ produce_counter r' = ∅ /\
  forall r1 : space, history_repository r1 = history_repository r ->
    let out := revert_to_soft_checkpoint sc r1 in
    out.1 = Ok tt /\ V out.2 ≡ V r /\ event_log out.2 = event_log r /\
    produce_counter out.2 = produce_counter r /\ good out.2 /\ coherent out.2 /\
    installs out.2 = installs r1.
Proof.
  intros Hg (Hwf & Hcoh & Hri) [= <- <-]. split_and!; [done..|]. intros r1 Hrp.
  unfold revert_to_soft_checkpoint, gets, modify, mbind, st_bind.
  assert (get_history_reader (repo_root (history_repository r1)) (history_repository r1) =
    Ok (reader_at (history_repository r) (repo_root (history_repository r)))) as ->.
  { rewrite Hrp. apply law_reader; auto using law_root_recorded. }
  simpl. split_and!; try done.
  - unfold V. simpl. rewrite factory_view.
    rewrite <-(law_snapshot (store r) Hg). f_equiv. by symmetry.
  - apply factory_wf.
  - unfold coherent. simpl. rewrite Hrp. split_and!; [done|apply factory_base|done].
Qed.

(** The steps of clients keep the store coherent with history. *)
Lemma space_step_coherent (r r' : space) :
  space_step r r' -> space_inv r -> coherent r ->
  coherent r' /\ history_repository r' = history_repository r.
Proof.
  intros Hstep [Hg Hinv _ _] Hcoh. unfold coherent in *. destruct Hstep.
  - destruct (consume_spec cd get channels patterns k persist peeks r)
      as ((_ & -> & _ & Hb) & _); [done..|]. by rewrite Hb.
  - destruct (produce_spec cd get channel a persist r Hg) as ((_ & -> & _ & Hb) & _).
    { intros chs Hchs. by apply (inv_joins_wf _ _ _ _ Hinv channel). }
    by rewrite Hb.
  - unfold install. destruct (install_spec cd get channels patterns k r)
      as ((_ & -> & _ & _ & Hb) & _); [done..|]. by rewrite Hb.
  - done.
  - done.
  - done.
Qed.

Lemma reachable_coherent (r r' : space) :
  rtc space_step r r' -> space_inv r -> coherent r ->
  space_inv r' /\ coherent r' /\ history_repository r' = history_repository r.
Proof.
  induction 1 as [|r1 r2 r3 Hstep _ IH]; [done|]. intros Hsi Hcoh.
  destruct (space_step_coherent _ _ Hstep Hsi Hcoh) as [Hc2 Hr2].
  destruct IH as (? & ? & ?); [by eapply space_step_keeps|done|]. split_and!; congruence.
Qed.

(** A stretch of a run between two checkpoints, in which soft checkpoints are taken and reverted
    to, each as often as one likes, when nothing was installed since. *)
Inductive space_session (r : space) : list (SoftCheckpoint C P A K * gmap (list C) (Install P K)) -> space -> Prop :=
| session_start : space_session r [] r
| session_step saved r1 r2 : space_session r saved r1 -> space_step r1 r2 -> space_session r saved r2
| session_save saved r1 : space_session r saved r1 ->
    space_session r (((create_soft_checkpoint r1).1, installs r1) :: saved) (create_soft_checkpoint r1).2
| session_revert saved r1 sc : space_session r saved r1 -> (sc, installs r1) ∈ saved ->
    space_session r saved (revert_to_soft_checkpoint sc r1).2.

(** Going back to a saved state gives a space that keeps the invariants. *)
Definition can_revert (h : H) (saved : SoftCheckpoint C P A K * gmap (list C) (Install P K)) : Prop :=
  forall r1 : space, history_repository r1 = h -> installs r1 = saved.2 ->
    let r2 := (revert_to_soft_checkpoint saved.1 r1).2 in
    space_inv r2 /\ coherent r2 /\ history_repository r2 = h.
Lemma saved_can_revert (r : space) :
  space_inv r -> coherent r -> can_revert (history_repository r) ((create_soft_checkpoint r).1, installs r).
Proof.
  intros Hsi Hcoh r1 Hrp Hin. cbn [fst snd] in *.
  destruct (soft_checkpoint_spec r _ _ (si_good _ _ _ _ _ Hsi) Hcoh (surjective_pairing _)) as (_ & _ & _ & Hrev).
  destruct (Hrev r1 Hrp) as (_ & HV & _ & _ & Hg & Hc & Hi). destruct Hsi as [_ Hinv Hok Hiin]. split_and!; [|done|].
  - split; [done|by rewrite HV| |by rewrite Hi, Hin].
    apply (installs_ok_same cd r); [by rewrite Hi, Hin|apply HV|done].
  - unfold revert_to_soft_checkpoint, gets, modify, mbind, st_bind. by destruct (get_history_reader _ _).
Qed.
Lemma session_inv (r : space) saved r' :
  space_session r saved r' -> space_inv r -> coherent r ->
  space_inv r' /\ coherent r' /\ history_repository r' = history_repository r /\
  Forall (can_revert (history_repository r)) saved.
Proof.
  induction 1 as [|saved r1 r2 _ IH Hstep|saved r1 _ IH|saved r1 sc _ IH Hsc]; intros Hsi Hcoh; [done|..];
    destruct (IH Hsi Hcoh) as (Hsi1 & Hc1 & Hrp1 & Hall).
  - destruct (space_step_coherent r1 r2 Hstep Hsi1 Hc1) as [? ->]. split_and!; [by eapply space_step_keeps|done..].
  - assert (space_step r1 (create_soft_checkpoint r1).2) as Hstep by constructor.
    destruct (space_step_coherent _ _ Hstep Hsi1 Hc1) as [? ->]. split_and!; [by eapply space_step_keeps|done..|].
    apply Forall_cons_2; [|done]. rewrite <-Hrp1. by apply saved_can_revert.
  - rewrite Forall_forall in Hall. destruct (Hall _ Hsc r1 Hrp1 eq_refl) as (? & ? & ?).
    split_and!; [done..|]. by rewrite Forall_forall.
Qed.

(** A space over its whole life: the operations of clients on distinct channels, soft
    checkpoints and reverts to them, checkpoints that the repository can take, and resets to
    recorded roots on which the installed continuations do not match at once. *)
Inductive space_life (r : space) : space -> Prop :=
| life_step r' : space_step r r' -> space_life r r'
| life_session saved r' : space_session r saved r' -> space_life r r'
| life_checkpoint :
    (forall l, l ≡ₚ changes (store r) -> actions_ok (history_repository r) l) ->
    space_life r (create_checkpoint cd get r).2
| life_reset root :
    recorded (history_repository r) root ->
    (forall ci, installs r !! ci.1 = Some ci.2 ->
      installable (history_view (reader_at (history_repository r) root)) ci) ->
    space_life r (reset cd get root r).2.

Lemma life_inv (r r' : space) :
  rtc space_life r r' -> space_inv r -> coherent r ->
  space_inv r' /\ coherent r' /\ roots_kept (history_repository r) (history_repository r').
Proof.
  induction 1 as [|r1 r2 r3 [r' Hstep|saved r' Hses|Hact|root Hrec Hall] _ IH]; intros Hsi Hcoh.
  - auto using roots_kept_refl.
  - destruct (space_step_coherent r1 r' Hstep Hsi Hcoh) as [? <-].
    apply IH; [by eapply space_step_keeps|done].
  - destruct (session_inv r1 saved r' Hses Hsi Hcoh) as (? & ? & <- & _). by apply IH.
  - destruct (create_checkpoint_spec r1 Hsi Hcoh Hact) as (_ & _ & _ & _ & _ & ? & ? & _ & ?).
    destruct IH as (? & ? & ?); [done..|]. split_and!; [done..|]. by eapply roots_kept_trans.
  - destruct (reset_spec r1 root Hcoh Hrec Hall) as (_ & _ & _ & _ & _ & _ & ? & ? & ?).
    destruct IH as (? & ? & ?); [done..|]. split_and!; [done..|]. by eapply roots_kept_trans.
Qed.
End checkpoint.
