(* ===== verification/RSpaceThms.v ===== *)
(** * Correctness of the tuple space

    The theorems about [rspace.rs] over the in-memory hot store, with concrete spaces on
    which they are evaluated. *)
From S2P Require Import Prelude Events HotStoreSig HotStore SpaceMatcher RSpace RSpaceSpec RSpaceInv.
From S2P Require Import RSpaceCheckpoint.

Section theorems.
Context {C P A K H G : Type} `{Countable C} `{!Debug P, !Debug K}.
Context `{!HistoryRepository C P A K H, !Oracle G}.

#[global] Instance inmem_factory :
  HotStoreFactory C P A K (InMemHotStore (C:=C) (P:=P) (A:=A) (K:=K)) :=
  create_from_hs_and_hr.

#[global] Instance inmem_factory_laws :
  HotStoreFactoryLaws C P A K (InMemHotStore (C:=C) (P:=P) (A:=A) (K:=K)).
Proof. split; intros st h; [apply cache_ok_empty|done..]. Qed.

Context (cd : Codecs C P A K) (get : P -> A -> option A).
Context `{!HistoryRepositoryLaws C P A K H}.

Abbreviation space := (RSpace C P K H (InMemHotStore (C:=C) (P:=P) (A:=A) (K:=K)) G).

(** A space over an empty repository on which nothing has been done. *)
Definition fresh (r : space) : Prop :=
  exists repo g, r = rspace_apply repo (create_from_hr (reader_at repo (repo_root repo))) g /\
    repo_wf repo /\ forall root, recorded repo root ->
      (forall ch, get_data_proj (reader_at repo root) ch = []) /\
      (forall chs, get_continuations_proj (reader_at repo root) chs = []) /\
      (forall ch, get_joins_proj (reader_at repo root) ch = []).

Lemma fresh_inv r : fresh r -> space_inv cd get repo_ch repo_chs r /\ coherent get r.
Proof.
  intros (repo & g & -> & Hwf & Hempty).
  assert (roots_inv get repo) as Hri.
  { intros root (? & ? & ?)%Hempty. by apply history_view_inv. }
  split; [split|by split].
  - apply cache_ok_empty.
  - assert (V (rspace_apply repo (create_from_hr (reader_at repo (repo_root repo))) g) ≡
      current_rows repo) as ->.
    { repeat split; intros; unfold V; simpl; by rewrite ?lookup_empty. }
    by apply Hri, law_root_recorded.
  - intros chs. unfold V. simpl. by rewrite !lookup_empty.
  - intros chs i. simpl. by rewrite lookup_empty.
Qed.

Lemma live_inv r0 r :
  fresh r0 -> rtc (space_life cd get) r0 r ->
  space_inv cd get repo_ch repo_chs r /\ coherent get r.
Proof.
  intros [Hsi Hcoh]%fresh_inv Hr.
  by destruct (life_inv cd get r0 r Hr Hsi Hcoh) as (? & ? & _).
Qed.

(** C1: [consume] on distinct channels never fails: either every channel has a datum its
    pattern matches, and then exactly those data that are not persistent are removed,
    the result lists them in channel order and a COMM event with their produces is
    logged; or some pattern matches no datum of its channel, and then the continuation
    waits on all its channels and nothing is returned. *)
Theorem consume_correct channels patterns k persist peeks (r : space) :
  good r -> channels <> [] -> length channels = length patterns -> NoDup channels ->
  let out := consume cd get channels patterns k persist peeks r in
  kept r out.2 /\ produce_counter out.2 = produce_counter r /\
  consume_outcome cd get channels patterns k persist peeks r out.1 out.2.
Proof. apply consume_spec. Qed.






(** Reverting to a soft checkpoint, after whatever consumes, produces and installs,
    gives back the tuple space, the event log and the produce counters of the moment the
    checkpoint was taken. *)
Theorem soft_checkpoint_restores r0 r sc r1 r2 :
  fresh r0 -> rtc (space_life cd get) r0 r ->
  create_soft_checkpoint r = (sc, r1) ->
  rtc (space_step cd get repo_ch repo_chs) r1 r2 ->
  let out := revert_to_soft_checkpoint sc r2 in
  out.1 = Ok tt /\ V out.2 ≡ V r /\ event_log out.2 = event_log r /\
  produce_counter out.2 = produce_counter r.
Proof.
  intros Hf Hr Hsc Hr2. destruct (live_inv r0 r Hf Hr) as [Hsi Hc].
  assert (space_step cd get repo_ch repo_chs r r1) as Hstep.
  { replace r1 with (create_soft_checkpoint r).2 by (by rewrite Hsc). constructor. }
  destruct (space_step_coherent cd get r r1 Hstep Hsi Hc) as [Hc1 Hrp1].
  destruct (reachable_coherent cd get r1 r2 Hr2) as (_ & _ & Hrp2);
    [by eapply space_step_keeps|done|].
  destruct (soft_checkpoint_spec get r r1 sc (si_good _ _ _ _ _ Hsi) Hc Hsc) as (_ & _ & _ & Hrev).
  destruct (Hrev r2) as (? & ? & ? & ? & _); [by rewrite Hrp2|done].
Qed.
End theorems.

(** ** A concrete tuple space *)
Module Example.
#[export] Instance nat_debug : Debug nat := fun n => pretty.pretty n.
#[export] Instance unit_oracle : Oracle unit.
Proof. refine {| permute := fun X l g => (l, g) |}. done. Defined.

(** A repository that keeps the reader of every checkpoint; a root is the number of the
    reader in unary. *)
Abbreviation reader := (HistoryReaderBase nat nat nat nat).
Definition empty_reader : reader := mkReader (const []) (const []) (const []).
Record Readers := mkReaders { older : list reader; current : nat }.
Definition nth_reader (h : Readers) (root : bytes) : reader :=
  default empty_reader (older h !! length root).
#[export] Instance reader_repo : HistoryRepository nat nat nat nat Readers := {|
  repo_checkpoint l h :=
    let v := foldl apply_action (history_view (nth_reader h (replicate (current h) x00))) l in
    Ok (mkReaders (older h ++ [mkReader (v_data v) (v_conts v) (v_joins v)])
      (length (older h)));
  repo_reset root h := (Ok (mkReaders (older h) (length root)), h);
  get_history_reader root h := Ok (nth_reader h root);
  repo_root h := replicate (current h) x00;
|}.
Definition reader_actions_ok : Readers -> list (HotStoreAction nat nat nat nat) -> Prop :=
  fun _ _ => True.
Definition reader_recorded (h : Readers) (root : bytes) : Prop :=
  root = replicate (length root) x00 /\ length root < length (older h).
#[export] Instance reader_repo_laws : HistoryRepositoryLaws nat nat nat nat Readers.
Proof.
  refine {| repo_ch := const True; repo_chs := const True;
    repo_wf := fun h => current h < length (older h);
    actions_ok := reader_actions_ok; recorded := reader_recorded;
    reader_at := nth_reader |}; [done|..].
  - intros h Hh. split; simpl; by rewrite length_replicate.
  - done.
  - intros h l Hh _. eexists. split; [done|]. simpl.
    unfold nth_reader, reader_recorded. simpl. rewrite !length_replicate, !length_app.
    split_and!; [simpl; lia|..].
    + rewrite lookup_app_r, Nat.sub_diag by lia. repeat split; simpl; auto.
    + intros root [Hz Hl]. split; [split; [done|simpl; lia]|]. by rewrite lookup_app_l.
    + intros root [Hz Hl]. simpl in Hl.
      destruct (decide (length root = length (older h))) as [Heq|]; [right|left].
      * by rewrite Hz, Heq.
      * split; [done|lia].
  - intros h root Hh [Hz Hl]. eexists. simpl. split_and!; try done.
Defined.

(** Pattern 0 matches everything, any other pattern the equal number. *)
Definition wild (p a : nat) : option nat := if decide (p = 0 \/ p = a) then Some a else None.

Definition space0 :
  RSpace nat nat nat Readers (InMemHotStore (C:=nat) (P:=nat) (A:=nat) (K:=nat)) unit :=
  rspace_apply (mkReaders [empty_reader] 0) (create_from_hr empty_reader) tt.

Lemma space0_fresh : fresh space0.
Proof.
  exists (mkReaders [empty_reader] 0), tt. split; [done|]. split; [simpl; lia|].
  intros root [_ Hl]. simpl in Hl. simpl. unfold nth_reader. simpl.
  by replace (length root) with 0 by lia.
Qed.

(** One continuation waits on channels 1 and 2. *)
Definition space1 := (consume nat_codecs wild [1; 2] [0; 5] 9 false ∅ space0).2.

Lemma space1_reachable : rtc (space_life nat_codecs wild) space0 space1.
Proof.
  apply rtc_once, life_step. apply step_consume; [done..|]. apply NoDup_ListNoDup; repeat constructor; set_solver.
Qed.
End Example.
Import Example.

Lemma consume_correct_witness :
  produce_counter (consume nat_codecs wild [1; 2] [0; 5] 9 false ∅ space0).2 = ∅.
Proof.
  assert (good space0) as Hg by apply (fresh_inv nat_codecs wild space0 space0_fresh).
  assert (NoDup [1; 2]) as Hnd by (apply (bool_decide_unpack _); reflexivity).
  apply (consume_correct nat_codecs wild [1; 2] [0; 5] 9 false ∅ space0 Hg); done.
Defined.






Lemma soft_checkpoint_restores_witness :
  event_log (revert_to_soft_checkpoint (create_soft_checkpoint space1).1
    (create_soft_checkpoint space1).2).2 = event_log space1.
Proof.
  destruct (soft_checkpoint_restores nat_codecs wild space0 space1
    (create_soft_checkpoint space1).1 (create_soft_checkpoint space1).2
    (create_soft_checkpoint space1).2 space0_fresh space1_reachable
    eq_refl (rtc_refl _ _)) as (_ & _ & He & _).
  exact He.
Defined.

(** ** Repeated channels

    On a channel that occurs twice in a join the code does not keep the promise above:
    the data are removed in ascending order of their index, so that the first removal
    shifts the datum of the second out of its place. *)

(** Two data on channel 1. *)
Definition space2 :=
  (produce nat_codecs wild 1 6 false (produce nat_codecs wild 1 5 false space0).2).2.

(** A consume of two data from the same channel returns both and leaves one of them
    in the space, where the next consume finds it again. *)
Theorem repeated_channel_leaves_datum :
  let out := consume nat_codecs wild [1; 1] [0; 0] 9 false ∅ space2 in
  (exists cr, out.1 = Ok (Some (cr, [mkRR 1 6 6 false; mkRR 1 5 5 false]))) /\
  datum_a <$> v_data (V out.2) 1 = [5] /\
  (exists cr, (consume nat_codecs wild [1] [0] 9 false ∅ out.2).1 =
    Ok (Some (cr, [mkRR 1 5 5 false]))).
Proof. vm_compute. split_and!; [by eexists|done|by eexists]. Qed.

(** When a first candidate fails after matching twice on the same channel, the rollback
    replays the saved rows oldest first and leaves the row without the datum; a second
    candidate that matches on its own is then missed. *)
Theorem repeated_channel_rollback_misses_match :
  let d a := Datum_create nat_codecs 1 a false in
  let m : gmap nat (indexed (Datum nat)) :=
    <[1 := [(d 5, 0%Z); (d 6, 1%Z)]]> {[ 2 := [(Datum_create nat_codecs 2 8 false, 0%Z)] ]} in
  let k1 := WC_create nat_codecs [1; 1; 2] [0; 0; 7] 9 false ∅ in
  let k2 := WC_create nat_codecs [1; 1; 2] [0; 0; 8] 9 false ∅ in
  extract_first_match wild [1; 1; 2] [(k1, 0%Z); (k2, 1%Z)] m = None /\
  is_Some (extract_first_match wild [1; 1; 2] [(k2, 1%Z)] m).
Proof. vm_compute. split; [done|by eexists]. Qed.
