(* ===== verification/ReplayRSpace.v ===== *)
(** * Replaying a log

    [rspace++/src/rspace/replay_rspace.rs].  A validator runs the deploys of a block again on
    a space that was rigged with the log of the block: a consume or produce may only run a
    COMM of the log, which is then crossed off, and at the end no COMM may be left.

    [ReplayRSpace] has the fields of [RSpace] and in addition the COMMs that are left, keyed
    by the events that take part in them, and the calls made on the logger.  The channel
    locks are those of [Locks.v].  The iteration order of a counter of COMMs is that of a
    hash map, taken from the oracle. *)
From stdpp Require Import pretty.
From S2P Require Import Prelude Events HotStoreSig SpaceMatcher RSpace.
Open Scope res_scope.

(** ** Replay data *)

(** The identity of an [IOEvent] and of a [COMM]: a produce is compared by its hash. *)
Inductive io_key := KProduce (h : Blake2b256Hash) | KConsume (c : Consume).
#[global] Instance io_key_eq_dec : EqDecision io_key.
Proof. solve_decision. Defined.
#[global] Instance io_key_countable : Countable io_key.
Proof.
  refine (inj_countable'
    (fun k => match k with KProduce h => inl h | KConsume c => inr c end)
    (fun s => match s with inl h => KProduce h | inr c => KConsume c end) _). by intros [].
Defined.
Definition io_key_of (e : IOEvent) : io_key :=
  match e with IOProduce p => KProduce (p_hash p) | IOConsume c => KConsume c end.

Definition comm_key : Type :=
  Consume * list Blake2b256Hash * i32_set * gmap Blake2b256Hash Z.
#[global] Instance comm_key_eq_dec : EqDecision comm_key := _.
#[global] Instance comm_key_countable : Countable comm_key := _.
Definition key_of (c : COMM) : comm_key :=
  (comm_consume c, p_hash <$> comm_produces c, comm_peeks c, snd <$> comm_times_repeated c).

(** [Counter<COMM>]: the key object that was inserted first and the count *)
Abbreviation Counter := (gmap comm_key (COMM * nat)).
(** [MultisetMultiMap<IOEvent, COMM>] *)
Abbreviation ReplayData := (gmap io_key Counter).

Definition add_comm (m : ReplayData) (k : io_key) (comm : COMM) : ReplayData :=
  match m !! k with
  | Some current =>
    match current !! key_of comm with
    | Some (c, count) => <[k := <[key_of comm := (c, count + 1)]> current]> m
    | None => <[k := <[key_of comm := (comm, 1)]> current]> m
    end
  | None => <[k := {[key_of comm := (comm, 1)]}]> m
  end.
Definition remove_comm (m : ReplayData) (k : io_key) (comm : COMM) : ReplayData :=
  match m !! k with
  | Some current =>
    let current' :=
      match current !! key_of comm with
      | Some (c, count) =>
        if decide (1 < count) then <[key_of comm := (c, count - 1)]> current
        else delete (key_of comm) current
      | None => current
      end in
    if decide (current' = ∅) then delete k m else <[k := current']> m
  | None => m
  end.

(** The events of a COMM, its consume first *)
Definition comm_events (comm : COMM) : list IOEvent :=
  IOConsume (comm_consume comm) :: (IOProduce <$> comm_produces comm).
(** The events of a log that are not COMMs ([new_stuff]), and its COMMs *)
Definition io_events (log : Log) : gset io_key :=
  list_to_set (omap (fun e => match e with IoEvent io => Some (io_key_of io) | Comm _ => None end) log).
Definition comms_of (log : Log) : list COMM :=
  omap (fun e => match e with Comm c => Some c | IoEvent _ => None end) log.
Definition bind_comm (new_stuff : gset io_key) (m : ReplayData) (comm : COMM) : ReplayData :=
  foldl (fun m io => if decide (io_key_of io ∈ new_stuff) then add_comm m (io_key_of io) comm else m)
    m (comm_events comm).
(** [fn rig], the table it builds *)
Definition rig_table (log : Log) : ReplayData := foldl (bind_comm (io_events log)) ∅ (comms_of log).
(** [fn remove_bindings_for] *)
Definition remove_bindings (m : ReplayData) (comm_ref : COMM) : ReplayData :=
  foldl (fun m io => remove_comm m (io_key_of io) comm_ref) m (comm_events comm_ref).

Section replay.
Context {C P A K H S G : Type} `{Countable C} `{!HotStore C P A K S}.
Context `{!HistoryRepository C P A K H, !HotStoreFactory C P A K S, !Oracle G}.
Context (cd : Codecs C P A K) (get : P -> A -> option A).
Context (empty_root_node_hash : Blake2b256Hash).

Abbreviation wc := (WaitingContinuation P K).
Abbreviation datum := (Datum A).
Abbreviation candidate := (ConsumeCandidate C A).
Abbreviation space := (RSpace C P K H S G).
Abbreviation consume_result := (MaybeConsumeResult (C:=C) (P:=P) (A:=A) (K:=K)).
Abbreviation produce_result := (MaybeProduceResult (C:=C) (P:=P) (A:=A) (K:=K)).

(** The calls on [trait RSpaceLogger] *)
Inductive LogCall :=
| LogComm (data_candidates : list candidate) (channels : list C) (w : wc) (comm : COMM)
    (label : string)
| LogConsume (consume_ref : Consume) (channels : list C) (patterns : list P) (continuation : K)
    (persist : bool) (peeks : i32_set)
| LogProduce (produce_ref : Produce) (channel : C) (a : A) (persist : bool).

(** [struct ReplayRSpace] *)
Record ReplayRSpace := mkReplay {
  rp_space : space;
  replay_data : ReplayData;
  logger : list LogCall;
  waiting_continuations_estimate : Z;
}.
Definition set_space (s : space) (r : ReplayRSpace) : ReplayRSpace :=
  mkReplay s (replay_data r) (logger r) (waiting_continuations_estimate r).
Definition set_replay_data (m : ReplayData) (r : ReplayRSpace) : ReplayRSpace :=
  mkReplay (rp_space r) m (logger r) (waiting_continuations_estimate r).
Definition set_estimate (n : Z) (r : ReplayRSpace) : ReplayRSpace :=
  mkReplay (rp_space r) (replay_data r) (logger r) n.
Definition log_call (c : LogCall) : ST ReplayRSpace unit :=
  modify (fun r => mkReplay (rp_space r) (replay_data r) (c :: logger r)
                     (waiting_continuations_estimate r)).
Definition on_space {X} (m : ST space X) : ST ReplayRSpace X := fun r =>
  let '(x, s) := m (rp_space r) in (x, set_space s r).

(** [ReplayRSpace::apply] *)
Definition replay_apply (h : H) (s : S) (g : G) : ReplayRSpace :=
  mkReplay (rspace_apply h s g) ∅ [] 0.

(** ** Counters *)

(** [fn inc_replay_waiting_continuations]; the length of the row is only measured *)
Definition inc_waiting (channels : list C) : ST ReplayRSpace unit :=
  _ ← modify (fun r => set_estimate (wrap_i64 (waiting_continuations_estimate r + 1)) r);
  _ ← on_space (on_store (get_continuations channels));
  mret tt.
(** [fn mark_replay_waiting_continuation_match], [fn dec_replay_waiting_continuations] *)
Definition mark_waiting_match : ST ReplayRSpace unit :=
  modify (fun r => let n := waiting_continuations_estimate r in
                   if decide (0 < n)%Z then set_estimate (n - 1) r else r).
(** [fn log_produce] *)
Definition replay_log_produce (produce_ref : Produce) (channel : C) (a : A) (persist : bool) :
  ST ReplayRSpace unit :=
  _ ← log_call (LogProduce produce_ref channel a persist);
  if persist then mret tt
  else on_space (modify (fun r =>
    let counter := produce_counter r in
    let current := default 0%Z (counter_get counter produce_ref) in
    set_counter (counter_insert counter produce_ref (wrap_i32 (current + 1))) r)).

(** [fn store_waiting_continuation] *)
Definition replay_store_waiting_continuation (channels : list C) (w : wc) :
  ST ReplayRSpace consume_result :=
  stored ← on_space (on_store (put_continuation channels w));
  _ ← (if default false stored then inc_waiting channels else mret tt);
  _ ← on_space (st_mapM (fun channel => on_store (put_join channel channels)) channels);
  mret None.

(** ** Matching against a COMM of the log *)

(** [fn was_repeated_enough_times], [fn matches] *)
Definition was_repeated_enough_times (counter : produce_counter_map) (comm : COMM) (d : datum) : bool :=
  if datum_persist d then true
  else bool_decide (default 0%Z (counter_get (comm_times_repeated comm) (datum_source d)) =
                    default 0%Z (counter_get counter (datum_source d))).
Definition matches (counter : produce_counter_map) (comm : COMM) (d : datum) : bool :=
  existsb (produce_eqb (datum_source d)) (comm_produces comm) &&
  was_repeated_enough_times counter comm d.
(** [.filter(|(d, i)| self.matches(comm.clone(), (d.clone(), *i)))] *)
Definition matching (counter : produce_counter_map) (comm : COMM) (l : indexed datum) :
  indexed datum := filter (fun di => matches counter comm di.1 = true) l.

(** [fn get_comm_or_candidate] *)
Fixpoint get_comm_or_candidate {X} (run_matcher : COMM -> ST space (option X)) (comms : list COMM) :
  ST space (res RSpaceError (option (COMM * X))) :=
  match comms with
  | [] => mret Panic
  | comm_ref :: rem =>
    found ← run_matcher comm_ref;
    match found, rem with
    | Some candidate, _ => mret (Ok (Some (comm_ref, candidate)))
    | None, [] => mret (Ok None)
    | None, _ => get_comm_or_candidate run_matcher rem
    end
  end.

(** [fn run_matcher_consume] *)
Fixpoint matching_data (counter : produce_counter_map) (comm : COMM) (channels : list C)
    (m : gmap C (indexed datum)) : ST space (gmap C (indexed datum)) :=
  match channels with
  | [] => mret m
  | c :: channels =>
    data ← on_store (get_data c);
    matching_data counter comm channels (<[c := matching counter comm (with_index data)]> m)
  end.
Definition run_matcher_consume (channels : list C) (patterns : list P) (comm : COMM) :
  ST space (option (list candidate)) :=
  counter ← gets produce_counter;
  channel_to_indexed_data ← matching_data counter comm channels ∅;
  mret (collect_option (extract_data_candidates get (zip channels patterns) channel_to_indexed_data)).

(** [fn run_matcher_produce], with [fn run_matcher_for_channels] *)
Definition matching_continuations (comm : COMM) (channels : list C) : ST space (indexed wc) :=
  continuations ← on_store (get_continuations channels);
  mret (filter (fun wi => comm_consume comm = wc_source wi.1) (with_index continuations)).
Definition matching_data_new (counter : produce_counter_map) (comm : COMM) (bat_channel : C)
    (d : datum) (c : C) : ST space (C * indexed datum) :=
  store_data ← on_store (get_data c);
  let result :=
    if decide (c = bat_channel) then (d, (-1)%Z) :: with_index store_data
    else with_index store_data in
  mret (c, matching counter comm result).
Fixpoint run_matcher_produce (bat_channel : C) (d : datum) (grouped_channels : list (list C))
    (comm : COMM) : ST space (option (ProduceCandidate C P A K)) :=
  match grouped_channels with
  | [] => mret None
  | channels :: rest =>
    match_candidates ← matching_continuations comm channels;
    counter ← gets produce_counter;
    fetched ← st_mapM (matching_data_new counter comm bat_channel d) channels;
    let channel_to_indexed_data :=
      foldl (fun m '(c, l) => <[c := l]> m) (∅ : gmap C (indexed datum)) fetched in
    match extract_first_match get channels match_candidates channel_to_indexed_data with
    | Some produce_candidate => mret (Some produce_candidate)
    | None => run_matcher_produce bat_channel d rest comm
    end
  end.

(** The COMMs that an event takes part in, in the order of the hash map *)
Definition comms_for (k : io_key) : ST ReplayRSpace (option (list COMM)) :=
  counter ← gets (fun r => replay_data r !! k);
  match counter with
  | None => mret None
  | Some counter =>
    comms ← on_space (permuted (map_to_list counter));
    mret (Some (fst <$> comms.*2))
  end.
(** [comms.contains(&comm_ref)] *)
Definition contains_comm (comms : list COMM) (comm_ref : COMM) : bool :=
  existsb (fun c => bool_decide (key_of c = key_of comm_ref)) comms.

(** ** Consume *)

Definition comm_performed (cands : list candidate) (channels : list C) (w : wc) (label : string) :
  ST ReplayRSpace COMM :=
  counter ← gets (fun r => produce_counter (rp_space r));
  let comm_ref := COMM_new cands (wc_source w) (wc_peeks w) (produce_counters counter) in
  _ ← log_call (LogComm cands channels w comm_ref label);
  mret comm_ref.

(** [fn locked_consume] *)
Definition replay_locked_consume (channels : list C) (patterns : list P) (continuation : K)
    (persist : bool) (peeks : i32_set) (consume_ref : Consume) :
  ST ReplayRSpace (res RSpaceError consume_result) :=
  _ ← log_call (LogConsume consume_ref channels patterns continuation persist peeks);
  let wk := mkWC patterns continuation persist peeks consume_ref in
  comms_option ← comms_for (KConsume consume_ref);
  match comms_option with
  | None => r ← replay_store_waiting_continuation channels wk; mret (Ok r)
  | Some comms_list =>
    found ← on_space (get_comm_or_candidate (run_matcher_consume channels patterns) comms_list);
    match found with
    | Ok None => r ← replay_store_waiting_continuation channels wk; mret (Ok r)
    | Ok (Some (_, data_candidates)) =>
      comm_ref ← comm_performed data_candidates channels wk "comm.consume";
      if contains_comm comms_list comm_ref then
        _ ← on_space (store_persistent_data data_candidates);
        _ ← modify (fun r => set_replay_data (remove_bindings (replay_data r) comm_ref) r);
        mret (Ok (wrap_result channels wk data_candidates))
      else mret Panic
    | Err e => mret (Err e)
    | Panic => mret Panic
    end
  end.

(** [fn consume] *)
Definition replay_consume (channels : list C) (patterns : list P) (continuation : K)
    (persist : bool) (peeks : i32_set) : ST ReplayRSpace (res RSpaceError consume_result) :=
  if decide (channels = []) then mret Panic
  else if decide (length channels <> length patterns) then mret Panic
  else
    let consume_ref := Consume_create cd channels patterns continuation persist in
    replay_locked_consume channels patterns continuation persist peeks consume_ref.

(** ** Produce *)

(** [fn handle_match] *)
Definition handle_match (pc : ProduceCandidate C P A K) (comms : list COMM) :
  ST ReplayRSpace (res RSpaceError consume_result) :=
  let channels := pc_channels pc in
  let continuation := pc_continuation pc in
  let data_candidates := pc_data_candidates pc in
  comm_ref ← comm_performed data_candidates channels continuation "comm.produce";
  if contains_comm comms comm_ref then
    _ ← (if wc_persist continuation then mret None
         else on_space (on_store (remove_continuation channels (pc_continuation_index pc))));
    _ ← mark_waiting_match;
    _ ← on_space (remove_matched_datum_and_join channels data_candidates);
    _ ← modify (fun r => set_replay_data (remove_bindings (replay_data r) comm_ref) r);
    mret (Ok (wrap_result channels continuation data_candidates))
  else mret Panic.

(** [fn locked_produce] *)
Definition replay_locked_produce (channel : C) (a : A) (persist : bool) (produce_ref : Produce) :
  ST ReplayRSpace (res RSpaceError produce_result) :=
  grouped_channels ← on_space (on_store (get_joins channel));
  _ ← replay_log_produce produce_ref channel a persist;
  comms_option ← comms_for (KProduce (p_hash produce_ref));
  match comms_option with
  | None => r ← on_space (store_data channel a persist produce_ref); mret (Ok r)
  | Some comms =>
    found ← on_space (get_comm_or_candidate
      (run_matcher_produce channel (mkDatum a persist produce_ref) grouped_channels) comms);
    match found with
    | Ok (Some (comm, pc)) =>
      consume_result <- handle_match pc comms ;?
      let p := List.find (fun p => bool_decide (p_hash p = p_hash produce_ref)) (comm_produces comm) in
      lift (Ok ((fun cr => (cr.1, cr.2, default produce_ref p)) <$> consume_result))
    | Ok None => r ← on_space (store_data channel a persist produce_ref); mret (Ok r)
    | Err e => mret (Err e)
    | Panic => mret Panic
    end
  end.

(** [fn produce]; [produce_lock] reads the joins first *)
Definition replay_produce (channel : C) (a : A) (persist : bool) :
  ST ReplayRSpace (res RSpaceError produce_result) :=
  let produce_ref := Produce_create cd channel a persist in
  _ ← on_space (on_store (get_joins channel));
  replay_locked_produce channel a persist produce_ref.

(** ** Installing *)

(** [fn fetch_channel_to_index_data] *)
Fixpoint fetch_indexed (channels : list C) (m : gmap C (indexed datum)) :
  ST space (gmap C (indexed datum)) :=
  match channels with
  | [] => mret m
  | c :: channels =>
    data ← on_store (get_data c);
    fetch_indexed channels (<[c := with_index data]> m)
  end.
(** [fn locked_install_internal] *)
Definition replay_locked_install (channels : list C) (patterns : list P) (continuation : K)
    (record_install : bool) : ST space (res RSpaceError (option (K * list A))) :=
  if decide (length channels <> length patterns)
  then mret (Err (BugFoundError "RUST ERROR: channels.length must equal patterns.length"))
  else
    let consume_ref := Consume_create cd channels patterns continuation true in
    channel_to_indexed_data ← fetch_indexed channels ∅;
    let options := collect_option
      (extract_data_candidates get (zip channels patterns) channel_to_indexed_data) in
    match options with
    | None =>
      _ ← (if record_install
           then modify (fun r => set_installs
                  (<[channels := mkInstall patterns continuation]> (installs r)) r)
           else mret tt);
      _ ← on_store (install_continuation channels
            (mkWC patterns continuation true ∅ consume_ref));
      _ ← st_mapM (fun channel => on_store (install_join channel channels)) channels;
      mret (Ok None)
    | Some _ =>
      mret (Err (BugFoundError "RUST ERROR: Installing can be done only on startup"))
    end.
(** [fn install] *)
Definition replay_install (channels : list C) (patterns : list P) (continuation : K) :
  ST ReplayRSpace (res RSpaceError (option (K * list A))) :=
  on_space (replay_locked_install channels patterns continuation true).
(** [fn restore_installs]: the [unwrap] of a failed install panics *)
Fixpoint replay_reinstall (l : list (list C * Install P K)) : ST space (res RSpaceError unit) :=
  match l with
  | [] => mret (Ok tt)
  | (channels, i) :: l =>
    r ← replay_locked_install channels (in_patterns i) (in_continuation i) true;
    match r with
    | Ok _ => replay_reinstall l
    | _ => mret Panic
    end
  end.
Definition replay_restore_installs : ST space (res RSpaceError unit) :=
  taken ← gets installs;
  _ ← modify (set_installs ∅);
  order ← permuted (map_to_list taken);
  replay_reinstall order.

(** ** Rigging, checkpoints and resets *)

(** [fn rig] *)
Definition rig (log : Log) : ST ReplayRSpace (res RSpaceError unit) :=
  _ ← modify (set_replay_data (rig_table log));
  mret (Ok tt).
(** [fn check_replay_data] *)
Definition check_replay_data : ST ReplayRSpace (res RSpaceError unit) :=
  m ← gets replay_data;
  mret (if decide (m = ∅) then Ok tt
        else Err (BugFoundError ("Unused COMM event: replayData multimap has " +:+
               pretty (size m) +:+ " elements left"))).
(** A reader of the repository, the new hot store and the installed continuations *)
Definition rebuild_store (root : Blake2b256Hash) : ST space (res RSpaceError unit) :=
  reader ← gets (fun r => get_history_reader root (history_repository r));
  match reader with
  | Ok history_reader =>
    _ ← create_new_hot_store history_reader;
    replay_restore_installs
  | Err e => mret (Err (RSpaceHistoryError e))
  | Panic => mret Panic
  end.
(** [fn create_checkpoint] *)
Definition replay_create_checkpoint : ST ReplayRSpace (res RSpaceError Checkpoint) :=
  _ <- check_replay_data ;?
  _ <- on_space (
    actions ← gets (fun r => changes (store r));
    actions ← permuted actions;
    next ← gets (fun r => repo_checkpoint actions (history_repository r));
    match next with
    | Ok next_history =>
      _ ← modify (set_repo next_history);
      root ← gets (fun r => repo_root (history_repository r));
      rebuild_store root
    | Err e => mret (Err (RSpaceHistoryError e))
    | Panic => mret Panic
    end) ;?
  root ← gets (fun r => repo_root (history_repository (rp_space r)));
  mret (Ok (mkCheckpoint root [])).
(** [fn reset] *)
Definition replay_reset (root : Blake2b256Hash) : ST ReplayRSpace (res RSpaceError unit) :=
  _ <- on_space (
    next ← on_repo (repo_reset root);
    match next with
    | Ok next_history =>
      _ ← modify (set_repo next_history);
      _ ← modify (set_log []);
      _ ← modify (set_counter ∅);
      rebuild_store root
    | Err e => mret (Err (RSpaceHistoryError e))
    | Panic => mret Panic
    end) ;?
  _ ← modify (set_estimate 0);
  mret (Ok tt).
(** [fn rig_and_reset], [fn clear] *)
Definition rig_and_reset (start_root : Blake2b256Hash) (log : Log) :
  ST ReplayRSpace (res RSpaceError unit) :=
  _ <- rig log ;? replay_reset start_root.
Definition replay_clear : ST ReplayRSpace (res RSpaceError unit) :=
  _ ← modify (set_replay_data ∅);
  replay_reset empty_root_node_hash.
(** [fn create_soft_checkpoint], [fn take_event_log], [fn revert_to_soft_checkpoint],
    [fn update_produce]: as in [RSpace] *)
Definition replay_create_soft_checkpoint : ST ReplayRSpace (SoftCheckpoint C P A K) :=
  on_space create_soft_checkpoint.
Definition replay_take_event_log : ST ReplayRSpace Log := on_space take_event_log.
Definition replay_revert (cp : SoftCheckpoint C P A K) : ST ReplayRSpace (res RSpaceError unit) :=
  on_space (revert_to_soft_checkpoint cp).
Definition replay_update_produce (produce_ref : Produce) : ST ReplayRSpace unit :=
  on_space (update_produce produce_ref).
(** [fn spawn] *)
Definition replay_spawn (r : ReplayRSpace) : res RSpaceError ReplayRSpace :=
  let h := history_repository (rp_space r) in
  match (repo_reset (repo_root h) h).1 with
  | Ok next_history =>
    match get_history_reader (repo_root next_history) next_history with
    | Ok reader =>
      let fresh := replay_apply next_history (new_hot_store empty_state reader) (oracle (rp_space r)) in
      match on_space replay_restore_installs fresh with
      | (Ok _, fresh) => Ok fresh
      | (Err e, _) => Err e
      | (Panic, _) => Panic
      end
    | Err e => Err (RSpaceHistoryError e)
    | Panic => Panic
    end
  | Err e => Err (RSpaceHistoryError e)
  | Panic => Panic
  end.
End replay.
Arguments ReplayRSpace C P A K H S G {_ _}.
Arguments LogCall C P A K : clear implicits.
