(* ===== verification/ReplayTable.v ===== *)
(** * The COMMs that are left to replay

    The table of [ReplayRSpace.v] holds each COMM that is left once for every event of the
    log that takes part in it; running a COMM takes it from the table exactly once. *)
From stdpp Require Import gmultiset.
From S2P Require Import Prelude Events HotStoreSig SpaceMatcher RSpace ReplayRSpace.

(** ** Counting *)

Definition bindings (m : ReplayData) (k : io_key) (c : comm_key) : nat :=
  match m !! k ≫= (.!! c) with Some (_, n) => n | None => 0 end.
(** The keys of the events of a COMM *)
Definition parts (c : comm_key) : list io_key :=
  let '(consume, produces, _, _) := c in KConsume consume :: (KProduce <$> produces).
Definition occurrences (k : io_key) (l : list io_key) : nat := length (filter (k =.) l).
(** Counters hold positive counts, and no counter is empty. *)
Definition table_ok (m : ReplayData) : Prop :=
  forall k ct, m !! k = Some ct -> ct <> ∅ /\
    forall c comm n, ct !! c = Some (comm, n) -> key_of comm = c /\ 0 < n.

Lemma comm_events_parts comm : io_key_of <$> comm_events comm = parts (key_of comm).
Proof. unfold comm_events, key_of, parts. csimpl. f_equal. by rewrite <- !list_fmap_compose. Qed.

Lemma table_ok_empty : table_ok ∅.
Proof. intros k ct. by rewrite lookup_empty. Qed.

Lemma table_ok_nonempty m k ct : table_ok m -> m !! k = Some ct -> exists c, 0 < bindings m k c.
Proof.
  intros Hm Hk. destruct (Hm k ct Hk) as [Hne Hct].
  destruct (map_choose ct Hne) as (c & [comm n] & Hc). exists c. unfold bindings.
  rewrite Hk. simpl. rewrite Hc. by apply (Hct c comm n).
Qed.

Lemma table_empty_iff m : table_ok m -> m = ∅ <-> forall k c, bindings m k c = 0.
Proof.
  intros Hm. split; [intros -> k c; unfold bindings; by rewrite lookup_empty|].
  intros Hz. apply map_eq. intros k. rewrite lookup_empty. destruct (m !! k) as [ct|] eqn:Hk; [|done].
  destruct (table_ok_nonempty m k ct Hm Hk) as [c Hc]. rewrite Hz in Hc. lia.
Qed.

Lemma insert_table_ok m k ct :
  table_ok m -> ct <> ∅ -> (forall c comm n, ct !! c = Some (comm, n) -> key_of comm = c /\ 0 < n) ->
  table_ok (<[k := ct]> m).
Proof.
  intros Hm Hne Hct k' ct'. rewrite lookup_insert_Some. intros [[<- <-]|[_ Hk']]; [done|].
  by apply (Hm k').
Qed.

Lemma add_comm_ok m k comm : table_ok m -> table_ok (add_comm m k comm).
Proof.
  intros Hm. unfold add_comm. destruct (m !! k) as [ct|] eqn:Hk.
  - destruct (Hm k ct Hk) as [Hne Hct].
    destruct (ct !! key_of comm) as [[c0 n0]|] eqn:Hc; apply insert_table_ok;
      try done; try apply insert_non_empty; intros c comm' n [[<- [= <- <-]]|[_ ?]]%lookup_insert_Some;
      [|by eapply Hct| |by eapply Hct].
    + split; [by apply (Hct _ _ _ Hc)|lia].
    + split; [done|lia].
  - apply insert_table_ok; [done|apply map_non_empty_singleton|].
    intros c comm' n [<- [= <- <-]]%lookup_singleton_Some. split; [done|lia].
Qed.

Lemma bindings_insert m k ct k' c :
  bindings (<[k := ct]> m) k' c =
  if decide (k = k') then match ct !! c with Some (_, n) => n | None => 0 end else bindings m k' c.
Proof.
  unfold bindings. case_decide as E; [subst|]; [by rewrite lookup_insert_eq|].
  by rewrite lookup_insert_ne.
Qed.

Lemma bindings_add m k comm k' c :
  bindings (add_comm m k comm) k' c =
  bindings m k' c + if decide (k = k' /\ key_of comm = c) then 1 else 0.
Proof.
  unfold add_comm. destruct (m !! k) as [ct|] eqn:Hk;
    [destruct (ct !! key_of comm) as [[c0 n0]|] eqn:Hc|]; rewrite bindings_insert;
    (destruct (decide (k = k')) as [<-|Hne]; [|rewrite decide_False by tauto; lia]);
    (destruct (decide (key_of comm = c)) as [<-|Hnc];
      [rewrite decide_True by done|rewrite decide_False by tauto]);
    unfold bindings; rewrite Hk; simpl;
    rewrite ?lookup_insert_eq, ?lookup_singleton_eq, ?lookup_insert_ne, ?lookup_singleton_ne, ?Hc by done;
    simpl; lia.
Qed.

Lemma remove_comm_ok m k comm : table_ok m -> table_ok (remove_comm m k comm).
Proof.
  intros Hm. unfold remove_comm. destruct (m !! k) as [ct|] eqn:Hk; [|done].
  destruct (Hm k ct Hk) as [Hne Hct]. case_decide as Hem.
  - intros k' ct' [_ Hk']%lookup_delete_Some. by apply (Hm k').
  - apply insert_table_ok; [done..|]. clear Hem. intros c comm' n.
    destruct (ct !! key_of comm) as [[c0 n0]|] eqn:Hc; [|by apply Hct].
    case_decide.
    + intros [[<- [= <- <-]]|[_ ?]]%lookup_insert_Some; [|by apply Hct].
      split; [by apply (Hct _ _ _ Hc)|lia].
    + intros [_ ?]%lookup_delete_Some. by apply Hct.
Qed.

Lemma bindings_remove m k comm k' c :
  table_ok m -> bindings (remove_comm m k comm) k' c =
  bindings m k' c - if decide (k = k' /\ key_of comm = c) then 1 else 0.
Proof.
  intros Hm. unfold remove_comm. destruct (m !! k) as [ct|] eqn:Hk.
  2:{ destruct (decide (k = k')) as [<-|]; [|rewrite decide_False by tauto; lia].
      unfold bindings. rewrite Hk. simpl. lia. }
  match goal with |- context [decide (?x = ∅)] => set (ct' := x) end.
  assert (bindings (<[k := ct']> m) k' c =
    bindings m k' c - if decide (k = k' /\ key_of comm = c) then 1 else 0) as Hb.
  { rewrite bindings_insert. destruct (decide (k = k')) as [<-|]; [|rewrite decide_False by tauto; lia].
    unfold bindings. rewrite Hk. simpl. subst ct'.
    destruct (ct !! key_of comm) as [[c0 n0]|] eqn:Hc.
    - destruct (Hm k ct Hk) as [_ Hct]. destruct (Hct _ _ _ Hc) as [_ Hpos].
      destruct (decide (key_of comm = c)) as [<-|Hnc].
      + rewrite (decide_True (P:=_ /\ _)) by done. rewrite Hc. case_decide.
        * by rewrite lookup_insert_eq.
        * rewrite lookup_delete_eq. lia.
      + rewrite (decide_False (P:=_ /\ _)) by tauto.
        rewrite Nat.sub_0_r. case_decide; by rewrite ?lookup_insert_ne, ?lookup_delete_ne by done.
    - case_decide as E; [destruct E as [_ <-]; rewrite Hc|]; lia. }
  destruct (decide (ct' = ∅)) as [Hem|]; [|done]. rewrite <-Hb, bindings_insert. unfold bindings.
  destruct (decide (k = k')) as [<-|]; [by rewrite lookup_delete_eq, Hem, lookup_empty|].
  by rewrite lookup_delete_ne.
Qed.

Lemma occurrences_cons k k0 l :
  occurrences k (k0 :: l) = (if decide (k = k0) then 1 else 0) + occurrences k l.
Proof. unfold occurrences. rewrite filter_cons. by case_decide. Qed.

Lemma occurrences_pos k l : 0 < occurrences k l <-> k ∈ l.
Proof.
  induction l as [|k0 l IH].
  - unfold occurrences. rewrite filter_nil. simpl. split; [lia|by intros ?%elem_of_nil].
  - rewrite occurrences_cons, elem_of_cons, <-IH. case_decide; subst; split; intros; try tauto; try lia.
Qed.

(** ** Binding and removing a COMM *)

Lemma bind_comm_fold (new : gset io_key) l m comm :
  table_ok m ->
  let m' := foldl (fun m io => if decide (io_key_of io ∈ new) then add_comm m (io_key_of io) comm else m) m l in
  table_ok m' /\ forall k c, bindings m' k c = bindings m k c +
    if decide (key_of comm = c /\ k ∈ new) then occurrences k (io_key_of <$> l) else 0.
Proof.
  revert m. induction l as [|io l IH]; intros m Hm; simpl.
  { split; [done|]. intros k c. case_decide; unfold occurrences; rewrite ?filter_nil; simpl; lia. }
  destruct (decide (io_key_of io ∈ new)) as [Hin|Hnin].
  - destruct (IH _ (add_comm_ok m (io_key_of io) comm Hm)) as [Hok Hb]. split; [done|].
    intros k c. rewrite Hb, bindings_add. rewrite occurrences_cons.
    repeat case_decide; subst; try tauto; try lia; naive_solver lia.
  - destruct (IH _ Hm) as [Hok Hb]. split; [done|]. intros k c. rewrite Hb, occurrences_cons.
    repeat case_decide; subst; try tauto; try lia; naive_solver lia.
Qed.

Lemma remove_bindings_fold l m comm :
  table_ok m ->
  let m' := foldl (fun m io => remove_comm m (io_key_of io) comm) m l in
  table_ok m' /\ forall k c, bindings m' k c = bindings m k c -
    if decide (key_of comm = c) then occurrences k (io_key_of <$> l) else 0.
Proof.
  revert m. induction l as [|io l IH]; intros m Hm; simpl.
  { split; [done|]. intros k c. case_decide; unfold occurrences; rewrite ?filter_nil; simpl; lia. }
  destruct (IH _ (remove_comm_ok m (io_key_of io) comm Hm)) as [Hok Hb]. split; [done|].
  intros k c. rewrite Hb, bindings_remove by done. rewrite occurrences_cons.
  repeat case_decide; subst; try tauto; try lia; naive_solver lia.
Qed.

(** ** The COMMs that are left

    [table_of new left m]: the table [m] holds the COMMs [left], under those of their events
    that are in [new]. *)
Record table_of (new : gset io_key) (left : gmultiset comm_key) (m : ReplayData) : Prop := {
  to_ok : table_ok m;
  to_bindings : forall k c, bindings m k c =
    if decide (k ∈ new) then occurrences k (parts c) * multiplicity c left else 0;
}.
(** A COMM takes part in the replay if one of its events is in the log. *)
Definition takes_part (new : gset io_key) (c : comm_key) : bool :=
  existsb (fun k => bool_decide (k ∈ new)) (parts c).

Lemma takes_part_spec (new : gset io_key) c : takes_part new c = true <-> exists k, k ∈ parts c /\ k ∈ new.
Proof.
  unfold takes_part. rewrite existsb_exists. setoid_rewrite bool_decide_eq_true.
  by setoid_rewrite <-list_elem_of_In.
Qed.

Lemma bind_comm_of new left m comm :
  table_of new left m -> table_of new ({[+ key_of comm +]} ⊎ left) (bind_comm new m comm).
Proof.
  intros [Hok Hb]. destruct (bind_comm_fold new (comm_events comm) m comm Hok) as [Hok' Hb'].
  split; [exact Hok'|]. intros k c. unfold bind_comm. rewrite Hb', Hb, comm_events_parts.
  rewrite multiplicity_disj_union.
  destruct (decide (key_of comm = c)) as [<-|Hne].
  - rewrite multiplicity_singleton. repeat case_decide; try tauto; lia.
  - rewrite multiplicity_singleton_ne by done. repeat case_decide; try tauto; lia.
Qed.

Lemma rig_table_of log :
  table_of (io_events log) (list_to_set_disj (key_of <$> comms_of log)) (rig_table log).
Proof.
  unfold rig_table. generalize (io_events log). intros new.
  enough (forall l left m, table_of new left m ->
    table_of new (list_to_set_disj (key_of <$> l) ⊎ left) (foldl (bind_comm new) m l)) as Hg.
  { specialize (Hg (comms_of log) ∅ ∅). rewrite (right_id_L ∅ (⊎)) in Hg. apply Hg.
    split; [apply table_ok_empty|]. intros k c. unfold bindings.
    rewrite lookup_empty, multiplicity_empty. simpl. case_decide; lia. }
  induction l as [|comm l IH]; intros left m Hm; csimpl.
  { by rewrite (left_id_L ∅ (⊎)). }
  replace ({[+ key_of comm +]} ⊎ list_to_set_disj (key_of <$> l) ⊎ left)
    with (list_to_set_disj (key_of <$> l) ⊎ ({[+ key_of comm +]} ⊎ left)) by multiset_solver.
  by apply IH, bind_comm_of.
Qed.

Lemma remove_bindings_of new left m comm k :
  table_of new left m -> 0 < bindings m k (key_of comm) ->
  key_of comm ∈ left /\ takes_part new (key_of comm) = true /\
  table_of new (left ∖ {[+ key_of comm +]}) (remove_bindings m comm).
Proof.
  intros [Hok Hb] Hpos. rewrite Hb in Hpos. case_decide as Hk; [|lia].
  assert (0 < occurrences k (parts (key_of comm)) /\ 0 < multiplicity (key_of comm) left) as [Ho Hl] by nia.
  split; [by apply elem_of_multiplicity|]. split.
  { apply takes_part_spec. exists k. split; [by apply occurrences_pos|done]. }
  destruct (remove_bindings_fold (comm_events comm) m comm Hok) as [Hok' Hb'].
  split; [exact Hok'|]. intros k' c. unfold remove_bindings. rewrite Hb', Hb, comm_events_parts.
  rewrite multiplicity_difference. destruct (decide (key_of comm = c)) as [<-|Hne].
  - rewrite multiplicity_singleton, (decide_True (P:=key_of comm = key_of comm)) by done.
    case_decide; [|lia]. rewrite Nat.mul_sub_distr_l. lia.
  - rewrite multiplicity_singleton_ne by done. case_decide; lia.
Qed.

(** The table is empty when no COMM that takes part is left. *)
Lemma table_of_empty new left m :
  table_of new left m -> m = ∅ <-> forall c, c ∈ left -> takes_part new c = false.
Proof.
  intros [Hok Hb]. rewrite (table_empty_iff m Hok). setoid_rewrite Hb. split.
  - intros Hz c Hc. apply not_true_iff_false. intros (k & Hk & Hnew)%takes_part_spec.
    specialize (Hz k c). rewrite decide_True in Hz by done. rewrite elem_of_multiplicity in Hc.
    apply occurrences_pos in Hk. apply Nat.eq_mul_0 in Hz as [|]; lia.
  - intros Hnone k c. case_decide as Hk; [|done].
    destruct (decide (c ∈ left)) as [Hc|Hc].
    + destruct (occurrences k (parts c)) as [|n] eqn:Ho; [done|].
      assert (takes_part new c = true) as Ht; [|rewrite Hnone in Ht by done; done].
      apply takes_part_spec. exists k. split; [apply occurrences_pos; lia|done].
    + apply not_elem_of_multiplicity in Hc as ->. lia.
Qed.
