(* ===== verification/ReplayThms.v ===== *)
(** * A replay runs the COMMs of its log

    Whatever the operations and whatever the log the space was rigged with: as long as no
    operation panics, the COMMs that ran are COMMs of the log, each at most as often as the
    log has it, and [check_replay_data] succeeds exactly when all of them ran. *)
From stdpp Require Import gmultiset.
From S2P Require Import Prelude Events HotStoreSig SpaceMatcher RSpace ReplayRSpace ReplayTable.

(** ** Sequences of operations *)
Section ops.
Context {C P A K : Type}.

Inductive SpaceOp :=
| SConsume (channels : list C) (patterns : list P) (continuation : K) (persist : bool)
    (peeks : i32_set)
| SProduce (channel : C) (a : A) (persist : bool).
Definition OpResult : Type :=
  MaybeConsumeResult (C:=C) (P:=P) (A:=A) (K:=K) + MaybeProduceResult (C:=C) (P:=P) (A:=A) (K:=K).

(** The operations one after the other, until one fails *)
Fixpoint run_ops {St E} (op : SpaceOp -> ST St (res E OpResult)) (l : list SpaceOp) :
  ST St (res E (list OpResult)) :=
  match l with
  | [] => lift (Ok [])
  | o :: l => x <- op o ;? xs <- run_ops op l ;? lift (Ok (x :: xs))
  end.
End ops.
Arguments SpaceOp C P A K : clear implicits.
Arguments OpResult C P A K : clear implicits.

Section thms.
Context {C P A K H S G : Type} `{Countable C} `{!HotStore C P A K S}.
Context `{!HistoryRepository C P A K H, !HotStoreFactory C P A K S, !Oracle G}.
Context (cd : Codecs C P A K) (get : P -> A -> option A).

Abbreviation space := (RSpace C P K H S G).
Abbreviation replay := (ReplayRSpace C P A K H S G).
Abbreviation wc := (WaitingContinuation P K).

Definition play_op (o : SpaceOp C P A K) : ST space (res RSpaceError (OpResult C P A K)) :=
  match o with
  | SConsume channels patterns k persist peeks =>
    x <- consume cd get channels patterns k persist peeks ;? lift (Ok (inl x))
  | SProduce channel a persist => x <- produce cd get channel a persist ;? lift (Ok (inr x))
  end.
Definition replay_op (o : SpaceOp C P A K) : ST replay (res RSpaceError (OpResult C P A K)) :=
  match o with
  | SConsume channels patterns k persist peeks =>
    x <- replay_consume cd get channels patterns k persist peeks ;? lift (Ok (inl x))
  | SProduce channel a persist =>
    x <- replay_produce cd get channel a persist ;? lift (Ok (inr x))
  end.

(** The COMMs that the space has run, latest first *)
Definition call_comm (c : LogCall C P A K) : option COMM :=
  match c with LogComm _ _ _ comm _ => Some comm | _ => None end.
Definition performed (r : replay) : list COMM := omap call_comm (logger r).
(** The COMMs of a log that one of its events takes part in *)
Definition comms_to_run (log : Log) : list comm_key :=
  filter (fun c => takes_part (io_events log) c = true) (key_of <$> comms_of log).

(** ** What an operation does to the table *)

(** Nothing, or it runs one COMM that the table has for some event. *)
Definition comm_step (r r' : replay) : Prop :=
  (logger r' = logger r /\ replay_data r' = replay_data r) \/
  exists comm k call, call_comm call = Some comm /\ logger r' = call :: logger r /\
    0 < bindings (replay_data r) k (key_of comm) /\
    replay_data r' = remove_bindings (replay_data r) comm.
(** The call with which an operation begins *)
Definition op_call (o : SpaceOp C P A K) : LogCall C P A K :=
  match o with
  | SConsume channels patterns k persist peeks =>
    LogConsume (Consume_create cd channels patterns k persist) channels patterns k persist peeks
  | SProduce channel a persist => LogProduce (Produce_create cd channel a persist) channel a persist
  end.
Definition op_step (o : SpaceOp C P A K) (r r' : replay) : Prop :=
  exists r1, logger r1 = op_call o :: logger r /\ replay_data r1 = replay_data r /\ comm_step r1 r'.

(** [m] leaves the table and the calls on the logger alone. *)
Definition quiet {X} (m : ST replay X) : Prop :=
  forall r, logger (m r).2 = logger r /\ replay_data (m r).2 = replay_data r.

Lemma quiet_ret {X} (x : X) : quiet (mret x).
Proof. done. Qed.
Lemma quiet_bind {X Y} (m : ST replay X) (f : X -> ST replay Y) :
  quiet m -> (forall x, quiet (f x)) -> quiet (m ≫= f).
Proof.
  intros Hm Hf r. unfold mbind, st_bind. specialize (Hm r). destruct (m r) as [x r1]. simpl in *.
  destruct (Hf x r1) as [-> ->]. done.
Qed.
Lemma quiet_on_space {X} (m : ST space X) : quiet (on_space m).
Proof. intros r. unfold on_space. by destruct (m (rp_space r)). Qed.
Lemma quiet_estimate (f : replay -> replay) :
  (forall r, logger (f r) = logger r /\ replay_data (f r) = replay_data r) -> quiet (modify f).
Proof. intros Hf r. apply Hf. Qed.
Lemma quiet_store_waiting channels w : quiet (replay_store_waiting_continuation channels w).
Proof.
  apply quiet_bind; [apply quiet_on_space|]. intros x.
  apply quiet_bind; [destruct (default false x)|].
  - apply quiet_bind; [by apply quiet_estimate|]. intros _.
    apply quiet_bind; [apply quiet_on_space|]. intros _. apply quiet_ret.
  - apply quiet_ret.
  - intros _. apply quiet_bind; [apply quiet_on_space|]. intros _. apply quiet_ret.
Qed.
Lemma quiet_mark : quiet mark_waiting_match.
Proof. apply quiet_estimate. intros r. cbv zeta. by case_decide. Qed.

Lemma comms_for_spec k (r : replay) :
  replay_data (comms_for k r).2 = replay_data r /\ logger (comms_for k r).2 = logger r /\
  forall comms, (comms_for k r).1 = Some comms ->
    exists ct, replay_data r !! k = Some ct /\ comms ≡ₚ fst <$> (map_to_list ct).*2.
Proof.
  unfold comms_for, gets, mbind, st_bind. destruct (replay_data r !! k) as [ct|]; [|done].
  unfold on_space, permuted. pose proof (permute_perm _ (map_to_list ct) (oracle (rp_space r))) as Hp.
  destruct (permute (map_to_list ct) (oracle (rp_space r))) as [l g]. simpl in *.
  split_and!; try done. intros ? [= <-]. exists ct. by rewrite Hp.
Qed.

Lemma contains_comm_bound m k (ct : Counter) comms comm :
  table_ok m -> m !! k = Some ct -> comms ≡ₚ fst <$> (map_to_list ct).*2 ->
  contains_comm comms comm = true <-> 0 < bindings m k (key_of comm).
Proof.
  intros Hm Hk Hp. destruct (Hm k ct Hk) as [_ Hct]. unfold contains_comm, bindings. rewrite Hk.
  rewrite existsb_exists. setoid_rewrite <-list_elem_of_In. setoid_rewrite Hp.
  setoid_rewrite bool_decide_eq_true. simpl. split.
  - intros (c & Hc & Hkey). apply list_elem_of_fmap in Hc as ([c' n] & -> & Hc).
    apply list_elem_of_fmap in Hc as ([key [c'' n']] & [= -> ->] & Hc%elem_of_map_to_list).
    destruct (Hct _ _ _ Hc) as [Hkc Hpos]. simpl in Hkey. by rewrite <-Hkey, Hkc, Hc.
  - destruct (ct !! key_of comm) as [[c n]|] eqn:Hc; [|lia]. intros Hpos. exists c.
    split; [|by apply (Hct _ _ _ Hc)]. apply list_elem_of_fmap. exists (c, n). split; [done|].
    apply list_elem_of_fmap. exists (key_of comm, (c, n)). split; [done|].
    by apply elem_of_map_to_list.
Qed.

(** [m] takes [comm] from the table. *)
Definition takes {X} (comm : COMM) (m : ST replay (res RSpaceError X)) : Prop :=
  forall r x r', m r = (Ok x, r') ->
    logger r' = logger r /\ replay_data r' = remove_bindings (replay_data r) comm.

Lemma takes_bind {X Y} comm (m : ST replay X) (f : X -> ST replay (res RSpaceError Y)) :
  quiet m -> (forall x, takes comm (f x)) -> takes comm (m ≫= f).
Proof.
  intros Hm Hf r x r'. unfold mbind, st_bind. specialize (Hm r). destruct (m r) as [y r1].
  simpl in *. intros Hr. destruct (Hf y r1 x r' Hr) as [-> ->]. by destruct Hm as [-> ->].
Qed.

Lemma takes_remove {X} comm (x : X) :
  takes comm (_ ← modify (fun r => set_replay_data (remove_bindings (replay_data r) comm) r);
              mret (Ok x)).
Proof. by intros r x' r' [= _ <-]. Qed.

(** One of [comms] runs. *)
Definition runs_one (comms : list COMM) (r r' : replay) : Prop :=
  exists comm call, contains_comm comms comm = true /\ call_comm call = Some comm /\
    logger r' = call :: logger r /\ replay_data r' = remove_bindings (replay_data r) comm.

Lemma runs_one_from comms r r1 r' :
  logger r1 = logger r -> replay_data r1 = replay_data r -> runs_one comms r1 r' -> runs_one comms r r'.
Proof. intros Hl Hd (comm & call & ?). exists comm, call. by rewrite <-Hl, <-Hd. Qed.

Lemma comm_run {X} cands channels (w : wc) label comms
    (f : COMM -> ST replay (res RSpaceError X)) r x' r' :
  (forall comm, takes comm (f comm)) ->
  (comm_ref ← comm_performed cands channels w label;
   if contains_comm comms comm_ref then f comm_ref else mret Panic) r = (Ok x', r') ->
  runs_one comms r r'.
Proof.
  intros Hf. unfold comm_performed, gets, log_call, modify, mbind, st_bind. simpl.
  set (comm := COMM_new _ _ _ _). set (r1 := mkReplay _ _ _ _).
  destruct (contains_comm comms comm) eqn:Hin; [|done].
  intros Hr. destruct (Hf comm r1 _ _ Hr) as [Hl Hd].
  exists comm, (LogComm cands channels w comm label). done.
Qed.

(** A branch on the COMMs of an event either is quiet or runs one of them. *)
Lemma comms_for_step {X} k (stored : ST replay X) (run : list COMM -> ST replay (res RSpaceError X))
    (r : replay) x r' :
  table_ok (replay_data r) -> quiet stored ->
  (forall comms r x r', run comms r = (Ok x, r') ->
     (logger r' = logger r /\ replay_data r' = replay_data r) \/ runs_one comms r r') ->
  (comms_option ← comms_for k;
   match comms_option with
   | None => y ← stored; mret (Ok y)
   | Some comms => run comms
   end) r = (Ok x, r') -> comm_step r r'.
Proof.
  intros Hok Hq Hrun. destruct (comms_for_spec k r) as (Hd & Hp & Hc).
  unfold mbind at 1, st_bind at 1. destruct (comms_for k r) as [[comms|] r1]; simpl in *.
  - intros Hr. destruct (Hc comms eq_refl) as (ct & Hk & Hperm).
    apply Hrun in Hr as [[Hp' Hd']|(comm & call & Hin & Hcall & Hp' & Hd')].
    + left. split; congruence.
    + right. exists comm, k, call. split_and!; [done|congruence| |congruence].
      by apply (contains_comm_bound _ _ _ _ comm Hok Hk Hperm).
  - unfold mbind, st_bind. specialize (Hq r1). destruct (stored r1) as [y r2]. simpl in *.
    intros [= _ <-]. left. destruct Hq. split; congruence.
Qed.

Lemma quiet_Ok {X} (m : ST replay X) r x r' :
  quiet m -> (y ← m; mret (Ok (E:=RSpaceError) y)) r = (Ok x, r') ->
  logger r' = logger r /\ replay_data r' = replay_data r.
Proof.
  intros Hm. specialize (Hm r). unfold mbind, st_bind. destruct (m r) as [y r1].
  by intros [= _ <-].
Qed.

Lemma replay_consume_step channels patterns k persist peeks r x r' :
  table_ok (replay_data r) ->
  replay_consume cd get channels patterns k persist peeks r = (Ok x, r') ->
  op_step (SConsume channels patterns k persist peeks) r r'.
Proof.
  intros Hok. unfold replay_consume. case_decide; [done|]. case_decide; [done|].
  unfold replay_locked_consume. unfold mbind at 1, st_bind at 1.
  unfold log_call, modify at 1. set (r1 := mkReplay (rp_space r) _ _ _). intros Hr.
  exists r1. split_and!; [done..|]. eapply comms_for_step in Hr; [done|done|apply quiet_store_waiting|].
  clear. intros comms r x r'. unfold mbind at 1, st_bind at 1.
  destruct (quiet_on_space (get_comm_or_candidate (run_matcher_consume get channels patterns) comms) r)
    as [Hp Hd].
  destruct (on_space _ r) as [[[[c cands]|]|e|] r1]; simpl in Hp, Hd; try done.
  - intros Hr. right. apply (runs_one_from _ _ r1); [done..|]. eapply comm_run; [|exact Hr].
    intros comm. apply takes_bind; [apply quiet_on_space|]. intros _. apply takes_remove.
  - intros [? ?]%quiet_Ok; [|apply quiet_store_waiting]. left. split; congruence.
Qed.

Lemma handle_match_runs pc comms r x r' :
  handle_match pc comms r = (Ok x, r') -> runs_one comms r r'.
Proof.
  apply comm_run. intros comm. apply takes_bind.
  { destruct (wc_persist _); [apply quiet_ret|apply quiet_on_space]. }
  intros _. apply takes_bind; [apply quiet_mark|]. intros _.
  apply takes_bind; [apply quiet_on_space|]. intros _. apply takes_remove.
Qed.

Lemma replay_log_produce_spec pref channel a persist (r : replay) :
  let r' := (replay_log_produce pref channel a persist r).2 in
  logger r' = LogProduce pref channel a persist :: logger r /\ replay_data r' = replay_data r.
Proof. unfold replay_log_produce, log_call, modify, mbind, st_bind. by destruct persist. Qed.

Lemma replay_produce_step channel a persist r x r' :
  table_ok (replay_data r) ->
  replay_produce cd get channel a persist r = (Ok x, r') -> op_step (SProduce channel a persist) r r'.
Proof.
  intros Hok. unfold replay_produce, replay_locked_produce. set (pref := Produce_create _ _ _ _).
  unfold mbind at 1, st_bind at 1.
  destruct (quiet_on_space (on_store (get_joins channel)) r) as [Hp1 Hd1].
  destruct (on_space (on_store (get_joins channel)) r) as [js1 r1]. simpl in Hp1, Hd1.
  unfold mbind at 1, st_bind at 1.
  destruct (quiet_on_space (on_store (get_joins channel)) r1) as [Hp2 Hd2].
  destruct (on_space (on_store (get_joins channel)) r1) as [js r2]. simpl in Hp2, Hd2.
  unfold mbind at 1, st_bind at 1.
  destruct (replay_log_produce_spec pref channel a persist r2) as [Hp3 Hd3].
  destruct (replay_log_produce pref channel a persist r2) as [[] r3]. simpl in Hp3, Hd3. intros Hr.
  exists r3. split_and!; [by rewrite Hp3, Hp2, Hp1|congruence|].
  eapply comms_for_step in Hr; [done|by rewrite Hd3, Hd2, Hd1|apply quiet_on_space|].
  clear -get. intros comms r x r'. unfold mbind at 1, st_bind at 1.
  match goal with |- context [on_space ?m r] => destruct (quiet_on_space m r) as [Hp Hd] end.
  destruct (on_space _ r) as [[[[c pc]|]|e|] r1]; simpl in Hp, Hd; try done.
  - unfold try_bind, lift. destruct (handle_match pc comms r1) as [[cr|e|] r2] eqn:Hh; try done.
    intros [= _ <-]. right. apply (runs_one_from _ _ r1); [done..|]. by eapply handle_match_runs.
  - intros [? ?]%quiet_Ok; [|apply quiet_on_space]. left. split; congruence.
Qed.

Lemma replay_op_step o r x r' :
  table_ok (replay_data r) -> replay_op o r = (Ok x, r') -> op_step o r r'.
Proof.
  intros Hok. destruct o as [channels patterns k persist peeks|channel a persist]; simpl;
    unfold try_bind, lift.
  - destruct (replay_consume _ _ _ _ _ _ _ r) as [[y|e|] r1] eqn:Hr; try done.
    intros [= _ <-]. by eapply replay_consume_step.
  - destruct (replay_produce _ _ _ _ _ r) as [[y|e|] r1] eqn:Hr; try done.
    intros [= _ <-]. by eapply replay_produce_step.
Qed.

(** ** The replay of a whole log *)

(** The COMMs [ran] ran, out of [all]; [m] is the table. *)
Record progress (new : gset io_key) (all : gmultiset comm_key) (ran : list COMM) (m : ReplayData) : Prop := {
  pg_table : table_of new (all ∖ list_to_set_disj (key_of <$> ran)) m;
  pg_subset : list_to_set_disj (key_of <$> ran) ⊆ all;
  pg_part : forall c, c ∈ ran -> takes_part new (key_of c) = true;
}.

Lemma progress_rig log :
  progress (io_events log) (list_to_set_disj (key_of <$> comms_of log)) [] (rig_table log).
Proof.
  split; simpl; [|multiset_solver|by intros c ?%elem_of_nil].
  replace (list_to_set_disj (key_of <$> comms_of log) ∖ ∅)
    with (list_to_set_disj (key_of <$> comms_of log) : gmultiset comm_key) by multiset_solver.
  apply rig_table_of.
Qed.

(** An operation adds its own call and at most one COMM, which the table had. *)
Lemma op_step_progress new all ran o r r' :
  progress new all ran (replay_data r) -> op_step o r r' ->
  exists ran1 calls, omap call_comm calls = ran1 /\ logger r' = calls ++ op_call o :: logger r /\
    length calls <= 1 /\ Forall (fun c => is_Some (call_comm c)) calls /\
    progress new all (ran1 ++ ran) (replay_data r').
Proof.
  intros [Ht Hsub Hpart] (r1 & Hl & Hd & [[Hl' Hd']|(comm & k & call & Hcall & Hl' & Hpos & Hd')]).
  { exists [], []. rewrite Hd', Hd, Hl', Hl. split_and!; [done|done|simpl; lia|done|by split]. }
  rewrite Hd in Hpos. destruct (remove_bindings_of _ _ _ _ _ Ht Hpos) as (Hin & Htp & Ht').
  exists [comm], [call]. rewrite Hl', Hl. split_and!; [simpl; by rewrite Hcall|done|simpl; lia| |].
  { apply Forall_singleton. by rewrite Hcall. }
  split.
  - rewrite Hd', Hd. csimpl.
    set (old := list_to_set_disj (key_of <$> ran) : gmultiset comm_key) in *.
    replace (all ∖ ({[+ key_of comm +]} ⊎ old)) with (all ∖ old ∖ {[+ key_of comm +]});
      [done|]. multiset_solver.
  - csimpl. clear Hpart Ht Ht'. multiset_solver.
  - intros c [->|Hc]%elem_of_cons; [done|]. by apply Hpart.
Qed.

Lemma op_call_none o : call_comm (op_call o) = None.
Proof. by destruct o. Qed.

Lemma run_ops_progress new all ops ran r xs r' :
  progress new all ran (replay_data r) -> run_ops replay_op ops r = (Ok xs, r') ->
  exists ran', performed r' = ran' ++ performed r /\ progress new all (ran' ++ ran) (replay_data r').
Proof.
  revert ran r xs. induction ops as [|o ops IH]; intros ran r xs Hr; simpl.
  { intros [= _ <-]. by exists []. }
  unfold try_bind. destruct (replay_op o r) as [[x|e|] r1] eqn:Ho; try done.
  destruct (run_ops replay_op ops r1) as [[ys|e|] r2] eqn:Hrest; try done.
  intros [= _ <-]. apply replay_op_step in Ho; [|apply (to_ok _ _ _ (pg_table _ _ _ _ Hr))].
  destruct (op_step_progress _ _ _ _ _ _ Hr Ho) as (ran1 & calls & Hran & Hl & _ & _ & Hp1).
  destruct (IH _ _ _ Hp1 Hrest) as (ran2 & Hperf & Hp2). exists (ran2 ++ ran1).
  split; [|by rewrite <-app_assoc]. rewrite Hperf. unfold performed at 1. rewrite Hl, omap_app. simpl.
  by rewrite op_call_none, Hran, <-app_assoc.
Qed.

Lemma filter_multiset (f : comm_key -> bool) (l : list comm_key) (c : comm_key) :
  multiplicity c (list_to_set_disj (filter (fun c => f c = true) l) : gmultiset comm_key) =
  if f c then multiplicity c (list_to_set_disj l : gmultiset comm_key) else 0.
Proof.
  induction l as [|c' l IH]; simpl.
  { rewrite multiplicity_empty. by destruct (f c). }
  rewrite filter_cons, multiplicity_disj_union. case_decide as Hc'; simpl;
    rewrite ?multiplicity_disj_union, IH;
    (destruct (decide (c = c')) as [->|Hne];
      [rewrite multiplicity_singleton|rewrite multiplicity_singleton_ne by done]).
  - by rewrite Hc'.
  - by destruct (f c).
  - by destruct (f c').
  - by destruct (f c).
Qed.

Lemma multiset_perm {X} `{Countable X} (l k : list X) :
  list_to_set_disj l =@{gmultiset X} list_to_set_disj k -> l ≡ₚ k.
Proof.
  assert (forall l : list X, elements (list_to_set_disj l : gmultiset X) ≡ₚ l) as He.
  { clear. induction l as [|x l IH]; simpl; [by rewrite gmultiset_elements_empty|].
    by rewrite gmultiset_elements_disj_union, gmultiset_elements_singleton, IH. }
  intros Heq. by rewrite <-(He l), Heq, He.
Qed.

(** The COMMs that ran are among those to run, and all of them ran when the table is empty. *)
Lemma progress_complete log ran m :
  progress (io_events log) (list_to_set_disj (key_of <$> comms_of log)) ran m ->
  (list_to_set_disj (key_of <$> ran) : gmultiset comm_key) ⊆ list_to_set_disj (comms_to_run log) /\
  (m = ∅ <-> key_of <$> ran ≡ₚ comms_to_run log).
Proof.
  set (all := list_to_set_disj (key_of <$> comms_of log) : gmultiset comm_key).
  intros [Ht Hsub Hpart].
  assert (forall c, multiplicity c (list_to_set_disj (comms_to_run log) : gmultiset comm_key) =
    if takes_part (io_events log) c then multiplicity c all else 0) as Hall
    by apply filter_multiset.
  assert (forall c, takes_part (io_events log) c = false ->
    multiplicity c (list_to_set_disj (key_of <$> ran) : gmultiset comm_key) = 0) as Hnot.
  { intros c Hc. apply not_elem_of_multiplicity. rewrite elem_of_list_to_set_disj.
    intros (comm & -> & Hin)%list_elem_of_fmap. rewrite Hpart in Hc; done. }
  split; [|split].
  - intros c. rewrite Hall. destruct (takes_part (io_events log) c) eqn:Hc; [apply Hsub|].
    rewrite Hnot by done. lia.
  - intros He. rewrite (table_of_empty _ _ _ Ht) in He.
    apply multiset_perm, gmultiset_eq. intros c. rewrite Hall.
    destruct (takes_part (io_events log) c) eqn:Hc; [|by apply Hnot].
    assert (c ∉ all ∖ list_to_set_disj (key_of <$> ran)) as Hc'.
    { intros Hin. by rewrite (He c Hin) in Hc. }
    rewrite not_elem_of_multiplicity, multiplicity_difference in Hc'. specialize (Hsub c). lia.
  - intros Hperm. apply (table_of_empty _ _ _ Ht). intros c Hin.
    apply not_true_iff_false. intros Hc. specialize (Hall c). rewrite Hc in Hall.
    rewrite <-(list_to_set_disj_perm _ _ Hperm) in Hall.
    rewrite elem_of_multiplicity, multiplicity_difference in Hin. lia.
Qed.

Lemma check_replay_data_ok (r : replay) : (check_replay_data r).1 = Ok tt <-> replay_data r = ∅.
Proof.
  unfold check_replay_data, gets, mbind, st_bind. simpl. by case_decide.
Qed.

(** C23: a replay follows its log.  On a space rigged with any log, run any consumes and
    produces that succeed (an operation that would run a COMM the log does not have
    panics): the COMMs that ran are a part of the log's COMMs that one of the log's consumes
    or produces takes part in, counted with multiplicity, and [check_replay_data] succeeds
    if and only if they are all of them. *)
Theorem replay_follows_log (log : Log) (ops : list (SpaceOp C P A K)) (r : replay) outs (r' : replay) :
  run_ops replay_op ops (rig log r).2 = (Ok outs, r') ->
  exists ran, performed r' = ran ++ performed r /\
    (list_to_set_disj (key_of <$> ran) : gmultiset comm_key) ⊆ list_to_set_disj (comms_to_run log) /\
    ((check_replay_data r').1 = Ok tt <-> key_of <$> ran ≡ₚ comms_to_run log).
Proof.
  intros Hrun. destruct (run_ops_progress _ _ ops [] (rig log r).2 outs r' (progress_rig log) Hrun)
    as (ran & Hp & Hpg). rewrite app_nil_r in Hpg. exists ran. split; [exact Hp|].
  rewrite check_replay_data_ok. by apply progress_complete.
Qed.
End thms.
