(* ===== verification/ReplayIds.v ===== *)
(** * Identities of stored rows

    When the consumes and produces of a run and the stored rows have pairwise distinct
    identities, an event takes part in one COMM at most once it has run: what the rest of
    a run can refer to is what is stored and what is still to come. *)
From S2P Require Import Prelude Events HotStoreSig SpaceMatcher RSpace RSpaceSpec RSpaceInv.
From S2P Require Import ReplayRSpace ReplayTable.

Section ids.
Context {C P A K : Type} `{Countable C} `{!Debug P, !Debug K}.
Context (get : P -> A -> option A).
Context (ch_in : C -> Prop) (chs_in : list C -> Prop).

Abbreviation View := (View C P A K).
Abbreviation wc := (WaitingContinuation P K).
Abbreviation datum := (Datum A).
Abbreviation candidate := (ConsumeCandidate C A).

Definition datum_id (d : datum) : Blake2b256Hash := p_hash (datum_source d).

(** A row of the view came from the event [k]. *)
Definition stored (v : View) (k : io_key) : Prop :=
  match k with
  | KProduce h => exists ch d, ch_in ch /\ d ∈ v_data v ch /\ h = datum_id d
  | KConsume c => exists chs w, chs_in chs /\ w ∈ view_get_continuations v chs /\ c = wc_source w
  end.
(** The rows of [v] and the events [ids] to come are pairwise distinct. *)
Record distinct (v : View) (ids : list io_key) : Prop := {
  ds_row : forall ch, ch_in ch -> NoDup (datum_id <$> v_data v ch);
  ds_data : forall ch ch' d d', ch_in ch -> ch_in ch' -> d ∈ v_data v ch -> d' ∈ v_data v ch' ->
    datum_id d = datum_id d' -> ch = ch';
  ds_conts_row : forall chs, chs_in chs -> NoDup (wc_source <$> view_get_continuations v chs);
  ds_conts : forall chs chs' w w', chs_in chs -> chs_in chs' ->
    w ∈ view_get_continuations v chs -> w' ∈ view_get_continuations v chs' ->
    wc_source w = wc_source w' -> chs = chs';
  ds_fresh : forall k, stored v k -> k ∉ ids;
  ds_ids : NoDup ids;
}.
(** What the rest of a run can refer to *)
Definition known (v : View) (ids : list io_key) (k : io_key) : Prop := k ∈ ids \/ stored v k.

(** ** Rows that are taken away *)

Definition shrinks (v v' : View) : Prop :=
  (forall ch, v_data v' ch `sublist_of` v_data v ch) /\
  (forall chs, view_get_continuations v' chs `sublist_of` view_get_continuations v chs).

Lemma shrinks_stored v v' k : shrinks v v' -> stored v' k -> stored v k.
Proof.
  intros [Hd Hc]. destruct k as [h|c]; simpl.
  - intros (ch & d & Hch & Hin & ->). exists ch, d. split_and!; [done| |done].
    by eapply sublist_subseteq; [apply Hd|].
  - intros (chs & w & Hchs & Hin & ->). exists chs, w. split_and!; [done| |done].
    by eapply sublist_subseteq; [apply Hc|].
Qed.

Lemma distinct_shrinks v v' k ids :
  shrinks v v' -> distinct v (k :: ids) -> distinct v' ids /\ ~ known v' ids k.
Proof.
  intros Hs [D1 D2 D3 D4 D5 D6]. pose proof Hs as [Hd Hc].
  assert (forall ch d, d ∈ v_data v' ch -> d ∈ v_data v ch) as Hd'.
  { intros ch d. by apply sublist_subseteq. }
  assert (forall chs w, w ∈ view_get_continuations v' chs -> w ∈ view_get_continuations v chs) as Hc'.
  { intros chs w. by apply sublist_subseteq. }
  apply NoDup_cons in D6 as [Hk D6]. split; [split|].
  - intros ch Hch. eapply sublist_NoDup; [by apply D1|]. by apply fmap_sublist.
  - eauto.
  - intros chs Hchs. eapply sublist_NoDup; [by apply D3|]. by apply fmap_sublist.
  - eauto.
  - intros k' Hk'%(shrinks_stored v v' k' Hs) Hin. apply (D5 k' Hk'). by right.
  - done.
  - intros [Hin|Hst]; [done|]. apply (shrinks_stored v v' k Hs) in Hst.
    apply (D5 k Hst). by left.
Qed.

Lemma data_after_sublist cs (v v' : View) ch :
  data_after cs v v' -> v_data v' ch `sublist_of` v_data v ch.
Proof.
  intros [Ho Hi]. destruct (decide (ch ∈ cc_channel <$> cs)) as [Hin|Hn].
  - apply list_elem_of_fmap in Hin as (c & -> & Hc). rewrite (Hi c Hc).
    unfold remaining. destruct (_ && _); [apply sublist_delete|done].
  - by rewrite Ho.
Qed.

Lemma shrinks_consume cs (v v' : View) : data_after cs v v' -> conts_same v v' -> shrinks v v'.
Proof.
  intros Hd [C1 C2]. split; [intros ch; by eapply data_after_sublist|].
  intros chs. unfold view_get_continuations. by rewrite C1, C2.
Qed.

Lemma shrinks_produce pc (v v' : View) : match_processed pc v v' -> shrinks v v'.
Proof.
  intros (Hd & [C1 C2] & _). split; [intros ch; by eapply data_after_sublist|].
  intros chs. unfold view_get_continuations. rewrite C1, C2.
  unfold continuation_taken, view_remove_continuation. destruct (wc_persist _); [done|].
  case_decide; [|done]. simpl. apply sublist_app; [done|]. rewrite fn_lookup_insert_decide.
  case_decide; [|done]. subst. apply sublist_delete.
Qed.

(** ** Rows that are added *)

Lemma distinct_put_datum ch (d : datum) (v v' : View) ids :
  ch_in ch -> v' ≡ view_put_datum ch d v -> distinct v (KProduce (datum_id d) :: ids) ->
  distinct v' ids /\ forall k, stored v' k -> stored v k \/ k = KProduce (datum_id d).
Proof.
  intros Hch Hv [D1 D2 D3 D4 D5 D6]. apply NoDup_cons in D6 as [Hk D6].
  assert (forall chs, view_get_continuations v' chs = view_get_continuations v chs) as HC.
  { intros chs. unfold view_get_continuations. by rewrite !Hv. }
  assert (forall ch', v_data v' ch' = if decide (ch = ch') then d :: v_data v ch' else v_data v ch') as HD.
  { intros ch'. rewrite Hv. simpl. rewrite fn_lookup_insert_decide. by case_decide; subst. }
  assert (forall ch' e, ch_in ch' -> e ∈ v_data v' ch' -> e ∈ v_data v ch' \/ (ch' = ch /\ e = d)) as HE.
  { intros ch' e _. rewrite HD. case_decide; subst; [|by left]. rewrite elem_of_cons. tauto. }
  assert (forall ch' e, ch_in ch' -> e ∈ v_data v ch' -> datum_id e <> datum_id d) as Hnew.
  { intros ch' e Hch' He Heq. apply (D5 (KProduce (datum_id e))); [by exists ch', e|].
    rewrite Heq. by left. }
  assert (forall k, stored v' k -> stored v k \/ k = KProduce (datum_id d)) as HS.
  { intros [h|c]; simpl.
    - intros (ch' & e & Hch' & [He|[-> ->]]%HE & ->); [|by right|done]. left. by exists ch', e.
    - setoid_rewrite HC. auto. }
  split; [split|done].
  - intros ch' Hch'. rewrite HD. case_decide; subst; [|by apply D1]. csimpl.
    apply NoDup_cons. split; [|by apply D1]. intros (e & Heq & He)%list_elem_of_fmap.
    by eapply Hnew.
  - intros c1 c2 d1 d2 H1 H2 [Hd1|[-> ->]]%HE [Hd2|[-> ->]]%HE Heq; try done; [by eapply D2|..].
    + by destruct (Hnew c1 d1 H1 Hd1).
    + by destruct (Hnew c2 d2 H2 Hd2).
  - intros chs. rewrite HC. apply D3.
  - intros chs chs' w w'. rewrite !HC. apply D4.
  - intros k [Hs| ->]%HS; [|done]. intros Hin. apply (D5 k Hs). by right.
  - done.
Qed.

Lemma view_store_continuation_conts channels (w : wc) (v : View) chs :
  let conts := view_get_continuations (view_store_continuation channels w v) chs in
  conts = view_get_continuations v chs \/
  (chs = channels /\ conts ≡ₚ w :: view_get_continuations v chs).
Proof.
  unfold view_store_continuation, view_get_continuations.
  destruct (view_put_joins_spec channels channels (view_put_continuation channels w v).2)
    as (_ & -> & -> & _). unfold view_put_continuation. case_decide; [by left|]. simpl.
  rewrite fn_lookup_insert_decide. case_decide; subst; [|by left]. right. split; [done|].
  by rewrite Permutation_middle.
Qed.

Lemma distinct_store_continuation channels (w : wc) (v v' : View) ids :
  chs_in channels -> v' ≡ view_store_continuation channels w v ->
  distinct v (KConsume (wc_source w) :: ids) ->
  distinct v' ids /\ forall k, stored v' k -> stored v k \/ k = KConsume (wc_source w).
Proof.
  intros Hchs Hv [D1 D2 D3 D4 D5 D6]. apply NoDup_cons in D6 as [Hk D6].
  assert (forall ch, v_data v' ch = v_data v ch) as HD.
  { intros ch. rewrite Hv. unfold view_store_continuation.
    destruct (view_put_joins_spec channels channels (view_put_continuation channels w v).2)
      as (_ & _ & _ & -> & _). unfold view_put_continuation. by case_decide. }
  assert (forall chs, view_get_continuations v' chs = view_get_continuations v chs \/
    (chs = channels /\ view_get_continuations v' chs ≡ₚ w :: view_get_continuations v chs)) as HC.
  { intros chs. pose proof (view_store_continuation_conts channels w v chs) as Hs.
    unfold view_get_continuations in *. by rewrite !Hv. }
  assert (forall chs u, u ∈ view_get_continuations v' chs ->
    u ∈ view_get_continuations v chs \/ (chs = channels /\ u = w)) as HE.
  { intros chs u. destruct (HC chs) as [->|[-> ->]]; [by left|]. rewrite elem_of_cons. tauto. }
  assert (forall chs u, chs_in chs -> u ∈ view_get_continuations v chs -> wc_source u <> wc_source w) as Hnew.
  { intros chs u Hin Hu Heq. apply (D5 (KConsume (wc_source u))); [by exists chs, u|].
    rewrite Heq. by left. }
  assert (forall k, stored v' k -> stored v k \/ k = KConsume (wc_source w)) as HS.
  { intros [h|c]; simpl.
    - setoid_rewrite HD. auto.
    - intros (chs & u & Hin & [Hu|[-> ->]]%HE & ->); [|by right]. left. by exists chs, u. }
  split; [split|done].
  - intros ch. rewrite HD. apply D1.
  - intros ch ch' d d'. rewrite !HD. apply D2.
  - intros chs Hin. destruct (HC chs) as [->|[-> ->]]; [by apply D3|]. csimpl.
    apply NoDup_cons. split; [|by apply D3]. intros (u & Heq & Hu)%list_elem_of_fmap.
    by eapply Hnew.
  - intros c1 c2 u1 u2 H1 H2 [Hu1|[-> ->]]%HE [Hu2|[-> ->]]%HE Heq; try done; [by eapply D4|..].
    + by destruct (Hnew c1 u1 H1 Hu1).
    + by destruct (Hnew c2 u2 H2 Hu2).
  - intros k [Hs| ->]%HS; [|done]. intros Hin. apply (D5 k Hs). by right.
  - done.
Qed.
End ids.
