(* ===== verification/ReplayMatch.v ===== *)
(** * Matching against the COMM that ran

    The matchers of a replay look at the rows that a COMM of the log names.  Where identities
    are distinct, the COMM that ran names exactly one row per channel, so the matcher finds
    the candidates of that COMM; and what matches nothing among all rows matches nothing
    among some of them. *)
From S2P Require Import Prelude Events HotStoreSig SpaceMatcher RSpace RSpaceSpec RSpaceInv.
From S2P Require Import ReplayRSpace ReplayTable ReplayThms ReplayIds.

(** ** Rows that a COMM names *)
Section rows.
Context {C A : Type}.
Abbreviation datum := (Datum A).
Abbreviation candidate := (ConsumeCandidate C A).

Lemma filter_single {X} (Q : X -> Prop) `{!forall x, Decision (Q x)} (l : list X) j x :
  l !! j = Some x -> Q x -> (forall k y, l !! k = Some y -> Q y -> k = j) -> filter Q l = [x].
Proof.
  revert j. induction l as [|y l IH]; intros j Hj HQ Hu; [done|]. rewrite filter_cons.
  destruct j as [|j]; simpl in Hj.
  - injection Hj as ->. rewrite decide_True by done. f_equal.
    destruct (filter Q l) as [|z k] eqn:Hf; [done|].
    assert (z ∈ filter Q l) as [Hz Hin]%list_elem_of_filter by (rewrite Hf; by left).
    apply list_elem_of_lookup in Hin as [i Hi]. by specialize (Hu (S i) z Hi Hz).
  - rewrite decide_False.
    + apply (IH j); [done..|]. intros k z Hk Hz. specialize (Hu (S k) z Hk Hz). lia.
    + intros HQy. by specialize (Hu 0 y eq_refl HQy).
Qed.


Lemma existsb_produce p (ps : list Produce) :
  existsb (produce_eqb p) ps = bool_decide (p_hash p ∈ p_hash <$> ps).
Proof.
  apply eq_true_iff_eq. rewrite existsb_exists, bool_decide_eq_true, list_elem_of_fmap.
  setoid_rewrite <-list_elem_of_In. unfold produce_eqb. setoid_rewrite bool_decide_eq_true.
  naive_solver.
Qed.

(** Only the identity of a COMM matters. *)
Lemma matches_key counter comm comm' (d : datum) :
  key_of comm = key_of comm' -> matches counter comm d = matches counter comm' d.
Proof.
  intros [= _ Hp _ Ht]. unfold matches. rewrite !existsb_produce, Hp. f_equal.
  unfold was_repeated_enough_times, counter_get.
  assert (forall h, snd <$> comm_times_repeated comm !! h = snd <$> comm_times_repeated comm' !! h)
    as E by (intros h; by rewrite <- !lookup_fmap, Ht).
  by rewrite E.
Qed.

Lemma produce_counters_lookup counter (ps : list Produce) p :
  p_hash p ∈ p_hash <$> ps ->
  counter_get (produce_counters counter ps) p = Some (default 0%Z (counter_get counter p)).
Proof.
  unfold produce_counters, counter_get. induction ps as [|q ps IH] using rev_ind.
  { by intros ?%elem_of_nil. }
  rewrite fmap_app, elem_of_app, foldl_snoc. intros Hin.
  destruct (decide (p_hash q = p_hash p)) as [->|Hne]; [by rewrite lookup_insert_eq|].
  rewrite lookup_insert_ne by done. apply IH. destruct Hin as [?|Hin]; [done|].
  apply list_elem_of_singleton in Hin. congruence.
Qed.

(** The identities of the data of the candidates *)
Definition cand_id (c : candidate) : Blake2b256Hash := datum_id (cc_datum c).

Lemma comm_new_hashes (cands : list candidate) c peeks counters :
  p_hash <$> comm_produces (COMM_new cands c peeks counters) ≡ₚ cand_id <$> cands.
Proof.
  unfold COMM_new. simpl. rewrite (sort_by_perm produce_ref_cmp), <-list_fmap_compose. done.
Qed.

(** A COMM that runs now names the data of its candidates. *)
Lemma matches_comm_new counter (cands : list candidate) c peeks (d : datum) :
  matches counter (COMM_new cands c peeks (produce_counters counter)) d =
  bool_decide (datum_id d ∈ cand_id <$> cands).
Proof.
  set (comm := COMM_new _ _ _ _). unfold matches. rewrite existsb_produce.
  assert (p_hash <$> comm_produces comm ≡ₚ cand_id <$> cands) as Hp by apply comm_new_hashes.
  rewrite (bool_decide_ext _ (datum_id d ∈ cand_id <$> cands)) by (by rewrite <-Hp).
  case_bool_decide as Hin; [|done]. simpl. unfold was_repeated_enough_times.
  destruct (datum_persist d); [done|]. apply bool_decide_eq_true.
  unfold comm at 1, COMM_new. simpl. rewrite produce_counters_lookup; [done|].
  change (p_hash (datum_source d) ∈ p_hash <$> comm_produces comm). by rewrite Hp.
Qed.
End rows.

(** ** Candidates among the named rows *)
Section candidates.
Context {C P A K : Type} `{Countable C}.
Context (get : P -> A -> option A).
Abbreviation datum := (Datum A).
Abbreviation candidate := (ConsumeCandidate C A).

(** [rows] are the rows of [chs], with pairwise distinct identities. *)
Context (rows : C -> indexed datum) (chs : list C).
Hypothesis rows_nodup : forall ch, ch ∈ chs -> NoDup ((fun e => datum_id e.1) <$> rows ch).
Hypothesis rows_cross : forall ch ch' e e', ch ∈ chs -> ch' ∈ chs -> e ∈ rows ch -> e' ∈ rows ch' ->
  datum_id e.1 = datum_id e'.1 -> ch = ch'.

Definition picked (cp : C * P) (cand : candidate) : Prop :=
  exists d i mat, (d, i) ∈ rows cp.1 /\ get cp.2 (datum_a d) = Some mat /\
    cand = matched cp.1 d i mat.

Lemma picked_unique ps cands (i j : nat) cp cp' cand cand' :
  NoDup chs -> Forall2 picked (zip chs ps) cands ->
  zip chs ps !! i = Some cp -> cands !! i = Some cand ->
  zip chs ps !! j = Some cp' -> cands !! j = Some cand' -> cp.1 = cp'.1 -> cand = cand'.
Proof.
  intros Hnd HF Hi Hci Hj Hcj Heq. assert (i = j) as ->; [|congruence].
  apply (NoDup_lookup (zip chs ps).*1 i j cp.1); [by apply NoDup_zip_fst|..].
  - by rewrite list_lookup_fmap, Hi.
  - by rewrite list_lookup_fmap, Hj, Heq.
Qed.

Lemma named_row ps cands cp cand (i : nat) counter comm c peeks :
  NoDup chs -> Forall2 picked (zip chs ps) cands ->
  key_of comm = key_of (COMM_new cands c peeks (produce_counters counter)) ->
  zip chs ps !! i = Some cp -> cands !! i = Some cand ->
  exists d idx mat, matching counter comm (rows cp.1) = [(d, idx)] /\
    get cp.2 (datum_a d) = Some mat /\ cand = matched cp.1 d idx mat.
Proof.
  intros Hnd HF Hkey Hcp Hc.
  assert (forall cp0, cp0 ∈ zip chs ps -> cp0.1 ∈ chs) as Hz by (intros cp0; apply cp_channel).
  destruct (Forall2_lookup_lr _ _ _ _ _ _ HF Hcp Hc) as (d & idx & mat & Hin & Hg & ->).
  exists d, idx, mat. split_and!; [|done..]. apply list_elem_of_lookup in Hin as [j Hj].
  assert (forall e : datum * Z, matches counter comm e.1 = true <-> datum_id e.1 ∈ cand_id <$> cands)
    as Hm.
  { intros e. by rewrite (matches_key _ _ _ _ Hkey), matches_comm_new, bool_decide_eq_true. }
  unfold matching. apply (filter_single _ _ j); [done|..].
  - apply Hm. apply list_elem_of_fmap. exists (matched cp.1 d idx mat).
    split; [done|by eapply list_elem_of_lookup_2].
  - intros k [d' idx'] Hk Hd'%Hm. apply list_elem_of_fmap in Hd' as (c' & Hid & Hc').
    apply list_elem_of_lookup in Hc' as [i' Hc']. simpl in Hid.
    destruct (Forall2_lookup_r _ _ _ _ _ HF Hc') as (cp' & Hcp' & d'' & idx'' & mat'' & Hin'' & _ & ->).
    change (datum_id d' = datum_id d'') in Hid.
    assert (cp.1 = cp'.1) as Hch.
    { apply (rows_cross cp.1 cp'.1 (d', idx') (d'', idx'')); eauto using list_elem_of_lookup_2. }
    pose proof (picked_unique _ _ _ _ _ _ _ _ Hnd HF Hcp Hc Hcp' Hc' Hch) as Heq.
    assert (datum_id d = datum_id d'') as Hid'.
    { apply (f_equal cand_id) in Heq. exact Heq. }
    eapply (NoDup_lookup ((fun e => datum_id e.1) <$> rows cp.1)).
    + apply rows_nodup. eauto using list_elem_of_lookup_2.
    + rewrite list_lookup_fmap, Hk. simpl. done.
    + rewrite list_lookup_fmap, Hj. simpl. by rewrite Hid, Hid'.
Qed.

(** The COMM that ran finds its candidates again. *)
Lemma named_rows_found ps cands counter comm c peeks (m : gmap C (indexed datum)) :
  NoDup chs -> Forall2 picked (zip chs ps) cands ->
  key_of comm = key_of (COMM_new cands c peeks (produce_counters counter)) ->
  (forall ch, ch ∈ chs -> m !! ch = Some (matching counter comm (rows ch))) ->
  find_all get m chs ps = Some cands.
Proof.
  intros Hnd HF Hkey Hm. unfold find_all. rewrite collect_option_fmap. apply mapM_Some.
  apply Forall2_same_length_lookup. split; [by eapply Forall2_length|]. intros i cp cand Hcp Hc.
  destruct (named_row ps cands cp cand i counter comm c peeks) as (d & idx & mat & Hrow & Hg & ->);
    [done..|].
  unfold find_in. rewrite Hm by (eapply cp_channel, list_elem_of_lookup_2; done).
  rewrite Hrow. unfold find_matching_data_candidate. simpl. by rewrite Hg.
Qed.

(** What matches none of the rows matches none of those a COMM names. *)
Lemma named_rows_none ps counter comm (m : gmap C (indexed datum)) :
  (forall ch, ch ∈ chs -> m !! ch = Some (matching counter comm (rows ch))) ->
  (exists cp, cp ∈ zip chs ps /\ forall e, e ∈ rows cp.1 -> get cp.2 (datum_a e.1) = None) ->
  find_all get m chs ps = None.
Proof.
  intros Hm (cp & Hcp & Hnone). apply find_all_None. exists cp. split; [done|].
  apply find_in_None. intros l d i. rewrite Hm by (by eapply cp_channel). intros [= <-].
  intros [_ Hin]%list_elem_of_filter. by apply (Hnone (d, i)).
Qed.
End candidates.
