(* ===== verification/ReplaySim.v ===== *)
(** * A replay does what the play did

    One operation at a time: on a space with the same view and counters, rigged with the COMMs of
    a run, a replay runs the COMM that the run ran, or stores the row that the run stored. *)
From stdpp Require Import gmultiset.
From S2P Require Import Prelude Events HotStoreSig SpaceMatcher RSpace RSpaceSpec RSpaceInv.
From S2P Require Import ReplayRSpace ReplayTable ReplayThms ReplayIds ReplayMatch.

(** ** The table entry of an event *)

Lemma bindings_lookup m k ct c :
  m !! k = Some ct -> bindings m k c = match ct !! c with Some (_, n) => n | None => 0 end.
Proof. intros Hk. unfold bindings. by rewrite Hk. Qed.
Lemma multiplicity_here (c : comm_key) left : multiplicity c ({[+ c +]} ⊎ left) = 1 + multiplicity c left.
Proof. rewrite multiplicity_disj_union, multiplicity_singleton_eq. lia. Qed.

(** If [comm] is the only COMM left that [k] takes part in, it is the only one looked up. *)
Lemma table_single new left m k comm ct comms :
  table_of new ({[+ key_of comm +]} ⊎ left) m -> k ∈ new -> k ∈ parts (key_of comm) ->
  (forall c, c ∈ left -> k ∉ parts c) -> m !! k = Some ct ->
  comms ≡ₚ fst <$> (map_to_list ct).*2 -> exists comm', comms = [comm'] /\ key_of comm' = key_of comm.
Proof.
  intros [Hok Hb] Hnew Hk Hleft Hct Hperm. destruct (Hok k ct Hct) as [_ Hpos].
  assert (forall c, bindings m k c =
    occurrences k (parts c) * multiplicity c ({[+ key_of comm +]} ⊎ left)) as Hb'.
  { intros c. rewrite Hb. by rewrite decide_True. }
  assert (forall c comm' n, ct !! c = Some (comm', n) -> c = key_of comm) as Honly.
  { intros c comm' n Hc. destruct (Hpos _ _ _ Hc) as [_ Hn]. specialize (Hb' c).
    rewrite (bindings_lookup _ _ _ _ Hct), Hc in Hb'.
    assert (0 < occurrences k (parts c) /\ 0 < multiplicity c ({[+ key_of comm +]} ⊎ left))
      as [Ho Hm] by nia.
    apply occurrences_pos in Ho. destruct (decide (c ∈ left)) as [Hin|Hn']; [by destruct (Hleft c)|].
    rewrite multiplicity_disj_union in Hm. apply not_elem_of_multiplicity in Hn'.
    destruct (decide (c = key_of comm)) as [|Hne]; [done|].
    rewrite multiplicity_singleton_ne in Hm by done. lia. }
  assert (exists comm' n, ct !! key_of comm = Some (comm', n)) as (comm' & n & Hc).
  { specialize (Hb' (key_of comm)). rewrite (bindings_lookup _ _ _ _ Hct), multiplicity_here in Hb'.
    destruct (ct !! key_of comm) as [[comm' n]|]; [by eexists _, _|].
    apply occurrences_pos in Hk. lia. }
  assert (ct = {[key_of comm := (comm', n)]}) as ->.
  { apply map_eq. intros c. destruct (decide (c = key_of comm)) as [->|Hne].
    - by rewrite lookup_singleton_eq.
    - rewrite lookup_singleton_ne by done. destruct (ct !! c) as [[c' n']|] eqn:Hc'; [|done].
      by apply Honly in Hc'. }
  rewrite map_to_list_singleton in Hperm. simpl in Hperm. exists comm'.
  split; [by apply Permutation_singleton_r in Hperm|]. by apply (Hpos _ _ _ Hc).
Qed.

Lemma table_lookup_some new left m k comm :
  table_of new ({[+ key_of comm +]} ⊎ left) m -> k ∈ new -> k ∈ parts (key_of comm) ->
  is_Some (m !! k).
Proof.
  intros [Hok Hb] Hnew Hk. specialize (Hb k (key_of comm)). rewrite decide_True in Hb by done.
  rewrite multiplicity_here in Hb. apply occurrences_pos in Hk.
  unfold bindings in Hb. destruct (m !! k); [done|]. change (0 = occurrences k (parts (key_of comm)) *
    (1 + multiplicity (key_of comm) left)) in Hb. lia.
Qed.

Lemma table_nonempty m k (ct : Counter) comms :
  table_ok m -> m !! k = Some ct -> comms ≡ₚ fst <$> (map_to_list ct).*2 -> comms <> [].
Proof.
  intros Hok Hk Hp ->. apply Permutation_nil_l in Hp. destruct (Hok k ct Hk) as [Hne _].
  apply Hne, map_to_list_empty_iff. symmetry in Hp.
  by apply fmap_nil_inv, fmap_nil_inv in Hp.
Qed.

Lemma table_run new left m comm k :
  table_of new ({[+ key_of comm +]} ⊎ left) m -> k ∈ new -> k ∈ parts (key_of comm) ->
  table_of new left (remove_bindings m comm).
Proof.
  intros Ht Hnew Hk. destruct (remove_bindings_of new _ m comm k Ht) as (_ & _ & Ht').
  - rewrite (to_bindings _ _ _ Ht), decide_True by done.
    rewrite multiplicity_here. apply occurrences_pos in Hk. lia.
  - replace left with (({[+ key_of comm +]} ⊎ left) ∖ {[+ key_of comm +]}); [done|multiset_solver].
Qed.

Section sim.
Context {C P A K H S G : Type} `{Countable C} `{!HotStore C P A K S}.
Context `{!HistoryRepository C P A K H, !HotStoreFactory C P A K S, !Oracle G}.
Context `{!Debug P, !Debug K, !HotStoreLaws C P A K S}.
Context (cd : Codecs C P A K) (get : P -> A -> option A).

Abbreviation space := (RSpace C P K H S G).
Abbreviation replay := (ReplayRSpace C P A K H S G).
Abbreviation wc := (WaitingContinuation P K).
Abbreviation datum := (Datum A).
Abbreviation candidate := (ConsumeCandidate C A).
Abbreviation View := (View C P A K).

(** ** Reading *)

Definition reads (r r' : space) : Prop := store_step r r' /\ V r' ≡ V r.

Lemma reads_refl r : good r -> reads r r.
Proof. intros Hg. split; [split; [done|by split|done]|done]. Qed.
Lemma reads_trans r1 r2 r3 : reads r1 r2 -> reads r2 r3 -> reads r1 r3.
Proof. intros [? ?] [? ?]. split; [by eapply store_step_trans|by etrans]. Qed.
Lemma reads_good r r' : reads r r' -> good r'.
Proof. intros [[Hg _ _] _]. exact Hg. Qed.
Lemma reads_counter r r' : reads r r' -> produce_counter r' = produce_counter r.
Proof. intros [[_ [_ _ _ Hc] _] _]. exact Hc. Qed.

Lemma spec_reads {R} (m : ST space R) Φ r :
  spec m (fun v x v' => v' ≡ v /\ Φ v x) -> good r ->
  reads r (m r).2 /\ Φ (V r) (m r).1.
Proof. intros Hm Hg. destruct (Hm r Hg) as [Hs [Hv HΦ]]. by split. Qed.

Lemma spec_matching_data counter comm channels (m : gmap C (indexed datum)) :
  spec (matching_data counter comm channels m : ST space _) (fun v m' v' => v' ≡ v /\
    (forall ch, ch ∈ channels -> m' !! ch = Some (matching counter comm (with_index (v_data v ch)))) /\
    (forall ch, ch ∉ channels -> m' !! ch = m !! ch)).
Proof.
  revert m. induction channels as [|c channels IH]; intros m; simpl.
  { eapply spec_impl; [apply spec_ret|]. intros v ? v' [-> Hv]. split_and!; [done| |done].
    by intros ch ?%elem_of_nil. }
  eapply spec_impl.
  { eapply spec_bind; [apply (spec_on_store _ _ (law_get_data c))|]. intros d. apply IH. }
  intros v m' v' (d & v1 & [-> Hv1] & Hv' & Hin & Hnin). simpl in *.
  split_and!; [by etrans| |].
  - intros ch Hch. destruct (decide (ch ∈ channels)) as [Hc|Hc].
    + rewrite Hin by done. by rewrite Hv1.
    + apply elem_of_cons in Hch as [->|]; [|done]. by rewrite Hnin, lookup_insert_eq.
  - intros ch [Hne Hni]%not_elem_of_cons. by rewrite Hnin, lookup_insert_ne.
Qed.

(** The rows of the channels that [comm] names *)
Definition named (rows : C -> indexed datum) counter comm (chs : list C) (m : gmap C (indexed datum)) : Prop :=
  forall ch, ch ∈ chs -> m !! ch = Some (matching counter comm (rows ch)).

Lemma run_matcher_consume_spec chs ps comm (r : space) :
  good r -> NoDup chs ->
  let out := run_matcher_consume get chs ps comm r in
  reads r out.2 /\ exists m, named (fun ch => with_index (v_data (V r) ch)) (produce_counter r) comm chs m /\
    out.1 = find_all get m chs ps.
Proof.
  intros Hg Hnd. unfold run_matcher_consume, gets, mbind, st_bind.
  destruct (spec_reads _ _ r (spec_matching_data (produce_counter r) comm chs ∅) Hg) as [Hr [Hm _]].
  destruct (matching_data _ comm chs ∅ r) as [m r1]. simpl in *. split; [done|].
  exists m. split; [exact Hm|]. unfold extract_data_candidates.
  by rewrite extract_nodup by by apply NoDup_zip_fst.
Qed.

(** The rows with the new datum in front of the row of [bat] *)
Definition rows_new (bat : C) (d : datum) (v : View) (ch : C) : indexed datum :=
  new_row bat d ch (with_index (v_data v ch)).

Lemma spec_matching_data_new counter comm bat d channels :
  spec (st_mapM (matching_data_new counter comm bat d) channels : ST space _) (fun v fs v' => v' ≡ v /\
    (fs.*1 = channels /\ forall ch l, (ch, l) ∈ fs -> l = matching counter comm (rows_new bat d v ch))).
Proof.
  induction channels as [|ch channels IH]; simpl.
  { eapply spec_impl; [apply spec_ret|]. intros v ? v' [-> Hv]. split_and!; try done.
    by intros ? ? ?%elem_of_nil. }
  eapply spec_impl.
  { eapply spec_bind.
    { eapply spec_bind; [apply (spec_on_store _ _ (law_get_data ch))|]. intros x. apply spec_ret. }
    intros f. eapply spec_bind; [apply IH|]. intros fs. apply spec_ret. }
  intros v ? v6 (f & v3 & (x & v1 & [-> H1] & -> & H3) & fs & v5 & (H5 & Hfs & Hrows) & -> & H6).
  simpl in *. assert (v3 ≡ v) as Hv3 by (rewrite H3; done).
  split_and!; [rewrite H6, H5; done|by rewrite <-Hfs|].
  intros ch' l' [[= -> ->]|Hin]%elem_of_cons; [done|].
  rewrite (Hrows _ _ Hin). unfold rows_new. by rewrite Hv3.
Qed.

Lemma spec_matching_continuations comm channels :
  spec (matching_continuations comm channels : ST space _) (fun v mcs v' => v' ≡ v /\
    mcs = filter (fun wi => comm_consume comm = wc_source wi.1)
      (with_index (view_get_continuations v channels))).
Proof.
  eapply spec_impl.
  { eapply spec_bind; [apply (spec_on_store _ _ (law_get_continuations channels))|].
    intros x. apply spec_ret. }
  intros v mcs v2 (x & v1 & [-> H1] & -> & H2). simpl in *. split; [by etrans|done].
Qed.

(** ** Matching the continuations of the joins *)

Lemma run_matcher_group bat d channels rest comm (r : space) :
  good r -> exists m r2, reads r r2 /\ named (rows_new bat d (V r)) (produce_counter r) comm channels m /\
    run_matcher_produce get bat d (channels :: rest) comm r =
    match extract_first_match get channels
      (filter (fun wi => comm_consume comm = wc_source wi.1)
        (with_index (view_get_continuations (V r) channels))) m with
    | Some pc => (Some pc, r2)
    | None => run_matcher_produce get bat d rest comm r2
    end.
Proof.
  intros Hg. simpl. unfold mbind, st_bind, gets.
  destruct (spec_reads _ _ r (spec_matching_continuations comm channels) Hg) as [H1 Hmcs].
  destruct (matching_continuations comm channels r) as [mcs r1]. simpl in *. subst mcs.
  rewrite (reads_counter _ _ H1).
  destruct (spec_reads _ _ r1 (spec_matching_data_new (produce_counter r) comm bat d channels)
    (reads_good _ _ H1)) as [H2 [Hfs Hrows]].
  destruct (st_mapM _ channels r1) as [fs r2]. simpl in *.
  set (m := foldl _ _ fs). exists m, r2. split; [by eapply reads_trans|]. split.
  - intros ch Hch. rewrite <-Hfs in Hch.
    destruct (foldl_insert_lookup fs (∅ : gmap C (indexed datum)) ch Hch) as (l & Hin & Hm).
    fold m in Hm. rewrite Hm, (Hrows _ _ Hin). unfold rows_new. by rewrite (proj2 H1).
  - by destruct (extract_first_match get channels _ m).
Qed.

Lemma unmatched_rows_new bat (d : datum) (v : View) cp :
  unmatched get (view_put_datum bat d v) cp ->
  forall e, e ∈ rows_new bat d v cp.1 -> get cp.2 (datum_a e.1) = None.
Proof.
  intros Hu [e i] Hin. apply Hu. simpl. rewrite fn_lookup_insert_decide.
  unfold rows_new, new_row in Hin.
  assert ((e, i) ∈ with_index (v_data v cp.1) -> e ∈ v_data v cp.1) as Hold.
  { intros (n & _ & Hn)%elem_of_with_index. by eapply list_elem_of_lookup_2. }
  destruct (decide (cp.1 = bat)) as [<-|Hne].
  - rewrite decide_True by done. apply elem_of_cons in Hin as [[= -> ->]|Hin]; [by left|right; auto].
  - rewrite decide_False by done. auto.
Qed.

Lemma extract_named_none bat d channels comm (v : View) counter m :
  NoDup channels -> no_match get bat d v channels ->
  named (rows_new bat d v) counter comm channels m ->
  extract_first_match get channels (filter (fun wi => comm_consume comm = wc_source wi.1)
    (with_index (view_get_continuations v channels))) m = None.
Proof.
  intros Hnd Hno Hm. destruct (extract_first_match _ _ _ _) as [pc|] eqn:Hex; [|done]. exfalso.
  apply (proj1 (extract_first_match_nodup get channels _ m Hnd)) in Hex
    as (j & w & idx & cands & Hj & _ & Hall).
  apply list_elem_of_lookup_2, list_elem_of_filter in Hj as [_ (n & _ & Hn)%elem_of_with_index].
  destruct (Hno w (list_elem_of_lookup_2 _ _ _ Hn)) as (cp & Hcp & Hu).
  rewrite (named_rows_none get (rows_new bat d v) channels _ counter comm m Hm) in Hall; [done|].
  exists cp. split; [done|]. by apply unmatched_rows_new.
Qed.

Lemma run_matcher_produce_none bat d grouped comm (r : space) :
  good r -> (forall chs, chs ∈ grouped -> NoDup chs /\ no_match get bat d (V r) chs) ->
  let out := run_matcher_produce get bat d grouped comm r in reads r out.2 /\ out.1 = None.
Proof.
  revert r. induction grouped as [|channels rest IH]; intros r Hg Hno; simpl.
  { split; [by apply reads_refl|done]. }
  destruct (run_matcher_group bat d channels rest comm r Hg) as (m & r2 & Hr & Hm & Heq).
  simpl in Heq. rewrite Heq. clear Heq.
  destruct (Hno channels) as [Hnd Hnm]; [by left|].
  rewrite (extract_named_none bat d channels comm (V r) (produce_counter r) m) by done.
  destruct (IH r2 (reads_good _ _ Hr)) as [Hr' Hx].
  - intros chs Hchs. destruct (Hno chs) as [? ?]; [by right|]. split; [done|].
    eapply no_match_proper; [|done]. by symmetry; apply Hr.
  - split; [by eapply reads_trans|done].
Qed.

Lemma extract_single (channels : list C) (w : wc) idx m cands :
  NoDup channels -> find_all get m channels (wc_patterns w) = Some cands ->
  extract_first_match get channels [(w, idx)] m = Some (mkPC channels w idx cands).
Proof.
  intros Hnd Hall. destruct (extract_first_match_nodup get channels [(w, idx)] m Hnd) as [HS HN].
  destruct (extract_first_match _ _ _ _) as [pc|].
  - destruct (HS pc eq_refl) as ([|j] & w' & idx' & cands' & Hj & -> & Hall'); [|done].
    injection Hj as <- <-. congruence.
  - rewrite (HN eq_refl w idx) in Hall; [done|by left].
Qed.

Lemma named_proper rows rows' counter comm chs (m : gmap C (indexed datum)) :
  (forall ch, rows ch = rows' ch) -> named rows counter comm chs m -> named rows' counter comm chs m.
Proof. intros Heq Hn ch Hch. by rewrite <-Heq, Hn. Qed.

Lemma run_matcher_produce_some bat d grouped comm pc (r : space) :
  good r -> pc_channels pc ∈ grouped -> NoDup (pc_channels pc) ->
  (forall chs, chs ∈ grouped -> chs <> pc_channels pc ->
     forall w, w ∈ view_get_continuations (V r) chs -> comm_consume comm <> wc_source w) ->
  filter (fun wi => comm_consume comm = wc_source wi.1)
    (with_index (view_get_continuations (V r) (pc_channels pc))) =
    [(pc_continuation pc, pc_continuation_index pc)] ->
  (forall m, named (rows_new bat d (V r)) (produce_counter r) comm (pc_channels pc) m ->
     find_all get m (pc_channels pc) (wc_patterns (pc_continuation pc)) = Some (pc_data_candidates pc)) ->
  let out := run_matcher_produce get bat d grouped comm r in reads r out.2 /\ out.1 = Some pc.
Proof.
  revert r. induction grouped as [|channels rest IH]; intros r Hg Hin Hnd Hother Hcont Hall.
  { by apply elem_of_nil in Hin. }
  destruct (run_matcher_group bat d channels rest comm r Hg) as (m & r2 & Hr & Hm & Heq).
  cbv zeta. rewrite Heq. clear Heq. destruct (decide (channels = pc_channels pc)) as [->|Hne].
  - rewrite Hcont, (extract_single _ _ _ _ (pc_data_candidates pc)) by (try done; by apply Hall).
    split; [done|]. by destruct pc.
  - assert (filter (fun wi => comm_consume comm = wc_source wi.1)
      (with_index (view_get_continuations (V r) channels)) = []) as ->.
    { apply filter_nothing. intros [w i] (n & _ & Hn)%elem_of_with_index. simpl.
      apply (Hother channels); [by left|done|]. by eapply list_elem_of_lookup_2. }
    simpl. assert (V r2 ≡ V r) as Hv by apply Hr.
    assert (forall chs, view_get_continuations (V r2) chs = view_get_continuations (V r) chs) as Hc.
    { intros chs. unfold view_get_continuations. by rewrite !Hv. }
    destruct (IH r2 (reads_good _ _ Hr)) as [Hr' Hx].
    + apply elem_of_cons in Hin as [Heq|?]; [by destruct Hne|done].
    + done.
    + intros chs Hchs. rewrite Hc. apply Hother. by right.
    + by rewrite Hc.
    + intros m' Hm'. apply Hall. rewrite (reads_counter _ _ Hr) in Hm'.
      eapply named_proper; [|exact Hm']. intros ch. unfold rows_new. by rewrite Hv.
    + split; [by eapply reads_trans|done].
Qed.

(** ** Trying the COMMs of an event *)

Lemma try_none {X} (f : COMM -> ST space (option X)) comms (r r0 : space) :
  reads r r0 -> comms <> [] ->
  (forall comm r', comm ∈ comms -> reads r r' -> reads r (f comm r').2 /\ (f comm r').1 = None) ->
  let out := get_comm_or_candidate f comms r0 in reads r out.2 /\ out.1 = Ok None.
Proof.
  revert r0. induction comms as [|comm comms IH]; intros r0 Hr Hne Hf; [done|].
  simpl. unfold mbind, st_bind. destruct (Hf comm r0) as [Hr1 Hx]; [by left|done|].
  destruct (f comm r0) as [x r1]. simpl in *. subst x. destruct comms as [|comm' comms]; [done|].
  apply IH; [done..|]. intros c r' Hin. apply Hf. by right.
Qed.

Lemma try_single {X} (f : COMM -> ST space (option X)) comm (r : space) :
  get_comm_or_candidate f [comm] r = (Ok (pair comm <$> (f comm r).1), (f comm r).2).
Proof. simpl. unfold mbind, st_bind. by destruct (f comm r) as [[x|] r1]. Qed.
End sim.
