(* ===== verification/ReplaySteps.v ===== *)
(** * The branches of a replayed operation

    What [consume] and [produce] of [ReplayRSpace.v] do to the store and the table: the branch
    that stores a row, when nothing matches, and the branch that runs the COMM of the log. *)
From stdpp Require Import gmultiset.
From S2P Require Import Prelude Events HotStoreSig SpaceMatcher RSpace RSpaceSpec RSpaceInv.
From S2P Require Import ReplayRSpace ReplayTable ReplayThms ReplayIds ReplayMatch ReplaySim.
Open Scope res_scope.

Section steps.
Context {C P A K H S G : Type} `{Countable C} `{!HotStore C P A K S}.
Context `{!HistoryRepository C P A K H, !HotStoreFactory C P A K S, !Oracle G}.
Context `{!Debug P, !Debug K, !HotStoreLaws C P A K S}.
Context (cd : Codecs C P A K) (get : P -> A -> option A).

Abbreviation space := (RSpace C P K H S G).
Abbreviation replay := (ReplayRSpace C P A K H S G).
Abbreviation wc := (WaitingContinuation P K).
Abbreviation datum := (Datum A).
Abbreviation candidate := (ConsumeCandidate C A).
Abbreviation View := (View C P A K).

(** What a client of the replay sees *)
Definition RV (q : replay) : View := V (rp_space q).

(** [q'] differs from [q] in the store, and its table is [m]. *)
Record store_change (q q' : replay) (m : ReplayData) : Prop := {
  ch_good : good (rp_space q');
  ch_counter : produce_counter (rp_space q') = produce_counter (rp_space q);
  ch_table : replay_data q' = m;
}.

Lemma comms_for_reads k (q : replay) :
  good (rp_space q) ->
  let out := comms_for k q in
  reads (rp_space q) (rp_space out.2) /\ replay_data out.2 = replay_data q /\
  match out.1 with
  | None => replay_data q !! k = None
  | Some comms => exists ct, replay_data q !! k = Some ct /\ comms ≡ₚ fst <$> (map_to_list ct).*2
  end.
Proof.
  intros Hg. unfold comms_for, gets, mbind, st_bind. simpl. destruct (replay_data q !! k) as [ct|].
  2:{ split_and!; [by apply reads_refl|done..]. }
  unfold on_space. destruct (spec_permuted (map_to_list ct) (rp_space q) Hg) as [Hs [Hp Hv]].
  destruct (permuted (map_to_list ct) (rp_space q)) as [l r1]. simpl in *.
  split_and!; [by split|done|]. exists ct. by rewrite Hp.
Qed.

Lemma spec_on_space {X} (m : ST space X) Φ (q : replay) :
  spec m Φ -> good (rp_space q) ->
  store_step (rp_space q) (rp_space (on_space m q).2) /\
  replay_data (on_space m q).2 = replay_data q /\
  Φ (RV q) (on_space m q).1 (RV (on_space m q).2).
Proof.
  intros Hm Hg. unfold on_space, RV. destruct (Hm (rp_space q) Hg) as [Hs HΦ].
  by destruct (m (rp_space q)) as [x r1].
Qed.

Lemma replay_store_waiting_spec chs (w : wc) (q : replay) :
  good (rp_space q) ->
  let out := replay_store_waiting_continuation chs w q in
  out.1 = None /\ store_step (rp_space q) (rp_space out.2) /\ replay_data out.2 = replay_data q /\
  RV out.2 ≡ view_store_continuation chs w (RV q).
Proof.
  intros Hg. unfold replay_store_waiting_continuation, mbind, st_bind.
  destruct (spec_on_space _ _ q (spec_on_store _ _ (law_put_continuation chs w)) Hg)
    as (S1 & D1 & Hx & V1).
  destruct (on_space (on_store (put_continuation chs w)) q) as [x q1]. simpl in *.
  assert (exists q2, (if default false x then inc_waiting chs else mret tt) q1 = (tt, q2) /\
    reads (rp_space q1) (rp_space q2) /\ replay_data q2 = replay_data q1) as (q2 & -> & R2 & D2).
  { pose proof (step_good _ _ S1) as Hg1. destruct (default false x).
    2:{ exists q1. split_and!; [done|by apply reads_refl|done]. }
    unfold inc_waiting, modify, mbind, st_bind. set (qe := set_estimate _ q1).
    destruct (spec_on_space _ _ qe (spec_on_store _ _ (law_get_continuations chs)) Hg1)
      as (S2 & D2 & _ & V2).
    destruct (on_space (on_store (get_continuations chs)) qe) as [l q2]. simpl in *.
    exists q2. split_and!; [done|by split|done]. }
  destruct (spec_on_space _ _ q2 (spec_put_joins chs chs) (reads_good _ _ R2)) as (S3 & D3 & V3).
  destruct (on_space _ q2) as [y q3]. simpl in *. split_and!; [done| |congruence|].
  - eapply store_step_trans; [exact S1|]. eapply store_step_trans; [apply R2|exact S3].
  - rewrite V3. unfold view_store_continuation. unfold RV. rewrite (proj2 R2).
    fold (RV q1). by rewrite V1.
Qed.

Definition log_called (c : LogCall C P A K) (q : replay) : replay :=
  mkReplay (rp_space q) (replay_data q) (c :: logger q) (waiting_continuations_estimate q).

(** ** Consume *)

Lemma with_index_ids (l : list datum) : (fun e => datum_id e.1) <$> with_index l = datum_id <$> l.
Proof.
  apply list_eq. intros i. rewrite !list_lookup_fmap. unfold with_index. rewrite list_lookup_imap.
  by destruct (l !! i).
Qed.

Lemma replay_consume_stored chs ps k persist peeks (q : replay) cp :
  good (rp_space q) -> chs <> [] -> length chs = length ps -> NoDup chs ->
  table_ok (replay_data q) -> cp ∈ zip chs ps -> unmatched get (RV q) cp ->
  exists q', replay_consume cd get chs ps k persist peeks q = (Ok None, q') /\
  store_change q q' (replay_data q) /\
  RV q' ≡ view_store_continuation chs
    (mkWC ps k persist peeks (Consume_create cd chs ps k persist)) (RV q).
Proof.
  intros Hg Hne Hlen Hnd Hok Hcp Hu. unfold replay_consume.
  rewrite decide_False by done. rewrite decide_False by lia.
  set (cref := Consume_create cd chs ps k persist). unfold replay_locked_consume.
  set (wk := mkWC ps k persist peeks cref). unfold mbind at 1, st_bind at 1.
  unfold log_call, modify at 1. set (q0 := mkReplay (rp_space q) _ _ _).
  unfold mbind at 1, st_bind at 1.
  destruct (comms_for_reads (KConsume cref) q0 Hg) as (R1 & D1 & Hcomms).
  destruct (comms_for (KConsume cref) q0) as [comms q1]. simpl in R1, D1, Hcomms.
  assert (forall q2, reads (rp_space q) (rp_space q2) -> replay_data q2 = replay_data q ->
    exists q', (r ← replay_store_waiting_continuation chs wk; mret (Ok (E:=RSpaceError) r)) q2 = (Ok None, q') /\
    store_change q q' (replay_data q) /\
    RV q' ≡ view_store_continuation chs wk (RV q)) as Hstore.
  { intros q2 R2 D2. unfold mbind, st_bind.
    destruct (replay_store_waiting_spec chs wk q2 (reads_good _ _ R2)) as (Hx & S3 & D3 & V3).
    destruct (replay_store_waiting_continuation chs wk q2) as [x q3]. simpl in *. subst x.
    exists q3. split_and!; [done| |].
    - split; [apply S3| |congruence]. by rewrite (meta_counter _ _ (step_meta _ _ S3)), (reads_counter _ _ R2).
    - rewrite V3. apply view_store_continuation_proper. apply R2. }
  destruct comms as [comms|]; [|by apply Hstore].
  destruct Hcomms as (ct & Hct & Hperm).
  unfold mbind at 1, st_bind at 1. unfold on_space at 1.
  destruct (try_none (run_matcher_consume get chs ps) comms (rp_space q) (rp_space q1)) as [R2 Hx];
    [done|by eapply table_nonempty|..].
  { intros comm r' _ Hr'.
    destruct (run_matcher_consume_spec get chs ps comm r' (reads_good _ _ Hr') Hnd) as (R' & m & Hm & ->).
    split; [by eapply reads_trans|].
    apply (named_rows_none get (fun ch => with_index (v_data (V r') ch)) chs _ (produce_counter r') comm m Hm).
    exists cp. split; [done|]. intros [e i] (n & _ & Hn)%elem_of_with_index.
    rewrite (proj2 Hr') in Hn. apply Hu. by eapply list_elem_of_lookup_2. }
  destruct (get_comm_or_candidate _ comms (rp_space q1)) as [x r2]. simpl in R2, Hx. subst x.
  by apply Hstore.
Qed.

(** The rows of distinct channels of a view have distinct identities. *)
Definition ids_distinct (v : View) (chs : list C) : Prop :=
  (forall ch, ch ∈ chs -> NoDup (datum_id <$> v_data v ch)) /\
  (forall ch ch' d d', ch ∈ chs -> ch' ∈ chs -> d ∈ v_data v ch -> d' ∈ v_data v ch' ->
     datum_id d = datum_id d' -> ch = ch').

Lemma with_index_cross (v : View) chs : ids_distinct v chs ->
  (forall ch, ch ∈ chs -> NoDup ((fun e => datum_id e.1) <$> with_index (v_data v ch))) /\
  (forall ch ch' e e', ch ∈ chs -> ch' ∈ chs -> e ∈ with_index (v_data v ch) ->
     e' ∈ with_index (v_data v ch') -> datum_id e.1 = datum_id e'.1 -> ch = ch').
Proof.
  intros [H1 H2]. split; [intros ch Hch; rewrite with_index_ids; auto|].
  intros ch ch' [d i] [d' i'] Hch Hch' (n & _ & Hn)%elem_of_with_index (n' & _ & Hn')%elem_of_with_index.
  simpl. eapply H2; eauto using list_elem_of_lookup_2.
Qed.

Lemma picks_picked (v : View) cp cand :
  picks get v cp cand -> picked get (fun ch => with_index (v_data v ch)) cp cand.
Proof.
  intros (n & d & mat & Hn & Hg & ->). exists d, (Z.of_nat n), mat. split; [|done].
  apply elem_of_with_index. eauto.
Qed.

(** Running the COMM [comm] that the candidates make up *)
Lemma comm_performed_eq cands chs (w : wc) label (q : replay) :
  let comm := COMM_new cands (wc_source w) (wc_peeks w) (produce_counters (produce_counter (rp_space q))) in
  comm_performed cands chs w label q = (comm, log_called (LogComm cands chs w comm label) q).
Proof. done. Qed.

Lemma contains_single comm comm' : key_of comm' = key_of comm -> contains_comm [comm'] comm = true.
Proof. intros Hk. unfold contains_comm. simpl. by rewrite bool_decide_eq_true_2. Qed.

Lemma replay_consume_ran chs ps k persist peeks (q : replay) cands new left :
  good (rp_space q) -> chs <> [] -> length chs = length ps -> NoDup chs ->
  ids_distinct (RV q) chs -> Forall2 (picks get (RV q)) (zip chs ps) cands ->
  let cref := Consume_create cd chs ps k persist in
  let comm := COMM_new cands cref peeks (produce_counters (produce_counter (rp_space q))) in
  table_of new ({[+ key_of comm +]} ⊎ left) (replay_data q) -> KConsume cref ∈ new ->
  (forall c, c ∈ left -> KConsume cref ∉ parts c) ->
  exists q', replay_consume cd get chs ps k persist peeks q =
    (Ok (wrap_result chs (mkWC ps k persist peeks cref) cands), q') /\
  store_change q q' (remove_bindings (replay_data q) comm) /\
  data_after cands (RV q) (RV q') /\ conts_same (RV q) (RV q') /\ joins_same (RV q) (RV q').
Proof.
  intros Hg Hne Hlen Hnd Hids HF cref comm Ht Hnew Hleft. unfold replay_consume.
  rewrite decide_False by done. rewrite decide_False by lia. fold cref.
  unfold replay_locked_consume. set (wk := mkWC ps k persist peeks cref).
  unfold mbind at 1, st_bind at 1. unfold log_call, modify at 1. set (q0 := mkReplay (rp_space q) _ _ _).
  unfold mbind at 1, st_bind at 1.
  destruct (comms_for_reads (KConsume cref) q0 Hg) as (R1 & D1 & Hcomms).
  destruct (comms_for (KConsume cref) q0) as [comms q1]. simpl in R1, D1, Hcomms.
  assert (KConsume cref ∈ parts (key_of comm)) as Hpart by by left.
  destruct (table_lookup_some new left _ (KConsume cref) comm Ht Hnew Hpart) as [ct Hct].
  destruct comms as [comms|]; [|congruence]. destruct Hcomms as (ct' & Hct' & Hperm).
  destruct (table_single new left _ _ comm ct' comms Ht Hnew Hpart Hleft Hct' Hperm) as (comm' & -> & Hkey).
  unfold mbind at 1, st_bind at 1. unfold on_space at 1. rewrite try_single.
  destruct (run_matcher_consume_spec get chs ps comm' (rp_space q1) (reads_good _ _ R1) Hnd)
    as (R2 & m & Hm & Hx).
  destruct (run_matcher_consume get chs ps comm' (rp_space q1)) as [x r2]. simpl in R2, Hx.
  assert (x = Some cands) as ->.
  { rewrite Hx. rewrite (reads_counter _ _ R1) in Hm.
    destruct (with_index_cross _ _ Hids) as [Hn Hc].
    apply (named_rows_found get (fun ch => with_index (v_data (RV q) ch)) chs Hn Hc ps cands
      (produce_counter (rp_space q)) comm' cref peeks m); [done| |done|].
    - eapply Forall2_impl; [exact HF|]. apply picks_picked.
    - intros ch Hch. rewrite (Hm ch Hch). by rewrite (proj2 R1). }
  cbn [fst snd fmap option_fmap option_map]. cbv iota beta. unfold mbind at 1, st_bind at 1. rewrite comm_performed_eq.
  assert (reads (rp_space q) r2) as R by by eapply reads_trans.
  change (produce_counter (rp_space (set_space r2 q1))) with (produce_counter r2).
  rewrite (reads_counter _ _ R). change (COMM_new cands (wc_source wk) (wc_peeks wk) _) with comm.
  rewrite (contains_single _ _ Hkey). unfold mbind at 1, st_bind at 1.
  set (q3 := log_called _ _). change (rp_space q3) with r2.
  destruct (spec_on_space _ _ q3 (spec_store_persistent_data cands) (reads_good _ _ R)) as (S4 & D4 & Hd).
  destruct (on_space (store_persistent_data cands) q3) as [y q4]. simpl in S4, D4, Hd.
  assert (RV q3 ≡ RV q) as Hv3 by apply R.
  destruct Hd as (Hd & Hc & Hj).
  { rewrite (picks_channels _ _ _ _ HF), zip_fst; done. }
  { intros c Hin. destruct (picks_all_in_row _ _ _ _ HF c Hin). split; [done|].
    by eapply in_row_proper. }
  eexists. split; [reflexivity|]. split_and!.
  - split; simpl; [apply S4| |by rewrite D4; simpl; rewrite D1].
    rewrite (meta_counter _ _ (step_meta _ _ S4)). apply (reads_counter _ _ R).
  - by eapply data_after_proper.
  - by eapply conts_same_proper.
  - by eapply joins_same_proper.
Qed.

(** ** Produce *)

(** What follows the lookup of the COMMs of the produce *)
Definition produce_found (channel : C) (a : A) persist pref (grouped : list (list C)) (comms_option : option (list COMM)) :
  ST replay (res RSpaceError (MaybeProduceResult (C:=C) (P:=P) (A:=A) (K:=K))) :=
  match comms_option with
  | None => r ← on_space (store_data channel a persist pref); mret (Ok r)
  | Some comms =>
    found ← on_space (get_comm_or_candidate
      (run_matcher_produce get channel (mkDatum a persist pref) grouped) comms);
    match found with
    | Ok (Some (comm, pc)) =>
      consume_result <- (handle_match pc comms :
        ST replay (res RSpaceError (MaybeConsumeResult (C:=C) (P:=P) (A:=A) (K:=K)))) ;?
      let p := List.find (fun p => bool_decide (p_hash p = p_hash pref)) (comm_produces comm) in
      lift (Ok ((fun cr => (cr.1, cr.2, default pref p)) <$> consume_result))
    | Ok None => r ← on_space (store_data channel a persist pref); mret (Ok r)
    | Err e => mret (Err e)
    | Panic => mret Panic
    end
  end.

Lemma produce_prefix channel (a : A) persist (q : replay) :
  good (rp_space q) ->
  let pref := Produce_create cd channel a persist in
  exists q3 comms,
    replay_produce cd get channel a persist q =
      produce_found channel a persist pref (view_get_joins (RV q) channel) comms q3 /\
    good (rp_space q3) /\ RV q3 ≡ RV q /\
    produce_counter (rp_space q3) = counted pref persist (produce_counter (rp_space q)) /\
    replay_data q3 = replay_data q /\
    match comms with
    | None => replay_data q !! KProduce (p_hash pref) = None
    | Some comms => exists ct, replay_data q !! KProduce (p_hash pref) = Some ct /\
        comms ≡ₚ fst <$> (map_to_list ct).*2
    end.
Proof.
  intros Hg pref. unfold replay_produce, replay_locked_produce. fold pref.
  unfold mbind at 1, st_bind at 1.
  destruct (spec_on_space _ _ q (spec_on_store _ _ (law_get_joins channel)) Hg) as (S1 & D1 & _ & V1).
  destruct (on_space (on_store (get_joins channel)) q) as [j1 q1]. simpl in S1, D1, V1.
  unfold mbind at 1, st_bind at 1.
  destruct (spec_on_space _ _ q1 (spec_on_store _ _ (law_get_joins channel)) (step_good _ _ S1))
    as (S2 & D2 & Hj & V2).
  destruct (on_space (on_store (get_joins channel)) q1) as [js q2]. simpl in S2, D2, Hj, V2.
  assert (js = view_get_joins (RV q) channel) as ->.
  { rewrite Hj. unfold view_get_joins. by rewrite !V1. }
  unfold mbind at 1, st_bind at 1.
  assert (exists qp, replay_log_produce pref channel a persist q2 = (tt, qp) /\
    good (rp_space qp) /\ RV qp = RV q2 /\ replay_data qp = replay_data q2 /\
    produce_counter (rp_space qp) = counted pref persist (produce_counter (rp_space q2)))
    as (qp & -> & Hgp & Vp & Dp & Cp).
  { unfold replay_log_produce, log_call, modify, mbind, st_bind, counted.
    pose proof (step_good _ _ S2). destruct persist; eexists; (split; [reflexivity|]); done. }
  unfold mbind at 1, st_bind at 1.
  destruct (comms_for_reads (KProduce (p_hash pref)) qp Hgp) as (R3 & D3 & Hcomms).
  destruct (comms_for (KProduce (p_hash pref)) qp) as [comms q3]. simpl in R3, D3, Hcomms.
  exists q3, comms. split; [done|]. rewrite Dp, D2, D1 in D3, Hcomms.
  split_and!; [by eapply reads_good| | |done|done].
  - unfold RV. rewrite (proj2 R3). fold (RV qp). by rewrite Vp, V2, V1.
  - rewrite (reads_counter _ _ R3), Cp.
    by rewrite (meta_counter _ _ (step_meta _ _ S2)), (meta_counter _ _ (step_meta _ _ S1)).
Qed.

(** [q'] differs from [q] in the store and the counter of [pref], and its table is [m]. *)
Definition produce_change pref persist (q q' : replay) (m : ReplayData) : Prop :=
  good (rp_space q') /\
  produce_counter (rp_space q') = counted pref persist (produce_counter (rp_space q)) /\
  replay_data q' = m.

Lemma store_data_spec channel (a : A) persist pref (q : replay) :
  good (rp_space q) ->
  exists q', (r ← on_space (store_data channel a persist pref); mret (Ok (E:=RSpaceError) r)) q =
      (Ok None, q') /\
    store_step (rp_space q) (rp_space q') /\ replay_data q' = replay_data q /\
    RV q' ≡ view_put_datum channel (mkDatum a persist pref) (RV q).
Proof.
  intros Hg. unfold mbind, st_bind.
  assert (spec (store_data channel a persist pref : ST space _)
    (fun v x v' => x = None /\ v' ≡ view_put_datum channel (mkDatum a persist pref) v)) as Hs.
  { eapply spec_impl; [eapply spec_bind; [apply spec_put_datum|intros x; apply spec_ret]|].
    intros v x v' (y & v1 & H1 & -> & H2). split; [done|by etrans]. }
  destruct (spec_on_space _ _ q Hs Hg) as (S1 & D1 & Hx & V1).
  destruct (on_space (store_data channel a persist pref) q) as [x q1]. simpl in *. subst x.
  by exists q1.
Qed.

Lemma replay_produce_stored channel (a : A) persist (q : replay) :
  let pref := Produce_create cd channel a persist in
  let d := mkDatum a persist pref in
  good (rp_space q) -> table_ok (replay_data q) ->
  (forall chs, chs ∈ view_get_joins (RV q) channel -> NoDup chs /\ no_match get channel d (RV q) chs) ->
  exists q', replay_produce cd get channel a persist q = (Ok None, q') /\
    produce_change pref persist q q' (replay_data q) /\
    RV q' ≡ view_put_datum channel d (RV q).
Proof.
  intros pref d Hg Hok Hno.
  destruct (produce_prefix channel a persist q Hg) as (q3 & comms & -> & Hg3 & V3 & C3 & D3 & Hcomms).
  fold pref in C3, Hcomms |- *.
  assert (forall q4, reads (rp_space q3) (rp_space q4) -> replay_data q4 = replay_data q3 ->
    exists q', (r ← on_space (store_data channel a persist pref); mret (Ok (E:=RSpaceError) r)) q4 =
      (Ok None, q') /\ produce_change pref persist q q' (replay_data q) /\
    RV q' ≡ view_put_datum channel d (RV q)) as Hstore.
  { intros q4 R4 D4. destruct (store_data_spec channel a persist pref q4 (reads_good _ _ R4))
      as (q' & -> & S5 & D5 & V5). exists q'. split_and!; [done| |].
    - split_and!; [apply S5| |congruence].
      by rewrite (meta_counter _ _ (step_meta _ _ S5)), (reads_counter _ _ R4).
    - rewrite V5. assert (RV q4 ≡ RV q) as E by (etrans; [apply R4|done]).
      unfold view_put_datum. by rewrite E. }
  unfold produce_found. destruct comms as [comms|].
  2:{ apply Hstore; [by apply reads_refl|done]. }
  destruct Hcomms as (ct & Hct & Hperm). unfold mbind at 1, st_bind at 1. unfold on_space at 1.
  destruct (try_none (run_matcher_produce get channel d (view_get_joins (RV q) channel)) comms
    (rp_space q3) (rp_space q3)) as [R4 Hx]; [by apply reads_refl|by eapply table_nonempty|..].
  { intros comm r' _ Hr'.
    destruct (run_matcher_produce_none get channel d (view_get_joins (RV q) channel) comm r'
      (reads_good _ _ Hr')) as [R' Hx].
    - intros chs Hchs. destruct (Hno chs Hchs) as [? ?]. split; [done|].
      eapply no_match_proper; [|done]. rewrite <-V3. symmetry. apply Hr'.
    - split; [by eapply reads_trans|done]. }
  subst d. destruct (get_comm_or_candidate _ comms (rp_space q3)) as [x r4]. simpl in R4, Hx. subst x.
  by apply Hstore.
Qed.

Lemma rows_new_cross channel (d : datum) (v : View) chs :
  ids_distinct v chs -> (forall ch e, ch ∈ chs -> e ∈ v_data v ch -> datum_id e <> datum_id d) ->
  (forall ch, ch ∈ chs -> NoDup ((fun e => datum_id e.1) <$> rows_new channel d v ch)) /\
  (forall ch ch' e e', ch ∈ chs -> ch' ∈ chs -> e ∈ rows_new channel d v ch ->
     e' ∈ rows_new channel d v ch' -> datum_id e.1 = datum_id e'.1 -> ch = ch').
Proof.
  intros Hids Hnew. destruct (with_index_cross v chs Hids) as [Hn Hc].
  assert (forall ch e, ch ∈ chs -> e ∈ with_index (v_data v ch) -> datum_id e.1 <> datum_id d) as Hne.
  { intros ch [e i] Hch (n & _ & Hi)%elem_of_with_index. eapply Hnew; [done|].
    by eapply list_elem_of_lookup_2. }
  assert (forall ch e, e ∈ rows_new channel d v ch ->
    e ∈ with_index (v_data v ch) \/ (ch = channel /\ e = (d, (-1)%Z))) as Hcase.
  { intros ch e. unfold rows_new, new_row. case_decide; [rewrite elem_of_cons|]; tauto. }
  split.
  - intros ch Hch. unfold rows_new, new_row. case_decide; [|by apply Hn]. csimpl.
    apply NoDup_cons. split; [|by apply Hn]. intros (e & Heq & He)%list_elem_of_fmap.
    by apply (Hne ch e Hch He).
  - intros ch ch' e e' Hch Hch' [He|[-> ->]]%Hcase [He'|[-> ->]]%Hcase Heq; [by eapply Hc|..|done].
    + by destruct (Hne ch e Hch He).
    + by destruct (Hne ch' e' Hch' He').
Qed.

Lemma picks_new_picked channel (d : datum) (v : View) cp cand :
  picks_new get channel d v cp cand -> picked get (rows_new channel d v) cp cand.
Proof.
  intros [Hp|(Hch & mat & Hg & ->)].
  - destruct (picks_picked v cp cand Hp) as (e & i & mat & Hin & ?). exists e, i, mat.
    split; [|done]. unfold rows_new, new_row. case_decide; [by right|done].
  - exists d, (-1)%Z, mat. rewrite Hch. split_and!; [|done..]. unfold rows_new, new_row.
    rewrite decide_True by done. by left.
Qed.

(** The continuation that ran is found again. *)
Lemma continuation_found (v : View) chs comm (w : wc) n :
  NoDup (wc_source <$> view_get_continuations v chs) -> view_get_continuations v chs !! n = Some w ->
  comm_consume comm = wc_source w ->
  filter (fun wi => comm_consume comm = wc_source wi.1) (with_index (view_get_continuations v chs)) =
  [(w, Z.of_nat n)].
Proof.
  intros Hnd Hn Hc. apply (filter_single _ _ n).
  - unfold with_index. by rewrite list_lookup_imap, Hn.
  - done.
  - intros j [w' i] Hj Hw'. simpl in Hw'. unfold with_index in Hj. rewrite list_lookup_imap in Hj.
    destruct (view_get_continuations v chs !! j) as [w''|] eqn:Hj'; [|done].
    injection Hj as -> _. eapply (NoDup_lookup _ j n (wc_source w') Hnd).
    + by rewrite list_lookup_fmap, Hj'.
    + rewrite list_lookup_fmap, Hn. simpl. congruence.
Qed.

Lemma handle_match_spec pc comm comm' (q : replay) :
  good (rp_space q) ->
  comm = COMM_new (pc_data_candidates pc) (wc_source (pc_continuation pc))
    (wc_peeks (pc_continuation pc)) (produce_counters (produce_counter (rp_space q))) ->
  key_of comm' = key_of comm ->
  NoDup (cc_channel <$> pc_data_candidates pc) ->
  (forall c, c ∈ pc_data_candidates pc -> in_row (RV q) c) ->
  exists q', handle_match pc [comm'] q =
      (Ok (wrap_result (pc_channels pc) (pc_continuation pc) (pc_data_candidates pc)), q') /\
    store_change q q' (remove_bindings (replay_data q) comm) /\ match_processed pc (RV q) (RV q').
Proof.
  intros Hg Hcomm Hkey Hnd Hrow. unfold handle_match.
  unfold mbind at 1, st_bind at 1. rewrite comm_performed_eq. rewrite <-Hcomm.
  rewrite (contains_single _ _ Hkey). set (q1 := log_called _ q).
  destruct (spec_take_and_remove pc (rp_space q1) Hg) as [S2 Hmp].
  unfold mbind, st_bind in S2, Hmp.
  set (take := if wc_persist (pc_continuation pc) then mret None
    else on_space (on_store (remove_continuation (pc_channels pc) (pc_continuation_index pc)))).
  set (take' := if wc_persist (pc_continuation pc) then mret None
    else on_store (remove_continuation (pc_channels pc) (pc_continuation_index pc))) in *.
  assert (take q1 = ((take' (rp_space q1)).1, set_space (take' (rp_space q1)).2 q1)) as Htake.
  { subst take take'. destruct (wc_persist _); [by destruct q1|]. unfold on_space.
    by destruct (on_store _ (rp_space q1)). }
  unfold mbind at 1, st_bind at 1. rewrite Htake.
  destruct (take' (rp_space q1)) as [x r2]. cbn [fst snd] in S2, Hmp |- *.
  unfold mbind at 1, st_bind at 1. unfold mark_waiting_match, modify at 1.
  match goal with |- context [if decide ?c then ?t else ?e] => set (q3 := if decide c then t else e) end.
  assert (rp_space q3 = r2 /\ replay_data q3 = replay_data q) as [E3 D3]
    by (subst q3; by case_decide).
  clearbody q3. unfold mbind at 1, st_bind at 1. unfold on_space. rewrite E3.
  destruct (remove_matched_datum_and_join (pc_channels pc) (pc_data_candidates pc) r2) as [y r4].
  cbn [fst snd] in S2, Hmp |- *. eexists. split; [reflexivity|]. split.
  - split; simpl; [apply S2|apply (meta_counter _ _ (step_meta _ _ S2))|by rewrite D3].
  - by apply Hmp.
Qed.

Lemma replay_produce_ran channel (a : A) persist (q : replay) pc new left :
  let pref := Produce_create cd channel a persist in
  let d := mkDatum a persist pref in
  let comm := COMM_new (pc_data_candidates pc) (wc_source (pc_continuation pc))
    (wc_peeks (pc_continuation pc))
    (produce_counters (counted pref persist (produce_counter (rp_space q)))) in
  good (rp_space q) -> pc_channels pc ∈ view_get_joins (RV q) channel -> NoDup (pc_channels pc) ->
  match_found get channel d (RV q) pc ->
  ids_distinct (RV q) (pc_channels pc) ->
  (forall ch e, ch ∈ pc_channels pc -> e ∈ v_data (RV q) ch -> datum_id e <> datum_id d) ->
  NoDup (wc_source <$> view_get_continuations (RV q) (pc_channels pc)) ->
  (forall chs, chs ∈ view_get_joins (RV q) channel -> chs <> pc_channels pc ->
     forall w, w ∈ view_get_continuations (RV q) chs -> wc_source (pc_continuation pc) <> wc_source w) ->
  table_of new ({[+ key_of comm +]} ⊎ left) (replay_data q) ->
  KProduce (p_hash pref) ∈ new -> KProduce (p_hash pref) ∈ parts (key_of comm) ->
  (forall c, c ∈ left -> KProduce (p_hash pref) ∉ parts c) ->
  exists q' p, p_hash p = p_hash pref /\
    replay_produce cd get channel a persist q =
      (Ok ((fun cr => (cr.1, cr.2, p)) <$>
        wrap_result (pc_channels pc) (pc_continuation pc) (pc_data_candidates pc)), q') /\
    produce_change pref persist q q' (remove_bindings (replay_data q) comm) /\
    match_processed pc (RV q) (RV q').
Proof.
  intros pref d comm Hg Hin Hnd Hmf Hids Hfresh Hcnd Hother Ht Hnew Hpart Hleft.
  destruct (produce_prefix channel a persist q Hg) as (q3 & comms & -> & Hg3 & V3 & C3 & D3 & Hcomms).
  fold pref in C3, Hcomms |- *.
  destruct (table_lookup_some new left _ _ comm Ht Hnew Hpart) as [ct Hct].
  destruct comms as [comms|]; [|congruence]. destruct Hcomms as (ct' & Hct' & Hperm).
  destruct (table_single new left _ _ comm ct' comms Ht Hnew Hpart Hleft Hct' Hperm) as (comm' & -> & Hkey).
  unfold produce_found. unfold mbind at 1, st_bind at 1. unfold on_space at 1. rewrite try_single.
  fold d. pose proof Hmf as (n & Hidx & Hn & HF).
  assert (comm_consume comm' = wc_source (pc_continuation pc)) as Hcc by (by injection Hkey).
  assert (forall chs, view_get_continuations (V (rp_space q3)) chs = view_get_continuations (RV q) chs) as HC.
  { intros chs. unfold view_get_continuations. fold (RV q3). by rewrite !V3. }
  destruct (run_matcher_produce_some get channel d (view_get_joins (RV q) channel) comm' pc (rp_space q3) Hg3)
    as [R4 Hx]; [done|done|..].
  { intros chs Hchs Hne w. rewrite HC, Hcc. by apply Hother. }
  { rewrite HC, Hidx. by apply continuation_found. }
  { intros m Hm. destruct (rows_new_cross channel d (RV q) (pc_channels pc) Hids Hfresh) as [Hr1 Hr2].
    rewrite C3 in Hm.
    eapply (named_rows_found get (rows_new channel d (RV q)) (pc_channels pc) Hr1 Hr2); [done| |exact Hkey|].
    - eapply Forall2_impl; [exact HF|]. apply picks_new_picked.
    - intros ch Hch. rewrite (Hm ch Hch). unfold rows_new. fold (RV q3). by rewrite V3. }
  destruct (run_matcher_produce get channel d _ comm' (rp_space q3)) as [x r4]. cbn [fst snd] in R4, Hx |- *.
  subst x. cbn [fmap option_fmap option_map]. set (q4 := set_space r4 q3).
  assert (RV q4 ≡ RV q) as V4 by (etrans; [apply R4|done]).
  destruct (match_found_removable get channel d (RV q) pc Hnd Hmf) as [Hndc Hrow].
  destruct (handle_match_spec pc comm comm' q4) as (q5 & Hh & [Hg5 C5 D5] & Hmp5).
  - apply (reads_good _ _ R4).
  - subst comm. change (rp_space q4) with r4. by rewrite (reads_counter _ _ R4), C3.
  - done.
  - done.
  - intros c Hc. eapply in_row_proper; [done|]. by apply Hrow.
  - unfold try_bind. rewrite Hh. eexists q5, _. split; [|split; [reflexivity|]].
    + destruct (List.find _ (comm_produces comm')) as [p|] eqn:Hf; [|done].
      apply List.find_some in Hf as [_ Hf]. by apply bool_decide_eq_true in Hf.
    + split.
      * split_and!; [done| |by rewrite D5; simpl; rewrite D3].
        rewrite C5. simpl. by rewrite (reads_counter _ _ R4).
      * by eapply match_processed_proper.
Qed.
End steps.
