(* ===== verification/ReplayEquiv.v ===== *)
(** * Replaying a run gives the run

    The operations of a run of [RSpace] on distinct channels, replayed on a [ReplayRSpace] with the
    same rows and counters that was rigged with the log of the run: every operation returns
    what it returned in the run, the rows and counters are the same at the end, and no COMM of
    the log is left, whatever the random choices of both spaces. *)
From stdpp Require Import gmultiset.
From S2P Require Import Prelude Events HotStoreSig SpaceMatcher RSpace RSpaceSpec RSpaceInv.
From S2P Require Import ReplayRSpace ReplayTable ReplayThms ReplayIds ReplayMatch ReplaySim ReplaySteps.

(** ** Effects are determined by the candidates *)
Section det.
Context {C P A K : Type} `{Countable C} `{!Debug P, !Debug K}.
Abbreviation View := (View C P A K).
Abbreviation candidate := (ConsumeCandidate C A).

Lemma data_after_det (cs : list candidate) (v w v' w' : View) ch :
  v ≡ w -> data_after cs v v' -> data_after cs w w' -> v_data v' ch = v_data w' ch.
Proof.
  intros Hv [Ho Hi] [Ho' Hi']. destruct (decide (ch ∈ cc_channel <$> cs)) as [Hin|Hn].
  - apply list_elem_of_fmap in Hin as (c & -> & Hc). rewrite (Hi c Hc), (Hi' c Hc). by rewrite Hv.
  - rewrite Ho, Ho' by done. by rewrite Hv.
Qed.

Lemma consumed_det (cs : list candidate) (v w v' w' : View) :
  v ≡ w -> data_after cs v v' -> conts_same v v' -> joins_same v v' ->
  data_after cs w w' -> conts_same w w' -> joins_same w w' -> v' ≡ w'.
Proof.
  intros Hv Hd [C1 C2] [J1 J2] Hd' [C1' C2'] [J1' J2']. split_and!; intros.
  - by rewrite C1, C1', Hv.
  - by rewrite C2, C2', Hv.
  - exact (data_after_det _ v w _ _ _ Hv Hd Hd').
  - by rewrite J1, J1', Hv.
  - by rewrite J2, J2', Hv.
Qed.

Lemma processed_det (pc : ProduceCandidate C P A K) (v w v' w' : View) :
  v ≡ w -> match_processed pc v v' -> match_processed pc w w' -> v' ≡ w'.
Proof.
  intros Hv (Hd & [C1 C2] & (J1 & J2 & J3)) (Hd' & [C1' C2'] & (J1' & J2' & J3')).
  pose proof (continuation_taken_proper pc v w Hv) as Ht. split_and!; intros.
  - by rewrite C1, C1', Ht.
  - by rewrite C2, C2', Ht.
  - exact (data_after_det _ v w _ _ _ Hv Hd Hd').
  - destruct (decide (ch ∈ cc_channel <$> pc_data_candidates pc)) as [Hin|Hn].
    + apply list_elem_of_fmap in Hin as (c & -> & Hc). rewrite (J2 c Hc), (J2' c Hc).
      by apply join_left_proper.
    + rewrite J1, J1' by done. by rewrite Ht.
  - rewrite J3, J3'. by rewrite Ht.
Qed.
End det.

Section equiv.
Context {C P A K H S G : Type} `{Countable C} `{!HotStore C P A K S}.
Context `{!HistoryRepository C P A K H, !HotStoreFactory C P A K S, !Oracle G}.
Context `{!Debug P, !Debug K, !HotStoreLaws C P A K S}.
Context (cd : Codecs C P A K) (get : P -> A -> option A).
Context (ch_in : C -> Prop) (chs_in : list C -> Prop).
Hypothesis chs_in_ch : forall chs ch, chs_in chs -> ch ∈ chs -> ch_in ch.

Abbreviation space := (RSpace C P K H S G).
Abbreviation replay := (ReplayRSpace C P A K H S G).
Abbreviation wc := (WaitingContinuation P K).
Abbreviation datum := (Datum A).
Abbreviation candidate := (ConsumeCandidate C A).
Abbreviation View := (View C P A K).
Abbreviation Inv := (Inv get ch_in chs_in).
Abbreviation distinct := (distinct ch_in chs_in).
Abbreviation stored := (stored ch_in chs_in).
Abbreviation known := (known ch_in chs_in).
Abbreviation inv := (space_inv cd get ch_in chs_in).

(** The identity of an operation *)
Definition op_key (o : SpaceOp C P A K) : io_key :=
  match o with
  | SConsume channels patterns k persist _ => KConsume (Consume_create cd channels patterns k persist)
  | SProduce channel a persist => KProduce (p_hash (Produce_create cd channel a persist))
  end.
(** What a client may call: distinct channels in use, with one pattern each *)
Definition op_ok (o : SpaceOp C P A K) : Prop :=
  match o with
  | SConsume channels patterns _ _ _ =>
    chs_in channels /\ channels <> [] /\ length channels = length patterns /\ NoDup channels
  | SProduce channel _ _ => ch_in channel
  end.
(** The same result, up to what the log knows more of a produce than its identity *)
Definition same_result (x y : OpResult C P A K) : Prop :=
  match x, y with
  | inl x, inl y => x = y
  | inr None, inr None => True
  | inr (Some (cr, rs, p)), inr (Some (cr', rs', p')) => cr = cr' /\ rs = rs' /\ p_hash p = p_hash p'
  | _, _ => False
  end.

(** The space and its replay agree. *)
Record agree (r : space) (q : replay) : Prop := {
  ag_good : good (rp_space q);
  ag_view : RV q ≡ V r;
  ag_counter : produce_counter (rp_space q) = produce_counter r;
}.

(** What one operation of the run promises to its replay: [evs] are the events it logged. *)
Record op_promise (o : SpaceOp C P A K) (ids : list io_key) (r : space) (x : OpResult C P A K)
    (r1 : space) (evs : Log) : Prop := {
  op_log : event_log r1 = evs ++ event_log r;
  op_io : io_events evs = {[op_key o]};
  op_inv : inv r1;
  op_distinct : distinct (V r1) ids;
  op_stored : forall k, stored (V r1) k -> stored (V r) k \/ k = op_key o;
  op_origin : forall c k, c ∈ comms_of evs -> k ∈ parts (key_of c) -> k = op_key o \/ stored (V r) k;
  op_once : comms_of evs = [] \/ ~ known (V r1) ids (op_key o);
  op_replay : forall q new left, agree r q -> op_key o ∈ new ->
    table_of new (list_to_set_disj (key_of <$> comms_of evs) ⊎ left) (replay_data q) ->
    (comms_of evs <> [] -> forall c, c ∈ left -> op_key o ∉ parts c) ->
    exists y q1, replay_op cd get o q = (Ok y, q1) /\ same_result x y /\ agree r1 q1 /\
      table_of new left (replay_data q1);
}.

Lemma distinct_ids (v w : View) chs ids :
  distinct v ids -> chs_in chs -> v ≡ w -> ids_distinct w chs.
Proof.
  intros [D1 D2 _ _ _ _] Hchs Hv. split.
  - intros ch Hch. rewrite <-Hv. apply D1. by eapply chs_in_ch.
  - intros ch ch' d d' Hch Hch'. rewrite <- !Hv. apply D2; by eapply chs_in_ch.
Qed.

Lemma picks_stored (v : View) chs ps cands h :
  chs_in chs -> Forall2 (picks get v) (zip chs ps) cands -> h ∈ cand_id <$> cands -> stored v (KProduce h).
Proof.
  intros Hchs HF (c & -> & Hc)%list_elem_of_fmap. apply list_elem_of_lookup in Hc as [i Hc].
  destruct (Forall2_lookup_r _ _ _ _ _ HF Hc) as (cp & Hcp & n & d & mat & Hn & _ & ->).
  exists cp.1, d. split_and!; [|by eapply list_elem_of_lookup_2|done].
  eapply chs_in_ch; [done|]. eapply cp_channel. by eapply list_elem_of_lookup_2.
Qed.

Lemma comm_parts (cands : list candidate) c peeks counters k :
  k ∈ parts (key_of (COMM_new cands c peeks counters)) ->
  k = KConsume c \/ exists h, k = KProduce h /\ h ∈ cand_id <$> cands.
Proof.
  intros [->|(h & -> & Hh)%list_elem_of_fmap]%elem_of_cons; [by left|]. right. exists h.
  split; [done|]. by rewrite (comm_new_hashes cands c peeks counters) in Hh.
Qed.

(** ** Consume *)

Lemma consume_promise channels patterns k persist peeks r ids :
  let o := SConsume channels patterns k persist peeks in
  inv r -> op_ok o -> distinct (V r) (op_key o :: ids) ->
  exists x r1 evs, play_op cd get o r = (Ok x, r1) /\ op_promise o ids r x r1 evs.
Proof.
  intros o Hinv (Hchs & Hne & Hlen & Hnd) Hds. simpl in Hds.
  set (cref := Consume_create cd channels patterns k persist) in *.
  pose proof (si_good _ _ _ _ _ Hinv) as Hg.
  pose proof (consume_keeps cd get ch_in chs_in channels patterns k persist peeks r Hchs Hne Hlen Hnd Hinv)
    as Hinv'.
  destruct (consume_spec cd get channels patterns k persist peeks r Hg Hne Hlen Hnd) as (_ & Hct & Ho).
  simpl. unfold try_bind, lift.
  destruct (consume cd get channels patterns k persist peeks r) as [out r1]. simpl in *.
  destruct Ho as [(cands & HF & -> & Hlog & Hd & Hc & Hj)|(cp & Hcp & Hu & -> & Hlog & Hv)];
    fold cref in Hlog |- *.
  - set (comm := COMM_new cands cref peeks (produce_counters (produce_counter r))) in *.
    eexists _, r1, [Comm comm; IoEvent (IOConsume cref)]. split; [done|].
    destruct (distinct_shrinks ch_in chs_in (V r) (V r1) (KConsume cref) ids) as [Hds1 Honce];
      [by eapply shrinks_consume|done|].
    split; [done| |done|done| | |by right|].
    + unfold io_events. simpl. by rewrite (right_id_L ∅ (∪)).
    + intros k' Hk'. left. eapply shrinks_stored; [|done]. by eapply shrinks_consume.
    + intros c k' Hin Hk'. simpl in Hin. apply list_elem_of_singleton in Hin as ->.
      apply comm_parts in Hk' as [->|(h & -> & Hh)]; [by left|right]. by eapply picks_stored.
    + intros q new left [Hgq Hvq Hcq] Hnew Ht Hleft. simpl in Ht, Hleft.
      rewrite (right_id_L ∅ (⊎)) in Ht. unfold comm in Ht. rewrite <-Hcq in Ht.
      assert (Forall2 (picks get (RV q)) (zip channels patterns) cands) as HFq.
      { eapply Forall2_impl; [exact HF|]. intros cp c. apply picks_proper. by symmetry. }
      destruct (replay_consume_ran cd get channels patterns k persist peeks q cands new left)
        as (q1 & Hrun & [Hg1 C1 D1] & Hd1 & Hc1 & Hj1); try done.
      { eapply distinct_ids; [exact Hds|done|by symmetry]. }
      { by apply Hleft. }
      exists (inl (wrap_result channels (mkWC patterns k persist peeks cref) cands)), q1.
      simpl. unfold try_bind, lift. rewrite Hrun. split_and!; [done|done| |].
      * split; [done| |congruence]. symmetry.
        eapply consumed_det; [symmetry; exact Hvq|done..].
      * rewrite D1. eapply table_run; [exact Ht|exact Hnew|]. by left.
  - eexists _, r1, [IoEvent (IOConsume cref)]. split; [done|].
    destruct (distinct_store_continuation ch_in chs_in channels
      (mkWC patterns k persist peeks cref) (V r) (V r1) ids Hchs Hv Hds) as [Hds1 Hst].
    split; [done| |done|done|done| |by left|].
    + unfold io_events. simpl. by rewrite (right_id_L ∅ (∪)).
    + by intros c k' ?%elem_of_nil.
    + intros q new left [Hgq Hvq Hcq] Hnew Ht _. simpl in Ht. rewrite (left_id_L ∅ (⊎)) in Ht.
      destruct (replay_consume_stored cd get channels patterns k persist peeks q cp)
        as (q1 & Hrun & [Hg1 C1 D1] & V1); try done.
      { apply Ht. }
      { intros d. rewrite Hvq. apply Hu. }
      exists (inl None), q1. simpl. unfold try_bind, lift. rewrite Hrun.
      split_and!; [done|done| |by rewrite D1].
      split; [done| |congruence]. rewrite V1, Hv. by apply view_store_continuation_proper.
Qed.

(** ** Produce *)

Lemma picks_new_ids bat (d : datum) (v : View) chs ps cands h :
  chs_in chs -> Forall2 (picks_new get bat d v) (zip chs ps) cands -> h ∈ cand_id <$> cands ->
  h = datum_id d \/ stored v (KProduce h).
Proof.
  intros Hchs HF (c & -> & Hc)%list_elem_of_fmap. apply list_elem_of_lookup in Hc as [i Hc].
  destruct (Forall2_lookup_r _ _ _ _ _ HF Hc)
    as (cp & Hcp & [(n & e & mat & Hn & _ & ->)|(_ & mat & _ & ->)]); [right|by left].
  exists cp.1, e. split_and!; [|by eapply list_elem_of_lookup_2|done].
  eapply chs_in_ch; [done|]. eapply cp_channel. by eapply list_elem_of_lookup_2.
Qed.

(** A match in a quiescent space uses the new datum. *)
Lemma match_uses_new bat (d : datum) (v : View) pc :
  Inv v -> chs_in (pc_channels pc) -> match_found get bat d v pc ->
  datum_id d ∈ cand_id <$> pc_data_candidates pc.
Proof.
  intros Hi Hchs (n & _ & Hn & HF). apply list_elem_of_lookup_2 in Hn.
  destruct (inv_quiescent _ _ _ _ Hi _ _ Hchs Hn) as (cp & Hcp & Hu).
  apply list_elem_of_lookup in Hcp as [i Hcp].
  destruct (Forall2_lookup_l _ _ _ _ _ HF Hcp) as (c & Hc & [(j & e & mat & Hj & Hg & _)|(_ & mat & _ & ->)]).
  - rewrite (Hu e) in Hg; [done|]. by eapply list_elem_of_lookup_2.
  - apply list_elem_of_fmap. eexists. split; [|by eapply list_elem_of_lookup_2]. done.
Qed.

Lemma produce_promise channel a persist r ids :
  let o := SProduce channel a persist in
  inv r -> op_ok o -> distinct (V r) (op_key o :: ids) ->
  exists x r1 evs, play_op cd get o r = (Ok x, r1) /\ op_promise o ids r x r1 evs.
Proof.
  intros o Hinv Hch Hds. change (ch_in channel) in Hch. cbn [op_key o] in Hds.
  set (pref := Produce_create cd channel a persist) in *. set (d := mkDatum a persist pref).
  pose proof Hinv as [Hg Hi _ _].
  pose proof (produce_keeps cd get ch_in chs_in channel a persist r Hch Hinv) as Hinv'.
  assert (forall chs, chs ∈ view_get_joins (V r) channel -> chs_in chs /\ NoDup chs) as Hjs.
  { intros chs. by apply (inv_joins_wf _ _ _ _ Hi channel). }
  destruct (produce_spec cd get channel a persist r Hg) as (_ & Hct & Ho); [intros; by apply Hjs|].
  simpl. unfold try_bind, lift. destruct (produce cd get channel a persist r) as [out r1]. simpl in *.
  assert (forall q : replay, RV q ≡ V r -> view_get_joins (RV q) channel = view_get_joins (V r) channel) as Hjq.
  { intros q Hq. unfold view_get_joins. by rewrite !Hq. }
  destruct Ho as [(pc & Hpc & Hmf & -> & Hlog & Hmp)|(Hno & -> & Hlog & Hv)];
    fold pref in Hct, Hlog |- *.
  - set (comm := COMM_new _ _ _ _) in *. destruct (Hjs _ Hpc) as [Hchs Hnd].
    eexists _, r1, [Comm comm; IoEvent (IOProduce pref)]. split; [done|].
    destruct (distinct_shrinks ch_in chs_in (V r) (V r1) (KProduce (p_hash pref)) ids)
      as [Hds1 Honce]; [by eapply shrinks_produce|done|].
    pose proof Hmf as (n & _ & Hn & HF).
    split; [done| |done|done| | |by right|].
    + unfold io_events. simpl. by rewrite (right_id_L ∅ (∪)).
    + intros k' Hk'. left. eapply shrinks_stored; [|done]. by eapply shrinks_produce.
    + intros c k' Hin Hk'. simpl in Hin. apply list_elem_of_singleton in Hin as ->.
      apply comm_parts in Hk' as [->|(h & -> & Hh)].
      * right. exists (pc_channels pc), (pc_continuation pc).
        split_and!; [done|by eapply list_elem_of_lookup_2|done].
      * destruct (picks_new_ids _ _ _ _ _ _ h Hchs HF Hh) as [->|?]; [by left|by right].
    + intros q new left [Hgq Hvq Hcq] Hnew Ht Hleft. simpl in Ht, Hleft.
      rewrite (right_id_L ∅ (⊎)) in Ht. unfold comm in Ht. rewrite <-Hcq in Ht.
      destruct Hds as [D1 D2 D3 D4 D5 D6].
      assert (forall chs, view_get_continuations (RV q) chs = view_get_continuations (V r) chs) as Hcs.
      { intros chs. unfold view_get_continuations. by rewrite !Hvq. }
      destruct (replay_produce_ran cd get channel a persist q pc new left)
        as (q1 & p & Hp & Hrun & (Hg1 & C1 & T1) & Hmp1); try done; rewrite ?Hjq by done; try done.
      { eapply match_found_proper; [|done]. by symmetry. }
      { eapply distinct_ids; [by split|done|by symmetry]. }
      { intros ch e Hin He. rewrite Hvq in He. intros Heq.
        apply (D5 (KProduce (datum_id e))); [|rewrite Heq; by left].
        exists ch, e. split_and!; [by eapply chs_in_ch|done|done]. }
      { rewrite Hcs. by apply D3. }
      { intros chs Hin Hne w. rewrite Hcs. intros Hw Heq. destruct (Hjs _ Hin) as [Hin' _].
        apply Hne. symmetry. eapply (D4 _ _ (pc_continuation pc) w); try done.
        by eapply list_elem_of_lookup_2. }
      { right. apply list_elem_of_fmap. exists (p_hash pref). split; [done|].
        rewrite comm_new_hashes. by apply (match_uses_new channel d (V r)). }
      { by apply Hleft. }
      eexists _, q1. simpl. unfold try_bind, lift. rewrite Hrun. split_and!; [done| | |].
      * simpl. done.
      * split; [done| |by rewrite C1, Hct, Hcq]. symmetry.
        eapply processed_det; [symmetry; exact Hvq|done..].
      * rewrite T1. eapply table_run; [exact Ht|exact Hnew|].
        right. apply list_elem_of_fmap. exists (p_hash pref). split; [done|].
        rewrite comm_new_hashes. by apply (match_uses_new channel d (V r)).
  - eexists _, r1, [IoEvent (IOProduce pref)]. split; [done|].
    destruct (distinct_put_datum ch_in chs_in channel d (V r) (V r1) ids Hch Hv Hds) as [Hds1 Hst].
    split; [done| |done|done|done| |by left|].
    + unfold io_events. simpl. by rewrite (right_id_L ∅ (∪)).
    + by intros c k' ?%elem_of_nil.
    + intros q new left [Hgq Hvq Hcq] Hnew Ht _. simpl in Ht. rewrite (left_id_L ∅ (⊎)) in Ht.
      destruct (replay_produce_stored cd get channel a persist q)
        as (q1 & Hrun & (Hg1 & C1 & T1) & V1); try done.
      { apply Ht. }
      { intros chs. rewrite Hjq by done. intros Hin. split; [by apply Hjs|].
        eapply no_match_proper; [|by apply Hno]. by symmetry. }
      exists (inr None), q1. simpl. unfold try_bind, lift. rewrite Hrun.
      split_and!; [done|done| |by rewrite T1].
      split; [done| |by rewrite C1, Hct, Hcq]. rewrite V1, Hv. unfold view_put_datum. by rewrite Hvq.
Qed.

Lemma op_promised o r ids :
  inv r -> op_ok o -> distinct (V r) (op_key o :: ids) ->
  exists x r1 evs, play_op cd get o r = (Ok x, r1) /\ op_promise o ids r x r1 evs.
Proof. destruct o; [apply consume_promise|apply produce_promise]. Qed.

(** ** Whole runs *)

Lemma run_promised ops r :
  inv r -> Forall op_ok ops -> distinct (V r) (op_key <$> ops) ->
  exists outs rN evs, run_ops (play_op cd get) ops r = (Ok outs, rN) /\
    event_log rN = evs ++ event_log r /\ io_events evs = list_to_set (op_key <$> ops) /\
    (forall c k, c ∈ comms_of evs -> k ∈ parts (key_of c) -> known (V r) (op_key <$> ops) k) /\
    forall q new, agree r q -> (forall o, o ∈ ops -> op_key o ∈ new) ->
      table_of new (list_to_set_disj (key_of <$> comms_of evs)) (replay_data q) ->
      exists outs' qN, run_ops (replay_op cd get) ops q = (Ok outs', qN) /\
        Forall2 same_result outs outs' /\ agree rN qN /\ table_of new ∅ (replay_data qN).
Proof.
  revert r. induction ops as [|o ops IH]; intros r Hinv Hok Hds.
  { exists [], r, []. split_and!; try done. 1: by intros c k ?%elem_of_nil.
    intros q new Hag _ Ht. exists [], q. by split_and!. }
  apply Forall_cons in Hok as [Ho Hok]. csimpl in Hds.
  destruct (op_promised o r _ Hinv Ho Hds) as (x & r1 & evs1 & Hplay & [Hl Hio Hi1 Hd1 Hst Hor Honce Hrep]).
  destruct (IH r1 Hi1 Hok Hd1) as (outs & rN & evs2 & Hrun & Hl2 & Hio2 & Hor2 & Hrep2).
  assert (comms_of (evs2 ++ evs1) = comms_of evs2 ++ comms_of evs1) as Happ by apply omap_app.
  exists (x :: outs), rN, (evs2 ++ evs1). split_and!.
  - simpl. unfold try_bind. by rewrite Hplay, Hrun.
  - by rewrite Hl2, Hl, app_assoc.
  - unfold io_events in *. rewrite omap_app, list_to_set_app_L, Hio2, Hio. csimpl. by rewrite (comm_L (∪)).
  - intros c k. rewrite Happ, elem_of_app. intros [Hc|Hc] Hk.
    + destruct (Hor2 c k Hc Hk) as [Hin|Hs]; [left; by right|].
      destruct (Hst k Hs) as [?| ->]; [by right|left; by left].
    + destruct (Hor c k Hc Hk) as [->|?]; [left; by left|by right].
  - intros q new Hag Hnew Ht.
    destruct (Hrep q new (list_to_set_disj (key_of <$> comms_of evs2))) as (y & q1 & Hy & Hxy & Hag1 & Ht1).
    + done.
    + apply Hnew. by left.
    + rewrite Happ, fmap_app, list_to_set_disj_app, (comm_L (⊎)) in Ht. exact Ht.
    + intros Hne c. rewrite elem_of_list_to_set_disj. intros (c' & -> & Hc')%list_elem_of_fmap Hk.
      destruct Honce as [?|Honce]; [done|]. apply Honce. by apply (Hor2 c').
    + destruct (Hrep2 q1 new Hag1) as (outs' & qN & Hr & HF & HagN & HtN); [|done|].
      { intros o' Ho'. apply Hnew. by right. }
      exists (y :: outs'), qN. simpl. unfold try_bind. rewrite Hy, Hr. split_and!; [done|by constructor|done..].
Qed.

(** Logs with the same events, up to order and to what is not part of an identity *)
Definition same_log (log log' : Log) : Prop :=
  io_events log = io_events log' /\ key_of <$> comms_of log ≡ₚ key_of <$> comms_of log'.

Lemma agree_rig r q log : agree r q -> agree r (rig log q).2.
Proof. by intros [? ? ?]. Qed.

Lemma replay_equiv ops r :
  inv r -> event_log r = [] -> Forall op_ok ops -> distinct (V r) (op_key <$> ops) ->
  exists outs r', run_ops (play_op cd get) ops r = (Ok outs, r') /\
    forall q log, agree r q -> same_log (event_log r') log ->
    exists outs' q', run_ops (replay_op cd get) ops (rig log q).2 = (Ok outs', q') /\
      Forall2 same_result outs outs' /\ agree r' q' /\ (check_replay_data q').1 = Ok tt.
Proof.
  intros Hinv Hempty Hok Hds.
  destruct (run_promised ops r Hinv Hok Hds) as (outs & rN & evs & Hrun & Hl & Hio & _ & Hrep).
  rewrite Hempty, app_nil_r in Hl. exists outs, rN. split; [done|]. intros q log Hag [Hlio Hlc].
  rewrite Hl in Hlio, Hlc.
  destruct (Hrep (rig log q).2 (io_events log)) as (outs' & qN & Hr & HF & HagN & Ht).
  - by apply agree_rig.
  - intros o Ho. rewrite <-Hlio, Hio. apply elem_of_list_to_set. by apply list_elem_of_fmap_2.
  - rewrite Hlc. apply rig_table_of.
  - exists outs', qN. split_and!; [done..|]. unfold check_replay_data, gets, mbind, st_bind. simpl.
    rewrite decide_True; [done|]. apply (table_of_empty _ _ _ Ht). intros c Hc. exfalso.
    by apply gmultiset_not_elem_of_empty in Hc.
Qed.
End equiv.
