(* ===== verification/ReplayExamples.v ===== *)
(** * Replaying a run on the in-memory store

    The theorem of [ReplayEquiv.v] for reachable spaces over the in-memory hot store, and
    a run that is evaluated: a join of two channels that two produces complete. *)
From stdpp Require Import gmultiset.
From S2P Require Import Prelude Events HotStoreSig HotStore SpaceMatcher RSpace RSpaceSpec RSpaceInv.
From S2P Require Import RSpaceCheckpoint RSpaceThms ReplayRSpace ReplayTable ReplayThms ReplayIds.
From S2P Require Import ReplaySteps ReplayEquiv.

Section theorems.
Context {C P A K H G : Type} `{Countable C} `{!Debug P, !Debug K}.
Context `{!HistoryRepository C P A K H, !Oracle G}.
Context (cd : Codecs C P A K) (get : P -> A -> option A).
Context `{!HistoryRepositoryLaws C P A K H}.

Abbreviation space := (RSpace C P K H (InMemHotStore (C:=C) (P:=P) (A:=A) (K:=K)) G).
Abbreviation replay := (ReplayRSpace C P A K H (InMemHotStore (C:=C) (P:=P) (A:=A) (K:=K)) G).

(** C4: replaying a run gives the run.  Take a reachable space with an empty log and any
    consumes and produces on distinct channels whose identities (the hashes of the events) are
    pairwise distinct and not those of rows already stored.  They all succeed; and on any
    replay space with the same rows and produce counters that was rigged with the resulting
    log, given in any order and with any further information on its produces, the same
    operations never panic, return the same results, end with the same rows and counters
    and leave no COMM of the log unused, whatever the random choices of the two spaces. *)
Theorem replay_reproduces_play r0 (r : space) (ops : list (SpaceOp C P A K)) :
  fresh r0 -> rtc (space_life cd get) r0 r -> event_log r = [] ->
  Forall (op_ok repo_ch repo_chs) ops -> distinct repo_ch repo_chs (V r) (op_key cd <$> ops) ->
  exists outs r', run_ops (play_op cd get) ops r = (Ok outs, r') /\
    forall (q : replay) log, agree r q -> same_log (event_log r') log ->
    exists outs' q', run_ops (replay_op cd get) ops (rig log q).2 = (Ok outs', q') /\
      Forall2 same_result outs outs' /\ agree r' q' /\ (check_replay_data q').1 = Ok tt.
Proof.
  intros Hf Hr. destruct (live_inv cd get r0 r Hf Hr) as [Hinv _].
  apply replay_equiv; [exact law_repo_chs|done].
Qed.
End theorems.

Import Example.

(** A join waits on channels 1 and 2; data 4 and 5 arrive, and a continuation takes a datum
    of channel 3. *)
Definition run_example : list (SpaceOp nat nat nat nat) :=
  [SConsume [1; 2] [0; 5] 9 false ∅; SProduce 1 4 false; SProduce 3 6 true; SProduce 2 5 false;
   SConsume [3] [0] 8 false ∅].
Definition log_example : Log := event_log (run_ops (play_op nat_codecs wild) run_example space0).2.
Abbreviation replay_example := (ReplayRSpace nat nat nat nat Readers
  (InMemHotStore (C:=nat) (P:=nat) (A:=nat) (K:=nat)) unit).
Definition replay0 : replay_example := replay_apply (mkReaders [empty_reader] 0) (create_from_hr empty_reader) tt.

Lemma space0_rows :
  (forall ch, v_data (V space0) ch = []) /\ (forall chs, view_get_continuations (V space0) chs = []).
Proof.
  split; intros; unfold view_get_continuations, V; simpl; by rewrite ?lookup_empty.
Qed.

Lemma space0_distinct ids :
  NoDup ids -> distinct repo_ch repo_chs (V space0) ids.
Proof.
  destruct space0_rows as [Hd Hc]. intros Hids. split; try done.
  - intros ch _. rewrite Hd. apply NoDup_nil_2.
  - intros ch ch' d d' _ _. rewrite Hd. by intros ?%elem_of_nil.
  - intros chs _. rewrite Hc. apply NoDup_nil_2.
  - intros ch ch' d d' _ _. rewrite Hc. by intros ?%elem_of_nil.
  - intros [h|c].
    + intros (ch & d & _ & Hin & _). rewrite Hd in Hin. by apply elem_of_nil in Hin.
    + intros (ch & d & _ & Hin & _). rewrite Hc in Hin. by apply elem_of_nil in Hin.
Qed.

Lemma space0_agree : agree space0 replay0.
Proof. split; [apply cache_ok_empty|done|done]. Qed.

Lemma replay_reproduces_play_witness :
  exists outs' q', run_ops (replay_op nat_codecs wild) run_example (rig log_example replay0).2 =
      (Ok outs', q') /\ (check_replay_data q').1 = Ok tt.
Proof.
  destruct (replay_reproduces_play nat_codecs wild space0 space0 run_example space0_fresh)
    as (outs & r' & Hrun & Hrep).
  - apply rtc_refl.
  - reflexivity.
  - repeat constructor; try done; apply (bool_decide_unpack _); reflexivity.
  - apply space0_distinct. apply (bool_decide_unpack _). vm_compute. reflexivity.
  - destruct (Hrep replay0 log_example space0_agree) as (outs' & q' & Hr & _ & _ & Hc).
    + unfold log_example. rewrite Hrun. by split.
    + exists outs', q'. exact (conj Hr Hc).
Defined.

(** A replay without its last operation runs one of the two COMMs of the log, and the check
    fails. *)
Definition short_replay : res RSpaceError (list (OpResult nat nat nat nat)) * replay_example :=
  run_ops (replay_op nat_codecs wild) (take 4 run_example) (rig log_example replay0).2.

Lemma replay_follows_log_witness :
  length (comms_to_run log_example) = 2 /\ length (performed short_replay.2) = 1 /\
  (check_replay_data short_replay.2).1 <> Ok tt.
Proof.
  assert (bool_decide (is_Some (ok short_replay.1)) && bool_decide (length (performed short_replay.2) = 1) &&
    bool_decide (length (comms_to_run log_example) = 2) = true) as Hb by (vm_compute; reflexivity).
  apply andb_true_iff in Hb as [Hb H2%bool_decide_eq_true].
  apply andb_true_iff in Hb as [[outs Hok]%bool_decide_eq_true Hlen%bool_decide_eq_true].
  destruct short_replay as [x q'] eqn:Hrun. cbn [fst snd] in *. destruct x as [x| |]; [|discriminate Hok..].
  unfold short_replay in Hrun. apply replay_follows_log in Hrun as (ran' & Hp & _ & Hc).
  split; [exact H2|]. split; [exact Hlen|]. rewrite Hc. intros Hperm%Permutation_length.
  rewrite length_fmap, H2 in Hperm. rewrite Hp, length_app in Hlen.
  change (length (performed replay0)) with 0 in Hlen. lia.
Defined.
