(* ===== verification/Reporting.v ===== *)
(** * Reporting what a replay did

    [rspace++/src/rspace/reporting_rspace.rs]: a replay space whose logger keeps the consumes,
    produces and COMMs of a replay with their data, cut into segments by soft checkpoints. *)
From stdpp Require Import gmultiset.
From S2P Require Import Prelude Events HotStoreSig SpaceMatcher RSpace ReplayRSpace ReplayTable ReplayThms.
Open Scope res_scope.

Section reporting.
Context {C P A K H S G : Type} `{Countable C} `{!HotStore C P A K S}.
Context `{!HistoryRepository C P A K H, !HotStoreFactory C P A K S, !Oracle G}.
Context (cd : Codecs C P A K) (get : P -> A -> option A).
Context (empty_root_node_hash : Blake2b256Hash).

Abbreviation replay := (ReplayRSpace C P A K H S G).

(** [struct ReportingProduce], [struct ReportingConsume], [struct ReportingComm],
    [enum ReportingEvent] *)
Record ReportingProduce := mkRProduce { rep_channel : C; rep_data : A }.
Record ReportingConsume := mkRConsume {
  rep_channels : list C;
  rep_patterns : list P;
  rep_continuation : K;
  rep_peeks : list Z;
}.
Record ReportingComm := mkRComm {
  rep_consume : ReportingConsume;
  rep_produces : list ReportingProduce;
}.
Inductive ReportingEvent :=
| EProduce (p : ReportingProduce)
| EConsume (c : ReportingConsume)
| EComm (c : ReportingComm).

(** [ReportingLogger::log_comm], [log_consume], [log_produce]: the event each call pushes *)
Definition reported (call : LogCall C P A K) : ReportingEvent :=
  match call with
  | LogComm data_candidates channels wk _ _ =>
    EComm (mkRComm
      (mkRConsume channels (wc_patterns wk) (wc_continuation wk) (btree_elements (wc_peeks wk)))
      ((fun dc => mkRProduce (cc_channel dc) (datum_a (cc_datum dc))) <$> data_candidates))
  | LogConsume _ channels patterns continuation _ peeks =>
    EConsume (mkRConsume channels patterns continuation (btree_elements peeks))
  | LogProduce _ channel a _ => EProduce (mkRProduce channel a)
  end.

(** [struct ReportingRspace]; the replay space keeps no calls of its own, its logger pushes
    to [soft_report]. *)
Record ReportingRspace := mkReporting {
  replay_rspace : replay;
  report : list (list ReportingEvent);
  soft_report : list ReportingEvent;
}.
Definition set_logger (l : list (LogCall C P A K)) (r : replay) : replay :=
  mkReplay (rp_space r) (replay_data r) l (waiting_continuations_estimate r).
(** A call on [self.replay_rspace], whose logger pushes the events to [soft_report] *)
Definition delegate {X} (m : ST replay X) : ST ReportingRspace X := fun s =>
  let '(x, r) := m (set_logger [] (replay_rspace s)) in
  (x, mkReporting (set_logger [] r) (report s) (soft_report s ++ (reported <$> reverse (logger r)))).

(** [ReportingRspace::apply] *)
Definition reporting_apply (h : H) (s : S) (g : G) : ReportingRspace :=
  mkReporting (replay_apply h s g) [] [].

(** [fn collect_report], [fn get_report] *)
Definition collect_report : ST ReportingRspace unit :=
  modify (fun s =>
    match soft_report s with
    | [] => s
    | soft_report_content => mkReporting (replay_rspace s) (report s ++ [soft_report_content]) []
    end).
Definition get_report : ST ReportingRspace (list (list ReportingEvent)) :=
  _ ← collect_report;
  r ← gets report;
  _ ← modify (fun s => mkReporting (replay_rspace s) [] (soft_report s));
  mret r.
Definition get_soft_report : ST ReportingRspace (list ReportingEvent) := gets soft_report.

(** [fn create_checkpoint], [fn create_soft_checkpoint] *)
Definition reporting_create_checkpoint : ST ReportingRspace (res RSpaceError Checkpoint) :=
  checkpoint <- delegate (replay_create_checkpoint cd get) ;?
  _ ← modify (fun s => mkReporting (replay_rspace s) [] []);
  mret (Ok checkpoint).
Definition reporting_create_soft_checkpoint : ST ReportingRspace (SoftCheckpoint C P A K) :=
  _ ← collect_report;
  delegate replay_create_soft_checkpoint.

(** [fn consume], [fn produce], [fn rig], [fn rig_and_reset], [fn check_replay_data], [fn reset],
    [fn clear], [fn install] *)
Definition reporting_consume (channels : list C) (patterns : list P) (continuation : K)
    (persist : bool) (peeks : i32_set) :
  ST ReportingRspace (res RSpaceError (MaybeConsumeResult (C:=C) (P:=P) (A:=A) (K:=K))) :=
  delegate (replay_consume cd get channels patterns continuation persist peeks).
Definition reporting_produce (channel : C) (a : A) (persist : bool) :
  ST ReportingRspace (res RSpaceError (MaybeProduceResult (C:=C) (P:=P) (A:=A) (K:=K))) :=
  delegate (replay_produce cd get channel a persist).
Definition reporting_rig (log : Log) : ST ReportingRspace (res RSpaceError unit) := delegate (rig log).
Definition reporting_rig_and_reset (root : Blake2b256Hash) (log : Log) :
  ST ReportingRspace (res RSpaceError unit) := delegate (rig_and_reset cd get root log).
Definition reporting_check_replay_data : ST ReportingRspace (res RSpaceError unit) :=
  delegate check_replay_data.
Definition reporting_reset (root : Blake2b256Hash) : ST ReportingRspace (res RSpaceError unit) :=
  delegate (replay_reset cd get root).
Definition reporting_clear : ST ReportingRspace (res RSpaceError unit) :=
  delegate (replay_clear cd get empty_root_node_hash).
Definition reporting_install (channels : list C) (patterns : list P) (continuation : K) :
  ST ReportingRspace (res RSpaceError (option (K * list A))) :=
  delegate (replay_install cd get channels patterns continuation).

(** ** What the report says *)

(** A replay as the runtime drives it: operations, cut by soft checkpoints *)
Inductive ReportingOp := ROp (o : SpaceOp C P A K) | RSoftCheckpoint.
Definition reporting_op (o : ReportingOp) : ST ReportingRspace (res RSpaceError unit) :=
  match o with
  | ROp o => x <- delegate (replay_op cd get o) ;? lift (Ok tt)
  | RSoftCheckpoint => _ ← reporting_create_soft_checkpoint; mret (Ok tt)
  end.
Fixpoint reporting_run (l : list ReportingOp) : ST ReportingRspace (res RSpaceError unit) :=
  match l with
  | [] => lift (Ok tt)
  | o :: l => _ <- reporting_op o ;? reporting_run l
  end.
(** The events of a space, in order *)
Definition all_events (s : ReportingRspace) : list ReportingEvent := concat (report s) ++ soft_report s.
Definition is_comm (e : ReportingEvent) : bool := match e with EComm _ => true | _ => false end.
Definition comm_count (l : list ReportingEvent) : nat := length (filter (fun e => is_comm e = true) l).
(** The event an operation begins with *)
Definition op_event (o : SpaceOp C P A K) : ReportingEvent := reported (op_call cd o).
Definition ops_of (l : list ReportingOp) : list (SpaceOp C P A K) :=
  omap (fun o => match o with ROp o => Some o | RSoftCheckpoint => None end) l.

Lemma is_comm_reported call : is_comm (reported call) = bool_decide (is_Some (call_comm call)).
Proof. by destruct call. Qed.

Lemma comm_count_app l k : comm_count (l ++ k) = comm_count l + comm_count k.
Proof. unfold comm_count. by rewrite filter_app, length_app. Qed.

(** Every segment of the report has events. *)
Definition segments_ok (s : ReportingRspace) : Prop := Forall (fun seg => seg <> []) (report s).

Lemma collect_report_events s :
  all_events (collect_report s).2 = all_events s /\ soft_report (collect_report s).2 = [] /\
  (segments_ok s -> segments_ok (collect_report s).2) /\
  replay_rspace (collect_report s).2 = replay_rspace s.
Proof.
  unfold collect_report, modify, all_events, segments_ok. simpl.
  destruct (soft_report s) as [|e l] eqn:Hs; simpl; [by rewrite Hs|].
  split_and!; [|done| |done].
  - rewrite concat_app. simpl. by rewrite !app_nil_r.
  - intros Hok. apply Forall_app. split; [done|]. by apply Forall_singleton.
Qed.

(** What a reporting space has seen: its own events begin with those of the operations, and the
    others are the COMMs that ran. *)
Record seen (new : gset io_key) (all : gmultiset comm_key) (ops : list (SpaceOp C P A K))
    (ran : list COMM) (s : ReportingRspace) : Prop := {
  sn_progress : progress new all ran (replay_data (replay_rspace s));
  sn_ops : filter (fun e => is_comm e = false) (all_events s) = op_event <$> ops;
  sn_comms : comm_count (all_events s) = length ran;
  sn_segments : segments_ok s;
}.

Lemma reporting_op_seen new all ops ran s o s' :
  seen new all ops ran s -> reporting_op o s = (Ok tt, s') ->
  exists ran', seen new all (ops ++ ops_of [o]) ran' s'.
Proof.
  intros [Hp Ho Hc Hs]. destruct o as [o|]; simpl.
  - unfold try_bind, lift, delegate. destruct (replay_op cd get o _) as [[x|e|] r1] eqn:Hr; try done.
    intros [= <-]. apply replay_op_step in Hr; [|apply (to_ok _ _ _ (pg_table _ _ _ _ Hp))].
    destruct (op_step_progress cd new all ran o (set_logger [] (replay_rspace s)) r1 Hp Hr) as (ran1 & calls & Hran & Hl & Hlen & HF & Hp1).
    simpl in Hl. exists (ran1 ++ ran).
    assert (exists comms, calls = comms /\ reverse (logger r1) = op_call cd o :: comms) as (? & <- & Hrev).
    { exists calls. split; [done|]. rewrite Hl, reverse_app. destruct calls as [|c [|]]; [done|done|].
      simpl in Hlen. lia. }
    split; simpl; [done| | |done].
    + unfold all_events in *. simpl. rewrite app_assoc, filter_app, Ho, Hrev, fmap_app. f_equal.
      csimpl. rewrite filter_cons. rewrite is_comm_reported, op_call_none. simpl. f_equal.
      clear -HF. induction calls as [|c calls IH]; [done|]. apply Forall_cons in HF as [Hc HF].
      csimpl. rewrite filter_cons, is_comm_reported. rewrite bool_decide_eq_true_2 by done.
      rewrite decide_False by done. by apply IH.
    + unfold all_events in *. simpl. rewrite app_assoc, comm_count_app, Hc, length_app, Hrev.
      csimpl. unfold comm_count at 1. rewrite filter_cons, is_comm_reported, op_call_none. simpl.
      rewrite (Nat.add_comm (length ran1)). f_equal. rewrite <-Hran.
      clear -HF. induction calls as [|c calls IH]; [done|]. apply Forall_cons in HF as [[comm Hc] HF].
      csimpl. rewrite filter_cons, is_comm_reported, Hc. simpl. f_equal. by apply IH.
  - destruct (collect_report_events s) as (He & Hsoft & Hseg & Hrep).
    unfold reporting_create_soft_checkpoint, mbind, st_bind.
    destruct (collect_report s) as [[] s1]. simpl in *. unfold delegate.
    unfold replay_create_soft_checkpoint, on_space.
    destruct (create_soft_checkpoint (rp_space (set_logger [] (replay_rspace s1)))) as [sc r1]. simpl. intros [= <-]. exists ran.
    rewrite app_nil_r. split; simpl.
    + by rewrite Hrep.
    + unfold all_events in *. simpl. by rewrite app_nil_r, He.
    + unfold all_events in *. simpl. by rewrite app_nil_r, He.
    + by apply Hseg.
Qed.

Lemma reporting_run_seen new all l ops ran s s' :
  seen new all ops ran s -> reporting_run l s = (Ok tt, s') ->
  exists ran', seen new all (ops ++ ops_of l) ran' s'.
Proof.
  revert ops ran s. induction l as [|o l IH]; intros ops ran s Hs; cbn [reporting_run].
  { intros [= <-]. exists ran. by rewrite app_nil_r. }
  unfold try_bind. destruct (reporting_op o s) as [[[]|e|] s1] eqn:Ho; try done. intros Hl.
  destruct (reporting_op_seen _ _ _ _ _ _ _ Hs Ho) as [ran1 H1].
  destruct (IH _ _ _ H1 Hl) as [ran2 H2]. exists ran2. rewrite <-app_assoc in H2.
  assert (ops_of (o :: l) = ops_of [o] ++ ops_of l) as -> by (unfold ops_of; by rewrite <-omap_app).
  exact H2.
Qed.

Lemma delegate_fst {X} (m : ST replay X) s :
  (delegate m s).1 = (m (set_logger [] (replay_rspace s))).1.
Proof. unfold delegate. by destruct (m _). Qed.

Lemma multiset_size (l : list comm_key) : size (list_to_set_disj l : gmultiset comm_key) = length l.
Proof.
  induction l as [|c l IH]; simpl; [done|].
  by rewrite gmultiset_size_disj_union, gmultiset_size_singleton, IH.
Qed.

(** The report of a replay is complete.  A reporting space without a report is rigged with
    a log and replays operations, with soft checkpoints in between: [get_report] returns
    non-empty segments that list, in order, every consume and produce of the replay, and
    beside them one event for each COMM that ran; these are at most as many as the log
    has to run, and exactly as many when [check_replay_data] succeeds.  The report
    is empty afterwards. *)
Theorem report_complete log (l : list ReportingOp) (s s' : ReportingRspace) :
  report s = [] -> soft_report s = [] -> reporting_run l (reporting_rig log s).2 = (Ok tt, s') ->
  let '(rep, s'') := get_report s' in
  Forall (fun seg => seg <> []) rep /\
  filter (fun e => is_comm e = false) (concat rep) = op_event <$> ops_of l /\
  comm_count (concat rep) <= length (comms_to_run log) /\
  ((reporting_check_replay_data s').1 = Ok tt -> comm_count (concat rep) = length (comms_to_run log)) /\
  report s'' = [] /\ soft_report s'' = [].
Proof.
  intros Hrep Hsoft Hrun. set (all := list_to_set_disj (key_of <$> comms_of log) : gmultiset comm_key).
  destruct (reporting_run_seen (io_events log) all l [] [] (reporting_rig log s).2 s') as [ran [Hp Ho Hc Hs]];
    [|done|].
  { assert (all_events (reporting_rig log s).2 = []) as E
      by (unfold all_events; simpl; by rewrite Hrep, Hsoft).
    split; [apply progress_rig|by rewrite E..|]. unfold segments_ok. simpl. by rewrite Hrep. }
  destruct (collect_report_events s') as (He & Hsf & Hseg & _).
  unfold get_report, mbind, st_bind, gets. destruct (collect_report s') as [[] s1].
  cbn [fst snd report soft_report modify] in *.
  assert (concat (report s1) = all_events s') as Hall.
  { rewrite <-He. unfold all_events. by rewrite Hsf, app_nil_r. }
  destruct (progress_complete log ran _ Hp) as [Hsub Hiff].
  split_and!; [by apply Hseg|by rewrite Hall|..|done|done].
  - rewrite Hall, Hc. apply gmultiset_subseteq_size in Hsub.
    by rewrite !multiset_size, length_fmap in Hsub.
  - rewrite Hall, Hc. unfold reporting_check_replay_data. rewrite delegate_fst, check_replay_data_ok.
    intros Hem. apply Hiff, Permutation_length in Hem. by rewrite length_fmap in Hem.
Qed.
End reporting.
