(* ===== verification/Locks.v ===== *)
(** * The two-phase channel locks

    [acquire_locks], [consume_lock] and [produce_lock] of [rspace++/src/rspace/rspace.rs].
    Each lock map hands out one mutex per channel hash.  A consume locks the hashes of its
    channels in phase A and again in phase B; a produce locks its channel in phase A, reads
    the joins of the channel and locks the hashes of all their channels in phase B.  Tasks
    run interleaved: a step relation on the set of running tasks. *)
From S2P Require Import Prelude.

(** [phase_a_locks], [phase_b_locks] *)
Inductive phase := PhaseA | PhaseB.
#[global] Instance phase_eq_dec : EqDecision phase.
Proof. solve_decision. Defined.

(** A mutex: the lock map it is in and its key. *)
Abbreviation lock := (phase * Z)%type.

(** [Vec::dedup]: drops consecutive repetitions. *)
Fixpoint dedup (l : list Z) : list Z :=
  match l with
  | [] => []
  | x :: l' =>
    match l' with
    | y :: _ => if decide (x = y) then dedup l' else x :: dedup l'
    | [] => [x]
    end
  end.

(** The keys in the order in which [acquire_locks] takes them. *)
Definition lock_order (ph : phase) (keys : list Z) : list lock :=
  pair ph <$> dedup (sort_by Z.compare keys).

(** A running task: the hashes of the channels it operates on, the guards it holds, the
    locks it still takes, and whether it is a produce that has not read the joins yet. *)
Record task := mkTask {
  hashes : list Z;
  held : list lock;
  todo : list lock;
  reads_joins : bool;
}.

(** [consume_lock] *)
Definition consume_task (channel_hashes : list Z) : task :=
  mkTask channel_hashes [] (lock_order PhaseA channel_hashes ++ lock_order PhaseB channel_hashes) false.
(** [produce_lock]: phase A *)
Definition produce_task (channel_hash : Z) : task :=
  mkTask [channel_hash] [] (lock_order PhaseA [channel_hash]) true.

Abbreviation tasks := (gmap nat task).

Definition free (l : lock) (ts : tasks) : Prop :=
  forall i t, ts !! i = Some t -> l ∉ held t.

(** Steps of the running tasks. *)
Inductive run_step (ts : tasks) : tasks -> Prop :=
| run_acquire i t l rest :
    ts !! i = Some t -> todo t = l :: rest -> free l ts ->
    run_step ts (<[i := mkTask (hashes t) (held t ++ [l]) rest (reads_joins t)]> ts)
| run_read_joins i t join_hashes :
    ts !! i = Some t -> todo t = [] -> reads_joins t = true ->
    run_step ts (<[i := mkTask (hashes t) (held t) (lock_order PhaseB join_hashes) false]> ts)
| run_finish i t :
    ts !! i = Some t -> todo t = [] -> reads_joins t = false ->
    run_step ts (delete i ts).

(** New tasks may start at any time. *)
Inductive lock_step (ts : tasks) : tasks -> Prop :=
| step_start_consume i channel_hashes :
    ts !! i = None -> lock_step ts (<[i := consume_task channel_hashes]> ts)
| step_start_produce i channel_hash :
    ts !! i = None -> lock_step ts (<[i := produce_task channel_hash]> ts)
| step_run ts' : run_step ts ts' -> lock_step ts ts'.

(** ** The order of locks *)

Definition phase_cmp (p q : phase) : comparison :=
  match p, q with PhaseA, PhaseB => Lt | PhaseB, PhaseA => Gt | _, _ => Eq end.
#[global] Instance phase_cmp_order : CmpOrder phase_cmp.
Proof.
  split; [split|]; unfold cmp_le.
  - by intros [] [].
  - by intros [] [] [].
  - by intros [] [].
Qed.

Definition lock_cmp : lock -> lock -> comparison := pair_cmp phase_cmp Z.compare.
Definition lock_lt (l k : lock) : Prop := lock_cmp l k = Lt.

#[global] Instance lock_lt_trans : Transitive lock_lt.
Proof. intros x y z. apply (cmp_Lt_trans lock_cmp). Qed.

Lemma lock_lt_irrefl l : ~ lock_lt l l.
Proof. unfold lock_lt. rewrite (cmp_refl lock_cmp). done. Qed.

Lemma dedup_cons2 x y l :
  dedup (x :: y :: l) = if decide (x = y) then dedup (y :: l) else x :: dedup (y :: l).
Proof. done. Qed.

Lemma dedup_subseteq l : dedup l ⊆ l.
Proof.
  induction l as [|x [|y l] IH]; [done|done|]. rewrite dedup_cons2.
  case_decide; [by apply list_subseteq_cons|by apply list_subseteq_skip].
Qed.

Lemma dedup_sorted l :
  StronglySorted (cmp_le Z.compare) l -> StronglySorted Z.lt (dedup l).
Proof.
  induction l as [|x [|y l] IH]; intros Hs; [constructor|repeat constructor|].
  apply StronglySorted_inv in Hs as [Hs Hall]. rewrite dedup_cons2.
  destruct (decide (x = y)) as [->|Hne]; [by apply IH|].
  constructor; [by apply IH|].
  assert (x < y)%Z as Hxy.
  { apply Forall_cons_1 in Hall as [Hle _]. unfold cmp_le in Hle.
    destruct (Z.compare_spec x y); lia || done. }
  apply StronglySorted_inv in Hs as [_ Hy].
  apply Forall_forall. intros z Hz%dedup_subseteq.
  apply elem_of_cons in Hz as [->|Hz]; [done|].
  rewrite Forall_forall in Hy. specialize (Hy z Hz). unfold cmp_le in Hy.
  destruct (Z.compare_spec y z); lia || done.
Qed.

Lemma lock_order_sorted ph keys : StronglySorted lock_lt (lock_order ph keys).
Proof.
  unfold lock_order. pose proof (dedup_sorted _ (sort_by_sorted Z.compare keys)) as Hs.
  induction Hs as [|x l _ IH Hall]; csimpl; constructor; [done|].
  apply Forall_fmap. eapply Forall_impl; [done|]. intros y Hxy. simpl.
  unfold lock_lt, lock_cmp, pair_cmp. simpl. rewrite (cmp_refl phase_cmp). done.
Qed.

Lemma elem_of_lock_order ph keys (l : lock) : l ∈ lock_order ph keys -> l.1 = ph.
Proof. unfold lock_order. by intros (z & -> & _)%list_elem_of_fmap. Qed.

Lemma dedup_elem_of k l : k ∈ l -> k ∈ dedup l.
Proof.
  induction l as [|x [|y l] IH]; [done|done|]. rewrite dedup_cons2.
  intros [->|Hk]%elem_of_cons.
  - destruct (decide (x = y)) as [->|]; [apply IH; by left|by left].
  - destruct (decide (x = y)); [|right]; by apply IH.
Qed.

Lemma lock_order_covers ph keys k : k ∈ keys -> (ph, k) ∈ lock_order ph keys.
Proof. intros Hk. apply list_elem_of_fmap_2, dedup_elem_of. by rewrite elem_of_sort_by. Qed.

Lemma lock_lt_phases (l k : lock) : l.1 = PhaseA -> k.1 = PhaseB -> lock_lt l k.
Proof. destruct l, k; simpl. by intros -> ->. Qed.

(** ** Invariant

    Distinct tasks hold distinct locks; a task holds only locks below those it still
    takes, takes them in increasing order, has taken nothing of phase B while it is to read
    the joins, and misses none of the phase A locks of its channels. *)
Record task_ok (t : task) : Prop := {
  todo_sorted : StronglySorted lock_lt (todo t);
  held_below : forall l k, l ∈ held t -> k ∈ todo t -> lock_lt l k;
  joins_phase : reads_joins t = true -> forall l, l ∈ held t ++ todo t -> l.1 = PhaseA;
  covers_hashes : forall k, k ∈ hashes t -> (PhaseA, k) ∈ held t ++ todo t;
}.

Definition exclusive (ts : tasks) : Prop :=
  forall i j t u l, ts !! i = Some t -> ts !! j = Some u ->
    l ∈ held t -> l ∈ held u -> i = j.

Record locks_inv (ts : tasks) : Prop := {
  li_tasks : map_Forall (fun _ t => task_ok t) ts;
  li_exclusive : exclusive ts;
}.

Lemma consume_task_ok hs : task_ok (consume_task hs).
Proof.
  split; simpl; [|intros ? ? ?%elem_of_nil; done|done|].
  - apply StronglySorted_app_2; [|apply lock_order_sorted..].
    intros l k Hl%elem_of_lock_order Hk%elem_of_lock_order. by apply lock_lt_phases.
  - intros k Hk. apply elem_of_app. left. by apply lock_order_covers.
Qed.

Lemma produce_task_ok h : task_ok (produce_task h).
Proof.
  split; simpl; [apply (lock_order_sorted PhaseA [h])|intros ? ? ?%elem_of_nil; done| |].
  - intros _ l Hl. by eapply (elem_of_lock_order PhaseA [h]).
  - intros k Hk. by apply (lock_order_covers PhaseA [h]).
Qed.

Lemma locks_inv_start ts i t :
  ts !! i = None -> held t = [] -> task_ok t -> locks_inv ts -> locks_inv (<[i := t]> ts).
Proof.
  intros Hi Ht Hok [H1 H2]. split; [by apply map_Forall_insert_2|].
  intros j k u w l Hj Hk Hlu Hlw.
  apply lookup_insert_Some in Hj as [[<- <-]|[_ Hj]]; 
    [rewrite Ht in Hlu; by apply elem_of_nil in Hlu|].
  apply lookup_insert_Some in Hk as [[<- <-]|[_ Hk]]; 
    [rewrite Ht in Hlw; by apply elem_of_nil in Hlw|].
  by eapply H2.
Qed.

Lemma task_ok_acquire t l rest :
  todo t = l :: rest -> task_ok t -> task_ok (mkTask (hashes t) (held t ++ [l]) rest (reads_joins t)).
Proof.
  intros Ht [H1 H2 H3 H4]. rewrite Ht in *. apply StronglySorted_inv in H1 as [H1 Hall].
  rewrite Forall_forall in Hall. split; simpl; [done| | |].
  - intros k k' [Hk|Hk]%elem_of_app Hk'; [apply H2; [done|by right]|].
    apply list_elem_of_singleton in Hk as ->. by apply Hall.
  - intros Hr k Hk. apply H3; [done|]. by rewrite <-app_assoc in Hk.
  - intros k Hk. rewrite <-app_assoc. by apply H4.
Qed.

Lemma task_ok_read_joins t hs :
  todo t = [] -> reads_joins t = true -> task_ok t -> task_ok (mkTask (hashes t) (held t) (lock_order PhaseB hs) false).
Proof.
  intros Ht Hr [H1 H2 H3 H4]. split; simpl; [apply lock_order_sorted| |done|].
  - intros l k Hl Hk%elem_of_lock_order. apply lock_lt_phases; [|done].
    apply H3; [done|]. apply elem_of_app. by left.
  - intros k Hk. specialize (H4 k Hk). rewrite Ht, app_nil_r in H4.
    apply elem_of_app. by left.
Qed.

Lemma exclusive_update ts i t t' :
  ts !! i = Some t -> exclusive ts ->
  (forall l, l ∈ held t' -> l ∈ held t \/ free l ts) -> exclusive (<[i := t']> ts).
Proof.
  intros Hi Hex Hh j k u w l Hj Hk Hlu Hlw.
  apply lookup_insert_Some in Hj as [[<- <-]|[Hne Hj]];
    apply lookup_insert_Some in Hk as [[<- <-]|[Hne' Hk]]; [done| | |by eapply Hex].
  - destruct (Hh l Hlu) as [Hl|Hf]; [by eapply Hex|]. by destruct (Hf _ _ Hk).
  - destruct (Hh l Hlw) as [Hl|Hf]; [by eapply Hex|]. by destruct (Hf _ _ Hj).
Qed.

Lemma run_step_inv ts ts' : run_step ts ts' -> locks_inv ts -> locks_inv ts'.
Proof.
  intros Hstep [H1 H2]. destruct Hstep as [i t l rest Hi Ht Hfree|i t hs Hi Ht Hr|i t Hi Ht Hr].
  - split.
    + apply map_Forall_insert_2; [|done]. apply task_ok_acquire; [done|]. by eapply H1.
    + eapply exclusive_update; [done..|]. simpl. intros k [?|Hk]%elem_of_app; [by left|].
      apply list_elem_of_singleton in Hk as ->. by right.
  - split.
    + apply map_Forall_insert_2; [|done]. apply task_ok_read_joins; [done..|]. by eapply H1.
    + eapply exclusive_update; [done..|]. simpl. by left.
  - split; [by apply map_Forall_delete|].
    intros j k u w l [_ Hj]%lookup_delete_Some [_ Hk]%lookup_delete_Some. by eapply H2.
Qed.

Lemma lock_step_inv ts ts' : lock_step ts ts' -> locks_inv ts -> locks_inv ts'.
Proof.
  destruct 1 as [i hs Hi|i h Hi|ts' Hrun]; intros Hinv.
  - apply locks_inv_start; auto using consume_task_ok.
  - apply locks_inv_start; auto using produce_task_ok.
  - by eapply run_step_inv.
Qed.

Lemma locks_inv_reachable ts : rtc lock_step ∅ ts -> locks_inv ts.
Proof.
  intros Hr. assert (locks_inv ∅) as H0.
  { split; [apply map_Forall_empty|]. intros i j t u l. by rewrite lookup_empty. }
  revert H0. induction Hr; eauto using lock_step_inv.
Qed.

(** ** Progress *)

Lemma exists_max_lock (ls : list lock) :
  ls <> [] -> exists l, l ∈ ls /\ forall k, k ∈ ls -> ~ lock_lt l k.
Proof.
  induction ls as [|x ls IH]; [done|]. intros _. destruct ls as [|y ls].
  { exists x. split; [by left|]. intros k ->%list_elem_of_singleton. apply lock_lt_irrefl. }
  destruct IH as (m & Hm & Hmax); [done|].
  destruct (lock_cmp m x) eqn:Hc.
  - exists m. split; [by right|]. intros k [->|Hk]%elem_of_cons; [|by apply Hmax].
    unfold lock_lt. congruence.
  - exists x. split; [by left|]. intros k [->|Hk]%elem_of_cons; [apply lock_lt_irrefl|].
    intros Hxk. apply (Hmax k Hk). by trans x.
  - exists m. split; [by right|]. intros k [->|Hk]%elem_of_cons; [|by apply Hmax].
    unfold lock_lt. congruence.
Qed.

Lemma progress ts : locks_inv ts -> ts <> ∅ -> exists ts', run_step ts ts'.
Proof.
  intros [Hok Hex] Hne.
  destruct (decide (map_Exists (fun _ t => todo t = []) ts)) as [Hidle|Hbusy].
  { destruct Hidle as (i & t & Hi & Ht). destruct (reads_joins t) eqn:Hr.
    - exists (<[i := mkTask (hashes t) (held t) (lock_order PhaseB []) false]> ts).
      by apply (run_read_joins ts i t []).
    - exists (delete i ts). by apply (run_finish ts i t). }
  assert (forall i t, ts !! i = Some t -> exists l rest, todo t = l :: rest) as Hheads.
  { intros i t Hi. destruct (todo t) as [|l rest] eqn:Ht; [|by exists l, rest].
    destruct Hbusy. by exists i, t. }
  set (heads := omap (fun p => head (todo p.2)) (map_to_list ts)).
  assert (forall l, l ∈ heads <-> exists i t rest, ts !! i = Some t /\ todo t = l :: rest)
    as Hin.
  { intros l. unfold heads. rewrite list_elem_of_omap. split.
    - intros ([i t] & Hp%elem_of_map_to_list & Hh). simpl in *.
      destruct (todo t) as [|l' rest] eqn:Ht; [done|]. injection Hh as ->. eauto.
    - intros (i & t & rest & Hi & Ht). exists (i, t). rewrite elem_of_map_to_list. simpl.
      by rewrite Ht. }
  destruct (exists_max_lock heads) as (l & Hl & Hmax).
  { apply map_choose in Hne as (i & t & Hi). destruct (Hheads i t Hi) as (l & rest & Ht).
    intros Hnil. assert (l ∈ heads) as Hc by (apply Hin; eauto).
    rewrite Hnil in Hc. by apply elem_of_nil in Hc. }
  apply Hin in Hl as (i & t & rest & Hi & Ht).
  destruct (decide (map_Forall (fun _ u => l ∉ held u) ts)) as [Hfree|Hheld].
  { eexists. by eapply run_acquire. }
  exfalso. apply map_not_Forall in Hheld as (j & u & Hj & Hu); [|apply _].
  apply dec_stable in Hu. destruct (Hheads j u Hj) as (k & rest' & Hk).
  apply (Hmax k); [apply Hin; eauto|]. apply (held_below _ (Hok _ _ Hj) l k Hu).
  rewrite Hk. by left.
Qed.

(** ** Termination *)

Definition weigh (f : task -> nat) (ts : tasks) : nat :=
  sum_list_with (fun p => f p.2) (map_to_list ts).

Lemma weigh_split f ts i t :
  ts !! i = Some t -> weigh f ts = f t + weigh f (delete i ts).
Proof.
  intros Hi. unfold weigh. rewrite <-(insert_id ts i t Hi) at 1.
  rewrite <-insert_delete_eq.
  by rewrite (map_to_list_insert (delete i ts) i t (lookup_delete_eq ts i)).
Qed.

Lemma weigh_insert f ts i t : weigh f (<[i := t]> ts) = f t + weigh f (delete i ts).
Proof.
  rewrite (weigh_split f _ i t) by apply lookup_insert_eq. by rewrite delete_insert_eq.
Qed.

(** Tasks that are still to read joins, and the work left to the others. *)
Definition unread (ts : tasks) : nat := weigh (fun t => if reads_joins t then 1 else 0) ts.
Definition work (ts : tasks) : nat := weigh (fun t => S (length (todo t))) ts.

Lemma run_step_decreases ts ts' :
  run_step ts ts' -> unread ts' < unread ts \/ (unread ts' = unread ts /\ work ts' < work ts).
Proof.
  unfold unread, work.
  destruct 1 as [i t l rest Hi Ht _|i t hs Hi Ht Hr|i t Hi Ht Hr];
    rewrite ?weigh_insert, !(weigh_split _ ts i t Hi); simpl.
  - right. split; [done|]. rewrite Ht. simpl. lia.
  - left. rewrite Hr. lia.
  - right. rewrite Hr. lia.
Qed.

Lemma drain ts : locks_inv ts -> rtc run_step ts ∅.
Proof.
  remember (unread ts) as n eqn:Hn. remember (work ts) as m eqn:Hm.
  revert m ts Hn Hm. induction (lt_wf n) as [n _ IHn]. intros m.
  induction (lt_wf m) as [m _ IHm]. intros ts -> -> Hinv.
  destruct (decide (ts = ∅)) as [->|Hne]; [done|].
  destruct (progress ts Hinv Hne) as [ts' Hstep].
  eapply rtc_l; [done|]. apply (run_step_inv _ _ Hstep) in Hinv.
  destruct (run_step_decreases _ _ Hstep) as [Hlt|[Heq Hlt]].
  - by eapply (IHn (unread ts') Hlt (work ts')).
  - by eapply (IHm (work ts') Hlt).
Qed.

(** A task that holds all its locks. *)
Definition in_critical_section (ts : tasks) (i : nat) (t : task) : Prop :=
  ts !! i = Some t /\ todo t = [] /\ reads_joins t = false.

(** C29: the channel locks are free of deadlock: from any reachable set of running consumes
    and produces, interleaved in any way, the running tasks can all finish, and as long
    as a task runs, some running task can take a step. *)
Theorem locks_deadlock_free ts :
  rtc lock_step ∅ ts ->
  rtc run_step ts ∅ /\ (ts <> ∅ -> exists ts', run_step ts ts').
Proof.
  intros Hr%locks_inv_reachable. split; [by apply drain|by apply progress].
Qed.

(** Two operations that share a channel hash (two consumes, two produces, or a consume
    and a produce) are never in their critical sections at the same time. *)
Theorem locks_mutual_exclusion ts i j t u h :
  rtc lock_step ∅ ts -> in_critical_section ts i t -> in_critical_section ts j u ->
  h ∈ hashes t -> h ∈ hashes u -> i = j.
Proof.
  intros [Hok Hex]%locks_inv_reachable (Hi & Ht & _) (Hj & Hu & _) Hht Hhu.
  pose proof (covers_hashes _ (Hok _ _ Hi) h Hht) as Hlt. rewrite Ht, app_nil_r in Hlt.
  pose proof (covers_hashes _ (Hok _ _ Hj) h Hhu) as Hlu. rewrite Hu, app_nil_r in Hlu.
  by eapply Hex.
Qed.

Lemma locks_deadlock_free_witness :
  rtc run_step {[ 0 := consume_task [3; 1; 3]%Z ]} ∅.
Proof.
  apply (locks_deadlock_free {[ 0 := consume_task [3; 1; 3]%Z ]}).
  apply rtc_once, step_start_consume, lookup_empty.
Defined.

(** A produce that has its lock and read that there are no joins. *)
Lemma locks_mutual_exclusion_witness :
  exists ts t, in_critical_section ts 0 t /\ 7%Z ∈ hashes t /\ 0 = 0.
Proof.
  set (t := mkTask [7%Z] [(PhaseA, 7%Z)] [] false).
  set (ts0 := <[0 := produce_task 7%Z]> (∅ : tasks)).
  set (ts1 := <[0 := mkTask [7%Z] [(PhaseA, 7%Z)] [] true]> ts0).
  set (ts := <[0 := t]> ts1).
  assert (rtc lock_step ∅ ts) as Hr.
  { eapply rtc_l; [apply (step_start_produce ∅ 0 7%Z), lookup_empty|].
    eapply rtc_l.
    - apply step_run, (run_acquire ts0 0 (produce_task 7%Z) (PhaseA, 7%Z) []);
        [apply lookup_insert_eq|reflexivity|].
      intros i u [[<- <-]|[_ []%lookup_empty_Some]]%lookup_insert_Some.
      apply not_elem_of_nil.
    - apply rtc_once, step_run.
      apply (run_read_joins ts1 0 (mkTask [7%Z] [(PhaseA, 7%Z)] [] true) []);
        [apply lookup_insert_eq|reflexivity|reflexivity]. }
  assert (in_critical_section ts 0 t) as Hc by (split; [apply lookup_insert_eq|done]).
  assert (7%Z ∈ hashes t) as Hh by by left.
  exists ts, t. split_and!; [done|done|].
  exact (locks_mutual_exclusion ts 0 0 t t 7%Z Hr Hc Hc Hh Hh).
Defined.
