(* ===== verification/KeyValueStore.v ===== *)
(** * Key-value stores

    The trait [KeyValueStore] of [shared/src/rust/store/key_value_store.rs] as a class of
    operations with its laws, the default methods of the trait, and the in-memory
    implementation [rspace++/src/rspace/shared/in_mem_key_value_store.rs].  [get] and
    [put] may fail with an error in the types; the laws are about a store that answers. *)
From S2P Require Import Prelude HotStoreSig.
Open Scope res_scope.

Class KeyValueStore (S : Type) := {
  kv_get : list bytes -> S -> res KvStoreError (list (option bytes));
  kv_put : list (bytes * bytes) -> ST S (res KvStoreError unit);
  kv_delete : list bytes -> ST S (res KvStoreError nat);
}.

(** [for (key, value) in kv_pairs { insert }] *)
Definition insert_all (kv_pairs : list (bytes * bytes)) (m : gmap bytes bytes) :
  gmap bytes bytes := foldl (fun m kv => <[kv.1 := kv.2]> m) m kv_pairs.
Arguments insert_all : simpl never.

(** What a store that answers promises: it is a finite map. *)
Class KeyValueStoreLaws (S : Type) `{KeyValueStore S} := {
  kv_map : S -> gmap bytes bytes;
  kv_get_spec s keys : kv_get keys s = Ok ((fun k => kv_map s !! k) <$> keys);
  kv_put_spec s kv_pairs :
    exists s', kv_put kv_pairs s = (Ok tt, s') /\ kv_map s' = insert_all kv_pairs (kv_map s);
  kv_delete_spec s keys :
    exists n s', kv_delete keys s = (Ok n, s') /\
      kv_map s' = foldl (fun m k => delete k m) (kv_map s) keys;
}.

(** ** Default methods of the trait *)

Section defaults.
Context {S : Type} `{!KeyValueStore S}.

(** [fn contains] *)
Definition kv_contains (keys : list bytes) (s : S) : res KvStoreError (list bool) :=
  results <-! kv_get keys s;
  Ok ((fun result => bool_decide (is_Some result)) <$> results).

(** [fn get_one] *)
Definition kv_get_one (key : bytes) (s : S) : res KvStoreError (option bytes) :=
  values <-! kv_get [key] s;
  match values with
  | first_value :: _ => Ok first_value
  | [] => Ok None
  end.

(** [fn put_one] *)
Definition kv_put_one (key value : bytes) : ST S (res KvStoreError unit) :=
  kv_put [(key, value)].

(** [fn put_if_absent] *)
Definition kv_put_if_absent (kv_pairs : list (bytes * bytes)) :
  ST S (res KvStoreError unit) :=
  if_absent <- gets (kv_contains (fst <$> kv_pairs)) ;?
  let kv_absent := fst <$> filter (fun p => p.2 = false) (zip kv_pairs if_absent) in
  kv_put kv_absent.

Context `{!KeyValueStoreLaws S}.

Lemma kv_get_one_spec key s : kv_get_one key s = Ok (kv_map s !! key).
Proof. unfold kv_get_one. by rewrite kv_get_spec. Qed.

Lemma kv_contains_spec keys s :
  kv_contains keys s = Ok ((fun k => bool_decide (is_Some (kv_map s !! k))) <$> keys).
Proof. unfold kv_contains. rewrite kv_get_spec. simpl. by rewrite <-list_fmap_compose. Qed.

Lemma insert_all_cons k v kv_pairs m :
  insert_all ((k, v) :: kv_pairs) m = insert_all kv_pairs (<[k := v]> m).
Proof. done. Qed.

Lemma insert_all_lookup_ne kv_pairs m k :
  k ∉ kv_pairs.*1 -> insert_all kv_pairs m !! k = m !! k.
Proof.
  revert m. induction kv_pairs as [|[k' v] l IH]; intros m Hk; [done|]. csimpl in *.
  apply not_elem_of_cons in Hk as [Hne Hk]. rewrite insert_all_cons, IH by done.
  by rewrite lookup_insert_ne.
Qed.

Lemma insert_all_lookup kv_pairs m k v :
  insert_all kv_pairs m !! k = Some v -> (k, v) ∈ kv_pairs \/ m !! k = Some v.
Proof.
  revert m. induction kv_pairs as [|[k' v'] l IH]; intros m; [by right|].
  rewrite insert_all_cons. intros [Hin|Hm]%IH.
  - left. by right.
  - apply lookup_insert_Some in Hm as [[-> ->]|[_ Hm]]; [left; left|by right].
Qed.

Lemma insert_all_is_Some kv_pairs m k :
  k ∈ kv_pairs.*1 \/ is_Some (m !! k) -> is_Some (insert_all kv_pairs m !! k).
Proof.
  revert m. induction kv_pairs as [|[k' v'] l IH]; intros m; csimpl.
  { intros [Hin|Hs]; [by apply elem_of_nil in Hin|done]. }
  rewrite insert_all_cons, elem_of_cons. intros Hk.
  apply IH. rewrite lookup_insert_is_Some'. naive_solver.
Qed.

Lemma insert_all_NoDup kv_pairs m k v :
  NoDup kv_pairs.*1 -> (k, v) ∈ kv_pairs -> insert_all kv_pairs m !! k = Some v.
Proof.
  revert m. induction kv_pairs as [|[k' v'] l IH]; intros m Hnd Hin.
  { by apply elem_of_nil in Hin. }
  csimpl in Hnd. apply NoDup_cons in Hnd as [Hnot Hnd]. rewrite insert_all_cons.
  apply elem_of_cons in Hin as [[= -> ->]|Hin]; [|by apply IH].
  rewrite insert_all_lookup_ne by done. by rewrite lookup_insert_eq.
Qed.

(** Entries whose key is not in the store, as [zip] and [filter] select them. *)
Lemma absent_entries (present : bytes -> bool) (kv_pairs : list (bytes * bytes)) :
  fst <$> filter (fun p => p.2 = false) (zip kv_pairs (present <$> kv_pairs.*1)) =
  filter (fun kv => present kv.1 = false) kv_pairs.
Proof.
  induction kv_pairs as [|[k v] l IH]; [done|]. csimpl.
  rewrite !filter_cons. simpl. case_decide; csimpl; by rewrite IH.
Qed.

Lemma kv_put_if_absent_spec kv_pairs s :
  exists s', kv_put_if_absent kv_pairs s = (Ok tt, s') /\
    kv_map s' =
      insert_all (filter (fun kv => bool_decide (is_Some (kv_map s !! kv.1)) = false) kv_pairs)
        (kv_map s).
Proof.
  unfold kv_put_if_absent, try_bind, gets. rewrite kv_contains_spec.
  rewrite (absent_entries (fun k => bool_decide (is_Some (kv_map s !! k)))).
  apply kv_put_spec.
Qed.
End defaults.

(** ** [InMemoryKeyValueStore] *)

Record InMemoryKeyValueStore := mkInMem { state : gmap bytes bytes }.

Definition inmem_kv_get (keys : list bytes) (s : InMemoryKeyValueStore) :
  res KvStoreError (list (option bytes)) := Ok ((fun key => state s !! key) <$> keys).
Definition inmem_kv_put (kv_pairs : list (bytes * bytes)) :
  ST InMemoryKeyValueStore (res KvStoreError unit) := fun s =>
  (Ok tt, mkInMem (insert_all kv_pairs (state s))).
(** [filter_map(remove).count()] *)
Fixpoint inmem_kv_remove (keys : list bytes) (m : gmap bytes bytes) :
  nat * gmap bytes bytes :=
  match keys with
  | [] => (0, m)
  | key :: keys =>
    let '(n, m') := inmem_kv_remove keys (delete key m) in
    (match m !! key with Some _ => S n | None => n end, m')
  end.
Definition inmem_kv_delete (keys : list bytes) :
  ST InMemoryKeyValueStore (res KvStoreError nat) := fun s =>
  let '(n, m) := inmem_kv_remove keys (state s) in (Ok n, mkInMem m).

#[global] Instance inmem_kv : KeyValueStore InMemoryKeyValueStore :=
  {| kv_get := inmem_kv_get; kv_put := inmem_kv_put; kv_delete := inmem_kv_delete |}.

Lemma inmem_kv_remove_map keys m :
  (inmem_kv_remove keys m).2 = foldl (fun m k => delete k m) m keys.
Proof.
  revert m. induction keys as [|k keys IH]; intros m; [done|]. simpl.
  rewrite <-IH. by destruct (inmem_kv_remove keys (delete k m)).
Qed.

#[global] Program Instance inmem_kv_laws : KeyValueStoreLaws InMemoryKeyValueStore :=
  {| kv_map := state |}.
Next Obligation. done. Qed.
Next Obligation. intros s kv. eexists. by split. Qed.
Next Obligation.
  intros s keys. simpl. unfold inmem_kv_delete.
  pose proof (inmem_kv_remove_map keys (state s)) as Hm.
  destruct (inmem_kv_remove keys (state s)) as [n m]. simpl in *. exists n, (mkInMem m).
  by split.
Qed.

Lemma kv_put_if_absent_keeps {S} `{KeyValueStoreLaws S} kv_pairs (s : S) :
  exists s', kv_put_if_absent kv_pairs s = (Ok tt, s') /\
    kv_map s ⊆ kv_map s' /\
    (forall k v, (k, v) ∈ kv_pairs -> is_Some (kv_map s' !! k)) /\
    (forall k v, kv_map s' !! k = Some v -> kv_map s !! k = Some v \/ (k, v) ∈ kv_pairs).
Proof.
  destruct (kv_put_if_absent_spec kv_pairs s) as (s' & Hput & Hmap).
  exists s'. split; [done|]. rewrite Hmap. clear Hput Hmap.
  set (absent := filter _ _).
  assert (forall k v, (k, v) ∈ absent <-> kv_map s !! k = None /\ (k, v) ∈ kv_pairs) as Habs.
  { intros k v. unfold absent. rewrite list_elem_of_filter. simpl.
    rewrite bool_decide_eq_false, <-eq_None_not_Some. done. }
  split; [|split].
  - apply map_subseteq_spec. intros k v Hk. rewrite insert_all_lookup_ne; [done|].
    rewrite list_elem_of_fmap. intros ([k' v'] & -> & Hin%Habs). simpl in *. naive_solver.
  - intros k v Hin. apply insert_all_is_Some.
    destruct (kv_map s !! k) as [v0|] eqn:Hk; [by right|left].
    apply list_elem_of_fmap. exists (k, v). by rewrite Habs.
  - intros k v [Hin%Habs|Hs]%insert_all_lookup; [right; naive_solver|by left].
Qed.

(** [put_if_absent] on any store that keeps the laws of a finite map succeeds, never
    changes the value of a key that was present, and afterwards the store holds, for every
    absent key it was given, one of the values given for it, and nothing else is new. *)
Theorem put_if_absent_keeps {S} `{KeyValueStoreLaws S} kv_pairs (s : S) :
  exists s', kv_put_if_absent kv_pairs s = (Ok tt, s') /\
    kv_map s ⊆ kv_map s' /\
    (forall k v, (k, v) ∈ kv_pairs -> is_Some (kv_map s' !! k)) /\
    (forall k v, kv_map s' !! k = Some v -> kv_map s !! k = Some v \/ (k, v) ∈ kv_pairs).
Proof. apply kv_put_if_absent_keeps. Qed.
