(* ===== verification/TypedStore.v ===== *)
(** * Typed key-value stores

    [shared/src/rust/store/key_value_typed_store_impl.rs]: a map from keys to values kept in
    a store of bytes.  The serialization ([bincode]) is a parameter with the law that a
    serialized key or value reads back.  The main result: on the stores it produces, a
    typed store refines a finite map. *)
From S2P Require Import Prelude HotStoreSig KeyValueStore.
Open Scope res_scope.

(** [fn to_map] of the trait [KeyValueStore]: a [BTreeMap], read in the order of its keys. *)
Class KeyValueEntries (S : Type) := kv_to_map : S -> res KvStoreError (list (bytes * bytes)).
Class KeyValueEntriesLaws (S : Type) `{!KeyValueStore S, !KeyValueStoreLaws S, !KeyValueEntries S} :=
  kv_to_map_spec s : exists l, kv_to_map s = Ok l /\ l ≡ₚ map_to_list (kv_map s).

(** [encode_key], [decode_key], [encode_value] and [decode_value] *)
Record TypedCodec (K V : Type) := mkTypedCodec {
  encode_key : K -> res KvStoreError bytes;
  decode_key : bytes -> res KvStoreError K;
  encode_value : V -> res KvStoreError bytes;
  decode_value : bytes -> res KvStoreError V;
}.
Arguments encode_key {K V}. Arguments decode_key {K V}.
Arguments encode_value {K V}. Arguments decode_value {K V}.
(** What [bincode] promises for the types that are stored. *)
Class TypedCodecLaws {K V} (c : TypedCodec K V) : Prop := {
  key_roundtrip : forall k, exists b, encode_key c k = Ok b /\ decode_key c b = Ok k;
  value_roundtrip : forall v, exists b, encode_value c v = Ok b /\ decode_value c b = Ok v;
}.

Section typed.
Context {K V S : Type} `{Countable K} `{!KeyValueStore S, !KeyValueEntries S} `{!Debug K}.
Context (c : TypedCodec K V).

(** [fn get] *)
Definition decode_opt (value_opt : option bytes) : res KvStoreError (option V) :=
  match value_opt with
  | Some value => v <-! decode_value c value; Ok (Some v)
  | None => Ok None
  end.
Definition typed_get (keys : list K) (s : S) : res KvStoreError (list (option V)) :=
  keys_bit_vector <-! res_mapM (encode_key c) keys;
  values_bytes <-! kv_get keys_bit_vector s;
  res_mapM decode_opt values_bytes.
(** [fn put] *)
Definition encode_pair (kv : K * V) : res KvStoreError (bytes * bytes) :=
  encoded_key <-! encode_key c kv.1;
  encoded_value <-! encode_value c kv.2;
  Ok (encoded_key, encoded_value).
Definition typed_put (kv_pairs : list (K * V)) : ST S (res KvStoreError unit) :=
  pairs_bit_vector <- lift (res_mapM encode_pair kv_pairs) ;?
  kv_put pairs_bit_vector.
(** [fn delete] *)
Definition typed_delete (keys : list K) : ST S (res KvStoreError unit) :=
  keys_bit_vector <- lift (res_mapM (encode_key c) keys) ;?
  _ <- kv_delete keys_bit_vector ;?
  lift (Ok tt).
(** [fn contains] *)
Definition typed_contains (keys : list K) (s : S) : res KvStoreError (list bool) :=
  keys_bit_vector <-! res_mapM (encode_key c) keys;
  results <-! kv_get keys_bit_vector s;
  Ok ((fun result => bool_decide (is_Some result)) <$> results).
(** [fn to_map] and the entries that [fn collect] visits *)
Definition decode_pair (kv : bytes * bytes) : res KvStoreError (K * V) :=
  key <-! decode_key c kv.1;
  value <-! decode_value c kv.2;
  Ok (key, value).
Definition typed_collect {T} (f : K * V -> option T) (s : S) : res KvStoreError (list T) :=
  store_map <-! kv_to_map s;
  pairs <-! res_mapM decode_pair store_map;
  Ok (omap f pairs).
Definition typed_to_map (s : S) : res KvStoreError (gmap K V) :=
  store_map <-! kv_to_map s;
  pairs <-! res_mapM decode_pair store_map;
  Ok (foldl (fun m kv => <[kv.1 := kv.2]> m) ∅ pairs).

(** ** The methods built on these *)

Definition not_found (key : K) : KvStoreError :=
  KvKeyNotFound ("Error when reading from KeyValueStore: value for key " +:+ debug key +:+
    " not found.").
Definition typed_get_one (key : K) (s : S) : res KvStoreError (option V) :=
  values <-! typed_get [key] s;
  match values with
  | first_value :: _ => Ok first_value
  | [] => Ok None
  end.
Definition found (key : K) (value_opt : option V) : res KvStoreError V :=
  match value_opt with Some v => Ok v | None => Err (not_found key) end.
Definition typed_get_batch (keys : list K) (s : S) : res KvStoreError (list V) :=
  values <-! typed_get keys s;
  res_mapM (fun '(value_opt, key) => found key value_opt) (zip values keys).
Definition typed_get_unsafe (key : K) (s : S) : res KvStoreError V :=
  value_opt <-! typed_get_one key s;
  found key value_opt.
Definition typed_put_one (key : K) (value : V) : ST S (res KvStoreError unit) :=
  typed_put [(key, value)].
Definition typed_put_if_absent (kv_pairs : list (K * V)) : ST S (res KvStoreError unit) :=
  if_absent <- gets (typed_contains (fst <$> kv_pairs)) ;?
  let kv_absent := fst <$> filter (fun p => p.2 = false) (zip kv_pairs if_absent) in
  typed_put kv_absent.
Definition typed_contains_key (key : K) (s : S) : res KvStoreError bool :=
  results <-! typed_contains [key] s;
  Ok (default false (head results)).
Definition typed_get_or_else (key : K) (else_value : V) (s : S) : res KvStoreError V :=
  value_opt <-! typed_get_one key s;
  Ok (default else_value value_opt).

(** ** Refinement *)

Context `{!KeyValueStoreLaws S, !KeyValueEntriesLaws S, !TypedCodecLaws c}.

(** The bytes [r] hold the map [m]: the value found under an encoded key decodes to that of
    the key, and every key that is stored is the encoding of one. *)
Record raw_view (r : gmap bytes bytes) (m : gmap K V) : Prop := {
  view_value : forall k b, encode_key c k = Ok b -> decode_opt (r !! b) = Ok (m !! k);
  view_key : forall b, is_Some (r !! b) -> exists k, encode_key c k = Ok b;
}.
Definition typed_view (s : S) (m : gmap K V) : Prop := raw_view (kv_map s) m.
Definition inserts (m : gmap K V) (kv_pairs : list (K * V)) : gmap K V :=
  foldl (fun m kv => <[kv.1 := kv.2]> m) m kv_pairs.
Definition deletes (m : gmap K V) (keys : list K) : gmap K V := foldl (fun m k => delete k m) m keys.

Lemma encode_key_total k : exists b, encode_key c k = Ok b.
Proof. destruct (key_roundtrip (c:=c) k) as (b & ? & _). eauto. Qed.
Lemma encode_key_inj k k' b : encode_key c k = Ok b -> encode_key c k' = Ok b -> k = k'.
Proof.
  destruct (key_roundtrip (c:=c) k) as (b1 & -> & Hk), (key_roundtrip (c:=c) k') as (b2 & -> & Hk').
  congruence.
Qed.
Lemma encode_keys keys :
  exists bs, res_mapM (encode_key c) keys = Ok bs /\
    Forall2 (fun k b => encode_key c k = Ok b) keys bs.
Proof.
  induction keys as [|k keys (bs & Hbs & Hf)]; [by exists []|].
  destruct (encode_key_total k) as [b Hb]. exists (b :: bs). cbn [res_mapM].
  rewrite Hb, Hbs. by split; [|constructor].
Qed.

Lemma view_stored s m k b :
  typed_view s m -> encode_key c k = Ok b -> is_Some (kv_map s !! b) <-> is_Some (m !! k).
Proof.
  intros Hv Hb. pose proof (view_value _ _ Hv k b Hb) as Hd. unfold decode_opt in Hd.
  destruct (kv_map s !! b) as [vb|]; [|by injection Hd as <-; split; intros [? ?]].
  apply res_bind_Ok in Hd as (v & _ & [= <-]). by split; eexists.
Qed.
Lemma decode_stored s m keys bs :
  typed_view s m -> Forall2 (fun k b => encode_key c k = Ok b) keys bs ->
  res_mapM decode_opt ((kv_map s !!.) <$> bs) = Ok ((m !!.) <$> keys).
Proof.
  intros Hv. induction 1 as [|k b keys bs Hb _ IH]; [done|].
  cbn [fmap list_fmap res_mapM]. rewrite (view_value _ _ Hv k b Hb). cbn [res_bind].
  change (list_fmap ?f ?l) with (f <$> l). by rewrite IH.
Qed.

Lemma typed_get_spec s m keys : typed_view s m -> typed_get keys s = Ok ((m !!.) <$> keys).
Proof.
  intros Hv. unfold typed_get. destruct (encode_keys keys) as (bs & -> & Hf). cbn [res_bind].
  rewrite kv_get_spec. cbn [res_bind]. by apply decode_stored.
Qed.
Lemma typed_get_one_spec s m k : typed_view s m -> typed_get_one k s = Ok (m !! k).
Proof. intros Hv. unfold typed_get_one. by rewrite (typed_get_spec s m). Qed.
Lemma typed_contains_spec s m keys :
  typed_view s m ->
  typed_contains keys s = Ok ((fun k => bool_decide (is_Some (m !! k))) <$> keys).
Proof.
  intros Hv. unfold typed_contains. destruct (encode_keys keys) as (bs & -> & Hf).
  cbn [res_bind]. rewrite kv_get_spec. cbn [res_bind]. f_equal.
  rewrite <- list_fmap_compose. induction Hf as [|k b keys bs Hb _ IH]; [done|].
  cbn [fmap list_fmap compose]. f_equal; [|exact IH].
  apply bool_decide_ext. by apply view_stored.
Qed.

Lemma view_insert r m k v b vb :
  raw_view r m -> encode_key c k = Ok b -> decode_value c vb = Ok v ->
  raw_view (<[b := vb]> r) (<[k := v]> m).
Proof.
  intros Hv Hb Hvb. split.
  - intros k' b' Hb'. destruct (decide (b' = b)) as [->|Hne].
    + rewrite (encode_key_inj k' k b) by done. rewrite !lookup_insert_eq. simpl. by rewrite Hvb.
    + rewrite lookup_insert_ne by done. rewrite lookup_insert_ne; [by apply (view_value _ _ Hv)|].
      intros ->. congruence.
  - intros b'. rewrite lookup_insert_is_Some'. intros [<-|Hs]; [eauto|].
    by apply (view_key _ _ Hv).
Qed.
Lemma view_delete r m k b :
  raw_view r m -> encode_key c k = Ok b -> raw_view (delete b r) (delete k m).
Proof.
  intros Hv Hb. split.
  - intros k' b' Hb'. destruct (decide (b' = b)) as [->|Hne].
    + rewrite (encode_key_inj k' k b) by done. by rewrite !lookup_delete_eq.
    + rewrite lookup_delete_ne by done. rewrite lookup_delete_ne; [by apply (view_value _ _ Hv)|].
      intros ->. congruence.
  - intros b' Hs. apply (view_key _ _ Hv). rewrite lookup_delete_is_Some in Hs. tauto.
Qed.

Lemma encode_pairs kv_pairs :
  exists bs, res_mapM encode_pair kv_pairs = Ok bs /\
    forall r m, raw_view r m -> raw_view (insert_all bs r) (inserts m kv_pairs).
Proof.
  induction kv_pairs as [|[k v] l (bs & Hbs & Hv)]; [by exists []|].
  destruct (encode_key_total k) as [b Hb]. destruct (value_roundtrip (c:=c) v) as (vb & Hvb & Hd).
  exists ((b, vb) :: bs). cbn [res_mapM encode_pair fst snd].
  unfold encode_pair at 1. cbn [fst snd]. rewrite Hb. cbn [res_bind]. rewrite Hvb. cbn [res_bind].
  rewrite Hbs. split; [done|]. intros r m Hr. rewrite insert_all_cons. cbn [inserts foldl fst snd].
  by apply Hv, view_insert.
Qed.
Lemma typed_put_spec s m kv_pairs :
  typed_view s m ->
  exists s', typed_put kv_pairs s = (Ok tt, s') /\ typed_view s' (inserts m kv_pairs).
Proof.
  intros Hv. destruct (encode_pairs kv_pairs) as (bs & Hbs & Hr).
  destruct (kv_put_spec s bs) as (s' & Hs' & Hm). exists s'.
  unfold typed_put, try_bind, lift. rewrite Hbs. split; [done|].
  unfold typed_view. rewrite Hm. by apply Hr.
Qed.
Lemma view_deletes r m keys bs :
  Forall2 (fun k b => encode_key c k = Ok b) keys bs -> raw_view r m ->
  raw_view (foldl (fun m k => delete k m) r bs) (deletes m keys).
Proof.
  intros Hf. revert r m. induction Hf as [|k b keys bs Hb _ IH]; intros r m Hv; [done|].
  cbn [foldl deletes]. by apply IH, view_delete.
Qed.
Lemma typed_delete_spec s m keys :
  typed_view s m ->
  exists s', typed_delete keys s = (Ok tt, s') /\ typed_view s' (deletes m keys).
Proof.
  intros Hv. destruct (encode_keys keys) as (bs & Hbs & Hf).
  destruct (kv_delete_spec s bs) as (n & s' & Hs' & Hm). exists s'.
  unfold typed_delete, try_bind, lift. rewrite Hbs, Hs'. split; [done|].
  unfold typed_view. rewrite Hm. by apply view_deletes.
Qed.

Lemma decode_entries r m l :
  raw_view r m -> (forall b vb, (b, vb) ∈ l -> r !! b = Some vb) ->
  exists kvs, res_mapM decode_pair l = Ok kvs /\ Forall2 (fun bv kv =>
    encode_key c kv.1 = Ok bv.1 /\ m !! kv.1 = Some kv.2) l kvs.
Proof.
  intros Hv. induction l as [|[b vb] l IH]; intros Hl; [by exists []|].
  destruct IH as (kvs & Hkvs & Hf). { intros b' vb' Hin. apply Hl. by right. }
  assert (r !! b = Some vb) as Hb by (apply Hl; left).
  destruct (view_key _ _ Hv b) as [k Hk]; [by eexists|].
  pose proof (view_value _ _ Hv k b Hk) as Hd. rewrite Hb in Hd. simpl in Hd.
  apply res_bind_Ok in Hd as (v & Hvb & [= Hm]).
  destruct (key_roundtrip (c:=c) k) as (b' & Hb' & Hdk). rewrite Hk in Hb'. injection Hb' as <-.
  exists ((k, v) :: kvs). cbn [res_mapM]. unfold decode_pair at 1. cbn [fst snd].
  rewrite Hdk. cbn [res_bind]. rewrite Hvb. cbn [res_bind]. rewrite Hkvs. by split; [|constructor].
Qed.
Lemma inserts_lookup m0 kvs (m : gmap K V) k :
  (forall kv, kv ∈ kvs -> m !! kv.1 = Some kv.2) ->
  inserts m0 kvs !! k = if decide (k ∈ kvs.*1) then m !! k else m0 !! k.
Proof.
  revert m0. induction kvs as [|[k' v'] kvs IH]; intros m0 Hm; [done|].
  cbn [inserts foldl]. rewrite IH by (intros kv Hkv; apply Hm; by right).
  csimpl. destruct (decide (k ∈ kvs.*1)) as [Hin|Hnin].
  - by rewrite decide_True by by right.
  - destruct (decide (k = k')) as [->|Hne].
    + rewrite lookup_insert_eq, decide_True by left. symmetry. apply (Hm (k', v')). left.
    + rewrite lookup_insert_ne by done. rewrite decide_False; [done|].
      by intros [?|?]%elem_of_cons.
Qed.
Lemma typed_to_map_spec s m : typed_view s m -> typed_to_map s = Ok m.
Proof.
  intros Hv. destruct (kv_to_map_spec s) as (l & Hl & Hp). unfold typed_to_map. rewrite Hl.
  cbn [res_bind]. destruct (decode_entries _ _ l Hv) as (kvs & -> & Hf).
  { intros b vb. rewrite Hp. apply elem_of_map_to_list. }
  cbn [res_bind]. f_equal. change (inserts ∅ kvs = m). apply map_eq. intros k.
  rewrite (inserts_lookup ∅ kvs m k).
  2:{ intros kv Hkv. apply list_elem_of_lookup in Hkv as [i Hi].
      destruct (Forall2_lookup_r _ _ _ _ _ Hf Hi) as (bv & _ & _ & ?). done. }
  case_decide as Hk; [done|]. rewrite lookup_empty. symmetry. apply eq_None_not_Some.
  intros Hs. apply Hk. destruct (encode_key_total k) as [b Hb].
  destruct (proj2 (view_stored s m k b Hv Hb) Hs) as [vb Hvb].
  assert ((b, vb) ∈ l) as Hin by (rewrite Hp; by apply elem_of_map_to_list).
  apply list_elem_of_lookup in Hin as [i Hi].
  destruct (Forall2_lookup_l _ _ _ _ _ Hf Hi) as ([k' v] & Hi' & Hk' & _). cbn [fst] in Hk'.
  rewrite (encode_key_inj k k' b) by done. apply (list_elem_of_fmap_2 fst _ (k', v)).
  by eapply list_elem_of_lookup_2.
Qed.

Lemma typed_get_batch_spec s m keys :
  typed_view s m ->
  typed_get_batch keys s = res_mapM (fun k => found k (m !! k)) keys.
Proof.
  intros Hv. unfold typed_get_batch. rewrite (typed_get_spec s m) by done. cbn [res_bind].
  induction keys as [|k keys IH]; [done|]. cbn [fmap list_fmap zip zip_with res_mapM].
  destruct (found k (m !! k)); cbn [res_bind]; [|done..].
  change (list_fmap ?f ?l) with (f <$> l). by rewrite <- IH.
Qed.
Lemma typed_put_if_absent_spec s m kv_pairs :
  typed_view s m ->
  exists s', typed_put_if_absent kv_pairs s = (Ok tt, s') /\
    typed_view s' (inserts m (filter (fun kv => m !! kv.1 = None) kv_pairs)).
Proof.
  intros Hv. unfold typed_put_if_absent, try_bind, gets.
  rewrite (typed_contains_spec s m) by done. cbv beta iota.
  destruct (typed_put_spec s m (fst <$> filter (fun p : K * V * bool => p.2 = false)
    (zip kv_pairs ((fun k => bool_decide (is_Some (m !! k))) <$> kv_pairs.*1))) Hv) as (s' & Hs' & Hv').
  exists s'. split; [exact Hs'|].
  assert (fst <$> filter (fun p : K * V * bool => p.2 = false)
    (zip kv_pairs ((fun k => bool_decide (is_Some (m !! k))) <$> kv_pairs.*1)) =
    filter (fun kv => m !! kv.1 = None) kv_pairs) as <-; [|done].
  clear. induction kv_pairs as [|[k v] l IH]; [done|]. csimpl. rewrite !filter_cons. simpl.
  rewrite <- IH. destruct (m !! k) as [w|] eqn:E; simpl; done.
Qed.

(** A typed store refines a finite map.  On a store that holds the map [m], [get],
    [get_one], [get_batch], [contains] and [to_map] return what they return on [m], and
    after [put], [delete] and [put_if_absent] the store holds the updated map. *)
Theorem typed_store_refines_map s m :
  typed_view s m ->
  (forall keys, typed_get keys s = Ok ((m !!.) <$> keys)) /\
  (forall k, typed_get_one k s = Ok (m !! k)) /\
  (forall keys, typed_get_batch keys s = res_mapM (fun k => found k (m !! k)) keys) /\
  (forall keys, typed_contains keys s = Ok ((fun k => bool_decide (is_Some (m !! k))) <$> keys)) /\
  typed_to_map s = Ok m /\
  (forall kvs, exists s', typed_put kvs s = (Ok tt, s') /\ typed_view s' (inserts m kvs)) /\
  (forall keys, exists s', typed_delete keys s = (Ok tt, s') /\ typed_view s' (deletes m keys)) /\
  (forall kvs, exists s', typed_put_if_absent kvs s = (Ok tt, s') /\
     typed_view s' (inserts m (filter (fun kv => m !! kv.1 = None) kvs))).
Proof.
  intros Hv. split_and!; intros.
  - by apply typed_get_spec.
  - by apply typed_get_one_spec.
  - by apply typed_get_batch_spec.
  - by apply typed_contains_spec.
  - by apply typed_to_map_spec.
  - by apply typed_put_spec.
  - by apply typed_delete_spec.
  - by apply typed_put_if_absent_spec.
Qed.
End typed.

(** [fn to_map] of [InMemoryKeyValueStore] *)
#[global] Instance inmem_to_map : KeyValueEntries InMemoryKeyValueStore := fun s =>
  Ok (sort_by (fun a b => bytes_cmp a.1 b.1) (map_to_list (state s))).
#[global] Instance inmem_to_map_laws : KeyValueEntriesLaws InMemoryKeyValueStore.
Proof. intros s. eexists. split; [done|]. apply sort_by_perm. Qed.

Module TypedExample.
(** Bytes stored as they are. *)
Definition raw : TypedCodec bytes bytes := mkTypedCodec _ _ Ok Ok Ok Ok.
#[export] Instance raw_laws : TypedCodecLaws raw.
Proof. split; intros x; by exists x. Qed.
#[export] Instance bytes_debug : Debug bytes := fun _ => String.EmptyString.
Definition one : InMemoryKeyValueStore := mkInMem {[ [x01] := [x02] ]}.
Lemma one_view : typed_view raw one {[ [x01] := [x02] ]}.
Proof.
  split; [|by intros b; exists b]. intros k b [= ->]. unfold decode_opt.
  change (kv_map one) with ({[ [x01] := [x02] ]} : gmap bytes bytes).
  by destruct (_ !! b).
Qed.
Lemma typed_store_refines_map_witness :
  typed_view raw one {[ [x01] := [x02] ]} /\
  typed_get raw [[x01]; [x03]] one = Ok [Some [x02]; None].
Proof.
  split; [exact one_view|].
  destruct (typed_store_refines_map raw one _ one_view) as [Hget _].
  by rewrite Hget.
Defined.
End TypedExample.
