(* ===== verification/Serializers.v ===== *)
(** * Rows as bytes

    [rspace++/src/rspace/serializers/serializers.rs] and the leaves of
    [history/cold_store.rs].  A row (the data of a channel, the continuations that wait on
    a channel vector, the joins of a channel) is stored as the sorted list of its
    serialized elements, so that its bytes do not depend on the order of the row.

    bincode is a parameter: [RowCodecs] are its serializers at the types in use, with what
    the code relies on in [RowCodecsLaws]. *)
From S2P Require Import Prelude Events HotStoreSig.
Open Scope res_scope.

(** [enum PersistedData] with [JoinsLeaf], [DataLeaf], [ContinuationsLeaf { bytes }] *)
Inductive PersistedData :=
| JoinsLeaf (bytes : bytes)
| DataLeaf (bytes : bytes)
| ContinuationsLeaf (bytes : bytes).

Definition leaf_bytes (d : PersistedData) : bytes :=
  match d with JoinsLeaf b | DataLeaf b | ContinuationsLeaf b => b end.

(** bincode at [Datum<A>], [WaitingContinuation<P, K>], [Vec<C>], [Vec<Vec<u8>>],
    [PersistedData] and [Vec<u8>].  It writes a newtype or a struct with one field as the
    field, so [ser_byte_vec] also serializes a [Blake2b256Hash] and the three leaves. *)
Record RowCodecs (C P A K : Type) := mkRowCodecs {
  ser_datum_row : Datum A -> bytes;
  de_datum_row : bytes -> option (Datum A);
  ser_continuation_row : WaitingContinuation P K -> bytes;
  de_continuation_row : bytes -> option (WaitingContinuation P K);
  ser_join_row : list C -> bytes;
  de_join_row : bytes -> option (list C);
  ser_byte_vecs : list bytes -> bytes;
  de_byte_vecs : bytes -> option (list bytes);
  ser_persisted : PersistedData -> bytes;
  de_persisted : bytes -> option PersistedData;
  ser_byte_vec : bytes -> bytes;
}.
Arguments ser_datum_row {C P A K} _ _.
Arguments de_datum_row {C P A K} _ _.
Arguments ser_continuation_row {C P A K} _ _.
Arguments de_continuation_row {C P A K} _ _.
Arguments ser_join_row {C P A K} _ _.
Arguments de_join_row {C P A K} _ _.
Arguments ser_byte_vecs {C P A K} _ _.
Arguments de_byte_vecs {C P A K} _ _.
Arguments ser_persisted {C P A K} _ _.
Arguments de_persisted {C P A K} _ _.
Arguments ser_byte_vec {C P A K} _ _.

(** bincode reads back what it wrote, and writes a byte vector after its length, in
    eight bytes. *)
Class RowCodecsLaws {C P A K} (rc : RowCodecs C P A K) : Prop := {
  datum_row_roundtrip : forall d, de_datum_row rc (ser_datum_row rc d) = Some d;
  continuation_row_roundtrip : forall w,
    de_continuation_row rc (ser_continuation_row rc w) = Some w;
  join_row_roundtrip : forall j, de_join_row rc (ser_join_row rc j) = Some j;
  byte_vecs_roundtrip : forall l, de_byte_vecs rc (ser_byte_vecs rc l) = Some l;
  persisted_roundtrip : forall d, de_persisted rc (ser_persisted rc d) = Some d;
  ser_byte_vec_inj : Inj (=) (=) (ser_byte_vec rc);
  ser_byte_vec_length : forall b, length (ser_byte_vec rc b) = 8 + length b;
}.

(** [fn compare_byte_vectors]: the first difference decides, then the length. *)
Definition compare_byte_vectors (a b : bytes) : comparison :=
  match filter (.≠ Eq) (zip_with byte_cmp a b) with
  | ord :: _ => ord
  | [] => Nat.compare (length a) (length b)
  end.

Lemma compare_byte_vectors_lex a b : compare_byte_vectors a b = bytes_cmp a b.
Proof.
  revert b. induction a as [|x a IH]; intros [|y b]; try done.
  unfold compare_byte_vectors in *. simpl.
  destruct (byte_cmp x y) eqn:Hxy; [|by rewrite filter_cons_True..].
  rewrite filter_cons_False by naive_solver. simpl. rewrite <-IH.
  by destruct (filter _ _).
Qed.

#[global] Instance compare_byte_vectors_order : CmpOrder compare_byte_vectors.
Proof.
  split; [split|]; unfold cmp_le; intros *; rewrite !compare_byte_vectors_lex.
  - apply (cmp_sym bytes_cmp).
  - apply (cmp_le_trans bytes_cmp).
  - apply (cmp_eq bytes_cmp).
Qed.

(** ** Encoding and decoding a row *)

Section rows.
Context {C P A K : Type} (rc : RowCodecs C P A K).

(** The common shape of [encode_datums], [encode_continuations] and [encode_joins]: the
    elements are serialized, sorted and serialized as a vector. *)
Definition encode_row {X} (ser : X -> bytes) (row : list X) : bytes :=
  ser_byte_vecs rc (sort_by compare_byte_vectors (ser <$> row)).
(** The common shape of the decoders, which panic on bytes they cannot read. *)
Definition decode_row {X} (de : bytes -> option X) (vec_bytes : bytes) :
  res HistoryError (list X) :=
  encoded <-! unwrap (de_byte_vecs rc vec_bytes);
  res_mapM (fun b => unwrap (de b)) encoded.

Definition encode_datums : list (Datum A) -> bytes := encode_row (ser_datum_row rc).
Definition decode_datums : bytes -> res HistoryError (list (Datum A)) :=
  decode_row (de_datum_row rc).
Definition encode_continuations : list (WaitingContinuation P K) -> bytes :=
  encode_row (ser_continuation_row rc).
Definition decode_continuations : bytes -> res HistoryError (list (WaitingContinuation P K)) :=
  decode_row (de_continuation_row rc).
Definition encode_joins : list (list C) -> bytes := encode_row (ser_join_row rc).
Definition decode_joins : bytes -> res HistoryError (list (list C)) :=
  decode_row (de_join_row rc).

Definition encode_binary : list bytes -> bytes := encode_row (ser_byte_vec rc).

(** The bytes of a row do not depend on its order. *)
Lemma encode_row_perm {X} (ser : X -> bytes) row row' :
  row ≡ₚ row' -> encode_row ser row = encode_row ser row'.
Proof.
  intros Hp. unfold encode_row. by rewrite (sort_by_unique _ _ (ser <$> row')) by (by rewrite Hp).
Qed.

Context `{!RowCodecsLaws rc}.

Lemma mapM_unwrap_ser {X} (ser : X -> bytes) (de : bytes -> option X) row :
  (forall x, de (ser x) = Some x) ->
  res_mapM (E:=HistoryError) (fun b => unwrap (de b)) (ser <$> row) = Ok row.
Proof.
  intros Hde. apply res_mapM_Ok. induction row as [|x row IH]; constructor; [|done].
  by rewrite Hde.
Qed.

(** Decoding gives back the row, sorted by the bytes of its elements. *)
Lemma decode_encode_row {X} (ser : X -> bytes) (de : bytes -> option X) row :
  (forall x, de (ser x) = Some x) ->
  exists row', decode_row de (encode_row ser row) = Ok row' /\ row' ≡ₚ row.
Proof.
  intros Hde. unfold decode_row, encode_row. rewrite byte_vecs_roundtrip. simpl.
  pose proof (sort_by_perm compare_byte_vectors (ser <$> row)) as Hp.
  apply Permutation_map_inv in Hp as (row' & Hs & Hrow).
  exists row'. rewrite Hs. split; [|by symmetry].
  exact (mapM_unwrap_ser ser de row' Hde).
Qed.

(** Two rows with the same bytes are permutations of each other. *)
Lemma encode_row_inj {X} (ser : X -> bytes) (de : bytes -> option X) row row' :
  (forall x, de (ser x) = Some x) -> encode_row ser row = encode_row ser row' -> row ≡ₚ row'.
Proof.
  intros Hde Heq. destruct (decode_encode_row ser de row Hde) as (r1 & H1 & <-).
  destruct (decode_encode_row ser de row' Hde) as (r2 & H2 & <-).
  rewrite Heq in H1. rewrite H1 in H2. by injection H2 as ->.
Qed.
End rows.
