(* ===== verification/RadixCodec.v ===== *)
(** * Nodes of the radix tree and their binary form

    The first part of [rspace++/src/rspace/history/radix_tree.rs]: [Item], [Node],
    [empty_node], the codec [encode]/[decode] and [common_prefix].  A node is a vector of
    256 items, one for each first byte of a key.  The codec writes into a buffer of a size
    computed in advance and reads at explicit positions, with the indices of the source;
    an index out of range or a failed [assert!] is [Panic]. *)
From S2P Require Import Prelude.
Open Scope res_scope.

Inductive Item :=
| EmptyItem
| Leaf (prefix value : bytes)
| NodePtr (prefix ptr : bytes).
Abbreviation Node := (list Item).

#[global] Instance item_eq_dec : EqDecision Item.
Proof. solve_decision. Defined.

Definition NUM_ITEMS : nat := 256.
Definition DEF_SIZE : nat := 32.
Definition HEAD_SIZE : nat := 2.

Definition empty_node : Node := replicate NUM_ITEMS EmptyItem.

Definition byte_to_int (b : byte) : nat := Nat.land (byte_to_nat b) 255.

(** ** [encode] *)

Section encode.
Context {E : Type}.

(** The size of the serialized item, with the assertions on its fields. *)
Definition item_size (size : nat) (item : Item) : res E nat :=
  match item with
  | EmptyItem => Ok size
  | Leaf prefix value | NodePtr prefix value =>
    assert (bool_decide (length prefix <= 127)) ;;!
    assert (bool_decide (length value = DEF_SIZE)) ;;!
    Ok (size + HEAD_SIZE + length prefix + DEF_SIZE)
  end.
Definition calc_size (node : Node) : res E nat := res_foldM item_size 0 node.

Definition encode_leaf_second_byte (prefix_size : nat) : byte :=
  nat_to_byte (Nat.land prefix_size 127).
Definition encode_node_ptr_second_byte (prefix_size : nat) : byte :=
  nat_to_byte (Nat.lor 128 (Nat.land prefix_size 127)).

(** [for i in 0..n { arr[pos + i] = data[i] }] *)
Definition fill (arr : bytes) (pos n : nat) (data : bytes) : res E bytes :=
  if decide (n <= length data /\ pos + n <= length arr)
  then Ok (take pos arr ++ take n data ++ drop (pos + n) arr) else Panic.

(** One non-empty item: index, second byte, prefix, value or pointer. *)
Definition put_item (idx_item pos0 : nat) (arr : bytes) (second_byte : byte)
    (prefix value : bytes) : res E (nat * bytes) :=
  arr <-! fill arr pos0 1 [nat_to_byte idx_item];
  let pos_second_byte := pos0 + 1 in
  let prefix_size := length prefix in
  arr <-! fill arr pos_second_byte 1 [second_byte];
  let pos_prefix_start := pos_second_byte + 1 in
  arr <-! fill arr pos_prefix_start prefix_size prefix;
  let pos_value_start := pos_prefix_start + prefix_size in
  arr <-! fill arr pos_value_start DEF_SIZE value;
  Ok (pos_value_start + DEF_SIZE, arr).

(** [put_item_into_array]; [items] are the items of the node from [idx_item] on. *)
Fixpoint put_item_into_array (idx_item pos0 : nat) (arr : bytes) (items : Node)
    (calc_size : nat) : res E bytes :=
  if decide (pos0 = calc_size) then Ok arr
  else
    match items with
    | [] => Panic
    | EmptyItem :: items => put_item_into_array (idx_item + 1) pos0 arr items calc_size
    | Leaf prefix value :: items =>
      ' (pos, arr) <-! put_item idx_item pos0 arr
                         (encode_leaf_second_byte (length prefix)) prefix value;
      put_item_into_array (idx_item + 1) pos arr items calc_size
    | NodePtr prefix ptr :: items =>
      ' (pos, arr) <-! put_item idx_item pos0 arr
                         (encode_node_ptr_second_byte (length prefix)) prefix ptr;
      put_item_into_array (idx_item + 1) pos arr items calc_size
    end.

Definition encode (node : Node) : res E bytes :=
  size <-! calc_size node;
  put_item_into_array 0 0 (replicate size x00) node size.

(** ** [decode] *)

Definition is_leaf (second_byte : byte) : bool :=
  bool_decide (Nat.land (byte_to_nat second_byte) 128 = 0).
Definition prefix_size (second_byte : byte) : nat := Nat.land (byte_to_nat second_byte) 127.

(** [bv[pos..pos + n].to_vec()] *)
Definition slice (bv : bytes) (pos n : nat) : res E bytes :=
  if decide (pos + n <= length bv) then Ok (take n (drop pos bv)) else Panic.

(** One iteration of the loop: the updated node and the next position. *)
Definition decode_item (bv : bytes) (node : Node) (pos0 : nat) : res E (Node * nat) :=
  first <-! unwrap (bv !! pos0);
  let idx_item := byte_to_int first in
  item <-! unwrap (node !! idx_item);
  assert (bool_decide (item = EmptyItem)) ;;!
  let pos1 := pos0 + 1 in
  second_byte <-! unwrap (bv !! pos1);
  let prefix_size := prefix_size second_byte in
  let pos_prefix_start := pos1 + 1 in
  prefix <-! slice bv pos_prefix_start prefix_size;
  let pos_val_or_ptr_start := pos_prefix_start + prefix_size in
  val_or_ptr <-! slice bv pos_val_or_ptr_start DEF_SIZE;
  let item := if is_leaf second_byte then Leaf prefix val_or_ptr
              else NodePtr prefix val_or_ptr in
  Ok (<[idx_item := item]> node, pos_val_or_ptr_start + DEF_SIZE).

(** [while pos0 < max_size]; every iteration moves [pos0] forward, so [max_size]
    iterations are enough ([decode_loop_fuel]). *)
Fixpoint decode_loop (fuel : nat) (bv : bytes) (node : Node) (pos0 : nat) : res E Node :=
  if decide (pos0 < length bv) then
    match fuel with
    | 0 => Panic
    | S fuel =>
      ' (node, pos0) <-! decode_item bv node pos0;
      decode_loop fuel bv node pos0
    end
  else Ok node.
Definition decode (bv : bytes) : res E Node := decode_loop (length bv) bv empty_node 0.
End encode.

(** ** [common_prefix] *)

Fixpoint common_prefix_go (common l r : bytes) : bytes * bytes * bytes :=
  match l, r with
  | l_head :: l_tail, r_head :: r_tail =>
    if decide (l_head = r_head) then common_prefix_go (common ++ [l_head]) l_tail r_tail
    else (common, l, r)
  | _, _ => (common, l, r)
  end.
Definition common_prefix (b1 b2 : bytes) : bytes * bytes * bytes :=
  common_prefix_go [] b1 b2.

(** ** Correctness *)

Lemma common_prefix_go_spec common b1 b2 c l r :
  common_prefix_go common b1 b2 = (c, l, r) ->
  exists c', c = common ++ c' /\ b1 = c' ++ l /\ b2 = c' ++ r /\
    (l = [] \/ r = [] \/ exists x l' y r', l = x :: l' /\ r = y :: r' /\ x <> y).
Proof.
  revert common b2. induction b1 as [|x b1 IH]; intros common [|y b2]; simpl.
  1-3: intros [= <- <- <-]; exists []; rewrite app_nil_r; naive_solver.
  destruct (decide (x = y)) as [<-|Hne].
  - intros (c' & -> & -> & -> & Hd)%IH. exists (x :: c'). by rewrite <-app_assoc.
  - intros [= <- <- <-]. exists []. rewrite app_nil_r. naive_solver.
Qed.

(** [common_prefix] splits both arguments after their longest common prefix. *)
Lemma common_prefix_spec b1 b2 c l r :
  common_prefix b1 b2 = (c, l, r) ->
  b1 = c ++ l /\ b2 = c ++ r /\
    (l = [] \/ r = [] \/ exists x l' y r', l = x :: l' /\ r = y :: r' /\ x <> y).
Proof. intros (c' & -> & H)%common_prefix_go_spec. done. Qed.

Lemma byte_to_int_nat b : byte_to_int b = byte_to_nat b.
Proof.
  unfold byte_to_int. pose proof (byte_to_nat_lt b).
  change 255 with (Nat.ones 8). rewrite Nat.land_ones. by apply Nat.mod_small.
Qed.

(** What [encode] asserts of an item. *)
Definition item_ok (item : Item) : Prop :=
  match item with
  | EmptyItem => True
  | Leaf prefix value | NodePtr prefix value =>
    length prefix <= 127 /\ length value = DEF_SIZE
  end.
(** A node that can be stored: 256 items that can be serialized. *)
Record node_ok (node : Node) : Prop := {
  node_length : length node = NUM_ITEMS;
  node_items_ok : Forall item_ok node;
}.

#[global] Instance item_ok_dec item : Decision (item_ok item).
Proof. destruct item; apply _. Defined.

(** Reference form of the serialization of the item at an index. *)
Definition item_bytes (idx : nat) (item : Item) : bytes :=
  match item with
  | EmptyItem => []
  | Leaf prefix value =>
    [nat_to_byte idx; encode_leaf_second_byte (length prefix)] ++ prefix ++ value
  | NodePtr prefix ptr =>
    [nat_to_byte idx; encode_node_ptr_second_byte (length prefix)] ++ prefix ++ ptr
  end.
Fixpoint node_bytes (idx : nat) (items : Node) : bytes :=
  match items with
  | [] => []
  | item :: items => item_bytes idx item ++ node_bytes (S idx) items
  end.

Lemma node_bytes_app idx l k :
  node_bytes idx (l ++ k) = node_bytes idx l ++ node_bytes (idx + length l) k.
Proof.
  revert idx. induction l as [|x l IH]; intros idx; simpl; [by rewrite Nat.add_0_r|].
  by rewrite IH, <-app_assoc, Nat.add_succ_r.
Qed.

Section correct.
Context {E : Type}.

Lemma second_byte_spec n : n <= 127 ->
  is_leaf (encode_leaf_second_byte n) = true /\
  prefix_size (encode_leaf_second_byte n) = n /\
  is_leaf (encode_node_ptr_second_byte n) = false /\
  prefix_size (encode_node_ptr_second_byte n) = n.
Proof.
  intros Hn. cut (Forall (fun n =>
    (is_leaf (encode_leaf_second_byte n) = true /\
    prefix_size (encode_leaf_second_byte n) = n) /\
    is_leaf (encode_node_ptr_second_byte n) = false /\
    prefix_size (encode_node_ptr_second_byte n) = n) (seq 0 128)).
  { intros Hall. rewrite Forall_forall in Hall. specialize (Hall n).
    rewrite elem_of_seq in Hall. naive_solver lia. }
  apply (bool_decide_unpack _). vm_compute. exact I.
Qed.

Lemma prefix_size_le b : prefix_size b <= 127.
Proof.
  unfold prefix_size. change 127 with (Nat.ones 7) at 1. rewrite Nat.land_ones.
  pose proof (Nat.mod_upper_bound (byte_to_nat b) 128). change (2 ^ 7) with 128. lia.
Qed.

Lemma calc_size_spec size node :
  Forall item_ok node ->
  res_foldM (item_size (E:=E)) size node = Ok (size + length (node_bytes 0 node)).
Proof.
  assert (forall items i j, length (node_bytes i items) = length (node_bytes j items)) as Hidx.
  { intros items. induction items as [|[] items IH]; intros i j; simpl; [done|..];
      rewrite ?length_app; simpl; rewrite ?length_app; by rewrite (IH (S i) (S j)). }
  intros Hok. revert size. induction Hok as [|item node Hi Hok IH]; intros size; simpl.
  - f_equal. lia.
  - destruct item as [|p v|p v]; simpl in *.
    + rewrite IH. by rewrite (Hidx node 1 0).
    + destruct Hi as [Hp Hv]. rewrite !bool_decide_eq_true_2 by done. simpl.
      rewrite IH, !length_app, (Hidx node 1 0), Hv. f_equal. unfold HEAD_SIZE. lia.
    + destruct Hi as [Hp Hv]. rewrite !bool_decide_eq_true_2 by done. simpl.
      rewrite IH, !length_app, (Hidx node 1 0), Hv. f_equal. unfold HEAD_SIZE. lia.
Qed.

(** Writing at the end of what is already there extends it. *)
Lemma fill_spec (done_ todo : bytes) n (data : bytes) :
  n = length data -> n <= length todo ->
  fill (E:=E) (done_ ++ todo) (length done_) n data = Ok ((done_ ++ data) ++ drop n todo).
Proof.
  intros -> Hn. unfold fill. rewrite decide_True by (rewrite length_app; lia).
  rewrite take_app_length, firstn_all, <-app_assoc. do 3 f_equal.
  by rewrite drop_app_add.
Qed.

Lemma put_item_spec idx (done_ todo : bytes) second p v :
  length v = DEF_SIZE -> HEAD_SIZE + length p + DEF_SIZE <= length todo ->
  let out := done_ ++ [nat_to_byte idx; second] ++ p ++ v in
  put_item (E:=E) idx (length done_) (done_ ++ todo) second p v =
    Ok (length out, out ++ drop (HEAD_SIZE + length p + DEF_SIZE) todo).
Proof.
  intros Hv Hle out. unfold put_item, HEAD_SIZE in *.
  rewrite fill_spec by (simpl; lia). simpl.
  replace (length done_ + 1) with (length (done_ ++ [nat_to_byte idx]))
    by (rewrite length_app; done).
  rewrite fill_spec by (rewrite ?length_drop; simpl; lia). simpl.
  replace (length (done_ ++ [nat_to_byte idx]) + 1)
    with (length ((done_ ++ [nat_to_byte idx]) ++ [second]))
    by (rewrite !length_app; simpl; lia).
  rewrite fill_spec by (rewrite ?length_drop; lia). simpl.
  rewrite <-(length_app _ p).
  rewrite fill_spec by (rewrite ?length_drop; lia). simpl.
  rewrite !drop_drop, <-Hv, <-(length_app _ v).
  assert ((((done_ ++ [nat_to_byte idx]) ++ [second]) ++ p) ++ v = out) as ->
    by (by rewrite <- !app_assoc).
  by do 4 f_equal.
Qed.

Lemma put_item_into_array_spec idx (done_ todo : bytes) items size :
  Forall item_ok items -> size = length done_ + length todo ->
  length todo = length (node_bytes idx items) ->
  put_item_into_array (E:=E) idx (length done_) (done_ ++ todo) items size =
    Ok (done_ ++ node_bytes idx items).
Proof.
  intros Hok. revert idx done_ todo size.
  induction Hok as [|item items Hi Hok IH]; intros idx done_ todo size -> Htodo; simpl.
  - apply nil_length_inv in Htodo as ->. simpl.
    by rewrite decide_True by lia.
  - destruct (decide (length done_ = length done_ + length todo)) as [Hz|Hz].
    { assert (length todo = 0) as Hz' by lia. rewrite Hz' in Htodo.
      apply nil_length_inv in Hz' as ->. symmetry in Htodo.
      apply nil_length_inv in Htodo. simpl in Htodo. by rewrite Htodo. }
    destruct item as [|p v|p v]; simpl in *.
    + rewrite Nat.add_1_r. apply IH; [done|by rewrite Htodo].
    + destruct Hi as [Hp Hv].
      rewrite ?length_app in Htodo. simpl in Htodo. rewrite ?length_app in Htodo.
      rewrite put_item_spec by (unfold HEAD_SIZE; lia). simpl.
      rewrite Nat.add_1_r, IH; [by rewrite <- !app_assoc; simpl; rewrite <-app_assoc|..].
      * rewrite !length_app, length_drop. simpl. rewrite !length_app. unfold HEAD_SIZE. lia.
      * rewrite length_drop. unfold HEAD_SIZE. lia.
    + destruct Hi as [Hp Hv].
      rewrite ?length_app in Htodo. simpl in Htodo. rewrite ?length_app in Htodo.
      rewrite put_item_spec by (unfold HEAD_SIZE; lia). simpl.
      rewrite Nat.add_1_r, IH; [by rewrite <- !app_assoc; simpl; rewrite <-app_assoc|..].
      * rewrite !length_app, length_drop. simpl. rewrite !length_app. unfold HEAD_SIZE. lia.
      * rewrite length_drop. unfold HEAD_SIZE. lia.
Qed.

(** [encode] writes the items one after the other and fills its buffer exactly. *)
Lemma encode_spec node : Forall item_ok node -> encode (E:=E) node = Ok (node_bytes 0 node).
Proof.
  intros Hok. unfold encode, calc_size. rewrite calc_size_spec by done. simpl.
  apply (put_item_into_array_spec 0 []); [done|by rewrite length_replicate|].
  by rewrite length_replicate.
Qed.

Lemma slice_app (l m r : bytes) n :
  n = length m -> slice (E:=E) (l ++ m ++ r) (length l) n = Ok m.
Proof.
  intros ->. unfold slice. rewrite decide_True by (rewrite !length_app; lia).
  by rewrite drop_app_length, take_app_length.
Qed.

(** Reading back what [put_item] wrote. *)
Lemma decode_item_spec (before after : bytes) node idx second p v :
  idx < NUM_ITEMS -> node !! idx = Some EmptyItem ->
  prefix_size second = length p -> length v = DEF_SIZE ->
  decode_item (E:=E) (before ++ ([nat_to_byte idx; second] ++ p ++ v) ++ after) node
    (length before) =
  Ok (<[idx := if is_leaf second then Leaf p v else NodePtr p v]> node,
      length (before ++ [nat_to_byte idx; second] ++ p ++ v)).
Proof.
  intros Hidx Hn Hp Hv. unfold decode_item.
  rewrite lookup_app_r, Nat.sub_diag by lia. simpl.
  rewrite byte_to_int_nat, byte_to_nat_to_byte by done. rewrite Hn. simpl.
  rewrite lookup_app_r by lia. replace (length before + 1 - length before) with 1 by lia.
  simpl. rewrite Hp.
  replace (length before + 1 + 1)
    with (length (before ++ [nat_to_byte idx; second])) by (rewrite length_app; simpl; lia).
  replace (before ++ nat_to_byte idx :: second :: (p ++ v) ++ after)
    with ((before ++ [nat_to_byte idx; second]) ++ p ++ v ++ after)
    by (rewrite <- !app_assoc; done).
  rewrite slice_app by done. simpl.
  rewrite <-length_app.
  replace ((before ++ [nat_to_byte idx; second]) ++ p ++ v ++ after)
    with (((before ++ [nat_to_byte idx; second]) ++ p) ++ v ++ after)
    by (rewrite <- !app_assoc; done).
  rewrite slice_app by done. simpl. rewrite <-Hv, <-length_app, <- !app_assoc. done.
Qed.

Lemma node_bytes_snoc before item :
  node_bytes 0 (before ++ [item]) = node_bytes 0 before ++ item_bytes (length before) item.
Proof. rewrite node_bytes_app. simpl. by rewrite app_nil_r. Qed.

(** One iteration at a non-empty item. *)
Lemma decode_loop_put fuel before item empties after second p v :
  length before < NUM_ITEMS ->
  item_bytes (length before) item = [nat_to_byte (length before); second] ++ p ++ v ->
  prefix_size second = length p -> length v = DEF_SIZE ->
  item = (if is_leaf second then Leaf p v else NodePtr p v) ->
  let bv := node_bytes 0 before ++ item_bytes (length before) item ++ after in
  decode_loop (E:=E) (S fuel) bv (before ++ EmptyItem :: empties)
    (length (node_bytes 0 before)) =
  decode_loop fuel bv ((before ++ [item]) ++ empties) (length (node_bytes 0 (before ++ [item]))).
Proof.
  intros Hlt Hb Hp Hv Hitem bv. cbn [decode_loop]. unfold bv.
  rewrite node_bytes_snoc, Hb.
  rewrite decide_True by (rewrite !length_app; simpl; lia).
  rewrite decode_item_spec; [|done| |done..].
  - cbn [res_bind]. rewrite <-Hitem, insert_app_r_alt, Nat.sub_diag by lia. simpl.
    by rewrite <-(app_assoc before).
  - rewrite lookup_app_r, Nat.sub_diag by lia. done.
Qed.

Lemma decode_loop_spec fuel before items :
  length before + length items = NUM_ITEMS -> Forall item_ok items ->
  length (node_bytes (length before) items) <= fuel ->
  decode_loop (E:=E) fuel (node_bytes 0 before ++ node_bytes (length before) items)
    (before ++ replicate (length items) EmptyItem) (length (node_bytes 0 before)) =
  Ok (before ++ items).
Proof.
  revert fuel before. induction items as [|item items IH]; intros fuel before Hlen Hok Hf.
  { simpl. destruct fuel; simpl; rewrite decide_False; try done;
      rewrite length_app; simpl; lia. }
  apply Forall_cons in Hok as [Hi Hok]. simpl in Hlen.
  specialize (fun fuel => IH fuel (before ++ [item])).
  rewrite length_app, Nat.add_1_r, node_bytes_snoc, <- !app_assoc in IH. simpl in IH.
  assert (forall second p v,
    item_bytes (length before) item = [nat_to_byte (length before); second] ++ p ++ v ->
    prefix_size second = length p -> length v = DEF_SIZE ->
    item = (if is_leaf second then Leaf p v else NodePtr p v) ->
    decode_loop (E:=E) fuel (node_bytes 0 before ++ node_bytes (length before) (item :: items))
      (before ++ replicate (length (item :: items)) EmptyItem)
      (length (node_bytes 0 before)) = Ok (before ++ item :: items)) as Hput.
  { intros second p v Hb Hp Hv Hitem. simpl in Hf. rewrite Hb in Hf. simpl in Hf.
    rewrite length_app in Hf. destruct fuel as [|fuel]; [lia|]. cbn [node_bytes length replicate].
    rewrite (decode_loop_put fuel before item _ _ second p v) by (done || lia).
    rewrite node_bytes_snoc, <-(app_assoc before). apply IH; [lia|done|lia]. }
  destruct item as [|p v|p v].
  - simpl in *. rewrite !app_nil_r in IH. apply IH; [lia|done|done].
  - destruct Hi as [Hp Hv], (second_byte_spec (length p) Hp) as (H1 & H2 & _).
    apply (Hput (encode_leaf_second_byte (length p)) p v); [done..|]. by rewrite H1.
  - destruct Hi as [Hp Hv], (second_byte_spec (length p) Hp) as (_ & _ & H1 & H2).
    apply (Hput (encode_node_ptr_second_byte (length p)) p v); [done..|]. by rewrite H1.
Qed.

Lemma decode_encode node : node_ok node ->
  exists bv, encode (E:=E) node = Ok bv /\ decode (E:=E) bv = Ok node.
Proof.
  intros [Hlen Hok]. exists (node_bytes 0 node). split; [by apply encode_spec|].
  pose proof (decode_loop_spec (length (node_bytes 0 node)) [] node) as Hd.
  simpl in Hd. rewrite Hlen in Hd. by apply Hd.
Qed.

Lemma decode_item_moves bv node pos0 node' pos1 :
  decode_item (E:=E) bv node pos0 = Ok (node', pos1) ->
  pos0 < pos1 /\ length node' = length node /\ (Forall item_ok node -> Forall item_ok node').
Proof.
  unfold decode_item, slice. intros Hd. res_inv. repeat case_decide; try done.
  res_inv. simplify_eq. split; [unfold DEF_SIZE; lia|]. split; [apply length_insert|].
  intros Hitems. apply Forall_insert; [done|]. pose proof (prefix_size_le a2).
  destruct (is_leaf a2); simpl; rewrite !length_take, !length_drop;
    unfold DEF_SIZE in *; lia.
Qed.

(** The fuel of the loop does not run out. *)
Lemma decode_loop_fuel fuel fuel' bv node pos0 :
  length bv - pos0 <= fuel -> fuel <= fuel' ->
  decode_loop (E:=E) fuel bv node pos0 = decode_loop fuel' bv node pos0.
Proof.
  revert fuel' node pos0. induction fuel as [|fuel IH]; intros [|fuel'] node pos0 Hf Hle;
    simpl; case_decide; try lia; try done.
  destruct (decode_item bv node pos0) as [[node' pos1]|e|] eqn:Hd; simpl; try done.
  apply decode_item_moves in Hd as [Hlt _]. apply IH; lia.
Qed.

Lemma decode_loop_ok fuel bv node pos0 node' :
  node_ok node -> decode_loop (E:=E) fuel bv node pos0 = Ok node' -> node_ok node'.
Proof.
  revert node pos0. induction fuel as [|fuel IH]; intros node pos0 Hn; simpl;
    case_decide; try done; try (intros [= <-]; done).
  intros Hd. res_inv. destruct a as [node1 pos1].
  apply decode_item_moves in Hok as (_ & Hl & Hi). destruct Hn as [Hn1 Hn2].
  apply IH in Hd; [done|]. split; [by rewrite Hl|auto].
Qed.

Lemma empty_node_ok : node_ok empty_node.
Proof. split; [done|]. by apply Forall_replicate. Qed.

Lemma decode_ok bv node : decode (E:=E) bv = Ok node -> node_ok node.
Proof. apply decode_loop_ok, empty_node_ok. Qed.
End correct.

#[global] Hint Resolve empty_node_ok : rspace.

(** Every node of 256 items whose prefixes have at most 127 bytes and whose values and
    pointers have 32 bytes is serialized without a panic, and [decode] reads back exactly
    that node; so two such nodes with the same bytes are the same node. *)
Theorem node_codec_roundtrip (node : Node) :
  node_ok node ->
  exists bv, encode (E:=unit) node = Ok bv /\ decode (E:=unit) bv = Ok node /\
    forall node', node_ok node' -> encode (E:=unit) node' = Ok bv -> node' = node.
Proof.
  intros Hn. destruct (decode_encode (E:=unit) node Hn) as (bv & He & Hd).
  exists bv. split; [done|]. split; [done|]. intros node' Hn' He'.
  destruct (decode_encode (E:=unit) node' Hn') as (bv' & He'' & Hd'). congruence.
Qed.

Lemma node_codec_roundtrip_witness :
  exists bv, encode (E:=unit)
    (<[2 := NodePtr [] (replicate 32 xff)]>
       (<[1 := Leaf [xff; xff] (replicate 31 x00 ++ [x01])]> empty_node)) = Ok bv /\
    take 4 bv = [x01; x02; xff; xff] /\ take 2 (drop 36 bv) = [x02; x80].
Proof.
  destruct (node_codec_roundtrip
    (<[2 := NodePtr [] (replicate 32 xff)]>
       (<[1 := Leaf [xff; xff] (replicate 31 x00 ++ [x01])]> empty_node)))
    as (bv & He & _ & _).
  - split; [done|]. apply (bool_decide_unpack _). vm_compute. exact I.
  - exists bv. split; [done|]. vm_compute in He. injection He as <-. done.
Defined.

(** The loop of [decode] never runs for more than one iteration per byte, whatever the
    input, and what it returns is a node of 256 items that [encode] accepts; so bytes
    from the network either panic or decode to a node with a serialization. *)
Theorem decode_total_and_ok (bv : bytes) :
  (forall fuel, length bv <= fuel ->
     decode_loop (E:=unit) fuel bv empty_node 0 = decode bv) /\
  (forall node, decode (E:=unit) bv = Ok node ->
     node_ok node /\ is_Ok (encode (E:=unit) node)).
Proof.
  split.
  - intros fuel Hf. symmetry. apply decode_loop_fuel; lia.
  - intros node Hd%decode_ok. split; [done|]. destruct (decode_encode (E:=unit) _ Hd) as (b & Hb & _).
    by exists b.
Qed.
