(* ===== verification/RadixTree.v ===== *)
(** * The radix tree of the history

    [RadixTreeImpl] of [rspace++/src/rspace/history/radix_tree.rs] and [RadixHistory] of
    [history/instances/radix_history.rs].  The tree lives in a key-value store: a node is
    stored under the hash of its serialization.  [cache_r] holds nodes that were read or
    saved, [cache_w] the serialized nodes that [commit] writes.  Methods on [&self] change
    the caches and pass a [RadixTreeImpl] along.

    A closure of the source that calls the enclosing method back is a definition with that
    method as a parameter.  The recursions consume at least one byte of the key at each
    step, so the length of the key is fuel enough (the theorems show that it never runs
    out).  [par_iter().map(..).collect()] runs all groups and keeps the order of the
    results; the groups are run one after the other here, they share the caches only. *)
From S2P Require Import Prelude HotStoreSig KeyValueStore RadixCodec.
Open Scope res_scope.

(** [enum HistoryAction] with [InsertAction { key, hash }] and [DeleteAction { key }] *)
Inductive HistoryAction :=
| HistoryInsert (key : bytes) (hash : bytes)
| HistoryDelete (key : bytes).

Definition action_key (action : HistoryAction) : bytes :=
  match action with HistoryInsert key _ | HistoryDelete key => key end.

Definition READ_CACHE_MAX_ITEMS : nat := N.to_nat 4096.
Definition READ_CACHE_TRIM_TARGET : nat := N.to_nat 2048.

(** The order in which a [DashMap] iterates. *)
Class DashOrder := dash_iter : forall {V : Type}, gmap bytes V -> list (bytes * V).
Class DashOrderLaws `{DashOrder} : Prop :=
  dash_iter_perm : forall {V} (m : gmap bytes V), dash_iter m ≡ₚ map_to_list m.

Section radix_tree.
Context {KV : Type} `{!KeyValueStore KV, !DashOrder}.
(** [Blake2b256Hash::new] *)
Context (blake2b256 : bytes -> bytes).

Record RadixTreeImpl := mkTree {
  store : KV;
  cache_r : gmap bytes Node;
  cache_w : gmap bytes bytes;
}.
Definition radix_tree_new (s : KV) : RadixTreeImpl := mkTree s ∅ ∅.

Definition set_cache_r (c : gmap bytes Node) (t : RadixTreeImpl) : RadixTreeImpl :=
  mkTree (store t) c (cache_w t).
Definition set_cache_w (c : gmap bytes bytes) (t : RadixTreeImpl) : RadixTreeImpl :=
  mkTree (store t) (cache_r t) c.

(** A method of [RadixTreeImpl] that returns a [Result] or may panic. *)
Abbreviation M A := (ST RadixTreeImpl (res RadixTreeError A)).

(** [pub fn hash_node] *)
Definition hash_node (node : Node) : res RadixTreeError (bytes * bytes) :=
  node_bytes <-! encode node;
  Ok (blake2b256 node_bytes, node_bytes).

(** ** Loading and saving nodes *)

Definition load_node_from_store (node_ptr : bytes) (t : RadixTreeImpl) :
  res RadixTreeError (option Node) :=
  get_result <-! map_err RadixKvStoreError (kv_get_one node_ptr (store t));
  match get_result with
  | Some bytes => node <-! decode bytes; Ok (Some node)
  | None => Ok None
  end.

Definition enforce_read_cache_bounds (t : RadixTreeImpl) : RadixTreeImpl :=
  if decide (size (cache_r t) <= READ_CACHE_MAX_ITEMS) then t
  else
    let number_to_remove := size (cache_r t) - READ_CACHE_TRIM_TARGET in
    let keys := fst <$> take number_to_remove (dash_iter (cache_r t)) in
    set_cache_r (foldl (fun c key => delete key c) (cache_r t) keys) t.

(** [fn load_node_arc]; [load_node] clones the result. *)
Definition load_node_arc (node_ptr : bytes) (no_assert : bool) : M Node := fun t =>
  match cache_r t !! node_ptr with
  | Some node => (Ok node, t)
  | None =>
    (store_node_opt <- gets (load_node_from_store node_ptr) ;?
     match store_node_opt with
     | Some node => fun t =>
       (Ok node, enforce_read_cache_bounds
                   (set_cache_r (<[node_ptr := node]> (cache_r t)) t))
     | None => lift (assert no_assert ;;! Ok empty_node)
     end) t
  end.

Definition clear_read_cache (t : RadixTreeImpl) : RadixTreeImpl := set_cache_r ∅ t.
Definition clear_write_cache (t : RadixTreeImpl) : RadixTreeImpl := set_cache_w ∅ t.

(** [pub fn save_node] *)
Definition save_node (node : Node) : M bytes :=
  hashed <- lift (hash_node node) ;?
  let '(node_bytes_hash, node_bytes) := hashed in
  cached <- gets (fun t => Ok (cache_r t !! node_bytes_hash)) ;?
  _ <- match cached with
       | Some v => lift (assert (bool_decide (v = node)))
       | None => fun t =>
         (Ok tt, enforce_read_cache_bounds
                   (set_cache_r (<[node_bytes_hash := node]> (cache_r t)) t))
       end ;?
  fun t => (Ok node_bytes_hash, set_cache_w (<[node_bytes_hash := node_bytes]> (cache_w t)) t).

(** [pub fn commit] *)
Definition commit : M unit :=
  kv_pairs <- gets (fun t => Ok (dash_iter (cache_w t))) ;?
  if_absent <- gets (fun t =>
    map_err RadixKvStoreError (kv_contains (fst <$> kv_pairs) (store t))) ;?
  let kv_if_absent := zip kv_pairs if_absent in
  let kv_exist := fst <$> filter (fun p => p.2 = true) kv_if_absent in
  value_exist_in_store <- gets (fun t =>
    map_err RadixKvStoreError (kv_get (fst <$> kv_exist) (store t))) ;?
  let kvv_exist := zip kv_exist (default [] <$> value_exist_in_store) in
  let kv_collision := fst <$> filter (fun kvv => kvv.1.2 <> kvv.2) kvv_exist in
  match kv_collision with
  | _ :: _ => lift (Err (CollisionError "collisions in KVDB"))
  | [] =>
    let kv_absent := fst <$> filter (fun p => p.2 = false) kv_if_absent in
    fun t => let '(r, s) := kv_put kv_absent (store t) in
             (map_err RadixKvStoreError r, mkTree s (cache_r t) (cache_w t))
  end.

(** ** Reading *)

(** [fn read_at_from_ptr]; [read_at_cached] is the method that calls it. *)
Definition read_at_from_ptr (read_at_cached : Node -> bytes -> M (option bytes))
    (node_ptr prefix : bytes) : M (option bytes) :=
  match prefix with
  | [] => lift (Ok None)
  | _ => node <- load_node_arc node_ptr false ;? read_at_cached node prefix
  end.

(** [fn read_at_cached] *)
Fixpoint read_at_cached (fuel : nat) (cur_node : Node) (prefix : bytes) : M (option bytes) :=
  match fuel with
  | 0 => lift Panic
  | S fuel =>
    match prefix with
    | [] => lift (Ok None)
    | head :: prefix_tail =>
      item <- lift (unwrap (cur_node !! byte_to_int head)) ;?
      match item with
      | EmptyItem => lift (Ok None)
      | Leaf leaf_prefix value =>
        lift (Ok (if decide (leaf_prefix = prefix_tail) then Some value else None))
      | NodePtr ptr_prefix ptr =>
        if decide (ptr_prefix `prefix_of` prefix_tail)
        then read_at_from_ptr (read_at_cached fuel) ptr
               (drop (length ptr_prefix) prefix_tail)
        else lift (Ok None)
      end
    end
  end.

(** [pub fn read] *)
Definition read (start_node : Node) (start_prefix : bytes) : M (option bytes) :=
  read_at_cached (S (length start_prefix)) start_node start_prefix.

(** ** Items and nodes *)

(** [Vec::split_first().unwrap()] *)
Definition split_first (l : bytes) : res RadixTreeError (byte * bytes) :=
  match l with [] => Panic | head :: tail => Ok (head, tail) end.

(** [fn create_node_from_item] *)
Definition create_node_from_item (item : Item) : res RadixTreeError Node :=
  match item with
  | EmptyItem => Ok empty_node
  | Leaf leaf_prefix leaf_value =>
    ' (head, leaf_prefix_tail) <-! split_first leaf_prefix;
    Ok (<[byte_to_int head := Leaf leaf_prefix_tail leaf_value]> empty_node)
  | NodePtr node_ptr_prefix ptr =>
    ' (head, node_ptr_prefix_tail) <-! split_first node_ptr_prefix;
    Ok (<[byte_to_int head := NodePtr node_ptr_prefix_tail ptr]> empty_node)
  end.

(** [fn construct_node_from_item] *)
Definition construct_node_from_item (item : Item) : M Node :=
  match item with
  | NodePtr [] ptr => load_node_arc ptr false
  | _ => lift (create_node_from_item item)
  end.

(** [fn save_node_and_create_item] *)
Definition save_node_and_create_item (node : Node) (prefix : bytes) (compaction : bool) :
  M Item :=
  if compaction then
    let non_empty_items := take 2 (filter (fun item => item <> EmptyItem) node) in
    match non_empty_items with
    | [] => lift (Ok EmptyItem)
    | [only] =>
      idx_item <- lift (unwrap (position (fun item => bool_decide (item = only)) node)) ;?
      lift (Ok
        match only with
        | EmptyItem => EmptyItem
        | Leaf leaf_prefix value => Leaf (prefix ++ [nat_to_byte idx_item] ++ leaf_prefix) value
        | NodePtr node_ptr_prefix ptr =>
          NodePtr (prefix ++ [nat_to_byte idx_item] ++ node_ptr_prefix) ptr
        end)
    | _ => ptr <- save_node node ;? lift (Ok (NodePtr prefix ptr))
    end
  else ptr <- save_node node ;? lift (Ok (NodePtr prefix ptr)).

(** ** [fn update] *)

(** The node with the two items that a split at a common prefix creates. *)
Definition two_items (first second : bytes) (mk_first : bytes -> Item) (value : bytes) :
  res RadixTreeError Node :=
  ' (first_head, first_tail) <-! split_first first;
  let new_node := <[byte_to_int first_head := mk_first first_tail]> empty_node in
  ' (second_head, second_tail) <-! split_first second;
  Ok (<[byte_to_int second_head := Leaf second_tail value]> new_node).

(** [insert_new_node_to_child] *)
Definition insert_new_node_to_child
    (update : Item -> bytes -> bytes -> M (option Item))
    (ins_value child_ptr child_prefix ins_prefix : bytes) : M (option Item) :=
  child_node <- load_node_arc child_ptr false ;?
  split <- lift (split_first ins_prefix) ;?
  let '(ins_prefix_head, child_ins_prefix) := split in
  let child_item_idx := byte_to_int ins_prefix_head in
  child_item <- lift (unwrap (child_node !! child_item_idx)) ;?
  child_item_opt <- update child_item child_ins_prefix ins_value ;?
  match child_item_opt with
  | Some child_item =>
    let updated_child_node := <[child_item_idx := child_item]> child_node in
    returned_item <- save_node_and_create_item updated_child_node child_prefix false ;?
    lift (Ok (Some returned_item))
  | None => lift (Ok None)
  end.

Fixpoint update (fuel : nat) (curr_item : Item) (ins_prefix ins_value : bytes) :
  M (option Item) :=
  match fuel with
  | 0 => lift Panic
  | S fuel =>
    match curr_item with
    | EmptyItem => lift (Ok (Some (Leaf ins_prefix ins_value)))
    | Leaf leaf_prefix leaf_value =>
      _ <- lift (assert (bool_decide (length leaf_prefix = length ins_prefix))) ;?
      if decide (leaf_prefix = ins_prefix) then
        if decide (ins_value = leaf_value) then lift (Ok None)
        else lift (Ok (Some (Leaf ins_prefix ins_value)))
      else
        let '(comm_prefix, ins_prefix_rest, leaf_prefix_rest) :=
          common_prefix ins_prefix leaf_prefix in
        new_node <- lift (two_items leaf_prefix_rest ins_prefix_rest
                            (fun tail => Leaf tail leaf_value) ins_value) ;?
        item <- save_node_and_create_item new_node comm_prefix false ;?
        lift (Ok (Some item))
    | NodePtr ptr_prefix ptr =>
      _ <- lift (assert (bool_decide (length ptr_prefix < length ins_prefix))) ;?
      let '(comm_prefix, ins_prefix_rest, ptr_prefix_rest) :=
        common_prefix ins_prefix ptr_prefix in
      match ptr_prefix_rest with
      | [] => insert_new_node_to_child (update fuel) ins_value ptr comm_prefix ins_prefix_rest
      | _ =>
        new_node <- lift (two_items ptr_prefix_rest ins_prefix_rest
                            (fun tail => NodePtr tail ptr) ins_value) ;?
        item <- save_node_and_create_item new_node comm_prefix false ;?
        lift (Ok (Some item))
      end
    end
  end.

(** ** [fn delete] *)

(** [delete_from_child_node] *)
Definition delete_from_child_node (delete_item : Item -> bytes -> M (option Item))
    (child_ptr child_prefix del_prefix : bytes) : M (option Item) :=
  child_node <- load_node_arc child_ptr false ;?
  split <- lift (split_first del_prefix) ;?
  let '(del_prefix_head, del_item_prefix) := split in
  let del_item_idx := byte_to_int del_prefix_head in
  child_item <- lift (unwrap (child_node !! del_item_idx)) ;?
  child_item_opt <- delete_item child_item del_item_prefix ;?
  match child_item_opt with
  | Some child_item =>
    let child_node_updated := <[del_item_idx := child_item]> child_node in
    returned_item <- save_node_and_create_item child_node_updated child_prefix true ;?
    lift (Ok (Some returned_item))
  | None => lift (Ok None)
  end.

Fixpoint delete_item (fuel : nat) (curr_item : Item) (del_prefix : bytes) : M (option Item) :=
  match fuel with
  | 0 => lift Panic
  | S fuel =>
    match curr_item with
    | EmptyItem => lift (Ok None)
    | Leaf leaf_prefix _ =>
      lift (Ok (if decide (leaf_prefix = del_prefix) then Some EmptyItem else None))
    | NodePtr ptr_prefix ptr =>
      let '(comm_prefix, del_prefix_rest, ptr_prefix_rest) :=
        common_prefix del_prefix ptr_prefix in
      match ptr_prefix_rest, del_prefix_rest with
      | [], _ :: _ => delete_from_child_node (delete_item fuel) ptr comm_prefix del_prefix_rest
      | _, _ => lift (Ok None)
      end
    end
  end.

(** ** [pub fn make_actions] *)

Definition process_one_action (action : HistoryAction) (item : Item) (item_idx : nat) :
  M (nat * option Item) :=
  new_item <- match action with
              | HistoryInsert key hash =>
                split <- lift (split_first key) ;?
                update (S (length key)) item split.2 hash
              | HistoryDelete key =>
                split <- lift (split_first key) ;?
                delete_item (S (length key)) item split.2
              end ;?
  lift (Ok (item_idx, new_item)).

Definition is_insert (action : HistoryAction) : bool :=
  match action with HistoryInsert _ _ => true | HistoryDelete _ => false end.

Definition clearing_delete_actions (actions : list HistoryAction) (item : Item) :
  list HistoryAction :=
  let not_exist_insert_action := negb (existsb is_insert actions) in
  if bool_decide (item = EmptyItem) && not_exist_insert_action then [] else actions.

Definition trim_key (action : HistoryAction) : res RadixTreeError HistoryAction :=
  match action with
  | HistoryInsert key hash =>
    ' (_, key_tail) <-! split_first key; Ok (HistoryInsert key_tail hash)
  | HistoryDelete key => ' (_, key_tail) <-! split_first key; Ok (HistoryDelete key_tail)
  end.
Definition trim_keys (actions : list HistoryAction) : res RadixTreeError (list HistoryAction) :=
  res_mapM trim_key actions.

(** [grouping]: a [BTreeMap] from the first byte of the key to the actions in order. *)
Definition group_action (groups : gmap byte (list HistoryAction)) (action : HistoryAction) :
  res RadixTreeError (gmap byte (list HistoryAction)) :=
  match action_key action with
  | first_byte :: _ =>
    Ok (<[first_byte := default [] (groups !! first_byte) ++ [action]]> groups)
  | [] => Err (PrefixError "The length of all prefixes in the subtree must be the same.")
  end.
Definition grouping (actions : list HistoryAction) :
  res RadixTreeError (list (byte * list HistoryAction)) :=
  groups <-! res_foldM group_action ∅ actions;
  Ok (sort_by (fun x y => byte_cmp x.1 y.1) (map_to_list groups)).

(** The closures that call [make_actions] on a smaller subtree. *)
Section closures.
Variable make_actions : Node -> list HistoryAction -> M (option Node).

Definition process_non_empty_actions (curr_node : Node) (actions : list HistoryAction)
    (item_idx : nat) : M (nat * option Item) :=
  item <- lift (unwrap (curr_node !! item_idx)) ;?
  created_node <- construct_node_from_item item ;?
  new_actions <- lift (trim_keys actions) ;?
  new_node_opt <- make_actions created_node new_actions ;?
  match new_node_opt with
  | Some new_node =>
    new_item <- save_node_and_create_item new_node [] true ;?
    lift (Ok (item_idx, Some new_item))
  | None => lift (Ok (item_idx, None))
  end.

Definition process_several_actions (curr_node : Node) (actions : list HistoryAction)
    (item : Item) (item_idx : nat) : M (nat * option Item) :=
  match clearing_delete_actions actions item with
  | [] => lift (Ok (item_idx, None))
  | cleared_actions => process_non_empty_actions curr_node cleared_actions item_idx
  end.

Definition process_group (curr_node : Node) (grouped_action : byte * list HistoryAction) :
  M (nat * option Item) :=
  let '(group_idx, actions_in_group) := grouped_action in
  let item_idx := byte_to_int group_idx in
  item <- lift (unwrap (curr_node !! item_idx)) ;?
  match actions_in_group with
  | [action] => process_one_action action item item_idx
  | _ => process_several_actions curr_node actions_in_group item item_idx
  end.

(** [process_grouped_actions]: all groups are processed, then the first error wins. *)
Definition process_grouped_actions (grouped_actions : list (byte * list HistoryAction))
    (curr_node : Node) : ST RadixTreeImpl (list (res RadixTreeError (nat * option Item))) :=
  st_mapM (process_group curr_node) grouped_actions.
End closures.

(** Writes the changed items into the node. *)
Definition set_items (node : Node) (new_group_items : list (nat * option Item)) : Node :=
  foldl (fun node it =>
    match it.2 with Some new_item => <[it.1 := new_item]> node | None => node end)
    node new_group_items.

Fixpoint make_actions (fuel : nat) (curr_node : Node) (actions : list HistoryAction) :
  M (option Node) :=
  match fuel with
  | 0 => lift Panic
  | S fuel =>
    grouped_actions <- lift (grouping actions) ;?
    new_group_items <- (fun t =>
      let '(results, t) := process_grouped_actions (make_actions fuel) grouped_actions
                             curr_node t in
      (res_mapM id results, t)) ;?
    let new_cur_node := set_items curr_node new_group_items in
    lift (Ok (if decide (new_cur_node = curr_node) then None else Some new_cur_node))
  end.
(** One more than the longest key: a call on keys of length [n] recurses on their tails. *)
Definition actions_fuel (actions : list HistoryAction) : nat :=
  S (max_list (length ∘ action_key <$> actions)).
End radix_tree.
Arguments RadixTreeImpl KV : clear implicits.
