(* ===== verification/RadixSpec.v ===== *)
(** * Specification of the radix tree: pure tries

    What the radix tree of [radix_tree.rs] represents: a trie with compressed paths, as a
    plain inductive type without hashes, pointers and caches.  [tget] reads a trie, [tset]
    and [tdel] change one key, [compact] and [expand] are the two ways in which
    [make_actions] converts between an item and a node.  [wf_tree] is the canonical form:
    a trie in that form is determined by its contents ([wf_tree_unique]). *)
From S2P Require Import Prelude RadixCodec.

Inductive tree :=
| TEmpty
| TLeaf (prefix value : bytes)
| TNode (prefix : bytes) (children : list tree).

(** The children of a node, one for each byte. *)
Abbreviation forest := (list tree).
Definition no_trees : forest := replicate NUM_ITEMS TEmpty.

Definition is_empty_tree (t : tree) : bool := match t with TEmpty => true | _ => false end.

(** ** Reading *)

Fixpoint tget (t : tree) (k : bytes) : option bytes :=
  match t with
  | TEmpty => None
  | TLeaf p v => if decide (p = k) then Some v else None
  | TNode p cs =>
    if decide (p `prefix_of` k) then
      match drop (length p) k with
      | [] => None
      | b :: k =>
        match (tget <$> cs) !! byte_to_nat b with
        | Some get => get k
        | None => None
        end
      end
    else None
  end.
Definition fget (cs : forest) (k : bytes) : option bytes :=
  match k with
  | [] => None
  | b :: k => match cs !! byte_to_nat b with Some c => tget c k | None => None end
  end.

(** ** Changing *)

Definition prepend (q : bytes) (t : tree) : tree :=
  match t with
  | TEmpty => TEmpty
  | TLeaf p v => TLeaf (q ++ p) v
  | TNode p cs => TNode (q ++ p) cs
  end.

(** The non-empty children with their indices. *)
Definition non_empty (cs : forest) : list (nat * tree) :=
  filter (fun ic => is_empty_tree ic.2 = false) (enumerate cs).

Definition compact (p : bytes) (cs : forest) : tree :=
  match non_empty cs with
  | [] => TEmpty
  | [(i, c)] => prepend (p ++ [nat_to_byte i]) c
  | _ => TNode p cs
  end.

Definition expand (t : tree) : forest :=
  match t with
  | TLeaf (b :: p) v => <[byte_to_nat b := TLeaf p v]> no_trees
  | TNode [] cs => cs
  | TNode (b :: p) cs => <[byte_to_nat b := TNode p cs]> no_trees
  | _ => no_trees
  end.

Fixpoint tset (t : tree) (k v : bytes) : tree :=
  match t with
  | TEmpty => TLeaf k v
  | TLeaf p v' =>
    match common_prefix k p with
    | (c, b :: k, b' :: p) =>
      TNode c (<[byte_to_nat b := TLeaf k v]> (<[byte_to_nat b' := TLeaf p v']> no_trees))
    | _ => TLeaf k v
    end
  | TNode p cs =>
    match common_prefix k p with
    | (_, b :: k, []) =>
      match ((fun c => tset c k v) <$> cs) !! byte_to_nat b with
      | Some c => TNode p (<[byte_to_nat b := c]> cs)
      | None => t
      end
    | (c, b :: k, b' :: p) =>
      TNode c (<[byte_to_nat b := TLeaf k v]> (<[byte_to_nat b' := TNode p cs]> no_trees))
    | _ => t
    end
  end.

Fixpoint tdel (t : tree) (k : bytes) : tree :=
  match t with
  | TEmpty => TEmpty
  | TLeaf p v => if decide (p = k) then TEmpty else t
  | TNode p cs =>
    match common_prefix k p with
    | (_, b :: k, []) =>
      match ((fun c => tdel c k) <$> cs) !! byte_to_nat b with
      | Some c => compact p (<[byte_to_nat b := c]> cs)
      | None => t
      end
    | _ => t
    end
  end.

(** ** Canonical form

    [wf_tree n t]: all keys of [t] have length [n], values have 32 bytes, and every node
    has at least two non-empty children. *)

Definition two_children (cs : forest) : Prop :=
  exists i j c d, i <> j /\ cs !! i = Some c /\ cs !! j = Some d /\
    c <> TEmpty /\ d <> TEmpty.

Inductive wf_tree : nat -> tree -> Prop :=
| wf_empty n : wf_tree n TEmpty
| wf_leaf p v : length v = DEF_SIZE -> wf_tree (length p) (TLeaf p v)
| wf_node n p cs :
    length cs = NUM_ITEMS -> (forall i c, cs !! i = Some c -> wf_tree n c) ->
    two_children cs -> wf_tree (length p + S n) (TNode p cs).

(** The root node may have any number of children. *)
Record wf_forest (n : nat) (cs : forest) : Prop := {
  forest_length : length cs = NUM_ITEMS;
  forest_trees : forall i c, cs !! i = Some c -> wf_tree n c;
}.

#[global] Hint Constructors wf_tree : rspace.

Lemma wf_leaf_inv n p v : wf_tree n (TLeaf p v) -> n = length p /\ length v = DEF_SIZE.
Proof. by inversion 1. Qed.
Lemma wf_node_inv n p cs : wf_tree n (TNode p cs) ->
  exists m, n = length p + S m /\ wf_forest m cs /\ two_children cs.
Proof. inversion 1; subst. exists n0. by repeat split. Qed.

Lemma lookup_no_trees i c : no_trees !! i = Some c -> c = TEmpty.
Proof. unfold no_trees. by intros [-> _]%lookup_replicate. Qed.
Lemma wf_no_trees n : wf_forest n no_trees.
Proof. split; [done|]. intros i c ->%lookup_no_trees. constructor. Qed.
Lemma wf_forest_insert n cs i c :
  wf_forest n cs -> wf_tree n c -> wf_forest n (<[i := c]> cs).
Proof.
  intros [Hl Hcs] Hc. split; [by rewrite length_insert|]. intros j d.
  rewrite list_lookup_insert_Some. naive_solver.
Qed.
Lemma forest_lookup n cs b : wf_forest n cs -> exists c, cs !! byte_to_nat b = Some c.
Proof.
  intros [Hl _]. apply lookup_lt_is_Some_2. rewrite Hl. apply byte_to_nat_lt.
Qed.
#[global] Hint Resolve wf_no_trees wf_forest_insert : rspace.

(** ** Equations of the reading functions *)

Lemma tget_node p cs k : tget (TNode p cs) (p ++ k) = fget cs k.
Proof.
  simpl. rewrite decide_True by apply prefix_app_r, reflexivity.
  rewrite drop_app_length. destruct k as [|b k]; [done|]. simpl.
  rewrite list_lookup_fmap. by destruct (cs !! byte_to_nat b).
Qed.
Lemma tget_node_ne p cs k : ~ p `prefix_of` k -> tget (TNode p cs) k = None.
Proof. intros Hp. simpl. by rewrite decide_False. Qed.
Lemma tget_node_cases p cs k :
  (exists k', k = p ++ k' /\ tget (TNode p cs) k = fget cs k') \/
  (~ p `prefix_of` k /\ tget (TNode p cs) k = None).
Proof.
  destruct (decide (p `prefix_of` k)) as [[k' ->]|Hp].
  - left. exists k'. by rewrite tget_node.
  - right. by rewrite tget_node_ne.
Qed.
Lemma tget_leaf p v k : tget (TLeaf p v) k = if decide (p = k) then Some v else None.
Proof. done. Qed.

Lemma tget_prepend q t k : tget (prepend q t) (q ++ k) = tget t k.
Proof.
  destruct t as [|p v|p cs]; [done|..].
  - simpl. destruct (decide (p = k)) as [->|Hne]; [by rewrite decide_True|].
    rewrite decide_False; [done|]. by intros ?%app_inv_head.
  - cbn [prepend]. destruct (tget_node_cases p cs k) as [(k' & -> & ->)|[Hp ->]].
    + by rewrite app_assoc, tget_node.
    + apply tget_node_ne. by intros ?%prefix_app_inv.
Qed.
Lemma tget_prepend_ne q t k : ~ q `prefix_of` k -> tget (prepend q t) k = None.
Proof.
  intros Hq. destruct t as [|p v|p cs]; [done|..].
  - simpl. apply decide_False. intros <-. by apply Hq, prefix_app_r.
  - cbn [prepend]. apply tget_node_ne. intros Hp. apply Hq. by eapply prefix_app_l.
Qed.

Lemma fget_insert cs b c k : byte_to_nat b < length cs ->
  fget (<[byte_to_nat b := c]> cs) k =
  match k with
  | b' :: k' => if decide (b = b') then tget c k' else fget cs k
  | [] => None
  end.
Proof.
  intros Hlt. destruct k as [|b' k]; [done|]. simpl. destruct (decide (b = b')) as [<-|Hne].
  - by rewrite list_lookup_insert_eq.
  - rewrite list_lookup_insert_ne; [done|]. by intros ?%(inj _).
Qed.
Lemma fget_no_trees k : fget no_trees k = None.
Proof.
  destruct k as [|b k]; [done|]. simpl.
  destruct (no_trees !! byte_to_nat b) eqn:Hc; [|done]. by apply lookup_no_trees in Hc as ->.
Qed.

(** All keys of a trie in canonical form have the length of its level. *)
Lemma tget_length n t k v : wf_tree n t -> tget t k = Some v -> length k = n.
Proof.
  intros Hwf. revert k v. induction Hwf as [n|p v' Hv|n p cs Hl Hcs IH Htwo]; intros k v.
  - done.
  - rewrite tget_leaf. case_decide; naive_solver.
  - destruct (tget_node_cases p cs k) as [(k' & -> & ->)|[_ ->]]; [|done].
    destruct k' as [|b k']; simpl; [done|]. destruct (cs !! byte_to_nat b) as [c|] eqn:Hc; [|done].
    intros Hk. apply (IH _ _ Hc) in Hk. rewrite length_app. simpl. lia.
Qed.
Lemma fget_length n cs k v : wf_forest n cs -> fget cs k = Some v -> length k = S n.
Proof.
  intros Hwf. destruct k as [|b k]; [done|]. simpl.
  destruct (cs !! byte_to_nat b) as [c|] eqn:Hc; [|done].
  intros Hk. eapply tget_length in Hk; [by rewrite Hk|by eapply forest_trees].
Qed.

(** A non-empty trie has a key. *)
Lemma tget_inhabited n t : wf_tree n t -> t <> TEmpty -> exists k v, tget t k = Some v.
Proof.
  intros Hwf. induction Hwf as [n|p v' Hv|n p cs Hl Hcs IH Htwo]; intros Hne.
  - done.
  - exists p, v'. rewrite tget_leaf. by rewrite decide_True.
  - destruct Htwo as (i & j & c & d & Hij & Hi & Hj & Hc & Hd).
    destruct (IH _ _ Hi Hc) as (k & v & Hk). exists (p ++ nat_to_byte i :: k), v.
    rewrite tget_node. simpl. rewrite byte_to_nat_to_byte.
    + by rewrite Hi.
    + apply lookup_lt_Some in Hi. by rewrite Hl in Hi.
Qed.

(** A node has two keys that differ right after its prefix. *)
Lemma node_two_keys n p cs : wf_tree n (TNode p cs) ->
  exists b1 k1 v1 b2 k2 v2, b1 <> b2 /\
    tget (TNode p cs) (p ++ b1 :: k1) = Some v1 /\
    tget (TNode p cs) (p ++ b2 :: k2) = Some v2.
Proof.
  intros (m & -> & [Hl Hcs] & (i & j & c & d & Hij & Hi & Hj & Hc & Hd))%wf_node_inv.
  destruct (tget_inhabited m c (Hcs _ _ Hi) Hc) as (k1 & v1 & Hk1).
  destruct (tget_inhabited m d (Hcs _ _ Hj) Hd) as (k2 & v2 & Hk2).
  pose proof (lookup_lt_Some _ _ _ Hi) as Hi'. pose proof (lookup_lt_Some _ _ _ Hj) as Hj'.
  rewrite Hl in Hi', Hj'.
  exists (nat_to_byte i), k1, v1, (nat_to_byte j), k2, v2. split.
  - intros Hb. apply Hij. rewrite <-(byte_to_nat_to_byte i), Hb by done.
    by apply byte_to_nat_to_byte.
  - rewrite !tget_node. simpl. rewrite !byte_to_nat_to_byte by done. by rewrite Hi, Hj.
Qed.

Lemma prefix_fork (p q : bytes) b1 k1 b2 k2 :
  b1 <> b2 -> q `prefix_of` p ++ b1 :: k1 -> q `prefix_of` p ++ b2 :: k2 -> q `prefix_of` p.
Proof.
  intros Hne H1 H2. destruct (decide (length q <= length p)) as [Hle|Hgt].
  - destruct (prefix_weak_total q p _ H1) as [Hq|Hq]; [by apply prefix_app_r|done|].
    by apply prefix_length_eq in Hq as ->.
  - exfalso. assert (forall b k, q `prefix_of` p ++ b :: k -> q !! length p = Some b) as Hq.
    { intros b k [r Hr]. rewrite <-(lookup_app_l q r) by lia. rewrite <-Hr.
      by rewrite list_lookup_middle. }
    apply Hne. pose proof (Hq _ _ H1). pose proof (Hq _ _ H2). congruence.
Qed.

(** The prefix of a node is determined by its keys. *)
Lemma node_prefix_le n p q cs ds :
  wf_tree n (TNode p cs) -> (forall k, tget (TNode p cs) k = tget (TNode q ds) k) ->
  q `prefix_of` p.
Proof.
  intros (b1 & k1 & v1 & b2 & k2 & v2 & Hne & H1 & H2)%node_two_keys Heq.
  rewrite Heq in H1, H2.
  apply (prefix_fork p q b1 k1 b2 k2); [done|..].
  - destruct (tget_node_cases q ds (p ++ b1 :: k1)) as [(? & -> & _)|[_ Hn]];
      [by apply prefix_app_r|congruence].
  - destruct (tget_node_cases q ds (p ++ b2 :: k2)) as [(? & -> & _)|[_ Hn]];
      [by apply prefix_app_r|congruence].
Qed.

Lemma leaf_not_node n p v q cs :
  wf_tree n (TNode q cs) -> ~ (forall k, tget (TLeaf p v) k = tget (TNode q cs) k).
Proof.
  intros (b1 & k1 & v1 & b2 & k2 & v2 & Hne & H1 & H2)%node_two_keys Heq.
  rewrite <-Heq, tget_leaf in H1, H2.
  destruct (decide (p = q ++ b1 :: k1)) as [->|]; [|done].
  destruct (decide (q ++ b1 :: k1 = q ++ b2 :: k2)) as [Hb%app_inv_head|]; [|done].
  congruence.
Qed.

(** Tries in canonical form with the same contents are equal. *)
Lemma wf_tree_unique n t u :
  wf_tree n t -> wf_tree n u -> (forall k, tget t k = tget u k) -> t = u.
Proof.
  intros Ht. revert u. induction Ht as [n|p v Hv|n p cs Hl Hcs IH Htwo]; intros u Hu Heq.
  - destruct u as [|q w|q ds]; [done|..]; exfalso;
      destruct (tget_inhabited _ _ Hu) as (k & x & Hk); try done;
      rewrite <-Heq in Hk; done.
  - destruct u as [|q w|q ds].
    + specialize (Heq p). rewrite tget_leaf, decide_True in Heq; done.
    + specialize (Heq p). rewrite !tget_leaf, decide_True in Heq by done.
      case_decide; congruence.
    + exfalso. by eapply leaf_not_node.
  - assert (wf_tree (length p + S n) (TNode p cs)) as Ht by (by constructor).
    destruct u as [|q w|q ds].
    + exfalso. destruct (tget_inhabited _ _ Ht) as (k & x & Hk); [done|].
      by rewrite Heq in Hk.
    + exfalso. eapply leaf_not_node; [exact Ht|]. intros k. symmetry. apply Heq.
    + assert (p = q) as <-.
      { apply (anti_symm prefix); eapply node_prefix_le; [exact Hu| |exact Ht|exact Heq].
        intros k. symmetry. apply Heq. }
      apply wf_node_inv in Hu as (m & Hm & [Hl' Hds] & _). assert (m = n) as -> by lia.
      f_equal. apply list_eq_same_length with NUM_ITEMS; [done..|].
      intros i c d Hi Hc Hd. apply (IH i c Hc); [by eapply Hds|]. intros k.
      specialize (Heq (p ++ nat_to_byte i :: k)). rewrite !tget_node in Heq. simpl in Heq.
      rewrite byte_to_nat_to_byte, Hc, Hd in Heq by done. done.
Qed.

Lemma wf_forest_unique n cs ds :
  wf_forest n cs -> wf_forest n ds -> (forall k, fget cs k = fget ds k) -> cs = ds.
Proof.
  intros [Hl Hcs] [Hl' Hds] Heq. apply list_eq_same_length with NUM_ITEMS; [done..|].
  intros i c d Hi Hc Hd. eapply wf_tree_unique; [by eapply Hcs|by eapply Hds|].
  intros k. specialize (Heq (nat_to_byte i :: k)). simpl in Heq.
  by rewrite byte_to_nat_to_byte, Hc, Hd in Heq by done.
Qed.

(** ** Compaction and expansion *)

Lemma is_empty_false t : is_empty_tree t = false <-> t <> TEmpty.
Proof. by destruct t. Qed.

Lemma elem_of_non_empty cs i c : (i, c) ∈ non_empty cs <-> cs !! i = Some c /\ c <> TEmpty.
Proof.
  unfold non_empty. rewrite list_elem_of_filter, elem_of_enumerate. simpl.
  rewrite is_empty_false. naive_solver.
Qed.

Lemma NoDup_non_empty cs : NoDup (non_empty cs).*1.
Proof.
  apply (sublist_NoDup _ (enumerate cs).*1).
  - unfold enumerate. replace ((imap pair cs).*1) with (seq 0 (length cs)); [apply NoDup_seq|].
    apply list_eq. intros i. rewrite list_lookup_fmap, list_lookup_imap.
    destruct (cs !! i) eqn:Hi; simpl.
    + apply lookup_lt_Some in Hi. rewrite lookup_seq_lt by done. done.
    + apply lookup_ge_None in Hi. by rewrite lookup_seq_ge.
  - apply fmap_sublist, sublist_filter.
Qed.

Lemma compact_cases p cs :
  ((forall i c, cs !! i = Some c -> c = TEmpty) /\ compact p cs = TEmpty) \/
  (exists i c, cs !! i = Some c /\ c <> TEmpty /\
     (forall j d, cs !! j = Some d -> j <> i -> d = TEmpty) /\
     compact p cs = prepend (p ++ [nat_to_byte i]) c) \/
  (two_children cs /\ compact p cs = TNode p cs).
Proof.
  unfold compact. pose proof (elem_of_non_empty cs) as Hin.
  pose proof (NoDup_non_empty cs) as Hnd.
  assert (forall i c, cs !! i = Some c -> c <> TEmpty -> (i, c) ∈ non_empty cs) as Hin'
    by (intros; by apply Hin).
  destruct (non_empty cs) as [|[i c] [|[j d] l]].
  - left. split; [|done]. intros i c Hc. destruct (decide (is_empty_tree c = true)).
    + by destruct c.
    + destruct (not_elem_of_nil (i, c)). apply Hin'; [done|by destruct c].
  - right; left. exists i, c. destruct (Hin i c) as [[Hc Hne] _]; [by left|].
    do 2 (split; [done|]). split; [|done]. intros j d Hd Hji.
    destruct (decide (is_empty_tree d = true)); [by destruct d|].
    destruct (not_elem_of_nil (j, d)).
    assert ((j, d) ∈ [(i, c)]) as Hm by (apply Hin'; [done|by destruct d]).
    apply elem_of_cons in Hm as [[= -> ->]|Hm]; done.
  - right; right. split; [|done]. exists i, j, c, d.
    destruct (Hin i c) as [[Hc Hne] _]; [by left|].
    destruct (Hin j d) as [[Hd Hne'] _]; [right; by left|].
    split; [|done]. csimpl in Hnd. intros ->. apply NoDup_cons in Hnd as [Hnot _].
    apply Hnot. by left.
Qed.

Lemma compact_two p cs : two_children cs -> compact p cs = TNode p cs.
Proof.
  intros (i & j & c & d & Hij & Hi & Hj & Hc & Hd).
  destruct (compact_cases p cs) as [[Hall _]|[(k & e & _ & _ & Hall & _)|[_ ->]]]; [..|done].
  - destruct Hc. by eapply Hall.
  - destruct (decide (i = k)) as [->|Hik].
    + destruct Hd. eapply Hall; [exact Hj|congruence].
    + destruct Hc. by eapply Hall.
Qed.

Lemma wf_prepend n q t : wf_tree n t -> wf_tree (length q + n) (prepend q t).
Proof.
  intros [m|p v Hv|m p cs Hl Hcs Htwo]; simpl.
  - constructor.
  - rewrite <-length_app. by constructor.
  - rewrite Nat.add_assoc, <-length_app. by constructor.
Qed.

Lemma wf_compact n p cs : wf_forest n cs -> wf_tree (length p + S n) (compact p cs).
Proof.
  intros [Hl Hcs].
  destruct (compact_cases p cs) as [[_ ->]|[(i & c & Hi & _ & _ & ->)|[Htwo ->]]].
  - constructor.
  - pose proof (wf_prepend n (p ++ [nat_to_byte i]) c (Hcs _ _ Hi)) as Hw.
    rewrite length_app in Hw. simpl in Hw. by replace (length p + S n) with (length p + 1 + n) by lia.
  - by constructor.
Qed.

Lemma tget_compact n p cs k : wf_forest n cs -> tget (compact p cs) k = tget (TNode p cs) k.
Proof.
  intros [Hl _].
  destruct (compact_cases p cs) as [[Hall ->]|[(i & c & Hi & _ & Hall & ->)|[_ ->]]]; [..|done].
  - destruct (tget_node_cases p cs k) as [(k' & -> & ->)|[_ ->]]; [|done].
    destruct k' as [|b k']; [done|]. simpl.
    destruct (cs !! byte_to_nat b) eqn:Hb; [|done]. by apply Hall in Hb as ->.
  - assert (i < 256) as Hlt by (apply lookup_lt_Some in Hi; by rewrite Hl in Hi).
    destruct (tget_node_cases p cs k) as [(k' & -> & ->)|[Hp ->]].
    + destruct k' as [|b k'].
      { apply tget_prepend_ne. intros Hp%prefix_length. rewrite !length_app in Hp.
        simpl in Hp. lia. }
      simpl. destruct (decide (byte_to_nat b = i)) as [<-|Hne].
      * rewrite Hi, nat_to_byte_to_nat.
        change (b :: k') with ([b] ++ k'). by rewrite app_assoc, tget_prepend.
      * rewrite tget_prepend_ne.
        { destruct (cs !! byte_to_nat b) eqn:Hb; [|done]. by rewrite (Hall _ _ Hb). }
        intros Hq%prefix_app_inv. apply prefix_cons_inv_1 in Hq. apply Hne. subst b.
        by apply byte_to_nat_to_byte.
    + apply tget_prepend_ne. intros Hq. apply Hp. by eapply prefix_app_l.
Qed.

Lemma wf_expand n t : wf_tree (S n) t -> wf_forest n (expand t).
Proof.
  destruct t as [|[|b p] v|[|b p] cs]; simpl; auto with rspace.
  - intros [Hn Hv]%wf_leaf_inv. simpl in Hn. injection Hn as ->. auto with rspace.
  - intros (m & Hm & Hcs & _)%wf_node_inv. simpl in Hm. by injection Hm as ->.
  - intros (m & Hm & [Hl Hcs] & Htwo)%wf_node_inv. simpl in Hm. injection Hm as ->.
    auto with rspace.
Qed.

Lemma fget_expand n t k : wf_tree (S n) t -> fget (expand t) k = tget t k.
Proof.
  intros Hwf. pose proof byte_to_nat_lt as Hlt.
  destruct t as [|[|b p] v|[|b p] cs]; simpl expand; rewrite ?fget_no_trees; try done.
  - by apply wf_leaf_inv in Hwf as [? _].
  - rewrite fget_insert by apply Hlt. destruct k as [|b' k]; [done|].
    rewrite fget_no_trees. change (b :: p) with ([b] ++ p).
    destruct (decide (b = b')) as [<-|Hne].
    + change (b :: k) with ([b] ++ k).
      by rewrite <-(tget_prepend [b] (TLeaf p v) k).
    + symmetry. apply (tget_prepend_ne [b] (TLeaf p v)).
      by intros ?%prefix_cons_inv_1.
  - by rewrite <-(tget_node [] cs k).
  - rewrite fget_insert by apply Hlt. destruct k as [|b' k]; [done|].
    rewrite fget_no_trees. destruct (decide (b = b')) as [<-|Hne].
    + change (b :: k) with ([b] ++ k).
      by rewrite <-(tget_prepend [b] (TNode p cs) k).
    + symmetry. apply (tget_prepend_ne [b] (TNode p cs)).
      by intros ?%prefix_cons_inv_1.
Qed.

(** ** Changing one key *)

(** A node with a new leaf beside an existing subtree. *)
Definition fork (b : byte) (k v : bytes) (b' : byte) (t : tree) : forest :=
  <[byte_to_nat b := TLeaf k v]> (<[byte_to_nat b' := t]> no_trees).

Lemma two_children_fork b k v b' t : b <> b' -> t <> TEmpty -> two_children (fork b k v b' t).
Proof.
  intros Hne Ht. pose proof (byte_to_nat_lt b). pose proof (byte_to_nat_lt b').
  exists (byte_to_nat b), (byte_to_nat b'), (TLeaf k v), t. unfold fork.
  assert (byte_to_nat b <> byte_to_nat b') as Hnat by (by intros ?%(inj _)).
  rewrite list_lookup_insert_eq by (by rewrite length_insert).
  rewrite list_lookup_insert_ne by done. by rewrite list_lookup_insert_eq.
Qed.

Lemma wf_fork n c b k v b' t :
  b <> b' -> t <> TEmpty -> wf_tree n t -> length k = n -> length v = DEF_SIZE ->
  wf_tree (length c + S n) (TNode c (fork b k v b' t)).
Proof.
  intros Hne Ht Hwf <- Hv.
  assert (wf_forest (length k) (fork b k v b' t)) as [Hl Hcs]
    by (unfold fork; auto with rspace).
  constructor; [done..|by apply two_children_fork].
Qed.

Lemma tget_fork c b k v b' t k' : b <> b' ->
  tget (TNode c (fork b k v b' t)) k' =
  <[c ++ b :: k := Some v]> (tget (prepend (c ++ [b']) t)) k'.
Proof.
  intros Hne. pose proof byte_to_nat_lt as Hlt. rewrite fn_lookup_insert_decide.
  destruct (tget_node_cases c (fork b k v b' t) k') as [(r & -> & ->)|[Hp ->]].
  - unfold fork. rewrite fget_insert by (rewrite length_insert; apply Hlt).
    rewrite fget_insert by apply Hlt. rewrite fget_no_trees. destruct r as [|x r].
    + rewrite decide_False, tget_prepend_ne; [done|..].
      * intros Hp%prefix_length. rewrite !length_app in Hp. simpl in Hp. lia.
      * intros Hk%(f_equal length). rewrite !length_app in Hk. simpl in Hk. lia.
    + destruct (decide (b = x)) as [<-|Hbx].
      * rewrite tget_leaf. destruct (decide (k = r)) as [<-|Hkr]; [by rewrite decide_True|].
        rewrite decide_False, tget_prepend_ne; [done|..].
        -- intros Hq%prefix_app_inv%prefix_cons_inv_1. done.
        -- intros Hk%app_inv_head. congruence.
      * destruct (decide (c ++ b :: k = c ++ x :: r)) as [Hk%app_inv_head|_]; [congruence|].
        destruct (decide (b' = x)) as [<-|Hb'x].
        -- change (b' :: r) with ([b'] ++ r). by rewrite app_assoc, tget_prepend.
        -- rewrite tget_prepend_ne; [done|]. by intros Hq%prefix_app_inv%prefix_cons_inv_1.
  - rewrite decide_False, tget_prepend_ne; [done|..].
    + intros Hq. apply Hp. by eapply prefix_app_l.
    + intros <-. by apply Hp, prefix_app_r.
Qed.

(** Changing one child of a node. *)
Lemma tget_node_update n p cs b c c' k o k' :
  wf_forest n cs -> cs !! byte_to_nat b = Some c ->
  (forall r, tget c' r = <[k := o]> (tget c) r) ->
  tget (TNode p (<[byte_to_nat b := c']> cs)) k' =
  <[p ++ b :: k := o]> (tget (TNode p cs)) k'.
Proof.
  intros [Hl _] Hc Hc'. rewrite fn_lookup_insert_decide.
  destruct (decide (p `prefix_of` k')) as [[r ->]|Hp].
  - rewrite !tget_node, fget_insert by (rewrite Hl; apply byte_to_nat_lt).
    destruct r as [|x r].
    + rewrite decide_False; [done|]. by intros Hk%app_inv_head.
    + destruct (decide (b = x)) as [<-|Hbx].
      * rewrite Hc', fn_lookup_insert_decide. simpl. rewrite Hc.
        destruct (decide (k = r)) as [<-|Hkr]; [by rewrite decide_True|].
        rewrite decide_False; [done|]. intros Hk%app_inv_head. congruence.
      * rewrite decide_False; [done|]. intros Hk%app_inv_head. congruence.
  - rewrite !tget_node_ne by done. rewrite decide_False; [done|].
    intros <-. by apply Hp, prefix_app_r.
Qed.

Lemma common_prefix_app p l : common_prefix (p ++ l) p = (p, l, []).
Proof.
  assert (forall c, common_prefix_go c (p ++ l) p = (c ++ p, l, [])) as Hgo; [|apply Hgo].
  induction p as [|x p IH]; intros c; simpl.
  - rewrite app_nil_r. by destruct l.
  - rewrite decide_True by done. by rewrite IH, <-app_assoc.
Qed.

(** Equations of [tset] and [tdel] below a node. *)
Lemma tset_node p cs k v b c :
  cs !! byte_to_nat b = Some c ->
  tset (TNode p cs) (p ++ b :: k) v = TNode p (<[byte_to_nat b := tset c k v]> cs).
Proof. intros Hc. simpl. by rewrite common_prefix_app, list_lookup_fmap, Hc. Qed.

Lemma tdel_node p cs k b c :
  cs !! byte_to_nat b = Some c ->
  tdel (TNode p cs) (p ++ b :: k) = compact p (<[byte_to_nat b := tdel c k]> cs).
Proof. intros Hc. simpl. by rewrite common_prefix_app, list_lookup_fmap, Hc. Qed.

(** Two keys of the same length either agree or fork. *)
Lemma common_prefix_same_length k p c l r :
  length k = length p -> common_prefix k p = (c, l, r) ->
  (k = p /\ l = [] /\ r = []) \/
  exists b k' b' p', l = b :: k' /\ r = b' :: p' /\ b <> b' /\
    k = c ++ b :: k' /\ p = c ++ b' :: p' /\ length k' = length p'.
Proof.
  intros Hlen (-> & -> & Hd)%common_prefix_spec. rewrite !length_app in Hlen.
  destruct l as [|b k'], r as [|b' p']; simpl in Hlen; try lia; [by left|right].
  destruct Hd as [?|[?|(?&?&?&?&[= -> ->]&[= -> ->]&?)]]; [done..|].
  eexists _, _, _, _. repeat split; try done. lia.
Qed.

(** A key longer than a prefix extends it or forks from it. *)
Lemma common_prefix_longer k p c l r :
  length p < length k -> common_prefix k p = (c, l, r) ->
  (exists b k', k = p ++ b :: k' /\ c = p /\ l = b :: k' /\ r = []) \/
  exists b k' b' p', l = b :: k' /\ r = b' :: p' /\ b <> b' /\
    k = c ++ b :: k' /\ p = c ++ b' :: p'.
Proof.
  intros Hlen (-> & -> & Hd)%common_prefix_spec. rewrite !length_app in Hlen.
  destruct l as [|b k']; [simpl in Hlen; lia|]. destruct r as [|b' p'].
  - left. exists b, k'. by rewrite app_nil_r.
  - right. destruct Hd as [?|[?|(?&?&?&?&[= -> ->]&[= -> ->]&?)]]; [done..|].
    by eexists _, _, _, _.
Qed.

Lemma tset_not_empty t k v : t <> TEmpty -> tset t k v <> TEmpty.
Proof.
  destruct t; simpl; [done|..]; intros _; destruct (common_prefix _ _) as [[? []] []];
    try done. by destruct (_ !! _).
Qed.

Lemma two_children_insert cs i c :
  two_children cs -> c <> TEmpty -> two_children (<[i := c]> cs).
Proof.
  intros (j & k & d & e & Hjk & Hj & Hk & Hd & He) Hc.
  assert (forall j d, cs !! j = Some d -> d <> TEmpty ->
    exists d', <[i := c]> cs !! j = Some d' /\ d' <> TEmpty) as Hins.
  { intros j' d' Hj' Hd'. destruct (decide (i = j')) as [<-|Hne].
    - exists c. rewrite list_lookup_insert_eq; [done|by eapply lookup_lt_Some].
    - exists d'. by rewrite list_lookup_insert_ne. }
  destruct (Hins j d Hj Hd) as (d' & ? & ?), (Hins k e Hk He) as (e' & ? & ?).
  by exists j, k, d', e'.
Qed.

(** [tset] keeps the canonical form and writes one key. *)
Lemma tset_spec n t k v :
  wf_tree n t -> length k = n -> length v = DEF_SIZE ->
  wf_tree n (tset t k v) /\ forall k', tget (tset t k v) k' = <[k := Some v]> (tget t) k'.
Proof.
  intros Hwf. revert k. induction Hwf as [n|p w Hw|n p cs Hl Hcs IH Htwo]; intros k Hk Hv.
  - cbn [tset]. rewrite <-Hk. split; [by constructor|]. intros k'.
    by rewrite tget_leaf, fn_lookup_insert_decide.
  - cbn [tset]. destruct (common_prefix k p) as [[c l] r] eqn:Hcp.
    apply common_prefix_same_length in Hcp
      as [(<- & -> & ->)|(b & k1 & b' & p1 & -> & -> & Hne & -> & -> & Hlen)]; [..|done].
    + split; [by constructor|]. intros k'. rewrite fn_lookup_insert_decide, !tget_leaf.
      by case_decide.
    + split.
      * rewrite length_app. simpl. apply wf_fork; [done..| |done|done]. by constructor.
      * intros k'. rewrite (tget_fork c b k1 v b' (TLeaf p1 w)) by done. simpl.
        by rewrite <-app_assoc.
  - assert (wf_forest n cs) as Hf by done.
    cbn [tset]. destruct (common_prefix k p) as [[c l] r] eqn:Hcp.
    apply common_prefix_longer in Hcp
      as [(b & k1 & -> & -> & -> & ->)|(b & k1 & b' & p1 & -> & -> & Hne & -> & ->)]; [..|lia].
    + destruct (forest_lookup n cs b Hf) as [c Hc].
      rewrite list_lookup_fmap, Hc. simpl.
      destruct (IH _ _ Hc k1) as [Hwf' Hget]; [rewrite length_app in Hk; simpl in Hk; lia|done|].
      split.
      * destruct (wf_forest_insert n cs (byte_to_nat b) (tset c k1 v) Hf Hwf') as [Hl' Hcs'].
        constructor; [done..|]. apply two_children_insert; [done|].
        destruct c; [done|by apply tset_not_empty..].
      * intros k'. by eapply tget_node_update.
    + assert (wf_tree (length p1 + S n) (TNode p1 cs)) as Hold by (by constructor).
      rewrite !length_app in Hk. simpl in Hk. split.
      * rewrite length_app. simpl. replace (length c + S (length p1) + S n) with (length c + S (length p1 + S n)) by lia.
        apply wf_fork; [done..| |done]. lia.
      * intros k'. rewrite (tget_fork c b k1 v b' (TNode p1 cs)) by done. simpl.
        by rewrite <-app_assoc.
Qed.

(** A key that does not extend the prefix of a node is not in it. *)
Lemma tget_not_below p cs k c l r :
  common_prefix k p = (c, l, r) -> (forall b k', ~ (l = b :: k' /\ r = [])) ->
  tget (TNode p cs) k = None.
Proof.
  intros Hcp Hnot. destruct (tget_node_cases p cs k) as [(k' & -> & ->)|[_ ->]]; [|done].
  rewrite common_prefix_app in Hcp. simplify_eq. destruct l as [|b l]; [done|].
  by destruct (Hnot b l).
Qed.

(** [tdel] keeps the canonical form and removes one key. *)
Lemma tdel_spec n t k :
  wf_tree n t ->
  wf_tree n (tdel t k) /\ forall k', tget (tdel t k) k' = <[k := None]> (tget t) k'.
Proof.
  intros Hwf. revert k. induction Hwf as [n|p w Hw|n p cs Hl Hcs IH Htwo]; intros k.
  - split; [constructor|]. intros k'. rewrite fn_lookup_insert_decide. by case_decide.
  - cbn [tdel]. split; [case_decide; by constructor|]. intros k'.
    rewrite fn_lookup_insert_decide. destruct (decide (p = k)) as [->|Hne]; simpl;
      repeat case_decide; congruence.
  - assert (wf_forest n cs) as Hf by done.
    cbn [tdel]. destruct (common_prefix k p) as [[c l] r] eqn:Hcp.
    assert ((forall b k', ~ (l = b :: k' /\ r = [])) -> forall k',
      tget (TNode p cs) k' = <[k := None]> (tget (TNode p cs)) k') as Hsame.
    { intros Hnot k'. rewrite fn_lookup_insert_decide. case_decide; [|done]. subst k'.
      by eapply tget_not_below. }
    destruct l as [|b k1]; [split; [by constructor|apply Hsame; naive_solver]|].
    destruct r as [|b' p1]; [|split; [by constructor|apply Hsame; naive_solver]].
    clear Hsame. apply common_prefix_spec in Hcp as (-> & -> & _). rewrite app_nil_r in *.
    destruct (forest_lookup n cs b Hf) as [d Hd]. rewrite list_lookup_fmap, Hd. simpl.
    destruct (IH _ _ Hd k1) as [Hwf' Hget].
    assert (wf_forest n (<[byte_to_nat b := tdel d k1]> cs)) as Hf' by auto with rspace.
    split; [by apply wf_compact|]. intros k'.
    rewrite (tget_compact n) by done. by eapply tget_node_update.
Qed.

(** ** Actions *)

(** A change of one key: [Some v] writes it, [None] removes it. *)
Definition change := (bytes * option bytes)%type.
Definition tact (t : tree) (a : change) : tree :=
  match a.2 with Some v => tset t a.1 v | None => tdel t a.1 end.
Definition fact (cs : forest) (a : change) : forest :=
  match a.1 with
  | [] => cs
  | b :: k => alter (fun c => tact c (k, a.2)) (byte_to_nat b) cs
  end.

(** What the changes mean for the contents. *)
Definition apply_changes (acts : list change) (f : bytes -> option bytes) :
  bytes -> option bytes := foldl (fun f a => <[a.1 := a.2]> f) f acts.

Definition change_ok (n : nat) (a : change) : Prop :=
  length a.1 = n /\ forall v, a.2 = Some v -> length v = DEF_SIZE.

Lemma tact_spec n t a : wf_tree n t -> change_ok n a ->
  wf_tree n (tact t a) /\ forall k, tget (tact t a) k = <[a.1 := a.2]> (tget t) k.
Proof.
  intros Hwf [Hl Hv]. destruct a as [k [v|]]; unfold tact; simpl in *.
  - apply tset_spec; auto.
  - by apply tdel_spec.
Qed.

Lemma apply_changes_ext acts (f g : bytes -> option bytes) :
  (forall k, f k = g k) -> forall k, apply_changes acts f k = apply_changes acts g k.
Proof.
  unfold apply_changes. revert f g. induction acts as [|a acts IH]; intros f g Hfg; [done|].
  simpl. apply IH. intros k. rewrite !fn_lookup_insert_decide. by case_decide.
Qed.

Lemma tacts_spec n t acts : wf_tree n t -> Forall (change_ok n) acts ->
  wf_tree n (foldl tact t acts) /\
  forall k, tget (foldl tact t acts) k = apply_changes acts (tget t) k.
Proof.
  intros Hwf Hok. revert t Hwf. induction Hok as [|a acts Ha Hok IH]; intros t Hwf; [done|].
  simpl. destruct (tact_spec n t a Hwf Ha) as [Hwf' Hget].
  destruct (IH _ Hwf') as [Hwf'' Hget'']. split; [done|]. intros k. rewrite Hget''.
  by apply apply_changes_ext.
Qed.

(** The changes of the keys that start with a byte, without that byte. *)
Definition below (b : byte) (a : change) : option change :=
  match a.1 with
  | b' :: k => if decide (b' = b) then Some (k, a.2) else None
  | [] => None
  end.

Lemma lookup_facts cs acts b :
  foldl fact cs acts !! byte_to_nat b =
  (fun c => foldl tact c (omap (below b) acts)) <$> cs !! byte_to_nat b.
Proof.
  revert cs. induction acts as [|[[|b' k] o] acts IH]; intros cs; csimpl.
  - by destruct (cs !! _).
  - apply IH.
  - rewrite IH. unfold fact, below. simpl. case_decide as Hb.
    + subst b'. rewrite list_lookup_alter_eq. by destruct (cs !! _).
    + rewrite list_lookup_alter_ne; [done|]. by intros ?%(inj _).
Qed.

Lemma length_facts cs acts : length (foldl fact cs acts) = length cs.
Proof.
  revert cs. induction acts as [|[[|b' k] o] acts IH]; intros cs; simpl; [done|..]; rewrite IH.
  - done.
  - apply length_alter.
Qed.

Lemma below_ok n b acts :
  Forall (change_ok (S n)) acts -> Forall (change_ok n) (omap (below b) acts).
Proof.
  intros Hok. rewrite Forall_forall in *. intros a (a0 & Ha0 & Hb)%list_elem_of_omap.
  destruct (Hok _ Ha0) as [Hl Hv]. destruct a0 as [[|b' k] o]; [done|].
  unfold below in Hb. simpl in *. case_decide; [|done]. simplify_eq. split; [simpl; lia|done].
Qed.

Lemma wf_facts n cs acts : wf_forest n cs -> Forall (change_ok (S n)) acts ->
  wf_forest n (foldl fact cs acts).
Proof.
  intros [Hl Hcs] Hok. split; [by rewrite length_facts|]. intros i c Hc.
  assert (i < 256) as Hi.
  { apply lookup_lt_Some in Hc. by rewrite length_facts, Hl in Hc. }
  rewrite <-(byte_to_nat_to_byte i Hi), lookup_facts in Hc.
  apply fmap_Some in Hc as (c0 & Hc0 & ->).
  apply tacts_spec; [by eapply Hcs|by apply below_ok].
Qed.

Lemma apply_changes_below b acts (f : bytes -> option bytes) k :
  apply_changes acts f (b :: k) =
  apply_changes (omap (below b) acts) (fun k => f (b :: k)) k.
Proof.
  revert f. induction acts as [|[[|b' k'] o] acts IH]; intros f; csimpl; [done|..];
    unfold apply_changes in *; simpl; rewrite IH.
  - apply apply_changes_ext. intros k0. by rewrite fn_lookup_insert_ne.
  - unfold below. simpl. case_decide as Hb.
    + subst b'. simpl. apply apply_changes_ext. intros k0. rewrite !fn_lookup_insert_decide.
      destruct (decide (k' = k0)) as [->|Hne]; [by rewrite decide_True|].
      rewrite decide_False; [done|congruence].
    + apply apply_changes_ext. intros k0. rewrite fn_lookup_insert_ne; [done|congruence].
Qed.

Lemma apply_changes_nil acts (f : bytes -> option bytes) n :
  Forall (change_ok (S n)) acts -> apply_changes acts f [] = f [].
Proof.
  intros Hok. revert f. induction Hok as [|[k o] acts [Hk _] Hok IH]; intros f; [done|].
  unfold apply_changes in *. simpl. rewrite IH. apply fn_lookup_insert_ne. by intros ->.
Qed.

Lemma fget_facts n cs acts k : wf_forest n cs -> Forall (change_ok (S n)) acts ->
  fget (foldl fact cs acts) k = apply_changes acts (fget cs) k.
Proof.
  intros Hf Hok. destruct k as [|b k]; [by rewrite (apply_changes_nil _ _ n)|].
  simpl. rewrite lookup_facts, apply_changes_below.
  destruct (forest_lookup n cs b Hf) as [c Hc]. rewrite Hc. simpl.
  destruct (tacts_spec n c (omap (below b) acts)) as [_ Hget];
    [by eapply forest_trees|by apply below_ok|].
  rewrite Hget. apply apply_changes_ext. intros k0. by rewrite Hc.
Qed.

(** Several changes of an item: expand it, change the node, compact it again. *)
Lemma expand_facts_compact n t acts :
  wf_tree (S n) t -> Forall (change_ok (S n)) acts ->
  compact [] (foldl fact (expand t) acts) = foldl tact t acts.
Proof.
  intros Hwf Hok. pose proof (wf_expand n t Hwf) as Hf.
  pose proof (wf_facts n _ acts Hf Hok) as Hf'.
  destruct (tacts_spec (S n) t acts Hwf Hok) as [Hwf' Hget].
  apply (wf_tree_unique (S n)); [by apply (wf_compact n [])|done|]. intros k.
  rewrite (tget_compact n), Hget by done.
  change k with ([] ++ k) at 1. rewrite tget_node, (fget_facts n) by done.
  apply apply_changes_ext. intros k0. by apply (fget_expand n).
Qed.
