(* ===== verification/RadixRefine.v ===== *)
(** * The radix tree implements pure tries

    Simulation of [RadixTreeImpl] ([RadixTree.v]) by the pure tries of [RadixSpec.v].  The
    item of a trie points to its nodes by hash.  [U] is the set of nodes that occur in the
    run, those already stored and those of the new trie; on it the hash has no collisions.
    [returns] is the Hoare triple of a method that succeeds and changes the caches only. *)
From S2P Require Import Prelude HotStoreSig KeyValueStore RadixCodec RadixTree RadixSpec.

(** The nodes of a trie. *)
Inductive in_tree : tree -> forest -> Prop :=
| in_here p cs : in_tree (TNode p cs) cs
| in_below p cs i c ds : cs !! i = Some c -> in_tree c ds -> in_tree (TNode p cs) ds.
Definition in_forest (cs ds : forest) : Prop := exists i c, cs !! i = Some c /\ in_tree c ds.
#[global] Hint Constructors in_tree : rspace.

Lemma in_tree_node p cs ds : in_tree (TNode p cs) ds <-> ds = cs \/ in_forest cs ds.
Proof.
  split.
  - inversion 1; subst; [by left|right]. by eexists _, _.
  - intros [->|(i & c & Hc & Hd)]; eauto with rspace.
Qed.
Lemma in_tree_prepend q t ds : in_tree (prepend q t) ds <-> in_tree t ds.
Proof. destruct t; simpl; [done|split; inversion 1|]. by rewrite !in_tree_node. Qed.

Lemma in_tree_compact_below p cs ds : in_forest cs ds -> in_tree (compact p cs) ds.
Proof.
  intros (i & c & Hi & Hd).
  destruct (compact_cases p cs) as [[Hall ->]|[(j & d & Hj & _ & Hall & ->)|[_ ->]]].
  - by rewrite (Hall _ _ Hi) in Hd.
  - rewrite in_tree_prepend. destruct (decide (i = j)) as [->|Hne].
    + by simplify_eq.
    + rewrite (Hall _ _ Hi Hne) in Hd. inversion Hd.
  - apply in_tree_node. right. by exists i, c.
Qed.
Lemma in_tree_compact p cs ds :
  in_tree (compact p cs) ds -> in_forest cs ds \/ (ds = cs /\ two_children cs).
Proof.
  destruct (compact_cases p cs) as [[Hall ->]|[(j & d & Hj & _ & Hall & ->)|[Htwo ->]]].
  - inversion 1.
  - rewrite in_tree_prepend. left. by exists j, d.
  - rewrite in_tree_node. naive_solver.
Qed.
Lemma in_expand t ds : in_forest (expand t) ds -> in_tree t ds.
Proof.
  assert (forall b u, in_forest (<[byte_to_nat b := u]> no_trees) ds -> in_tree u ds) as Hone.
  { intros b u (i & c & Hc & Hd).
    apply list_lookup_insert_Some in Hc as [(_ & <- & _)|[_ Hc]]; [done|].
    apply lookup_no_trees in Hc as ->. inversion Hd. }
  assert (~ in_forest no_trees ds) as Hno.
  { intros (i & c & ->%lookup_no_trees & Hd). inversion Hd. }
  destruct t as [|[|b p] v|[|b p] cs]; simpl; try done.
  - intros Hd%Hone. inversion Hd.
  - intros Hd. apply in_tree_node. by right.
  - intros Hd%Hone. by rewrite in_tree_node in *.
Qed.
Lemma in_forest_insert cs i c ds :
  in_forest (<[i := c]> cs) ds -> in_tree c ds \/ in_forest cs ds.
Proof.
  intros (j & d & Hd & Hin). apply list_lookup_insert_Some in Hd as [(_ & <- & _)|[_ Hd]];
    [by left|right]. by exists j, d.
Qed.
Lemma in_forest_here cs i c ds :
  i < length cs -> in_tree c ds -> in_forest (<[i := c]> cs) ds.
Proof. intros Hi Hin. exists i, c. by rewrite list_lookup_insert_eq. Qed.

(** The nodes of a trie as a list. *)
Fixpoint tree_nodes (t : tree) : list forest :=
  match t with TNode _ cs => cs :: mjoin (tree_nodes <$> cs) | _ => [] end.
Definition forest_nodes (cs : forest) : list forest := mjoin (tree_nodes <$> cs).

Lemma in_tree_nodes t ds : in_tree t ds -> ds ∈ tree_nodes t.
Proof.
  induction 1 as [p cs|p cs i c ds Hc Hd IH]; simpl; [by left|right].
  apply list_elem_of_join. exists (tree_nodes c). split; [done|].
  by eapply list_elem_of_fmap_2, list_elem_of_lookup_2.
Qed.
Lemma in_forest_nodes cs ds : in_forest cs ds -> ds ∈ forest_nodes cs.
Proof.
  intros (i & c & Hc & Hd%in_tree_nodes). apply list_elem_of_join. exists (tree_nodes c).
  split; [done|]. by eapply list_elem_of_fmap_2, list_elem_of_lookup_2.
Qed.

(** ** Nodes and hashes *)

Section refine.
Context {KV : Type} `{!KeyValueStore KV, !KeyValueStoreLaws KV, !DashOrder, !DashOrderLaws}.
Context (blake2b256 : bytes -> bytes).

Definition node_hash (x : Node) : bytes := blake2b256 (node_bytes 0 x).

Fixpoint item_of (t : tree) : Item :=
  match t with
  | TEmpty => EmptyItem
  | TLeaf p v => Leaf p v
  | TNode p cs => NodePtr p (node_hash (item_of <$> cs))
  end.
Definition items (cs : forest) : Node := item_of <$> cs.

(** Blake2b-256 returns 32 bytes. *)
Context (blake_length : forall b, length (blake2b256 b) = DEF_SIZE).

Lemma item_of_empty t : item_of t = EmptyItem <-> t = TEmpty.
Proof. by destruct t. Qed.
Lemma items_insert i c cs : items (<[i := c]> cs) = <[i := item_of c]> (items cs).
Proof. apply list_fmap_insert. Qed.
Lemma items_no_trees : items no_trees = empty_node.
Proof. unfold items, no_trees. by rewrite fmap_replicate. Qed.

Lemma item_of_ok n t : wf_tree n t -> n <= 127 -> item_ok (item_of t).
Proof.
  intros [m|p v Hv|m p cs Hl Hcs Htwo] Hn; simpl; [done|split; lia|].
  split; [lia|apply blake_length].
Qed.
Lemma items_ok n cs : wf_forest n cs -> n <= 127 -> node_ok (items cs).
Proof.
  intros [Hl Hcs] Hn. unfold items. split; [by rewrite length_fmap|].
  apply Forall_fmap, Forall_lookup.
  intros i c Hc. apply (item_of_ok n); [by eapply Hcs|done].
Qed.

Lemma hash_node_spec x : node_ok x -> hash_node blake2b256 x = Ok (node_hash x, node_bytes 0 x).
Proof. intros [_ Hx]. unfold hash_node. by rewrite encode_spec. Qed.

(** ** The invariant of the tree *)

Context (U : Node -> Prop).
Context (U_ok : forall x, U x -> node_ok x).
Context (U_inj : forall x y, U x -> U y -> node_hash x = node_hash y -> x = y).

Definition covered (t : tree) : Prop := forall cs, in_tree t cs -> U (items cs).
Definition covered_forest (cs : forest) : Prop := forall ds, in_forest cs ds -> U (items ds).

(** An entry of the write cache or of the store. *)
Definition entry_ok (h b : bytes) : Prop := exists x, U x /\ h = node_hash x /\ b = node_bytes 0 x.

Record tree_inv (t : RadixTreeImpl KV) : Prop := {
  inv_cache_r : forall h x, cache_r t !! h = Some x -> U x /\ h = node_hash x;
  inv_cache_w : forall h b, cache_w t !! h = Some b -> entry_ok h b;
  inv_store : forall h b, kv_map (store t) !! h = Some b -> entry_ok h b;
}.

(** The operations add to the write cache and leave the store alone. *)
Record keeps (t t' : RadixTreeImpl KV) : Prop := {
  keeps_store : store t' = store t;
  keeps_cache_w : cache_w t ⊆ cache_w t';
  keeps_inv : tree_inv t';
}.
Lemma keeps_trans t1 t2 t3 : keeps t1 t2 -> keeps t2 t3 -> keeps t1 t3.
Proof.
  intros [H1 H2 _] [H3 H4 H5]. split; [congruence| |done]. by etrans.
Qed.
Lemma keeps_refl t : tree_inv t -> keeps t t.
Proof. by split. Qed.

(** All nodes of a trie are in the store. *)
Definition persisted (s : KV) (t : tree) : Prop := forall cs, in_tree t cs ->
  kv_map s !! node_hash (items cs) = Some (node_bytes 0 (items cs)).
(** All nodes of a trie are in the store or will be written by [commit]. *)
Definition node_avail (t : RadixTreeImpl KV) (x : Node) : Prop :=
  cache_w t !! node_hash x = Some (node_bytes 0 x) \/
  kv_map (store t) !! node_hash x = Some (node_bytes 0 x).
Definition avail (t : RadixTreeImpl KV) (tr : tree) : Prop :=
  forall cs, in_tree tr cs -> node_avail t (items cs).

Lemma node_avail_keeps t t' x : keeps t t' -> node_avail t x -> node_avail t' x.
Proof.
  intros [Hs Hw _] [Hx|Hx]; [left; by eapply lookup_weaken|right]. by rewrite Hs.
Qed.
Lemma avail_keeps t t' tr : keeps t t' -> avail t tr -> avail t' tr.
Proof. intros Hk Ha cs Hcs. eapply node_avail_keeps, Ha; done. Qed.
Lemma persisted_avail t tr : persisted (store t) tr -> avail t tr.
Proof. intros Hp cs Hcs. right. by apply Hp. Qed.

(** A method that succeeds, with a postcondition. *)
Definition returns {A} (m : ST (RadixTreeImpl KV) (res RadixTreeError A))
    (t : RadixTreeImpl KV) (Φ : A -> RadixTreeImpl KV -> Prop) : Prop :=
  exists a t', m t = (Ok a, t') /\ keeps t t' /\ Φ a t'.

Lemma returns_bind {A B} m (k : A -> ST (RadixTreeImpl KV) (res RadixTreeError B)) t Φ Ψ :
  returns m t Φ -> (forall a t', keeps t t' -> Φ a t' -> returns (k a) t' Ψ) ->
  returns (try_bind m k) t Ψ.
Proof.
  intros (a & t' & Hm & Hk & Ha) Hcont. destruct (Hcont a t' Hk Ha) as (b & t'' & Hb & Hk' & HΨ).
  exists b, t''. unfold try_bind. rewrite Hm. split; [done|]. split; [|done].
  by eapply keeps_trans.
Qed.
Lemma returns_lift {A} (a : A) t (Φ : A -> RadixTreeImpl KV -> Prop) m :
  m = Ok a -> tree_inv t -> Φ a t -> returns (lift m) t Φ.
Proof. intros -> Hinv HΦ. exists a, t. split; [done|]. split; [by apply keeps_refl|done]. Qed.
Lemma returns_lift_bind {A B} m (a : A)
    (k : A -> ST (RadixTreeImpl KV) (res RadixTreeError B)) t Ψ :
  m = Ok a -> returns (k a) t Ψ -> returns (try_bind (lift m) k) t Ψ.
Proof. intros ->. done. Qed.
Lemma returns_impl {A} (m : ST (RadixTreeImpl KV) (res RadixTreeError A)) t
    (Φ Ψ : A -> RadixTreeImpl KV -> Prop) :
  returns m t Φ -> (forall a t', keeps t t' -> Φ a t' -> Ψ a t') -> returns m t Ψ.
Proof. intros (a & t' & Hm & Hk & Ha) HΨ. exists a, t'. auto. Qed.

(** ** Loading and saving *)

Lemma foldl_delete_subseteq {V} (m : gmap bytes V) keys :
  foldl (fun c key => delete key c) m keys ⊆ m.
Proof.
  revert m. induction keys as [|k keys IH]; intros m; [done|]. simpl.
  etrans; [apply IH|apply map_subseteq_spec]. intros i x. rewrite lookup_delete_Some. naive_solver.
Qed.

Lemma enforce_keeps t : tree_inv t -> keeps t (enforce_read_cache_bounds t).
Proof.
  intros [Hr Hw Hs]. unfold enforce_read_cache_bounds. case_decide; [by apply keeps_refl|].
  split; [done..|]. split; [|done..]. simpl. intros h x Hx. apply Hr.
  eapply lookup_weaken; [exact Hx|]. apply foldl_delete_subseteq.
Qed.

Lemma cache_read t x :
  tree_inv t -> U x -> keeps t (enforce_read_cache_bounds
                                 (set_cache_r (<[node_hash x := x]> (cache_r t)) t)).
Proof.
  intros [Hr Hw Hs] Hx. set (t1 := set_cache_r _ t).
  assert (tree_inv t1) as Hinv.
  { split; [|done..]. simpl. intros h y [[<- <-]|[_ Hy]]%lookup_insert_Some; [done|].
    by apply Hr. }
  destruct (enforce_keeps t1 Hinv) as [H1 H2 H3]. by split.
Qed.

Lemma decode_node_bytes x : node_ok x -> decode (E:=RadixTreeError) (node_bytes 0 x) = Ok x.
Proof.
  intros Hx. destruct (decode_encode (E:=RadixTreeError) x Hx) as (b & He & Hd).
  rewrite encode_spec in He by (by destruct Hx). by injection He as ->.
Qed.

(** Loading a stored node finds it, in the cache or in the store. *)
Lemma load_spec t x no_assert :
  tree_inv t -> U x -> kv_map (store t) !! node_hash x = Some (node_bytes 0 x) ->
  returns (load_node_arc (node_hash x) no_assert) t (fun a _ => a = x).
Proof.
  intros Hinv Hx Hst. unfold returns, load_node_arc.
  destruct (cache_r t !! node_hash x) as [y|] eqn:Hc.
  - destruct (inv_cache_r t Hinv _ _ Hc) as [Hy Heq]. exists y, t.
    split; [done|]. split; [by apply keeps_refl|]. by apply U_inj.
  - unfold try_bind, gets, load_node_from_store. rewrite kv_get_one_spec, Hst. simpl.
    rewrite decode_node_bytes by auto. simpl. eexists _, _. split; [done|].
    split; [by apply cache_read|done].
Qed.

(** Saving a node returns its hash and schedules it for [commit]. *)
Lemma save_spec t x :
  tree_inv t -> U x ->
  returns (save_node blake2b256 x) t (fun h t' => h = node_hash x /\ node_avail t' x).
Proof.
  intros Hinv Hx. unfold save_node.
  eapply returns_lift_bind; [by apply hash_node_spec, U_ok|]. cbv beta iota.
  assert (forall t1, keeps t t1 ->
    keeps t (set_cache_w (<[node_hash x := node_bytes 0 x]> (cache_w t1)) t1)) as Hput.
  { intros t1 [Hs Hw [Hr1 Hw1 Hs1]]. split; [done| |split; [done| |done]]; simpl.
    - apply map_subseteq_spec. intros h b Hb. apply lookup_insert_Some.
      destruct (decide (node_hash x = h)) as [<-|]; [left|right; by eauto using lookup_weaken].
      split; [done|]. destruct (inv_cache_w t Hinv _ _ Hb) as (y & Hy & Heq & ->).
      by rewrite (U_inj x y).
    - intros h b [[<- <-]|[_ Hb]]%lookup_insert_Some; [by exists x|by apply Hw1]. }
  unfold returns, try_bind, gets.
  destruct (cache_r t !! node_hash x) as [y|] eqn:Hc.
  - destruct (inv_cache_r t Hinv _ _ Hc) as [Hy Heq].
    rewrite (U_inj y x) by done. unfold lift. rewrite bool_decide_eq_true_2 by done. simpl.
    eexists _, _. split; [done|]. split; [by apply Hput, keeps_refl|].
    split; [done|]. left. simpl. apply lookup_insert_eq.
  - eexists _, _. split; [done|]. split; [by apply Hput, cache_read|].
    split; [done|]. left. simpl. apply lookup_insert_eq.
Qed.

(** ** [save_node_and_create_item] *)

Lemma filter_none {A} (P : A -> Prop) `{!forall x, Decision (P x)} (l : list A) :
  (forall i x, l !! i = Some x -> ~ P x) -> filter P l = [].
Proof.
  induction l as [|x l IH]; intros Hl; [done|].
  rewrite filter_cons_False by (by apply (Hl 0)). apply IH. intros i. apply (Hl (S i)).
Qed.
Lemma filter_one {A} (P : A -> Prop) `{!forall x, Decision (P x)} (l : list A) i x :
  l !! i = Some x -> P x -> (forall j y, l !! j = Some y -> j <> i -> ~ P y) ->
  filter P l = [x].
Proof.
  intros Hx HP Hoth. rewrite <-(take_drop_middle l i x Hx), filter_app, filter_cons_True by done.
  rewrite !filter_none; [done|..]; intros j y Hy.
  - rewrite lookup_drop in Hy. by eapply Hoth; [exact Hy|lia].
  - apply lookup_take_Some in Hy as [Hy Hj]. by eapply Hoth; [exact Hy|lia].
Qed.
Lemma filter_two {A} (P : A -> Prop) `{!forall x, Decision (P x)} (l : list A) i j x y :
  l !! i = Some x -> l !! j = Some y -> P x -> P y -> i <> j ->
  exists a b r, filter P l = a :: b :: r.
Proof.
  intros Hx Hy HPx HPy Hij.
  assert (exists a b r, a < b /\ l !! a = Some r /\ P r /\ exists r', l !! b = Some r' /\ P r')
    as (a & b & r & Hab & Ha & HPr & r' & Hb & HPr').
  { destruct (decide (i < j)); [exists i, j, x|exists j, i, y];
      (split; [lia|]); eauto. }
  rewrite <-(take_drop_middle l a r Ha), filter_app, filter_cons_True by done.
  assert (exists u v, filter P (drop (S a) l) = u :: v) as (u & v & ->).
  { destruct (filter P (drop (S a) l)) as [|u v] eqn:Hf; [exfalso|by exists u, v].
    apply (not_elem_of_nil r'). rewrite <-Hf, list_elem_of_filter. split; [done|].
    apply (list_elem_of_lookup_2 _ (b - S a)). rewrite lookup_drop.
    by replace (S a + (b - S a)) with b by lia. }
  destruct (filter P (take a l)) as [|w [|w' z]]; simpl; eauto.
Qed.

Lemma save_item_spec t p cs :
  tree_inv t -> U (items cs) ->
  returns (save_node_and_create_item blake2b256 (items cs) p false) t
    (fun it t' => it = item_of (TNode p cs) /\ node_avail t' (items cs)).
Proof.
  intros Hinv Hu. unfold save_node_and_create_item.
  eapply returns_bind; [by apply save_spec|]. intros h t' Hk [-> Ha].
  eapply returns_lift; [done|by eapply keeps_inv|done].
Qed.

Lemma lookup_items cs i c : cs !! i = Some c -> items cs !! i = Some (item_of c).
Proof. intros Hc. unfold items. by rewrite list_lookup_fmap, Hc. Qed.
Lemma lookup_items_inv cs i it :
  items cs !! i = Some it -> exists c, cs !! i = Some c /\ it = item_of c.
Proof. unfold items. rewrite list_lookup_fmap, fmap_Some. naive_solver. Qed.

(** With compaction the item is that of the compacted trie. *)
Lemma compact_item_spec t p cs :
  tree_inv t -> length cs = NUM_ITEMS -> (two_children cs -> U (items cs)) ->
  returns (save_node_and_create_item blake2b256 (items cs) p true) t
    (fun it t' => it = item_of (compact p cs) /\ (two_children cs -> node_avail t' (items cs))).
Proof.
  intros Hinv Hl Hu. unfold save_node_and_create_item.
  destruct (compact_cases p cs) as [[Hall ->]|[(i & c & Hi & Hne & Hall & ->)|[Htwo ->]]].
  - rewrite filter_none.
    + apply (returns_lift EmptyItem); [done..|]. split; [done|].
      intros (i & j & c & d & _ & Hi & _ & Hc & _). by apply Hall in Hi.
    + intros i x (c & Hc & ->)%lookup_items_inv. rewrite (Hall _ _ Hc). naive_solver.
  - assert (forall j y, items cs !! j = Some y -> j <> i -> y = EmptyItem) as Hempty.
    { intros j y (d & Hd & ->)%lookup_items_inv Hj. by rewrite (Hall _ _ Hd Hj). }
    assert (item_of c <> EmptyItem) as Hc by (by rewrite item_of_empty).
    rewrite (filter_one _ (items cs) i (item_of c));
      [|by apply lookup_items|done|intros j y Hy Hj; rewrite (Hempty j y); naive_solver].
    cbn [take].
    eapply (returns_lift_bind _ i).
    { apply unwrap_Ok, position_Some. exists (item_of c). split; [by apply lookup_items|].
      split; [by apply bool_decide_eq_true|]. intros j y Hj Hlt.
      apply bool_decide_eq_false. rewrite (Hempty j y Hj) by lia. done. }
    eapply returns_lift; [done..|]. split.
    + destruct c; simpl; by rewrite <- ?app_assoc.
    + intros (j & k & d & e & Hjk & Hj & Hk & Hd & He). exfalso.
      destruct (decide (j = i)) as [->|Hji].
      * by apply He, (Hall k).
      * by apply Hd, (Hall j).
  - pose proof Htwo as (i & j & c & d & Hij & Hi & Hj & Hc & Hd).
    edestruct (filter_two (fun item => item <> EmptyItem) (items cs) i j)
      as (x & y & r & Hf); [by apply lookup_items|by apply lookup_items|..];
      [by rewrite item_of_empty|by rewrite item_of_empty|done|].
    rewrite Hf. cbn [take].
    eapply returns_impl; [eapply (save_item_spec t p cs); auto|]. naive_solver.
Qed.

(** ** [update] and [delete] *)

(** What an operation that returns [Option<Item>] says: the item of the new trie, or
    [None] when the trie does not change. *)
Definition chosen (tr tr' : tree) (o : option Item) : Prop :=
  match o with Some it => it = item_of tr' | None => tr' = tr end.

Lemma two_items_spec b k v b' p mk y :
  mk p = item_of y ->
  two_items (b' :: p) (b :: k) mk v = Ok (items (fork b k v b' y)).
Proof.
  intros Hy. unfold two_items, fork. simpl.
  rewrite !items_insert, items_no_trees, Hy, !byte_to_int_nat. done.
Qed.

Lemma avail_fork t c b k v b' y :
  node_avail t (items (fork b k v b' y)) -> avail t y ->
  avail t (TNode c (fork b k v b' y)).
Proof.
  intros Hn Hy ds [->|Hin]%in_tree_node; [done|].
  apply in_forest_insert in Hin as [Hin|Hin]; [inversion Hin|].
  apply in_forest_insert in Hin as [Hin|(i & d & ->%lookup_no_trees & Hin)];
    [by apply Hy|inversion Hin].
Qed.

Lemma save_fork_spec t c b k v b' y :
  tree_inv t -> persisted (store t) y -> covered (TNode c (fork b k v b' y)) ->
  returns (it <- save_node_and_create_item blake2b256 (items (fork b k v b' y)) c false ;?
           lift (Ok (Some it))) t
    (fun o t' => o = Some (item_of (TNode c (fork b k v b' y))) /\
       avail t' (TNode c (fork b k v b' y)))%res.
Proof.
  intros Hinv Hp Hcov.
  eapply returns_bind; [apply save_item_spec; [done|apply Hcov; constructor]|].
  intros it t' Hk [-> Ha]. eapply returns_lift; [done|by eapply keeps_inv|].
  split; [done|]. apply avail_fork; [done|].
  by eapply avail_keeps, persisted_avail.
Qed.

Lemma common_prefix_self p : common_prefix p p = (p, [], []).
Proof. rewrite <-(app_nil_r p) at 1. apply common_prefix_app. Qed.

Lemma avail_leaf t p v : avail t (TLeaf p v).
Proof. intros cs Hin. inversion Hin. Qed.
Lemma avail_empty t : avail t TEmpty.
Proof. intros cs Hin. inversion Hin. Qed.

(** A node whose child [b] is replaced. *)
Lemma avail_node_insert t p cs b c' :
  node_avail t (items (<[byte_to_nat b := c']> cs)) -> avail t c' -> avail t (TNode p cs) ->
  avail t (TNode p (<[byte_to_nat b := c']> cs)).
Proof.
  intros Hn Hc Hcs ds [->|Hin]%in_tree_node; [done|].
  apply in_forest_insert in Hin as [Hin|Hin]; [by apply Hc|]. apply Hcs, in_tree_node. by right.
Qed.

Section below_node.
Context (t : RadixTreeImpl KV) (n : nat) (p : bytes) (cs : forest) (b : byte) (c : tree).
Context (Hf : wf_forest n cs) (Hc : cs !! byte_to_nat b = Some c).

Lemma child_persisted s : persisted s (TNode p cs) -> persisted s c.
Proof. intros Hp ds Hd. apply Hp, in_tree_node. right. by exists (byte_to_nat b), c. Qed.
Lemma child_covered : covered (TNode p cs) -> covered c.
Proof. intros Hp ds Hd. apply Hp, in_tree_node. right. by exists (byte_to_nat b), c. Qed.
Lemma new_child_in c' ds :
  in_tree c' ds -> in_forest (<[byte_to_nat b := c']> cs) ds.
Proof. apply in_forest_here. by eapply lookup_lt_Some. Qed.
End below_node.

Lemma insert_child_spec (upd : Item -> bytes -> bytes ->
    ST (RadixTreeImpl KV) (res RadixTreeError (option Item))) t n p cs b d k v :
  wf_forest n cs -> cs !! byte_to_nat b = Some d -> tree_inv t ->
  persisted (store t) (TNode p cs) -> covered (TNode p cs) ->
  covered (tset (TNode p cs) (p ++ b :: k) v) ->
  (forall t1, keeps t t1 -> returns (upd (item_of d) k v) t1
     (fun o t' => chosen d (tset d k v) o /\ avail t' (tset d k v))) ->
  returns (insert_new_node_to_child blake2b256 upd v (node_hash (items cs)) p (b :: k)) t
    (fun o t' => chosen (TNode p cs) (tset (TNode p cs) (p ++ b :: k) v) o /\
       avail t' (tset (TNode p cs) (p ++ b :: k) v)).
Proof.
  intros Hf Hd Hinv Hp Hcov. rewrite (tset_node p cs k v b d Hd). intros Hcov' Hupd.
  unfold insert_new_node_to_child.
  eapply returns_bind; [apply load_spec; [done|apply Hcov; constructor|apply Hp; constructor]|].
  intros x t1 Hk1 ->. eapply returns_lift_bind; [done|]. cbv beta iota.
  rewrite byte_to_int_nat. eapply returns_lift_bind; [by apply unwrap_Ok, lookup_items|].
  eapply returns_bind; [by apply Hupd|]. intros [it|] t2 Hk2 [Ho Ha]; simpl in Ho; subst.
  - rewrite <-items_insert.
    eapply returns_bind; [apply save_item_spec; [by eapply keeps_inv|apply Hcov'; constructor]|].
    intros it t3 Hk3 [-> Hn]. eapply returns_lift; [done|by eapply keeps_inv|].
    split; [done|]. apply avail_node_insert; [done|by eapply avail_keeps|].
    eapply avail_keeps, persisted_avail, Hp. by eapply keeps_trans, keeps_trans.
  - rewrite Ho, list_insert_id by done. eapply returns_lift; [done|by eapply keeps_inv|].
    split; [done|]. eapply avail_keeps, persisted_avail, Hp. by eapply keeps_trans.
Qed.

Lemma update_spec n tr fuel k v t :
  wf_tree n tr -> length k = n -> n < fuel -> tree_inv t ->
  persisted (store t) tr -> covered tr -> covered (tset tr k v) ->
  returns (update blake2b256 fuel (item_of tr) k v) t
    (fun o t' => chosen tr (tset tr k v) o /\ avail t' (tset tr k v)).
Proof.
  intros Hwf. revert fuel k t.
  induction Hwf as [n|p w Hw|n p cs Hl Hcs IH Htwo];
    intros [|fuel] k t Hk Hfuel Hinv Hp Hcov Hcov'; try lia.
  - apply (returns_lift (Some (Leaf k v))); [done..|]. split; [done|apply avail_leaf].
  - cbn [update item_of]. eapply (returns_lift_bind _ tt);
      [apply assert_Ok; by apply bool_decide_eq_true|].
    destruct (decide (p = k)) as [<-|Hne].
    + cbn [tset]. rewrite common_prefix_self. destruct (decide (v = w)) as [<-|Hvw].
      * apply (returns_lift None); [done..|]. split; [done|apply avail_leaf].
      * apply (returns_lift (Some (Leaf p v))); [done..|]. split; [done|apply avail_leaf].
    + revert Hcov'. cbn [tset]. destruct (common_prefix k p) as [[c l] r] eqn:Hcp.
      apply common_prefix_same_length in Hcp
        as [(-> & _)|(b & k1 & b' & p1 & -> & -> & Hbb & -> & -> & _)]; [done| |done]. intros Hcov'.
      eapply returns_lift_bind; [by apply (two_items_spec _ _ _ _ _ _ (TLeaf p1 w))|].
      eapply returns_impl; [apply save_fork_spec; [done| |done]|].
      * intros ds Hd. inversion Hd.
      * intros o t' _ [-> Ha]. done.
  - assert (wf_forest n cs) as Hf by done. cbn [update item_of].
    eapply (returns_lift_bind _ tt); [apply assert_Ok; apply bool_decide_eq_true; lia|].
    destruct (common_prefix k p) as [[c l] r] eqn:Hcp.
    pose proof Hcp as Hcp'. apply common_prefix_longer in Hcp
      as [(b & k1 & -> & -> & -> & ->)|(b & k1 & b' & p1 & -> & -> & Hne & -> & ->)]; [..|lia].
    + destruct (forest_lookup n cs b Hf) as [d Hd]. rewrite length_app in Hk. simpl in Hk.
      apply (insert_child_spec _ _ n _ _ _ d); [done..|]. intros t1 Hk1.
      apply (IH _ _ Hd); [lia..|by eapply keeps_inv| |by eapply child_covered|].
      * rewrite (keeps_store _ _ Hk1). by eapply child_persisted.
      * intros ds Hds. apply Hcov'. rewrite (tset_node p cs k1 v b d Hd).
        apply in_tree_node. right. by eapply new_child_in.
    + revert Hcov'. cbn [tset]. rewrite Hcp'. intros Hcov'.
      eapply returns_lift_bind; [by apply (two_items_spec _ _ _ _ _ _ (TNode p1 cs))|].
      eapply returns_impl; [apply save_fork_spec; [done| |done]|].
      * intros ds Hd. apply Hp. by rewrite in_tree_node in *.
      * intros o t' _ [-> Ha]. done.
Qed.

(** Availability after compaction. *)
Lemma avail_compact t p cs :
  (two_children cs -> node_avail t (items cs)) ->
  (forall ds, in_forest cs ds -> node_avail t (items ds)) -> avail t (compact p cs).
Proof. intros Htwo Hcs ds [Hin|[-> H2]]%in_tree_compact; auto. Qed.

Lemma delete_child_spec (del : Item -> bytes ->
    ST (RadixTreeImpl KV) (res RadixTreeError (option Item))) t n p cs b d k :
  wf_forest n cs -> two_children cs -> cs !! byte_to_nat b = Some d -> tree_inv t ->
  persisted (store t) (TNode p cs) -> covered (TNode p cs) ->
  covered (tdel (TNode p cs) (p ++ b :: k)) ->
  (forall t1, keeps t t1 -> returns (del (item_of d) k) t1
     (fun o t' => chosen d (tdel d k) o /\ avail t' (tdel d k))) ->
  returns (delete_from_child_node blake2b256 del (node_hash (items cs)) p (b :: k)) t
    (fun o t' => chosen (TNode p cs) (tdel (TNode p cs) (p ++ b :: k)) o /\
       avail t' (tdel (TNode p cs) (p ++ b :: k))).
Proof.
  intros Hf Htwo Hd Hinv Hp Hcov. rewrite (tdel_node p cs k b d Hd). intros Hcov' Hdel.
  unfold delete_from_child_node.
  eapply returns_bind; [apply load_spec; [done|apply Hcov; constructor|apply Hp; constructor]|].
  intros x t1 Hk1 ->. eapply returns_lift_bind; [done|]. cbv beta iota.
  rewrite byte_to_int_nat. eapply returns_lift_bind; [by apply unwrap_Ok, lookup_items|].
  eapply returns_bind; [by apply Hdel|]. intros [it|] t2 Hk2 [Ho Ha]; simpl in Ho; subst.
  - rewrite <-items_insert. eapply returns_bind.
    { apply compact_item_spec; [by eapply keeps_inv|rewrite length_insert; apply Hf|].
      intros H2. apply Hcov'. rewrite compact_two by done. constructor. }
    intros it t3 Hk3 [-> Hn]. eapply returns_lift; [done|by eapply keeps_inv|].
    split; [done|]. apply avail_compact; [done|].
    assert (avail t3 (TNode p cs)) as Hold.
    { eapply avail_keeps, persisted_avail, Hp. by eapply keeps_trans, keeps_trans. }
    intros ds [Hin|Hin]%in_forest_insert; [by eapply avail_keeps|].
    apply Hold, in_tree_node. by right.
  - rewrite Ho, list_insert_id, compact_two by done.
    eapply returns_lift; [done|by eapply keeps_inv|].
    split; [done|]. eapply avail_keeps, persisted_avail, Hp. by eapply keeps_trans.
Qed.

Lemma delete_spec n tr fuel k t :
  wf_tree n tr -> length k < fuel -> tree_inv t ->
  persisted (store t) tr -> covered tr -> covered (tdel tr k) ->
  returns (delete_item blake2b256 fuel (item_of tr) k) t
    (fun o t' => chosen tr (tdel tr k) o /\ avail t' (tdel tr k)).
Proof.
  intros Hwf. revert fuel k t.
  induction Hwf as [n|p w Hw|n p cs Hl Hcs IH Htwo];
    intros [|fuel] k t Hfuel Hinv Hp Hcov Hcov'; try lia.
  - apply (returns_lift None); [done..|]. split; [done|apply avail_empty].
  - cbn [delete_item item_of tdel]. eapply returns_lift; [done..|].
    case_decide; (split; [done|]); [apply avail_empty|apply avail_leaf].
  - assert (wf_forest n cs) as Hf by done. cbn [delete_item item_of].
    destruct (common_prefix k p) as [[c l] r] eqn:Hcp.
    assert ((forall b k', ~ (l = b :: k' /\ r = [])) -> tdel (TNode p cs) k = TNode p cs) as Hsame.
    { intros Hnot. cbn [tdel]. rewrite Hcp. destruct l as [|b k'], r; try done.
      by destruct (Hnot b k'). }
    assert ((forall b k', ~ (l = b :: k' /\ r = [])) ->
      returns (lift (Ok None)) t (fun o t' => chosen (TNode p cs) (tdel (TNode p cs) k) o /\
        avail t' (tdel (TNode p cs) k))) as Hnone.
    { intros Hnot. apply (returns_lift None); [done..|]. rewrite Hsame by done.
      split; [done|by apply persisted_avail]. }
    destruct l as [|b k1], r as [|b' p1]; try (apply Hnone; naive_solver).
    clear Hsame Hnone. apply common_prefix_spec in Hcp as (-> & -> & _).
    rewrite app_nil_r in *. destruct (forest_lookup n cs b Hf) as [d Hd].
    rewrite length_app in Hfuel. simpl in Hfuel.
    apply (delete_child_spec _ _ n _ _ _ d); [done..|]. intros t1 Hk1.
    apply (IH _ _ Hd); [lia|by eapply keeps_inv| |by eapply child_covered|].
    + rewrite (keeps_store _ _ Hk1). by eapply child_persisted.
    + intros ds Hds. apply Hcov'. rewrite (tdel_node c cs k1 b d Hd).
      apply in_tree_compact_below. by eapply new_child_in.
Qed.
End refine.
