(* ===== verification/RadixActions.v ===== *)
(** * Batches of actions on the radix tree

    [read] and [make_actions] of [radix_tree.rs] simulate reading a trie and applying a
    list of changes to it, whatever way the batch is split into groups. *)
From S2P Require Import Prelude HotStoreSig KeyValueStore RadixCodec RadixTree RadixSpec.
From S2P Require Import RadixRefine.

(** ** Groups of actions *)

Definition change_of (a : HistoryAction) : change :=
  match a with HistoryInsert k h => (k, Some h) | HistoryDelete k => (k, None) end.
Lemma change_of_key a : (change_of a).1 = action_key a.
Proof. by destruct a. Qed.

(** The actions on keys that start with a byte. *)
Definition acts_at (b : byte) (actions : list HistoryAction) : list HistoryAction :=
  filter (fun a => head (action_key a) = Some b) actions.

Lemma group_action_spec actions m :
  Forall (fun a => action_key a <> []) actions ->
  exists groups, res_foldM group_action m actions = Ok groups /\ forall b,
    groups !! b = match acts_at b actions with
                  | [] => m !! b
                  | l => Some (default [] (m !! b) ++ l)
                  end.
Proof.
  intros Hk. revert m. induction Hk as [|a actions Ha Hk IH]; intros m; [by exists m|].
  simpl. unfold group_action at 1. destruct (action_key a) as [|b0 k0] eqn:Hkey; [done|].
  simpl. destruct (IH (<[b0 := default [] (m !! b0) ++ [a]]> m)) as (groups & Hg & Hl).
  exists groups. split; [done|]. intros b. rewrite Hl. unfold acts_at.
  rewrite filter_cons, Hkey. simpl. destruct (decide (b0 = b)) as [<-|Hne].
  - rewrite decide_True, lookup_insert_eq by done. simpl.
    destruct (filter _ actions); [done|]. by rewrite <-app_assoc.
  - rewrite decide_False, lookup_insert_ne by congruence. done.
Qed.

(** [grouping] splits the batch by first byte: one group for each byte that occurs, with
    all its actions in order. *)
Lemma grouping_spec actions :
  Forall (fun a => action_key a <> []) actions ->
  exists groups, grouping actions = Ok groups /\ NoDup groups.*1 /\
    forall b g, (b, g) ∈ groups <-> g = acts_at b actions /\ g <> [].
Proof.
  intros Hk. destruct (group_action_spec actions ∅ Hk) as (m & Hm & Hl).
  unfold grouping. rewrite Hm. eexists. split; [done|].
  pose proof (sort_by_perm (fun x y : byte * list HistoryAction => byte_cmp x.1 y.1)
    (map_to_list m)) as Hp.
  split; [rewrite Hp; apply NoDup_fst_map_to_list|]. intros b g.
  rewrite Hp, elem_of_map_to_list, Hl, lookup_empty. simpl.
  destruct (acts_at b actions); naive_solver.
Qed.

Lemma omap_below_acts_at b actions :
  omap (below b) (change_of <$> actions) = omap (below b) (change_of <$> acts_at b actions).
Proof.
  unfold acts_at. induction actions as [|a actions IH]; [done|]. csimpl.
  rewrite filter_cons. rewrite IH. unfold below at 1. rewrite change_of_key.
  destruct (action_key a) as [|b' k] eqn:Hk; simpl; [done|].
  destruct (decide (b' = b)) as [->|Hne].
  - rewrite decide_True by done. csimpl. unfold below at 2.
    rewrite change_of_key, Hk, decide_True by done. done.
  - rewrite decide_False by congruence. done.
Qed.

Lemma below_change b a : head (action_key a) = Some b ->
  exists k, action_key a = b :: k /\ below b (change_of a) = Some (k, (change_of a).2).
Proof.
  intros Hh. unfold below. rewrite change_of_key.
  destruct (action_key a) as [|b' k]; [done|]. simpl in Hh. injection Hh as ->.
  exists k. by rewrite decide_True.
Qed.

(** Trimming the first byte of the keys of a group. *)
Lemma trim_keys_spec b g :
  Forall (fun a => head (action_key a) = Some b) g ->
  exists g', trim_keys g = Ok g' /\ change_of <$> g' = omap (below b) (change_of <$> g).
Proof.
  intros Hg. induction Hg as [|a g Ha Hg (g' & Hg' & Heq)]; [by exists []|].
  destruct (below_change b a Ha) as (k & Hk & Hb).
  exists ((match a with HistoryInsert _ h => HistoryInsert k h
                      | HistoryDelete _ => HistoryDelete k end) :: g').
  split.
  - unfold trim_keys in *. destruct a; simpl in *; subst; simpl; by rewrite Hg'.
  - rewrite !fmap_cons. cbn [omap list_omap]. rewrite Hb, <-Heq. by destruct a.
Qed.

Lemma acts_at_head b actions :
  Forall (fun a => head (action_key a) = Some b) (acts_at b actions).
Proof. apply Forall_forall. intros a Ha. by apply list_elem_of_filter in Ha as [? _]. Qed.

Lemma below_NoDup b g :
  Forall (fun a => head (action_key a) = Some b) g -> NoDup (action_key <$> g) ->
  NoDup (fst <$> omap (below b) (change_of <$> g)).
Proof.
  intros Hg. induction Hg as [|a g Ha Hg IH]; [done|]. csimpl. intros [Hnot Hnd]%NoDup_cons.
  destruct (below_change b a Ha) as (k & Hk & Hb). rewrite Hb. csimpl. apply NoDup_cons.
  split; [|by apply IH]. intros Hin. apply Hnot. rewrite Hk.
  apply list_elem_of_fmap in Hin as ([k' o] & -> & Hin).
  apply list_elem_of_omap in Hin as (ch & Hch & Hb').
  apply list_elem_of_fmap in Hch as (a' & -> & Ha').
  rewrite Forall_forall in Hg. destruct (below_change b a' (Hg _ Ha')) as (k'' & Hk'' & Hb'').
  rewrite Hb' in Hb''. simplify_eq. simpl. rewrite <-Hk''. by apply list_elem_of_fmap_2.
Qed.

(** ** Writing the changed items *)

Lemma set_items_cons node i o l :
  set_items node ((i, o) :: l) =
  set_items (match o with Some it => <[i := it]> node | None => node end) l.
Proof. done. Qed.

Lemma length_set_items node l : length (set_items node l) = length node.
Proof.
  revert node. induction l as [|[i o] l IH]; intros node; [done|].
  rewrite set_items_cons, IH. destruct o; [apply length_insert|done].
Qed.

Lemma set_items_other node l i :
  i ∉ l.*1 -> set_items node l !! i = node !! i.
Proof.
  revert node. induction l as [|[j o] l IH]; intros node Hi; [done|].
  csimpl in Hi. apply not_elem_of_cons in Hi as [Hne Hi].
  rewrite set_items_cons, IH by done. destruct o; [by rewrite list_lookup_insert_ne|done].
Qed.

Lemma set_items_in node l i o x :
  NoDup l.*1 -> (i, o) ∈ l -> node !! i = Some x ->
  set_items node l !! i = Some (default x o).
Proof.
  revert node. induction l as [|[j o'] l IH]; intros node Hnd Hin Hx.
  { by apply elem_of_nil in Hin. }
  csimpl in Hnd. apply NoDup_cons in Hnd as [Hnot Hnd]. rewrite set_items_cons.
  apply elem_of_cons in Hin as [[= -> ->]|Hin].
  - rewrite set_items_other by done. destruct o'; [|done].
    apply list_lookup_insert_eq. by eapply lookup_lt_Some.
  - apply IH; [done..|]. destruct o' as [it|]; [|done].
    rewrite list_lookup_insert_ne; [done|]. intros ->. apply Hnot.
    apply list_elem_of_fmap. by exists (i, o).
Qed.

Section actions.
Context {KV : Type} `{!KeyValueStore KV, !KeyValueStoreLaws KV, !DashOrder, !DashOrderLaws}.
Context (blake2b256 : bytes -> bytes).
Context (blake_length : forall b, length (blake2b256 b) = DEF_SIZE).
Context (U : Node -> Prop).
Context (U_ok : forall x, U x -> node_ok x).
Context (U_inj : forall x y, U x -> U y ->
  node_hash blake2b256 x = node_hash blake2b256 y -> x = y).

Abbreviation items := (items blake2b256).
Abbreviation item_of := (item_of blake2b256).
Abbreviation node_hash := (node_hash blake2b256).
Abbreviation tree_inv := (tree_inv blake2b256 U).
Abbreviation keeps := (keeps blake2b256 U).
Abbreviation returns := (returns blake2b256 U).
Abbreviation covered := (covered blake2b256 U).
Abbreviation covered_forest := (covered_forest blake2b256 U).
Abbreviation persisted := (persisted blake2b256).
Abbreviation avail := (avail blake2b256).
Abbreviation node_avail := (node_avail blake2b256).

Definition persisted_forest (s : KV) (cs : forest) : Prop :=
  forall i c, cs !! i = Some c -> persisted s c.
Definition avail_forest (t : RadixTreeImpl KV) (cs : forest) : Prop :=
  forall i c, cs !! i = Some c -> avail t c.

Lemma persisted_node s p cs : persisted s (TNode p cs) -> persisted_forest s cs.
Proof. intros Hp i c Hc ds Hd. apply Hp, in_tree_node. right. by exists i, c. Qed.
Lemma covered_node p cs : covered (TNode p cs) -> covered_forest cs.
Proof. intros Hp ds Hd. apply Hp, in_tree_node. by right. Qed.

(** ** [read] *)

Lemma read_at_spec fuel n cs k t :
  wf_forest n cs -> length k < fuel -> tree_inv t ->
  persisted_forest (store t) cs -> covered_forest cs ->
  returns (read_at_cached fuel (items cs) k) t (fun a _ => a = fget cs k).
Proof.
  revert n cs k t. induction fuel as [|fuel IH]; intros n cs k t Hf Hk Hinv Hp Hcov; [lia|].
  cbn [read_at_cached]. destruct k as [|b k]; [by eapply returns_lift|].
  destruct (forest_lookup n cs b Hf) as [c Hc]. rewrite byte_to_int_nat.
  eapply returns_lift_bind; [by apply unwrap_Ok, lookup_items|]. simpl fget. rewrite Hc.
  destruct c as [|p v|p ds]; cbn [RadixRefine.item_of]; [by eapply returns_lift..|].
  destruct (decide (p `prefix_of` k)) as [[k' ->]|Hpre];
    [|eapply returns_lift; [done..|by rewrite tget_node_ne]].
  rewrite drop_app_length, tget_node. unfold read_at_from_ptr.
  destruct k' as [|b' k']; [by eapply returns_lift|].
  destruct (wf_node_inv n p ds) as (m & _ & Hds & _); [by eapply forest_trees|].
  assert (covered (TNode p ds)) as Hcov' by (intros es He; apply Hcov; by eexists _, _).
  eapply returns_bind.
  { apply load_spec; [done..|apply Hcov'; constructor|eapply Hp; [done|constructor]]. }
  intros x t1 Hk1 ->. eapply IH; [done| |by eapply keeps_inv| |by eapply covered_node].
  - simpl in Hk. rewrite length_app in Hk. simpl in *. lia.
  - rewrite (keeps_store _ _ _ _ Hk1). by eapply persisted_node, Hp.
Qed.

(** ** [construct_node_from_item] *)

Lemma construct_spec n c t :
  wf_tree (S n) c -> tree_inv t -> persisted (store t) c -> covered c ->
  returns (construct_node_from_item (item_of c)) t (fun a _ => a = items (expand c)).
Proof.
  intros Hwf Hinv Hp Hcov. unfold construct_node_from_item.
  destruct c as [|[|b p] v|[|b p] cs]; cbn [RadixRefine.item_of create_node_from_item split_first].
  - eapply returns_lift; [done..|]. symmetry. apply items_no_trees.
  - by apply wf_leaf_inv in Hwf as [? _].
  - eapply returns_lift; [done..|]. simpl expand.
    by rewrite items_insert, items_no_trees, byte_to_int_nat.
  - apply load_spec; [done..|apply Hcov; constructor|apply Hp; constructor].
  - eapply returns_lift; [done..|]. simpl expand.
    by rewrite items_insert, items_no_trees, byte_to_int_nat.
Qed.

(** Only nodes of the run occur in the items of covered tries, so items determine them. *)
Lemma item_of_inj n c d :
  wf_tree n c -> wf_tree n d -> covered c -> covered d -> item_of c = item_of d -> c = d.
Proof.
  intros Hc. revert d. induction Hc as [n|p v Hv|n p cs Hl Hcs IH Htwo];
    intros [|q w|q ds] Hd Hcc Hcd Heq; try done; simpl in Heq; [by simplify_eq|].
  injection Heq as -> Hh.
  apply U_inj in Hh; [|apply (Hcc cs); constructor|apply (Hcd ds); constructor].
  apply wf_node_inv in Hd as (m & Hm & [Hl' Hds] & _). assert (m = n) as -> by lia.
  f_equal. apply list_eq_same_length with NUM_ITEMS; [done..|]. intros i c d Hi Hci Hdi.
  apply (IH i c Hci); [by eapply Hds| | |].
  - intros es He. apply Hcc. by eapply in_below.
  - intros es He. apply Hcd. by eapply in_below.
  - apply (f_equal (.!! i)) in Hh. rewrite !list_lookup_fmap, Hci, Hdi in Hh. by injection Hh.
Qed.

Lemma items_inj n cs ds :
  wf_forest n cs -> wf_forest n ds -> covered_forest cs -> covered_forest ds ->
  items cs = items ds -> cs = ds.
Proof.
  intros [Hl Hcs] [Hl' Hds] Hcc Hcd Heq. apply list_eq_same_length with NUM_ITEMS; [done..|].
  intros i c d Hi Hci Hdi. apply (item_of_inj n); [by eapply Hcs|by eapply Hds|..].
  - intros es He. apply Hcc. by exists i, c.
  - intros es He. apply Hcd. by exists i, d.
  - apply (f_equal (.!! i)) in Heq. unfold RadixRefine.items in Heq.
    rewrite !list_lookup_fmap, Hci, Hdi in Heq. by injection Heq.
Qed.

(** ** Groups *)

(** The new subtree at a byte. *)
Definition child_after (b : byte) (actions : list HistoryAction) (c : tree) : tree :=
  foldl tact c (omap (below b) (change_of <$> actions)).
Abbreviation actions_ok n actions := (Forall (change_ok (S n)) (change_of <$> actions)).

Definition group_result (b : byte) (c c' : tree) (r : nat * option Item)
    (t : RadixTreeImpl KV) : Prop :=
  r.1 = byte_to_nat b /\ chosen blake2b256 c c' r.2 /\ avail t c'.

Lemma process_one_spec n b a c t :
  head (action_key a) = Some b -> change_ok (S n) (change_of a) -> wf_tree n c ->
  tree_inv t -> persisted (store t) c -> covered c -> covered (child_after b [a] c) ->
  returns (process_one_action blake2b256 a (item_of c) (byte_to_nat b)) t
    (group_result b c (child_after b [a] c)).
Proof.
  intros Hh [Hlen _] Hwf Hinv Hp Hcov. unfold child_after. csimpl.
  destruct (below_change b a Hh) as (k & Hk & ->). rewrite change_of_key, Hk in Hlen.
  simpl in Hlen. intros Hcov'. unfold process_one_action.
  set (c' := foldl tact c [(k, (change_of a).2)]) in *.
  eapply (returns_bind _ _ _ _ _ (fun o t' => chosen blake2b256 c c' o /\ avail t' c')).
  - unfold c' in *. clear c'. destruct a as [key h|key]; simpl in Hk; subst key; cbn [split_first];
      (eapply returns_lift_bind; [done|]); cbn [snd].
    + apply (update_spec _ _ U_ok U_inj n); try done; simpl in *; lia.
    + apply (delete_spec _ _ U_ok U_inj n); try done; simpl in *; lia.
  - intros o t1 Hk1 [Ho Ha]. by eapply returns_lift; [|by eapply keeps_inv|].
Qed.

(** What [make_actions] promises at a level; the closures are verified against it. *)
Definition make_ok (n : nat)
    (mk : Node -> list HistoryAction -> ST (RadixTreeImpl KV) (res RadixTreeError (option Node))) :
  Prop :=
  forall cs actions t,
    wf_forest n cs -> actions_ok n actions -> NoDup (action_key <$> actions) ->
    tree_inv t -> persisted_forest (store t) cs -> covered_forest cs ->
    let cs' := foldl fact cs (change_of <$> actions) in
    covered_forest cs' ->
    returns (mk (items cs) actions) t (fun o t' =>
      match o with Some x => x = items cs' | None => cs' = cs end /\ avail_forest t' cs').

Lemma tacts_empty_deletes acts :
  Forall (fun a : change => a.2 = None) acts -> foldl tact TEmpty acts = TEmpty.
Proof. intros Hd. induction Hd as [|[k o] acts Ha Hd IH]; [done|]. simpl in *. by subst o. Qed.

Lemma no_inserts actions b :
  existsb is_insert actions = false ->
  Forall (fun a : change => a.2 = None) (omap (below b) (change_of <$> actions)).
Proof.
  intros He. apply Forall_forall. intros ch (ch' & (a & -> & Ha)%list_elem_of_fmap & Hb)%list_elem_of_omap.
  assert (is_insert a = false) as Hi.
  { apply not_true_iff_false. intros Hi. apply not_true_iff_false in He. apply He.
    apply existsb_exists. exists a. split; [by apply list_elem_of_In|done]. }
  destruct a as [k h|k]; [done|]. unfold below in Hb. simpl in Hb.
  destruct k as [|b' k]; [done|]. case_decide; by simplify_eq.
Qed.

Lemma trim_keys_key b g g' : Forall (fun a => head (action_key a) = Some b) g ->
  trim_keys g = Ok g' -> change_of <$> g' = omap (below b) (change_of <$> g).
Proof. intros Hg Ht. destruct (trim_keys_spec b g Hg) as (g'' & Ht' & <-). congruence. Qed.

Lemma process_non_empty_spec n mk b g cs c t :
  make_ok n mk -> cs !! byte_to_nat b = Some c -> wf_tree (S n) c ->
  Forall (fun a => head (action_key a) = Some b) g -> NoDup (action_key <$> g) ->
  actions_ok (S n) g -> tree_inv t -> persisted (store t) c -> covered c ->
  covered (child_after b g c) ->
  returns (process_non_empty_actions blake2b256 mk (items cs) g (byte_to_nat b)) t
    (group_result b c (child_after b g c)).
Proof.
  intros Hmk Hc Hwf Hg Hnd Hok Hinv Hp Hcov. unfold child_after.
  destruct (trim_keys_spec b g Hg) as (g' & Ht & Heq).
  pose proof (below_ok _ b _ Hok) as Hok'. pose proof (below_NoDup b g Hg Hnd) as Hnd'.
  rewrite <-Heq in *. set (F := foldl fact (expand c) (change_of <$> g')).
  pose proof (expand_facts_compact n c (change_of <$> g') Hwf Hok') as Hcomp. fold F in Hcomp.
  rewrite <-Hcomp. intros Hcov'.
  assert (wf_forest n F) as HF by (apply wf_facts; [by apply wf_expand|done]).
  unfold process_non_empty_actions.
  eapply returns_lift_bind; [by apply unwrap_Ok, lookup_items|].
  eapply returns_bind; [by eapply construct_spec|]. intros x t1 Hk1 ->.
  eapply returns_lift_bind; [done|]. eapply returns_bind.
  { apply (Hmk (expand c) g'); [by apply wf_expand|done| |by eapply keeps_inv|..].
    - rewrite <-list_fmap_compose in Hnd'. erewrite list_fmap_ext; [exact Hnd'|].
      intros i a _. by rewrite <-change_of_key.
    - rewrite (keeps_store _ _ _ _ Hk1). intros i d Hd ds Hds. apply Hp, in_expand. by exists i, d.
    - intros ds Hds. by apply Hcov, in_expand.
    - intros ds Hds. by apply Hcov', in_tree_compact_below. }
  fold F. intros [x|] t2 Hk2 [Hx Ha].
  - subst x. eapply returns_bind.
    { apply (compact_item_spec blake2b256 U U_ok U_inj); [by eapply keeps_inv|apply HF|].
      intros H2. apply Hcov'. rewrite compact_two by done. constructor. }
    intros it t3 Hk3 [-> Hn]. eapply returns_lift; [done|by eapply keeps_inv|].
    split; [done|]. split; [done|]. apply avail_compact; [done|].
    intros ds (i & d & Hd & Hds). by eapply node_avail_keeps, (Ha i d).
  - assert (compact [] F = c) as ->.
    { rewrite Hx. apply (expand_facts_compact n c []); [done|constructor]. }
    eapply returns_lift; [done|by eapply keeps_inv|]. split; [done|]. split; [done|].
    eapply avail_keeps, persisted_avail, Hp. by eapply keeps_trans.
Qed.

Lemma child_after_acts_at b actions c :
  child_after b actions c = child_after b (acts_at b actions) c.
Proof. unfold child_after. by rewrite omap_below_acts_at. Qed.

Lemma process_group_spec n mk b actions cs c t :
  (forall m, n = S m -> make_ok m mk) -> wf_forest n cs -> cs !! byte_to_nat b = Some c ->
  actions_ok n actions -> NoDup (action_key <$> actions) -> acts_at b actions <> [] ->
  tree_inv t -> persisted (store t) c -> covered c -> covered (child_after b actions c) ->
  returns (process_group blake2b256 mk (items cs) (b, acts_at b actions)) t
    (group_result b c (child_after b actions c)).
Proof.
  intros Hmk Hf Hc Hok Hnd Hne Hinv Hp Hcov. rewrite child_after_acts_at.
  pose proof (acts_at_head b actions) as Hg.
  assert (actions_ok n (acts_at b actions)) as Hokg.
  { rewrite Forall_fmap, Forall_forall in *. intros a [_ Ha]%list_elem_of_filter. by apply Hok. }
  assert (NoDup (action_key <$> acts_at b actions)) as Hndg.
  { eapply sublist_NoDup; [exact Hnd|]. apply fmap_sublist, sublist_filter. }
  assert (wf_tree n c) as Hwf by (by eapply forest_trees).
  intros Hcov'. unfold process_group. rewrite byte_to_int_nat.
  eapply returns_lift_bind; [by apply unwrap_Ok, lookup_items|].
  remember (acts_at b actions) as g. clear Heqg Hok Hnd actions.
  destruct g as [|a [|a' g]]; [done|..].
  { apply Forall_cons in Hg as [Ha _]. apply Forall_cons in Hokg as [Hoka _].
    by apply (process_one_spec n). }
  destruct n as [|m].
  { exfalso. apply Forall_cons in Hg as [Ha [Ha' _]%Forall_cons].
    apply Forall_cons in Hokg as [[Hl _] [[Hl' _] _]%Forall_cons].
    rewrite change_of_key in Hl, Hl'. csimpl in Hndg. apply NoDup_cons in Hndg as [Hnot _].
    apply Hnot. destruct (action_key a) as [|x [|? ?]], (action_key a') as [|y [|? ?]]; try done.
    simpl in *. simplify_eq. by left. }
  unfold process_several_actions, clearing_delete_actions.
  destruct (bool_decide (item_of c = EmptyItem) && negb (existsb is_insert (a :: a' :: g)))
    eqn:Hclear; [|by apply (process_non_empty_spec m); auto].
  apply andb_true_iff in Hclear as [He%bool_decide_eq_true Hi%negb_true_iff].
  apply item_of_empty in He as ->. unfold child_after in *.
  rewrite (tacts_empty_deletes _ (no_inserts _ b Hi)) in *.
  eapply returns_lift; [done..|]. split; [done|]. split; [done|]. apply avail_empty.
Qed.

(** ** All groups of a node *)

Section groups.
Context (n : nat) (cs : forest) (actions : list HistoryAction).
Context (mk : Node -> list HistoryAction ->
  ST (RadixTreeImpl KV) (res RadixTreeError (option Node))).
Context (Hmk : forall m, n = S m -> make_ok m mk).
Context (Hf : wf_forest n cs) (Hok : actions_ok n actions).
Context (Hnd : NoDup (action_key <$> actions)).
Let cs' := foldl fact cs (change_of <$> actions).
Context (Hcov : covered_forest cs) (Hcov' : covered_forest cs').

(** The result of a group, at any later state. *)
Definition group_done (t : RadixTreeImpl KV) (bg : byte * list HistoryAction)
    (r : nat * option Item) : Prop :=
  exists c, cs !! byte_to_nat bg.1 = Some c /\
    group_result bg.1 c (child_after bg.1 actions c) r t.

Lemma group_done_keeps t t' bg r : keeps t t' -> group_done t bg r -> group_done t' bg r.
Proof.
  intros Hk (c & Hc & H1 & H2 & H3). exists c. split; [done|]. split; [done|]. split; [done|].
  by eapply avail_keeps.
Qed.

Lemma lookup_after b c :
  cs !! byte_to_nat b = Some c -> cs' !! byte_to_nat b = Some (child_after b actions c).
Proof. intros Hc. unfold cs'. by rewrite lookup_facts, Hc. Qed.

Lemma process_groups_spec gs t :
  (forall bg, bg ∈ gs -> bg.2 = acts_at bg.1 actions /\ bg.2 <> []) ->
  tree_inv t -> persisted_forest (store t) cs ->
  exists rs t', process_grouped_actions blake2b256 mk gs (items cs) t = (Ok <$> rs, t') /\
    keeps t t' /\ Forall2 (group_done t') gs rs.
Proof.
  unfold process_grouped_actions. revert t. induction gs as [|[b g] gs IH]; intros t Hgs Hinv Hp.
  { exists [], t. split; [done|]. split; [by apply keeps_refl|constructor]. }
  destruct (Hgs (b, g)) as [Hg Hne]; [by left|]. simpl in Hg, Hne. subst g.
  destruct (forest_lookup n cs b Hf) as [c Hc].
  destruct (process_group_spec n mk b actions cs c t) as (r & t1 & Hr & Hk1 & Hres);
    [done..|by eapply Hp| | |].
  { intros ds Hd. apply Hcov. by eexists _, _. }
  { intros ds Hd. apply Hcov'. eexists _, _. split; [by apply lookup_after|done]. }
  destruct (IH t1) as (rs & t2 & Hrs & Hk2 & Hall);
    [intros bg Hbg; apply Hgs; by right|by eapply keeps_inv|by rewrite (keeps_store _ _ _ _ Hk1)|].
  exists (r :: rs), t2. split.
  - cbn [st_mapM]. unfold mbind, st_bind. rewrite Hr, Hrs. done.
  - split; [by eapply keeps_trans|]. constructor; [|done].
    eapply group_done_keeps; [done|]. by exists c.
Qed.

Lemma acts_at_nil_below b :
  acts_at b actions = [] -> forall c, child_after b actions c = c.
Proof. intros Hb c. by rewrite child_after_acts_at, Hb. Qed.

(** Writing the results of all groups into the node gives the node of the new trie. *)
Lemma set_items_spec t gs rs :
  NoDup gs.*1 -> (forall b g, (b, g) ∈ gs <-> g = acts_at b actions /\ g <> []) ->
  Forall2 (group_done t) gs rs -> avail_forest t cs ->
  set_items (items cs) rs = items cs' /\ avail_forest t cs'.
Proof.
  intros Hgnd Hgs Hall Hav.
  assert (rs.*1 = byte_to_nat <$> gs.*1) as Hfst.
  { clear -Hall. induction Hall as [|bg r gs rs (c & _ & Hr & _) Hall IH]; [done|].
    csimpl. by rewrite IH, Hr. }
  assert (NoDup rs.*1) as Hrnd by (rewrite Hfst; by apply (NoDup_fmap_2 _)).
  assert (forall i c, cs !! i = Some c ->
    (set_items (items cs) rs !! i = Some (item_of (child_after (nat_to_byte i) actions c))) /\
    avail t (child_after (nat_to_byte i) actions c)) as Hi.
  { intros i c Hc. assert (i < 256) as Hlt.
    { apply lookup_lt_Some in Hc. by rewrite (forest_length _ _ Hf) in Hc. }
    set (b := nat_to_byte i). assert (byte_to_nat b = i) as Hb by (by apply byte_to_nat_to_byte).
    destruct (acts_at b actions) as [|a g] eqn:Hacts.
    - rewrite acts_at_nil_below by done. split; [|by eapply Hav].
      rewrite set_items_other; [by apply lookup_items|]. rewrite Hfst, <-Hb.
      intros (b' & Hb' & Hin)%list_elem_of_fmap. apply (inj _) in Hb' as <-.
      apply list_elem_of_fmap in Hin as ([b'' g] & Heq & Hin). simpl in Heq. subst b''.
      apply Hgs in Hin as [-> Hne]. by rewrite Hacts in Hne.
    - destruct (Hgs b (a :: g)) as [_ Hin]. specialize (Hin ltac:(by rewrite Hacts)).
      apply list_elem_of_lookup in Hin as [j Hj].
      destruct (Forall2_lookup_l _ _ _ _ _ Hall Hj) as ([i' o] & Hr & c0 & Hc0 & H1 & H2 & H3).
      simpl in *. rewrite Hb, Hc in Hc0. injection Hc0 as <-. split; [|done].
      rewrite Hb in H1. subst i'.
      rewrite (set_items_in _ _ i o (item_of c));
        [|done|by eapply list_elem_of_lookup_2|by apply lookup_items].
      f_equal. destruct o as [it|]; simpl in *; [done|]. by rewrite H2. }
  assert (forall i, i < 256 -> exists c, cs !! i = Some c /\
    cs' !! i = Some (child_after (nat_to_byte i) actions c)) as Hl.
  { intros i Hlt. destruct (forest_lookup n cs (nat_to_byte i) Hf) as [c Hc].
    pose proof (lookup_after _ _ Hc) as Hc'. rewrite byte_to_nat_to_byte in Hc, Hc' by done.
    by exists c. }
  assert (length cs' = 256) as Hlen.
  { unfold cs'. rewrite length_facts. apply Hf. }
  split.
  - apply list_eq_same_length with 256.
    + unfold RadixRefine.items. by rewrite length_fmap.
    + rewrite length_set_items. unfold RadixRefine.items. rewrite length_fmap. apply Hf.
    + intros i x y Hlt Hx Hy. destruct (Hl i Hlt) as (c & Hc & Hc').
      rewrite (proj1 (Hi _ _ Hc)) in Hx. rewrite (lookup_items _ _ _ _ Hc') in Hy. congruence.
  - intros i c' Hc'. pose proof (lookup_lt_Some _ _ _ Hc') as Hlt. rewrite Hlen in Hlt.
    destruct (Hl i Hlt) as (c & Hc & Heq). rewrite Hc' in Heq. injection Heq as ->.
    by apply (Hi i c).
Qed.
End groups.

Lemma res_mapM_id {E A} (l : list A) : res_mapM id (Ok (E:=E) <$> l) = Ok l.
Proof. induction l as [|x l IH]; [done|]. csimpl. by rewrite IH. Qed.

(** [make_actions] applies the whole batch; fuel one above the level of the trie is enough. *)
Lemma make_actions_spec n fuel :
  n < fuel -> make_ok n (make_actions blake2b256 fuel).
Proof.
  revert n. induction fuel as [|fuel IH]; intros n Hfuel; [lia|].
  intros cs actions t Hf Hok Hnd Hinv Hp Hcov cs' Hcov'. cbn [make_actions].
  destruct (grouping_spec actions) as (gs & Hg & Hgnd & Hgs).
  { apply Forall_forall. intros a Ha Hk. rewrite Forall_fmap, Forall_forall in Hok.
    destruct (Hok a Ha) as [Hl _]. rewrite change_of_key, Hk in Hl. done. }
  eapply returns_lift_bind; [done|].
  destruct (process_groups_spec n cs actions (make_actions blake2b256 fuel))
    with (gs := gs) (t := t) as (rs & t1 & Hrs & Hk1 & Hall); try done.
  { intros m ->. apply IH. lia. }
  { intros [b g] Hin. by apply Hgs. }
  destruct (set_items_spec n cs actions Hf t1 gs rs Hgnd Hgs Hall) as [Hset Hav].
  { intros i c Hc. eapply avail_keeps, persisted_avail; [done|by eapply Hp]. }
  fold cs' in Hset, Hav.
  eapply (returns_bind _ _ _ _ _ (fun a t' => a = rs /\ t' = t1)).
  { exists rs, t1. rewrite Hrs, res_mapM_id. done. }
  intros ? ? _ [-> ->]. rewrite Hset. eapply returns_lift; [done|by eapply keeps_inv|].
  split; [|done]. destruct (decide (items cs' = items cs)) as [He|He]; [|done].
  eapply items_inj; [|done..]. by apply wf_facts.
Qed.
End actions.
