(* ===== verification/RadixHistory.v ===== *)
(** * Histories over the radix tree

    [RadixHistory] of [rspace++/src/rspace/history/instances/radix_history.rs]: an immutable
    map from keys to 32-byte values, named by its root hash, over a store that all
    histories share.  A method works on the history it is called on, whose caches it
    changes, and on the store.  The theorems: a batch of actions gives the map with the
    batch applied, reading is exact, the root hash is determined by the contents, and
    every committed root can be reset to later. *)
From S2P Require Import Prelude HotStoreSig KeyValueStore RadixCodec RadixTree RadixSpec.
From S2P Require Import RadixRefine RadixActions.
Open Scope res_scope.

Section radix_history.
Context {KV : Type} `{!KeyValueStore KV, !DashOrder}.
Context (blake2b256 : bytes -> bytes).

Record RadixHistory := mkHistory {
  root_hash : bytes;
  root_node : Node;
  imple_cache_r : gmap bytes Node;
  imple_cache_w : gmap bytes bytes;
}.
(** The tree [self.imple] over the shared store. *)
Definition imple (h : RadixHistory) (s : KV) : RadixTreeImpl KV :=
  mkTree s (imple_cache_r h) (imple_cache_w h).

Abbreviation world := (RadixHistory * KV)%type.

(** A method of [self.imple]. *)
Definition on_imple {A} (m : ST (RadixTreeImpl KV) (res RadixTreeError A)) :
  ST world (res HistoryError A) := fun '(h, s) =>
  let '(r, t) := m (imple h s) in
  (map_err HistoryRadixTreeError r,
   (mkHistory (root_hash h) (root_node h) (cache_r t) (cache_w t), store t)).

(** [RadixHistory::create]; [reset] does the same with the store of the history. *)
Definition create (root : bytes) (s : KV) : res HistoryError RadixHistory :=
  let '(r, t) := load_node_arc root true (radix_tree_new s) in
  node <-! map_err HistoryRadixTreeError r;
  Ok (mkHistory root node (cache_r t) (cache_w t)).
Definition history_reset (root : bytes) : ST world (res HistoryError RadixHistory) :=
  gets (fun w => create root w.2).

(** [RadixHistory::empty_root_node_hash] *)
Definition empty_root_node_hash : res RadixTreeError bytes :=
  ' (node_hash, _) <-! hash_node blake2b256 empty_node; Ok node_hash.

Definition has_no_duplicates (actions : list HistoryAction) : bool :=
  bool_decide (size (list_to_set (action_key <$> actions) : gset bytes) = length actions).

(** [fn read] *)
Definition history_read (key : bytes) : ST world (res HistoryError (option bytes)) := fun w =>
  on_imple (read (root_node w.1) key) w.

(** [fn process] *)
Definition process (actions : list HistoryAction) : ST world (res HistoryError RadixHistory) :=
  fun w =>
  if has_no_duplicates actions then
    (new_root_node_opt <- on_imple (make_actions blake2b256 (actions_fuel actions)
                                      (root_node w.1) actions) ;?
     match new_root_node_opt with
     | Some new_root_node =>
       node_hash_bytes <- on_imple (save_node blake2b256 new_root_node) ;?
       let new_history := mkHistory node_hash_bytes new_root_node ∅ ∅ in
       _ <- on_imple commit ;?
       _ <- on_imple (fun t => (Ok tt, clear_write_cache t)) ;?
       _ <- on_imple (fun t => (Ok tt, clear_read_cache t)) ;?
       lift (Ok new_history)
     | None => lift (Ok (mkHistory (root_hash w.1) (root_node w.1) ∅ ∅))
     end) w
  else (Err (ActionError "Cannot process duplicate actions on one key."), w).
End radix_history.

(** ** [commit] *)

Section commit.
Context {KV : Type} `{!KeyValueStore KV, !KeyValueStoreLaws KV, !DashOrder, !DashOrderLaws}.
Context (blake2b256 : bytes -> bytes).
Context (U : Node -> Prop).
Context (U_inj : forall x y, U x -> U y ->
  node_hash blake2b256 x = node_hash blake2b256 y -> x = y).

Lemma entry_unique h b b' :
  entry_ok blake2b256 U h b -> entry_ok blake2b256 U h b' -> b = b'.
Proof.
  intros (x & Hx & Hh & ->) (y & Hy & Hh' & ->). by rewrite (U_inj x y) by congruence.
Qed.

Lemma present_entries (present : bytes -> bool) (kv_pairs : list (bytes * bytes)) :
  fst <$> filter (fun p => p.2 = true) (zip kv_pairs (present <$> kv_pairs.*1)) =
  filter (fun kv => present kv.1 = true) kv_pairs.
Proof.
  induction kv_pairs as [|[k v] l IH]; [done|]. csimpl.
  rewrite !filter_cons. simpl. case_decide; csimpl; by rewrite IH.
Qed.

Lemma no_collision_entries (get : bytes -> option bytes) (l : list (bytes * bytes)) :
  (forall kv, kv ∈ l -> get kv.1 = Some kv.2) ->
  filter (fun kvv => kvv.1.2 <> kvv.2) (zip l (default [] <$> (get <$> l.*1))) = [].
Proof.
  induction l as [|[k v] l IH]; intros Hl; [done|]. csimpl. rewrite filter_cons_False.
  - apply IH. intros kv Hkv. apply Hl. by right.
  - pose proof (Hl (k, v) ltac:(by left)) as Hk. simpl in *. rewrite Hk. naive_solver.
Qed.

(** On a tree without collisions [commit] adds the write cache to the store. *)
Lemma commit_spec t : tree_inv blake2b256 U t ->
  exists t', commit t = (Ok tt, t') /\ tree_inv blake2b256 U t' /\
    kv_map (store t) ⊆ kv_map (store t') /\ cache_w t ⊆ kv_map (store t').
Proof.
  intros [Hr Hw Hs]. unfold commit, try_bind, gets. rewrite kv_contains_spec. cbn [map_err].
  set (l := dash_iter (cache_w t)).
  assert (l ≡ₚ map_to_list (cache_w t)) as Hl by apply dash_iter_perm.
  assert (forall h b, (h, b) ∈ l <-> cache_w t !! h = Some b) as Hin.
  { intros h b. by rewrite Hl, elem_of_map_to_list. }
  rewrite (present_entries (fun k => bool_decide (is_Some (kv_map (store t) !! k)))).
  rewrite (absent_entries (fun k => bool_decide (is_Some (kv_map (store t) !! k)))).
  rewrite kv_get_spec. cbn [map_err]. rewrite no_collision_entries.
  2:{ intros [h b] [[b' Hb']%bool_decide_eq_true Hb%Hin]%list_elem_of_filter. simpl in *.
      rewrite Hb'. f_equal. eapply entry_unique; [by apply Hs|by apply Hw]. }
  simpl. set (absent := filter _ l).
  destruct (kv_put_spec (store t) absent) as (s' & -> & Hs'). eexists. split; [done|]. simpl.
  assert (NoDup absent.*1) as Hnd.
  { eapply sublist_NoDup; [|apply fmap_sublist, sublist_filter]. rewrite Hl.
    apply NoDup_fst_map_to_list. }
  assert (forall h b, (h, b) ∈ absent <-> cache_w t !! h = Some b /\ kv_map (store t) !! h = None)
    as Habs.
  { intros h b. unfold absent. rewrite list_elem_of_filter, Hin. simpl.
    rewrite bool_decide_eq_false, <-eq_None_not_Some. naive_solver. }
  rewrite Hs'. split; [split; [done|done|]|split].
  - simpl. rewrite Hs'. intros h b [[Hb _]%Habs|Hb]%insert_all_lookup; [by apply Hw|by apply Hs].
  - apply map_subseteq_spec. intros h b Hb. rewrite insert_all_lookup_ne; [done|].
    intros ([h' b'] & -> & Hb'%Habs)%list_elem_of_fmap. simpl in *. naive_solver congruence.
  - apply map_subseteq_spec. intros h b Hb. destruct (kv_map (store t) !! h) as [b'|] eqn:Hst.
    + rewrite insert_all_lookup_ne.
      * rewrite Hst. f_equal. eapply entry_unique; [by apply Hs|by apply Hw].
      * intros ([h' b''] & -> & Hb'%Habs)%list_elem_of_fmap. simpl in *. naive_solver congruence.
    + apply insert_all_NoDup; [done|]. by apply Habs.
Qed.
End commit.

(** ** Correctness *)

Lemma no_duplicates_spec actions :
  has_no_duplicates actions = true <-> NoDup (action_key <$> actions).
Proof.
  unfold has_no_duplicates. rewrite bool_decide_eq_true.
  rewrite <-(length_fmap action_key). generalize (action_key <$> actions). clear actions.
  intros l. induction l as [|k l IH]; simpl; [split; [constructor|done]|].
  assert (size (list_to_set l : gset bytes) <= length l) as Hle.
  { clear IH. induction l as [|x l IH]; [done|]. cbn [list_to_set length].
    rewrite size_union_alt, size_singleton. etrans; [|apply le_n_S, IH].
    apply le_n_S, subseteq_size. set_solver. }
  rewrite NoDup_cons. destruct (decide (k ∈ l)) as [Hin|Hin].
  - assert ({[k]} ∪ list_to_set l = (list_to_set l : gset bytes)) as ->.
    { apply set_eq. intros x. rewrite elem_of_union, elem_of_singleton, elem_of_list_to_set.
      naive_solver. }
    split; [lia|naive_solver].
  - rewrite size_union, size_singleton by set_solver. split; [|naive_solver lia].
    intros Hs. split; [done|]. apply IH. lia.
Qed.

Section correct.
Context {KV : Type} `{!KeyValueStore KV, !KeyValueStoreLaws KV, !DashOrder, !DashOrderLaws}.
Context (blake2b256 : bytes -> bytes).

(** A set of nodes that can be stored, on which the hash has no collision. *)
Record collision_free (U : Node -> Prop) : Prop := {
  cf_blake : forall b, length (blake2b256 b) = DEF_SIZE;
  cf_ok : forall x, U x -> node_ok x;
  cf_inj : forall x y, U x -> U y ->
    node_hash blake2b256 x = node_hash blake2b256 y -> x = y;
}.

(** The root and all nodes below it are among [U]. *)
Definition nodes_in (U : Node -> Prop) (cs : forest) : Prop :=
  U (items blake2b256 cs) /\ covered_forest blake2b256 U cs.

(** Every entry of the store is a node of [U] under its hash. *)
Definition store_ok (U : Node -> Prop) (s : KV) : Prop :=
  forall h b, kv_map s !! h = Some b -> entry_ok blake2b256 U h b.

(** A root that was committed: all its nodes are in the store.  The empty root need not
    be, [load_node] takes a missing root for the empty node. *)
Definition committed (n : nat) (cs : forest) (s : KV) : Prop :=
  wf_forest n cs /\ persisted_forest blake2b256 s cs /\
  (cs = no_trees \/ kv_map s !! node_hash blake2b256 (items blake2b256 cs) =
                    Some (node_bytes 0 (items blake2b256 cs))).

(** A history over the store whose map is that of the trie [cs], with keys of length
    [S n]. *)
Record represents (U : Node -> Prop) (n : nat) (cs : forest) (h : RadixHistory) (s : KV) :
  Prop := {
  rep_committed : committed n cs s;
  rep_nodes : nodes_in U cs;
  rep_root_node : root_node h = items blake2b256 cs;
  rep_root_hash : root_hash h = node_hash blake2b256 (items blake2b256 cs);
  rep_inv : tree_inv blake2b256 U (imple h s);
}.

Lemma committed_mono n cs s s' :
  kv_map s ⊆ kv_map s' -> committed n cs s -> committed n cs s'.
Proof.
  intros Hsub (Hf & Hp & Hroot). split; [done|]. split.
  - intros i c Hc ds Hd. eapply lookup_weaken; [by eapply Hp|done].
  - destruct Hroot as [->|Hr]; [by left|right]. by eapply lookup_weaken.
Qed.

Lemma fresh_tree_inv U (s : KV) : store_ok U s -> tree_inv blake2b256 U (mkTree s ∅ ∅).
Proof. intros Hs. by split. Qed.

Section steps.
Context (U : Node -> Prop) (HU : collision_free U).
Let U_ok := cf_ok U HU.
Let U_inj := cf_inj U HU.

Lemma read_spec n cs h s k :
  represents U n cs h s ->
  exists h', history_read k (h, s) = (Ok (fget cs k), (h', s)) /\ represents U n cs h' s.
Proof.
  intros [Hc Hn Hnode Hhash Hinv]. unfold history_read, on_imple. simpl. rewrite Hnode.
  pose proof Hc as (Hf & Hp & _).
  destruct (read_at_spec blake2b256 U U_ok U_inj (S (length k)) n cs k (imple h s))
    as (a & t & Hr & [Hst _ Hinv'] & ->); [done|lia|done|done|apply Hn|].
  unfold read. rewrite Hr. simpl in Hst. rewrite Hst. eexists. split; [done|].
  split; [done|done|done|done|]. destruct t. simpl in *. by subst.
Qed.

Lemma create_spec n cs s :
  store_ok U s -> committed n cs s -> nodes_in U cs ->
  exists h, create (node_hash blake2b256 (items blake2b256 cs)) s = Ok h /\
    represents U n cs h s.
Proof.
  intros Hs Hc Hn. pose proof Hc as (Hf & Hp & Hroot). unfold create.
  destruct (decide (kv_map s !! node_hash blake2b256 (items blake2b256 cs) =
                    Some (node_bytes 0 (items blake2b256 cs)))) as [Hst|Hst].
  - destruct (load_spec blake2b256 U U_ok U_inj (radix_tree_new s)
      (items blake2b256 cs) true) as (a & t & -> & [Hts _ Hti] & ->);
      [by apply fresh_tree_inv|exact (proj1 Hn)|done|].
    eexists. split; [done|]. split; try done. destruct t. simpl in *. by subst.
  - destruct Hroot as [->|?]; [|done]. rewrite items_no_trees in *.
    unfold load_node_arc, try_bind, gets, load_node_from_store, radix_tree_new. simpl.
    rewrite kv_get_one_spec. simpl.
    destruct (kv_map s !! node_hash blake2b256 empty_node) as [b|] eqn:Hb.
    + exfalso. apply Hst. destruct (Hs _ _ Hb) as (x & Hx & Hh & ->).
      destruct Hn as [Hn _]. rewrite items_no_trees in Hn. by rewrite (U_inj empty_node x).
    + eexists. split; [done|]. split; [done|done|by rewrite items_no_trees|
        by rewrite items_no_trees|by apply fresh_tree_inv].
Qed.

Lemma actions_fuel_enough n actions a l :
  actions = a :: l -> Forall (change_ok (S n)) (change_of <$> actions) ->
  n < actions_fuel actions.
Proof.
  intros -> [[Hk _] _]%Forall_cons. rewrite change_of_key in Hk.
  unfold actions_fuel. csimpl. lia.
Qed.

Lemma make_actions_root n cs h s actions :
  represents U n cs h s -> Forall (change_ok (S n)) (change_of <$> actions) ->
  NoDup (action_key <$> actions) ->
  let cs' := foldl fact cs (change_of <$> actions) in
  covered_forest blake2b256 U cs' ->
  returns blake2b256 U (make_actions blake2b256 (actions_fuel actions) (root_node h) actions)
    (imple h s) (fun o t' =>
      match o with Some x => x = items blake2b256 cs' | None => cs' = cs end /\
      avail_forest blake2b256 t' cs').
Proof.
  intros [(Hf & Hp & _) Hn Hnode _ Hinv] Hok Hnd cs' Hcov'. rewrite Hnode.
  destruct actions as [|a l] eqn:Ha.
  - exists None, (imple h s). split; [|split; [by apply keeps_refl|split; [done|]]].
    + change (actions_fuel []) with 1. cbn [make_actions]. unfold try_bind, lift.
      change (grouping []) with
        (Ok (E:=RadixTreeError) (A:=list (byte * list HistoryAction)) []).
      simpl. by rewrite decide_True.
    + intros i c Hc. by eapply persisted_avail, Hp.
  - eapply (make_actions_spec blake2b256 U U_ok U_inj n); try done; [|apply Hn].
    by eapply actions_fuel_enough.
Qed.

Lemma on_imple_returns {A} (m : ST (RadixTreeImpl KV) (res RadixTreeError A)) h s Φ :
  returns blake2b256 U m (imple h s) Φ ->
  exists a h', on_imple m (h, s) = (Ok a, (h', s)) /\
    keeps blake2b256 U (imple h s) (imple h' s) /\ Φ a (imple h' s).
Proof.
  intros (a & [s' r w] & Hm & Hk & HΦ). pose proof (keeps_store _ _ _ _ Hk) as Hs.
  simpl in Hs. subst s'. exists a, (mkHistory (root_hash h) (root_node h) r w).
  unfold on_imple. by rewrite Hm.
Qed.

Lemma inv_store_ok t : tree_inv blake2b256 U t -> store_ok U (store t).
Proof. by intros [_ _ Hs]. Qed.

(** Saving the new root and committing. *)
Lemma commit_root n cs h s :
  tree_inv blake2b256 U (imple h s) -> wf_forest n cs -> nodes_in U cs ->
  avail_forest blake2b256 (imple h s) cs ->
  exists h1 h2 s2, let root := node_hash blake2b256 (items blake2b256 cs) in
    on_imple (save_node blake2b256 (items blake2b256 cs)) (h, s) = (Ok root, (h1, s)) /\
    on_imple commit (h1, s) = (Ok tt, (h2, s2)) /\
    kv_map s ⊆ kv_map s2 /\ represents U n cs (mkHistory root (items blake2b256 cs) ∅ ∅) s2.
Proof.
  intros Hinv Hf Hn Hav.
  destruct (on_imple_returns (save_node blake2b256 (items blake2b256 cs)) h s _
    (save_spec blake2b256 U U_ok U_inj _ _ Hinv (proj1 Hn))) as (? & h1 & Hs1 & Hk1 & -> & Ha).
  destruct (commit_spec blake2b256 U U_inj (imple h1 s) (keeps_inv _ _ _ _ Hk1))
    as ([s2 r w] & Hc & Hinv2 & Hsub & Hw). simpl in *.
  assert (forall x, node_avail blake2b256 (imple h1 s) x ->
    kv_map s2 !! node_hash blake2b256 x = Some (node_bytes 0 x)) as Hin.
  { intros x [Hx|Hx]; [by eapply lookup_weaken|by eapply lookup_weaken]. }
  exists h1, (mkHistory (root_hash h1) (root_node h1) r w), s2.
  split; [done|]. split; [unfold on_imple; by rewrite Hc|]. split; [done|].
  split; [|done|done|done|].
  - split; [done|]. split; [|right; by apply Hin].
    intros i c Hi ds Hd. apply Hin. eapply node_avail_keeps; [done|]. by eapply Hav.
  - by apply fresh_tree_inv, (inv_store_ok (mkTree s2 r w)).
Qed.

Lemma process_spec n cs h s actions :
  represents U n cs h s -> Forall (change_ok (S n)) (change_of <$> actions) ->
  NoDup (action_key <$> actions) ->
  let cs' := foldl fact cs (change_of <$> actions) in
  nodes_in U cs' ->
  exists h' h1 s', process blake2b256 actions (h, s) = (Ok h', (h1, s')) /\
    represents U n cs' h' s' /\ kv_map s ⊆ kv_map s'.
Proof.
  intros Hrep Hok Hnd cs' Hn'. unfold process.
  rewrite (proj2 (no_duplicates_spec actions)) by done. cbn [fst snd].
  destruct (on_imple_returns _ h s _ (make_actions_root n cs h s actions Hrep Hok Hnd (proj2 Hn')))
    as (o & h1 & Hm & Hk1 & Ho & Hav).
  unfold try_bind. rewrite Hm.
  assert (wf_forest n cs') as Hf' by (apply wf_facts; [apply Hrep|done]).
  destruct o as [x|].
  - subst x. destruct (commit_root n cs' h1 s (keeps_inv _ _ _ _ Hk1) Hf' Hn' Hav)
      as (h2 & h3 & s3 & Hsave & Hcommit & Hsub & Hrep').
    fold cs'. rewrite Hsave, Hcommit. simpl.
    eexists _, _, _. split; [done|]. by split.
  - eexists _, _, _. split; [done|]. fold cs' in Ho. rewrite Ho.
    destruct Hrep as [Hc Hn Hnode Hhash Hinv]. split; [|done].
    split; try done. by apply fresh_tree_inv, (inv_store_ok (imple h s)).
Qed.
End steps.

(** C15: processing a batch of inserts and deletes without repeated keys, on a history whose
    nodes are in the store, succeeds: the new history represents the old map with the
    whole batch applied, whatever the grouping of the batch, and the compaction and
    splitting of nodes; its root hash is the hash of the new root, all its nodes are
    committed, and nothing is overwritten in the store.  Keys have any fixed length up to
    128 bytes; the hash is assumed free of collisions on the stored and the new nodes. *)
Theorem radix_process_correct U n cs h s actions :
  collision_free U -> represents U n cs h s ->
  Forall (change_ok (S n)) (change_of <$> actions) -> NoDup (action_key <$> actions) ->
  nodes_in U (foldl fact cs (change_of <$> actions)) ->
  exists cs' h' h1 s', process blake2b256 actions (h, s) = (Ok h', (h1, s')) /\
    represents U n cs' h' s' /\
    (forall k, fget cs' k = apply_changes (change_of <$> actions) (fget cs) k) /\
    kv_map s ⊆ kv_map s'.
Proof.
  intros HU Hrep Hok Hnd Hn.
  destruct (process_spec U HU n cs h s actions Hrep Hok Hnd Hn) as (h' & h1 & s' & Hp & Hr & Hs).
  eexists _, h', h1, s'. split; [done|]. split; [done|]. split; [|done].
  intros k. eapply fget_facts; [apply Hrep|done].
Qed.

(** [read] on a history returns exactly what its map holds under the key, for keys of
    any length, and leaves the history and the store as they were up to the read cache,
    which evicts but never lies. *)
Theorem radix_read_correct U n cs h s k :
  collision_free U -> represents U n cs h s ->
  exists h', history_read k (h, s) = (Ok (fget cs k), (h', s)) /\
    represents U n cs h' s.
Proof. intros HU Hrep. by apply (read_spec U HU). Qed.

(** C28: the root hash is determined by the contents: two histories, over whatever stores
    and after whatever batches, that answer every read alike have the same root hash. *)
Theorem radix_root_canonical U1 U2 n cs1 cs2 h1 h2 s1 s2 :
  collision_free U1 -> collision_free U2 ->
  represents U1 n cs1 h1 s1 -> represents U2 n cs2 h2 s2 ->
  (forall k, (history_read k (h1, s1)).1 = (history_read k (h2, s2)).1) ->
  root_hash h1 = root_hash h2.
Proof.
  intros HU1 HU2 H1 H2 Heq. rewrite (rep_root_hash _ _ _ _ _ H1), (rep_root_hash _ _ _ _ _ H2).
  assert (cs1 = cs2) as ->; [|done].
  apply (wf_forest_unique n); [apply H1|apply H2|]. intros k. specialize (Heq k).
  destruct (read_spec U1 HU1 n cs1 h1 s1 k H1) as (h1' & Hr1 & _).
  destruct (read_spec U2 HU2 n cs2 h2 s2 k H2) as (h2' & Hr2 & _).
  rewrite Hr1, Hr2 in Heq. simpl in Heq. by injection Heq.
Qed.

(** Roots stay readable: after a batch has been processed, resetting the new history
    to the root hash of the old one gives back the old map, and resetting to the new root
    gives the new map, without any caches. *)
Theorem radix_reset_restores U n cs h s actions h' h1 s' :
  collision_free U -> represents U n cs h s ->
  Forall (change_ok (S n)) (change_of <$> actions) -> NoDup (action_key <$> actions) ->
  nodes_in U (foldl fact cs (change_of <$> actions)) ->
  process blake2b256 actions (h, s) = (Ok h', (h1, s')) ->
  exists old new,
    history_reset (root_hash h) (h', s') = (Ok old, (h', s')) /\ represents U n cs old s' /\
    history_reset (root_hash h') (h', s') = (Ok new, (h', s')) /\
    represents U n (foldl fact cs (change_of <$> actions)) new s'.
Proof.
  intros HU Hrep Hok Hnd Hn Hp.
  destruct (process_spec U HU n cs h s actions Hrep Hok Hnd Hn) as (h2 & h3 & s2 & Hp' & Hr & Hs).
  rewrite Hp in Hp'. simplify_eq.
  assert (store_ok U s2) as Hst by (by apply (inv_store_ok U (imple h2 s2)), Hr).
  destruct (create_spec U HU n cs s2) as (old & Hold & Hro);
    [done|eapply committed_mono; [done|apply Hrep]|apply Hrep|].
  destruct (create_spec U HU n (foldl fact cs (change_of <$> actions)) s2) as (new & Hnew & Hrn);
    [done|apply Hr|done|].
  exists old, new. unfold history_reset, gets. simpl.
  rewrite (rep_root_hash _ _ _ _ _ Hrep), (rep_root_hash _ _ _ _ _ Hr).
  rewrite Hold, Hnew. done.
Qed.

(** A batch that names a key twice is refused with an error, before anything is read
    or written: history, caches and store are unchanged. *)
Theorem radix_process_duplicates actions (h : RadixHistory) (s : KV) :
  ~ NoDup (action_key <$> actions) ->
  process blake2b256 actions (h, s) =
    (Err (ActionError "Cannot process duplicate actions on one key."), (h, s)).
Proof.
  intros Hnd. unfold process.
  destruct (has_no_duplicates actions) eqn:Hd; [|done].
  by apply no_duplicates_spec in Hd.
Qed.
End correct.

(** ** Evaluation on a concrete history *)

Module RadixExample.
#[export] Instance example_order : DashOrder := fun V m => map_to_list m.
#[export] Instance example_order_laws : DashOrderLaws.
Proof. by intros V m. Qed.

(** A function with 32 bytes of output that has no collision on the nodes below. *)
Definition digest (b : bytes) : bytes := take 32 (b ++ replicate 32 x00).
Definition v1 : bytes := replicate 32 x11.
Definition v2 : bytes := replicate 32 x22.
Definition batch : list HistoryAction :=
  [HistoryInsert [x01; x02] v1; HistoryDelete [x07; x07]; HistoryInsert [x01; x03] v2;
   HistoryInsert [x05; x05] v1].
Definition forest1 : forest := foldl fact no_trees (change_of <$> batch).
Definition nodes : list Node :=
  empty_node :: items digest forest1 :: (items digest <$> forest_nodes forest1).
Definition U (x : Node) : Prop := x ∈ nodes.

Definition store0 : InMemoryKeyValueStore := mkInMem ∅.
Definition history0 : RadixHistory := mkHistory (node_hash digest empty_node) empty_node ∅ ∅.

Lemma digest_length b : length (digest b) = DEF_SIZE.
Proof. unfold digest. rewrite length_take, length_app, length_replicate. unfold DEF_SIZE. lia. Qed.

Lemma U_free : collision_free digest U.
Proof.
  split; [apply digest_length|..].
  - assert (Forall (fun x => length x = NUM_ITEMS /\ Forall item_ok x) nodes) as Hall
      by (apply (bool_decide_unpack _); vm_compute; exact I).
    rewrite Forall_forall in Hall. intros x Hx. destruct (Hall x Hx). by split.
  - assert (Forall (fun x => Forall (fun y => node_hash digest x = node_hash digest y -> x = y)
      nodes) nodes) as Hall by (apply (bool_decide_unpack _); vm_compute; exact I).
    intros x y Hx Hy. rewrite Forall_forall in Hall. specialize (Hall x Hx).
    rewrite Forall_forall in Hall. by apply Hall.
Qed.

Lemma batch_ok : Forall (change_ok 2) (change_of <$> batch).
Proof. repeat constructor; by intros v [= <-]. Qed.
Lemma batch_NoDup : NoDup (action_key <$> batch).
Proof. apply (bool_decide_unpack _). vm_compute. exact I. Qed.

Lemma nodes_in0 : nodes_in digest U no_trees.
Proof.
  split; [rewrite items_no_trees; by left|].
  intros ds (i & c & ->%lookup_no_trees & Hd). inversion Hd.
Qed.
Lemma nodes_in1 : nodes_in digest U forest1.
Proof.
  split; [right; by left|]. intros ds Hd%in_forest_nodes. right. right.
  by apply list_elem_of_fmap_2.
Qed.

Lemma history0_represents : represents digest U 1 no_trees history0 store0.
Proof.
  split; [|apply nodes_in0|by rewrite items_no_trees|by rewrite items_no_trees|].
  - split; [apply wf_no_trees|]. split; [|by left].
    intros i c ->%lookup_no_trees ds Hd. inversion Hd.
  - by split.
Qed.
End RadixExample.
Import RadixExample.

Lemma radix_process_correct_witness :
  exists h' h1 s', process digest batch
      (history0, store0) = (Ok h', (h1, s')) /\
    (history_read [x01; x03] (h', s')).1 = Ok (Some v2).
Proof.
  destruct (radix_process_correct digest U 1 no_trees
    history0 store0 batch U_free
    history0_represents batch_ok batch_NoDup
    nodes_in1) as (cs' & h' & h1 & s' & Hp & Hr & Hget & _).
  exists h', h1, s'. split; [done|].
  destruct (read_spec digest U U_free 1 cs' h' s'
    [x01; x03] Hr) as (h2 & Hread & _). rewrite Hread, Hget. vm_compute. reflexivity.
Defined.

Lemma radix_read_correct_witness :
  (history_read [x05] (history0, store0)).1 = Ok None.
Proof.
  destruct (radix_read_correct digest U 1 no_trees
    history0 store0 [x05] U_free
    history0_represents) as (h' & Hr & _).
  rewrite Hr. reflexivity.
Defined.

(** The batch in two different orders. *)
Lemma radix_root_canonical_witness :
  exists h1 h2 w1 w2,
    process digest batch (history0, store0) = (Ok h1, w1) /\
    process digest (reverse batch) (history0, store0) = (Ok h2, w2) /\
    root_hash h1 = root_hash h2.
Proof.
  assert (Forall (change_ok 2) (change_of <$> reverse batch)) as Hok
    by (repeat constructor; by intros v [= <-]).
  assert (NoDup (action_key <$> reverse batch)) as Hnd
    by (apply (bool_decide_unpack _); vm_compute; exact I).
  assert (foldl fact no_trees (change_of <$> reverse batch) = forest1) as Heq
    by (vm_compute; reflexivity).
  destruct (process_spec digest U U_free 1 no_trees history0 store0 batch
    history0_represents batch_ok batch_NoDup nodes_in1) as (h1 & g1 & s1 & Hp1 & Hr1 & _).
  destruct (process_spec digest U U_free 1 no_trees history0 store0 (reverse batch)
    history0_represents Hok Hnd) as (h2 & g2 & s2 & Hp2 & Hr2 & _);
    [rewrite Heq; exact nodes_in1|].
  exists h1, h2, (g1, s1), (g2, s2). split; [done|]. split; [done|]. rewrite Heq in Hr2.
  apply (radix_root_canonical digest U U 1 forest1 forest1 h1 h2 s1 s2 U_free U_free Hr1 Hr2).
  intros k. destruct (read_spec digest U U_free 1 _ h1 s1 k Hr1) as (? & -> & _).
  destruct (read_spec digest U U_free 1 _ h2 s2 k Hr2) as (? & -> & _). done.
Defined.

Lemma radix_reset_restores_witness :
  exists h' s' old, history_reset (root_hash history0) (h', s') =
    (Ok old, (h', s')) /\ is_Some (kv_map s' !! root_hash h').
Proof.
  destruct (process_spec digest U U_free 1 no_trees
    history0 store0 batch history0_represents
    batch_ok batch_NoDup nodes_in1)
    as (h' & h1 & s' & Hp & Hr & _).
  destruct (radix_reset_restores digest U 1 no_trees
    history0 store0 batch h' h1 s' U_free
    history0_represents batch_ok batch_NoDup
    nodes_in1 Hp) as (old & new & Hold & _).
  exists h', s', old. split; [done|].
  rewrite (rep_root_hash _ _ _ _ _ _ Hr).
  destruct (rep_committed _ _ _ _ _ _ Hr) as (_ & _ & [Hno|Hs]); [|by eexists].
  exfalso. apply (f_equal (fun cs => fget cs [x01; x03])) in Hno. vm_compute in Hno. done.
Defined.

Lemma radix_process_duplicates_witness :
  process digest [HistoryDelete [x01; x02]; HistoryInsert [x01; x02] []]
    (history0, store0) =
  (Err (ActionError "Cannot process duplicate actions on one key."),
   (history0, store0)).
Proof.
  apply radix_process_duplicates. apply (bool_decide_unpack _). vm_compute. exact I.
Defined.
