(* ===== verification/HistoryRepo.v ===== *)
(** * The history repository

    [HistoryRepositoryImpl] of [rspace++/src/rspace/history/history_repository_impl.rs],
    its reader ([instances/rspace_history_reader_impl.rs]), the trie actions
    ([hot_store_trie_action.rs]) and the roots ([root_repository.rs], [roots_store.rs]).
    A checkpoint writes each row as a leaf under its hash into the leaf store, enters the
    hash of the leaf under the hash of the channel into the history, and records the new
    root.  The three stores are shared by all repositories and readers that come from one
    another; they are threaded through here.

    A reader keeps its own history, whose caches a read changes; reads are modelled on the
    history as it was created, the caches never change an answer ([RadixHistory]). *)
From S2P Require Import Prelude Events HotStoreSig RSpace KeyValueStore Serializers.
From S2P Require Import RadixCodec RadixTree RadixHistory.
Open Scope res_scope.

Definition PREFIX_DATUM : byte := x00.
Definition PREFIX_KONT : byte := x01.
Definition PREFIX_JOINS : byte := x02.

(** [fn prepend_bytes] *)
Definition prepend_bytes (element : byte) (b : bytes) : bytes := element :: b.

(** ** Texts of errors *)

(** [Display for KvStoreError] *)
Definition kv_error_to_string (e : KvStoreError) : string :=
  match e with
  | KvKeyNotFound m => "Key not found: " +:+ m
  | KvIoError m => "I/O error: " +:+ m
  | KvSerializationError m => "SerializationError error: " +:+ m
  | KvInvalidArgument m => "Invalid argument: " +:+ m
  | KvLockError m => "Lock error: " +:+ m
  end.

(** [encode_hex] and [Display for Blake2b256Hash] *)
Definition hex_digits : string := "0123456789abcdef".
Definition hex_digit (n : nat) : string := String.substring n 1 hex_digits.
Definition encode_hex (b : bytes) : string :=
  foldr (fun x s => hex_digit (byte_to_nat x / 16) +:+ hex_digit (byte_to_nat x mod 16) +:+ s)
    "" b.
Definition hash_to_string (h : Blake2b256Hash) : string :=
  "Blake2b256Hash(" +:+ encode_hex h +:+ ")".

(** ** Roots *)

Section roots.
Context {KV : Type} `{!KeyValueStore KV, !DashOrder}.
Context (blake2b256 : bytes -> bytes).

Definition current_root_name : bytes := String.list_byte_of_string "current-root".
Definition root_tag : bytes := String.list_byte_of_string "tag".

Definition root_err {A} (m : res KvStoreError A) : res RootError A :=
  map_err (fun e => RootKvStoreError (kv_error_to_string e)) m.

(** [RootsStore::current_root], [validate_and_set_current_root], [record_root] *)
Definition roots_current_root (s : KV) : res RootError (option Blake2b256Hash) :=
  root_err (kv_get_one current_root_name s).
Definition roots_validate_and_set_current_root (key : Blake2b256Hash) :
  ST KV (res RootError (option Blake2b256Hash)) :=
  found <- gets (fun s => root_err (kv_get_one key s)) ;?
  match found with
  | Some _ =>
    _ <- (fun s => let '(r, s) := kv_put_one current_root_name key s in (root_err r, s)) ;?
    lift (Ok (Some key))
  | None => lift (Ok None)
  end.
Definition record_root (key : Blake2b256Hash) : ST KV (res RootError unit) :=
  _ <- (fun s => let '(r, s) := kv_put_one key root_tag s in (root_err r, s)) ;?
  _ <- (fun s => let '(r, s) := kv_put_one current_root_name key s in (root_err r, s)) ;?
  lift (Ok tt).

(** [RootRepository::commit], [current_root], [validate_and_set_current_root] *)
Definition roots_commit (root : Blake2b256Hash) : ST KV (res RootError unit) := record_root root.
Definition current_root : ST KV (res RootError Blake2b256Hash) :=
  found <- gets roots_current_root ;?
  match found with
  | None =>
    match empty_root_node_hash blake2b256 with
    | Ok empty_root_hash =>
      _ <- record_root empty_root_hash ;?
      lift (Ok empty_root_hash)
    | _ => lift Panic
    end
  | Some root => lift (Ok root)
  end.
Definition validate_and_set_current_root (root : Blake2b256Hash) : ST KV (res RootError unit) :=
  found <- roots_validate_and_set_current_root root ;?
  match found with
  | Some _ => lift (Ok tt)
  | None => lift (Err (UnknownRootError ("unknown root: " +:+ hash_to_string root)))
  end.
End roots.

(** ** Trie actions *)

Inductive TrieInsertAction (C P A K : Type) :=
| TrieInsertProduce (hash : Blake2b256Hash) (data : list (Datum A))
| TrieInsertJoins (hash : Blake2b256Hash) (joins : list (list C))
| TrieInsertConsume (hash : Blake2b256Hash) (continuations : list (WaitingContinuation P K))
| TrieInsertBinaryProduce (hash : Blake2b256Hash) (data : list bytes)
| TrieInsertBinaryJoins (hash : Blake2b256Hash) (joins : list bytes)
| TrieInsertBinaryConsume (hash : Blake2b256Hash) (continuations : list bytes).
Inductive TrieDeleteAction :=
| TrieDeleteProduce (hash : Blake2b256Hash)
| TrieDeleteJoins (hash : Blake2b256Hash)
| TrieDeleteConsume (hash : Blake2b256Hash).
Inductive HotStoreTrieAction (C P A K : Type) :=
| TrieInsert (i : TrieInsertAction C P A K)
| TrieDelete (d : TrieDeleteAction).
Arguments TrieInsertProduce {C P A K} _ _.
Arguments TrieInsertJoins {C P A K} _ _.
Arguments TrieInsertConsume {C P A K} _ _.
Arguments TrieInsertBinaryProduce {C P A K} _ _.
Arguments TrieInsertBinaryJoins {C P A K} _ _.
Arguments TrieInsertBinaryConsume {C P A K} _ _.
Arguments TrieInsert {C P A K} _.
Arguments TrieDelete {C P A K} _.

Section repository.
Context {C P A K KV : Type} `{Countable C} `{!KeyValueStore KV, !DashOrder}.
Context (cd : Codecs C P A K) (rc : RowCodecs C P A K).

Abbreviation ColdAction := (Blake2b256Hash * option PersistedData)%type.

(** The hash under which a leaf is stored: [Blake2b256Hash::new] of the serialized struct. *)
Definition leaf_hash (d : PersistedData) : Blake2b256Hash :=
  blake2b256 cd (ser_byte_vec rc (leaf_bytes d)).
(** A leaf and the history action that enters its hash under [prefix :: hash]. *)
Definition insert_leaf (prefix : byte) (hash : Blake2b256Hash) (d : PersistedData) :
  ColdAction * HistoryAction :=
  ((leaf_hash d, Some d), HistoryInsert (prepend_bytes prefix hash) (leaf_hash d)).
Definition delete_leaf (prefix : byte) (hash : Blake2b256Hash) : ColdAction * HistoryAction :=
  ((hash, None), HistoryDelete (prepend_bytes prefix hash)).
(** [sorted.sort(); bincode::serialize(&sorted)] *)
Definition sort_binary (l : list bytes) : bytes := ser_byte_vecs rc (sort_by bytes_cmp l).

(** [fn calculate_storage_actions] *)
Definition calculate_storage_actions (action : HotStoreTrieAction C P A K) :
  ColdAction * HistoryAction :=
  match action with
  | TrieInsert (TrieInsertProduce hash data) =>
    insert_leaf PREFIX_DATUM hash (DataLeaf (encode_datums rc data))
  | TrieInsert (TrieInsertConsume hash continuations) =>
    insert_leaf PREFIX_KONT hash (ContinuationsLeaf (encode_continuations rc continuations))
  | TrieInsert (TrieInsertJoins hash joins) =>
    insert_leaf PREFIX_JOINS hash (JoinsLeaf (encode_joins rc joins))
  | TrieInsert (TrieInsertBinaryProduce hash data) =>
    insert_leaf PREFIX_DATUM hash (DataLeaf (sort_binary data))
  | TrieInsert (TrieInsertBinaryConsume hash continuations) =>
    insert_leaf PREFIX_KONT hash (ContinuationsLeaf (sort_binary continuations))
  | TrieInsert (TrieInsertBinaryJoins hash joins) =>
    insert_leaf PREFIX_JOINS hash (JoinsLeaf (sort_binary joins))
  | TrieDelete (TrieDeleteProduce hash) => delete_leaf PREFIX_DATUM hash
  | TrieDelete (TrieDeleteConsume hash) => delete_leaf PREFIX_KONT hash
  | TrieDelete (TrieDeleteJoins hash) => delete_leaf PREFIX_JOINS hash
  end.

(** [fn transform] *)
Definition transform (hot_store_action : HotStoreAction C P A K) : HotStoreTrieAction C P A K :=
  match hot_store_action with
  | Insert (InsertData channel d) => TrieInsert (TrieInsertProduce (hash cd channel) d)
  | Insert (InsertContinuations channels k) =>
    TrieInsert (TrieInsertConsume (hash_from_vec cd channels) k)
  | Insert (InsertJoins channel j) => TrieInsert (TrieInsertJoins (hash cd channel) j)
  | Delete (DeleteData channel) => TrieDelete (TrieDeleteProduce (hash cd channel))
  | Delete (DeleteContinuations channels) =>
    TrieDelete (TrieDeleteConsume (hash_from_vec cd channels))
  | Delete (DeleteJoins channel) => TrieDelete (TrieDeleteJoins (hash cd channel))
  end.

(** ** The repository *)

(** [struct HistoryRepositoryImpl], with the store that [current_history] writes to *)
Record HistoryRepositoryImpl := mkRepo {
  current_history : RadixHistory;
  history_store : KV;
  roots_repository : KV;
  leaf_store : KV;
}.

Definition cold_actions (storage_actions : list (ColdAction * HistoryAction)) :
  list (Blake2b256Hash * PersistedData) :=
  omap (fun a => (fun data => (a.1.1, data)) <$> a.1.2) storage_actions.
Definition serialize_cold (a : Blake2b256Hash * PersistedData) : bytes * bytes :=
  (ser_byte_vec rc a.1, ser_persisted rc a.2).

(** [fn do_checkpoint]: the leaves are written first, then the history, then the root.
    Errors of the stores and of the history panic. *)
Definition do_checkpoint (trie_actions : list (HotStoreTrieAction C P A K))
    (self : HistoryRepositoryImpl) : res HistoryError HistoryRepositoryImpl :=
  match trie_actions with
  | [] => Ok self
  | _ =>
    let storage_actions := calculate_storage_actions <$> trie_actions in
    match kv_put_if_absent (serialize_cold <$> cold_actions storage_actions) (leaf_store self) with
    | (Ok _, leaves) =>
      match process (blake2b256 cd) (snd <$> storage_actions)
              (current_history self, history_store self) with
      | (Ok new_history, (_, nodes)) =>
        match roots_commit (root_hash new_history) (roots_repository self) with
        | (Ok _, roots) => Ok (mkRepo new_history nodes roots leaves)
        | _ => Panic
        end
      | _ => Panic
      end
    | _ => Panic
    end
  end.

(** [fn checkpoint] *)
Definition checkpoint (actions : list (HotStoreAction C P A K)) (self : HistoryRepositoryImpl) :
  res HistoryError HistoryRepositoryImpl :=
  match actions with
  | [] => Ok self
  | _ => do_checkpoint (transform <$> actions) self
  end.

(** [fn reset]: the root becomes the current one even if its history cannot be loaded. *)
Definition repository_reset (root : Blake2b256Hash) :
  ST HistoryRepositoryImpl (res HistoryError HistoryRepositoryImpl) := fun self =>
  let '(valid, roots) := validate_and_set_current_root root (roots_repository self) in
  let self := mkRepo (current_history self) (history_store self) roots (leaf_store self) in
  (map_err HistoryRootError valid ;;!
   next <-! create root (history_store self);
   Ok (mkRepo next (history_store self) roots (leaf_store self)), self).

(** [fn root], [fn record_root] *)
Definition repository_root (self : HistoryRepositoryImpl) : Blake2b256Hash :=
  root_hash (current_history self).
Definition repository_record_root (root : Blake2b256Hash) :
  ST HistoryRepositoryImpl (res HistoryError unit) := fun self =>
  let '(r, roots) := roots_commit root (roots_repository self) in
  (map_err HistoryRootError r,
   mkRepo (current_history self) (history_store self) roots (leaf_store self)).

(** [HistoryRepositoryInstances::lmdb_repository] *)
Definition lmdb_repository (history_kv roots_kv cold_kv : KV) :
  res HistoryError HistoryRepositoryImpl :=
  let '(root, roots) := current_root (blake2b256 cd) roots_kv in
  root <-! map_err HistoryRootError root;
  history <-! create root history_kv;
  Ok (mkRepo history history_kv roots cold_kv).

(** ** The reader *)

(** [struct RSpaceHistoryReaderImpl] *)
Record RSpaceHistoryReaderImpl := mkHistoryReader {
  target_history : RadixHistory;
  target_store : KV;
  reader_leaf_store : KV;
}.

(** [fn get_history_reader_struct] *)
Definition get_history_reader_struct (state_hash : Blake2b256Hash)
    (self : HistoryRepositoryImpl) : res HistoryError RSpaceHistoryReaderImpl :=
  history_repo <-! create state_hash (history_store self);
  Ok (mkHistoryReader history_repo (history_store self) (leaf_store self)).

(** [fn fetch_data]: the leaf is looked up under the hash and, if absent, under the
    serialized hash, which is the key that [do_checkpoint] writes. *)
Definition fetch_data (prefix : byte) (key : Blake2b256Hash) (self : RSpaceHistoryReaderImpl) :
  res HistoryError (option PersistedData) :=
  read_bytes <-! (history_read (prepend_bytes prefix key)
                    (target_history self, target_store self)).1;
  match read_bytes with
  | Some read_bytes =>
    get_opt <-! map_err HistoryKvStoreError (kv_get_one read_bytes (reader_leaf_store self));
    get_opt <-! match get_opt with
                | Some _ => Ok get_opt
                | None => map_err HistoryKvStoreError
                    (kv_get_one (ser_byte_vec rc read_bytes) (reader_leaf_store self))
                end;
    match get_opt with
    | Some store_value_bytes =>
      match de_persisted rc store_value_bytes with
      | Some decoded => Ok (Some decoded)
      | None => Err (ActionError
          "RSpace History Reader Impl: Failed to deserialize persisted leaf")
      end
    | None => Ok None
    end
  | None => Ok None
  end.

(** The bytes of a leaf of the expected kind; any other leaf is a panic. *)
Definition data_leaf (d : PersistedData) : option bytes :=
  match d with DataLeaf b => Some b | _ => None end.
Definition continuations_leaf (d : PersistedData) : option bytes :=
  match d with ContinuationsLeaf b => Some b | _ => None end.
Definition joins_leaf (d : PersistedData) : option bytes :=
  match d with JoinsLeaf b => Some b | _ => None end.

(** The common shape of the six projections. *)
Definition get_proj {X} (prefix : byte) (leaf : PersistedData -> option bytes)
    (decode : bytes -> res HistoryError (list X)) (key : Blake2b256Hash)
    (self : RSpaceHistoryReaderImpl) : res HistoryError (list X) :=
  found <-! fetch_data prefix key self;
  match found with
  | Some p => b <-! unwrap (leaf p); decode b
  | None => Ok []
  end.
Definition reader_data_proj := get_proj PREFIX_DATUM data_leaf (decode_datums rc).
Definition reader_continuations_proj :=
  get_proj PREFIX_KONT continuations_leaf (decode_continuations rc).
Definition reader_joins_proj := get_proj PREFIX_JOINS joins_leaf (decode_joins rc).
Definition reader_data_proj_binary :=
  get_proj PREFIX_DATUM data_leaf (fun b => unwrap (de_byte_vecs rc b)).
Definition reader_continuations_proj_binary :=
  get_proj PREFIX_KONT continuations_leaf (fun b => unwrap (de_byte_vecs rc b)).
Definition reader_joins_proj_binary :=
  get_proj PREFIX_JOINS joins_leaf (fun b => unwrap (de_byte_vecs rc b)).

(** [fn base].  Its methods panic where a projection fails; the interface of the hot store
    has no panic, so such a read is left empty here; [reader_never_panics] ([HistoryThms])
    shows that on a repository that satisfies its invariant no projection fails. *)
Definition expect {E X} (r : res E (list X)) : list X :=
  match r with Ok row => row | _ => [] end.
Definition reader_base (self : RSpaceHistoryReaderImpl) : HistoryReaderBase C P A K := {|
  get_data_proj key := expect (reader_data_proj (hash cd key) self);
  get_continuations_proj key := expect (reader_continuations_proj (hash_from_vec cd key) self);
  get_joins_proj key := expect (reader_joins_proj (hash cd key) self);
|}.
End repository.
Arguments HistoryRepositoryImpl : clear implicits.
Arguments RSpaceHistoryReaderImpl : clear implicits.
