(* ===== verification/HistoryRepoSpec.v ===== *)
(** * What the history repository stores

    The invariant of the repository: every recorded root names a trie whose nodes are in
    the history store and whose values are hashes of leaves in the leaf store, each of the
    kind its key asks for.  Checkpoints and resets keep it, readers of a recorded root
    never fail, and leaves and nodes are never overwritten.  Hashes are assumed free of
    collisions on the nodes, leaves, channels and channel vectors in use. *)
From S2P Require Import Prelude Events HotStoreSig HotStore RSpace KeyValueStore Serializers.
From S2P Require Import RadixCodec RadixTree RadixSpec RadixRefine RadixActions RadixHistory.
From S2P Require Import HistoryRepo.
Open Scope res_scope.

(** The length of a key of the history, a prefix and a hash, less one. *)
Definition KEY_SIZE : nat := 32.

(** A batch of changes without repeated keys: a key holds what its change says, or what it
    held before. *)
Lemma apply_changes_cases (acts : list change) (f : bytes -> option bytes) k :
  NoDup acts.*1 ->
  (exists v, (k, v) ∈ acts /\ apply_changes acts f k = v) \/
  (k ∉ acts.*1 /\ apply_changes acts f k = f k).
Proof.
  revert f. induction acts as [|[k' v] acts IH]; intros f Hnd.
  { right. split; [apply not_elem_of_nil|done]. }
  csimpl in Hnd. apply NoDup_cons in Hnd as [Hnot Hnd]. csimpl.
  unfold apply_changes. simpl. fold (apply_changes acts (<[k' := v]> f) k).
  destruct (IH (<[k' := v]> f) Hnd) as [(v' & Hin & Hv)|[Hn Hv]].
  - left. exists v'. split; [by right|done].
  - rewrite fn_lookup_insert_decide in Hv. case_decide as Hk.
    + subst k'. left. exists v. split; [by left|done].
    + right. split; [|done]. rewrite not_elem_of_cons. by split.
Qed.

Lemma apply_changes_in (acts : list change) (f : bytes -> option bytes) k v :
  NoDup acts.*1 -> (k, v) ∈ acts -> apply_changes acts f k = v.
Proof.
  intros Hnd Hin. destruct (apply_changes_cases acts f k Hnd) as [(v' & Hin' & ->)|[Hn _]].
  - apply (elem_of_list_to_map_1 (M:=gmap bytes)) in Hin, Hin'; congruence.
  - destruct Hn. apply list_elem_of_fmap. by exists (k, v).
Qed.

Lemma apply_changes_out (acts : list change) (f : bytes -> option bytes) k :
  k ∉ acts.*1 -> apply_changes acts f k = f k.
Proof.
  revert f. induction acts as [|[k' v] acts IH]; intros f Hn; [done|].
  csimpl in Hn. apply not_elem_of_cons in Hn as [Hne Hn].
  unfold apply_changes. simpl. fold (apply_changes acts (<[k' := v]> f) k).
  rewrite IH by done. by rewrite fn_lookup_insert_ne.
Qed.

Section spec.
Context {C P A K KV : Type} `{Countable C}.
Context `{!KeyValueStore KV, !KeyValueStoreLaws KV, !DashOrder, !DashOrderLaws}.
Context (cd : Codecs C P A K) (rc : RowCodecs C P A K) `{!RowCodecsLaws rc}.
(** The nodes and the leaves in use. *)
Context (U : Node -> Prop) (L : PersistedData -> Prop).

Abbreviation blake := (blake2b256 cd).
Abbreviation leaf_hash := (leaf_hash cd rc).
Abbreviation repo := (HistoryRepositoryImpl KV).
Abbreviation reader := (RSpaceHistoryReaderImpl KV).

Context (HU : collision_free blake U).
Context (HL : forall d d', L d -> L d' -> leaf_hash d = leaf_hash d' -> d = d').

Lemma leaf_hash_length d : length (leaf_hash d) = DEF_SIZE.
Proof. apply (cf_blake _ _ HU). Qed.

(** ** The invariant *)

(** The leaf under a key is a row of the kind that the prefix of the key stands for. *)
Definition leaf_for (k : bytes) (d : PersistedData) : Prop :=
  match k with
  | [] => False
  | p :: _ =>
    (p = PREFIX_DATUM /\ exists row, d = DataLeaf (encode_datums rc row)) \/
    (p = PREFIX_KONT /\ exists row, d = ContinuationsLeaf (encode_continuations rc row)) \/
    (p = PREFIX_JOINS /\ exists row, d = JoinsLeaf (encode_joins rc row))
  end.

(** The leaf store holds leaves in use under their serialized hashes, and nothing else. *)
Definition leaves_inv (s : KV) : Prop := forall k b, kv_map s !! k = Some b ->
  exists d, L d /\ k = ser_byte_vec rc (leaf_hash d) /\ b = ser_persisted rc d.

(** The value [v] that the history has under [k] is the hash of a stored leaf. *)
Definition leaf_ok (s : KV) (k v : bytes) : Prop :=
  exists d, L d /\ v = leaf_hash d /\ leaf_for k d /\
    kv_map s !! ser_byte_vec rc v = Some (ser_persisted rc d).

Record root_ok (cs : forest) (nodes leaves : KV) : Prop := {
  ro_committed : committed blake KEY_SIZE cs nodes;
  ro_nodes : nodes_in blake U cs;
  ro_leaves : forall k v, fget cs k = Some v -> leaf_ok leaves k v;
}.

(** The roots that [reset] accepts. *)
Definition recorded_root (h : repo) (root : Blake2b256Hash) : Prop :=
  root <> current_root_name /\ is_Some (kv_map (roots_repository h) !! root).

Abbreviation current cs h := (represents blake U KEY_SIZE cs (current_history h) (history_store h)).

Record repo_inv (h : repo) : Prop := {
  ri_nodes : store_ok blake U (history_store h);
  ri_leaves : leaves_inv (leaf_store h);
  ri_roots : forall root, recorded_root h root -> exists cs,
    root = node_hash blake (items blake cs) /\ root_ok cs (history_store h) (leaf_store h);
  ri_recorded : recorded_root h (repository_root h);
  ri_name : kv_map (roots_repository h) !! current_root_name = Some (repository_root h);
  ri_current : exists cs, current cs h /\ root_ok cs (history_store h) (leaf_store h);
}.

Lemma leaf_ok_mono s s' k v : kv_map s ⊆ kv_map s' -> leaf_ok s k v -> leaf_ok s' k v.
Proof.
  intros Hsub (d & ? & ? & ? & Hd). exists d. split_and!; try done. by eapply lookup_weaken.
Qed.

Lemma root_ok_mono cs nodes nodes' leaves leaves' :
  kv_map nodes ⊆ kv_map nodes' -> kv_map leaves ⊆ kv_map leaves' ->
  root_ok cs nodes leaves -> root_ok cs nodes' leaves'.
Proof.
  intros Hn Hl [Hc Hu Hlv]. split; [by eapply committed_mono|done|].
  intros k v Hk. eapply leaf_ok_mono; [exact Hl|by apply Hlv].
Qed.

(** ** Reading *)

Record reader_ok (cs : forest) (rd : reader) : Prop := {
  rd_history : represents blake U KEY_SIZE cs (target_history rd) (target_store rd);
  rd_leaves : leaves_inv (reader_leaf_store rd);
  rd_values : forall k v, fget cs k = Some v -> leaf_ok (reader_leaf_store rd) k v;
}.

Lemma get_reader_spec h cs root :
  repo_inv h -> root = node_hash blake (items blake cs) ->
  root_ok cs (history_store h) (leaf_store h) ->
  exists rd, get_history_reader_struct root h = Ok rd /\ reader_ok cs rd.
Proof.
  intros Hi -> [Hc Hu Hl].
  destruct (create_spec blake U HU KEY_SIZE cs (history_store h) (ri_nodes _ Hi) Hc Hu)
    as (x & Hx & Hr).
  unfold get_history_reader_struct. rewrite Hx. simpl. eexists. split; [done|].
  split; [done|apply Hi|done].
Qed.

(** A leaf is never found under its bare hash, that key is too short. *)
Lemma bare_hash_absent s d : leaves_inv s -> kv_map s !! leaf_hash d = None.
Proof.
  intros Hl. destruct (kv_map s !! leaf_hash d) as [b|] eqn:Hb; [|done].
  destruct (Hl _ _ Hb) as (d' & _ & Hk & _). apply (f_equal length) in Hk.
  rewrite ser_byte_vec_length, !leaf_hash_length in Hk. lia.
Qed.

Lemma fetch_spec cs rd p key : reader_ok cs rd ->
  match fget cs (p :: key) with
  | None => fetch_data rc p key rd = Ok None
  | Some v => exists d, fetch_data rc p key rd = Ok (Some d) /\ L d /\ v = leaf_hash d /\
      leaf_for (p :: key) d
  end.
Proof.
  intros [Hh Hl Hv]. unfold fetch_data, prepend_bytes.
  destruct (read_spec blake U HU KEY_SIZE cs _ _ (p :: key) Hh) as (h' & -> & _).
  cbn [fst res_bind]. destruct (fget cs (p :: key)) as [v|] eqn:Hk; [|done].
  destruct (Hv _ _ Hk) as (d & Hd & -> & Hfor & Hs).
  rewrite !kv_get_one_spec, bare_hash_absent, Hs by done. simpl.
  rewrite persisted_roundtrip. by exists d.
Qed.

(** Readers of tries that agree on a key fetch the same leaf. *)
Lemma fetch_same cs cs' rd rd' p key : reader_ok cs rd -> reader_ok cs' rd' ->
  fget cs' (p :: key) = fget cs (p :: key) -> fetch_data rc p key rd' = fetch_data rc p key rd.
Proof.
  intros Hr1%(fetch_spec cs rd p key) Hr2%(fetch_spec cs' rd' p key) Heq. rewrite Heq in Hr2.
  destruct (fget cs (p :: key)) as [v|]; [|congruence].
  destruct Hr1 as (d & -> & Hd & Hv & _), Hr2 as (d' & -> & Hd' & Hv' & _).
  by rewrite (HL d d') by congruence.
Qed.

Lemma reader_base_same cs rd rd' : reader_ok cs rd -> reader_ok cs rd' ->
  history_view (reader_base cd rc rd) ≡ history_view (reader_base cd rc rd').
Proof.
  intros Hr1 Hr2. unfold reader_base, reader_data_proj, reader_continuations_proj,
    reader_joins_proj, get_proj.
  repeat split; intros; simpl; by rewrite (fetch_same cs cs rd' rd).
Qed.

(** ** Writing leaves and roots *)

Lemma put_leaves_spec (s : KV) (cold : list (Blake2b256Hash * PersistedData)) :
  leaves_inv s -> (forall k d, (k, d) ∈ cold -> k = leaf_hash d /\ L d) ->
  exists s', kv_put_if_absent (serialize_cold rc <$> cold) s = (Ok tt, s') /\
    leaves_inv s' /\ kv_map s ⊆ kv_map s' /\
    (forall k d, (k, d) ∈ cold -> kv_map s' !! ser_byte_vec rc k = Some (ser_persisted rc d)).
Proof.
  intros Hs Hc. destruct (kv_put_if_absent_keeps (serialize_cold rc <$> cold) s)
    as (s' & Hput & Hsub & Hin & Hold). exists s'. split; [done|].
  assert (leaves_inv s') as Hs'.
  { intros k b [Hb|Hb]%Hold; [by apply Hs|].
    apply list_elem_of_fmap in Hb as ([k' d] & [= -> ->] & Hkd).
    destruct (Hc _ _ Hkd) as [-> ?]. by exists d. }
  split_and!; [done|done|]. intros k d Hkd. destruct (Hc _ _ Hkd) as [-> Hd].
  destruct (Hin (ser_byte_vec rc (leaf_hash d)) (ser_persisted rc d)) as [b Hb].
  { apply list_elem_of_fmap. by exists (leaf_hash d, d). }
  destruct (Hs' _ _ Hb) as (d' & Hd' & Hk & ->). apply ser_byte_vec_inj in Hk.
  by rewrite Hb, (HL d d').
Qed.

Lemma kv_put_one_spec (s : KV) k v :
  exists s', kv_put_one k v s = (Ok tt, s') /\ kv_map s' = <[k := v]> (kv_map s).
Proof. destruct (kv_put_spec s [(k, v)]) as (s' & ? & ?). by exists s'. Qed.

Lemma record_root_spec (s : KV) root :
  exists s', record_root root s = (Ok tt, s') /\
    kv_map s' = <[current_root_name := root]> (<[root := root_tag]> (kv_map s)).
Proof.
  unfold record_root, try_bind, lift. destruct (kv_put_one_spec s root root_tag) as (s1 & -> & E1).
  destruct (kv_put_one_spec s1 current_root_name root) as (s2 & -> & E2).
  exists s2. simpl. by rewrite E2, E1.
Qed.

Lemma validate_root_spec (s : KV) root : is_Some (kv_map s !! root) ->
  exists s', validate_and_set_current_root root s = (Ok tt, s') /\
    kv_map s' = <[current_root_name := root]> (kv_map s).
Proof.
  intros [b Hb]. unfold validate_and_set_current_root, roots_validate_and_set_current_root,
    try_bind, gets, lift. rewrite kv_get_one_spec, Hb. simpl.
  destruct (kv_put_one_spec s current_root_name root) as (s' & -> & E). by exists s'.
Qed.

Lemma validate_root_unknown (s : KV) root : kv_map s !! root = None ->
  validate_and_set_current_root root s =
    (Err (UnknownRootError ("unknown root: " +:+ hash_to_string root)), s).
Proof.
  intros Hn. unfold validate_and_set_current_root, roots_validate_and_set_current_root,
    try_bind, gets, lift. by rewrite kv_get_one_spec, Hn.
Qed.

(** ** Checkpoints *)

(** A leaf in use entered under a key of its kind, or a key deleted. *)
Inductive storage_ok : (Blake2b256Hash * option PersistedData) * HistoryAction -> Prop :=
| insert_ok p key d : length key = DEF_SIZE -> L d -> leaf_for (p :: key) d ->
    storage_ok (insert_leaf cd rc p key d)
| delete_ok p key : length key = DEF_SIZE -> storage_ok (delete_leaf p key).

Lemma storage_change_ok a : storage_ok a -> change_ok (S KEY_SIZE) (change_of a.2).
Proof.
  intros [p key d Hl _ _|p key Hl]; split; simpl; try (rewrite Hl; done).
  - intros v [= <-]. apply leaf_hash_length.
  - done.
Qed.

Lemma storage_cold l k d : Forall storage_ok l -> (k, d) ∈ cold_actions l ->
  k = leaf_hash d /\ L d.
Proof.
  intros Hl. unfold cold_actions. rewrite list_elem_of_omap. intros (a & Ha & Hkd).
  rewrite Forall_forall in Hl. destruct (Hl a Ha) as [p key d' _ Hd _|p key _]; naive_solver.
Qed.

(** A value that the batch enters is the hash of a leaf that it writes. *)
Lemma storage_value l k v : Forall storage_ok l ->
  (k, Some v) ∈ change_of <$> l.*2 ->
  exists d, (v, d) ∈ cold_actions l /\ v = leaf_hash d /\ L d /\ leaf_for k d.
Proof.
  intros Hl (x & Hx & (a & -> & Ha)%list_elem_of_fmap)%list_elem_of_fmap.
  rewrite Forall_forall in Hl. destruct (Hl a Ha) as [p key d Hlen Hd Hf|p key _]; [|done].
  simpl in Hx. simplify_eq. exists d. split_and!; [|done..].
  unfold cold_actions. apply list_elem_of_omap. by exists (insert_leaf cd rc p key d).
Qed.

(** What a repository [h'] that came from [h] keeps, with [cs] its current trie. *)
Record advanced (cs : forest) (h h' : repo) : Prop := {
  adv_inv : repo_inv h';
  adv_current : current cs h';
  adv_root : root_ok cs (history_store h') (leaf_store h');
  adv_nodes : kv_map (history_store h) ⊆ kv_map (history_store h');
  adv_leaves : kv_map (leaf_store h) ⊆ kv_map (leaf_store h');
  adv_recorded : forall root, recorded_root h root -> recorded_root h' root;
  adv_only : forall root, recorded_root h' root ->
    recorded_root h root \/ root = repository_root h';
}.

Lemma hash_not_name root : length root = DEF_SIZE -> root <> current_root_name.
Proof. by intros Hl ->. Qed.

Lemma advance cs h x nodes leaves :
  repo_inv h -> represents blake U KEY_SIZE cs x nodes -> root_ok cs nodes leaves ->
  leaves_inv leaves -> kv_map (history_store h) ⊆ kv_map nodes ->
  kv_map (leaf_store h) ⊆ kv_map leaves ->
  exists roots, roots_commit (root_hash x) (roots_repository h) = (Ok tt, roots) /\
    advanced cs h (mkRepo x nodes roots leaves).
Proof.
  intros Hi Hx Hroot Hl Hsn Hsl.
  destruct (record_root_spec (roots_repository h) (root_hash x)) as (roots & Hrec & Hmap).
  exists roots. split; [done|]. set (h' := mkRepo x nodes roots leaves).
  assert (length (root_hash x) = DEF_SIZE) as Hlen.
  { rewrite (rep_root_hash _ _ _ _ _ _ Hx). apply (cf_blake _ _ HU). }
  apply hash_not_name in Hlen.
  assert (forall root, recorded_root h' root <->
    recorded_root h root \/ root = root_hash x) as Hrr.
  { intros root. unfold recorded_root. simpl. rewrite Hmap, !lookup_insert_is_Some'.
    naive_solver. }
  split; try done.
  - split; simpl; try done.
    + by apply (inv_store_ok blake U (imple x nodes)), Hx.
    + intros root [Hr| ->]%Hrr.
      * destruct (ri_roots _ Hi root Hr) as (cs0 & ? & ?). exists cs0. split; [done|].
        by eapply root_ok_mono.
      * exists cs. split; [apply Hx|done].
    + apply Hrr. by right.
    + by rewrite Hmap, lookup_insert_eq.
    + by exists cs.
  - intros root Hr. apply Hrr. by left.
  - intros root. apply Hrr.
Qed.

Lemma do_checkpoint_spec h cs l :
  repo_inv h -> current cs h -> root_ok cs (history_store h) (leaf_store h) -> l <> [] ->
  let acts := calculate_storage_actions cd rc <$> l in
  Forall storage_ok acts -> NoDup (action_key <$> acts.*2) ->
  let cs' := foldl fact cs (change_of <$> acts.*2) in
  nodes_in blake U cs' ->
  exists h', do_checkpoint cd rc l h = Ok h' /\ advanced cs' h h'.
Proof.
  intros Hi Hcur Hroot Hne acts Hok Hnd cs' Hn. unfold do_checkpoint.
  destruct l as [|a0 l0]; [done|]. fold acts.
  destruct (put_leaves_spec (leaf_store h) (cold_actions acts) (ri_leaves _ Hi))
    as (leaves & -> & Hlv & Hsl & Hput); [intros k d; by apply storage_cold|].
  assert (Forall (change_ok (S KEY_SIZE)) (change_of <$> acts.*2)) as Hch.
  { rewrite !Forall_fmap. eapply Forall_impl; [done|]. apply storage_change_ok. }
  destruct (process_spec blake U HU KEY_SIZE cs (current_history h) (history_store h) acts.*2)
    as (x & h1 & nodes & -> & Hx & Hsn); [done..|]. fold cs' in Hx.
  destruct (advance cs' h x nodes leaves) as (roots & -> & Hadv); try done.
  - split; [apply Hx|done|]. intros k v Hk. unfold cs' in Hk.
    rewrite (fget_facts KEY_SIZE) in Hk; [|apply Hcur|done].
    destruct (apply_changes_cases (change_of <$> acts.*2) (fget cs) k) as [(v' & Hin & Hv)|[_ Hv]].
    + rewrite <-list_fmap_compose. erewrite list_fmap_ext; [exact Hnd|].
      intros i x' _. apply change_of_key.
    + rewrite Hv in Hk. subst v'.
      destruct (storage_value acts k v Hok Hin) as (d & Hd & -> & ? & ?). exists d.
      split_and!; try done. by apply Hput.
    + rewrite Hv in Hk. eapply leaf_ok_mono; [exact Hsl|]. by apply Hroot.
  - by eexists.
Qed.

(** ** Reset *)

Lemma reset_known h root : repo_inv h -> recorded_root h root ->
  exists h' h1, repository_reset root h = (Ok h', h1) /\ repo_inv h' /\
    repository_root h' = root /\ history_store h' = history_store h /\
    leaf_store h' = leaf_store h /\
    (forall root', recorded_root h' root' <-> recorded_root h root').
Proof.
  intros Hi Hr. pose proof Hr as [Hname Hs].
  destruct (validate_root_spec (roots_repository h) root Hs) as (roots & Hv & Hmap).
  destruct (ri_roots _ Hi root Hr) as (cs & Hroot & Hok).
  destruct (create_spec blake U HU KEY_SIZE cs (history_store h))
    as (x & Hx & Hrep); [apply Hi|apply Hok|apply Hok|]. rewrite <-Hroot in Hx.
  unfold repository_reset. rewrite Hv. simpl. rewrite Hx. simpl. eexists _, _. split; [done|].
  set (h' := mkRepo x _ roots _).
  assert (forall root', recorded_root h' root' <-> recorded_root h root') as Hrr.
  { intros root'. unfold recorded_root. simpl. rewrite Hmap, lookup_insert_is_Some'.
    naive_solver. }
  assert (repository_root h' = root) as Hr'.
  { unfold repository_root. simpl. by rewrite (rep_root_hash _ _ _ _ _ _ Hrep). }
  split_and!; try done. split; try apply Hi.
  - intros root' Hr''%Hrr. by apply (ri_roots _ Hi).
  - by rewrite Hr', Hrr.
  - rewrite Hr'. simpl. by rewrite Hmap, lookup_insert_eq.
  - by exists cs.
Qed.

Lemma reset_unknown h root : kv_map (roots_repository h) !! root = None ->
  repository_reset root h =
    (Err (HistoryRootError (UnknownRootError ("unknown root: " +:+ hash_to_string root))), h).
Proof.
  intros Hn. unfold repository_reset. rewrite validate_root_unknown by done. by destruct h.
Qed.

(** ** Opening *)

Lemma create_current h cs : repo_inv h -> current cs h ->
  exists x, create (repository_root h) (history_store h) = Ok x /\
    represents blake U KEY_SIZE cs x (history_store h).
Proof.
  intros Hi Hcur. unfold repository_root. rewrite (rep_root_hash _ _ _ _ _ _ Hcur).
  apply (create_spec blake U HU KEY_SIZE); [apply Hi|apply Hcur|apply Hcur].
Qed.

(** Opening the stores of a repository again gives a repository at its root. *)
Lemma reopen_spec h : repo_inv h ->
  exists h', lmdb_repository cd (history_store h) (roots_repository h) (leaf_store h) = Ok h' /\
    repo_inv h' /\ repository_root h' = repository_root h /\
    history_store h' = history_store h /\ roots_repository h' = roots_repository h /\
    leaf_store h' = leaf_store h.
Proof.
  intros Hi. destruct (ri_current _ Hi) as (cs & Hcur & Hok).
  destruct (create_current h cs Hi Hcur) as (x & Hx & Hrep).
  unfold lmdb_repository, current_root, try_bind, gets, lift, roots_current_root.
  rewrite kv_get_one_spec, (ri_name _ Hi). simpl. rewrite Hx. simpl. eexists. split; [done|].
  assert (root_hash x = repository_root h) as Hroot.
  { unfold repository_root. by rewrite (rep_root_hash _ _ _ _ _ _ Hcur), <-(rep_root_hash _ _ _ _ _ _ Hrep). }
  split_and!; try done. split; try apply Hi.
  - unfold repository_root. simpl. rewrite Hroot. apply Hi.
  - unfold repository_root. simpl. rewrite Hroot. apply Hi.
  - by exists cs.
Qed.

(** Opening empty stores gives the empty repository at the empty root. *)
Lemma open_empty_spec (nodes roots leaves : KV) :
  kv_map nodes = ∅ -> kv_map roots = ∅ -> kv_map leaves = ∅ -> nodes_in blake U no_trees ->
  exists h, lmdb_repository cd nodes roots leaves = Ok h /\ repo_inv h /\
    current no_trees h /\ (forall root, recorded_root h root -> root = repository_root h).
Proof.
  intros Hn Hr Hl Hu.
  assert (store_ok blake U nodes) as Hst by (intros k b; by rewrite Hn, lookup_empty).
  assert (committed blake KEY_SIZE no_trees nodes) as Hc.
  { split; [apply wf_no_trees|]. split; [|by left].
    intros i c ->%lookup_no_trees ds Hd. inversion Hd. }
  destruct (create_spec blake U HU KEY_SIZE no_trees nodes Hst Hc Hu) as (x & Hx & Hrep).
  unfold lmdb_repository, current_root, try_bind, gets, lift, roots_current_root,
    root_err. rewrite kv_get_one_spec, Hr, lookup_empty. cbn [map_err].
  assert (empty_root_node_hash blake = Ok (node_hash blake (items blake no_trees))) as ->.
  { by rewrite items_no_trees. }
  destruct (record_root_spec roots (node_hash blake (items blake no_trees))) as (roots' & -> & Hm).
  cbn [map_err res_bind]. rewrite Hx. cbn [res_bind]. eexists. split; [done|].
  set (h := mkRepo x nodes roots' leaves).
  assert (repository_root h = node_hash blake (items blake no_trees)) as Hroot by apply Hrep.
  assert (forall root, recorded_root h root <-> root = repository_root h) as Hrr.
  { intros root. unfold recorded_root. rewrite Hroot. simpl.
    rewrite Hm, Hr, !lookup_insert_is_Some', lookup_empty.
    assert (node_hash blake (items blake no_trees) <> current_root_name).
    { apply hash_not_name, (cf_blake _ _ HU). }
    split; [|naive_solver]. intros [? [?|[?|[? ?]]]]; naive_solver. }
  assert (root_ok no_trees nodes leaves) as Hok.
  { split; [done|done|]. intros k v. by rewrite fget_no_trees. }
  split_and!; [|done|intros root; apply Hrr]. split; try done.
  - intros k b. simpl. by rewrite Hl, lookup_empty.
  - intros root ->%Hrr. exists no_trees. by rewrite Hroot.
  - by apply Hrr.
  - simpl. by rewrite Hm, lookup_insert_eq, Hroot.
  - by exists no_trees.
Qed.
End spec.
