(* ===== verification/HistoryRows.v ===== *)
(** * Rows of a checkpointed history

    The repository keeps its promise to the tuple space ([HistoryRepositoryLaws]): after a
    checkpoint the reader of the new root shows the rows with the actions applied, every
    earlier root shows what it showed, and a reset goes back to any recorded root.  Data,
    continuations and joins are three [kind]s of rows and the argument is made once. *)
From S2P Require Import Prelude Events HotStoreSig HotStore RSpace RSpaceCheckpoint.
From S2P Require Import KeyValueStore Serializers RadixCodec RadixTree RadixSpec RadixRefine.
From S2P Require Import RadixActions RadixHistory HistoryRepo HistoryRepoSpec.
Open Scope res_scope.

Lemma last_upd_in {I X} `{Countable I} (l : list (I * X)) x y i :
  NoDup l.*1 -> (i, y) ∈ l -> last_upd l x i = y.
Proof.
  intros Hnd Hin. unfold last_upd.
  rewrite (elem_of_list_to_map_1 (reverse l) i y); [done| |by apply elem_of_reverse].
  rewrite fmap_reverse. by rewrite reverse_Permutation.
Qed.

Lemma last_upd_out {I X} `{Countable I} (l : list (I * X)) x i :
  i ∉ l.*1 -> last_upd l x i = x.
Proof.
  intros Hn. unfold last_upd. rewrite not_elem_of_list_to_map_1; [done|].
  by rewrite fmap_reverse, elem_of_reverse.
Qed.

Section rows.
Context {C P A K KV : Type} `{Countable C}.
Context `{!KeyValueStore KV, !KeyValueStoreLaws KV, !DashOrder, !DashOrderLaws}.
Context (cd : Codecs C P A K) (rc : RowCodecs C P A K) `{!RowCodecsLaws rc}.
Context (U : Node -> Prop) (L : PersistedData -> Prop).
(** The channels and channel vectors in use. *)
Context (ch_in : C -> Prop) (chs_in : list C -> Prop).

Abbreviation blake := (blake2b256 cd).
Abbreviation leaf_hash := (leaf_hash cd rc).
Abbreviation action := (HotStoreAction C P A K).
Abbreviation repo := (HistoryRepositoryImpl KV).
Abbreviation repo_inv := (repo_inv cd rc U L).
Abbreviation current cs h := (represents blake U KEY_SIZE cs (current_history h) (history_store h)).

(** The hash has no collision on what is in use.  [hash_from_vec] sorts the hashes of the
    channels, so that a permutation of a vector has the hash of the vector whatever the hash
    function is: [hd_vectors] asks more than that there is no collision, namely that of the
    permutations of a vector at most one is in use. *)
Record hashes_distinct : Prop := {
  hd_nodes : collision_free blake U;
  hd_leaves : forall d d', L d -> L d' -> leaf_hash d = leaf_hash d' -> d = d';
  hd_channels : forall c c', ch_in c -> ch_in c' -> hash cd c = hash cd c' -> c = c';
  hd_vectors : forall l l', chs_in l -> chs_in l' ->
    hash_from_vec cd l = hash_from_vec cd l' -> l = l';
  hd_members : forall chs ch, chs_in chs -> ch ∈ chs -> ch_in ch;
}.
Context (HH : hashes_distinct).

(** What is stored and what is entered into the history for an action. *)
Definition storage (a : action) : (Blake2b256Hash * option PersistedData) * HistoryAction :=
  calculate_storage_actions cd rc (transform cd a).

(** The channels of an action are in use. *)
Definition action_in (a : action) : Prop :=
  match a with
  | Insert (InsertData ch _) | Delete (DeleteData ch)
  | Insert (InsertJoins ch _) | Delete (DeleteJoins ch) => ch_in ch
  | Insert (InsertContinuations chs _) | Delete (DeleteContinuations chs) => chs_in chs
  end.

(** ** Kinds of rows *)

Record kind (I X : Type) := mkKind {
  k_prefix : byte;
  k_hash : I -> Blake2b256Hash;
  k_mk : bytes -> PersistedData;
  k_leaf : PersistedData -> option bytes;
  k_ser : X -> bytes;
  k_de : bytes -> option X;
  k_upd : action -> option (I * list X);
  k_in : I -> Prop;
}.
Arguments k_prefix {I X} _.
Arguments k_hash {I X} _ _.
Arguments k_mk {I X} _ _.
Arguments k_leaf {I X} _ _.
Arguments k_ser {I X} _ _.
Arguments k_de {I X} _ _.
Arguments k_upd {I X} _ _.
Arguments k_in {I X} _ _.

Definition k_row {I X} (kd : kind I X) (row : list X) : PersistedData :=
  k_mk kd (encode_row rc (k_ser kd) row).
Definition k_key {I X} (kd : kind I X) (i : I) : bytes := k_prefix kd :: k_hash kd i.
(** The projection of the reader. *)
Definition k_proj {I X} (kd : kind I X) (i : I) (rd : RSpaceHistoryReaderImpl KV) :
  res HistoryError (list X) :=
  get_proj rc (k_prefix kd) (k_leaf kd) (decode_row rc (k_de kd)) (k_hash kd i) rd.

Record kind_ok {I X} (kd : kind I X) : Prop := {
  ko_leaf : forall b, k_leaf kd (k_mk kd b) = Some b;
  ko_de : forall x, k_de kd (k_ser kd x) = Some x;
  ko_inj : forall i j, k_in kd i -> k_in kd j -> k_hash kd i = k_hash kd j -> i = j;
  ko_for : forall key d, leaf_for rc (k_prefix kd :: key) d -> exists row, d = k_row kd row;
  ko_upd : forall a i row, k_upd kd a = Some (i, row) ->
    storage a = insert_leaf cd rc (k_prefix kd) (k_hash kd i) (k_row kd row) \/
    (row = [] /\ storage a = delete_leaf (k_prefix kd) (k_hash kd i));
  ko_key : forall a key, action_key (storage a).2 = k_prefix kd :: key ->
    exists i row, k_upd kd a = Some (i, row) /\ key = k_hash kd i;
  ko_in : forall a i row, action_in a -> k_upd kd a = Some (i, row) -> k_in kd i;
}.

Definition data_kind : kind C (Datum A) := mkKind _ _ PREFIX_DATUM (hash cd) DataLeaf data_leaf
  (ser_datum_row rc) (de_datum_row rc) data_upd ch_in.
Definition continuations_kind : kind (list C) (WaitingContinuation P K) := mkKind _ _
  PREFIX_KONT (hash_from_vec cd) ContinuationsLeaf continuations_leaf
  (ser_continuation_row rc) (de_continuation_row rc) conts_upd chs_in.
Definition joins_kind : kind C (list C) := mkKind _ _ PREFIX_JOINS (hash cd) JoinsLeaf joins_leaf
  (ser_join_row rc) (de_join_row rc) joins_upd ch_in.

Ltac solve_kind :=
  split; simpl;
  [done|apply datum_row_roundtrip || apply continuation_row_roundtrip || apply join_row_roundtrip
  |apply (hd_channels HH) || apply (hd_vectors HH)
  |intros key d [[? [row ?]]|[[? [row ?]]|[? [row ?]]]]; try done; by exists row
  |intros [[]|[]] i row; simpl; intros; simplify_eq; auto
  |intros [[]|[]] key; simpl; unfold prepend_bytes; intros Hk;
     first [discriminate Hk|injection Hk as <-; by eexists _, _]
  |intros [[]|[]] i row; simpl; intros; by simplify_eq].

Lemma data_kind_ok : kind_ok data_kind.
Proof. solve_kind. Qed.
Lemma continuations_kind_ok : kind_ok continuations_kind.
Proof. solve_kind. Qed.
Lemma joins_kind_ok : kind_ok joins_kind.
Proof. solve_kind. Qed.

(** ** Reading and changing a row *)

Abbreviation reader_ok := (reader_ok cd rc U L).
Abbreviation changes_of l := (change_of <$> (storage <$> l).*2).

Lemma proj_spec {I X} (kd : kind I X) cs rd i : kind_ok kd -> reader_ok cs rd ->
  exists row, k_proj kd i rd = Ok row /\
    match fget cs (k_key kd i) with
    | None => row = []
    | Some v => exists row0, row ≡ₚ row0 /\ v = leaf_hash (k_row kd row0) /\ L (k_row kd row0)
    end.
Proof.
  intros Hk Hr. unfold k_proj, get_proj, k_key.
  pose proof (fetch_spec cd rc U L (hd_nodes HH) cs rd (k_prefix kd) (k_hash kd i) Hr) as Hf.
  destruct (fget cs _) as [v|]; [|rewrite Hf; by exists []].
  destruct Hf as (d & -> & Hd & -> & (row0 & ->)%(ko_for _ Hk)). simpl.
  unfold k_row at 1. rewrite (ko_leaf _ Hk). simpl.
  destruct (decode_encode_row rc (k_ser kd) (k_de kd) row0 (ko_de _ Hk)) as (row & -> & Hrow).
  exists row. split; [done|]. by exists row0.
Qed.

Lemma proj_same {I X} (kd : kind I X) cs cs' rd rd' i : reader_ok cs rd -> reader_ok cs' rd' ->
  fget cs' (k_key kd i) = fget cs (k_key kd i) -> k_proj kd i rd' = k_proj kd i rd.
Proof.
  intros Hr Hr' Heq. unfold k_proj, get_proj.
  by rewrite (fetch_same cd rc U L (hd_nodes HH) (hd_leaves HH) cs cs' rd rd').
Qed.

Lemma upd_key {I X} (kd : kind I X) a i row : kind_ok kd -> k_upd kd a = Some (i, row) ->
  action_key (storage a).2 = k_key kd i.
Proof. intros Hk Hu. by destruct (ko_upd _ Hk _ _ _ Hu) as [->|[_ ->]]. Qed.

Lemma upd_NoDup {I X} (kd : kind I X) (l : list action) : kind_ok kd ->
  NoDup (action_key <$> (storage <$> l).*2) -> NoDup (omap (k_upd kd) l).*1.
Proof.
  intros Hk. induction l as [|a l IH]; csimpl; [constructor|]. intros [Hn Hnd]%NoDup_cons.
  destruct (k_upd kd a) as [[i row]|] eqn:Hu; [|by apply IH].
  csimpl. apply NoDup_cons. split; [|by apply IH].
  intros ([i' row'] & -> & (a' & Ha' & Hu')%list_elem_of_omap)%list_elem_of_fmap. simpl in *.
  apply Hn. rewrite (upd_key kd a _ _ Hk Hu), <-(upd_key kd a' _ _ Hk Hu').
  apply list_elem_of_fmap_2, list_elem_of_fmap_2, list_elem_of_fmap_2. done.
Qed.

Lemma change_keys l : (changes_of l).*1 = action_key <$> (storage <$> l).*2.
Proof. rewrite <-list_fmap_compose. apply list_fmap_ext. intros i x _. apply change_of_key. Qed.

(** The row of a key after the batch: what the action on it says, or what it was. *)
Lemma rows_after {I X} `{Countable I} (kd : kind I X) cs cs' rd rd' l i :
  kind_ok kd -> reader_ok cs rd -> reader_ok cs' rd' -> Forall action_in l -> k_in kd i ->
  NoDup (action_key <$> (storage <$> l).*2) ->
  (forall a d, a ∈ l -> (storage a).1.2 = Some d -> L d) ->
  fget cs' (k_key kd i) = apply_changes (changes_of l) (fget cs) (k_key kd i) ->
  expect (k_proj kd i rd') ≡ₚ last_upd (omap (k_upd kd) l) (expect (k_proj kd i rd)) i.
Proof.
  intros Hk Hr Hr' Hl Hi Hnd HL Hget. rewrite Forall_forall in Hl.
  pose proof (upd_NoDup kd l Hk Hnd) as Hndu. rewrite <-change_keys in Hnd.
  destruct (decide (i ∈ (omap (k_upd kd) l).*1)) as [Hin|Hout].
  - apply list_elem_of_fmap in Hin as ([i' row] & -> & Hin). cbn [fst] in *.
    rewrite (last_upd_in _ _ row) by done.
    apply list_elem_of_omap in Hin as (a & Ha & Hu).
    assert (fget cs' (k_key kd i') = (change_of (storage a).2).2) as Hv.
    { rewrite Hget. apply apply_changes_in; [done|].
      rewrite <-(upd_key kd a i' row), <-change_of_key, <-surjective_pairing by done.
      by apply list_elem_of_fmap_2, list_elem_of_fmap_2, list_elem_of_fmap_2. }
    destruct (proj_spec kd cs' rd' i' Hk Hr') as (row' & -> & Hrow'). rewrite Hv in Hrow'.
    specialize (HL a). destruct (ko_upd _ Hk a i' row Hu) as [Hs|[-> Hs]]; rewrite Hs in *;
      simpl in Hrow', HL; [|by subst row'].
    destruct Hrow' as (row0 & Hp & Heq & Hd0). simpl. rewrite Hp. clear Hp.
    apply (hd_leaves HH) in Heq; [|by apply HL|done]. symmetry.
    apply (encode_row_inj rc (k_ser kd) (k_de kd)); [apply Hk|].
    apply (f_equal (k_leaf kd)) in Heq. unfold k_row in Heq.
    rewrite !(ko_leaf _ Hk) in Heq. by injection Heq.
  - rewrite last_upd_out by done. rewrite (proj_same kd cs cs' rd rd'); [done..|].
    rewrite Hget. apply apply_changes_out. rewrite change_keys. intros Hkey.
    apply list_elem_of_fmap in Hkey as (x & Hx & (y & -> & (a & -> & Ha)%list_elem_of_fmap)%list_elem_of_fmap).
    symmetry in Hx. destruct (ko_key _ Hk a _ Hx) as (j & row & Hu & Hj).
    apply (ko_inj _ Hk) in Hj; [|done|by eapply (ko_in _ Hk), Hu; apply Hl]. subst j.
    apply Hout. apply list_elem_of_fmap. exists (i, row). split; [done|].
    apply list_elem_of_omap. by exists a.
Qed.

(** ** The repository as the tuple space uses it *)

Abbreviation recorded := (recorded_root (KV:=KV)).

(** [get_history_reader(root)?.base()] *)
Definition repository_reader (root : Blake2b256Hash) (h : repo) :
  res HistoryError (HistoryReaderBase C P A K) :=
  rd <-! get_history_reader_struct root h;
  Ok (reader_base cd rc rd).
Definition history_repo : HistoryRepository C P A K repo := {|
  repo_checkpoint := checkpoint cd rc;
  repo_reset := repository_reset;
  get_history_reader := repository_reader;
  repo_root := repository_root;
|}.
Definition reader_at_root (h : repo) (root : Blake2b256Hash) : HistoryReaderBase C P A K :=
  match repository_reader root h with
  | Ok r => r
  | _ => mkReader (const []) (const []) (const [])
  end.

(** The batches that the repository can take: at most one action for a row, on channels in
    use, whose leaves and nodes are among those on which the hash is injective. *)
Record batch_ok (h : repo) (l : list action) : Prop := {
  bo_in : Forall action_in l;
  bo_once : NoDup (action_key <$> (storage <$> l).*2);
  bo_leaves : forall a d, a ∈ l -> (storage a).1.2 = Some d -> L d;
  bo_nodes : forall cs, current cs h -> nodes_in blake U (foldl fact cs (changes_of l));
}.

Lemma storage_in_ok a : (forall d, (storage a).1.2 = Some d -> L d) ->
  storage_ok cd rc L (storage a).
Proof.
  intros HL. assert (forall c, length (hash cd c) = DEF_SIZE) as Hh
    by (intros; apply (cf_blake _ _ (hd_nodes HH))).
  assert (forall cs, length (hash_from_vec cd cs) = DEF_SIZE) as Hv
    by (intros; apply (cf_blake _ _ (hd_nodes HH))).
  destruct a as [[ch d|ch j|chs k]|[ch|ch|chs]]; constructor; try done; try (by apply HL).
  - left. by eauto.
  - right. right. by eauto.
  - right. left. by eauto.
Qed.

Lemma checkpoint_advances h cs l :
  repo_inv h -> current cs h -> root_ok cd rc U L cs (history_store h) (leaf_store h) ->
  batch_ok h l ->
  exists h', checkpoint cd rc l h = Ok h' /\
    advanced cd rc U L (foldl fact cs (changes_of l)) h h'.
Proof.
  intros Hi Hcur Hroot [Hin Honce HLv Hn]. destruct l as [|a l].
  { exists h. split; [done|]. split; auto. }
  assert (storage <$> a :: l = calculate_storage_actions cd rc <$> (transform cd <$> a :: l))
    as Hs by (by rewrite <-list_fmap_compose).
  destruct (do_checkpoint_spec cd rc U L (hd_nodes HH) (hd_leaves HH) h cs
    (transform cd <$> a :: l)) as (h' & Hh' & Hadv); try done.
  - rewrite <-Hs. apply Forall_fmap, Forall_forall. intros x Hx. apply storage_in_ok.
    intros d. by apply HLv.
  - by rewrite <-Hs.
  - rewrite <-Hs. by apply Hn.
  - exists h'. split; [done|]. by rewrite Hs.
Qed.

Lemma repository_reader_spec h cs root :
  repo_inv h -> root = node_hash blake (items blake cs) ->
  root_ok cd rc U L cs (history_store h) (leaf_store h) ->
  exists rd, repository_reader root h = Ok (reader_base cd rc rd) /\
    reader_at_root h root = reader_base cd rc rd /\ reader_ok cs rd.
Proof.
  intros Hi Hr Ho. destruct (get_reader_spec cd rc U L (hd_nodes HH) h cs root Hi Hr Ho)
    as (rd & Hg & Hrd).
  exists rd. unfold reader_at_root, repository_reader. by rewrite Hg.
Qed.

Lemma root_kept h h' root : repo_inv h -> repo_inv h' ->
  kv_map (history_store h) ⊆ kv_map (history_store h') ->
  kv_map (leaf_store h) ⊆ kv_map (leaf_store h') -> recorded h root ->
  history_view (reader_at_root h' root) ≡ history_view (reader_at_root h root).
Proof.
  intros Hi Hi' Hn Hl Hr. destruct (ri_roots _ _ _ _ _ Hi root Hr) as (cs & Hroot & Hok).
  destruct (repository_reader_spec h cs root Hi Hroot Hok) as (rd & _ & -> & Hrd).
  destruct (repository_reader_spec h' cs root Hi' Hroot) as (rd' & _ & -> & Hrd');
    [by eapply root_ok_mono|].
  by eapply (reader_base_same cd rc U L (hd_nodes HH) (hd_leaves HH)).
Qed.

(** Applying the actions of a batch to the rows of a reader. *)
Lemma batch_rows cs cs' rd rd' l :
  reader_ok cs rd -> reader_ok cs' rd' -> Forall action_in l ->
  NoDup (action_key <$> (storage <$> l).*2) ->
  (forall a d, a ∈ l -> (storage a).1.2 = Some d -> L d) ->
  (forall k, fget cs' k = apply_changes (changes_of l) (fget cs) k) ->
  stored_same ch_in chs_in
    (foldl apply_action (history_view (reader_base cd rc rd)) l)
    (history_view (reader_base cd rc rd')).
Proof.
  intros Hr Hr' Hin Hnd HLv Hget.
  destruct (foldl_apply_action l (history_view (reader_base cd rc rd))) as (Fd & Fj & Fc).
  split_and!; intros x Hx; [rewrite Fd|rewrite Fc|rewrite Fj].
  - exact (rows_after data_kind cs cs' rd rd' l x data_kind_ok Hr Hr' Hin Hx Hnd HLv (Hget _)).
  - exact (rows_after continuations_kind cs cs' rd rd' l x continuations_kind_ok Hr Hr' Hin Hx
      Hnd HLv (Hget _)).
  - exact (rows_after joins_kind cs cs' rd rd' l x joins_kind_ok Hr Hr' Hin Hx Hnd HLv (Hget _)).
Qed.

(** The current root, its reader, and what a batch does to it. *)
Lemma checkpoint_spec h l : repo_inv h -> batch_ok h l ->
  exists h', checkpoint cd rc l h = Ok h' /\ repo_inv h' /\
    stored_same ch_in chs_in
      (foldl apply_action (history_view (reader_at_root h (repository_root h))) l)
      (history_view (reader_at_root h' (repository_root h'))) /\
    (forall root, recorded h root -> recorded h' root /\
      history_view (reader_at_root h' root) ≡ history_view (reader_at_root h root)) /\
    (forall root, recorded h' root -> recorded h root \/ root = repository_root h').
Proof.
  intros Hi Hb. destruct (ri_current _ _ _ _ _ Hi) as (cs & Hcur & Hroot).
  destruct (checkpoint_advances h cs l Hi Hcur Hroot Hb) as (h' & Hh' & Hadv).
  pose proof Hadv as [Hi' Hcur' Hroot' Hn Hl Hrec Honly]. exists h'. split_and!; try done.
  - destruct (repository_reader_spec h cs (repository_root h)) as (rd & _ & -> & Hrd);
      [done|apply Hcur|done|].
    destruct (repository_reader_spec h' (foldl fact cs (changes_of l)) (repository_root h')) as (rd' & _ & -> & Hrd');
      [done|apply Hcur'|done|].
    eapply batch_rows; try apply Hb; [done|done|]. intros k.
    apply (fget_facts KEY_SIZE); [apply Hcur|].
    rewrite !Forall_fmap. apply Forall_forall. intros a Ha.
    apply (storage_change_ok cd rc U L (hd_nodes HH)), storage_in_ok. intros d.
    by apply (bo_leaves _ _ Hb).
  - intros root Hr. split; [by apply Hrec|by apply root_kept].
Qed.

Definition history_repo_laws :
  @HistoryRepositoryLaws C P A K repo _ _ history_repo.
Proof.
  refine {| repo_ch := ch_in; repo_chs := chs_in; repo_wf := repo_inv; actions_ok := batch_ok;
    RSpaceCheckpoint.recorded := recorded; reader_at := reader_at_root |}; simpl.
  - apply (hd_members HH).
  - intros h Hi. apply Hi.
  - intros h root Hi Hr. destruct (ri_roots _ _ _ _ _ Hi root Hr) as (cs & Hroot & Hok).
    destruct (repository_reader_spec h cs root Hi Hroot Hok) as (rd & -> & -> & _). done.
  - apply checkpoint_spec.
  - intros h root Hi Hr.
    destruct (reset_known cd rc U L (hd_nodes HH) h root Hi Hr)
      as (h' & h1 & -> & Hi' & Hroot & Hn & Hl & Hrec).
    exists h'. split_and!; try done.
    + intros root' Hr'. split; [by apply Hrec|]. apply root_kept; try done; by rewrite ?Hn, ?Hl.
    + intros root'. apply Hrec.
Defined.
End rows.
