(* ===== verification/HistoryThms.v ===== *)
(** * Correctness of the history repository

    The theorems about [history_repository_impl.rs], its reader and the roots, alone and
    under the tuple space, with a concrete repository on which they are evaluated. *)
From S2P Require Import Prelude Events HotStoreSig HotStore SpaceMatcher RSpace RSpaceSpec.
From S2P Require Import RSpaceInv RSpaceCheckpoint RSpaceThms KeyValueStore Serializers.
From S2P Require Import RadixCodec RadixTree RadixSpec RadixRefine RadixActions RadixHistory.
From S2P Require Import HistoryRepo HistoryRepoSpec HistoryRows.
Open Scope res_scope.

Section theorems.
Context {C P A K KV : Type} `{Countable C}.
Context `{!KeyValueStore KV, !KeyValueStoreLaws KV, !DashOrder, !DashOrderLaws}.
Context (cd : Codecs C P A K) (rc : RowCodecs C P A K) `{!RowCodecsLaws rc}.
Context (U : Node -> Prop) (L : PersistedData -> Prop).
Context (ch_in : C -> Prop) (chs_in : list C -> Prop).

Abbreviation blake := (blake2b256 cd).
Abbreviation repo := (HistoryRepositoryImpl KV).
Abbreviation action := (HotStoreAction C P A K).
Abbreviation hashes_distinct := (hashes_distinct cd rc U L ch_in chs_in).
Abbreviation repo_inv := (repo_inv cd rc U L).
Abbreviation batch_ok := (batch_ok cd rc U L ch_in chs_in).
Abbreviation rows_at h root := (history_view (reader_at_root cd rc h root)).
Abbreviation current cs h := (represents blake U KEY_SIZE cs (current_history h) (history_store h)).

(** A history represents one trie only. *)
Lemma represents_unique cs cs' x s : collision_free blake U ->
  represents blake U KEY_SIZE cs x s -> represents blake U KEY_SIZE cs' x s -> cs = cs'.
Proof.
  intros HU Hr Hr'. apply (wf_forest_unique KEY_SIZE); [apply Hr|apply Hr'|]. intros k.
  destruct (read_spec blake U HU KEY_SIZE cs x s k Hr) as (h1 & E1 & _).
  destruct (read_spec blake U HU KEY_SIZE cs' x s k Hr') as (h2 & E2 & _).
  rewrite E1 in E2. by injection E2.
Qed.

(** C27: [checkpoint] with at most one action for each row succeeds (no store, history or
    root operation panics); the reader of the new root shows the rows of the old root with
    the actions applied, up to the order within a row; every root recorded before is still
    recorded and its reader shows what it showed, and only the new root is added. *)
Theorem history_checkpoint_correct (h : repo) l :
  hashes_distinct -> repo_inv h -> batch_ok h l ->
  exists h', checkpoint cd rc l h = Ok h' /\ repo_inv h' /\
    stored_same ch_in chs_in (foldl apply_action (rows_at h (repository_root h)) l)
      (rows_at h' (repository_root h')) /\
    (forall root, recorded_root h root ->
      recorded_root h' root /\ rows_at h' root ≡ rows_at h root) /\
    (forall root, recorded_root h' root -> recorded_root h root \/ root = repository_root h').
Proof. intros HH. by apply (checkpoint_spec cd rc U L ch_in chs_in HH). Qed.

(** Resetting to a recorded root succeeds: the repository is at that root, remains
    well formed, and the readers of all roots show the same rows as before. *)
Theorem history_reset_correct (h : repo) root :
  hashes_distinct -> repo_inv h -> recorded_root h root ->
  exists h' h1, repository_reset root h = (Ok h', h1) /\ repo_inv h' /\
    repository_root h' = root /\
    (forall root', recorded_root h' root' <-> recorded_root h root') /\
    (forall root', recorded_root h root' -> rows_at h' root' ≡ rows_at h root').
Proof.
  intros HH Hi Hr. destruct (reset_known cd rc U L (hd_nodes _ _ _ _ _ _ HH) h root Hi Hr)
    as (h' & h1 & Hreset & Hi' & Hroot & Hn & Hl & Hrec).
  exists h', h1. split_and!; try done.
  intros root' Hr'. apply (root_kept cd rc U L ch_in chs_in HH); try done; by rewrite ?Hn, ?Hl.
Qed.

(** Resetting to a root that was never recorded is refused with an error that names the
    root, and changes nothing. *)
Theorem history_reset_unknown (h : repo) root :
  kv_map (roots_repository h) !! root = None ->
  repository_reset root h =
    (Err (HistoryRootError (UnknownRootError ("unknown root: " +:+ hash_to_string root))), h).
Proof. apply reset_unknown. Qed.

(** A reader of a recorded root can be created, and none of its projections fails or
    panics, whatever the key: every hash in the history has its leaf in the leaf store, of
    the kind that the prefix of the key asks for, and the leaf decodes. *)
Theorem reader_never_panics (h : repo) root :
  hashes_distinct -> repo_inv h -> recorded_root h root ->
  exists rd, get_history_reader_struct root h = Ok rd /\
    (forall ch, is_Ok (reader_data_proj rc (hash cd ch) rd)) /\
    (forall chs, is_Ok (reader_continuations_proj rc (hash_from_vec cd chs) rd)) /\
    (forall ch, is_Ok (reader_joins_proj rc (hash cd ch) rd)).
Proof.
  intros HH Hi Hr. destruct (ri_roots _ _ _ _ _ Hi root Hr) as (cs & Hroot & Hok).
  destruct (get_reader_spec cd rc U L (hd_nodes _ _ _ _ _ _ HH) h cs root Hi Hroot Hok)
    as (rd & Hg & Hrd).
  exists rd. split_and!; [done|intros x..].
  - destruct (proj_spec cd rc U L ch_in chs_in HH _ cs rd x
      (data_kind_ok cd rc U L ch_in chs_in HH) Hrd) as (row & ? & _). by exists row.
  - destruct (proj_spec cd rc U L ch_in chs_in HH _ cs rd x
      (continuations_kind_ok cd rc U L ch_in chs_in HH) Hrd) as (row & ? & _). by exists row.
  - destruct (proj_spec cd rc U L ch_in chs_in HH _ cs rd x
      (joins_kind_ok cd rc U L ch_in chs_in HH) Hrd) as (row & ? & _). by exists row.
Qed.

(** Two actions on the same row with the same elements in some order. *)
Inductive same_action : action -> action -> Prop :=
| same_data ch d d' : d ≡ₚ d' ->
    same_action (Insert (InsertData ch d)) (Insert (InsertData ch d'))
| same_joins ch j j' : j ≡ₚ j' ->
    same_action (Insert (InsertJoins ch j)) (Insert (InsertJoins ch j'))
| same_continuations chs k k' : k ≡ₚ k' ->
    same_action (Insert (InsertContinuations chs k)) (Insert (InsertContinuations chs k'))
| same_delete d : same_action (Delete d) (Delete d).

Lemma same_action_storage a a' : same_action a a' -> storage cd rc a = storage cd rc a'.
Proof.
  unfold storage. intros [ch d d' Hd|ch j j' Hj|chs k k' Hk|d]; simpl; try done.
  - unfold encode_datums. by rewrite (encode_row_perm rc _ d d').
  - unfold encode_joins. by rewrite (encode_row_perm rc _ j j').
  - unfold encode_continuations. by rewrite (encode_row_perm rc _ k k').
Qed.

Lemma same_actions_storage l l' : Forall2 same_action l l' ->
  storage cd rc <$> l = storage cd rc <$> l'.
Proof. induction 1; csimpl; [done|]. f_equal; [by apply same_action_storage|done]. Qed.

Lemma apply_changes_perm (acts acts' : list change) (f : bytes -> option bytes) k :
  NoDup acts.*1 -> acts ≡ₚ acts' -> apply_changes acts f k = apply_changes acts' f k.
Proof.
  intros Hnd Hp. assert (NoDup acts'.*1) as Hnd' by (by rewrite <-Hp).
  destruct (apply_changes_cases acts f k Hnd) as [(v & Hin & ->)|[Hn ->]].
  - symmetry. apply apply_changes_in; [done|]. by rewrite <-Hp.
  - symmetry. apply apply_changes_out. by rewrite <-Hp.
Qed.

(** The trie after a batch does not depend on the order of the batch. *)
Lemma facts_perm n cs (acts acts' : list change) :
  wf_forest n cs -> Forall (change_ok (S n)) acts -> NoDup acts.*1 -> acts ≡ₚ acts' ->
  foldl fact cs acts = foldl fact cs acts'.
Proof.
  intros Hcs Hok Hnd Hp. assert (Forall (change_ok (S n)) acts') as Hok' by (by rewrite <-Hp).
  apply (wf_forest_unique n); [by apply wf_facts..|]. intros k.
  rewrite !(fget_facts n) by done. by apply apply_changes_perm.
Qed.

Lemma batch_change_ok l : hashes_distinct ->
  (forall a d, a ∈ l -> (storage cd rc a).1.2 = Some d -> L d) ->
  Forall (change_ok (S KEY_SIZE)) (change_of <$> (storage cd rc <$> l).*2).
Proof.
  intros HH HLv. rewrite !Forall_fmap. apply Forall_forall. intros a Ha.
  apply (storage_change_ok cd rc U L (hd_nodes _ _ _ _ _ _ HH)).
  apply (storage_in_ok cd rc U L ch_in chs_in HH). intros d. by apply HLv.
Qed.

(** C36: the root of a checkpoint depends only on the rows: processing the same actions in
    another order, with the elements of each row in another order, ends at the same root
    hash, although the hot store hands both out in the iteration order of hash maps. *)
Theorem checkpoint_root_deterministic (h : repo) l l1 l' :
  hashes_distinct -> repo_inv h -> batch_ok h l -> batch_ok h l' ->
  l ≡ₚ l1 -> Forall2 same_action l1 l' ->
  exists h1 h2, checkpoint cd rc l h = Ok h1 /\ checkpoint cd rc l' h = Ok h2 /\
    repository_root h1 = repository_root h2.
Proof.
  intros HH Hi Hb Hb' Hp Hs. destruct (ri_current _ _ _ _ _ Hi) as (cs & Hcur & Hroot).
  destruct (checkpoint_advances cd rc U L ch_in chs_in HH h cs l Hi Hcur Hroot Hb)
    as (h1 & Hh1 & Ha1).
  destruct (checkpoint_advances cd rc U L ch_in chs_in HH h cs l' Hi Hcur Hroot Hb')
    as (h2 & Hh2 & Ha2).
  exists h1, h2. split_and!; [done..|]. unfold repository_root.
  rewrite (rep_root_hash _ _ _ _ _ _ (adv_current _ _ _ _ _ _ _ Ha1)).
  rewrite (rep_root_hash _ _ _ _ _ _ (adv_current _ _ _ _ _ _ _ Ha2)). do 2 f_equal.
  apply (facts_perm KEY_SIZE); [apply Hcur|by apply batch_change_ok, Hb| |].
  - rewrite change_keys. apply Hb.
  - by rewrite <-(same_actions_storage _ _ Hs), Hp.
Qed.

(** The state survives a restart: opening the stores of a repository again, after
    whatever checkpoints and resets, gives a repository at the same root, which shows the
    same rows for every recorded root. *)
Theorem history_reopen (h : repo) :
  hashes_distinct -> repo_inv h ->
  exists h', lmdb_repository cd (history_store h) (roots_repository h) (leaf_store h) = Ok h' /\
    repo_inv h' /\ repository_root h' = repository_root h /\
    (forall root, recorded_root h root ->
      recorded_root h' root /\ rows_at h' root ≡ rows_at h root).
Proof.
  intros HH Hi. destruct (reopen_spec cd rc U L (hd_nodes _ _ _ _ _ _ HH) h Hi)
    as (h' & Hopen & Hi' & Hroot & Hn & Hr & Hl).
  exists h'. split_and!; try done. intros root Hrec. split.
  - unfold recorded_root. by rewrite Hr.
  - apply (root_kept cd rc U L ch_in chs_in HH); try done; by rewrite ?Hn, ?Hl.
Qed.

(** ** The actions of a hot store *)

Section changes.
Context (HH : hashes_distinct).
Abbreviation action_in := (action_in ch_in chs_in).
Abbreviation key a := (action_key (storage cd rc a).2).

Lemma key_fresh {I X} (kd : kind I X) a l i row :
  kind_ok cd rc ch_in chs_in kd -> k_upd _ _ kd a = Some (i, row) ->
  NoDup (omap (k_upd _ _ kd) (a :: l)).*1 -> Forall action_in (a :: l) ->
  key a ∉ (fun b => key b) <$> l.
Proof.
  intros Hk Hu Hnd [Ha Hl]%Forall_cons. rewrite Forall_forall in Hl. simpl in Hnd.
  rewrite Hu in Hnd. csimpl in Hnd. apply NoDup_cons in Hnd as [Hn _].
  intros (b & Hkey & Hb)%list_elem_of_fmap. rewrite (upd_key cd rc ch_in chs_in kd a i row) in Hkey by done.
  symmetry in Hkey. destruct (ko_key _ _ _ _ _ Hk b _ Hkey) as (j & row' & Huj & Hj).
  apply (ko_inj _ _ _ _ _ Hk) in Hj;
    [|by eapply (ko_in _ _ _ _ _ Hk), Hu|by eapply (ko_in _ _ _ _ _ Hk), Huj; apply Hl].
  subst j. apply Hn. apply list_elem_of_fmap. exists (i, row'). split; [done|].
  apply list_elem_of_omap. by exists b.
Qed.

Lemma actions_once (l : list action) :
  NoDup (omap data_upd l).*1 -> NoDup (omap conts_upd l).*1 -> NoDup (omap joins_upd l).*1 ->
  Forall action_in l -> NoDup ((fun a => key a) <$> l).
Proof.
  induction l as [|a l IH]; intros Hd Hc Hj Hin; csimpl; [constructor|].
  apply NoDup_cons. split.
  - destruct a as [[ch d|ch j|chs k]|[ch|ch|chs]];
      first [by eapply (key_fresh (data_kind cd rc ch_in));
               [apply (data_kind_ok cd rc U L ch_in chs_in HH)|..]
            |by eapply (key_fresh (continuations_kind cd rc chs_in));
               [apply (continuations_kind_ok cd rc U L ch_in chs_in HH)|..]
            |by eapply (key_fresh (joins_kind cd rc ch_in));
               [apply (joins_kind_ok cd rc U L ch_in chs_in HH)|..]].
  - apply Forall_cons in Hin as [_ Hin]. apply IH; [..|done];
      [destruct (data_upd a) eqn:Hu|destruct (conts_upd a) eqn:Hu|destruct (joins_upd a) eqn:Hu];
      simpl in *; rewrite Hu in *; csimpl in *; try done; by eapply NoDup_cons.
Qed.

(** The changes of a hot store name each row at most once. *)
Lemma changes_once (s : InMemHotStore (C:=C) (P:=P) (A:=A) (K:=K)) l :
  l ≡ₚ inmem_changes s -> Forall action_in l ->
  NoDup (action_key <$> (storage cd rc <$> l).*2).
Proof.
  intros Hl Hin. rewrite <- !list_fmap_compose. destruct (changes_updates s) as (Uc & Ud & Uj).
  apply actions_once; [..|done]; rewrite Hl, ?Uc, ?Ud, ?Uj; apply NoDup_fst_map_to_list.
Qed.
End changes.

(** ** The tuple space over the repository *)

Section space.
Context {G : Type} `{!Oracle G} `{!Debug P, !Debug K} (get : P -> A -> option A).
Context (HH : hashes_distinct).

Abbreviation store_t := (InMemHotStore (C:=C) (P:=P) (A:=A) (K:=K)).
#[local] Instance space_repo : HistoryRepository C P A K repo := history_repo cd rc.
#[local] Instance space_repo_laws : HistoryRepositoryLaws C P A K repo :=
  history_repo_laws cd rc U L ch_in chs_in HH.
Abbreviation space := (RSpace C P K repo store_t G).

(** A space over a repository opened on empty stores. *)
Definition opened_space (r : space) : Prop :=
  exists nodes roots leaves h g,
    kv_map nodes = ∅ /\ kv_map roots = ∅ /\ kv_map leaves = ∅ /\
    lmdb_repository cd nodes roots leaves = Ok h /\
    r = rspace_apply h (create_from_hr (reader_at_root cd rc h (repository_root h))) g.

Lemma empty_rows (h : repo) : repo_inv h -> current no_trees h ->
  let rd := reader_at_root cd rc h (repository_root h) in
  (forall ch, get_data_proj rd ch = []) /\ (forall chs, get_continuations_proj rd chs = []) /\
  (forall ch, get_joins_proj rd ch = []).
Proof.
  intros Hi Hcur. destruct (ri_current _ _ _ _ _ Hi) as (cs & Hcur' & Hok).
  rewrite (represents_unique cs no_trees _ _ (hd_nodes _ _ _ _ _ _ HH) Hcur' Hcur) in Hok.
  destruct (repository_reader_spec cd rc U L ch_in chs_in HH h no_trees (repository_root h))
    as (rd & _ & -> & Hrd); [done|apply Hcur|done|]. clear - HH Hrd RowCodecsLaws0.
  assert (forall p key, fetch_data rc p key rd = Ok None) as Hf.
  { intros p key. pose proof (fetch_spec cd rc U L (hd_nodes _ _ _ _ _ _ HH) no_trees rd p key Hrd)
      as Hf. by rewrite fget_no_trees in Hf. }
  unfold reader_base, reader_data_proj, reader_continuations_proj, reader_joins_proj, get_proj.
  split_and!; intros x; simpl; by rewrite Hf.
Qed.

Lemma opened_fresh r : nodes_in blake U no_trees -> opened_space r -> fresh r.
Proof.
  intros Hu (nodes & roots & leaves & h & g & Hn & Hr & Hl & Hopen & ->).
  destruct (open_empty_spec cd rc U L (hd_nodes _ _ _ _ _ _ HH) nodes roots leaves Hn Hr Hl Hu)
    as (h' & Hopen' & Hi & Hcur & Honly).
  rewrite Hopen in Hopen'. injection Hopen' as <-.
  exists h, g. split; [done|]. split; [done|]. intros root ->%Honly. by apply empty_rows.
Qed.

(** C14: the checkpoint of a tuple space is durable: on a space that was opened on empty
    stores and then used, checkpointed and reset in any way, [create_checkpoint] succeeds,
    and opening its three stores again gives a repository at the root of the checkpoint
    that shows the data, waiting continuations and joins of the space, up to the order
    within a row. *)
Theorem checkpoint_survives_restart (r0 r : space) :
  nodes_in blake U no_trees -> opened_space r0 -> rtc (space_life cd get) r0 r ->
  Forall (action_in ch_in chs_in) (changes (RSpace.store r)) ->
  (forall a d, a ∈ changes (RSpace.store r) -> (storage cd rc a).1.2 = Some d -> L d) ->
  (forall cs, current cs (history_repository r) -> nodes_in blake U
    (foldl fact cs (change_of <$> (storage cd rc <$> changes (RSpace.store r)).*2))) ->
  exists cp r' h', create_checkpoint cd get r = (Ok cp, r') /\
    lmdb_repository cd (history_store (history_repository r'))
      (roots_repository (history_repository r')) (leaf_store (history_repository r')) = Ok h' /\
    repository_root h' = cp_root cp /\
    stored_same ch_in chs_in (V r) (rows_at h' (repository_root h')).
Proof.
  intros Hu Ho Hr Hin HLv Hn.
  destruct (live_inv cd get r0 r (opened_fresh r0 Hu Ho) Hr) as [Hsi Hc].
  destruct (create_checkpoint_spec cd get r Hsi Hc) as (Hok & _ & _ & _ & _ & _ & Hc' & Hrows & _).
  { intros l Hl. assert (Forall (action_in ch_in chs_in) l) as Hl' by (by rewrite Hl).
    split; [done|by apply (changes_once HH (RSpace.store r))|intros a d Ha; apply HLv; by rewrite <-Hl|].
    intros cs Hcs. rewrite (facts_perm KEY_SIZE cs _
      (change_of <$> (storage cd rc <$> changes (RSpace.store r)).*2)); [by apply Hn|apply Hcs|..].
    - apply batch_change_ok; [done|]. intros a d Ha. apply HLv. by rewrite <-Hl.
    - rewrite change_keys. by apply (changes_once HH (RSpace.store r)).
    - by rewrite Hl. }
  destruct (create_checkpoint cd get r) as [x r']. simpl in Hok. subst x. cbn [snd] in *.
  destruct Hc' as (Hwf & _ & _). simpl in Hwf.
  destruct (reopen_spec cd rc U L (hd_nodes _ _ _ _ _ _ HH) (history_repository r') Hwf)
    as (h' & Hopen & Hi' & Hroot & En & Er & El).
  eexists _, r', h'. split_and!; [done|done|done|].
  eapply stored_same_trans; [exact Hrows|]. rewrite Hroot. apply stored_same_equiv. symmetry.
  apply (root_kept cd rc U L ch_in chs_in HH); try done; [by rewrite En|by rewrite El|apply Hwf].
Qed.
End space.
End theorems.

(** ** A concrete repository *)
Module HistoryExample.
Import Example RadixExample.

(** A self-delimiting codec for every countable type. *)
Fixpoint pos_bytes (p : positive) : bytes :=
  match p with
  | xH => []
  | xO p => x00 :: pos_bytes p
  | xI p => x01 :: pos_bytes p
  end.
Fixpoint bytes_pos (b : bytes) : positive :=
  match b with
  | [] => xH
  | b :: l => if decide (b = x00) then xO (bytes_pos l) else xI (bytes_pos l)
  end.
Lemma bytes_pos_bytes p : bytes_pos (pos_bytes p) = p.
Proof. induction p; simpl; by f_equal. Qed.
Definition ser_any {X} `{Countable X} (x : X) : bytes := pos_bytes (countable.encode x).
Definition de_any {X} `{Countable X} (b : bytes) : option X := countable.decode (bytes_pos b).
Lemma de_ser_any {X} `{Countable X} (x : X) : de_any (ser_any x) = Some x.
Proof. unfold de_any, ser_any. rewrite bytes_pos_bytes. apply countable.decode_encode. Qed.

#[export] Instance datum_eq_dec : EqDecision (Datum nat).
Proof. solve_decision. Defined.
#[export] Program Instance produce_countable : Countable Produce :=
  inj_countable' (fun p => (channel_hash p, p_hash p, p_persistent p, is_deterministic p,
      output_value p, failed p))
    (fun '(c, h, p, d, o, f) => mkProduce c h p d o f) _.
Next Obligation. by intros []. Qed.
#[export] Program Instance datum_countable : Countable (Datum nat) :=
  inj_countable' (fun d => (datum_a d, datum_persist d, datum_source d))
    (fun '(a, p, s) => mkDatum a p s) _.
Next Obligation. by intros []. Qed.
#[export] Instance wc_eq_dec : EqDecision (WaitingContinuation nat nat).
Proof. solve_decision. Defined.
#[export] Program Instance wc_countable : Countable (WaitingContinuation nat nat) :=
  inj_countable' (fun w => (wc_patterns w, wc_continuation w, wc_persist w, wc_peeks w, wc_source w))
    (fun '(ps, k, p, pk, s) => mkWC ps k p pk s) _.
Next Obligation. by intros []. Qed.
#[export] Instance persisted_eq_dec : EqDecision PersistedData.
Proof. solve_decision. Defined.
#[export] Program Instance persisted_countable : Countable PersistedData :=
  inj_countable' (fun d => match d with JoinsLeaf b => inl b | DataLeaf b => inr (inl b)
      | ContinuationsLeaf b => inr (inr b) end)
    (fun x => match x with inl b => JoinsLeaf b | inr (inl b) => DataLeaf b
      | inr (inr b) => ContinuationsLeaf b end) _.
Next Obligation. by intros []. Qed.

Definition example_codecs : Codecs nat nat nat nat :=
  let enc n := [nat_to_byte n] in
  mkCodecs _ _ _ _ enc enc enc enc (fun b => if b : bool then enc 1 else enc 0) mjoin digest.
Definition example_rows : RowCodecs nat nat nat nat := mkRowCodecs _ _ _ _
  ser_any de_any ser_any de_any ser_any de_any ser_any de_any ser_any de_any
  (fun b => replicate 8 x00 ++ b).
#[export] Instance example_rows_laws : RowCodecsLaws example_rows.
Proof.
  split; intros; try apply de_ser_any.
  - intros b b' Hb. by apply app_inj_1 in Hb as [_ ?].
  - done.
Qed.

Abbreviation kv := InMemoryKeyValueStore.
Abbreviation example_space :=
  (RSpace nat nat nat (HistoryRepositoryImpl kv) (InMemHotStore (C:=nat) (P:=nat) (A:=nat) (K:=nat))
    unit).
#[export] Instance example_repo :
  HistoryRepository nat nat nat nat (HistoryRepositoryImpl kv) :=
  history_repo example_codecs example_rows.

(** The repository opened on empty stores, and a space over it. *)
Definition repo0 : HistoryRepositoryImpl kv :=
  mkRepo (mkHistory (node_hash digest empty_node) empty_node ∅ ∅) (mkInMem ∅)
    (mkInMem (<[current_root_name := node_hash digest empty_node]>
      {[node_hash digest empty_node := root_tag]})) (mkInMem ∅).
Definition example_space0 : example_space :=
  rspace_apply repo0
    (create_from_hr (reader_at_root example_codecs example_rows repo0 (repository_root repo0))) tt.

(** A continuation waits for 3 on channel 1 and 4 on channel 2. *)
Definition example_space1 : example_space :=
  (consume example_codecs wild [1; 2] [3; 4] 9 false ∅ example_space0).2.
Definition example_space2 : example_space :=
  (create_checkpoint example_codecs wild example_space1).2.

(** What the checkpoint of [example_space1] writes. *)
Definition example_batch : list (HotStoreAction nat nat nat nat) :=
  changes (RSpace.store example_space1).
Definition example_forest : forest :=
  foldl fact no_trees (change_of <$> (storage example_codecs example_rows <$> example_batch).*2).
Definition example_nodes : list Node :=
  empty_node :: items digest example_forest :: (items digest <$> forest_nodes example_forest).
Definition example_leaves : list PersistedData :=
  omap (fun a => (storage example_codecs example_rows a).1.2) example_batch.
Definition nodes_used (x : Node) : Prop := x ∈ example_nodes.
Definition leaves_used (d : PersistedData) : Prop := d ∈ example_leaves.
Definition channels_used (c : nat) : Prop := c ∈ [1; 2].
Definition vectors_used (chs : list nat) : Prop := chs ∈ [[1; 2]].

Lemma example_distinct :
  hashes_distinct example_codecs example_rows nodes_used leaves_used channels_used vectors_used.
Proof.
  split.
  - split; [apply digest_length|..].
    + assert (Forall (fun x => length x = NUM_ITEMS /\ Forall item_ok x) example_nodes) as Hall
        by (apply (bool_decide_unpack _); vm_compute; exact I).
      rewrite Forall_forall in Hall. intros x Hx. destruct (Hall x Hx). by split.
    + assert (Forall (fun x => Forall (fun y => node_hash digest x = node_hash digest y -> x = y)
        example_nodes) example_nodes) as Hall by (apply (bool_decide_unpack _); vm_compute; exact I).
      intros x y Hx Hy. rewrite Forall_forall in Hall. specialize (Hall x Hx).
      rewrite Forall_forall in Hall. by apply Hall.
  - assert (Forall (fun x => Forall (fun y => leaf_hash example_codecs example_rows x =
      leaf_hash example_codecs example_rows y -> x = y) example_leaves) example_leaves) as Hall
      by (apply (bool_decide_unpack _); vm_compute; exact I).
    intros x y Hx Hy. rewrite Forall_forall in Hall. specialize (Hall x Hx).
    rewrite Forall_forall in Hall. by apply Hall.
  - intros c c' Hc Hc'. unfold channels_used in *. rewrite !elem_of_cons, elem_of_nil in *.
    destruct Hc as [->|[->|[]]], Hc' as [->|[->|[]]]; vm_compute; congruence.
  - intros l l' ->%list_elem_of_singleton ->%list_elem_of_singleton. done.
  - intros chs ch ->%list_elem_of_singleton. done.
Qed.

Lemma example_nodes_empty : nodes_in digest nodes_used no_trees.
Proof.
  split; [rewrite items_no_trees; by left|].
  intros ds (i & c & ->%lookup_no_trees & Hd). inversion Hd.
Qed.

Lemma open_repo0 :
  lmdb_repository example_codecs (mkInMem ∅) (mkInMem ∅) (mkInMem ∅) = Ok repo0.
Proof. vm_compute. reflexivity. Qed.

Lemma repo0_ok :
  repo_inv example_codecs example_rows nodes_used leaves_used repo0 /\
  represents digest nodes_used KEY_SIZE no_trees (current_history repo0) (history_store repo0).
Proof.
  destruct (open_empty_spec example_codecs example_rows nodes_used leaves_used
    (hd_nodes _ _ _ _ _ _ example_distinct) (mkInMem ∅) (mkInMem ∅) (mkInMem ∅))
    as (h & Hopen & Hi & Hcur & _); [done..|apply example_nodes_empty|].
  rewrite open_repo0 in Hopen. by injection Hopen as <-.
Qed.

Lemma example_nodes_batch cs :
  represents digest nodes_used KEY_SIZE cs (current_history repo0) (history_store repo0) ->
  nodes_in digest nodes_used
    (foldl fact cs (change_of <$> (storage example_codecs example_rows <$> example_batch).*2)).
Proof.
  intros Hcs. rewrite (represents_unique example_codecs nodes_used cs no_trees _ _
    (hd_nodes _ _ _ _ _ _ example_distinct) Hcs (proj2 repo0_ok)).
  split; [right; by left|]. intros ds Hd%in_forest_nodes. right. right.
  by apply list_elem_of_fmap_2.
Qed.

Lemma example_batch_leaves a d :
  a ∈ example_batch -> (storage example_codecs example_rows a).1.2 = Some d -> leaves_used d.
Proof. intros Ha Hd. apply list_elem_of_omap. by exists a. Qed.

Lemma example_batch_in : Forall (action_in channels_used vectors_used) example_batch.
Proof.
  replace example_batch with (ltac:(let l := eval vm_compute in example_batch in exact l))
    by (vm_compute; reflexivity).
  repeat constructor.
Qed.

Lemma example_batch_ok :
  HistoryRows.batch_ok example_codecs example_rows nodes_used leaves_used channels_used vectors_used
    repo0 example_batch.
Proof.
  split; [apply example_batch_in| |apply example_batch_leaves|apply example_nodes_batch].
  apply (bool_decide_unpack _). vm_compute. exact I.
Qed.
End HistoryExample.
Import Example RadixExample HistoryExample.


(** History keys the continuations of a channel vector by a hash that ignores the order
    of the vector, the hot store and the joins by the vector itself.  A continuation waits
    for 3 on channel 1 and 4 on channel 2.  Before a checkpoint nothing waits on the vector
    [2; 1]; after it the same continuation does, and once another consume has entered the
    join [2; 1], producing 3 on channel 2 and 4 on channel 1 runs the continuation on data
    that none of its patterns accept for their channels. *)
Theorem permuted_channels_share_continuations :
  view_get_continuations (V example_space1) [2; 1] = [] /\
  wc_patterns <$> view_get_continuations (V example_space2) [2; 1] = [[3; 4]] /\
  let r := (consume example_codecs wild [2; 1] [7; 8] 10 false ∅ example_space2).2 in
  let out := produce example_codecs wild 1 4 false (produce example_codecs wild 2 3 false r).2 in
  exists cr rs p, out.1 = Ok (Some (cr, rs, p)) /\ cr_continuation cr = 9.
Proof. vm_compute. split_and!; [done|done|by eexists _, _, _]. Qed.

Lemma history_checkpoint_correct_witness :
  exists h', checkpoint example_codecs example_rows example_batch repo0 = Ok h' /\
    recorded_root h' (repository_root repo0).
Proof.
  destruct (history_checkpoint_correct example_codecs example_rows nodes_used leaves_used
    channels_used vectors_used repo0 example_batch example_distinct (proj1 repo0_ok)
    example_batch_ok) as (h' & Hh' & _ & _ & Hr & _).
  exists h'. split; [done|]. apply Hr. apply (ri_recorded _ _ _ _ _ (proj1 repo0_ok)).
Defined.

Lemma history_reset_correct_witness :
  exists h' h1, repository_reset (repository_root repo0) repo0 = (Ok h', h1) /\
    repository_root h' = repository_root repo0.
Proof.
  destruct (history_reset_correct example_codecs example_rows nodes_used leaves_used
    channels_used vectors_used repo0 (repository_root repo0) example_distinct (proj1 repo0_ok)
    (ri_recorded _ _ _ _ _ (proj1 repo0_ok))) as (h' & h1 & Hr & _ & Hroot & _).
  by exists h', h1.
Defined.

Lemma history_reset_unknown_witness :
  repository_reset [xff] repo0 =
    (Err (HistoryRootError (UnknownRootError "unknown root: Blake2b256Hash(ff)")), repo0).
Proof. apply (history_reset_unknown repo0 [xff]). vm_compute. reflexivity. Defined.

Lemma reader_never_panics_witness :
  exists rd, get_history_reader_struct (repository_root repo0) repo0 = Ok rd /\
    is_Ok (reader_data_proj example_rows (hash example_codecs 1) rd).
Proof.
  destruct (reader_never_panics example_codecs example_rows nodes_used leaves_used
    channels_used vectors_used repo0 (repository_root repo0) example_distinct (proj1 repo0_ok)
    (ri_recorded _ _ _ _ _ (proj1 repo0_ok))) as (rd & Hrd & Hd & _).
  exists rd. split; [done|]. apply Hd.
Defined.

Lemma checkpoint_root_deterministic_witness :
  exists h1 h2, checkpoint example_codecs example_rows example_batch repo0 = Ok h1 /\
    checkpoint example_codecs example_rows (reverse example_batch) repo0 = Ok h2 /\
    repository_root h1 = repository_root h2.
Proof.
  assert (HistoryRows.batch_ok example_codecs example_rows nodes_used leaves_used channels_used
    vectors_used repo0 (reverse example_batch)) as Hb.
  { pose proof example_batch_ok as [Hin Honce HL Hn]. split.
    - by apply Forall_reverse.
    - apply (bool_decide_unpack _). vm_compute. exact I.
    - intros a d Ha%elem_of_reverse. by apply HL.
    - intros cs Hcs. rewrite (represents_unique example_codecs nodes_used cs no_trees _ _
        (hd_nodes _ _ _ _ _ _ example_distinct) Hcs (proj2 repo0_ok)).
      replace (foldl fact no_trees (change_of <$>
        (storage example_codecs example_rows <$> reverse example_batch).*2))
        with example_forest by (vm_compute; reflexivity).
      apply (Hn no_trees). apply repo0_ok. }
  apply (checkpoint_root_deterministic example_codecs example_rows nodes_used leaves_used
    channels_used vectors_used repo0 example_batch (reverse example_batch)
    (reverse example_batch) example_distinct (proj1 repo0_ok) example_batch_ok Hb).
  - symmetry. apply reverse_Permutation.
  - replace (reverse example_batch)
      with (ltac:(let l := eval vm_compute in (reverse example_batch) in exact l))
      by (vm_compute; reflexivity).
    repeat constructor.
Defined.

Lemma history_reopen_witness :
  exists h', lmdb_repository example_codecs (history_store repo0) (roots_repository repo0)
    (leaf_store repo0) = Ok h' /\ repository_root h' = repository_root repo0.
Proof.
  destruct (history_reopen example_codecs example_rows nodes_used leaves_used channels_used
    vectors_used repo0 example_distinct (proj1 repo0_ok)) as (h' & Ho & _ & Hr & _).
  by exists h'.
Defined.

Lemma checkpoint_survives_restart_witness :
  exists cp r' h', create_checkpoint example_codecs wild example_space1 = (Ok cp, r') /\
    lmdb_repository example_codecs (history_store (history_repository r'))
      (roots_repository (history_repository r')) (leaf_store (history_repository r')) = Ok h' /\
    repository_root h' = cp_root cp.
Proof.
  destruct (checkpoint_survives_restart example_codecs example_rows nodes_used leaves_used
    channels_used vectors_used wild example_distinct example_space0 example_space1
    example_nodes_empty) as (cp & r' & h' & Hcp & Ho & Hr & _).
  - exists (mkInMem ∅), (mkInMem ∅), (mkInMem ∅), repo0, tt. split_and!;
      try done; apply open_repo0.
  - apply rtc_once, life_step, step_consume; try done; [by left|].
    apply (bool_decide_unpack _). vm_compute. exact I.
  - apply example_batch_in.
  - apply example_batch_leaves.
  - replace (history_repository example_space1) with repo0 by (vm_compute; reflexivity).
    apply example_nodes_batch.
  - exists cp, r', h'. exact (conj Hcp (conj Ho Hr)).
Defined.
