(* ===== verification/MergingLogic.v ===== *)
(** * Event logs and their conflicts

    [rspace++/src/rspace/merger/event_log_index.rs] and the predicates and maps on event
    logs of [merger/merging_logic.rs].  The log of a deploy is summarized by the sets of
    produces and consumes it created, destroyed and peeked at; two logs conflict when
    merging both could destroy the same event twice or run a match that neither ran.

    [Produce] compares by its hash alone (the [PartialEq] and [Hash] of [trace/event.rs]), and
    inserting an equal object keeps the one that came first: a [HashSet<Produce>] is a map from
    hashes to produces.  [HashSet::union] and [HashSet::intersection] take their
    objects from the larger, respectively the smaller set, the left one if equal.  The
    results do not depend on the iteration order, which is that of the lists here. *)
From stdpp Require Import pretty.
From S2P Require Import Prelude Events HotStoreSig HistoryRepo.

(** [enum MergeType] *)
Inductive MergeType := IntegerAdd | BitmaskOr.
#[global] Instance MergeType_eq_dec : EqDecision MergeType.
Proof. solve_decision. Defined.

(** [BTreeMap<Blake2b256Hash, (i64, MergeType)>] *)
Abbreviation NumberChannelsDiff := (gmap Blake2b256Hash (Z * MergeType)).

(** [fn combine_mergeable_value] *)
Definition combine_mergeable_value (a b : Z) (merge_type : MergeType) : Z :=
  match merge_type with
  | IntegerAdd => wrap_i64 (a + b)
  | BitmaskOr => wrap_i64 (Z.lor (as_u64 a) (as_u64 b))
  end.

(** ** [HashSet<Produce>] *)

Abbreviation produces := (gmap Blake2b256Hash Produce).
Definition pinsert (p : Produce) (s : produces) : produces :=
  match s !! p_hash p with Some _ => s | None => <[p_hash p := p]> s end.
Definition punion (x y : produces) : produces :=
  if decide (size y <= size x) then x ∪ y else y ∪ x.
Definition pinter (x y : produces) : produces :=
  if decide (size x <= size y) then x ∩ y else y ∩ x.
(** [contains] *)
Definition pmem (p : Produce) (s : produces) : bool := bool_decide (is_Some (s !! p_hash p)).
Definition plist (s : produces) : list Produce := (map_to_list s).*2.

(** ** [struct EventLogIndex] *)

Record EventLogIndex := mkELI {
  produces_linear : produces;
  produces_persistent : produces;
  produces_consumed : produces;
  produces_peeked : produces;
  produces_copied_by_peek : produces;
  produces_touching_base_joins : produces;
  consumes_linear_and_peeks : gset Consume;
  consumes_persistent : gset Consume;
  consumes_produced : gset Consume;
  produces_mergeable : produces;
  consumes_mergeable : gset Consume;
  number_channels_data : NumberChannelsDiff;
}.

(** [EventLogIndex::empty] *)
Definition empty_index : EventLogIndex := mkELI ∅ ∅ ∅ ∅ ∅ ∅ ∅ ∅ ∅ ∅ ∅ ∅.

Section new.
Context (produce_exists_in_pre_state produce_touch_pre_state_join : Produce -> bool).

(** One event of the log: the bodies of the three parallel loops, which only insert into
    sets. *)
Definition index_produce (p : Produce) (e : EventLogIndex) : EventLogIndex :=
  mkELI
    (if p_persistent p then produces_linear e else pinsert p (produces_linear e))
    (if p_persistent p then pinsert p (produces_persistent e) else produces_persistent e)
    (produces_consumed e) (produces_peeked e)
    (if produce_exists_in_pre_state p then pinsert p (produces_copied_by_peek e)
     else produces_copied_by_peek e)
    (if produce_touch_pre_state_join p then pinsert p (produces_touching_base_joins e)
     else produces_touching_base_joins e)
    (consumes_linear_and_peeks e) (consumes_persistent e) (consumes_produced e)
    (produces_mergeable e) (consumes_mergeable e) (number_channels_data e).
Definition index_consume (c : Consume) (e : EventLogIndex) : EventLogIndex :=
  mkELI (produces_linear e) (produces_persistent e) (produces_consumed e) (produces_peeked e)
    (produces_copied_by_peek e) (produces_touching_base_joins e)
    (if c_persistent c then consumes_linear_and_peeks e
     else {[c]} ∪ consumes_linear_and_peeks e)
    (if c_persistent c then {[c]} ∪ consumes_persistent e else consumes_persistent e)
    (consumes_produced e) (produces_mergeable e) (consumes_mergeable e)
    (number_channels_data e).
Definition index_comm (c : COMM) (e : EventLogIndex) : EventLogIndex :=
  let insert_all s := foldl (fun s p => pinsert p s) s (comm_produces c) in
  let has_peeks := bool_decide (comm_peeks c <> ∅) in
  mkELI (produces_linear e) (produces_persistent e)
    (if has_peeks then produces_consumed e else insert_all (produces_consumed e))
    (if has_peeks then insert_all (produces_peeked e) else produces_peeked e)
    (produces_copied_by_peek e) (produces_touching_base_joins e)
    (consumes_linear_and_peeks e) (consumes_persistent e)
    ({[comm_consume c]} ∪ consumes_produced e)
    (produces_mergeable e) (consumes_mergeable e) (number_channels_data e).
Definition index_event (e : EventLogIndex) (event : Event) : EventLogIndex :=
  match event with
  | IoEvent (IOProduce p) => index_produce p e
  | IoEvent (IOConsume c) => index_consume c e
  | Comm comm => index_comm comm e
  end.

(** [EventLogIndex::new] *)
Definition EventLogIndex_new (event_log : list Event) (mergeable_chs : NumberChannelsDiff) :
  EventLogIndex :=
  let e := foldl index_event empty_index event_log in
  let all_produces := foldl (fun s p => pinsert p s) ∅
    (plist (produces_linear e) ++ plist (produces_persistent e) ++
     plist (produces_consumed e) ++ plist (produces_peeked e)) in
  let all_consumes :=
    consumes_linear_and_peeks e ∪ consumes_persistent e ∪ consumes_produced e in
  mkELI (produces_linear e) (produces_persistent e) (produces_consumed e) (produces_peeked e)
    (produces_copied_by_peek e) (produces_touching_base_joins e)
    (consumes_linear_and_peeks e) (consumes_persistent e) (consumes_produced e)
    (filter (fun kp => is_Some (mergeable_chs !! channel_hash kp.2)) all_produces)
    (filter (fun c => Exists (fun h => is_Some (mergeable_chs !! h)) (channel_hashes c))
       all_consumes)
    mergeable_chs.
End new.

(** ** Created, destroyed and affected events *)

(** [fn produces_created] *)
Definition produces_created (e : EventLogIndex) : produces :=
  punion (produces_linear e) (produces_persistent e) ∖ produces_copied_by_peek e.
(** [fn consumes_created] *)
Definition consumes_created (e : EventLogIndex) : gset Consume :=
  consumes_linear_and_peeks e ∪ consumes_persistent e.
(** [fn produces_created_and_not_destroyed] *)
Definition produces_created_and_not_destroyed (e : EventLogIndex) : produces :=
  punion (produces_linear e ∖ produces_consumed e) (produces_persistent e)
    ∖ produces_copied_by_peek e.
(** [fn consumes_created_and_not_destroyed] *)
Definition consumes_created_and_not_destroyed (e : EventLogIndex) : gset Consume :=
  (consumes_linear_and_peeks e ∖ consumes_produced e) ∪ consumes_persistent e.
(** [fn produces_affected] *)
Definition produces_affected (e : EventLogIndex) : produces :=
  let external_produces_destroyed :=
    filter (fun kp => p_persistent kp.2 = false) (produces_consumed e ∖ produces_created e) in
  punion (produces_created_and_not_destroyed e) external_produces_destroyed.
(** [fn consumes_affected] *)
Definition consumes_affected (e : EventLogIndex) : gset Consume :=
  let external_consumes_destroyed :=
    filter (fun c => c_persistent c = false) (consumes_produced e ∖ consumes_created e) in
  consumes_created_and_not_destroyed e ∪ external_consumes_destroyed.

(** [fn combine_produces_copied_by_peek] *)
Definition combine_produces_copied_by_peek (x y : EventLogIndex) : produces :=
  punion (produces_copied_by_peek x) (produces_copied_by_peek y) ∖
    punion (produces_created x) (produces_created y).

(** ** [EventLogIndex::combine] *)

(** [{:?}] of [MergeType] and the message of a mismatch *)
Definition merge_type_debug (t : MergeType) : string :=
  match t with IntegerAdd => "IntegerAdd" | BitmaskOr => "BitmaskOr" end.
Definition mismatch_message (key : Blake2b256Hash) (a b : MergeType) : string :=
  "MergeType mismatch on channel " +:+ hash_to_string key +:+ ": " +:+ merge_type_debug a +:+
  " vs " +:+ merge_type_debug b.

(** The body of the loop over both maps. *)
Definition add_number_channel (m : NumberChannelsDiff) (kv : Blake2b256Hash * (Z * MergeType)) :
  res HistoryError NumberChannelsDiff :=
  let '(key, (incoming_diff, incoming_mt)) := kv in
  match m !! key with
  | Some (existing, mt) =>
    if decide (mt = incoming_mt) then
      Ok (<[key := (combine_mergeable_value existing incoming_diff incoming_mt, mt)]> m)
    else Err (MergeError (mismatch_message key mt incoming_mt))
  | None => Ok (<[key := (incoming_diff, incoming_mt)]> m)
  end.
(** A [BTreeMap] iterates in the order of its keys. *)
Definition btree_entries {V} (m : gmap Blake2b256Hash V) : list (Blake2b256Hash * V) :=
  sort_by (fun a b => bytes_cmp a.1 b.1) (map_to_list m).
Definition combine_number_channels (x y : NumberChannelsDiff) :
  res HistoryError NumberChannelsDiff :=
  res_foldM add_number_channel ∅ (btree_entries x ++ btree_entries y).

Open Scope res_scope.
Definition combine (x y : EventLogIndex) : res HistoryError EventLogIndex :=
  data <-! combine_number_channels (number_channels_data x) (number_channels_data y);
  Ok (mkELI
    (punion (produces_linear x) (produces_linear y))
    (punion (produces_persistent x) (produces_persistent y))
    (punion (produces_consumed x) (produces_consumed y))
    (punion (produces_peeked x) (produces_peeked y))
    (combine_produces_copied_by_peek x y)
    (punion (produces_touching_base_joins x) (produces_touching_base_joins y))
    (consumes_linear_and_peeks x ∪ consumes_linear_and_peeks y)
    (consumes_persistent x ∪ consumes_persistent y)
    (consumes_produced x ∪ consumes_produced y)
    (punion (produces_mergeable x) (produces_mergeable y))
    (consumes_mergeable x ∪ consumes_mergeable y)
    data).
Close Scope res_scope.

(** [Ord for EventLogIndex] *)
Definition merge_type_cmp (a b : MergeType) : comparison :=
  match a, b with
  | IntegerAdd, BitmaskOr => Lt
  | BitmaskOr, IntegerAdd => Gt
  | _, _ => Eq
  end.
Definition event_count (e : EventLogIndex) : nat :=
  size (produces_linear e) + size (produces_persistent e) + size (produces_consumed e).
Definition consume_count (e : EventLogIndex) : nat :=
  size (consumes_linear_and_peeks e) + size (consumes_persistent e) + size (consumes_produced e).
Definition entry_cmp : Blake2b256Hash * (Z * MergeType) -> Blake2b256Hash * (Z * MergeType) ->
  comparison := pair_cmp bytes_cmp (pair_cmp Z.compare merge_type_cmp).
Definition event_log_cmp (x y : EventLogIndex) : comparison :=
  let a := btree_entries (number_channels_data x) in
  let b := btree_entries (number_channels_data y) in
  then_with (Nat.compare (length a) (length b))
    (then_with (default Eq (head (filter (.≠ Eq) (zip_with entry_cmp a b))))
      (then_with (Nat.compare (event_count x) (event_count y))
        (Nat.compare (consume_count x) (consume_count y)))).

(** ** Dependencies and conflicts of two logs *)

(** [fn depends] *)
Definition depends (target source : EventLogIndex) : bool :=
  let produces_source :=
    produces_created_and_not_destroyed source ∖ produces_mergeable source in
  let produces_target := produces_consumed target ∖ produces_mergeable source in
  let consumes_source := consumes_created_and_not_destroyed source in
  let consumes_target := consumes_produced target in
  bool_decide (pinter produces_source produces_target <> ∅) ||
  bool_decide (consumes_source ∩ consumes_target <> ∅).

(** Check 1 of [conflicts]: events destroyed in both logs, unless mergeable in both. *)
Definition consume_races (a b : EventLogIndex) : gset Consume :=
  filter (fun c => c_persistent c = false)
    ((consumes_produced a ∩ consumes_produced b) ∖
     (consumes_mergeable a ∩ consumes_mergeable b)).
Definition produce_races (a b : EventLogIndex) : produces :=
  filter (fun kp => p_persistent kp.2 = false)
    (pinter (produces_consumed a) (produces_consumed b) ∖
     pinter (produces_mergeable a) (produces_mergeable b)).
Definition races_for_same_io_event (a b : EventLogIndex) : gset Blake2b256Hash :=
  list_to_set (elements (consume_races a b) ≫= channel_hashes) ∪
  list_to_set (channel_hash <$> plist (produce_races a b)).

(** Check 2: a produce that one log leaves and a consume that the other leaves could match. *)
Definition match_found (consume : Consume) (produce : Produce) : bool :=
  bool_decide (channel_hash produce ∈ channel_hashes consume).
Definition potential_matches (left right : EventLogIndex) : list (Produce * Consume) :=
  filter (fun pc => match_found pc.2 pc.1 = true)
    (plist (produces_created_and_not_destroyed left) ≫= fun p =>
     (fun c => (p, c)) <$> elements (consumes_created_and_not_destroyed right)).
Definition potential_comms (a b : EventLogIndex) : gset Blake2b256Hash :=
  list_to_set ((fun pc => channel_hash pc.1) <$> potential_matches a b) ∪
  list_to_set ((fun pc => channel_hash pc.1) <$> potential_matches b a).

(** Check 3: a produce touches a join of the base state. *)
Definition produce_touch_base_join (a b : EventLogIndex) : gset Blake2b256Hash :=
  list_to_set (channel_hash <$> (plist (produces_touching_base_joins a) ++
                                 plist (produces_touching_base_joins b))).

(** [fn conflicts], [fn are_conflicting] *)
Definition conflicts (a b : EventLogIndex) : gset Blake2b256Hash :=
  races_for_same_io_event a b ∪ potential_comms a b ∪ produce_touch_base_join a b.
Definition are_conflicting (a b : EventLogIndex) : bool := bool_decide (conflicts a b <> ∅).

(** [fn conflict_reason] *)
Definition race_reason (a b : EventLogIndex) : option string :=
  let c := size (consume_races a b) in
  let p := size (produce_races a b) in
  match bool_decide (consume_races a b = ∅), bool_decide (produce_races a b = ∅) with
  | false, false => Some ("racesForSameIOEvent: consumeRaces=" +:+ pretty c +:+
                          ", produceRaces=" +:+ pretty p)
  | false, true => Some ("racesForSameIOEvent: consumeRaces=" +:+ pretty c)
  | true, false => Some ("racesForSameIOEvent: produceRaces=" +:+ pretty p)
  | true, true => None
  end.
Definition comm_reason (a b : EventLogIndex) : option string :=
  let a_to_b := length (potential_matches a b) in
  let b_to_a := length (potential_matches b a) in
  if bool_decide (0 < a_to_b \/ 0 < b_to_a) then
    Some ("potentialCOMMs: a->b=" +:+ pretty a_to_b +:+ ", b->a=" +:+ pretty b_to_a)
  else None.
Definition join_reason (a b : EventLogIndex) : option string :=
  let count := size (produces_touching_base_joins a) + size (produces_touching_base_joins b) in
  if bool_decide (0 < count) then Some ("produceTouchBaseJoin: count=" +:+ pretty count)
  else None.
Definition conflict_reason (a b : EventLogIndex) : option string :=
  match race_reason a b with
  | Some r => Some r
  | None => match comm_reason a b with Some r => Some r | None => join_reason a b end
  end.
