(* ===== verification/MergingMaps.v ===== *)
(** * The maps by index are the maps by comparison

    Well-formed event logs, what [are_conflicting] and [depends] mean on them, and the
    lemmas on the indexes and maps of [MergingIndex].  The main results:
    [compute_conflict_map_event_indexed] and [compute_depends_map_event_indexed] return
    the maps that [compute_relation_map] returns for the pairwise predicates. *)
From S2P Require Import Prelude Events HotStoreSig HistoryRepo MergingLogic MergingIndex.

(** ** Sets of produces *)

(** Every produce is filed under its own hash. *)
Definition pwf (s : produces) : Prop := forall h p, s !! h = Some p -> p_hash p = h.

Lemma elem_of_plist (s : produces) p : p ∈ plist s <-> exists h, s !! h = Some p.
Proof.
  unfold plist. rewrite list_elem_of_fmap. split.
  - intros ([h q] & -> & Hq). exists h. by apply elem_of_map_to_list.
  - intros [h Hh]. exists (h, p). split; [done|]. by apply elem_of_map_to_list.
Qed.

Lemma pinsert_lookup p s h q :
  pinsert p s !! h = Some q -> s !! h = Some q \/ (q = p /\ h = p_hash p).
Proof.
  unfold pinsert. destruct (s !! p_hash p) eqn:E; [by left|].
  intros [[<- <-]|[_ ?]]%lookup_insert_Some; auto.
Qed.
Lemma pinsert_wf p s : pwf s -> pwf (pinsert p s).
Proof. intros Hs h q [Hq|[-> ->]]%pinsert_lookup; [by apply Hs|done]. Qed.
Lemma pinserts_wf l s : pwf s -> pwf (foldl (fun s p => pinsert p s) s l).
Proof. revert s. induction l as [|p l IH]; [done|]. intros s Hs. by apply IH, pinsert_wf. Qed.

Lemma union_lookup_or {V} (x y : gmap Blake2b256Hash V) h v :
  (x ∪ y) !! h = Some v -> x !! h = Some v \/ y !! h = Some v.
Proof. intros [?|[_ ?]]%lookup_union_Some_raw; auto. Qed.
Lemma punion_lookup x y h p :
  punion x y !! h = Some p -> x !! h = Some p \/ y !! h = Some p.
Proof. unfold punion. case_decide; intros ?%union_lookup_or; tauto. Qed.
Lemma punion_is_Some x y h :
  is_Some (punion x y !! h) <-> is_Some (x !! h) \/ is_Some (y !! h).
Proof. unfold punion. case_decide; rewrite lookup_union_is_Some; tauto. Qed.
Lemma punion_wf x y : pwf x -> pwf y -> pwf (punion x y).
Proof. intros Hx Hy h p [?|?]%punion_lookup; auto. Qed.

Lemma pinter_lookup x y h p :
  pinter x y !! h = Some p -> x !! h = Some p \/ y !! h = Some p.
Proof. unfold pinter. case_decide; intros [? _]%lookup_intersection_Some; auto. Qed.
Lemma pinter_is_Some x y h :
  is_Some (pinter x y !! h) <-> is_Some (x !! h) /\ is_Some (y !! h).
Proof.
  unfold pinter. rewrite !(is_Some_alt (_ !! h)).
  case_decide; rewrite lookup_intersection; destruct (x !! h), (y !! h); naive_solver.
Qed.

Lemma difference_is_Some {V} (x y : gmap Blake2b256Hash V) h :
  is_Some ((x ∖ y) !! h) <-> is_Some (x !! h) /\ ~ is_Some (y !! h).
Proof.
  unfold is_Some. setoid_rewrite lookup_difference_Some. split.
  - intros (v & Hv & E). rewrite E. split; [by exists v|]. by intros [? ?].
  - intros [[v Hv] Hn]. exists v. split; [done|].
    destruct (y !! h) eqn:E; [exfalso; apply Hn; eauto|done].
Qed.
Lemma difference_wf x y : pwf x -> pwf (x ∖ y).
Proof. intros Hx h p [? _]%lookup_difference_Some. by apply Hx. Qed.
Lemma nonempty_is_Some {V} (m : gmap Blake2b256Hash V) :
  m <> ∅ <-> exists h, is_Some (m !! h).
Proof.
  split.
  - intros Hm. destruct (map_choose m Hm) as (h & v & ?). by exists h, v.
  - intros (h & v & Hv) ->. done.
Qed.
Lemma pmem_true p s : pmem p s = true <-> is_Some (s !! p_hash p).
Proof. unfold pmem. apply bool_decide_eq_true. Qed.
Lemma pmem_false p s : pmem p s = false <-> ~ is_Some (s !! p_hash p).
Proof. unfold pmem. apply bool_decide_eq_false. Qed.

#[export] Hint Resolve pinsert_wf pinserts_wf punion_wf difference_wf : merging.

(** ** Well-formed event logs *)

Record index_wf (e : EventLogIndex) : Prop := {
  wf_linear : pwf (produces_linear e);
  wf_persistent : pwf (produces_persistent e);
  wf_consumed : pwf (produces_consumed e);
  wf_peeked : pwf (produces_peeked e);
  wf_copied : pwf (produces_copied_by_peek e);
  wf_touching : pwf (produces_touching_base_joins e);
  wf_mergeable : pwf (produces_mergeable e);
}.
#[export] Hint Resolve wf_linear wf_persistent wf_consumed wf_peeked wf_copied wf_touching
  wf_mergeable : merging.

Lemma empty_wf : index_wf empty_index.
Proof. split; by intros ???. Qed.

Lemma index_event_wf f g e ev : index_wf e -> index_wf (index_event f g e ev).
Proof.
  intros He. destruct ev as [c|[p|c]]; split; simpl; repeat case_match; eauto with merging.
Qed.

Lemma index_new_wf f g log chs : index_wf (EventLogIndex_new f g log chs).
Proof.
  assert (index_wf (foldl (index_event f g) empty_index log)) as He.
  { generalize empty_wf. generalize empty_index.
    induction log as [|ev log IH]; [done|]. intros e He. by apply IH, index_event_wf. }
  split; cbn -[foldl]; eauto with merging.
  intros h p [Hp _]%map_lookup_filter_Some. revert h p Hp.
  apply pinserts_wf. by intros ???.
Qed.

Lemma combine_copied_wf x y :
  index_wf x -> index_wf y -> pwf (combine_produces_copied_by_peek x y).
Proof. intros Hx Hy. unfold combine_produces_copied_by_peek. eauto with merging. Qed.
#[export] Hint Resolve combine_copied_wf : merging.

Lemma combine_wf x y z : index_wf x -> index_wf y -> combine x y = Ok z -> index_wf z.
Proof.
  intros Hx Hy (d & _ & [= <-])%res_bind_Ok. split; simpl; eauto with merging.
Qed.

(** ** What the logs leave behind *)

Lemma surviving_produces_spec e p :
  index_wf e ->
  p ∈ surviving_produces e ->
  exists q, produces_created_and_not_destroyed e !! p_hash p = Some q /\
    p_hash q = p_hash p /\
    (produces_linear e !! p_hash p = Some p \/ produces_persistent e !! p_hash p = Some p).
Proof.
  intros He. unfold surviving_produces. rewrite elem_of_app, !list_elem_of_filter, !elem_of_plist.
  rewrite !pmem_false. intros Hp.
  assert (produces_linear e !! p_hash p = Some p \/ produces_persistent e !! p_hash p = Some p)
    as Hor.
  { destruct Hp as [[_ [h Hh]]|[_ [h Hh]]]; [left|right].
    - by rewrite (wf_linear e He h p Hh).
    - by rewrite (wf_persistent e He h p Hh). }
  assert (is_Some (produces_created_and_not_destroyed e !! p_hash p)) as [q Hq].
  { unfold produces_created_and_not_destroyed.
    rewrite difference_is_Some, punion_is_Some, difference_is_Some.
    destruct Hp as [[[H1 H2] [h Hh]]|[H1 [h Hh]]].
    - pose proof (wf_linear e He h p Hh); subst. eauto.
    - pose proof (wf_persistent e He h p Hh); subst. eauto. }
  exists q. split; [done|]. split; [|done].
  assert (pwf (produces_created_and_not_destroyed e)) as Hw; [|by apply Hw].
  unfold produces_created_and_not_destroyed. eauto 10 with merging.
Qed.

Lemma created_survives e h p :
  index_wf e ->
  produces_created_and_not_destroyed e !! h = Some p -> p ∈ surviving_produces e.
Proof.
  intros He [[Hp|Hp]%punion_lookup Hc]%lookup_difference_Some;
    unfold surviving_produces; rewrite elem_of_app, !list_elem_of_filter, !elem_of_plist,
    !pmem_false.
  - apply lookup_difference_Some in Hp as [Hp Hd]. left.
    rewrite (wf_linear e He h p Hp), Hc, Hd. split; [|by exists h].
    split; by intros [? ?].
  - right. rewrite (wf_persistent e He h p Hp), Hc. split; [by intros [? ?]|by exists h].
Qed.

Lemma surviving_consumes_spec e c :
  c ∈ surviving_consumes e <-> c ∈ consumes_created_and_not_destroyed e.
Proof.
  unfold surviving_consumes, consumes_created_and_not_destroyed.
  rewrite elem_of_app, list_elem_of_filter, !elem_of_elements. set_solver.
Qed.

(** ** Pairwise relations, in terms of the events *)

(** The hash of a produce covers its channel and its persistence, so produces of the logs
    with one hash agree on them; a consume names at least one channel. *)
Definition log_produce (e : EventLogIndex) (p : Produce) : Prop :=
  p ∈ plist (produces_linear e) \/ p ∈ plist (produces_persistent e) \/
  p ∈ plist (produces_consumed e).
Record coherent (logs : list EventLogIndex) : Prop := {
  co_wf : forall e, e ∈ logs -> index_wf e;
  co_produce : forall e e' p q,
    e ∈ logs -> e' ∈ logs -> log_produce e p -> log_produce e' q -> p_hash p = p_hash q ->
    channel_hash p = channel_hash q /\ p_persistent p = p_persistent q;
  co_consume : forall e c, e ∈ logs -> c ∈ consumes_produced e -> channel_hashes c <> [];
}.

(** Both logs destroy the same linear event and do not both take it for mergeable. *)
Definition consume_race (a b : EventLogIndex) (c : Consume) : Prop :=
  c ∈ consumes_produced a /\ c ∈ consumes_produced b /\
  ~ (c ∈ consumes_mergeable a /\ c ∈ consumes_mergeable b) /\ c_persistent c = false.
Definition produce_race (a b : EventLogIndex) (h : Blake2b256Hash) : Prop :=
  (exists p, produces_consumed a !! h = Some p /\ p_persistent p = false) /\
  is_Some (produces_consumed b !! h) /\
  ~ (is_Some (produces_mergeable a !! h) /\ is_Some (produces_mergeable b !! h)).
(** A produce left by one log and a consume left by the other share a channel. *)
Definition could_match (a b : EventLogIndex) (ch : Blake2b256Hash) : Prop :=
  ch ∈ channel_hash <$> surviving_produces a /\ ch ∈ surviving_consumes b ≫= channel_hashes.
Definition conflict (a b : EventLogIndex) : Prop :=
  (exists h, produce_race a b h) \/ (exists c, consume_race a b c) \/
  (exists ch, could_match a b ch \/ could_match b a ch) \/
  produces_touching_base_joins a <> ∅ \/ produces_touching_base_joins b <> ∅.

Section pairwise.
Context (logs : list EventLogIndex) (Hco : coherent logs).

Lemma consume_races_spec a b c : c ∈ consume_races a b <-> consume_race a b c.
Proof. unfold consume_races, consume_race. set_solver. Qed.

Lemma consumed_log_produce e h p : produces_consumed e !! h = Some p -> log_produce e p.
Proof. intros Hp. right; right. apply elem_of_plist. eauto. Qed.
Lemma surviving_log_produce e p : p ∈ surviving_produces e -> log_produce e p.
Proof.
  unfold surviving_produces, log_produce.
  rewrite elem_of_app, !list_elem_of_filter. tauto.
Qed.

Lemma produce_races_spec a b h :
  a ∈ logs -> b ∈ logs -> is_Some (produce_races a b !! h) <-> produce_race a b h.
Proof.
  intros Ha Hb. unfold produce_races, produce_race. split.
  - intros [p [Hp Hl]%map_lookup_filter_Some]. simpl in Hl.
    apply lookup_difference_Some in Hp as [Hp Hm].
    assert (is_Some (pinter (produces_consumed a) (produces_consumed b) !! h)) as Hi by eauto.
    apply pinter_is_Some in Hi as [[q Hq] [r Hr]].
    rewrite <- pinter_is_Some. split_and!; [|by exists r|rewrite Hm; by intros [? ?]].
    exists q. split; [done|].
    pose proof (wf_consumed a (co_wf _ Hco a Ha) h q Hq) as Eq.
    apply pinter_lookup in Hp as [Hp|Hp].
    + congruence.
    + pose proof (wf_consumed b (co_wf _ Hco b Hb) h p Hp) as Ep.
      destruct (co_produce _ Hco a b q p) as [_ ->]; eauto using consumed_log_produce; congruence.
  - intros ((q & Hq & Hl) & [r Hr] & Hm).
    assert (is_Some (pinter (produces_consumed a) (produces_consumed b) !! h)) as [p Hp]
      by (apply pinter_is_Some; eauto).
    exists p. apply map_lookup_filter_Some. split.
    + apply lookup_difference_Some. split; [done|].
      rewrite <- pinter_is_Some in Hm. by apply eq_None_not_Some.
    + pose proof (wf_consumed a (co_wf _ Hco a Ha) h q Hq) as Eq.
      apply pinter_lookup in Hp as [Hp|Hp]; simpl.
      * congruence.
      * pose proof (wf_consumed b (co_wf _ Hco b Hb) h p Hp) as Ep.
        destruct (co_produce _ Hco a b q p) as [_ <-]; eauto using consumed_log_produce;
          congruence.
Qed.

Lemma potential_matches_spec a b ch :
  a ∈ logs -> b ∈ logs ->
  ch ∈ (fun pc => channel_hash pc.1) <$> potential_matches a b <-> could_match a b ch.
Proof.
  intros Ha Hb. pose proof (co_wf _ Hco a Ha) as Hwa.
  unfold could_match. rewrite !list_elem_of_fmap, list_elem_of_bind. split.
  - intros ([p c] & -> & [Hm Hpc]%list_elem_of_filter).
    apply bool_decide_eq_true in Hm.
    apply list_elem_of_bind in Hpc as (p' & Hin & Hp').
    apply list_elem_of_fmap in Hin as (c' & [= <- <-] & Hc%elem_of_elements).
    apply elem_of_plist in Hp' as [h Hh]. split.
    + exists p. split; [done|]. eapply created_survives; eauto.
    + exists c. split; [done|]. by apply surviving_consumes_spec.
  - intros [(p & -> & Hp) (c & Hch & Hc)].
    destruct (surviving_produces_spec a p Hwa Hp) as (q & Hq & Eh & _).
    assert (channel_hash q = channel_hash p) as Ec.
    { apply (co_produce _ Hco a a q p); auto using surviving_log_produce.
      eapply surviving_log_produce, created_survives; eauto. }
    exists (q, c). split; [done|]. apply list_elem_of_filter. split.
    + unfold match_found. simpl. rewrite Ec. by apply bool_decide_eq_true.
    + apply list_elem_of_bind. exists q. split.
      * apply list_elem_of_fmap. exists c. split; [done|].
        by apply elem_of_elements, surviving_consumes_spec.
      * apply elem_of_plist. eauto.
Qed.

Lemma fmap_plist_nonempty (s : produces) :
  (exists ch, ch ∈ channel_hash <$> plist s) <-> s <> ∅.
Proof.
  rewrite nonempty_is_Some. setoid_rewrite list_elem_of_fmap. setoid_rewrite elem_of_plist.
  split.
  - intros (ch & p & _ & h & Hh). eauto.
  - intros (h & p & Hh). eauto.
Qed.

Lemma are_conflicting_spec a b :
  a ∈ logs -> b ∈ logs -> are_conflicting a b = true <-> conflict a b.
Proof.
  intros Ha Hb. unfold are_conflicting. rewrite bool_decide_eq_true.
  assert (conflicts a b <> ∅ <-> exists ch, ch ∈ conflicts a b) as ->.
  { split; [apply set_choose_L|]. set_solver. }
  unfold conflicts, races_for_same_io_event, potential_comms, produce_touch_base_join.
  setoid_rewrite elem_of_union. setoid_rewrite elem_of_union. setoid_rewrite elem_of_union.
  setoid_rewrite elem_of_list_to_set. setoid_rewrite fmap_app. setoid_rewrite elem_of_app.
  setoid_rewrite potential_matches_spec; [|done..].
  assert ((exists ch, ch ∈ elements (consume_races a b) ≫= channel_hashes) <->
          exists c, consume_race a b c) as Hc.
  { setoid_rewrite list_elem_of_bind. setoid_rewrite elem_of_elements.
    setoid_rewrite consume_races_spec. split; [naive_solver|]. intros [c Hc].
    destruct (channel_hashes c) as [|ch l] eqn:E.
    - by destruct (co_consume _ Hco a c Ha (proj1 Hc)).
    - exists ch, c. rewrite E. split; [left|done]. }
  assert ((exists ch, ch ∈ channel_hash <$> plist (produce_races a b)) <->
          exists h, produce_race a b h) as Hp.
  { rewrite fmap_plist_nonempty, nonempty_is_Some.
    by setoid_rewrite produce_races_spec. }
  pose proof (fmap_plist_nonempty (produces_touching_base_joins a)).
  pose proof (fmap_plist_nonempty (produces_touching_base_joins b)).
  unfold conflict. rewrite <- Hc, <- Hp. naive_solver.
Qed.

(** A log creates what the other destroys. *)
Definition dependency (target source : EventLogIndex) : Prop :=
  (exists h, (exists p, p ∈ source_produces source /\ p_hash p = h) /\
             is_Some (produces_consumed target !! h)) \/
  (exists c, c ∈ surviving_consumes source /\ c ∈ consumes_produced target).

Lemma source_produces_elem e p :
  p ∈ source_produces e <->
  p ∈ surviving_produces e /\ ~ is_Some (produces_mergeable e !! p_hash p).
Proof.
  unfold source_produces, surviving_produces.
  rewrite !elem_of_app, !list_elem_of_filter, !pmem_false. tauto.
Qed.

Lemma depends_spec target source :
  source ∈ logs -> depends target source = true <-> dependency target source.
Proof.
  intros Hs. pose proof (co_wf _ Hco source Hs) as Hw.
  unfold depends, dependency. rewrite orb_true_iff, !bool_decide_eq_true.
  assert (forall (X : gset Consume), X <> ∅ <-> exists c, c ∈ X) as HX.
  { intros X. split; [apply set_choose_L|set_solver]. }
  rewrite HX, nonempty_is_Some.
  setoid_rewrite elem_of_intersection. setoid_rewrite surviving_consumes_spec.
  apply or_iff_compat_r.
  setoid_rewrite pinter_is_Some. setoid_rewrite difference_is_Some.
  setoid_rewrite source_produces_elem. split.
  - intros (h & [[p Hp] Hm] & [Ht _]). exists h. split; [|done]. exists p.
    assert (p_hash p = h) as <-.
    { assert (pwf (produces_created_and_not_destroyed source)) as Hx; [|by apply Hx].
      unfold produces_created_and_not_destroyed. eauto 10 with merging. }
    eauto using created_survives.
  - intros (h & (p & [Hp Hm] & <-) & Ht). exists (p_hash p).
    destruct (surviving_produces_spec _ _ Hw Hp) as (q & Hq & _). eauto.
Qed.
End pairwise.

(** ** Indexes *)

(** Branch [i] is filed under [k]. *)
Definition filed {K} `{Countable K} (m : branch_index K) (k : K) (i : nat) : Prop :=
  exists s, m !! k = Some s /\ i ∈ s.
Definition pfiled (m : produce_index) (h : Blake2b256Hash) (i : nat) : Prop :=
  exists q s, m !! h = Some (q, s) /\ i ∈ s.

Lemma filed_add {K} `{Countable K} idx (m : branch_index K) k k' i :
  filed (index_add idx m k) k' i <-> filed m k' i \/ (i = idx /\ k' = k).
Proof.
  unfold filed, index_add. destruct (decide (k' = k)) as [->|Hne].
  - rewrite lookup_insert_eq. split.
    + intros (s & [= <-] & [->%elem_of_singleton|Hi]%elem_of_union); [by right|].
      left. destruct (m !! k) as [s|]; [by exists s|set_solver].
    + intros [(s & -> & Hi)|[-> _]]; eexists; (split; [done|]); set_solver.
  - rewrite lookup_insert_ne by done. naive_solver.
Qed.
Lemma filed_adds {K} `{Countable K} idx ks (m : branch_index K) k i :
  filed (foldl (index_add idx) m ks) k i <-> filed m k i \/ (i = idx /\ k ∈ ks).
Proof.
  revert m. induction ks as [|k' ks IH]; intros m; simpl; [set_solver|].
  rewrite IH, filed_add, elem_of_cons. tauto.
Qed.

Lemma pfiled_add idx m p h i :
  pfiled (pindex_add idx m p) h i <-> pfiled m h i \/ (i = idx /\ p_hash p = h).
Proof.
  unfold pfiled, pindex_add. destruct (m !! p_hash p) as [[q s]|] eqn:E.
  - destruct (decide (h = p_hash p)) as [->|Hne].
    + rewrite lookup_insert_eq, E. split.
      * intros (? & ? & [= <- <-] & [->%elem_of_singleton|?]%elem_of_union); eauto.
      * intros [(? & ? & [= <- <-] & Hi)|[-> _]]; eexists _, _; (split; [done|]); set_solver.
    + rewrite lookup_insert_ne by done. naive_solver.
  - destruct (decide (h = p_hash p)) as [->|Hne].
    + rewrite lookup_insert_eq, E. split.
      * intros (? & ? & [= <- <-] & ->%elem_of_singleton). auto.
      * intros [(? & ? & [=] & _)|[-> _]]. eexists _, _; (split; [done|]); set_solver.
    + rewrite lookup_insert_ne by done. naive_solver.
Qed.
Lemma pfiled_adds idx ps m h i :
  pfiled (foldl (pindex_add idx) m ps) h i <->
  pfiled m h i \/ (i = idx /\ exists p, p ∈ ps /\ p_hash p = h).
Proof.
  revert m. induction ps as [|p ps IH]; intros m; simpl; [set_solver|].
  rewrite IH, pfiled_add. setoid_rewrite elem_of_cons. naive_solver.
Qed.

(** The key objects satisfy [P] if those that are added do, and no entry is empty. *)
Definition pkeys (P : Produce -> Prop) (m : produce_index) : Prop :=
  forall h q s, m !! h = Some (q, s) -> P q /\ p_hash q = h.
Lemma pkeys_add P idx m p : pkeys P m -> P p -> pkeys P (pindex_add idx m p).
Proof.
  intros Hm Hp h q s. unfold pindex_add. destruct (m !! p_hash p) as [[q' s']|] eqn:E;
    (intros [[<- [= <- <-]]|[_ ?]]%lookup_insert_Some; [|by eapply Hm]); eauto.
Qed.
Lemma pkeys_adds P idx ps m :
  pkeys P m -> (forall p, p ∈ ps -> P p) -> pkeys P (foldl (pindex_add idx) m ps).
Proof.
  revert m. induction ps as [|p ps IH]; intros m Hm Hps; [done|]. simpl.
  apply IH; [apply pkeys_add; set_solver|set_solver].
Qed.

(** A pass over the logs that files branch [idx] when its log satisfies [Q]. *)
Lemma pass_spec {S} (step : S -> nat * EventLogIndex -> S) (P : S -> nat -> Prop)
    (Q : EventLogIndex -> Prop) s0 (logs : list EventLogIndex) i :
  (forall s idx e i, P (step s (idx, e)) i <-> P s i \/ (i = idx /\ Q e)) ->
  (forall i, ~ P s0 i) ->
  P (foldl step s0 (enumerate logs)) i <-> exists e, logs !! i = Some e /\ Q e.
Proof.
  intros Hstep Hs0.
  assert (forall l s, P (foldl step s l) i <->
    P s i \/ exists e, (i, e) ∈ l /\ Q e) as Hl.
  { induction l as [|[idx e] l IH]; intros s; simpl; [set_solver|].
    rewrite IH, Hstep. setoid_rewrite elem_of_cons. naive_solver. }
  rewrite Hl. setoid_rewrite elem_of_enumerate. naive_solver.
Qed.
Lemma pass_inv {S} (step : S -> nat * EventLogIndex -> S) (I : S -> Prop) s0
    (logs : list EventLogIndex) :
  (forall s idx e, e ∈ logs -> I s -> I (step s (idx, e))) -> I s0 ->
  I (foldl step s0 (enumerate logs)).
Proof.
  intros Hstep. assert (forall ie, ie ∈ enumerate logs -> ie.2 ∈ logs) as Hin.
  { intros [i e] ?%elem_of_enumerate. simpl. by eapply list_elem_of_lookup_2. }
  revert s0 Hin. generalize (enumerate logs) as l.
  induction l as [|[idx e] l IH]; intros s0 Hin Hs; [done|]. simpl.
  apply IH; [set_solver|]. apply Hstep; [|done]. apply (Hin (idx, e)). left.
Qed.

(** ** Pairs *)

Definition linked (pairs : list (nat * nat)) (i j : nat) : Prop :=
  (i, j) ∈ pairs \/ (j, i) ∈ pairs.

Lemma linked_app k l i j : linked (k ++ l) i j <-> linked k i j \/ linked l i j.
Proof. unfold linked. rewrite !elem_of_app. tauto. Qed.
Lemma linked_nil i j : ~ linked [] i j.
Proof. unfold linked. set_solver. Qed.
Lemma linked_bind {X} (f : X -> list (nat * nat)) l i j :
  linked (l ≫= f) i j <-> exists x, x ∈ l /\ linked (f x) i j.
Proof. unfold linked. rewrite !list_elem_of_bind. naive_solver. Qed.
Lemma linked_ordered l i j : linked (ordered <$> l) i j <-> linked l i j.
Proof.
  unfold linked. rewrite !list_elem_of_fmap. split.
  - intros [([a b] & E & Hab)|([a b] & E & Hab)]; unfold ordered in E; simpl in E;
      case_decide; simplify_eq; auto.
  - unfold ordered. intros [Hl|Hl].
    + destruct (decide (i < j)) as [Hij|Hij].
      * left. exists (i, j). split; [simpl; by rewrite decide_True|done].
      * right. exists (i, j). split; [simpl; by rewrite decide_False|done].
    + destruct (decide (j < i)) as [Hij|Hij].
      * right. exists (j, i). split; [simpl; by rewrite decide_True|done].
      * left. exists (j, i). split; [simpl; by rewrite decide_False|done].
Qed.
Lemma linked_all_pairs l i j :
  NoDup l -> linked (all_pairs l) i j <-> i ∈ l /\ j ∈ l /\ i <> j.
Proof.
  induction 1 as [|x l Hx Hl IH]; simpl; [unfold linked; set_solver|].
  rewrite linked_app, IH. unfold linked. rewrite !list_elem_of_fmap, !elem_of_cons.
  split.
  - intros [[(y & [= -> ->] & Hy)|(y & [= -> ->] & Hy)]|?]; set_solver.
  - intros (Hi & Hj & Hne). destruct Hi as [->|Hi], Hj as [->|Hj]; [done| | |auto].
    + left; left. eauto.
    + left; right. eauto.
Qed.
Lemma linked_cross s t i j :
  linked (cross_pairs s t) i j <-> i <> j /\ ((i ∈ s /\ j ∈ t) \/ (j ∈ s /\ i ∈ t)).
Proof.
  unfold cross_pairs. rewrite linked_ordered. unfold linked.
  rewrite !list_elem_of_filter, !list_elem_of_bind. simpl. setoid_rewrite list_elem_of_fmap.
  setoid_rewrite elem_of_elements. naive_solver.
Qed.
Lemma linked_race persistent mergeable s i j :
  linked (race_pairs persistent mergeable s) i j <->
  persistent = false /\ i ∈ s /\ j ∈ s /\ i <> j /\ both_mergeable mergeable i j = false.
Proof.
  unfold race_pairs. destruct persistent; simpl; [by split; [intros []%linked_nil|intros []]|].
  case_bool_decide as Hsz.
  - split; [intros []%linked_nil|]. intros (_ & Hi & Hj & Hne & _).
    assert (size ({[i; j]} : gset nat) <= size s) as Hle by (apply subseteq_size; set_solver).
    rewrite size_union, !size_singleton in Hle by set_solver. lia.
  - rewrite linked_ordered.
    assert (forall a b, both_mergeable mergeable a b = both_mergeable mergeable b a) as Hsym.
    { intros a b. destruct mergeable; simpl; [apply andb_comm|done]. }
    pose proof (linked_all_pairs (elements s) i j (NoDup_elements s)) as Hap.
    unfold linked in *. rewrite !list_elem_of_filter. simpl. rewrite (Hsym j i).
    rewrite !elem_of_elements in Hap. tauto.
Qed.

(** ** The pairs of the indexes are the related pairs of logs *)

Section pairs.
Context (logs : list EventLogIndex) (Hco : coherent logs).
Let ci := foldl index_conflicts (mkCI ∅ ∅ ∅ ∅ ∅ ∅ ∅) (enumerate logs).
Let di := foldl index_depends (mkDI ∅ ∅ ∅ ∅) (enumerate logs).

Lemma hashes_of_plist (s : produces) h :
  pwf s -> (exists p, p ∈ plist s /\ p_hash p = h) <-> is_Some (s !! h).
Proof.
  intros Hs. setoid_rewrite elem_of_plist. split.
  - intros (p & [h' Hp] & <-). pose proof (Hs _ _ Hp). subst. eauto.
  - intros [p Hp]. eauto.
Qed.

Lemma filed_log (f : EventLogIndex -> produces) (i : nat) h :
  (forall e, index_wf e -> pwf (f e)) ->
  (exists e, logs !! i = Some e /\ exists p, p ∈ plist (f e) /\ p_hash p = h) <->
  (exists e, logs !! i = Some e /\ is_Some (f e !! h)).
Proof.
  intros Hf. assert (forall e, logs !! i = Some e -> pwf (f e)) as Hw.
  { intros e He. apply Hf, (co_wf _ Hco). by eapply list_elem_of_lookup_2. }
  split; intros (e & He & Hp); exists e; (split; [done|]); by eapply hashes_of_plist; eauto.
Qed.

Lemma not_filed_empty {K} `{Countable K} (k : K) i : ~ filed ∅ k i.
Proof. intros (s & [=] & _). Qed.
Lemma not_pfiled_empty h i : ~ pfiled ∅ h i.
Proof. intros (q & s & [=] & _). Qed.

Lemma ci_consumed h i :
  pfiled (produces_consumed_by_branches ci) h i <->
  exists e, logs !! i = Some e /\ is_Some (produces_consumed e !! h).
Proof.
  rewrite <- filed_log by apply wf_consumed.
  apply (pass_spec index_conflicts (fun s => pfiled (produces_consumed_by_branches s) h)
    (fun e => exists p, p ∈ plist (produces_consumed e) /\ p_hash p = h)).
  - intros. apply pfiled_adds.
  - apply not_pfiled_empty.
Qed.
Lemma ci_mergeable h i :
  pfiled (produces_mergeable_by_branches ci) h i <->
  exists e, logs !! i = Some e /\ is_Some (produces_mergeable e !! h).
Proof.
  rewrite <- filed_log by apply wf_mergeable.
  apply (pass_spec index_conflicts (fun s => pfiled (produces_mergeable_by_branches s) h)
    (fun e => exists p, p ∈ plist (produces_mergeable e) /\ p_hash p = h)).
  - intros. apply pfiled_adds.
  - apply not_pfiled_empty.
Qed.
Lemma ci_produced c i :
  filed (consumes_produced_by_branches ci) c i <->
  exists e, logs !! i = Some e /\ c ∈ consumes_produced e.
Proof.
  apply (pass_spec index_conflicts (fun s => filed (consumes_produced_by_branches s) c)).
  - intros. cbn. rewrite filed_adds. by rewrite elem_of_elements.
  - apply not_filed_empty.
Qed.
Lemma ci_cmergeable c i :
  filed (consumes_mergeable_by_branches ci) c i <->
  exists e, logs !! i = Some e /\ c ∈ consumes_mergeable e.
Proof.
  apply (pass_spec index_conflicts (fun s => filed (consumes_mergeable_by_branches s) c)).
  - intros. cbn. rewrite filed_adds. by rewrite elem_of_elements.
  - apply not_filed_empty.
Qed.
Lemma ci_surviving_produces ch i :
  filed (unconsumed_produces_by_channel ci) ch i <->
  exists e, logs !! i = Some e /\ ch ∈ channel_hash <$> surviving_produces e.
Proof.
  apply (pass_spec index_conflicts (fun s => filed (unconsumed_produces_by_channel s) ch)).
  - intros. apply filed_adds.
  - apply not_filed_empty.
Qed.
Lemma ci_surviving_consumes ch i :
  filed (unconsumed_consumes_by_channel ci) ch i <->
  exists e, logs !! i = Some e /\ ch ∈ surviving_consumes e ≫= channel_hashes.
Proof.
  apply (pass_spec index_conflicts (fun s => filed (unconsumed_consumes_by_channel s) ch)).
  - intros. apply filed_adds.
  - apply not_filed_empty.
Qed.
Lemma ci_global i :
  i ∈ global_branches ci <->
  exists e, logs !! i = Some e /\ produces_touching_base_joins e <> ∅.
Proof.
  apply (pass_spec index_conflicts (fun s i => i ∈ global_branches s)).
  - intros s idx e k. cbn. case_decide; set_solver.
  - simpl. set_solver.
Qed.

(** The persistence of a key object is that of the produce of every log. *)
Lemma ci_key_persistent h q s i e p :
  produces_consumed_by_branches ci !! h = Some (q, s) ->
  logs !! i = Some e -> produces_consumed e !! h = Some p ->
  p_persistent q = p_persistent p.
Proof.
  intros Hq He Hp.
  assert (pkeys (fun q => exists e', e' ∈ logs /\ log_produce e' q)
            (produces_consumed_by_branches ci)) as Hk.
  { apply (pass_inv index_conflicts (fun s => pkeys _ (produces_consumed_by_branches s)));
      [|by intros ????].
    intros s' idx e' He' Hs. apply pkeys_adds; [done|].
    intros q' Hq'. exists e'. split; [done|]. right; by right. }
  destruct (Hk _ _ _ Hq) as [(e' & He' & Hl) Eh].
  assert (e ∈ logs) as Hin by by eapply list_elem_of_lookup_2.
  apply (co_produce _ Hco e' e); eauto using consumed_log_produce.
  by rewrite Eh, (wf_consumed e (co_wf _ Hco e Hin) h p Hp).
Qed.

(** Two different branches with related logs. *)
Definition related_logs (rel : EventLogIndex -> EventLogIndex -> Prop) (i j : nat) : Prop :=
  i <> j /\ exists a b, logs !! i = Some a /\ logs !! j = Some b /\ rel a b.

Lemma both_mergeable_produces h i j :
  both_mergeable (snd <$> produces_mergeable_by_branches ci !! h) i j = false <->
  ~ (pfiled (produces_mergeable_by_branches ci) h i /\
     pfiled (produces_mergeable_by_branches ci) h j).
Proof.
  unfold pfiled. destruct (produces_mergeable_by_branches ci !! h) as [[q s]|]; simpl.
  - rewrite andb_false_iff, !bool_decide_eq_false. split.
    + intros Hn [(? & ? & [= <- <-] & ?) (? & ? & [= <- <-] & ?)]. tauto.
    + intros Hn. destruct (decide (i ∈ s)); [|by left]. right. intros ?. apply Hn. eauto 10.
  - split; [|done]. intros _ [(? & ? & [=] & _) _].
Qed.
Lemma both_mergeable_consumes c i j :
  both_mergeable (consumes_mergeable_by_branches ci !! c) i j = false <->
  ~ (filed (consumes_mergeable_by_branches ci) c i /\
     filed (consumes_mergeable_by_branches ci) c j).
Proof.
  unfold filed. destruct (consumes_mergeable_by_branches ci !! c) as [s|]; simpl.
  - rewrite andb_false_iff, !bool_decide_eq_false. split.
    + intros Hn [(? & [= <-] & ?) (? & [= <-] & ?)]. tauto.
    + intros Hn. destruct (decide (i ∈ s)); [|by left]. right. intros ?. apply Hn. eauto 10.
  - split; [|done]. intros _ [(? & [=] & _) _].
Qed.

Lemma linked_produce_races i j :
  linked (map_to_list (produces_consumed_by_branches ci) ≫= fun '(h, (produce, branches_set)) =>
     race_pairs (p_persistent produce) (snd <$> produces_mergeable_by_branches ci !! h)
       branches_set) i j <->
  related_logs (fun a b => exists h, produce_race a b h) i j.
Proof.
  rewrite linked_bind. split.
  - intros ([h [q s]] & Hq%elem_of_map_to_list & (Hp & Hi & Hj & Hne & Hm)%linked_race).
    assert (pfiled (produces_consumed_by_branches ci) h i) as (a & Ha & [p Hpa])%ci_consumed
      by (exists q, s; done).
    assert (pfiled (produces_consumed_by_branches ci) h j) as (b & Hb & Hpb)%ci_consumed
      by (exists q, s; done).
    split; [done|]. exists a, b. split_and!; [done..|]. exists h. split_and!; [|done|].
    + exists p. split; [done|]. by rewrite <- (ci_key_persistent h q s i a p).
    + rewrite both_mergeable_produces, !ci_mergeable in Hm. naive_solver.
  - intros (Hne & a & b & Ha & Hb & h & (p & Hp & Hl) & Hpb & Hm).
    assert (pfiled (produces_consumed_by_branches ci) h i) as (q & s & Hq & Hi)
      by (apply ci_consumed; eauto).
    assert (pfiled (produces_consumed_by_branches ci) h j) as (q' & s' & Hq' & Hj)
      by (apply ci_consumed; eauto).
    rewrite Hq in Hq'. injection Hq' as <- <-. exists (h, (q, s)). split; [by apply elem_of_map_to_list|].
    apply linked_race. split_and!; [|done..|].
    + by rewrite (ci_key_persistent h q s i a p).
    + rewrite both_mergeable_produces, !ci_mergeable. naive_solver.
Qed.

Lemma linked_consume_races i j :
  linked (map_to_list (consumes_produced_by_branches ci) ≫= fun '(consume, branches_set) =>
     race_pairs (c_persistent consume) (consumes_mergeable_by_branches ci !! consume)
       branches_set) i j <->
  related_logs (fun a b => exists c, consume_race a b c) i j.
Proof.
  rewrite linked_bind. split.
  - intros ([c s] & Hc%elem_of_map_to_list & (Hp & Hi & Hj & Hne & Hm)%linked_race).
    assert (filed (consumes_produced_by_branches ci) c i) as (a & Ha & Hpa)%ci_produced
      by (exists s; done).
    assert (filed (consumes_produced_by_branches ci) c j) as (b & Hb & Hpb)%ci_produced
      by (exists s; done).
    split; [done|]. exists a, b. split_and!; [done..|]. exists c. split_and!; [done..| |done].
    rewrite both_mergeable_consumes, !ci_cmergeable in Hm. naive_solver.
  - intros (Hne & a & b & Ha & Hb & c & Hca & Hcb & Hm & Hl).
    assert (filed (consumes_produced_by_branches ci) c i) as (s & Hs & Hi)
      by (apply ci_produced; eauto).
    assert (filed (consumes_produced_by_branches ci) c j) as (s' & Hs' & Hj)
      by (apply ci_produced; eauto).
    rewrite Hs in Hs'. injection Hs' as <-. exists (c, s). split; [by apply elem_of_map_to_list|].
    apply linked_race. split_and!; [done..|].
    rewrite both_mergeable_consumes, !ci_cmergeable. naive_solver.
Qed.

Lemma linked_comms i j :
  linked (map_to_list (unconsumed_produces_by_channel ci) ≫= fun '(channel, prod_branches) =>
     match unconsumed_consumes_by_channel ci !! channel with
     | Some cons_branches => cross_pairs prod_branches cons_branches
     | None => []
     end) i j <->
  related_logs (fun a b => exists ch, could_match a b ch \/ could_match b a ch) i j.
Proof.
  rewrite linked_bind. split.
  - intros ([ch s] & Hs%elem_of_map_to_list & Hl).
    destruct (unconsumed_consumes_by_channel ci !! ch) as [t|] eqn:Ht;
      [|by apply linked_nil in Hl].
    assert (forall k, k ∈ s -> exists e, logs !! k = Some e /\
      ch ∈ channel_hash <$> surviving_produces e) as Hps.
    { intros k Hk. apply ci_surviving_produces. exists s. done. }
    assert (forall k, k ∈ t -> exists e, logs !! k = Some e /\
      ch ∈ surviving_consumes e ≫= channel_hashes) as Hcs.
    { intros k Hk. apply ci_surviving_consumes. exists t. done. }
    apply linked_cross in Hl as [Hne [[Hi Hj]|[Hj Hi]]]; (split; [done|]).
    + destruct (Hps _ Hi) as (a & ? & ?), (Hcs _ Hj) as (b & ? & ?).
      exists a, b. split_and!; [done..|]. exists ch. by left.
    + destruct (Hps _ Hj) as (b & ? & ?), (Hcs _ Hi) as (a & ? & ?).
      exists a, b. split_and!; [done..|]. exists ch. by right.
  - intros (Hne & a & b & Ha & Hb & ch & [[Hp Hc]|[Hp Hc]]).
    + assert (filed (unconsumed_produces_by_channel ci) ch i) as (s & Hs & Hi)
        by (apply ci_surviving_produces; eauto).
      assert (filed (unconsumed_consumes_by_channel ci) ch j) as (t & Ht & Hj)
        by (apply ci_surviving_consumes; eauto).
      exists (ch, s). split; [by apply elem_of_map_to_list|]. rewrite Ht.
      apply linked_cross. auto.
    + assert (filed (unconsumed_produces_by_channel ci) ch j) as (s & Hs & Hj)
        by (apply ci_surviving_produces; eauto).
      assert (filed (unconsumed_consumes_by_channel ci) ch i) as (t & Ht & Hi)
        by (apply ci_surviving_consumes; eauto).
      exists (ch, s). split; [by apply elem_of_map_to_list|]. rewrite Ht.
      apply linked_cross. auto.
Qed.

Lemma linked_global i j :
  linked (elements (global_branches ci) ≫= fun g =>
     ordered <$> ((fun o => (g, o)) <$> filter (.≠ g) (seq 0 (length logs)))) i j <->
  related_logs (fun a b => produces_touching_base_joins a <> ∅ \/
                           produces_touching_base_joins b <> ∅) i j.
Proof.
  rewrite linked_bind. setoid_rewrite linked_ordered. unfold linked.
  setoid_rewrite list_elem_of_fmap. setoid_rewrite list_elem_of_filter.
  setoid_rewrite elem_of_elements. setoid_rewrite ci_global.
  setoid_rewrite elem_of_seq. split.
  - intros (g & (a & Ha & Ht) & [(o & [= -> ->] & Hne & _ & Hlt)|(o & [= -> ->] & Hne & _ & Hlt)]);
      destruct (lookup_lt_is_Some_2 logs o) as [b Hb]; [lia| |lia|]; (split; [done|]);
      eauto 10.
  - intros (Hne & a & b & Ha & Hb & [Ht|Ht]).
    + exists i. split; [by exists a|]. left. exists j. split_and!; [done..|lia|].
      by eapply lookup_lt_Some.
    + exists j. split; [by exists b|]. right. exists i. split_and!; [done..|lia|].
      by eapply lookup_lt_Some.
Qed.

Lemma linked_conflict_pairs i j :
  linked (conflict_pairs ci (length logs)) i j <->
  related_logs (fun a b => are_conflicting a b = true) i j.
Proof.
  unfold conflict_pairs. rewrite !linked_app.
  rewrite linked_produce_races, linked_consume_races, linked_comms, linked_global.
  assert (related_logs (fun a b => are_conflicting a b = true) i j <->
          related_logs conflict i j) as ->.
  { unfold related_logs. split; intros (Hne & a & b & Ha & Hb & Hr); (split; [done|]);
      exists a, b; (split_and!; [done..|]);
      by apply (are_conflicting_spec logs Hco); eauto using list_elem_of_lookup_2. }
  unfold related_logs, conflict. naive_solver.
Qed.

Lemma di_source h i :
  pfiled (produce_source_branches di) h i <->
  exists e, logs !! i = Some e /\ exists p, p ∈ source_produces e /\ p_hash p = h.
Proof.
  apply (pass_spec index_depends (fun s => pfiled (produce_source_branches s) h)
    (fun e => exists p, p ∈ source_produces e /\ p_hash p = h)).
  - intros. apply pfiled_adds.
  - apply not_pfiled_empty.
Qed.
Lemma di_target h i :
  pfiled (produce_target_branches di) h i <->
  exists e, logs !! i = Some e /\ is_Some (produces_consumed e !! h).
Proof.
  rewrite <- filed_log by apply wf_consumed.
  apply (pass_spec index_depends (fun s => pfiled (produce_target_branches s) h)
    (fun e => exists p, p ∈ plist (produces_consumed e) /\ p_hash p = h)).
  - intros. apply pfiled_adds.
  - apply not_pfiled_empty.
Qed.
Lemma di_csource c i :
  filed (consume_source_branches di) c i <->
  exists e, logs !! i = Some e /\ c ∈ surviving_consumes e.
Proof.
  apply (pass_spec index_depends (fun s => filed (consume_source_branches s) c)).
  - intros. apply filed_adds.
  - apply not_filed_empty.
Qed.
Lemma di_ctarget c i :
  filed (consume_target_branches di) c i <->
  exists e, logs !! i = Some e /\ c ∈ consumes_produced e.
Proof.
  apply (pass_spec index_depends (fun s => filed (consume_target_branches s) c)).
  - intros. cbn. rewrite filed_adds. by rewrite elem_of_elements.
  - apply not_filed_empty.
Qed.

(** Pairs of a source index and a target index: a key is filed for both branches. *)
Lemma linked_produce_depends i j :
  linked (map_to_list (produce_source_branches di) ≫= fun '(h, (_, sources)) =>
     match produce_target_branches di !! h with
     | Some (_, targets) => cross_pairs sources targets
     | None => []
     end) i j <->
  i <> j /\ exists h,
    (pfiled (produce_source_branches di) h i /\ pfiled (produce_target_branches di) h j) \/
    (pfiled (produce_source_branches di) h j /\ pfiled (produce_target_branches di) h i).
Proof.
  rewrite linked_bind. unfold pfiled. split.
  - intros ([h [q s]] & Hs%elem_of_map_to_list & Hl).
    destruct (produce_target_branches di !! h) as [[q' t]|] eqn:Ht;
      [|by apply linked_nil in Hl].
    apply linked_cross in Hl as [Hne Hl]. split; [done|]. exists h. rewrite Hs, Ht.
    naive_solver.
  - intros (Hne & h & [[(q & s & Hs & Hi) (q' & t & Ht & Hj)]|
                       [(q & s & Hs & Hi) (q' & t & Ht & Hj)]]);
      exists (h, (q, s)); (split; [by apply elem_of_map_to_list|]); rewrite Ht;
      apply linked_cross; auto.
Qed.
Lemma linked_consume_depends i j :
  linked (map_to_list (consume_source_branches di) ≫= fun '(consume, sources) =>
     match consume_target_branches di !! consume with
     | Some targets => cross_pairs sources targets
     | None => []
     end) i j <->
  i <> j /\ exists c,
    (filed (consume_source_branches di) c i /\ filed (consume_target_branches di) c j) \/
    (filed (consume_source_branches di) c j /\ filed (consume_target_branches di) c i).
Proof.
  rewrite linked_bind. unfold filed. split.
  - intros ([c s] & Hs%elem_of_map_to_list & Hl).
    destruct (consume_target_branches di !! c) as [t|] eqn:Ht; [|by apply linked_nil in Hl].
    apply linked_cross in Hl as [Hne Hl]. split; [done|]. exists c. rewrite Hs, Ht.
    naive_solver.
  - intros (Hne & c & [[(s & Hs & Hi) (t & Ht & Hj)]|[(s & Hs & Hi) (t & Ht & Hj)]]);
      exists (c, s); (split; [by apply elem_of_map_to_list|]); rewrite Ht;
      apply linked_cross; auto.
Qed.

Lemma linked_depends_pairs i j :
  linked (depends_pairs di) i j <->
  related_logs (fun a b => depends a b || depends b a = true) i j.
Proof.
  unfold depends_pairs. rewrite linked_app, linked_produce_depends, linked_consume_depends.
  setoid_rewrite di_source. setoid_rewrite di_target. setoid_rewrite di_csource.
  setoid_rewrite di_ctarget.
  assert (related_logs (fun a b => depends a b || depends b a = true) i j <->
          related_logs (fun a b => dependency a b \/ dependency b a) i j) as ->.
  { unfold related_logs. setoid_rewrite orb_true_iff.
    split; intros (Hne & a & b & Ha & Hb & Hr); (split; [done|]);
      exists a, b; (split_and!; [done..|]);
      destruct Hr as [Hr|Hr]; [left|right|left|right];
      by apply (depends_spec logs Hco); eauto using list_elem_of_lookup_2. }
  unfold related_logs, dependency. split.
  - naive_solver.
  - intros (Hne & a & b & Ha & Hb & [[(h & Hs & Ht)|(c & Hs & Ht)]|[(h & Hs & Ht)|(c & Hs & Ht)]]).
    + left. split; [done|]. exists h. right. split; eauto.
    + right. split; [done|]. exists c. right. split; eauto.
    + left. split; [done|]. exists h. left. split; eauto.
    + right. split; [done|]. exists c. left. split; eauto.
Qed.
End pairs.

(** ** Relation maps *)

Section relation_maps.
Context {R : Type} `{Countable R}.
Implicit Types m : gmap R (gset R).

Definition related m (b b' : R) : Prop := exists s, m !! b = Some s /\ b' ∈ s.

Lemma dom_relate m x y : dom (relate m x y) = dom m.
Proof. unfold relate. by rewrite !dom_alter_L. Qed.
Lemma related_alter m x y b b' :
  related (alter (fun s => {[y]} ∪ s) x m) b b' <->
  related m b b' \/ (b ∈ dom m /\ b = x /\ b' = y).
Proof.
  unfold related. rewrite elem_of_dom. destruct (decide (b = x)) as [->|Hne].
  - rewrite lookup_alter_eq. destruct (m !! x) as [s|]; simpl; split.
    + intros (? & [= <-] & [->%elem_of_singleton|?]%elem_of_union); eauto 10.
    + intros [(? & [= <-] & ?)|(_ & _ & ->)]; eexists; (split; [done|]); set_solver.
    + by intros (? & [=] & _).
    + intros [(? & [=] & _)|([? [=]] & _)].
  - rewrite lookup_alter_ne by done. naive_solver.
Qed.
Lemma related_relate m x y b b' :
  related (relate m x y) b b' <->
  related m b b' \/ (b ∈ dom m /\ ((b = x /\ b' = y) \/ (b = y /\ b' = x))).
Proof. unfold relate. rewrite !related_alter, dom_alter_L. tauto. Qed.

Lemma related_map_eq m m' :
  dom m = dom m' -> (forall b b', related m b b' <-> related m' b b') -> m = m'.
Proof.
  intros Hd Hr. apply map_eq. intros b.
  destruct (m !! b) as [s|] eqn:Es, (m' !! b) as [s'|] eqn:Es'.
  - f_equal. apply set_eq. intros b'. specialize (Hr b b'). unfold related in Hr.
    rewrite Es, Es' in Hr. naive_solver.
  - apply not_elem_of_dom in Es'. apply elem_of_dom_2 in Es. set_solver.
  - apply not_elem_of_dom in Es. apply elem_of_dom_2 in Es'. set_solver.
  - done.
Qed.

Lemma init_map_spec (branches : list R) b :
  init_map branches !! b = if decide (b ∈ branches) then Some ∅ else None.
Proof.
  unfold init_map.
  assert (forall m : gmap R (gset R), foldl (fun m b => <[b := ∅]> m) m branches !! b =
    if decide (b ∈ branches) then Some ∅ else m !! b) as Hm.
  { induction branches as [|c branches IH]; intros m; simpl; [done|].
    rewrite IH. case_decide as Hb.
    - by rewrite decide_True by (by right).
    - destruct (decide (b = c)) as [->|Hne].
      + rewrite lookup_insert_eq. by rewrite decide_True by left.
      + rewrite lookup_insert_ne by done. by rewrite decide_False by set_solver. }
  rewrite Hm. by rewrite lookup_empty.
Qed.
Lemma dom_init_map (branches : list R) : dom (init_map branches) = list_to_set branches.
Proof.
  apply set_eq. intros b. rewrite elem_of_dom, init_map_spec, elem_of_list_to_set.
  unfold is_Some. case_decide; naive_solver.
Qed.
Lemma related_init_map (branches : list R) b b' : ~ related (init_map branches) b b'.
Proof. intros (s & Hs & Hb). rewrite init_map_spec in Hs. case_decide; set_solver. Qed.

(** Marking pairs of positions in range. *)
Lemma mark_all {E} (branches : list R) pairs m :
  (forall b, b ∈ branches -> b ∈ dom m) ->
  (forall i j, (i, j) ∈ pairs -> i < length branches /\ j < length branches) ->
  exists m', res_foldM (E:=E) (mark branches) m pairs = Ok m' /\ dom m' = dom m /\
    forall b b', related m' b b' <-> related m b b' \/
      exists i j, linked pairs i j /\ branches !! i = Some b /\ branches !! j = Some b'.
Proof.
  revert m. induction pairs as [|[x y] pairs IH]; intros m Hdom Hlt.
  { exists m. split_and!; [done..|]. unfold linked. set_solver. }
  destruct (Hlt x y) as [Hx Hy]; [left|].
  destruct (lookup_lt_is_Some_2 _ _ Hx) as [bx Hbx].
  destruct (lookup_lt_is_Some_2 _ _ Hy) as [bY Hby].
  destruct (IH (relate m bx bY)) as (m' & Hm' & Hd & Hr).
  { intros b Hb. rewrite dom_relate. auto. }
  { intros i j Hij. apply Hlt. by right. }
  exists m'. split_and!.
  - simpl. unfold mark at 1. simpl. rewrite Hbx, Hby. simpl. exact Hm'.
  - by rewrite Hd, dom_relate.
  - intros b b'. rewrite Hr, related_relate. unfold linked. setoid_rewrite elem_of_cons.
    assert (b = bx \/ b = bY -> b ∈ dom m) as Hin.
    { intros [->| ->]; apply Hdom; by eapply list_elem_of_lookup_2. }
    split.
    + intros [[?|[_ [[-> ->]|[-> ->]]]]|(i & j & Hl & Hi & Hj)]; [by left|right..].
      * exists x, y. auto.
      * exists y, x. auto.
      * exists i, j. tauto.
    + intros [?|(i & j & [[[= -> ->]|?]|[[= -> ->]|?]] & Hi & Hj)]; [by left; left|..].
      * left; right. simplify_eq. auto.
      * right. exists i, j. auto.
      * left; right. simplify_eq. auto.
      * right. exists i, j. auto.
Qed.

(** [compute_relation_map] relates the distinct items between which the relation holds in
    some direction, provided the order compares any two of them. *)
Lemma compute_relation_map_spec (items : gset R) gt relation :
  (forall a b, a <> b -> gt a b = false \/ gt b a = false) ->
  dom (compute_relation_map items gt relation) = items /\
  forall b b', related (compute_relation_map items gt relation) b b' <->
    b ∈ items /\ b' ∈ items /\ b <> b' /\ (relation b b' || relation b' b = true).
Proof.
  intros Hgt. unfold compute_relation_map.
  set (step := fun (init : gmap R (gset R)) '(item1, item2) => _).
  assert (forall l m, dom m = items -> (forall x y, (x, y) ∈ l -> x ∈ items /\ y ∈ items) ->
    dom (foldl step m l) = items /\
    forall b b', related (foldl step m l) b b' <-> related m b b' \/
      (relation b b' || relation b' b = true /\ b <> b' /\
       (((b, b') ∈ l /\ gt b b' = false) \/ ((b', b) ∈ l /\ gt b' b = false)))) as Hl.
  { induction l as [|[x y] l IH]; intros m Hm Hin; cbn [foldl]; [set_solver|].
    assert (dom (step m (x, y)) = items /\
      forall b b', related (step m (x, y)) b b' <-> related m b b' \/
       (relation x y || relation y x = true /\ x <> y /\ gt x y = false /\
        ((b = x /\ b' = y) \/ (b = y /\ b' = x)))) as [Hd Hs].
    { unfold step. destruct (Hin x y) as [Hx Hy]; [left|].
      case_bool_decide as Exy; simpl; [naive_solver|].
      destruct (gt x y) eqn:Eg; [naive_solver|].
      destruct (relation x y || relation y x) eqn:Er; [|naive_solver].
      rewrite dom_relate. split; [done|]. intros b b'. rewrite related_relate, Hm.
      naive_solver. }
    destruct (IH _ Hd) as [Hd' Hr]; [intros ???; apply Hin; by right|].
    split; [done|]. intros b b'. rewrite Hr, Hs. setoid_rewrite elem_of_cons.
    clear -Hgt.
    split.
    - intros [[?|(Er & Hne & Eg & [[-> ->]|[-> ->]])]|?]; [by left|right..].
      + auto 10.
      + rewrite orb_comm. auto 10.
      + tauto.
    - intros [?|(Er & Hne & [[[[= -> ->]|?] Eg]|[[[= -> ->]|?] Eg]])]; [by left; left|..].
      + left; right. auto 10.
      + right. auto 10.
      + left; right. rewrite orb_comm. auto 10.
      + right. auto 10. }
  destruct (Hl (elements items ≫= fun a => (fun b => (a, b)) <$> elements items)
              (init_map (elements items))) as [Hd Hr].
  { rewrite dom_init_map. apply list_to_set_elements_L. }
  { intros x y (x' & (y' & [= -> ->] & Hy)%list_elem_of_fmap & Hx)%list_elem_of_bind.
    by rewrite elem_of_elements in *. }
  split; [done|]. intros b b'. rewrite Hr.
  assert (forall x y, (x, y) ∈ elements items ≫= (fun a => (fun b => (a, b)) <$> elements items)
    <-> x ∈ items /\ y ∈ items) as Hxy.
  { intros x y. rewrite list_elem_of_bind. setoid_rewrite list_elem_of_fmap.
    setoid_rewrite elem_of_elements. naive_solver. }
  rewrite !Hxy. split.
  - intros [[]%related_init_map|?]. naive_solver.
  - intros (Hb & Hb' & Hne & Er). right. destruct (Hgt b b' Hne); auto 10.
Qed.
End relation_maps.

(** ** The maps by index and by comparison *)

Section maps.
Context {R : Type} `{Countable R}.
Context (branches : list R) (ev : R -> EventLogIndex) (gt : R -> R -> bool).
Context (Hnd : NoDup branches).
Context (Hgt : forall a b, a <> b -> gt a b = false \/ gt b a = false).
Let logs := ev <$> branches.

(** Pairs of positions that link the branches with related logs give the relation map. *)
Lemma pairs_relation_map {E} (rel : EventLogIndex -> EventLogIndex -> bool) pairs :
  (forall i j, linked pairs i j <-> related_logs logs (fun a b => rel a b = true) i j) ->
  res_foldM (E:=E) (mark branches) (init_map branches) pairs =
  Ok (compute_relation_map (list_to_set branches) gt (fun a b => rel (ev a) (ev b))).
Proof.
  intros Hp.
  assert (forall i j, linked pairs i j -> i < length branches) as Hlt.
  { intros i j (_ & a & b & Ha & _)%Hp. apply lookup_lt_Some in Ha. subst logs.
    by rewrite length_fmap in Ha. }
  destruct (mark_all (E:=E) branches pairs (init_map branches)) as (m & -> & Hd & Hr).
  { intros b Hb. rewrite dom_init_map. by apply elem_of_list_to_set. }
  { intros i j Hij. split; [apply (Hlt i j); by left|apply (Hlt j i); by right]. }
  destruct (compute_relation_map_spec (list_to_set branches) gt
              (fun a b => rel (ev a) (ev b)) Hgt) as [Hd' Hr'].
  f_equal. apply related_map_eq; [by rewrite Hd, Hd', dom_init_map|].
  intros b b'. rewrite Hr, Hr', !elem_of_list_to_set. split.
  - intros [[]%related_init_map|(i & j & Hl & Hi & Hj)].
    split_and!; [by eapply list_elem_of_lookup_2..| |].
    + intros ->. apply Hp in Hl as [Hne _]. apply Hne. by eapply NoDup_lookup.
    + apply Hp in Hl as (_ & a & c & Ha & Hc & Hrel). subst logs.
      rewrite list_lookup_fmap in Ha, Hc. rewrite Hi in Ha. rewrite Hj in Hc.
      simplify_eq/=. by rewrite Hrel.
  - intros ([i Hi]%list_elem_of_lookup & [j Hj]%list_elem_of_lookup & Hne & Hrel).
    right. exists i, j. split; [|done].
    assert (i <> j) by congruence.
    assert (forall k b, branches !! k = Some b -> logs !! k = Some (ev b)) as Hlk.
    { intros k c Hk. subst logs. by rewrite list_lookup_fmap, Hk. }
    apply orb_true_iff in Hrel as [Hrel|Hrel].
    + apply Hp. split; [done|]. eauto 10.
    + assert (linked pairs j i) as [?|?]; [|by right|by left].
      apply Hp. split; [done|]. eauto 10.
Qed.

Lemma short_relation_map rel :
  length branches < 2 ->
  init_map branches =
  compute_relation_map (list_to_set branches) gt (fun a b => rel (ev a) (ev b)).
Proof.
  intros Hlen. assert (Ok (E:=unit) (init_map branches) =
    Ok (compute_relation_map (list_to_set branches) gt (fun a b => rel (ev a) (ev b)))) as E;
    [|by injection E].
  apply (pairs_relation_map rel []). intros i j. split; [intros []%linked_nil|].
  intros (Hne & a & b & Ha%lookup_lt_Some & Hb%lookup_lt_Some & _).
  subst logs. rewrite length_fmap in *. lia.
Qed.

Lemma indexed_conflicts {E} :
  coherent (ev <$> branches) ->
  compute_conflict_map_event_indexed (E:=E) branches (ev <$> branches) =
  Ok (compute_relation_map (list_to_set branches) gt
        (fun a b => are_conflicting (ev a) (ev b))).
Proof.
  intros Hco. unfold compute_conflict_map_event_indexed.
  rewrite bool_decide_eq_true_2 by (by rewrite length_fmap). simpl.
  case_decide; [by rewrite <- (short_relation_map are_conflicting)|].
  apply (pairs_relation_map are_conflicting). intros i j. subst logs.
  rewrite <- (linked_conflict_pairs (ev <$> branches) Hco). by rewrite length_fmap.
Qed.

(** C19: the conflict map that [compute_conflict_map_event_indexed] builds in one pass over
    the events is the map that [compute_relation_map] builds by calling
    [are_conflicting] on every pair of branches. *)
Theorem conflict_map_equivalence {E} :
  coherent (ev <$> branches) ->
  compute_conflict_map_event_indexed (E:=E) branches (ev <$> branches) =
  Ok (compute_relation_map (list_to_set branches) gt
        (fun a b => are_conflicting (ev a) (ev b))).
Proof. apply indexed_conflicts. Qed.

Lemma indexed_depends {E} :
  coherent (ev <$> branches) ->
  compute_depends_map_event_indexed (E:=E) branches (ev <$> branches) =
  Ok (compute_relation_map (list_to_set branches) gt (fun a b => depends (ev a) (ev b))).
Proof.
  intros Hco. unfold compute_depends_map_event_indexed.
  rewrite bool_decide_eq_true_2 by (by rewrite length_fmap). simpl.
  assert (forall items : gset R,
    compute_relation_map items gt (fun a b => depends (ev a) (ev b)) =
    compute_relation_map items gt
      (fun a b => depends (ev a) (ev b) || depends (ev b) (ev a))) as ->.
  { intros items. apply related_map_eq.
    - by rewrite !(proj1 (compute_relation_map_spec items gt _ Hgt)).
    - intros b b'. rewrite !(proj2 (compute_relation_map_spec items gt _ Hgt)).
      destruct (depends (ev b) (ev b')), (depends (ev b') (ev b)); simpl; tauto. }
  case_decide; [by rewrite <- (short_relation_map (fun a b => depends a b || depends b a))|].
  apply (pairs_relation_map (fun a b => depends a b || depends b a)). intros i j.
  apply (linked_depends_pairs (ev <$> branches) Hco).
Qed.

(** The dependency map that [compute_depends_map_event_indexed] builds in one pass over
    the events is the map that [compute_relation_map] builds from [depends] on every pair
    of branches. *)
Theorem depends_map_equivalence {E} :
  coherent (ev <$> branches) ->
  compute_depends_map_event_indexed (E:=E) branches (ev <$> branches) =
  Ok (compute_relation_map (list_to_set branches) gt (fun a b => depends (ev a) (ev b))).
Proof. apply indexed_depends. Qed.
End maps.
