(* ===== verification/MergingCombine.v ===== *)
(** * Combining event logs

    [EventLogIndex::combine] ([rspace++/src/rspace/merger/event_log_index.rs]) folds the
    logs of the deploys of a chain, in the arbitrary order of a hash set.  The file shows
    when it fails and that the result does not depend on the order. *)
From S2P Require Import Prelude Events HotStoreSig HistoryRepo MergingLogic MergingMaps.

(** ** Number channels *)

Definition nc_merge (v w : Z * MergeType) : Z * MergeType :=
  (combine_mergeable_value v.1 w.1 v.2, v.2).
(** The channels the maps share merge in the same way. *)
Definition nc_agree (x y : NumberChannelsDiff) : Prop :=
  forall k v w, x !! k = Some v -> y !! k = Some w -> v.2 = w.2.
Definition nc_union (x y : NumberChannelsDiff) : NumberChannelsDiff :=
  union_with (fun v w => Some (nc_merge v w)) x y.

Lemma nc_union_lookup x y k :
  nc_union x y !! k =
  match x !! k, y !! k with
  | Some v, Some w => Some (nc_merge v w)
  | Some v, None => Some v
  | None, o => o
  end.
Proof. unfold nc_union. rewrite lookup_union_with. by destruct (x !! k), (y !! k). Qed.

Lemma wrap_i64_add_l a b : wrap_i64 (wrap_i64 a + b) = wrap_i64 (a + b).
Proof.
  unfold wrap_i64. f_equal.
  replace (((a + 2 ^ 63) `mod` 2 ^ 64 - 2 ^ 63 + b + 2 ^ 63)%Z)
    with (((a + 2 ^ 63) `mod` 2 ^ 64 + b)%Z) by lia.
  rewrite Zplus_mod_idemp_l. f_equal. lia.
Qed.
Lemma as_u64_lor a b : as_u64 (Z.lor (as_u64 a) (as_u64 b)) = Z.lor (as_u64 a) (as_u64 b).
Proof.
  unfold as_u64. rewrite <- !Z.land_ones by lia. rewrite <- Z.land_lor_distr_l.
  rewrite <- Z.land_assoc. by rewrite Z.land_diag.
Qed.

Lemma combine_mergeable_value_comm a b t :
  combine_mergeable_value a b t = combine_mergeable_value b a t.
Proof. destruct t; simpl; f_equal; [lia|apply Z.lor_comm]. Qed.
Lemma combine_mergeable_value_assoc a b c t :
  combine_mergeable_value (combine_mergeable_value a b t) c t =
  combine_mergeable_value a (combine_mergeable_value b c t) t.
Proof.
  destruct t; simpl.
  - rewrite wrap_i64_add_l, (Z.add_comm a (wrap_i64 _)), wrap_i64_add_l. f_equal. lia.
  - rewrite !as_u64_wrap, !as_u64_lor. by rewrite Z.lor_assoc.
Qed.

Section entries.
Context {V : Type}.
Implicit Types m : gmap Blake2b256Hash V.

Lemma btree_entries_perm m : btree_entries m ≡ₚ map_to_list m.
Proof. apply sort_by_perm. Qed.
Lemma btree_entries_NoDup m : NoDup (btree_entries m).*1.
Proof. rewrite btree_entries_perm. apply NoDup_fst_map_to_list. Qed.
Lemma elem_of_btree_entries m k v : (k, v) ∈ btree_entries m <-> m !! k = Some v.
Proof. rewrite btree_entries_perm. apply elem_of_map_to_list. Qed.
End entries.

Lemma add_number_channel_Ok m k w m' :
  add_number_channel m (k, w) = Ok m' <->
  (forall v, m !! k = Some v -> v.2 = w.2) /\ m' = nc_union m {[k := w]}.
Proof.
  assert (forall o, nc_union m {[k := w]} = <[k := o]> m <->
    o = match m !! k with Some v => nc_merge v w | None => w end) as Hu.
  { intros o. split.
    - intros E. assert (nc_union m {[k := w]} !! k = Some o) as E'
        by (by rewrite E, lookup_insert_eq).
      rewrite nc_union_lookup, lookup_singleton_eq in E'. by destruct (m !! k); simplify_eq.
    - intros ->. apply map_eq. intros k'. rewrite nc_union_lookup.
      destruct (decide (k' = k)) as [->|Hne].
      + rewrite lookup_singleton_eq, lookup_insert_eq. by destruct (m !! k).
      + rewrite lookup_singleton_ne, lookup_insert_ne by done. by destruct (m !! k'). }
  unfold add_number_channel. destruct w as [d t]. destruct (m !! k) as [[v mt]|] eqn:E.
  - case_decide as Ht.
    + subst. rewrite (proj2 (Hu (combine_mergeable_value v d t, t)) eq_refl).
      split; [intros [= <-]; naive_solver|naive_solver].
    + split; [done|]. intros [Hv _]. by specialize (Hv _ eq_refl).
  - rewrite (proj2 (Hu (d, t)) eq_refl). split; [intros [= <-]; naive_solver|naive_solver].
Qed.

(** Adding the entries of a map one by one. *)
Lemma add_number_channels_Ok l m m' :
  NoDup l.*1 ->
  res_foldM add_number_channel m l = Ok m' <->
  nc_agree m (list_to_map l) /\ m' = nc_union m (list_to_map l).
Proof.
  revert m. induction l as [|[k w] l IH]; intros m Hnd; simpl.
  { assert (nc_union m ∅ = m) as ->.
    { apply map_eq. intros k. rewrite nc_union_lookup, lookup_empty. by destruct (m !! k). }
    split; [intros [= <-]; split; [by intros ????|done]|naive_solver]. }
  apply NoDup_cons in Hnd as [Hk Hnd]. rewrite res_bind_Ok.
  apply (not_elem_of_list_to_map_1 (M:=gmap Blake2b256Hash)) in Hk. simpl in Hk.
  assert (forall z, nc_union (nc_union m {[k := w]}) z =
    nc_union m (<[k := w]> z) \/ z !! k <> None) as Hz.
  { intros z. destruct (z !! k) eqn:Ez; [by right|left]. apply map_eq. intros k'.
    rewrite !nc_union_lookup. destruct (decide (k' = k)) as [->|Hne].
    - rewrite lookup_singleton_eq, lookup_insert_eq, Ez. by destruct (m !! k).
    - rewrite lookup_singleton_ne, lookup_insert_ne by done.
      by destruct (m !! k'), (z !! k'). }
  destruct (Hz (list_to_map l)) as [Hz'|?]; [|done]. setoid_rewrite add_number_channel_Ok.
  assert (nc_agree (nc_union m {[k := w]}) (list_to_map l) <-> nc_agree m (list_to_map l)) as Ha.
  { unfold nc_agree. split; intros Ha k' v u Hv Hu;
      (assert (k <> k') by (intros <-; rewrite Hk in Hu; done)).
    - apply (Ha k' v u); [|done]. rewrite nc_union_lookup, Hv.
      by rewrite lookup_singleton_ne by done.
    - apply (Ha k' v u); [|done]. rewrite nc_union_lookup in Hv.
      rewrite lookup_singleton_ne in Hv by done. by destruct (m !! k'). }
  split.
  - intros (m1 & [H1 ->] & [Hag ->]%IH); [|done]. split; [|done].
    intros k' v u Hv. destruct (decide (k' = k)) as [->|Hne].
    + rewrite lookup_insert_eq. intros [= <-]. auto.
    + rewrite lookup_insert_ne by done. apply Ha in Hag. by apply Hag.
  - intros [Hag ->]. exists (nc_union m {[k := w]}). split; [split; [|done]|].
    + intros v Hv. apply (Hag k v w Hv). apply lookup_insert_eq.
    + apply IH; [done|]. split; [|done]. apply Ha. intros k' v u Hv Hu.
      apply (Hag k' v u Hv). rewrite lookup_insert_ne; [done|].
      intros <-. by rewrite Hk in Hu.
Qed.

Lemma list_to_map_btree_entries {V} (m : gmap Blake2b256Hash V) :
  list_to_map (btree_entries m) = m.
Proof.
  rewrite (list_to_map_proper (btree_entries m) (map_to_list m)).
  - apply list_to_map_to_list.
  - apply btree_entries_NoDup.
  - apply btree_entries_perm.
Qed.

Lemma combine_number_channels_Ok x y d :
  combine_number_channels x y = Ok d <-> nc_agree x y /\ d = nc_union x y.
Proof.
  unfold combine_number_channels.
  assert (forall (l k : list (Blake2b256Hash * (Z * MergeType))) m,
    res_foldM add_number_channel m (l ++ k) =
    res_bind (res_foldM add_number_channel m l) (fun m' => res_foldM add_number_channel m' k))
    as Happ.
  { induction l as [|p l IH]; intros k m; simpl; [done|].
    destruct (add_number_channel m p); simpl; auto. }
  assert (res_foldM add_number_channel ∅ (btree_entries x) = Ok x) as Hx.
  { apply add_number_channels_Ok; [apply btree_entries_NoDup|].
    rewrite list_to_map_btree_entries. split; [by intros ????|].
    apply map_eq. intros k. by rewrite nc_union_lookup, lookup_empty. }
  rewrite Happ, Hx. simpl. rewrite add_number_channels_Ok by apply btree_entries_NoDup.
  by rewrite list_to_map_btree_entries.
Qed.

Lemma combine_number_channels_no_panic x y : combine_number_channels x y <> Panic.
Proof.
  unfold combine_number_channels. generalize (∅ : NumberChannelsDiff).
  induction (btree_entries x ++ btree_entries y) as [|[k [d t]] l IH]; intros m; simpl; [done|].
  destruct (m !! k) as [[v mt]|]; [case_decide|]; simpl; auto.
Qed.

Lemma add_number_channels_Err l m e :
  NoDup l.*1 -> res_foldM add_number_channel m l = Err e ->
  exists k v w, m !! k = Some v /\ (k, w) ∈ l /\ v.2 <> w.2 /\
    e = MergeError (mismatch_message k v.2 w.2).
Proof.
  revert m. induction l as [|[k [d t]] l IH]; intros m Hnd; [done|].
  apply NoDup_cons in Hnd as [Hk Hnd]. cbn [res_foldM].
  destruct (add_number_channel m (k, (d, t))) as [m1|e'|] eqn:E; simpl; [..|done].
  - intros (k' & v & w & Hv & Hin & Hne & ->)%IH; [|done].
    apply add_number_channel_Ok in E as [_ ->].
    assert (k' <> k) as Hkk. { intros ->. apply Hk. by apply (list_elem_of_fmap_2 fst _ (k, w)). }
    rewrite nc_union_lookup, lookup_singleton_ne in Hv by done.
    exists k', v, w. split_and!; [by destruct (m !! k')|by right|done..].
  - intros [= ->]. simpl in E. destruct (m !! k) as [[v mt]|] eqn:Em; [|done].
    case_decide; [done|]. injection E as <-. exists k, (v, mt), (d, t). split_and!; try done. left.
Qed.

(** ** Well-formed logs *)

(** A produce that was copied by a peek was produced by the log. *)
Definition copied_created (e : EventLogIndex) : Prop :=
  dom (produces_copied_by_peek e) ⊆ dom (produces_linear e) ∪ dom (produces_persistent e).

Lemma dom_punion x y : dom (punion x y) = dom x ∪ dom y.
Proof. apply set_eq. intros h. rewrite elem_of_union, !elem_of_dom. apply punion_is_Some. Qed.
Lemma dom_pinsert p s : dom (pinsert p s) = {[p_hash p]} ∪ dom s.
Proof.
  unfold pinsert. destruct (s !! p_hash p) eqn:E; [|apply dom_insert_L].
  apply elem_of_dom_2 in E. set_solver.
Qed.
Lemma dom_combine_copied x y :
  dom (combine_produces_copied_by_peek x y) =
  (dom (produces_copied_by_peek x) ∪ dom (produces_copied_by_peek y)) ∖
  (((dom (produces_linear x) ∪ dom (produces_persistent x)) ∖ dom (produces_copied_by_peek x)) ∪
   ((dom (produces_linear y) ∪ dom (produces_persistent y)) ∖ dom (produces_copied_by_peek y))).
Proof.
  unfold combine_produces_copied_by_peek, produces_created.
  by rewrite !dom_difference_L, !dom_punion, !dom_difference_L, !dom_punion.
Qed.

Lemma index_event_copied f g e ev :
  copied_created e -> copied_created (index_event f g e ev).
Proof.
  unfold copied_created. intros He. destruct ev as [c|[p|c]]; simpl; [done| |done].
  destruct (f p), (p_persistent p); rewrite ?dom_pinsert; set_solver.
Qed.
Lemma index_new_copied f g log chs : copied_created (EventLogIndex_new f g log chs).
Proof.
  assert (copied_created (foldl (index_event f g) empty_index log)) as He; [|done].
  assert (copied_created empty_index) as H0 by (unfold copied_created; set_solver).
  revert H0. generalize empty_index.
  induction log as [|ev log IH]; [done|]. intros e He. by apply IH, index_event_copied.
Qed.
Lemma combine_copied x y z :
  copied_created x -> copied_created y -> combine x y = Ok z -> copied_created z.
Proof.
  intros Hx Hy (d & _ & [= <-])%res_bind_Ok. unfold copied_created in *. simpl.
  rewrite dom_combine_copied, !dom_punion. set_solver.
Qed.

(** [combine] fails exactly when the logs share a number channel that one merges by
    addition and the other by bitwise or, naming such a channel; otherwise every number
    channel gets the combined difference, and it never panics. *)
Theorem combine_fails_on_mismatch (x y : EventLogIndex) :
  match combine x y with
  | Ok z => nc_agree (number_channels_data x) (number_channels_data y) /\
      number_channels_data z = nc_union (number_channels_data x) (number_channels_data y)
  | Err e => exists k v w,
      number_channels_data x !! k = Some v /\ number_channels_data y !! k = Some w /\
      v.2 <> w.2 /\ e = MergeError (mismatch_message k v.2 w.2)
  | Panic => False
  end.
Proof.
  unfold combine.
  destruct (combine_number_channels _ _) as [d|e|] eqn:E; simpl.
  - by apply combine_number_channels_Ok.
  - unfold combine_number_channels in E.
    assert (forall l k m, res_foldM add_number_channel m (l ++ k) = Err e ->
      res_foldM add_number_channel m l = Err e \/ exists m',
        res_foldM add_number_channel m l = Ok m' /\ res_foldM add_number_channel m' k = Err e)
      as Happ.
    { induction l as [|p l IH]; intros k m; cbn [app res_foldM]; [eauto|].
      destruct (add_number_channel m p); simpl; eauto. }
    apply Happ in E as [E|(m' & Hm & E)].
    + apply add_number_channels_Err in E as (k & v & w & [=] & _).
      apply btree_entries_NoDup.
    + apply add_number_channels_Ok in Hm as [_ ->]; [|apply btree_entries_NoDup].
      apply add_number_channels_Err in E as (k & v & w & Hv & Hw & Hne & ->);
        [|apply btree_entries_NoDup].
      exists k, v, w. rewrite list_to_map_btree_entries, nc_union_lookup, lookup_empty in Hv.
      by rewrite elem_of_btree_entries in Hw.
  - by apply combine_number_channels_no_panic in E.
Qed.

(** ** Order independence *)

(** Logs with the same events: produces are compared by hash, as [Produce] does. *)
#[global] Instance index_equiv : Equiv EventLogIndex := fun x y =>
  dom (produces_linear x) = dom (produces_linear y) /\
  dom (produces_persistent x) = dom (produces_persistent y) /\
  dom (produces_consumed x) = dom (produces_consumed y) /\
  dom (produces_peeked x) = dom (produces_peeked y) /\
  dom (produces_copied_by_peek x) = dom (produces_copied_by_peek y) /\
  dom (produces_touching_base_joins x) = dom (produces_touching_base_joins y) /\
  dom (produces_mergeable x) = dom (produces_mergeable y) /\
  consumes_linear_and_peeks x = consumes_linear_and_peeks y /\
  consumes_persistent x = consumes_persistent y /\
  consumes_produced x = consumes_produced y /\
  consumes_mergeable x = consumes_mergeable y /\
  number_channels_data x = number_channels_data y.
#[global] Instance index_equivalence : Equivalence (≡@{EventLogIndex}).
Proof.
  split.
  - by intros x; repeat split.
  - intros x y Hxy. unfold equiv, index_equiv in *. naive_solver.
  - intros x y z Hxy Hyz. unfold equiv, index_equiv in *. destruct_and!. split_and!; congruence.
Qed.

(** Results that agree up to the message of an error. *)
Definition res_agree (r s : res HistoryError EventLogIndex) : Prop :=
  match r, s with
  | Ok x, Ok y => x ≡ y
  | Err _, Err _ => True
  | _, _ => False
  end.
#[global] Instance combine_proper : Proper ((≡) ==> (≡) ==> res_agree) combine.
Proof.
  intros x x' Hx y y' Hy. unfold combine.
  unfold equiv, index_equiv in Hx, Hy. destruct_and!.
  replace (number_channels_data x') with (number_channels_data x) by done.
  replace (number_channels_data y') with (number_channels_data y) by done.
  destruct (combine_number_channels _ _) eqn:E; simpl; [|done|].
  - unfold equiv, index_equiv. cbn. rewrite !dom_punion, !dom_combine_copied.
    split_and!; congruence.
  - by apply combine_number_channels_no_panic in E.
Qed.

Lemma combine_Ok_iff x y : is_Ok (combine x y) <->
  nc_agree (number_channels_data x) (number_channels_data y).
Proof.
  unfold combine, is_Ok. split.
  - intros (z & (d & [Hd _]%combine_number_channels_Ok & _)%res_bind_Ok). done.
  - intros Ha. rewrite (proj2 (combine_number_channels_Ok _ _ _) (conj Ha eq_refl)). by eexists.
Qed.
Lemma combine_data x y z : combine x y = Ok z ->
  number_channels_data z = nc_union (number_channels_data x) (number_channels_data y).
Proof. by intros (d & [_ ->]%combine_number_channels_Ok & [= <-])%res_bind_Ok. Qed.

Lemma nc_agree_union x y z :
  nc_agree x y -> nc_agree (nc_union x y) z <-> nc_agree x z /\ nc_agree y z.
Proof.
  intros Hxy. unfold nc_agree at 1. setoid_rewrite nc_union_lookup. split.
  - intros Ha. split; intros k v w Hv Hw.
    + specialize (Ha k). rewrite Hv, Hw in Ha. destruct (y !! k); by apply (Ha _ _ eq_refl eq_refl).
    + specialize (Ha k). rewrite Hv, Hw in Ha. destruct (x !! k) as [u|] eqn:Hu.
      * rewrite <- (Hxy k u v) by done. by apply (Ha _ _ eq_refl eq_refl).
      * by apply (Ha _ _ eq_refl eq_refl).
  - intros [Hx Hy] k v w Hv Hw. destruct (x !! k) as [u|] eqn:Hu, (y !! k) as [u'|] eqn:Hu';
      simplify_eq/=; eauto.
Qed.
Lemma nc_agree_sym x y : nc_agree x y -> nc_agree y x.
Proof. intros Ha k v w Hv Hw. symmetry. by eapply Ha. Qed.
Lemma nc_union_swap a x y :
  nc_agree a x -> nc_agree a y -> nc_agree x y ->
  nc_union (nc_union a x) y = nc_union (nc_union a y) x.
Proof.
  intros Hax Hay Hxy. apply map_eq. intros k. rewrite !nc_union_lookup.
  specialize (Hax k). specialize (Hay k). specialize (Hxy k).
  destruct (a !! k) as [[u s]|], (x !! k) as [[v t]|], (y !! k) as [[w r]|]; try done;
    unfold nc_merge; simpl; f_equal; f_equal.
  - rewrite !combine_mergeable_value_assoc.
    by rewrite (combine_mergeable_value_comm v w).
  - specialize (Hxy _ _ eq_refl eq_refl). simpl in Hxy. subst.
    apply combine_mergeable_value_comm.
  - by apply (Hxy _ _ eq_refl eq_refl).
Qed.

Lemma bool_decide_union (h : Blake2b256Hash) (X Y : gset Blake2b256Hash) :
  bool_decide (h ∈ X ∪ Y) = bool_decide (h ∈ X) || bool_decide (h ∈ Y).
Proof. by rewrite (bool_decide_ext _ _ (elem_of_union X Y h)), bool_decide_or. Qed.
Lemma bool_decide_difference (h : Blake2b256Hash) (X Y : gset Blake2b256Hash) :
  bool_decide (h ∈ X ∖ Y) = bool_decide (h ∈ X) && negb (bool_decide (h ∈ Y)).
Proof.
  rewrite (bool_decide_ext _ _ (elem_of_difference X Y h)), bool_decide_and.
  by rewrite bool_decide_not.
Qed.
Lemma union_interleave (l l' p p' : gset Blake2b256Hash) :
  (l ∪ l') ∪ (p ∪ p') = (l ∪ p) ∪ (l' ∪ p').
Proof. set_solver. Qed.
(** The produces copied by a peek, with [c] those of a log and [l] all its produces. *)
Lemma copied_swap (c l cx lx cy ly : gset Blake2b256Hash) :
  c ⊆ l -> cx ⊆ lx -> cy ⊆ ly ->
  let combined c l cx lx := (c ∪ cx) ∖ ((l ∖ c) ∪ (lx ∖ cx)) in
  combined (combined c l cx lx) (l ∪ lx) cy ly = combined (combined c l cy ly) (l ∪ ly) cx lx.
Proof.
  intros Hc Hx Hy combined. subst combined. apply set_eq. intros h. cbn beta.
  specialize (Hc h). specialize (Hx h). specialize (Hy h).
  assert (forall X : gset Blake2b256Hash, h ∈ X <-> bool_decide (h ∈ X) = true) as Hb
    by (intros X; by rewrite bool_decide_eq_true).
  match goal with |- ?P <-> ?Q => enough (bool_decide P = bool_decide Q) as E
    by (rewrite (Hb (_ ∖ _)), E; symmetry; apply Hb) end.
  repeat (rewrite bool_decide_difference || rewrite bool_decide_union).
  rewrite (Hb c), (Hb l) in Hc. rewrite (Hb cx), (Hb lx) in Hx. rewrite (Hb cy), (Hb ly) in Hy.
  destruct (bool_decide (h ∈ c)), (bool_decide (h ∈ l)), (bool_decide (h ∈ cx)),
    (bool_decide (h ∈ lx)), (bool_decide (h ∈ cy)), (bool_decide (h ∈ ly)); simpl; auto.
Qed.

Lemma combine_equiv_swap a x y ax ay z z' :
  copied_created a -> copied_created x -> copied_created y ->
  combine a x = Ok ax -> combine ax y = Ok z ->
  combine a y = Ok ay -> combine ay x = Ok z' -> z ≡ z'.
Proof.
  intros Ha Hx Hy Hax Hz Hay Hz'.
  assert (number_channels_data z = number_channels_data z') as Hd.
  { pose proof (proj1 (combine_Ok_iff a x) (ex_intro _ _ Hax)) as A1.
    pose proof (proj1 (combine_Ok_iff ax y) (ex_intro _ _ Hz)) as A2.
    rewrite (combine_data _ _ _ Hax), nc_agree_union in A2 by done.
    rewrite (combine_data _ _ _ Hz), (combine_data _ _ _ Hz').
    rewrite (combine_data _ _ _ Hax), (combine_data _ _ _ Hay).
    destruct A2. by apply nc_union_swap. }
  apply res_bind_Ok in Hax as (d1 & _ & [= <-]), Hz as (d2 & _ & [= <-]),
    Hay as (d3 & _ & [= <-]), Hz' as (d4 & _ & [= <-]).
  unfold equiv, index_equiv, copied_created in *. cbn in *.
  rewrite !dom_punion, !dom_combine_copied. cbn. rewrite !dom_punion, !dom_combine_copied.
  split_and!; [set_solver| set_solver| set_solver| set_solver| | set_solver..|done].
  rewrite !(union_interleave (dom (produces_linear _)) (dom (produces_linear _))).
  by apply copied_swap.
Qed.

#[global] Instance res_agree_trans : Transitive res_agree.
Proof. intros [x|?|] [y|?|] [z|?|]; simpl; try done. by intros -> ->. Qed.
Lemma combine_no_panic x y : combine x y <> Panic.
Proof.
  unfold combine. destruct (combine_number_channels _ _) eqn:E; [done..|].
  by apply combine_number_channels_no_panic in E.
Qed.
Lemma combine_all_proper l a a' :
  a ≡ a' -> res_agree (res_foldM combine a l) (res_foldM combine a' l).
Proof.
  revert a a'. induction l as [|x l IH]; intros a a' Ha; [done|]. simpl.
  assert (x ≡ x) as Hx by done.
  pose proof (combine_proper a a' Ha x x Hx) as Hc.
  destruct (combine a x), (combine a' x); simpl in *; try done. by apply IH.
Qed.
Lemma combine_two a x y z :
  res_bind (combine a x) (fun ax => combine ax y) = Ok z ->
  nc_agree (number_channels_data a) (number_channels_data x) /\
  nc_agree (number_channels_data a) (number_channels_data y) /\
  nc_agree (number_channels_data x) (number_channels_data y).
Proof.
  intros (ax & Hax & Hz)%res_bind_Ok.
  pose proof (proj1 (combine_Ok_iff a x) (ex_intro _ _ Hax)) as A1.
  pose proof (proj1 (combine_Ok_iff ax y) (ex_intro _ _ Hz)) as A2.
  rewrite (combine_data _ _ _ Hax), nc_agree_union in A2 by done. tauto.
Qed.
Lemma combine_two_ok a x y z :
  res_bind (combine a x) (fun ax => combine ax y) = Ok z ->
  is_Ok (res_bind (combine a y) (fun ay => combine ay x)).
Proof.
  intros (Hax & Hay & Hxy)%combine_two.
  destruct (proj2 (combine_Ok_iff a y) Hay) as [ay Ey]. rewrite Ey. simpl.
  apply combine_Ok_iff. rewrite (combine_data _ _ _ Ey), nc_agree_union by done.
  split; [done|]. by apply nc_agree_sym.
Qed.

Lemma combine_all_swap l a x y :
  copied_created a -> copied_created x -> copied_created y ->
  res_agree (res_foldM combine a (x :: y :: l)) (res_foldM combine a (y :: x :: l)).
Proof.
  intros Ha Hx Hy.
  assert (forall x y, res_foldM combine a (x :: y :: l) =
    res_bind (res_bind (combine a x) (fun ax => combine ax y))
      (fun z => res_foldM combine z l)) as Hassoc.
  { intros u v. simpl. by destruct (combine a u). }
  assert (forall x y, res_bind (combine a x) (fun ax => combine ax y) <> Panic) as Hnp.
  { intros u v. destruct (combine a u) eqn:E; simpl; [apply combine_no_panic|done|].
    by apply combine_no_panic in E. }
  rewrite !Hassoc. destruct (res_bind (combine a x) _) as [z|e|] eqn:E.
  - destruct (combine_two_ok a x y z E) as [z' E']. rewrite E'. simpl.
    apply combine_all_proper.
    apply res_bind_Ok in E as (ax & Hax & Hz), E' as (ay & Hay & Hz').
    by eapply (combine_equiv_swap a x y).
  - destruct (res_bind (combine a y) _) as [z'|e'|] eqn:E'; simpl; [|done|].
    + destruct (combine_two_ok a y x z' E') as [z Hz]. by rewrite Hz in E.
    + by apply Hnp in E'.
  - by apply Hnp in E.
Qed.

Lemma combine_all_permutation l k a :
  l ≡ₚ k -> copied_created a -> Forall copied_created l ->
  res_agree (res_foldM combine a l) (res_foldM combine a k).
Proof.
  intros Hp. revert a. induction Hp as [|x l k Hp IH|x y l|l k m Hp1 IH1 Hp2 IH2];
    intros a Ha Hl.
  - by apply combine_all_proper.
  - apply Forall_cons in Hl as [Hx Hl]. simpl.
    destruct (combine a x) as [ax|e|] eqn:E; simpl; [|done|by apply combine_no_panic in E].
    apply IH; [|done]. by apply (combine_copied a x).
  - apply Forall_cons in Hl as [Hx Hl]. apply Forall_cons in Hl as [Hy Hl].
    by apply combine_all_swap.
  - etransitivity; [by apply IH1|]. apply IH2; [done|]. by rewrite <- Hp1.
Qed.

(** The fold of [DeployChainIndex::new] over the logs of the deploys of a chain. *)
Definition combine_deploys (logs : list EventLogIndex) : res HistoryError EventLogIndex :=
  res_foldM combine empty_index logs.

(** The event log of a chain of deploys does not depend on the order in which the hash
    set of its deploys is iterated: both orders fail, or both give the same events and the
    same differences of the number channels. *)
Theorem combine_order_independent (logs logs' : list EventLogIndex) :
  logs ≡ₚ logs' -> Forall copied_created logs ->
  res_agree (combine_deploys logs) (combine_deploys logs').
Proof.
  intros Hp Hl. apply combine_all_permutation; [done| |done].
  unfold copied_created. set_solver.
Qed.
