(* ===== verification/RelatedSets.v ===== *)
(** * Related sets and rejection options

    [gather_related_sets], [compute_related_sets] and [compute_rejection_options] of
    [rspace++/src/rspace/merger/merging_logic.rs].  The recursion and the loop of the
    source carry fuel; [None] means that it ran out, which the theorems exclude. *)
From S2P Require Import Prelude Events HotStoreSig MergingLogic MergingIndex MergingMaps.

Section sets.
Context {A : Type} `{Countable A}.
Abbreviation relation_map := (gmap A (gset A)).
Implicit Types rm cm : relation_map.

(** ** [gather_related_sets] *)

(** The items related to those of [to_add] that are not in [next] yet. *)
Definition new_related rm (to_add next : gset A) : gset A :=
  filter (.∉ next) (⋃ ((fun v => default ∅ (rm !! v)) <$> elements to_add)).

(** [fn add_relations] *)
Fixpoint add_relations (fuel : nat) (to_add acc : gset A) rm : option (gset A) :=
  match fuel with
  | 0 => None
  | S fuel =>
    let next := acc ∪ to_add in
    if decide (size next = size acc) then Some next
    else
      let n := new_related rm to_add next in
      if decide (n = ∅) then Some next else add_relations fuel n next rm
  end.

(** Enough for every item that occurs in the map. *)
Definition items_of rm : gset A := dom rm ∪ ⋃ (map_to_list rm).*2.
Definition relations_fuel rm : nat := S (size (items_of rm)).

(** The body of the loop over the keys. *)
Definition gather_key rm (st : gset A * gset (gset A)) (k : A) :
  option (gset A * gset (gset A)) :=
  let '(processed, result) := st in
  if decide (k ∈ processed) then Some st
  else
    component ← add_relations (relations_fuel rm) (default ∅ (rm !! k)) {[k]} rm;
    Some (processed ∪ component, {[component]} ∪ result).
Definition gather_related_sets rm : option (gset (gset A)) :=
  snd <$> foldl (fun o k => st ← o; gather_key rm st k) (Some (∅, ∅)) (map_to_list rm).*1.

(** [fn compute_related_sets] *)
Definition compute_related_sets (items : gset A) (gt relation : A -> A -> bool) :
  option (gset (gset A)) := gather_related_sets (compute_relation_map items gt relation).

(** ** [compute_rejection_options] *)

(** A [HashSet<RejectionOption>]: an option is compared by [rejected_so_far] only. *)
Abbreviation rejection_options := (gmap (gset A) relation_map).
Definition option_insert (rejected_so_far : gset A) (remaining : relation_map)
    (s : rejection_options) : rejection_options :=
  match s !! rejected_so_far with Some _ => s | None => <[rejected_so_far := remaining]> s end.

(** The conflicts that remain after rejecting [to_reject]. *)
Definition remaining_conflicts_map (to_reject : gset A) cm : relation_map :=
  map_imap (fun key conflicts =>
    if decide (key ∈ to_reject) then None
    else
      let updated_conflicts := filter (.∉ to_reject) conflicts in
      if decide (updated_conflicts = ∅) then None else Some updated_conflicts) cm.

(** [fn gather_rej_options] *)
Definition gather_rej_options cm : rejection_options :=
  foldl (fun result kv => option_insert kv.2 (remaining_conflicts_map kv.2 cm) result)
    ∅ (map_to_list cm).

(** [already_exists] *)
Definition already_exists (result : gset (gset A)) (rejected : gset A) : bool :=
  existsb (fun e => bool_decide (size e = size rejected) && bool_decide (e ⊆ rejected))
    (elements result).

(** The body of [for option in current]. *)
Definition resolve_option (st : rejection_options * gset (gset A))
    (option : gset A * relation_map) : rejection_options * gset (gset A) :=
  let '(next, result) := st in
  let '(rejected_so_far, remaining) := option in
  if decide (remaining = ∅) then
    (next, if already_exists result rejected_so_far then result
           else {[rejected_so_far]} ∪ result)
  else
    (foldl (fun next new_option =>
              option_insert (new_option.1 ∪ rejected_so_far) new_option.2 next)
       next (map_to_list (gather_rej_options remaining)), result).

(** The [while] loop. *)
Fixpoint rejection_loop (fuel : nat) (current : rejection_options) (result : gset (gset A)) :
  option (gset (gset A)) :=
  if decide (current = ∅) then Some result
  else
    match fuel with
    | 0 => None
    | S fuel =>
      let '(next, result) := foldl resolve_option (∅, result) (map_to_list current) in
      rejection_loop fuel next result
    end.
Definition conflicts_only_map cm : relation_map := filter (fun kv => kv.2 <> ∅) cm.
Definition compute_rejection_options cm : option (gset (gset A)) :=
  rejection_loop (S (size cm)) {[ ∅ := conflicts_only_map cm ]} ∅.

(** ** Reachable items *)

Lemma elem_of_new_related rm to_add next x :
  x ∈ new_related rm to_add next <->
  x ∉ next /\ exists v, v ∈ to_add /\ related rm v x.
Proof.
  unfold new_related, related. rewrite elem_of_filter, elem_of_union_list.
  setoid_rewrite list_elem_of_fmap. setoid_rewrite elem_of_elements. split.
  - intros [Hn (X & (v & -> & Hv) & Hx)]. split; [done|]. exists v. split; [done|].
    destruct (rm !! v) as [s|]; [by exists s|set_solver].
  - intros [Hn (v & Hv & s & Hs & Hx)]. split; [done|]. exists s. split; [|done].
    exists v. by rewrite Hs.
Qed.

Lemma related_items rm a b : related rm a b -> a ∈ items_of rm /\ b ∈ items_of rm.
Proof.
  intros (s & Hs & Hb). unfold items_of. rewrite !elem_of_union. split.
  - left. by eapply elem_of_dom_2.
  - right. apply elem_of_union_list. exists s. split; [|done].
    apply list_elem_of_fmap. exists (a, s). split; [done|]. by apply elem_of_map_to_list.
Qed.

(** The items reachable from [k]. *)
Definition reaches rm (k : A) (X : gset A) : Prop := forall b, b ∈ X <-> rtc (related rm) k b.

Lemma closed_reaches rm k X :
  k ∈ X -> (forall b, b ∈ X -> rtc (related rm) k b) ->
  (forall a b, a ∈ X -> related rm a b -> b ∈ X) -> reaches rm k X.
Proof.
  intros Hk Hr Hc b. split; [apply Hr|]. intros Hb.
  clear Hr. induction Hb as [|x y z Hxy Hyz IH]; eauto.
Qed.

Lemma add_relations_reaches rm k fuel to_add acc :
  k ∈ acc -> (forall b, b ∈ acc ∪ to_add -> rtc (related rm) k b) ->
  (forall a b, a ∈ acc -> related rm a b -> b ∈ acc ∪ to_add) ->
  acc ∪ to_add ⊆ items_of rm -> size (items_of rm) - size acc < fuel ->
  exists X, add_relations fuel to_add acc rm = Some X /\ reaches rm k X.
Proof.
  revert to_add acc. induction fuel as [|fuel IH]; intros to_add acc Hk Hr Hc Hsub Hf; [lia|].
  cbn [add_relations].
  assert (size acc <= size (acc ∪ to_add)) as Hle by (apply subseteq_size; set_solver).
  assert (size (acc ∪ to_add) <= size (items_of rm)) as Hle' by (by apply subseteq_size).
  case_decide as Hs.
  { eexists. split; [done|]. assert (acc ∪ to_add = acc) as E.
    { symmetry. apply set_subseteq_size_eq; [set_solver|lia]. }
    apply closed_reaches; [set_solver|done|]. intros a b Ha. apply Hc. set_solver. }
  assert (forall a b, a ∈ acc ∪ to_add -> related rm a b ->
    b ∈ (acc ∪ to_add) ∪ new_related rm to_add (acc ∪ to_add)) as Hnext.
  { intros a b Ha Hab. rewrite elem_of_union, elem_of_new_related.
    destruct (decide (b ∈ acc ∪ to_add)); [by left|]. right. split; [done|].
    apply elem_of_union in Ha as [Ha|Ha]; [|eauto]. exfalso. eauto. }
  case_decide as Hn.
  { eexists. split; [done|]. apply closed_reaches; [set_solver|done|].
    intros a b Ha Hab. specialize (Hnext a b Ha Hab). set_solver. }
  apply IH; [set_solver| |done| |lia].
  - intros b [Hb|Hb]%elem_of_union; [auto|].
    apply elem_of_new_related in Hb as (_ & v & Hv & Hvb).
    eapply rtc_r; [|done]. apply Hr. set_solver.
  - intros b [Hb|Hb]%elem_of_union; [auto|].
    apply elem_of_new_related in Hb as (_ & v & Hv & Hvb).
    by apply related_items in Hvb as [_ ?].
Qed.

Lemma component_reaches rm k :
  k ∈ dom rm -> exists X,
    add_relations (relations_fuel rm) (default ∅ (rm !! k)) {[k]} rm = Some X /\
    reaches rm k X.
Proof.
  intros [s Hs]%elem_of_dom. rewrite Hs. change (default ∅ (Some s)) with s.
  assert (forall b, b ∈ s -> related rm k b) as Hrel by (intros b Hb; by exists s).
  apply add_relations_reaches.
  - set_solver.
  - intros b [->%elem_of_singleton|Hb]%elem_of_union; [done|]. by apply rtc_once, Hrel.
  - intros a b ->%elem_of_singleton (s' & Hs' & Hb). set_solver.
  - intros b [->%elem_of_singleton|Hb]%elem_of_union.
    + unfold items_of. apply elem_of_union_l. by eapply elem_of_dom_2.
    + by apply (related_items rm k), Hrel.
  - unfold relations_fuel. lia.
Qed.

(** What the loop over the keys has gathered. *)
Definition gathered rm (keys : list A) (st : gset A * gset (gset A)) : Prop :=
  (forall b, b ∈ st.1 <-> exists X, X ∈ st.2 /\ b ∈ X) /\
  (forall X, X ∈ st.2 -> exists k, k ∈ keys /\ reaches rm k X) /\
  (forall k, k ∈ keys -> k ∈ st.1).

Lemma gather_key_step rm k seen st :
  k ∈ dom rm -> gathered rm seen st ->
  exists st', gather_key rm st k = Some st' /\ gathered rm (seen ++ [k]) st'.
Proof.
  destruct st as [processed result]. intros Hk (Hp & HX & Hkeys). cbn [fst snd] in *.
  unfold gather_key. case_decide as Hin.
  - exists (processed, result). split; [done|]. split_and!; cbn [fst snd]; [done| |set_solver].
    intros X (k' & ? & ?)%HX. exists k'. set_solver.
  - destruct (component_reaches rm k Hk) as (X & HaX & HXk). rewrite HaX.
    assert (k ∈ X) by by apply HXk.
    exists (processed ∪ X, {[X]} ∪ result). split; [done|]. split_and!; cbn [fst snd].
    + intros b. rewrite elem_of_union, Hp. setoid_rewrite elem_of_union.
      setoid_rewrite elem_of_singleton. naive_solver.
    + intros Y [->%elem_of_singleton|(k' & ? & ?)%HX]%elem_of_union;
        [exists k|exists k']; (split; [|done]); set_solver.
    + set_solver.
Qed.
Lemma gather_keys rm keys seen st :
  (forall k, k ∈ keys -> k ∈ dom rm) -> gathered rm seen st ->
  exists st', foldl (fun o k => st ← o; gather_key rm st k) (Some st) keys = Some st' /\
    gathered rm (seen ++ keys) st'.
Proof.
  revert seen st. induction keys as [|k keys IH]; intros seen st Hk Hg; cbn [foldl].
  { exists st. by rewrite app_nil_r. }
  destruct (gather_key_step rm k seen st) as (st1 & Hst1 & Hg1); [apply Hk; left|done|].
  destruct (IH (seen ++ [k]) st1) as (st' & Hst & Hg'); [intros; apply Hk; by right|done|].
  exists st'. rewrite <- app_assoc in Hg'. split; [|done].
  change (Some st ≫= fun st => gather_key rm st k) with (gather_key rm st k). by rewrite Hst1.
Qed.

Lemma reaches_sym_eq rm k k' X Y :
  (forall a b, related rm a b -> related rm b a) ->
  reaches rm k X -> reaches rm k' Y -> k' ∈ X -> X = Y.
Proof.
  intros Hsym HX HY Hk'. apply HX in Hk'.
  assert (rtc (related rm) k' k) as Hback.
  { clear -Hsym Hk'. induction Hk' as [|x y z Hxy Hyz IH]; [done|].
    eapply rtc_r; [done|]. by apply Hsym. }
  apply set_eq. intros b. rewrite (HX b), (HY b). split; intros Hb; by etransitivity.
Qed.

Lemma gather_related_sets_spec rm :
  (forall a b, related rm a b -> related rm b a) ->
  exists S, gather_related_sets rm = Some S /\
    forall X, X ∈ S <-> exists k, k ∈ dom rm /\ reaches rm k X.
Proof.
  intros Hsym.
  assert (forall k, k ∈ (map_to_list rm).*1 <-> k ∈ dom rm) as Hkeys.
  { intros k. rewrite list_elem_of_fmap, elem_of_dom. split.
    - intros ([k' s] & -> & Hs%elem_of_map_to_list). by exists s.
    - intros [s Hs]. exists (k, s). by rewrite elem_of_map_to_list. }
  destruct (gather_keys rm (map_to_list rm).*1 [] (∅, ∅)) as ([p S] & Hf & Hp & HX & Hk).
  { intros k. apply Hkeys. }
  { split_and!; set_solver. }
  simpl in *. exists S. unfold gather_related_sets. rewrite Hf. split; [done|].
  intros X. split.
  - intros (k & Hin & Hr)%HX. exists k. split; [by apply Hkeys|done].
  - intros (k & Hin & Hr). apply Hkeys, Hk, Hp in Hin as (Y & HY & HkY).
    destruct (HX Y HY) as (k' & _ & Hr').
    by rewrite <- (reaches_sym_eq rm k' k Y X).
Qed.

(** On a symmetric relation map [gather_related_sets] terminates and returns exactly the
    connected components: the sets of the items reachable from some key. *)
Theorem gather_related_sets_correct rm :
  (forall a b, related rm a b -> related rm b a) ->
  exists S, gather_related_sets rm = Some S /\
    forall X, X ∈ S <-> exists k, k ∈ dom rm /\ reaches rm k X.
Proof. apply gather_related_sets_spec. Qed.

(** ** Rejecting conflicts *)

Lemma remaining_lookup R cm k s :
  remaining_conflicts_map R cm !! k = Some s <->
  exists s0, cm !! k = Some s0 /\ k ∉ R /\ s = s0 ∖ R /\ s <> ∅.
Proof.
  unfold remaining_conflicts_map. rewrite map_lookup_imap.
  assert (forall s0 : gset A, filter (.∉ R) s0 = s0 ∖ R) as Hf by set_solver.
  destruct (cm !! k) as [s0|]; simpl; [|naive_solver].
  rewrite Hf. case_decide; [naive_solver|]. case_decide; naive_solver.
Qed.
Lemma related_remaining R cm a b :
  related (remaining_conflicts_map R cm) a b <-> related cm a b /\ a ∉ R /\ b ∉ R.
Proof.
  unfold related. setoid_rewrite remaining_lookup. split.
  - intros (s & (s0 & Hs0 & Ha & -> & _) & Hb). set_solver.
  - intros ((s & Hs & Hb) & Ha & HbR). exists (s ∖ R). split; [|set_solver].
    exists s. set_solver.
Qed.
Lemma remaining_nonempty R cm k s : remaining_conflicts_map R cm !! k = Some s -> s <> ∅.
Proof. by intros (s0 & _ & _ & _ & ?)%remaining_lookup. Qed.
(** Maps without empty entries are determined by their relation. *)
Lemma remaining_eq R cm m :
  (forall k s, m !! k = Some s -> s <> ∅) ->
  (forall a b, related m a b <-> related cm a b /\ a ∉ R /\ b ∉ R) ->
  m = remaining_conflicts_map R cm.
Proof.
  intros Hne Hr.
  assert (forall m1 : relation_map, (forall k s, m1 !! k = Some s -> s <> ∅) ->
    forall k, k ∈ dom m1 <-> exists b, related m1 k b) as Hdom.
  { intros m1 Hm1 k. rewrite elem_of_dom. split.
    - intros [s Hs]. destruct (set_choose_L s) as [b Hb]; [by eapply Hm1|]. by exists b, s.
    - intros (b & s & Hs & _). by exists s. }
  apply related_map_eq.
  - apply set_eq. intros k. rewrite !Hdom by (done || apply remaining_nonempty).
    setoid_rewrite Hr. by setoid_rewrite related_remaining.
  - intros a b. by rewrite Hr, related_remaining.
Qed.
Lemma remaining_remaining R R' cm :
  remaining_conflicts_map R' (remaining_conflicts_map R cm) =
  remaining_conflicts_map (R' ∪ R) cm.
Proof.
  apply remaining_eq; [apply remaining_nonempty|]. intros a b.
  rewrite !related_remaining. set_solver.
Qed.
Lemma conflicts_only_remaining cm : conflicts_only_map cm = remaining_conflicts_map ∅ cm.
Proof.
  apply remaining_eq; unfold conflicts_only_map.
  - by intros k s [_ ?]%map_lookup_filter_Some.
  - intros a b. unfold related. setoid_rewrite map_lookup_filter_Some. set_solver.
Qed.

(** Keeping one conflicting item rejects what still conflicts with it. *)
Definition reject_step cm (R R' : gset A) : Prop :=
  exists k s, remaining_conflicts_map R cm !! k = Some s /\ R' = s ∪ R.

Definition options_of cm (current : rejection_options) : Prop :=
  forall R m, current !! R = Some m -> m = remaining_conflicts_map R cm.

Lemma dom_option_insert R m (s : rejection_options) :
  dom (option_insert R m s) = {[R]} ∪ dom s.
Proof.
  unfold option_insert. destruct (s !! R) eqn:E; [|apply dom_insert_L].
  apply elem_of_dom_2 in E. set_solver.
Qed.
Lemma options_of_insert cm R s :
  options_of cm s -> options_of cm (option_insert R (remaining_conflicts_map R cm) s).
Proof.
  intros Hs R' m. unfold option_insert. destruct (s !! R) eqn:E; [by apply Hs|].
  intros [[<- <-]|[_ ?]]%lookup_insert_Some; [done|by apply Hs].
Qed.

Lemma gather_rej_options_spec m :
  (forall R, R ∈ dom (gather_rej_options m) <-> exists k, m !! k = Some R) /\
  options_of m (gather_rej_options m).
Proof.
  unfold gather_rej_options.
  assert (forall l s, options_of m s ->
    (forall R, R ∈ dom (foldl (fun (result : rejection_options) kv =>
       option_insert kv.2 (remaining_conflicts_map kv.2 m) result) s l) <->
       R ∈ dom s \/ exists k : A, (k, R) ∈ l) /\
    options_of m (foldl (fun (result : rejection_options) kv =>
       option_insert kv.2 (remaining_conflicts_map kv.2 m) result) s l)) as Hl.
  { induction l as [|[k R0] l IH]; intros s Hs; cbn [foldl]; [set_solver|].
    destruct (IH _ (options_of_insert m R0 s Hs)) as [Hd Ho]. split; [|done].
    intros R. cbn [snd] in *. rewrite Hd, dom_option_insert, elem_of_union, elem_of_singleton.
    setoid_rewrite elem_of_cons. naive_solver. }
  destruct (Hl (map_to_list m) ∅) as [Hd Ho]; [by intros ???|]. split; [|done].
  intros R. rewrite Hd. setoid_rewrite elem_of_map_to_list. set_solver.
Qed.

Lemma already_exists_true result (R : gset A) : already_exists result R = true <-> R ∈ result.
Proof.
  unfold already_exists. rewrite existsb_exists. split.
  - intros (e & He & [Hs Hsub]%andb_prop). apply bool_decide_eq_true in Hs, Hsub.
    apply list_elem_of_In, elem_of_elements in He.
    by rewrite <- (set_subseteq_size_eq e R) by (done || lia).
  - intros HR. exists R. rewrite <- list_elem_of_In, elem_of_elements. split; [done|].
    apply andb_true_intro. by rewrite !bool_decide_eq_true.
Qed.

(** The options that follow one option. *)
Lemma add_options_spec cm R s :
  options_of cm s ->
  let s' := foldl (fun (next : rejection_options) new_option =>
              option_insert (new_option.1 ∪ R) new_option.2 next)
              s (map_to_list (gather_rej_options (remaining_conflicts_map R cm))) in
  options_of cm s' /\ forall R', R' ∈ dom s' <-> R' ∈ dom s \/ reject_step cm R R'.
Proof.
  intros Hs. destruct (gather_rej_options_spec (remaining_conflicts_map R cm)) as [Hd Ho].
  set (new := gather_rej_options _) in *. clearbody new.
  assert (forall R1, (exists m, (R1, m) ∈ map_to_list new) <->
    exists k, remaining_conflicts_map R cm !! k = Some R1) as Hnew.
  { intros R1. rewrite <- Hd, elem_of_dom. by setoid_rewrite elem_of_map_to_list. }
  assert (forall R1 m, (R1, m) ∈ map_to_list new -> m = remaining_conflicts_map (R1 ∪ R) cm)
    as Hm.
  { intros R1 m Hin%elem_of_map_to_list. rewrite (Ho _ _ Hin). apply remaining_remaining. }
  assert (forall R', reject_step cm R R' <->
    exists R1 m, (R1, m) ∈ map_to_list new /\ R' = R1 ∪ R) as Hstep.
  { intros R'. unfold reject_step. split.
    - intros (k & R1 & Hk & ->). destruct (proj2 (Hnew R1)) as [m ?]; eauto.
    - intros (R1 & m & Hin & ->). destruct (proj1 (Hnew R1)) as [k ?]; eauto. }
  cbn zeta. setoid_rewrite Hstep. clear Hstep Hnew Hd Ho.
  generalize dependent s. induction (map_to_list new) as [|[R1 m] l IH]; intros s Hs;
    cbn [foldl fst snd]; [set_solver|].
  rewrite (Hm R1 m) by left.
  destruct (IH (fun R2 m2 Hin => Hm R2 m2 (list_elem_of_further _ _ _ Hin))
              _ (options_of_insert cm (R1 ∪ R) s Hs)) as [Ho Hd].
  split; [done|]. intros R'. rewrite Hd, dom_option_insert, elem_of_union, elem_of_singleton.
  setoid_rewrite elem_of_cons. naive_solver.
Qed.

Lemma resolve_options_spec cm l next result :
  options_of cm next -> (forall R m, (R, m) ∈ l -> m = remaining_conflicts_map R cm) ->
  exists next' result', foldl resolve_option (next, result) l = (next', result') /\
    options_of cm next' /\
    (forall R', R' ∈ dom next' <-> R' ∈ dom next \/ exists R, R ∈ l.*1 /\ reject_step cm R R') /\
    (forall X, X ∈ result' <-> X ∈ result \/ (X ∈ l.*1 /\ remaining_conflicts_map X cm = ∅)).
Proof.
  revert next result. induction l as [|[R m] l IH]; intros next result Hn Hl; cbn [foldl].
  { exists next, result. split_and!; set_solver. }
  rewrite (Hl R m) by left. unfold resolve_option at 2.
  assert (forall R1 m1, (R1, m1) ∈ l -> m1 = remaining_conflicts_map R1 cm) as Hl'.
  { intros R1 m1 Hin. apply Hl. by right. }
  rewrite fmap_cons. cbn [fst]. setoid_rewrite elem_of_cons. case_decide as He.
  - edestruct IH as (next' & result' & Hf & Ho & Hd & Hr); [exact Hn|exact Hl'|].
    exists next', result'. split_and!; [exact Hf|done| |].
    + intros R'. rewrite Hd. split; [naive_solver|].
      intros [?|(R1 & [->|?] & Hst)]; [by left| |right; by exists R1].
      destruct Hst as (k & s & Hk & _). by rewrite He in Hk.
    + intros X. rewrite Hr. assert (X ∈ (if already_exists result R then result
        else {[R]} ∪ result) <-> X ∈ result \/ X = R) as ->.
      2: { split; [intros [[?| ->]|[? ?]]; auto|]. intros [?|[[->|?] ?]]; auto. }
      destruct (already_exists result R) eqn:Ee; [apply already_exists_true in Ee|].
      * split; [by left|]. by intros [?| ->].
      * rewrite elem_of_union, elem_of_singleton. tauto.
  - destruct (add_options_spec cm R next Hn) as [Ho1 Hd1]. cbn zeta in Ho1, Hd1.
    edestruct IH as (next' & result' & Hf & Ho & Hd & Hr); [exact Ho1|exact Hl'|].
    exists next', result'. split_and!; [exact Hf|done| |].
    + intros R'. rewrite Hd, Hd1. clear. naive_solver.
    + intros X. rewrite Hr. split; [intros [?|[? ?]]; auto|]. intros [?|[[->|?] ?]]; auto.
      by destruct He.
Qed.

Lemma reject_step_size cm R R' :
  reject_step cm R R' ->
  size (remaining_conflicts_map R' cm) < size (remaining_conflicts_map R cm).
Proof.
  intros (k & s & Hk & ->). rewrite <- remaining_remaining.
  rewrite <- !size_dom. apply subset_size. split.
  - intros k' [s' (s0 & ? & _)%remaining_lookup]%elem_of_dom. apply elem_of_dom. eauto.
  - intros Hsub. assert (k ∈ dom (remaining_conflicts_map s (remaining_conflicts_map R cm)))
      as [s' (s0 & Hs0 & _ & -> & Hne)%remaining_lookup]%elem_of_dom.
    { apply Hsub. by eapply elem_of_dom_2. }
    set_solver.
Qed.

Lemma rejection_loop_spec cm fuel current result :
  options_of cm current ->
  (forall R, R ∈ dom current -> size (remaining_conflicts_map R cm) < fuel) ->
  exists res, rejection_loop fuel current result = Some res /\
    forall X, X ∈ res <-> X ∈ result \/ exists R, R ∈ dom current /\
      rtc (reject_step cm) R X /\ remaining_conflicts_map X cm = ∅.
Proof.
  revert current result. induction fuel as [|fuel IH]; intros current result Ho Hf.
  - assert (current = ∅) as ->.
    { apply dom_empty_inv_L, set_eq. intros R. split; [|done]. intros HR.
      specialize (Hf R HR). lia. }
    exists result. split; [done|]. set_solver.
  - cbn [rejection_loop]. case_decide as Hc.
    { subst. exists result. split; [done|]. set_solver. }
    assert (forall R, R ∈ (map_to_list current).*1 <-> R ∈ dom current) as Hk.
    { intros R. rewrite list_elem_of_fmap, elem_of_dom. split.
      - intros ([R' m] & -> & Hm%elem_of_map_to_list). by exists m.
      - intros [m Hm]. exists (R, m). by rewrite elem_of_map_to_list. }
    destruct (resolve_options_spec cm (map_to_list current) ∅ result)
      as (next & result' & -> & Ho' & Hd & Hr).
    { by intros ???. } { intros R m ?%elem_of_map_to_list. by apply Ho. }
    setoid_rewrite Hk in Hd. setoid_rewrite Hk in Hr.
    destruct (IH next result' Ho') as (res & Hres & HX).
    { intros R' [?|(R & HR & Hst)]%Hd; [set_solver|].
      apply reject_step_size in Hst. specialize (Hf R HR). lia. }
    exists res. split; [done|]. intros X. rewrite HX, Hr. setoid_rewrite Hd. split.
    + intros [[?|[? ?]]|(R' & [?|(R & ? & ?)] & ? & ?)]; [by left| |set_solver|].
      * right. exists X. split_and!; [done|apply rtc_refl|done].
      * right. exists R. split_and!; [done|by eapply rtc_l|done].
    + intros [?|(R & HR & Hrtc & He)]; [by left; left|].
      destruct Hrtc as [R|R R' X Hst Hrtc]; [by left; right|].
      right. exists R'. split_and!; [|done..]. right. eauto.
Qed.

(** The rejected items of a way to keep a maximal set of items without conflicts: of two
    conflicting items one is rejected, and a rejected item conflicts with a kept one. *)
Definition rejection_option cm (X : gset A) : Prop :=
  (forall a b, related cm a b -> a ∈ X \/ b ∈ X) /\
  (forall x, x ∈ X -> exists k, k ∉ X /\ related cm k x).

Lemma remaining_empty R cm :
  remaining_conflicts_map R cm = ∅ <-> forall a b, related cm a b -> a ∈ R \/ b ∈ R.
Proof.
  split.
  - intros He a b Hab. destruct (decide (a ∈ R)), (decide (b ∈ R)); auto.
    assert (related (remaining_conflicts_map R cm) a b) as (s & Hs & _)
      by by apply related_remaining.
    by rewrite He in Hs.
  - intros Hc. apply map_empty. intros k.
    destruct (remaining_conflicts_map R cm !! k) as [s|] eqn:E; [|done].
    destruct (set_choose_L s) as [b Hb]; [by eapply remaining_nonempty|].
    assert (related (remaining_conflicts_map R cm) k b) as (Hr & ? & ?)%related_remaining
      by by exists s.
    by destruct (Hc k b Hr).
Qed.

(** Every map has a minimal set of items that meets all conflicts. *)
Lemma minimal_cover cm (X : gset A) :
  remaining_conflicts_map X cm = ∅ ->
  exists Y, remaining_conflicts_map Y cm = ∅ /\
    forall y, y ∈ Y -> remaining_conflicts_map (Y ∖ {[y]}) cm <> ∅.
Proof.
  remember (size X) as n eqn:Hn. revert X Hn.
  induction n as [n IH] using lt_wf_ind. intros X -> HX.
  destruct (decide (set_Exists (fun y => remaining_conflicts_map (X ∖ {[y]}) cm = ∅) X))
    as [(y & Hy & Hr)|Hno].
  - apply (IH (size (X ∖ {[y]})) ltac:(apply subset_size; set_solver) (X ∖ {[y]}) eq_refl Hr).
  - exists X. split; [done|]. intros y Hy Hr. apply Hno. by exists y.
Qed.

Section symmetric.
Context (cm : relation_map).
Context (Hsym : forall a b, related cm a b -> related cm b a).
Context (Hirr : forall a, ~ related cm a a).

(** Every rejected item conflicts with a kept item all of whose conflicts are rejected. *)
Definition justified (R : gset A) : Prop := forall x, x ∈ R -> exists k,
  k ∉ R /\ related cm k x /\ forall y, related cm k y -> y ∈ R.

Lemma reject_step_justified R R' : justified R -> reject_step cm R R' -> justified R'.
Proof.
  intros HR (k & s & (s0 & Hs0 & Hk & -> & _)%remaining_lookup & ->) x.
  assert (forall y, related cm k y <-> y ∈ s0) as Hky.
  { intros y. unfold related. rewrite Hs0. naive_solver. }
  rewrite elem_of_union. intros [[Hx HxR]%elem_of_difference|Hx].
  - exists k. specialize (Hirr k). rewrite Hky in Hirr. split_and!; [set_solver|by apply Hky|].
    intros y Hy%Hky. destruct (decide (y ∈ R)); set_solver.
  - destruct (HR x Hx) as (k0 & Hk0 & Hrel & Hiso). exists k0.
    split_and!; [|done|intros y Hy; specialize (Hiso y Hy); set_solver].
    intros [[Hin _]%elem_of_difference|?]%elem_of_union; [|done].
    apply Hky, Hsym, Hiso in Hin. done.
Qed.

Lemma option_reachable X R :
  rejection_option cm X -> R ⊆ X -> rtc (reject_step cm) R X.
Proof.
  intros [Hcov Hmin]. remember (size X - size R) as n eqn:En. revert R En.
  induction n as [n IH] using lt_wf_ind. intros R En Hsub.
  destruct (decide (R = X)) as [->|Hne]; [done|].
  assert (exists v, v ∈ X /\ v ∉ R) as (v & Hv & HvR).
  { destruct (set_choose_L (X ∖ R)) as [v Hv]; [|exists v; set_solver].
    intros He. apply Hne, set_eq. intros y. split; [apply Hsub|]. intros Hy.
    destruct (decide (y ∈ R)); [done|].
    assert (y ∈ X ∖ R) as Hy' by by apply elem_of_difference.
    rewrite He in Hy'. by apply elem_of_empty in Hy'. }
  destruct (Hmin v Hv) as (k & Hk & s0 & Hs0 & Hkv).
  assert (remaining_conflicts_map R cm !! k = Some (s0 ∖ R)) as Hrem.
  { apply remaining_lookup. exists s0. split_and!; [done|by intros ?%Hsub|done|].
    clear -Hkv HvR. set_solver. }
  assert ((s0 ∖ R) ∪ R ⊆ X) as Hsub'.
  { intros y [[Hy _]%elem_of_difference|Hy]%elem_of_union; [|by apply Hsub].
    destruct (Hcov k y) as [?|?]; [by exists s0|done|done]. }
  eapply rtc_l; [by exists k, (s0 ∖ R)|].
  assert (size R < size ((s0 ∖ R) ∪ R)) as Hlt.
  { apply subset_size. clear -Hkv HvR. split; [set_solver|]. intros Hs. apply HvR, Hs.
    set_solver. }
  assert (size ((s0 ∖ R) ∪ R) <= size X) by (by apply subseteq_size).
  eapply IH; [|done|done]. lia.
Qed.

Lemma rejection_option_exists : exists X, rejection_option cm X.
Proof.
  destruct (minimal_cover cm (items_of cm)) as (Y & HY & Hmin).
  { apply remaining_empty. intros a b [? _]%related_items. by left. }
  exists Y. split; [by apply remaining_empty|]. intros x Hx. apply Hmin in Hx as Hr.
  apply map_choose in Hr as (k & s & (s0 & Hk & HkY & -> & Hne)%remaining_lookup).
  apply set_choose_L in Hne as [y [Hy HyY]%elem_of_difference].
  assert (related cm k y) as Hky by (by exists s0).
  assert (forall z, z ∉ Y ∖ {[x]} -> z ∈ Y -> z = x) as Hzx.
  { intros z Hz HzY. destruct (decide (z = x)); [done|]. exfalso. apply Hz.
    by apply elem_of_difference; rewrite elem_of_singleton. }
  destruct (proj1 (remaining_empty Y cm) HY k y Hky) as [HkY'|HyY'].
  - rewrite (Hzx k HkY HkY') in *. exists y. split; [|by apply Hsym].
    intros Hin. rewrite (Hzx y HyY Hin) in *. by apply (Hirr x).
  - rewrite (Hzx y HyY HyY') in *. exists k. split; [|done].
    intros Hin. rewrite (Hzx k HkY Hin) in *. by apply (Hirr x).
Qed.

Lemma rejection_options_spec :
  exists S, compute_rejection_options cm = Some S /\
    forall X, X ∈ S <-> rejection_option cm X.
Proof.
  unfold compute_rejection_options. rewrite conflicts_only_remaining.
  destruct (rejection_loop_spec cm (S (size cm)) {[∅ := remaining_conflicts_map ∅ cm]} ∅)
    as (res & Hres & HX).
  { intros R m [<- <-]%lookup_singleton_Some. done. }
  { intros R. rewrite dom_singleton_L, elem_of_singleton. intros ->.
    rewrite <- !size_dom. apply le_n_S, subseteq_size.
    intros k [s (s0 & ? & _)%remaining_lookup]%elem_of_dom. apply elem_of_dom. eauto. }
  exists res. split; [done|]. intros X. rewrite HX, dom_singleton_L.
  setoid_rewrite elem_of_singleton. split.
  - intros [?|(R & -> & Hrtc & He)]; [set_solver|]. split; [by apply remaining_empty|].
    assert (justified X) as HXj.
    { assert (justified ∅) as H0 by (intros ?; set_solver). revert H0. clear He HX Hres.
      induction Hrtc; eauto using reject_step_justified. }
    intros x (k & ? & ? & _)%HXj. eauto.
  - intros HXo. right. exists ∅. split_and!; [done| |by apply remaining_empty, HXo].
    by apply option_reachable.
Qed.

(** C35: on a symmetric and irreflexive conflict map [compute_rejection_options] terminates and
    returns exactly the rejections of which a maximal conflict-free set of items is left:
    no two kept items conflict and no rejected item could be kept as well. *)
Theorem rejection_options_correct :
  exists S, compute_rejection_options cm = Some S /\
    forall X, X ∈ S <-> rejection_option cm X.
Proof. exact rejection_options_spec. Qed.
End symmetric.
End sets.
