(* ===== verification/MergingExamples.v ===== *)
(** * Event logs of three deploys

    The first deploy sends on a channel, the second receives on it, the third runs a COMM
    with the message of the first: the first conflicts with the second, the third depends
    on the first and races with nobody.  The theorems on conflict maps, dependency maps,
    components and rejection options are applied to these logs. *)
From S2P Require Import Prelude Events HotStoreSig HistoryRepo MergingLogic MergingIndex.
From S2P Require Import MergingMaps MergingCombine RelatedSets.

Module ThreeDeploys.
Definition chan : Blake2b256Hash := [x01].
Definition sent : Produce := mkProduce chan [x02] false true [] false.
Definition waiting : Consume := mkConsume [chan] [x03] false.
Definition received : Consume := mkConsume [chan] [x04] false.
Definition no_base (p : Produce) : bool := false.
Definition balance_diff : NumberChannelsDiff := {[ [x05] := (7%Z, IntegerAdd) ]}.
Definition log_of (i : nat) : EventLogIndex :=
  EventLogIndex_new no_base no_base
    (match i with
     | 0 => [IoEvent (IOProduce sent)]
     | 1 => [IoEvent (IOConsume waiting)]
     | _ => [IoEvent (IOConsume received); Comm (mkCOMM received [sent] ∅ ∅)]
     end)
    (match i with 0 => ∅ | _ => balance_diff end).
Definition deploys : list nat := [0; 1; 2].
Definition gt_nat (a b : nat) : bool := (b <? a)%nat.

Lemma gt_nat_asym a b : a <> b -> gt_nat a b = false \/ gt_nat b a = false.
Proof. unfold gt_nat. rewrite !Nat.ltb_ge. lia. Qed.

Definition log_produces (e : EventLogIndex) : list Produce :=
  plist (produces_linear e) ++ plist (produces_persistent e) ++ plist (produces_consumed e).
Definition logs_check (logs : list EventLogIndex) : Prop :=
  Forall (fun e => Forall (fun e' => Forall (fun p => Forall (fun q =>
    p_hash p = p_hash q -> channel_hash p = channel_hash q /\ p_persistent p = p_persistent q)
    (log_produces e')) (log_produces e)) logs) logs /\
  Forall (fun e => Forall (fun c => channel_hashes c <> []) (elements (consumes_produced e))) logs.

Lemma logs_check_coherent logs :
  (forall e, e ∈ logs -> index_wf e) -> logs_check logs -> coherent logs.
Proof.
  intros Hwf [Hp Hc]. split; [done| |].
  - intros e e' p q He He' Hlp Hlq. rewrite Forall_forall in Hp.
    assert (forall e p, log_produce e p -> p ∈ log_produces e) as Hl.
    { intros ? ? ?. unfold log_produces. by rewrite !elem_of_app. }
    specialize (Hp e He). rewrite Forall_forall in Hp. specialize (Hp e' He').
    rewrite Forall_forall in Hp. specialize (Hp p (Hl _ _ Hlp)).
    rewrite Forall_forall in Hp. exact (Hp q (Hl _ _ Hlq)).
  - intros e c He Hin. rewrite Forall_forall in Hc. specialize (Hc e He).
    rewrite Forall_forall in Hc. apply Hc. by apply elem_of_elements.
Qed.

Lemma deploys_coherent : coherent (log_of <$> deploys).
Proof.
  apply logs_check_coherent.
  - intros e (i & -> & _)%list_elem_of_fmap. apply index_new_wf.
  - apply (bool_decide_unpack _). vm_compute. exact I.
Qed.

(** The theorem on conflict maps, at the three logs; the map itself. *)
Lemma conflict_map_equivalence_witness :
  compute_conflict_map_event_indexed (E:=HistoryError) deploys (log_of <$> deploys) =
    Ok (compute_relation_map (list_to_set deploys) gt_nat
          (fun a b => are_conflicting (log_of a) (log_of b))) /\
  compute_conflict_map_event_indexed (E:=HistoryError) deploys (log_of <$> deploys) =
    Ok {[ 0 := {[1]}; 1 := {[0]}; 2 := ∅ ]}.
Proof.
  split.
  - apply (conflict_map_equivalence deploys log_of gt_nat).
    + apply (bool_decide_unpack _). vm_compute. exact I.
    + exact gt_nat_asym.
    + exact deploys_coherent.
  - vm_compute. reflexivity.
Defined.

Lemma depends_map_equivalence_witness :
  compute_depends_map_event_indexed (E:=HistoryError) deploys (log_of <$> deploys) =
    Ok (compute_relation_map (list_to_set deploys) gt_nat
          (fun a b => depends (log_of a) (log_of b))) /\
  compute_depends_map_event_indexed (E:=HistoryError) deploys (log_of <$> deploys) =
    Ok {[ 0 := {[2]}; 1 := ∅; 2 := {[0]} ]}.
Proof.
  split.
  - apply (depends_map_equivalence deploys log_of gt_nat).
    + apply (bool_decide_unpack _). vm_compute. exact I.
    + exact gt_nat_asym.
    + exact deploys_coherent.
  - vm_compute. reflexivity.
Defined.

Lemma combine_order_independent_witness :
  res_agree (combine_deploys (log_of <$> [0; 1; 2])) (combine_deploys (log_of <$> [2; 1; 0])).
Proof.
  apply combine_order_independent.
  - apply fmap_Permutation, (bool_decide_unpack _). vm_compute. exact I.
  - apply Forall_forall. intros e (i & -> & _)%list_elem_of_fmap. apply index_new_copied.
Defined.

(** Conflicts and dependencies of the three deploys. *)
Definition conflicts_of : gmap nat (gset nat) := {[ 0 := {[1]}; 1 := {[0]}; 2 := ∅ ]}.
Definition depends_of : gmap nat (gset nat) := {[ 0 := {[2]}; 1 := ∅; 2 := {[0]} ]}.

Lemma related_check (m : gmap nat (gset nat)) (P : nat -> nat -> Prop) :
  Forall (fun kv => Forall (fun b => P kv.1 b) (elements kv.2)) (map_to_list m) ->
  forall a b, related m a b -> P a b.
Proof.
  intros HP a b (s & Hs & Hb). rewrite Forall_forall in HP.
  specialize (HP (a, s)). rewrite Forall_forall in HP.
  apply HP; [by apply elem_of_map_to_list|by apply elem_of_elements].
Qed.
Definition relates (m : gmap nat (gset nat)) (a b : nat) : bool :=
  match m !! a with Some s => bool_decide (b ∈ s) | None => false end.
Lemma relates_related m a b : relates m a b = true -> related m a b.
Proof.
  unfold relates. destruct (m !! a) as [s|] eqn:E; [|done].
  intros Hb%bool_decide_eq_true. by exists s.
Qed.

Lemma gather_related_sets_correct_witness :
  gather_related_sets depends_of = Some {[ {[0; 2]}; {[1]} ]} /\
  exists S, gather_related_sets depends_of = Some S /\
    forall X, X ∈ S <-> exists k, k ∈ dom depends_of /\ reaches depends_of k X.
Proof.
  split; [apply (bool_decide_unpack _); vm_compute; exact I|].
  apply gather_related_sets_correct. intros a b Hab. apply relates_related. revert a b Hab.
  apply (related_check _ (fun a b => relates depends_of b a = true)).
  apply (bool_decide_unpack _). vm_compute. exact I.
Defined.

Lemma rejection_options_correct_witness :
  compute_rejection_options conflicts_of = Some {[ {[0]}; {[1]} ]} /\
  exists S, compute_rejection_options conflicts_of = Some S /\
    forall X, X ∈ S <-> rejection_option conflicts_of X.
Proof.
  split; [apply (bool_decide_unpack _); vm_compute; exact I|]. apply rejection_options_correct.
  - intros a b Hab. apply relates_related. revert a b Hab.
    apply (related_check _ (fun a b => relates conflicts_of b a = true)).
    apply (bool_decide_unpack _). vm_compute. exact I.
  - intros a Haa. assert (a <> a) as Hne; [|exact (Hne eq_refl)].
    revert Haa. generalize a at 2 4. revert a.
    apply (related_check _ (fun a b => a <> b)).
    apply (bool_decide_unpack _). vm_compute. exact I.
Defined.
End ThreeDeploys.
