(* ===== verification/StateChange.v ===== *)
(** * State changes

    [rspace++/src/rspace/merger/channel_change.rs], [state_change.rs] and
    [state_change_merger.rs]: the difference a chain of deploys made to the rows of the
    channels it touched, the union of such differences, and the trie actions that apply
    the union to a base state.

    The loops that the source runs in parallel insert into distinct keys of a map; they
    run in the order of a list here, which only matters for which error is reported. *)
From S2P Require Import Prelude Events HotStoreSig KeyValueStore Serializers HistoryRepo.
From S2P Require Import RadixTree MergingLogic.
Open Scope res_scope.

(** ** [struct ChannelChange<A>] at byte vectors *)

Record ChannelChange := mkChange { added : list bytes; removed : list bytes }.
(** [ChannelChange::empty] *)
Definition empty_change : ChannelChange := mkChange [] [].

(** [fn vec_diff]: every item of [to_remove] removes the first item of [from] equal to it. *)
Definition vec_diff (from to_remove : list bytes) : list bytes :=
  foldl (fun from item =>
    match position (fun x => bool_decide (x = item)) from with
    | Some pos => delete pos from
    | None => from
    end) from to_remove.
(** [ChannelChange::combine] *)
Definition combine_change (self other : ChannelChange) : ChannelChange :=
  mkChange (added self ++ vec_diff (added other) (added self))
    (removed self ++ vec_diff (removed other) (removed self)).

(** ** [struct StateChange] *)

Record StateChange := mkStateChange {
  datums_changes : gmap Blake2b256Hash ChannelChange;
  cont_changes : gmap (list Blake2b256Hash) ChannelChange;
  consume_channels_to_join_serialized_map : gmap (list Blake2b256Hash) bytes;
}.
(** [StateChange::empty] *)
Definition empty_state_change : StateChange := mkStateChange ∅ ∅ ∅.

(** [fn multiset_diff]: the counts of the items to remove, then one pass. *)
Definition remove_counts (to_remove : list bytes) : gmap bytes nat :=
  foldl (fun counts item => <[item := S (default 0 (counts !! item))]> counts) ∅ to_remove.
Definition diff_step (st : gmap bytes nat * list bytes) (item : bytes) :
  gmap bytes nat * list bytes :=
  let '(counts, result) := st in
  match counts !! item with
  | Some (S count) => (<[item := count]> counts, result)
  | _ => (counts, result ++ [item])
  end.
Definition multiset_diff (from to_remove : list bytes) : list bytes :=
  (foldl diff_step (remove_counts to_remove, []) from).2.

(** [fn compute_value_change] *)
Definition compute_value_change (history_pointer : Blake2b256Hash)
    (start_value end_value : Blake2b256Hash -> res HistoryError (list bytes)) :
  res HistoryError ChannelChange :=
  start <-! start_value history_pointer;
  end_ <-! end_value history_pointer;
  Ok (mkChange (multiset_diff end_ start) (multiset_diff start end_)).

(** [StateChange::combine] *)
Definition combine_entry {K} `{Countable K} (m : gmap K ChannelChange) (kv : K * ChannelChange) :
  gmap K ChannelChange :=
  match m !! kv.1 with
  | Some current => <[kv.1 := combine_change current kv.2]> m
  | None => <[kv.1 := kv.2]> m
  end.
Definition combine_state_change (self other : StateChange) : StateChange :=
  mkStateChange
    (foldl combine_entry (datums_changes self) (map_to_list (datums_changes other)))
    (foldl combine_entry (cont_changes self) (map_to_list (cont_changes other)))
    (foldl (fun m kv => <[kv.1 := kv.2]> m) (consume_channels_to_join_serialized_map self)
       (map_to_list (consume_channels_to_join_serialized_map other))).

(** ** [StateChange::new] *)

(** The methods of [HistoryReader] that state changes use. *)
Record HistoryReader (C : Type) := mkReader {
  data_binary : Blake2b256Hash -> res HistoryError (list bytes);
  continuations_binary : Blake2b256Hash -> res HistoryError (list bytes);
  joins_binary : Blake2b256Hash -> res HistoryError (list bytes);
  joins_proj : Blake2b256Hash -> res HistoryError (list (list C));
}.
Arguments mkReader {C} _ _ _ _.
Arguments data_binary {C} _ _.
Arguments continuations_binary {C} _ _.
Arguments joins_binary {C} _ _.
Arguments joins_proj {C} _ _.

Section changes.
Context {C P A K : Type} (cd : Codecs C P A K) (rc : RowCodecs C P A K).

(** [impl HistoryReader for RSpaceHistoryReaderImpl] *)
Definition history_reader {KV : Type} `{!KeyValueStore KV, !DashOrder} (self : RSpaceHistoryReaderImpl KV) :
  HistoryReader C :=
  mkReader (fun h => reader_data_proj_binary rc h self)
    (fun h => reader_continuations_proj_binary rc h self)
    (fun h => reader_joins_proj_binary rc h self)
    (fun h => reader_joins_proj rc h self).

Definition unique_produce_channels (e : EventLogIndex) : gset Blake2b256Hash :=
  list_to_set (channel_hash <$> plist (produces_affected e)).
Definition channels_of_consumes_affected (e : EventLogIndex) : gset (list Blake2b256Hash) :=
  list_to_set (channel_hashes <$> elements (consumes_affected e)).

(** Fills a map at the keys of a list; the first error ends it. *)
Definition fill_map {X V} `{Countable X} (f : X -> res HistoryError V) (keys : list X) :
  res HistoryError (gmap X V) :=
  res_foldM (fun m k => v <-! f k; Ok (<[k := v]> m)) ∅ keys.

(** The closure given to [find], which sorts both vectors of hashes. *)
Definition join_matches (consume_channels : list Blake2b256Hash) (join : list C) : bool :=
  bool_decide (sort_by bytes_cmp consume_channels = sort_by bytes_cmp (hash cd <$> join)).
(** The join of the channels of a consume, with the key it is filed under: the closure has
    sorted [consume_channels] when it has been called. *)
Definition join_entry (pre_state_reader post_state_reader : HistoryReader C)
    (consume_channels : list Blake2b256Hash) :
  res HistoryError (list Blake2b256Hash * bytes) :=
  history_pointer <-! unwrap (consume_channels !! 0);
  pre <-! joins_proj pre_state_reader history_pointer;
  post <-! joins_proj post_state_reader history_pointer;
  join <-! unwrap (find (join_matches consume_channels) (pre ++ post));
  Ok (sort_by bytes_cmp consume_channels, ser_join_row rc join).

Definition is_change (c : ChannelChange) : Prop := ~ (added c = [] /\ removed c = []).
#[global] Instance is_change_dec c : Decision (is_change c).
Proof. unfold is_change. apply _. Defined.

(** [StateChange::new] *)
Definition StateChange_new (pre_state_reader post_state_reader : HistoryReader C)
    (event_log_index : EventLogIndex) : res HistoryError StateChange :=
  let produce_channels := elements (unique_produce_channels event_log_index) in
  let consumes_channels := elements (channels_of_consumes_affected event_log_index) in
  datums_diff <-! fill_map (fun history_pointer =>
    compute_value_change history_pointer (data_binary pre_state_reader)
      (data_binary post_state_reader)) produce_channels;
  cont_diff <-! fill_map (fun consume_channels =>
    compute_value_change (hash_from_hashes cd consume_channels)
      (continuations_binary pre_state_reader) (continuations_binary post_state_reader))
    consumes_channels;
  joins_map <-! res_foldM (fun m consume_channels =>
    kv <-! join_entry pre_state_reader post_state_reader consume_channels;
    Ok (<[kv.1 := kv.2]> m)) ∅ consumes_channels;
  Ok (mkStateChange (filter (fun kc => is_change kc.2) datums_diff)
        (filter (fun kc => is_change kc.2) cont_diff) joins_map).

(** ** [compute_trie_actions] *)

(** [enum JoinActionKind], [struct ConsumeAndJoinActions] *)
Inductive JoinActionKind :=
| AddJoin (channels : list Blake2b256Hash)
| RemoveJoin (channels : list Blake2b256Hash).
Record ConsumeAndJoinActions := mkCJ {
  consume_action : HotStoreTrieAction C P A K;
  join_action : option JoinActionKind;
}.

Definition new_value (init : list bytes) (change : ChannelChange) : list bytes :=
  multiset_diff init (removed change) ++ added change.

(** The closure over the sorted continuation changes. *)
Definition consume_with_join_action (base_reader : HistoryReader C)
    (entry : list Blake2b256Hash * ChannelChange) : res HistoryError ConsumeAndJoinActions :=
  let '(consume_channels, channel_change) := entry in
  let history_pointer := hash_from_hashes cd consume_channels in
  init <-! continuations_binary base_reader history_pointer;
  let new_val := new_value init channel_change in
  if decide (init = new_val) then
    Err (MergeError "Merging logic error: empty consume change when computing trie action.")
  else if decide (init = []) then
    Ok (mkCJ (TrieInsert (TrieInsertBinaryConsume history_pointer new_val))
          (Some (AddJoin consume_channels)))
  else if decide (new_val = []) then
    Ok (mkCJ (TrieDelete (TrieDeleteConsume history_pointer))
          (Some (RemoveJoin consume_channels)))
  else Ok (mkCJ (TrieInsert (TrieInsertBinaryConsume history_pointer new_val)) None).

(** [fn make_trie_action] *)
Definition make_trie_action (history_pointer : Blake2b256Hash)
    (init_value : Blake2b256Hash -> res HistoryError (list bytes)) (changes : ChannelChange)
    (remove_action : Blake2b256Hash -> HotStoreTrieAction C P A K)
    (update_action : Blake2b256Hash -> list bytes -> HotStoreTrieAction C P A K) :
  res HistoryError (HotStoreTrieAction C P A K) :=
  init <-! init_value history_pointer;
  let new_val := new_value init changes in
  if decide (new_val = [] /\ init <> []) then Ok (remove_action history_pointer)
  else if decide (init <> new_val) then Ok (update_action history_pointer new_val)
  else Err (MergeError
    "Merging logic error: empty channel change for produce or join when computing trie action.").

(** The changes of the joins that the consume actions call for. *)
Definition push_join (kind : JoinActionKind) (join_data : bytes) (current : ChannelChange) :
  ChannelChange :=
  match kind with
  | AddJoin _ => mkChange (added current ++ [join_data]) (removed current)
  | RemoveJoin _ => mkChange (added current) (removed current ++ [join_data])
  end.
Definition join_changes (joins_channels_to_body_map : gmap (list Blake2b256Hash) bytes)
    (joins_changes : gmap Blake2b256Hash ChannelChange) (a : ConsumeAndJoinActions) :
  res HistoryError (gmap Blake2b256Hash ChannelChange) :=
  match join_action a with
  | None => Ok joins_changes
  | Some kind =>
    let join_channels := match kind with AddJoin chs | RemoveJoin chs => chs end in
    match joins_channels_to_body_map !! join_channels with
    | Some join_data =>
      Ok (foldl (fun m channel =>
            <[channel := push_join kind join_data (default empty_change (m !! channel))]> m)
            joins_changes join_channels)
    | None => Err (MergeError
        "No ByteVector value for join found when merging when computing trie action.")
    end
  end.

(** [fn compute_trie_actions] *)
Definition sorted_cont_changes (changes : StateChange) :
  list (list Blake2b256Hash * ChannelChange) :=
  sort_by (fun a b => bytes_cmp (hash_from_hashes cd a.1) (hash_from_hashes cd b.1))
    (map_to_list (cont_changes changes)).
Definition compute_trie_actions (changes : StateChange) (base_reader : HistoryReader C)
    (mergeable_chs : NumberChannelsDiff)
    (handle_channel_change : Blake2b256Hash -> ChannelChange -> NumberChannelsDiff ->
       res HistoryError (option (HotStoreTrieAction C P A K))) :
  res HistoryError (list (HotStoreTrieAction C P A K)) :=
  consume_with_join_actions <-!
    res_mapM (consume_with_join_action base_reader) (sorted_cont_changes changes);
  let consume_trie_actions := consume_action <$> consume_with_join_actions in
  produce_trie_actions <-! res_mapM (fun '(history_pointer, change) =>
    action <-! handle_channel_change history_pointer change mergeable_chs;
    match action with
    | Some action => Ok action
    | None => make_trie_action history_pointer (data_binary base_reader) change
        (fun hash => TrieDelete (TrieDeleteProduce hash))
        (fun hash data => TrieInsert (TrieInsertBinaryProduce hash data))
    end) (btree_entries (datums_changes changes));
  joins_changes <-!
    res_foldM (join_changes (consume_channels_to_join_serialized_map changes)) ∅
      consume_with_join_actions;
  joins_trie_actions <-! res_mapM (fun '(history_pointer, change) =>
    make_trie_action history_pointer (joins_binary base_reader) change
      (fun hash => TrieDelete (TrieDeleteJoins hash))
      (fun hash joins => TrieInsert (TrieInsertBinaryJoins hash joins)))
    (btree_entries joins_changes);
  Ok (produce_trie_actions ++ consume_trie_actions ++ joins_trie_actions).
End changes.
