(* ===== verification/StateChangeSpec.v ===== *)
(** * State changes as multisets

    The multiset differences of [StateChange], what [ChannelChange::combine] and
    [StateChange::combine] compute, and the functional behaviour of [StateChange::new] and
    [compute_trie_actions]. *)
From S2P Require Import Prelude Events HotStoreSig KeyValueStore Serializers HistoryRepo.
From S2P Require Import MergingLogic StateChange.
Open Scope res_scope.

(** ** Occurrences *)

Definition occ (x : bytes) (l : list bytes) : nat :=
  count_occ (fun a b : bytes => decide (a = b)) l x.

Lemma occ_empty x : occ x [] = 0.
Proof. done. Qed.
Lemma occ_app x l k : occ x (l ++ k) = occ x l + occ x k.
Proof. apply count_occ_app. Qed.
Lemma occ_cons x y l : occ x (y :: l) = (if decide (x = y) then 1 else 0) + occ x l.
Proof. unfold occ. simpl. repeat case_decide; congruence || lia. Qed.
Lemma occ_singleton x y : occ x [y] = if decide (x = y) then 1 else 0.
Proof. rewrite occ_cons. unfold occ. simpl. lia. Qed.
Lemma occ_perm l k : l ≡ₚ k <-> forall x, occ x l = occ x k.
Proof. apply Permutation_count_occ. Qed.
Lemma occ_nil l : (forall x, occ x l = 0) -> l = [].
Proof. destruct l as [|y l]; [done|]. intros Hl. specialize (Hl y). rewrite occ_cons in Hl.
  rewrite decide_True in Hl by done. lia. Qed.
Lemma occ_pos x l : 0 < occ x l <-> x ∈ l.
Proof. unfold occ. rewrite list_elem_of_In. symmetry. apply count_occ_In. Qed.

Lemma remove_counts_occ to_remove x :
  default 0 (remove_counts to_remove !! x) = occ x to_remove.
Proof.
  unfold remove_counts.
  assert (forall m : gmap bytes nat, default 0 (foldl (fun counts item =>
    <[item := S (default 0 (counts !! item))]> counts) m to_remove !! x) =
    default 0 (m !! x) + occ x to_remove) as Hm; [|by rewrite Hm, lookup_empty].
  induction to_remove as [|y l IH]; intros m; [simpl; unfold occ; simpl; lia|].
  cbn [foldl]. rewrite IH, occ_cons. case_decide as Hx.
  - subst. rewrite lookup_insert_eq. simpl. lia.
  - rewrite lookup_insert_ne by done. lia.
Qed.

(** [multiset_diff], which counts in one hash map, removes each item as often as it occurs
    in the list to remove. *)
Lemma multiset_diff_occ from to_remove x :
  occ x (multiset_diff from to_remove) = occ x from - occ x to_remove.
Proof.
  unfold multiset_diff. rewrite <- (remove_counts_occ to_remove x).
  assert (forall counts res, occ x (foldl diff_step (counts, res) from).2 =
    occ x res + (occ x from - default 0 (counts !! x))) as Hf.
  { induction from as [|y from IH]; intros counts res; [simpl; unfold occ; simpl; lia|].
    cbn [foldl]. unfold diff_step at 2. rewrite occ_cons.
    destruct (counts !! y) as [[|c]|] eqn:Ey; rewrite IH, ?occ_app, ?occ_singleton;
      case_decide as Hx; subst; rewrite ?lookup_insert_eq, ?lookup_insert_ne, ?Ey by done;
      simpl; lia. }
  by rewrite Hf.
Qed.

Lemma vec_diff_occ from to_remove x :
  occ x (vec_diff from to_remove) = occ x from - occ x to_remove.
Proof.
  unfold vec_diff. revert from. induction to_remove as [|y l IH]; intros from.
  { simpl. unfold occ. simpl. lia. }
  cbn [foldl]. rewrite IH, occ_cons.
  destruct (position (fun x => bool_decide (x = y)) from) as [pos|] eqn:Ep.
  - apply position_Some in Ep as (z & Hz & Hy%bool_decide_eq_true & _). subst z.
    assert (occ x from = (if decide (x = y) then 1 else 0) + occ x (delete pos from)) as ->.
    { rewrite <- occ_cons. apply occ_perm. by apply delete_Permutation. }
    lia.
  - case_decide as Hx; [subst|lia].
    assert (occ y from = 0); [|lia]. destruct (decide (0 < occ y from)) as [Hp|]; [|lia].
    apply occ_pos in Hp. rewrite position_None in Ep.
    specialize (Ep y Hp). by rewrite bool_decide_eq_false in Ep.
Qed.

(** Applying the change between two rows to the first gives the second. *)
Lemma new_value_roundtrip start end_ :
  new_value start (mkChange (multiset_diff end_ start) (multiset_diff start end_)) ≡ₚ end_.
Proof.
  apply occ_perm. intros x. unfold new_value. simpl.
  rewrite occ_app, !multiset_diff_occ. lia.
Qed.

Lemma combine_change_occ c d x :
  occ x (added (combine_change c d)) = occ x (added c) `max` occ x (added d) /\
  occ x (removed (combine_change c d)) = occ x (removed c) `max` occ x (removed d).
Proof. simpl. rewrite !occ_app, !vec_diff_occ. lia. Qed.

(** ** The union of state changes *)

Section union.
Context {X : Type} `{Countable X}.
Implicit Types m : gmap X ChannelChange.

Definition change_at m (k : X) : ChannelChange := default empty_change (m !! k).

Lemma combine_entries_lookup (l : list (X * ChannelChange)) m k :
  NoDup l.*1 ->
  foldl combine_entry m l !! k =
  match m !! k, (list_to_map l : gmap X ChannelChange) !! k with
  | Some a, Some b => Some (combine_change a b)
  | Some a, None => Some a
  | None, o => o
  end.
Proof.
  revert m. induction l as [|[j c] l IH]; intros m Hnd.
  { simpl. rewrite lookup_empty. by destruct (m !! k). }
  apply NoDup_cons in Hnd as [Hj Hnd]. cbn [foldl list_to_map foldr]. rewrite IH by done.
  apply (not_elem_of_list_to_map_1 (M:=gmap X)) in Hj. simpl in Hj. unfold combine_entry. simpl.
  destruct (decide (k = j)) as [->|Hne].
  - rewrite lookup_insert_eq, Hj. by destruct (m !! j); rewrite lookup_insert_eq.
  - rewrite !lookup_insert_ne by done.
    by destruct (m !! j); rewrite lookup_insert_ne by done.
Qed.
Lemma combine_entries_occ m m' k x :
  let c := change_at (foldl combine_entry m (map_to_list m')) k in
  occ x (added c) = occ x (added (change_at m k)) `max` occ x (added (change_at m' k)) /\
  occ x (removed c) = occ x (removed (change_at m k)) `max` occ x (removed (change_at m' k)).
Proof.
  cbn zeta. unfold change_at. rewrite combine_entries_lookup by apply NoDup_fst_map_to_list.
  rewrite list_to_map_to_list. destruct (m !! k), (m' !! k); simpl.
  - apply combine_change_occ.
  - rewrite ?occ_empty. lia.
  - rewrite ?occ_empty. lia.
  - rewrite ?occ_empty. lia.
Qed.
End union.

(** The state changes of several chains, combined in order. *)
Definition combine_all_changes (l : list StateChange) : StateChange :=
  foldl combine_state_change empty_state_change l.

(** Combining the state changes of several chains takes, for every row and every value,
    the largest number of times that one of them adds or removes it; so the order in which
    they are combined does not matter and the same change from two sibling blocks counts
    once. *)
Theorem combined_changes_max (l : list StateChange) (h : Blake2b256Hash)
    (cs : list Blake2b256Hash) (x : bytes) :
  let all := combine_all_changes l in
  let most (f : StateChange -> list bytes) := max_list ((fun s => occ x (f s)) <$> l) in
  occ x (added (change_at (datums_changes all) h)) =
    most (fun s => added (change_at (datums_changes s) h)) /\
  occ x (removed (change_at (datums_changes all) h)) =
    most (fun s => removed (change_at (datums_changes s) h)) /\
  occ x (added (change_at (cont_changes all) cs)) =
    most (fun s => added (change_at (cont_changes s) cs)) /\
  occ x (removed (change_at (cont_changes all) cs)) =
    most (fun s => removed (change_at (cont_changes s) cs)).
Proof.
  cbn zeta. unfold combine_all_changes.
  assert (forall s0 (f : StateChange -> list bytes),
    (forall s t, occ x (f (combine_state_change s t)) = occ x (f s) `max` occ x (f t)) ->
    occ x (f (foldl combine_state_change s0 l)) =
    occ x (f s0) `max` max_list ((fun s => occ x (f s)) <$> l)) as Hl.
  { intros s0 f Hf. revert s0. induction l as [|s l IH]; intros s0; csimpl; [lia|].
    rewrite IH, Hf. lia. }
  assert (forall f : StateChange -> list bytes, f empty_state_change = [] ->
    (forall s t, occ x (f (combine_state_change s t)) = occ x (f s) `max` occ x (f t)) ->
    occ x (f (foldl combine_state_change empty_state_change l)) =
    max_list ((fun s => occ x (f s)) <$> l)) as Hl'.
  { intros f H0 Hf. by rewrite Hl, H0. }
  split_and!;
    [apply (Hl' (fun s => added (change_at (datums_changes s) h)))
    |apply (Hl' (fun s => removed (change_at (datums_changes s) h)))
    |apply (Hl' (fun s => added (change_at (cont_changes s) cs)))
    |apply (Hl' (fun s => removed (change_at (cont_changes s) cs)))];
    try (intros s t; apply combine_entries_occ); unfold change_at; simpl; by rewrite lookup_empty.
Qed.

(** ** Filling maps *)

Lemma res_foldM_insert {E X V Y} `{Countable X} (key : Y -> X) (val : Y -> V)
    (f : gmap X V -> Y -> res E (gmap X V)) l (m : gmap X V) :
  (forall m y, y ∈ l -> f m y = Ok (<[key y := val y]> m)) ->
  res_foldM f m l = Ok (foldl (fun m y => <[key y := val y]> m) m l).
Proof.
  revert m. induction l as [|y l IH]; intros m Hf; [done|]. simpl.
  rewrite Hf by left. simpl. apply IH. intros m' y' Hy. apply Hf. by right.
Qed.
Lemma foldl_insert_keys_lookup {X V} `{Countable X} (g : X -> V) l (m : gmap X V) k :
  foldl (fun m y => <[y := g y]> m) m l !! k = if decide (k ∈ l) then Some (g k) else m !! k.
Proof.
  revert m. induction l as [|y l IH]; intros m; simpl; [done|].
  rewrite IH. destruct (decide (k ∈ l)) as [Hk|Hk].
  - by rewrite decide_True by (by right).
  - destruct (decide (k = y)) as [->|Hne].
    + rewrite lookup_insert_eq. by rewrite decide_True by left.
    + rewrite lookup_insert_ne by done. by rewrite decide_False by set_solver.
Qed.
Lemma fill_map_spec {X V} `{Countable X} (f : X -> res HistoryError V) (g : X -> V) keys :
  (forall k, k ∈ keys -> f k = Ok (g k)) ->
  exists m, fill_map f keys = Ok m /\
    forall k, m !! k = if decide (k ∈ keys) then Some (g k) else None.
Proof.
  intros Hf. unfold fill_map.
  rewrite (res_foldM_insert (fun k => k) g) by (intros m k Hk; by rewrite Hf).
  eexists. split; [done|]. intros k. by rewrite foldl_insert_keys_lookup, lookup_empty.
Qed.

(** ** The functional behaviour of [StateChange::new] *)

Definition value_change (start end_ : list bytes) : ChannelChange :=
  mkChange (multiset_diff end_ start) (multiset_diff start end_).

Lemma value_change_is_change start end_ :
  is_change (value_change start end_) <-> ~ start ≡ₚ end_.
Proof.
  unfold is_change. rewrite occ_perm. split.
  - intros Hc Heq. apply Hc. simpl. split; apply occ_nil; intros x;
      rewrite multiset_diff_occ, Heq; lia.
  - intros Hne [Ha Hr]. apply Hne. intros x.
    apply (f_equal (occ x)) in Ha, Hr. simpl in Ha, Hr. rewrite multiset_diff_occ in Ha, Hr.
    unfold occ in *. simpl in *. lia.
Qed.

Section behaviour.
Context {C P A K : Type} (cd : Codecs C P A K) (rc : RowCodecs C P A K).
Abbreviation hash_of := (hash_from_hashes cd).
Context (pre post : HistoryReader C) (e : EventLogIndex).

(** The rows that the readers return. *)
Context (dpre dpost cpre cpost jpre jpost : Blake2b256Hash -> list bytes).
Record reads (r : HistoryReader C) (d c j : Blake2b256Hash -> list bytes) : Prop := {
  reads_data : forall h, data_binary r h = Ok (d h);
  reads_cont : forall h, continuations_binary r h = Ok (c h);
  reads_joins : forall h, joins_binary r h = Ok (j h);
}.
Context (Hpre : reads pre dpre cpre jpre) (Hpost : reads post dpost cpost jpost).

(** The serialized join of a vector of channel hashes. *)
Context (body : list Blake2b256Hash -> bytes).
Context (Hjoin : forall cs, cs ∈ channels_of_consumes_affected e ->
  join_entry cd rc pre post cs = Ok (cs, body cs)).

Lemma StateChange_new_spec :
  exists sc, StateChange_new cd rc pre post e = Ok sc /\
    (forall h ch, datums_changes sc !! h = Some ch <->
       h ∈ unique_produce_channels e /\ ch = value_change (dpre h) (dpost h) /\
       ~ dpre h ≡ₚ dpost h) /\
    (forall cs ch, cont_changes sc !! cs = Some ch <->
       cs ∈ channels_of_consumes_affected e /\
       ch = value_change (cpre (hash_of cs)) (cpost (hash_of cs)) /\
       ~ cpre (hash_of cs) ≡ₚ cpost (hash_of cs)) /\
    (forall cs, cs ∈ channels_of_consumes_affected e ->
       consume_channels_to_join_serialized_map sc !! cs = Some (body cs)) /\
    (forall cs b, consume_channels_to_join_serialized_map sc !! cs = Some b ->
       cs ∈ channels_of_consumes_affected e /\ b = body cs).
Proof.
  unfold StateChange_new.
  destruct (fill_map_spec (fun h => compute_value_change h (data_binary pre) (data_binary post))
    (fun h => value_change (dpre h) (dpost h)) (elements (unique_produce_channels e)))
    as (dm & -> & Hdm).
  { intros h _. unfold compute_value_change.
    by rewrite (reads_data _ _ _ _ Hpre), (reads_data _ _ _ _ Hpost). }
  destruct (fill_map_spec (fun cs => compute_value_change (hash_of cs) (continuations_binary pre)
    (continuations_binary post)) (fun cs => value_change (cpre (hash_of cs)) (cpost (hash_of cs)))
    (elements (channels_of_consumes_affected e))) as (cm & Hcm' & Hcm).
  { intros h _. unfold compute_value_change.
    by rewrite (reads_cont _ _ _ _ Hpre), (reads_cont _ _ _ _ Hpost). }
  cbn [res_bind]. rewrite Hcm'. cbn [res_bind].
  rewrite (res_foldM_insert (fun cs => cs) body); cycle 1.
  { intros m cs Hcs%elem_of_elements. by rewrite Hjoin. }
  cbn [res_bind]. eexists. split; [done|]. split_and!; simpl.
  - intros h ch. rewrite map_lookup_filter_Some, Hdm. simpl.
    case_decide as Hin; rewrite elem_of_elements in Hin; [|naive_solver].
    rewrite <- value_change_is_change. naive_solver.
  - intros cs ch. rewrite map_lookup_filter_Some, Hcm. simpl.
    case_decide as Hin; rewrite elem_of_elements in Hin; [|naive_solver].
    rewrite <- value_change_is_change. naive_solver.
  - intros cs Hcs. rewrite foldl_insert_keys_lookup, decide_True by (by apply elem_of_elements).
    done.
  - intros cs b. rewrite foldl_insert_keys_lookup, lookup_empty.
    case_decide as Hin; [|done]. apply elem_of_elements in Hin. by intros [= <-].
Qed.
End behaviour.

(** ** Trie actions *)

Section actions.
Context {C P A K : Type} (cd : Codecs C P A K).
Abbreviation hash_of := (hash_from_hashes cd).

(** The action for a row that changes to a permutation of [target]. *)
Lemma make_trie_action_spec h init_value ch init target
    (rm : Blake2b256Hash -> HotStoreTrieAction C P A K) up :
  init_value h = Ok init -> new_value init ch ≡ₚ target -> ~ init ≡ₚ target ->
  exists row, row ≡ₚ target /\
    make_trie_action h init_value ch rm up = Ok (if decide (target = []) then rm h else up h row).
Proof.
  intros Hi Hnew Hne. exists (new_value init ch). split; [done|].
  unfold make_trie_action. rewrite Hi. cbn [res_bind].
  destruct (decide (target = [])) as [->|Ht].
  - apply Permutation_nil_r in Hnew. rewrite Hnew.
    rewrite decide_True; [done|]. split; [done|]. intros ->. by apply Hne.
  - rewrite decide_False; [|intros [E _]; rewrite E in Hnew; by apply Permutation_nil_l in Hnew].
    rewrite decide_True; [done|]. intros E. rewrite <- E in Hnew. done.
Qed.

(** The action and the join action for a vector whose continuations change to [target]. *)
Definition join_kind (cs : list Blake2b256Hash) (init target : list bytes) :
  option JoinActionKind :=
  if decide (init = []) then Some (AddJoin cs)
  else if decide (target = []) then Some (RemoveJoin cs) else None.
Lemma consume_action_spec (base : HistoryReader C) cs ch init target :
  continuations_binary base (hash_of cs) = Ok init ->
  new_value init ch ≡ₚ target -> ~ init ≡ₚ target ->
  exists row, row ≡ₚ target /\
    consume_with_join_action (P:=P) (A:=A) (K:=K) cd base (cs, ch) = Ok (mkCJ
      (if decide (target = []) then TrieDelete (TrieDeleteConsume (hash_of cs))
       else TrieInsert (TrieInsertBinaryConsume (hash_of cs) row))
      (join_kind cs init target)).
Proof.
  intros Hi Hnew Hne. exists (new_value init ch). split; [done|].
  unfold consume_with_join_action, join_kind. rewrite Hi. cbn [res_bind].
  rewrite decide_False by (intros E; rewrite <- E in Hnew; done).
  assert (new_value init ch = [] <-> target = []) as Hnil.
  { split; intros E; rewrite E in Hnew.
    - by apply Permutation_nil_l in Hnew.
    - by apply Permutation_nil_r in Hnew. }
  destruct (decide (init = [])) as [->|Hi'].
  - rewrite decide_False; [done|]. intros ->. by apply Hne.
  - destruct (decide (target = [])) as [Ht|Ht].
    + by rewrite decide_True by tauto.
    + by rewrite decide_False by tauto.
Qed.

(** The vectors whose join is added at, or removed from, the channel [h]. *)
Definition joins_added (h : Blake2b256Hash) (k : option JoinActionKind) :
  option (list Blake2b256Hash) :=
  match k with Some (AddJoin cs) => if decide (h ∈ cs) then Some cs else None | _ => None end.
Definition joins_removed (h : Blake2b256Hash) (k : option JoinActionKind) :
  option (list Blake2b256Hash) :=
  match k with Some (RemoveJoin cs) => if decide (h ∈ cs) then Some cs else None | _ => None end.
Definition kind_channels (k : option JoinActionKind) : option (list Blake2b256Hash) :=
  match k with Some (AddJoin cs) | Some (RemoveJoin cs) => Some cs | None => None end.

Lemma push_joins_lookup (kind : JoinActionKind) (data : bytes) (chs : list Blake2b256Hash)
    (m : gmap Blake2b256Hash ChannelChange) (h : Blake2b256Hash) :
  NoDup chs ->
  foldl (fun m channel =>
    <[channel := push_join kind data (default empty_change (m !! channel))]> m) m chs !! h =
  if decide (h ∈ chs) then Some (push_join kind data (default empty_change (m !! h)))
  else m !! h.
Proof.
  intros Hnd. revert m. induction Hnd as [|c chs Hc Hnd IH]; intros m; [done|]. simpl.
  rewrite IH. destruct (decide (h ∈ chs)) as [Hh|Hh].
  - rewrite decide_True by (by right). rewrite lookup_insert_ne by congruence. done.
  - destruct (decide (h = c)) as [->|Hne].
    + rewrite lookup_insert_eq. by rewrite decide_True by left.
    + rewrite lookup_insert_ne by done. by rewrite decide_False by set_solver.
Qed.

Lemma omap_cons_nonempty {X Y} (f : X -> option Y) x l :
  omap f (x :: l) <> [] <-> f x <> None \/ omap f l <> [].
Proof. csimpl. destruct (f x); naive_solver. Qed.

Lemma join_changes_spec (jm : gmap (list Blake2b256Hash) bytes) body
    (acts : list (ConsumeAndJoinActions (C:=C) (P:=P) (A:=A) (K:=K))) m :
  (forall a cs, a ∈ acts -> kind_channels (join_action a) = Some cs ->
     NoDup cs /\ jm !! cs = Some (body cs)) ->
  exists m', res_foldM (join_changes jm) m acts = Ok m' /\ forall h,
    default empty_change (m' !! h) =
      mkChange (added (default empty_change (m !! h)) ++
                  (body <$> omap (joins_added h) (join_action <$> acts)))
               (removed (default empty_change (m !! h)) ++
                  (body <$> omap (joins_removed h) (join_action <$> acts))) /\
    (is_Some (m' !! h) <-> is_Some (m !! h) \/
       omap (joins_added h) (join_action <$> acts) <> [] \/
       omap (joins_removed h) (join_action <$> acts) <> []).
Proof.
  revert m. induction acts as [|a acts IH]; intros m Hacts.
  { exists m. split; [done|]. intros h. csimpl. rewrite !app_nil_r. split; [|tauto].
    by destruct (default empty_change (m !! h)). }
  assert (exists m1, join_changes jm m a = Ok m1 /\ forall h,
    default empty_change (m1 !! h) =
      mkChange (added (default empty_change (m !! h)) ++
                  (body <$> option_list (joins_added h (join_action a))))
               (removed (default empty_change (m !! h)) ++
                  (body <$> option_list (joins_removed h (join_action a)))) /\
    (is_Some (m1 !! h) <-> is_Some (m !! h) \/ joins_added h (join_action a) <> None \/
       joins_removed h (join_action a) <> None)) as (m1 & Hm1 & Hs1).
  { specialize (Hacts a). unfold join_changes.
    destruct (join_action a) as [[cs|cs]|] eqn:Ea; simpl in Hacts.
    - destruct (Hacts cs) as [Hnd ->]; [left|done|]. eexists. split; [done|]. intros h.
      rewrite push_joins_lookup by done. simpl. case_decide; csimpl; rewrite !app_nil_r.
      + split; [done|]. split; [intros _; right; left; done|eauto].
      + split; [by destruct (default empty_change (m !! h))|]. naive_solver.
    - destruct (Hacts cs) as [Hnd ->]; [left|done|]. eexists. split; [done|]. intros h.
      rewrite push_joins_lookup by done. simpl. case_decide; csimpl; rewrite !app_nil_r.
      + split; [done|]. split; [intros _; right; right; done|eauto].
      + split; [by destruct (default empty_change (m !! h))|]. naive_solver.
    - exists m. split; [done|]. intros h. csimpl. rewrite !app_nil_r.
      split; [by destruct (default empty_change (m !! h))|]. naive_solver. }
  destruct (IH m1) as (m' & Hm' & Hs).
  { intros a' cs Ha'. apply Hacts. by right. }
  exists m'. split; [simpl; by rewrite Hm1|]. intros h.
  destruct (Hs1 h) as [E1 I1], (Hs h) as [E I]. rewrite fmap_cons, !omap_cons_nonempty. csimpl.
  rewrite E, I, E1, I1. simpl. rewrite <- !app_assoc. split; [|clear; tauto].
  f_equal; [destruct (joins_added h (join_action a))|destruct (joins_removed h (join_action a))];
    done.
Qed.
End actions.
