(* ===== verification/StateChangeThms.v ===== *)
(** * Applying a state change to the state it was computed from

    The state change of a block, applied by [compute_trie_actions] to the pre-state of the
    block, gives the post-state: first row by row, then for the root hash of the history
    repository.  The log of the block has to cover the rows that differ, and the joins of
    a channel have to be the vectors of channels with continuations that contain it. *)
From S2P Require Import Prelude Events HotStoreSig KeyValueStore Serializers HistoryRepo.
From S2P Require Import RadixTree MergingLogic MergingCombine StateChange StateChangeSpec.
Open Scope res_scope.

(** ** Rows and the actions that write them *)

Inductive RowKind := RowData | RowConts | RowJoins.
#[global] Instance RowKind_eq_dec : EqDecision RowKind.
Proof. solve_decision. Defined.
Abbreviation rows := (RowKind -> Blake2b256Hash -> list bytes).
Abbreviation row_key := (RowKind * Blake2b256Hash)%type.

Section rows.
Context {C P A K : Type}.
Definition insert_row (k : row_key) (row : list bytes) : HotStoreTrieAction C P A K :=
  match k.1 with
  | RowData => TrieInsert (TrieInsertBinaryProduce k.2 row)
  | RowConts => TrieInsert (TrieInsertBinaryConsume k.2 row)
  | RowJoins => TrieInsert (TrieInsertBinaryJoins k.2 row)
  end.
Definition delete_row (k : row_key) : HotStoreTrieAction C P A K :=
  match k.1 with
  | RowData => TrieDelete (TrieDeleteProduce k.2)
  | RowConts => TrieDelete (TrieDeleteConsume k.2)
  | RowJoins => TrieDelete (TrieDeleteJoins k.2)
  end.
(** The action that gives the row [k] its value in [post], in the order [kr.2]. *)
Definition row_action (post : rows) (kr : row_key * list bytes) : HotStoreTrieAction C P A K :=
  if decide (post kr.1.1 kr.1.2 = []) then delete_row kr.1 else insert_row kr.1 kr.2.

(** The actions turn the rows [pre] into the rows [post]. *)
Record turns (pre post : rows) (ks : list (row_key * list bytes)) : Prop := {
  turn_rows : forall kd h row, ((kd, h), row) ∈ ks -> row ≡ₚ post kd h;
  turn_keys : NoDup ks.*1;
  turn_all : forall kd h, (kd, h) ∈ ks.*1 <-> ~ pre kd h ≡ₚ post kd h;
}.

Lemma mapM_row_actions {X} (post : rows) (key : X -> row_key)
    (f : X -> res HistoryError (HotStoreTrieAction C P A K)) l :
  (forall x, x ∈ l -> exists row, row ≡ₚ post (key x).1 (key x).2 /\
     f x = Ok (row_action post (key x, row))) ->
  exists ks, res_mapM f l = Ok (row_action post <$> ks) /\ ks.*1 = key <$> l /\
    forall kd h row, ((kd, h), row) ∈ ks -> row ≡ₚ post kd h.
Proof.
  induction l as [|x l IH]; intros Hf.
  { exists []. split_and!; [done..|]. intros ???; set_solver. }
  destruct (Hf x) as (row & Hrow & Hx); [left|].
  destruct IH as (ks & Hks & Hkeys & Hrows); [intros y Hy; apply Hf; by right|].
  exists ((key x, row) :: ks). split_and!.
  - simpl. rewrite Hx. simpl. by rewrite Hks.
  - csimpl. by rewrite Hkeys.
  - intros kd h r [E|Hr]%elem_of_cons; [|by apply Hrows].
    injection E as Ek ->. rewrite <- Ek in Hrow. done.
Qed.
End rows.

(** ** The rows of a block *)

Section replay.
Context {C P A K : Type} (cd : Codecs C P A K) (rc : RowCodecs C P A K) `{!RowCodecsLaws rc}.
Abbreviation hash_of := (hash_from_hashes cd).
Context (pre post : HistoryReader C) (rpre rpost : rows) (e : EventLogIndex).

(** The rows that a reader returns, the joins also decoded. *)
Record shows (r : HistoryReader C) (rw : rows) : Prop := {
  shows_rows : reads r (rw RowData) (rw RowConts) (rw RowJoins);
  shows_joins : forall h, exists js,
    joins_proj r h = Ok js /\ ser_join_row rc <$> js ≡ₚ rw RowJoins h;
}.

(** The vectors of channels in use, by their hashes, with their channels. *)
Context (V : gset (list Blake2b256Hash)) (chans : list Blake2b256Hash -> list C).
Definition join_body (cs : list Blake2b256Hash) : bytes := ser_join_row rc (chans cs).
(** The vectors with continuations that contain [h]. *)
Definition waiting (rw : rows) (h : Blake2b256Hash) : gset (list Blake2b256Hash) :=
  filter (fun cs => h ∈ cs /\ rw RowConts (hash_of cs) <> []) V.

Record vectors_ok : Prop := {
  vec_nonempty : forall cs, cs ∈ V -> cs <> [];
  vec_NoDup : forall cs, cs ∈ V -> NoDup cs;
  vec_chans : forall cs, cs ∈ V -> hash_vec cd (chans cs) = cs;
  vec_inj : forall cs cs', cs ∈ V -> cs' ∈ V -> hash_of cs = hash_of cs' -> cs = cs';
}.
(** The joins of a channel are those of the vectors that wait on it. *)
Definition joins_follow (rw : rows) : Prop :=
  forall h, rw RowJoins h ≡ₚ join_body <$> elements (waiting rw h).

(** The log names the rows that differ; its vectors have continuations before or after. *)
Record log_covers : Prop := {
  cover_data : forall h, h ∉ unique_produce_channels e -> rpre RowData h ≡ₚ rpost RowData h;
  cover_conts : forall h, (forall cs, cs ∈ channels_of_consumes_affected e -> h <> hash_of cs) ->
    rpre RowConts h ≡ₚ rpost RowConts h;
  cover_vectors : channels_of_consumes_affected e ⊆ V;
  cover_live : forall cs, cs ∈ channels_of_consumes_affected e ->
    rpre RowConts (hash_of cs) <> [] \/ rpost RowConts (hash_of cs) <> [];
}.

Context (Hpre : shows pre rpre) (Hpost : shows post rpost) (HV : vectors_ok).
Context (Hjpre : joins_follow rpre) (Hjpost : joins_follow rpost) (Hlog : log_covers).

Lemma ser_join_inj j j' : ser_join_row rc j = ser_join_row rc j' -> j = j'.
Proof. intros E. apply (f_equal (de_join_row rc)) in E. rewrite !join_row_roundtrip in E. congruence. Qed.
Lemma join_body_inj cs cs' : cs ∈ V -> cs' ∈ V -> join_body cs = join_body cs' -> cs = cs'.
Proof.
  intros Hcs Hcs' E%ser_join_inj. rewrite <- (vec_chans HV cs), <- (vec_chans HV cs') by done.
  by rewrite E.
Qed.
Lemma elem_of_waiting rw h cs :
  cs ∈ waiting rw h <-> cs ∈ V /\ h ∈ cs /\ rw RowConts (hash_of cs) <> [].
Proof. unfold waiting. rewrite elem_of_filter. tauto. Qed.
Lemma vec_sorted cs : cs ∈ V -> sort_by bytes_cmp cs = cs.
Proof.
  intros Hcs. rewrite <- (vec_chans HV cs Hcs) at 1. unfold hash_vec at 1.
  rewrite (sort_by_unique bytes_cmp _ (hash cd <$> chans cs)) by apply sort_by_perm.
  by apply (vec_chans HV).
Qed.

(** The join of an affected vector is found among the joins of its first channel. *)
Lemma join_entry_found cs :
  cs ∈ channels_of_consumes_affected e -> join_entry cd rc pre post cs = Ok (cs, join_body cs).
Proof.
  intros Hcs. pose proof (cover_vectors Hlog _ Hcs) as HcV.
  destruct cs as [|h cs0] eqn:Ecs; [by destruct (vec_nonempty HV [] HcV)|].
  rewrite <- Ecs in *. assert (h ∈ cs) as Hh by (rewrite Ecs; left).
  unfold join_entry. rewrite Ecs at 1. simpl.
  destruct (shows_joins _ _ Hpre h) as (js & Hjs & Hp), (shows_joins _ _ Hpost h) as (js' & Hjs' & Hp').
  rewrite Hjs, Hjs'. simpl.
  assert (forall j, j ∈ js ++ js' -> exists cs', cs' ∈ V /\ j = chans cs') as Hin.
  { intros j [Hj|Hj]%elem_of_app; apply (list_elem_of_fmap_2 (ser_join_row rc)) in Hj;
      [rewrite Hp, (Hjpre h) in Hj|rewrite Hp', (Hjpost h) in Hj];
      apply list_elem_of_fmap in Hj as (cs' & Hj%ser_join_inj & Hcs');
      apply elem_of_elements, elem_of_waiting in Hcs' as [? _]; eauto. }
  assert (chans cs ∈ js ++ js') as Hmem.
  { apply elem_of_app. destruct (cover_live Hlog cs Hcs) as [Hl|Hl]; [left|right].
    - assert (join_body cs ∈ rpre RowJoins h) as Hb.
      { rewrite (Hjpre h). apply list_elem_of_fmap_2, elem_of_elements. by apply elem_of_waiting. }
      rewrite <- Hp in Hb. apply list_elem_of_fmap in Hb as (j & E%ser_join_inj & Hj). by subst.
    - assert (join_body cs ∈ rpost RowJoins h) as Hb.
      { rewrite (Hjpost h). apply list_elem_of_fmap_2, elem_of_elements. by apply elem_of_waiting. }
      rewrite <- Hp' in Hb. apply list_elem_of_fmap in Hb as (j & E%ser_join_inj & Hj). by subst. }
  destruct (find (join_matches cd cs) (js ++ js')) as [j|] eqn:Ef; simpl.
  - apply find_some in Ef as [Hj%list_elem_of_In Hm%bool_decide_eq_true].
    destruct (Hin j Hj) as (cs' & HV' & ->). rewrite vec_sorted in Hm by done.
    change (cs = hash_vec cd (chans cs')) in Hm. rewrite (vec_chans HV) in Hm by done.
    subst cs'. by rewrite vec_sorted.
  - apply list_elem_of_In in Hmem. pose proof (find_none _ _ Ef _ Hmem) as Hn.
    apply bool_decide_eq_false in Hn. destruct Hn. rewrite vec_sorted by done.
    symmetry. apply (vec_chans HV cs HcV).
Qed.

Lemma occ_NoDup x (l : list bytes) : NoDup l -> occ x l = if decide (x ∈ l) then 1 else 0.
Proof.
  induction 1 as [|y l Hy Hl IH]; [done|]. rewrite occ_cons, IH.
  destruct (decide (x = y)) as [->|Hne].
  - rewrite (decide_False (P:=y ∈ l)) by done. by rewrite decide_True by left.
  - destruct (decide (x ∈ l)).
    + by rewrite decide_True by (by right).
    + by rewrite decide_False by set_solver.
Qed.
Lemma list_empty_iff_none {X} (l : list X) : (forall x, x ∈ l -> False) -> l = [].
Proof. destruct l as [|x l]; [done|]. intros Hl. destruct (Hl x). left. Qed.
Lemma NoDup_bodies (l : list (list Blake2b256Hash)) :
  NoDup l -> (forall cs, cs ∈ l -> cs ∈ V) -> NoDup (join_body <$> l).
Proof.
  intros Hnd Hl. apply NoDup_fmap_2_strong; [|done]. intros cs cs' Hcs Hcs'.
  apply join_body_inj; auto.
Qed.

(** The vectors whose continuations change. *)
Definition changed (cs : list Blake2b256Hash) : Prop :=
  cs ∈ channels_of_consumes_affected e /\
  ~ rpre RowConts (hash_of cs) ≡ₚ rpost RowConts (hash_of cs).
Lemma unchanged_conts cs :
  cs ∈ V -> ~ changed cs -> rpre RowConts (hash_of cs) ≡ₚ rpost RowConts (hash_of cs).
Proof.
  intros HcV Hn. destruct (decide (cs ∈ channels_of_consumes_affected e)) as [Hin|Hin].
  - destruct (decide (rpre RowConts (hash_of cs) ≡ₚ rpost RowConts (hash_of cs))); [done|].
    by destruct Hn.
  - apply (cover_conts Hlog). intros cs' Hcs' E. apply (vec_inj HV) in E; [congruence|done|].
    by apply (cover_vectors Hlog).
Qed.

(** The join actions of the changed vectors [l] at the channel [h]. *)
Section joins.
Context (l : list (list Blake2b256Hash)) (Hl : NoDup l) (Hlc : forall cs, cs ∈ l <-> changed cs).
Definition kinds : list (option JoinActionKind) :=
  (fun cs => join_kind cs (rpre RowConts (hash_of cs)) (rpost RowConts (hash_of cs))) <$> l.
Definition added_at (h : Blake2b256Hash) := omap (joins_added h) kinds.
Definition removed_at (h : Blake2b256Hash) := omap (joins_removed h) kinds.

Lemma elem_of_added_at h cs :
  cs ∈ added_at h <-> changed cs /\ h ∈ cs /\ rpre RowConts (hash_of cs) = [].
Proof.
  unfold added_at, kinds. rewrite list_elem_of_omap. setoid_rewrite list_elem_of_fmap. split.
  - intros (k & (cs' & -> & Hcs'%Hlc) & Hk). unfold join_kind in Hk.
    repeat case_decide; simplify_eq/=; repeat case_decide; naive_solver.
  - intros (Hc & Hh & Hp). eexists. split; [exists cs; split; [done|by apply Hlc]|].
    unfold join_kind. rewrite decide_True by done. simpl. by rewrite decide_True.
Qed.
Lemma elem_of_removed_at h cs :
  cs ∈ removed_at h <->
  changed cs /\ h ∈ cs /\ rpre RowConts (hash_of cs) <> [] /\ rpost RowConts (hash_of cs) = [].
Proof.
  unfold removed_at, kinds. rewrite list_elem_of_omap. setoid_rewrite list_elem_of_fmap. split.
  - intros (k & (cs' & -> & Hcs'%Hlc) & Hk). unfold join_kind in Hk.
    repeat case_decide; simplify_eq/=; repeat case_decide; naive_solver.
  - intros (Hc & Hh & Hp & Hq). eexists. split; [exists cs; split; [done|by apply Hlc]|].
    unfold join_kind. rewrite decide_False, decide_True by done. simpl. by rewrite decide_True.
Qed.
Lemma NoDup_omap_kinds (f : option JoinActionKind -> option (list Blake2b256Hash)) :
  (forall cs i t cs', f (join_kind cs i t) = Some cs' -> cs' = cs) -> NoDup (omap f kinds).
Proof.
  intros Hf. unfold kinds. clear Hlc. induction Hl as [|cs l' Hcs Hl' IH]; [constructor|].
  csimpl. destruct (f _) as [cs'|] eqn:E; [|apply IH; done].
  apply Hf in E as ->. apply NoDup_cons. split; [|by apply IH].
  intros (k & (cs' & -> & Hcs')%list_elem_of_fmap & E)%list_elem_of_omap.
  apply Hf in E. by subst.
Qed.
Lemma NoDup_added_at h : NoDup (added_at h).
Proof.
  apply NoDup_omap_kinds. intros cs i t cs'. unfold join_kind, joins_added.
  repeat case_decide; naive_solver.
Qed.
Lemma NoDup_removed_at h : NoDup (removed_at h).
Proof.
  apply NoDup_omap_kinds. intros cs i t cs'. unfold join_kind, joins_removed.
  repeat case_decide; naive_solver.
Qed.

Lemma changed_V cs : changed cs -> cs ∈ V.
Proof. intros [Hc _]. by apply (cover_vectors Hlog). Qed.

(** Who waits after, in terms of who waits before. *)
Lemma waiting_post h cs :
  cs ∈ waiting rpost h <->
  (cs ∈ waiting rpre h /\ cs ∉ removed_at h) \/ cs ∈ added_at h.
Proof.
  rewrite !elem_of_waiting, elem_of_removed_at, elem_of_added_at.
  destruct (decide (changed cs)) as [Hc|Hc].
  - pose proof (changed_V cs Hc) as HcV. pose proof Hc as [Hin Hne].
    destruct (decide (rpre RowConts (hash_of cs) = [])) as [E|E],
      (decide (rpost RowConts (hash_of cs) = [])) as [E'|E']; [|tauto..].
    rewrite E, E' in Hne. by destruct Hne.
  - split.
    + intros (HcV & Hh & Hp). left. split; [|tauto]. split_and!; [done..|].
      intros E. apply Hp. pose proof (unchanged_conts cs HcV Hc) as Hu. rewrite E in Hu.
      by apply Permutation_nil_l in Hu.
    + intros [[(HcV & Hh & Hp) _]|[? _]]; [|done]. split_and!; [done..|].
      intros E. apply Hp. pose proof (unchanged_conts cs HcV Hc) as Hu. rewrite E in Hu.
      by apply Permutation_nil_r in Hu.
Qed.

Lemma joins_new_value h :
  new_value (rpre RowJoins h)
    (mkChange (join_body <$> added_at h) (join_body <$> removed_at h)) ≡ₚ rpost RowJoins h.
Proof.
  apply occ_perm. intros x. unfold new_value. cbn [added removed].
  rewrite occ_app, multiset_diff_occ.
  rewrite (proj1 (occ_perm _ _) (Hjpre h)), (proj1 (occ_perm _ _) (Hjpost h)).
  assert (forall rw, NoDup (join_body <$> elements (waiting rw h))) as Hnw.
  { intros rw. apply NoDup_bodies; [apply NoDup_elements|].
    intros cs [? _]%elem_of_elements%elem_of_waiting. done. }
  assert (NoDup (join_body <$> removed_at h)) as Hnr.
  { apply NoDup_bodies; [apply NoDup_removed_at|].
    intros cs (? & _)%elem_of_removed_at. by apply changed_V. }
  assert (NoDup (join_body <$> added_at h)) as Hna.
  { apply NoDup_bodies; [apply NoDup_added_at|].
    intros cs (? & _)%elem_of_added_at. by apply changed_V. }
  rewrite !occ_NoDup by (done || apply Hnw).
  assert (forall k : list _, (forall cs, cs ∈ k -> cs ∈ V) -> forall cs, cs ∈ V ->
    join_body cs ∈ join_body <$> k <-> cs ∈ k) as Hmem.
  { intros k Hk cs Hcs. split; [|apply list_elem_of_fmap_2].
    intros (cs' & E & Hcs')%list_elem_of_fmap. apply join_body_inj in E; [by subst|done|auto]. }
  assert (forall rw cs, cs ∈ elements (waiting rw h) -> cs ∈ V) as Hw.
  { intros rw cs [? _]%elem_of_elements%elem_of_waiting. done. }
  assert (forall cs, cs ∈ added_at h -> cs ∈ V) as Ha.
  { intros cs (? & _)%elem_of_added_at. by apply changed_V. }
  assert (forall cs, cs ∈ removed_at h -> cs ∈ V) as Hr.
  { intros cs (? & _)%elem_of_removed_at. by apply changed_V. }
  destruct (decide (x ∈ join_body <$> elements V)) as [Hx|Hx].
  - apply list_elem_of_fmap in Hx as (cs & -> & Hcs%elem_of_elements).
    pose proof (Hmem _ (Hw rpre) cs Hcs) as M1. pose proof (Hmem _ (Hw rpost) cs Hcs) as M2.
    pose proof (Hmem _ Ha cs Hcs) as M3. pose proof (Hmem _ Hr cs Hcs) as M4.
    rewrite elem_of_elements in M1, M2. pose proof (waiting_post h cs) as Hwp.
    assert (cs ∈ removed_at h -> cs ∈ waiting rpre h) as R1.
    { intros (? & ? & ? & _)%elem_of_removed_at. apply elem_of_waiting. auto. }
    assert (cs ∈ added_at h -> cs ∉ waiting rpre h) as R2.
    { intros (? & ? & ?)%elem_of_added_at. rewrite elem_of_waiting. tauto. }
    repeat case_decide; lia || (exfalso; tauto).
  - assert (forall k : list _, (forall cs, cs ∈ k -> cs ∈ V) -> x ∉ join_body <$> k) as Hno.
    { intros k Hk (cs & -> & Hcs)%list_elem_of_fmap.
      apply Hx, list_elem_of_fmap_2, elem_of_elements. auto. }
    rewrite !decide_False; [done|by apply Hno, Hw|by apply Hno|by apply Hno|by apply Hno, Hw].
Qed.

(** A channel at which no join changes keeps its joins, another one does not. *)
Lemma joins_changed_at h :
  rpre RowJoins h ≡ₚ rpost RowJoins h <-> added_at h = [] /\ removed_at h = [].
Proof.
  split.
  - rewrite (Hjpre h), (Hjpost h). intros Hp.
    assert (forall cs, cs ∈ waiting rpre h <-> cs ∈ waiting rpost h) as Hiff.
    { intros cs. split; intros Hcs; assert (cs ∈ V) by (by apply elem_of_waiting in Hcs as [? _]);
        apply elem_of_elements, (list_elem_of_fmap_2 join_body) in Hcs;
        [rewrite Hp in Hcs|rewrite <- Hp in Hcs];
        apply list_elem_of_fmap in Hcs as (cs' & E & Hcs'%elem_of_elements);
        (apply join_body_inj in E; [by subst|done|by apply elem_of_waiting in Hcs' as [? _]]). }
    split; apply list_empty_iff_none; intros cs Hcs.
    + pose proof (proj2 (waiting_post h cs) (or_intror Hcs)) as Hw. apply Hiff in Hw.
      apply elem_of_added_at in Hcs as (_ & _ & E). by apply elem_of_waiting in Hw as (_ & _ & ?).
    + apply elem_of_removed_at in Hcs as (Hc & Hh & E & E').
      assert (cs ∈ waiting rpre h) as Hw by (apply elem_of_waiting; auto using changed_V).
      apply Hiff in Hw. by apply elem_of_waiting in Hw as (_ & _ & ?).
  - intros [Ea Er]. pose proof (joins_new_value h) as Hn. rewrite Ea, Er in Hn.
    rewrite <- Hn. apply occ_perm. intros x. unfold new_value. cbn [added removed].
    rewrite occ_app, multiset_diff_occ. unfold occ. simpl. lia.
Qed.
End joins.

(** ** The actions of a block *)

Lemma sorted_cont_changes_keys sc :
  NoDup (sorted_cont_changes cd sc).*1 /\
  forall cs ch, (cs, ch) ∈ sorted_cont_changes cd sc <-> cont_changes sc !! cs = Some ch.
Proof.
  unfold sorted_cont_changes. split.
  - rewrite sort_by_perm. apply NoDup_fst_map_to_list.
  - intros cs ch. rewrite sort_by_perm. apply elem_of_map_to_list.
Qed.

(** The actions on continuations with the join actions they call for. *)
Lemma consume_actions_spec sc :
  (forall cs ch, cont_changes sc !! cs = Some ch <-> changed cs /\
     ch = value_change (rpre RowConts (hash_of cs)) (rpost RowConts (hash_of cs))) ->
  let l := (sorted_cont_changes cd sc).*1 in
  exists cjs ks,
    res_mapM (consume_with_join_action (P:=P) (A:=A) (K:=K) cd pre)
      (sorted_cont_changes cd sc) = Ok cjs /\
    join_action <$> cjs = kinds l /\ consume_action <$> cjs = row_action rpost <$> ks /\
    ks.*1 = (fun cs => (RowConts, hash_of cs)) <$> l /\
    forall kd h row, ((kd, h), row) ∈ ks -> row ≡ₚ rpost kd h.
Proof.
  intros Hsc. destruct (sorted_cont_changes_keys sc) as [_ Hin].
  assert (forall cs ch, (cs, ch) ∈ sorted_cont_changes cd sc -> changed cs /\
    ch = value_change (rpre RowConts (hash_of cs)) (rpost RowConts (hash_of cs))) as Hch.
  { intros cs ch Hc%Hin. by apply Hsc. }
  clear Hin Hsc. cbn zeta. unfold kinds.
  induction (sorted_cont_changes cd sc) as [|[cs ch] l IH].
  { exists [], []. split_and!; [done..|]. intros ???; set_solver. }
  destruct IH as (cjs & ks & Hm & Hk & Ha & Hkeys & Hrows).
  { intros cs' ch' Hc'. apply Hch. by right. }
  destruct (Hch cs ch) as [[Hin Hne] ->]; [left|].
  destruct (consume_action_spec (P:=P) (A:=A) (K:=K) cd pre cs
    (value_change (rpre RowConts (hash_of cs)) (rpost RowConts (hash_of cs)))
    (rpre RowConts (hash_of cs)) (rpost RowConts (hash_of cs))) as (row & Hrow & Hx).
  { apply (reads_cont _ _ _ _ (shows_rows _ _ Hpre)). }
  { apply new_value_roundtrip. } { done. }
  eexists (_ :: cjs), (((RowConts, hash_of cs), row) :: ks).
  cbn [res_mapM]. rewrite Hx. cbn [res_bind]. rewrite Hm. split; [done|]. csimpl.
  split_and!; [by rewrite Hk|by rewrite Ha|by rewrite Hkeys|].
  intros kd h r [[= -> -> ->]|Hr]%elem_of_cons; [done|by apply Hrows].
Qed.

(** Keys of one kind. *)
Lemma NoDup_keyed (kd : RowKind) (m : gmap Blake2b256Hash ChannelChange) :
  NoDup ((fun hc : Blake2b256Hash * ChannelChange => (kd, hc.1)) <$> btree_entries m).
Proof.
  change (NoDup ((pair kd ∘ fst) <$> btree_entries m : list row_key)).
  rewrite list_fmap_compose. apply NoDup_fmap_2; [apply _|]. apply btree_entries_NoDup.
Qed.
Lemma elem_of_keyed (kd kd' : RowKind) (h : Blake2b256Hash) (m : gmap Blake2b256Hash ChannelChange) :
  (kd', h) ∈ (fun hc : Blake2b256Hash * ChannelChange => (kd, hc.1)) <$> btree_entries m <->
  kd' = kd /\ is_Some (m !! h).
Proof.
  rewrite list_elem_of_fmap. split.
  - intros ([h' ch] & [= -> ->] & Hx%elem_of_btree_entries). eauto.
  - intros [-> [ch Hch]]. exists (h, ch). split; [done|]. by apply elem_of_btree_entries.
Qed.

(** The actions on data. *)
Lemma data_actions_spec
    (handle : Blake2b256Hash -> ChannelChange -> NumberChannelsDiff ->
       res HistoryError (option (HotStoreTrieAction C P A K))) mch sc :
  (forall h ch, handle h ch mch = Ok None) ->
  (forall h ch, datums_changes sc !! h = Some ch <->
     h ∈ unique_produce_channels e /\ ch = value_change (rpre RowData h) (rpost RowData h) /\
     ~ rpre RowData h ≡ₚ rpost RowData h) ->
  exists ks, res_mapM (fun '(history_pointer, change) =>
      action <-! handle history_pointer change mch;
      match action with
      | Some action => Ok action
      | None => make_trie_action history_pointer (data_binary pre) change
          (fun hash => TrieDelete (TrieDeleteProduce hash))
          (fun hash data => TrieInsert (TrieInsertBinaryProduce hash data))
      end) (btree_entries (datums_changes sc)) = Ok (row_action rpost <$> ks) /\
    turns (fun kd h => if decide (kd = RowData) then rpre kd h else rpost kd h) rpost ks.
Proof.
  intros Hh Hd. edestruct (mapM_row_actions (C:=C) (P:=P) (A:=A) (K:=K) rpost
    (fun hc : Blake2b256Hash * ChannelChange => (RowData, hc.1))) as (ks & Hks & Hkeys & Hrows);
    [|exists ks; split; [exact Hks|]].
  { intros [h ch] Hx%elem_of_btree_entries. apply Hd in Hx as (_ & -> & Hne).
    rewrite Hh. cbn [res_bind]. apply make_trie_action_spec with (rpre RowData h).
    - apply (reads_data _ _ _ _ (shows_rows _ _ Hpre)).
    - apply new_value_roundtrip.
    - done. }
  split; [done|rewrite Hkeys; apply NoDup_keyed|].
  intros kd h. rewrite Hkeys, elem_of_keyed. case_decide as Hk; [subst|naive_solver].
  split; [intros [_ [ch Hch]]; by apply Hd in Hch as (_ & _ & ?)|].
  intros Hne. split; [done|]. eexists. apply Hd. split_and!; [|done..].
  destruct (decide (h ∈ unique_produce_channels e)) as [|Hn]; [done|].
  by apply (cover_data Hlog) in Hn.
Qed.

(** The actions on joins. *)
Lemma join_actions_spec (jm : gmap Blake2b256Hash ChannelChange)
    (l : list (list Blake2b256Hash)) :
  NoDup l -> (forall cs, cs ∈ l <-> changed cs) ->
  (forall h, default empty_change (jm !! h) =
     mkChange (join_body <$> added_at l h) (join_body <$> removed_at l h) /\
     (is_Some (jm !! h) <-> added_at l h <> [] \/ removed_at l h <> [])) ->
  exists ks, res_mapM (fun '(history_pointer, change) =>
      make_trie_action (C:=C) (P:=P) (A:=A) (K:=K) history_pointer (joins_binary pre) change
        (fun hash => TrieDelete (TrieDeleteJoins hash))
        (fun hash joins => TrieInsert (TrieInsertBinaryJoins hash joins)))
      (btree_entries jm) = Ok (row_action rpost <$> ks) /\
    turns (fun kd h => if decide (kd = RowJoins) then rpre kd h else rpost kd h) rpost ks.
Proof.
  intros Hnd Hlc Hjs.
  assert (forall h, is_Some (jm !! h) <-> ~ rpre RowJoins h ≡ₚ rpost RowJoins h) as Hdom.
  { intros h. rewrite (proj2 (Hjs h)), (joins_changed_at l Hnd Hlc h).
    destruct (added_at l h), (removed_at l h); naive_solver. }
  edestruct (mapM_row_actions (C:=C) (P:=P) (A:=A) (K:=K) rpost
    (fun hc : Blake2b256Hash * ChannelChange => (RowJoins, hc.1))) as (ks & Hks & Hkeys & Hrows);
    [|exists ks; split; [exact Hks|]].
  { intros [h ch] Hx%elem_of_btree_entries.
    assert (ch = mkChange (join_body <$> added_at l h) (join_body <$> removed_at l h)) as ->.
    { destruct (Hjs h) as [E _]. by rewrite Hx in E. }
    apply make_trie_action_spec with (rpre RowJoins h).
    - apply (reads_joins _ _ _ _ (shows_rows _ _ Hpre)).
    - by apply (joins_new_value l Hnd Hlc).
    - apply Hdom. eauto. }
  split; [done|rewrite Hkeys; apply NoDup_keyed|].
  intros kd h. rewrite Hkeys, elem_of_keyed. case_decide as Hk; [subst|naive_solver].
  rewrite Hdom. naive_solver.
Qed.

(** Actions on the three kinds of rows together. *)
Lemma turns_app kd kc kj :
  turns (fun k h => if decide (k = RowData) then rpre k h else rpost k h) rpost kd ->
  turns (fun k h => if decide (k = RowJoins) then rpre k h else rpost k h) rpost kj ->
  (forall k h row, ((k, h), row) ∈ kc -> row ≡ₚ rpost k h) -> NoDup kc.*1 ->
  (forall k h, (k, h) ∈ kc.*1 <-> k = RowConts /\ ~ rpre RowConts h ≡ₚ rpost RowConts h) ->
  turns rpre rpost (kd ++ kc ++ kj).
Proof.
  intros [Rd Nd Ad] [Rj Nj Aj] Rc Nc Ac.
  assert (forall k h, (k, h) ∈ kd.*1 <-> k = RowData /\ ~ rpre k h ≡ₚ rpost k h) as Ad'.
  { intros k h. rewrite Ad. case_decide; naive_solver. }
  assert (forall k h, (k, h) ∈ kj.*1 <-> k = RowJoins /\ ~ rpre k h ≡ₚ rpost k h) as Aj'.
  { intros k h. rewrite Aj. case_decide; naive_solver. }
  split.
  - intros k h row. rewrite !elem_of_app. intros [?|[?|?]]; eauto.
  - rewrite !fmap_app. apply NoDup_app.
    split_and!; [done| |apply NoDup_app; split_and!; [done| |done]].
    + intros [k h] [-> _]%Ad'. rewrite elem_of_app, Ac, Aj'. naive_solver.
    + intros [k h] [-> _]%Ac. rewrite Aj'. naive_solver.
  - intros k h. rewrite !fmap_app, !elem_of_app, Ad', Ac, Aj'. destruct k; naive_solver.
Qed.

(** The state change of the block, applied to its pre-state, turns its rows into those of
    its post-state. *)
Lemma replay_turns
    (handle : Blake2b256Hash -> ChannelChange -> NumberChannelsDiff ->
       res HistoryError (option (HotStoreTrieAction C P A K))) mch :
  (forall h ch, handle h ch mch = Ok None) ->
  exists sc ks, StateChange_new cd rc pre post e = Ok sc /\
    compute_trie_actions cd sc pre mch handle = Ok (row_action rpost <$> ks) /\
    turns rpre rpost ks.
Proof.
  intros Hh. destruct (StateChange_new_spec cd rc pre post e _ _ _ _ _ _
    (shows_rows _ _ Hpre) (shows_rows _ _ Hpost) join_body join_entry_found)
    as (sc & Hsc & Hd & Hc & Hj & _).
  assert (forall cs ch, cont_changes sc !! cs = Some ch <-> changed cs /\
    ch = value_change (rpre RowConts (hash_of cs)) (rpost RowConts (hash_of cs))) as Hc'.
  { intros cs ch. rewrite Hc. unfold changed. tauto. }
  exists sc. unfold compute_trie_actions.
  destruct (consume_actions_spec sc Hc') as (cjs & kc & -> & Hkinds & Hca & Hkc & Hrc).
  destruct (sorted_cont_changes_keys sc) as [Hnd Hin].
  set (l := (sorted_cont_changes cd sc).*1) in *.
  assert (forall cs, cs ∈ l <-> changed cs) as Hlc.
  { intros cs. subst l. rewrite list_elem_of_fmap. split.
    - intros ([cs' ch] & -> & H1%Hin%Hc'). apply H1.
    - intros Hch. eexists (cs, _). split; [done|]. apply Hin, Hc'. by split. }
  cbn [res_bind]. destruct (data_actions_spec handle mch sc Hh Hd) as (kd & -> & Hkd).
  cbn [res_bind].
  destruct (join_changes_spec (C:=C) (P:=P) (A:=A) (K:=K)
    (consume_channels_to_join_serialized_map sc) join_body cjs ∅) as (jm & -> & Hjs).
  { intros a cs Ha Hkc'. assert (join_action a ∈ kinds l) as Hk.
    { rewrite <- Hkinds. by apply list_elem_of_fmap_2. }
    apply list_elem_of_fmap in Hk as (cs' & E & Hcs'%Hlc). rewrite E in Hkc'.
    assert (cs = cs') as -> by (unfold join_kind in Hkc'; repeat case_decide; naive_solver).
    split; [by apply (vec_NoDup HV), changed_V|]. apply Hj, Hcs'. }
  rewrite Hkinds in Hjs. cbn [res_bind].
  destruct (join_actions_spec jm l Hnd Hlc) as (kj & -> & Hkj).
  { intros h. destruct (Hjs h) as [-> I]. rewrite lookup_empty in I |- *.
    split; [done|]. rewrite I. unfold added_at, removed_at. split; [|auto].
    intros [[? [=]]|?]; done. }
  cbn [res_bind]. exists (kd ++ kc ++ kj). split; [done|]. rewrite Hca, !fmap_app.
  split; [done|]. eapply (turns_app kd kc kj); eauto.
  - rewrite Hkc. apply NoDup_fmap_2_strong; [|done]. intros cs cs' Hcs Hcs' [= E].
    apply (vec_inj HV); [apply changed_V, Hlc, Hcs|apply changed_V, Hlc, Hcs'|done].
  - intros k h. rewrite Hkc, list_elem_of_fmap. split.
    { intros (cs & [= -> ->] & Hcs%Hlc). split; [done|apply Hcs]. }
    intros [-> Hne].
    destruct (decide (Exists (fun cs => h = hash_of cs)
      (elements (channels_of_consumes_affected e)))) as [Hex|Hn].
    + apply Exists_exists in Hex as (cs & Hcs%elem_of_elements & ->).
      exists cs. split; [done|]. apply Hlc. by split.
    + destruct Hne. apply (cover_conts Hlog). intros cs Hcs ->. apply Hn, Exists_exists.
      exists cs. by rewrite elem_of_elements.
Qed.
End replay.
