(* ===== verification/BlockReplay.v ===== *)
(** * The state change of a block reproduces its post-state root

    [StateChange::new], [compute_trie_actions] and [do_checkpoint] over the history
    repository: the rows that the readers of two recorded roots show, and the root that
    results from applying the difference to the first. *)
From S2P Require Import Prelude Events HotStoreSig HotStore RSpace KeyValueStore Serializers.
From S2P Require Import RadixCodec RadixTree RadixSpec RadixRefine RadixActions RadixHistory.
From S2P Require Import RSpaceThms HistoryRepo HistoryRepoSpec HistoryRows HistoryThms.
From S2P Require Import MergingLogic StateChange.
From S2P Require Import StateChangeSpec StateChangeThms.
Open Scope res_scope.

Lemma Ok_inj {E X} (x y : X) : Ok (E:=E) x = Ok y -> x = y.
Proof. congruence. Qed.
Lemma sort_by_ext {X} (f g : X -> X -> comparison) l :
  (forall x y, f x y = g x y) -> sort_by f l = sort_by g l.
Proof.
  intros Hfg. unfold sort_by. induction l as [|x l IH]; [done|]. simpl. rewrite IH.
  generalize (foldr (sort_insert g) [] l). induction l0 as [|y k IHk]; [done|].
  simpl. rewrite Hfg. by destruct (g x y); rewrite ?IHk.
Qed.

Definition row_prefix (kd : RowKind) : byte :=
  match kd with RowData => PREFIX_DATUM | RowConts => PREFIX_KONT | RowJoins => PREFIX_JOINS end.
Definition row_mk (kd : RowKind) (b : bytes) : PersistedData :=
  match kd with RowData => DataLeaf b | RowConts => ContinuationsLeaf b | RowJoins => JoinsLeaf b end.

Section replay.
Context {C P A K KV : Type} `{Countable C}.
Context `{!KeyValueStore KV, !KeyValueStoreLaws KV, !DashOrder, !DashOrderLaws}.
Context (cd : Codecs C P A K) (rc : RowCodecs C P A K) `{!RowCodecsLaws rc}.
Context (U : Node -> Prop) (L : PersistedData -> Prop).

Abbreviation blake := (blake2b256 cd).
Abbreviation leaf_hash := (leaf_hash cd rc).
Abbreviation repo := (HistoryRepositoryImpl KV).
Abbreviation reader := (RSpaceHistoryReaderImpl KV).
Abbreviation repo_inv := (repo_inv cd rc U L).
Abbreviation reader_ok := (reader_ok cd rc U L).

Context (HU : collision_free blake U).
Context (HL : forall d d', L d -> L d' -> leaf_hash d = leaf_hash d' -> d = d').

(** ** The rows of a reader *)

Definition reader_binary (rd : reader) (kd : RowKind) (h : Blake2b256Hash) :
  res HistoryError (list bytes) :=
  match kd with
  | RowData => reader_data_proj_binary rc h rd
  | RowConts => reader_continuations_proj_binary rc h rd
  | RowJoins => reader_joins_proj_binary rc h rd
  end.
Definition reader_row (rd : reader) (kd : RowKind) (h : Blake2b256Hash) : list bytes :=
  expect (reader_binary rd kd h).
(** No row is stored empty; a checkpoint deletes a row that becomes empty. *)
Definition no_empty_rows (rd : reader) : Prop := forall kd h d,
  fetch_data rc (row_prefix kd) h rd = Ok (Some d) -> reader_row rd kd h <> [].

(** A leaf of the kind that the prefix asks for holds a sorted row. *)
Lemma leaf_for_row kd h d :
  leaf_for rc (row_prefix kd :: h) d -> exists row, sort_by bytes_cmp row = row /\
    d = row_mk kd (ser_byte_vecs rc row) /\
    (kd = RowJoins -> exists js, d = JoinsLeaf (encode_joins rc js)).
Proof.
  assert (forall {X} (ser : X -> bytes) r, exists row, sort_by bytes_cmp row = row /\
    encode_row rc ser r = ser_byte_vecs rc row) as Hrow.
  { intros X ser r. unfold encode_row.
    rewrite (sort_by_ext _ bytes_cmp) by apply compare_byte_vectors_lex.
    eexists. split; [|done]. apply sort_by_unique; [apply _|]. apply sort_by_perm. }
  intros [[Hp [r ->]]|[[Hp [r ->]]|[Hp [r ->]]]]; destruct kd; try done.
  - destruct (Hrow _ (ser_datum_row rc) r) as (row & Hs & E). exists row.
    split_and!; [done| |done]. unfold encode_datums. by rewrite E.
  - destruct (Hrow _ (ser_continuation_row rc) r) as (row & Hs & E). exists row.
    split_and!; [done| |done]. unfold encode_continuations. by rewrite E.
  - destruct (Hrow _ (ser_join_row rc) r) as (row & Hs & E). exists row.
    split_and!; [done| |eauto]. unfold encode_joins. by rewrite E.
Qed.

Lemma reader_binary_fetch rd kd h :
  reader_binary rd kd h =
  found <-! fetch_data rc (row_prefix kd) h rd;
  match found with
  | Some d => b <-! unwrap (match kd with RowData => data_leaf d | RowConts => continuations_leaf d
                            | RowJoins => joins_leaf d end); unwrap (de_byte_vecs rc b)
  | None => Ok []
  end.
Proof. by destruct kd. Qed.

Lemma reader_row_spec cs rd kd h :
  reader_ok cs rd ->
  reader_binary rd kd h = Ok (reader_row rd kd h) /\
  sort_by bytes_cmp (reader_row rd kd h) = reader_row rd kd h /\
  match fget cs (row_prefix kd :: h) with
  | None => reader_row rd kd h = []
  | Some v => let d := row_mk kd (ser_byte_vecs rc (reader_row rd kd h)) in
      L d /\ v = leaf_hash d /\ leaf_for rc (row_prefix kd :: h) d /\
      fetch_data rc (row_prefix kd) h rd = Ok (Some d)
  end.
Proof.
  intros Hr. pose proof (fetch_spec cd rc U L HU cs rd (row_prefix kd) h Hr) as Hf.
  unfold reader_row. rewrite reader_binary_fetch.
  destruct (fget cs (row_prefix kd :: h)) as [v|]; [|by rewrite Hf].
  destruct Hf as (d & -> & Hd & -> & Hfor).
  destruct (leaf_for_row kd h d Hfor) as (row & Hs & -> & _). cbn [res_bind].
  assert (res_bind (E:=HistoryError) (unwrap match kd with
    | RowData => data_leaf (row_mk kd (ser_byte_vecs rc row))
    | RowConts => continuations_leaf (row_mk kd (ser_byte_vecs rc row))
    | RowJoins => joins_leaf (row_mk kd (ser_byte_vecs rc row)) end)
    (fun b => unwrap (de_byte_vecs rc b)) = Ok row) as ->.
  { destruct kd; simpl; by rewrite byte_vecs_roundtrip. }
  simpl. done.
Qed.

Lemma reader_shows cs rd :
  reader_ok cs rd -> shows rc (history_reader rc rd) (reader_row rd).
Proof.
  intros Hr. split.
  - split; intros h; [apply (reader_row_spec cs rd RowData)|apply (reader_row_spec cs rd RowConts)
      |apply (reader_row_spec cs rd RowJoins)]; done.
  - intros h. destruct (reader_row_spec cs rd RowJoins h Hr) as (Hb & _ & Hf).
    simpl. unfold reader_joins_proj, get_proj.
    pose proof (fetch_spec cd rc U L HU cs rd PREFIX_JOINS h Hr) as Hfe.
    cbn [row_prefix] in Hf. destruct (fget cs (PREFIX_JOINS :: h)) as [v|].
    + destruct Hf as (_ & _ & Hfor & Hfetch). rewrite Hfetch. cbn [res_bind].
      destruct (leaf_for_row RowJoins h _ Hfor) as (_ & _ & _ & Hjs).
      destruct (Hjs eq_refl) as [js Ejs]. rewrite Ejs. cbn [joins_leaf unwrap res_bind].
      destruct (decode_encode_row rc (ser_join_row rc) (de_join_row rc) js join_row_roundtrip)
        as (js' & Hdec & Hp).
      exists js'. split; [done|]. injection Ejs as E. rewrite Hp.
      apply (f_equal (de_byte_vecs rc)) in E. unfold encode_joins, encode_row in E.
      rewrite !byte_vecs_roundtrip in E. injection E as ->. symmetry. apply sort_by_perm.
    + rewrite Hfe, Hf. by exists [].
Qed.

(** The rows of a reader determine its trie. *)
Lemma fget_row cs rd kd h :
  reader_ok cs rd -> no_empty_rows rd ->
  fget cs (row_prefix kd :: h) =
  if decide (reader_row rd kd h = []) then None
  else Some (leaf_hash (row_mk kd (ser_byte_vecs rc (reader_row rd kd h)))).
Proof.
  intros Hr Hne. destruct (reader_row_spec cs rd kd h Hr) as (_ & _ & Hf).
  destruct (fget cs (row_prefix kd :: h)) as [v|].
  - destruct Hf as (_ & -> & _ & Hfetch). rewrite decide_False; [done|]. by eapply Hne.
  - by rewrite decide_True.
Qed.
Lemma fget_prefix cs rd b h :
  reader_ok cs rd -> (forall kd, b <> row_prefix kd) -> fget cs (b :: h) = None.
Proof.
  intros Hr Hb. destruct (fget cs (b :: h)) as [v|] eqn:E; [|done].
  destruct (rd_values _ _ _ _ _ _ Hr _ _ E) as (d & _ & _ & Hfor & _).
  destruct Hfor as [[-> _]|[[-> _]|[-> _]]].
  - by destruct (Hb RowData).
  - by destruct (Hb RowConts).
  - by destruct (Hb RowJoins).
Qed.
Lemma row_length cs rd kd h :
  reader_ok cs rd -> reader_row rd kd h <> [] -> length h = DEF_SIZE.
Proof.
  intros Hr Hne. destruct (reader_row_spec cs rd kd h Hr) as (_ & _ & Hf).
  destruct (fget cs (row_prefix kd :: h)) as [v|] eqn:E; [|done].
  assert (wf_forest KEY_SIZE cs) as Hwf by apply (rd_history _ _ _ _ _ _ Hr).
  apply (fget_length KEY_SIZE) in E; [|done]. simpl in E. by injection E.
Qed.

(** ** Writing rows *)

Lemma row_action_storage (post : rows) kd h row :
  row ≡ₚ post kd h -> sort_by bytes_cmp (post kd h) = post kd h ->
  calculate_storage_actions cd rc (row_action (C:=C) (P:=P) (A:=A) (K:=K) post ((kd, h), row)) =
  if decide (post kd h = []) then delete_leaf (row_prefix kd) h
  else insert_leaf cd rc (row_prefix kd) h (row_mk kd (ser_byte_vecs rc (post kd h))).
Proof.
  intros Hp Hs. unfold row_action. cbn [fst snd].
  assert (sort_binary rc row = ser_byte_vecs rc (post kd h)) as Hb.
  { unfold sort_binary. by rewrite (sort_by_unique bytes_cmp row (post kd h)), Hs. }
  case_decide; destruct kd; simpl; by rewrite ?Hb.
Qed.

Section checkpoint.
Context (h1 : repo) (cs_pre cs_post : forest) (rd_pre rd_post : reader).
Context (Hpre : reader_ok cs_pre rd_pre) (Hpost : reader_ok cs_post rd_post).
Context (Hne_pre : no_empty_rows rd_pre) (Hne_post : no_empty_rows rd_post).
Context (ks : list (row_key * list bytes)).
Context (Hks : turns (reader_row rd_pre) (reader_row rd_post) ks).

Let acts : list (HotStoreTrieAction C P A K) := row_action (reader_row rd_post) <$> ks.
Let sts := calculate_storage_actions cd rc <$> acts.
Let post_leaf kd h := row_mk kd (ser_byte_vecs rc (reader_row rd_post kd h)).

Let row_storage (kr : row_key * list bytes) :=
  let '((kd, h), _) := kr in
  if decide (reader_row rd_post kd h = []) then delete_leaf (row_prefix kd) h
  else insert_leaf cd rc (row_prefix kd) h (post_leaf kd h).

Lemma sts_rows : sts = row_storage <$> ks.
Proof.
  subst sts acts. rewrite <- list_fmap_compose. apply Forall_fmap_ext_1, Forall_forall.
  intros [[kd h] row] Hin. simpl. apply row_action_storage.
  - by apply (turn_rows _ _ _ Hks).
  - by apply (reader_row_spec cs_post).
Qed.

Lemma post_leaf_ok kd h :
  reader_row rd_post kd h <> [] ->
  L (post_leaf kd h) /\ leaf_for rc (row_prefix kd :: h) (post_leaf kd h).
Proof.
  intros Hne. destruct (reader_row_spec cs_post rd_post kd h Hpost) as (_ & _ & Hf).
  destruct (fget cs_post (row_prefix kd :: h)) as [v|]; [|done].
  by destruct Hf as (? & _ & ? & _).
Qed.

Lemma sts_ok : Forall (storage_ok cd rc L) sts.
Proof.
  rewrite sts_rows. apply Forall_fmap, Forall_forall. intros [[kd h] row] Hin.
  assert ((kd, h) ∈ ks.*1) as Hk by (by apply (list_elem_of_fmap_2 fst _ ((kd, h), row))).
  apply (turn_all _ _ _ Hks) in Hk.
  assert (length h = DEF_SIZE) as Hl.
  { destruct (decide (reader_row rd_pre kd h = [])) as [E|E].
    - apply (row_length cs_post rd_post kd); [done|]. intros E'. apply Hk. by rewrite E, E'.
    - by apply (row_length cs_pre rd_pre kd). }
  unfold compose, row_storage. case_decide as Hp; [by constructor|].
  by constructor; [|apply post_leaf_ok..].
Qed.

Lemma sts_keys : NoDup (action_key <$> sts.*2).
Proof.
  rewrite sts_rows.
  assert (action_key <$> (row_storage <$> ks).*2 =
    (fun k : row_key => row_prefix k.1 :: k.2) <$> ks.*1) as ->.
  { rewrite <- !list_fmap_compose. apply list_fmap_ext. intros i [[kd h] row] _. simpl.
    unfold row_storage. by case_decide. }
  apply NoDup_fmap_2; [|apply (turn_keys _ _ _ Hks)].
  intros [kd h] [kd' h'] E. simpl in E. injection E as Ep ->. by destruct kd, kd'.
Qed.

(** The trie after the actions has the contents of the trie of the post-state. *)
Lemma facts_post : foldl fact cs_pre (change_of <$> sts.*2) = cs_post.
Proof.
  assert (wf_forest KEY_SIZE cs_pre) as Hw by apply (rd_history _ _ _ _ _ _ Hpre).
  assert (wf_forest KEY_SIZE cs_post) as Hw' by apply (rd_history _ _ _ _ _ _ Hpost).
  assert (Forall (change_ok (S KEY_SIZE)) (change_of <$> sts.*2)) as Hch.
  { rewrite !Forall_fmap. eapply Forall_impl; [apply sts_ok|]. by apply (storage_change_ok cd rc U). }
  assert ((change_of <$> sts.*2).*1 = action_key <$> sts.*2) as Hkeys.
  { rewrite <- list_fmap_compose. apply list_fmap_ext. intros i a _. apply change_of_key. }
  apply (wf_forest_unique KEY_SIZE); [by apply wf_facts|done|]. intros k.
  rewrite (fget_facts KEY_SIZE) by done.
  destruct (apply_changes_cases (change_of <$> sts.*2) (fget cs_pre) k) as [(v & Hin & ->)|[Hn ->]].
  - rewrite Hkeys. apply sts_keys.
  - apply list_elem_of_fmap in Hin as (a & E & Ha). rewrite sts_rows in Ha.
    apply list_elem_of_fmap in Ha as (st & -> & Hst).
    apply list_elem_of_fmap in Hst as ([[kd h] row] & -> & Hin). unfold row_storage in E.
    assert (k = row_prefix kd :: h) as -> by (case_decide; by injection E).
    rewrite (fget_row cs_post rd_post) by done. case_decide; by injection E.
  - rewrite Hkeys in Hn. destruct k as [|b h].
    { destruct (fget cs_pre []) eqn:E1; [by apply (fget_length KEY_SIZE) in E1|].
      destruct (fget cs_post []) eqn:E2; [by apply (fget_length KEY_SIZE) in E2|done]. }
    destruct (decide (b = PREFIX_DATUM \/ b = PREFIX_KONT \/ b = PREFIX_JOINS)) as [Hb|Hb].
    + assert (exists kd, b = row_prefix kd) as [kd ->].
      { destruct Hb as [->|[->| ->]]; [by exists RowData|by exists RowConts|by exists RowJoins]. }
      assert (reader_row rd_pre kd h = reader_row rd_post kd h) as Erow.
      { destruct (reader_row_spec cs_pre rd_pre kd h Hpre) as (_ & <- & _).
        destruct (reader_row_spec cs_post rd_post kd h Hpost) as (_ & <- & _).
        apply sort_by_unique; [apply _|].
        destruct (decide (reader_row rd_pre kd h ≡ₚ reader_row rd_post kd h)) as [|Hne]; [done|].
        apply (turn_all _ _ _ Hks) in Hne as Hk. destruct Hn. rewrite sts_rows.
        apply list_elem_of_fmap in Hk as ([[kd' h'] row] & [= <- <-] & Hin).
        apply list_elem_of_fmap. eexists. split; cycle 1.
        { apply list_elem_of_fmap_2, list_elem_of_fmap_2, Hin. }
        unfold row_storage. by case_decide. }
      rewrite (fget_row cs_pre rd_pre), (fget_row cs_post rd_post) by done. by rewrite Erow.
    + rewrite (fget_prefix cs_pre rd_pre), (fget_prefix cs_post rd_post); [done|done| |done|];
        intros [] ->; tauto.
Qed.
End checkpoint.

Lemma root_forest h root : repo_inv h -> recorded_root h root ->
  exists cs rd, root = node_hash blake (items blake cs) /\
    root_ok cd rc U L cs (history_store h) (leaf_store h) /\
    get_history_reader_struct root h = Ok rd /\ reader_ok cs rd.
Proof.
  intros Hi Hr. destruct (ri_roots _ _ _ _ _ Hi root Hr) as (cs & Hroot & Hok).
  destruct (get_reader_spec cd rc U L HU h cs root Hi Hroot Hok) as (rd & Hg & Hrd).
  by exists cs, rd.
Qed.

(** Tries with the same root hash are equal. *)
Lemma forest_of_root cs cs' nodes leaves nodes' leaves' :
  root_ok cd rc U L cs nodes leaves -> root_ok cd rc U L cs' nodes' leaves' ->
  node_hash blake (items blake cs) = node_hash blake (items blake cs') -> cs = cs'.
Proof.
  intros [[Hw _] [Hn Hu] _] [[Hw' _] [Hn' Hu'] _] E.
  assert (items blake cs = items blake cs') as Ei by (by apply (cf_inj _ _ HU)).
  apply (items_inj blake U (cf_inj _ _ HU) KEY_SIZE); try done.
Qed.

Lemma replay_root (h : repo) (pre_root post_root : Blake2b256Hash)
    (rd_pre rd_post : reader) (e : EventLogIndex) (V : gset (list Blake2b256Hash))
    (chans : list Blake2b256Hash -> list C) (mch : NumberChannelsDiff)
    (handle : Blake2b256Hash -> ChannelChange -> NumberChannelsDiff ->
       res HistoryError (option (HotStoreTrieAction C P A K))) :
  repo_inv h -> recorded_root h pre_root -> recorded_root h post_root ->
  get_history_reader_struct pre_root h = Ok rd_pre ->
  get_history_reader_struct post_root h = Ok rd_post ->
  no_empty_rows rd_pre -> no_empty_rows rd_post ->
  vectors_ok cd V chans -> joins_follow cd rc V chans (reader_row rd_pre) ->
  joins_follow cd rc V chans (reader_row rd_post) ->
  log_covers cd (reader_row rd_pre) (reader_row rd_post) e V ->
  (forall k ch, handle k ch mch = Ok None) ->
  exists sc acts h1 h2 h',
    StateChange_new cd rc (history_reader rc rd_pre) (history_reader rc rd_post) e = Ok sc /\
    compute_trie_actions cd sc (history_reader rc rd_pre) mch handle = Ok acts /\
    repository_reset pre_root h = (Ok h1, h2) /\ do_checkpoint cd rc acts h1 = Ok h' /\
    repository_root h' = post_root.
Proof.
  intros Hi Hrp Hrq Hgp Hgq Hnp Hnq HV Hjp Hjq Hlog Hh.
  destruct (root_forest h pre_root Hi Hrp) as (cp & rd & Hcp & Hokp & Hg & Hrdp).
  rewrite Hgp in Hg. injection Hg as <-.
  destruct (root_forest h post_root Hi Hrq) as (cq & rd & Hcq & Hokq & Hg & Hrdq).
  rewrite Hgq in Hg. injection Hg as <-.
  destruct (replay_turns cd rc _ _ _ _ e V chans (reader_shows cp rd_pre Hrdp)
    (reader_shows cq rd_post Hrdq) HV Hjp Hjq Hlog handle mch Hh) as (sc & ks & Hsc & Hacts & Hks).
  destruct (reset_known cd rc U L HU h pre_root Hi Hrp)
    as (h1 & h2 & Hreset & Hi1 & Hroot1 & Hst1 & Hl1 & _).
  destruct (ri_current _ _ _ _ _ Hi1) as (c1 & Hcur1 & Hok1).
  assert (c1 = cp) as ->.
  { eapply forest_of_root; [exact Hok1|exact Hokp|]. rewrite <- Hcp, <- Hroot1.
    unfold repository_root. symmetry. apply Hcur1. }
  pose proof (facts_post cp cq rd_pre rd_post Hrdp Hrdq Hnp Hnq ks Hks) as Hfacts.
  exists sc, (row_action (reader_row rd_post) <$> ks), h1, h2. destruct ks as [|k0 ks].
  { exists h1. split_and!; [done..|]. simpl in Hfacts. by rewrite Hroot1, Hcp, Hcq, Hfacts. }
  destruct (do_checkpoint_spec cd rc U L HU HL h1 cp
    (row_action (reader_row rd_post) <$> k0 :: ks)) as (h' & Hck & Hadv); try done.
  - by apply (sts_ok cp cq rd_pre).
  - by apply (sts_keys cq rd_pre).
  - rewrite Hfacts. apply Hokq.
  - exists h'. split_and!; try done. rewrite Hfacts in Hadv. rewrite Hcq.
    apply (adv_current _ _ _ _ _ _ _ Hadv).
Qed.

(** Take a block between two recorded roots whose event log covers the rows that differ.
    The state change that [StateChange::new] computes for it is turned by
    [compute_trie_actions] over the pre-state into actions that [do_checkpoint] applies to
    the repository reset to the pre-state, and the resulting root is the post-state root. *)
Theorem block_replay_root (h : repo) (pre_root post_root : Blake2b256Hash)
    (rd_pre rd_post : reader) (e : EventLogIndex) (V : gset (list Blake2b256Hash))
    (chans : list Blake2b256Hash -> list C) (mch : NumberChannelsDiff)
    (handle : Blake2b256Hash -> ChannelChange -> NumberChannelsDiff ->
       res HistoryError (option (HotStoreTrieAction C P A K))) :
  repo_inv h -> recorded_root h pre_root -> recorded_root h post_root ->
  get_history_reader_struct pre_root h = Ok rd_pre ->
  get_history_reader_struct post_root h = Ok rd_post ->
  no_empty_rows rd_pre -> no_empty_rows rd_post ->
  vectors_ok cd V chans -> joins_follow cd rc V chans (reader_row rd_pre) ->
  joins_follow cd rc V chans (reader_row rd_post) ->
  log_covers cd (reader_row rd_pre) (reader_row rd_post) e V ->
  (forall k ch, handle k ch mch = Ok None) ->
  exists sc acts h1 h2 h',
    StateChange_new cd rc (history_reader rc rd_pre) (history_reader rc rd_post) e = Ok sc /\
    compute_trie_actions cd sc (history_reader rc rd_pre) mch handle = Ok acts /\
    repository_reset pre_root h = (Ok h1, h2) /\ do_checkpoint cd rc acts h1 = Ok h' /\
    repository_root h' = post_root.
Proof. apply replay_root. Qed.
End replay.

(** ** An example

    The block of [HistoryExample]: a continuation is left on two channels. *)
Module ReplayExample.
Import RSpaceThms.Example RadixHistory.RadixExample HistoryExample.

Definition example_repo1 : HistoryRepositoryImpl kv :=
  match checkpoint example_codecs example_rows example_batch repo0 with Ok h => h | _ => repo0 end.
Definition reader_of (root : Blake2b256Hash) : RSpaceHistoryReaderImpl kv :=
  match get_history_reader_struct root example_repo1 with
  | Ok rd => rd
  | _ => mkHistoryReader (current_history repo0) (history_store repo0) (leaf_store repo0)
  end.
Definition pre_root : Blake2b256Hash := repository_root repo0.
Definition post_root : Blake2b256Hash := repository_root example_repo1.
Definition example_log : EventLogIndex :=
  EventLogIndex_new (fun _ => false) (fun _ => false) (event_log example_space1) ∅.
Definition example_vector : list Blake2b256Hash := hash_vec example_codecs [1; 2].
Definition example_vectors : gset (list Blake2b256Hash) := {[example_vector]}.

Abbreviation inv1 := (repo_inv example_codecs example_rows nodes_used leaves_used).
Abbreviation rok := (reader_ok example_codecs example_rows nodes_used leaves_used).
Abbreviation HU := (hd_nodes _ _ _ _ _ _ example_distinct).
Abbreviation HL := (hd_leaves _ _ _ _ _ _ example_distinct).

Lemma example_checkpoint :
  checkpoint example_codecs example_rows example_batch repo0 = Ok example_repo1.
Proof.
  assert (match checkpoint example_codecs example_rows example_batch repo0 with
    | Ok _ => true | _ => false end = true) as Hok by (vm_compute; reflexivity).
  unfold example_repo1. by destruct (checkpoint _ _ _ _).
Qed.

(** The tries of the two roots. *)
Lemma example_repo1_ok :
  inv1 example_repo1 /\ recorded_root example_repo1 pre_root /\
  recorded_root example_repo1 post_root /\
  rok no_trees (reader_of pre_root) /\ rok example_forest (reader_of post_root).
Proof.
  destruct repo0_ok as [Hi0 Hcur0]. pose proof (ri_recorded _ _ _ _ _ Hi0) as Hr0.
  destruct (root_forest example_codecs example_rows nodes_used leaves_used HU repo0 pre_root Hi0 Hr0)
    as (cs & rd & Hroot & Hok & Hg & Hrd).
  destruct (ri_current _ _ _ _ _ Hi0) as (c0 & Hc0 & Hok0).
  assert (c0 = no_trees) as -> by (by eapply (represents_unique example_codecs _ _ _ _ _ HU)).
  destruct (checkpoint_advances example_codecs example_rows nodes_used leaves_used channels_used
    vectors_used example_distinct repo0 no_trees example_batch Hi0 Hcur0 Hok0 example_batch_ok)
    as (h' & Hck & Hadv).
  rewrite example_checkpoint in Hck. apply Ok_inj in Hck. subst h'.
  pose proof (adv_inv _ _ _ _ _ _ _ Hadv) as Hi1.
  pose proof (adv_recorded _ _ _ _ _ _ _ Hadv pre_root Hr0) as Hr1.
  pose proof (ri_recorded _ _ _ _ _ Hi1) as Hr2.
  split_and!; [done..| |].
  - destruct (root_forest example_codecs example_rows nodes_used leaves_used HU example_repo1
      pre_root Hi1 Hr1) as (c1 & rd1 & Hroot1 & Hok1 & Hg1 & Hrd1).
    assert (c1 = no_trees) as ->.
    { eapply (forest_of_root example_codecs example_rows nodes_used leaves_used HU);
        [exact Hok1|exact Hok0|]. rewrite <- Hroot1. unfold pre_root, repository_root. apply Hcur0. }
    unfold reader_of. by rewrite Hg1.
  - destruct (get_reader_spec example_codecs example_rows nodes_used leaves_used HU example_repo1
      example_forest post_root Hi1) as (rd1 & Hg1 & Hrd1).
    + apply (adv_current _ _ _ _ _ _ _ Hadv).
    + apply (adv_root _ _ _ _ _ _ _ Hadv).
    + unfold reader_of. by rewrite Hg1.
Qed.

(** The keys that the checkpoint wrote or deleted. *)
Definition example_keys : list bytes :=
  (change_of <$> (storage example_codecs example_rows <$> example_batch).*2).*1.
Abbreviation pre_rows := (reader_row example_rows (reader_of pre_root)).
Abbreviation post_rows := (reader_row example_rows (reader_of post_root)).

Lemma pre_rows_empty kd h : pre_rows kd h = [].
Proof.
  destruct (reader_row_spec example_codecs example_rows nodes_used leaves_used HU no_trees
    (reader_of pre_root) kd h) as (_ & _ & Hf); [apply example_repo1_ok|].
  by rewrite fget_no_trees in Hf.
Qed.
Lemma post_fget kd h : row_prefix kd :: h ∉ example_keys ->
  fget example_forest (row_prefix kd :: h) = None.
Proof.
  intros Hn. unfold example_forest. rewrite (fget_facts KEY_SIZE).
  - rewrite apply_changes_out by done. apply fget_no_trees.
  - apply wf_no_trees.
  - by apply (batch_change_ok example_codecs example_rows nodes_used leaves_used channels_used
      vectors_used example_batch example_distinct), example_batch_ok.
Qed.
Lemma post_rows_empty kd h : row_prefix kd :: h ∉ example_keys -> post_rows kd h = [].
Proof.
  intros Hn. destruct (reader_row_spec example_codecs example_rows nodes_used leaves_used HU
    example_forest (reader_of post_root) kd h) as (_ & _ & Hf); [apply example_repo1_ok|].
  by rewrite post_fget in Hf.
Qed.
(** What holds of the rows at the written keys holds of all rows. *)
Definition kinds_of_rows : list RowKind := [RowData; RowConts; RowJoins].
Lemma kind_listed kd : kd ∈ kinds_of_rows.
Proof. destruct kd; [left|right; left|right; right; left]. Qed.
Definition at_keys (Q : RowKind -> Blake2b256Hash -> Prop) : Prop :=
  Forall (fun k => Forall (fun kd => row_prefix kd :: tail k = k -> Q kd (tail k)) kinds_of_rows)
    example_keys.
Lemma at_keys_holds (Q : RowKind -> Blake2b256Hash -> Prop) kd h :
  at_keys Q -> row_prefix kd :: h ∈ example_keys -> Q kd h.
Proof.
  intros Hall Hin. unfold at_keys in Hall. rewrite Forall_forall in Hall.
  specialize (Hall _ Hin). rewrite Forall_forall in Hall.
  exact (Hall kd (kind_listed kd) eq_refl).
Qed.

Definition not_found {X} (r : res HistoryError (option X)) : bool :=
  match r with Ok None => true | _ => false end.
Lemma post_rows_at_keys :
  at_keys (fun kd h =>
    (not_found (fetch_data example_rows (row_prefix kd) h (reader_of post_root)) = true \/
     post_rows kd h <> []) /\
    (kd = RowData -> post_rows kd h = []) /\
    (kd = RowConts -> h = hash_from_hashes example_codecs example_vector) /\
    (kd = RowJoins -> h ∈ example_vector)).
Proof. apply (bool_decide_unpack _). vm_compute. exact I. Qed.

Lemma pre_no_empty : no_empty_rows example_rows (reader_of pre_root).
Proof.
  intros kd h d Hf.
  pose proof (fetch_spec example_codecs example_rows nodes_used leaves_used HU no_trees
    (reader_of pre_root) (row_prefix kd) h) as Hs.
  rewrite fget_no_trees, Hf in Hs.
  by specialize (Hs (proj1 (proj2 (proj2 (proj2 example_repo1_ok))))).
Qed.
Lemma post_no_empty : no_empty_rows example_rows (reader_of post_root).
Proof.
  intros kd h d Hf. destruct (decide (row_prefix kd :: h ∈ example_keys)) as [Hin|Hn].
  - destruct (at_keys_holds _ kd h post_rows_at_keys Hin) as [[Hnf|Hne] _]; [|done].
    by rewrite Hf in Hnf.
  - pose proof (fetch_spec example_codecs example_rows nodes_used leaves_used HU example_forest
      (reader_of post_root) (row_prefix kd) h) as Hs.
    rewrite post_fget, Hf in Hs by done.
    by specialize (Hs (proj2 (proj2 (proj2 (proj2 example_repo1_ok))))).
Qed.

Lemma example_vectors_ok : vectors_ok example_codecs example_vectors (fun _ => [1; 2]).
Proof.
  split.
  - intros cs ->%elem_of_singleton. vm_compute. done.
  - intros cs ->%elem_of_singleton. apply (bool_decide_unpack _). vm_compute. exact I.
  - by intros cs ->%elem_of_singleton.
  - by intros cs cs' ->%elem_of_singleton ->%elem_of_singleton.
Qed.

Lemma pre_joins_follow :
  joins_follow example_codecs example_rows example_vectors (fun _ => [1; 2]) pre_rows.
Proof.
  intros h. rewrite pre_rows_empty. unfold waiting.
  assert (filter (fun cs => h ∈ cs /\ pre_rows RowConts (hash_from_hashes example_codecs cs) <> [])
    example_vectors = ∅) as ->; [|by rewrite elements_empty].
  apply set_eq. intros cs. rewrite elem_of_filter, pre_rows_empty. split; [|done].
  by intros [[_ ?] _].
Qed.
Lemma post_joins_follow :
  joins_follow example_codecs example_rows example_vectors (fun _ => [1; 2]) post_rows.
Proof.
  intros h. destruct (decide (h ∈ example_vector)) as [Hin|Hn].
  - assert (Forall (fun h => post_rows RowJoins h =
      join_body example_rows (fun _ => [1; 2]) <$>
        elements (waiting example_codecs example_vectors post_rows h)) example_vector) as Hall
      by (apply (bool_decide_unpack _); vm_compute; exact I).
    rewrite Forall_forall in Hall. by rewrite (Hall h Hin).
  - assert (post_rows RowJoins h = []) as ->.
    { apply post_rows_empty. intros Hk.
      destruct (at_keys_holds _ RowJoins h post_rows_at_keys Hk) as (_ & _ & _ & Hj). auto. }
    unfold waiting.
    assert (filter (fun cs => h ∈ cs /\ post_rows RowConts (hash_from_hashes example_codecs cs) <> [])
      example_vectors = ∅) as ->; [|by rewrite elements_empty].
    apply set_eq. intros cs. rewrite elem_of_filter. split; [|done].
    intros [[? _] ->%elem_of_singleton]. done.
Qed.
Lemma example_log_covers :
  log_covers example_codecs pre_rows post_rows example_log example_vectors.
Proof.
  assert (channels_of_consumes_affected example_log = example_vectors) as Haff
    by (apply (bool_decide_unpack _); vm_compute; exact I).
  split.
  - intros h _. rewrite pre_rows_empty.
    destruct (decide (row_prefix RowData :: h ∈ example_keys)) as [Hin|Hn].
    + destruct (at_keys_holds _ RowData h post_rows_at_keys Hin) as (_ & -> & _); done.
    + by rewrite post_rows_empty.
  - rewrite Haff. intros h Hh. rewrite pre_rows_empty, post_rows_empty; [done|]. intros Hin.
    destruct (at_keys_holds _ RowConts h post_rows_at_keys Hin) as (_ & _ & E & _).
    apply (Hh example_vector); [by apply elem_of_singleton|auto].
  - by rewrite Haff.
  - rewrite Haff. intros cs ->%elem_of_singleton. right. vm_compute. done.
Qed.

Lemma example_readers :
  get_history_reader_struct pre_root example_repo1 = Ok (reader_of pre_root) /\
  get_history_reader_struct post_root example_repo1 = Ok (reader_of post_root).
Proof.
  destruct example_repo1_ok as (Hi & Hr1 & Hr2 & _).
  destruct (root_forest example_codecs example_rows nodes_used leaves_used HU example_repo1
    pre_root Hi Hr1) as (c1 & rd1 & _ & _ & Hg1 & _).
  destruct (root_forest example_codecs example_rows nodes_used leaves_used HU example_repo1
    post_root Hi Hr2) as (c2 & rd2 & _ & _ & Hg2 & _).
  unfold reader_of. rewrite Hg1, Hg2. split; exact eq_refl.
Qed.
End ReplayExample.
Import RSpaceThms.Example RadixHistory.RadixExample HistoryExample ReplayExample.

Lemma block_replay_root_witness :
  exists sc acts h1 h2 h',
    StateChange_new example_codecs example_rows (history_reader example_rows (reader_of pre_root))
      (history_reader example_rows (reader_of post_root)) example_log = Ok sc /\
    compute_trie_actions example_codecs sc (history_reader example_rows (reader_of pre_root)) ∅
      (fun _ _ _ => Ok None) = Ok acts /\
    repository_reset pre_root example_repo1 = (Ok h1, h2) /\
    do_checkpoint example_codecs example_rows acts h1 = Ok h' /\ repository_root h' = post_root.
Proof.
  destruct example_repo1_ok as (Hi & Hr1 & Hr2 & _).
  exact (block_replay_root example_codecs example_rows nodes_used leaves_used
    (hd_nodes _ _ _ _ _ _ example_distinct) (hd_leaves _ _ _ _ _ _ example_distinct)
    example_repo1 pre_root post_root (reader_of pre_root) (reader_of post_root) example_log
    example_vectors (fun _ => [1; 2]) ∅ (fun _ _ _ => Ok None) Hi Hr1 Hr2
    (proj1 example_readers) (proj2 example_readers) pre_no_empty post_no_empty
    example_vectors_ok pre_joins_follow post_joins_follow example_log_covers
    (fun _ _ => eq_refl)).
Defined.
