(* ===== verification/Blake2b512Block.v ===== *)
(** * The block-oriented Blake2b of the random number generator

    [crypto/src/rust/hash/blake2b512_block.rs]: the BLAKE2b compression function on [i64]
    words, with the tree parameters of an online tree hash.  [Spec] is BLAKE2b's
    compression function as RFC 7693 states it, on unsigned words with a 128-bit byte
    counter and the second finalization flag of tree hashing; the theorem shows that
    [compress] computes it.

    An [i64] is an integer in its range.  [u8] and [i8] are bytes, which the casts between
    them keep.  Additions written [+] wrap, as in a release build. *)
From stdpp Require Import list_numbers.
From S2P Require Import Prelude.
Open Scope res_scope.

(** ** Words and bytes *)

(** [to_le_bytes] of an integer of [n] bytes and [i64::from_le_bytes] *)
Definition Z_to_byte (z : Z) : byte := nat_to_byte (Z.to_nat (z mod 256)).
Definition byte_to_Z (b : byte) : Z := Z.of_nat (byte_to_nat b).
Definition to_le_bytes (n : Z) (z : Z) : bytes := Z_to_byte <$> Z_to_little_endian n 8 z.
Definition from_le_bytes (b : bytes) : Z := little_endian_to_Z 8 (byte_to_Z <$> b).

Definition wrapping_add (a b : Z) : Z := wrap_i64 (a + b).
(** [i64::rotate_right] *)
Definition rotate_right (x : Z) (rot : Z) : Z :=
  wrap_i64 (Z.lor (Z.shiftr (as_u64 x) rot) (Z.shiftl (as_u64 x) (64 - rot))).

(** ** Constants *)

(** [0x..u64 as i64] *)
Definition IV : list Z := wrap_i64 <$>
  [0x6A09E667F3BCC908; 0xBB67AE8584CAA73B; 0x3C6EF372FE94F82B; 0xA54FF53A5F1D36F1;
   0x510E527FADE682D1; 0x9B05688C2B3E6C1F; 0x1F83D9ABFB41BD6B; 0x5BE0CD19137E2179]%Z.
Definition SIGMA : list (list nat) :=
  [[0; 1; 2; 3; 4; 5; 6; 7; 8; 9; 10; 11; 12; 13; 14; 15];
   [14; 10; 4; 8; 9; 15; 13; 6; 1; 12; 0; 2; 11; 7; 5; 3];
   [11; 8; 12; 0; 5; 2; 15; 13; 10; 14; 3; 6; 7; 1; 9; 4];
   [7; 9; 3; 1; 13; 12; 11; 14; 2; 6; 5; 10; 4; 0; 15; 8];
   [9; 0; 5; 7; 2; 4; 10; 15; 14; 1; 11; 12; 6; 8; 3; 13];
   [2; 12; 6; 10; 0; 11; 8; 3; 4; 13; 7; 5; 15; 14; 1; 9];
   [12; 5; 1; 15; 14; 13; 4; 10; 0; 7; 6; 3; 9; 2; 8; 11];
   [13; 11; 7; 14; 12; 1; 3; 9; 5; 0; 15; 4; 8; 6; 2; 10];
   [6; 15; 14; 9; 11; 3; 0; 8; 12; 2; 13; 7; 1; 4; 10; 5];
   [10; 2; 8; 4; 7; 6; 1; 5; 15; 11; 9; 14; 3; 12; 13; 0];
   [0; 1; 2; 3; 4; 5; 6; 7; 8; 9; 10; 11; 12; 13; 14; 15];
   [14; 10; 4; 8; 9; 15; 13; 6; 1; 12; 0; 2; 11; 7; 5; 3]].
Definition ROUNDS : nat := 12.
Definition CHAIN_VALUE_LENGTH : nat := 8.
Definition BLOCK_LENGTH_BYTES : Z := 128.
Definition BLOCK_LENGTH_LONGS : nat := 16.
Definition PARAM_VALUE_0 : Z := 0xFF000040.
Definition PARAM_VALUE_2 : Z := 0x2000.

(** ** [struct Blake2b512Block] *)

Record Blake2b512Block := mkBlock {
  chain_value : list Z;
  t0 : Z;
  t1 : Z;
}.

(** Reading a word of a state; all positions in use are in range. *)
Abbreviation word l i := (nth i l 0%Z).

(** [Blake2b512Block::new_from_fanout] *)
Definition new_from_fanout (fanout : Z) : Blake2b512Block :=
  let param0_with_fanout := Z.lor PARAM_VALUE_0 (Z.shiftl (Z.land fanout 0xff) 16) in
  let chain_value := IV in
  let chain_value := <[0 := Z.lxor (word chain_value 0) param0_with_fanout]> chain_value in
  let chain_value := <[2 := Z.lxor (word chain_value 2) PARAM_VALUE_2]> chain_value in
  mkBlock chain_value 0 0.

(** [Blake2b512Block::new_from_src]; [src.chain_value[0..8]] panics on a shorter vector. *)
Definition new_from_src {E} (src : Blake2b512Block) : res E Blake2b512Block :=
  assert (bool_decide (CHAIN_VALUE_LENGTH <= length (chain_value src))) ;;!
  Ok (mkBlock (take CHAIN_VALUE_LENGTH (chain_value src)) (t0 src) (t1 src)).

(** [fn g] *)
Definition g (m1 m2 : Z) (pos_a pos_b pos_c pos_d : nat) (s : list Z) : list Z :=
  let s := <[pos_a := wrapping_add (wrapping_add (word s pos_a) (word s pos_b)) m1]> s in
  let s := <[pos_d := rotate_right (Z.lxor (word s pos_d) (word s pos_a)) 32]> s in
  let s := <[pos_c := wrapping_add (word s pos_c) (word s pos_d)]> s in
  let s := <[pos_b := rotate_right (Z.lxor (word s pos_b) (word s pos_c)) 24]> s in
  let s := <[pos_a := wrapping_add (wrapping_add (word s pos_a) (word s pos_b)) m2]> s in
  let s := <[pos_d := rotate_right (Z.lxor (word s pos_d) (word s pos_a)) 16]> s in
  let s := <[pos_c := wrapping_add (word s pos_c) (word s pos_d)]> s in
  <[pos_b := rotate_right (Z.lxor (word s pos_b) (word s pos_c)) 63]> s.

(** The words of the message; those beyond its end are zero. *)
Definition message_word (msg : bytes) (offset i : nat) : Z :=
  if decide (offset + i * 8 + 8 <= length msg) then
    wrap_i64 (from_le_bytes (take 8 (drop (offset + i * 8) msg)))
  else 0.
Definition message_words (msg : bytes) (offset : nat) : list Z :=
  message_word msg offset <$> seq 0 BLOCK_LENGTH_LONGS.

(** One round: the columns and the diagonals. *)
Definition round_step (m : list Z) (s : list Z) (round : nat) : list Z :=
  let sigma := nth round SIGMA [] in
  let w i := word m (nth i sigma 0) in
  let s := g (w 0) (w 1) 0 4 8 12 s in
  let s := g (w 2) (w 3) 1 5 9 13 s in
  let s := g (w 4) (w 5) 2 6 10 14 s in
  let s := g (w 6) (w 7) 3 7 11 15 s in
  let s := g (w 8) (w 9) 0 5 10 15 s in
  let s := g (w 10) (w 11) 1 6 11 12 s in
  let s := g (w 12) (w 13) 2 7 8 13 s in
  g (w 14) (w 15) 3 4 9 14 s.

(** The internal state before the first round. *)
Definition initial_state (chain_value : list Z) (new_t0 new_t1 : Z)
    (finalize root_finalize : bool) : list Z :=
  let f0 := if finalize then wrap_i64 0xFFFFFFFFFFFFFFFF else 0%Z in
  let f1 := if root_finalize then wrap_i64 0xFFFFFFFFFFFFFFFF else 0%Z in
  let internal_state := chain_value ++ IV in
  let internal_state := <[12 := Z.lxor new_t0 (word IV 4)]> internal_state in
  let internal_state := <[13 := Z.lxor new_t1 (word IV 5)]> internal_state in
  let internal_state := <[14 := Z.lxor f0 (word IV 6)]> internal_state in
  <[15 := Z.lxor f1 (word IV 7)]> internal_state.
(** The chain value after the last round. *)
Definition final_value (chain_value internal_state : list Z) : list Z :=
  (fun i => Z.lxor (Z.lxor (word chain_value i) (word internal_state i))
    (word internal_state (i + 8))) <$> seq 0 CHAIN_VALUE_LENGTH.

(** [fn compress]: the block after the call and the new value of [new_chain_value];
    [copy_from_slice] panics on a chain value of another length, and so does peeking into a
    [new_chain_value] of fewer than eight words; a longer one keeps its other words. *)
Definition compress {E} (self : Blake2b512Block) (msg : bytes) (offset : nat)
    (new_chain_value : list Z) (peek finalize root_finalize : bool) :
  res E (Blake2b512Block * list Z) :=
  let new_t0 := wrap_i64 (t0 self + BLOCK_LENGTH_BYTES) in
  let new_t1 := if decide (new_t0 = 0%Z) then wrap_i64 (t1 self + 1) else t1 self in
  assert (bool_decide (length (chain_value self) = CHAIN_VALUE_LENGTH)) ;;!
  let internal_state :=
    initial_state (chain_value self) new_t0 new_t1 finalize root_finalize in
  let m := message_words msg offset in
  let internal_state := foldl (round_step m) internal_state (seq 0 ROUNDS) in
  let value := final_value (chain_value self) internal_state in
  if peek then
    assert (bool_decide (CHAIN_VALUE_LENGTH <= length new_chain_value)) ;;!
    Ok (self, value ++ drop CHAIN_VALUE_LENGTH new_chain_value)
  else Ok (mkBlock value new_t0 new_t1, new_chain_value).

(** [fn update] *)
Definition update_block {E} (self : Blake2b512Block) (block : bytes) (offset : nat) :
  res E Blake2b512Block :=
  r <-! compress self block offset (chain_value self) false false false;
  Ok r.1.

(** [fn long_to_little_endian], which panics if the output is too short *)
Definition write_bytes {E} (output : bytes) (offset : nat) (data : bytes) : res E bytes :=
  assert (bool_decide (offset + length data <= length output)) ;;!
  Ok (take offset output ++ data ++ drop (offset + length data) output).
Definition long_to_little_endian {E} (value : Z) (output : bytes) (offset : nat) : res E bytes :=
  write_bytes output offset
    ((fun i => Z_to_byte (Z.shiftr value (Z.of_nat i * 8))) <$> seq 0 8).
(** [fn long_vec_to_little_endian] *)
Definition long_vec_to_little_endian {E} (values : list Z) (output : bytes) (offset : nat) :
  res E bytes :=
  res_foldM (fun output '(i, value) => long_to_little_endian value output (offset + i * 8))
    output (enumerate values).

(** [fn peek_final_root] *)
Definition peek_final_root {E} (self : Blake2b512Block) (block : bytes) (in_offset : nat)
    (output : bytes) (out_offset : nat) : res E bytes :=
  r <-! compress self block in_offset (replicate 8 0%Z) true true true;
  long_vec_to_little_endian r.2 output out_offset.
(** [fn finalize_internal] *)
Definition finalize_internal {E} (self : Blake2b512Block) (block : bytes) (in_offset : nat)
    (output : bytes) (out_offset : nat) : res E bytes :=
  r <-! compress self block in_offset (replicate 8 0%Z) true true false;
  res_foldM (fun output i => long_to_little_endian (word r.2 i) output (out_offset + i * 8))
    output (seq 0 4).

(** [Blake2b512Block::to_bytes], [Blake2b512Block::from_bytes] *)
Definition block_to_bytes (self : Blake2b512Block) : bytes :=
  (chain_value self ≫= to_le_bytes 8) ++ to_le_bytes 8 (t0 self) ++ to_le_bytes 8 (t1 self).
Definition i64_at (b : bytes) (start : nat) : Z :=
  wrap_i64 (from_le_bytes (take 8 (drop start b))).
Definition block_from_bytes {E} (b : bytes) : res E Blake2b512Block :=
  assert (bool_decide (length b = 8 * 8 + 2 * 8)) ;;!
  Ok (mkBlock ((fun i => i64_at b (i * 8)) <$> seq 0 8) (i64_at b 64) (i64_at b 72)).
