(* ===== verification/Blake2bSpec.v ===== *)
(** * Blake2b512Block computes BLAKE2b's compression function

    [Spec] states the compression function of RFC 7693 (section 3) on unsigned 64-bit
    words; [compress_refines_blake2b] relates it to [compress], which works on [i64]. *)
From stdpp Require Import list_numbers.
From S2P Require Import Prelude Blake2b512Block.

Module Spec.
Open Scope Z_scope.
(** A word is an integer modulo 2^64; the names are those of the RFC. *)
Definition ror (x n : Z) : Z := Z.lor (Z.shiftr x n) (Z.shiftl x (64 - n)) mod 2 ^ 64.
Definition iv : list Z :=
  [0x6A09E667F3BCC908; 0xBB67AE8584CAA73B; 0x3C6EF372FE94F82B; 0xA54FF53A5F1D36F1;
   0x510E527FADE682D1; 0x9B05688C2B3E6C1F; 0x1F83D9ABFB41BD6B; 0x5BE0CD19137E2179].
(** The message schedule of section 2.7. *)
Definition sigma : list (list nat) :=
  [[0; 1; 2; 3; 4; 5; 6; 7; 8; 9; 10; 11; 12; 13; 14; 15];
   [14; 10; 4; 8; 9; 15; 13; 6; 1; 12; 0; 2; 11; 7; 5; 3];
   [11; 8; 12; 0; 5; 2; 15; 13; 10; 14; 3; 6; 7; 1; 9; 4];
   [7; 9; 3; 1; 13; 12; 11; 14; 2; 6; 5; 10; 4; 0; 15; 8];
   [9; 0; 5; 7; 2; 4; 10; 15; 14; 1; 11; 12; 6; 8; 3; 13];
   [2; 12; 6; 10; 0; 11; 8; 3; 4; 13; 7; 5; 15; 14; 1; 9];
   [12; 5; 1; 15; 14; 13; 4; 10; 0; 7; 6; 3; 9; 2; 8; 11];
   [13; 11; 7; 14; 12; 1; 3; 9; 5; 0; 15; 4; 8; 6; 2; 10];
   [6; 15; 14; 9; 11; 3; 0; 8; 12; 2; 13; 7; 1; 4; 10; 5];
   [10; 2; 8; 4; 7; 6; 1; 5; 15; 11; 9; 14; 3; 12; 13; 0]]%nat.

(** The mixing function G. *)
Definition G (v : list Z) (a b c d : nat) (x y : Z) : list Z :=
  let v := <[a := (word v a + word v b + x) mod 2 ^ 64]> v in
  let v := <[d := ror (Z.lxor (word v d) (word v a)) 32]> v in
  let v := <[c := (word v c + word v d) mod 2 ^ 64]> v in
  let v := <[b := ror (Z.lxor (word v b) (word v c)) 24]> v in
  let v := <[a := (word v a + word v b + y) mod 2 ^ 64]> v in
  let v := <[d := ror (Z.lxor (word v d) (word v a)) 16]> v in
  let v := <[c := (word v c + word v d) mod 2 ^ 64]> v in
  <[b := ror (Z.lxor (word v b) (word v c)) 63]> v.

Definition round (m v : list Z) (i : nat) : list Z :=
  let s := nth (i mod 10) sigma [] in
  let x k := word m (nth k s 0%nat) in
  foldl (fun v '(k, (a, b, c, d)) => G v a b c d (x (2 * k)%nat) (x (2 * k + 1)%nat)) v
    [(0, (0, 4, 8, 12)); (1, (1, 5, 9, 13)); (2, (2, 6, 10, 14)); (3, (3, 7, 11, 15));
     (4, (0, 5, 10, 15)); (5, (1, 6, 11, 12)); (6, (2, 7, 8, 13)); (7, (3, 4, 9, 14))]%nat.

(** The compression function F at the byte counter [t]; the flags set the words 14 (last
    block) and 15 (last node, for trees). *)
Definition F (h m : list Z) (t : Z) (last_block last_node : bool) : list Z :=
  let ones := 2 ^ 64 - 1 in
  let v := h ++ iv in
  let v := <[12%nat := Z.lxor (t mod 2 ^ 64) (word iv 4)]> v in
  let v := <[13%nat := Z.lxor ((t / 2 ^ 64) mod 2 ^ 64) (word iv 5)]> v in
  let v := <[14%nat := Z.lxor (if last_block then ones else 0) (word iv 6)]> v in
  let v := <[15%nat := Z.lxor (if last_node then ones else 0) (word iv 7)]> v in
  let v := foldl (round m) v (seq 0 12) in
  (fun i => Z.lxor (Z.lxor (word h i) (word v i)) (word v (i + 8))) <$> seq 0 8.

(** The sixteen little-endian words of a block of 128 bytes. *)
Definition block_words (block : bytes) : list Z :=
  (fun i => from_le_bytes (take 8 (drop (i * 8) block))) <$> seq 0 16.

(** BLAKE2b-512 of "abc", from appendix A of the RFC: the sequential mode sets the
    parameter block [0x01010040] and counts the three bytes of the message. *)
Lemma blake2b_abc :
  F (<[0%nat := Z.lxor (word iv 0) 0x01010040]> iv)
    (block_words ([x61; x62; x63]%byte ++ replicate 125 x00)) 3 true false =
  [0x0D4D1C983FA580BA; 0xE9F6129FB697276A; 0xB7C45A68142F214C; 0xD1A2FFDB6FBB124B;
   0x2D79AB2A39C5877D; 0x95CC3345DED552C2; 0x5A92F1DBA88AD318; 0x239900D4ED8623B9].
Proof. vm_compute. reflexivity. Qed.
(** BLAKE2b-512 of the bytes 0 to 127, a known answer in which every word of the message
    differs, so that every entry of the schedule matters. *)
Lemma blake2b_known_answer :
  F (<[0%nat := Z.lxor (word iv 0) 0x01010040]> iv)
    (block_words ((fun i => Z_to_byte (Z.of_nat i)) <$> seq 0 128)) 128 true false =
  [0xDAE2479C78E31923; 0xA1C2BE617F80FEA5; 0x32FF193FA07F53A6; 0x0E7E4BD6BFEC7EE8;
   0x043B33AC39F4CF8C; 0x611AD1DDC4B0190F; 0x39A0100FFEC14AE2; 0x15D1A30DCC5D6C80].
Proof. vm_compute. reflexivity. Qed.
End Spec.

(** ** Signed and unsigned words *)

Abbreviation unsigned := (fmap as_u64).

Lemma as_u64_wrapping_add a b :
  as_u64 (wrapping_add a b) = ((as_u64 a + as_u64 b) mod 2 ^ 64)%Z.
Proof. unfold wrapping_add. rewrite as_u64_wrap. apply Zplus_mod. Qed.
Lemma as_u64_rotate_right x r : as_u64 (rotate_right x r) = Spec.ror (as_u64 x) r.
Proof. unfold rotate_right. apply as_u64_wrap. Qed.
Lemma as_u64_lxor a b : as_u64 (Z.lxor a b) = Z.lxor (as_u64 a) (as_u64 b).
Proof.
  unfold as_u64. rewrite <- !Z.land_ones by lia. apply Z.bits_inj'. intros n _.
  rewrite !Z.land_spec, !Z.lxor_spec, !Z.land_spec.
  by destruct (Z.testbit a n), (Z.testbit b n), (Z.testbit (Z.ones 64) n).
Qed.
Lemma as_u64_word (l : list Z) i : as_u64 (word l i) = word (unsigned l) i.
Proof. change 0%Z with (as_u64 0) at 2. symmetry. apply map_nth. Qed.
Lemma as_u64_mod z : (as_u64 z mod 2 ^ 64 = as_u64 z)%Z.
Proof. apply Z.mod_mod. lia. Qed.

Lemma as_u64_add3 a b c :
  as_u64 (wrapping_add (wrapping_add a b) c) = ((as_u64 a + as_u64 b + as_u64 c) mod 2 ^ 64)%Z.
Proof. rewrite !as_u64_wrapping_add. apply Zplus_mod_idemp_l. Qed.

(** The three kinds of assignments of [g] and [Spec.G]. *)
Definition add3_step (a b : nat) (x : Z) (s : list Z) : list Z :=
  <[a := wrapping_add (wrapping_add (word s a) (word s b)) x]> s.
Definition add_step (c d : nat) (s : list Z) : list Z :=
  <[c := wrapping_add (word s c) (word s d)]> s.
Definition rot_step (d a : nat) (r : Z) (s : list Z) : list Z :=
  <[d := rotate_right (Z.lxor (word s d) (word s a)) r]> s.

Lemma add3_step_spec a b x s :
  unsigned (add3_step a b x s) =
  <[a := ((word (unsigned s) a + word (unsigned s) b + as_u64 x) mod 2 ^ 64)%Z]> (unsigned s).
Proof. unfold add3_step. by rewrite list_fmap_insert, as_u64_add3, !as_u64_word. Qed.
Lemma add_step_spec c d s :
  unsigned (add_step c d s) =
  <[c := ((word (unsigned s) c + word (unsigned s) d) mod 2 ^ 64)%Z]> (unsigned s).
Proof. unfold add_step. by rewrite list_fmap_insert, as_u64_wrapping_add, !as_u64_word. Qed.
Lemma rot_step_spec d a r s :
  unsigned (rot_step d a r s) =
  <[d := Spec.ror (Z.lxor (word (unsigned s) d) (word (unsigned s) a)) r]> (unsigned s).
Proof.
  unfold rot_step. by rewrite list_fmap_insert, as_u64_rotate_right, as_u64_lxor, !as_u64_word.
Qed.

Lemma g_steps m1 m2 a b c d s :
  g m1 m2 a b c d s =
  rot_step b c 63 (add_step c d (rot_step d a 16 (add3_step a b m2
    (rot_step b c 24 (add_step c d (rot_step d a 32 (add3_step a b m1 s))))))).
Proof. reflexivity. Qed.
Lemma g_spec m1 m2 a b c d s :
  unsigned (g m1 m2 a b c d s) = Spec.G (unsigned s) a b c d (as_u64 m1) (as_u64 m2).
Proof.
  rewrite g_steps. unfold Spec.G. rewrite <- add3_step_spec, <- rot_step_spec.
  rewrite <- add_step_spec, <- rot_step_spec, <- add3_step_spec, <- rot_step_spec.
  by rewrite <- add_step_spec, <- rot_step_spec.
Qed.

Lemma SIGMA_rows i : i < 12 -> nth i SIGMA [] = nth (i mod 10) Spec.sigma [].
Proof. intros Hi. do 12 (destruct i as [|i]; [done|]). lia. Qed.

Lemma round_spec m s i : i < 12 -> unsigned (round_step m s i) = Spec.round (unsigned m) (unsigned s) i.
Proof.
  intros Hi. unfold round_step, Spec.round. rewrite <- SIGMA_rows by done.
  cbn [foldl Nat.mul Nat.add]. by rewrite !g_spec, !as_u64_word.
Qed.

Lemma rounds_spec m s l :
  Forall (fun i => i < 12) l ->
  unsigned (foldl (round_step m) s l) = foldl (Spec.round (unsigned m)) (unsigned s) l.
Proof.
  revert s. induction l as [|i l IH]; intros s Hl; [done|].
  apply Forall_cons in Hl as [Hi Hl]. cbn [foldl]. by rewrite IH, round_spec.
Qed.

(** ** Ranges *)

Lemma i64_range_shiftr z : i64_range z <-> Z.shiftr z 63 = 0%Z \/ Z.shiftr z 63 = (-1)%Z.
Proof.
  unfold i64_range, i64_min, i64_max. rewrite Z.shiftr_div_pow2 by lia.
  pose proof (Z.div_mod z (2 ^ 63) ltac:(lia)).
  pose proof (Z.mod_pos_bound z (2 ^ 63) ltac:(lia)). split; intros; nia.
Qed.
Lemma i64_range_lxor a b : i64_range a -> i64_range b -> i64_range (Z.lxor a b).
Proof.
  rewrite !i64_range_shiftr, Z.shiftr_lxor. intros [->| ->] [->| ->]; simpl; auto.
Qed.
Lemma i64_range_0 : i64_range 0.
Proof. unfold i64_range, i64_min, i64_max. lia. Qed.
Lemma i64_range_word l i : Forall i64_range l -> i64_range (word l i).
Proof.
  intros Hl. revert i. induction Hl; intros [|i]; simpl; auto using i64_range_0.
Qed.

Lemma g_range m1 m2 a b c d s : Forall i64_range s -> Forall i64_range (g m1 m2 a b c d s).
Proof.
  intros Hs. rewrite g_steps.
  assert (forall a b x s, Forall i64_range s -> Forall i64_range (add3_step a b x s)) as H3
    by (intros; apply Forall_insert; [done|apply wrap_i64_range]).
  assert (forall a b s, Forall i64_range s -> Forall i64_range (add_step a b s)) as H2
    by (intros; apply Forall_insert; [done|apply wrap_i64_range]).
  assert (forall a b r s, Forall i64_range s -> Forall i64_range (rot_step a b r s)) as Hr
    by (intros; apply Forall_insert; [done|apply wrap_i64_range]).
  auto 10.
Qed.
Lemma rounds_range m s l : Forall i64_range s -> Forall i64_range (foldl (round_step m) s l).
Proof.
  revert s. induction l as [|i l IH]; intros s Hs; [done|]. cbn [foldl]. apply IH.
  unfold round_step. by repeat apply g_range.
Qed.

(** ** The theorem *)

(** The bytes hashed so far. *)
Definition counter (b : Blake2b512Block) : Z := (as_u64 (t0 b) + 2 ^ 64 * as_u64 (t1 b))%Z.
Record block_wf (b : Blake2b512Block) : Prop := {
  bw_length : length (chain_value b) = 8;
  bw_words : Forall i64_range (chain_value b);
  bw_t0 : i64_range (t0 b) /\ (t0 b mod 128 = 0)%Z;
  bw_t1 : i64_range (t1 b);
}.

Lemma fanout_param_range fanout :
  (0 <= fanout < 256)%Z ->
  i64_range (Z.lor PARAM_VALUE_0 (Z.shiftl (Z.land fanout 0xff) 16)).
Proof.
  intros Hf. assert (Z.land fanout 0xff = fanout) as ->.
  { change 0xff%Z with (Z.ones 8). rewrite Z.land_ones by lia. by apply Z.mod_small. }
  apply i64_range_shiftr. left. rewrite Z.shiftr_lor.
  rewrite Z.shiftr_shiftl_r by lia. rewrite (Z.shiftr_div_pow2 fanout) by lia.
  rewrite Z.div_small by (simpl; lia). done.
Qed.

Lemma new_from_fanout_wf fanout : (0 <= fanout < 256)%Z -> block_wf (new_from_fanout fanout).
Proof.
  intros Hf. assert (Forall i64_range IV) as HIV.
  { apply Forall_fmap. apply Forall_forall. intros z _. apply wrap_i64_range. }
  split; [done| |split; [apply i64_range_0|done]|apply i64_range_0].
  unfold new_from_fanout. cbn [chain_value].
  set (s := <[0 := _]> IV).
  assert (Forall i64_range s) as Hs.
  { apply Forall_insert; [done|]. apply i64_range_lxor; [by apply i64_range_word|].
    by apply fanout_param_range. }
  apply Forall_insert; [done|]. apply i64_range_lxor; [by apply i64_range_word|].
  unfold i64_range, i64_min, i64_max, PARAM_VALUE_2. lia.
Qed.

(** The low word of the counter stays a multiple of the block length. *)
Lemma divide_128 : (128 | 2 ^ 64)%Z.
Proof. by exists (2 ^ 57)%Z. Qed.
Lemma as_u64_mod_128 z : (as_u64 z mod 128 = z mod 128)%Z.
Proof.
  unfold as_u64. symmetry. apply Znumtheory.Zmod_div_mod; [lia..|]. apply divide_128.
Qed.
Lemma low_word_step z :
  (z mod 128 = 0)%Z ->
  as_u64 (wrap_i64 (z + 128)) = ((as_u64 z + 128) mod 2 ^ 64)%Z /\
  ((wrap_i64 (z + 128) = 0 /\ as_u64 z = 2 ^ 64 - 128) \/
   (wrap_i64 (z + 128) <> 0 /\ 0 <= as_u64 z + 128 < 2 ^ 64))%Z.
Proof.
  intros Hm.
  assert (as_u64 (wrap_i64 (z + 128)) = (as_u64 z + 128) mod 2 ^ 64)%Z as E0.
  { rewrite as_u64_wrap. unfold as_u64. by rewrite Zplus_mod_idemp_l. }
  split; [done|]. rewrite <- as_u64_mod_128 in Hm.
  assert (0 <= as_u64 z < 2 ^ 64)%Z as Hb by (apply Z.mod_pos_bound; lia).
  apply Z.div_exact in Hm; [|lia].
  assert (as_u64 z / 128 < 2 ^ 57)%Z by (apply Z.div_lt_upper_bound; lia).
  destruct (decide (as_u64 z = 2 ^ 64 - 128)%Z) as [E|Hne]; [left|right].
  - split; [|done]. rewrite E in E0. change ((2 ^ 64 - 128 + 128) mod 2 ^ 64)%Z with 0%Z in E0.
    pose proof (wrap_i64_range (z + 128)) as Hr. unfold i64_range, i64_min, i64_max in Hr.
    unfold as_u64 in E0. pose proof (Z.div_mod (wrap_i64 (z + 128)) (2 ^ 64) ltac:(lia)). nia.
  - split; [|lia]. intros E. rewrite E in E0. change (as_u64 0) with 0%Z in E0.
    rewrite Z.mod_small in E0 by lia. lia.
Qed.

(** The counter after another block. *)
Definition next_t0 (b : Blake2b512Block) : Z := wrap_i64 (t0 b + BLOCK_LENGTH_BYTES).
Definition next_t1 (b : Blake2b512Block) : Z :=
  if decide (next_t0 b = 0%Z) then wrap_i64 (t1 b + 1) else t1 b.
Lemma counter_step b :
  block_wf b ->
  as_u64 (next_t0 b) = ((counter b + 128) mod 2 ^ 64)%Z /\
  as_u64 (next_t1 b) = (((counter b + 128) / 2 ^ 64) mod 2 ^ 64)%Z /\
  (next_t0 b mod 128 = 0)%Z /\ i64_range (next_t0 b) /\ i64_range (next_t1 b).
Proof.
  intros [_ _ [H0 Hm] H1]. destruct (low_word_step (t0 b) Hm) as [E0 Hz].
  assert (counter b + 128 = as_u64 (t0 b) + 128 + as_u64 (t1 b) * 2 ^ 64)%Z as ->
    by (unfold counter; lia).
  unfold next_t1, next_t0, BLOCK_LENGTH_BYTES in *. split_and!.
  - by rewrite E0, Z_mod_plus_full.
  - rewrite Z.div_add by lia. case_decide as Hd.
    + destruct Hz as [[_ ->]|[? _]]; [|done].
      change ((2 ^ 64 - 128 + 128) / 2 ^ 64)%Z with 1%Z.
      rewrite as_u64_wrap. unfold as_u64. rewrite Zplus_mod_idemp_r. f_equal. lia.
    + destruct Hz as [[? _]|[_ Hr]]; [done|].
      by rewrite (Z.div_small (as_u64 (t0 b) + 128)), Z.add_0_l, as_u64_mod by lia.
  - rewrite <- as_u64_mod_128, E0.
    rewrite <- (Znumtheory.Zmod_div_mod 128 (2 ^ 64)) by (try apply divide_128; lia).
    rewrite <- Zplus_mod_idemp_l, as_u64_mod_128, Hm. done.
  - apply wrap_i64_range.
  - case_decide; [apply wrap_i64_range|done].
Qed.

Lemma from_le_bytes_range (b : bytes) : (0 <= from_le_bytes b < 2 ^ (8 * Z.of_nat (length b)))%Z.
Proof.
  unfold from_le_bytes. rewrite Z.mul_comm, <- (length_fmap byte_to_Z b).
  apply little_endian_to_Z_bound; [lia|]. apply Forall_fmap, Forall_forall. intros x _. simpl.
  unfold byte_to_Z. pose proof (byte_to_nat_lt x). lia.
Qed.

Lemma message_words_spec msg offset :
  offset + 128 <= length msg ->
  unsigned (message_words msg offset) = Spec.block_words (take 128 (drop offset msg)).
Proof.
  intros Hlen. unfold message_words, Spec.block_words. rewrite <- list_fmap_compose.
  apply list_fmap_ext. intros k i Hi%lookup_seq. unfold message_word. simpl.
  rewrite decide_True by (unfold BLOCK_LENGTH_LONGS in *; lia).
  assert (take 8 (drop (i * 8) (take 128 (drop offset msg))) =
          take 8 (drop (offset + i * 8) msg)) as ->.
  { rewrite firstn_skipn_comm, take_take, Nat.min_l, <- firstn_skipn_comm, drop_drop by lia. done. }
  rewrite as_u64_wrap. unfold as_u64. apply Z.mod_small.
  pose proof (from_le_bytes_range (take 8 (drop (offset + i * 8) msg))) as Hr.
  rewrite length_take_le in Hr by (rewrite length_drop; lia). done.
Qed.

Lemma IV_range : Forall i64_range IV.
Proof. apply Forall_fmap, Forall_forall. intros z _. apply wrap_i64_range. Qed.

Lemma initial_state_spec h t0 t1 f r :
  unsigned (initial_state h t0 t1 f r) =
  let ones := (2 ^ 64 - 1)%Z in
  let v := unsigned h ++ Spec.iv in
  let v := <[12 := Z.lxor (as_u64 t0) (word Spec.iv 4)]> v in
  let v := <[13 := Z.lxor (as_u64 t1) (word Spec.iv 5)]> v in
  let v := <[14 := Z.lxor (if f then ones else 0) (word Spec.iv 6)]> v in
  <[15 := Z.lxor (if r then ones else 0) (word Spec.iv 7)]> v.
Proof.
  unfold initial_state. rewrite !list_fmap_insert, fmap_app, !as_u64_lxor, !as_u64_word.
  by destruct f, r.
Qed.
Lemma initial_state_range h t0 t1 f r :
  Forall i64_range h -> i64_range t0 -> i64_range t1 ->
  Forall i64_range (initial_state h t0 t1 f r).
Proof.
  intros Hh H0 H1. pose proof IV_range as HIV.
  assert (forall b : bool, i64_range (if b then wrap_i64 0xFFFFFFFFFFFFFFFF else 0)) as Hf
    by (intros []; [apply wrap_i64_range|apply i64_range_0]).
  assert (forall k z i l, Forall i64_range l -> i64_range z ->
    Forall i64_range (<[k := Z.lxor z (word IV i)]> l)) as Hi.
  { intros k z i l Hl Hz. apply Forall_insert; [done|].
    apply i64_range_lxor; [done|by apply i64_range_word]. }
  unfold initial_state. repeat apply Hi; [|done..]. by apply Forall_app.
Qed.
Lemma final_value_spec h v :
  unsigned (final_value h v) =
  (fun i => Z.lxor (Z.lxor (word (unsigned h) i) (word (unsigned v) i))
    (word (unsigned v) (i + 8))) <$> seq 0 8.
Proof.
  unfold final_value. rewrite <- list_fmap_compose. apply list_fmap_ext.
  intros k i _. simpl. by rewrite !as_u64_lxor, !as_u64_word.
Qed.
Lemma final_value_range h v :
  Forall i64_range h -> Forall i64_range v -> Forall i64_range (final_value h v).
Proof.
  intros Hh Hv. apply Forall_fmap, Forall_forall. intros i _. simpl.
  repeat apply i64_range_lxor; by apply i64_range_word.
Qed.

Lemma compress_spec {E} self msg offset ncv peek finalize root_finalize :
  block_wf self -> offset + 128 <= length msg -> (peek = true -> 8 <= length ncv) ->
  exists self' cv,
    compress (E:=E) self msg offset ncv peek finalize root_finalize = Ok (self', cv) /\
    let h := Spec.F (unsigned (chain_value self))
      (Spec.block_words (take 128 (drop offset msg))) (counter self + 128)
      finalize root_finalize in
    if peek then self' = self /\ unsigned (take 8 cv) = h /\ drop 8 cv = drop 8 ncv
    else unsigned (chain_value self') = h /\ block_wf self' /\
      counter self' = ((counter self + 128) mod 2 ^ 128)%Z /\ cv = ncv.
Proof.
  intros Hwf Hlen Hncv. pose proof (counter_step self Hwf) as (Ht0 & Ht1 & Hm & Hr0 & Hr1).
  unfold compress. rewrite bool_decide_eq_true_2 by apply Hwf. cbn [assert res_bind].
  fold (next_t0 self). fold (next_t1 self).
  set (fin := foldl _ _ _).
  assert (Forall i64_range fin) as Hfin.
  { apply rounds_range, initial_state_range; [apply Hwf|done..]. }
  assert (unsigned (final_value (chain_value self) fin) = Spec.F (unsigned (chain_value self))
    (Spec.block_words (take 128 (drop offset msg))) (counter self + 128)
      finalize root_finalize) as Hv.
  { rewrite final_value_spec. unfold fin, Spec.F.
    rewrite rounds_spec, message_words_spec, initial_state_spec, Ht0, Ht1; [done..|].
    apply Forall_seq. unfold ROUNDS. lia. }
  destruct peek.
  { rewrite bool_decide_eq_true_2 by (unfold CHAIN_VALUE_LENGTH; auto). eexists _, _.
    split; [reflexivity|]. set (v := final_value _ _) in *.
    assert (length v = 8) as Hl8 by (unfold v, final_value; by rewrite length_fmap, length_seq).
    split; [done|]. by rewrite take_app_length', drop_app_length'. }
  eexists _, _. split; [reflexivity|].
  cbn [chain_value]. split_and!; [exact Hv| | |done].
  - split; cbn [chain_value t0 t1]; [done| |done|done]. apply final_value_range; [apply Hwf|done].
  - unfold counter at 1. cbn [t0 t1]. rewrite Ht0, Ht1.
    change (2 ^ 128)%Z with (2 ^ 64 * 2 ^ 64)%Z. by rewrite Z.rem_mul_r by lia.
Qed.

(** Peeking into a vector of fewer than eight words panics. *)
Lemma compress_peek_short {E} self msg offset ncv finalize root_finalize :
  length ncv < 8 ->
  compress (E:=E) self msg offset ncv true finalize root_finalize = Panic.
Proof.
  intros Hs. unfold compress. destruct (bool_decide (length (chain_value self) = _)); [|done].
  cbn [assert res_bind]. rewrite bool_decide_eq_false_2; [done|]. unfold CHAIN_VALUE_LENGTH. lia.
Qed.

(** C32: [compress] does not panic on a block built by this module, 128 bytes of message
    and, when it peeks, a vector of at least eight words to write to. The value it computes,
    stored in the block or written to the first eight words of that vector, is BLAKE2b's
    compression function of the chain value, the message and the number of bytes hashed
    including this block; a peek leaves the block and the rest of the vector as they were. *)
Theorem compress_refines_blake2b {E} self msg offset ncv peek finalize root_finalize :
  block_wf self -> offset + 128 <= length msg -> (peek = true -> 8 <= length ncv) ->
  exists self' cv,
    compress (E:=E) self msg offset ncv peek finalize root_finalize = Ok (self', cv) /\
    let h := Spec.F (unsigned (chain_value self))
      (Spec.block_words (take 128 (drop offset msg))) (counter self + 128)
      finalize root_finalize in
    if peek then self' = self /\ unsigned (take 8 cv) = h /\ drop 8 cv = drop 8 ncv
    else unsigned (chain_value self') = h /\ block_wf self' /\
      counter self' = ((counter self + 128) mod 2 ^ 128)%Z /\ cv = ncv.
Proof. apply compress_spec. Qed.
