(* ===== verification/Blake2b512Random.v ===== *)
(** * The splittable random number generator

    [crypto/src/rust/hash/blake2b512_random.rs], which makes the unforgeable names of
    Rholang, and the function [split] of [rholang/src/rust/interpreter/reduce.rs] that gives
    every term of a parallel composition its own generator.

    The state is that of the source; indexing a vector out of range, [copy_from_slice] on
    slices of different lengths and a failed assertion panic.  [create_from_length] is
    [create_from_bytes] on bytes from the operating system. *)
From S2P Require Import Prelude Blake2b512Block.
Open Scope res_scope.

(** [struct Blake2b512Random]; [count_view] holds [u64]s. *)
Record Blake2b512Random := mkRandom {
  digest : Blake2b512Block;
  last_block : bytes;
  path_view : bytes;
  count_view : list Z;
  hash_array : bytes;
  position : Z;
  path_position : nat;
}.

Definition zeros (n : nat) : bytes := replicate n x00.
Definition u64_at (b : bytes) (start : nat) : Z := from_le_bytes (take 8 (drop start b)).
(** The words of [count_view]. *)
Definition u64_words (b : bytes) (long_count : nat) : list Z :=
  (fun i => u64_at b (i * 8)) <$> seq 0 long_count.

(** [Blake2b512Random::new] *)
Definition Random_new (digest : Blake2b512Block) (last_block : bytes) : Blake2b512Random :=
  mkRandom digest last_block (zeros 112)
    (u64_words last_block (length last_block / 8)) (zeros 64) 0 0.

Definition set_digest (r : Blake2b512Random) (d : Blake2b512Block) : Blake2b512Random :=
  mkRandom d (last_block r) (path_view r) (count_view r) (hash_array r) (position r)
    (path_position r).

Section random.
Context {E : Type}.
Local Notation res := (res E).

(** [v[i] = x] on a vector *)
Definition set_index {A} (v : list A) (i : nat) (x : A) : res (list A) :=
  assert (bool_decide (i < length v)) ;;! Ok (<[i := x]> v).

(** [(offset..(offset + length - 127)).step_by(128)], empty for a shorter input *)
Definition block_range (offset length : nat) : list nat :=
  if decide (127 < length) then
    (fun k => offset + 128 * k) <$> seq 0 ((length - 127 + 127) / 128)
  else [].
(** [Blake2b512Random::create] *)
Definition create (init : bytes) (offset length : nat) : res Blake2b512Random :=
  let result := Random_new (new_from_fanout 0) (zeros 128) in
  let range := block_range offset length in
  digest <-! res_foldM (fun d base => update_block d init base) (digest result) range;
  let partial_base := match last range with Some b => b + 128 | None => offset end in
  digest <-!
    (if decide (offset + length = partial_base) then Ok digest
     else
       let remainder_length := offset + length - partial_base in
       assert (bool_decide (partial_base + remainder_length <= List.length init)) ;;!
       padded <-! write_bytes (zeros 128) 0 (take remainder_length (drop partial_base init));
       update_block digest padded 0);
  Ok (set_digest result digest).
(** [Blake2b512Random::create_from_bytes] *)
Definition create_from_bytes (init : bytes) : res Blake2b512Random :=
  create init 0 (length init).

(** [fn add_byte] *)
Definition roll_over (self : Blake2b512Random) : res Blake2b512Random :=
  if decide (path_position self = 112) then
    digest <-! update_block (digest self) (last_block self) 0;
    Ok (mkRandom digest (zeros (length (last_block self))) (path_view self) (count_view self)
          (hash_array self) (position self) 0)
  else Ok self.
Definition put_byte (self : Blake2b512Random) (index : byte) : res Blake2b512Random :=
  if decide (path_position self < 112) then
    path_view <-! set_index (path_view self) (path_position self) index;
    last_block <-! set_index (last_block self) (path_position self) index;
    Ok (mkRandom (digest self) last_block path_view (count_view self) (hash_array self)
          (position self) (S (path_position self)))
  else
    assert (bool_decide (112 <= length (last_block self))) ;;!
    last_block <-! set_index
      (take 111 (drop 1 (last_block self)) ++ drop 111 (last_block self)) 111 index;
    Ok (mkRandom (digest self) last_block (path_view self) (count_view self)
          (hash_array self) (position self) (path_position self)).
Definition add_byte (self : Blake2b512Random) (index : byte) : res Blake2b512Random :=
  self <-! roll_over self;
  put_byte self index.

(** [fn copy] *)
Definition copy_random (self : Blake2b512Random) : res Blake2b512Random :=
  assert (bool_decide (length (last_block self) = 128)) ;;!
  digest <-! new_from_src (digest self);
  let result := Random_new digest (last_block self) in
  Ok (mkRandom digest (last_block result) (path_view result) (count_view result)
        (hash_array result) (position result) (path_position self)).

(** [fn split_byte], [fn split_short] with the two bytes of the index *)
Definition split_byte (self : Blake2b512Random) (index : byte) : res Blake2b512Random :=
  split <-! copy_random self;
  add_byte split index.
Definition split_short (self : Blake2b512Random) (index : Z) : res Blake2b512Random :=
  split <-! copy_random self;
  res_foldM add_byte split (to_le_bytes 2 index).

(** [fn hash]: hashes the last block and counts up; the counter is also in the last block.
    The high word wraps as in a release build. *)
Definition hash_random (self : Blake2b512Random) : res Blake2b512Random :=
  hash_array <-! peek_final_root (digest self) (last_block self) 0 (hash_array self) 0;
  low <-! unwrap (count_view self !! 14);
  count_view <-!
    (if decide (low = 2 ^ 64 - 1)%Z then
       high <-! unwrap (count_view self !! 15);
       Ok (<[15 := as_u64 (high + 1)]> (<[14 := 0%Z]> (count_view self)))
     else Ok (<[14 := (low + 1)%Z]> (count_view self)));
  low <-! unwrap (count_view !! 14);
  last_block <-! write_bytes (last_block self) 112 (to_le_bytes 8 low);
  high <-! unwrap (count_view !! 15);
  last_block <-! write_bytes last_block 120 (to_le_bytes 8 high);
  Ok (mkRandom (digest self) last_block (path_view self) count_view hash_array (position self)
        (path_position self)).

(** [fn next] *)
Definition set_position (self : Blake2b512Random) (p : Z) : Blake2b512Random :=
  mkRandom (digest self) (last_block self) (path_view self) (count_view self)
    (hash_array self) p (path_position self).
Definition next (self : Blake2b512Random) : res (bytes * Blake2b512Random) :=
  if decide (position self = 0%Z) then
    self <-! hash_random self;
    let self := set_position self 32 in
    Ok (take 32 (hash_array self), self)
  else
    let self := set_position self 0 in
    Ok (drop 32 (hash_array self), self).

(** ** [fn merge] *)

(** [chunks_mut(n)] *)
Fixpoint chunks_fuel {A} (fuel n : nat) (l : list A) : list (list A) :=
  match fuel, l with
  | S fuel, _ :: _ => take n l :: chunks_fuel fuel n (drop n l)
  | _, _ => []
  end.
Definition chunks {A} (n : nat) (l : list A) : list (list A) := chunks_fuel (length l) n l.

(** One group of up to four children.  The code copies the rest of [chain_block] into a
    temporary array, so [chain_block] keeps the bytes of the group before. *)
Definition hash_quad (chain_block : bytes) (quad : list Blake2b512Random) : res bytes :=
  res_foldM (fun chain_block '(i, child) =>
    finalize_internal (digest child) (last_block child) 0 chain_block (i * 32))
    chain_block (enumerate quad).
Definition merge_quad (st : bytes * Blake2b512Random) (quad : list Blake2b512Random) :
  res (bytes * Blake2b512Random) :=
  let '(chain_block, result) := st in
  chain_block <-! hash_quad chain_block quad;
  digest <-! update_block (digest result) chain_block 0;
  Ok (chain_block, set_digest result digest).
(** One slice of up to 255 children. *)
Definition merge_slice (st : bytes * list Blake2b512Random) (slice : list Blake2b512Random) :
  res (bytes * list Blake2b512Random) :=
  let '(chain_block, squashed_builder) := st in
  let result := Random_new (new_from_fanout (Z.of_nat (length slice))) (zeros 128) in
  r <-! res_foldM merge_quad (chain_block, result) (chunks 4 slice);
  Ok (r.1, squashed_builder ++ [r.2]).
(** The [while] loop; every iteration leaves fewer children. *)
Fixpoint merge_loop (fuel : nat) (chain_block : bytes) (children : list Blake2b512Random) :
  option (res Blake2b512Random) :=
  match fuel with
  | 0 => None
  | S fuel =>
    if decide (1 < length children) then
      match res_foldM merge_slice (chain_block, []) (chunks 255 children) with
      | Ok (chain_block, squashed) => merge_loop fuel chain_block squashed
      | Err e => Some (Err e)
      | Panic => Some Panic
      end
    else Some (unwrap (head children))
  end.
Definition merge (children : list Blake2b512Random) : option (res Blake2b512Random) :=
  if decide (2 <= length children) then
    merge_loop (length children) (zeros 128) children
  else Some Panic.

(** ** [split] of [eval_inner]

    [id.try_into().unwrap()] to [i16] and [i8]; an [i8] is the byte with its bits. *)
Definition try_into_signed (bits : Z) (id : Z) : option Z :=
  if decide (- 2 ^ (bits - 1) <= id < 2 ^ (bits - 1))%Z then Some id else None.
Definition split (id : Z) (terms_len : nat) (rand : Blake2b512Random) : res Blake2b512Random :=
  if decide (terms_len = 1) then Ok rand
  else if decide (256 < terms_len) then
    id <-! unwrap (try_into_signed 16 id);
    split_short rand id
  else
    id <-! unwrap (try_into_signed 8 id);
    split_byte rand (Z_to_byte id).

(** ** [fn to_bytes], [fn from_bytes] *)

(** [(n as u32).to_le_bytes()] *)
Definition u32_bytes (n : nat) : bytes := to_le_bytes 4 (Z.of_nat n).
Definition random_to_bytes (self : Blake2b512Random) : bytes :=
  block_to_bytes (digest self) ++
  u32_bytes (length (last_block self)) ++ last_block self ++
  u32_bytes (length (path_view self)) ++ path_view self ++
  u32_bytes (length (count_view self)) ++ (count_view self ≫= to_le_bytes 8) ++
  hash_array self ++
  to_le_bytes 8 (position self) ++
  u32_bytes (path_position self).

Definition u32_at (b : bytes) (offset : nat) : nat :=
  Z.to_nat (from_le_bytes (take 4 (drop offset b))).
Definition slice_at (b : bytes) (offset len : nat) : bytes := take len (drop offset b).
(** [check_bounds]; [None] makes [from_bytes] return the default generator. *)
Definition check_bounds (b : bytes) (offset required : nat) : option unit :=
  if decide (offset + required <= length b) then Some tt else None.
Definition parse_random (b : bytes) : option (res Blake2b512Random) :=
  _ ← check_bounds b 0 80;
  let digest := block_from_bytes (take 80 b) in
  let offset := 80 in
  _ ← check_bounds b offset 4;
  let last_block_len := u32_at b offset in
  let offset := offset + 4 in
  _ ← check_bounds b offset last_block_len;
  let last_block := slice_at b offset last_block_len in
  let offset := offset + last_block_len in
  _ ← check_bounds b offset 4;
  let path_view_len := u32_at b offset in
  let offset := offset + 4 in
  _ ← check_bounds b offset path_view_len;
  let path_view := slice_at b offset path_view_len in
  let offset := offset + path_view_len in
  _ ← check_bounds b offset 4;
  let count_view_len := u32_at b offset in
  let offset := offset + 4 in
  _ ← check_bounds b offset (count_view_len * 8);
  let count_view := u64_words (drop offset b) count_view_len in
  let offset := offset + count_view_len * 8 in
  _ ← check_bounds b offset 64;
  let hash_array := slice_at b offset 64 in
  let offset := offset + 64 in
  _ ← check_bounds b offset 8;
  let position := i64_at b offset in
  let offset := offset + 8 in
  _ ← check_bounds b offset 4;
  let path_position := u32_at b offset in
  Some (digest <-! digest;
        Ok (mkRandom digest last_block path_view count_view hash_array position path_position)).
Definition random_from_bytes (b : bytes) : res Blake2b512Random :=
  match b with
  | [] => create_from_bytes []
  | _ => default (create_from_bytes []) (parse_random b)
  end.
End random.
