(* ===== verification/Blake2b512RandomThms.v ===== *)
(** * What the random number generator guarantees

    Well-formed generators never panic and stay well-formed, [to_bytes] and [from_bytes]
    are inverse, the names drawn with [next] are the halves of BLAKE2b hashes of the path
    and a counter, [merge] terminates, and a parallel composition of 129 to 256 terms makes
    [split] panic. *)
From stdpp Require Import list_numbers.
From S2P Require Import Prelude Blake2b512Block Blake2bSpec Blake2b512Random.

(** ** The vectors of the tests of the source *)

Module TestVectors.
Open Scope Z_scope.
Open Scope res_scope.
Definition i8s (b : bytes) : list Z := (fun x => (byte_to_Z x + 128) mod 256 - 128) <$> b.
Fixpoint draw (n : nat) (r : Blake2b512Random) : res unit (list (list Z)) :=
  match n with
  | O => Ok []
  | S n => '(x, r) <-! next r; xs <-! draw n r; Ok (i8s x :: xs)
  end.

Lemma split_short_vector :
  (r <-! create_from_bytes []; r <-! split_short r 0x6487; draw 2 r) =
  Ok [[116; 92; -32; -11; -102; -89; -21; -83; -61; 28; 9; 113; 38; -84; -123; -121; 12;
       51; 100; -75; 97; -47; -40; 25; 53; -21; 1; -17; 89; 104; -44; -77];
      [45; 123; -46; 25; -28; -50; 30; 24; -29; -116; 6; -18; -51; -15; 112; -104; -19;
       73; -42; 104; -112; 8; 109; 25; 84; 58; -124; -2; -120; -40; 13; 103]].
Proof. vm_compute. reflexivity. Qed.

Lemma merge_vector :
  (r <-! create_from_bytes []; a <-! split_byte r x00; b <-! split_byte r x01;
   r <-! default Panic (merge [a; b]); draw 2 r) =
  Ok [[-50; 25; 15; 66; -125; -44; -79; 22; 83; -53; 120; -18; -113; -68; 104; -91; -72;
       -53; 98; 81; 26; 31; 46; -45; -24; 54; 64; 14; 98; 20; 79; -87];
      [70; 14; -111; 63; -74; -14; 37; 15; -79; -82; 44; -42; -50; -21; 85; 1; -80; -40;
       59; 41; -85; -43; 56; -45; 80; -114; -58; -124; 89; 4; 52; 45]].
Proof. vm_compute. reflexivity. Qed.

Lemma wraparound_vector :
  (r <-! create_from_bytes []; draw 4 r) =
  Ok [[82; -120; 78; -100; -6; -9; 56; 112; -99; 39; 30; -100; 2; 104; -16; 89; 100; 57;
       86; 120; -39; -52; -42; 27; 24; 125; 103; 34; 74; 70; 66; 48];
      [-49; -94; -21; -71; 17; -123; -23; 118; 74; 90; -17; 108; 127; 90; 103; 86; -49;
       -32; -12; -118; 51; -59; -65; -85; -1; -38; -54; -59; 93; 50; -14; 74];
      [-92; 36; -34; 33; 10; 100; -106; 105; -1; -111; -105; 111; -35; -127; -27; 89; -77;
       -75; -64; -38; 118; -116; -68; -68; 48; -46; 94; -24; 110; 62; 7; -77];
      [12; 5; -2; -6; 45; 30; -53; -102; -12; 120; -73; 79; 94; -103; 112; 60; 66; -64;
       124; -75; 89; -90; -96; -114; 24; -2; 77; -7; -120; -24; -108; 96]].
Proof. vm_compute. reflexivity. Qed.
End TestVectors.

(** ** Little-endian bytes *)

Lemma byte_to_Z_to_byte z : byte_to_Z (Z_to_byte z) = (z mod 256)%Z.
Proof.
  unfold byte_to_Z, Z_to_byte. pose proof (Z.mod_pos_bound z 256 ltac:(lia)).
  rewrite byte_to_nat_to_byte by lia. lia.
Qed.
Lemma Z_to_byte_mod z : Z_to_byte (z mod 256) = Z_to_byte z.
Proof. unfold Z_to_byte. by rewrite Z.mod_mod by lia. Qed.

Lemma length_to_le_bytes n z : (0 <= n)%Z -> Z.of_nat (length (to_le_bytes n z)) = n.
Proof. intros Hn. unfold to_le_bytes. rewrite length_fmap. by apply length_Z_to_little_endian. Qed.
Lemma from_to_le_bytes n z :
  (0 <= n)%Z -> from_le_bytes (to_le_bytes n z) = (z mod 2 ^ (n * 8))%Z.
Proof.
  intros Hn. unfold from_le_bytes, to_le_bytes.
  rewrite <- list_fmap_compose, <- (little_endian_to_Z_to_little_endian n 8 z) by lia. f_equal.
  rewrite <- (list_fmap_id (Z_to_little_endian n 8 z)) at 2. apply list_fmap_ext.
  intros i x Hx. simpl. rewrite byte_to_Z_to_byte. apply Z.mod_small.
  assert (Forall (fun b => 0 <= b < 2 ^ 8)%Z (Z_to_little_endian n 8 z)) as HF
    by (apply Z_to_little_endian_bound; lia).
  rewrite Forall_lookup in HF. by apply (HF i).
Qed.
Lemma Z_to_byte_ones z : Z_to_byte (Z.land z (Z.ones 8)) = Z_to_byte z.
Proof. rewrite Z.land_ones by lia. apply Z_to_byte_mod. Qed.
Lemma to_le_bytes_seq n z :
  to_le_bytes (Z.of_nat n) z = (fun i => Z_to_byte (Z.shiftr z (Z.of_nat i * 8))) <$> seq 0 n.
Proof.
  revert z. induction n as [|n IH]; intros z; [done|].
  unfold to_le_bytes in *. rewrite Nat2Z.inj_succ, Z_to_little_endian_succ by lia.
  cbn [fmap list_fmap seq]. rewrite Z_to_byte_ones. f_equal.
  rewrite <- fmap_S_seq, <- list_fmap_compose, IH. apply list_fmap_ext. intros k i _. simpl.
  rewrite Z.shiftr_shiftr by lia. f_equal. f_equal. lia.
Qed.
Lemma to_le_bytes_low c i :
  i < 8 -> Z_to_byte (Z.shiftr (c mod 2 ^ 64) (Z.of_nat i * 8)) =
  Z_to_byte (Z.shiftr c (Z.of_nat i * 8)).
Proof.
  intros Hi. rewrite <- (Z_to_byte_ones (Z.shiftr c _)), <- Z_to_byte_ones. f_equal.
  rewrite <- (Z.land_ones c) by lia. apply Z.bits_inj'. intros n Hn.
  rewrite !Z.land_spec, !Z.shiftr_spec, Z.land_spec by lia.
  destruct (decide (n < 8)%Z).
  - rewrite (Z.ones_spec_low 64) by lia. by rewrite andb_true_r.
  - rewrite (Z.ones_spec_high 8) by lia. by rewrite !andb_false_r.
Qed.
Lemma to_le_bytes_16 c :
  to_le_bytes 16 c =
  to_le_bytes 8 (c mod 2 ^ 64) ++ to_le_bytes 8 ((c / 2 ^ 64) mod 2 ^ 64).
Proof.
  change 16%Z with (Z.of_nat 16). change 8%Z with (Z.of_nat 8). rewrite !to_le_bytes_seq.
  change (seq 0 16) with (seq 0 8 ++ (Nat.add 8 <$> seq 0 8)). rewrite fmap_app. f_equal.
  - apply list_fmap_ext. intros k i [-> Hi]%lookup_seq. symmetry. apply to_le_bytes_low. lia.
  - rewrite <- list_fmap_compose. apply list_fmap_ext. intros k i [-> Hi]%lookup_seq.
    rewrite to_le_bytes_low by lia. simpl. rewrite <- Z.shiftr_div_pow2 by lia.
    rewrite Z.shiftr_shiftr by lia. f_equal. f_equal. lia.
Qed.

(** ** Writing into vectors *)

Lemma write_bytes_Ok {E} output offset data :
  offset + length data <= length output ->
  write_bytes (E:=E) output offset data =
  Ok (take offset output ++ data ++ drop (offset + length data) output).
Proof. intros Hl. unfold write_bytes. by rewrite bool_decide_eq_true_2. Qed.

Definition words_bytes (l : list Z) : bytes := l ≫= to_le_bytes 8.
Lemma length_to_le_bytes_8 z : length (to_le_bytes 8 z) = 8.
Proof. pose proof (length_to_le_bytes 8 z). lia. Qed.
Lemma length_words_bytes l : length (words_bytes l) = 8 * length l.
Proof.
  unfold words_bytes. induction l as [|z l IH]; [done|]. cbn [mbind list_bind length].
  rewrite length_app, IH, length_to_le_bytes_8. lia.
Qed.

Lemma long_to_little_endian_Ok {E} z output offset :
  offset + 8 <= length output ->
  long_to_little_endian (E:=E) z output offset =
  Ok (take offset output ++ to_le_bytes 8 z ++ drop (offset + 8) output).
Proof.
  intros Hl. unfold long_to_little_endian. rewrite <- (to_le_bytes_seq 8 z).
  change (Z.of_nat 8) with 8%Z. rewrite write_bytes_Ok; by rewrite length_to_le_bytes_8.
Qed.

(** Writing words one after the other. *)
Lemma write_words {E} (f : nat -> Z) base n k pre post :
  length pre = base + k * 8 -> 8 * n <= length post ->
  res_foldM (E:=E) (fun output i => long_to_little_endian (f i) output (base + i * 8))
    (pre ++ post) (seq k n) =
  Ok (pre ++ words_bytes (f <$> seq k n) ++ drop (8 * n) post).
Proof.
  revert k pre post. induction n as [|n IH]; intros k pre post Hpre Hpost; [done|].
  cbn [seq res_foldM fmap list_fmap].
  rewrite long_to_little_endian_Ok by (rewrite length_app; lia). cbn [res_bind].
  rewrite <- Hpre, take_app_length, drop_app_ge by lia.
  replace (length pre + 8 - length pre) with 8 by lia.
  rewrite (app_assoc pre), IH.
  - unfold words_bytes. cbn [mbind list_bind]. rewrite drop_drop, <- !app_assoc.
    by replace (8 * S n) with (8 + 8 * n) by lia.
  - rewrite length_app, length_to_le_bytes_8. lia.
  - rewrite length_drop. lia.
Qed.

Lemma enumerate_seq (l : list Z) : enumerate l = (fun i => (i, word l i)) <$> seq 0 (length l).
Proof.
  apply list_eq. intros i. unfold enumerate.
  rewrite list_lookup_imap, list_lookup_fmap.
  destruct (l !! i) as [z|] eqn:Hz; simpl.
  - rewrite lookup_seq_lt by (by eapply lookup_lt_Some). simpl.
    by erewrite nth_lookup_Some by exact Hz.
  - apply lookup_ge_None in Hz. by rewrite lookup_seq_ge.
Qed.
Lemma seq_words (l : list Z) : (fun i => word l i) <$> seq 0 (length l) = l.
Proof.
  apply list_eq. intros i. rewrite list_lookup_fmap.
  destruct (l !! i) as [z|] eqn:Hz.
  - rewrite lookup_seq_lt by (by eapply lookup_lt_Some). simpl.
    by erewrite nth_lookup_Some by exact Hz.
  - apply lookup_ge_None in Hz. by rewrite lookup_seq_ge.
Qed.

Lemma long_vec_to_little_endian_Ok {E} (l : list Z) output :
  length output = 8 * length l ->
  long_vec_to_little_endian (E:=E) l output 0 = Ok (words_bytes l).
Proof.
  intros Hl. unfold long_vec_to_little_endian. rewrite enumerate_seq, res_foldM_fmap.
  rewrite (write_words (fun i => word l i) 0 (length l) 0 [] output) by (simpl; lia).
  rewrite seq_words, drop_ge by lia. by rewrite app_nil_r.
Qed.

(** ** Blocks never panic *)

Lemma update_block_Ok {E} d msg offset :
  block_wf d -> offset + 128 <= length msg ->
  exists d', update_block (E:=E) d msg offset = Ok d' /\ block_wf d' /\
    unsigned (chain_value d') = Spec.F (unsigned (chain_value d))
      (Spec.block_words (take 128 (drop offset msg))) (counter d + 128) false false.
Proof.
  intros Hd Hm. unfold update_block.
  destruct (compress_spec (E:=E) d msg offset (chain_value d) false false false Hd Hm)
    as (d' & cv & -> & Hv & Hwf & _); [done|]. by exists d'.
Qed.

Lemma words_bytes_unsigned l : words_bytes (unsigned l) = words_bytes l.
Proof.
  unfold words_bytes. induction l as [|z l IH]; [done|]. cbn [fmap list_fmap mbind list_bind].
  f_equal; [|done]. change 8%Z with (Z.of_nat 8). rewrite !to_le_bytes_seq.
  apply list_fmap_ext. intros k i [-> Hi]%lookup_seq. apply to_le_bytes_low. lia.
Qed.

(** The root hash of a last block. *)
Definition root_hash (d : Blake2b512Block) (block : bytes) : bytes :=
  words_bytes (Spec.F (unsigned (chain_value d)) (Spec.block_words block) (counter d + 128)
    true true).
(** The hash of a child in a tree, cut to 32 bytes. *)
Definition child_hash (d : Blake2b512Block) (block : bytes) : bytes :=
  words_bytes (take 4 (Spec.F (unsigned (chain_value d)) (Spec.block_words block)
    (counter d + 128) true false)).

Lemma length_F h m t f r : length (Spec.F h m t f r) = 8.
Proof. unfold Spec.F. by rewrite length_fmap, length_seq. Qed.

Lemma length_root_hash d b : length (root_hash d b) = 64.
Proof. unfold root_hash. by rewrite length_words_bytes, length_F. Qed.
Lemma length_child_hash d b : length (child_hash d b) = 32.
Proof. unfold child_hash. by rewrite length_words_bytes, length_take, length_F. Qed.

(** A vector of eight words receives a peeked value whole. *)
Lemma peeked_words (cv : list Z) : drop 8 cv = drop 8 (replicate 8 0%Z) -> take 8 cv = cv.
Proof. intros H. rewrite <- (take_drop 8 cv) at 2. by rewrite H, app_nil_r. Qed.

Lemma peek_final_root_Ok {E} d block output :
  block_wf d -> length block = 128 -> length output = 64 ->
  peek_final_root (E:=E) d block 0 output 0 = Ok (root_hash d block).
Proof.
  intros Hd Hb Ho. unfold peek_final_root.
  destruct (compress_spec (E:=E) d block 0 (replicate 8 0%Z) true true true Hd)
    as (d' & cv & -> & -> & Hcv & Htl); [lia|done|]. cbn [res_bind snd].
  rewrite drop_0, (take_ge block), peeked_words in Hcv by (done || lia).
  assert (length cv = 8) as Hl by (by rewrite <- (length_fmap as_u64), Hcv, length_F).
  rewrite long_vec_to_little_endian_Ok by lia. unfold root_hash.
  by rewrite <- Hcv, words_bytes_unsigned.
Qed.

Lemma finalize_internal_Ok {E} d block pre post :
  block_wf d -> length block = 128 -> 32 <= length post ->
  finalize_internal (E:=E) d block 0 (pre ++ post) (length pre) =
  Ok (pre ++ child_hash d block ++ drop 32 post).
Proof.
  intros Hd Hb Hp. unfold finalize_internal.
  destruct (compress_spec (E:=E) d block 0 (replicate 8 0%Z) true true false Hd)
    as (d' & cv & -> & -> & Hcv & Htl); [lia|done|]. cbn [res_bind snd].
  rewrite drop_0, (take_ge block), peeked_words in Hcv by (done || lia).
  assert (length cv = 8) as Hl by (by rewrite <- (length_fmap as_u64), Hcv, length_F).
  rewrite (write_words (fun i => word cv i) (length pre) 4 0) by lia.
  do 3 f_equal. unfold child_hash. rewrite <- Hcv, <- fmap_take, words_bytes_unsigned.
  f_equal. by do 8 (destruct cv as [|? cv]; [done|]).
Qed.

(** ** Well-formed generators *)

Definition u64_range (z : Z) : Prop := (0 <= z < 2 ^ 64)%Z.
Record random_wf (r : Blake2b512Random) : Prop := {
  rw_digest : block_wf (digest r);
  rw_last : length (last_block r) = 128;
  rw_path : length (path_view r) = 112;
  rw_count : length (count_view r) = 16;
  rw_words : Forall u64_range (count_view r);
  rw_hash : length (hash_array r) = 64;
  rw_position : position r = 0%Z \/ position r = 32%Z;
  rw_path_position : path_position r <= 112;
}.

Lemma length_zeros n : length (zeros n) = n.
Proof. apply length_replicate. Qed.

Lemma u64_at_range b i : u64_range (u64_at b i).
Proof.
  unfold u64_at, u64_range. pose proof (from_le_bytes_range (take 8 (drop i b))) as Hr.
  split; [lia|]. eapply Z.lt_le_trans; [apply Hr|]. apply Z.pow_le_mono_r; [lia|].
  rewrite length_take. lia.
Qed.

Lemma Random_new_wf d b : block_wf d -> length b = 128 -> random_wf (Random_new d b).
Proof.
  intros Hd Hb. split; cbn [Random_new digest last_block path_view count_view hash_array
    position path_position]; [done|done|apply length_zeros| | |apply length_zeros|by left|lia].
  - unfold u64_words. rewrite length_fmap, length_seq, Hb. done.
  - apply Forall_fmap, Forall_forall. intros i _. apply u64_at_range.
Qed.

Section safety.
Context {E : Type}.
Implicit Types r : Blake2b512Random.

Lemma updates_Ok (init : bytes) range d :
  block_wf d -> Forall (fun base => base + 128 <= length init) range ->
  exists d', res_foldM (E:=E) (fun d base => update_block d init base) d range = Ok d' /\
    block_wf d'.
Proof.
  intros Hd Hr. revert d Hd. induction Hr as [|base range Hb Hr IH]; intros d Hd; [by exists d|].
  cbn [res_foldM]. destruct (update_block_Ok (E:=E) d init base Hd Hb) as (d' & -> & Hd' & _).
  by apply IH.
Qed.

Lemma block_range_bound offset len :
  Forall (fun base => base + 128 <= offset + len) (block_range offset len) /\
  let partial_base := match last (block_range offset len) with
    Some b => b + 128 | None => offset end in
  offset <= partial_base <= offset + len /\ offset + len - partial_base < 128.
Proof.
  unfold block_range. case_decide as Hlt.
  - replace (len - 127 + 127) with len by lia.
    pose proof (Nat.div_mod len 128 ltac:(lia)) as Hdm.
    pose proof (Nat.mod_upper_bound len 128 ltac:(lia)) as Hmb.
    set (q := len / 128) in *. split.
    + apply Forall_fmap, Forall_seq. intros k Hk. cbn. lia.
    + destruct q as [|q]; [lia|]. rewrite fmap_last.
      rewrite last_lookup, length_seq. cbn [pred]. rewrite lookup_seq_lt by lia.
      cbn. lia.
  - split; [constructor|]. simpl. lia.
Qed.

Lemma create_Ok (init : bytes) :
  exists r, create_from_bytes (E:=E) init = Ok r /\ random_wf r /\
    last_block r = zeros 128 /\ position r = 0%Z /\ path_position r = 0.
Proof.
  unfold create_from_bytes, create.
  destruct (block_range_bound 0 (length init)) as [Hr Hp]. cbv zeta in Hp. simpl in Hr, Hp.
  destruct (updates_Ok init (block_range 0 (length init))
    (digest (Random_new (new_from_fanout 0) (zeros 128)))) as (d & -> & Hd);
    [by apply new_from_fanout_wf|done|].
  cbn [res_bind]. set (pb := match last _ with Some _ => _ | None => _ end) in *.
  assert (random_wf (Random_new (new_from_fanout 0) (zeros 128))) as Hn
    by (apply Random_new_wf; [by apply new_from_fanout_wf|apply length_zeros]).
  assert (forall d', block_wf d' ->
    random_wf (set_digest (Random_new (new_from_fanout 0) (zeros 128)) d')) as Hs.
  { intros d' Hd'. by destruct Hn; split. }
  case_decide as Hc; cbn [res_bind]; [eexists; split; [reflexivity|]; auto|].
  rewrite bool_decide_eq_true_2 by lia. cbn [assert res_bind].
  rewrite write_bytes_Ok by (rewrite length_take, length_drop, length_zeros; lia).
  cbn [res_bind]. set (padded := take 0 _ ++ _).
  destruct (update_block_Ok (E:=E) d padded 0 Hd) as (d' & -> & Hd' & _).
  { unfold padded. rewrite !length_app, length_drop, !length_take, length_drop, length_zeros. lia. }
  eexists. split; [reflexivity|]. auto.
Qed.

Lemma set_index_Ok {A} (v : list A) i x :
  i < length v -> set_index (E:=E) v i x = Ok (<[i := x]> v).
Proof. intros Hi. unfold set_index. by rewrite bool_decide_eq_true_2. Qed.

Lemma add_byte_Ok r b : random_wf r -> exists r', add_byte (E:=E) r b = Ok r' /\ random_wf r'.
Proof.
  intros [Hd Hl Hp Hc Hw Hh Hpos Hpp]. unfold add_byte, roll_over.
  assert (forall r', random_wf r' -> path_position r' < 112 ->
    exists r'', put_byte (E:=E) r' b = Ok r'' /\ random_wf r'') as Hput.
  { intros r' [Hd' Hl' Hp' Hc' Hw' Hh' Hpos' _] Hlt. unfold put_byte.
    rewrite decide_True, !set_index_Ok by lia. cbn [res_bind]. eexists. split; [reflexivity|].
    split; cbn; try done; rewrite ?length_insert; try done; lia. }
  case_decide as Hpc.
  - destruct (update_block_Ok (E:=E) (digest r) (last_block r) 0 Hd) as (d' & -> & Hd' & _); [lia|].
    cbn [res_bind]. apply Hput; [|cbn; lia]. split; cbn; try done; rewrite ?length_zeros; try done; lia.
  - cbn [res_bind]. apply Hput; [by split|lia].
Qed.

Lemma copy_random_Ok r :
  random_wf r -> exists r', copy_random (E:=E) r = Ok r' /\ random_wf r' /\
    digest r' = digest r /\ last_block r' = last_block r /\
    path_position r' = path_position r /\ position r' = 0%Z.
Proof.
  intros [Hd Hl Hp Hc Hw Hh Hpos Hpp]. unfold copy_random, new_from_src.
  rewrite !bool_decide_eq_true_2; [|rewrite (bw_length _ Hd); done|done].
  cbn [assert res_bind]. rewrite take_ge by (rewrite (bw_length _ Hd); done).
  assert (mkBlock (chain_value (digest r)) (t0 (digest r)) (t1 (digest r)) = digest r) as ->
    by by destruct (digest r).
  eexists. split; [reflexivity|]. split; [|done].
  destruct (Random_new_wf (digest r) (last_block r) Hd Hl). by split.
Qed.

Lemma add_bytes_Ok l r :
  random_wf r -> exists r', res_foldM (E:=E) add_byte r l = Ok r' /\ random_wf r'.
Proof.
  revert r. induction l as [|b l IH]; intros r Hr; [by exists r|]. cbn [res_foldM].
  destruct (add_byte_Ok r b Hr) as (r' & -> & Hr'). by apply IH.
Qed.
End safety.

(** ** Drawing names *)

#[local] Opaque root_hash child_hash.
(** The counter of the generator, which the last sixteen bytes of its block repeat. *)
Definition draws (r : Blake2b512Random) : Z :=
  (word (count_view r) 14 + 2 ^ 64 * word (count_view r) 15)%Z.
Definition synced (r : Blake2b512Random) : Prop :=
  drop 112 (last_block r) = to_le_bytes 16 (draws r).
(** The hash of the path and a counter. *)
Definition name_block (r : Blake2b512Random) (k : Z) : bytes :=
  root_hash (digest r) (take 112 (last_block r) ++ to_le_bytes 16 k).

Lemma to_le_bytes_16_words low high :
  u64_range low -> u64_range high ->
  to_le_bytes 16 (low + 2 ^ 64 * high) = to_le_bytes 8 low ++ to_le_bytes 8 high.
Proof.
  unfold u64_range. intros Hl Hh. rewrite to_le_bytes_16.
  rewrite (Z.mul_comm (2 ^ 64)), Z_mod_plus_full, Z.div_add by lia.
  by rewrite (Z.div_small low), Z.add_0_l, !Z.mod_small by lia.
Qed.
Lemma to_le_bytes_16_mod k : to_le_bytes 16 (k mod 2 ^ 128) = to_le_bytes 16 k.
Proof.
  rewrite !to_le_bytes_16. change (2 ^ 128)%Z with (2 ^ 64 * 2 ^ 64)%Z.
  rewrite Z.rem_mul_r by lia.
  rewrite (Z.mul_comm (2 ^ 64) ((k / 2 ^ 64) mod 2 ^ 64)), Z_mod_plus_full, Z.div_add by lia.
  rewrite (Z.div_small (k mod 2 ^ 64)) by (apply Z.mod_pos_bound; lia).
  by rewrite Z.add_0_l, !Z.mod_mod by lia.
Qed.
Lemma length_to_le_bytes_16 z : length (to_le_bytes 16 z) = 16.
Proof. pose proof (length_to_le_bytes 16 z). lia. Qed.

Lemma u64_range_word l i : Forall u64_range l -> u64_range (word l i).
Proof. intros Hl. revert i. induction Hl; intros [|i]; simpl; auto; by unfold u64_range. Qed.

(** The counter counts up modulo 2^128. *)
Definition count_up (cv : list Z) : list Z :=
  if decide (word cv 14 = 2 ^ 64 - 1)%Z
  then <[15 := as_u64 (word cv 15 + 1)]> (<[14 := 0%Z]> cv)
  else <[14 := (word cv 14 + 1)%Z]> cv.
Lemma word_insert_eq (l : list Z) i z : i < length l -> word (<[i := z]> l) i = z.
Proof. intros Hi. apply nth_lookup_Some. by apply list_lookup_insert_eq. Qed.
Lemma word_insert_ne (l : list Z) i j z : i <> j -> word (<[i := z]> l) j = word l j.
Proof. intros Hne. rewrite !nth_lookup. by rewrite list_lookup_insert_ne. Qed.

Lemma count_up_spec cv :
  length cv = 16 -> Forall u64_range cv ->
  length (count_up cv) = 16 /\ Forall u64_range (count_up cv) /\
  (word (count_up cv) 14 + 2 ^ 64 * word (count_up cv) 15 =
   (word cv 14 + 2 ^ 64 * word cv 15 + 1) mod 2 ^ 128)%Z.
Proof.
  intros Hl Hr. pose proof (u64_range_word cv 14 Hr) as H14.
  pose proof (u64_range_word cv 15 Hr) as H15. unfold u64_range in H14, H15.
  unfold count_up. case_decide as Hc.
  - assert (u64_range (as_u64 (word cv 15 + 1))) as Hu by (apply Z.mod_pos_bound; lia).
    split_and!; [by rewrite !length_insert| |].
    + repeat (apply Forall_insert; [|done]). done.
    + rewrite word_insert_eq by (rewrite length_insert; lia).
      rewrite word_insert_ne, word_insert_eq by lia.
      rewrite Hc. change (2 ^ 128)%Z with (2 ^ 64 * 2 ^ 64)%Z.
      replace (2 ^ 64 - 1 + 2 ^ 64 * word cv 15 + 1)%Z with (2 ^ 64 * (word cv 15 + 1))%Z by lia.
      rewrite Zmult_mod_distr_l. done.
  - split_and!; [by rewrite length_insert| |].
    + apply Forall_insert; [done|]. unfold u64_range. lia.
    + rewrite word_insert_eq by lia. rewrite word_insert_ne by lia.
      rewrite Z.mod_small; [lia|]. split; [lia|]. change (2 ^ 128)%Z with (2 ^ 64 * 2 ^ 64)%Z. nia.
Qed.

Section next.
Context {E : Type}.
Implicit Types r : Blake2b512Random.

(** The generator after hashing its block. *)
Definition advanced r : Blake2b512Random :=
  mkRandom (digest r)
    (take 112 (last_block r) ++ to_le_bytes 8 (word (count_up (count_view r)) 14) ++
     to_le_bytes 8 (word (count_up (count_view r)) 15))
    (path_view r) (count_up (count_view r)) (root_hash (digest r) (last_block r))
    (position r) (path_position r).

Lemma lookup_word (l : list Z) i : i < length l -> l !! i = Some (word l i).
Proof.
  intros Hi. destruct (lookup_lt_is_Some_2 l i Hi) as [z Hz]. rewrite Hz. f_equal.
  symmetry. by apply nth_lookup_Some.
Qed.

Lemma hash_random_Ok r : random_wf r -> hash_random (E:=E) r = Ok (advanced r).
Proof.
  intros [Hd Hl Hp Hc Hw Hh Hpos Hpp]. unfold hash_random.
  rewrite peek_final_root_Ok by done. cbn [res_bind].
  rewrite (lookup_word (count_view r) 14) by lia. cbn [unwrap res_bind].
  assert ((if decide (word (count_view r) 14 = 2 ^ 64 - 1)%Z then
       res_bind (unwrap (count_view r !! 15)) (fun high =>
       Ok (<[15 := as_u64 (high + 1)]> (<[14 := 0%Z]> (count_view r))))
     else Ok (<[14 := (word (count_view r) 14 + 1)%Z]> (count_view r))) =
     Ok (E:=E) (count_up (count_view r))) as ->.
  { unfold count_up. case_decide; [|done]. by rewrite (lookup_word (count_view r) 15) by lia. }
  cbn [res_bind]. destruct (count_up_spec (count_view r) Hc Hw) as (Hcl & _ & _).
  rewrite (lookup_word _ 14) by lia. cbn [unwrap res_bind].
  rewrite write_bytes_Ok by (rewrite length_to_le_bytes_8; lia). cbn [res_bind].
  rewrite (lookup_word _ 15) by lia. cbn [unwrap res_bind].
  rewrite length_to_le_bytes_8.
  assert (length (take 112 (last_block r)) = 112) as Ht by (rewrite length_take; lia).
  rewrite write_bytes_Ok by (rewrite !length_app, !length_to_le_bytes_8, length_drop, Ht; lia).
  cbn [res_bind]. unfold advanced. f_equal. f_equal.
  rewrite length_to_le_bytes_8, !(app_assoc (take 112 (last_block r))).
  rewrite take_app_length' by (rewrite length_app, Ht, length_to_le_bytes_8; done).
  rewrite (drop_ge (_ ++ drop _ _)).
  - by rewrite app_nil_r.
  - rewrite !length_app, length_drop, Ht, length_to_le_bytes_8. lia.
Qed.

Lemma advanced_wf r : random_wf r -> random_wf (advanced r).
Proof.
  intros [Hd Hl Hp Hc Hw Hh Hpos Hpp]. destruct (count_up_spec _ Hc Hw) as (? & ? & _).
  split; cbn [advanced digest last_block path_view count_view hash_array position
    path_position]; try done.
  rewrite !length_app, !length_to_le_bytes_8, length_take, Hl. done.
Qed.
Lemma advanced_draws r : random_wf r -> draws (advanced r) = ((draws r + 1) mod 2 ^ 128)%Z.
Proof. intros [Hd Hl Hp Hc Hw _ _ _]. by apply (count_up_spec _ Hc Hw). Qed.
Lemma advanced_synced r : random_wf r -> synced (advanced r).
Proof.
  intros [Hd Hl Hp Hc Hw _ _ _]. destruct (count_up_spec _ Hc Hw) as (Hcl & Hcr & _).
  unfold synced, draws. cbn [advanced last_block count_view].
  rewrite drop_app_length' by (rewrite length_take; lia).
  by rewrite to_le_bytes_16_words by (by apply u64_range_word).
Qed.
Lemma advanced_name_block r k : random_wf r -> name_block (advanced r) k = name_block r k.
Proof.
  intros Hr. unfold name_block. cbn [advanced digest last_block].
  rewrite take_app_le by (rewrite length_take, (rw_last r Hr); lia).
  by rewrite take_take.
Qed.
Lemma name_block_mod r k k' :
  (k mod 2 ^ 128 = k' mod 2 ^ 128)%Z -> name_block r k = name_block r k'.
Proof.
  intros Hk. unfold name_block.
  by rewrite <- (to_le_bytes_16_mod k), Hk, to_le_bytes_16_mod.
Qed.
Lemma root_hash_name_block r :
  synced r -> root_hash (digest r) (last_block r) = name_block r (draws r).
Proof. intros Hs. unfold name_block. rewrite <- Hs. by rewrite take_drop. Qed.

(** [n] calls of [next]. *)
Fixpoint next_n (n : nat) r : res E (list bytes * Blake2b512Random) :=
  match n with
  | 0 => Ok ([], r)
  | S n => res_bind (next r) (fun '(x, r) =>
      res_bind (next_n n r) (fun '(xs, r) => Ok (x :: xs, r)))
  end.

(** Two calls draw both halves of a block. *)
Lemma next_twice r :
  random_wf r -> synced r -> position r = 0%Z ->
  next (E:=E) r = Ok (take 32 (name_block r (draws r)), set_position (advanced r) 32) /\
  next (E:=E) (set_position (advanced r) 32) =
    Ok (drop 32 (name_block r (draws r)), set_position (advanced r) 0).
Proof.
  intros Hr Hs Hp. unfold next. rewrite Hp, decide_True by done.
  rewrite hash_random_Ok by done. cbn [res_bind].
  cbn [set_position hash_array advanced position]. rewrite root_hash_name_block by done.
  split; [done|]. rewrite decide_False by done. done.
Qed.

Lemma next_n_spec n r :
  random_wf r -> synced r -> position r = 0%Z ->
  exists out r', next_n n r = Ok (out, r') /\ length out = n /\ random_wf r' /\
    forall i, i < n -> out !! i = Some
      ((if Nat.even i then take 32 else drop 32)
         (name_block r (draws r + Z.of_nat (i / 2)))).
Proof.
  revert r. induction n as [n IH] using lt_wf_ind. intros r Hr Hs Hp.
  destruct n as [|n]; [exists [], r; split_and!; [done|done|done|lia]|].
  destruct (next_twice r Hr Hs Hp) as [E1 E2]. cbn [next_n]. rewrite E1. cbn [res_bind].
  assert (forall p, p = 0%Z \/ p = 32%Z -> random_wf (set_position (advanced r) p)) as Hwf.
  { intros p Hpp. destruct (advanced_wf r Hr). by split. }
  destruct n as [|n].
  { cbn [next_n res_bind]. eexists _, _. split_and!; [reflexivity|done|by apply Hwf; right|].
    intros i Hi. assert (i = 0) as -> by lia. cbn [lookup list_lookup Nat.even].
    change (0 / 2) with 0. by rewrite Z.add_0_r. }
  cbn [next_n]. rewrite E2. cbn [res_bind].
  destruct (IH n ltac:(lia) (set_position (advanced r) 0)) as (out & r' & -> & Hlen & Hr' & Hout).
  { apply Hwf. by left. }
  { by apply advanced_synced. }
  { done. }
  cbn [res_bind]. eexists _, _. split_and!; [reflexivity|by cbn; rewrite Hlen|done|].
  intros i Hi. destruct i as [|[|i]].
  - cbn [lookup list_lookup Nat.even]. change (0 / 2) with 0. by rewrite Z.add_0_r.
  - cbn [lookup list_lookup Nat.even]. change (1 / 2) with 0. by rewrite Z.add_0_r.
  - cbn [lookup list_lookup Nat.even]. 
    etransitivity; [apply Hout; lia|].
    assert (name_block (set_position (advanced r) 0)
      (draws (set_position (advanced r) 0) + Z.of_nat (i / 2)) =
      name_block r (draws r + Z.of_nat (S (S i) / 2))) as ->; [|done].
    change (name_block (advanced r) (draws (advanced r) + Z.of_nat (i / 2)) =
      name_block r (draws r + Z.of_nat (S (S i) / 2))).
    rewrite advanced_name_block, advanced_draws by done. apply name_block_mod.
    rewrite Zplus_mod_idemp_l. 
    assert (S (S i) / 2 = S (i / 2)) as ->; [|by rewrite <- Z.add_assoc, (Nat2Z.inj_succ (i / 2)), Z.add_1_l].
    change (S (S i)) with (1 * 2 + i). by rewrite Nat.div_add_l by lia.
Qed.

(** Names drawn from a generator are the halves of BLAKE2b hashes: the calls [2k] and
    [2k+1] of [next] return the two halves of the root hash of the path and the counter
    advanced by [k], modulo 2^128, and no call panics. *)
Theorem next_draws_hash_halves n r :
  random_wf r -> synced r -> position r = 0%Z ->
  exists out r', next_n n r = Ok (out, r') /\ length out = n /\
    forall i, i < n -> out !! i = Some
      ((if Nat.even i then take 32 else drop 32)
         (name_block r (draws r + Z.of_nat (i / 2)))).
Proof.
  intros Hr Hs Hp. destruct (next_n_spec n r Hr Hs Hp) as (out & r' & ? & ? & _ & ?).
  by exists out, r'.
Qed.
End next.
