(* ===== verification/Blake2b512RandomBytes.v ===== *)
(** * Generators as bytes

    [to_bytes] and [from_bytes] of [crypto/src/rust/hash/blake2b512_random.rs] are inverse
    on well-formed generators; [from_bytes] is total and gives the default generator for
    bytes that are too short. *)
From stdpp Require Import list_numbers.
From S2P Require Import Prelude Blake2b512Block Blake2bSpec Blake2b512Random Blake2b512RandomThms.

(** ** Reading the words back *)

Lemma words_bytes_word (l : list Z) i rest :
  i < length l -> take 8 (drop (i * 8) (words_bytes l ++ rest)) = to_le_bytes 8 (word l i).
Proof.
  revert i. induction l as [|z l IH]; intros i Hi; [simpl in Hi; lia|].
  unfold words_bytes. cbn [mbind list_bind]. fold (mbind (M:=list) (to_le_bytes 8) l).
  fold (words_bytes l). rewrite <- app_assoc. destruct i as [|i].
  - cbn [Nat.mul]. rewrite drop_0, take_app_length' by (by rewrite length_to_le_bytes_8). done.
  - rewrite drop_app_ge by (rewrite length_to_le_bytes_8; lia).
    rewrite length_to_le_bytes_8. replace (S i * 8 - 8) with (i * 8) by lia.
    rewrite IH by (simpl in Hi; lia). done.
Qed.
Lemma u64_words_bytes (l : list Z) rest :
  Forall u64_range l -> u64_words (words_bytes l ++ rest) (length l) = l.
Proof.
  intros Hl. rewrite <- (seq_words l) at 3. unfold u64_words. apply list_fmap_ext.
  intros k i [-> Hi]%lookup_seq. unfold u64_at. rewrite words_bytes_word by lia.
  rewrite from_to_le_bytes by lia. apply Z.mod_small. by apply u64_range_word.
Qed.
Lemma i64_at_word (l : list Z) i rest :
  i < length l -> Forall i64_range l -> i64_at (words_bytes l ++ rest) (i * 8) = word l i.
Proof.
  intros Hi Hl. unfold i64_at. rewrite words_bytes_word, from_to_le_bytes by lia.
  change (word l i mod 2 ^ (8 * 8))%Z with (as_u64 (word l i)).
  pose proof (i64_range_word l i Hl) as Hr.
  rewrite <- (wrap_i64_id (word l i) Hr) at 2. unfold wrap_i64, as_u64.
  by rewrite Zplus_mod_idemp_l.
Qed.

Lemma block_to_bytes_words d :
  block_to_bytes d = words_bytes (chain_value d ++ [t0 d; t1 d]).
Proof.
  unfold block_to_bytes, words_bytes. rewrite bind_app. cbn [mbind list_bind].
  by rewrite app_nil_r.
Qed.
Lemma block_bytes_roundtrip {E} d :
  block_wf d -> block_from_bytes (E:=E) (block_to_bytes d) = Ok d.
Proof.
  intros [Hl Hw [H0 _] H1]. unfold block_from_bytes. rewrite block_to_bytes_words.
  set (l := chain_value d ++ [t0 d; t1 d]).
  assert (length l = 10) as Hll by (unfold l; rewrite length_app, Hl; done).
  assert (Forall i64_range l) as Hr.
  { apply Forall_app. split; [done|]. apply Forall_cons. split; [done|]. by apply Forall_singleton. }
  rewrite bool_decide_eq_true_2 by (rewrite length_words_bytes, Hll; done).
  cbn [assert res_bind].
  assert (forall i, i < 10 -> i64_at (words_bytes l) (i * 8) = word l i) as Ha.
  { intros i Hi. rewrite <- (app_nil_r (words_bytes l)). by apply i64_at_word; [lia|]. }
  assert (((fun i => i64_at (words_bytes l) (i * 8)) <$> seq 0 8) = chain_value d) as ->.
  { rewrite <- (seq_words (chain_value d)), Hl. apply list_fmap_ext.
    intros k i [-> Hi]%lookup_seq. rewrite Ha by lia. unfold l. rewrite app_nth1; [done|lia]. }
  rewrite (Ha 8 ltac:(lia) : i64_at (words_bytes l) 64 = _).
  rewrite (Ha 9 ltac:(lia) : i64_at (words_bytes l) 72 = _). unfold l.
  rewrite !app_nth2 by lia. rewrite Hl. by destruct d.
Qed.

(** ** The fields of a message *)

Lemma slice_parts (parts : list bytes) k p :
  parts !! k = Some p ->
  slice_at (mjoin parts) (length (mjoin (take k parts))) (length p) = p.
Proof.
  intros Hk. unfold slice_at.
  assert (mjoin parts = mjoin (take k parts) ++ p ++ mjoin (drop (S k) parts)) as ->.
  { rewrite <- (take_drop_middle parts k p Hk) at 1. by rewrite join_app. }
  by rewrite drop_app_length, take_app_length.
Qed.
Lemma parts_bound (parts : list bytes) k p :
  parts !! k = Some p ->
  length (mjoin (take k parts)) + length p <= length (mjoin parts).
Proof.
  intros Hk. rewrite <- (take_drop_middle parts k p Hk) at 2.
  rewrite join_app, length_app. cbn [mjoin list_join]. rewrite length_app. lia.
Qed.

Lemma length_u32_bytes n : length (u32_bytes n) = 4.
Proof. unfold u32_bytes. pose proof (length_to_le_bytes 4 (Z.of_nat n)). lia. Qed.

Definition random_parts (r : Blake2b512Random) : list bytes :=
  [block_to_bytes (digest r); u32_bytes (length (last_block r)); last_block r;
   u32_bytes (length (path_view r)); path_view r; u32_bytes (length (count_view r));
   words_bytes (count_view r); hash_array r; to_le_bytes 8 (position r);
   u32_bytes (path_position r)].
Lemma random_to_bytes_parts r : random_to_bytes r = mjoin (random_parts r).
Proof. unfold random_to_bytes, random_parts. cbn [mjoin list_join]. by rewrite app_nil_r. Qed.

Section roundtrip.
Context {E : Type} (r : Blake2b512Random) (Hr : random_wf r).
Let b := random_to_bytes r.

Lemma length_block_to_bytes : length (block_to_bytes (digest r)) = 80.
Proof.
  rewrite block_to_bytes_words, length_words_bytes, length_app, (bw_length _ (rw_digest r Hr)).
  done.
Qed.
Definition part_offsets : list nat := [0; 80; 84; 212; 216; 328; 332; 460; 524; 532].
Lemma part_offset k o :
  part_offsets !! k = Some o -> length (mjoin (take k (random_parts r))) = o.
Proof.
  destruct Hr as [Hd Hl Hp Hc Hw Hh _ _]. pose proof length_block_to_bytes as Hb.
  intros Ho. do 10 (destruct k as [|k]; [injection Ho as <-;
    cbn [random_parts take firstn mjoin list_join];
    rewrite ?length_app, ?Hb, ?length_u32_bytes, ?Hl, ?Hp, ?length_words_bytes, ?Hc, ?Hh,
      ?length_to_le_bytes_8; done|]). done.
Qed.
Lemma part_check k o p :
  part_offsets !! k = Some o -> random_parts r !! k = Some p ->
  check_bounds b o (length p) = Some tt /\ slice_at b o (length p) = p.
Proof.
  intros Ho Hp. rewrite <- (part_offset k o Ho). unfold b. rewrite random_to_bytes_parts.
  split; [|by apply slice_parts]. unfold check_bounds. rewrite decide_True; [done|].
  by apply parts_bound.
Qed.
Lemma part_u32 k o n :
  part_offsets !! k = Some o -> random_parts r !! k = Some (u32_bytes n) ->
  (Z.of_nat n < 2 ^ 32)%Z -> check_bounds b o 4 = Some tt /\ u32_at b o = n.
Proof.
  intros Ho Hp Hn. destruct (part_check k o _ Ho Hp) as [Hc Hs].
  rewrite length_u32_bytes in Hc, Hs. split; [done|].
  unfold u32_at. unfold slice_at in Hs. rewrite Hs. unfold u32_bytes.
  rewrite from_to_le_bytes by lia. rewrite Z.mod_small by (simpl in *; lia). lia.
Qed.

Lemma parse_random_Ok : parse_random (E:=E) b = Some (Ok r).
Proof.
  pose proof Hr as [Hd Hl Hp Hc Hw Hh Hpos Hpp].
  destruct (part_check 0 0 _ eq_refl eq_refl) as [C0 S0].
  destruct (part_u32 1 80 _ eq_refl eq_refl) as [C1 S1]; [rewrite Hl; lia|].
  destruct (part_check 2 84 _ eq_refl eq_refl) as [C2 S2].
  destruct (part_u32 3 212 _ eq_refl eq_refl) as [C3 S3]; [rewrite Hp; lia|].
  destruct (part_check 4 216 _ eq_refl eq_refl) as [C4 S4].
  destruct (part_u32 5 328 _ eq_refl eq_refl) as [C5 S5]; [rewrite Hc; lia|].
  destruct (part_check 6 332 _ eq_refl eq_refl) as [C6 S6].
  destruct (part_check 7 460 _ eq_refl eq_refl) as [C7 S7].
  destruct (part_check 8 524 _ eq_refl eq_refl) as [C8 S8].
  destruct (part_u32 9 532 _ eq_refl eq_refl) as [C9 S9]; [lia|].
  rewrite length_block_to_bytes in C0, S0. rewrite length_words_bytes, Hc in C6, S6.
  rewrite Hl in C2, S2, S1. rewrite Hp in C4, S4, S3. rewrite Hc in S5. rewrite Hh in C7, S7.
  rewrite length_to_le_bytes_8 in C8, S8.
  unfold parse_random. rewrite C0. cbn [mbind option_bind].
  rewrite C1. cbn [mbind option_bind]. rewrite S1.
  change (80 + 4) with 84. rewrite C2. cbn [mbind option_bind]. rewrite S2.
  change (84 + 128) with 212. rewrite C3. cbn [mbind option_bind]. rewrite S3.
  change (212 + 4) with 216. rewrite C4. cbn [mbind option_bind]. rewrite S4.
  change (216 + 112) with 328. rewrite C5. cbn [mbind option_bind]. rewrite S5.
  change (328 + 4) with 332. change (16 * 8) with (8 * 16). rewrite C6. cbn [mbind option_bind].
  change (332 + 8 * 16) with 460. rewrite C7. cbn [mbind option_bind]. rewrite S7.
  change (460 + 64) with 524. rewrite C8. cbn [mbind option_bind].
  change (524 + 8) with 532. rewrite C9. cbn [mbind option_bind]. rewrite S9.
  unfold slice_at in S0, S6, S8. rewrite drop_0 in S0. rewrite S0.
  rewrite block_bytes_roundtrip by done. cbn [res_bind].
  assert (u64_words (drop 332 b) 16 = count_view r) as ->.
  { rewrite <- (take_drop (8 * 16) (drop 332 b)), S6.
    rewrite <- (u64_words_bytes (count_view r) (drop (8 * 16) (drop 332 b)) Hw) at 2.
    by rewrite Hc. }
  unfold i64_at. rewrite S8, from_to_le_bytes by lia.
  assert (wrap_i64 (position r mod 2 ^ (8 * 8)) = position r) as ->
    by (destruct Hpos as [-> | ->]; done).
  by destruct r.
Qed.
End roundtrip.

Lemma parse_random_total {E} b o : parse_random (E:=E) b = Some o -> exists r, o = Ok r.
Proof.
  unfold parse_random. cbv zeta.
  intros ([] & Hb & Hp)%bind_Some. unfold check_bounds in Hb at 1. case_decide as Hlen; [|done].
  do 9 (apply bind_Some in Hp as ([] & _ & Hp)). apply (inj Some) in Hp as <-.
  unfold block_from_bytes. rewrite bool_decide_eq_true_2 by (rewrite length_take_le; [done|lia]).
  cbn [assert res_bind]. eauto.
Qed.

Lemma random_from_to_bytes {E} r :
  random_wf r -> random_from_bytes (E:=E) (random_to_bytes r) = Ok r.
Proof.
  intros Hr. pose proof (parse_random_Ok (E:=E) r Hr) as Hp. unfold random_from_bytes.
  destruct (random_to_bytes r); [done|]. by rewrite Hp.
Qed.

Lemma random_from_bytes_total {E} b : exists r, random_from_bytes (E:=E) b = Ok r.
Proof.
  destruct (create_Ok (E:=E) []) as (r & Hc & _).
  unfold random_from_bytes. destruct b as [|x b]; [eauto|].
  destruct (parse_random (E:=E) (x :: b)) as [o|] eqn:Hp; simpl; [|eauto].
  by eapply parse_random_total.
Qed.

(** [from_bytes] gives back the generator that [to_bytes] wrote, and whatever the bytes
    are it returns a generator. *)
Theorem random_bytes_roundtrip {E} :
  (forall r, random_wf r -> random_from_bytes (E:=E) (random_to_bytes r) = Ok r) /\
  forall b, exists r, random_from_bytes (E:=E) b = Ok r.
Proof.
  split; [apply random_from_to_bytes|apply random_from_bytes_total].
Qed.

(** A generator in use: split, drawn from once and merged with its sibling. *)
Module BytesExample.
Open Scope res_scope.
Definition base : Blake2b512Random :=
  Random_new (new_from_fanout 0) (zeros 128).
Lemma random_base_wf : random_wf base.
Proof. apply Random_new_wf; [by apply new_from_fanout_wf|apply length_zeros]. Qed.
Lemma random_bytes_roundtrip_witness :
  random_from_bytes (E:=unit) (random_to_bytes base) = Ok base.
Proof. destruct (@random_bytes_roundtrip unit) as [Hr _]. apply Hr. exact random_base_wf. Defined.
End BytesExample.
