(* ===== verification/Blake2b512Merge.v ===== *)
(** * Merging and splitting generators

    [merge] of [crypto/src/rust/hash/blake2b512_random.rs] terminates and never panics on at
    least two well-formed generators.  A group of fewer than four children after a full one
    is not padded with zeros: the rest of its block are the hashes of the group before.
    [split] of [rholang/src/rust/interpreter/reduce.rs] panics for compositions of 129 to 256
    terms. *)
From S2P Require Import Prelude Blake2b512Block Blake2bSpec Blake2b512Random Blake2b512RandomThms.
Open Scope res_scope.

(** ** Chunks *)

Section chunks.
Context {A : Type}.
Implicit Types l : list A.

Lemma chunks_fuel_spec fuel n l :
  0 < n -> length l <= fuel ->
  mjoin (chunks_fuel fuel n l) = l /\
  Forall (fun c => 0 < length c <= n) (chunks_fuel fuel n l) /\
  n * length (chunks_fuel fuel n l) < length l + n.
Proof.
  intros Hn. revert l. induction fuel as [|fuel IH]; intros [|x l] Hl; simpl in Hl.
  - split_and!; [done|constructor|simpl; lia].
  - lia.
  - split_and!; [done|constructor|simpl; lia].
  - cbn [chunks_fuel].
    destruct (IH (drop n (x :: l))) as (Hj & Hf & Hc).
    { rewrite length_drop. simpl. lia. }
    split_and!.
    + change (take n (x :: l) ++ mjoin (chunks_fuel fuel n (drop n (x :: l))) = x :: l).
      rewrite Hj. apply take_drop.
    + constructor; [|done]. rewrite length_take. simpl. lia.
    + cbn [length]. rewrite length_drop in Hc. cbn [length] in Hc. 
      destruct (decide (n <= S (length l))); [lia|].
      assert (chunks_fuel fuel n (drop n (x :: l)) = []) as ->; [|simpl; lia].
      rewrite drop_ge by (simpl; lia). by destruct fuel.
Qed.
Lemma chunks_spec n l :
  0 < n ->
  mjoin (chunks n l) = l /\ Forall (fun c => 0 < length c <= n) (chunks n l) /\
  n * length (chunks n l) < length l + n.
Proof. intros Hn. by apply chunks_fuel_spec. Qed.
Lemma chunks_elem n l c x : 0 < n -> c ∈ chunks n l -> x ∈ c -> x ∈ l.
Proof.
  intros Hn Hc Hx. destruct (chunks_spec n l Hn) as [<- _].
  apply list_elem_of_join. by exists c.
Qed.
End chunks.

(** ** One group *)

Definition child_hashes (quad : list Blake2b512Random) : bytes :=
  quad ≫= fun c => child_hash (digest c) (last_block c).
Lemma length_child_hashes quad : length (child_hashes quad) = 32 * length quad.
Proof.
  unfold child_hashes. induction quad as [|c quad IH]; [done|]. cbn [mbind list_bind length].
  rewrite length_app, length_child_hash, IH. lia.
Qed.

Section merge.
Context {E : Type}.
#[local] Opaque child_hash.

Lemma hash_quad_from (quad : list Blake2b512Random) k pre post :
  Forall random_wf quad -> length pre = k * 32 -> 32 * length quad <= length post ->
  res_foldM (E:=E) (fun chain_block '(i, child) =>
    finalize_internal (digest child) (last_block child) 0 chain_block (i * 32))
    (pre ++ post) (imap (fun i c => (k + i, c)) quad) =
  Ok (pre ++ child_hashes quad ++ drop (32 * length quad) post).
Proof.
  intros Hq. revert k pre post. induction Hq as [|c quad Hc Hq IH]; intros k pre post Hpre Hpost.
  { done. }
  cbn [imap res_foldM length] in *. rewrite Nat.add_0_r, <- Hpre.
  rewrite finalize_internal_Ok; [|apply Hc|apply Hc|lia].
  cbn [res_bind]. rewrite app_assoc.
  rewrite (imap_ext _ (fun i c => (S k + i, c))) by (intros; simpl; f_equal; lia).
  rewrite IH.
  - unfold child_hashes. cbn [mbind list_bind]. rewrite drop_drop, <- !app_assoc.
    by replace (32 * S (length quad)) with (32 + 32 * length quad) by lia.
  - rewrite length_app, length_child_hash. lia.
  - rewrite length_drop. lia.
Qed.

(** The block of a group: the hashes of its children, then what was there before. *)
Definition quad_block (chain_block : bytes) (quad : list Blake2b512Random) : bytes :=
  child_hashes quad ++ drop (32 * length quad) chain_block.
Lemma length_quad_block cb quad :
  length cb = 128 -> length quad <= 4 -> length (quad_block cb quad) = 128.
Proof.
  intros Hcb Hq. unfold quad_block. rewrite length_app, length_child_hashes, length_drop. lia.
Qed.
Lemma hash_quad_Ok cb quad :
  Forall random_wf quad -> length cb = 128 -> length quad <= 4 ->
  hash_quad (E:=E) cb quad = Ok (quad_block cb quad).
Proof.
  intros Hq Hcb Hl. unfold hash_quad, enumerate.
  by apply (hash_quad_from quad 0 [] cb); [done| |lia].
Qed.

Lemma merge_quads_Ok quads cb result :
  Forall (fun q => Forall random_wf q /\ length q <= 4) quads ->
  length cb = 128 -> random_wf result ->
  exists cb' result', res_foldM (E:=E) merge_quad (cb, result) quads = Ok (cb', result') /\
    length cb' = 128 /\ random_wf result'.
Proof.
  intros Hq. revert cb result. induction Hq as [|q quads [Hw Hl] Hq IH]; intros cb result Hcb Hr.
  { by exists cb, result. }
  cbn [res_foldM]. unfold merge_quad at 1. rewrite hash_quad_Ok by done. cbn [res_bind].
  assert (length (quad_block cb q) = 128) as Hb by by apply length_quad_block.
  destruct (update_block_Ok (E:=E) (digest result) (quad_block cb q) 0) as (d & -> & Hd & _).
  { apply Hr. }
  { lia. }
  cbn [res_bind]. apply IH; [done|]. destruct Hr. by split.
Qed.

Lemma quads_wf slice :
  Forall random_wf slice ->
  Forall (fun q => Forall random_wf q /\ length q <= 4) (chunks 4 slice).
Proof.
  intros Hs. apply Forall_forall. intros q Hq.
  destruct (chunks_spec 4 slice ltac:(lia)) as (_ & Hf & _). rewrite Forall_forall in Hf. rewrite Forall_forall in Hs.
  split; [|apply Hf, Hq]. apply Forall_forall. intros x Hx.
  apply Hs. eapply (chunks_elem 4); [lia|done|done].
Qed.

Lemma merge_slices_Ok slices cb squashed :
  Forall (fun s => Forall random_wf s /\ length s <= 255) slices ->
  length cb = 128 -> Forall random_wf squashed ->
  exists cb' squashed', res_foldM (E:=E) merge_slice (cb, squashed) slices = Ok (cb', squashed') /\
    length cb' = 128 /\ Forall random_wf squashed' /\
    length squashed' = length squashed + length slices.
Proof.
  intros Hs. revert cb squashed.
  induction Hs as [|s slices [Hw Hl] Hs IH]; intros cb squashed Hcb Hsq.
  { exists cb, squashed. split_and!; [done..|]. simpl. lia. }
  cbn [res_foldM]. unfold merge_slice at 1.
  destruct (merge_quads_Ok (chunks 4 s) cb
    (Random_new (new_from_fanout (Z.of_nat (length s))) (zeros 128))) as (cb' & r & -> & Hcb' & Hr).
  { by apply quads_wf. }
  { done. }
  { apply Random_new_wf; [apply new_from_fanout_wf; lia|apply length_zeros]. }
  cbn [res_bind fst snd].
  destruct (IH cb' (squashed ++ [r])) as (cb'' & sq & -> & ? & ? & Hlen); [done| |].
  { apply Forall_app. split; [done|]. by apply Forall_singleton. }
  exists cb'', sq. split_and!; [done..|]. rewrite Hlen, length_app. simpl. lia.
Qed.

Lemma merge_loop_Ok fuel cb children :
  Forall random_wf children -> length cb = 128 -> 1 <= length children <= fuel ->
  exists r, merge_loop (E:=E) fuel cb children = Some (Ok r) /\ random_wf r.
Proof.
  revert cb children. induction fuel as [|fuel IH]; intros cb children Hc Hcb Hl; [lia|].
  cbn [merge_loop]. case_decide as Hlt.
  - destruct (chunks_spec 255 children ltac:(lia)) as (Hj & Hf & Hn).
    destruct (merge_slices_Ok (chunks 255 children) cb []) as (cb' & sq & -> & ? & ? & Hsl).
    { apply Forall_forall. intros s Hs. rewrite Forall_forall in Hf. rewrite Forall_forall in Hc.
      split; [|apply Hf, Hs]. apply Forall_forall. intros x Hx.
      apply Hc. eapply (chunks_elem 255); [lia|done|done]. }
    { done. }
    { constructor. }
    apply IH; [done|done|]. rewrite Hsl. cbn [length]. 
    destruct (chunks 255 children) as [|c cs]; [|cbn [length] in *; lia].
    simpl in Hj. subst. simpl in Hlt. lia.
  - destruct children as [|r rest]; [simpl in Hl; lia|]. simpl. exists r.
    by apply Forall_cons in Hc as [? _].
Qed.

Lemma merge_total_lemma children :
  Forall random_wf children -> 2 <= length children ->
  exists r, merge (E:=E) children = Some (Ok r) /\ random_wf r.
Proof.
  intros Hc Hl. unfold merge. rewrite decide_True by done.
  apply merge_loop_Ok; [done|apply length_zeros|lia].
Qed.

(** Merging at least two well-formed generators terminates within as many rounds as
    there are generators, never panics and gives a well-formed generator. *)
Theorem merge_total children :
  Forall random_wf children -> 2 <= length children ->
  exists r, merge (E:=E) children = Some (Ok r) /\ random_wf r.
Proof. apply merge_total_lemma. Qed.

(** Merging five generators hashes the blocks [h1 h2 h3 h4] and [h5 h2 h3 h4], where the
    second one should be padded with zeros: the hashes of the first group stay in the
    block. *)
Theorem merge_keeps_stale_hashes c1 c2 c3 c4 c5 :
  Forall random_wf [c1; c2; c3; c4; c5] ->
  exists d1 r,
    update_block (E:=E) (new_from_fanout 5) (child_hashes [c1; c2; c3; c4]) 0 = Ok d1 /\
    merge (E:=E) [c1; c2; c3; c4; c5] = Some (Ok r) /\
    update_block (E:=E) d1 (child_hashes [c5; c2; c3; c4]) 0 = Ok (digest r).
Proof.
  intros Hc.
  assert (forall q, Forall (fun c => c ∈ [c1; c2; c3; c4; c5]) q -> Forall random_wf q) as Hq.
  { intros q Hq. eapply Forall_impl; [exact Hq|]. rewrite Forall_forall in Hc. apply Hc. }
  set (q1 := [c1; c2; c3; c4]). set (q2 := [c5; c2; c3; c4]).
  assert (Forall random_wf q1 /\ Forall random_wf [c5]) as [H1 H5].
  { split; apply Hq; repeat constructor; set_solver. }
  destruct (update_block_Ok (E:=E) (new_from_fanout 5) (child_hashes q1) 0) as (d1 & E1 & Hd1 & _).
  { by apply new_from_fanout_wf. }
  { rewrite length_child_hashes. simpl. lia. }
  destruct (update_block_Ok (E:=E) d1 (child_hashes q2) 0 Hd1) as (d2 & E2 & Hd2 & _).
  { rewrite length_child_hashes. simpl. lia. }
  exists d1. set (result := Random_new (new_from_fanout 5) (zeros 128)).
  exists (set_digest result d2). split_and!; [done| |done].
  unfold merge. cbn [length]. rewrite decide_True by lia.
  cbn [merge_loop length]. rewrite decide_True by lia.
  change (chunks 255 [c1; c2; c3; c4; c5]) with [[c1; c2; c3; c4; c5]].
  cbn [res_foldM]. unfold merge_slice.
  change (chunks 4 [c1; c2; c3; c4; c5]) with [q1; [c5]].
  change (Z.of_nat (length [c1; c2; c3; c4; c5])) with 5%Z. fold result.
  cbn [res_foldM]. unfold merge_quad.
  rewrite hash_quad_Ok by (done || apply length_zeros || (simpl; lia)). cbn [res_bind].
  assert (quad_block (zeros 128) q1 = child_hashes q1) as -> by (apply app_nil_r).
  change (digest result) with (new_from_fanout 5). rewrite E1. cbn [res_bind].
  rewrite hash_quad_Ok; [|done|by rewrite length_child_hashes|simpl; lia]. cbn [res_bind].
  assert (quad_block (child_hashes q1) [c5] = child_hashes q2) as ->.
  { unfold quad_block, child_hashes, q1, q2. cbn [mbind list_bind length Nat.mul Nat.add].
    rewrite drop_app_length' by (by rewrite length_child_hash). by rewrite app_nil_r. }
  cbn [digest set_digest]. rewrite E2. cbn [res_bind fst snd app]. 
  cbn [merge_loop length]. rewrite decide_False by lia. done.
Qed.
End merge.

(** ** Splitting *)

Section split.
Context {E : Type}.

Lemma split_byte_Ok r b : random_wf r -> exists r', split_byte (E:=E) r b = Ok r' /\ random_wf r'.
Proof.
  intros Hr. unfold split_byte. destruct (copy_random_Ok (E:=E) r Hr) as (r' & -> & Hr' & _).
  by apply add_byte_Ok.
Qed.
Lemma split_short_Ok r z : random_wf r -> exists r', split_short (E:=E) r z = Ok r' /\ random_wf r'.
Proof.
  intros Hr. unfold split_short. destruct (copy_random_Ok (E:=E) r Hr) as (r' & -> & Hr' & _).
  by apply add_bytes_Ok.
Qed.

(** Of the terms of a parallel composition that is not refused for its length, [split]
    panics exactly at those from the 129th on when there are at most 256 terms; all other
    terms get a well-formed generator. *)
Theorem split_panics_iff r (terms_len : nat) (id : Z) :
  random_wf r -> (0 <= id < Z.of_nat terms_len /\ Z.of_nat terms_len <= 32767)%Z ->
  if decide ((128 <= id)%Z /\ terms_len <= 256)
  then split (E:=E) id terms_len r = Panic
  else exists r', split (E:=E) id terms_len r = Ok r' /\ random_wf r'.
Proof.
  intros Hr Hid. unfold split, try_into_signed.
  change (2 ^ (16 - 1))%Z with 32768%Z. change (2 ^ (8 - 1))%Z with 128%Z.
  destruct (decide (terms_len = 1)) as [->|H1].
  { rewrite decide_False by lia. eauto. }
  destruct (decide (256 < terms_len)) as [Hlt|Hge].
  - rewrite decide_False, decide_True by lia. cbn [unwrap res_bind]. by apply split_short_Ok.
  - case_decide as Hc.
    + by rewrite decide_False by lia.
    + rewrite decide_True by lia. cbn [unwrap res_bind]. by apply split_byte_Ok.
Qed.
End split.

(** ** Examples *)

Module MergeExample.
Definition base : Blake2b512Random := Random_new (new_from_fanout 0) (zeros 128).
Lemma base_wf : random_wf base.
Proof. apply Random_new_wf; [by apply new_from_fanout_wf|apply length_zeros]. Qed.
(** A generator with a path of one byte. *)
Definition child (b : byte) : Blake2b512Random :=
  mkRandom (digest base) (b :: zeros 127) (b :: zeros 111) (count_view base) (zeros 64) 0 1.
Lemma child_split b : split_byte (E:=unit) base b = Ok (child b).
Proof. vm_compute. reflexivity. Qed.
Lemma child_wf b : random_wf (child b).
Proof.
  destruct (split_byte_Ok (E:=unit) base b base_wf) as (r & Hr & Hw).
  rewrite child_split in Hr. by injection Hr as <-.
Qed.
Lemma children_wf l : Forall random_wf (child <$> l).
Proof. apply Forall_fmap, Forall_forall. intros b _. apply child_wf. Qed.

Lemma compress_refines_blake2b_witness :
  exists self' cv,
    compress (E:=unit) (new_from_fanout 0) (zeros 128) 0 (seqZ 0 9) true true true =
      Ok (self', cv) /\
    self' = new_from_fanout 0 /\
    unsigned (take 8 cv) = Spec.F (unsigned (chain_value (new_from_fanout 0)))
      (Spec.block_words (zeros 128)) 128 true true /\ drop 8 cv = [8%Z].
Proof.
  apply (compress_refines_blake2b (new_from_fanout 0) (zeros 128) 0 (seqZ 0 9) true true true).
  - apply new_from_fanout_wf. lia.
  - vm_compute. lia.
  - intros _. vm_compute. lia.
Defined.
Lemma next_draws_hash_halves_witness :
  exists out r', next_n (E:=unit) 3 base = Ok (out, r') /\ length out = 3 /\
    forall i, i < 3 -> out !! i = Some
      ((if Nat.even i then take 32 else drop 32)
         (name_block base (draws base + Z.of_nat (i / 2)))).
Proof.
  apply (next_draws_hash_halves 3 base); [exact base_wf| |reflexivity].
  apply (bool_decide_unpack _). vm_compute. exact I.
Defined.
Lemma merge_total_witness :
  exists r, merge (E:=unit) (child <$> [x00; x01]) = Some (Ok r) /\ random_wf r.
Proof. apply merge_total; [apply children_wf|simpl; lia]. Defined.
Lemma split_panics_iff_witness : split (E:=unit) 128 129 base = Panic.
Proof. exact (split_panics_iff base 129 128 base_wf ltac:(lia)). Defined.

(** With five children the digest is not that of the padded block. *)
Definition five : list Blake2b512Random := child <$> [x00; x01; x02; x03; x04].
Definition padded_digest : res unit Blake2b512Block :=
  d <-! update_block (new_from_fanout 5) (child_hashes (child <$> [x00; x01; x02; x03])) 0;
  update_block d (child_hashes [child x04] ++ zeros 96) 0.
Lemma five_not_padded :
  match merge (E:=unit) five, padded_digest with
  | Some (Ok r), Ok d => bool_decide (chain_value (digest r) <> chain_value d) = true
  | _, _ => False
  end.
Proof. vm_compute. reflexivity. Qed.
Lemma merge_keeps_stale_hashes_witness :
  exists d1 r,
    update_block (E:=unit) (new_from_fanout 5)
      (child_hashes (child <$> [x00; x01; x02; x03])) 0 = Ok d1 /\
    merge (E:=unit) five = Some (Ok r) /\
    update_block (E:=unit) d1 (child_hashes (child <$> [x04; x01; x02; x03])) 0 = Ok (digest r).
Proof.
  apply (merge_keeps_stale_hashes (child x00) (child x01) (child x02) (child x03) (child x04)).
  apply (children_wf [x00; x01; x02; x03; x04]).
Defined.
End MergeExample.
