(* ===== verification/NumberChannels.v ===== *)
(** * Number channels

    [rholang/src/rust/interpreter/merging/rholang_merging_logic.rs]: balances and bitmaps
    that merge by adding up differences.  [calculate_num_channel_diff] turns the values a
    block left into differences, [convert_to_read_number] reads a value of a base state and
    [calculate_number_channel_merge] writes the merged value with a merged generator.

    Rholang terms are a parameter [Par]; [RhoNumber] are its integers, with
    [RhoNumber::create_par] and [RhoNumber::unapply]. *)
From stdpp Require Import pretty.
From S2P Require Import Prelude Events HotStoreSig Serializers HistoryRepo MergingLogic.
From S2P Require Import StateChange Blake2b512Block Blake2b512Random.
Open Scope res_scope.

Class RhoNumber (Par : Type) := {
  create_par : Z -> Par;
  unapply_number : Par -> option Z;
  unapply_create_par : forall n, i64_range n -> unapply_number (create_par n) = Some n;
}.

(** [ListParWithRandom { pars, random_state }] *)
Record ListParWithRandom (Par : Type) := mkLPWR {
  pars : list Par;
  random_state : bytes;
}.
Arguments mkLPWR {Par} _ _.
Arguments pars {Par} _.
Arguments random_state {Par} _.

(** ** Differences *)

(** [((end_val as u64) & !(prev_val as u64)) as i64] for bitmaps *)
Definition number_diff (end_val prev_val : Z) (merge_type : MergeType) : Z :=
  match merge_type with
  | IntegerAdd => wrap_i64 (end_val - prev_val)
  | BitmaskOr => wrap_i64 (Z.land (as_u64 end_val) (as_u64 (Z.lnot (as_u64 prev_val))))
  end.
(** The loop over the final values of one change. *)
Definition diff_entry (st : NumberChannelsDiff * gmap Blake2b256Hash Z)
    (entry : Blake2b256Hash * (Z * MergeType)) : NumberChannelsDiff * gmap Blake2b256Hash Z :=
  let '(diffs, state) := st in
  let '(ch, (end_val, merge_type)) := entry in
  match state !! ch with
  | Some prev_val =>
    (<[ch := (number_diff end_val prev_val merge_type, merge_type)]> diffs,
     <[ch := end_val]> state)
  | None => (diffs, state)
  end.
Fixpoint num_channel_diffs (state : gmap Blake2b256Hash Z)
    (channel_values : list NumberChannelsDiff) : list NumberChannelsDiff :=
  match channel_values with
  | [] => []
  | end_val_map :: rest =>
    let '(diffs, state) := foldl diff_entry (∅, state) (btree_entries end_val_map) in
    diffs :: num_channel_diffs state rest
  end.
(** [fn calculate_num_channel_diff] *)
Definition initial_values (channel_values : list NumberChannelsDiff)
    (get_initial_value : Blake2b256Hash -> option Z) : gmap Blake2b256Hash Z :=
  let unique_keys := remove_dups (channel_values ≫= fun channel => (btree_entries channel).*1) in
  list_to_map ((fun key => (key, default 0%Z (get_initial_value key))) <$> unique_keys).
Definition calculate_num_channel_diff (channel_values : list NumberChannelsDiff)
    (get_initial_value : Blake2b256Hash -> option Z) : list NumberChannelsDiff :=
  num_channel_diffs (initial_values channel_values get_initial_value) channel_values.

Section values.
Context {Par : Type} `{!RhoNumber Par}.
Abbreviation A := (ListParWithRandom Par).

(** ** Reading a value *)

(** [fn try_get_number_with_rnd] *)
Definition try_get_number_with_rnd (par_with_rnd : A) :
  res HistoryError (option (Z * Blake2b512Random)) :=
  match pars par_with_rnd with
  | [p] =>
    match unapply_number p with
    | Some num =>
      rnd <-! random_from_bytes (random_state par_with_rnd);
      Ok (Some (num, rnd))
    | None => Ok None
    end
  | _ => Ok None
  end.
(** [fn convert_to_read_number] *)
Definition convert_to_read_number
    (get_data_func : Blake2b256Hash -> res HistoryError (list (Datum A)))
    (hash : Blake2b256Hash) : res HistoryError (option Z) :=
  data <-! get_data_func hash;
  if decide (1 < length data) then
    Err (MergeError ("Number channel " +:+ hash_to_string hash +:+ " has " +:+
      pretty (length data) +:+ " pre-state values; single-value invariant violated"))
  else
    match head data with
    | None => Ok None
    | Some datum =>
      number <-! try_get_number_with_rnd (datum_a datum);
      match number with
      | Some (n, _) => Ok (Some n)
      | None => Err (MergeError ("Number channel " +:+ hash_to_string hash +:+
          " pre-state value is non-numeric; channel-type invariant violated"))
      end
    end.

(** ** Writing the merged value *)

Context {C P K : Type} (cd : Codecs C P A K) (rc : RowCodecs C P A K).

(** [fn create_datum_encoded] *)
Definition number_datum (channel_hash : Blake2b256Hash) (num : Z) (rnd : Blake2b512Random) :
  Datum A :=
  let par_with_rnd := mkLPWR [create_par num] (random_to_bytes rnd) in
  let data_hash := hash_produce cd channel_hash par_with_rnd false in
  mkDatum par_with_rnd false (mkProduce channel_hash data_hash false true [] false).
Definition create_datum_encoded (channel_hash : Blake2b256Hash) (num : Z)
    (rnd : Blake2b512Random) : bytes :=
  ser_datum_row rc (number_datum channel_hash num rnd).
(** [fn decode_rnd] *)
Definition decode_rnd (par_with_rnd_encoded : bytes) : res HistoryError Blake2b512Random :=
  datum <-! unwrap (de_datum_row rc par_with_rnd_encoded);
  random_from_bytes (random_state (datum_a datum)).

(** The generator of the merged value: that of the only distinct datum added, else the
    merge of the distinct generators in the order of their bytes. *)
#[global] Instance Blake2b512Block_eq_dec : EqDecision Blake2b512Block.
Proof. solve_decision. Defined.
#[global] Instance Blake2b512Random_eq_dec : EqDecision Blake2b512Random.
Proof. solve_decision. Defined.
Definition merge_rnds (rnds : list Blake2b512Random) : res HistoryError Blake2b512Random :=
  default Panic (merge (sort_by (fun a b => bytes_cmp (random_to_bytes a) (random_to_bytes b))
    (remove_dups rnds))).
Definition new_rnd (added : list bytes) : res HistoryError Blake2b512Random :=
  if decide (size (list_to_set added : gset bytes) = 1) then
    first <-! unwrap (head added);
    decode_rnd first
  else
    rnds <-! res_mapM decode_rnd added;
    merge_rnds rnds.

(** The new value of [calculate_number_channel_merge]. *)
Definition merged_number (init_num diff : Z) (merge_type : MergeType) : Z :=
  match merge_type with
  | IntegerAdd => wrap_i64 (init_num + diff)
  | BitmaskOr => wrap_i64 (Z.lor (as_u64 init_num) (as_u64 diff))
  end.
(** [fn calculate_number_channel_merge] *)
Definition calculate_number_channel_merge (channel_hash : Blake2b256Hash) (diff : Z)
    (merge_type : MergeType) (changes : ChannelChange)
    (get_base_data : Blake2b256Hash -> res HistoryError (list (Datum A))) :
  res HistoryError (HotStoreTrieAction C P A K) :=
  init_num <-! convert_to_read_number get_base_data channel_hash;
  let new_val := merged_number (default 0%Z init_num) diff merge_type in
  new_rnd <-! new_rnd (added changes);
  let datum_encoded := create_datum_encoded channel_hash new_val new_rnd in
  Ok (TrieInsert (TrieInsertBinaryProduce channel_hash [datum_encoded])).
End values.
