(* ===== verification/NumberChannelsThms.v ===== *)
(** * What number channels guarantee

    Adding the differences that [calculate_num_channel_diff] computes gives back the values
    it was given, and the datum that [calculate_number_channel_merge] writes holds the
    merged number and does not depend on the order of the changes. *)
From S2P Require Import Prelude Events HotStoreSig Serializers HistoryRepo MergingLogic.
From S2P Require Import MergingCombine StateChange Blake2b512Block Blake2b512Random.
From S2P Require Import Blake2bSpec Blake2b512RandomThms Blake2b512RandomBytes Blake2b512Merge.
From S2P Require Import HistoryThms NumberChannels.

(** ** Differences *)

(** The value of a channel after the changes, by their final values and by differences. *)
Definition last_value (v : Z) (ch : Blake2b256Hash) (vs : list NumberChannelsDiff) : Z :=
  foldl (fun v m => from_option fst v (m !! ch)) v vs.
Definition add_diffs (v : Z) (ch : Blake2b256Hash) (ds : list NumberChannelsDiff) : Z :=
  foldl (fun v d => match d !! ch with
    | Some (x, t) => combine_mergeable_value v x t | None => v end) v ds.
(** Values are in range, and bits of a bitmap are never taken back. *)
Fixpoint values_grow (v : Z) (ch : Blake2b256Hash) (vs : list NumberChannelsDiff) : Prop :=
  match vs with
  | [] => True
  | m :: vs =>
    match m !! ch with
    | Some (e, t) => i64_range e /\
        (t = BitmaskOr -> Z.land (as_u64 v) (as_u64 e) = as_u64 v) /\ values_grow e ch vs
    | None => values_grow v ch vs
    end
  end.

Lemma as_u64_eq_wrap a b : i64_range a -> as_u64 a = as_u64 b -> a = wrap_i64 b.
Proof.
  intros Ha Hu. rewrite <- (wrap_i64_id a Ha). unfold wrap_i64, as_u64 in *.
  by rewrite <- (Zplus_mod_idemp_l a), Hu, Zplus_mod_idemp_l.
Qed.
Lemma wrap_as_u64 z : wrap_i64 (as_u64 z) = wrap_i64 z.
Proof. unfold wrap_i64, as_u64. by rewrite Zplus_mod_idemp_l. Qed.
Lemma u64_lor_diff a b :
  (0 <= a < 2 ^ 64 -> 0 <= b < 2 ^ 64 -> Z.land a b = a ->
   Z.lor a (Z.land b (as_u64 (Z.lnot a))) = b)%Z.
Proof.
  intros Ha Hb Hab. unfold as_u64. rewrite <- Z.land_ones by lia. apply Z.bits_inj'.
  intros n Hn. rewrite Z.lor_spec, !Z.land_spec, Z.lnot_spec by done.
  assert (Z.testbit a n = Z.testbit a n && Z.testbit b n) as Hn'
    by (by rewrite <- Z.land_spec, Hab).
  destruct (decide (n < 64)%Z).
  - rewrite Z.ones_spec_low by lia. by destruct (Z.testbit a n), (Z.testbit b n).
  - assert (Z.testbit b n = false) as Hbn.
    { rewrite <- (Z.mod_small b (2 ^ 64)) by done. apply Z.mod_pow2_bits_high. lia. }
    rewrite Hbn in *. rewrite Hn'. by destruct (Z.testbit a n).
Qed.

(** Adding a difference to the value before gives the value after. *)
Lemma number_diff_add v e t :
  i64_range e -> (t = BitmaskOr -> Z.land (as_u64 v) (as_u64 e) = as_u64 v) ->
  combine_mergeable_value v (number_diff e v t) t = e.
Proof.
  intros He Hb. destruct t; simpl.
  - rewrite Z.add_comm, wrap_i64_add_l. replace (e - v + v)%Z with e by lia. by apply wrap_i64_id.
  - rewrite as_u64_wrap.
    assert (as_u64 (Z.land (as_u64 e) (as_u64 (Z.lnot (as_u64 v)))) =
            Z.land (as_u64 e) (as_u64 (Z.lnot (as_u64 v)))) as ->.
    { generalize (as_u64 e) (Z.lnot (as_u64 v)). intros a b. unfold as_u64.
      rewrite <- !Z.land_ones by lia. by rewrite <- !Z.land_assoc, Z.land_diag. }
    rewrite u64_lor_diff; [|apply Z.mod_pos_bound; lia|apply Z.mod_pos_bound; lia|auto].
    rewrite wrap_as_u64. by apply wrap_i64_id.
Qed.

Lemma diff_entries_spec l ds st :
  NoDup l.*1 -> (forall k, k ∈ l.*1 -> is_Some (st !! k)) ->
  let '(ds', st') := foldl diff_entry (ds, st) l in
  (forall ch, ds' !! ch = match (list_to_map l : NumberChannelsDiff) !! ch with
     | Some (e, t) => Some (number_diff e (default 0%Z (st !! ch)) t, t)
     | None => ds !! ch end) /\
  (forall ch, st' !! ch = match (list_to_map l : NumberChannelsDiff) !! ch with
     | Some (e, t) => Some e | None => st !! ch end).
Proof.
  revert ds st. induction l as [|[k [e t]] l IH]; intros ds st Hnd Hst; [done|].
  apply NoDup_cons in Hnd as [Hk Hnd]. cbn [foldl diff_entry].
  destruct (Hst k) as [v Hv]; [left|]. rewrite Hv.
  apply (not_elem_of_list_to_map_1 (M:=gmap Blake2b256Hash)) in Hk. simpl in Hk.
  specialize (IH (<[k := (number_diff e v t, t)]> ds) (<[k := e]> st) Hnd).
  destruct (foldl diff_entry _ l) as [ds' st']. destruct IH as [IHd IHs].
  { intros k' Hk'. destruct (decide (k' = k)) as [->|Hne].
    - rewrite lookup_insert_eq. eauto.
    - rewrite lookup_insert_ne by done. apply Hst. by right. }
  simpl. split; intros ch; [rewrite IHd|rewrite IHs];
    (destruct (decide (ch = k)) as [->|Hne];
     [rewrite Hk, !lookup_insert_eq|rewrite !lookup_insert_ne by done]); rewrite ?Hv; done.
Qed.

Lemma num_channel_diffs_spec vs st ch v n :
  (forall m k, m ∈ vs -> is_Some (m !! k) -> is_Some (st !! k)) ->
  (is_Some (st !! ch) -> st !! ch = Some v) -> values_grow v ch vs ->
  add_diffs v ch (take n (num_channel_diffs st vs)) = last_value v ch (take n vs).
Proof.
  revert st v n. induction vs as [|m vs IH]; intros st v n Hst Hv Hg; [by destruct n|].
  destruct n as [|n]; [done|]. cbn [num_channel_diffs].
  pose proof (diff_entries_spec (btree_entries m) ∅ st (btree_entries_NoDup m)) as Hs.
  destruct (foldl diff_entry _ _) as [ds st']. rewrite list_to_map_btree_entries in Hs.
  destruct Hs as [Hd Hs].
  { intros k ([k' w] & -> & Hin)%list_elem_of_fmap. apply elem_of_btree_entries in Hin.
    apply (Hst m); [left|]. eauto. }
  cbn [take firstn]. unfold add_diffs, last_value. cbn [foldl]. rewrite Hd.
  assert (forall m' k, m' ∈ vs -> is_Some (m' !! k) -> is_Some (st' !! k)) as Hst'.
  { intros m' k Hm Hk. rewrite Hs. destruct (m !! k) as [[e t]|]; [eauto|].
    apply (Hst m'); [by right|done]. }
  cbn [values_grow] in Hg. destruct (m !! ch) as [[e t]|] eqn:Em; simpl.
  - destruct Hg as (He & Hb & Hg). rewrite (Hv (Hst m ch ltac:(left) ltac:(eauto))). simpl.
    rewrite number_diff_add by done. apply (IH st' e n); [done| |done].
    intros _. by rewrite Hs, Em.
  - rewrite lookup_empty. apply (IH st' v n); [done| |done]. rewrite Hs, Em. done.
Qed.

Lemma initial_values_lookup vs get k :
  (exists m, m ∈ vs /\ is_Some (m !! k)) ->
  initial_values vs get !! k = Some (default 0%Z (get k)).
Proof.
  intros (m & Hm & [w Hw]). unfold initial_values. apply elem_of_list_to_map_1.
  - set (keys := remove_dups _).
    assert (((fun key => (key, default 0%Z (get key))) <$> keys).*1 = keys) as ->.
    { rewrite <- list_fmap_compose. apply list_fmap_id. }
    apply NoDup_remove_dups.
  - apply (list_elem_of_fmap_2 (fun key => (key, default 0%Z (get key)))).
    apply elem_of_remove_dups, list_elem_of_bind. exists m. split; [|done].
    apply (list_elem_of_fmap_2 fst _ (k, w)). by apply elem_of_btree_entries.
Qed.
Lemma initial_values_some vs get k :
  is_Some (initial_values vs get !! k) -> initial_values vs get !! k = Some (default 0%Z (get k)).
Proof.
  intros [v Hv]. rewrite Hv. unfold initial_values in Hv.
  apply elem_of_list_to_map_2, list_elem_of_fmap in Hv as (k' & [= -> ->] & _). done.
Qed.

(** Adding up the differences of the first changes gives the value these changes left in
    a channel, for integers always and for bitmaps if no change clears a bit. *)
Theorem num_channel_diff_roundtrip vs get ch n :
  values_grow (default 0%Z (get ch)) ch vs ->
  add_diffs (default 0%Z (get ch)) ch (take n (calculate_num_channel_diff vs get)) =
  last_value (default 0%Z (get ch)) ch (take n vs).
Proof.
  intros Hg. apply num_channel_diffs_spec; [| |done].
  - intros m k Hm Hk. erewrite initial_values_lookup by eauto. eauto.
  - apply initial_values_some.
Qed.

(** ** The merged value *)

Lemma sort_by_fmap {A B} (f : A -> B) (cmp : B -> B -> comparison) (l : list A) :
  f <$> sort_by (fun a b => cmp (f a) (f b)) l = sort_by cmp (f <$> l).
Proof.
  induction l as [|x l IH]; [done|].
  change (f <$> sort_insert (fun a b => cmp (f a) (f b)) x
            (sort_by (fun a b => cmp (f a) (f b)) l) =
          sort_insert cmp (f x) (sort_by cmp (f <$> l))).
  rewrite <- IH. generalize (sort_by (fun a b => cmp (f a) (f b)) l). intros k.
  induction k as [|y k IHk]; [done|]. cbn [sort_insert fmap list_fmap].
  destruct (cmp (f x) (f y)); [done..|]. cbn [fmap list_fmap]. by rewrite <- IHk.
Qed.
Lemma fmap_inj_on {A B} (f : A -> B) (Q : A -> Prop) l k :
  (forall a b, Q a -> Q b -> f a = f b -> a = b) ->
  Forall Q l -> Forall Q k -> f <$> l = f <$> k -> l = k.
Proof.
  intros Hinj Hl. revert k. induction Hl as [|x l Hx Hl IH]; intros [|y k] Hk; try done.
  apply Forall_cons in Hk as [Hy Hk]. simpl. intros [= Hxy Hlk]. f_equal; auto.
Qed.
Lemma sort_by_key_unique {A B} (f : A -> B) (cmp : B -> B -> comparison) `{!CmpOrder cmp}
    (Q : A -> Prop) l k :
  (forall a b, Q a -> Q b -> f a = f b -> a = b) -> Forall Q l -> l ≡ₚ k ->
  sort_by (fun a b => cmp (f a) (f b)) l = sort_by (fun a b => cmp (f a) (f b)) k.
Proof.
  intros Hinj Hl Hlk. apply (fmap_inj_on f Q); [done|by rewrite sort_by_perm| |].
  - rewrite sort_by_perm. by rewrite <- Hlk.
  - rewrite !sort_by_fmap. apply sort_by_unique; [done|]. by rewrite Hlk.
Qed.

Lemma random_to_bytes_inj r r' :
  random_wf r -> random_wf r' -> random_to_bytes r = random_to_bytes r' -> r = r'.
Proof.
  intros Hr Hr' E. pose proof (random_from_to_bytes (E:=unit) r Hr) as H1.
  rewrite E, (random_from_to_bytes (E:=unit) r' Hr') in H1. by injection H1.
Qed.

Lemma res_mapM_Forall {E A B} (f : A -> res E B) (Q : B -> Prop) l :
  Forall (fun a => exists b, f a = Ok b /\ Q b) l ->
  exists bs, res_mapM f l = Ok bs /\ Forall Q bs /\ forall b, b ∈ bs <-> exists a, a ∈ l /\ f a = Ok b.
Proof.
  induction 1 as [|a l (b & Hb & HQ) Hl (bs & Hbs & HF & Hin)]; simpl.
  - exists []. split_and!; [done|constructor|]. set_solver.
  - rewrite Hb, Hbs. simpl. exists (b :: bs). split_and!; [done|by constructor|].
    intros b'. rewrite elem_of_cons, Hin. split.
    + intros [->|(a' & Ha & ?)]; [exists a|exists a']; (split; [|done]); [left|by right].
    + intros (a' & [->|Ha]%elem_of_cons & Ha'); [left; congruence|right; eauto].
Qed.

Section merged.
Context {Par : Type} `{!RhoNumber Par} {C P K : Type}.
Abbreviation A := (ListParWithRandom Par).
Context (cd : Codecs C P A K) (rc : RowCodecs C P A K) `{!RowCodecsLaws rc}.

Definition decodes (b : bytes) (r : Blake2b512Random) : Prop :=
  decode_rnd rc b = Ok r /\ random_wf r.
(** The data that the changes add hold generators; there is one distinct datum, or there
    are two distinct generators to merge. *)
Definition mergeable_added (added : list bytes) : Prop :=
  Forall (fun b => exists r, decodes b r) added /\
  (size (list_to_set added : gset bytes) = 1 \/
   exists a b r r', a ∈ added /\ b ∈ added /\ decodes a r /\ decodes b r' /\ r <> r').

Lemma merge_rnds_Ok rnds :
  Forall random_wf rnds -> (exists r r', r ∈ rnds /\ r' ∈ rnds /\ r <> r') ->
  exists rnd, random_wf rnd /\
    forall rnds', (forall r, r ∈ rnds' <-> r ∈ rnds) -> merge_rnds rnds' = Ok rnd.
Proof.
  intros Hw (r & r' & Hr & Hr' & Hne).
  set (key := sort_by (fun a b => bytes_cmp (random_to_bytes a) (random_to_bytes b))).
  assert (Forall random_wf (remove_dups rnds)) as Hd.
  { apply Forall_forall. intros x Hx. rewrite elem_of_remove_dups in Hx.
    rewrite Forall_forall in Hw. by apply Hw. }
  destruct (merge_total_lemma (E:=HistoryError) (key (remove_dups rnds))) as (rnd & Hm & Hrnd).
  { unfold key. by rewrite sort_by_perm. }
  { unfold key. rewrite sort_by_perm.
    pose proof (NoDup_remove_dups rnds) as Hnd.
    apply elem_of_remove_dups in Hr, Hr'.
    destruct (remove_dups rnds) as [|x [|y l]]; [set_solver| |simpl; lia].
    apply list_elem_of_singleton in Hr, Hr'. congruence. }
  exists rnd. split; [done|]. intros rnds' Hin. unfold merge_rnds. fold key.
  assert (key (remove_dups rnds') = key (remove_dups rnds)) as ->; [|by rewrite Hm].
  unfold key. symmetry. apply (sort_by_key_unique random_to_bytes bytes_cmp random_wf);
    [apply random_to_bytes_inj|done|].
  apply NoDup_Permutation; [apply NoDup_remove_dups..|]. intros x.
  by rewrite !elem_of_remove_dups, Hin.
Qed.

Lemma new_rnd_Ok added :
  mergeable_added added ->
  exists rnd, random_wf rnd /\
    forall added', (forall x, x ∈ added' <-> x ∈ added) -> new_rnd rc added' = Ok rnd.
Proof.
  intros [Hdec Hsize].
  assert (forall added', (forall x, x ∈ added' <-> x ∈ added) ->
    (list_to_set added' : gset bytes) = list_to_set added) as Hset.
  { intros added' Hin. apply set_eq. intros x. by rewrite !elem_of_list_to_set. }
  destruct (decide (size (list_to_set added : gset bytes) = 1)) as [H1|Hn1].
  - apply size_1_elem_of in H1 as [b Hb]. 
    assert (b ∈ added) as Hin by (apply (elem_of_list_to_set (C:=gset bytes)); set_solver).
    pose proof Hdec as Hdec'. rewrite Forall_forall in Hdec'.
    destruct (Hdec' b Hin) as (r & Hr & Hw). exists r. split; [done|]. intros added' Hin'.
    unfold new_rnd. rewrite (Hset _ Hin'). rewrite decide_True by (rewrite Hb; apply size_singleton).
    destruct added' as [|x added']; [by apply Hin' in Hin; apply not_elem_of_nil in Hin|].
    assert (x = b) as ->; [|done].
    assert (x ∈ (list_to_set added : gset bytes)) as Hx
      by (apply elem_of_list_to_set, Hin'; left). set_solver.
  - destruct Hsize as [?|(a & b & r & r' & Ha & Hb & [Hr Hwr] & [Hr' Hwr'] & Hne)]; [done|].
    destruct (res_mapM_Forall (decode_rnd rc) random_wf added Hdec) as (rnds & Hrn & Hwf & Hrin).
    destruct (merge_rnds_Ok rnds Hwf) as (rnd & Hrnd & Hm).
    { exists r, r'. rewrite !Hrin. split_and!; eauto. }
    exists rnd. split; [done|]. intros added' Hin'. unfold new_rnd.
    rewrite (Hset _ Hin'), decide_False by done.
    destruct (res_mapM_Forall (decode_rnd rc) random_wf added') as (rnds' & -> & _ & Hrin').
    { apply Forall_forall. intros x Hx. rewrite Forall_forall in Hdec. by apply Hdec, Hin'. }
    simpl. apply Hm. intros x. rewrite Hrin', Hrin. by setoid_rewrite Hin'.
Qed.

Lemma merged_number_range a b t : i64_range (merged_number a b t).
Proof. destruct t; apply wrap_i64_range. Qed.

(** C39: the action of a merged number channel depends only on the set of data that the
    changes add; it writes one datum, which reads back as the number of the base state
    combined with the difference, together with a well-formed generator. *)
Theorem number_channel_merge_correct ch diff mt changes get v :
  convert_to_read_number get ch = Ok v -> mergeable_added (added changes) ->
  exists b d rnd,
    (forall changes', (forall x, x ∈ added changes' <-> x ∈ added changes) ->
       calculate_number_channel_merge cd rc ch diff mt changes' get =
       Ok (TrieInsert (TrieInsertBinaryProduce ch [b]))) /\
    de_datum_row rc b = Some d /\
    try_get_number_with_rnd (datum_a d) =
      Ok (Some (merged_number (default 0%Z v) diff mt, rnd)) /\ random_wf rnd.
Proof.
  intros Hv Hadd. destruct (new_rnd_Ok _ Hadd) as (rnd & Hw & Hrnd).
  set (num := merged_number (default 0%Z v) diff mt).
  exists (create_datum_encoded cd rc ch num rnd), (number_datum cd ch num rnd), rnd.
  split_and!; [| | |done].
  - intros changes' Hin. unfold calculate_number_channel_merge. rewrite Hv. simpl.
    rewrite (Hrnd _ Hin). done.
  - apply datum_row_roundtrip.
  - unfold try_get_number_with_rnd, number_datum. simpl.
    rewrite unapply_create_par by apply merged_number_range.
    by rewrite random_from_to_bytes.
Qed.
End merged.

(** ** Examples *)

Module NumberExample.
Import HistoryExample MergeExample.
Definition a : Blake2b256Hash := [x0a].
Definition b : Blake2b256Hash := [x0b].
Definition c : Blake2b256Hash := [x0c].
Definition values : list NumberChannelsDiff :=
  [{[a := (20, IntegerAdd)]}; {[b := (3, IntegerAdd)]};
   {[a := (15, IntegerAdd); c := (10, IntegerAdd)]}]%Z.
Definition start (ch : Blake2b256Hash) : option Z :=
  if decide (ch = a) then Some 10%Z else if decide (ch = c) then Some 20%Z else None.

(** The example of the documentation of [calculate_num_channel_diff]. *)
Lemma num_channel_diff_roundtrip_witness :
  calculate_num_channel_diff values start =
    [{[a := (10, IntegerAdd)]}; {[b := (3, IntegerAdd)]};
     {[a := (-5, IntegerAdd); c := (-10, IntegerAdd)]}]%Z /\
  add_diffs 10 a (take 3 (calculate_num_channel_diff values start)) =
    last_value 10 a (take 3 values) /\ last_value 10 a (take 3 values) = 15%Z.
Proof.
  split; [apply (bool_decide_unpack _); vm_compute; exact I|].
  split; [|vm_compute; reflexivity].
  apply (num_channel_diff_roundtrip values start a 3).
  cbn [values_grow values lookup]. vm_compute. intuition discriminate.
Defined.

#[export] Program Instance Z_number : RhoNumber Z := {|
  create_par := id;
  unapply_number z := if decide (i64_min <= z <= i64_max)%Z then Some z else None |}.
Next Obligation. intros n Hn. unfold id. by destruct (decide (i64_min <= n <= i64_max)%Z). Qed.
#[local] Instance lpwr_eq_dec : EqDecision (ListParWithRandom Z).
Proof. solve_decision. Defined.
#[local] Program Instance lpwr_countable : Countable (ListParWithRandom Z) :=
  inj_countable' (fun x => (pars x, random_state x)) (fun '(p, r) => mkLPWR p r) _.
Next Obligation. by intros []. Qed.
#[local] Instance lpwr_datum_eq_dec : EqDecision (Datum (ListParWithRandom Z)).
Proof. solve_decision. Defined.
#[local] Program Instance lpwr_datum_countable : Countable (Datum (ListParWithRandom Z)) :=
  inj_countable' (fun d => (datum_a d, datum_persist d, datum_source d))
    (fun '(a, p, s) => mkDatum a p s) _.
Next Obligation. by intros []. Qed.

Definition number_codecs : Codecs nat nat (ListParWithRandom Z) nat :=
  let enc n := [nat_to_byte n] in
  mkCodecs _ _ _ _ enc enc random_state enc (fun b => if b : bool then enc 1 else enc 0) mjoin id.
Definition number_rows : RowCodecs nat nat (ListParWithRandom Z) nat := mkRowCodecs _ _ _ _
  ser_any de_any ser_any de_any ser_any de_any ser_any de_any ser_any de_any
  (fun b => replicate 8 x00 ++ b).
#[local] Instance number_rows_laws : RowCodecsLaws number_rows.
Proof.
  split; intros; try apply de_ser_any.
  - intros l l' Hl. by apply app_inj_1 in Hl as [_ ?].
  - done.
Qed.

(** Two branches left 5 and 7 in a balance that was 3. *)
Definition left_by (n : Z) (x : byte) : Datum (ListParWithRandom Z) :=
  number_datum number_codecs a n (child x).
Definition balance_change : ChannelChange :=
  mkChange [ser_datum_row number_rows (left_by 5 x00); ser_datum_row number_rows (left_by 7 x01)] [].
Definition base_data (h : Blake2b256Hash) : res HistoryError (list (Datum (ListParWithRandom Z))) :=
  Ok [mkDatum (mkLPWR [3%Z] []) false (mkProduce h [] false true [] false)].

Lemma left_by_decodes n x :
  decodes number_rows (ser_datum_row number_rows (left_by n x)) (child x).
Proof.
  split; [|apply child_wf]. unfold decode_rnd.
  rewrite (datum_row_roundtrip (rc:=number_rows)). cbn [unwrap res_bind].
  change (random_from_bytes (E:=HistoryError) (random_to_bytes (child x)) = Ok (child x)).
  apply random_from_to_bytes, child_wf.
Qed.

Lemma number_channel_merge_correct_witness :
  exists b d rnd,
    (forall changes', (forall x, x ∈ added changes' <-> x ∈ added balance_change) ->
       calculate_number_channel_merge number_codecs number_rows a 6 IntegerAdd changes' base_data =
       Ok (TrieInsert (TrieInsertBinaryProduce a [b]))) /\
    de_datum_row number_rows b = Some d /\
    try_get_number_with_rnd (datum_a d) = Ok (Some (9%Z, rnd)) /\ random_wf rnd.
Proof.
  apply (number_channel_merge_correct number_codecs number_rows a 6 IntegerAdd balance_change
    base_data (Some 3%Z)).
  - reflexivity.
  - split.
    + apply Forall_cons. split; [eexists; apply left_by_decodes|].
      apply Forall_singleton. eexists; apply left_by_decodes.
    + right. eexists _, _, _, _. split; [left|]. split; [right; left|].
      split; [apply left_by_decodes|]. split; [apply left_by_decodes|]. discriminate.
Defined.
End NumberExample.
