(* ===== verification/CasperMessage.v ===== *)
(** * Messages of the consensus protocol

    [models/src/rust/casper/protocol/casper_message.rs]: blocks, deploys, events and the
    other messages that nodes exchange, and their conversion to and from the messages that
    the build generates from [models/src/main/protobuf/CasperMessage.proto].  In a
    generated message a field that is itself a message is optional, any other field is not.

    Signing deploys is [crypto/src/rust/signatures/]: the algorithms are known by name; what
    they compute, the hash functions and the binary encoding of a deploy are parameters. *)
From stdpp Require Import pretty.
From S2P Require Import Prelude.
Open Scope res_scope.

Abbreviation ByteString := bytes.
(** The error type of the conversions is [String]. *)
Abbreviation result := (res string).
Definition ok_or {A} (o : option A) (msg : string) : result A :=
  match o with Some a => Ok a | None => Err msg end.

(** ** Generated messages *)

Module Proto.
Record HeaderProto := mkHeader {
  h_parents_hash_list : list ByteString; h_timestamp : Z; h_version : Z; h_extra_bytes : ByteString }.
Record JustificationProto := mkJustification { j_validator : ByteString; j_latest : ByteString }.
Record BondProto := mkBond { b_validator : ByteString; b_stake : Z }.
Record RChainStateProto := mkState {
  s_pre_state_hash : ByteString; s_post_state_hash : ByteString;
  s_bonds : list BondProto; s_block_number : Z }.
Record PCost := mkCost { cost : Z }.
Record DeployDataProto := mkDeployData {
  d_deployer : ByteString; d_term : string; d_timestamp : Z; d_sig : ByteString;
  d_sig_algorithm : string; d_phlo_price : Z; d_phlo_limit : Z; d_valid_after_block_number : Z;
  d_shard_id : string; d_language : string; d_expiration_timestamp : Z }.
Record PeekProto := mkPeek { pk_channel_index : Z }.
Record ProduceEventProto := mkProduceEvent {
  pe_channels_hash : ByteString; pe_hash : ByteString; pe_persistent : bool;
  pe_times_repeated : Z; pe_is_deterministic : bool; pe_output_value : list ByteString;
  pe_failed : bool }.
Record ConsumeEventProto := mkConsumeEvent {
  ce_channels_hashes : list ByteString; ce_hash : ByteString; ce_persistent : bool }.
Record CommEventProto := mkCommEvent {
  cm_consume : option ConsumeEventProto; cm_produces : list ProduceEventProto;
  cm_peeks : list PeekProto }.
Inductive EventInstance :=
| EProduce (pe : ProduceEventProto)
| EConsume (ce : ConsumeEventProto)
| EComm (cme : CommEventProto).
Record EventProto := mkEvent { event_instance : option EventInstance }.
Record ProcessedDeployProto := mkProcessedDeploy {
  pd_deploy : option DeployDataProto; pd_cost : option PCost; pd_deploy_log : list EventProto;
  pd_errored : bool; pd_system_deploy_error : string }.
Record SlashSystemDeployDataProto := mkSlash {
  sl_invalid_block_hash : ByteString; sl_issuer_public_key : ByteString }.
Inductive SystemDeploy :=
| SlashSystemDeploy (s : SlashSystemDeployDataProto)
| CloseBlockSystemDeploy.
Record SystemDeployDataProto := mkSystemDeployData { system_deploy : option SystemDeploy }.
Record ProcessedSystemDeployProto := mkProcessedSystemDeploy {
  ps_system_deploy : option SystemDeployDataProto; ps_deploy_log : list EventProto;
  ps_error_msg : string }.
Record RejectedDeployProto := mkRejectedDeploy { r_sig : ByteString }.
Record BodyProto := mkBody {
  bd_state : option RChainStateProto; bd_deploys : list ProcessedDeployProto;
  bd_system_deploys : list ProcessedSystemDeployProto; bd_extra_bytes : ByteString;
  bd_rejected_deploys : list RejectedDeployProto }.
Record BlockMessageProto := mkBlockMessage {
  bm_block_hash : ByteString; bm_header : option HeaderProto; bm_body : option BodyProto;
  bm_justifications : list JustificationProto; bm_sender : ByteString; bm_seq_num : Z;
  bm_sig : ByteString; bm_sig_algorithm : string; bm_shard_id : string;
  bm_extra_bytes : ByteString }.
Record Signature := mkSignature {
  sg_public_key : ByteString; sg_algorithm : string; sg_sig : ByteString }.
Record ApprovedBlockCandidateProto := mkCandidate {
  ac_block : option BlockMessageProto; ac_required_sigs : Z }.
Record UnapprovedBlockProto := mkUnapproved {
  u_candidate : option ApprovedBlockCandidateProto; u_timestamp : Z; u_duration : Z }.
Record BlockApprovalProto := mkApproval {
  ba_candidate : option ApprovedBlockCandidateProto; ba_sig : option Signature }.
Record ApprovedBlockProto := mkApprovedBlock {
  ab_candidate : option ApprovedBlockCandidateProto; ab_sigs : list Signature }.
Record StoreNodeKeyProto := mkStoreNodeKey { sk_hash : ByteString; sk_index : Z }.
Record StoreItemProto := mkStoreItem { si_key : ByteString; si_value : ByteString }.
Record StoreItemsMessageRequestProto := mkStoreItemsRequest {
  sr_start_path : list StoreNodeKeyProto; sr_skip : Z; sr_take : Z }.
Record StoreItemsMessageProto := mkStoreItems {
  sm_start_path : list StoreNodeKeyProto; sm_last_path : list StoreNodeKeyProto;
  sm_history_items : list StoreItemProto; sm_data_items : list StoreItemProto }.
End Proto.
Import Proto.

(** ** Events of a deploy *)

Record Peek := mkPeekIndex { channel_index : Z }.
Record ProduceEvent := mkProduceEv {
  pev_channels_hash : ByteString; pev_hash : ByteString; pev_persistent : bool;
  pev_times_repeated : Z; pev_is_deterministic : bool; pev_output_value : list ByteString;
  pev_failed : bool }.
Record ConsumeEvent := mkConsumeEv {
  cev_channels_hashes : list ByteString; cev_hash : ByteString; cev_persistent : bool }.
Record CommEvent := mkCommEv {
  cme_consume : ConsumeEvent; cme_produces : list ProduceEvent; cme_peeks : list Peek }.
(** [enum Event] *)
Inductive CasperEvent :=
| ProduceEv (pe : ProduceEvent)
| ConsumeEv (ce : ConsumeEvent)
| CommEv (cme : CommEvent).

Definition Peek_from_proto (proto : PeekProto) : Peek := mkPeekIndex (pk_channel_index proto).
Definition Peek_to_proto (p : Peek) : PeekProto := mkPeek (channel_index p).
Definition ProduceEvent_to_proto (p : ProduceEvent) : ProduceEventProto :=
  mkProduceEvent (pev_channels_hash p) (pev_hash p) (pev_persistent p) (pev_times_repeated p)
    (pev_is_deterministic p) (pev_output_value p) (pev_failed p).
Definition ProduceEvent_from_proto (proto : ProduceEventProto) : ProduceEvent :=
  mkProduceEv (pe_channels_hash proto) (pe_hash proto) (pe_persistent proto)
    (pe_times_repeated proto) (pe_is_deterministic proto) (pe_output_value proto) (pe_failed proto).
Definition ConsumeEvent_to_proto (c : ConsumeEvent) : ConsumeEventProto :=
  mkConsumeEvent (cev_channels_hashes c) (cev_hash c) (cev_persistent c).
Definition ConsumeEvent_from_proto (proto : ConsumeEventProto) : ConsumeEvent :=
  mkConsumeEv (ce_channels_hashes proto) (ce_hash proto) (ce_persistent proto).
Definition CommEvent_to_proto (c : CommEvent) : CommEventProto :=
  mkCommEvent (Some (ConsumeEvent_to_proto (cme_consume c)))
    (ProduceEvent_to_proto <$> cme_produces c) (Peek_to_proto <$> cme_peeks c).
Definition Event_from_proto (proto : EventProto) : result CasperEvent :=
  match event_instance proto with
  | Some (EProduce pe) => Ok (ProduceEv (ProduceEvent_from_proto pe))
  | Some (EConsume ce) => Ok (ConsumeEv (ConsumeEvent_from_proto ce))
  | Some (EComm cme) =>
    consume <-! ok_or (cm_consume cme) "Missing consume field";
    Ok (CommEv (mkCommEv (ConsumeEvent_from_proto consume)
          (ProduceEvent_from_proto <$> cm_produces cme) (Peek_from_proto <$> cm_peeks cme)))
  | None => Err "Received malformed Event: None"
  end.
Definition Event_to_proto (e : CasperEvent) : EventProto :=
  match e with
  | ProduceEv pe => mkEvent (Some (EProduce (ProduceEvent_to_proto pe)))
  | ConsumeEv ce => mkEvent (Some (EConsume (ConsumeEvent_to_proto ce)))
  | CommEv cme => mkEvent (Some (EComm (CommEvent_to_proto cme)))
  end.

(** ** Signatures *)

(** The implementations of the trait [SignaturesAlg], without the experimental ones *)
Inductive SignaturesAlg := Secp256k1 | Secp256k1Eth.
(** [fn name] *)
Definition alg_name (a : SignaturesAlg) : string :=
  match a with Secp256k1 => "secp256k1" | Secp256k1Eth => "secp256k1" +:+ ":eth" end.
(** [SignaturesAlgFactory::apply] *)
Definition SignaturesAlgFactory_apply (name : string) : option SignaturesAlg :=
  if decide (name = "secp256k1") then Some Secp256k1
  else if decide (name = "secp256k1-eth") then Some Secp256k1Eth
  else None.

(** [struct PublicKey] *)
Record PublicKey := mkPublicKey { pk_bytes : ByteString }.
(** [struct Signed<A>] *)
Record Signed (A : Type) := mkSigned {
  data : A; pk : PublicKey; signed_sig : ByteString; sig_alg : SignaturesAlg }.
Arguments mkSigned {A}. Arguments data {A}. Arguments pk {A}.
Arguments signed_sig {A}. Arguments sig_alg {A}.

(** ** Deploys *)

Record DeployData := mkDeploy {
  term : string; time_stamp : Z; phlo_price : Z; phlo_limit : Z; valid_after_block_number : Z;
  dd_shard_id : string; expiration_timestamp : option Z }.
(** [fn total_phlo_charge]; [i64] multiplication wraps *)
Definition total_phlo_charge (d : DeployData) : Z := wrap_i64 (phlo_limit d * phlo_price d).
Definition has_expiration (d : DeployData) : bool :=
  match expiration_timestamp d with Some exp => bool_decide (0 < exp)%Z | None => false end.
Definition is_expired_at (d : DeployData) (current_time_millis : Z) : bool :=
  match expiration_timestamp d with
  | Some exp => bool_decide (exp < current_time_millis)%Z
  | None => false
  end.
(** [fn _from_proto] *)
Definition DeployData_of_proto (proto : DeployDataProto) : DeployData :=
  mkDeploy (d_term proto) (d_timestamp proto) (d_phlo_price proto) (d_phlo_limit proto)
    (d_valid_after_block_number proto) (d_shard_id proto)
    (if decide (d_expiration_timestamp proto = 0%Z) then None
     else Some (d_expiration_timestamp proto)).
(** [fn _to_proto]: the fields that are signed *)
Definition DeployData_proto (dd : DeployData) : DeployDataProto :=
  mkDeployData [] (term dd) (time_stamp dd) [] EmptyString (phlo_price dd) (phlo_limit dd)
    (valid_after_block_number dd) (dd_shard_id dd) EmptyString
    (default 0%Z (expiration_timestamp dd)).
(** [fn to_proto] *)
Definition DeployData_to_proto (dd : Signed DeployData) : DeployDataProto :=
  mkDeployData (pk_bytes (pk dd)) (term (data dd)) (time_stamp (data dd)) (signed_sig dd)
    (alg_name (sig_alg dd)) (phlo_price (data dd)) (phlo_limit (data dd))
    (valid_after_block_number (data dd)) (dd_shard_id (data dd)) EmptyString
    (default 0%Z (expiration_timestamp (data dd))).

(** What the signature libraries and the binary encoding of messages provide. *)
Record SignatureOps := mkSignatureOps {
  verify : SignaturesAlg -> bytes -> bytes -> bytes -> bool;
  sign : SignaturesAlg -> bytes -> bytes -> bytes;
  to_public : SignaturesAlg -> bytes -> PublicKey;
  keccak256 : bytes -> bytes;
  blake2b256 : bytes -> bytes;
  encode_deploy : DeployDataProto -> bytes;
}.
Section signed.
Context (so : SignatureOps).

(** [fn eth_prefix] *)
Definition eth_prefix (msg_length : nat) : bytes :=
  x19 :: String.list_byte_of_string ("Ethereum Signed Message:") ++
  x0a :: String.list_byte_of_string (pretty msg_length).
(** [fn signature_hash] *)
Definition signature_hash (sig_alg_name : string) (serialized_data : bytes) : bytes :=
  if decide (sig_alg_name = alg_name Secp256k1Eth)
  then keccak256 so (eth_prefix (length serialized_data) ++ serialized_data)
  else blake2b256 so serialized_data.
(** [Signed::create] and [Signed::from_signed_data] on deploys *)
Definition Signed_create (d : DeployData) (sig_algorithm : SignaturesAlg) (sk : bytes) :
  Signed DeployData :=
  let serialized_data := encode_deploy so (DeployData_proto d) in
  let hash := signature_hash (alg_name sig_algorithm) serialized_data in
  mkSigned d (to_public so sig_algorithm sk) (sign so sig_algorithm hash sk) sig_algorithm.
Definition from_signed_data (d : DeployData) (k : PublicKey) (s : ByteString)
    (sig_algorithm : SignaturesAlg) : result (option (Signed DeployData)) :=
  let serialized_data := encode_deploy so (DeployData_proto d) in
  let hash := signature_hash (alg_name sig_algorithm) serialized_data in
  if verify so sig_algorithm hash s (pk_bytes k)
  then Ok (Some (mkSigned d k s sig_algorithm))
  else Ok None.
(** [DeployData::from_proto] *)
Definition DeployData_from_proto (proto : DeployDataProto) : result (Signed DeployData) :=
  algorithm <-! ok_or (SignaturesAlgFactory_apply (d_sig_algorithm proto))
    ("Unknown signature algorithm: " +:+ d_sig_algorithm proto);
  signed <-! from_signed_data (DeployData_of_proto proto) (mkPublicKey (d_deployer proto))
    (d_sig proto) algorithm;
  ok_or signed "Invalid signature".

(** ** Processed deploys *)

Record ProcessedDeploy := mkProcessed {
  deploy : Signed DeployData; deploy_cost : PCost; deploy_log : list CasperEvent;
  is_failed : bool; system_deploy_error : option string }.
(** [fn refund_amount]; the cast of the [u64] cost and the arithmetic wrap *)
Definition refund_amount (p : ProcessedDeploy) : Z :=
  wrap_i64 (Z.max (wrap_i64 (phlo_limit (data (deploy p)) - wrap_i64 (cost (deploy_cost p)))) 0 *
    phlo_price (data (deploy p))).
Definition ProcessedDeploy_empty (d : Signed DeployData) : ProcessedDeploy :=
  mkProcessed d (mkCost 0) [] false None.
Definition non_empty_string (s : string) : option string :=
  if decide (s = EmptyString) then None else Some s.
Definition ProcessedDeploy_from_proto (proto : ProcessedDeployProto) : result ProcessedDeploy :=
  deploy_proto <-! ok_or (pd_deploy proto) "Missing deploy field";
  deploy <-! DeployData_from_proto deploy_proto;
  c <-! ok_or (pd_cost proto) "Missing cost field";
  log <-! res_mapM Event_from_proto (pd_deploy_log proto);
  Ok (mkProcessed deploy c log (pd_errored proto) (non_empty_string (pd_system_deploy_error proto))).
Definition ProcessedDeploy_to_proto (p : ProcessedDeploy) : ProcessedDeployProto :=
  mkProcessedDeploy (Some (DeployData_to_proto (deploy p))) (Some (deploy_cost p))
    (Event_to_proto <$> deploy_log p) (is_failed p)
    (default EmptyString (system_deploy_error p)).

Inductive SystemDeployData :=
| Slash (invalid_block_hash : ByteString) (issuer_public_key : PublicKey)
| CloseBlockSystemDeployData
| EmptySystemDeploy.
Definition SystemDeployData_from_proto (proto : SystemDeployDataProto) : result SystemDeployData :=
  sd <-! ok_or (system_deploy proto) "Missing system deploy field";
  match sd with
  | SlashSystemDeploy s =>
    Ok (Slash (sl_invalid_block_hash s) (mkPublicKey (sl_issuer_public_key s)))
  | CloseBlockSystemDeploy => Ok CloseBlockSystemDeployData
  end.
Definition SystemDeployData_to_proto (sdd : SystemDeployData) : SystemDeployDataProto :=
  match sdd with
  | Slash h k => mkSystemDeployData (Some (SlashSystemDeploy (mkSlash h (pk_bytes k))))
  | CloseBlockSystemDeployData => mkSystemDeployData (Some CloseBlockSystemDeploy)
  | EmptySystemDeploy => mkSystemDeployData None
  end.

Inductive ProcessedSystemDeploy :=
| Succeeded (event_list : list CasperEvent) (sd : SystemDeployData)
| Failed (event_list : list CasperEvent) (error_msg : string).
Definition ProcessedSystemDeploy_from_proto (psd : ProcessedSystemDeployProto) :
  result ProcessedSystemDeploy :=
  log <-! res_mapM Event_from_proto (ps_deploy_log psd);
  if decide (ps_error_msg psd = EmptyString)
  then
    sdp <-! ok_or (ps_system_deploy psd) "Missing system deploy field";
    sd <-! SystemDeployData_from_proto sdp;
    Ok (Succeeded log sd)
  else Ok (Failed log (ps_error_msg psd)).
Definition ProcessedSystemDeploy_to_proto (p : ProcessedSystemDeploy) : ProcessedSystemDeployProto :=
  match p with
  | Succeeded event_list sd =>
    mkProcessedSystemDeploy (Some (SystemDeployData_to_proto sd)) (Event_to_proto <$> event_list)
      EmptyString
  | Failed event_list error_msg =>
    mkProcessedSystemDeploy None (Event_to_proto <$> event_list) error_msg
  end.

(** ** Blocks *)

Record RejectedDeploy := mkRejected { rd_sig : ByteString }.
Record Justification := mkJust { validator : ByteString; latest_block_hash : ByteString }.
Record Bond := mkBonded { bond_validator : ByteString; stake : Z }.
Record Header := mkHead {
  parents_hash_list : list ByteString; timestamp : Z; version : Z; head_extra_bytes : ByteString }.
Record F1r3flyState := mkF1r3flyState {
  pre_state_hash : ByteString; post_state_hash : ByteString; bonds : list Bond; block_number : Z }.
Record Body := mkBlockBody {
  body_state : F1r3flyState; deploys : list ProcessedDeploy; rejected_deploys : list RejectedDeploy;
  system_deploys : list ProcessedSystemDeploy; body_extra_bytes : ByteString }.
Record BlockMessage := mkBlock {
  block_hash : ByteString; header : Header; body : Body; justifications : list Justification;
  sender : ByteString; seq_num : Z; sig : ByteString; sig_algorithm : string;
  shard_id : string; extra_bytes : ByteString }.

Definition RejectedDeploy_from_proto (proto : RejectedDeployProto) := mkRejected (r_sig proto).
Definition RejectedDeploy_to_proto (r : RejectedDeploy) := mkRejectedDeploy (rd_sig r).
Definition Justification_from_proto (proto : JustificationProto) : Justification :=
  mkJust (j_validator proto) (j_latest proto).
Definition Justification_to_proto (j : Justification) : JustificationProto :=
  mkJustification (validator j) (latest_block_hash j).
Definition Bond_from_proto (proto : BondProto) : Bond := mkBonded (b_validator proto) (b_stake proto).
Definition Bond_to_proto (b : Bond) : BondProto := mkBond (bond_validator b) (stake b).
Definition Header_from_proto (proto : HeaderProto) : Header :=
  mkHead (h_parents_hash_list proto) (h_timestamp proto) (h_version proto) (h_extra_bytes proto).
Definition Header_to_proto (h : Header) : HeaderProto :=
  mkHeader (parents_hash_list h) (timestamp h) (version h) (head_extra_bytes h).
Definition F1r3flyState_from_proto (proto : RChainStateProto) : F1r3flyState :=
  mkF1r3flyState (s_pre_state_hash proto) (s_post_state_hash proto)
    (Bond_from_proto <$> s_bonds proto) (s_block_number proto).
Definition F1r3flyState_to_proto (s : F1r3flyState) : RChainStateProto :=
  mkState (pre_state_hash s) (post_state_hash s) (Bond_to_proto <$> bonds s) (block_number s).
Definition Body_from_proto (proto : BodyProto) : result Body :=
  state <-! ok_or (bd_state proto) "Missing state field";
  deploys <-! res_mapM ProcessedDeploy_from_proto (bd_deploys proto);
  system_deploys <-! res_mapM ProcessedSystemDeploy_from_proto (bd_system_deploys proto);
  Ok (mkBlockBody (F1r3flyState_from_proto state) deploys
        (RejectedDeploy_from_proto <$> bd_rejected_deploys proto) system_deploys
        (bd_extra_bytes proto)).
Definition Body_to_proto (b : Body) : BodyProto :=
  mkBody (Some (F1r3flyState_to_proto (body_state b))) (ProcessedDeploy_to_proto <$> deploys b)
    (ProcessedSystemDeploy_to_proto <$> system_deploys b) (body_extra_bytes b)
    (RejectedDeploy_to_proto <$> rejected_deploys b).
Definition BlockMessage_from_proto (proto : BlockMessageProto) : result BlockMessage :=
  header <-! ok_or (bm_header proto) "Missing header field";
  body_proto <-! ok_or (bm_body proto) "Missing body field";
  body <-! Body_from_proto body_proto;
  Ok (mkBlock (bm_block_hash proto) (Header_from_proto header) body
        (Justification_from_proto <$> bm_justifications proto) (bm_sender proto)
        (bm_seq_num proto) (bm_sig proto) (bm_sig_algorithm proto) (bm_shard_id proto)
        (bm_extra_bytes proto)).
Definition BlockMessage_to_proto (b : BlockMessage) : BlockMessageProto :=
  mkBlockMessage (block_hash b) (Some (Header_to_proto (header b))) (Some (Body_to_proto (body b)))
    (Justification_to_proto <$> justifications b) (sender b) (seq_num b) (sig b)
    (sig_algorithm b) (shard_id b) (extra_bytes b).

(** ** Approving the genesis block *)

Record ApprovedBlockCandidate := mkBlockCandidate { candidate_block : BlockMessage; required_sigs : Z }.
Record UnapprovedBlock := mkUnapprovedBlock {
  unapproved_candidate : ApprovedBlockCandidate; unapproved_timestamp : Z; duration : Z }.
Record BlockApproval := mkBlockApproval {
  approval_candidate : ApprovedBlockCandidate; approval_sig : Signature }.
Record ApprovedBlock := mkApproved {
  approved_candidate : ApprovedBlockCandidate; approved_sigs : list Signature }.
Definition ApprovedBlockCandidate_from_proto (proto : ApprovedBlockCandidateProto) :
  result ApprovedBlockCandidate :=
  block_proto <-! ok_or (ac_block proto) "Missing block field";
  block <-! BlockMessage_from_proto block_proto;
  Ok (mkBlockCandidate block (ac_required_sigs proto)).
Definition ApprovedBlockCandidate_to_proto (c : ApprovedBlockCandidate) : ApprovedBlockCandidateProto :=
  mkCandidate (Some (BlockMessage_to_proto (candidate_block c))) (required_sigs c).
Definition UnapprovedBlock_from_proto (proto : UnapprovedBlockProto) : result UnapprovedBlock :=
  candidate_proto <-! ok_or (u_candidate proto) "Missing candidate field";
  candidate <-! ApprovedBlockCandidate_from_proto candidate_proto;
  Ok (mkUnapprovedBlock candidate (u_timestamp proto) (u_duration proto)).
Definition UnapprovedBlock_to_proto (u : UnapprovedBlock) : UnapprovedBlockProto :=
  mkUnapproved (Some (ApprovedBlockCandidate_to_proto (unapproved_candidate u)))
    (unapproved_timestamp u) (duration u).
Definition BlockApproval_from_proto (proto : BlockApprovalProto) : result BlockApproval :=
  candidate_proto <-! ok_or (ba_candidate proto) "Missing candidate field";
  candidate <-! ApprovedBlockCandidate_from_proto candidate_proto;
  s <-! ok_or (ba_sig proto) "Missing sig field";
  Ok (mkBlockApproval candidate s).
Definition BlockApproval_to_proto (a : BlockApproval) : BlockApprovalProto :=
  mkApproval (Some (ApprovedBlockCandidate_to_proto (approval_candidate a))) (Some (approval_sig a)).
Definition ApprovedBlock_from_proto (proto : ApprovedBlockProto) : result ApprovedBlock :=
  candidate_proto <-! ok_or (ab_candidate proto) "Missing candidate field";
  candidate <-! ApprovedBlockCandidate_from_proto candidate_proto;
  Ok (mkApproved candidate (ab_sigs proto)).
Definition ApprovedBlock_to_proto (a : ApprovedBlock) : ApprovedBlockProto :=
  mkApprovedBlock (Some (ApprovedBlockCandidate_to_proto (approved_candidate a))) (approved_sigs a).
End signed.

(** ** Last finalized state *)

(** [StoreNodeKey::NONE_INDEX] *)
Definition NONE_INDEX : Z := 256.
Abbreviation store_path := (list (bytes * option byte)).
(** [StoreNodeKey::from_proto]; the cast to [u8] keeps the last byte *)
Definition StoreNodeKey_from_proto (proto : StoreNodeKeyProto) : bytes * option byte :=
  (sk_hash proto,
   if decide (sk_index proto = NONE_INDEX) then None
   else Some (nat_to_byte (Z.to_nat (sk_index proto mod 256)))).
Definition StoreNodeKey_to_proto (s : bytes * option byte) : StoreNodeKeyProto :=
  mkStoreNodeKey s.1
    (match s.2 with Some b => Z.of_nat (byte_to_nat b) | None => NONE_INDEX end).
Record StoreItemsMessageRequest := mkItemsRequest {
  req_start_path : store_path; req_skip : Z; req_take : Z }.
Record StoreItemsMessage := mkItems {
  start_path : store_path; last_path : store_path;
  history_items : list (bytes * ByteString); data_items : list (bytes * ByteString) }.
Definition StoreItem_from_proto (i : StoreItemProto) : bytes * ByteString := (si_key i, si_value i).
Definition StoreItem_to_proto (i : bytes * ByteString) : StoreItemProto := mkStoreItem i.1 i.2.
Definition StoreItemsMessageRequest_from_proto (proto : StoreItemsMessageRequestProto) :
  StoreItemsMessageRequest :=
  mkItemsRequest (StoreNodeKey_from_proto <$> sr_start_path proto) (sr_skip proto) (sr_take proto).
Definition StoreItemsMessageRequest_to_proto (r : StoreItemsMessageRequest) :
  StoreItemsMessageRequestProto :=
  mkStoreItemsRequest (StoreNodeKey_to_proto <$> req_start_path r) (req_skip r) (req_take r).
Definition StoreItemsMessage_from_proto (proto : StoreItemsMessageProto) : StoreItemsMessage :=
  mkItems (StoreNodeKey_from_proto <$> sm_start_path proto)
    (StoreNodeKey_from_proto <$> sm_last_path proto)
    (StoreItem_from_proto <$> sm_history_items proto) (StoreItem_from_proto <$> sm_data_items proto).
Definition StoreItemsMessage_to_proto (m : StoreItemsMessage) : StoreItemsMessageProto :=
  mkStoreItems (StoreNodeKey_to_proto <$> start_path m) (StoreNodeKey_to_proto <$> last_path m)
    (StoreItem_to_proto <$> history_items m) (StoreItem_to_proto <$> data_items m).
