(* ===== verification/CasperMessageThms.v ===== *)
(** * Messages read back

    Which messages survive the conversion to the generated messages and back.  All blocks
    do that carry valid signatures by the algorithm [secp256k1], no empty system deploy and
    no empty error message; a block with a deploy signed by the other algorithm is rejected
    by every node that receives it. *)
From S2P Require Import Prelude CasperMessage.
Import Proto.
Open Scope res_scope.

(** ** Collections *)

Lemma res_mapM_fmap_Ok {E A B} (f : B -> res E A) (g : A -> B) l :
  res_mapM f (g <$> l) = Ok l <-> Forall (fun x => f (g x) = Ok x) l.
Proof.
  rewrite res_mapM_Ok, Forall2_fmap_l. induction l as [|x l IH]; [by split|].
  by rewrite Forall2_cons, Forall_cons, IH.
Qed.
Lemma fmap_id {A B} (f : B -> A) (g : A -> B) (l : list A) : (forall x, f (g x) = x) -> f <$> (g <$> l) = l.
Proof.
  intros Hfg. induction l as [|x l IH]; [done|]. cbn. by rewrite Hfg, IH.
Qed.
Lemma res_mapM_Err {E A B} (f : A -> res E B) l x :
  x ∈ l -> (forall y, f x <> Ok y) -> forall k, res_mapM f l <> Ok k.
Proof.
  intros Hx Hf k Hk. induction l as [|y l IH] in k, Hk, Hx |- *; [by apply not_elem_of_nil in Hx|].
  cbn [res_mapM] in Hk. apply res_bind_Ok in Hk as (z & Hz & Hk).
  apply res_bind_Ok in Hk as (k' & Hk' & _).
  apply elem_of_cons in Hx as [->|Hx]; [by apply (Hf z)|by apply (IH Hx k')].
Qed.

(** ** Events *)

Lemma event_roundtrip e : Event_from_proto (Event_to_proto e) = Ok e.
Proof.
  destruct e as [[]|[]|[[] ps peeks]]; [done..|]. cbn.
  by rewrite (fmap_id ProduceEvent_from_proto) by (by intros []); rewrite fmap_id by (by intros []).
Qed.
Lemma events_roundtrip l : res_mapM Event_from_proto (Event_to_proto <$> l) = Ok l.
Proof. apply res_mapM_fmap_Ok. apply Forall_true. apply event_roundtrip. Qed.

(** ** Deploys *)

Section signed.
Context (so : SignatureOps).

(** The signature of a deploy is valid. *)
Definition deploy_verifies (d : Signed DeployData) : Prop :=
  verify so (sig_alg d)
    (signature_hash so (alg_name (sig_alg d)) (encode_deploy so (DeployData_proto (data d))))
    (signed_sig d) (pk_bytes (pk d)) = true.
Definition deploy_readable (d : Signed DeployData) : Prop :=
  sig_alg d = Secp256k1 /\ expiration_timestamp (data d) <> Some 0%Z /\ deploy_verifies d.

Lemma deploy_of_to_proto d :
  DeployData_of_proto (DeployData_to_proto d) = data d <->
  expiration_timestamp (data d) <> Some 0%Z.
Proof.
  destruct d as [[tm ts pp pl va sh [e|]] k s a]; cbn; [|done].
  unfold DeployData_of_proto. cbn. case_decide; [split; congruence|]. split; congruence.
Qed.
(** What is signed does not tell [Some 0] from [None]. *)
Lemma deploy_signed_proto d :
  DeployData_proto (DeployData_of_proto (DeployData_to_proto d)) = DeployData_proto (data d).
Proof.
  destruct d as [[tm ts pp pl va sh [e|]] k s a]; cbn; [|done].
  unfold DeployData_of_proto, DeployData_proto. cbn. by case_decide as E; [rewrite E|].
Qed.

Lemma eth_deploy_rejected d :
  sig_alg d = Secp256k1Eth ->
  DeployData_from_proto so (DeployData_to_proto d) =
    Err "Unknown signature algorithm: secp256k1:eth".
Proof. destruct d as [dd k s a]. cbn. by intros ->. Qed.
Lemma deploy_read d :
  sig_alg d = Secp256k1 ->
  DeployData_from_proto so (DeployData_to_proto d) =
  if decide (deploy_verifies d)
  then Ok (mkSigned (DeployData_of_proto (DeployData_to_proto d)) (pk d) (signed_sig d) (sig_alg d))
  else Err "Invalid signature".
Proof.
  intros Ha. unfold DeployData_from_proto, from_signed_data, deploy_verifies.
  change (d_sig_algorithm (DeployData_to_proto d)) with (alg_name (sig_alg d)).
  change (d_sig (DeployData_to_proto d)) with (signed_sig d).
  change (mkPublicKey (d_deployer (DeployData_to_proto d))) with (mkPublicKey (pk_bytes (pk d))).
  rewrite (deploy_signed_proto d), Ha. cbn [SignaturesAlgFactory_apply ok_or res_bind].
  change (SignaturesAlgFactory_apply (alg_name Secp256k1)) with (Some Secp256k1).
  cbn [ok_or res_bind pk_bytes].
  case_decide as Hv; [|by destruct (verify _ _ _ _ _)]. rewrite Hv. by destruct (pk d).
Qed.
Lemma deploy_roundtrip d :
  DeployData_from_proto so (DeployData_to_proto d) = Ok d <-> deploy_readable d.
Proof.
  unfold deploy_readable. destruct (sig_alg d) eqn:Ha.
  - rewrite (deploy_read d Ha), <- deploy_of_to_proto. case_decide as Hv; [|split; [done|tauto]].
    destruct d as [dd k s a]. cbn in *. split; [|by intros (_ & -> & _)].
    intros [= Hd]. by rewrite Hd.
  - rewrite eth_deploy_rejected by done. split; [done|]. by intros [? _].
Qed.

Definition processed_readable (p : ProcessedDeploy) : Prop :=
  deploy_readable (deploy p) /\ system_deploy_error p <> Some EmptyString.
Lemma processed_deploy_roundtrip p :
  ProcessedDeploy_from_proto so (ProcessedDeploy_to_proto p) = Ok p <-> processed_readable p.
Proof.
  destruct p as [d c log f err]. unfold processed_readable. cbn [deploy system_deploy_error].
  rewrite <- deploy_roundtrip. unfold ProcessedDeploy_from_proto. cbn.
  destruct (DeployData_from_proto so (DeployData_to_proto d)) as [d'|e|]; cbn; [|split; [done|by intros []]..].
  rewrite events_roundtrip. cbn. unfold non_empty_string.
  destruct err as [err|]; cbn; [|split; [by intros [= ->]|by intros [[= ->] _]]].
  case_decide as E.
  - subst err. split; [done|]. by intros [_ []].
  - split; [by intros [= ->]; split; [|congruence]|by intros [[= ->] _]].
Qed.

Definition system_readable (p : ProcessedSystemDeploy) : Prop :=
  match p with
  | Succeeded _ sd => sd <> EmptySystemDeploy
  | Failed _ msg => msg <> EmptyString
  end.
Lemma system_deploy_roundtrip p :
  ProcessedSystemDeploy_from_proto (ProcessedSystemDeploy_to_proto p) = Ok p <-> system_readable p.
Proof.
  destruct p as [log sd|log msg]; cbn; unfold ProcessedSystemDeploy_from_proto; cbn;
    rewrite events_roundtrip; cbn.
  - by destruct sd as [h []| |].
  - case_decide as E; [subst; cbn; by split|]. by split.
Qed.

(** ** Blocks *)

Definition block_readable (b : BlockMessage) : Prop :=
  Forall processed_readable (deploys (body b)) /\ Forall system_readable (system_deploys (body b)).
Lemma state_roundtrip st : F1r3flyState_from_proto (F1r3flyState_to_proto st) = st.
Proof.
  destruct st as [pre post bs n]. unfold F1r3flyState_from_proto. cbn.
  by rewrite (fmap_id Bond_from_proto) by (by intros []).
Qed.
Lemma body_roundtrip b :
  Body_from_proto so (Body_to_proto b) = Ok b <->
  Forall processed_readable (deploys b) /\ Forall system_readable (system_deploys b).
Proof.
  destruct b as [st ds rs ss x]. unfold Body_from_proto. cbn.
  rewrite (fmap_id RejectedDeploy_from_proto) by (by intros []). rewrite state_roundtrip.
  assert (Forall processed_readable ds <->
    res_mapM (ProcessedDeploy_from_proto so) (ProcessedDeploy_to_proto <$> ds) = Ok ds) as ->.
  { rewrite res_mapM_fmap_Ok. apply Forall_proper; [|done]. intros p.
    by rewrite processed_deploy_roundtrip. }
  assert (Forall system_readable ss <->
    res_mapM ProcessedSystemDeploy_from_proto (ProcessedSystemDeploy_to_proto <$> ss) = Ok ss) as ->.
  { rewrite res_mapM_fmap_Ok. apply Forall_proper; [|done]. intros p.
    by rewrite system_deploy_roundtrip. }
  destruct (res_mapM (ProcessedDeploy_from_proto so) _) as [ds'|e|]; cbn; [|split; [done|by intros []]..].
  destruct (res_mapM ProcessedSystemDeploy_from_proto _) as [ss'|e|]; cbn; [|split; [done|by intros []]..].
  split; [by intros [= -> ->]|by intros [[= ->] [= ->]]].
Qed.
Lemma block_roundtrip b :
  BlockMessage_from_proto so (BlockMessage_to_proto b) = Ok b <-> block_readable b.
Proof.
  destruct b as [h [ph ts v xb] bd js snd_ n s sa sh x]. unfold BlockMessage_from_proto, block_readable.
  cbn [BlockMessage_to_proto bm_header bm_body ok_or res_bind header body].
  rewrite <- body_roundtrip.
  destruct (Body_from_proto so (Body_to_proto bd)) as [bd'|e|]; cbn; [|split; done..].
  rewrite (fmap_id Justification_from_proto) by (by intros []).
  split; [by intros [= ->]|by intros [= ->]].
Qed.
(** C31: a block that is sent is read back as it was if and only if every deploy is signed by
    [secp256k1] with a valid signature, has no expiration time 0 and no empty error, every
    system deploy that succeeded is a slash or a close and every one that failed has an error
    message. *)
Theorem block_message_roundtrip b :
  BlockMessage_from_proto so (BlockMessage_to_proto b) = Ok b <-> block_readable b.
Proof. apply block_roundtrip. Qed.

(** No node can read a block that contains a deploy signed by [secp256k1:eth]: the name
    that is written is not one of those that are recognised. *)
Theorem eth_signed_block_unreadable b p :
  p ∈ deploys (body b) -> sig_alg (deploy p) = Secp256k1Eth ->
  forall b', BlockMessage_from_proto so (BlockMessage_to_proto b) <> Ok b'.
Proof.
  intros Hp Ha b'. unfold BlockMessage_from_proto. cbn [BlockMessage_to_proto bm_header bm_body ok_or res_bind].
  destruct (Body_from_proto so (Body_to_proto (body b))) as [bd|e|] eqn:Hb; [exfalso|done..].
  unfold Body_from_proto in Hb. cbn [Body_to_proto bd_state ok_or res_bind bd_deploys] in Hb.
  apply res_bind_Ok in Hb as (ds & Hds & _). revert Hds.
  apply (res_mapM_Err _ _ (ProcessedDeploy_to_proto p)); [by apply list_elem_of_fmap_2|].
  intros p'. unfold ProcessedDeploy_from_proto. cbn. by rewrite eth_deploy_rejected.
Qed.
End signed.

(** ** Other messages *)

Lemma store_node_key_roundtrip s : StoreNodeKey_from_proto (StoreNodeKey_to_proto s) = s.
Proof.
  destruct s as [h [b|]]; [|done]. unfold StoreNodeKey_from_proto. cbn.
  pose proof (byte_to_nat_lt b). unfold NONE_INDEX.
  rewrite decide_False by lia. rewrite Z.mod_small, Nat2Z.id by lia. by rewrite nat_to_byte_to_nat.
Qed.
Lemma store_items_roundtrip m : StoreItemsMessage_from_proto (StoreItemsMessage_to_proto m) = m.
Proof.
  destruct m as [s l h d]. unfold StoreItemsMessage_from_proto. cbn.
  rewrite !(fmap_id StoreNodeKey_from_proto) by apply store_node_key_roundtrip.
  by rewrite !(fmap_id StoreItem_from_proto) by (by intros []).
Qed.
Lemma store_items_request_roundtrip r :
  StoreItemsMessageRequest_from_proto (StoreItemsMessageRequest_to_proto r) = r.
Proof.
  destruct r as [p s t]. unfold StoreItemsMessageRequest_from_proto. cbn.
  by rewrite (fmap_id StoreNodeKey_from_proto) by apply store_node_key_roundtrip.
Qed.
Lemma approved_block_roundtrip so a :
  block_readable so (candidate_block (approved_candidate a)) ->
  ApprovedBlock_from_proto so (ApprovedBlock_to_proto a) = Ok a.
Proof.
  destruct a as [[b n] sigs]. intros Hb. cbn [approved_candidate candidate_block] in Hb.
  apply block_roundtrip in Hb.
  unfold ApprovedBlock_from_proto, ApprovedBlockCandidate_from_proto.
  cbn [ApprovedBlock_to_proto ab_candidate ApprovedBlockCandidate_to_proto ac_block
    approved_candidate candidate_block ok_or res_bind].
  by rewrite Hb.
Qed.

(** ** A block with a deploy signed by an Ethereum wallet *)
Module EthExample.
Definition ops : SignatureOps :=
  mkSignatureOps (fun _ _ _ _ => true) (fun _ d _ => d) (fun _ sk => mkPublicKey sk) id id (fun _ => []).
Definition eth_deploy : ProcessedDeploy :=
  ProcessedDeploy_empty (Signed_create ops (mkDeploy "Nil" 0 1 1 0 "root" None) Secp256k1Eth [x01]).
Definition eth_block : BlockMessage :=
  mkBlock (replicate 32 x02) (mkHead [] 0 1 [])
    (mkBlockBody (mkF1r3flyState [] [] [] 1) [eth_deploy] [] [] []) [] [] 0 [] EmptyString EmptyString [].
Lemma eth_signed_block_unreadable_witness :
  forall b', BlockMessage_from_proto ops (BlockMessage_to_proto eth_block) <> Ok b'.
Proof. apply (eth_signed_block_unreadable ops eth_block eth_deploy); [left|reflexivity]. Defined.
End EthExample.
