(* ===== verification/EventConverter.v ===== *)
(** * Events of the tuple space in blocks

    [casper/src/rust/util/event_converter.rs]: the events that a deploy leaves in a block and
    the events of the tuple space they stand for. *)
From S2P Require Import Prelude Events CasperMessage.

Definition to_consume_event (c : Consume) : ConsumeEvent :=
  mkConsumeEv (channel_hashes c) (c_hash c) (c_persistent c).
Definition to_produce_event (times_repeated : Z) (p : Produce) : ProduceEvent :=
  mkProduceEv (channel_hash p) (p_hash p) (p_persistent p) times_repeated (is_deterministic p)
    (output_value p) (failed p).
(** [fn to_casper_event] *)
Definition to_casper_event (event : Event) : CasperEvent :=
  match event with
  | Comm (mkCOMM consume produces peeks times_repeated) =>
    CommEv (mkCommEv (to_consume_event consume)
      ((fun p => to_produce_event (default 0%Z (counter_get times_repeated p)) p) <$> produces)
      (mkPeekIndex <$> sort_by Z.compare (elements peeks)))
  | IoEvent (IOProduce produce) => ProduceEv (to_produce_event 0 produce)
  | IoEvent (IOConsume consume) => ConsumeEv (to_consume_event consume)
  end.

Definition to_rspace_consume (c : ConsumeEvent) : Consume :=
  mkConsume (cev_channels_hashes c) (cev_hash c) (cev_persistent c).
Definition to_rspace_produce (p : ProduceEvent) : Produce :=
  mkProduce (pev_channels_hash p) (pev_hash p) (pev_persistent p) (pev_is_deterministic p)
    (pev_output_value p) (pev_failed p).
(** [fn to_rspace_event] *)
Definition to_rspace_event (event : CasperEvent) : Event :=
  match event with
  | ProduceEv produce_event => IoEvent (IOProduce (to_rspace_produce produce_event))
  | ConsumeEv consume_event => IoEvent (IOConsume (to_rspace_consume consume_event))
  | CommEv comm_event =>
    let times_repeated :=
      foldl (fun m produce => counter_insert m (to_rspace_produce produce) (pev_times_repeated produce))
        ∅ (cme_produces comm_event) in
    let produces := sort_by produce_ref_cmp (to_rspace_produce <$> cme_produces comm_event) in
    let peeks := list_to_set (channel_index <$> cme_peeks comm_event) in
    Comm (mkCOMM (to_rspace_consume (cme_consume comm_event)) produces peeks times_repeated)
  end.

(** ** Round trip *)

(** Sorting a sorted list. *)
Lemma sort_by_StronglySorted {A} (cmp : A -> A -> comparison) l :
  StronglySorted (cmp_le cmp) l -> sort_by cmp l = l.
Proof.
  induction 1 as [|x l _ IH Hx]; [done|]. cbn [sort_by foldr].
  change (foldr (sort_insert cmp) [] l) with (sort_by cmp l). rewrite IH.
  destruct l as [|y l]; [done|]. apply Forall_cons in Hx as [Hxy _]. cbn [sort_insert].
  unfold cmp_le in Hxy. by destruct (cmp x y).
Qed.

(** What [COMM::new] and the counters of a space make of the produces of a communication:
    they are sorted, and there is a counter for each of them. *)
Record comm_logged (c : COMM) : Prop := {
  logged_sorted : StronglySorted (cmp_le produce_ref_cmp) (comm_produces c);
  logged_counted : forall p, p ∈ comm_produces c -> is_Some (comm_times_repeated c !! p_hash p);
  logged_only : forall h q n, comm_times_repeated c !! h = Some (q, n) ->
    (exists p, p ∈ comm_produces c /\ p_hash p = h) /\
    (forall p, p ∈ comm_produces c -> p_hash p = h -> q = p);
}.
Definition event_logged (e : Event) : Prop :=
  match e with Comm c => comm_logged c | IoEvent _ => True end.

Lemma to_rspace_to_produce n p : to_rspace_produce (to_produce_event n p) = p.
Proof. by destruct p. Qed.
Lemma counters_read (tr m : produce_counter_map) ps h :
  (forall p, p ∈ ps -> exists n, tr !! p_hash p = Some (p, n)) ->
  (forall q n, m !! h = Some (q, n) -> tr !! h = Some (q, n)) ->
  foldl (fun m p => counter_insert m p (default 0%Z (counter_get tr p))) m ps !! h =
  if decide (h ∈ p_hash <$> ps) then tr !! h else m !! h.
Proof.
  revert m. induction ps as [|p ps IH]; intros m Hps Hm; [done|]. cbn [foldl].
  destruct (Hps p) as [n Hn]; [left|]. rewrite IH.
  - csimpl. destruct (decide (h ∈ p_hash <$> ps)) as [Hin|Hnin].
    + by rewrite decide_True by by right.
    + destruct (decide (h = p_hash p)) as [->|Hne].
      * rewrite decide_True by left. unfold counter_insert, counter_get. rewrite lookup_insert_eq, Hn.
        cbn. destruct (m !! p_hash p) as [[q k]|] eqn:E; [|done].
        specialize (Hm q k eq_refl). cbn. congruence.
      * unfold counter_insert. rewrite lookup_insert_ne by done. rewrite decide_False; [done|].
        by intros [?|?]%elem_of_cons.
  - intros p' Hp'. apply Hps. by right.
  - intros q k. unfold counter_insert, counter_get. destruct (decide (h = p_hash p)) as [->|Hne].
    + rewrite lookup_insert_eq, Hn. cbn. intros [= <- <-].
      destruct (m !! p_hash p) as [[q k]|] eqn:E; [|done]. specialize (Hm q k eq_refl). cbn. congruence.
    + rewrite lookup_insert_ne by done. apply Hm.
Qed.

(** An event of the tuple space that is written to a block is read back unchanged, if the
    produces of a communication are sorted and counted as [COMM::new] leaves them. *)
Theorem event_conversion_roundtrip e :
  event_logged e -> to_rspace_event (to_casper_event e) = e.
Proof.
  destruct e as [[[chs h pst] ps pks tr]|[[]|[]]]; [|done..]. intros [Hs Hc Ho].
  cbn [comm_produces comm_times_repeated] in *.
  unfold to_casper_event, to_rspace_event, to_consume_event, to_rspace_consume.
  cbn [cme_consume cme_produces cme_peeks cev_channels_hashes cev_hash cev_persistent].
  assert (forall p, p ∈ ps -> exists n, tr !! p_hash p = Some (p, n)) as Htr.
  { intros p Hp. destruct (Hc p Hp) as [[q n] Hq]. exists n. rewrite Hq. do 2 f_equal.
    by apply (Ho _ _ _ Hq). }
  f_equal. f_equal.
  - rewrite <- list_fmap_compose. rewrite <- (sort_by_StronglySorted _ _ Hs) at 2. f_equal.
    rewrite <- (list_fmap_id ps) at 2. apply list_fmap_ext. intros i p _. apply to_rspace_to_produce.
  - rewrite <- list_fmap_compose. apply set_eq. intros z.
    rewrite elem_of_list_to_set, list_elem_of_fmap. setoid_rewrite (elem_of_sort_by Z.compare).
    setoid_rewrite elem_of_elements. naive_solver.
  - rewrite foldl_fmap. apply map_eq. intros k.
    transitivity (foldl (fun m p => counter_insert m p (default 0%Z (counter_get tr p))) ∅ ps !! k).
    { f_equal. generalize (∅ : produce_counter_map). clear.
      induction ps as [|p ps IH]; intros m; [done|]. cbn [foldl].
      rewrite to_rspace_to_produce. apply IH. }
    rewrite (counters_read tr) by done. case_decide as Hk; [done|]. rewrite lookup_empty.
    symmetry. apply eq_None_not_Some. intros [[q n] Hq]. apply Hk.
    destruct (Ho _ _ _ Hq) as [(p & Hp & <-) _]. by apply list_elem_of_fmap_2.
Qed.

(** ** A communication on one channel *)
Module CommExample.
Definition sent : Produce := mkProduce [x01] [x02] false true [] false.
Definition comm : COMM := mkCOMM (mkConsume [[x01]] [x03] false) [sent] ∅ {[ [x02] := (sent, 0%Z) ]}.
Lemma event_conversion_roundtrip_witness :
  to_rspace_event (to_casper_event (Comm comm)) = Comm comm.
Proof.
  apply (event_conversion_roundtrip (Comm comm)). split; cbn [comm comm_produces comm_times_repeated].
  - apply (bool_decide_unpack _). vm_compute. exact I.
  - intros p ->%list_elem_of_singleton. exists (sent, 0%Z). apply lookup_singleton_eq.
  - intros h q n [<- [= <- <-]]%lookup_singleton_Some. split.
    + exists sent. split; [left|reflexivity].
    + by intros p ->%list_elem_of_singleton.
Defined.
End CommExample.
