(* ===== verification/BlockDag.v ===== *)
(** * The block DAG

    [models/src/rust/block_metadata.rs] and, in [block-storage/src/rust/dag/],
    [block_metadata_store.rs], [equivocation_tracker_store.rs] and
    [block_dag_key_value_storage.rs]: what is kept of every block, the maps that index the
    blocks by parent, height and so on, inserting a block and finalizing one.

    A typed store is the finite map it refines ([TypedStore]); a failure of the database
    itself is left out.  A representation of the DAG copies the maps but shares the store of
    the metadata, so the functions that read the metadata take its current contents as an
    argument [idx].  The order in which a hash set is iterated is a parameter where it
    matters.  An [f32] is a [spec_float].  Locks, logging and metrics are left out. *)
From Stdlib Require Import SpecFloat.
From stdpp Require Import pretty.
From S2P Require Import Prelude HotStoreSig HistoryRepo CasperMessage.
Open Scope res_scope.

Abbreviation BlockHash := bytes.
Abbreviation Validator := bytes.
(** [block_hash::LENGTH] and [validator::LENGTH] *)
Definition BLOCK_HASH_LENGTH : nat := 32.
Definition VALIDATOR_LENGTH : nat := 65.

(** ** [f32] *)

Abbreviation f32 := spec_float.
Definition f32_lt (a b : f32) : bool := SFltb a b.
Definition f32_zero : f32 := S754_zero false.
Definition f32_one : f32 := S754_finite false 8388608 (-23).

(** ** [struct BlockMetadata] *)

Record BlockMetadata := mkMeta {
  m_block_hash : BlockHash;
  m_parents : list BlockHash;
  m_sender : Validator;
  m_justifications : list Justification;
  m_weight_map : gmap Validator Z;
  m_block_number : Z;
  m_sequence_number : Z;
  m_invalid : bool;
  m_directly_finalized : bool;
  m_finalized : bool;
  m_fault_tolerance_value : f32;
}.
#[global] Instance spec_float_eq_dec : EqDecision spec_float.
Proof. solve_decision. Defined.
#[global] Instance Justification_eq_dec : EqDecision Justification.
Proof. solve_decision. Defined.
#[global] Instance BlockMetadata_eq_dec : EqDecision BlockMetadata.
Proof. solve_decision. Defined.
(** [fn ordering_by_num] *)
Definition ordering_by_num (left right : BlockMetadata) : comparison :=
  then_with (Z.compare (m_block_number left) (m_block_number right))
    (bytes_cmp (m_block_hash left) (m_block_hash right)).
(** [fn weight_map]: a later bond of the same validator wins *)
Definition weight_map (state : F1r3flyState) : gmap Validator Z :=
  foldl (fun m b => <[bond_validator b := stake b]> m) ∅ (bonds state).
(** [fn from_block] *)
Definition from_block (b : BlockMessage) (invalid : bool)
    (directly_finalized finalized : option bool) : BlockMetadata :=
  mkMeta (block_hash b) (parents_hash_list (header b)) (sender b) (justifications b)
    (weight_map (body_state (body b))) (block_number (body_state (body b))) (seq_num b)
    invalid (default false directly_finalized) (default false finalized) f32_zero.

(** ** [struct DagState] *)

Record DagState := mkDagState {
  dag_set : gset BlockHash;
  child_map : gmap BlockHash (gset BlockHash);
  height_map : gmap Z (gset BlockHash);
  block_number_map : gmap BlockHash Z;
  main_parent_map : gmap BlockHash BlockHash;
  self_justification_map : gmap BlockHash BlockHash;
  last_finalized_block : option (BlockHash * Z);
  finalized_block_set : gset BlockHash;
}.
(** [DagState::new] *)
Definition DagState_new : DagState := mkDagState ∅ ∅ ∅ ∅ ∅ ∅ (Some ([], 0%Z)) ∅.
Definition FINALIZED_BLOCK_CACHE_MAX : Z := 50000.
Definition FINALIZED_BLOCK_CACHE_RETAIN : Z := 25000.

(** [struct BlockInfo] *)
Record BlockInfo := mkInfo {
  i_hash : BlockHash;
  i_parents : list BlockHash;
  i_main_parent : option BlockHash;
  i_self_justification : option BlockHash;
  i_block_num : Z;
  is_invalid : bool;
  is_directly_finalized : bool;
  is_finalized_info : bool;
}.
(** [fn block_metadata_to_info] *)
Definition block_metadata_to_info (hash : BlockHash) (md : BlockMetadata) : BlockInfo :=
  let self_justification :=
    latest_block_hash <$> head (filter (fun j => validator j = m_sender md) (m_justifications md)) in
  mkInfo hash (m_parents md) (head (m_parents md)) self_justification (m_block_number md)
    (m_invalid md) (m_directly_finalized md) (m_finalized md).

(** [fn add_block_to_dag_state] *)
Definition add_child (hash : BlockHash) (m : gmap BlockHash (gset BlockHash)) (parent : BlockHash) :
  gmap BlockHash (gset BlockHash) :=
  let children := default ∅ (m !! parent) in <[parent := {[hash]} ∪ children]> m.
Definition add_block_to_dag_state (s : DagState) (bi : BlockInfo) : DagState :=
  let hash := i_hash bi in
  let with_entry := match child_map s !! hash with
    | Some _ => child_map s
    | None => <[hash := ∅]> (child_map s)
    end in
  mkDagState ({[hash]} ∪ dag_set s)
    (foldl (add_child hash) with_entry (i_parents bi))
    (if is_invalid bi then height_map s
     else <[i_block_num bi := {[hash]} ∪ default ∅ (height_map s !! i_block_num bi)]> (height_map s))
    (<[hash := i_block_num bi]> (block_number_map s))
    (match i_main_parent bi with
     | Some main_parent => <[hash := main_parent]> (main_parent_map s)
     | None => main_parent_map s
     end)
    (match i_self_justification bi with
     | Some self_justification => <[hash := self_justification]> (self_justification_map s)
     | None => self_justification_map s
     end)
    (if is_directly_finalized bi &&
        match last_finalized_block s with
        | Some (_, height) => bool_decide (height <= i_block_num bi)%Z
        | None => true
        end
     then Some (hash, i_block_num bi) else last_finalized_block s)
    (if is_finalized_info bi then {[hash]} ∪ finalized_block_set s else finalized_block_set s).

(** The least and the greatest key of an [OrdMap]. *)
Definition height_keys (m : gmap Z (gset BlockHash)) : list Z := sort_by Z.compare (map_to_list m).*1.
Definition get_min (m : gmap Z (gset BlockHash)) : option Z := head (height_keys m).
Definition get_max (m : gmap Z (gset BlockHash)) : option Z := last (height_keys m).
(** [fn validate_dag_state]: the heights are in sequence, or the node panics *)
Definition validate_dag_state {E} (s : DagState) : res E DagState :=
  let '(min, max) := match get_min (height_map s), get_max (height_map s) with
    | Some lo, Some hi => (lo, (hi + 1)%Z)
    | _, _ => (0%Z, 0%Z)
    end in
  assert (bool_decide (max - min = Z.of_nat (size (height_map s)))%Z) ;;!
  Ok s.

(** ** [struct BlockMetadataStore] *)

Record BlockMetadataStore := mkMetaStore {
  meta_store : gmap BlockHash BlockMetadata;
  dag_state : DagState;
}.
(** [PrettyPrinter::build_string_bytes] *)
Definition limit (s : string) (max_length : nat) : string :=
  if decide (max_length < String.length s) then String.substring 0 max_length s +:+ "..." else s.
Definition build_string_bytes (b : bytes) : string := limit (encode_hex b) 10.
Definition missing_value (key : BlockHash) : KvStoreError :=
  KvKeyNotFound ("Error when reading from KeyValueStore: value for key " +:+
    encode_hex key +:+ " not found.").
(** [get_batch] and [get_unsafe] of the typed store *)
Definition get_batch (m : gmap BlockHash BlockMetadata) (keys : list BlockHash) :
  res KvStoreError (list BlockMetadata) :=
  res_mapM (fun k => match m !! k with Some v => Ok v | None => Err (missing_value k) end) keys.
Definition get_unsafe (m : gmap BlockHash BlockMetadata) (key : BlockHash) :
  res KvStoreError BlockMetadata :=
  match m !! key with Some v => Ok v | None => Err (missing_value key) end.
Definition put_metas (l : list (BlockHash * BlockMetadata)) (m : gmap BlockHash BlockMetadata) :
  gmap BlockHash BlockMetadata := foldl (fun m kv => <[kv.1 := kv.2]> m) m l.

(** [BlockMetadataStore::new] and [fn recreate_in_memory_state], for the entries in the order
    in which the hash map of their infos is iterated *)
Definition recreate_in_memory_state {E : Type} (blocks_info : list BlockInfo) : res E DagState :=
  validate_dag_state (foldl add_block_to_dag_state DagState_new blocks_info).
Definition BlockMetadataStore_new {E : Type} (iter : gmap BlockHash BlockMetadata -> list (BlockHash * BlockMetadata))
    (store : gmap BlockHash BlockMetadata) : res E BlockMetadataStore :=
  st <-! recreate_in_memory_state ((fun '(h, md) => block_metadata_to_info h md) <$> iter store);
  Ok (mkMetaStore store st).
(** [fn add]: the in-memory state is changed in place, before it is validated *)
Definition add_metadata {E : Type} (md : BlockMetadata) : ST BlockMetadataStore (res E unit) := fun self =>
  let block_info := block_metadata_to_info (m_block_hash md) md in
  let st := add_block_to_dag_state (dag_state self) block_info in
  match validate_dag_state st with
  | Ok st => (Ok tt, mkMetaStore (<[m_block_hash md := md]> (meta_store self)) st)
  | Err e => (Err e, mkMetaStore (meta_store self) st)
  | Panic => (Panic, mkMetaStore (meta_store self) st)
  end.

Definition with_finalized (md : BlockMetadata) (directly : bool) (ft : f32) : BlockMetadata :=
  mkMeta (m_block_hash md) (m_parents md) (m_sender md) (m_justifications md) (m_weight_map md)
    (m_block_number md) (m_sequence_number md) (m_invalid md)
    (directly || m_directly_finalized md) true
    (if f32_lt (m_fault_tolerance_value md) ft then ft else m_fault_tolerance_value md).
Definition with_ft (md : BlockMetadata) (ft : f32) : BlockMetadata :=
  mkMeta (m_block_hash md) (m_parents md) (m_sender md) (m_justifications md) (m_weight_map md)
    (m_block_number md) (m_sequence_number md) (m_invalid md) (m_directly_finalized md)
    (m_finalized md) ft.

Section store.
(** The order in which the set of finalized blocks is iterated. *)
Context (iter_set : gset BlockHash -> list BlockHash).

(** [fn prune_finalized_cache_if_needed] *)
Definition prune_finalized_cache_if_needed (finalized : gset BlockHash) : gset BlockHash :=
  let len := Z.of_nat (size finalized) in
  if decide (len <= FINALIZED_BLOCK_CACHE_MAX)%Z then finalized
  else
    let to_remove := Z.to_nat (Z.max 0 (len - FINALIZED_BLOCK_CACHE_RETAIN)) in
    let evict := take to_remove (iter_set finalized) in
    foldl (fun s h => s ∖ {[h]}) finalized evict.
(** [fn record_finalized] *)
Definition record_finalized (directly : BlockHash) (indirectly : gset BlockHash) (ft_value : f32) :
  ST BlockMetadataStore (res KvStoreError unit) := fun self =>
  match
    cur_metas_for_if <-! get_batch (meta_store self) (iter_set indirectly);
    meta_for_df <-! get_unsafe (meta_store self) directly;
    Ok (cur_metas_for_if, meta_for_df)
  with
  | Err e => (Err e, self)
  | Panic => (Panic, self)
  | Ok (cur_metas_for_if, meta_for_df) =>
    let new_meta_for_df := with_finalized meta_for_df true ft_value in
    let new_metas_for_if :=
      (fun v => (m_block_hash v, with_finalized v false ft_value)) <$> cur_metas_for_if in
    let s := dag_state self in
    let finalized := {[directly]} ∪ (indirectly ∪ finalized_block_set s) in
    let lfb := match last_finalized_block s with
      | None => Some (directly, m_block_number new_meta_for_df)
      | Some (_, n) => if decide (n <= m_block_number new_meta_for_df)%Z
                       then Some (directly, m_block_number new_meta_for_df)
                       else last_finalized_block s
      end in
    (Ok tt, mkMetaStore (put_metas ((directly, new_meta_for_df) :: new_metas_for_if) (meta_store self))
      (mkDagState (dag_set s) (child_map s) (height_map s) (block_number_map s) (main_parent_map s)
         (self_justification_map s) lfb (prune_finalized_cache_if_needed finalized)))
  end.
(** [fn update_ft_if_higher] *)
Definition update_ft_if_higher (block_hashes : gset BlockHash) (ft_value : f32) :
  ST BlockMetadataStore (res KvStoreError unit) := fun self =>
  match get_batch (meta_store self) (iter_set block_hashes) with
  | Err e => (Err e, self)
  | Panic => (Panic, self)
  | Ok metas =>
    let updates := (fun m => (m_block_hash m, with_ft m ft_value)) <$>
      filter (fun m => f32_lt (m_fault_tolerance_value m) ft_value = true) metas in
    (Ok tt, mkMetaStore (put_metas updates (meta_store self)) (dag_state self))
  end.
End store.

(** ** [struct KeyValueDagRepresentation] *)

Record KeyValueDagRepresentation := mkDag {
  r_dag_set : gset BlockHash;
  r_latest_messages_map : gmap Validator BlockHash;
  r_child_map : gmap BlockHash (gset BlockHash);
  r_height_map : gmap Z (gset BlockHash);
  r_block_number_map : gmap BlockHash Z;
  r_main_parent_map : gmap BlockHash BlockHash;
  r_self_justification_map : gmap BlockHash BlockHash;
  r_invalid_blocks : list BlockMetadata;
  r_last_finalized_block_hash : BlockHash;
  r_finalized_blocks_set : gset BlockHash;
}.

Definition dag_missing (h : BlockHash) : KvStoreError :=
  KvInvalidArgument ("DAG storage is missing hash " +:+ build_string_bytes h).

Section representation.
Context (dag : KeyValueDagRepresentation).

Definition dag_contains (h : BlockHash) : bool :=
  bool_decide (length h = BLOCK_HASH_LENGTH) && bool_decide (h ∈ r_dag_set dag).
Definition children (h : BlockHash) : option (gset BlockHash) := r_child_map dag !! h.
Definition latest_message_hash (v : Validator) : option BlockHash := r_latest_messages_map dag !! v.
(** [fn get_max_height]: one more than the greatest height *)
Definition get_max_height : Z :=
  match get_max (r_height_map dag) with Some n => (n + 1)%Z | None => 0%Z end.
Definition block_number_unsafe (h : BlockHash) : res KvStoreError Z :=
  match r_block_number_map dag !! h with Some n => Ok n | None => Err (dag_missing h) end.
Definition main_parent (h : BlockHash) : option BlockHash := r_main_parent_map dag !! h.
(** [fn topo_sort]; the sets are listed in the order of [iter] *)
Definition topo_sort (iter : gset BlockHash -> list BlockHash) (start_block_number : Z)
    (maybe_end_block_number : option Z) : res KvStoreError (list (list BlockHash)) :=
  let max_number := get_max_height in
  let start_number := Z.max 0 start_block_number in
  let end_number := match maybe_end_block_number with
    | Some n => Z.min max_number n
    | None => max_number
    end in
  if decide (0 <= start_number /\ start_number <= end_number)%Z
  then Ok ((fun n => iter (default ∅ (r_height_map dag !! n))) <$>
         filter (fun n => start_number <= n <= end_number)%Z (height_keys (r_height_map dag)))
  else Err (KvInvalidArgument ("Invalid start block number: " +:+ pretty start_number +:+
              ", end block number: " +:+ pretty end_number)).

(** [fn self_justification] *)
Definition self_justification (h : BlockHash) : res KvStoreError (option BlockHash) :=
  match r_self_justification_map dag !! h with
  | Some hash => Ok (Some hash)
  | None => if dag_contains h then Ok None else Err (dag_missing h)
  end.
(** The loops below follow a chain of blocks; [None] is a chain longer than the fuel. *)
Fixpoint self_justification_chain (fuel : nat) (current_hash : BlockHash) :
  option (res KvStoreError (list BlockHash)) :=
  match fuel with
  | 0 => None
  | S fuel =>
    match self_justification current_hash with
    | Ok (Some next_hash) =>
      rest ← self_justification_chain fuel next_hash; Some (l <-! rest; Ok (next_hash :: l))
    | Ok None => Some (Ok [])
    | Err e => Some (Err e)
    | Panic => Some Panic
    end
  end.
Fixpoint main_parent_chain (fuel : nat) (current_hash : BlockHash) (stop_at_height : Z) :
  option (res KvStoreError (list BlockHash)) :=
  match fuel with
  | 0 => None
  | S fuel =>
    match block_number_unsafe current_hash with
    | Ok current_block_number =>
      if decide (current_block_number <= stop_at_height)%Z then Some (Ok [])
      else match main_parent current_hash with
           | Some parent_hash =>
             rest ← main_parent_chain fuel parent_hash stop_at_height;
             Some (l <-! rest; Ok (parent_hash :: l))
           | None => Some (Ok [])
           end
    | Err e => Some (Err e)
    | Panic => Some Panic
    end
  end.
(** [fn is_in_main_chain] *)
Fixpoint main_chain_loop (fuel : nat) (ancestor : BlockHash) (stop_height : Z)
    (current_hash : BlockHash) : option (res KvStoreError bool) :=
  match fuel with
  | 0 => None
  | S fuel =>
    match block_number_unsafe current_hash with
    | Ok current_height =>
      if decide (current_height <= stop_height)%Z
      then Some (Ok (bool_decide (current_hash = ancestor)))
      else match main_parent current_hash with
           | Some parent => main_chain_loop fuel ancestor stop_height parent
           | None => Some (Ok false)
           end
    | Err e => Some (Err e)
    | Panic => Some Panic
    end
  end.
Definition is_in_main_chain (fuel : nat) (ancestor descendant : BlockHash) :
  option (res KvStoreError bool) :=
  if decide (ancestor = descendant) then Some (Ok true)
  else match block_number_unsafe ancestor with
       | Ok stop_height => main_chain_loop fuel ancestor stop_height descendant
       | Err e => Some (Err e)
       | Panic => Some Panic
       end.

(** [fn descendants]: level by level *)
Definition insert_new (st : gset BlockHash * list BlockHash) (child : BlockHash) :
  gset BlockHash * list BlockHash :=
  let '(result, next_level) := st in
  if decide (child ∈ result) then st else ({[child]} ∪ result, next_level ++ [child]).
Fixpoint descendants_loop (fuel : nat) (result : gset BlockHash) (current_level : list BlockHash) :
  option (gset BlockHash) :=
  match fuel with
  | 0 => None
  | S fuel =>
    if decide (current_level = []) then Some result
    else
      let '(result', next_level) :=
        foldl (fun st hash => foldl insert_new st (elements (default ∅ (children hash))))
          (result, []) current_level in
      descendants_loop fuel result' next_level
  end.
Definition descendants (fuel : nat) (h : BlockHash) : option (gset BlockHash) :=
  descendants_loop fuel ∅ [h].

(** ** Reading the shared metadata *)

Context (idx : gmap BlockHash BlockMetadata).

(** [fn lookup], [fn lookup_unsafe] *)
Definition lookup_block (h : BlockHash) : option BlockMetadata :=
  if decide (h ∈ r_dag_set dag) then idx !! h else None.
Definition lookup_unsafe (h : BlockHash) : res KvStoreError BlockMetadata :=
  match lookup_block h with Some md => Ok md | None => Err (dag_missing h) end.
Definition lookups_unsafe (hashes : list BlockHash) : res KvStoreError (list BlockMetadata) :=
  res_mapM lookup_unsafe hashes.
Definition parents_unsafe (h : BlockHash) : res KvStoreError (list BlockHash) :=
  md <-! lookup_unsafe h; Ok (m_parents md).
(** [fn is_finalized] *)
Definition is_finalized (h : BlockHash) : bool :=
  bool_decide (h ∈ r_finalized_blocks_set dag) ||
  match idx !! h with Some m => m_finalized m | None => false end.
(** [fn latest_message], [fn latest_messages] *)
Definition latest_message (v : Validator) : res KvStoreError (option BlockMetadata) :=
  match latest_message_hash v with
  | Some hash => md <-! lookup_unsafe hash; Ok (Some md)
  | None => Ok None
  end.
Definition latest_messages : res KvStoreError (gmap Validator BlockMetadata) :=
  res_foldM (fun m '(v, hash) => md <-! lookup_unsafe hash; Ok (<[v := md]> m)) ∅
    (map_to_list (r_latest_messages_map dag)).
(** [fn invalid_latest_messages_from_hashes], [fn invalid_latest_messages], [fn invalid_blocks_map] *)
Definition invalid_latest_messages_from_hashes (latest : gmap Validator BlockHash) :
  gmap Validator BlockHash :=
  let invalid_block_hashes : gset BlockHash := list_to_set (m_block_hash <$> r_invalid_blocks dag) in
  filter (fun kv => kv.2 ∈ invalid_block_hashes) latest.
Definition invalid_latest_messages : res KvStoreError (gmap Validator BlockHash) :=
  latest <-! latest_messages;
  Ok (invalid_latest_messages_from_hashes (m_block_hash <$> latest)).
Definition invalid_blocks_map : gmap BlockHash Validator :=
  foldl (fun m b => <[m_block_hash b := m_sender b]> m) ∅ (r_invalid_blocks dag).

(** [fn ancestors]: level by level, while the parents satisfy the filter *)
Fixpoint ancestors_loop (fuel : nat) (filter_f : BlockHash -> bool) (result : gset BlockHash)
    (current_level : list BlockHash) : option (res KvStoreError (gset BlockHash)) :=
  match fuel with
  | 0 => None
  | S fuel =>
    if decide (current_level = []) then Some (Ok result)
    else
      match res_foldM (fun st hash =>
              md <-! lookup_unsafe hash;
              Ok (foldl (fun st parent => if filter_f parent then insert_new st parent else st)
                    st (m_parents md))) (result, []) current_level with
      | Ok (result', next_level) => ancestors_loop fuel filter_f result' next_level
      | Err e => Some (Err e)
      | Panic => Some Panic
      end
  end.
Definition ancestors (fuel : nat) (h : BlockHash) (filter_f : BlockHash -> bool) :
  option (res KvStoreError (gset BlockHash)) := ancestors_loop fuel filter_f ∅ [h].
Definition with_ancestors (fuel : nat) (h : BlockHash) (filter_f : BlockHash -> bool) :
  option (res KvStoreError (gset BlockHash)) :=
  r ← ancestors fuel h filter_f; Some (result <-! r; Ok ({[h]} ∪ result)).
(** [fn non_finalized_blocks]: a queue of the tips and their parents *)
Fixpoint non_finalized_loop (fuel : nat) (result visited : gset BlockHash) (tips : list BlockHash) :
  option (res KvStoreError (gset BlockHash)) :=
  match fuel with
  | 0 => None
  | S fuel =>
    match tips with
    | [] => Some (Ok result)
    | hash :: tips =>
      if decide (hash ∈ visited) then non_finalized_loop fuel result visited tips
      else
        let visited := {[hash]} ∪ visited in
        if is_finalized hash then non_finalized_loop fuel result visited tips
        else
          match lookup_unsafe hash with
          | Ok md =>
            non_finalized_loop fuel ({[hash]} ∪ result) visited
              (tips ++ filter (.∉ visited) (m_parents md))
          | Err e => Some (Err e)
          | Panic => Some Panic
          end
    end
  end.
Definition non_finalized_blocks (fuel : nat) : option (res KvStoreError (gset BlockHash)) :=
  match latest_messages with
  | Ok latest => non_finalized_loop fuel ∅ ∅ (m_block_hash <$> (map_to_list latest).*2)
  | Err e => Some (Err e)
  | Panic => Some Panic
  end.
End representation.

(** ** [struct BlockDagKeyValueStorage] *)

(** [struct EquivocationRecord] and [EquivocationTrackerStore] *)
Record EquivocationRecord := mkEquivocation {
  equivocator : Validator;
  equivocation_base_block_seq_num : Z;
  equivocation_detected_block_hashes : gset BlockHash;
}.
Abbreviation EquivocationTrackerStore := (gmap (Validator * Z) (gset BlockHash)).
Definition tracker_add (record : EquivocationRecord) (t : EquivocationTrackerStore) :
  EquivocationTrackerStore :=
  <[(equivocator record, equivocation_base_block_seq_num record) :=
      equivocation_detected_block_hashes record]> t.
Definition tracker_add_all (records : list EquivocationRecord) (t : EquivocationTrackerStore) :
  EquivocationTrackerStore := foldl (fun t r => tracker_add r t) t records.
Definition tracker_data (t : EquivocationTrackerStore) : list EquivocationRecord :=
  (fun '((v, n), hs) => mkEquivocation v n hs) <$> map_to_list t.

Record BlockDagKeyValueStorage := mkStorage {
  latest_messages_index : gmap Validator BlockHash;
  block_metadata_index : BlockMetadataStore;
  deploy_index : gmap bytes BlockHash;
  invalid_blocks_index : gmap BlockHash BlockMetadata;
  equivocation_tracker_index : EquivocationTrackerStore;
  dag_generation : Z;
}.
Definition with_metadata (s : BlockDagKeyValueStorage) (m : BlockMetadataStore) :
  BlockDagKeyValueStorage :=
  mkStorage (latest_messages_index s) m (deploy_index s) (invalid_blocks_index s)
    (equivocation_tracker_index s) (dag_generation s).
Definition with_tracker (s : BlockDagKeyValueStorage) (t : EquivocationTrackerStore) :
  BlockDagKeyValueStorage :=
  mkStorage (latest_messages_index s) (block_metadata_index s) (deploy_index s)
    (invalid_blocks_index s) t (dag_generation s).
Definition insert_equivocation_record (record : EquivocationRecord) (s : BlockDagKeyValueStorage) :
  BlockDagKeyValueStorage := with_tracker s (tracker_add record (equivocation_tracker_index s)).
Definition update_equivocation_record (record : EquivocationRecord) (h : BlockHash)
    (s : BlockDagKeyValueStorage) : BlockDagKeyValueStorage :=
  insert_equivocation_record
    (mkEquivocation (equivocator record) (equivocation_base_block_seq_num record)
       ({[h]} ∪ equivocation_detected_block_hashes record)) s.

(** [fn get_representation_internal] *)
Definition get_representation {E : Type} (s : BlockDagKeyValueStorage) :
  res E KeyValueDagRepresentation :=
  let st := dag_state (block_metadata_index s) in
  lfb <-! unwrap (last_finalized_block st);
  Ok (mkDag (dag_set st) (latest_messages_index s) (child_map st) (height_map st)
        (block_number_map st) (main_parent_map st) (self_justification_map st)
        (map_to_list (invalid_blocks_index s)).*2 lfb.1 (finalized_block_set st)).

(** [fn new_latest_messages]: the validators that the block bonds *)
Definition new_latest_messages (s : BlockDagKeyValueStorage) (block : BlockMessage) :
  gmap Validator BlockHash :=
  let newly_bonded_set : gset Validator :=
    list_to_set (bond_validator <$> bonds (body_state (body block))) in
  let justification_validators : gset Validator := list_to_set (validator <$> justifications block) in
  set_to_map (fun v => (v, block_hash block))
    (filter (fun v => latest_messages_index s !! v = None)
       (newly_bonded_set ∖ justification_validators)).
(** The sender's new latest message: if there is none yet or its number is not greater *)
Definition should_add_as_latest (s : BlockDagKeyValueStorage)
    (metas : gmap BlockHash BlockMetadata) (block : BlockMessage) : bool :=
  match latest_messages_index s !! sender block with
  | Some latest_message_hash =>
    match metas !! latest_message_hash with
    | Some md => bool_decide (m_sequence_number md <= seq_num block)%Z
    | None => true
    end
  | None => true
  end.

Section storage.
Context (iter_set : gset BlockHash -> list BlockHash).
(** The messages of malformed blocks print the block. *)
Context (debug_block : BlockMessage -> string).

(** [fn insert_internal] *)
Definition insert (block : BlockMessage) (invalid approved : bool) :
  ST BlockDagKeyValueStorage (res KvStoreError KeyValueDagRepresentation) := fun s =>
  if decide (block_hash block ∈ dag_set (dag_state (block_metadata_index s)))
  then (get_representation s, s)
  else if decide (sender block <> [] /\ length (sender block) <> VALIDATOR_LENGTH)
  then (Err (KvInvalidArgument ("Block sender is malformed., Block: " +:+ debug_block block)), s)
  else if decide (length (block_hash block) <> BLOCK_HASH_LENGTH)
  then (Err (KvInvalidArgument ("Block hash " +:+ build_string_bytes (block_hash block) +:+
               " is not correct length.")), s)
  else
    let md := from_block block invalid None None in
    match add_metadata md (block_metadata_index s) with
    | (Err e, metas) => (Err e, with_metadata s metas)
    | (Panic, metas) => (Panic, with_metadata s metas)
    | (Ok _, metas) =>
      let deploy_index' :=
        foldl (fun m d => <[signed_sig (deploy d) := block_hash block]> m) (deploy_index s)
          (deploys (body block)) in
      let invalid_blocks' :=
        if invalid then <[block_hash block := md]> (invalid_blocks_index s)
        else invalid_blocks_index s in
      let new_latest_from_sender : gmap Validator BlockHash :=
        if decide (sender block <> [])
        then if should_add_as_latest s (meta_store metas) block
             then {[sender block := block_hash block]} else ∅
        else ∅ in
      let latest' := (new_latest_from_sender ∪ new_latest_messages s block) ∪
        latest_messages_index s in
      let s' := mkStorage latest' metas deploy_index' invalid_blocks'
        (equivocation_tracker_index s) (as_u64 (dag_generation s + 1)) in
      if approved
      then
        match record_finalized iter_set (block_hash block) ∅ f32_one metas with
        | (Ok _, metas') => let s'' := with_metadata s' metas' in (get_representation s'', s'')
        | (Err e, metas') => (Err e, with_metadata s' metas')
        | (Panic, metas') => (Panic, with_metadata s' metas')
        end
      else (get_representation s', s')
    end.

(** ** Finalization *)

(** [fn propagate_ft_to_finalized_blocks] *)
Definition propagate_ft_to_finalized_blocks (ft_value : f32) :
  ST BlockDagKeyValueStorage (res KvStoreError unit) := fun s =>
  let metas := block_metadata_index s in
  let '(r, metas') := update_ft_if_higher iter_set (finalized_block_set (dag_state metas)) ft_value metas in
  (r, with_metadata s metas').

Definition MAX_FINALIZATION_RECONCILE_LOOPS : nat := 128.
(** The closure [persist_effect_applied] *)
Definition persist_effect_applied (directly : BlockHash) (ft_value : f32) (force_direct : bool)
    (effect_applied : gset BlockHash) : ST BlockDagKeyValueStorage (res KvStoreError unit) := fun s =>
  if negb force_direct && bool_decide (effect_applied = ∅) then (Ok tt, s)
  else
    let '(r, metas') := record_finalized iter_set directly (effect_applied ∖ {[directly]}) ft_value
      (block_metadata_index s) in
    (r, with_metadata s metas').
(** The blocks that a round of the loop still has to treat.  The ancestors are visited at most
    once each, so that one more round than there are blocks is enough. *)
Definition pending_effect (directly : BlockHash) (effect_applied : gset BlockHash)
    (s : BlockDagKeyValueStorage) : res KvStoreError (gset BlockHash) :=
  dag <-! get_representation s;
  let idx := meta_store (block_metadata_index s) in
  if dag_contains dag directly then
    found <-! unwrap (ancestors dag idx (S (S (size (r_dag_set dag)))) directly
                (fun h => negb (is_finalized dag idx h)));
    indirectly_finalized <-! found;
    Ok (({[directly]} ∪ indirectly_finalized) ∖ effect_applied)
  else Err (KvInvalidArgument ("Attempting to finalize nonexistent hash " +:+
              build_string_bytes directly)).
(** [fn record_directly_finalized].  The effect, which runs without the lock, may change the
    storage as any other task may while it waits. *)
Fixpoint finalization_loop (loops : nat) (directly : BlockHash) (ft_value : f32)
    (finalization_effect : gset BlockHash -> ST BlockDagKeyValueStorage (res KvStoreError unit))
    (effect_applied : gset BlockHash) : ST BlockDagKeyValueStorage (res KvStoreError unit) :=
  match loops with
  | 0 =>
    _ <- persist_effect_applied directly ft_value false effect_applied ;?
    lift (Err (KvIoError ("record_directly_finalized exceeded 128 reconcile loops for " +:+
                 build_string_bytes directly)))
  | S loops =>
    pending <- gets (pending_effect directly effect_applied) ;?
    if decide (pending = ∅) then
      _ <- persist_effect_applied directly ft_value true effect_applied ;?
      propagate_ft_to_finalized_blocks ft_value
    else fun s =>
      match finalization_effect pending s with
      | (Ok _, s') =>
        finalization_loop loops directly ft_value finalization_effect (effect_applied ∪ pending) s'
      | (Err err, s') =>
        (_ <- persist_effect_applied directly ft_value false effect_applied ;? lift (Err err)) s'
      | (Panic, s') => (Panic, s')
      end
  end.
Definition record_directly_finalized (directly : BlockHash) (ft_value : f32)
    (finalization_effect : gset BlockHash -> ST BlockDagKeyValueStorage (res KvStoreError unit)) :
  ST BlockDagKeyValueStorage (res KvStoreError unit) :=
  finalization_loop MAX_FINALIZATION_RECONCILE_LOOPS directly ft_value finalization_effect ∅.
End storage.
