(* ===== verification/BlockDagThms.v ===== *)
(** * The indexes of the block DAG

    The maps that [BlockMetadataStore] keeps in memory are determined by the metadata it
    stores: every operation keeps them so, and starting from the stored metadata, in whatever
    order they are read, gives the same maps. *)
From S2P Require Import Prelude HotStoreSig HistoryRepo CasperMessage BlockDag.

(** The entry of a map of sets. *)
Definition entry {K} `{Countable K} (m : gmap K (gset BlockHash)) (k : K) (h : BlockHash) : Prop :=
  exists s, m !! k = Some s /\ h ∈ s.

Lemma entry_default {K} `{Countable K} (m : gmap K (gset BlockHash)) (k : K) h :
  entry m k h <-> h ∈ default ∅ (m !! k).
Proof. unfold entry. destruct (m !! k); set_solver. Qed.
Lemma entry_insert {K} `{Countable K} (m : gmap K (gset BlockHash)) (k k' : K) (s : gset BlockHash) h :
  entry (<[k := s]> m) k' h <-> if decide (k' = k) then h ∈ s else entry m k' h.
Proof.
  unfold entry. case_decide as E.
  - subst. rewrite lookup_insert_eq. naive_solver.
  - by rewrite lookup_insert_ne by done.
Qed.

Definition self_justification_of (md : BlockMetadata) : option BlockHash :=
  latest_block_hash <$> head (filter (fun j => validator j = m_sender md) (m_justifications md)).

(** The maps of [s] index the metadata [M]. *)
Record indexes (M : gmap BlockHash BlockMetadata) (s : DagState) : Prop := {
  ix_set : dag_set s = dom M;
  ix_number : forall h, block_number_map s !! h = m_block_number <$> M !! h;
  ix_main_parent : forall h, main_parent_map s !! h = M !! h ≫= fun md => head (m_parents md);
  ix_self : forall h, self_justification_map s !! h = M !! h ≫= self_justification_of;
  ix_child : forall p c, entry (child_map s) p c <-> exists md, M !! c = Some md /\ p ∈ m_parents md;
  ix_child_dom : forall h, is_Some (child_map s !! h) <->
    is_Some (M !! h) \/ exists c md, M !! c = Some md /\ h ∈ m_parents md;
  ix_height : forall n h, entry (height_map s) n h <->
    exists md, M !! h = Some md /\ m_invalid md = false /\ m_block_number md = n;
  ix_height_dom : forall n s', height_map s !! n = Some s' -> s' <> ∅;
}.

Lemma indexes_empty : indexes ∅ DagState_new.
Proof.
  split; unfold entry; simpl.
  - by rewrite dom_empty_L.
  - intros h. by rewrite !lookup_empty.
  - intros h. by rewrite !lookup_empty.
  - intros h. by rewrite !lookup_empty.
  - intros p c. setoid_rewrite lookup_empty. naive_solver.
  - intros h. setoid_rewrite lookup_empty. split; [by intros []|].
    intros [[]|(? & ? & ? & _)]; done.
  - intros n h. setoid_rewrite lookup_empty. naive_solver.
  - intros n s'. by rewrite lookup_empty.
Qed.

(** Adding a block to the sets of its parents. *)
Lemma add_children_entry hash parents m p c :
  entry (foldl (add_child hash) m parents) p c <-> entry m p c \/ (c = hash /\ p ∈ parents).
Proof.
  revert m. induction parents as [|q parents IH]; intros m; cbn [foldl].
  - rewrite elem_of_nil. tauto.
  - rewrite IH. unfold add_child. rewrite entry_insert, elem_of_cons. case_decide as E.
    + subst. rewrite elem_of_union, elem_of_singleton, <- entry_default. tauto.
    + naive_solver.
Qed.
Lemma add_children_dom hash parents m h :
  is_Some (foldl (add_child hash) m parents !! h) <-> is_Some (m !! h) \/ h ∈ parents.
Proof.
  revert m. induction parents as [|q parents IH]; intros m; cbn [foldl].
  - rewrite elem_of_nil. tauto.
  - rewrite IH. unfold add_child. rewrite lookup_insert_is_Some', elem_of_cons. naive_solver.
Qed.

Lemma indexes_add M s h md :
  indexes M s -> M !! h = None ->
  indexes (<[h := md]> M) (add_block_to_dag_state s (block_metadata_to_info h md)).
Proof.
  intros I Hh. split; cbn.
  - rewrite dom_insert_L, (ix_set _ _ I). done.
  - intros k. destruct (decide (k = h)) as [->|]; [by rewrite !lookup_insert_eq|].
    rewrite !lookup_insert_ne by done. apply (ix_number _ _ I).
  - intros k. destruct (decide (k = h)) as [->|Hne].
    + rewrite lookup_insert_eq. cbn. destruct (head (m_parents md)); [by rewrite lookup_insert_eq|].
      by rewrite (ix_main_parent _ _ I), Hh.
    + rewrite (lookup_insert_ne M) by done. rewrite <- (ix_main_parent _ _ I).
      destruct (head (m_parents md)); [by rewrite lookup_insert_ne|done].
  - intros k. unfold self_justification_of. destruct (decide (k = h)) as [->|Hne].
    + rewrite lookup_insert_eq. cbn.
      destruct (head (filter _ (m_justifications md))); cbn; [by rewrite lookup_insert_eq|].
      by rewrite (ix_self _ _ I), Hh.
    + rewrite (lookup_insert_ne M) by done. fold self_justification_of. rewrite <- (ix_self _ _ I).
      destruct (head (filter _ (m_justifications md))); cbn; [by rewrite lookup_insert_ne|done].
  - intros p c. rewrite add_children_entry.
    assert (entry (match child_map s !! h with Some _ => child_map s
      | None => <[h := ∅]> (child_map s) end) p c <-> entry (child_map s) p c) as ->.
    { destruct (child_map s !! h) as [cs|] eqn:E; [done|]. rewrite entry_insert.
      case_decide as Ep; [|done]. subst. unfold entry. rewrite E. set_solver. }
    rewrite (ix_child _ _ I). destruct (decide (c = h)) as [->|Hne].
    + rewrite lookup_insert_eq, Hh. naive_solver.
    + rewrite lookup_insert_ne by done. naive_solver.
  - intros k. rewrite add_children_dom.
    assert (is_Some (match child_map s !! h with Some _ => child_map s
      | None => <[h := ∅]> (child_map s) end !! k) <-> k = h \/ is_Some (child_map s !! k)) as ->.
    { destruct (child_map s !! h) as [cs|] eqn:E.
      - split; [by right|]. intros [->|?]; [|done]. rewrite E. by eexists.
      - rewrite lookup_insert_is_Some'. naive_solver. }
    rewrite (ix_child_dom _ _ I), lookup_insert_is_Some'. split.
    + intros [[->|[?|(c & md' & Hc & Hk)]]|?]; [by left; left|by left; right| |].
      * right. exists c, md'. rewrite lookup_insert_ne; [done|]. intros ->. congruence.
      * right. exists h, md. by rewrite lookup_insert_eq.
    + intros [[->|?]|(c & md' & Hc & Hk)]; [by left; left|by left; right; left|].
      apply lookup_insert_Some in Hc as [[<- <-]|[_ Hc]]; [by right|]. left. right. right. eauto.
  - intros n k. destruct (m_invalid md) eqn:Hi.
    + rewrite (ix_height _ _ I). destruct (decide (k = h)) as [->|Hne].
      * rewrite lookup_insert_eq, Hh. naive_solver congruence.
      * by rewrite lookup_insert_ne.
    + assert (entry (<[m_block_number md := {[h]} ∪ default ∅ (height_map s !! m_block_number md)]>
        (height_map s)) n k <-> (k = h /\ n = m_block_number md) \/ entry (height_map s) n k) as ->.
      { rewrite entry_insert. case_decide as En; [|naive_solver].
        subst. rewrite elem_of_union, elem_of_singleton, <- entry_default. naive_solver. }
      rewrite (ix_height _ _ I). destruct (decide (k = h)) as [->|Hne].
      * rewrite lookup_insert_eq, Hh. naive_solver.
      * rewrite lookup_insert_ne by done. naive_solver.
  - intros n hs. destruct (m_invalid md); [apply (ix_height_dom _ _ I)|].
    intros [[_ <-]|[_ Hn]]%lookup_insert_Some; [set_solver|by apply (ix_height_dom _ _ I n)].
Qed.

(** ** The maps are determined *)

(** The maps of the state other than the finalized blocks. *)
Definition dag_maps (s : DagState) :=
  (dag_set s, child_map s, height_map s, block_number_map s, main_parent_map s,
   self_justification_map s).

Lemma map_of_sets_eq {K} `{Countable K} (m m' : gmap K (gset BlockHash)) :
  (forall k, is_Some (m !! k) <-> is_Some (m' !! k)) ->
  (forall k h, entry m k h <-> entry m' k h) -> m = m'.
Proof.
  intros Hd He. apply map_eq. intros k. specialize (Hd k). specialize (He k).
  unfold entry in He. destruct (m !! k) as [s|] eqn:E, (m' !! k) as [s'|] eqn:E'.
  - f_equal. apply set_eq. intros h. specialize (He h). naive_solver.
  - destruct Hd as [Hd _]. by destruct Hd.
  - destruct Hd as [_ Hd]. by destruct Hd.
  - done.
Qed.
Lemma nonempty_entry {K} `{Countable K} (m : gmap K (gset BlockHash)) (k : K) :
  (forall s, m !! k = Some s -> s <> ∅) -> is_Some (m !! k) <-> exists h, entry m k h.
Proof.
  intros Hne. split.
  - intros [s Hs]. apply Hne in Hs as Hx. apply set_choose_L in Hx as [h Hh]. exists h, s. done.
  - intros (h & s & Hs & _). eauto.
Qed.
Lemma indexes_determined M s s' : indexes M s -> indexes M s' -> dag_maps s = dag_maps s'.
Proof.
  intros I I'. unfold dag_maps. f_equal; [f_equal; [f_equal; [f_equal; [f_equal|]|]|]|].
  - by rewrite (ix_set _ _ I), (ix_set _ _ I').
  - apply map_of_sets_eq.
    + intros h. by rewrite (ix_child_dom _ _ I), (ix_child_dom _ _ I').
    + intros p c. by rewrite (ix_child _ _ I), (ix_child _ _ I').
  - apply map_of_sets_eq.
    + intros n. rewrite !nonempty_entry by (by apply (ix_height_dom _ _ I) || by apply (ix_height_dom _ _ I')).
      by setoid_rewrite (ix_height _ _ I); setoid_rewrite (ix_height _ _ I').
    + intros n h. by rewrite (ix_height _ _ I), (ix_height _ _ I').
  - apply map_eq. intros h. by rewrite (ix_number _ _ I), (ix_number _ _ I').
  - apply map_eq. intros h. by rewrite (ix_main_parent _ _ I), (ix_main_parent _ _ I').
  - apply map_eq. intros h. by rewrite (ix_self _ _ I), (ix_self _ _ I').
Qed.

(** Reading the stored metadata in any order. *)
Lemma indexes_fold l M s :
  NoDup l.*1 -> (forall h, h ∈ l.*1 -> M !! h = None) -> indexes M s ->
  indexes (list_to_map l ∪ M)
    (foldl add_block_to_dag_state s ((fun '(h, md) => block_metadata_to_info h md) <$> l)).
Proof.
  revert M s. induction l as [|[h md] l IH]; intros M s Hnd Hl I.
  { simpl. by rewrite map_empty_union. }
  apply NoDup_cons in Hnd as [Hh Hnd]. cbn [fmap list_fmap foldl].
  change (list_to_map ((h, md) :: l)) with (<[h := md]> (list_to_map l : gmap BlockHash BlockMetadata)).
  assert ((<[h := md]> (list_to_map l) ∪ M : gmap BlockHash BlockMetadata) =
    list_to_map l ∪ <[h := md]> M) as ->.
  { rewrite <- insert_union_l. apply insert_union_r.
    by apply (not_elem_of_list_to_map_1 (M:=gmap BlockHash)). }
  apply IH; [done| |].
  - intros k Hk. rewrite lookup_insert_ne by (intros ->; by apply Hh). apply Hl. by right.
  - apply indexes_add; [done|]. apply Hl. left.
Qed.
Lemma recreate_indexes M l :
  l ≡ₚ map_to_list M ->
  indexes M (foldl add_block_to_dag_state DagState_new
    ((fun '(h, md) => block_metadata_to_info h md) <$> l)).
Proof.
  intros Hl. assert (NoDup l.*1) as Hnd by (rewrite Hl; apply NoDup_fst_map_to_list).
  pose proof (indexes_fold l ∅ DagState_new Hnd) as I.
  rewrite map_union_empty in I. rewrite (list_to_map_proper l (map_to_list M)) in I by done.
  rewrite list_to_map_to_list in I. apply I; [|apply indexes_empty].
  intros h _. apply lookup_empty.
Qed.

(** ** Metadata that changes *)

(** The part of the metadata that the maps depend on. *)
Definition static (md : BlockMetadata) :=
  (m_parents md, m_sender md, m_justifications md, m_block_number md, m_invalid md).
Definition same_static (M M' : gmap BlockHash BlockMetadata) : Prop :=
  forall h, static <$> M !! h = static <$> M' !! h.
Lemma same_static_lookup M M' h md :
  same_static M M' -> M !! h = Some md -> exists md', M' !! h = Some md' /\ static md' = static md.
Proof.
  intros Hs Hm. specialize (Hs h). rewrite Hm in Hs. destruct (M' !! h) as [md'|]; [|done].
  exists md'. split; [done|]. simpl in Hs. congruence.
Qed.
Lemma same_static_sym M M' : same_static M M' -> same_static M' M.
Proof. intros Hs h. by rewrite (Hs h). Qed.
Lemma same_static_dom M M' : same_static M M' -> dom M = dom M'.
Proof.
  intros Hs. apply set_eq. intros h. rewrite !elem_of_dom, <- !(fmap_is_Some static). by rewrite (Hs h).
Qed.
Lemma indexes_static M M' s s' :
  same_static M M' -> dag_maps s = dag_maps s' -> indexes M s -> indexes M' s'.
Proof.
  intros Hs Hm I. injection Hm as H1 H2 H3 H4 H5 H6. split.
  - by rewrite <- H1, (ix_set _ _ I), (same_static_dom M M').
  - intros h. rewrite <- H4, (ix_number _ _ I). specialize (Hs h).
    destruct (M !! h), (M' !! h); simpl in *; try done. injection Hs as _ _ _ -> _. done.
  - intros h. rewrite <- H5, (ix_main_parent _ _ I). specialize (Hs h).
    destruct (M !! h), (M' !! h); simpl in *; try congruence. injection Hs as -> _ _ _ _. done.
  - intros h. rewrite <- H6, (ix_self _ _ I). specialize (Hs h). unfold self_justification_of.
    destruct (M !! h), (M' !! h); simpl in *; try congruence. injection Hs as _ -> -> _ _. done.
  - intros p c. rewrite <- H2, (ix_child _ _ I). specialize (Hs c).
    destruct (M !! c), (M' !! c); simpl in Hs; [|done|done|naive_solver].
    injection Hs as Hp _ _ _ _. split; intros (md & [= <-] & Hin); eexists; (split; [done|]); congruence.
  - intros h. rewrite <- H2, (ix_child_dom _ _ I). rewrite <- !elem_of_dom, (same_static_dom M M') by done.
    assert (forall N N' : gmap BlockHash BlockMetadata, same_static N N' ->
      (exists c md, N !! c = Some md /\ h ∈ m_parents md) ->
      exists c md, N' !! c = Some md /\ h ∈ m_parents md) as Hx.
    { intros N N' HN (c & md & Hc & Hin). destruct (same_static_lookup N N' c md HN Hc) as (md' & Hc' & E).
      exists c, md'. split; [done|]. injection E as -> _ _ _ _. done. }
    split; (intros [?|?]; [by left|right]); eapply Hx; eauto using same_static_sym.
  - intros n h. rewrite <- H3, (ix_height _ _ I). specialize (Hs h).
    destruct (M !! h), (M' !! h); simpl in Hs; [|done|done|naive_solver].
    injection Hs as _ _ _ Hn Hi.
    split; intros (md & [= <-] & ? & ?); eexists; (split; [done|]); split; congruence.
  - intros n hs. rewrite <- H3. apply (ix_height_dom _ _ I).
Qed.

(** ** The invariant of the store *)

Record store_inv (ms : BlockMetadataStore) : Prop := {
  si_key : forall h md, meta_store ms !! h = Some md -> m_block_hash md = h;
  si_index : indexes (meta_store ms) (dag_state ms);
  si_heights : validate_dag_state (E:=unit) (dag_state ms) = Ok (dag_state ms);
  si_finalized : forall h, h ∈ finalized_block_set (dag_state ms) ->
    exists md, meta_store ms !! h = Some md /\ m_finalized md = true;
  si_lfb : exists h n, last_finalized_block (dag_state ms) = Some (h, n) /\
    ((h, n) = ([], 0%Z) \/
     exists md, meta_store ms !! h = Some md /\ m_finalized md = true /\ m_block_number md = n);
}.

Lemma validate_Ok {E} s s' : validate_dag_state (E:=E) s = Ok s' <->
  s' = s /\ validate_dag_state (E:=unit) s = Ok s.
Proof.
  unfold validate_dag_state. destruct (match get_min (height_map s) with Some _ => _ | None => _ end) as [a b].
  destruct (bool_decide _); simpl; split; try by intros [= ->]. { by intros [-> _]. } { by intros [_ ?]. }
Qed.
(** The check looks at the heights only. *)
Lemma validate_maps s s' :
  height_map s = height_map s' -> validate_dag_state (E:=unit) s = Ok s ->
  validate_dag_state (E:=unit) s' = Ok s'.
Proof.
  unfold validate_dag_state. intros <-.
  destruct (match get_min (height_map s) with Some _ => _ | None => _ end) as [a b].
  by destruct (bool_decide _).
Qed.

Lemma add_metadata_inv {E : Type} ms md ms' :
  store_inv ms -> meta_store ms !! m_block_hash md = None ->
  (m_directly_finalized md = true -> m_finalized md = true) ->
  add_metadata (E:=E) md ms = (Ok tt, ms') ->
  store_inv ms' /\ meta_store ms' = <[m_block_hash md := md]> (meta_store ms).
Proof.
  intros I Hnew Hdf. unfold add_metadata. destruct (validate_dag_state _) as [st| |] eqn:Hst; [|done..].
  intros [= <-]. apply validate_Ok in Hst as [-> Hseq]. split; [|done]. split; cbn [meta_store dag_state].
  - intros h md'. intros [[<- <-]|[_ Hh]]%lookup_insert_Some; [done|by apply (si_key _ I)].
  - by apply indexes_add; [apply (si_index _ I)|].
  - done.
  - intros h. cbn. destruct (m_finalized md) eqn:Hf.
    + intros [->%elem_of_singleton|Hh]%elem_of_union.
      * exists md. by rewrite lookup_insert_eq.
      * destruct (si_finalized _ I h Hh) as (md' & Hm & Hf'). exists md'.
        rewrite lookup_insert_ne by congruence. done.
    + intros Hh. destruct (si_finalized _ I h Hh) as (md' & Hm & Hf'). exists md'.
      rewrite lookup_insert_ne by congruence. done.
  - cbn. destruct (si_lfb _ I) as (h & n & Hl & Hn). rewrite Hl.
    assert (forall b : bool, b = true -> m_directly_finalized md && b = true ->
      exists md', <[m_block_hash md := md]> (meta_store ms) !! m_block_hash md = Some md' /\
        m_finalized md' = true /\ m_block_number md' = m_block_number md) as Hnew'.
    { intros b _ [Hd _]%andb_true_iff. exists md. rewrite lookup_insert_eq. auto. }
    destruct (m_directly_finalized md && bool_decide (n <= m_block_number md)%Z) eqn:Ed.
    + exists (m_block_hash md), (m_block_number md). split; [done|]. right.
      apply (Hnew' (bool_decide (n <= m_block_number md)%Z)); [|done]. by apply andb_true_iff in Ed as [_ ?].
    + exists h, n. split; [done|]. destruct Hn as [?|(md' & Hm & ?)]; [by left|right].
      exists md'. rewrite lookup_insert_ne by congruence. done.
Qed.

(** ** Updates of several blocks *)

Lemma get_batch_Ok M keys metas :
  get_batch M keys = Ok metas <-> Forall2 (fun k md => M !! k = Some md) keys metas.
Proof.
  unfold get_batch. rewrite res_mapM_Ok.
  split; (intros Hf; eapply Forall2_impl; [exact Hf|]); intros k md; cbv beta.
  - destruct (M !! k); [by intros [= ->]|done].
  - by intros ->.
Qed.
Lemma put_metas_lookup (f : BlockMetadata -> BlockMetadata) M keys metas N h :
  (forall h md, M !! h = Some md -> m_block_hash md = h) ->
  get_batch M keys = Ok metas ->
  put_metas ((fun v => (m_block_hash v, f v)) <$> metas) N !! h =
  if decide (h ∈ keys) then f <$> M !! h else N !! h.
Proof.
  intros Hkey Hb%get_batch_Ok. revert N. induction Hb as [|k md keys metas Hk _ IH]; intros N; [done|].
  cbn [fmap list_fmap put_metas foldl]. fold (put_metas ((fun v => (m_block_hash v, f v)) <$> metas)).
  change (list_fmap ?g ?l) with (g <$> l). unfold put_metas in IH. rewrite IH. cbn [fst snd].
  rewrite (Hkey _ _ Hk). destruct (decide (h ∈ keys)) as [Hin|Hnin].
  - by rewrite decide_True by by right.
  - destruct (decide (h = k)) as [->|Hne].
    + by rewrite decide_True, lookup_insert_eq, Hk by left.
    + rewrite lookup_insert_ne by done. rewrite decide_False; [done|]. by intros [?|?]%elem_of_cons.
Qed.
Lemma get_batch_total M keys :
  (forall k, k ∈ keys -> is_Some (M !! k)) -> exists metas, get_batch M keys = Ok metas.
Proof.
  intros Hk. induction keys as [|k keys IH]; [by exists []|].
  destruct (Hk k) as [md Hmd]; [left|]. destruct IH as [metas Hm]; [intros; apply Hk; by right|].
  exists (md :: metas). apply get_batch_Ok. constructor; [done|]. by apply get_batch_Ok.
Qed.
Lemma get_batch_hashes M l :
  (forall md, md ∈ l -> M !! m_block_hash md = Some md) -> get_batch M (m_block_hash <$> l) = Ok l.
Proof.
  intros Hl. apply get_batch_Ok, Forall2_fmap_l. apply Forall_Forall2_diag, Forall_forall.
  apply Hl.
Qed.

Section finalize.
Context (iter_set : gset BlockHash -> list BlockHash) (iter_perm : forall s, iter_set s ≡ₚ elements s).

Lemma prune_sub s : prune_finalized_cache_if_needed iter_set s ⊆ s.
Proof.
  unfold prune_finalized_cache_if_needed. case_decide; [done|].
  generalize (take (Z.to_nat (Z.max 0 (Z.of_nat (size s) - FINALIZED_BLOCK_CACHE_RETAIN))) (iter_set s)).
  intros l. assert (forall t : gset BlockHash, t ⊆ s -> foldl (fun s h => s ∖ {[h]}) t l ⊆ s) as Hl; [|by apply Hl].
  induction l as [|h l IH]; intros t Ht; [done|]. cbn [foldl]. apply IH. set_solver.
Qed.

(** What [record_finalized] makes of the metadata of a block. *)
Definition finalize_md (directly : BlockHash) (indirectly : gset BlockHash) (ft : f32)
    (h : BlockHash) (md : BlockMetadata) : BlockMetadata :=
  if decide (h = directly) then with_finalized md true ft
  else if decide (h ∈ indirectly) then with_finalized md false ft
  else md.
Lemma finalize_md_static directly indirectly ft h md :
  static (finalize_md directly indirectly ft h md) = static md /\
  m_block_hash (finalize_md directly indirectly ft h md) = m_block_hash md /\
  (m_finalized md = true -> m_finalized (finalize_md directly indirectly ft h md) = true).
Proof. unfold finalize_md. by repeat case_decide. Qed.

(** The invariant when metadata change in a way the maps do not see. *)
Lemma store_inv_update ms ms' (f : BlockHash -> BlockMetadata -> BlockMetadata) :
  store_inv ms -> dag_maps (dag_state ms) = dag_maps (dag_state ms') ->
  (forall h md, static (f h md) = static md /\ m_block_hash (f h md) = m_block_hash md /\
     (m_finalized md = true -> m_finalized (f h md) = true)) ->
  (forall h, meta_store ms' !! h = f h <$> meta_store ms !! h) ->
  (forall h, h ∈ finalized_block_set (dag_state ms') ->
     exists md, meta_store ms' !! h = Some md /\ m_finalized md = true) ->
  (last_finalized_block (dag_state ms') = last_finalized_block (dag_state ms) \/
   exists h md, last_finalized_block (dag_state ms') = Some (h, m_block_number md) /\
     meta_store ms' !! h = Some md /\ m_finalized md = true) ->
  store_inv ms'.
Proof.
  intros I Hmaps Hf Hlook Hfin Hlfb. split.
  - intros h md. rewrite Hlook. intros (md0 & Hm & ->)%fmap_Some.
    destruct (Hf h md0) as (_ & -> & _). by apply (si_key _ I).
  - apply (indexes_static (meta_store ms) _ (dag_state ms)); [|done|apply (si_index _ I)].
    intros h. rewrite Hlook. destruct (meta_store ms !! h) as [md|]; [|done]. cbn.
    destruct (Hf h md) as [-> _]. done.
  - injection Hmaps as _ _ Hh _ _ _. apply (validate_maps (dag_state ms)); [done|].
    apply (si_heights _ I).
  - done.
  - destruct Hlfb as [->|(h & md & -> & Hm & Hfm)]; [|exists h, (m_block_number md); eauto 6].
    destruct (si_lfb _ I) as (h & n & -> & Hn). exists h, n. split; [done|].
    destruct Hn as [?|(md & Hm & Hfm & <-)]; [by left|right]. exists (f h md).
    destruct (Hf h md) as (Hs & _ & Hk). rewrite Hlook, Hm. injection Hs as _ _ _ Hnum _.
    split_and!; [done|auto|done].
Qed.

Lemma record_finalized_spec directly indirectly ft ms :
  store_inv ms -> directly ∉ indirectly ->
  (forall h, h = directly \/ h ∈ indirectly -> is_Some (meta_store ms !! h)) ->
  exists ms', record_finalized iter_set directly indirectly ft ms = (Ok tt, ms') /\
    store_inv ms' /\ dag_maps (dag_state ms') = dag_maps (dag_state ms) /\
    (forall h, meta_store ms' !! h = finalize_md directly indirectly ft h <$> meta_store ms !! h).
Proof.
  intros I Hd Hin. unfold record_finalized.
  destruct (get_batch_total (meta_store ms) (iter_set indirectly)) as [metas Hmetas].
  { intros k. rewrite iter_perm, elem_of_elements. auto. }
  rewrite Hmetas. cbn [res_bind]. unfold get_unsafe. destruct (Hin directly) as [md Hmd]; [by left|].
  rewrite Hmd. cbn [res_bind].
  set (M' := put_metas ((directly, with_finalized md true ft) ::
    ((fun v => (m_block_hash v, with_finalized v false ft)) <$> metas)) (meta_store ms)).
  assert (forall h, M' !! h = finalize_md directly indirectly ft h <$> meta_store ms !! h) as HM'.
  { intros h. unfold M', put_metas. cbn [foldl fst snd].
    pose proof (put_metas_lookup (fun v => with_finalized v false ft) (meta_store ms)
      (iter_set indirectly) metas (<[directly := with_finalized md true ft]> (meta_store ms)) h
      (si_key _ I) Hmetas) as Hp. unfold put_metas in Hp. rewrite Hp. clear Hp.
    unfold finalize_md. destruct (decide (h = directly)) as [->|Hne].
    - rewrite decide_False by (by rewrite iter_perm, elem_of_elements).
      by rewrite lookup_insert_eq, Hmd.
    - destruct (decide (h ∈ indirectly)) as [Hi|Hi].
      + rewrite decide_True by (by rewrite iter_perm, elem_of_elements). done.
      + rewrite decide_False by (by rewrite iter_perm, elem_of_elements).
        rewrite lookup_insert_ne by done. by destruct (meta_store ms !! h). }
  eexists. split; [done|]. split; [|done].
  apply (store_inv_update ms _ (finalize_md directly indirectly ft)); cbn [dag_state meta_store]; [done|done| |done| |].
  - intros h md'. apply finalize_md_static.
  - intros h Hh%prune_sub. cbn [finalized_block_set] in Hh. rewrite HM'.
    assert (h = directly \/ h ∈ indirectly \/ h ∈ finalized_block_set (dag_state ms)) as Hc by set_solver.
    destruct Hc as [->|[Hi|Hf]].
    + rewrite Hmd. eexists. split; [done|]. unfold finalize_md. by rewrite decide_True.
    + destruct (Hin h) as [md' Hm']; [by right|]. rewrite Hm'. eexists. split; [done|].
      unfold finalize_md. case_decide; [done|]. by rewrite decide_True.
    + destruct (si_finalized _ I h Hf) as (md' & Hm' & Hf'). rewrite Hm'. eexists. split; [done|].
      by apply finalize_md_static.
  - cbn [last_finalized_block]. destruct (si_lfb _ I) as (h0 & n0 & -> & _). case_decide; [|by left].
    right. exists directly, (with_finalized md true ft). split; [done|]. rewrite HM', Hmd. simpl.
    unfold finalize_md. by rewrite decide_True.
Qed.

Definition ft_md (hashes : gset BlockHash) (ft : f32) (h : BlockHash) (md : BlockMetadata) : BlockMetadata :=
  if decide (h ∈ hashes /\ f32_lt (m_fault_tolerance_value md) ft = true) then with_ft md ft else md.
Lemma update_ft_spec hashes ft ms :
  store_inv ms -> (forall h, h ∈ hashes -> is_Some (meta_store ms !! h)) ->
  exists ms', update_ft_if_higher iter_set hashes ft ms = (Ok tt, ms') /\
    store_inv ms' /\ dag_state ms' = dag_state ms /\
    (forall h, meta_store ms' !! h = ft_md hashes ft h <$> meta_store ms !! h).
Proof.
  intros I Hin. unfold update_ft_if_higher.
  destruct (get_batch_total (meta_store ms) (iter_set hashes)) as [metas Hmetas].
  { intros k. rewrite iter_perm, elem_of_elements. auto. }
  rewrite Hmetas. eexists. split; [done|]. cbn [dag_state meta_store].
  set (low := filter (fun m => f32_lt (m_fault_tolerance_value m) ft = true) metas).
  assert (forall md, md ∈ metas <-> exists h, h ∈ hashes /\ meta_store ms !! h = Some md) as Hel.
  { intros md. apply get_batch_Ok in Hmetas. split.
    - intros [i Hi]%list_elem_of_lookup. destruct (Forall2_lookup_r _ _ _ _ _ Hmetas Hi) as (k & Hk & Hm).
      exists k. split; [|done]. apply list_elem_of_lookup_2 in Hk. by rewrite iter_perm, elem_of_elements in Hk.
    - intros (h & Hh & Hm). assert (h ∈ iter_set hashes) as Hk by (by rewrite iter_perm, elem_of_elements).
      apply list_elem_of_lookup in Hk as [i Hi].
      destruct (Forall2_lookup_l _ _ _ _ _ Hmetas Hi) as (md' & Hi' & Hm'). rewrite Hm in Hm'.
      injection Hm' as <-. by eapply list_elem_of_lookup_2. }
  assert (forall h, put_metas ((fun m => (m_block_hash m, with_ft m ft)) <$> low) (meta_store ms) !! h =
    ft_md hashes ft h <$> meta_store ms !! h) as HM'.
  { intros h. rewrite (put_metas_lookup (fun m => with_ft m ft) (meta_store ms) (m_block_hash <$> low)).
    2:{ apply (si_key _ I). }
    2:{ apply get_batch_hashes. intros md [_ (k & _ & Hk)%Hel]%list_elem_of_filter.
        by rewrite (si_key _ I _ _ Hk). }
    unfold ft_md. destruct (meta_store ms !! h) as [md|] eqn:Hm; [|by case_decide]. cbn.
    assert (h ∈ m_block_hash <$> low <->
      h ∈ hashes /\ f32_lt (m_fault_tolerance_value md) ft = true) as Hiff.
    { rewrite list_elem_of_fmap. split.
      - intros (md' & -> & [Hlt (k & Hk & Hkm)%Hel]%list_elem_of_filter).
        rewrite (si_key _ I _ _ Hkm) in Hm |- *. rewrite Hkm in Hm. by injection Hm as ->.
      - intros [Hh Hlt]. exists md. split; [by rewrite (si_key _ I _ _ Hm)|].
        apply list_elem_of_filter. split; [done|]. apply Hel. eauto. }
    by repeat case_decide; intuition. }
  split; [|done].
  assert (forall h md, static (ft_md hashes ft h md) = static md /\
    m_block_hash (ft_md hashes ft h md) = m_block_hash md /\
    (m_finalized md = true -> m_finalized (ft_md hashes ft h md) = true)) as Hst.
  { intros h md. unfold ft_md. by case_decide. }
  apply (store_inv_update ms _ (ft_md hashes ft)); [done|done|done|done| |by left].
  intros h Hh. destruct (si_finalized _ I h Hh) as (md & Hm & Hf). cbn [meta_store]. rewrite HM', Hm.
  eexists. split; [done|]. by apply Hst.
Qed.
End finalize.

(** C37: a node that restarts reads back the maps it had.  From the stored metadata, in any
    order, [BlockMetadataStore::new] builds, without panicking, the same block set, children,
    heights, numbers, main parents and self justifications that the operations had kept. *)
Theorem dag_restart_equivalence ms iter :
  store_inv ms -> iter (meta_store ms) ≡ₚ map_to_list (meta_store ms) ->
  exists ms', BlockMetadataStore_new (E:=KvStoreError) iter (meta_store ms) = Ok ms' /\
    meta_store ms' = meta_store ms /\ dag_maps (dag_state ms') = dag_maps (dag_state ms).
Proof.
  intros I Hit. pose proof (recreate_indexes _ _ Hit) as Hix.
  pose proof (indexes_determined _ _ _ Hix (si_index _ I)) as Hmaps.
  unfold BlockMetadataStore_new, recreate_in_memory_state.
  set (st := foldl add_block_to_dag_state DagState_new _) in *.
  assert (validate_dag_state (E:=KvStoreError) st = Ok st) as ->.
  { apply validate_Ok. split; [done|]. injection Hmaps as _ _ Hh _ _ _.
    apply (validate_maps (dag_state ms)); [done|]. apply (si_heights _ I). }
  cbn. eauto.
Qed.
