(* ===== verification/BlockDagWalk.v ===== *)
(** * Walks over the block DAG

    The searches of [KeyValueDagRepresentation] compute what they are named after: the
    descendants and the ancestors of a block are those that the edges of the DAG lead to, and
    a block is in the main chain of another if following main parents leads to it.  Finalizing
    a block finalizes all its ancestors. *)
From S2P Require Import Prelude HotStoreSig HistoryRepo CasperMessage BlockDag BlockDagThms.
Open Scope res_scope.

(** ** Search by levels *)

Lemma tc_last {A} (R : A -> A -> Prop) x y : tc R x y -> exists z, R z y.
Proof. induction 1; eauto. Qed.

Section levels.
Context (nexts : BlockHash -> list BlockHash).
Definition edge (x y : BlockHash) : Prop := y ∈ nexts x.
(** One round of the searches. *)
Definition level_step (result : gset BlockHash) (level : list BlockHash) :
  gset BlockHash * list BlockHash :=
  foldl (fun st h => foldl insert_new st (nexts h)) (result, []) level.
Fixpoint search (fuel : nat) (result : gset BlockHash) (level : list BlockHash) :
  option (gset BlockHash) :=
  match fuel with
  | 0 => None
  | S fuel =>
    if decide (level = []) then Some result
    else let '(result', next_level) := level_step result level in search fuel result' next_level
  end.

(** What a round adds: [r] is the result before it. *)
Definition adds (r : gset BlockHash) (P : BlockHash -> Prop) (st : gset BlockHash * list BlockHash) : Prop :=
  (forall x, x ∈ st.1 <-> x ∈ r \/ P x) /\ (forall x, x ∈ st.2 <-> x ∉ r /\ P x).
Lemma insert_new_adds r P st y :
  adds r P st -> adds r (fun x => P x \/ x = y) (insert_new st y).
Proof.
  destruct st as [res nl]. intros [H1 H2]. cbn [fst snd] in *. unfold insert_new.
  case_decide as Hy.
  - split; cbn [fst snd]; intros x; rewrite ?H1, ?H2; [naive_solver|].
    split; [naive_solver|]. intros [Hx [?| ->]]; [done|]. apply H1 in Hy. naive_solver.
  - split; cbn [fst snd]; intros x.
    + rewrite elem_of_union, elem_of_singleton, H1. naive_solver.
    + rewrite elem_of_app, list_elem_of_singleton, H2. rewrite H1 in Hy. naive_solver.
Qed.
Lemma insert_news_adds r P st l :
  adds r P st -> adds r (fun x => P x \/ x ∈ l) (foldl insert_new st l).
Proof.
  revert P st. induction l as [|y l IH]; intros P st Hst; cbn [foldl].
  - destruct Hst as [H1 H2]. split; intros x; [rewrite H1|rewrite H2]; rewrite elem_of_nil; tauto.
  - apply (insert_new_adds _ _ _ y), IH in Hst as [H1 H2].
    split; intros x; [rewrite H1|rewrite H2]; rewrite elem_of_cons; tauto.
Qed.
Lemma level_step_adds r level : adds r (fun x => exists h, h ∈ level /\ edge h x) (level_step r level).
Proof.
  unfold level_step. assert (forall P st, adds r P st ->
    adds r (fun x => P x \/ exists h, h ∈ level /\ edge h x)
      (foldl (fun st h => foldl insert_new st (nexts h)) st level)) as Hl.
  { induction level as [|h level IH]; intros P st Hst; cbn [foldl].
    - destruct Hst as [H1 H2].
      split; intros x; [rewrite H1|rewrite H2]; setoid_rewrite elem_of_nil; naive_solver.
    - apply (insert_news_adds _ _ _ (nexts h)), IH in Hst as [H1 H2].
      unfold edge in *. split; intros x; [rewrite H1|rewrite H2]; setoid_rewrite elem_of_cons; naive_solver. }
  destruct (Hl (fun _ => False) (r, [])) as [H1 H2].
  - split; cbn [fst snd]; intros x; [naive_solver|]. rewrite elem_of_nil. naive_solver.
  - split; intros x; [rewrite H1|rewrite H2]; naive_solver.
Qed.

(** The state of a search that started at [h]: everything found is reached, and every edge
    out of a block that was treated was followed. *)
Definition searching (h : BlockHash) (result : gset BlockHash) (level : list BlockHash) : Prop :=
  (forall x, x ∈ result -> tc edge h x) /\
  (forall x, x ∈ level -> x = h \/ x ∈ result) /\
  (forall x y, x = h \/ x ∈ result -> edge x y -> x ∈ level \/ y ∈ result).
Lemma search_step h result level :
  searching h result level ->
  searching h (level_step result level).1 (level_step result level).2.
Proof.
  intros (Hr & Hl & Hc). destruct (level_step_adds result level) as [H1 H2].
  set (st := level_step result level) in *. split_and!.
  - intros x [Hx|(y & Hy & Hyx)]%H1; [by apply Hr|].
    destruct (Hl y Hy) as [->|Hyr]; [by apply tc_once|]. eapply tc_r; [by apply Hr|done].
  - intros x [_ Hx]%H2. right. apply H1. by right.
  - intros x y Hx Hxy. destruct (decide (x ∈ level)) as [Hin|Hnin].
    + right. apply H1. right. eauto.
    + destruct Hx as [->|[Hx|(z & Hz & Hzx)]%H1].
      * destruct (Hc h y) as [?|?]; [by left|done|done|]. right. apply H1. by left.
      * destruct (Hc x y) as [?|?]; [by right|done|done|]. right. apply H1. by left.
      * destruct (decide (x ∈ result)) as [Hxr|Hxr].
        -- destruct (Hc x y) as [?|?]; [by right|done|done|]. right. apply H1. by left.
        -- left. apply H2. eauto.
Qed.
Lemma searching_done h result : searching h result [] -> forall x, x ∈ result <-> tc edge h x.
Proof.
  intros (Hr & _ & Hc) x. split; [apply Hr|]. intros Hx.
  assert (forall y z, y = h \/ y ∈ result -> edge y z -> z ∈ result) as Hclosed.
  { intros y z Hy Hyz. destruct (Hc y z Hy Hyz) as [Hn|?]; [by apply not_elem_of_nil in Hn|done]. }
  clear Hr Hc. assert (forall y, tc edge y x -> y = h \/ y ∈ result -> x ∈ result) as H; [|by eauto].
  intros y Hyx. induction Hyx as [y x Hyx|y z x Hyz _ IH]; intros Hy; [by apply (Hclosed y)|].
  apply IH; [done|]. right. by apply (Hclosed y).
Qed.

(** Every block that is found lies in [U]: a search with more rounds than [U] has elements
    ends. *)
Lemma search_from (U : gset BlockHash) h fuel result level :
  searching h result level -> (forall x, tc edge h x -> x ∈ U) ->
  0 < fuel -> (level = [] \/ 2 + (size U - size result) <= fuel) ->
  exists R, search fuel result level = Some R /\ forall x, x ∈ R <-> tc edge h x.
Proof.
  intros Hs HU. revert result level Hs.
  induction fuel as [|fuel IH]; intros result level Hs Hpos Hf; [lia|]. cbn [search].
  case_decide as Hl.
  { subst. exists result. split; [done|]. by apply searching_done. }
  destruct Hf as [?|Hf]; [done|]. pose proof (search_step _ _ _ Hs) as Hs'.
  destruct (level_step_adds result level) as [H1 H2].
  destruct (level_step result level) as [result' next]. cbn [fst snd] in *.
  apply IH; [done|lia|]. destruct next as [|y next]; [by left|right].
  assert (size result < size result').
  { apply subset_size. split; [intros x Hx; apply H1; by left|]. intros Hsub.
    destruct (proj1 (H2 y)) as [Hy Hy']; [left|]. apply Hy, Hsub, H1. by right. }
  assert (size result' <= size U).
  { apply subseteq_size. intros x Hx. apply HU. by apply Hs'. }
  lia.
Qed.
Lemma search_spec (U : gset BlockHash) h fuel :
  (forall x, tc edge h x -> x ∈ U) -> 2 + size U <= fuel ->
  exists R, search fuel ∅ [h] = Some R /\ forall x, x ∈ R <-> tc edge h x.
Proof.
  intros HU Hf. apply (search_from U); [|done|lia|right; rewrite size_empty; lia].
  split_and!.
  - set_solver.
  - intros x ->%list_elem_of_singleton. by left.
  - intros x y [->|Hx] _; [left; by apply list_elem_of_singleton|set_solver].
Qed.
End levels.

(** ** Descendants *)

Section walk.
Context (dag : KeyValueDagRepresentation).

Definition child (p c : BlockHash) : Prop := entry (r_child_map dag) p c.
Definition child_list (h : BlockHash) : list BlockHash := elements (default ∅ (children dag h)).
Lemma child_edge p c : edge child_list p c <-> child p c.
Proof. unfold edge, child_list, child, children. by rewrite elem_of_elements, entry_default. Qed.
Lemma descendants_search fuel result level :
  descendants_loop dag fuel result level = search child_list fuel result level.
Proof.
  revert result level. induction fuel as [|fuel IH]; intros result level; [done|].
  cbn [descendants_loop search]. case_decide; [done|]. unfold level_step, child_list.
  destruct (foldl _ _ _). apply IH.
Qed.
(** All blocks that are the child of a block. *)
Definition all_children : gset BlockHash := ⋃ (map_to_list (r_child_map dag)).*2.
Lemma child_all p c : child p c -> c ∈ all_children.
Proof.
  intros (s & Hs & Hc). apply elem_of_union_list. exists s. split; [|done].
  apply (list_elem_of_fmap_2 snd _ (p, s)). by apply elem_of_map_to_list.
Qed.
Lemma tc_edge_child p c : tc (edge child_list) p c <-> tc child p c.
Proof.
  split; intros Hc; (induction Hc as [x y Hxy|x y z Hxy _ IH];
    [apply tc_once; by apply child_edge|eapply tc_l; [by apply child_edge|done]]).
Qed.
Lemma descendants_spec h fuel :
  2 + size all_children <= fuel ->
  exists D, descendants dag fuel h = Some D /\ forall x, x ∈ D <-> tc child h x.
Proof.
  intros Hf. destruct (search_spec child_list all_children h fuel) as (D & HD & Hx); [|done|].
  - intros x (y & Hy%child_edge)%tc_last. by apply child_all in Hy.
  - exists D. unfold descendants. rewrite descendants_search. split; [done|].
    intros x. by rewrite Hx, tc_edge_child.
Qed.

(** ** Ancestors *)

Context (idx : gmap BlockHash BlockMetadata).

Definition parent (c p : BlockHash) : Prop :=
  exists md, lookup_block dag idx c = Some md /\ p ∈ m_parents md.
Context (filter_f : BlockHash -> bool).
(** A parent that the filter lets pass. *)
Definition passing (c p : BlockHash) : Prop := parent c p /\ filter_f p = true.
Definition parent_list (h : BlockHash) : list BlockHash :=
  filter (fun p => filter_f p = true) (default [] (m_parents <$> lookup_block dag idx h)).
Lemma passing_edge c p : edge parent_list c p <-> passing c p.
Proof.
  unfold edge, parent_list, passing, parent. rewrite list_elem_of_filter.
  destruct (lookup_block dag idx c) as [md|]; cbn.
  - naive_solver.
  - rewrite elem_of_nil. naive_solver.
Qed.
Lemma tc_edge_passing c p : tc (edge parent_list) c p <-> tc passing c p.
Proof.
  split; intros Hc; (induction Hc as [x y Hxy|x y z Hxy _ IH];
    [apply tc_once; by apply passing_edge|eapply tc_l; [by apply passing_edge|done]]).
Qed.
Lemma insert_filtered st l :
  foldl (fun st p => if filter_f p then insert_new st p else st) st l =
  foldl insert_new st (filter (fun p => filter_f p = true) l).
Proof.
  revert st. induction l as [|p l IH]; intros st; [done|]. rewrite filter_cons. cbn [foldl].
  rewrite IH. destruct (filter_f p); [by rewrite decide_True|by rewrite decide_False].
Qed.
Lemma ancestors_level st level :
  (forall x, x ∈ level -> is_Some (lookup_block dag idx x)) ->
  res_foldM (fun st hash =>
    md <-! lookup_unsafe dag idx hash;
    Ok (foldl (fun st p => if filter_f p then insert_new st p else st) st (m_parents md))) st level =
  Ok (foldl (fun st h => foldl insert_new st (parent_list h)) st level).
Proof.
  revert st. induction level as [|h level IH]; intros st Hl; [done|]. cbn [res_foldM foldl].
  destruct (Hl h) as [md Hmd]; [left|]. unfold lookup_unsafe at 1, parent_list at 2. rewrite Hmd.
  cbn [res_bind fmap option_fmap option_map default]. rewrite insert_filtered.
  apply IH. intros x Hx. apply Hl. by right.
Qed.
Lemma ancestors_search h fuel result level :
  (forall x, x = h \/ tc passing h x -> is_Some (lookup_block dag idx x)) ->
  searching parent_list h result level ->
  ancestors_loop dag idx fuel filter_f result level =
  Ok <$> search parent_list fuel result level.
Proof.
  intros Hall. revert result level. induction fuel as [|fuel IH]; intros result level Hs; [done|].
  cbn [ancestors_loop search]. case_decide; [done|]. rewrite ancestors_level.
  - pose proof (search_step _ _ _ _ Hs) as Hs'. unfold level_step in *.
    destruct (foldl _ _ _). by apply IH.
  - intros x Hx. apply Hall. destruct Hs as (Hr & Hl & _). destruct (Hl x Hx) as [->|Hx']; [by left|right].
    by apply tc_edge_passing, Hr.
Qed.
Lemma ancestors_spec h fuel :
  (forall x, x = h \/ tc passing h x -> is_Some (lookup_block dag idx x)) ->
  2 + size (r_dag_set dag) <= fuel ->
  exists A, ancestors dag idx fuel h filter_f = Some (Ok A) /\ forall x, x ∈ A <-> tc passing h x.
Proof.
  intros Hall Hf. destruct (search_spec parent_list (r_dag_set dag) h fuel) as (A & HA & Hx); [|done|].
  - intros x Hx%tc_edge_passing. destruct (Hall x) as [md Hmd]; [by right|].
    unfold lookup_block in Hmd. by case_decide.
  - exists A. unfold ancestors. rewrite (ancestors_search h); [|done|].
    + rewrite HA. split; [done|]. intros x. by rewrite Hx, tc_edge_passing.
    + split_and!; [set_solver|intros x ->%list_elem_of_singleton; by left|].
      intros x y [->|Hxy] _; [left; by apply list_elem_of_singleton|set_solver].
Qed.
End walk.

(** ** The main chain *)

Section main_chain.
Context (dag : KeyValueDagRepresentation).
Abbreviation number h := (r_block_number_map dag !! h).
Definition main_edge (h p : BlockHash) : Prop := main_parent dag h = Some p.
(** The number of a block is greater than that of its main parent. *)
Definition numbered : Prop := forall h p, main_edge h p ->
  exists n m, number p = Some n /\ number h = Some m /\ (n < m)%Z.
Context (Hnum : numbered).

Lemma main_edge_lt h p n m :
  number h = Some m -> number p = Some n -> rtc main_edge h p -> h = p \/ (n < m)%Z.
Proof.
  intros Hh Hp Hr. revert m Hh. induction Hr as [h|h q p Hhq _ IH]; intros m Hh; [by left|right].
  destruct (Hnum h q Hhq) as (k & m' & Hq & Hm' & Hlt). rewrite Hh in Hm'. injection Hm' as <-.
  destruct (IH Hp k Hq) as [->|?]; [|lia]. rewrite Hp in Hq. injection Hq as <-. lia.
Qed.
Lemma main_chain_loop_spec fuel a na cur n :
  number a = Some na -> number cur = Some n -> Z.to_nat (n - na) < fuel ->
  exists b, main_chain_loop dag fuel a na cur = Some (Ok b) /\ (b = true <-> rtc main_edge cur a).
Proof.
  intros Ha. revert cur n. induction fuel as [|fuel IH]; intros cur n Hc Hf; [lia|].
  cbn [main_chain_loop]. unfold block_number_unsafe. rewrite Hc. case_decide as Hle.
  - eexists. split; [done|]. rewrite bool_decide_eq_true. split; [by intros ->|].
    intros Hr. destruct (main_edge_lt cur a na n) as [?|?]; [done..|lia].
  - destruct (main_parent dag cur) as [p|] eqn:Hp.
    + destruct (Hnum cur p Hp) as (k & m & Hk & Hm & Hlt). rewrite Hc in Hm. injection Hm as <-.
      destruct (IH p k Hk) as (b & Hb & Hiff); [lia|]. exists b. split; [done|]. rewrite Hiff.
      split; [by apply rtc_l|]. intros Hr. inversion Hr as [|? q ? Hq Hr']; subst.
      * rewrite Ha in Hc. injection Hc as <-. lia.
      * unfold main_edge in Hq. rewrite Hp in Hq. by injection Hq as <-.
    + exists false. split; [done|]. split; [done|]. intros Hr.
      inversion Hr as [|? q ? Hq _]; subst.
      * rewrite Ha in Hc. injection Hc as <-. lia.
      * unfold main_edge in Hq. by rewrite Hp in Hq.
Qed.
Lemma is_in_main_chain_spec fuel a d na nd :
  number a = Some na -> number d = Some nd -> Z.to_nat (nd - na) < fuel ->
  exists b, is_in_main_chain dag fuel a d = Some (Ok b) /\ (b = true <-> rtc main_edge d a).
Proof.
  intros Ha Hd Hf. unfold is_in_main_chain. case_decide as E.
  - exists true. subst. by split.
  - unfold block_number_unsafe. rewrite Ha. by apply (main_chain_loop_spec fuel a na d nd).
Qed.
End main_chain.

(** C38: the searches of the DAG end and are exact.  [descendants] returns the blocks that a
    path of children leads to; [ancestors] those that a path of parents that pass the filter
    leads to, if their metadata are stored; [is_in_main_chain] tells whether following main
    parents leads from the one block to the other, if main parents have smaller numbers. *)
Theorem dag_walks_correct dag idx filter_f h a na nh fuel :
  2 + size (all_children dag) <= fuel -> 2 + size (r_dag_set dag) <= fuel ->
  Z.to_nat (nh - na) < fuel ->
  (forall x, x = h \/ tc (passing dag idx filter_f) h x -> is_Some (lookup_block dag idx x)) ->
  numbered dag -> r_block_number_map dag !! a = Some na -> r_block_number_map dag !! h = Some nh ->
  (exists D, descendants dag fuel h = Some D /\ forall x, x ∈ D <-> tc (child dag) h x) /\
  (exists A, ancestors dag idx fuel h filter_f = Some (Ok A) /\
     forall x, x ∈ A <-> tc (passing dag idx filter_f) h x) /\
  (exists b, is_in_main_chain dag fuel a h = Some (Ok b) /\
     (b = true <-> rtc (main_edge dag) h a)).
Proof.
  intros Hf1 Hf2 Hf3 Hall Hnum Ha Hh. split_and!.
  - by apply descendants_spec.
  - by apply ancestors_spec.
  - by apply (is_in_main_chain_spec dag Hnum fuel a h na nh).
Qed.
