(* ===== verification/BlockDagFinal.v ===== *)
(** * Inserting and finalizing blocks

    [BlockDagKeyValueStorage]: inserting a block keeps the indexes exact and never moves the
    latest message of a validator back; finalizing a block finalizes exactly its ancestors
    that were not. *)
From S2P Require Import Prelude HotStoreSig HistoryRepo CasperMessage BlockDag BlockDagThms BlockDagWalk.
Open Scope res_scope.

Abbreviation metas_of s := (meta_store (block_metadata_index s)).
Abbreviation state_of s := (dag_state (block_metadata_index s)).
Definition storage_inv (s : BlockDagKeyValueStorage) : Prop := store_inv (block_metadata_index s).

Lemma representation_total {E : Type} s :
  storage_inv s -> exists dag, get_representation (E:=E) s = Ok dag /\
    r_dag_set dag = dom (metas_of s) /\ r_finalized_blocks_set dag = finalized_block_set (state_of s) /\
    r_latest_messages_map dag = latest_messages_index s.
Proof.
  intros I. unfold get_representation. destruct (si_lfb _ I) as (h & n & -> & _). cbn.
  eexists. split; [done|]. cbn. by rewrite (ix_set _ _ (si_index _ I)).
Qed.

Section storage.
Context (iter_set : gset BlockHash -> list BlockHash) (iter_perm : forall s, iter_set s ≡ₚ elements s).
Context (debug_block : BlockMessage -> string).

(** How a block changes the latest messages: those of other validators stay, that of the
    sender advances unless the block has a smaller number, and the validators that the
    block bonds get one. *)
Record latest_advance (s s' : BlockDagKeyValueStorage) (block : BlockMessage) : Prop := {
  la_other : forall v h, latest_messages_index s !! v = Some h -> v <> sender block \/ sender block = [] ->
    latest_messages_index s' !! v = Some h;
  la_sender : sender block <> [] ->
    latest_messages_index s' !! sender block = Some (block_hash block) \/
    exists h md, latest_messages_index s !! sender block = Some h /\ metas_of s !! h = Some md /\
      (seq_num block < m_sequence_number md)%Z /\ latest_messages_index s' !! sender block = Some h;
  la_bonded : forall v, latest_messages_index s !! v = None ->
    v ∈ bond_validator <$> bonds (body_state (body block)) -> v ∉ validator <$> justifications block ->
    latest_messages_index s' !! v = Some (block_hash block);
}.

Lemma new_latest_lookup s block v :
  new_latest_messages s block !! v = Some (block_hash block) <->
  latest_messages_index s !! v = None /\ v ∈ bond_validator <$> bonds (body_state (body block)) /\
  v ∉ validator <$> justifications block.
Proof.
  unfold new_latest_messages. rewrite lookup_set_to_map.
  - cbn. setoid_rewrite elem_of_filter. setoid_rewrite elem_of_difference.
    setoid_rewrite elem_of_list_to_set. naive_solver.
  - cbn. naive_solver.
Qed.
Lemma new_latest_value s block v h :
  new_latest_messages s block !! v = Some h -> h = block_hash block /\ latest_messages_index s !! v = None.
Proof.
  unfold new_latest_messages. rewrite lookup_set_to_map by (cbn; naive_solver).
  cbn. intros (v' & Hv & [= <- <-]). by apply elem_of_filter in Hv as [? _].
Qed.
(** The new latest messages, as [insert] puts them together. *)
Definition sender_latest (s : BlockDagKeyValueStorage) (metas : gmap BlockHash BlockMetadata)
    (block : BlockMessage) : gmap Validator BlockHash :=
  if decide (sender block <> [])
  then if should_add_as_latest s metas block then {[sender block := block_hash block]} else ∅
  else ∅.
Lemma insert_latest s s' block md :
  m_sequence_number md = seq_num block ->
  latest_messages_index s' =
    (sender_latest s (<[block_hash block := md]> (metas_of s)) block ∪ new_latest_messages s block) ∪
    latest_messages_index s ->
  latest_advance s s' block.
Proof.
  intros Hmd Hl.
  assert (forall v, v <> sender block \/ sender block = [] ->
    sender_latest s (<[block_hash block := md]> (metas_of s)) block !! v = None) as Hother.
  { intros v Hv. unfold sender_latest. case_decide; [|apply lookup_empty].
    destruct (should_add_as_latest _ _ _); [|apply lookup_empty].
    apply lookup_singleton_ne. naive_solver. }
  split.
  - intros v h Hv Hne. rewrite Hl, <- (assoc_L (∪)), lookup_union_r by (by apply Hother).
    rewrite lookup_union_r; [done|]. destruct (new_latest_messages s block !! v) as [h'|] eqn:E; [|done].
    apply new_latest_value in E as [_ E]. congruence.
  - intros Hs. rewrite Hl. unfold sender_latest. rewrite decide_True by done.
    destruct (should_add_as_latest _ _ _) eqn:E.
    { left. apply lookup_union_Some_l, lookup_union_Some_l, lookup_singleton_eq. }
    right. unfold should_add_as_latest in E.
    destruct (latest_messages_index s !! sender block) as [h|] eqn:Eh; [|done].
    destruct (<[block_hash block := md]> (metas_of s) !! h) as [md'|] eqn:Em; [|done].
    apply bool_decide_eq_false in E. exists h, md'. apply lookup_insert_Some in Em as [[<- <-]|[_ Em]]; [lia|].
    split_and!; [done|done|lia|]. rewrite lookup_union_r; [done|]. rewrite lookup_union_r; [|apply lookup_empty].
    destruct (new_latest_messages s block !! sender block) as [h'|] eqn:E'; [|done].
    apply new_latest_value in E' as [_ E']. congruence.
  - intros v Hv Hb Hj. rewrite Hl. apply lookup_union_Some_l.
    destruct (decide (v = sender block /\ sender block <> [])) as [[-> Hs]|Hne].
    + unfold sender_latest. rewrite decide_True by done.
      unfold should_add_as_latest. rewrite Hv. apply lookup_union_Some_l, lookup_singleton_eq.
    + rewrite lookup_union_r; [by apply new_latest_lookup|]. apply Hother.
      destruct (decide (sender block = [])); [by right|left]. naive_solver.
Qed.

(** The metadata that a block is stored with. *)
Definition stored_as (block : BlockMessage) (invalid approved : bool) : BlockMetadata :=
  let md := from_block block invalid None None in
  if approved then with_finalized md true f32_one else md.
Definition malformed (block : BlockMessage) : Prop :=
  (sender block <> [] /\ length (sender block) <> VALIDATOR_LENGTH) \/
  length (block_hash block) <> BLOCK_HASH_LENGTH.

Lemma insert_spec s block invalid approved :
  storage_inv s ->
  match insert iter_set debug_block block invalid approved s with
  | (Ok dag, s') =>
    storage_inv s' /\ get_representation (E:=KvStoreError) s' = Ok dag /\
    block_hash block ∈ r_dag_set dag /\
    if decide (block_hash block ∈ dom (metas_of s)) then s' = s
    else metas_of s' = <[block_hash block := stored_as block invalid approved]> (metas_of s) /\
         latest_advance s s' block
  | (Err _, s') => s' = s /\ malformed block
  | (Panic, s') =>
    let st := add_block_to_dag_state (state_of s)
      (block_metadata_to_info (block_hash block) (from_block block invalid None None)) in
    validate_dag_state (E:=unit) st = Panic /\ s' = with_metadata s (mkMetaStore (metas_of s) st)
  end.
Proof.
  intros I. unfold insert. rewrite (ix_set _ _ (si_index _ I)). case_decide as Hin.
  { destruct (representation_total (E:=KvStoreError) s I) as (dag & Hdag & Hset & _).
    rewrite Hdag. split_and!; [done|done|by rewrite Hset|done]. }
  case_decide as Hsd; [split; [done|by left]|]. case_decide as Hlen; [split; [done|by right]|].
  apply not_elem_of_dom in Hin.
  destruct (add_metadata (E:=KvStoreError) (from_block block invalid None None) (block_metadata_index s))
    as [[[]|e|] ms] eqn:Hadd.
  2:{ exfalso. unfold add_metadata, validate_dag_state in Hadd.
      destruct (match get_min _ with Some _ => _ | None => _ end) as [lo hi] in Hadd.
      by destruct (bool_decide _) in Hadd. }
  2:{ unfold add_metadata, validate_dag_state in *.
      destruct (match get_min _ with Some _ => _ | None => _ end) as [lo hi] in *.
      destruct (bool_decide _); [done|]. by injection Hadd as <-. }
  destruct (add_metadata_inv _ (from_block block invalid None None) ms I Hin (fun x => x) Hadd) as [I' Hms].
  change (m_block_hash (from_block block invalid None None)) with (block_hash block) in Hms.
  destruct approved.
  - destruct (record_finalized_spec iter_set iter_perm (block_hash block) ∅ f32_one ms I')
      as (ms' & Hrec & I'' & _ & Hlook); [set_solver| |].
    { intros h [->|?]; [|set_solver]. rewrite Hms, lookup_insert_eq. by eexists. }
    rewrite Hrec. set (s'' := with_metadata _ ms').
    destruct (representation_total (E:=KvStoreError) s'' I'') as (dag & -> & Hset & _).
    assert (meta_store ms' = <[block_hash block := stored_as block invalid true]> (metas_of s)) as HM.
    { apply map_eq. intros h. rewrite Hlook, Hms. destruct (decide (h = block_hash block)) as [->|Hne].
      - rewrite !lookup_insert_eq. cbn. unfold finalize_md. by rewrite decide_True.
      - rewrite !lookup_insert_ne by done. destruct (metas_of s !! h); [|done]. cbn.
        unfold finalize_md. rewrite decide_False by done. by rewrite decide_False by set_solver. }
    split_and!; [done|done| |done|].
    + rewrite Hset. cbn. rewrite HM, dom_insert_L. set_solver.
    + apply (insert_latest s s'' block (from_block block invalid None None)); [done|]. cbn.
      unfold sender_latest. by rewrite Hms.
  - set (s' := mkStorage _ _ _ _ _ _).
    destruct (representation_total (E:=KvStoreError) s' I') as (dag & -> & Hset & _).
    split_and!; [done|done| |done|].
    + rewrite Hset. cbn. rewrite Hms, dom_insert_L. set_solver.
    + apply (insert_latest s s' block (from_block block invalid None None)); [done|]. cbn.
      unfold sender_latest. by rewrite Hms.
Qed.
Lemma insert_inv s block invalid approved :
  storage_inv s -> is_Ok (insert iter_set debug_block block invalid approved s).1 ->
  storage_inv (insert iter_set debug_block block invalid approved s).2.
Proof.
  intros I [dag Hok]. pose proof (insert_spec s block invalid approved I) as Hs.
  destruct (insert _ _ _ _ _ s) as [r s']. cbn in Hok. subst r. apply Hs.
Qed.

(** C17: inserting a block keeps the in-memory maps exact.  A block that is known changes
    nothing, a malformed one is refused and changes nothing; otherwise its metadata are
    stored, finalized if the block is the approved one, those of other blocks stay, and the
    latest messages advance.  The only panic is that of the check of the heights; it leaves the
    stored metadata as they were and the block in the maps. *)
Theorem dag_insert_correct s block invalid approved :
  storage_inv s ->
  match insert iter_set debug_block block invalid approved s with
  | (Ok dag, s') =>
    storage_inv s' /\ get_representation (E:=KvStoreError) s' = Ok dag /\
    block_hash block ∈ r_dag_set dag /\
    if decide (block_hash block ∈ dom (metas_of s)) then s' = s
    else metas_of s' = <[block_hash block := stored_as block invalid approved]> (metas_of s) /\
         latest_advance s s' block
  | (Err _, s') => s' = s /\ malformed block
  | (Panic, s') =>
    let st := add_block_to_dag_state (state_of s)
      (block_metadata_to_info (block_hash block) (from_block block invalid None None)) in
    validate_dag_state (E:=unit) st = Panic /\ s' = with_metadata s (mkMetaStore (metas_of s) st)
  end.
Proof. apply insert_spec. Qed.

(** ** Finalization *)

Abbreviation metadata := (gmap BlockHash BlockMetadata).
Definition finalized_in (M : metadata) (h : BlockHash) : Prop :=
  exists md, M !! h = Some md /\ m_finalized md = true.
#[global] Instance finalized_in_dec M h : Decision (finalized_in M h).
Proof.
  unfold finalized_in. destruct (M !! h) as [md|]; [|right; naive_solver].
  destruct (m_finalized md) eqn:E; [left; eauto|right; naive_solver congruence].
Defined.
(** The parents of the blocks, and those that are not finalized. *)
Definition has_parent (M : metadata) (c p : BlockHash) : Prop :=
  exists md, M !! c = Some md /\ p ∈ m_parents md.
Definition open_parent (M : metadata) (c p : BlockHash) : Prop :=
  has_parent M c p /\ ~ finalized_in M p.
(** The DAG has the parents of all its blocks. *)
Definition complete (M : metadata) : Prop := forall c p, has_parent M c p -> is_Some (M !! p).

Lemma is_finalized_spec {E : Type} s dag h :
  storage_inv s -> get_representation (E:=E) s = Ok dag ->
  is_finalized dag (metas_of s) h = true <-> finalized_in (metas_of s) h.
Proof.
  intros I Hd. destruct (representation_total (E:=E) s I) as (dag' & Hd' & _ & Hf & _).
  rewrite Hd in Hd'. injection Hd' as <-. unfold is_finalized, finalized_in.
  rewrite orb_true_iff, bool_decide_eq_true, Hf. split.
  - intros [Hh|Hm]; [by apply (si_finalized _ I)|]. destruct (metas_of s !! h); [eauto|done].
  - intros (md & -> & ?). by right.
Qed.
Lemma passing_open {E : Type} s dag c p :
  storage_inv s -> get_representation (E:=E) s = Ok dag ->
  passing dag (metas_of s) (fun h => negb (is_finalized dag (metas_of s) h)) c p <->
  open_parent (metas_of s) c p.
Proof.
  intros I Hd. destruct (representation_total (E:=E) s I) as (dag' & Hd' & Hset & _).
  rewrite Hd in Hd'. injection Hd' as <-. unfold passing, parent, open_parent, has_parent, lookup_block.
  rewrite <- (is_finalized_spec s dag p I Hd), negb_true_iff, not_true_iff_false. rewrite Hset.
  split; intros [(md & Hm & Hp) Hf]; (split; [|done]); exists md; (split; [|done]).
  - by case_decide.
  - rewrite decide_True; [done|]. by eapply elem_of_dom_2.
Qed.
Lemma tc_iff {A} (R R' : A -> A -> Prop) x y :
  (forall x y, R x y <-> R' x y) -> tc R x y <-> tc R' x y.
Proof.
  intros HR. split; intros Hc; (induction Hc as [x y Hxy|x y z Hxy _ IH];
    [apply tc_once; by apply HR|eapply tc_l; [by apply HR|done]]).
Qed.
Lemma pending_spec s directly :
  storage_inv s -> complete (metas_of s) -> length directly = BLOCK_HASH_LENGTH ->
  is_Some (metas_of s !! directly) ->
  exists A, (forall h, h ∈ A <-> tc (open_parent (metas_of s)) directly h) /\
    forall applied, pending_effect directly applied s = Ok (({[directly]} ∪ A) ∖ applied).
Proof.
  intros I Hc Hlen Hd. destruct (representation_total (E:=KvStoreError) s I) as (dag & Hdag & Hset & _).
  assert (forall x, tc (passing dag (metas_of s) (fun h => negb (is_finalized dag (metas_of s) h))) directly x <->
    tc (open_parent (metas_of s)) directly x) as Htc.
  { intros x. apply tc_iff. intros c p. by apply (passing_open s dag c p I Hdag). }
  destruct (ancestors_spec dag (metas_of s) (fun h => negb (is_finalized dag (metas_of s) h)) directly
    (S (S (size (r_dag_set dag))))) as (A & HA & Hx); [|lia|].
  { intros x Hx. unfold lookup_block. rewrite Hset.
    enough (is_Some (metas_of s !! x)) as Hs by (by rewrite decide_True by (by apply elem_of_dom)).
    destruct Hx as [->|Hx]; [done|]. apply Htc, tc_last in Hx as (c & Hcp & _). by apply (Hc c). }
  exists A. split; [intros h; by rewrite Hx, Htc|]. intros applied. unfold pending_effect.
  rewrite Hdag. cbn [res_bind].
  assert (dag_contains dag directly = true) as ->.
  { unfold dag_contains. rewrite Hset, bool_decide_eq_true_2 by done.
    by rewrite bool_decide_eq_true_2 by (by apply elem_of_dom). }
  by rewrite HA.
Qed.

Lemma finalized_after M M' directly A ft :
  (forall h, M' !! h = finalize_md directly A ft h <$> M !! h) ->
  is_Some (M !! directly) -> (forall h, h ∈ A -> is_Some (M !! h)) ->
  forall h, finalized_in M' h <-> finalized_in M h \/ h = directly \/ h ∈ A.
Proof.
  intros HM Hd HA h. unfold finalized_in. rewrite HM. split.
  - intros (md & (md0 & Hm & ->)%fmap_Some & Hf). unfold finalize_md in Hf.
    repeat case_decide; eauto.
  - intros Hh. assert (is_Some (M !! h)) as [md Hm].
    { destruct Hh as [(md & Hm & _)|[->|?]]; eauto. }
    rewrite Hm. eexists. split; [done|]. unfold finalize_md. repeat case_decide; [done..|].
    destruct Hh as [(md' & Hm' & ?)|[?|?]]; [congruence|done|done].
Qed.
Lemma propagate_spec s ft :
  storage_inv s -> exists s', propagate_ft_to_finalized_blocks iter_set ft s = (Ok tt, s') /\
    storage_inv s' /\ same_static (metas_of s) (metas_of s') /\
    forall h, finalized_in (metas_of s') h <-> finalized_in (metas_of s) h.
Proof.
  intros I. unfold propagate_ft_to_finalized_blocks.
  destruct (update_ft_spec iter_set iter_perm (finalized_block_set (state_of s)) ft (block_metadata_index s) I)
    as (ms' & -> & I' & _ & HM).
  { intros h (md & Hm & _)%(si_finalized _ I). eauto. }
  eexists. split; [done|]. cbn. split_and!; [done| |].
  - intros h. cbn. rewrite HM. destruct (metas_of s !! h) as [md|]; [|done]. cbn.
    unfold ft_md. by case_decide.
  - intros h. unfold finalized_in. cbn. rewrite HM. split.
    + intros (md & (md0 & Hm & ->)%fmap_Some & Hf). exists md0. split; [done|].
      unfold ft_md in Hf. by case_decide.
    + intros (md & -> & Hf). eexists. split; [done|]. unfold ft_md. by case_decide.
Qed.

Lemma finalized_closed M M' directly :
  same_static M M' ->
  (forall h, finalized_in M' h <-> finalized_in M h \/ h = directly \/ tc (open_parent M) directly h) ->
  (forall c p, finalized_in M c -> has_parent M c p -> finalized_in M p) ->
  (forall c p, finalized_in M' c -> has_parent M' c p -> finalized_in M' p) /\
  forall h, tc (has_parent M) directly h -> finalized_in M' h.
Proof.
  intros Hst Hiff Hclosed.
  assert (forall c p, finalized_in M' c -> has_parent M c p -> finalized_in M' p) as Hstep.
  { intros c p Hc Hp. apply Hiff. destruct (decide (finalized_in M p)) as [?|Hn]; [by left|right; right].
    apply Hiff in Hc as [Hc|[->|Hc]]; [by destruct Hn; apply (Hclosed c)|by apply tc_once|].
    eapply tc_r; [done|]. by split. }
  split.
  - intros c p Hc (md & Hm & Hp). apply (Hstep c); [done|].
    destruct (same_static_lookup M' M c md) as (md' & Hm' & E); [by apply same_static_sym|done|].
    exists md'. injection E as -> _ _ _ _. done.
  - intros h Hh. assert (forall x, tc (has_parent M) x h -> finalized_in M' x -> finalized_in M' h) as Hall.
    { clear Hh. intros x Hx. induction Hx as [x y Hxy|x y z Hxy _ IH]; intros Hf; [by apply (Hstep x)|].
      apply IH. by apply (Hstep x). }
    apply (Hall directly Hh). apply Hiff. auto.
Qed.
(** C16: [record_directly_finalized] finalizes a block of a complete DAG and exactly those
    ancestors that a chain of blocks that were not finalized leads to, if its effect succeeds
    and leaves the metadata alone.  So if the parents of finalized blocks were finalized they
    still are, and all ancestors of the block are finalized. *)
Theorem finalization_exact s directly ft effect :
  storage_inv s -> complete (metas_of s) -> length directly = BLOCK_HASH_LENGTH ->
  is_Some (metas_of s !! directly) ->
  (forall p s, exists s', effect p s = (Ok tt, s') /\ block_metadata_index s' = block_metadata_index s) ->
  exists s', record_directly_finalized iter_set directly ft effect s = (Ok tt, s') /\
    storage_inv s' /\ same_static (metas_of s) (metas_of s') /\
    (forall h, finalized_in (metas_of s') h <->
       finalized_in (metas_of s) h \/ h = directly \/ tc (open_parent (metas_of s)) directly h) /\
    ((forall c p, finalized_in (metas_of s) c -> has_parent (metas_of s) c p -> finalized_in (metas_of s) p) ->
     (forall c p, finalized_in (metas_of s') c -> has_parent (metas_of s') c p -> finalized_in (metas_of s') p) /\
     forall h, tc (has_parent (metas_of s)) directly h -> finalized_in (metas_of s') h).
Proof.
  intros I Hc Hlen Hd Heff. destruct (pending_spec s directly I Hc Hlen Hd) as (A & HA & Hpend).
  assert (forall h, h ∈ A -> is_Some (metas_of s !! h)) as HAs.
  { intros h (c & Hcp & _)%HA%tc_last. by apply (Hc c). }
  unfold record_directly_finalized, MAX_FINALIZATION_RECONCILE_LOOPS.
  change 128 with (S (S 126)). generalize 126. intros n.
  cbn [finalization_loop]. unfold try_bind at 1, gets at 1. rewrite Hpend. cbv beta iota.
  rewrite decide_False by set_solver.
  destruct (Heff (({[directly]} ∪ A) ∖ ∅) s) as (s1 & -> & Hs1).
  assert (metas_of s1 = metas_of s) as HM1 by (by rewrite Hs1).
  assert (storage_inv s1) as I1 by (unfold storage_inv; by rewrite Hs1).
  destruct (pending_spec s1 directly) as (A1 & HA1 & Hpend1);
    [done|by rewrite HM1|done|by rewrite HM1|].
  assert (A1 = A) as ->. { apply set_eq. intros h. by rewrite HA1, HA, HM1. }
  unfold try_bind at 1, gets at 1. rewrite Hpend1. cbv beta iota. rewrite decide_True by set_solver.
  unfold try_bind at 1. unfold persist_effect_applied. cbn [negb andb].
  assert ((∅ ∪ ({[directly]} ∪ A) ∖ ∅) ∖ {[directly]} = A ∖ {[directly]}) as -> by set_solver.
  destruct (record_finalized_spec iter_set iter_perm directly (A ∖ {[directly]}) ft (block_metadata_index s1) I1)
    as (ms2 & -> & I2 & _ & HM2); [set_solver| |].
  { rewrite HM1. intros h [->|?]; [done|apply HAs; set_solver]. }
  cbv beta iota. set (s2 := with_metadata s1 ms2).
  destruct (propagate_spec s2 ft I2) as (s' & -> & I' & Hst & Hfin). exists s'.
  assert (same_static (metas_of s) (metas_of s')) as Hstatic.
  { intros h. rewrite <- (Hst h). cbn. rewrite HM2, HM1. destruct (metas_of s !! h) as [md|]; [|done].
    cbn. by destruct (finalize_md_static directly (A ∖ {[directly]}) ft h md) as [-> _]. }
  assert (forall h, finalized_in (metas_of s') h <->
    finalized_in (metas_of s) h \/ h = directly \/ tc (open_parent (metas_of s)) directly h) as Hiff.
  { intros h. rewrite Hfin, (finalized_after (metas_of s) (metas_of s2) directly (A ∖ {[directly]}) ft).
    - rewrite <- HA, elem_of_difference, elem_of_singleton.
      destruct (decide (h = directly)); tauto.
    - intros k. cbn. by rewrite HM2, HM1.
    - done.
    - intros k [Hk _]%elem_of_difference. by apply HAs. }
  split_and!; [done|done|done|done|]. intros Hclosed. apply (finalized_closed (metas_of s) _ directly); done.
Qed.
End storage.
