(* ===== verification/BlockDagExamples.v ===== *)
(** * A small block DAG

    A chain of three blocks, the first of them approved: the theorems on the block DAG apply
    to it. *)
From S2P Require Import Prelude HotStoreSig HistoryRepo CasperMessage BlockDag BlockDagThms.
From S2P Require Import BlockDagWalk BlockDagFinal.

Definition empty_storage : BlockDagKeyValueStorage :=
  mkStorage ∅ (mkMetaStore ∅ DagState_new) ∅ ∅ ∅ 0.
Lemma empty_storage_inv : storage_inv empty_storage.
Proof.
  split; cbn.
  - intros h md. by rewrite lookup_empty.
  - apply indexes_empty.
  - done.
  - set_solver.
  - exists [], 0%Z. auto.
Qed.

(** A result is checked by evaluation. *)
Definition is_okb {E A} (r : res E A) : bool := match r with Ok _ => true | _ => false end.
Lemma is_ok_true {E A} (r : res E A) : is_okb r = true -> is_Ok r.
Proof. destruct r; [by eexists|done..]. Qed.

Module Chain.
Definition hash (b : byte) : BlockHash := replicate 32 b.
Definition alice : Validator := replicate 65 xaa.
Definition block (b : byte) (from : Validator) (parents : list BlockHash) (n seq : Z) : BlockMessage :=
  mkBlock (hash b) (mkHead parents 0 1 [])
    (mkBlockBody (mkF1r3flyState [] [] [mkBonded alice 100] n) [] [] [] [])
    [] from seq [] EmptyString EmptyString [].
Definition genesis := block x01 [] [] 0 0.
Definition first := block x02 alice [hash x01] 1 1.
Definition second := block x03 alice [hash x02] 2 2.
Definition iter : gset BlockHash -> list BlockHash := elements.
Definition no_debug (b : BlockMessage) : string := "block".
Definition ins b approved s := (insert iter no_debug b false approved s).2.
Definition s1 := ins genesis true empty_storage.
Definition s2 := ins first false s1.
Definition s3 := ins second false s2.

Lemma iter_perm s : iter s ≡ₚ elements s.
Proof. done. Qed.
Lemma s1_inv : storage_inv s1.
Proof.
  apply (insert_inv iter iter_perm no_debug empty_storage genesis false true empty_storage_inv).
  by apply is_ok_true; vm_compute.
Qed.
Lemma s2_inv : storage_inv s2.
Proof. apply (insert_inv iter iter_perm no_debug s1 first false false s1_inv). by apply is_ok_true; vm_compute. Qed.
Lemma s3_inv : storage_inv s3.
Proof. apply (insert_inv iter iter_perm no_debug s2 second false false s2_inv). by apply is_ok_true; vm_compute. Qed.

(** The DAG has all parents. *)
Lemma complete_check (M : gmap BlockHash BlockMetadata) :
  forallb (fun '(_, md) => forallb (fun p => bool_decide (is_Some (M !! p))) (m_parents md)) (map_to_list M) = true ->
  complete M.
Proof.
  intros Hb c p (md & Hm & Hp). rewrite forallb_forall in Hb.
  specialize (Hb (c, md)). rewrite forallb_forall in Hb.
  assert (bool_decide (is_Some (M !! p)) = true) as Hx%bool_decide_eq_true; [|done].
  apply Hb; apply list_elem_of_In; [by apply elem_of_map_to_list|done].
Qed.
Lemma s3_complete : complete (metas_of s3).
Proof. apply complete_check. by vm_compute. Qed.

Lemma dag_insert_correct_witness :
  storage_inv s2 /\ is_okb (insert iter no_debug second false false s2).1 = true /\
  storage_inv (insert iter no_debug second false false s2).2.
Proof.
  split; [exact s2_inv|].
  pose proof (dag_insert_correct iter iter_perm no_debug s2 second false false s2_inv) as H.
  assert (is_okb (insert iter no_debug second false false s2).1 = true) as Hok by (by vm_compute).
  destruct (insert iter no_debug second false false s2) as [[dag|e|] s]; cbn in Hok |- *; [|done..].
  split; [done|apply H].
Defined.

Definition quiet (p : gset BlockHash) (s : BlockDagKeyValueStorage) : res KvStoreError unit * BlockDagKeyValueStorage :=
  (Ok tt, s).
Lemma hash_length b : length (hash b) = BLOCK_HASH_LENGTH.
Proof. done. Qed.
Lemma finalization_exact_witness :
  exists s', record_directly_finalized iter (hash x03) f32_one quiet s3 = (Ok tt, s') /\
    finalized_in (metas_of s') (hash x02).
Proof.
  destruct (finalization_exact iter iter_perm s3 (hash x03) f32_one quiet s3_inv s3_complete (hash_length x03))
    as (s' & Hs' & _ & _ & Hiff & _).
  - apply (bool_decide_unpack _). by vm_compute.
  - intros p s. by exists s.
  - exists s'. split; [exact Hs'|]. apply Hiff. right. right. apply tc_once. split.
    + assert (m_parents <$> metas_of s3 !! hash x03 = Some [hash x02]) as Hx by (by vm_compute).
      apply fmap_Some in Hx as (md & Hm & Hp). exists md. split; [exact Hm|]. rewrite <- Hp. left.
    + intros (md & Hm & Hf). assert (m_finalized <$> metas_of s3 !! hash x02 = Some false) as Hx by (by vm_compute).
      rewrite Hm in Hx. cbn in Hx. congruence.
Defined.

Lemma dag_restart_equivalence_witness :
  exists ms', BlockMetadataStore_new (E:=KvStoreError) map_to_list (metas_of s3) = Ok ms' /\
    dag_maps (dag_state ms') = dag_maps (state_of s3).
Proof.
  destruct (dag_restart_equivalence (block_metadata_index s3) map_to_list s3_inv
    (Permutation_refl _)) as (ms' & H1 & _ & H2).
  exists ms'. exact (conj H1 H2).
Defined.

Definition dag3 : KeyValueDagRepresentation :=
  match get_representation (E:=KvStoreError) s3 with Ok d => d | _ => mkDag ∅ ∅ ∅ ∅ ∅ ∅ ∅ [] [] ∅ end.
Lemma dag3_set : r_dag_set dag3 = dom (metas_of s3).
Proof. apply (bool_decide_unpack _). by vm_compute. Qed.
Lemma numbered_check (dag : KeyValueDagRepresentation) :
  forallb (fun '(h, p) =>
    match r_block_number_map dag !! p, r_block_number_map dag !! h with
    | Some n, Some m => bool_decide (n < m)%Z | _, _ => false end)
    (map_to_list (r_main_parent_map dag)) = true -> numbered dag.
Proof.
  intros Hb h p Hp. unfold main_edge, main_parent in Hp. rewrite forallb_forall in Hb.
  assert (In (h, p) (map_to_list (r_main_parent_map dag))) as Hin
    by (by apply list_elem_of_In, elem_of_map_to_list).
  specialize (Hb _ Hin). cbv beta iota in Hb.
  destruct (r_block_number_map dag !! p) as [n|] eqn:Hn, (r_block_number_map dag !! h) as [m|] eqn:Hm; try done.
  exists n, m. split_and!; [done..|]. by eapply bool_decide_eq_true.
Qed.
Lemma dag3_numbered : numbered dag3.
Proof. apply numbered_check. by vm_compute. Qed.
Lemma dag_walks_correct_witness :
  (exists D, descendants dag3 10 (hash x03) = Some D) /\
  exists b, is_in_main_chain dag3 10 (hash x01) (hash x03) = Some (Ok b) /\
    (b = true <-> rtc (main_edge dag3) (hash x03) (hash x01)).
Proof.
  destruct (dag_walks_correct dag3 (metas_of s3) (fun _ => true) (hash x03) (hash x01) 0 2 10)
    as ((D & HD & _) & _ & Hb).
  - apply (bool_decide_unpack _). by vm_compute.
  - apply (bool_decide_unpack _). by vm_compute.
  - lia.
  - intros x Hx. unfold lookup_block. rewrite dag3_set.
    enough (is_Some (metas_of s3 !! x)) as Hs by (by rewrite decide_True by (by apply elem_of_dom)).
    destruct Hx as [->|Hx]; [apply (bool_decide_unpack _); by vm_compute|].
    apply tc_last in Hx as (c & (md & Hm & Hp) & _). apply (s3_complete c). exists md. split; [|done].
    unfold lookup_block in Hm. by case_decide.
  - exact dag3_numbered.
  - by vm_compute.
  - by vm_compute.
  - split; [by exists D|exact Hb].
Defined.
End Chain.
