(* ===== verification/CliqueThms.v ===== *)
(** * The clique search is exact

    [find_maximum_clique_by_weight] returns the greatest weight of a clique, for every iteration
    order of the hash sets.  The search visits maximal cliques only, leaves out the neighbours
    of the pivot and branches that cannot win; none of this loses a clique of greatest weight. *)
From S2P Require Import Prelude Clique.
Open Scope Z_scope.

(** ** Weights of sets *)
Section weights.
Context {A : Type} `{Countable A} (weights : gmap A Z).

Definition total (l : list A) : Z := foldr Z.add 0 (weight_of weights <$> l).
Definition weight (s : gset A) : Z := total (elements s).

#[global] Instance total_perm : Proper ((≡ₚ) ==> (=)) total.
Proof. unfold total. induction 1; csimpl; try lia. Qed.

Lemma weight_empty : weight ∅ = 0.
Proof. unfold weight. by rewrite elements_empty. Qed.
Lemma weight_insert v s : v ∉ s -> weight ({[v]} ∪ s) = weight_of weights v + weight s.
Proof. intros Hv. unfold weight. rewrite (elements_union_singleton s v) by done. done. Qed.
Lemma weight_disj_union s t : s ## t -> weight (s ∪ t) = weight s + weight t.
Proof.
  revert t. induction s as [|v s Hv IH] using set_ind_L; intros t Hd.
  { by rewrite (left_id_L ∅ (∪)), weight_empty. }
  rewrite <-(assoc_L (∪)), !weight_insert by set_solver. rewrite IH by set_solver. lia.
Qed.

Hypothesis nonneg : forall v, 0 <= weight_of weights v.

Lemma weight_nonneg s : 0 <= weight s.
Proof.
  induction s as [|v s Hv IH] using set_ind_L; [by rewrite weight_empty|].
  rewrite weight_insert by done. pose proof (nonneg v). lia.
Qed.
Lemma weight_mono s t : s ⊆ t -> weight s <= weight t.
Proof.
  intros Hs. rewrite (union_difference_L s t Hs), weight_disj_union by set_solver.
  pose proof (weight_nonneg (t ∖ s)). lia.
Qed.
Lemma weight_insert_le v s t : v ∈ t -> v ∉ s -> s ⊆ t -> weight_of weights v + weight s <= weight t.
Proof. intros Hv Hn Hs. rewrite <-weight_insert by done. apply weight_mono. set_solver. Qed.

Lemma sum_i64_exact l a :
  0 <= a -> a + total l <= i64_max ->
  foldl (fun a b => wrap_i64 (a + b)) a (weight_of weights <$> l) = a + total l.
Proof.
  revert a. induction l as [|v l IH]; intros a Ha Hle; csimpl; [unfold total; simpl; lia|].
  unfold total in *. csimpl in *. pose proof (nonneg v).
  assert (0 <= foldr Z.add 0 (weight_of weights <$> l)) as Hl.
  { clear -nonneg. induction l as [|w l IH]; csimpl; [lia|]. pose proof (nonneg w). lia. }
  rewrite wrap_i64_id; [rewrite IH; lia|]. unfold i64_range, i64_min, i64_max in *. lia.
Qed.
End weights.

(** ** Cliques *)
Section graph.
Context {A : Type} `{Countable A}.

Definition adjacent (adj : gmap A (gset A)) (u v : A) : Prop := v ∈ neighbors adj u.
#[global] Instance adjacent_dec adj u v : Decision (adjacent adj u v).
Proof. unfold adjacent. apply _. Defined.
Definition is_clique (adj : gmap A (gset A)) (s : gset A) : Prop :=
  forall u v, u ∈ s -> v ∈ s -> u <> v -> adjacent adj u v.
(** Nothing of [u] can be added to [s]. *)
Definition maximal (adj : gmap A (gset A)) (u s : gset A) : Prop :=
  forall v, v ∈ u -> v ∉ s -> exists w, w ∈ s /\ ~ adjacent adj v w.

Record graph_ok (adj : gmap A (gset A)) : Prop := {
  adj_sym : forall u v, adjacent adj u v -> adjacent adj v u;
  adj_irrefl : forall v, ~ adjacent adj v v;
}.

Lemma get_adj_spec (e : list (A * A)) u v :
  adjacent (get_adj e) u v <-> u <> v /\ ((u, v) ∈ e \/ (v, u) ∈ e).
Proof.
  unfold adjacent, neighbors, get_adj.
  set (es := e ≫= _). assert (forall u v, (u, v) ∈ es <-> (u, v) ∈ e \/ (v, u) ∈ e) as Hes.
  { intros a b. subst es. rewrite list_elem_of_bind. split.
    - intros ([x y] & Hin & He). simpl in Hin. apply elem_of_cons in Hin as [[= -> ->]|Hin]; [by left|].
      apply list_elem_of_singleton in Hin as [= -> ->]. by right.
    - intros [Hin|Hin]; eexists; (split; [|exact Hin]); [by left|right; by left]. }
  assert (forall l (m : gmap A (gset A)), v ∈ default ∅ (foldl (fun m '(src, dst) =>
      <[src := {[dst]} ∪ default ∅ (m !! src)]> m) m l !! u) <->
      v ∈ default ∅ (m !! u) \/ (u, v) ∈ l) as Hfold.
  { clear. induction l as [|[src dst] l IH]; intros m; simpl.
    - split; [by left|]. intros [?|Hin]; [done|]. by apply elem_of_nil in Hin.
    - rewrite IH, elem_of_cons. destruct (decide (src = u)) as [->|Hne].
      + rewrite lookup_insert_eq. simpl. rewrite elem_of_union, elem_of_singleton. naive_solver.
      + rewrite lookup_insert_ne by done. naive_solver. }
  rewrite Hfold, lookup_empty. simpl. rewrite list_elem_of_filter, Hes. simpl. set_solver.
Qed.

Lemma get_adj_ok e : graph_ok (get_adj e).
Proof. split; intros *; rewrite ?get_adj_spec; naive_solver. Qed.

Lemma get_node_set_spec (e : list (A * A)) v :
  v ∈ get_node_set e <-> exists u, (u, v) ∈ e \/ (v, u) ∈ e.
Proof.
  unfold get_node_set. rewrite elem_of_list_to_set, list_elem_of_bind. split.
  - intros ([x y] & Hin & He). simpl in Hin. apply elem_of_cons in Hin as [->|Hin]; [exists y; by right|].
    apply list_elem_of_singleton in Hin as ->. exists x. by left.
  - intros (u & [Hin|Hin]); eexists; (split; [|exact Hin]); [right; by left|by left].
Qed.

(** Every clique is part of a maximal one. *)
Lemma clique_extends adj u s :
  graph_ok adj -> s ⊆ u -> is_clique adj s ->
  exists t, s ⊆ t /\ t ⊆ u /\ is_clique adj t /\ maximal adj u t.
Proof.
  intros Hg. remember (size (u ∖ s)) as n eqn:Hn. revert s Hn.
  induction (lt_wf n) as [n _ IH]. intros s -> Hs Hc.
  destruct (decide (set_Exists (fun v => v ∉ s /\ set_Forall (adjacent adj v) s) u)) as [Hex|Hno].
  - destruct Hex as (v & Hv & Hns & Hadj).
    destruct (IH (size (u ∖ ({[v]} ∪ s)))) with (s := {[v]} ∪ s) as (t & ? & ? & ? & ?).
    + apply subset_size. set_solver.
    + done.
    + set_solver.
    + intros a b Ha Hb Hne. apply elem_of_union in Ha, Hb. rewrite !elem_of_singleton in Ha, Hb.
      destruct Ha as [->|Ha], Hb as [->|Hb]; [done|by apply Hadj|apply Hg; by apply Hadj|by apply Hc].
    + exists t. split_and!; [set_solver|done..].
  - exists s. split_and!; [done..|]. intros v Hv Hns.
    destruct (decide (set_Exists (fun w => ~ adjacent adj v w) s)) as [(w & Hw & Ha)|Hnone].
    + by exists w.
    + exfalso. apply Hno. exists v. split_and!; [done..|]. intros w Hw.
      destruct (decide (adjacent adj v w)); [done|]. exfalso. apply Hnone. by exists w.
Qed.
End graph.

(** ** The search *)
Section search.
Context {A : Type} `{Countable A} (iter : gset A -> list A).
Context (adj : gmap A (gset A)) (weights : gmap A Z).
Hypothesis iter_perm : forall s, iter s ≡ₚ elements s.
Hypothesis adj_ok : graph_ok adj.
Hypothesis nonneg : forall v, 0 <= weight_of weights v.

(** [best'] is a best weight after the cliques of [p] that are maximal in [u] were tried, each
    with [w] added: it does not lose any of them, and it is the weight of one unless it
    is the old one. *)
Record searched (w : Z) (p u : gset A) (best best' : Z) : Prop := {
  se_mono : best <= best';
  se_sound : best' = best \/ exists s, s ⊆ p /\ is_clique adj s /\ w + weight weights s = best';
  se_complete : forall s, s ⊆ p -> is_clique adj s -> maximal adj u s -> w + weight weights s <= best';
}.

Lemma clique_subset s t : s ⊆ t -> is_clique adj t -> is_clique adj s.
Proof. intros Hs Ht u v Hu Hv. apply Ht; set_solver. Qed.

Lemma clique_insert v s :
  is_clique adj s -> s ⊆ neighbors adj v -> is_clique adj ({[v]} ∪ s).
Proof.
  intros Hc Hs a b Ha Hb Hne. apply elem_of_union in Ha, Hb. rewrite !elem_of_singleton in Ha, Hb.
  destruct Ha as [->|Ha], Hb as [->|Hb]; [done|by apply Hs|by apply adj_ok, Hs|by apply Hc].
Qed.

Lemma not_self_neighbor v : v ∉ neighbors adj v.
Proof. apply (adj_irrefl _ adj_ok). Qed.

(** The clique [s] that contains [v], without [v]. *)
Lemma maximal_without v s p x :
  v ∈ s -> is_clique adj s -> maximal adj (p ∪ x) s ->
  maximal adj (p ∩ neighbors adj v ∪ x ∩ neighbors adj v) (s ∖ {[v]}).
Proof.
  intros Hv Hc Hm u Hu Hnu. assert (u ∈ neighbors adj v) as Huv by set_solver.
  assert (u <> v) as Hne by (intros ->; by apply not_self_neighbor in Huv).
  destruct (Hm u) as (w & Hw & Hnadj); [set_solver|set_solver|].
  exists w. split; [|done]. apply elem_of_difference. split; [done|].
  rewrite elem_of_singleton. intros ->. apply Hnadj. by apply adj_ok.
Qed.

Lemma visit_spec expand w p c cp cx best :
  (forall v cp' cx' best, v ∈ cp' -> cp' ⊆ p -> 0 <= best -> exists best',
     expand v (cp' ∩ neighbors adj v) (cx' ∩ neighbors adj v) best = Some best' /\
     searched (w + weight_of weights v) (cp' ∩ neighbors adj v)
       (cp' ∩ neighbors adj v ∪ cx' ∩ neighbors adj v) best best') ->
  NoDup c -> (forall v, v ∈ c -> v ∈ cp) -> cp ⊆ p -> 0 <= best ->
  exists best', visit expand adj c cp cx best = Some best' /\ best <= best' /\
    (best' = best \/ exists s, s ⊆ cp /\ is_clique adj s /\ w + weight weights s = best') /\
    forall s, s ⊆ cp -> is_clique adj s -> maximal adj (cp ∪ cx) s -> (exists v, v ∈ c /\ v ∈ s) ->
      w + weight weights s <= best'.
Proof.
  intros Hexp. revert cp cx best. induction c as [|v c IH]; intros cp cx best Hnd Hin Hsub Hb; simpl.
  { exists best. split_and!; [done|lia|by left|]. by intros s _ _ _ (v & ?%elem_of_nil & _). }
  apply NoDup_cons in Hnd as [Hv Hnd]. assert (v ∈ cp) as Hvp by (apply Hin; by left).
  destruct (Hexp v cp cx best Hvp Hsub Hb) as (b1 & -> & [Hm1 Hs1 Hc1]). simpl.
  destruct (IH (cp ∖ {[v]}) ({[v]} ∪ cx) b1) as (b2 & -> & Hm2 & Hs2 & Hc2).
  { done. }
  { intros u Hu. apply elem_of_difference. split; [apply Hin; by right|]. set_solver. }
  { set_solver. }
  { lia. }
  pose proof (not_self_neighbor v) as Hself.
  exists b2. split_and!; [done|lia| |].
  - destruct Hs2 as [->|(s & Hs & Hcl & Hw)].
    + destruct Hs1 as [->|(s & Hs & Hcl & Hw)]; [by left|]. right. exists ({[v]} ∪ s).
      split_and!; [set_solver|apply clique_insert; [done|set_solver]|].
      rewrite weight_insert by set_solver. lia.
    + right. exists s. split_and!; [set_solver|done..].
  - intros s Hs Hcl Hmax (u & Hu & Hus). destruct (decide (v ∈ s)) as [Hvs|Hvs].
    + assert (s = {[v]} ∪ s ∖ {[v]}) as Heq by (apply union_difference_singleton_L; done).
      rewrite Heq, weight_insert by set_solver.
      assert (s ∖ {[v]} ⊆ cp ∩ neighbors adj v) as Hsub'.
      { intros a Ha. apply elem_of_difference in Ha as [Ha Hav]. apply elem_of_intersection.
        split; [set_solver|]. apply Hcl; [done|done|set_solver]. }
      specialize (Hc1 (s ∖ {[v]}) Hsub').
      assert (is_clique adj (s ∖ {[v]})) as Hcl' by (eapply clique_subset; [|done]; set_solver).
      specialize (Hc1 Hcl' (maximal_without v s cp cx Hvs Hcl Hmax)). lia.
    + apply Hc2; [set_solver|done| |].
      * intros a Ha. apply Hmax. set_solver.
      * exists u. split; [|done]. apply elem_of_cons in Hu as [->|?]; done.
Qed.

Lemma max_by_key_elem {X} (key : X -> nat) (l : list X) : l <> [] -> exists v, max_by_key key l = Some v /\ v ∈ l.
Proof.
  intros Hne. unfold max_by_key. destruct l as [|x l]; [done|]. simpl. clear Hne.
  assert (exists v, foldl (fun best v => match best with None => Some v | Some b =>
    if decide (key b <= key v)%nat then Some v else Some b end) (Some x) l = Some v /\ (v = x \/ v ∈ l))
    as (v & Hv & Hin); [|exists v; split; [done|by apply elem_of_cons]].
  revert x. induction l as [|y l IH]; intros x; simpl; [by exists x; split; [|left]|].
  case_decide; [destruct (IH y) as (v & ? & [->|?])|destruct (IH x) as (v & ? & [->|?])];
    eexists; (split; [done|]); rewrite ?elem_of_cons; auto.
Qed.

Lemma iter_elem s v : v ∈ iter s <-> v ∈ s.
Proof. by rewrite iter_perm, elem_of_elements. Qed.

Lemma remaining_exact p : weight weights p <= i64_max -> sum_i64 (weight_of weights <$> iter p) = weight weights p.
Proof.
  intros Hle. unfold sum_i64, weight in *. rewrite <-(total_perm weights _ _ (iter_perm p)) in Hle |- *.
  rewrite (sum_i64_exact weights nonneg); lia.
Qed.

Lemma expand_total fuel ans w p x best :
  (size p < fuel)%nat -> 0 <= w -> w + weight weights p <= i64_max -> 0 <= best -> (ans = [] -> w = 0) ->
  exists best', expand_max_weight iter fuel adj weights ans w p x best = Some best' /\
    searched w p (p ∪ x) best best'.
Proof.
  revert ans w p x best. induction fuel as [|fuel IH]; intros ans w p x best Hf Hw Hle Hb Hans; [lia|].
  pose proof (weight_nonneg weights nonneg p) as Hp0. cbn [expand_max_weight].
  destruct (decide (p = ∅ /\ x = ∅)) as [[-> ->]|Hne].
  { eexists. split; [done|]. split.
    - case_decide; lia.
    - case_decide; [|by left]. right. exists ∅. rewrite weight_empty. split_and!; [done|by intros a b []%elem_of_empty|lia].
    - intros s Hs _ _. assert (s = ∅) as -> by set_solver. rewrite weight_empty.
      case_decide as Hd; [lia|]. destruct (decide (ans = [])) as [->|Hn]; [rewrite Hans by done; lia|].
      apply not_and_l in Hd as [?|?]; [done|lia]. }
  destruct (decide (p = ∅)) as [->|Hp].
  { exists best. split; [done|]. split; [lia|by left|]. intros s Hs _ Hmax.
    destruct (set_choose_L x) as [v Hv]; [naive_solver|].
    destruct (Hmax v) as (u & Hu & _); set_solver. }
  rewrite remaining_exact by lia.
  rewrite (wrap_i64_id (w + _)) by (unfold i64_range, i64_min, i64_max in *; lia).
  case_decide as Hprune.
  { exists best. split; [done|]. split; [lia|by left|]. intros s Hs _ _.
    pose proof (weight_mono weights nonneg s p Hs). lia. }
  destruct (max_by_key_elem (fun v => size (p ∩ neighbors adj v)) (iter (p ∪ x))) as (pivot & -> & Hpiv).
  { intros Hnil. destruct (set_choose_L p Hp) as [v Hv].
    assert (v ∈ iter (p ∪ x)) as Hin by (apply iter_elem; set_solver). rewrite Hnil in Hin.
    by apply elem_of_nil in Hin. }
  apply iter_elem in Hpiv. simpl.
  destruct (visit_spec (fun v => expand_max_weight iter fuel adj weights (ans ++ [v])
    (wrap_i64 (w + weight_of weights v))) w p (iter (p ∖ neighbors adj pivot)) p x best)
    as (best' & Hvis & Hmono & Hsound & Hcomp).
  - intros v cp' cx' b Hv Hcp Hb0. pose proof (nonneg v). pose proof (not_self_neighbor v) as Hself.
    assert (weight_of weights v + weight weights (cp' ∩ neighbors adj v) <= weight weights p) as Hwv.
    { apply weight_insert_le; [done|set_solver..]. }
    pose proof (weight_nonneg weights nonneg (cp' ∩ neighbors adj v)).
    rewrite (wrap_i64_id (w + _)) by (unfold i64_range, i64_min, i64_max in *; lia).
    apply IH; [|lia|lia|done|].
    + assert (cp' ∩ neighbors adj v ⊂ p) as Hss%subset_size; [|lia]. set_solver.
    + intros Hnil. by destruct ans.
  - rewrite iter_perm. apply NoDup_elements.
  - intros v Hv%iter_elem. set_solver.
  - done.
  - done.
  - exists best'. split; [done|]. split; [done|done|]. intros s Hs Hcl Hmax.
    apply Hcomp; [done..|].
    destruct (decide (set_Exists (fun v => ~ adjacent adj pivot v) s)) as [(v & Hv & Hadj)|Hall].
    + exists v. split; [|done]. apply iter_elem, elem_of_difference. split; [by apply Hs|done].
    + exfalso. assert (forall v, v ∈ s -> adjacent adj pivot v) as Hadj.
      { intros v Hv. destruct (decide (adjacent adj pivot v)); [done|]. exfalso. apply Hall. by exists v. }
      destruct (Hmax pivot Hpiv) as (v & Hv & Hn); [|by apply Hn, Hadj].
      intros Hin. by apply (adj_irrefl _ adj_ok pivot), Hadj.
Qed.
End search.

Section theorem.
Context {A : Type} `{Countable A} (iter : gset A -> list A).
Hypothesis iter_perm : forall s, iter s ≡ₚ elements s.

(** The vertices: those of the edges and those that have a weight *)
Definition vertices (edges : list (A * A)) (weights : gmap A Z) : gset A :=
  get_node_set edges ∪ dom weights.

Lemma max_value_spec (weights : gmap A Z) :
  (forall v, 0 <= weight_of weights v) ->
  0 <= max_value weights /\ (forall v, weight_of weights v <= max_value weights) /\
  ((weights = ∅ /\ max_value weights = 0) \/
   exists v, v ∈ dom weights /\ max_value weights = weight_of weights v).
Proof.
  intros Hnn. unfold max_value.
  assert (forall l w, w <= foldl Z.max w l /\ (forall x, x ∈ l -> x <= foldl Z.max w l) /\
    (foldl Z.max w l = w \/ foldl Z.max w l ∈ l)) as Hfold.
  { induction l as [|y l IH]; intros w; simpl.
    - split_and!; [lia|by intros x ?%elem_of_nil|by left].
    - destruct (IH (Z.max w y)) as (H1 & H2 & H3). split_and!; [lia| |].
      + intros x [->|Hx]%elem_of_cons; [lia|by apply H2].
      + destruct H3 as [->|H3]; [|right; by right]. destruct (Z.max_spec w y) as [[_ ->]|[_ ->]];
          [right; by left|by left]. }
  assert (forall v w, weights !! v = Some w -> w ∈ (map_to_list weights).*2) as Hin.
  { intros v w Hv. apply list_elem_of_fmap. exists (v, w). split; [done|]. by apply elem_of_map_to_list. }
  assert (forall w, w ∈ (map_to_list weights).*2 -> exists v, v ∈ dom weights /\ w = weight_of weights v) as Hout.
  { intros w ([v w'] & -> & Hv%elem_of_map_to_list)%list_elem_of_fmap. exists v.
    split; [by apply elem_of_dom_2 in Hv|]. unfold weight_of. by rewrite Hv. }
  destruct ((map_to_list weights).*2) as [|w l] eqn:Hl.
  - assert (weights = ∅) as -> by (apply map_to_list_empty_iff; by apply fmap_nil_inv in Hl).
    split_and!; [lia| |by left]. intros v. unfold weight_of. by rewrite lookup_empty.
  - destruct (Hfold l w) as (H1 & H2 & H3).
    assert (exists v, v ∈ dom weights /\ foldl Z.max w l = weight_of weights v) as (v & Hv & Heq).
    { destruct H3 as [->|H3]; apply Hout; [by left|by right]. }
    split_and!; [rewrite Heq; apply Hnn| |right; by exists v].
    intros u. unfold weight_of at 1. destruct (weights !! u) as [wu|] eqn:Hu; simpl.
    + apply Hin in Hu. apply elem_of_cons in Hu as [->|Hu]; [lia|by apply H2].
    + rewrite Heq. apply Hnn.
Qed.

Lemma clique_exact edges (weights : gmap A Z) fuel :
  (forall v, 0 <= weight_of weights v) -> weight weights (get_node_set edges) <= i64_max ->
  (size (get_node_set edges) < fuel)%nat ->
  exists w, find_maximum_clique_by_weight iter fuel edges weights = Some w /\
    (exists s, s ⊆ vertices edges weights /\ is_clique (get_adj edges) s /\ weight weights s = w) /\
    (forall s, s ⊆ vertices edges weights -> is_clique (get_adj edges) s -> weight weights s <= w).
Proof.
  intros Hnn Hle Hf. destruct (max_value_spec weights Hnn) as (Hm0 & Hmax & Hmv).
  assert (forall v : A, is_clique (get_adj edges) {[v]}) as Hsingle by (intros v a b ->%elem_of_singleton ->%elem_of_singleton; done).
  assert (forall v, weight weights {[v]} = weight_of weights v) as Hw1.
  { intros v. replace ({[v]} : gset A) with ({[v]} ∪ ∅ : gset A) by set_solver.
    rewrite weight_insert, weight_empty by set_solver. lia. }
  destruct (expand_total iter (get_adj edges) weights iter_perm (get_adj_ok edges) Hnn fuel [] 0
    (get_node_set edges) ∅ (max_value weights)) as (w & Hrun & [Hmono Hsound Hcomp]); [done|lia|lia|done|done|].
  exists w. split; [done|]. split.
  - destruct Hsound as [->|(s & Hs & Hc & Hw)].
    + destruct Hmv as [[-> ->]|(v & Hv & ->)].
      * exists ∅. rewrite weight_empty. split_and!; [set_solver|by intros a b []%elem_of_empty|done].
      * exists {[v]}. rewrite Hw1. split_and!; [unfold vertices; set_solver|apply Hsingle|done].
    + exists s. split_and!; [unfold vertices; set_solver|done|lia].
  - intros s Hs Hc. destruct (decide (s ⊆ get_node_set edges)) as [Hsub|Hnsub].
    + destruct (clique_extends (get_adj edges) (get_node_set edges) s (get_adj_ok edges) Hsub Hc)
        as (t & Hst & Htu & Htc & Htm).
      pose proof (weight_mono weights Hnn s t Hst). specialize (Hcomp t Htu Htc).
      rewrite (right_id_L ∅ (∪)) in Hcomp. specialize (Hcomp Htm). lia.
    + destruct (decide (set_Exists (fun v => v ∉ get_node_set edges) s)) as [(v & Hv & Hnv)|Hall].
      * assert (s = {[v]}) as ->; [|rewrite Hw1; specialize (Hmax v); lia].
        apply set_eq. intros u. rewrite elem_of_singleton. split; [|by intros ->].
        intros Hu. destruct (decide (u = v)) as [|Hne]; [done|]. exfalso. apply Hnv.
        apply get_node_set_spec. destruct (proj1 (get_adj_spec edges v u)) as [_ ?]; [by apply Hc|].
        exists u. naive_solver.
      * exfalso. apply Hnsub. intros v Hv. destruct (decide (v ∈ get_node_set edges)); [done|].
        exfalso. apply Hall. by exists v.
Qed.

(** C20: the clique search is exact.  For weights that are not negative and whose sum over the
    nodes of the graph fits an [i64], [find_maximum_clique_by_weight] ends and returns the
    greatest weight of a clique among the nodes of the edges and those that have a weight:
    some clique has this weight and none has a greater one, for every order in which the hash
    sets are iterated. *)
Theorem clique_search_exact edges (weights : gmap A Z) fuel :
  (forall v, 0 <= weight_of weights v) -> weight weights (get_node_set edges) <= i64_max ->
  (size (get_node_set edges) < fuel)%nat ->
  exists w, find_maximum_clique_by_weight iter fuel edges weights = Some w /\
    (exists s, s ⊆ vertices edges weights /\ is_clique (get_adj edges) s /\ weight weights s = w) /\
    (forall s, s ⊆ vertices edges weights -> is_clique (get_adj edges) s -> weight weights s <= w).
Proof. apply clique_exact. Qed.
End theorem.

(** A triangle and an edge to a heavy node *)
Lemma clique_search_exact_witness :
  exists w, find_maximum_clique_by_weight elements 9 [(1%nat, 2%nat); (2%nat, 3%nat); (1%nat, 3%nat); (3%nat, 4%nat)]
      {[1%nat := 5; 2%nat := 6; 3%nat := 7; 4%nat := 10]} = Some w /\ w = 18.
Proof.
  destruct (clique_search_exact elements (fun s => reflexivity _)
    [(1%nat, 2%nat); (2%nat, 3%nat); (1%nat, 3%nat); (3%nat, 4%nat)]
    {[1%nat := 5; 2%nat := 6; 3%nat := 7; 4%nat := 10]} 9) as (w & Hw & _).
  - intros v. unfold weight_of.
    destruct (_ !! v) as [n|] eqn:Hv; [|done]. simpl. revert v n Hv.
    apply (map_Forall_to_list (fun _ n => 0 <= n)). apply (bool_decide_unpack _). vm_compute. reflexivity.
  - vm_compute. discriminate.
  - apply (bool_decide_unpack _). vm_compute. reflexivity.
  - exists w. split; [done|]. enough (Some w = Some 18) by congruence. rewrite <-Hw. vm_compute. reflexivity.
Defined.
