(* ===== verification/FloatRounding.v ===== *)
(** * Rounding of floating-point numbers

    What the operations of [SpecFloat] that the safety oracle and the finalizer use come to on
    whole numbers: a number of at most [prec] digits is represented exactly, doubling and
    subtracting are exact, and a quotient is rounded to one of the two floats around it. *)
From Stdlib Require Import SpecFloat.
From S2P Require Import Prelude.
Open Scope Z_scope.

(** ** Digits *)

Lemma pow2_succ n : 0 <= n -> 2 ^ (n + 1) = 2 * 2 ^ n.
Proof. intros Hn. by rewrite Z.pow_add_r, Z.mul_comm by lia. Qed.
Lemma pow2_pos n : 0 <= n -> 0 < 2 ^ n.
Proof. intros Hn. by apply Z.pow_pos_nonneg. Qed.

Lemma digits_bounds m : 2 ^ (Z.pos (digits2_pos m) - 1) <= Z.pos m < 2 ^ Z.pos (digits2_pos m).
Proof.
  induction m as [m IH|m IH|]; [| |done]; cbn [digits2_pos]; rewrite Pos2Z.inj_succ;
    set (d := Z.pos (digits2_pos m)) in *; replace (Z.succ d - 1) with (d - 1 + 1) by lia;
    unfold Z.succ; rewrite !pow2_succ by lia; lia.
Qed.
Lemma Zdigits2_bounds z : 0 < z -> 0 < Zdigits2 z /\ 2 ^ (Zdigits2 z - 1) <= z < 2 ^ Zdigits2 z.
Proof. destruct z as [|m|m]; [lia| |lia]. intros _. split; [done|]. apply digits_bounds. Qed.
Lemma Zdigits2_unique z n : 0 < n -> 2 ^ (n - 1) <= z < 2 ^ n -> Zdigits2 z = n.
Proof.
  intros Hn Hz. assert (0 < z) as Hp by (pose proof (pow2_pos (n - 1)); lia).
  destruct (Zdigits2_bounds z Hp) as [Hd Hb].
  assert (Zdigits2 z - 1 < n) by (apply (Z.pow_lt_mono_r_iff 2); lia).
  assert (n - 1 < Zdigits2 z) by (apply (Z.pow_lt_mono_r_iff 2); lia). lia.
Qed.
Lemma Zdigits2_shift z k : 0 < z -> 0 <= k -> Zdigits2 (z * 2 ^ k) = Zdigits2 z + k.
Proof.
  intros Hz Hk. destruct (Zdigits2_bounds z Hz) as [Hd Hb]. apply Zdigits2_unique; [lia|].
  replace (Zdigits2 z + k - 1) with (Zdigits2 z - 1 + k) by lia.
  rewrite !Z.pow_add_r by lia. pose proof (pow2_pos k Hk). nia.
Qed.
Lemma Zdigits2_le z n : 0 < z -> 0 <= n -> z < 2 ^ n -> Zdigits2 z <= n.
Proof.
  intros Hz Hn Hlt. destruct (Zdigits2_bounds z Hz) as [Hd Hb].
  assert (Zdigits2 z - 1 < n) by (apply (Z.pow_lt_mono_r_iff 2); lia). lia.
Qed.
(** Dropping the digits beyond the first [n] leaves [n] digits. *)
Lemma Zdigits2_drop z n : 0 < n <= Zdigits2 z -> 0 < z ->
  2 ^ (n - 1) <= z / 2 ^ (Zdigits2 z - n) < 2 ^ n.
Proof.
  intros Hn Hz. destruct (Zdigits2_bounds z Hz) as [Hd Hb].
  pose proof (pow2_pos (Zdigits2 z - n)) as Hp. split.
  - apply Z.div_le_lower_bound; [lia|]. rewrite <- Z.pow_add_r by lia.
    replace (Zdigits2 z - n + (n - 1)) with (Zdigits2 z - 1) by lia. lia.
  - apply Z.div_lt_upper_bound; [lia|]. rewrite <- Z.pow_add_r by lia.
    replace (Zdigits2 z - n + n) with (Zdigits2 z) by lia. lia.
Qed.

(** ** Shifting right *)

Abbreviation exact mrs := (loc_of_shr_record mrs = loc_Exact).
Lemma shr_1_half mrs : 0 <= shr_m mrs ->
  shr_m (shr_1 mrs) = shr_m mrs / 2 /\ (exact mrs -> shr_m mrs mod 2 = 0 -> exact (shr_1 mrs)).
Proof.
  destruct mrs as [m r s]. cbn [shr_m]. intros Hm. destruct m as [|[m|m|]|m]; [| | | |lia].
  - split; [done|]. by destruct r, s.
  - cbn [shr_1 shr_m]. split.
    + rewrite Pos2Z.inj_xI. apply (Z.div_unique _ _ _ 1); lia.
    + intros _ H. exfalso. rewrite Pos2Z.inj_xI, Z.add_comm, Z.mul_comm, Z_mod_plus_full in H. done.
  - cbn [shr_1 shr_m]. split.
    + rewrite Pos2Z.inj_xO, Z.mul_comm. by rewrite Z.div_mul.
    + by destruct r, s.
  - split; [done|]. done.
Qed.
Lemma shr_iter p : forall mrs, 0 <= shr_m mrs ->
  shr_m (SpecFloat.iter_pos shr_1 p mrs) = shr_m mrs / 2 ^ Z.pos p /\
  (exact mrs -> shr_m mrs mod 2 ^ Z.pos p = 0 -> exact (SpecFloat.iter_pos shr_1 p mrs)).
Proof.
  assert (forall a b m, 0 <= a -> 0 <= b -> m / 2 ^ a / 2 ^ b = m / 2 ^ (a + b)) as Hdiv.
  { intros a b m Ha Hb. pose proof (pow2_pos a Ha). pose proof (pow2_pos b Hb).
    by rewrite Z.div_div, Z.pow_add_r by lia. }
  assert (forall a b m, 0 <= a -> 0 <= b -> m mod 2 ^ (a + b) = 0 ->
    m mod 2 ^ a = 0 /\ (m / 2 ^ a) mod 2 ^ b = 0) as Hmod.
  { intros a b m Ha Hb. pose proof (pow2_pos a Ha). pose proof (pow2_pos b Hb).
    rewrite Z.pow_add_r, Z.rem_mul_r by lia.
    pose proof (Z.mod_pos_bound m (2 ^ a)). pose proof (Z.mod_pos_bound (m / 2 ^ a) (2 ^ b)). nia. }
  induction p as [p IH|p IH|]; intros mrs Hm; cbn [SpecFloat.iter_pos].
  - destruct (shr_1_half mrs Hm) as [H1 E1]. change 2 with (2 ^ 1) in H1, E1 at 1.
    destruct (IH (shr_1 mrs)) as [H2 E2]; [rewrite H1; by apply Z.div_pos|].
    destruct (IH (SpecFloat.iter_pos shr_1 p (shr_1 mrs))) as [H3 E3].
    { rewrite H2, H1. apply Z.div_pos; [by apply Z.div_pos|by apply pow2_pos]. }
    replace (Z.pos p~1) with (1 + (Z.pos p + Z.pos p)) by lia.
    rewrite H3, H2, H1, !Hdiv by lia. split; [by rewrite Z.add_assoc|].
    intros He Hz. apply Hmod in Hz as [Hz1 Hz2]; [|lia..]. apply Hmod in Hz2 as [Hz2 Hz3]; [|lia..].
    apply E3; [apply E2; [by apply E1|by rewrite H1]|by rewrite H2, H1].
  - destruct (IH mrs Hm) as [H2 E2]. destruct (IH (SpecFloat.iter_pos shr_1 p mrs)) as [H3 E3].
    { rewrite H2. apply Z.div_pos; [lia|by apply pow2_pos]. }
    replace (Z.pos p~0) with (Z.pos p + Z.pos p) by lia.
    rewrite H3, H2, !Hdiv by lia. split; [done|]. intros He Hz.
    apply Hmod in Hz as [Hz1 Hz2]; [|lia..]. apply E3; [by apply E2|by rewrite H2].
  - by apply shr_1_half.
Qed.
Lemma shr_spec m e l n : 0 <= m -> 0 <= n ->
  exists mrs, shr (shr_record_of_loc m l) e n = (mrs, e + n) /\ shr_m mrs = m / 2 ^ n /\
    (l = loc_Exact -> m mod 2 ^ n = 0 -> exact mrs).
Proof.
  intros Hm Hn. assert (shr_m (shr_record_of_loc m l) = m) as Hr by by destruct l as [|[]].
  destruct n as [|p|p]; [| |lia].
  - eexists. split; [cbn [shr]; by rewrite Z.add_0_r|]. rewrite Hr, Z.div_1_r. split; [done|].
    by intros ->.
  - destruct (shr_iter p (shr_record_of_loc m l)) as [H1 E1]; [lia|]. rewrite Hr in H1, E1.
    eexists. split; [done|]. split; [done|]. intros -> Hz. by apply E1.
Qed.
Lemma round_nearest_even_cases m l :
  round_nearest_even m l = m \/ (l <> loc_Exact /\ round_nearest_even m l = m + 1).
Proof. destruct l as [|[]]; cbn; [by left| |by left|by right]. destruct (Z.even m); [by left|by right]. Qed.

(** ** Rounding to [prec] digits *)

Section rounding.
Context (prec emax : Z).
Hypothesis prec_pos : 1 < prec.

(** [m2 * 2 ^ e2] is what [m1 * 2 ^ e1] and something below one unit, absent if [whole], is
    rounded to. *)
Definition rounds_to (whole : Prop) (m1 e1 : Z) (m2 : positive) (e2 : Z) : Prop :=
  (Z.pos m2 = m1 /\ e2 = e1) \/
  (~ whole /\ ((Z.pos m2 = m1 + 1 /\ e2 = e1) \/
               (m1 + 1 = 2 ^ prec /\ Z.pos m2 = 2 ^ (prec - 1) /\ e2 = e1 + 1))).

Lemma shr_fexp_spec m e l : 0 < m -> prec <= Zdigits2 m ->
  emin prec emax + prec <= Zdigits2 m + e ->
  exists mrs, shr_fexp prec emax m e l = (mrs, e + (Zdigits2 m - prec)) /\
    shr_m mrs = m / 2 ^ (Zdigits2 m - prec) /\
    (l = loc_Exact -> m mod 2 ^ (Zdigits2 m - prec) = 0 -> exact mrs).
Proof.
  intros Hm Hd He. unfold shr_fexp, fexp. rewrite Z.max_l by lia.
  replace (Zdigits2 m + e - prec - e) with (Zdigits2 m - prec) by lia. apply shr_spec; lia.
Qed.

Lemma round_normal s m e l : 0 < m -> prec <= Zdigits2 m ->
  emin prec emax + prec <= Zdigits2 m + e -> Zdigits2 m + e < emax ->
  exists m2 e2, binary_round_aux prec emax s m e l = S754_finite s m2 e2 /\
    Z.pos (digits2_pos m2) = prec /\
    rounds_to (l = loc_Exact /\ m mod 2 ^ (Zdigits2 m - prec) = 0)
      (m / 2 ^ (Zdigits2 m - prec)) (e + (Zdigits2 m - prec)) m2 e2.
Proof.
  intros Hm Hd He Hmax. unfold binary_round_aux.
  destruct (shr_fexp_spec m e l Hm Hd He) as (mrs & -> & H1 & E1).
  pose proof (Zdigits2_drop m prec ltac:(lia) Hm) as Hb. rewrite H1.
  set (m1 := m / _) in *. set (k := Zdigits2 m - prec) in *.
  assert (0 < 2 ^ (prec - 1)) as Hp by (apply pow2_pos; lia).
  assert (2 ^ prec = 2 * 2 ^ (prec - 1)) as Hp2.
  { rewrite <- pow2_succ by lia. f_equal. lia. }
  assert (forall z, 2 ^ (prec - 1) <= z < 2 ^ prec -> exists m2,
    (let '(mrs'', e'') := shr_fexp prec emax z (e + k) loc_Exact in
     match shr_m mrs'' with
     | Z0 => S754_zero s
     | Z.pos m => if e'' <=? emax - prec then S754_finite s m e'' else S754_infinity s
     | _ => S754_nan
     end) = S754_finite s m2 (e + k) /\ Z.pos m2 = z /\ Z.pos (digits2_pos m2) = prec) as Hfits.
  { intros z Hz. assert (Zdigits2 z = prec) as Hdz by (apply Zdigits2_unique; lia).
    destruct (shr_fexp_spec z (e + k) loc_Exact) as (mrs' & -> & -> & _); [lia..|].
    rewrite Hdz, Z.sub_diag, Z.div_1_r, Z.add_0_r. destruct z as [|z|z]; [lia| |lia].
    exists z. rewrite (proj2 (Z.leb_le _ _)) by lia. done. }
  destruct (round_nearest_even_cases m1 (loc_of_shr_record mrs)) as [->|[Hne ->]].
  { destruct (Hfits m1 Hb) as (m2 & -> & Hm2 & Hd2). exists m2, (e + k).
    split_and!; [done..|]. by left. }
  assert (~ (l = loc_Exact /\ m mod 2 ^ k = 0)) as Hin by (intros []; auto).
  destruct (decide (m1 + 1 < 2 ^ prec)) as [Hlt|Hge].
  { destruct (Hfits (m1 + 1)) as (m2 & -> & Hm2 & Hd2); [lia|]. exists m2, (e + k).
    split_and!; [done..|]. right. split; [done|]. by left. }
  assert (m1 + 1 = 2 ^ prec) as Htop by lia. rewrite Htop.
  assert (Zdigits2 (2 ^ prec) = prec + 1) as Hdt.
  { apply Zdigits2_unique; [lia|]. rewrite pow2_succ by lia.
    replace (prec + 1 - 1) with prec by lia. lia. }
  destruct (shr_fexp_spec (2 ^ prec) (e + k) loc_Exact) as (mrs' & -> & -> & _); [lia..|].
  rewrite Hdt. replace (prec + 1 - prec) with 1 by lia.
  assert (2 ^ prec / 2 ^ 1 = 2 ^ (prec - 1)) as ->.
  { rewrite Hp2, Z.mul_comm. by apply Z.div_mul. }
  destruct (2 ^ (prec - 1)) as [|q|q] eqn:Hq; [lia| |lia].
  exists q, (e + k + 1). rewrite (proj2 (Z.leb_le _ _)) by lia.
  assert (Zdigits2 (Z.pos q) = prec) as Hdq by (apply Zdigits2_unique; lia).
  split_and!; [done..|]. right. split; [done|]. by right.
Qed.

(** A number that has [prec] digits but for zeros at its end is not changed. *)
Lemma round_exact s c e k : 0 <= k -> Z.pos (digits2_pos c) = prec ->
  emin prec emax <= e -> e + prec < emax ->
  binary_round_aux prec emax s (Z.pos c * 2 ^ k) (e - k) loc_Exact = S754_finite s c e.
Proof.
  intros Hk Hc He Hmax. pose proof (pow2_pos k Hk) as Hp.
  assert (Zdigits2 (Z.pos c * 2 ^ k) = prec + k) as Hd by (rewrite Zdigits2_shift by lia; cbn; lia).
  destruct (round_normal s (Z.pos c * 2 ^ k) (e - k) loc_Exact) as (m2 & e2 & -> & _ & Hr); [lia..|].
  rewrite Hd in Hr. replace (prec + k - prec) with k in Hr by lia.
  rewrite Z.div_mul, Z.mod_mul in Hr by lia. destruct Hr as [[[= ->] ->]|[[] _]]; [|done].
  f_equal. lia.
Qed.
Lemma shl_align_spec m e e' : e' <= e -> exists m', shl_align m e e' = (m', e') /\ Z.pos m' = Z.pos m * 2 ^ (e - e').
Proof.
  intros He. unfold shl_align. destruct (e' - e) as [|d|d] eqn:Hd; [|lia|].
  - replace e' with e by lia. exists m. rewrite Z.sub_diag. split; [done|lia].
  - eexists. split; [done|]. replace (e - e') with (Z.pos d) by lia.
    clear. induction d as [|d IH] using Pos.peano_ind; [cbn; lia|].
    rewrite Pos.iter_succ, Pos2Z.inj_xO, IH, Pos2Z.inj_succ, Z.pow_succ_r by lia. lia.
Qed.

(** ** Whole numbers *)

Lemma binary_round_exact s m e c e0 a b :
  0 <= a -> 0 <= b -> Z.pos m * 2 ^ a = Z.pos c * 2 ^ b -> a - b = e - e0 ->
  Z.pos (digits2_pos c) = prec -> emin prec emax <= e0 -> e0 + prec < emax ->
  binary_round prec emax s m e = S754_finite s c e0.
Proof.
  intros Ha Hb Heq Hab Hc He Hmax. unfold binary_round.
  assert (Z.pos (digits2_pos m) + a = prec + b) as Hd.
  { rewrite <- Hc. change (Zdigits2 (Z.pos m) + a = Zdigits2 (Z.pos c) + b).
    rewrite <- !Zdigits2_shift by lia. by rewrite Heq. }
  unfold fexp. rewrite Z.max_l by lia. replace (_ + e - prec) with e0 by lia.
  destruct (decide (e0 <= e)) as [Hle|Hgt].
  - destruct (shl_align_spec m e e0 Hle) as (m' & -> & Hm').
    assert (Z.pos m' = Z.pos c) as [= ->].
    { pose proof (pow2_pos b Hb). apply (Z.mul_reg_r _ _ (2 ^ b)); [lia|].
      rewrite Hm', <- Heq, <- Z.mul_assoc, <- Z.pow_add_r by lia. do 2 f_equal. lia. }
    pose proof (round_exact s c e0 0) as Hr. rewrite Z.mul_1_r, Z.sub_0_r in Hr. apply Hr; lia.
  - unfold shl_align. destruct (e0 - e) as [|d|d] eqn:Hde; [lia| |lia].
    assert (Z.pos m = Z.pos c * 2 ^ Z.pos d) as ->.
    { pose proof (pow2_pos a Ha). apply (Z.mul_reg_r _ _ (2 ^ a)); [lia|].
      rewrite Heq, <- Z.mul_assoc, <- Z.pow_add_r by lia. do 2 f_equal. lia. }
    replace e with (e0 - Z.pos d) by lia. apply round_exact; lia.
Qed.

(** The exponents of the numbers that occur are far from the bounds of the format. *)
Hypothesis wide : emin prec emax <= - 2 * prec /\ 2 * prec + 2 < emax.

(** [x] is the whole number [z] of at most [prec] digits, up to its sign [s]. *)
Definition is_num (s : bool) (z : Z) (x : spec_float) : Prop :=
  0 < z /\ Zdigits2 z <= prec /\ exists c, x = S754_finite s c (Zdigits2 z - prec) /\
    Z.pos c = z * 2 ^ (prec - Zdigits2 z) /\ Z.pos (digits2_pos c) = prec.
Lemma round_num s m k z : 0 <= k -> 0 < z -> Zdigits2 z <= prec -> Z.pos m = z * 2 ^ k ->
  is_num s z (binary_round prec emax s m (- k)).
Proof.
  intros Hk Hz Hd Hm. destruct (Zdigits2_bounds z Hz) as [Hd0 _].
  assert (0 < z * 2 ^ (prec - Zdigits2 z)) as Hp by (apply Z.mul_pos_pos; [lia|apply pow2_pos; lia]).
  destruct (z * 2 ^ (prec - Zdigits2 z)) as [|c|c] eqn:Hc; [lia| |lia].
  assert (Z.pos (digits2_pos c) = prec) as Hdc.
  { change (Zdigits2 (Z.pos c) = prec). rewrite <- Hc, Zdigits2_shift by lia. lia. }
  split; [done|]. split; [done|]. exists c. split_and!; [|done..].
  apply (binary_round_exact s m _ c _ (prec - Zdigits2 z) k); [lia..| |lia|done|lia|lia].
  rewrite Hm, <- Hc. lia.
Qed.
Lemma of_Z_num z : 0 < z -> Zdigits2 z <= prec -> is_num false z (binary_normalize prec emax z 0 false).
Proof.
  intros Hz Hd. destruct z as [|m|m]; [lia| |lia]. apply (round_num false m 0); [lia..|]. lia.
Qed.

(** Twice a whole number, less another *)
Lemma double_sub z t x y : is_num false z x -> is_num false t y ->
  Z.abs (2 * z - t) < 2 ^ prec ->
  let r := SFsub prec emax (SFmul prec emax x (binary_normalize prec emax 2 0 false)) y in
  match 2 * z - t with
  | Z0 => r = S754_zero false
  | Z.pos d => is_num false (Z.pos d) r
  | Z.neg d => is_num true (Z.pos d) r
  end.
Proof.
  intros (Hz & Hdz & c & -> & Hc & Hdc) (Ht & Hdt & c' & -> & Hc' & Hdc') Hlt r.
  destruct (of_Z_num 2) as (_ & _ & c2 & H2 & Hc2 & Hdc2); [lia|cbn; lia|]. subst r. rewrite H2.
  change (Zdigits2 2) with 2 in *. cbn [SFmul xorb]. rewrite Pos2Z.inj_mul.
  assert (Z.pos c2 = 2 ^ (prec - 1)) as ->.
  { rewrite Hc2, <- pow2_succ by lia. f_equal. lia. }
  destruct (Zdigits2_bounds z Hz) as [Hz0 _], (Zdigits2_bounds t Ht) as [Ht0 _].
  replace (Zdigits2 z - prec + (2 - prec)) with (Zdigits2 z - prec + 1 - (prec - 1)) by lia.
  rewrite round_exact by lia. cbn [SFsub cond_Zopp].
  set (ez := Z.min _ _).
  destruct (shl_align_spec c (Zdigits2 z - prec + 1) ez) as (a & -> & Ha); [lia|].
  destruct (shl_align_spec c' (Zdigits2 t - prec) ez) as (b & -> & Hb); [lia|]. cbn [fst].
  assert (ez <= 0) as Hez by lia.
  assert (Z.pos a - Z.pos b = (2 * z - t) * 2 ^ (- ez)) as ->.
  { rewrite Ha, Hb, Hc, Hc', Z.mul_sub_distr_r. f_equal.
    - rewrite <- Z.mul_assoc, <- Z.pow_add_r by lia. rewrite (Z.mul_comm 2), <- Z.mul_assoc.
      f_equal. rewrite <- pow2_succ by lia. f_equal. lia.
    - rewrite <- Z.mul_assoc, <- Z.pow_add_r by lia. do 2 f_equal. lia. }
  assert (forall d s, 2 * z - t = Z.pos d \/ 2 * z - t = Z.neg d ->
    forall m, Z.pos m = Z.pos d * 2 ^ (- ez) -> is_num s (Z.pos d) (binary_round prec emax s m ez)) as Hr.
  { intros d s Hd m Hm. rewrite <- (Z.opp_involutive ez) at 1. apply round_num; [lia..| |done].
    apply Zdigits2_le; lia. }
  pose proof (pow2_pos (- ez)) as Hp. destruct (2 ^ (- ez)) as [|q|q]; [lia| |lia].
  destruct (2 * z - t) as [|d|d]; cbn [Z.mul binary_normalize]; [done| |]; apply Hr; auto.
Qed.

(** A quotient lies between two neighbouring floats, one of which is the result; both are
    scaled by [2 ^ K] to be whole. *)
Lemma div_num z t x y K : is_num false z x -> is_num false t y -> 2 * prec <= K ->
  exists m1 e1 m2 e2, SFdiv prec emax x y = S754_finite false m2 e2 /\
    Z.pos (digits2_pos m2) = prec /\ 2 ^ (prec - 1) <= m1 < 2 ^ prec /\ 0 <= e1 + K /\
    m1 * t * 2 ^ (e1 + K) <= z * 2 ^ K < (m1 + 1) * t * 2 ^ (e1 + K) /\
    rounds_to (m1 * t * 2 ^ (e1 + K) = z * 2 ^ K) m1 e1 m2 e2.
Proof.
  intros (Hz & Hdz & c & -> & Hc & Hdc) (Ht & Hdt & c' & -> & Hc' & Hdc') HK. cbn [SFdiv xorb].
  destruct (Zdigits2_bounds z Hz) as [Hz0 _], (Zdigits2_bounds t Ht) as [Ht0 _].
  pose proof (digits_bounds c) as Hbc. pose proof (digits_bounds c') as Hbc'. rewrite Hdc in Hbc. rewrite Hdc' in Hbc'.
  unfold SFdiv_core_binary. cbn [Zdigits2]. rewrite Hdc, Hdc'. unfold fexp.
  replace (Z.min _ _) with (Zdigits2 z - Zdigits2 t - prec) by lia.
  replace (_ - _ - (_ - _ - prec)) with prec by lia.
  replace (match prec with Z0 => _ | _ => _ end) with (Z.pos c * 2 ^ prec)
    by (destruct prec; [lia| |lia]; by rewrite Z.shiftl_mul_pow2).
  pose proof (Z_div_mod (Z.pos c * 2 ^ prec) (Z.pos c') ltac:(lia)) as Hdiv.
  destruct (Z.div_eucl _ _) as [q r]. destruct Hdiv as [Hq Hr].
  assert (2 ^ prec = 2 * 2 ^ (prec - 1)) as Hp2 by (rewrite <- pow2_succ by lia; f_equal; lia).
  assert (2 ^ (prec - 1) <= q < 2 ^ (prec + 1)) as Hbq by (rewrite pow2_succ by lia; nia).
  assert (0 < q) as Hq0 by (pose proof (pow2_pos (prec - 1)); lia).
  assert (prec <= Zdigits2 q <= prec + 1) as Hdq.
  { destruct (Zdigits2_bounds q Hq0) as [Hd0 Hb]. split; [|by apply Zdigits2_le; lia].
    enough (prec - 1 < Zdigits2 q) by lia. apply (Z.pow_lt_mono_r_iff 2); lia. }
  set (l := new_location (Z.pos c') r).
  destruct (round_normal false q (Zdigits2 z - Zdigits2 t - prec) l) as (m2 & e2 & -> & Hd2 & Hrt); [lia..|].
  pose proof (Zdigits2_drop q prec ltac:(lia) Hq0) as Hm1.
  set (k := Zdigits2 q - prec) in *. set (m1 := q / 2 ^ k) in *. set (e1 := _ + k) in *.
  assert (0 < 2 ^ k) as Hk by (apply pow2_pos; lia).
  pose proof (Z.div_mod q (2 ^ k) ltac:(lia)) as Hqm. fold m1 in Hqm.
  pose proof (Z.mod_pos_bound q (2 ^ k) Hk) as Hmb.
  (* the three numbers, scaled *)
  set (S := 2 ^ (K - (2 * prec - Zdigits2 z))).
  assert (0 < S) as HS by (apply pow2_pos; lia).
  assert (z * 2 ^ K = Z.pos c * 2 ^ prec * S) as HzK.
  { rewrite Hc. unfold S. rewrite <- !Z.mul_assoc, <- !Z.pow_add_r by lia. do 2 f_equal. lia. }
  assert (forall m, m * t * 2 ^ (e1 + K) = m * 2 ^ k * Z.pos c' * S) as HmK.
  { intros m. rewrite Hc'. unfold S.
    transitivity (m * t * (2 ^ k * 2 ^ (prec - Zdigits2 t) * 2 ^ (K - (2 * prec - Zdigits2 z)))); [|lia].
    rewrite <- !Z.pow_add_r by lia. do 2 f_equal. lia. }
  exists m1, e1, m2, e2. rewrite !HmK, HzK. split_and!; [done..|lia|lia|lia| | |].
  - apply Z.mul_le_mono_pos_r; [done|]. nia.
  - apply Z.mul_lt_mono_pos_r; [done|]. nia.
  - destruct Hrt as [Hrt|[Hne Hrt]]; [by left|]. right. split; [|done]. intros Hex. apply Hne.
    apply Z.mul_reg_r in Hex; [|lia].
    assert (m1 * 2 ^ k = q /\ r = 0) as [Hqk ->] by nia. split.
    + unfold l, new_location, new_location_even, new_location_odd. by destruct (Z.even _).
    + rewrite <- Hqk. apply Z.mod_mul. lia.
Qed.
(** ** Comparing with the result of a division *)

(** A float below the result of a division is below the quotient. *)
Lemma below_quotient K z t m1 e1 m2 e2 mx ex : 0 < t -> 2 ^ (prec - 1) <= m1 < 2 ^ prec ->
  0 <= e1 + K -> 0 <= ex + K -> Z.pos mx < 2 ^ prec ->
  m1 * t * 2 ^ (e1 + K) <= z * 2 ^ K ->
  rounds_to (m1 * t * 2 ^ (e1 + K) = z * 2 ^ K) m1 e1 m2 e2 ->
  SFltb (S754_finite false mx ex) (S754_finite false m2 e2) = true ->
  Z.pos mx * t * 2 ^ (ex + K) < z * 2 ^ K.
Proof.
  intros Ht Hm1 He1 Hex Hmx Hle Hr Hlt. set (Q := z * 2 ^ K) in *.
  assert (2 ^ prec = 2 * 2 ^ (prec - 1)) as Hp2 by (rewrite <- pow2_succ by lia; f_equal; lia).
  (* a smaller exponent: less than half of what [m1] is worth at its exponent *)
  assert (forall d, 0 < d -> e1 = ex + d -> Z.pos mx * t * 2 ^ (ex + K) < Q) as Hsmall.
  { intros d Hd ->. replace (ex + d + K) with (ex + K + d) in Hle by lia.
    rewrite Z.pow_add_r in Hle by lia. pose proof (pow2_pos (ex + K) Hex) as Hp.
    assert (2 <= 2 ^ d) as H2.
    { change 2 with (2 ^ 1) at 1. apply Z.pow_le_mono_r; lia. }
    assert (Z.pos mx < m1 * 2 ^ d) as Hm by nia. eapply Z.lt_le_trans; [|exact Hle].
    replace (m1 * t * (2 ^ (ex + K) * 2 ^ d)) with (m1 * 2 ^ d * t * 2 ^ (ex + K)) by lia.
    apply Z.mul_lt_mono_pos_r; [done|]. by apply Z.mul_lt_mono_pos_r. }
  (* the same exponent: at most [m1], and less than that or the quotient is not whole *)
  assert (ex = e1 -> Z.pos mx <= m1 -> (Z.pos mx < m1 \/ ~ m1 * t * 2 ^ (e1 + K) = Q) ->
    Z.pos mx * t * 2 ^ (ex + K) < Q) as Hsame.
  { intros -> Hx Hs. pose proof (pow2_pos (e1 + K) He1) as Hp.
    assert (Z.pos mx * t * 2 ^ (e1 + K) <= m1 * t * 2 ^ (e1 + K)).
    { apply Z.mul_le_mono_nonneg_r; [lia|]. apply Z.mul_le_mono_nonneg_r; lia. }
    destruct Hs as [Hs|Hs]; [|lia].
    assert (Z.pos mx * t * 2 ^ (e1 + K) < m1 * t * 2 ^ (e1 + K)); [|lia].
    apply Z.mul_lt_mono_pos_r; [done|]. by apply Z.mul_lt_mono_pos_r. }
  unfold SFltb in Hlt. cbn [SFcompare] in Hlt. change (Pos.compare_cont Eq mx m2) with (mx ?= m2)%positive in Hlt.
  destruct (Z.compare_spec ex e2) as [->|Hex2|]; [|clear Hlt|done].
  - destruct (Pos.compare_spec mx m2) as [->|Hmx2|]; [done| |done].
    destruct Hr as [[Hm2 ->]|[Hne [[Hm2 ->]|(Htop & Hm2 & ->)]]].
    + apply Hsame; lia.
    + apply Hsame; [done|lia|by right].
    + eapply Z.lt_le_trans; [|exact Hle]. replace (e1 + 1 + K) with (e1 + K + 1) by lia.
      rewrite pow2_succ by lia. pose proof (pow2_pos (e1 + K) He1) as Hp.
      replace (Z.pos mx * t * (2 * 2 ^ (e1 + K))) with (2 * Z.pos mx * t * 2 ^ (e1 + K)) by lia.
      apply Z.mul_lt_mono_pos_r; [done|]. apply Z.mul_lt_mono_pos_r; lia.
  - destruct Hr as [[Hm2 ->]|[Hne [[Hm2 ->]|(Htop & Hm2 & ->)]]].
    + apply (Hsmall (e1 - ex)); lia.
    + apply (Hsmall (e1 - ex)); lia.
    + destruct (decide (ex = e1)) as [->|]; [|apply (Hsmall (e1 - ex)); lia].
      apply Hsame; [done|lia|by right].
Qed.
(** The result of a division is at least the float below the quotient. *)
Lemma rounds_to_ge whole m1 e1 m2 e2 K : 0 <= e1 + K -> rounds_to whole m1 e1 m2 e2 ->
  0 <= e2 + K /\ m1 * 2 ^ (e1 + K) <= Z.pos m2 * 2 ^ (e2 + K).
Proof.
  clear wide. intros He Hr. pose proof (pow2_pos (e1 + K) He) as Hp.
  destruct Hr as [[-> ->]|[_ [[-> ->]|(Htop & -> & ->)]]]; [lia|nia|].
  assert (2 ^ prec = 2 * 2 ^ (prec - 1)) as Hp2 by (rewrite <- pow2_succ by lia; f_equal; lia).
  split; [lia|]. replace (e1 + 1 + K) with (e1 + K + 1) by lia. rewrite pow2_succ by lia. nia.
Qed.
(** Two floats with [prec] digits compare as their values do. *)
Lemma not_SFleb m1 e1 m2 e2 K : Z.pos (digits2_pos m1) = prec -> Z.pos (digits2_pos m2) = prec ->
  0 <= e1 + K -> 0 <= e2 + K -> Z.pos m2 * 2 ^ (e2 + K) < Z.pos m1 * 2 ^ (e1 + K) ->
  SFleb (S754_finite false m1 e1) (S754_finite false m2 e2) = false.
Proof.
  intros Hd1 Hd2 He1 He2 Hlt. pose proof (digits_bounds m1) as H1. pose proof (digits_bounds m2) as H2.
  rewrite Hd1 in H1. rewrite Hd2 in H2. unfold SFleb. cbn [SFcompare].
  change (Pos.compare_cont Eq m1 m2) with (m1 ?= m2)%positive.
  destruct (Z.compare_spec e1 e2) as [->|He|]; [| |done].
  - pose proof (pow2_pos (e2 + K) He2). destruct (Pos.compare_spec m1 m2) as [->|Hm|]; [lia| |done]. nia.
  - exfalso. assert (2 ^ prec = 2 * 2 ^ (prec - 1)) as Hp2 by (rewrite <- pow2_succ by lia; f_equal; lia).
    replace (e2 + K) with (e1 + K + (e2 - e1)) in Hlt by lia.
    rewrite (Z.pow_add_r 2 (e1 + K)) in Hlt by lia.
    assert (2 <= 2 ^ (e2 - e1)) by (change 2 with (2 ^ 1) at 1; apply Z.pow_le_mono_r; lia).
    pose proof (pow2_pos (e1 + K) He1). assert (Z.pos m1 < Z.pos m2 * 2 ^ (e2 - e1)) by nia.
    replace (Z.pos m2 * (2 ^ (e1 + K) * 2 ^ (e2 - e1)))
      with (Z.pos m2 * 2 ^ (e2 - e1) * 2 ^ (e1 + K)) in Hlt by lia.
    apply Z.mul_lt_mono_pos_r in Hlt; lia.
Qed.
End rounding.

(** ** The quotient of two stakes in two formats *)

(** Below [2 ^ 24] the stakes are exact in 24 digits, and a float of 24 digits that is below
    the rounded quotient [d / t] is far enough below the exact one to be below every quotient
    [d' / t] that is at least as large, rounded to 53 digits. *)
Lemma wider_quotient mx ex d d' t m1 e1 : 0 < t < 2 ^ 24 -> d <= d' <= t -> Z.pos mx < 2 ^ 24 -> -149 <= ex ->
  Z.pos mx * t * 2 ^ (ex + 256) < d * 2 ^ 256 ->
  2 ^ 52 <= m1 -> 0 <= e1 + 256 -> d' * 2 ^ 256 < (m1 + 1) * t * 2 ^ (e1 + 256) ->
  Z.pos mx * 2 ^ (ex + 256) < m1 * 2 ^ (e1 + 256).
Proof.
  intros Ht Hd Hmx Hex Hx Hm1 He1 Hq. destruct (decide (e1 <= ex - 24)) as [Hle|Hgt].
  - assert (ex <= 0) as Hex0.
    { destruct (decide (ex <= 0)) as [|Hp]; [done|]. exfalso.
      replace (ex + 256) with (256 + ex) in Hx by lia.
      rewrite (Z.pow_add_r 2 256) in Hx by lia.
      assert (2 <= 2 ^ ex) by (change 2 with (2 ^ 1) at 1; apply Z.pow_le_mono_r; lia).
      assert (1 <= Z.pos mx * 2 ^ ex) by lia.
      assert (1 * t <= Z.pos mx * 2 ^ ex * t) by (apply Z.mul_le_mono_nonneg_r; lia).
      replace (Z.pos mx * t * (2 ^ 256 * 2 ^ ex)) with (Z.pos mx * t * 2 ^ ex * 2 ^ 256) in Hx by lia.
      apply Z.mul_lt_mono_pos_r in Hx; lia. }
    replace (ex + 256) with (e1 + 256 + (ex - e1)) in * by lia.
    rewrite (Z.pow_add_r 2 (e1 + 256) (ex - e1)) in * by lia. set (N := Z.pos mx * 2 ^ (ex - e1)).
    replace (Z.pos mx * (2 ^ (e1 + 256) * 2 ^ (ex - e1))) with (N * 2 ^ (e1 + 256)) by (unfold N; lia).
    pose proof (pow2_pos (e1 + 256) He1) as Hp. apply Z.mul_lt_mono_pos_r; [done|].
    destruct (decide (N < m1)) as [|Hge]; [done|]. exfalso.
    assert (2 ^ 256 = 2 ^ (e1 + 256) * 2 ^ (ex - e1) * 2 ^ (- ex)) as H256.
    { rewrite <- !Z.pow_add_r by lia. f_equal. lia. }
    assert (2 ^ 24 <= 2 ^ (ex - e1)) as H24 by (apply Z.pow_le_mono_r; lia).
    set (s := 2 ^ (e1 + 256)) in *. set (w := 2 ^ (ex - e1)) in *. set (v := 2 ^ (- ex)) in *. rewrite H256 in Hx, Hq.
    (* the quotient exceeds [N] by at least [w / t], which is more than one *)
    assert (0 < v) as Hv by (apply pow2_pos; lia).
    assert (Z.pos mx * t < d' * v) as H1.
    { apply Z.lt_le_trans with (d * v); [|apply Z.mul_le_mono_nonneg_r; lia].
      apply (Z.mul_lt_mono_pos_r (s * w)); [apply Z.mul_pos_pos; lia|]. lia. }
    assert (d' * v * w < (N + 1) * t) as H2.
    { apply (Z.mul_lt_mono_pos_r s); [done|]. apply Z.lt_le_trans with ((m1 + 1) * t * s); [lia|].
      apply Z.mul_le_mono_nonneg_r; [lia|]. apply Z.mul_le_mono_nonneg_r; lia. }
    assert ((Z.pos mx * t + 1) * w <= d' * v * w) by (apply Z.mul_le_mono_nonneg_r; lia).
    subst N. lia.
  - assert (Z.pos mx * 2 ^ (ex + 256) < 2 ^ 52 * 2 ^ (e1 + 256)) as Hlt.
    { rewrite <- Z.pow_add_r by lia. apply Z.lt_le_trans with (2 ^ 24 * 2 ^ (ex + 256)).
      - apply Z.mul_lt_mono_pos_r; [apply pow2_pos; lia|done].
      - rewrite <- Z.pow_add_r by lia. apply Z.pow_le_mono_r; lia. }
    pose proof (pow2_pos (e1 + 256) He1). nia.
Qed.
