(* ===== verification/CliqueOracle.v ===== *)
(** * The safety oracle

    [casper/src/rust/safety/clique_oracle.rs] over the DAG of [BlockDag.v]: the validators whose
    latest messages agree on a block, the pairs of them that can see no disagreement of each other,
    and the fault tolerance that the heaviest clique of such pairs gives.  The caches of a run
    are explicit state; [None] is a chain of blocks longer than the fuel.  A [BTreeMap] is a
    finite map whose keys are listed in order.  The cooperative yields are left out. *)
From Stdlib Require Import SpecFloat.
From S2P Require Import Prelude HotStoreSig HistoryRepo CasperMessage BlockDag Clique.
Open Scope res_scope.

(** ** [f32] arithmetic *)

Definition f32_of_i64 (z : Z) : f32 := binary_normalize 24 128 z 0 false.
Definition f32_mul (a b : f32) : f32 := SFmul 24 128 a b.
Definition f32_sub (a b : f32) : f32 := SFsub 24 128 a b.
Definition f32_div (a b : f32) : f32 := SFdiv 24 128 a b.
Definition f32_le (a b : f32) : bool := SFleb a b.
Definition f32_two : f32 := f32_of_i64 2.
(** [MIN_FAULT_TOLERANCE] *)
Definition MIN_FAULT_TOLERANCE : f32 := f32_of_i64 (-1).

Abbreviation WeightMap := (gmap Validator Z).
Definition stakes (m : WeightMap) : list Z := (map_to_list m).*2.

(** [struct CliqueOracleRunCache], without the parameters of the yields *)
Record CliqueOracleRunCache := mkRunCache {
  latest_message_cache : gmap Validator (option BlockHash);
  latest_justifications_cache : gmap Validator (gmap Validator BlockHash);
  self_justification_cache : gmap BlockHash (option BlockHash);
  in_main_chain_cache : gmap (BlockHash * BlockHash) bool;
  max_self_justification_cache_entries : nat;
  max_in_main_chain_cache_entries : nat;
}.
Definition MAX_SELF_JUSTIFICATION_CACHE_ENTRIES : nat := Z.to_nat 10000.
Definition MAX_IN_MAIN_CHAIN_CACHE_ENTRIES : nat := Z.to_nat 10000.
(** [fn new_run_cache] *)
Definition new_run_cache : CliqueOracleRunCache :=
  mkRunCache ∅ ∅ ∅ ∅ MAX_SELF_JUSTIFICATION_CACHE_ENTRIES MAX_IN_MAIN_CHAIN_CACHE_ENTRIES.

Definition set_latest_message_cache m (c : CliqueOracleRunCache) : CliqueOracleRunCache :=
  mkRunCache m (latest_justifications_cache c) (self_justification_cache c) (in_main_chain_cache c)
    (max_self_justification_cache_entries c) (max_in_main_chain_cache_entries c).
Definition set_latest_justifications_cache m (c : CliqueOracleRunCache) : CliqueOracleRunCache :=
  mkRunCache (latest_message_cache c) m (self_justification_cache c) (in_main_chain_cache c)
    (max_self_justification_cache_entries c) (max_in_main_chain_cache_entries c).
Definition set_self_justification_cache m (c : CliqueOracleRunCache) : CliqueOracleRunCache :=
  mkRunCache (latest_message_cache c) (latest_justifications_cache c) m (in_main_chain_cache c)
    (max_self_justification_cache_entries c) (max_in_main_chain_cache_entries c).
Definition set_in_main_chain_cache m (c : CliqueOracleRunCache) : CliqueOracleRunCache :=
  mkRunCache (latest_message_cache c) (latest_justifications_cache c) (self_justification_cache c) m
    (max_self_justification_cache_entries c) (max_in_main_chain_cache_entries c).

(** [fn bounded_cache_insert]: a full map loses its first key *)
Definition bounded_cache_insert {K V} `{Countable K} (cmp : K -> K -> comparison) (m : gmap K V)
    (key : K) (value : V) (max_entries : nat) : gmap K V :=
  let m :=
    if decide (0 < max_entries /\ m !! key = None /\ max_entries <= size m)%nat then
      match head (sort_by cmp (map_to_list m).*1) with
      | Some first_key => delete first_key m
      | None => m
      end
    else m in
  <[key := value]> m.

(** ** A computation that reads the DAG through the caches *)

Abbreviation Outcome X := (option (res KvStoreError X)).
Abbreviation Cached X := (ST CliqueOracleRunCache (Outcome X)).
Definition c_bind {X Y} (m : Cached X) (k : X -> Cached Y) : Cached Y := fun c =>
  match m c with
  | (Some (Ok x), c) => k x c
  | (Some (Err e), c) => (Some (Err e), c)
  | (Some Panic, c) => (Some Panic, c)
  | (None, c) => (None, c)
  end.
Notation "x <~ m ;~ k" := (c_bind m (fun x => k)) (at level 20, m at level 100, k at level 200) : res_scope.
Definition c_ok {X} (x : X) : Cached X := fun c => (Some (Ok x), c).
Definition c_lift {X} (m : Outcome X) : Cached X := fun c => (m, c).

Section oracle.
Context (dag : KeyValueDagRepresentation) (idx : gmap BlockHash BlockMetadata).
(** The order in which the clique search iterates its hash sets *)
Context (iter : gset Validator -> list Validator) (fuel : nat).

(** [fn get_corresponding_weight_map] *)
Definition get_corresponding_weight_map (target_msg : BlockHash) : res KvStoreError WeightMap :=
  md <-! lookup_unsafe dag idx target_msg;
  match head (m_parents md) with
  | Some main_parent => parent_meta <-! lookup_unsafe dag idx main_parent; Ok (m_weight_map parent_meta)
  | None => Ok (m_weight_map md)
  end.

(** The reads through the caches *)
Definition cached_self_justification (h : BlockHash) : Cached (option BlockHash) := fun c =>
  match self_justification_cache c !! h with
  | Some cached => (Some (Ok cached), c)
  | None =>
    match self_justification dag h with
    | Ok value =>
      (Some (Ok value), set_self_justification_cache
        (bounded_cache_insert bytes_cmp (self_justification_cache c) h value
           (max_self_justification_cache_entries c)) c)
    | Err e => (Some (Err e), c)
    | Panic => (Some Panic, c)
    end
  end.
Definition cached_is_in_main_chain (target_msg h : BlockHash) : Cached bool := fun c =>
  match in_main_chain_cache c !! (target_msg, h) with
  | Some cached => (Some (Ok cached), c)
  | None =>
    match is_in_main_chain dag fuel target_msg h with
    | Some (Ok value) =>
      (Some (Ok value), set_in_main_chain_cache
        (bounded_cache_insert (pair_cmp bytes_cmp bytes_cmp) (in_main_chain_cache c) (target_msg, h) value
           (max_in_main_chain_cache_entries c)) c)
    | Some (Err e) => (Some (Err e), c)
    | Some Panic => (Some Panic, c)
    | None => (None, c)
    end
  end.

(** The loop of [might_eventually_disagree] *)
Fixpoint disagree_loop (n : nat) (target_msg stopper : BlockHash) (current : option BlockHash) : Cached bool :=
  match n with
  | O => c_lift None
  | S n =>
    match current with
    | None => c_ok false
    | Some h =>
      if decide (h = stopper) then c_ok false
      else
        is_in_main_chain <~ cached_is_in_main_chain target_msg h ;~
        if is_in_main_chain then
          current <~ cached_self_justification h ;~
          disagree_loop n target_msg stopper current
        else c_ok true
    end
  end.
(** [fn might_eventually_disagree], [fn never_eventually_see_disagreement] *)
Definition might_eventually_disagree (lm_b lm_a_j_b target_msg : BlockHash) : Cached bool :=
  value <~ cached_self_justification lm_a_j_b ;~
  let stopper := default lm_a_j_b value in
  current <~ cached_self_justification lm_b ;~
  disagree_loop fuel target_msg stopper current.
Definition never_eventually_see_disagreement (lm_b lm_a_j_b target_msg : BlockHash) : Cached bool :=
  r <~ might_eventually_disagree lm_b lm_a_j_b target_msg ;~ c_ok (negb r).

(** ** [fn compute_agreeing_validator_pairs] *)

Definition cached_latest_message (v : Validator) : Cached (option BlockHash) := fun c =>
  match latest_message_cache c !! v with
  | Some cached => (Some (Ok cached), c)
  | None =>
    let value := latest_message_hash dag v in
    (Some (Ok value), set_latest_message_cache (<[v := value]> (latest_message_cache c)) c)
  end.
(** The justifications of a block, by validator *)
Definition justifications_of (md : BlockMetadata) : gmap Validator BlockHash :=
  foldl (fun m j => <[validator j := latest_block_hash j]> m) ∅ (m_justifications md).
Definition cached_justifications (v : Validator) (latest : BlockHash) : Cached (gmap Validator BlockHash) := fun c =>
  match latest_justifications_cache c !! v with
  | Some cached => (Some (Ok cached), c)
  | None =>
    match lookup_unsafe dag idx latest with
    | Ok metadata =>
      let all := justifications_of metadata in
      (Some (Ok all), set_latest_justifications_cache (<[v := all]> (latest_justifications_cache c)) c)
    | Err e => (Some (Err e), c)
    | Panic => (Some Panic, c)
    end
  end.
(** A validator with its latest message and the justifications of agreeing validators in it *)
Definition pairwise : Type := Validator * BlockHash * gmap Validator BlockHash.
Fixpoint pairwise_validators (agreeing_validators : gset Validator) (l : list Validator) :
  Cached (list pairwise) :=
  match l with
  | [] => c_ok []
  | v :: l =>
    latest <~ cached_latest_message v ;~
    match latest with
    | None => pairwise_validators agreeing_validators l
    | Some latest =>
      all_justifications <~ cached_justifications v latest ;~
      let relevant_justifications := filter (fun kv => kv.1 ∈ agreeing_validators) all_justifications in
      if decide (relevant_justifications = ∅) then pairwise_validators agreeing_validators l
      else
        rest <~ pairwise_validators agreeing_validators l ;~
        c_ok ((v, latest, relevant_justifications) :: rest)
    end
  end.
(** One pair of the double loop *)
Definition check_pair (target_msg : BlockHash) (a b : pairwise) : Cached bool :=
  let '(va, lm_a, js_a) := a in
  let '(vb, lm_b, js_b) := b in
  match js_a !! vb, js_b !! va with
  | Some lm_a_j_b, Some lm_b_j_a =>
    no_a_b_disagreement <~ never_eventually_see_disagreement lm_b lm_a_j_b target_msg ;~
    no_b_a_disagreement <~ never_eventually_see_disagreement lm_a lm_b_j_a target_msg ;~
    c_ok (no_a_b_disagreement && no_b_a_disagreement)
  | _, _ => c_ok false
  end.
Fixpoint pairs_with (target_msg : BlockHash) (a : pairwise) (l : list pairwise) :
  Cached (list (Validator * Validator)) :=
  match l with
  | [] => c_ok []
  | b :: l =>
    agree <~ check_pair target_msg a b ;~
    rest <~ pairs_with target_msg a l ;~
    c_ok (if agree : bool then (a.1.1, b.1.1) :: rest else rest)
  end.
Fixpoint all_pairs (target_msg : BlockHash) (l : list pairwise) :
  Cached (list (Validator * Validator)) :=
  match l with
  | [] => c_ok []
  | a :: l =>
    first <~ pairs_with target_msg a l ;~
    rest <~ all_pairs target_msg l ;~
    c_ok (first ++ rest)
  end.
Definition compute_agreeing_validator_pairs (target_msg : BlockHash)
    (agreeing_weight_map : WeightMap) : Cached (list (Validator * Validator)) :=
  let agreeing_validators := dom agreeing_weight_map in
  ps <~ pairwise_validators agreeing_validators (sort_by bytes_cmp (elements agreeing_validators)) ;~
  all_pairs target_msg ps.

(** ** The fault tolerance *)

(** [fn compute_max_clique_weight] *)
Definition compute_max_clique_weight (target_msg : BlockHash) (agreeing_weight_map : WeightMap) :
  Cached Z :=
  edges <~ compute_agreeing_validator_pairs target_msg agreeing_weight_map ;~
  c_lift (Ok <$> find_maximum_clique_by_weight iter fuel edges agreeing_weight_map).
(** [(max_clique_weight * 2.0 - total_stake) / total_stake] *)
Definition fault_tolerance (max_clique_weight total_stake : f32) : f32 :=
  f32_div (f32_sub (f32_mul max_clique_weight f32_two) total_stake) total_stake.
(** [fn compute_output_with_cache] *)
Definition compute_output_with_cache (target_msg : BlockHash)
    (message_weight_map agreeing_weight_map : WeightMap) : Cached f32 :=
  let total_stake := f32_of_i64 (sum_i64 (stakes message_weight_map)) in
  if negb (f32_lt f32_zero total_stake) then c_lift (Some Panic)
  else if f32_le (f32_of_i64 (sum_i64 (stakes agreeing_weight_map))) (f32_div total_stake f32_two)
  then c_ok MIN_FAULT_TOLERANCE
  else
    max_clique_weight <~ compute_max_clique_weight target_msg agreeing_weight_map ;~
    c_ok (fault_tolerance (f32_of_i64 max_clique_weight) total_stake).
(** [fn compute_output] *)
Definition compute_output (target_msg : BlockHash)
    (message_weight_map agreeing_weight_map : WeightMap) : Outcome f32 :=
  (compute_output_with_cache target_msg message_weight_map agreeing_weight_map new_run_cache).1.

(** [fn normalized_fault_tolerance], with [agree] and [agreeing_weight_map_f]; the order of the map
    only decides which error is reported *)
Definition agree (v : Validator) (message : BlockHash) : Outcome bool :=
  match latest_message_hash dag v with
  | Some h => is_in_main_chain dag fuel message h
  | None => Some (Ok false)
  end.
Fixpoint agreeing_weight_map_f (l : list (Validator * Z)) (target_msg : BlockHash) :
  Outcome WeightMap :=
  match l with
  | [] => Some (Ok ∅)
  | (v, w) :: l =>
    match agree v target_msg with
    | Some (Ok b) =>
      rest ← agreeing_weight_map_f l target_msg;
      Some (m <-! rest; Ok (if b : bool then <[v := w]> m else m))
    | Some (Err e) => Some (Err e)
    | Some Panic => Some Panic
    | None => None
    end
  end.
Definition normalized_fault_tolerance (target_msg : BlockHash) : Outcome f32 :=
  if dag_contains dag target_msg then
    match get_corresponding_weight_map target_msg with
    | Ok full_weight_map =>
      agreeing ← agreeing_weight_map_f (map_to_list full_weight_map) target_msg;
      match agreeing with
      | Ok agreeing_weight_map => compute_output target_msg full_weight_map agreeing_weight_map
      | Err e => Some (Err e)
      | Panic => Some Panic
      end
    | Err e => Some (Err e)
    | Panic => Some Panic
    end
  else Some (Ok MIN_FAULT_TOLERANCE).
End oracle.
