(* ===== verification/CliqueOracleThms.v ===== *)
(** * The safety oracle computes the fault tolerance of a block

    On a DAG whose blocks are known, the caches of a run never change what is computed, whatever
    their bounds; the pairs that are found are those of validators that can see no disagreement
    of each other, and the fault tolerance is the one that the heaviest clique of them gives. *)
From Stdlib Require Import SpecFloat.
From S2P Require Import Prelude HotStoreSig HistoryRepo CasperMessage BlockDag BlockDagWalk Clique CliqueThms CliqueOracle.
Open Scope res_scope.

(** ** Rounding keeps a number positive *)

#[local] Open Scope Z_scope.
Lemma shr_1_pos mrs m : shr_m mrs = Z.pos m -> 1 < Z.pos (digits2_pos m) ->
  exists m', shr_m (shr_1 mrs) = Z.pos m' /\ Z.pos (digits2_pos m') = Z.pos (digits2_pos m) - 1.
Proof.
  destruct mrs as [x r s]. cbn [shr_m]. intros ->. destruct m as [m|m|]; cbn [shr_1 shr_m digits2_pos]; intros Hd; try lia;
    exists m; split; try reflexivity; lia.
Qed.
Lemma shr_iter_pos p : forall mrs m, shr_m mrs = Z.pos m -> Z.pos p < Z.pos (digits2_pos m) ->
  exists m', shr_m (SpecFloat.iter_pos shr_1 p mrs) = Z.pos m' /\
    Z.pos (digits2_pos m') = Z.pos (digits2_pos m) - Z.pos p.
Proof.
  induction p as [p IH|p IH|]; intros mrs m Hm Hd; cbn [SpecFloat.iter_pos].
  - destruct (shr_1_pos mrs m Hm) as (m1 & H1 & D1); [lia|].
    destruct (IH _ m1 H1) as (m2 & H2 & D2); [lia|]. destruct (IH _ m2 H2) as (m3 & H3 & D3); [lia|].
    exists m3. split; [exact H3|lia].
  - destruct (IH _ m Hm) as (m2 & H2 & D2); [lia|]. destruct (IH _ m2 H2) as (m3 & H3 & D3); [lia|].
    exists m3. split; [exact H3|lia].
  - destruct (shr_1_pos mrs m Hm) as (m1 & H1 & D1); [lia|]. exists m1. split; [exact H1|lia].
Qed.
Lemma shr_fexp_pos m e l : -149 <= e ->
  exists mrs e' m', shr_fexp 24 128 (Z.pos m) e l = (mrs, e') /\ shr_m mrs = Z.pos m' /\ -149 <= e'.
Proof.
  intros He. unfold shr_fexp, fexp. change (emin 24 128) with (-149). cbn [Zdigits2].
  assert (shr_m (shr_record_of_loc (Z.pos m) l) = Z.pos m) as Hm by (destruct l as [|[]]; reflexivity).
  set (n := Z.max _ _ - e). unfold shr. destruct n as [|p|p] eqn:Hn; [eauto 10| |eauto 10].
  destruct (shr_iter_pos p _ m Hm) as (m' & H & _); [lia|]. exists (SpecFloat.iter_pos shr_1 p (shr_record_of_loc (Z.pos m) l)), (e + Z.pos p), m'.
  split; [reflexivity|]. split; [exact H|lia].
Qed.
Lemma round_pos m l : exists m', round_nearest_even (Z.pos m) l = Z.pos m'.
Proof. destruct l as [|[]]; cbn [round_nearest_even]; try (destruct (Z.even _)); eauto; exists (m + 1)%positive; lia. Qed.
(** A positive stake is positive as an [f32]. *)
Lemma f32_positive z : 0 < z -> f32_lt f32_zero (f32_of_i64 z) = true.
Proof.
  intros Hz. unfold f32_lt, f32_zero, f32_of_i64. destruct z as [|m|m]; [lia| |lia]. cbn [binary_normalize]. unfold binary_round.
  destruct (shl_align m 0 _) as [mz ez] eqn:Hs.
  assert (-149 <= ez) as He.
  { unfold shl_align, fexp in Hs. change (emin 24 128) with (-149) in Hs.
    destruct (_ - 0) eqn:Hd in Hs; injection Hs as <- <-; lia. }
  unfold binary_round_aux. destruct (shr_fexp_pos mz ez loc_Exact He) as (mrs & e' & m' & -> & Hm' & He').
  rewrite Hm'. destruct (round_pos m' (loc_of_shr_record mrs)) as (m2 & ->).
  destruct (shr_fexp_pos m2 e' loc_Exact He') as (mrs2 & e2 & m3 & -> & -> & _).
  destruct (e2 <=? 128 - 24); reflexivity.
Qed.
Close Scope Z_scope.
Open Scope nat_scope.

(** ** Inserting into a bounded cache *)
Lemma bounded_cache_insert_lookup {K V} `{Countable K} (cmp : K -> K -> comparison) (m : gmap K V) k v n i x :
  bounded_cache_insert cmp m k v n !! i = Some x -> (i = k /\ x = v) \/ m !! i = Some x.
Proof.
  unfold bounded_cache_insert. rewrite lookup_insert_Some. intros [[-> ->]|[Hne Hx]]; [by left|right].
  case_decide; [|done]. destruct (head _) as [k'|]; [|done].
  rewrite lookup_delete_Some in Hx. tauto.
Qed.
(** The cache stays within its bound. *)
Lemma bounded_cache_insert_size {K V} `{Countable K} (cmp : K -> K -> comparison) (m : gmap K V) k v n :
  0 < n -> size m <= n -> size (bounded_cache_insert cmp m k v n) <= n.
Proof.
  intros Hn Hm. unfold bounded_cache_insert. case_decide as Hfull.
  - destruct Hfull as (_ & Hk & Hsz). destruct (head _) as [k'|] eqn:Hh.
    + apply head_Some_elem_of in Hh. rewrite sort_by_perm in Hh.
      apply list_elem_of_fmap in Hh as ([k'' v'] & -> & Hin%elem_of_map_to_list). cbn [fst].
      rewrite map_size_insert, map_size_delete, Hin. unfold id. destruct (delete k'' m !! k); lia.
    + exfalso. apply head_None in Hh. pose proof (sort_by_perm cmp (map_to_list m).*1) as Hp.
      rewrite Hh in Hp. symmetry in Hp. apply Permutation_nil_r, fmap_nil_inv in Hp.
      rewrite <-length_map_to_list, Hp in Hsz. cbn in Hsz. lia.
  - rewrite map_size_insert. destruct (m !! k) eqn:Hk; [done|]. cbn. destruct (decide (S (size m) <= n)); [lia|].
    exfalso. apply Hfull. split_and!; [done..|lia].
Qed.

Section oracle.
Context (dag : KeyValueDagRepresentation) (idx : gmap BlockHash BlockMetadata).
Context (fuel : nat).

(** ** What the caches hold *)

Record cache_ok (c : CliqueOracleRunCache) : Prop := {
  latest_message_cached : forall v x, latest_message_cache c !! v = Some x -> x = latest_message_hash dag v;
  latest_justifications_cached : forall v js, latest_justifications_cache c !! v = Some js ->
    exists h md, latest_message_hash dag v = Some h /\ lookup_unsafe dag idx h = Ok md /\
      js = justifications_of md;
  self_justification_cached : forall h x, self_justification_cache c !! h = Some x ->
    self_justification dag h = Ok x;
  in_main_chain_cached : forall t h b, in_main_chain_cache c !! (t, h) = Some b ->
    is_in_main_chain dag fuel t h = Some (Ok b);
}.
Lemma cache_ok_new : cache_ok new_run_cache.
Proof. split; cbn; intros *; rewrite lookup_empty; done. Qed.

(** [m] returns a value with [P] from every cache that holds values of the DAG, and leaves such
    a cache. *)
Definition yields {X} (m : Cached X) (P : X -> Prop) : Prop :=
  forall c, cache_ok c -> exists x c', m c = (Some (Ok x), c') /\ cache_ok c' /\ P x.
Lemma yields_ok {X} (x : X) (P : X -> Prop) : P x -> yields (c_ok x) P.
Proof. intros Hx c Hc. by exists x, c. Qed.
Lemma yields_bind {X Y} (m : Cached X) (k : X -> Cached Y) (P : X -> Prop) (Q : Y -> Prop) :
  yields m P -> (forall x, P x -> yields (k x) Q) -> yields (c_bind m k) Q.
Proof.
  intros Hm Hk c Hc. destruct (Hm c Hc) as (x & c' & Hx & Hc' & HP).
  destruct (Hk x HP c' Hc') as (y & c'' & Hy & Hc'' & HQ). exists y, c''. unfold c_bind. by rewrite Hx.
Qed.
Lemma yields_weaken {X} (m : Cached X) (P Q : X -> Prop) :
  yields m P -> (forall x, P x -> Q x) -> yields m Q.
Proof. intros Hm HPQ c Hc. destruct (Hm c Hc) as (x & c' & Hx & Hc' & HP). eauto 10. Qed.

Lemma cached_self_justification_yields h x :
  self_justification dag h = Ok x -> yields (cached_self_justification dag h) (eq x).
Proof.
  intros Hx c Hc. unfold cached_self_justification. destruct (self_justification_cache c !! h) as [y|] eqn:Hy.
  - apply (self_justification_cached _ Hc) in Hy. exists y, c. split_and!; [done..|congruence].
  - rewrite Hx. eexists _, _. split; [done|]. split; [|done]. destruct Hc as [H1 H2 H3 H4].
    split; cbn; [done..| |done]. intros i z [[-> ->]|Hi]%bounded_cache_insert_lookup; auto.
Qed.
Lemma cached_is_in_main_chain_yields t h b :
  is_in_main_chain dag fuel t h = Some (Ok b) -> yields (cached_is_in_main_chain dag fuel t h) (eq b).
Proof.
  intros Hx c Hc. unfold cached_is_in_main_chain. destruct (in_main_chain_cache c !! (t, h)) as [y|] eqn:Hy.
  - apply (in_main_chain_cached _ Hc) in Hy. exists y, c. split_and!; [done..|congruence].
  - rewrite Hx. eexists _, _. split; [done|]. split; [|done]. destruct Hc as [H1 H2 H3 H4].
    split; cbn; [done..|]. intros t' h' z [[[= -> ->] ->]|Hi]%bounded_cache_insert_lookup; auto.
Qed.
Lemma cached_latest_message_yields v : yields (cached_latest_message dag v) (eq (latest_message_hash dag v)).
Proof.
  intros c Hc. unfold cached_latest_message. destruct (latest_message_cache c !! v) as [y|] eqn:Hy.
  - apply (latest_message_cached _ Hc) in Hy. by exists y, c.
  - eexists _, _. split; [done|]. split; [|done]. destruct Hc as [H1 H2 H3 H4].
    split; cbn; [|done..]. intros i z [[-> <-]|[_ Hi]]%lookup_insert_Some; auto.
Qed.
Lemma cached_justifications_yields v h md :
  latest_message_hash dag v = Some h -> lookup_unsafe dag idx h = Ok md ->
  yields (cached_justifications dag idx v h) (eq (justifications_of md)).
Proof.
  intros Hh Hmd c Hc. unfold cached_justifications.
  destruct (latest_justifications_cache c !! v) as [y|] eqn:Hy.
  - apply (latest_justifications_cached _ Hc) in Hy as (h' & md' & Hh' & Hmd' & ->).
    exists (justifications_of md'), c. split_and!; [done..|congruence].
  - rewrite Hmd. eexists _, _. split; [done|]. split; [|done]. destruct Hc as [H1 H2 H3 H4].
    split; cbn; [done| |done..]. intros i z [[-> <-]|[_ Hi]]%lookup_insert_Some; eauto.
Qed.

(** ** The DAG *)

(** Every block is stored with its metadata and number, and what the DAG refers to are blocks;
    [rank] decreases along the self justifications. *)
Context (rank : BlockHash -> nat).
Record dag_sound : Prop := {
  sound_numbered : numbered dag;
  sound_block : forall h, h ∈ r_dag_set dag -> length h = BLOCK_HASH_LENGTH /\
    (exists n, r_block_number_map dag !! h = Some n /\ (0 <= n < Z.of_nat fuel)%Z) /\ is_Some (idx !! h);
  sound_self : forall h h', r_self_justification_map dag !! h = Some h' ->
    h' ∈ r_dag_set dag /\ rank h' < rank h;
  sound_rank : forall h, rank h < fuel;
  sound_latest : forall v h, latest_message_hash dag v = Some h -> h ∈ r_dag_set dag;
  sound_justification : forall h md j, h ∈ r_dag_set dag -> idx !! h = Some md ->
    j ∈ m_justifications md -> latest_block_hash j ∈ r_dag_set dag;
  sound_parent : forall h md p, h ∈ r_dag_set dag -> idx !! h = Some md ->
    p ∈ m_parents md -> p ∈ r_dag_set dag;
}.
Hypothesis sound : dag_sound.
Context (target_msg : BlockHash).
Hypothesis target_in : target_msg ∈ r_dag_set dag.

Lemma known_lookup h : h ∈ r_dag_set dag -> exists md, lookup_unsafe dag idx h = Ok md /\ idx !! h = Some md.
Proof.
  intros Hh. destruct (sound_block sound h Hh) as (_ & _ & [md Hmd]). exists md. split; [|done].
  unfold lookup_unsafe, lookup_block. by rewrite decide_True, Hmd.
Qed.
Lemma known_self h : h ∈ r_dag_set dag -> exists x, self_justification dag h = Ok x /\
  (forall h', x = Some h' -> h' ∈ r_dag_set dag /\ rank h' < rank h).
Proof.
  intros Hh. unfold self_justification. destruct (r_self_justification_map dag !! h) as [h'|] eqn:Hs.
  - eexists. split; [done|]. intros ? [= <-]. by apply (sound_self sound).
  - destruct (sound_block sound h Hh) as (Hl & _ & _). unfold dag_contains.
    rewrite !bool_decide_eq_true_2 by done. cbn [andb]. eexists. split; [done|]. done.
Qed.
Lemma known_main h : h ∈ r_dag_set dag ->
  exists b, is_in_main_chain dag fuel target_msg h = Some (Ok b) /\ (b = true <-> rtc (main_edge dag) h target_msg).
Proof.
  intros Hh. destruct (sound_block sound _ target_in) as (_ & (n & Hn & Hn0) & _).
  destruct (sound_block sound h Hh) as (_ & (k & Hk & Hk0) & _).
  apply (is_in_main_chain_spec dag (sound_numbered sound) fuel target_msg h n k); [done..|lia].
Qed.

(** ** Disagreement *)

(** [y] is one of the blocks that the self justifications of [h] lead to before [stopper] *)
Inductive before (stopper : BlockHash) : BlockHash -> BlockHash -> Prop :=
  | before_here h h' : self_justification dag h = Ok (Some h') -> h' <> stopper -> before stopper h h'
  | before_step h h' y : self_justification dag h = Ok (Some h') -> h' <> stopper ->
      before stopper h' y -> before stopper h y.
Definition stopper_of (lm_a_j_b : BlockHash) : BlockHash :=
  match self_justification dag lm_a_j_b with Ok (Some h) => h | _ => lm_a_j_b end.
(** Some message of the creator of [lm_b] that the justification does not cover is off the main
    chain through the target. *)
Definition disagrees (lm_b lm_a_j_b : BlockHash) : Prop :=
  exists y, before (stopper_of lm_a_j_b) lm_b y /\ ~ rtc (main_edge dag) y target_msg.

Lemma disagree_loop_yields n stopper h current :
  self_justification dag h = Ok current -> h ∈ r_dag_set dag ->
  match current with Some h' => S (rank h') < n | None => 0 < n end ->
  yields (disagree_loop dag fuel n target_msg stopper current)
    (fun b => b = true <-> exists y, before stopper h y /\ ~ rtc (main_edge dag) y target_msg).
Proof.
  revert h current. induction n as [|n IH]; intros h current Hs Hh Hn; [destruct current; lia|].
  cbn [disagree_loop]. destruct current as [h'|].
  2:{ apply yields_ok. split; [done|]. intros (y & Hy & _). destruct Hy; congruence. }
  destruct (known_self h Hh) as (x & Hx & Hrank). rewrite Hs in Hx. injection Hx as <-.
  destruct (Hrank h' eq_refl) as [Hh' Hlt]. case_decide as Hstop.
  { apply yields_ok. split; [done|]. intros (y & Hy & _). destruct Hy; congruence. }
  destruct (known_main h' Hh') as (b & Hb & Hiff).
  eapply yields_bind; [by apply cached_is_in_main_chain_yields|]. intros ? <-. destruct b.
  - destruct (known_self h' Hh') as (x & Hx & Hrank').
    eapply yields_bind; [by apply cached_self_justification_yields|]. intros ? <-.
    eapply yields_weaken; [apply (IH h'); [done..|]|].
    + destruct x as [h''|]; [|lia]. destruct (Hrank' h'' eq_refl). lia.
    + intros b ->. split; intros (y & Hy & Hno); exists y; (split; [|done]).
      * by apply before_step with h'.
      * destruct Hy as [h h1 H1 _|h h1 y H1 _ Hy]; replace h1 with h' in * by congruence; [|done].
        destruct Hno. by apply Hiff.
  - apply yields_ok. split; [|done]. intros _. exists h'. split; [by apply before_here|].
    rewrite <-Hiff. done.
Qed.
Lemma never_disagree_yields lm_b lm_a_j_b :
  lm_b ∈ r_dag_set dag -> lm_a_j_b ∈ r_dag_set dag ->
  yields (never_eventually_see_disagreement dag fuel lm_b lm_a_j_b target_msg)
    (fun b => b = true <-> ~ disagrees lm_b lm_a_j_b).
Proof.
  intros Hb Ha. unfold never_eventually_see_disagreement, might_eventually_disagree.
  destruct (known_self _ Ha) as (x & Hx & _). destruct (known_self _ Hb) as (z & Hz & Hrank).
  eapply yields_bind; [|intros r Hr; apply yields_ok; exact Hr].
  eapply yields_bind; [by apply cached_self_justification_yields|]. intros ? <-.
  eapply yields_bind; [by apply cached_self_justification_yields|]. intros ? <-.
  eapply yields_weaken; [apply (disagree_loop_yields fuel _ lm_b); [done..|]|].
  - pose proof (sound_rank sound lm_b). destruct z as [h|]; [destruct (Hrank h eq_refl)|]; lia.
  - intros r Hr. unfold disagrees.
    replace (stopper_of lm_a_j_b) with (default lm_a_j_b x) by (unfold stopper_of; rewrite Hx; by destruct x).
    rewrite <-Hr. destruct r; naive_solver.
Qed.

(** ** The agreeing pairs *)

(** The justification of validator [u] in the latest message of [v] *)
Definition justifies (v u : Validator) (h : BlockHash) : Prop :=
  exists lm md, latest_message_hash dag v = Some lm /\ idx !! lm = Some md /\ justifications_of md !! u = Some h.
(** Each of the two validators is seen in the latest message of the other, and neither can see
    a disagreement of the other. *)
Definition mutual (a b : Validator) : Prop :=
  exists lm_a lm_b lm_a_j_b lm_b_j_a,
    latest_message_hash dag a = Some lm_a /\ latest_message_hash dag b = Some lm_b /\
    justifies a b lm_a_j_b /\ justifies b a lm_b_j_a /\
    ~ disagrees lm_b lm_a_j_b /\ ~ disagrees lm_a lm_b_j_a.
Lemma mutual_sym a b : mutual a b -> mutual b a.
Proof. intros (la & lb & ja & jb & ?). exists lb, la, jb, ja. tauto. Qed.

Context (agreeing : gset Validator).
Definition relevant (md : BlockMetadata) : gmap Validator BlockHash :=
  filter (fun kv => kv.1 ∈ agreeing) (justifications_of md).
Definition entry (v : Validator) : option pairwise :=
  lm ← latest_message_hash dag v; md ← idx !! lm;
  if decide (relevant md = ∅) then None else Some (v, lm, relevant md).

Lemma pairwise_validators_yields l :
  yields (pairwise_validators dag idx agreeing l) (eq (omap entry l)).
Proof.
  induction l as [|v l IH]; cbn [pairwise_validators omap list_omap]; [by apply yields_ok|].
  eapply yields_bind; [apply cached_latest_message_yields|]. intros ? <-. unfold entry at 1.
  destruct (latest_message_hash dag v) as [lm|] eqn:Hlm; cbn [mbind option_bind]; [|done].
  destruct (known_lookup lm) as (md & Hl & Hmd); [by apply (sound_latest sound v)|].
  eapply yields_bind; [by apply (cached_justifications_yields v lm md)|]. intros ? <-.
  rewrite Hmd. cbn [mbind option_bind]. fold (relevant md). case_decide; [done|].
  eapply yields_bind; [exact IH|]. intros ? <-. by apply yields_ok.
Qed.
Lemma entry_Some v p : entry v = Some p ->
  exists lm md, p = (v, lm, relevant md) /\ latest_message_hash dag v = Some lm /\ idx !! lm = Some md.
Proof.
  unfold entry. intros Hp. destruct (latest_message_hash dag v) as [lm|]; [|done]. cbn in Hp.
  destruct (idx !! lm) as [md|] eqn:Hmd; [|done]. cbn in Hp. case_decide; [done|]. injection Hp as <-. by exists lm, md.
Qed.
Lemma relevant_lookup md u h :
  relevant md !! u = Some h <-> justifications_of md !! u = Some h /\ u ∈ agreeing.
Proof. unfold relevant. rewrite map_lookup_filter_Some. done. Qed.
Lemma mutual_entry a b : b ∈ agreeing -> mutual a b -> is_Some (entry a).
Proof.
  intros Hb (la & lb & ja & jb & Ha & _ & (lm & md & Hlm & Hmd & Hj) & _). unfold entry.
  rewrite Hlm. cbn. rewrite Hmd. cbn. rewrite decide_False; [done|]. intros He.
  assert (relevant md !! b = Some ja) as Hx by by apply relevant_lookup.
  rewrite He, lookup_empty in Hx. done.
Qed.
Lemma justifications_of_known lm md u h :
  lm ∈ r_dag_set dag -> idx !! lm = Some md -> justifications_of md !! u = Some h -> h ∈ r_dag_set dag.
Proof.
  intros Hlm Hmd. unfold justifications_of.
  assert (forall l (m : gmap Validator BlockHash), (forall j, j ∈ l -> latest_block_hash j ∈ r_dag_set dag) ->
    (forall u h, m !! u = Some h -> h ∈ r_dag_set dag) ->
    forall u h, foldl (fun m j => <[validator j := latest_block_hash j]> m) m l !! u = Some h ->
      h ∈ r_dag_set dag) as Hl.
  { clear. induction l as [|j l IH]; intros m Hl Hm; cbn [foldl]; [done|].
    apply IH; [intros j' Hj'; apply Hl; by right|]. intros u h [[_ <-]|[_ Hu]]%lookup_insert_Some; [|by eapply Hm].
    apply Hl. left. }
  apply Hl; [|intros *; by rewrite lookup_empty]. intros j. by apply (sound_justification sound lm).
Qed.

Lemma check_pair_yields a b pa pb :
  a ∈ agreeing -> b ∈ agreeing -> entry a = Some pa -> entry b = Some pb ->
  yields (check_pair dag fuel target_msg pa pb) (fun r => r = true <-> mutual a b).
Proof.
  intros Ha Hb (lma & mda & -> & Hla & Hma)%entry_Some (lmb & mdb & -> & Hlb & Hmb)%entry_Some.
  pose proof (sound_latest sound _ _ Hla) as Hka. pose proof (sound_latest sound _ _ Hlb) as Hkb.
  cbn [check_pair]. destruct (relevant mda !! b) as [ja|] eqn:Hja.
  2:{ apply yields_ok. split; [done|]. intros (? & ? & j & ? & _ & _ & (lm & md & Hlm & Hmd & Hj) & _).
      rewrite Hla in Hlm. injection Hlm as <-. rewrite Hma in Hmd. injection Hmd as <-.
      rewrite (proj2 (relevant_lookup mda b j)) in Hja; done. }
  destruct (relevant mdb !! a) as [jb|] eqn:Hjb.
  2:{ apply yields_ok. split; [done|]. intros (? & ? & ? & j & _ & _ & _ & (lm & md & Hlm & Hmd & Hj) & _).
      rewrite Hlb in Hlm. injection Hlm as <-. rewrite Hmb in Hmd. injection Hmd as <-.
      rewrite (proj2 (relevant_lookup mdb a j)) in Hjb; done. }
  apply relevant_lookup in Hja as [Hja _], Hjb as [Hjb _].
  eapply yields_bind; [apply never_disagree_yields; [done|by apply (justifications_of_known lma mda b)]|].
  intros r Hr. eapply yields_bind; [apply never_disagree_yields; [done|by apply (justifications_of_known lmb mdb a)]|].
  intros r' Hr'. apply yields_ok. rewrite andb_true_iff, Hr, Hr'. split.
  - intros [H1 H2]. exists lma, lmb, ja, jb. unfold justifies. eauto 20.
  - intros (la & lb & ja' & jb' & H1 & H2 & (? & ? & H3 & H4 & H5) & (? & ? & H6 & H7 & H8) & H9).
    by simplify_eq.
Qed.
Lemma pairs_with_yields a pa l :
  a ∈ agreeing -> entry a = Some pa -> (forall b, b ∈ l -> b ∈ agreeing) ->
  yields (pairs_with dag fuel target_msg pa (omap entry l))
    (fun es => forall u v, (u, v) ∈ es <-> u = a /\ v ∈ l /\ is_Some (entry v) /\ mutual u v).
Proof.
  intros Ha Hpa. induction l as [|b l IH]; intros Hl; cbn [omap list_omap].
  { apply yields_ok. intros u v. rewrite !elem_of_nil. tauto. }
  assert (forall b, b ∈ l -> b ∈ agreeing) as Hl' by (intros; apply Hl; by right).
  destruct (entry b) as [pb|] eqn:Hpb.
  2:{ eapply yields_weaken; [by apply IH|]. intros es Hes u v. cbn beta in Hes. rewrite Hes, elem_of_cons.
      split; [tauto|]. intros (-> & [->|Hv] & Hs & Hm); [|done]. rewrite Hpb in Hs. by destruct Hs. }
  cbn [pairs_with]. eapply yields_bind; [apply (check_pair_yields a b); [done|apply Hl; left|done..]|].
  intros r Hr. eapply yields_bind; [by apply IH|]. intros es Hes. cbn beta in Hes, Hr. apply yields_ok. intros u v.
  destruct (entry_Some _ _ Hpa) as (lma & mda & -> & _). destruct (entry_Some _ _ Hpb) as (lmb & mdb & Hb' & _).
  rewrite elem_of_cons. destruct r; subst pb; cbn [fst].
  - rewrite elem_of_cons, Hes. split; [|naive_solver]. intros [[= -> ->]|Hx]; [|tauto].
    split_and!; [done|by left|done|by apply Hr].
  - rewrite Hes. split; [tauto|]. intros (-> & [->|Hv] & Hs & Hm); [|done]. by apply Hr in Hm.
Qed.
Lemma all_pairs_yields l :
  NoDup l -> (forall b, b ∈ l -> b ∈ agreeing) ->
  yields (all_pairs dag fuel target_msg (omap entry l)) (fun es =>
    (forall u v, (u, v) ∈ es -> u ∈ l /\ v ∈ l /\ u <> v /\ mutual u v) /\
    (forall u v, u ∈ l -> v ∈ l -> u <> v -> mutual u v -> (u, v) ∈ es \/ (v, u) ∈ es)).
Proof.
  induction l as [|a l IH]; intros Hnd Hl; cbn [omap list_omap].
  { apply yields_ok. split; [intros u v Hx; by apply elem_of_nil in Hx|]. intros u v Hu. by apply elem_of_nil in Hu. }
  apply NoDup_cons in Hnd as [Ha Hnd]. assert (forall b, b ∈ l -> b ∈ agreeing) as Hl' by (intros; apply Hl; by right).
  assert (forall u v, u ∈ a :: l -> v ∈ a :: l -> mutual u v -> is_Some (entry u) /\ is_Some (entry v)) as Hent.
  { intros u v Hu Hv Hm. split; [by apply (mutual_entry u v (Hl v Hv))|by apply (mutual_entry v u (Hl u Hu)), mutual_sym]. }
  destruct (entry a) as [pa|] eqn:Hpa.
  - cbn [all_pairs]. eapply yields_bind; [apply (pairs_with_yields a); [apply Hl; left|done..]|].
    intros first Hfirst. cbn beta in Hfirst. eapply yields_bind; [by apply IH|]. intros rest [H1 H2]. apply yields_ok. split.
    + intros u v [(-> & Hv & _ & Hm)%Hfirst|(Hu & Hv & Hne & Hm)%H1]%elem_of_app.
      * split_and!; [left|by right| |done]. by intros ->.
      * split_and!; [by right|by right|done..].
    + intros u v Hu Hv Hne Hm. destruct (Hent u v Hu Hv Hm) as [He He']. setoid_rewrite elem_of_app.
      apply elem_of_cons in Hu as [->|Hu], Hv as [->|Hv]; [done|..].
      * left. left. by apply Hfirst.
      * right. left. apply Hfirst. split_and!; [done..|by apply mutual_sym].
      * destruct (H2 u v Hu Hv Hne Hm); tauto.
  - eapply yields_weaken; [by apply IH|]. intros es [H1 H2]. split.
    + intros u v (Hu & Hv & ?)%H1. split_and!; [by right|by right|tauto..].
    + intros u v Hu Hv Hne Hm. destruct (Hent u v Hu Hv Hm) as [He He'].
      apply elem_of_cons in Hu as [->|Hu]; [by destruct He; congruence|].
      apply elem_of_cons in Hv as [->|Hv]; [by destruct He'; congruence|]. by apply H2.
Qed.
End oracle.

(** ** The stakes *)

Lemma stakes_weights (m : gmap Validator Z) : stakes m = weight_of m <$> (map_to_list m).*1.
Proof.
  unfold stakes. rewrite <-list_fmap_compose. apply list_fmap_ext. intros i [v w] Hi. cbn.
  apply list_elem_of_lookup_2, elem_of_map_to_list in Hi. unfold weight_of. by rewrite Hi.
Qed.
Lemma sum_stakes (m : gmap Validator Z) :
  (forall v, 0 <= weight_of m v)%Z -> (weight m (dom m) <= i64_max)%Z -> sum_i64 (stakes m) = weight m (dom m).
Proof.
  intros Hm Hle. rewrite stakes_weights. unfold sum_i64.
  assert (weight m (dom m) = total m (map_to_list m).*1) as Heq.
  { unfold weight. apply total_perm. apply NoDup_Permutation; [apply NoDup_elements|apply NoDup_fst_map_to_list|].
    intros v. rewrite elem_of_elements, elem_of_dom, list_elem_of_fmap. split.
    - intros [w Hv]. exists (v, w). by rewrite elem_of_map_to_list.
    - intros ([v' w] & -> & Hv%elem_of_map_to_list). by exists w. }
  rewrite Heq in *. rewrite sum_i64_exact; [lia|done|lia|lia].
Qed.

Lemma weight_submap (wm m : gmap Validator Z) s : m ⊆ wm -> s ⊆ dom m -> weight m s = weight wm s.
Proof.
  intros Hsub Hs. unfold weight, total. f_equal. apply list_fmap_ext. intros i v Hi.
  apply list_elem_of_lookup_2, elem_of_elements, Hs, elem_of_dom in Hi as [w Hv].
  unfold weight_of. by rewrite Hv, (lookup_weaken _ _ _ _ Hv Hsub).
Qed.
Lemma weight_submap_le (wm m : gmap Validator Z) :
  (forall v, 0 <= weight_of wm v)%Z -> m ⊆ wm -> (weight m (dom m) <= weight wm (dom wm))%Z.
Proof.
  intros Hpos Hsub. rewrite (weight_submap wm m) by done. apply weight_mono; [done|]. by apply subseteq_dom.
Qed.

Section theorem.
Context (dag : KeyValueDagRepresentation) (idx : gmap BlockHash BlockMetadata).
Context (iter : gset Validator -> list Validator) (fuel : nat) (rank : BlockHash -> nat).
Hypothesis iter_perm : forall s, iter s ≡ₚ elements s.
Hypothesis sound : dag_sound dag idx fuel rank.
Context (target_msg : BlockHash).
Hypothesis target_in : target_msg ∈ r_dag_set dag.

(** A set of validators each two of which can see no disagreement of each other *)
Definition committed (s : gset Validator) : Prop :=
  forall u v, u ∈ s -> v ∈ s -> u <> v -> mutual dag idx target_msg u v.
(** The greatest weight of such a set *)
Definition greatest (m : gmap Validator Z) (w : Z) : Prop :=
  (exists s, s ⊆ dom m /\ committed s /\ weight m s = w) /\
  (forall s, s ⊆ dom m -> committed s -> (weight m s <= w)%Z).

Lemma compute_max_clique_weight_yields (m : gmap Validator Z) :
  (forall v, 0 <= weight_of m v)%Z -> (weight m (dom m) <= i64_max)%Z -> size (dom m) < fuel ->
  yields dag idx fuel (compute_max_clique_weight dag idx iter fuel target_msg m) (greatest m).
Proof.
  intros Hm Hle Hf. unfold compute_max_clique_weight, compute_agreeing_validator_pairs.
  eapply yields_bind.
  - eapply yields_bind; [by apply (pairwise_validators_yields dag idx fuel rank sound)|]. intros ? <-.
    apply (all_pairs_yields dag idx fuel rank sound target_msg target_in (dom m)).
    + rewrite sort_by_perm. apply NoDup_elements.
    + intros b. rewrite sort_by_perm. by rewrite elem_of_elements.
  - intros es [H1 H2].
    assert (forall x, x ∈ sort_by bytes_cmp (elements (dom m)) <-> x ∈ dom m) as Hx.
    { intros x. by rewrite sort_by_perm, elem_of_elements. }
    setoid_rewrite Hx in H1. setoid_rewrite Hx in H2.
    assert (get_node_set es ⊆ dom m) as Hsub.
    { intros v (u & [(? & ? & ?)%H1|(? & ? & ?)%H1])%get_node_set_spec; done. }
    destruct (clique_exact iter iter_perm es m fuel) as (w & Hw & (s & Hs & Hc & Hws) & Hbest).
    + done.
    + etrans; [|exact Hle]. by apply weight_mono.
    + apply subseteq_size in Hsub. lia.
    + unfold vertices in *. rewrite (subseteq_union_1_L _ _ Hsub) in Hs, Hbest.
      intros c Hcc. exists w, c. unfold c_lift. rewrite Hw. split_and!; [done..|split].
      * exists s. split_and!; [done| |done]. intros u v Hu Hv Hne.
        destruct (proj1 (get_adj_spec es u v) (Hc u v Hu Hv Hne)) as [_ [Hin|Hin]]; apply H1 in Hin as (_ & _ & _ & Hmu);
          [done|by apply mutual_sym].
      * intros t Ht Hct. apply Hbest; [done|]. intros u v Hu Hv Hne. apply get_adj_spec.
        split; [done|]. by apply H2; auto.
Qed.

(** The validators of the map whose latest message has the target on its main chain *)
Definition agrees (v : Validator) : Prop :=
  exists lm, latest_message_hash dag v = Some lm /\ rtc (main_edge dag) lm target_msg.
Lemma agree_spec v : exists b, agree dag fuel v target_msg = Some (Ok b) /\ (b = true <-> agrees v).
Proof.
  unfold agree, agrees. destruct (latest_message_hash dag v) as [lm|] eqn:Hlm.
  - destruct (known_main dag idx fuel rank sound target_msg target_in lm) as (b & Hb & Hiff);
      [by apply (sound_latest _ _ _ _ sound v)|].
    exists b. split; [done|]. naive_solver.
  - exists false. split; [done|]. naive_solver.
Qed.
Lemma agreeing_weight_map_spec l :
  NoDup l.*1 -> exists m, agreeing_weight_map_f dag fuel l target_msg = Some (Ok m) /\
    forall v w, m !! v = Some w <-> (v, w) ∈ l /\ agrees v.
Proof.
  induction l as [|[v w] l IH]; cbn [agreeing_weight_map_f]; intros Hnd.
  { exists ∅. split; [done|]. intros v w. rewrite lookup_empty, elem_of_nil. naive_solver. }
  cbn in Hnd. apply NoDup_cons in Hnd as [Hv Hnd]. destruct (IH Hnd) as (m & Hm & Hspec).
  destruct (agree_spec v) as (b & Hb & Hiff). rewrite Hb, Hm. cbn. eexists. split; [done|].
  assert (forall x, (v, x) ∉ l) as Hv'.
  { intros x Hin. apply Hv. by apply (list_elem_of_fmap_2 fst _ (v, x)). }
  intros u x. rewrite elem_of_cons. destruct b.
  - rewrite lookup_insert_Some, Hspec. assert (agrees v) by by apply Hiff.
    split; [naive_solver|]. intros [[[= -> ->]|Hin] Ha]; [by left|right]. split; [|done].
    intros ->. by apply Hv' in Hin.
  - rewrite Hspec. assert (~ agrees v) by (rewrite <-Hiff; done). naive_solver.
Qed.

(** What the oracle returns for a block with weight map [wm] *)
Definition tolerance (wm agreeing : gmap Validator Z) (best : Z) : res KvStoreError f32 :=
  let total_stake := f32_of_i64 (weight wm (dom wm)) in
  if negb (f32_lt f32_zero total_stake) then Panic
  else if f32_le (f32_of_i64 (weight agreeing (dom agreeing))) (f32_div total_stake f32_two)
  then Ok MIN_FAULT_TOLERANCE
  else Ok (fault_tolerance (f32_of_i64 best) total_stake).
Lemma compute_output_exact (wm m : gmap Validator Z) c :
  (forall v, 0 <= weight_of wm v)%Z -> (weight wm (dom wm) <= i64_max)%Z -> size (dom wm) < fuel -> m ⊆ wm ->
  cache_ok dag idx fuel c ->
  exists best c', greatest m best /\
    compute_output_with_cache dag idx iter fuel target_msg wm m c = (Some (tolerance wm m best), c') /\
    cache_ok dag idx fuel c'.
Proof.
  intros Hpos Hle Hf Hsub Hc. pose proof (subseteq_dom _ _ Hsub) as Hdom.
  assert (forall v, 0 <= weight_of m v)%Z as Hpos'.
  { intros v. specialize (Hpos v). unfold weight_of in *. destruct (m !! v) as [w|] eqn:Hv; [|done].
    by rewrite (lookup_weaken _ _ _ _ Hv Hsub) in Hpos. }
  assert (weight m (dom m) <= i64_max)%Z as Hle' by (etrans; [by apply (weight_submap_le wm m)|done]).
  destruct (compute_max_clique_weight_yields m Hpos' Hle') with c as (best & c' & Hb & Hc' & Hg); [|done|].
  { apply subseteq_size in Hdom. lia. }
  unfold compute_output_with_cache, tolerance. rewrite !sum_stakes by done.
  destruct (negb _). { by exists best, c. } destruct (f32_le _ _). { by exists best, c. }
  exists best, c'. split_and!; [done| |done]. unfold c_bind. by rewrite Hb.
Qed.

(** C7: the safety oracle is exact.  For a block of a DAG whose blocks are stored, with stakes
    that are not negative and whose sum fits an [i64], [normalized_fault_tolerance] takes the
    bonded validators whose latest message has the block on its main chain, finds the greatest
    stake of a set of them in which each two see each other and can see no disagreement, and
    returns the tolerance of that stake; a block that no majority agrees on gets the least
    value, and a stake of nothing stops the program.  A run that starts from caches filled by
    earlier calls returns the same. *)
Theorem safety_oracle_exact wm c :
  get_corresponding_weight_map dag idx target_msg = Ok wm ->
  (forall v, 0 <= weight_of wm v)%Z -> (weight wm (dom wm) <= i64_max)%Z -> size (dom wm) < fuel ->
  cache_ok dag idx fuel c ->
  exists agreeing best,
    (forall v w, agreeing !! v = Some w <-> wm !! v = Some w /\ agrees v) /\
    greatest agreeing best /\
    normalized_fault_tolerance dag idx iter fuel target_msg = Some (tolerance wm agreeing best) /\
    exists c', compute_output_with_cache dag idx iter fuel target_msg wm agreeing c =
                 (Some (tolerance wm agreeing best), c') /\ cache_ok dag idx fuel c'.
Proof.
  intros Hwm Hpos Hle Hf Hc.
  destruct (agreeing_weight_map_spec (map_to_list wm)) as (m & Hm & Hspec); [apply NoDup_fst_map_to_list|].
  setoid_rewrite elem_of_map_to_list in Hspec.
  assert (m ⊆ wm) as Hsub.
  { apply map_subseteq_spec. intros v w Hv. by apply Hspec in Hv as [? _]. }
  destruct (compute_output_exact wm m c Hpos Hle Hf Hsub Hc) as (best & c' & Hg & Ho & Hc').
  destruct (compute_output_exact wm m new_run_cache Hpos Hle Hf Hsub (cache_ok_new dag idx fuel))
    as (best' & c'' & Hg' & Ho' & _).
  assert (best' = best) as ->.
  { destruct Hg as [(s & Hs & Hcs & <-) Hb], Hg' as [(s' & Hs' & Hcs' & <-) Hb'].
    apply Z.le_antisymm; auto. }
  exists m, best. split_and!; [done..| |by exists c'].
  unfold normalized_fault_tolerance, dag_contains. destruct (sound_block _ _ _ _ sound _ target_in) as (Hlen & _).
  rewrite !bool_decide_eq_true_2 by done. cbn [andb]. rewrite Hwm, Hm. cbn [mbind option_bind].
  unfold compute_output. by rewrite Ho'.
Qed.
End theorem.
