(* ===== verification/Finalizer.v ===== *)
(** * The finalizer

    [casper/src/rust/finality/finalizer.rs]: the stakes that the latest messages translate to the
    blocks of their main chains, the blocks that a majority agrees on, and the first of them whose
    fault tolerance exceeds the threshold.  What depends on time is a parameter: [expired] says
    which of the tests of the work budget fail, [interrupted] which evaluations of the safety
    oracle run into the step timeout, with the cache they leave.  The counters and times that
    are only logged are left out. *)
From Stdlib Require Import SpecFloat.
From S2P Require Import Prelude HotStoreSig HistoryRepo CasperMessage BlockDag Clique CliqueOracle.
Open Scope res_scope.
Open Scope Z_scope.

(** ** [f64] arithmetic *)

Abbreviation f64 := spec_float.
Definition f64_of_Z (z : Z) : f64 := binary_normalize 53 1024 z 0 false.
Definition f64_div (a b : f64) : f64 := SFdiv 53 1024 a b.
Definition f64_le (a b : f64) : bool := SFleb a b.
(** [f64::MIN], the least finite value *)
Definition f64_MIN : f64 := S754_finite true (2 ^ 53 - 1) 971.
(** [f64::from] *)
Definition f64_from (a : f32) : f64 :=
  match a with
  | S754_finite s m e => binary_normalize 53 1024 (if s then Z.neg m else Z.pos m) e s
  | _ => a
  end.

Definition MAX_CLIQUE_CANDIDATES : nat := 128.

Section finalizer.
(** The order in which the values of a weight map and of the agreements are iterated *)
Context (values : WeightMap -> list Z).

(** [fn checked_stake_sum] *)
Definition checked_stake_sum (weight_map : WeightMap) : option Z :=
  foldl (fun acc stake =>
    acc ← acc; if decide (i64_min <= acc + stake <= i64_max) then Some (acc + stake) else None)
    (Some 0) (values weight_map).
(** [fn cannot_be_orphaned] *)
Definition cannot_be_orphaned (message_weight_map agreeing_weight_map : WeightMap) : bool :=
  if existsb (fun stake => bool_decide (stake <= 0)) (values agreeing_weight_map) then false
  else match checked_stake_sum message_weight_map, checked_stake_sum agreeing_weight_map with
       | Some active_stake_total, Some active_stake_agreeing =>
         if decide (active_stake_total <= 0 \/ active_stake_agreeing <= 0) then false
         else bool_decide (active_stake_total < active_stake_agreeing * 2)
       | _, _ => false
       end.
(** [fn fault_tolerance_upper_bound] *)
Definition fault_tolerance_upper_bound (message_weight_map agreeing_weight_map : WeightMap) : f64 :=
  match checked_stake_sum message_weight_map, checked_stake_sum agreeing_weight_map with
  | Some total_stake, Some agreeing_stake =>
    if decide (total_stake <= 0) then f64_MIN
    else f64_div (f64_of_Z (agreeing_stake * 2 - total_stake)) (f64_of_Z total_stake)
  | _, _ => f64_MIN
  end.
(** [fn record_agreement] *)
Definition record_agreement (message_weight_map : WeightMap) (agreeing_validator : Validator) :
  option (Validator * Z) :=
  let stake_agreed := default 0 (message_weight_map !! agreeing_validator) in
  if decide (0 < stake_agreed) then Some (agreeing_validator, stake_agreed) else None.

Context (dag : KeyValueDagRepresentation) (idx : gmap BlockHash BlockMetadata).
Context (iter : gset Validator -> list Validator) (fuel : nat).
Context (expired : nat -> bool).
Context (interrupted : BlockHash -> CliqueOracleRunCache -> option CliqueOracleRunCache).
(** [HashMap::into_values] of the agreements *)
Abbreviation Agreement := (BlockMetadata * WeightMap * WeightMap)%type.
Context (into_values : gmap BlockHash Agreement -> list Agreement).

(** ** Step 1: the agreements, layer by layer *)

Record Aggregation := mkAggregation {
  aggregated_agreements : gmap BlockHash Agreement;
  message_weight_map_cache : gmap BlockHash WeightMap;
  main_parent_cache : gmap BlockHash (option BlockMetadata);
  (** how often the elapsed time was read *)
  ticks : nat;
}.
Definition tick (s : Aggregation) : Aggregation :=
  mkAggregation (aggregated_agreements s) (message_weight_map_cache s) (main_parent_cache s) (S (ticks s)).
(** The weight map of a message; [None] skips the message *)
Definition cached_weight_map (message : BlockMetadata) (s : Aggregation) : option WeightMap * Aggregation :=
  match message_weight_map_cache s !! m_block_hash message with
  | Some cached => (Some cached, s)
  | None =>
    match get_corresponding_weight_map dag idx (m_block_hash message) with
    | Ok fetched =>
      (Some fetched, mkAggregation (aggregated_agreements s)
        (<[m_block_hash message := fetched]> (message_weight_map_cache s)) (main_parent_cache s) (ticks s))
    | _ => (None, s)
    end
  end.
(** The entry of the message, with the agreement of the validator unless there is one *)
Definition aggregate (message : BlockMetadata) (message_weight_map : WeightMap) (agreeing_validator : Validator)
    (s : Aggregation) : Aggregation :=
  let '(md, wm, agreeing_weight_map) :=
    default (message, message_weight_map, ∅) (aggregated_agreements s !! m_block_hash message) in
  let agreeing_weight_map :=
    match record_agreement message_weight_map agreeing_validator with
    | Some (v, stake_agreed) =>
      match agreeing_weight_map !! v with
      | Some _ => agreeing_weight_map
      | None => <[v := stake_agreed]> agreeing_weight_map
      end
    | None => agreeing_weight_map
    end in
  mkAggregation (<[m_block_hash message := (md, wm, agreeing_weight_map)]> (aggregated_agreements s))
    (message_weight_map_cache s) (main_parent_cache s) (ticks s).
Definition cached_main_parent (main_parent_hash : BlockHash) (s : Aggregation) :
  option BlockMetadata * Aggregation :=
  match main_parent_cache s !! main_parent_hash with
  | Some cached => (cached, s)
  | None =>
    let fetched := match lookup_unsafe dag idx main_parent_hash with Ok md => Some md | _ => None end in
    (fetched, mkAggregation (aggregated_agreements s) (message_weight_map_cache s)
       (<[main_parent_hash := fetched]> (main_parent_cache s)) (ticks s))
  end.
(** The main parent of a message, if it is above the last finalized block *)
Definition next_message (curr_lfb_height : Z) (message : BlockMetadata) (s : Aggregation) :
  option BlockMetadata * Aggregation :=
  match head (m_parents message) with
  | Some main_parent_hash =>
    let '(parent_meta, s) := cached_main_parent main_parent_hash s in
    (meta ← parent_meta; if decide (curr_lfb_height < m_block_number meta) then Some meta else None, s)
  | None => (None, s)
  end.
Abbreviation Layer := (list (Validator * BlockMetadata)).
(** One layer: the next layer and whether the budget is exhausted *)
Fixpoint visit_layer (curr_lfb_height : Z) (current_layer : Layer) (s : Aggregation) :
  Layer * bool * Aggregation :=
  match current_layer with
  | [] => ([], false, s)
  | (agreeing_validator, message) :: rest =>
    if expired (ticks s) then ([], true, tick s)
    else
      let '(weight_map, s) := cached_weight_map message (tick s) in
      match weight_map with
      | None => visit_layer curr_lfb_height rest s
      | Some message_weight_map =>
        let s := aggregate message message_weight_map agreeing_validator s in
        let '(next, s) := next_message curr_lfb_height message s in
        let '(next_layer, exhausted, s) := visit_layer curr_lfb_height rest s in
        (match next with Some md => (agreeing_validator, md) :: next_layer | None => next_layer end, exhausted, s)
      end
  end.
(** The loop over the layers *)
Fixpoint visit_layers (n : nat) (curr_lfb_height : Z) (current_layer : Layer) (s : Aggregation) :
  option Aggregation :=
  match n with
  | O => None
  | S n =>
    if expired (ticks s) then Some (tick s)
    else
      let '(next_layer, budget_exhausted, s) := visit_layer curr_lfb_height current_layer (tick s) in
      if budget_exhausted then Some s
      else if decide (next_layer = []) then Some s
      else visit_layers n curr_lfb_height next_layer s
  end.

(** ** Step 2: the candidates *)

Abbreviation Candidate := (BlockMetadata * WeightMap * WeightMap * Z * nat)%type.
Definition candidate_of (a : Agreement) : option Candidate :=
  let '(message, message_weight_map, agreeing_weight_map) := a in
  if cannot_be_orphaned message_weight_map agreeing_weight_map
  then Some (message, message_weight_map, agreeing_weight_map,
             sum_i64 (values agreeing_weight_map), size agreeing_weight_map)
  else None.
Definition filtered (aggregated : gmap BlockHash Agreement) : list Candidate :=
  omap candidate_of (into_values aggregated).
Definition candidate_cmp (l r : Candidate) : comparison :=
  let '(msg_l, _, _, stake_l, size_l) := l in
  let '(msg_r, _, _, stake_r, size_r) := r in
  then_with (Z.compare (m_block_number msg_r) (m_block_number msg_l))
    (then_with (Z.compare stake_r stake_l)
      (then_with (Nat.compare size_l size_r)
        (bytes_cmp (m_block_hash msg_l) (m_block_hash msg_r)))).
Definition capped_agreements (aggregated : gmap BlockHash Agreement) : list Agreement :=
  take MAX_CLIQUE_CANDIDATES ((fun c : Candidate => c.1.1) <$> sort_by candidate_cmp (filtered aggregated)).

(** ** Step 3: the first candidate that is safe enough *)

Context {S : Type} (new_lfb_found_effect : BlockHash * f32 -> ST S (res KvStoreError unit)).

Fixpoint evaluate (fault_tolerance_threshold : f32) (candidates : list Agreement) (ticks : nat)
    (run_cache : CliqueOracleRunCache) : ST S (Outcome (option (BlockHash * f32))) := fun st =>
  match candidates with
  | [] => (Some (Ok None), st)
  | (message, message_weight_map, agreeing_weight_map) :: rest =>
    if expired ticks then (Some (Ok None), st)
    else if f64_le (fault_tolerance_upper_bound message_weight_map agreeing_weight_map)
                   (f64_from fault_tolerance_threshold)
    then evaluate fault_tolerance_threshold rest (Datatypes.S ticks) run_cache st
    else match interrupted (m_block_hash message) run_cache with
         | Some run_cache => evaluate fault_tolerance_threshold rest (Datatypes.S ticks) run_cache st
         | None =>
           match compute_output_with_cache dag idx iter fuel (m_block_hash message) message_weight_map
                   agreeing_weight_map run_cache with
           | (Some (Ok fault_tolerance), run_cache) =>
             if f32_lt fault_tolerance_threshold fault_tolerance then
               let lfb_hash := m_block_hash message in
               let '(r, st) :=
                 if is_finalized dag idx lfb_hash then (Ok tt, st)
                 else new_lfb_found_effect (lfb_hash, fault_tolerance) st in
               (Some (_ <-! r; Ok (Some (lfb_hash, fault_tolerance))), st)
             else evaluate fault_tolerance_threshold rest (Datatypes.S ticks) run_cache st
           | (Some (Err _), run_cache) =>
             evaluate fault_tolerance_threshold rest (Datatypes.S ticks) run_cache st
           | (Some Panic, _) => (Some Panic, st)
           | (None, _) => (None, st)
           end
         end
  end.

(** [fn run] *)
Definition sorted_latest_messages (lms : gmap Validator BlockMetadata) : Layer :=
  sort_by (fun l r => bytes_cmp l.1 r.1) (map_to_list lms).
Definition run (fault_tolerance_threshold : f32) (curr_lfb_height : Z) :
  ST S (Outcome (option (BlockHash * f32))) := fun st =>
  match latest_messages dag idx with
  | Ok lms =>
    match visit_layers fuel curr_lfb_height (sorted_latest_messages lms) (mkAggregation ∅ ∅ ∅ 0) with
    | Some s =>
      evaluate fault_tolerance_threshold (capped_agreements (aggregated_agreements s)) (ticks s)
        new_run_cache st
    | None => (None, st)
    end
  | Err e => (Some (Err e), st)
  | Panic => (Some Panic, st)
  end.
End finalizer.
