(* ===== verification/FinalizerThms.v ===== *)
(** * The finalizer finalizes what the stakes allow

    Whatever the time limits do, a block that [run] returns has the agreement of a majority of the
    stake, a committed set of validators whose stake exceeds the threshold, and two such blocks
    with the same bonds lie on one main chain.  Without time limits, and while the total stake is
    below 2^24, the search is complete: a block whose fault tolerance exceeds the threshold is
    never passed over for a lower one. *)
From Stdlib Require Import SpecFloat.
From S2P Require Import Prelude HotStoreSig HistoryRepo CasperMessage BlockDag BlockDagWalk Clique CliqueThms CliqueOracle CliqueOracleThms Finalizer FloatRounding.
Open Scope res_scope.
Open Scope nat_scope.

Section stakes.
Context (values : WeightMap -> list Z).
Hypothesis values_perm : forall m, values m ≡ₚ stakes m.

(** ** The checked sum *)

Definition sum_Z (l : list Z) : Z := foldr Z.add 0%Z l.
#[global] Instance sum_Z_perm : Proper ((≡ₚ) ==> (=)) sum_Z.
Proof. unfold sum_Z. induction 1; csimpl; try lia. Qed.
Lemma sum_Z_stakes (m : WeightMap) : sum_Z (stakes m) = weight m (dom m).
Proof.
  rewrite stakes_weights. unfold weight, total. apply sum_Z_perm, fmap_Permutation.
  apply NoDup_Permutation; [apply NoDup_fst_map_to_list|apply NoDup_elements|].
  intros v. rewrite elem_of_elements, elem_of_dom, list_elem_of_fmap. split.
  - intros ([v' w] & -> & Hv%elem_of_map_to_list). by exists w.
  - intros [w Hv]. exists (v, w). by rewrite elem_of_map_to_list.
Qed.
Definition nonneg (m : WeightMap) : Prop := forall v, (0 <= weight_of m v)%Z.
Lemma nonneg_values m : nonneg m -> Forall (fun z => 0 <= z)%Z (values m).
Proof.
  intros Hm. rewrite values_perm, stakes_weights. apply Forall_fmap, Forall_forall. intros v _. apply Hm.
Qed.
Lemma checked_sum_exact l a z :
  Forall (fun z => 0 <= z)%Z l -> (0 <= a)%Z ->
  foldl (fun acc stake =>
    acc ← acc; if decide (i64_min <= acc + stake <= i64_max)%Z then Some (acc + stake)%Z else None)
    (Some a) l = Some z <-> z = (a + sum_Z l)%Z /\ (l = [] \/ z <= i64_max)%Z.
Proof.
  intros Hl. revert a. induction Hl as [|x l Hx Hl IH]; intros a Ha; cbn [foldl sum_Z foldr].
  { split; [intros [= <-]; split; [lia|by left]|intros [-> _]; f_equal; lia]. }
  fold (sum_Z l). assert (0 <= sum_Z l)%Z as Hpos.
  { clear -Hl. induction Hl; cbn; [lia|]. unfold sum_Z in *. lia. }
  cbn [mbind option_bind]. case_decide as Hd.
  - rewrite IH by lia. split.
    + intros [-> [->|Hz]]; (split; [lia|]); right; [cbn in *; lia|lia].
    + intros [-> [?|Hz]]; [done|]. split; [lia|]. right. lia.
  - assert (forall l, foldl (fun acc stake =>
      acc ← acc; if decide (i64_min <= acc + stake <= i64_max)%Z then Some (acc + stake)%Z else None)
      None l = None) as Hnone by (clear; induction l; done).
    rewrite Hnone. split; [done|]. intros [-> [?|Hz]]; [done|]. unfold i64_min in Hd. lia.
Qed.
Lemma checked_stake_sum_exact m z :
  nonneg m -> checked_stake_sum values m = Some z <-> z = weight m (dom m) /\ (z <= i64_max)%Z.
Proof.
  intros Hm. unfold checked_stake_sum. rewrite checked_sum_exact; [|by apply nonneg_values|lia].
  assert (sum_Z (values m) = weight m (dom m)) as Hsum by by rewrite values_perm, sum_Z_stakes.
  rewrite Hsum. split; intros [-> Hz]; (split; [lia|]); [|right; lia].
  destruct Hz as [Hz|?]; [|done]. by rewrite <-Hsum, Hz.
Qed.
(** A block that cannot be orphaned has a majority of the stake. *)
Lemma cannot_be_orphaned_spec wm m :
  nonneg wm -> nonneg m ->
  cannot_be_orphaned values wm m = true <->
    (forall v w, m !! v = Some w -> 0 < w)%Z /\
    (0 < weight wm (dom wm) <= i64_max)%Z /\ (0 < weight m (dom m) <= i64_max)%Z /\
    (weight wm (dom wm) < 2 * weight m (dom m))%Z.
Proof.
  intros Hwm Hm. unfold cannot_be_orphaned.
  assert (existsb (fun stake => bool_decide (stake <= 0)%Z) (values m) = false <->
    (forall v w, m !! v = Some w -> 0 < w)%Z) as Hex.
  { rewrite <-not_true_iff_false, existsb_exists. split.
    - intros Hno v w Hv. destruct (decide (0 < w)%Z); [done|]. destruct Hno. exists w. split.
      + apply list_elem_of_In. rewrite values_perm. apply (list_elem_of_fmap_2 snd _ (v, w)).
        by apply elem_of_map_to_list.
      + apply bool_decide_eq_true. lia.
    - intros Hall (w & Hin & Hw%bool_decide_eq_true). apply list_elem_of_In in Hin. rewrite values_perm in Hin.
      apply list_elem_of_fmap in Hin as ([v w'] & -> & Hv%elem_of_map_to_list). apply Hall in Hv. cbn in Hw. lia. }
  destruct (existsb _ _); [split; [done|]; intros (H1 & _); apply Hex in H1; done|].
  pose proof (proj1 Hex eq_refl) as Hall.
  destruct (checked_stake_sum values wm) as [t|] eqn:Ht.
  - apply checked_stake_sum_exact in Ht as [-> Ht]; [|done].
    destruct (checked_stake_sum values m) as [a|] eqn:Ha.
    + apply checked_stake_sum_exact in Ha as [-> Ha]; [|done]. case_decide; [split; [done|lia]|].
      rewrite bool_decide_eq_true. split; [|lia]. intros. split_and!; [done|lia..].
    + split; [done|]. intros (_ & _ & H2 & _).
      rewrite (proj2 (checked_stake_sum_exact m (weight m (dom m)) Hm)) in Ha; [done|split; [done|lia]].
  - split; [done|]. intros (_ & H2 & _).
    rewrite (proj2 (checked_stake_sum_exact wm (weight wm (dom wm)) Hwm)) in Ht; [done|split; [done|lia]].
Qed.
End stakes.

(** ** The agreements *)

Section agreements.
Context (dag : KeyValueDagRepresentation) (idx : gmap BlockHash BlockMetadata).
Context (fuel : nat) (rank : BlockHash -> nat).
Hypothesis sound : dag_sound dag idx fuel rank.
(** The metadata of a block say what the indexes of the DAG say. *)
Record metadata_ok : Prop := {
  meta_hash : forall h md, h ∈ r_dag_set dag -> idx !! h = Some md -> m_block_hash md = h;
  meta_number : forall h md, h ∈ r_dag_set dag -> idx !! h = Some md ->
    r_block_number_map dag !! h = Some (m_block_number md);
  meta_parent : forall h md, h ∈ r_dag_set dag -> idx !! h = Some md -> main_parent dag h = head (m_parents md);
}.
Hypothesis metas : metadata_ok.
Context (expired : nat -> bool) (lfb : Z).

Abbreviation weight_map_of := (get_corresponding_weight_map dag idx).
Definition stored_as (h : BlockHash) (md : BlockMetadata) : Prop := h ∈ r_dag_set dag /\ idx !! h = Some md.

Lemma weight_map_known h md : stored_as h md -> exists wm, weight_map_of h = Ok wm.
Proof.
  intros [Hh Hmd]. unfold get_corresponding_weight_map.
  destruct (known_lookup _ _ _ _ sound h Hh) as (md' & -> & Hmd'). cbn [res_bind].
  destruct (head (m_parents md')) as [p|] eqn:Hp; [|by eexists].
  apply head_Some_elem_of in Hp. destruct (known_lookup _ _ _ _ sound p) as (mdp & -> & _); [|by eexists].
  by apply (sound_parent _ _ _ _ sound h md').
Qed.

(** The blocks in the scope of the search: the latest messages and what is above the last
    finalized block *)
Definition in_scope (h : BlockHash) (md : BlockMetadata) : Prop :=
  (lfb < m_block_number md)%Z \/ exists v, latest_message_hash dag v = Some h.
(** Validator [v] agrees on [h] through a message of the layer. *)
Definition layer_ok (layer : list (Validator * BlockMetadata)) : Prop :=
  forall v md, (v, md) ∈ layer -> stored_as (m_block_hash md) md /\ agrees dag (m_block_hash md) v /\
    in_scope (m_block_hash md) md.
Record agg_ok (s : Aggregation) : Prop := {
  agg_weight_maps : forall h wm, message_weight_map_cache s !! h = Some wm -> weight_map_of h = Ok wm;
  agg_parents : forall h x, main_parent_cache s !! h = Some x ->
    x = match lookup_unsafe dag idx h with Ok md => Some md | _ => None end;
  agg_agreements : forall h md wm m, aggregated_agreements s !! h = Some (md, wm, m) ->
    stored_as h md /\ in_scope h md /\ weight_map_of h = Ok wm /\
    forall v w, m !! v = Some w -> wm !! v = Some w /\ (0 < w)%Z /\ agrees dag h v;
}.
Lemma agg_ok_tick s : agg_ok s -> agg_ok (tick s).
Proof. intros [H1 H2 H3]. by split. Qed.
Lemma agg_ok_empty : agg_ok (mkAggregation ∅ ∅ ∅ 0).
Proof. split; cbn; intros *; rewrite lookup_empty; done. Qed.

Lemma cached_weight_map_spec md s :
  agg_ok s -> stored_as (m_block_hash md) md ->
  exists wm s', cached_weight_map dag idx md s = (Some wm, s') /\ weight_map_of (m_block_hash md) = Ok wm /\
    agg_ok s' /\ aggregated_agreements s' = aggregated_agreements s /\ ticks s' = ticks s.
Proof.
  intros Hs Hmd. unfold cached_weight_map. destruct (message_weight_map_cache s !! _) as [wm|] eqn:Hc.
  - exists wm, s. split_and!; [done|by apply (agg_weight_maps _ Hs)|done..].
  - destruct (weight_map_known _ _ Hmd) as [wm Hwm]. rewrite Hwm. eexists wm, _. split_and!; [done..| |done|done].
    destruct Hs as [H1 H2 H3]. split; cbn; [|done..]. intros h wm' [[<- <-]|[_ Hx]]%lookup_insert_Some; auto.
Qed.

(** The agreement of [v] on [h] is recorded. *)
Definition recorded (s : Aggregation) (v : Validator) (h : BlockHash) : Prop :=
  exists md wm m, aggregated_agreements s !! h = Some (md, wm, m) /\
    forall w, wm !! v = Some w -> (0 < w)%Z -> m !! v = Some w.
Definition extends (s s' : Aggregation) : Prop := forall v h, recorded s v h -> recorded s' v h.
Lemma record_agreement_spec wm v x :
  record_agreement wm v = x <->
  match x with Some (u, w) => u = v /\ wm !! v = Some w /\ (0 < w)%Z
  | None => forall w, wm !! v = Some w -> (w <= 0)%Z end.
Proof.
  unfold record_agreement. destruct (wm !! v) as [z|]; cbn [from_option]; unfold id; case_decide as Hz; destruct x as [[u w]|]; try lia.
  - split; [by intros [= <- <-]|]. by intros (-> & [= ->] & _).
  - split; [done|]. intros Hall. specialize (Hall z eq_refl). lia.
  - split; [done|]. by intros (_ & [= ->] & Hw).
  - split; [|done]. intros _ w [= <-]. lia.
  - split; [done|]. by intros (_ & ? & _).
  - by split.
Qed.
Lemma aggregate_spec md wm v s :
  agg_ok s -> stored_as (m_block_hash md) md -> weight_map_of (m_block_hash md) = Ok wm ->
  agrees dag (m_block_hash md) v -> in_scope (m_block_hash md) md ->
  agg_ok (aggregate md wm v s) /\ extends s (aggregate md wm v s) /\
  recorded (aggregate md wm v s) v (m_block_hash md) /\ ticks (aggregate md wm v s) = ticks s.
Proof.
  intros Hs Hmd Hwm Hv Hsc. unfold aggregate. set (h := m_block_hash md) in *.
  assert (exists m, default (md, wm, ∅) (aggregated_agreements s !! h) = (md, wm, m) /\
    (forall u w, m !! u = Some w -> wm !! u = Some w /\ (0 < w)%Z /\ agrees dag h u) /\
    (forall u, recorded s u h -> forall w, wm !! u = Some w -> (0 < w)%Z -> m !! u = Some w)) as (m & -> & Hm & Hrec).
  { destruct (aggregated_agreements s !! h) as [[[md' wm'] m]|] eqn:Ha; cbn.
    - destruct (agg_agreements _ Hs _ _ _ _ Ha) as ([_ Hmd'] & _ & Hwm' & Hm).
      assert (md' = md) as -> by (destruct Hmd; congruence). rewrite Hwm in Hwm'. injection Hwm' as <-.
      exists m. split_and!; [done..|]. intros u (? & ? & ? & Ha' & Hr). rewrite Ha in Ha'. by injection Ha' as <- <- <-.
    - exists ∅. split_and!; [done|intros u w; by rewrite lookup_empty|]. intros u (? & ? & ? & Ha' & _). congruence. }
  set (m' := match record_agreement wm v with Some _ => _ | None => _ end).
  assert (forall u w, m' !! u = Some w -> wm !! u = Some w /\ (0 < w)%Z /\ agrees dag h u) as Hm'.
  { subst m'. destruct (record_agreement wm v) as [[v' w']|] eqn:Hr; [|done].
    apply record_agreement_spec in Hr as (-> & Hw' & Hpos). destruct (m !! v); [done|].
    intros u w [[<- <-]|[_ Hu]]%lookup_insert_Some; auto. }
  assert (forall u w, m !! u = Some w -> m' !! u = Some w) as Hgrow.
  { subst m'. intros u w Hu. destruct (record_agreement wm v) as [[v' w']|] eqn:Hr; [|done].
    apply record_agreement_spec in Hr as (-> & _). destruct (m !! v) eqn:Hmv; [done|].
    rewrite lookup_insert_ne; [done|congruence]. }
  assert (forall w, wm !! v = Some w -> (0 < w)%Z -> m' !! v = Some w) as Hv'.
  { subst m'. intros w Hw Hpos. rewrite (proj2 (record_agreement_spec wm v (Some (v, w)))) by done.
    destruct (m !! v) as [w'|] eqn:Hmv; [|by rewrite lookup_insert_eq].
    destruct (Hm _ _ Hmv) as [Hw' _]. congruence. }
  cbn [aggregated_agreements]. split_and!; [| | |done].
  - destruct Hs as [H1 H2 H3]. split; cbn; [done..|].
    intros h' md' wm' x [[<- [= <- <- <-]]|[_ Hx]]%lookup_insert_Some; [done|by apply H3].
  - intros u h' Hu. unfold recorded. cbn. destruct (decide (h' = h)) as [->|Hne].
    + exists md, wm, m'. rewrite lookup_insert_eq. split; [done|]. intros w Hw Hpos. by apply Hgrow, Hrec.
    + rewrite lookup_insert_ne by done. exact Hu.
  - exists md, wm, m'. cbn. rewrite lookup_insert_eq. done.
Qed.

Definition parent_of (md md' : BlockMetadata) : Prop :=
  main_edge dag (m_block_hash md) (m_block_hash md') /\ stored_as (m_block_hash md') md' /\
  (lfb < m_block_number md')%Z.
Lemma next_message_spec md s :
  agg_ok s -> stored_as (m_block_hash md) md ->
  exists next s', next_message dag idx lfb md s = (next, s') /\ agg_ok s' /\
    aggregated_agreements s' = aggregated_agreements s /\ ticks s' = ticks s /\
    (forall md', next = Some md' <-> parent_of md md').
Proof.
  intros Hs Hmd. unfold next_message. pose proof (meta_parent metas _ _ (proj1 Hmd) (proj2 Hmd)) as Hp.
  destruct (head (m_parents md)) as [p|] eqn:Hh.
  2:{ exists None, s. split_and!; [done..|]. intros md'. split; [done|]. intros (He & _). unfold main_edge in He. congruence. }
  assert (p ∈ r_dag_set dag) as Hpin.
  { destruct Hmd as [H1 H2]. apply (sound_parent _ _ _ _ sound _ _ p H1 H2). by apply head_Some_elem_of. }
  destruct (known_lookup _ _ _ _ sound p Hpin) as (mdp & Hl & Hmdp).
  pose proof (meta_hash metas _ _ Hpin Hmdp) as Hhp.
  assert (exists s', cached_main_parent dag idx p s = (Some mdp, s') /\ agg_ok s' /\
    aggregated_agreements s' = aggregated_agreements s /\ ticks s' = ticks s) as (s' & -> & Hs' & Ha & Ht).
  { unfold cached_main_parent. destruct (main_parent_cache s !! p) as [x|] eqn:Hx.
    - apply (agg_parents _ Hs) in Hx. rewrite Hl in Hx. subst x. by exists s.
    - rewrite Hl. eexists. split_and!; [done| |done..]. destruct Hs as [H1 H2 H3]. split; cbn; [done| |done].
      intros h x [[<- <-]|[_ Hx']]%lookup_insert_Some; [by rewrite Hl|auto]. }
  eexists _, s'. split_and!; [done..|]. intros md'. cbn [mbind option_bind]. unfold parent_of, main_edge. rewrite Hp. split.
  - case_decide; [|done]. intros [= <-]. rewrite Hhp. by split_and!.
  - intros ([= Hpe] & [_ Hst] & Hlt). rewrite <-Hpe, Hmdp in Hst. injection Hst as <-. by rewrite decide_True.
Qed.

(** One layer *)
Lemma visit_layer_spec layer s :
  agg_ok s -> layer_ok layer ->
  exists next ex s', visit_layer dag idx expired lfb layer s = (next, ex, s') /\ agg_ok s' /\ layer_ok next /\
    extends s s' /\ (forall v md, (v, md) ∈ next -> exists md0, (v, md0) ∈ layer /\ parent_of md0 md) /\
    ((forall n, expired n = false) -> ex = false /\ forall v md, (v, md) ∈ layer ->
      recorded s' v (m_block_hash md) /\ forall md', parent_of md md' -> (v, md') ∈ next).
Proof.
  revert s. induction layer as [|[v md] layer IH]; intros s Hs Hl; cbn [visit_layer].
  { exists [], false, s. split_and!; [done|done|intros ? ? Hx; by apply elem_of_nil in Hx|by intros ? ?|
      intros ? ? Hx; by apply elem_of_nil in Hx|].
    intros _. split; [done|]. intros ? ? Hx. by apply elem_of_nil in Hx. }
  destruct (expired (ticks s)) eqn:He.
  { exists [], true, (tick s). split_and!; [done|by apply agg_ok_tick|intros ? ? Hx; by apply elem_of_nil in Hx|by intros ? ?|
      intros ? ? Hx; by apply elem_of_nil in Hx|]. intros Hno. by rewrite Hno in He. }
  destruct (Hl v md) as (Hmd & Hv & Hsc); [left|].
  assert (layer_ok layer) as Hl' by (intros ? ? ?; apply Hl; by right).
  destruct (cached_weight_map_spec md (tick s)) as (wm & s1 & -> & Hwm & Hs1 & Ha1 & _); [by apply agg_ok_tick|done|].
  destruct (aggregate_spec md wm v s1) as (Hs2 & Hex & Hrec & _); [done..|].
  destruct (next_message_spec md _ Hs2 Hmd) as (nx & s3 & -> & Hs3 & Ha3 & _ & Hnx).
  destruct (IH s3 Hs3 Hl') as (next & ex & s' & -> & Hs' & Hnext & Hext & Hfrom & Hall).
  assert (forall u h, recorded s u h -> recorded s3 u h) as Hrec03.
  { intros u h Hu. unfold recorded. rewrite Ha3. apply Hex. unfold recorded. by rewrite Ha1. }
  eexists _, ex, s'. split; [done|]. split_and!; [done| | | |].
  - destruct nx as [md'|]; [|done]. intros u x [[= -> ->]|Hx]%elem_of_cons; [|by apply Hnext].
    destruct (proj1 (Hnx md') eq_refl) as (Hedge & Hst & Hlt). split_and!; [done| |by left].
    destruct Hv as (lm & Hlm & Hr). exists lm. split; [done|]. by eapply rtc_r.
  - intros u h Hu. by apply Hext, Hrec03.
  - intros u x Hx. assert (nx = Some x /\ u = v \/ (u, x) ∈ next) as [[Hn ->]|Hin].
    { destruct nx; [apply elem_of_cons in Hx as [[= -> ->]|?]|]; auto. }
    + exists md. split; [left|by apply Hnx].
    + destruct (Hfrom u x Hin) as (md0 & Hin0 & Hp). exists md0. split; [by right|done].
  - intros Hno. destruct (Hall Hno) as [-> Hcov]. split; [done|].
    intros u x [[= -> ->]|Hx]%elem_of_cons.
    + split; [apply Hext; unfold recorded; by rewrite Ha3|]. intros md' Hp. apply Hnx in Hp as ->. left.
    + destruct (Hcov u x Hx) as [Hr Hp]. split; [done|]. intros md' Hp'. apply Hp in Hp'.
      destruct nx; [by right|done].
Qed.

(** The messages that the loop reaches from a message *)
Lemma visit_layers_spec n layer s :
  agg_ok s -> layer_ok layer -> 0 < n -> (forall v md, (v, md) ∈ layer -> m_block_number md < Z.of_nat n)%Z ->
  exists s', visit_layers dag idx expired n lfb layer s = Some s' /\ agg_ok s' /\ extends s s' /\
    ((forall n, expired n = false) -> forall v md md', (v, md) ∈ layer -> rtc parent_of md md' ->
      recorded s' v (m_block_hash md')).
Proof.
  revert layer s. induction n as [|n IH]; intros layer s Hs Hl Hpos Hn; [lia|]. cbn [visit_layers].
  destruct (expired (ticks s)) eqn:He.
  { exists (tick s). split_and!; [done|by apply agg_ok_tick|by intros ? ?|]. intros Hno. by rewrite Hno in He. }
  destruct (visit_layer_spec layer (tick s)) as (next & ex & s' & -> & Hs' & Hnext & Hext & Hfrom & Hall);
    [by apply agg_ok_tick|done|].
  destruct ex.
  { exists s'. split_and!; [done..|]. intros Hno. by destruct (Hall Hno). }
  assert (forall v md, (v, md) ∈ next -> (0 <= m_block_number md < Z.of_nat n)%Z) as Hlt.
  { intros v md Hin. destruct (Hfrom v md Hin) as (md0 & Hin0 & (Hedge & [Hk Hst] & _)).
    destruct (sound_numbered _ _ _ _ sound _ _ Hedge) as (a & b & Ha & Hb & Hab).
    destruct (Hl v md0 Hin0) as ([Hk0 Hst0] & _).
    rewrite (meta_number metas _ _ Hk Hst) in Ha. rewrite (meta_number metas _ _ Hk0 Hst0) in Hb.
    injection Ha as <-. injection Hb as <-. specialize (Hn v md0 Hin0).
    destruct (sound_block _ _ _ _ sound _ Hk) as (_ & (k & Hk' & Hk0') & _).
    rewrite (meta_number metas _ _ Hk Hst) in Hk'. injection Hk' as <-. lia. }
  case_decide as Hnil.
  { exists s'. split_and!; [done..|]. intros Hno v md md' Hin Hr. destruct (Hall Hno) as [_ Hcov].
    destruct (Hcov v md Hin) as [Hrec Hnx]. destruct Hr as [|? y ? Hy _]; [done|].
    apply Hnx in Hy. rewrite Hnil in Hy. by apply elem_of_nil in Hy. }
  destruct (IH next s' Hs' Hnext) as (s'' & -> & Hs'' & Hext' & Hall').
  { destruct next as [|[v md] next]; [done|]. destruct (Hlt v md); [left|lia]. }
  { intros v md Hin. apply (Hlt v md Hin). }
  exists s''. split_and!; [done..| |].
  - intros u h Hu. by apply Hext', Hext.
  - intros Hno v md md' Hin Hr. destruct (Hall Hno) as [_ Hcov]. destruct (Hcov v md Hin) as [Hrec Hnx].
    destruct Hr as [|? y ? Hy Hr]; [by apply Hext'|]. by apply (Hall' Hno v y); [apply Hnx|].
Qed.
End agreements.

(** ** The order of the candidates *)

Lemma flip_preorder {A} (cmp : A -> A -> comparison) `{!CmpPreorder cmp} : CmpPreorder (fun x y => cmp y x).
Proof.
  split; [intros x y; apply (cmp_sym cmp)|]. intros x y z Hxy Hyz. by apply (cmp_le_trans cmp z y x).
Qed.
Abbreviation Candidate := (BlockMetadata * WeightMap * WeightMap * Z * nat)%type.
Definition candidate_key (c : Candidate) : Z * (Z * (nat * BlockHash)) :=
  (m_block_number c.1.1.1.1, (c.1.2, (c.2, m_block_hash c.1.1.1.1))).
Definition key_cmp : Z * (Z * (nat * BlockHash)) -> Z * (Z * (nat * BlockHash)) -> comparison :=
  pair_cmp (fun x y => Z.compare y x) (pair_cmp (fun x y => Z.compare y x) (pair_cmp Nat.compare bytes_cmp)).
Lemma candidate_cmp_key x y : candidate_cmp x y = key_cmp (candidate_key x) (candidate_key y).
Proof. by destruct x as [[[[]]]], y as [[[[]]]]. Qed.
#[global] Instance key_cmp_order : CmpOrder key_cmp.
Proof.
  assert (CmpOrder (fun x y => Z.compare y x)).
  { split; [apply flip_preorder, _|]. intros x y Hxy. symmetry. by apply Z.compare_eq. }
  apply _.
Qed.
#[global] Instance candidate_cmp_preorder : CmpPreorder candidate_cmp.
Proof.
  destruct (cmp_on_preorder candidate_key key_cmp) as [H1 H2]. split.
  - intros x y. rewrite !candidate_cmp_key. apply H1.
  - intros x y z. unfold cmp_le in *. rewrite !candidate_cmp_key. apply H2.
Qed.
Lemma candidate_le_number x y :
  cmp_le candidate_cmp x y -> (m_block_number y.1.1.1.1 <= m_block_number x.1.1.1.1)%Z.
Proof.
  unfold cmp_le. rewrite candidate_cmp_key. unfold key_cmp, candidate_key, pair_cmp. cbn [fst snd].
  destruct (Z.compare_spec (m_block_number y.1.1.1.1) (m_block_number x.1.1.1.1)); cbn; [lia|lia|done].
Qed.

(** ** The bound that prunes candidates *)

Section prune_bound.
#[local] Open Scope Z_scope.

(** Not above zero, or not a number *)
Definition nonpositive (x : spec_float) : Prop :=
  match x with S754_zero _ | S754_nan => True | S754_infinity s | S754_finite s _ _ => s = true end.
Lemma round_nonpositive p E m e l : nonpositive (binary_round_aux p E true m e l).
Proof.
  unfold binary_round_aux. destruct (shr_fexp p E m e l) as [mrs e'].
  destruct (shr_fexp p E _ e' _) as [mrs' e'']. destruct (shr_m mrs'); [done| |done].
  by destruct (_ <=? _).
Qed.
Lemma f32_num z : 0 < z < 2 ^ 24 -> is_num 24 false z (f32_of_i64 z).
Proof. intros Hz. apply of_Z_num; [lia|done|lia|]. apply Zdigits2_le; lia. Qed.
Lemma f64_num z : 0 < z < 2 ^ 24 -> is_num 53 false z (f64_of_Z z).
Proof. intros Hz. apply of_Z_num; [lia|done|lia|]. apply Zdigits2_le; lia. Qed.

(** A positive [f32] below the fault tolerance is below the quotient of the exact stakes. *)
Lemma below_fault_tolerance best total mt et : 0 < total < 2 ^ 24 -> 0 <= best <= total ->
  Z.pos mt < 2 ^ 24 -> -149 <= et ->
  f32_lt (S754_finite false mt et) (fault_tolerance (f32_of_i64 best) (f32_of_i64 total)) = true ->
  Z.pos mt * total * 2 ^ (et + 256) < (2 * best - total) * 2 ^ 256.
Proof.
  intros Ht Hb Hmt Het. unfold f32_lt, fault_tolerance, f32_div, f32_sub, f32_mul, f32_two.
  pose proof (f32_num total Ht) as Hnt.
  assert (forall x, nonpositive x -> SFltb (S754_finite false mt et) x = true -> False) as Hneg.
  { intros [| | |] Hx; cbn in Hx; try subst; done. }
  assert (forall c e, nonpositive (SFdiv 24 128 (S754_finite true c e) (f32_of_i64 total))) as Hdiv.
  { intros c e. destruct Hnt as (_ & _ & c' & -> & _). cbn [SFdiv xorb].
    destruct (SFdiv_core_binary _ _ _ _ _ _) as [[q e'] l]. apply round_nonpositive. }
  destruct (decide (best = 0)) as [->|Hne].
  { intros Hlt. exfalso. revert Hlt. apply Hneg. destruct Hnt as (_ & _ & c & Hc & _).
    assert (SFsub 24 128 (SFmul 24 128 (f32_of_i64 0) (f32_of_i64 2)) (f32_of_i64 total) =
      S754_finite true c (Zdigits2 total - 24)) as -> by (by rewrite Hc). apply Hdiv. }
  pose proof (double_sub 24 128 ltac:(lia) ltac:(done) best total _ _ (f32_num best ltac:(lia)) Hnt ltac:(lia)) as Hd.
  cbv zeta in Hd. change (f32_of_i64 2) with (binary_normalize 24 128 2 0 false) in *.
  destruct (2 * best - total) as [|d|d] eqn:Hdv.
  - rewrite Hd. intros Hlt. exfalso. revert Hlt. apply Hneg.
    by destruct Hnt as (_ & _ & c' & -> & _).
  - destruct (div_num 24 128 ltac:(lia) ltac:(done) _ _ _ _ 256 Hd Hnt ltac:(lia))
      as (m1 & e1 & m2 & e2 & -> & _ & Hm1 & He1 & Hle & Hr).
    apply (below_quotient 24 ltac:(lia) 256 _ total m1 e1 m2 e2); (lia || exact Hr).
  - intros Hlt. exfalso. revert Hlt. apply Hneg. destruct Hd as (_ & _ & c & -> & _). apply Hdiv.
Qed.

Lemma binary_round_nonpositive p E m e : nonpositive (binary_round p E true m e).
Proof. unfold binary_round. destruct (shl_align _ _ _). apply round_nonpositive. Qed.
Lemma positive_above m e x : nonpositive x -> f64_le (S754_finite false m e) x = false.
Proof. destruct x; cbn; try done; by intros ->. Qed.
Lemma f32_valid s m e : valid_binary 24 128 (S754_finite s m e) = true ->
  Z.pos m < 2 ^ 24 /\ -149 <= e <= 104.
Proof.
  cbn [valid_binary]. unfold bounded, canonical_mantissa, fexp. change (emin 24 128) with (-149).
  intros [Hc%Z.eqb_eq He%Z.leb_le]%andb_true_iff. split; [|lia].
  apply Z.lt_le_trans with (2 ^ Z.pos (digits2_pos m)); [apply digits_bounds|]. apply Z.pow_le_mono_r; lia.
Qed.
Lemma quotient_positive agreeing total : 0 < total < 2 ^ 24 -> total < 2 * agreeing -> agreeing <= total ->
  exists m e, f64_div (f64_of_Z (agreeing * 2 - total)) (f64_of_Z total) = S754_finite false m e.
Proof.
  intros Ht Hm Ha. destruct (div_num 53 1024 ltac:(lia) ltac:(done) (agreeing * 2 - total) total _ _ 256
    (f64_num (agreeing * 2 - total) ltac:(lia)) (f64_num total Ht) ltac:(lia)) as (_ & _ & m & e & Hq & _).
  by exists m, e.
Qed.

(** The quotient of the exact stakes in [f64] is not pruned by such a threshold. *)
Lemma quotient_not_pruned agreeing best total mt et : 0 < total < 2 ^ 24 -> best <= agreeing <= total ->
  total < 2 * agreeing -> Z.pos mt < 2 ^ 24 -> -149 <= et <= 104 ->
  Z.pos mt * total * 2 ^ (et + 256) < (2 * best - total) * 2 ^ 256 ->
  f64_le (f64_div (f64_of_Z (agreeing * 2 - total)) (f64_of_Z total)) (f64_from (S754_finite false mt et)) = false.
Proof.
  intros Ht Ha Hm Hmt Het Hx.
  destruct (div_num 53 1024 ltac:(lia) ltac:(done) (agreeing * 2 - total) total _ _ 256
    (f64_num (agreeing * 2 - total) ltac:(lia)) (f64_num total Ht) ltac:(lia)) as (m1 & e1 & m2 & e2 & Hq & Hd2 & Hm1 & He1 & Hle & Hr).
  unfold f64_div. rewrite Hq. unfold f64_from. cbn [binary_normalize].
  pose proof (digits_bounds mt) as Hbt. set (d := Z.pos (digits2_pos mt)) in *.
  assert (d <= 24) as Hd by (apply (Zdigits2_le (Z.pos mt)); lia).
  assert (0 < d) as Hd0 by done.
  assert (exists c, Z.pos c = Z.pos mt * 2 ^ (53 - d)) as [c Hc].
  { pose proof (pow2_pos (53 - d)). exists (Z.to_pos (Z.pos mt * 2 ^ (53 - d))). rewrite Z2Pos.id; lia. }
  assert (Z.pos (digits2_pos c) = 53) as Hdc.
  { change (Zdigits2 (Z.pos c) = 53). rewrite Hc, Zdigits2_shift by lia. change (d + (53 - d) = 53). lia. }
  rewrite (binary_round_exact 53 1024 ltac:(lia) false mt et c (et - (53 - d)) (53 - d) 0);
    [|lia|lia|by rewrite Hc, Z.mul_1_r|lia|done|change (emin 53 1024) with (-1074); lia|lia].
  destruct (rounds_to_ge 53 ltac:(lia) _ m1 e1 m2 e2 256 He1 Hr) as [He2 Hge].
  apply (not_SFleb 53 ltac:(lia) m2 e2 c _ 256); [done|done|lia|lia|].
  eapply Z.lt_le_trans; [|exact Hge].
  replace (Z.pos c * 2 ^ (et - (53 - d) + 256)) with (Z.pos mt * 2 ^ (et + 256)).
  - apply (wider_quotient mt et (2 * best - total) (agreeing * 2 - total) total m1 e1); lia.
  - rewrite Hc, <- Z.mul_assoc, <- Z.pow_add_r by lia. do 2 f_equal. lia.
Qed.
End prune_bound.

(** ** The first candidate that passes *)

Section run.
Context (values : WeightMap -> list Z).
Hypothesis values_perm : forall m, values m ≡ₚ stakes m.
Context (dag : KeyValueDagRepresentation) (idx : gmap BlockHash BlockMetadata).
Context (iter : gset Validator -> list Validator) (fuel : nat) (rank : BlockHash -> nat).
Hypothesis iter_perm : forall s, iter s ≡ₚ elements s.
Hypothesis sound : dag_sound dag idx fuel rank.
Hypothesis metas : metadata_ok dag idx.
Context (expired : nat -> bool).
Context (interrupted : BlockHash -> CliqueOracleRunCache -> option CliqueOracleRunCache).
(** An evaluation that is interrupted leaves values of the DAG in the cache. *)
Hypothesis interrupted_ok : forall h c c',
  interrupted h c = Some c' -> cache_ok dag idx fuel c -> cache_ok dag idx fuel c'.
Context (into_values : gmap BlockHash (BlockMetadata * WeightMap * WeightMap) ->
  list (BlockMetadata * WeightMap * WeightMap)).
Hypothesis into_values_perm : forall m, into_values m ≡ₚ (map_to_list m).*2.
Context {S : Type} (effect : BlockHash * f32 -> ST S (res KvStoreError unit)).
(** The bonds of the blocks *)
Definition bonds_ok : Prop := forall h wm, get_corresponding_weight_map dag idx h = Ok wm ->
  nonneg wm /\ size (dom wm) < fuel.
Hypothesis bonds : bonds_ok.
Context (threshold : f32) (lfb : Z).

(** A majority of the bonds [wm] of the block [h] agrees on it, by [m]. *)
Record supported (h : BlockHash) (wm m : WeightMap) : Prop := {
  sup_bonds : get_corresponding_weight_map dag idx h = Ok wm;
  sup_agree : forall v w, m !! v = Some w -> wm !! v = Some w /\ (0 < w)%Z /\ agrees dag h v;
  sup_total : (0 < weight wm (dom wm) <= i64_max)%Z;
  sup_majority : (weight wm (dom wm) < 2 * weight m (dom m))%Z;
}.
Lemma sup_subseteq h wm m : supported h wm m -> m ⊆ wm.
Proof. intros Hs. apply map_subseteq_spec. intros v w Hv. by apply (sup_agree _ _ _ Hs) in Hv as [? _]. Qed.
(** The fault tolerance [ft] of the block exceeds the threshold. *)
Record passes (h : BlockHash) (wm m : WeightMap) (best : Z) (ft : f32) : Prop := {
  pass_greatest : greatest dag idx h m best;
  pass_value : tolerance wm m best = Ok ft;
  pass_threshold : f32_lt threshold ft = true;
  pass_bound : f64_le (fault_tolerance_upper_bound values wm m) (f64_from threshold) = false;
}.
Definition candidate_ok (c : BlockMetadata * WeightMap * WeightMap) : Prop :=
  stored_as dag idx (m_block_hash c.1.1) c.1.1 /\ supported (m_block_hash c.1.1) c.1.2 c.2.
Definition rejected (c : BlockMetadata * WeightMap * WeightMap) : Prop :=
  forall best ft, ~ passes (m_block_hash c.1.1) c.1.2 c.2 best ft.
(** The bound of [fault_tolerance_upper_bound] does not keep the block from being evaluated: it
    is above the threshold, or the total stake is small enough for [f32] arithmetic to be exact
    up to the last division. *)
Definition not_pruned (wm m : WeightMap) : Prop :=
  f64_le (fault_tolerance_upper_bound values wm m) (f64_from threshold) = false \/
  (weight wm (dom wm) < 2 ^ 24)%Z.
Definition unlimited : Prop := (forall n, expired n = false) /\ (forall h c, interrupted h c = None).

Lemma tolerance_ok wm m best : (0 < weight wm (dom wm))%Z -> exists ft, tolerance wm m best = Ok ft.
Proof.
  intros Hpos. unfold tolerance. rewrite f32_positive by done. cbn [negb]. destruct (f32_le _ _); by eexists.
Qed.
Lemma greatest_unique h m b b' : greatest dag idx h m b -> greatest dag idx h m b' -> b = b'.
Proof. intros [(s & Hs & Hc & <-) H1] [(s' & Hs' & Hc' & <-) H2]. apply Z.le_antisymm; auto. Qed.

(** Below a total stake of 2^24 the bound is safe: a block whose fault tolerance exceeds the
    threshold is not pruned. *)
Lemma upper_bound_safe h wm m best ft :
  valid_binary 24 128 threshold = true -> supported h wm m -> greatest dag idx h m best ->
  tolerance wm m best = Ok ft -> f32_lt threshold ft = true -> (weight wm (dom wm) < 2 ^ 24)%Z ->
  f64_le (fault_tolerance_upper_bound values wm m) (f64_from threshold) = false.
Proof.
  intros Hv Hsup Hg Htol Hlt Hsmall. pose proof (sup_subseteq _ _ _ Hsup) as Hsub.
  destruct (bonds _ _ (sup_bonds _ _ _ Hsup)) as [Hnn _].
  assert (nonneg m) as Hnm.
  { intros v. unfold weight_of. destruct (m !! v) as [w|] eqn:Hw; [|done].
    apply (sup_agree _ _ _ Hsup) in Hw as (_ & ? & _). cbn. lia. }
  pose proof (sup_total _ _ _ Hsup) as Ht. pose proof (sup_majority _ _ _ Hsup) as Hm.
  pose proof (weight_submap_le wm m Hnn Hsub) as Ha.
  assert (0 <= best <= weight m (dom m))%Z as Hb.
  { destruct Hg as [(s & Hs & _ & <-) _]. split; [|by apply weight_mono].
    rewrite <- (weight_empty m). by apply weight_mono; [|set_solver]. }
  unfold fault_tolerance_upper_bound.
  rewrite (proj2 (checked_stake_sum_exact values values_perm wm (weight wm (dom wm)) Hnn)) by (split; [done|lia]).
  rewrite (proj2 (checked_stake_sum_exact values values_perm m (weight m (dom m)) Hnm)) by (split; [done|lia]).
  rewrite decide_False by lia. unfold tolerance in Htol. destruct (negb _); [done|].
  set (total := weight wm (dom wm)) in *. set (agreeing := weight m (dom m)) in *.
  destruct (quotient_positive agreeing total) as (m2 & e2 & Hq); [lia..|].
  destruct threshold as [z|[]| |[] mt et]; [by rewrite Hq|by rewrite Hq|by destruct ft as [|[]| |]|done| |].
  - rewrite Hq. unfold f64_from. cbn [binary_normalize]. apply positive_above. apply binary_round_nonpositive.
  - apply f32_valid in Hv as (Hmt & Het). destruct (f32_le _ _); injection Htol as <-; [done|].
    apply (quotient_not_pruned _ best); [lia..|]. apply below_fault_tolerance; lia || done.
Qed.

(** The block is returned, after the effect unless it was final already. *)
Definition finished (h : BlockHash) (ft : f32) (st : S) (out : res KvStoreError (option (BlockHash * f32)))
    (st' : S) : Prop :=
  if is_finalized dag idx h then out = Ok (Some (h, ft)) /\ st' = st
  else exists r, effect (h, ft) st = (r, st') /\ out = (_ <-! r; Ok (Some (h, ft))).
(** What the evaluation of the candidates comes to: nothing passes, or the first candidate that
    passes is returned. *)
Definition evaluated (cands : list (BlockMetadata * WeightMap * WeightMap)) (st : S)
    (out : res KvStoreError (option (BlockHash * f32))) (st' : S) : Prop :=
  (out = Ok None /\ st' = st /\ (unlimited -> Forall rejected cands)) \/
  (exists l1 md wm m l2 best ft, cands = l1 ++ (md, wm, m) :: l2 /\ (unlimited -> Forall rejected l1) /\
     passes (m_block_hash md) wm m best ft /\
     finished (m_block_hash md) ft st out st').
Lemma evaluated_cons c cands st out st' :
  (unlimited -> rejected c) -> evaluated cands st out st' -> evaluated (c :: cands) st out st'.
Proof.
  intros Hc [(-> & -> & Hr)|(l1 & md & wm & m & l2 & best & ft & -> & Hr & Hp)].
  - left. split_and!; [done..|]. intros Hu. constructor; auto.
  - right. exists (c :: l1), md, wm, m, l2, best, ft. split_and!; [done| |apply Hp..].
    intros Hu. constructor; auto.
Qed.
Lemma evaluate_spec cands t c st :
  Forall candidate_ok cands -> cache_ok dag idx fuel c ->
  exists out st', evaluate values dag idx iter fuel expired interrupted effect threshold cands t c st =
    (Some out, st') /\ evaluated cands st out st'.
Proof.
  intros Hc. revert t c. induction Hc as [|[[md wm] m] cands [Hst Hsup] Hall IH]; intros t c Hok; cbn [evaluate].
  { exists (Ok None), st. split; [done|left]. by split_and!. }
  cbn [fst snd] in *. destruct (expired t) eqn:He.
  { exists (Ok None), st. split; [done|left]. split_and!; [done..|]. intros [Hu _]. by rewrite Hu in He. }
  destruct (f64_le _ _) eqn:Hb.
  { destruct (IH (Datatypes.S t) c Hok) as (out & st' & -> & Hout). exists out, st'. split; [done|].
    apply evaluated_cons; [|done]. intros _ best ft [_ _ _ Hb']. cbn in Hb'. congruence. }
  destruct (interrupted (m_block_hash md) c) as [c'|] eqn:Hi.
  { destruct (IH (Datatypes.S t) c') as (out & st' & -> & Hout); [by eapply interrupted_ok|]. exists out, st'.
    split; [done|]. apply evaluated_cons; [|done]. intros [_ Hu]. by rewrite Hu in Hi. }
  destruct (bonds _ _ (sup_bonds _ _ _ Hsup)) as [Hnn Hsz].
  destruct (compute_output_exact dag idx iter fuel rank iter_perm sound (m_block_hash md) (proj1 Hst) wm m c)
    as (best & c' & Hg & -> & Hc'); [done|apply Hsup|done|by eapply sup_subseteq|done|].
  destruct (tolerance_ok wm m best) as (ft & Hft); [apply Hsup|]. rewrite Hft.
  destruct (f32_lt threshold ft) eqn:Hlt.
  - assert (passes (m_block_hash md) wm m best ft) as Hp by by split.
    destruct (is_finalized dag idx (m_block_hash md)) eqn:Hf.
    + cbn. eexists _, st. split; [done|]. right. exists [], md, wm, m, cands, best, ft.
      split_and!; [done|by constructor|done|]. unfold finished. by rewrite Hf.
    + destruct (effect (m_block_hash md, ft) st) as [r st'] eqn:Heff. eexists _, st'. split; [done|].
      right. exists [], md, wm, m, cands, best, ft. split_and!; [done|by constructor|done|]. unfold finished. rewrite Hf. by exists r.
  - destruct (IH (Datatypes.S t) c' Hc') as (out & st' & -> & Hout). exists out, st'. split; [done|].
    apply evaluated_cons; [|done]. intros _ best' ft' [Hg' Hv' Ht' _]. cbn in *.
    rewrite (greatest_unique _ _ _ _ Hg' Hg), Hft in Hv'. injection Hv' as <-. congruence.
Qed.

(** ** The candidates *)

Lemma latest_messages_spec : exists lms, latest_messages dag idx = Ok lms /\
  forall v md, lms !! v = Some md <-> exists h, latest_message_hash dag v = Some h /\ stored_as dag idx h md.
Proof.
  unfold latest_messages, latest_message_hash.
  assert (forall l (m : gmap Validator BlockMetadata), NoDup l.*1 ->
    (forall v h, (v, h) ∈ l -> r_latest_messages_map dag !! v = Some h) ->
    exists lms, res_foldM (fun m '(v, hash) => md <-! lookup_unsafe dag idx hash; Ok (<[v := md]> m)) m l = Ok lms /\
      forall v md, lms !! v = Some md <->
        (exists h, (v, h) ∈ l /\ stored_as dag idx h md) \/ (v ∉ l.*1 /\ m !! v = Some md)) as Hfold.
  { induction l as [|[v h] l IH]; intros m Hnd Hl; cbn [res_foldM].
    - exists m. split; [done|]. intros v md. cbn. setoid_rewrite elem_of_nil. naive_solver.
    - cbn in Hnd. apply NoDup_cons in Hnd as [Hv Hnd].
      assert (h ∈ r_dag_set dag) as Hh by (apply (sound_latest _ _ _ _ sound v), Hl; left).
      destruct (known_lookup _ _ _ _ sound h Hh) as (md & Hlk & Hmd). rewrite Hlk. cbn [res_bind].
      destruct (IH (<[v := md]> m) Hnd) as (lms & Hlms & Hspec); [intros u x Hu; apply Hl; by right|].
      exists lms. split; [done|]. intros u x. rewrite Hspec. cbn. rewrite not_elem_of_cons.
      destruct (decide (u = v)) as [->|Hne].
      + rewrite lookup_insert_eq. split.
        * intros [(h' & Hin & ?)|(_ & [= <-])]; [left; exists h'; split; [by right|done]|].
          left. exists h. split; [left|done].
        * intros [(h' & Hin & Hst)|[[? _] _]]; [|done]. apply elem_of_cons in Hin as [[= ->]|Hin]; [right|left; eauto].
          split; [done|]. destruct Hst as [_ Hx]. congruence.
      + rewrite lookup_insert_ne by done. setoid_rewrite elem_of_cons. naive_solver. }
  destruct (Hfold (map_to_list (r_latest_messages_map dag)) ∅) as (lms & Hlms & Hspec);
    [apply NoDup_fst_map_to_list|intros v h; by rewrite elem_of_map_to_list|].
  exists lms. split; [done|]. intros v md. rewrite Hspec, lookup_empty. setoid_rewrite elem_of_map_to_list. naive_solver.
Qed.

Section aggregated.
Context (s : Aggregation) (Hs : agg_ok dag idx lfb s).
Lemma agg_nonneg h md wm m : aggregated_agreements s !! h = Some (md, wm, m) -> nonneg wm /\ nonneg m.
Proof.
  intros Ha. destruct (agg_agreements _ _ _ _ Hs _ _ _ _ Ha) as (_ & _ & Hwm & Hm). split; [by eapply bonds|].
  intros v. unfold weight_of. destruct (m !! v) as [w|] eqn:Hv; cbn; [|lia]. apply Hm in Hv as (_ & ? & _). lia.
Qed.
Lemma filtered_elem md wm m st n :
  (md, wm, m, st, n) ∈ filtered values into_values (aggregated_agreements s) <->
  (aggregated_agreements s !! m_block_hash md = Some (md, wm, m) /\ supported (m_block_hash md) wm m) /\
  st = sum_i64 (values m) /\ n = size m.
Proof.
  unfold filtered. rewrite list_elem_of_omap. setoid_rewrite into_values_perm. split.
  - intros ([[md' wm'] m'] & Hin & Hc). apply list_elem_of_fmap in Hin as ([h ag] & [= <-] & Ha%elem_of_map_to_list).
    unfold candidate_of in Hc.
    destruct (cannot_be_orphaned values wm' m') eqn:Ho; [|done]. injection Hc as -> -> -> <- <-.
    destruct (agg_agreements _ _ _ _ Hs _ _ _ _ Ha) as ([Hin Hst] & _ & Hwm & Hm).
    rewrite (meta_hash _ _ metas h md Hin Hst). destruct (agg_nonneg _ _ _ _ Ha).
    apply cannot_be_orphaned_spec in Ho as (_ & H1 & H2 & H3); [|done..]. by split_and!.
  - intros ((Ha & Hsup) & -> & ->). exists (md, wm, m). split.
    + apply (list_elem_of_fmap_2 snd _ (m_block_hash md, (md, wm, m))). by apply elem_of_map_to_list.
    + unfold candidate_of. destruct (agg_nonneg _ _ _ _ Ha). rewrite (proj2 (cannot_be_orphaned_spec values values_perm wm m ltac:(done) ltac:(done))); [done|].
      destruct Hsup as [_ H1 H2 H3]. split_and!; [intros v w Hv; by apply H1 in Hv as (_ & ? & _)|lia|lia|lia| |lia].
      etrans; [|apply H2]. apply weight_submap_le; [done|].
      apply map_subseteq_spec. intros v w Hv. by apply H1 in Hv as [? _].
Qed.
Lemma filtered_nodup :
  NoDup ((fun c => m_block_hash c.1.1.1.1) <$> filtered values into_values (aggregated_agreements s)).
Proof.
  unfold filtered. set (g := candidate_of values). rewrite into_values_perm.
  assert (forall c c', g c = Some c' -> c'.1.1 = c) as Hg.
  { intros [[md wm] m] c'. unfold g, candidate_of. destruct (cannot_be_orphaned _ _ _); [|done]. by intros [= <-]. }
  assert (forall l, (forall h c, (h, c) ∈ l -> m_block_hash c.1.1 = h) -> NoDup l.*1 ->
    NoDup ((fun c => m_block_hash c.1.1.1.1) <$> omap g l.*2)) as Hl.
  { induction l as [|[h c] l IH]; cbn; intros Hc Hnd; [constructor|]. apply NoDup_cons in Hnd as [Hh Hnd].
    assert (NoDup ((fun c => m_block_hash c.1.1.1.1) <$> omap g l.*2)) as Hrest.
    { apply IH; [|done]. intros h' c' Hin. apply Hc. by right. }
    destruct (g c) as [c'|] eqn:Hgc; [|done]. cbn. constructor; [|done].
    intros (c'' & Heq & Hin)%list_elem_of_fmap. apply list_elem_of_omap in Hin as (d & Hd & Hgd).
    apply list_elem_of_fmap in Hd as ([h' d'] & -> & Hin). cbn in Hgd.
    rewrite (Hg _ _ Hgc), (Hg _ _ Hgd) in Heq. rewrite (Hc h c) in Heq by left.
    rewrite (Hc h' d') in Heq by by right. subst h'. apply Hh. by apply (list_elem_of_fmap_2 fst _ (h, d')). }
  apply Hl; [|apply NoDup_fst_map_to_list]. intros h [[md wm] m] Ha%elem_of_map_to_list. cbn.
  destruct (agg_agreements _ _ _ _ Hs _ _ _ _ Ha) as ([Hin Hst] & _). by apply (meta_hash _ _ metas).
Qed.
Lemma capped_elem c :
  c ∈ capped_agreements values into_values (aggregated_agreements s) ->
  aggregated_agreements s !! m_block_hash c.1.1 = Some c /\ candidate_ok c.
Proof.
  unfold capped_agreements. intros Hc.
  apply (subseteq_take _ _), list_elem_of_fmap in Hc as ([[[[md wm] m] x] n] & -> & Hin%elem_of_sort_by).
  apply filtered_elem in Hin as ((Ha & Hsup) & _). split; [done|]. split; [|done].
  by destruct (agg_agreements _ _ _ _ Hs _ _ _ _ Ha) as (Hst & _).
Qed.
End aggregated.

(** What the layers collect *)
Lemma visited_ok lms : latest_messages dag idx = Ok lms ->
  exists s, visit_layers dag idx expired fuel lfb (sorted_latest_messages lms) (mkAggregation ∅ ∅ ∅ 0) = Some s /\
    agg_ok dag idx lfb s /\
    ((forall n, expired n = false) -> forall v lm md md', latest_message_hash dag v = Some lm -> stored_as dag idx lm md ->
       rtc (parent_of dag idx lfb) md md' -> recorded s v (m_block_hash md')).
Proof.
  destruct latest_messages_spec as (lms' & Hl & Hlms). rewrite Hl. intros [= <-].
  assert (forall v md, (v, md) ∈ sorted_latest_messages lms' <-> lms' !! v = Some md) as Hin.
  { intros v md. unfold sorted_latest_messages. by rewrite elem_of_sort_by, elem_of_map_to_list. }
  assert (0 < fuel) as Hpos by (pose proof (sound_rank _ _ _ _ sound []); lia).
  destruct (visit_layers_spec dag idx fuel rank sound metas expired lfb fuel (sorted_latest_messages lms')
    (mkAggregation ∅ ∅ ∅ 0)) as (s & -> & Hs & _ & Hrec); [apply agg_ok_empty| |done| |].
  - intros v md (h & Hlm & Hst)%Hin%Hlms. rewrite (meta_hash _ _ metas h md) by apply Hst.
    split_and!; [done|by exists h|right; by exists v].
  - intros v md (h & Hlm & [Hh Hst])%Hin%Hlms. destruct (sound_block _ _ _ _ sound h Hh) as (_ & (n & Hn & Hlt) & _).
    rewrite (meta_number _ _ metas h md Hh Hst) in Hn. injection Hn as <-. lia.
  - exists s. split_and!; [done..|]. intros Hu v lm md md' Hlm Hst Hr.
    eapply (Hrec Hu v md); [apply Hin, Hlms; eauto|done].
Qed.
Lemma run_spec st :
  exists out st' s, run values dag idx iter fuel expired interrupted into_values effect threshold lfb st = (Some out, st') /\
    agg_ok dag idx lfb s /\ evaluated (capped_agreements values into_values (aggregated_agreements s)) st out st' /\
    (unlimited -> forall v lm md md', latest_message_hash dag v = Some lm -> stored_as dag idx lm md ->
       rtc (parent_of dag idx lfb) md md' -> recorded s v (m_block_hash md')).
Proof.
  unfold run. destruct latest_messages_spec as (lms & Hl & _). rewrite Hl.
  destruct (visited_ok lms Hl) as (s & -> & Hs & Hrec).
  destruct (evaluate_spec (capped_agreements values into_values (aggregated_agreements s)) (ticks s) new_run_cache st)
    as (out & st' & -> & Hout); [|apply cache_ok_new|].
  - apply Forall_forall. intros c Hc. by apply (capped_elem s).
  - exists out, st', s. split_and!; [done..|]. intros [Hu _]. by apply Hrec.
Qed.

(** ** Completeness *)

Lemma main_path lm h md : rtc (main_edge dag) lm h -> stored_as dag idx h md -> (lfb < m_block_number md)%Z ->
  forall mdl, stored_as dag idx lm mdl -> rtc (parent_of dag idx lfb) mdl md.
Proof.
  intros Hr [Hh Hst] Hlt. induction Hr as [h|lm p h Hp Hr IH]; intros mdl [Hl Hstl].
  { assert (mdl = md) as -> by congruence. apply rtc_refl. }
  assert (p ∈ r_dag_set dag) as Hpin.
  { unfold main_edge in Hp. rewrite (meta_parent _ _ metas lm mdl Hl Hstl) in Hp.
    apply (sound_parent _ _ _ _ sound lm mdl); [done..|]. by apply head_Some_elem_of. }
  destruct (sound_block _ _ _ _ sound p Hpin) as (_ & _ & [mdp Hmdp]).
  eapply rtc_l; [|by apply IH]. unfold parent_of.
  rewrite (meta_hash _ _ metas lm mdl Hl Hstl), (meta_hash _ _ metas p mdp Hpin Hmdp). split_and!; [done..|].
  destruct (main_edge_lt dag (sound_numbered _ _ _ _ sound) p h (m_block_number md) (m_block_number mdp)) as [->|?];
    [by apply (meta_number _ _ metas)|by apply (meta_number _ _ metas)|done| |lia].
  by assert (mdp = md) as -> by congruence.
Qed.

(** Without time limits the agreements on a block above the last finalized one are complete. *)
Lemma agreements_exact s h md wm m :
  agg_ok dag idx lfb s ->
  (forall v lm md md', latest_message_hash dag v = Some lm -> stored_as dag idx lm md ->
     rtc (parent_of dag idx lfb) md md' -> recorded s v (m_block_hash md')) ->
  stored_as dag idx h md -> (lfb < m_block_number md)%Z -> supported h wm m ->
  (forall v w, wm !! v = Some w -> (0 < w)%Z -> agrees dag h v -> m !! v = Some w) ->
  aggregated_agreements s !! h = Some (md, wm, m).
Proof.
  intros Hs Hrec Hst Hlt Hsup Hall.
  assert (forall v, agrees dag h v -> recorded s v h) as Hr.
  { intros v (lm & Hlm & Hr). pose proof (sound_latest _ _ _ _ sound v lm Hlm) as Hl.
    destruct (sound_block _ _ _ _ sound lm Hl) as (_ & _ & [mdl Hmdl]).
    rewrite <-(meta_hash _ _ metas h md) by apply Hst. eapply Hrec; [done|by split|]. by eapply main_path. }
  assert (exists v, agrees dag h v) as [v Hv].
  { destruct (decide (m = ∅)) as [->|Hne].
    - exfalso. pose proof (sup_majority _ _ _ Hsup) as H1. pose proof (sup_total _ _ _ Hsup) as H2.
      rewrite dom_empty_L, weight_empty in H1. lia.
    - apply map_choose in Hne as (v & w & Hv). exists v. by apply (sup_agree _ _ _ Hsup) in Hv as (_ & _ & ?). }
  destruct (Hr v Hv) as (md' & wm' & m' & Ha & _). rewrite Ha.
  destruct (agg_agreements _ _ _ _ Hs _ _ _ _ Ha) as ([_ Hst'] & _ & Hwm & Hm).
  destruct Hst as [_ Hst]. rewrite Hst in Hst'. injection Hst' as <-.
  rewrite (sup_bonds _ _ _ Hsup) in Hwm. injection Hwm as <-. do 2 f_equal. apply map_eq. intros u.
  apply option_eq. intros w. split.
  - intros (H1 & H2 & H3)%Hm. auto.
  - intros (H1 & H2 & H3)%(sup_agree _ _ _ Hsup). destruct (Hr u H3) as (? & ? & ? & Ha' & Hw).
    rewrite Ha in Ha'. injection Ha' as <- <- <-. auto.
Qed.

(** The blocks with a majority are few enough for the bound on the candidates. *)
Definition few (U : gset BlockHash) : Prop :=
  size U <= MAX_CLIQUE_CANDIDATES /\ forall h md wm m,
    stored_as dag idx h md -> in_scope dag lfb h md -> supported h wm m -> h ∈ U.
Lemma filtered_length s U :
  agg_ok dag idx lfb s -> few U ->
  length (filtered values into_values (aggregated_agreements s)) <= MAX_CLIQUE_CANDIDATES.
Proof.
  intros Hs [Hsz HU]. etrans; [|exact Hsz]. set (l := filtered _ _ _).
  set (hash := fun c : Candidate => m_block_hash c.1.1.1.1). rewrite <-(length_fmap hash l).
  rewrite <-(size_list_to_set (C:=gset BlockHash)) by by apply filtered_nodup.
  apply subseteq_size. intros h (c & -> & Hin)%elem_of_list_to_set%list_elem_of_fmap.
  destruct c as [[[[md wm] m] x] n]. apply filtered_elem in Hin as ((Ha & Hsup) & _); [|done].
  destruct (agg_agreements _ _ _ _ Hs _ _ _ _ Ha) as (Hst & Hsc & _). by eapply HU.
Qed.

Lemma run_finds st : exists out st',
  run values dag idx iter fuel expired interrupted into_values effect threshold lfb st = (Some out, st') /\
  ((out = Ok None /\ st' = st) \/
   exists h wm m best ft, h ∈ r_dag_set dag /\ supported h wm m /\ passes h wm m best ft /\ finished h ft st out st').
Proof.
  destruct (run_spec st) as (out & st' & s & Hrun & Hs & Hev & _). exists out, st'. split; [done|].
  destruct Hev as [(-> & -> & _)|(l1 & md & wm & m & l2 & best & ft & Heq & _ & Hp & Hf)]; [by left|right].
  destruct (capped_elem s Hs (md, wm, m)) as [_ [[Hin _] Hsup]].
  { rewrite Heq. apply elem_of_app. right. left. }
  exists (m_block_hash md), wm, m, best, ft. by split_and!.
Qed.
Lemma finished_inv h ft st h' ft' st' : finished h ft st (Ok (Some (h', ft'))) st' -> h' = h /\ ft' = ft.
Proof.
  unfold finished. destruct (is_finalized _ _ _); [by intros [[= -> ->] _]|].
  intros ([[]| |] & _ & Hr); cbn in Hr; by simplify_eq.
Qed.
Lemma run_supported st h ft st' :
  run values dag idx iter fuel expired interrupted into_values effect threshold lfb st = (Some (Ok (Some (h, ft))), st') ->
  exists wm m, supported h wm m.
Proof.
  intros Hrun. destruct (run_finds st) as (out & st'' & Hrun' & Hout). rewrite Hrun in Hrun'.
  injection Hrun' as <- <-. destruct Hout as [[? _]|(h' & wm & m & best & ft' & _ & Hsup & _ & Hf)]; [done|].
  apply finished_inv in Hf as [-> ->]. eauto.
Qed.

(** C8: a block that the finalizer accepts is safe, whatever the time limits do.  [run] always
    ends; if it does not return [None], it hands a block of the DAG to the effect (unless that
    block is final already) and returns it: validators that agree on the block have more than
    half of its stake, and the fault tolerance of the greatest committed set among them exceeds
    the threshold. *)
Theorem finalizer_sound st : exists out st',
  run values dag idx iter fuel expired interrupted into_values effect threshold lfb st = (Some out, st') /\
  ((out = Ok None /\ st' = st) \/
   exists h wm m best ft, h ∈ r_dag_set dag /\ supported h wm m /\ passes h wm m best ft /\ finished h ft st out st').
Proof. apply run_finds. Qed.

(** C6: the finalizer is complete when there is time.  Let a block above the last finalized one
    have a majority and a fault tolerance above the threshold, let at most 128 blocks in the
    scope of the search have a majority, and let the total stake be below 2^24 (or the bound by
    which candidates are pruned above the threshold; it is computed in [f64] and need not bound
    the [f32] value of larger stakes).  Then [run] hands over a block that is at least as high. *)
Theorem finalizer_complete st h md wm m best ft U :
  unlimited -> few U -> stored_as dag idx h md -> (lfb < m_block_number md)%Z -> supported h wm m ->
  (forall v w, wm !! v = Some w -> (0 < w)%Z -> agrees dag h v -> m !! v = Some w) ->
  greatest dag idx h m best -> tolerance wm m best = Ok ft -> f32_lt threshold ft = true ->
  valid_binary 24 128 threshold = true -> not_pruned wm m ->
  exists out st' h' md' ft',
    run values dag idx iter fuel expired interrupted into_values effect threshold lfb st = (Some out, st') /\
    stored_as dag idx h' md' /\ (m_block_number md <= m_block_number md')%Z /\ finished h' ft' st out st'.
Proof.
  intros Hu Hfew Hst Hlt Hsup Hall Hg Htol Hthr Hv Hnp.
  assert (passes h wm m best ft) as Hpass.
  { split; [done..|]. destruct Hnp as [|]; [done|]. by eapply upper_bound_safe. }
  destruct (run_spec st) as (out & st' & s & Hrun & Hs & Hev & Hrec).
  pose proof (agreements_exact s h md wm m Hs (Hrec Hu) Hst Hlt Hsup Hall) as Ha.
  rewrite <-(meta_hash _ _ metas h md) in Ha, Hsup, Hpass by apply Hst.
  set (sorted := sort_by candidate_cmp (filtered values into_values (aggregated_agreements s))).
  assert ((md, wm, m, sum_i64 (values m), size m) ∈ sorted) as Hin.
  { apply elem_of_sort_by. by apply filtered_elem. }
  assert (capped_agreements values into_values (aggregated_agreements s) = (fun c => c.1.1) <$> sorted) as Hcap.
  { unfold capped_agreements. apply take_ge. subst sorted. rewrite length_fmap, length_sort_by. by eapply filtered_length. }
  rewrite Hcap in Hev. destruct Hev as [(_ & _ & Hrej)|(l1 & md' & wm' & m' & l2 & best' & ft' & Heq & Hrej & Hp & Hf)].
  { exfalso. specialize (Hrej Hu). rewrite Forall_fmap, Forall_forall in Hrej. by apply (Hrej _ Hin best ft). }
  assert ((md', wm', m') ∈ capped_agreements values into_values (aggregated_agreements s)) as Hc'.
  { rewrite Hcap, Heq. apply elem_of_app. right. left. }
  apply (capped_elem s Hs) in Hc' as [_ [Hst' _]]. cbn [fst snd] in Hst'.
  exists out, st', (m_block_hash md'), md', ft'. split_and!; [done..| |done].
  apply fmap_app_inv in Heq as (k1 & k2 & -> & Hk2 & Hk). symmetry in Hk2.
  apply fmap_cons_inv in Hk2 as (c' & k3 & Hc' & _ & ->).
  rewrite Hk in Hin. apply elem_of_app in Hin as [Hin|Hin].
  - exfalso. specialize (Hrej Hu). rewrite Forall_fmap, Forall_forall in Hrej. by apply (Hrej _ Hin best ft).
  - replace md' with c'.1.1.1.1 by by rewrite <-Hc'.
    apply elem_of_cons in Hin as [<-|Hin]; [done|]. apply (candidate_le_number c' (md, wm, m, sum_i64 (values m), size m)).
    pose proof (sort_by_sorted candidate_cmp (filtered values into_values (aggregated_agreements s))) as Hsorted.
    fold sorted in Hsorted. rewrite Hk in Hsorted. apply StronglySorted_app_1_r in Hsorted.
    apply StronglySorted_inv in Hsorted as [_ Hle]. rewrite Forall_forall in Hle. by apply Hle.
Qed.
End run.

(** ** Agreement *)

Lemma rtc_main_linear dag x y z :
  rtc (main_edge dag) x y -> rtc (main_edge dag) x z -> rtc (main_edge dag) y z \/ rtc (main_edge dag) z y.
Proof.
  intros Hy. revert z. induction Hy as [x|x x' y Hx Hy IH]; intros z Hz; [by left|].
  inversion Hz as [|? x'' ? Hx'' Hz']; subst; [right; by eapply rtc_l|].
  unfold main_edge in Hx, Hx''. rewrite Hx in Hx''. injection Hx'' as <-. by apply IH.
Qed.
(** Two majorities of the same bonds have a validator in common, whose latest message has both
    blocks on its main chain. *)
Lemma supported_one_chain dag idx h1 h2 wm m1 m2 :
  nonneg wm -> supported dag idx h1 wm m1 -> supported dag idx h2 wm m2 ->
  rtc (main_edge dag) h1 h2 \/ rtc (main_edge dag) h2 h1.
Proof.
  intros Hnn H1 H2. pose proof (sup_subseteq _ _ _ _ _ H1) as Hs1. pose proof (sup_subseteq _ _ _ _ _ H2) as Hs2.
  destruct (decide (dom m1 ∩ dom m2 = ∅)) as [Hd|Hd].
  - exfalso. pose proof (sup_majority _ _ _ _ _ H1) as Hm1. pose proof (sup_majority _ _ _ _ _ H2) as Hm2.
    rewrite (weight_submap wm m1) in Hm1 by done. rewrite (weight_submap wm m2) in Hm2 by done.
    assert (weight wm (dom m1 ∪ dom m2) <= weight wm (dom wm))%Z as Hle.
    { apply weight_mono; [done|]. apply union_subseteq. split; by apply subseteq_dom. }
    rewrite weight_disj_union in Hle by (apply disjoint_intersection_L, Hd). lia.
  - apply set_choose_L in Hd as (v & [Hv1 Hv2]%elem_of_intersection).
    apply elem_of_dom in Hv1 as [w1 Hv1], Hv2 as [w2 Hv2].
    apply (sup_agree _ _ _ _ _ H1) in Hv1 as (_ & _ & lm & Hlm & Hr1).
    apply (sup_agree _ _ _ _ _ H2) in Hv2 as (_ & _ & lm' & Hlm' & Hr2).
    rewrite Hlm in Hlm'. injection Hlm' as <-. by apply (rtc_main_linear _ lm).
Qed.

(** What a run is given besides the DAG *)
Record Setting := mkSetting {
  s_values : WeightMap -> list Z;
  s_iter : gset Validator -> list Validator;
  s_expired : nat -> bool;
  s_interrupted : BlockHash -> CliqueOracleRunCache -> option CliqueOracleRunCache;
  s_into_values : gmap BlockHash (BlockMetadata * WeightMap * WeightMap) -> list (BlockMetadata * WeightMap * WeightMap);
  s_threshold : f32;
  s_height : Z;
}.
Record setting_ok (dag : KeyValueDagRepresentation) (idx : gmap BlockHash BlockMetadata) (fuel : nat) (s : Setting) : Prop := {
  set_values : forall m, s_values s m ≡ₚ stakes m;
  set_iter : forall x, s_iter s x ≡ₚ elements x;
  set_interrupted : forall h c c', s_interrupted s h c = Some c' -> cache_ok dag idx fuel c -> cache_ok dag idx fuel c';
  set_into_values : forall m, s_into_values s m ≡ₚ (map_to_list m).*2;
}.
Definition run_in (dag : KeyValueDagRepresentation) (idx : gmap BlockHash BlockMetadata) (fuel : nat) (s : Setting)
    {S} (effect : BlockHash * f32 -> ST S (res KvStoreError unit)) : ST S (Outcome (option (BlockHash * f32))) :=
  run (s_values s) dag idx (s_iter s) fuel (s_expired s) (s_interrupted s) (s_into_values s) effect
    (s_threshold s) (s_height s).

Section agreement.
Context (dag : KeyValueDagRepresentation) (idx : gmap BlockHash BlockMetadata) (fuel : nat) (rank : BlockHash -> nat).
Hypothesis sound : dag_sound dag idx fuel rank.
Hypothesis metas : metadata_ok dag idx.
Hypothesis bonds : bonds_ok dag idx fuel.

(** C5: the finalizer never accepts two conflicting blocks.  If two runs over the same DAG, with
    any thresholds, heights and time limits, return blocks with the same bonds, then one of the
    blocks is on the main chain of the other. *)
Theorem finalizer_one_chain {S} (s1 s2 : Setting) (effect : BlockHash * f32 -> ST S (res KvStoreError unit))
    st1 st2 h1 h2 ft1 ft2 st1' st2' :
  setting_ok dag idx fuel s1 -> setting_ok dag idx fuel s2 ->
  run_in dag idx fuel s1 effect st1 = (Some (Ok (Some (h1, ft1))), st1') ->
  run_in dag idx fuel s2 effect st2 = (Some (Ok (Some (h2, ft2))), st2') ->
  get_corresponding_weight_map dag idx h1 = get_corresponding_weight_map dag idx h2 ->
  rtc (main_edge dag) h1 h2 \/ rtc (main_edge dag) h2 h1.
Proof.
  intros [V1 I1 T1 O1] [V2 I2 T2 O2] R1 R2 Hwm.
  apply (run_supported _ V1 dag idx _ _ _ I1 sound metas _ _ T1 _ O1 effect bonds) in R1 as (wm & m1 & H1).
  apply (run_supported _ V2 dag idx _ _ _ I2 sound metas _ _ T2 _ O2 effect bonds) in R2 as (wm' & m2 & H2).
  assert (wm' = wm) as ->.
  { pose proof (sup_bonds _ _ _ _ _ H1). pose proof (sup_bonds _ _ _ _ _ H2). congruence. }
  apply (supported_one_chain dag idx h1 h2 wm m1 m2); [|done..].
  by apply (bonds h1), (sup_bonds _ _ _ _ _ H1).
Qed.

(** ** The order of the hash maps does not matter *)

Lemma sum_i64_values l a :
  Forall (fun z => 0 <= z)%Z l -> (0 <= a)%Z -> (a + sum_Z l <= i64_max)%Z ->
  foldl (fun a b => wrap_i64 (a + b)) a l = (a + sum_Z l)%Z.
Proof.
  intros Hl. revert a. induction Hl as [|x l Hx Hl IH]; intros a Ha Hle; cbn [foldl sum_Z foldr] in *; [unfold sum_Z; cbn; lia|].
  fold (sum_Z l) in *. assert (0 <= sum_Z l)%Z as Hpos.
  { clear -Hl. induction Hl; cbn; [lia|]. unfold sum_Z in *. lia. }
  rewrite wrap_i64_id by (unfold i64_range, i64_min, i64_max in *; lia). rewrite IH by lia. lia.
Qed.
Section orders.
Context (v1 v2 : WeightMap -> list Z).
Hypothesis p1 : forall m, v1 m ≡ₚ stakes m.
Hypothesis p2 : forall m, v2 m ≡ₚ stakes m.
Lemma checked_order m : nonneg m -> checked_stake_sum v1 m = checked_stake_sum v2 m.
Proof. intros Hm. apply option_eq. intros z. by rewrite !checked_stake_sum_exact. Qed.
Lemma candidate_order md wm m : nonneg wm -> nonneg m -> candidate_of v1 (md, wm, m) = candidate_of v2 (md, wm, m).
Proof.
  intros Hwm Hm. unfold candidate_of.
  assert (cannot_be_orphaned v1 wm m = cannot_be_orphaned v2 wm m) as Heq.
  { apply eq_true_iff_eq. by rewrite !cannot_be_orphaned_spec. }
  rewrite <-Heq. destruct (cannot_be_orphaned v1 wm m) eqn:Ho; [|done].
  apply cannot_be_orphaned_spec in Ho as (_ & _ & [_ Hle] & _); [|done..]. rewrite <-sum_Z_stakes in Hle.
  assert (forall v, (forall m, v m ≡ₚ stakes m) -> sum_i64 (v m) = sum_Z (stakes m)) as Hsum.
  { intros v Hv. unfold sum_i64. rewrite sum_i64_values; [by rewrite Hv|by apply nonneg_values|lia|by rewrite Hv]. }
  by rewrite !Hsum.
Qed.
End orders.

Lemma capped_order s1 s2 a :
  setting_ok dag idx fuel s1 -> setting_ok dag idx fuel s2 -> agg_ok dag idx (s_height s1) a ->
  capped_agreements (s_values s1) (s_into_values s1) (aggregated_agreements a) =
  capped_agreements (s_values s2) (s_into_values s2) (aggregated_agreements a).
Proof.
  intros [V1 _ _ O1] [V2 _ _ O2] Ha. unfold capped_agreements. do 2 f_equal. apply (sort_by_unique_on candidate_cmp).
  - intros [[[[md wm] m] z] n] [[[[md' wm'] m'] z'] n'] Hx Hy Heq. rewrite candidate_cmp_key in Heq.
    apply (cmp_eq key_cmp) in Heq. unfold candidate_key in Heq. cbn in Heq. injection Heq as _ <- <- Hh.
    apply (filtered_elem _ V1 dag idx fuel metas _ O1 bonds _ _ Ha) in Hx as ((Hx & _) & _).
    apply (filtered_elem _ V1 dag idx fuel metas _ O1 bonds _ _ Ha) in Hy as ((Hy & _) & _). congruence.
  - unfold filtered. rewrite O1, O2.
    assert (forall l : list (BlockMetadata * WeightMap * WeightMap), (forall c, c ∈ l -> candidate_of (s_values s1) c = candidate_of (s_values s2) c) ->
      omap (candidate_of (s_values s1)) l = omap (candidate_of (s_values s2)) l) as Hl.
    { induction l as [|c l IH]; intros Hc; [done|]. cbn. rewrite (Hc c) by left. rewrite IH; [done|].
      intros c' Hc'. apply Hc. by right. }
    rewrite Hl; [done|]. intros c Hc. apply list_elem_of_fmap in Hc as ([h [[md wm] m]] & -> & Hin%elem_of_map_to_list).
    destruct (agg_nonneg dag idx fuel bonds _ a Ha _ _ _ _ Hin). by apply candidate_order.
Qed.
Lemma evaluate_order s1 s2 {S} (effect : BlockHash * f32 -> ST S (res KvStoreError unit)) cands t c1 c2 st :
  setting_ok dag idx fuel s1 -> setting_ok dag idx fuel s2 -> s_threshold s1 = s_threshold s2 ->
  s_expired s1 = s_expired s2 -> (forall h c, s_interrupted s1 h c = None) -> (forall h c, s_interrupted s2 h c = None) ->
  Forall (candidate_ok dag idx) cands -> cache_ok dag idx fuel c1 -> cache_ok dag idx fuel c2 ->
  evaluate (s_values s1) dag idx (s_iter s1) fuel (s_expired s1) (s_interrupted s1) effect (s_threshold s1) cands t c1 st =
  evaluate (s_values s2) dag idx (s_iter s2) fuel (s_expired s2) (s_interrupted s2) effect (s_threshold s2) cands t c2 st.
Proof.
  intros [V1 I1 _ _] [V2 I2 _ _] Ht He N1 N2 Hc. rewrite <-Ht, <-He. revert t c1 c2.
  induction Hc as [|[[md wm] m] cands [Hst Hsup] Hall IH]; intros t c1 c2 Hc1 Hc2; cbn [evaluate]; [done|].
  cbn [fst snd] in *. destruct (s_expired s1 t); [done|].
  destruct (bonds _ _ (sup_bonds _ _ _ _ _ Hsup)) as [Hnn Hsz].
  pose proof (sup_subseteq _ _ _ _ _ Hsup) as Hsub.
  assert (nonneg m) as Hm.
  { intros v. unfold weight_of. destruct (m !! v) as [w|] eqn:Hv; cbn; [|lia].
    apply (sup_agree _ _ _ _ _ Hsup) in Hv as (_ & ? & _). lia. }
  assert (fault_tolerance_upper_bound (s_values s1) wm m = fault_tolerance_upper_bound (s_values s2) wm m) as ->.
  { unfold fault_tolerance_upper_bound. by rewrite !(checked_order _ _ V1 V2). }
  destruct (f64_le _ _); [by apply IH|]. rewrite N1, N2.
  destruct (compute_output_exact dag idx (s_iter s1) fuel rank I1 sound (m_block_hash md) (proj1 Hst) wm m c1)
    as (b1 & c1' & G1 & -> & Hc1'); [done|apply Hsup|done..|].
  destruct (compute_output_exact dag idx (s_iter s2) fuel rank I2 sound (m_block_hash md) (proj1 Hst) wm m c2)
    as (b2 & c2' & G2 & -> & Hc2'); [done|apply Hsup|done..|].
  rewrite (greatest_unique _ _ _ _ _ _ G2 G1). destruct (tolerance wm m b1); [|by apply IH|done].
  destruct (f32_lt _ _); [done|by apply IH].
Qed.

(** C24: what the finalizer returns does not depend on the order in which hash maps are iterated,
    so that nodes with the same DAG agree: for two such orders, and evaluations that are not
    interrupted, the result and the effect of [run] are the same. *)
Theorem finalizer_deterministic {S} (s1 s2 : Setting) (effect : BlockHash * f32 -> ST S (res KvStoreError unit)) st :
  setting_ok dag idx fuel s1 -> setting_ok dag idx fuel s2 ->
  s_threshold s1 = s_threshold s2 -> s_height s1 = s_height s2 -> s_expired s1 = s_expired s2 ->
  (forall h c, s_interrupted s1 h c = None) -> (forall h c, s_interrupted s2 h c = None) ->
  run_in dag idx fuel s1 effect st = run_in dag idx fuel s2 effect st.
Proof.
  intros Hs1 Hs2 Ht Hh He N1 N2. unfold run_in, run. destruct (latest_messages dag idx) as [lms| |] eqn:Hl; [|done..].
  rewrite <-He, <-Hh. destruct (visit_layers _ _ _ _ _ _ _) as [a|] eqn:Hv; [|done].
  assert (agg_ok dag idx (s_height s1) a) as Ha.
  { destruct Hs1 as [V1 I1 T1 O1].
    destruct (visited_ok dag idx fuel rank sound metas (s_expired s1) (s_height s1) lms Hl) as (a' & Hv' & Ha' & _).
    rewrite Hv in Hv'. by injection Hv' as <-. }
  rewrite (capped_order s1 s2 a) by done. set (cands := capped_agreements _ _ _).
  pose proof (evaluate_order s1 s2 effect cands (ticks a) new_run_cache new_run_cache st Hs1 Hs2 Ht He N1 N2) as Hev.
  rewrite <-He in Hev. apply Hev; [|apply cache_ok_new..]. apply Forall_forall. intros c Hc.
  destruct Hs2 as [V2 I2 T2 O2]. eapply (capped_elem _ V2 dag idx fuel metas _ O2 bonds); [|exact Hc]. exact Ha.
Qed.
End agreement.
