(* ===== verification/FinalityExamples.v ===== *)
(** * A small vote

    Three bonded validators, two of which have built on the first block: the theorems on the
    safety oracle and on the finalizer apply to it. *)
From Stdlib Require Import SpecFloat.
From S2P Require Import Prelude HotStoreSig HistoryRepo CasperMessage BlockDag BlockDagWalk Clique CliqueThms CliqueOracle CliqueOracleThms Finalizer FinalizerThms.
Open Scope nat_scope.

(** ** Checking the hypotheses on a DAG *)

Section check.
Context (dag : KeyValueDagRepresentation) (idx : gmap BlockHash BlockMetadata) (fuel : nat).
Abbreviation number h := (r_block_number_map dag !! h).
Definition rank_of (h : BlockHash) : nat := Z.to_nat (default 0%Z (number h)).
Definition block_check (h : BlockHash) : bool :=
  match number h, idx !! h with
  | Some n, Some md =>
    bool_decide (length h = BLOCK_HASH_LENGTH /\ (0 <= n < Z.of_nat fuel)%Z /\ m_block_hash md = h /\
      n = m_block_number md /\ main_parent dag h = head (m_parents md)) &&
    forallb (fun j => bool_decide (latest_block_hash j ∈ r_dag_set dag)) (m_justifications md) &&
    forallb (fun p => bool_decide (p ∈ r_dag_set dag)) (m_parents md)
  | _, _ => false
  end.
Definition dag_check : bool :=
  forallb block_check (elements (r_dag_set dag)) &&
  forallb (fun '(h, p) => bool_decide (p ∈ r_dag_set dag /\ h ∈ r_dag_set dag /\ rank_of p < rank_of h))
    (map_to_list (r_main_parent_map dag)) &&
  forallb (fun '(h, p) => bool_decide (p ∈ r_dag_set dag /\ rank_of p < rank_of h))
    (map_to_list (r_self_justification_map dag)) &&
  forallb (fun '(v, h) => bool_decide (h ∈ r_dag_set dag)) (map_to_list (r_latest_messages_map dag)) &&
  forallb (fun '(h, n) => bool_decide (Z.to_nat n < fuel)) (map_to_list (r_block_number_map dag)) &&
  bool_decide (0 < fuel).
Lemma forallb_map {A} (f : BlockHash * A -> bool) (m : gmap BlockHash A) k x :
  forallb f (map_to_list m) = true -> m !! k = Some x -> f (k, x) = true.
Proof. intros Hf Hx. rewrite forallb_forall in Hf. apply Hf, list_elem_of_In. by apply elem_of_map_to_list. Qed.
Lemma forallb_list {A} (f : A -> bool) l x : forallb f l = true -> x ∈ l -> f x = true.
Proof. intros Hf Hx. rewrite forallb_forall in Hf. by apply Hf, list_elem_of_In. Qed.
Lemma block_checked h : forallb block_check (elements (r_dag_set dag)) = true -> h ∈ r_dag_set dag ->
  exists md, number h = Some (m_block_number md) /\ idx !! h = Some md /\ length h = BLOCK_HASH_LENGTH /\
    (0 <= m_block_number md < Z.of_nat fuel)%Z /\ m_block_hash md = h /\ main_parent dag h = head (m_parents md) /\
    (forall j, j ∈ m_justifications md -> latest_block_hash j ∈ r_dag_set dag) /\
    (forall p, p ∈ m_parents md -> p ∈ r_dag_set dag).
Proof.
  intros Hb Hh. apply (forallb_list _ _ h) in Hb; [|by apply elem_of_elements]. unfold block_check in Hb.
  destruct (number h) as [n|]; [|done]. destruct (idx !! h) as [md|]; [|done].
  apply andb_true_iff in Hb as [[Hb Hj]%andb_true_iff Hp]. apply bool_decide_eq_true in Hb as (H1 & H2 & H3 & -> & H4).
  exists md. split_and!; try done; try lia.
  - intros j Hin. eapply (forallb_list _ _ j) in Hj; [|done]. by apply bool_decide_eq_true in Hj.
  - intros p Hin. eapply (forallb_list _ _ p) in Hp; [|done]. by apply bool_decide_eq_true in Hp.
Qed.
Lemma dag_checked : dag_check = true -> dag_sound dag idx fuel rank_of /\ metadata_ok dag idx.
Proof.
  unfold dag_check. rewrite !andb_true_iff. intros [[[[[Hb Hm] Hs] Hl] Hn] Hf].
  split; split.
  - intros h p Hp. apply (forallb_map _ _ h p) in Hm; [|done]. apply bool_decide_eq_true in Hm as (Hp' & Hh & Hlt).
    destruct (block_checked p Hb Hp') as (mp & Hnp & _ & _ & Hp0 & _).
    destruct (block_checked h Hb Hh) as (mh & Hnh & _ & _ & Hh0 & _).
    unfold rank_of in Hlt. rewrite Hnp, Hnh in Hlt. cbn in Hlt. exists (m_block_number mp), (m_block_number mh).
    split_and!; [done..|lia].
  - intros h Hh. destruct (block_checked h Hb Hh) as (md & H1 & H2 & H3 & H4 & _). split_and!; eauto.
  - intros h p Hp. apply (forallb_map _ _ h p) in Hs; [|done]. by apply bool_decide_eq_true in Hs.
  - intros h. unfold rank_of. destruct (number h) as [n|] eqn:Hh; cbn.
    + apply (forallb_map _ _ h n) in Hn; [|done]. by apply bool_decide_eq_true in Hn.
    + by apply bool_decide_eq_true in Hf.
  - intros v h Hh. apply (forallb_map _ _ v h) in Hl; [|done]. by apply bool_decide_eq_true in Hl.
  - intros h md j Hh Hmd. destruct (block_checked h Hb Hh) as (md' & H). rewrite Hmd in H.
    destruct H as (_ & [= <-] & _ & _ & _ & _ & Hj & _). apply Hj.
  - intros h md p Hh Hmd. destruct (block_checked h Hb Hh) as (md' & H). rewrite Hmd in H.
    destruct H as (_ & [= <-] & _ & _ & _ & _ & _ & Hp). apply Hp.
  - intros h md Hh Hmd. destruct (block_checked h Hb Hh) as (md' & H). rewrite Hmd in H.
    destruct H as (? & [= <-] & ? & ? & ? & ? & _). done.
  - intros h md Hh Hmd. destruct (block_checked h Hb Hh) as (md' & H). rewrite Hmd in H.
    destruct H as (? & [= <-] & ? & ? & ? & ? & _). done.
  - intros h md Hh Hmd. destruct (block_checked h Hb Hh) as (md' & H). rewrite Hmd in H.
    destruct H as (? & [= <-] & ? & ? & ? & ? & _). done.
Qed.
(** Every block has the bonds of some block. *)
Definition map_check (m : gmap Validator Z) : bool :=
  forallb (fun '(_, w) => bool_decide (0 <= w)%Z) (map_to_list m) && bool_decide (size (dom m) < fuel).
Definition bonds_check : bool := forallb (fun '(_, md) => map_check (m_weight_map md)) (map_to_list idx).
Lemma map_checked m : map_check m = true -> nonneg m /\ size (dom m) < fuel.
Proof.
  unfold map_check. rewrite andb_true_iff. intros [Hw Hs]. split; [|by apply bool_decide_eq_true in Hs].
  intros v. unfold weight_of. destruct (m !! v) as [w|] eqn:Hv; cbn; [|lia].
  apply (forallb_map _ _ v w) in Hw; [|done]. by apply bool_decide_eq_true in Hw.
Qed.
Lemma bonds_checked : bonds_check = true -> bonds_ok dag idx fuel.
Proof.
  intros Hb h wm. unfold get_corresponding_weight_map, lookup_unsafe.
  assert (forall x md, lookup_block dag idx x = Some md -> nonneg (m_weight_map md) /\ size (dom (m_weight_map md)) < fuel) as Hmd.
  { intros x md. unfold lookup_block. case_decide; [|done]. intros Hx. apply (forallb_map _ _ x md) in Hb; [|done].
    by apply map_checked. }
  destruct (lookup_block dag idx h) as [md|] eqn:Hh; [|done]. cbn [res_bind]. destruct (head (m_parents md)) as [p|].
  - destruct (lookup_block dag idx p) as [mdp|] eqn:Hp; [|done]. cbn [res_bind]. intros [= <-]. by eapply Hmd.
  - intros [= <-]. by eapply Hmd.
Qed.
End check.

(** Results are compared by evaluation. *)
Definition ok_is {E A} `{EqDecision A} (r : res E A) (a : A) : bool :=
  match r with Ok x => bool_decide (x = a) | _ => false end.
Lemma ok_is_true {E A} `{EqDecision A} (r : res E A) a : ok_is r a = true -> r = Ok a.
Proof. destruct r; cbn; [|done..]. by intros ->%bool_decide_eq_true. Qed.
Definition out_is {E A S} `{EqDecision A, EqDecision S} (out : option (res E A) * S) (a : A) (st : S) : bool :=
  match out with (Some r, s) => ok_is r a && bool_decide (s = st) | _ => false end.
Lemma out_is_true {E A S} `{EqDecision A, EqDecision S} (out : option (res E A) * S) a st :
  out_is out a st = true -> out = (Some (Ok a), st).
Proof.
  destruct out as [[r|] s]; cbn; [|done]. rewrite andb_true_iff. intros [->%ok_is_true ->%bool_decide_eq_true]. done.
Qed.

Module Vote.
Definition hash (b : byte) : BlockHash := replicate 32 b.
Definition alice : Validator := replicate 65 xaa.
Definition bob : Validator := replicate 65 xbb.
Definition carol : Validator := replicate 65 xcc.
Definition bonded : WeightMap := {[alice := 10%Z; bob := 10%Z; carol := 5%Z]}.
Definition meta (b : byte) (parents : list byte) (from : Validator) (js : list (Validator * byte)) (n : Z) : BlockMetadata :=
  mkMeta (hash b) (hash <$> parents) from ((fun '(v, b) => mkJust v (hash b)) <$> js) bonded n n false false false f32_zero.
(** Alice builds on the first block, Bob on Alice's block and Alice on Bob's. *)
Definition first := meta x01 [] [] [] 0.
Definition alice1 := meta x02 [x01] alice [(alice, x01); (bob, x01)] 1.
Definition bob1 := meta x03 [x02] bob [(alice, x02); (bob, x01)] 2.
Definition alice2 := meta x04 [x03] alice [(alice, x02); (bob, x03)] 3.
Definition idx : gmap BlockHash BlockMetadata :=
  {[hash x01 := first; hash x02 := alice1; hash x03 := bob1; hash x04 := alice2]}.
Definition dag : KeyValueDagRepresentation :=
  mkDag {[hash x01; hash x02; hash x03; hash x04]} {[alice := hash x04; bob := hash x03]} ∅ ∅
    {[hash x01 := 0%Z; hash x02 := 1%Z; hash x03 := 2%Z; hash x04 := 3%Z]}
    {[hash x02 := hash x01; hash x03 := hash x02; hash x04 := hash x03]}
    {[hash x02 := hash x01; hash x03 := hash x01; hash x04 := hash x02]} [] (hash x01) {[hash x01]}.
Definition tenth : f32 := f32_div (f32_of_i64 1) (f32_of_i64 10).
Definition into_values (m : gmap BlockHash (BlockMetadata * WeightMap * WeightMap)) := (map_to_list m).*2.
Definition never (n : nat) : bool := false.
Definition uninterrupted (h : BlockHash) (c : CliqueOracleRunCache) : option CliqueOracleRunCache := None.
Definition setting : Setting := mkSetting stakes elements never uninterrupted into_values tenth (-1).
(** The effect records the blocks. *)
Definition record (x : BlockHash * f32) (st : list BlockHash) : res KvStoreError unit * list BlockHash :=
  (Ok tt, st ++ [x.1]).

Lemma sound : dag_sound dag idx 20 (rank_of dag) /\ metadata_ok dag idx.
Proof. apply dag_checked. vm_compute. reflexivity. Qed.
Lemma bonds : bonds_ok dag idx 20.
Proof. apply bonds_checked. vm_compute. reflexivity. Qed.
Lemma in_dag h : bool_decide (h ∈ r_dag_set dag) = true -> h ∈ r_dag_set dag.
Proof. by intros ?%bool_decide_eq_true. Qed.
Lemma target_in : hash x02 ∈ r_dag_set dag.
Proof. apply in_dag. vm_compute. reflexivity. Qed.
Lemma bonded_of : get_corresponding_weight_map dag idx (hash x02) = Ok bonded.
Proof. apply ok_is_true. vm_compute. reflexivity. Qed.
Lemma bonded_of_bob : get_corresponding_weight_map dag idx (hash x03) = Ok bonded.
Proof. apply ok_is_true. vm_compute. reflexivity. Qed.
Lemma alice1_stored : stored_as dag idx (hash x02) alice1.
Proof.
  split; [exact target_in|]. eapply bool_decide_eq_true. vm_compute. reflexivity.
Qed.
Lemma bonded_sum : weight bonded (dom bonded) = 25%Z.
Proof. vm_compute. reflexivity. Qed.
Lemma bonded_fits : (weight bonded (dom bonded) <= i64_max)%Z.
Proof. rewrite bonded_sum. by unfold i64_max. Qed.
(** The fault tolerance of Alice's block: three fifths *)
Definition three_fifths : f32 := f32_div (f32_of_i64 15) (f32_of_i64 25).
Lemma tolerance_value : normalized_fault_tolerance dag idx elements 20 (hash x02) = Some (Ok three_fifths).
Proof.
  assert (out_is (normalized_fault_tolerance dag idx elements 20 (hash x02), tt) three_fifths tt = true) as H
    by (vm_compute; reflexivity).
  exact (f_equal fst (out_is_true _ _ _ H)).
Qed.

Lemma safety_oracle_exact_witness : exists agreeing best,
  greatest dag idx (hash x02) agreeing best /\ tolerance bonded agreeing best = Ok three_fifths.
Proof.
  destruct (safety_oracle_exact dag idx elements 20 (rank_of dag) (fun s => reflexivity _) (proj1 sound) (hash x02)
    target_in bonded new_run_cache bonded_of (proj1 (bonds _ _ bonded_of)) bonded_fits (proj2 (bonds _ _ bonded_of))
    (cache_ok_new dag idx 20)) as (agreeing & best & _ & Hg & Ho & _).
  exists agreeing, best. rewrite tolerance_value in Ho. apply (inj Some) in Ho. exact (conj Hg (eq_sym Ho)).
Defined.

Lemma perm_values m : stakes m ≡ₚ stakes m.
Proof. done. Qed.
Lemma perm_into m : into_values m ≡ₚ (map_to_list m).*2.
Proof. done. Qed.
Lemma uninterrupted_ok h c c' :
  uninterrupted h c = Some c' -> cache_ok dag idx 20 c -> cache_ok dag idx 20 c'.
Proof. done. Qed.
Abbreviation run_vote := (run stakes dag idx elements 20 never uninterrupted into_values record tenth (-1) []).
Lemma run_vote_value : run_vote = (Some (Ok (Some (hash x02, three_fifths))), [hash x02]).
Proof. apply out_is_true. vm_compute. reflexivity. Qed.

Lemma finalizer_sound_witness : exists h wm m best ft,
  supported dag idx h wm m /\ passes stakes dag idx tenth h wm m best ft /\
  run_vote = (Some (Ok (Some (hash x02, three_fifths))), [hash x02]).
Proof.
  destruct (finalizer_sound stakes perm_values dag idx elements 20 (rank_of dag) (fun s => reflexivity _)
    (proj1 sound) (proj2 sound) never uninterrupted uninterrupted_ok into_values perm_into record bonds tenth (-1) [])
    as (out & st' & Hrun & Hout).
  rewrite run_vote_value in Hrun. destruct Hout as [[-> _]|(h & wm & m & best & ft & _ & Hs & Hp & _)]; [discriminate|].
  exists h, wm, m, best, ft. exact (conj Hs (conj Hp run_vote_value)).
Defined.

(** The validators that agree on Alice's block *)
Definition agreed : WeightMap := {[alice := 10%Z; bob := 10%Z]}.
Lemma agrees_alice : agrees dag (hash x02) alice.
Proof.
  exists (hash x04). split; [vm_compute; reflexivity|].
  apply (rtc_l _ _ (hash x03)); [vm_compute; reflexivity|]. apply (rtc_l _ _ (hash x02)); [vm_compute; reflexivity|].
  apply rtc_refl.
Qed.
Lemma agrees_bob : agrees dag (hash x02) bob.
Proof.
  exists (hash x03). split; [vm_compute; reflexivity|].
  apply (rtc_l _ _ (hash x02)); [vm_compute; reflexivity|]. apply rtc_refl.
Qed.
Lemma agreed_supported : supported dag idx (hash x02) bonded agreed.
Proof.
  split; [exact bonded_of| |rewrite bonded_sum; by unfold i64_max|rewrite bonded_sum; vm_compute; reflexivity].
  intros v w. unfold agreed. rewrite lookup_insert_Some, lookup_singleton_Some.
  intros [[<- <-]|[_ [<- <-]]]; (split_and!; [vm_compute; reflexivity..|]); [exact agrees_alice|exact agrees_bob].
Qed.
Lemma agreed_all v w : bonded !! v = Some w -> (0 < w)%Z -> agrees dag (hash x02) v -> agreed !! v = Some w.
Proof.
  unfold bonded. rewrite !lookup_insert_Some, lookup_singleton_Some.
  intros [[<- <-]|[_ [[<- <-]|[_ [<- <-]]]]] _ (lm & Hlm & _); [vm_compute; reflexivity..|vm_compute in Hlm; discriminate].
Qed.
Lemma agreed_passes : exists best, passes stakes dag idx tenth (hash x02) bonded agreed best three_fifths.
Proof.
  destruct (compute_output_exact dag idx elements 20 (rank_of dag) (fun s => reflexivity _) (proj1 sound) (hash x02)
    target_in bonded agreed new_run_cache) as (best & c' & Hg & Ho & _);
    [apply (bonds _ _ bonded_of)|exact bonded_fits|apply (bonds _ _ bonded_of)|
     exact (sup_subseteq _ _ _ _ _ agreed_supported)|apply cache_ok_new|].
  exists best. split; [done| |vm_compute; reflexivity..].
  assert (out_is ((compute_output_with_cache dag idx elements 20 (hash x02) bonded agreed new_run_cache).1, tt)
    three_fifths tt = true) as Hv by (vm_compute; reflexivity).
  apply out_is_true, (f_equal fst) in Hv. cbn [fst] in Hv. rewrite Ho in Hv. cbn [fst] in Hv.
  apply (inj Some) in Hv. exact Hv.
Qed.
Lemma dag_few : few dag idx (-1) (r_dag_set dag).
Proof. split; [vm_compute; lia|]. by intros h md wm m [? _]. Qed.
Lemma bonded_small : (weight bonded (dom bonded) < 2 ^ 24)%Z.
Proof. rewrite bonded_sum. done. Qed.
Lemma finalizer_complete_witness : exists out st' h' md' ft',
  run_vote = (Some out, st') /\ stored_as dag idx h' md' /\ (1 <= m_block_number md')%Z /\
  finished dag idx record h' ft' [] out st'.
Proof.
  destruct agreed_passes as [best Hp].
  exact (finalizer_complete stakes perm_values dag idx elements 20 (rank_of dag) (fun s => reflexivity _)
    (proj1 sound) (proj2 sound) never uninterrupted uninterrupted_ok into_values perm_into record bonds tenth (-1) []
    (hash x02) alice1 bonded agreed best three_fifths (r_dag_set dag)
    (conj (fun _ => eq_refl) (fun _ _ => eq_refl)) dag_few alice1_stored
    ltac:(vm_compute; reflexivity) agreed_supported agreed_all (pass_greatest _ _ _ _ _ _ _ _ _ Hp)
    (pass_value _ _ _ _ _ _ _ _ _ Hp) (pass_threshold _ _ _ _ _ _ _ _ _ Hp)
    ltac:(vm_compute; reflexivity) (or_intror bonded_small)).
Defined.

(** Another node iterates its hash maps backwards. *)
Definition backwards : Setting :=
  mkSetting (fun m => reverse (stakes m)) (fun s => reverse (elements s)) never uninterrupted
    (fun m => reverse (into_values m)) tenth (-1).
Lemma setting_is_ok : setting_ok dag idx 20 setting.
Proof. by split. Qed.
Lemma backwards_ok : setting_ok dag idx 20 backwards.
Proof. split; intros *; cbn; [by rewrite reverse_Permutation..|done|by rewrite reverse_Permutation]. Qed.
Lemma finalizer_deterministic_witness :
  run_in dag idx 20 setting record [] = run_in dag idx 20 backwards record [].
Proof.
  exact (finalizer_deterministic dag idx 20 (rank_of dag) (proj1 sound) (proj2 sound) bonds setting backwards record []
    setting_is_ok backwards_ok eq_refl eq_refl eq_refl (fun _ _ => eq_refl) (fun _ _ => eq_refl)).
Defined.

(** A lower threshold accepts Bob's block, which is on the same main chain. *)
Definition low : Setting :=
  mkSetting stakes elements never uninterrupted into_values MIN_FAULT_TOLERANCE (-1).
Lemma low_ok : setting_ok dag idx 20 low.
Proof. by split. Qed.
Definition minus_fifth : f32 := f32_div (f32_of_i64 (-5)) (f32_of_i64 25).
Lemma run_low : run_in dag idx 20 low record [] = (Some (Ok (Some (hash x03, minus_fifth))), [hash x03]).
Proof. apply out_is_true. vm_compute. reflexivity. Qed.
Lemma finalizer_one_chain_witness : rtc (main_edge dag) (hash x02) (hash x03) \/ rtc (main_edge dag) (hash x03) (hash x02).
Proof.
  exact (finalizer_one_chain dag idx 20 (rank_of dag) (proj1 sound) (proj2 sound) bonds setting low record [] []
    (hash x02) (hash x03) three_fifths minus_fifth [hash x02] [hash x03] setting_is_ok low_ok run_vote_value run_low
    (eq_trans bonded_of (eq_sym bonded_of_bob))).
Defined.
End Vote.

(** ** The bound of the finalizer is not a bound of the rounded value

    With a stake of 16777217, of which 12582912 agrees and is committed, the [f64] bound is below the
    threshold 0.49999997 while the [f32] fault tolerance is 0.5: the candidate is left out. *)
Definition rounded_threshold : f32 := S754_finite false 16777215 (-25).
Lemma upper_bound_rounds :
  f64_le (fault_tolerance_upper_bound stakes {[ [] := 16777217%Z ]} {[ [] := 12582912%Z ]}) (f64_from rounded_threshold) = true /\
  f32_lt rounded_threshold (fault_tolerance (f32_of_i64 12582912) (f32_of_i64 16777217)) = true.
Proof. vm_compute. done. Qed.
