(* ===== verification/ForkChoice.v ===== *)
(** * Common ancestors and the fork choice

    [casper/src/rust/util/dag_operations.rs]: the lowest block that all histories of some blocks
    go through; [shared/src/rust/dag/dag_ops.rs]: breadth-first traversal;
    [casper/src/rust/estimator.rs]: the tips of the DAG, ranked by the stake that supports them.
    A [BTreeSet] is a sorted list; [None] is a search longer than the fuel. *)
From S2P Require Import Prelude HotStoreSig HistoryRepo CasperMessage BlockDag.
Open Scope res_scope.
Open Scope Z_scope.

Abbreviation Outcome X := (option (res KvStoreError X)).
Definition o_bind {X Y} (m : Outcome X) (k : X -> Outcome Y) : Outcome Y :=
  match m with
  | Some (Ok x) => k x
  | Some (Err e) => Some (Err e)
  | Some Panic => Some Panic
  | None => None
  end.
Notation "x <~ m ;~ k" := (o_bind m (fun x => k)) (at level 20, m at level 100, k at level 200) : res_scope.

(** ** [fn bf_traverse] *)

Section traverse.
Context {A : Type} `{EqDecision A} (neighbors : A -> list A).
(** The loop, with the queue, the visited elements and the result so far *)
Fixpoint traverse_loop (fuel : nat) (queue visited result : list A) : option (list A) :=
  match fuel with
  | O => None
  | S fuel =>
    match queue with
    | [] => Some result
    | curr :: queue =>
      if decide (curr ∈ visited) then traverse_loop fuel queue visited result
      else
        let visited := visited ++ [curr] in
        traverse_loop fuel (queue ++ filter (.∉ visited) (neighbors curr)) visited (result ++ [curr])
    end
  end.
Definition bf_traverse (fuel : nat) (start : list A) : option (list A) := traverse_loop fuel start [] [].
End traverse.

Section ops.
Context (dag : KeyValueDagRepresentation) (idx : gmap BlockHash BlockMetadata).

(** ** [struct DagOperations] *)

(** [Ord for ReverseOrderedBlockMetadata] and [BTreeSet::insert], which keeps an equal element *)
Definition reverse_cmp (a b : BlockMetadata) : comparison := CompOpp (ordering_by_num a b).
Fixpoint set_insert (x : BlockMetadata) (l : list BlockMetadata) : list BlockMetadata :=
  match l with
  | [] => [x]
  | y :: k =>
    match reverse_cmp x y with
    | Lt => x :: l
    | Eq => l
    | Gt => y :: set_insert x k
    end
  end.
(** [fn metadata_from_cache_or_dag] *)
Definition metadata_from_cache_or_dag (cache : gmap BlockHash BlockMetadata) (h : BlockHash) :
  res KvStoreError (BlockMetadata * gmap BlockHash BlockMetadata) :=
  match cache !! h with
  | Some md => Ok (md, cache)
  | None => md <-! lookup_unsafe dag idx h; Ok (md, <[h := md]> cache)
  end.
(** The parents of the highest block take its place. *)
Definition insert_parents (parents : list BlockHash) (tail : list BlockMetadata)
    (cache : gmap BlockHash BlockMetadata) :
  res KvStoreError (list BlockMetadata * gmap BlockHash BlockMetadata) :=
  res_foldM (fun '(next, cache) parent_hash =>
    pc <-! metadata_from_cache_or_dag cache parent_hash;
    Ok (set_insert pc.1 next, pc.2)) (tail, cache) parents.
(** The loop of [lowest_universal_common_ancestor_many] *)
Fixpoint luca_loop (fuel : nat) (current : list BlockMetadata) (cache : gmap BlockHash BlockMetadata) :
  Outcome BlockMetadata :=
  match fuel with
  | O => None
  | S fuel =>
    match current with
    | [md] => Some (Ok md)
    | [] => Some Panic
    | head :: tail =>
      match insert_parents (m_parents head) tail cache with
      | Ok (next, cache) => luca_loop fuel next cache
      | Err e => Some (Err e)
      | Panic => Some Panic
      end
    end
  end.
Definition lowest_universal_common_ancestor_many (fuel : nat) (blocks : list BlockMetadata) : Outcome BlockMetadata :=
  match blocks with
  | [] => Some (Err (KvInvalidArgument "Cannot compute LUCA for an empty block set"))
  | [md] => Some (Ok md)
  | _ =>
    luca_loop fuel (foldl (fun current block => set_insert block current) [] blocks)
      (foldl (fun cache block => <[m_block_hash block := block]> cache) ∅ blocks)
  end.

(** ** [struct Estimator] *)

Record ForkChoice := mkForkChoice { tips : list BlockHash; lca : BlockHash }.
Record Estimator := mkEstimator { max_number_of_parents : Z; max_parent_depth_opt : option Z }.
Definition LATEST_MESSAGE_MAX_DEPTH : Z := 1000.
(** The iteration order of hash sets *)
Context (iter : gset BlockHash -> list BlockHash).
(** The iteration order of the latest messages *)
Context (iter_messages : gmap Validator BlockHash -> list (Validator * BlockHash)).

(** [.take(n as usize)]: a negative [i32] is a very large [usize] *)
Definition take_i32 {A} (n : Z) (l : list A) : list A := if decide (n < 0) then l else take (Z.to_nat n) l.

(** [fn filter_deep_parents] *)
Definition filter_deep_parents (est : Estimator) (ranked_latest_hashes : list BlockHash) :
  res KvStoreError (list BlockHash) :=
  match max_parent_depth_opt est with
  | None => Ok ranked_latest_hashes
  | Some max_parent_depth =>
    match ranked_latest_hashes with
    | [] => Panic
    | main_hash :: secondary_hashes =>
      main <-! lookup_unsafe dag idx main_hash;
      secondary_parents <-! lookups_unsafe dag idx secondary_hashes;
      Ok (main_hash :: (m_block_hash <$>
        filter (fun p => m_block_number main - m_block_number p <= max_parent_depth) secondary_parents))
    end
  end.
(** [fn calculate_lca] *)
Definition recent_messages (latest_messages_hashes : gmap Validator BlockHash) : list BlockMetadata :=
  filter (fun msg => get_max_height dag - LATEST_MESSAGE_MAX_DEPTH < m_block_number msg)
    (omap (lookup_block dag idx) (iter_messages latest_messages_hashes).*2).
Definition calculate_lca (fuel : nat) (genesis : BlockMetadata) (latest_messages_hashes : gmap Validator BlockHash) :
  Outcome BlockHash :=
  match recent_messages latest_messages_hashes with
  | [] => Some (Ok (m_block_hash genesis))
  | filtered_lm => md <~ lowest_universal_common_ancestor_many fuel filtered_lm ;~ Some (Ok (m_block_hash md))
  end.

(** [fn weight_from_validator_by_dag] of [proto_util.rs] *)
Definition weight_from_validator_by_dag (h : BlockHash) (v : Validator) : res KvStoreError Z :=
  match lookup_block dag idx h with
  | None => Panic
  | Some md =>
    match head (m_parents md) with
    | Some parent_hash =>
      match lookup_block dag idx parent_hash with
      | None => Panic
      | Some parent_metadata => Ok (default 0 (m_weight_map parent_metadata !! v))
      end
    | None => Ok (default 0 (m_weight_map md !! v))
    end
  end.
(** [fn hash_parents] *)
Definition hash_parents (last_finalized_block_number : Z) (h : BlockHash) : res KvStoreError (list BlockHash) :=
  md <-! lookup_unsafe dag idx h;
  if decide (m_block_number md < last_finalized_block_number) then Ok [] else Ok (m_parents md).
(** The loop of [add_validator_weight_down_supporting_chain] *)
Fixpoint supporting_chain (fuel : nat) (lca_block_num : Z) (queue : list BlockHash) (visited : gset BlockHash)
    (traversed_hashes : list BlockHash) : Outcome (list BlockHash) :=
  match fuel with
  | O => None
  | S fuel =>
    match queue with
    | [] => Some (Ok traversed_hashes)
    | h :: queue =>
      if decide (h ∈ visited) then supporting_chain fuel lca_block_num queue visited traversed_hashes
      else
        match hash_parents lca_block_num h with
        | Ok parents =>
          let visited := {[h]} ∪ visited in
          supporting_chain fuel lca_block_num (queue ++ filter (.∉ visited) parents) visited (traversed_hashes ++ [h])
        | Err e => Some (Err e)
        | Panic => Some Panic
        end
    end
  end.
Definition add_validator_weight_down_supporting_chain (fuel : nat) (lowest_common_ancestor : BlockHash)
    (score_map : gmap BlockHash Z) (v : Validator) (latest_block_hash : BlockHash) : Outcome (gmap BlockHash Z) :=
  lca_meta <~ Some (lookup_unsafe dag idx lowest_common_ancestor) ;~
  traversed_hashes <~ supporting_chain fuel (m_block_number lca_meta) [latest_block_hash] ∅ [] ;~
  Some (res_foldM (fun result h =>
    validator_weight <-! weight_from_validator_by_dag h v;
    Ok (<[h := wrap_i64 (default 0 (result !! h) + validator_weight)]> result)) score_map traversed_hashes).
(** [fn build_scores_map] *)
Fixpoint add_validators (fuel : nat) (lowest_common_ancestor : BlockHash) (l : list (Validator * BlockHash))
    (scores_map : gmap BlockHash Z) : Outcome (gmap BlockHash Z) :=
  match l with
  | [] => Some (Ok scores_map)
  | (v, h) :: l =>
    scores_map <~ add_validator_weight_down_supporting_chain fuel lowest_common_ancestor scores_map v h ;~
    add_validators fuel lowest_common_ancestor l scores_map
  end.
Definition build_scores_map (fuel : nat) (latest_messages_hashes : gmap Validator BlockHash)
    (lowest_common_ancestor : BlockHash) : Outcome (gmap BlockHash Z) :=
  add_validators fuel lowest_common_ancestor (iter_messages latest_messages_hashes) ∅.

(** [ListOps::sort_by_with_decreasing_order] *)
Definition decreasing_cmp (scores : gmap BlockHash Z) (a b : BlockHash) : comparison :=
  then_with (Z.compare (default 0 (scores !! b)) (default 0 (scores !! a))) (bytes_cmp a b).
Definition sort_by_with_decreasing_order (l : list BlockHash) (scores : gmap BlockHash Z) : list BlockHash :=
  sort_by (decreasing_cmp scores) l.
(** [fn replace_block_hash_with_children] *)
Definition replace_block_hash_with_children (scores : gmap BlockHash Z) (b : BlockHash) : list BlockHash :=
  match children dag b with
  | Some children_set =>
    let scored_children := filter (.∈ dom scores) children_set in
    if decide (scored_children = ∅) then [b] else iter scored_children
  | None => [b]
  end.
(** [fn rank_forkchoices] *)
Definition next_blocks (scores : gmap BlockHash Z) (blocks : list BlockHash) : list BlockHash :=
  let unsorted_new_blocks := blocks ≫= replace_block_hash_with_children scores in
  sort_by_with_decreasing_order (iter (list_to_set unsorted_new_blocks)) scores.
Fixpoint rank_forkchoices (fuel : nat) (scores : gmap BlockHash Z) (blocks : list BlockHash) : option (list BlockHash) :=
  match fuel with
  | O => None
  | S fuel =>
    let new_blocks := next_blocks scores blocks in
    if decide (new_blocks = blocks) then Some blocks else rank_forkchoices fuel scores new_blocks
  end.

(** [fn tips_with_latest_messages], [fn tips] *)
Definition valid_latest (latest_messages_hashes : gmap Validator BlockHash) : gmap Validator BlockHash :=
  let invalid_latest_messages := invalid_latest_messages_from_hashes dag latest_messages_hashes in
  filter (fun kv => invalid_latest_messages !! kv.1 = None) latest_messages_hashes.
Definition tips_with_latest_messages (est : Estimator) (fuel : nat) (genesis : BlockMessage)
    (latest_messages_hashes : gmap Validator BlockHash) : Outcome ForkChoice :=
  let filtered_latest_messages_hashes := valid_latest latest_messages_hashes in
  let genesis_metadata := from_block genesis false None None in
  lca <~ calculate_lca fuel genesis_metadata filtered_latest_messages_hashes ;~
  scores_map <~ build_scores_map fuel filtered_latest_messages_hashes lca ;~
  ranked_latest_messages_hashes <~ (Ok <$> rank_forkchoices fuel scores_map [lca]) ;~
  ranked_shallow_hashes <~ Some (filter_deep_parents est ranked_latest_messages_hashes) ;~
  Some (Ok (mkForkChoice (take_i32 (max_number_of_parents est) ranked_shallow_hashes) lca)).
Definition estimator_tips (est : Estimator) (fuel : nat) (genesis : BlockMessage) : Outcome ForkChoice :=
  tips_with_latest_messages est fuel genesis (r_latest_messages_map dag).
End ops.
