(* ===== verification/ForkChoiceThms.v ===== *)
(** * Common ancestors and the fork choice are exact

    The lowest universal common ancestor is the highest block that all histories of the blocks
    go through.  The score of a block is the stake of the validators whose latest message has
    it as an ancestor, and the fork choice lists the scored blocks above the common ancestor
    that have no scored child, by decreasing score. *)
From S2P Require Import Prelude HotStoreSig HistoryRepo CasperMessage BlockDag BlockDagWalk ForkChoice.
Open Scope res_scope.
Open Scope nat_scope.

(** ** The order of the set *)

Definition num_cmp : Z * BlockHash -> Z * BlockHash -> comparison := pair_cmp Z.compare bytes_cmp.
Definition num_key (md : BlockMetadata) : Z * BlockHash := (m_block_number md, m_block_hash md).
Lemma reverse_cmp_key a b : reverse_cmp a b = num_cmp (num_key b) (num_key a).
Proof. unfold reverse_cmp. symmetry. apply (cmp_sym num_cmp). Qed.
Definition above (a b : BlockMetadata) : Prop := num_cmp (num_key b) (num_key a) = Lt.
Lemma above_trans a b c : above a b -> above b c -> above a c.
Proof. unfold above. intros H1 H2. by apply (cmp_Lt_trans num_cmp _ (num_key b)). Qed.
Lemma above_number a b : above a b -> (m_block_number b <= m_block_number a)%Z.
Proof.
  unfold above, num_cmp, pair_cmp, num_key. cbn.
  destruct (Z.compare_spec (m_block_number b) (m_block_number a)); cbn; [lia|lia|done].
Qed.
Lemma above_irrefl a : ~ above a a.
Proof.
  unfold above, num_cmp, pair_cmp. rewrite Z.compare_refl. cbn. rewrite (cmp_refl bytes_cmp). done.
Qed.
Lemma number_above a b : (m_block_number b < m_block_number a)%Z -> above a b.
Proof. intros Hlt. unfold above, num_cmp, pair_cmp, num_key. cbn. by rewrite (proj2 (Z.compare_lt_iff _ _) Hlt). Qed.


Section dag.
Context (dag : KeyValueDagRepresentation) (idx : gmap BlockHash BlockMetadata) (genesis : BlockHash).
Definition stored_block (md : BlockMetadata) : Prop :=
  m_block_hash md ∈ r_dag_set dag /\ idx !! m_block_hash md = Some md.
(** Every block is stored, its parents are lower blocks, and only the first block has none; the
    children of a block are blocks that have it as a parent. *)
Record fork_dag : Prop := {
  fd_stored : forall h, h ∈ r_dag_set dag -> exists md, idx !! h = Some md /\ m_block_hash md = h /\ (0 <= m_block_number md)%Z;
  fd_parent : forall h md p mdp, h ∈ r_dag_set dag -> idx !! h = Some md -> p ∈ m_parents md ->
    p ∈ r_dag_set dag /\ (idx !! p = Some mdp -> m_block_number mdp < m_block_number md)%Z;
  fd_root : forall h md, h ∈ r_dag_set dag -> idx !! h = Some md -> m_parents md = [] -> h = genesis;
  fd_child : forall p c, child dag p c -> c ∈ r_dag_set dag /\ exists md, idx !! c = Some md /\ p ∈ m_parents md;
}.
Hypothesis wf : fork_dag.

Lemma stored_of h : h ∈ r_dag_set dag -> exists md, stored_block md /\ m_block_hash md = h.
Proof.
  intros Hh. destruct (fd_stored wf h Hh) as (md & Hmd & <- & _). exists md. done.
Qed.
Lemma stored_lookup md : stored_block md -> lookup_unsafe dag idx (m_block_hash md) = Ok md.
Proof. intros [Hh Hmd]. unfold lookup_unsafe, lookup_block. by rewrite decide_True, Hmd. Qed.
Lemma stored_parent md p : stored_block md -> p ∈ m_parents md ->
  exists mdp, stored_block mdp /\ m_block_hash mdp = p /\ (m_block_number mdp < m_block_number md)%Z.
Proof.
  intros [Hh Hmd] Hp. destruct (fd_parent wf _ _ _ md Hh Hmd Hp) as [Hin _].
  destruct (stored_of p Hin) as (mdp & Hst & <-). exists mdp. split_and!; [done..|].
  by apply (fd_parent wf _ _ _ mdp Hh Hmd Hp), Hst.
Qed.
Lemma stored_inj a b : stored_block a -> stored_block b -> m_block_hash a = m_block_hash b -> a = b.
Proof. intros [_ Ha] [_ Hb] Heq. congruence. Qed.
Lemma stored_nonneg md : stored_block md -> (0 <= m_block_number md)%Z.
Proof. intros [Hh Hmd]. destruct (fd_stored wf _ Hh) as (md' & Hmd' & _ & Hn). congruence. Qed.
(** The first block is the lowest. *)
Lemma genesis_lowest md : stored_block md -> m_block_hash md = genesis \/
  forall g, stored_block g -> m_block_hash g = genesis -> (m_block_number g < m_block_number md)%Z.
Proof.
  assert (forall n md, stored_block md -> (m_block_number md < Z.of_nat n)%Z -> m_block_hash md = genesis \/
    forall g, stored_block g -> m_block_hash g = genesis -> (m_block_number g < m_block_number md)%Z) as Hn.
  { induction n as [|n IH]; intros m Hm Hlt; [pose proof (stored_nonneg m Hm); lia|].
    destruct (m_parents m) as [|p ps] eqn:Hp; [left; by apply (fd_root wf (m_block_hash m) m); destruct Hm|right].
    intros g Hg Hgen. destruct (stored_parent m p Hm) as (mp & Hmp & Hph & Hpl); [rewrite Hp; left|].
    destruct (IH mp Hmp) as [Hmg|Hrest]; [lia| |].
    - by assert (mp = g) as -> by (apply stored_inj; congruence).
    - specialize (Hrest g Hg Hgen). lia. }
  intros Hmd. apply (Hn (S (Z.to_nat (m_block_number md)))); [done|]. lia.
Qed.

(** ** Covered histories *)

(** Every way down from the block goes through a block of [S]. *)
Inductive covered (S : BlockHash -> Prop) : BlockHash -> Prop :=
  | covered_here h : S h -> covered S h
  | covered_down md : stored_block md -> m_parents md <> [] ->
      (forall p, p ∈ m_parents md -> covered S p) -> covered S (m_block_hash md).
(** Every history of [h] goes through [x]. *)
Definition dominates (x h : BlockHash) : Prop := covered (eq x) h.

Lemma covered_mono (S T : BlockHash -> Prop) h : (forall x, S x -> covered T x) -> covered S h -> covered T h.
Proof.
  intros HST Hh. induction Hh as [h Hh|md Hmd Hne _ IH]; [by apply HST|by apply covered_down].
Qed.
Lemma covered_number (x : BlockMetadata) h : stored_block x -> dominates (m_block_hash x) h ->
  forall md, stored_block md -> m_block_hash md = h -> md = x \/ (m_block_number x < m_block_number md)%Z.
Proof.
  intros Hx Hh. induction Hh as [h <-|md0 Hmd0 Hne Hps IH]; intros md Hmd Heq.
  - left. by apply stored_inj.
  - assert (md = md0) as -> by by apply stored_inj. right. destruct (m_parents md0) as [|p ps] eqn:Hp; [done|].
    destruct (stored_parent md0 p Hmd0) as (mp & Hmp & <- & Hlt); [rewrite Hp; left|].
    destruct (IH (m_block_hash mp) ltac:(left) mp Hmp eq_refl) as [->|?]; lia.
Qed.

(** ** The set of blocks *)

Definition set_ok (l : list BlockMetadata) : Prop := StronglySorted above l /\ Forall stored_block l.
Lemma set_insert_spec x l : stored_block x -> set_ok l ->
  set_ok (set_insert x l) /\ forall y, y ∈ set_insert x l <-> y = x \/ y ∈ l.
Proof.
  intros Hx [Hs Hf]. induction Hs as [|y l Hs IH Hy]; cbn [set_insert].
  { split; [split; [apply SSorted_cons; [apply SSorted_nil|by apply Forall_nil]|by apply Forall_singleton]|]. intros z. rewrite list_elem_of_singleton, elem_of_nil. tauto. }
  apply Forall_cons in Hf as [Hy' Hf]. rewrite reverse_cmp_key.
  destruct (num_cmp (num_key y) (num_key x)) eqn:Hc.
  - apply (cmp_eq num_cmp) in Hc. unfold num_key in Hc. injection Hc as _ Hh.
    assert (y = x) as -> by by apply stored_inj. split; [split; [by apply SSorted_cons|by apply Forall_cons]|]. intros z. rewrite elem_of_cons. tauto.
  - split; [|intros z; by rewrite elem_of_cons]. split; [|by repeat apply Forall_cons_2]. apply SSorted_cons; [by apply SSorted_cons|].
    apply Forall_cons_2; [done|]. eapply Forall_impl; [exact Hy|]. intros z. by apply above_trans.
  - destruct (IH Hf) as [[Hs' Hf'] Hel]. split.
    + split; [|by apply Forall_cons_2]. apply SSorted_cons; [done|]. apply Forall_forall. intros z [->|Hz]%Hel.
      * unfold above. rewrite (cmp_sym num_cmp (num_key y)), Hc. done.
      * rewrite Forall_forall in Hy. by apply Hy.
    + intros z. rewrite !elem_of_cons, Hel. tauto.
Qed.
Definition cache_sound (cache : gmap BlockHash BlockMetadata) : Prop :=
  forall h md, cache !! h = Some md -> stored_block md /\ m_block_hash md = h.
Lemma insert_parents_spec ps tail cache :
  set_ok tail -> cache_sound cache -> (forall p, p ∈ ps -> p ∈ r_dag_set dag) ->
  exists next cache', insert_parents dag idx ps tail cache = Ok (next, cache') /\ set_ok next /\ cache_sound cache' /\
    forall md, md ∈ next <-> md ∈ tail \/ (stored_block md /\ m_block_hash md ∈ ps).
Proof.
  unfold insert_parents. revert tail cache. induction ps as [|p ps IH]; intros tail cache Ht Hc Hps; cbn [res_foldM].
  { exists tail, cache. split_and!; [done..|]. intros md. rewrite elem_of_nil. tauto. }
  destruct (stored_of p) as (mdp & Hst & Hh); [apply Hps; left|].
  assert (exists cache', metadata_from_cache_or_dag dag idx cache p = Ok (mdp, cache') /\ cache_sound cache')
    as (cache' & -> & Hc').
  { unfold metadata_from_cache_or_dag. destruct (cache !! p) as [md|] eqn:Hcp.
    - destruct (Hc p md Hcp) as [Hst' Hh']. exists cache. split; [|done].
      by assert (md = mdp) as -> by (apply stored_inj; congruence).
    - assert (lookup_unsafe dag idx p = Ok mdp) as -> by (subst p; by apply stored_lookup). cbn [res_bind]. eexists. split; [done|].
      intros h md [[<- <-]|[_ Hx]]%lookup_insert_Some; [done|by apply Hc]. }
  cbn [res_bind fst snd]. destruct (set_insert_spec mdp tail Hst Ht) as [Hok Hel].
  destruct (IH (set_insert mdp tail) cache' Hok Hc') as (next & cache'' & Hn & Hnok & Hcok & Hnel).
  { intros q Hq. apply Hps. by right. }
  exists next, cache''. split_and!; [done..|]. intros md. rewrite Hnel, Hel, elem_of_cons. split.
  - intros [[->|?]|[? ?]]; [right; auto|by left|right; auto].
  - intros [?|[Hs [Heq|?]]]; [by left; right| |by right]. left. left. apply stored_inj; congruence.
Qed.

(** ** The lowest universal common ancestor *)

Definition hashes (l : list BlockMetadata) (h : BlockHash) : Prop := exists md, md ∈ l /\ m_block_hash md = h.
(** The highest block that all histories of the blocks go through *)
Definition lowest_common (starts : list BlockHash) (x : BlockHash) : Prop :=
  (forall b, b ∈ starts -> dominates x b) /\
  (forall y, y ∈ r_dag_set dag -> (forall b, b ∈ starts -> dominates y b) -> dominates y x).
(** What the loop keeps *)
Definition luca_inv (starts : list BlockHash) (current : list BlockMetadata) : Prop :=
  (forall b, b ∈ starts -> covered (hashes current) b) /\
  (forall y, y ∈ r_dag_set dag -> (forall b, b ∈ starts -> dominates y b) ->
     forall md, md ∈ current -> dominates y (m_block_hash md)).

Lemma luca_step starts head c tail next :
  set_ok (head :: c :: tail) -> luca_inv starts (head :: c :: tail) ->
  (forall md, md ∈ next <-> md ∈ c :: tail \/ (stored_block md /\ m_block_hash md ∈ m_parents head)) ->
  luca_inv starts next.
Proof.
  intros [Hs Hf] [I1 I2] Hnext. apply StronglySorted_inv in Hs as [_ Hab].
  apply Forall_cons in Hf as [Hh Hf]. pose proof (Forall_inv Hf) as Hc. pose proof (Forall_inv Hab) as Hhc.
  assert (m_parents head <> []) as Hne.
  { intros Hnil. assert (m_block_hash head = genesis) as Hg by (by apply (fd_root wf _ head); destruct Hh).
    destruct (genesis_lowest c Hc) as [Hcg|Hlow].
    - apply (above_irrefl head). by assert (c = head) as -> by (apply stored_inj; congruence).
    - specialize (Hlow head Hh Hg). apply above_number in Hhc. lia. }
  split.
  - intros b Hb. apply (covered_mono (hashes (head :: c :: tail))); [|by apply I1].
    intros x (md & Hin & <-). apply elem_of_cons in Hin as [->|Hin].
    + apply covered_down; [done..|]. intros p Hp. apply covered_here.
      destruct (stored_parent head p Hh Hp) as (mdp & Hst & <- & _). exists mdp. split; [|done]. apply Hnext. auto.
    + apply covered_here. exists md. split; [|done]. apply Hnext. by left.
  - intros y Hyin Hy md Hmd. apply Hnext in Hmd as [Hmd|[Hst Hp]].
    + apply (I2 y Hyin Hy). by right.
    + pose proof (I2 y Hyin Hy head ltac:(left)) as Hd. inversion Hd as [h Heq|md' Hst' Hne' Hps Heq]; subst.
      * exfalso. pose proof (I2 _ Hyin Hy c ltac:(right; left)) as Hdc.
        destruct (covered_number head _ Hh Hdc c Hc eq_refl) as [->|Hlt]; [by apply (above_irrefl head)|].
        apply above_number in Hhc. lia.
      * assert (md' = head) as -> by by apply stored_inj. by apply Hps.
Qed.
(** The blocks that are not above a block *)
Definition not_aboveb (md : BlockMetadata) (h : BlockHash) : bool :=
  match idx !! h with
  | Some m => match num_cmp (num_key m) (num_key md) with Gt => false | _ => true end
  | None => false
  end.
Definition not_above (md : BlockMetadata) : gset BlockHash := filter (fun h => not_aboveb md h = true) (r_dag_set dag).
Lemma not_aboveb_true md h m : idx !! h = Some m ->
  not_aboveb md h = true <-> cmp_le num_cmp (num_key m) (num_key md).
Proof. intros Hm. unfold not_aboveb, cmp_le. rewrite Hm. by destruct (num_cmp _ _). Qed.
Lemma not_above_lt a b : stored_block a -> above a b -> size (not_above b) < size (not_above a).
Proof.
  intros Ha Hab. apply subset_size. unfold not_above. split.
  - intros h [Hh Hin]%elem_of_filter. apply elem_of_filter. split; [|done].
    destruct (stored_of h Hin) as (m & [_ Hm] & <-). apply (not_aboveb_true _ _ m) in Hh; [|done].
    apply (not_aboveb_true _ _ m); [done|]. apply (cmp_le_trans num_cmp _ (num_key b)); [done|].
    unfold cmp_le. unfold above in Hab. congruence.
  - intros Hsub. specialize (Hsub (m_block_hash a)). destruct Ha as [Hin Hst].
    rewrite !elem_of_filter, !(not_aboveb_true _ _ a) in Hsub by done.
    destruct Hsub as [Hs _]; [split; [apply (cmp_le_refl num_cmp)|done]|].
    unfold above in Hab. unfold cmp_le in Hs. rewrite (cmp_sym num_cmp (num_key b)), Hab in Hs. done.
Qed.
Lemma luca_loop_spec starts fuel current cache :
  set_ok current -> cache_sound cache -> luca_inv starts current ->
  match current with [] => False | h :: _ => size (not_above h) < fuel end ->
  exists md, luca_loop dag idx fuel current cache = Some (Ok md) /\ stored_block md /\
    lowest_common starts (m_block_hash md).
Proof.
  revert current cache. induction fuel as [|fuel IH]; intros current cache Hset Hcache Hinv Hf; [destruct current; lia|].
  cbn [luca_loop]. destruct current as [|head [|c tail]]; [done| |].
  - exists head. split; [done|]. destruct Hset as [_ Hst]. split; [exact (Forall_inv Hst)|].
    destruct Hinv as [I1 I2]. split.
    + intros b Hb. apply (covered_mono (hashes [head])); [|by apply I1].
      intros x (md & ->%list_elem_of_singleton & <-). by apply covered_here.
    + intros y Hyin Hy. apply (I2 y Hyin Hy). left.
  - pose proof Hset as [Hs Hst]. apply StronglySorted_inv in Hs as [Hs Hab]. apply Forall_cons in Hst as [Hh Hst].
    destruct (insert_parents_spec (m_parents head) (c :: tail) cache) as (next & cache' & -> & Hn & Hc' & Hel); [done|done| |].
    { intros p Hp. destruct (stored_parent head p Hh Hp) as (mdp & [Hin _] & <- & _). done. }
    apply IH; [done..|by eapply luca_step|].
    destruct next as [|n next]; [by apply (elem_of_nil c), Hel; left; left|].
    enough (above head n) as Hn' by (apply not_above_lt in Hn'; [lia|done]).
    destruct (proj1 (Hel n) ltac:(left)) as [Hin|[Hst' Hp]].
    + rewrite Forall_forall in Hab. by apply Hab.
    + destruct (stored_parent head _ Hh Hp) as (mdp & Hmdp & Heq & Hlt). apply number_above.
      by assert (n = mdp) as -> by (apply stored_inj; congruence).
Qed.
Lemma luca_exact fuel blocks :
  blocks <> [] -> Forall stored_block blocks -> size (r_dag_set dag) < fuel ->
  exists md, lowest_universal_common_ancestor_many dag idx fuel blocks = Some (Ok md) /\ stored_block md /\
    lowest_common (m_block_hash <$> blocks) (m_block_hash md).
Proof.
  intros Hne Hst Hf. destruct blocks as [|a [|b blocks]]; [done| |].
  { exists a. split; [done|]. split; [exact (Forall_inv Hst)|]. split.
    - intros x ->%list_elem_of_singleton. by apply covered_here.
    - intros y _ Hy. apply Hy. left. }
  unfold lowest_universal_common_ancestor_many. set (l := a :: b :: blocks) in *.
  assert (forall l s, Forall stored_block l -> set_ok s ->
    set_ok (foldl (fun current block => set_insert block current) s l) /\
    forall y, y ∈ foldl (fun current block => set_insert block current) s l <-> y ∈ l \/ y ∈ s) as Hset.
  { clear -wf. induction l as [|x l IH]; intros s Hl Hs; cbn [foldl].
    - split; [done|]. intros y. rewrite elem_of_nil. tauto.
    - apply Forall_cons in Hl as [Hx Hl]. destruct (set_insert_spec x s Hx Hs) as [Hs' Hel].
      destruct (IH _ Hl Hs') as [Hok Hel']. split; [done|]. intros y. rewrite Hel', Hel, elem_of_cons. tauto. }
  assert (forall l c, Forall stored_block l -> cache_sound c ->
    cache_sound (foldl (fun cache block => <[m_block_hash block := block]> cache) c l)) as Hcache.
  { clear. induction l as [|x l IH]; intros c Hl Hc; cbn [foldl]; [done|]. apply Forall_cons in Hl as [Hx Hl].
    apply IH; [done|]. intros h md [[<- <-]|[_ Hm]]%lookup_insert_Some; [done|by apply Hc]. }
  destruct (Hset l [] Hst) as [Hok Hel]; [split; [apply SSorted_nil|by apply Forall_nil]|].
  apply luca_loop_spec; [done|apply Hcache; [done|]; intros h md; by rewrite lookup_empty| |].
  - split.
    + intros x (md & -> & Hin)%list_elem_of_fmap. apply covered_here. exists md. split; [|done]. apply Hel. by left.
    + intros y _ Hy md Hmd. apply Hy. apply list_elem_of_fmap_2. apply Hel in Hmd as [?|Hx]; [done|]. by apply elem_of_nil in Hx.
  - destruct (foldl _ _ l) as [|x s] eqn:Heq.
    + apply (elem_of_nil a). apply Hel. left. left.
    + eapply Nat.le_lt_trans; [|exact Hf]. apply subseteq_size. unfold not_above. intros h. rewrite elem_of_filter. tauto.
Qed.

(** ** The scores *)

(** One step down from a block that is not below the height *)
Definition down (height : Z) (h p : BlockHash) : Prop :=
  exists md, stored_block md /\ m_block_hash md = h /\ (height <= m_block_number md)%Z /\ p ∈ m_parents md.
Lemma hash_parents_spec height md : stored_block md ->
  exists ps, hash_parents dag idx height (m_block_hash md) = Ok ps /\ length ps <= length (m_parents md) /\
    forall p, p ∈ ps <-> down height (m_block_hash md) p.
Proof.
  intros Hmd. unfold hash_parents. rewrite stored_lookup by done. cbn [res_bind]. case_decide as Hlt.
  - exists []. split_and!; [done|cbn; lia|]. intros p. rewrite elem_of_nil. split; [done|].
    intros (md' & Hst & Heq & Hle & _). assert (md' = md) as -> by by apply stored_inj. lia.
  - exists (m_parents md). split_and!; [done..|]. intros p. split.
    + intros Hp. exists md. split_and!; [done..|lia|done].
    + intros (md' & Hst & Heq & _ & Hp). by assert (md' = md) as <- by by apply stored_inj.
Qed.
(** The number of edges out of some blocks *)
Definition out_edges (s : gset BlockHash) : nat :=
  sum_list ((fun h => length (default [] (m_parents <$> idx !! h))) <$> elements s).
Lemma out_edges_remove h s : h ∈ s ->
  out_edges s = length (default [] (m_parents <$> idx !! h)) + out_edges (s ∖ {[h]}).
Proof.
  intros Hh. unfold out_edges. rewrite (union_difference_singleton_L h s Hh) at 1.
  by rewrite (elements_union_singleton (s ∖ {[h]}) h) by set_solver.
Qed.

Section chain.
Context (height : Z) (start : BlockHash).
Record chain_inv (queue : list BlockHash) (visited : gset BlockHash) (traversed : list BlockHash) : Prop := {
  ci_elems : forall x, x ∈ traversed <-> x ∈ visited;
  ci_nodup : NoDup traversed;
  ci_known : forall x, x ∈ visited \/ x ∈ queue -> x ∈ r_dag_set dag /\ rtc (down height) start x;
  ci_start : start ∈ visited \/ start ∈ queue;
  ci_closed : forall x y, x ∈ visited -> down height x y -> y ∈ visited \/ y ∈ queue;
}.
Lemma supporting_chain_spec fuel queue visited traversed :
  chain_inv queue visited traversed -> length queue + out_edges (r_dag_set dag ∖ visited) < fuel ->
  exists l, supporting_chain dag idx fuel height queue visited traversed = Some (Ok l) /\ NoDup l /\
    forall x, x ∈ l <-> rtc (down height) start x.
Proof.
  revert queue visited traversed. induction fuel as [|fuel IH]; intros queue visited traversed Hinv Hf; [lia|].
  destruct Hinv as [H1 H2 H3 H4 H5]. cbn [supporting_chain]. destruct queue as [|h queue].
  - exists traversed. split_and!; [done..|]. intros x. rewrite H1. split; [intros Hx; by apply H3; left|].
    intros Hr. destruct H4 as [H4|H4]; [|by apply elem_of_nil in H4].
    assert (forall y, rtc (down height) y x -> y ∈ visited -> x ∈ visited) as Hcl; [|by apply (Hcl start)].
    clear -H5. intros y Hr. induction Hr as [|y z x Hyz _ IH]; [done|]. intros Hy.
    apply IH. destruct (H5 y z Hy Hyz) as [?|Hz]; [done|by apply elem_of_nil in Hz].
  - case_decide as Hv.
    + apply IH; [|cbn in Hf; lia]. split; [done..| | |].
      * intros x [Hx|Hx]; apply H3; [by left|right; by right].
      * destruct H4 as [?|[->|?]%elem_of_cons]; auto.
      * intros x y Hx Hxy. destruct (H5 x y Hx Hxy) as [?|[->|?]%elem_of_cons]; auto.
    + destruct (H3 h) as [Hin Hr]; [right; left|]. destruct (stored_of h Hin) as (md & Hmd & <-).
      destruct (hash_parents_spec height md Hmd) as (ps & -> & Hlen & Hps).
      apply IH; [split|].
      * intros x. rewrite elem_of_app, H1, list_elem_of_singleton, elem_of_union, elem_of_singleton. tauto.
      * apply NoDup_app. split_and!; [done| |apply NoDup_singleton]. intros x Hx%H1 ->%list_elem_of_singleton. done.
      * intros x Hx. rewrite elem_of_union, elem_of_singleton, elem_of_app, list_elem_of_filter in Hx.
        destruct Hx as [[->|Hx]|[Hx|[_ Hx]]]; [done|apply H3; by left|apply H3; right; by right|].
        apply Hps in Hx. split; [|by eapply rtc_r]. destruct Hx as (md' & Hst & Heq & _ & Hp).
        destruct (stored_parent md' x Hst Hp) as (mdx & [Hx _] & <- & _). done.
      * rewrite elem_of_union, elem_of_app. destruct H4 as [?|[->|?]%elem_of_cons]; [set_solver..|].  auto.
      * intros x y. rewrite !elem_of_union, !elem_of_singleton, elem_of_app, list_elem_of_filter, elem_of_union, elem_of_singleton.
        intros Hx Hxy. destruct (decide (y = m_block_hash md \/ y ∈ visited)) as [Hy|Hy]; [tauto|].
        destruct Hx as [->|Hx]; [right; right; split; [done|by apply Hps]|].
        destruct (H5 x y Hx Hxy) as [?|[->|?]%elem_of_cons]; tauto.
      * cbn [length] in Hf. rewrite (out_edges_remove (m_block_hash md)) in Hf by set_solver.
        destruct Hmd as [_ Hst]. rewrite Hst in Hf. cbn in Hf. rewrite length_app.
        replace (r_dag_set dag ∖ ({[m_block_hash md]} ∪ visited)) with (r_dag_set dag ∖ visited ∖ {[m_block_hash md]}) by set_solver.
        pose proof (length_filter (.∉ {[m_block_hash md]} ∪ visited) ps). lia.
Qed.
End chain.

(** The weight of a validator for a block: that of its main parent *)
Definition weight_at (h : BlockHash) (v : Validator) : Z :=
  match idx !! h with
  | Some md =>
    match head (m_parents md) with
    | Some p => match idx !! p with Some mdp => default 0%Z (m_weight_map mdp !! v) | None => 0%Z end
    | None => default 0%Z (m_weight_map md !! v)
    end
  | None => 0%Z
  end.
Lemma weight_from_validator_spec (h : BlockHash) (v : Validator) : h ∈ r_dag_set dag -> weight_from_validator_by_dag dag idx h v = Ok (weight_at h v).
Proof.
  intros Hh. destruct (stored_of h Hh) as (md & [Hin Hst] & <-). unfold weight_from_validator_by_dag, weight_at, lookup_block.
  rewrite decide_True, Hst by done. destruct (head (m_parents md)) as [p|] eqn:Hp; [|done].
  apply head_Some_elem_of in Hp. destruct (stored_parent md p) as (mdp & [Hpin Hpst] & <- & _); [done..|].
  by rewrite decide_True, Hpst.
Qed.
Lemma wrap_i64_add a b : wrap_i64 (wrap_i64 a + b) = wrap_i64 (a + b).
Proof.
  unfold wrap_i64. f_equal. rewrite <-(Zplus_mod_idemp_l (a + b)).
  rewrite <-(Zplus_mod_idemp_l ((a + 2 ^ 63) mod 2 ^ 64 - 2 ^ 63 + b)). f_equal. f_equal.
  replace ((a + 2 ^ 63) mod 2 ^ 64 - 2 ^ 63 + b)%Z with ((a + 2 ^ 63) mod 2 ^ 64 + (b - 2 ^ 63))%Z by lia.
  rewrite Zplus_mod_idemp_l. f_equal. lia.
Qed.
(** The score of a block from chains of supporting blocks *)
Definition supported_weight (chains : list (Validator * gset BlockHash)) (b : BlockHash) : Z :=
  foldr Z.add 0%Z ((fun vc => weight_at b vc.1) <$> filter (fun vc => b ∈ vc.2) chains).
Definition scores_exact (chains : list (Validator * gset BlockHash)) (scores : gmap BlockHash Z) : Prop :=
  forall b, scores !! b =
    if decide (Exists (fun vc => b ∈ vc.2) chains) then Some (wrap_i64 (supported_weight chains b)) else None.
Lemma scores_exact_perm chains chains' scores :
  chains ≡ₚ chains' -> scores_exact chains scores -> scores_exact chains' scores.
Proof.
  intros Hp Hs b. rewrite (Hs b).
  assert (supported_weight chains b = supported_weight chains' b) as ->.
  { unfold supported_weight. apply foldr_permutation_proper; [apply _..|intros; lia|by rewrite Hp]. }
  assert (Exists (fun vc => b ∈ vc.2) chains <-> Exists (fun vc => b ∈ vc.2) chains') as He.
  { rewrite !Exists_exists. by setoid_rewrite Hp. }
  by rewrite (decide_ext _ _ _ _ He).
Qed.
Lemma supported_weight_snoc (chains : list (Validator * gset BlockHash)) (v : Validator) (s : gset BlockHash) b :
  supported_weight (chains ++ [(v, s)]) b = (supported_weight chains b + if decide (b ∈ s) then weight_at b v else 0)%Z.
Proof.
  unfold supported_weight. rewrite filter_app, fmap_app, foldr_app.
  assert (forall l z, foldr Z.add z l = (foldr Z.add 0 l + z)%Z) as Hf by (induction l; intros; cbn; [lia|rewrite IHl; lia]).
  rewrite Hf. f_equal. rewrite filter_cons, filter_nil. cbn. case_decide; cbn; lia.
Qed.
Lemma add_weights (l : list BlockHash) (v : Validator) (scores : gmap BlockHash Z) :
  NoDup l -> (forall h, h ∈ l -> h ∈ r_dag_set dag) ->
  exists scores', res_foldM (fun result h =>
      validator_weight <-! weight_from_validator_by_dag dag idx h v;
      Ok (<[h := wrap_i64 (default 0%Z (result !! h) + validator_weight)]> result)) scores l = Ok scores' /\
    forall b, scores' !! b = if decide (b ∈ l) then Some (wrap_i64 (default 0%Z (scores !! b) + weight_at b v)) else scores !! b.
Proof.
  revert scores. induction l as [|h l IH]; intros scores Hnd Hin; cbn [res_foldM].
  { exists scores. split; [done|]. intros b. by rewrite decide_False by apply not_elem_of_nil. }
  apply NoDup_cons in Hnd as [Hh Hnd]. rewrite weight_from_validator_spec by (apply Hin; left). cbn [res_bind].
  destruct (IH (<[h := wrap_i64 (default 0%Z (scores !! h) + weight_at h v)]> scores) Hnd) as (scores' & -> & Hs).
  { intros x Hx. apply Hin. by right. }
  exists scores'. split; [done|]. intros b. rewrite Hs. destruct (decide (b = h)) as [->|Hne].
  - rewrite decide_False by done. rewrite lookup_insert_eq. by rewrite decide_True by left.
  - rewrite lookup_insert_ne by done. destruct (decide (b ∈ l)) as [Hb|Hb].
    + by rewrite decide_True by by right.
    + rewrite decide_False; [done|]. by intros [?|?]%elem_of_cons.
Qed.

(** The chains of the latest messages, down to the height of the common ancestor *)
Definition chains_of (height : Z) (l : list (Validator * BlockHash)) (chains : list (Validator * gset BlockHash)) : Prop :=
  Forall2 (fun vh vc => vh.1 = vc.1 /\ forall x, x ∈ vc.2 <-> rtc (down height) vh.2 x) l chains.
Lemma chains_of_perm height l l' chains :
  l ≡ₚ l' -> chains_of height l chains -> exists chains', chains_of height l' chains' /\ chains ≡ₚ chains'.
Proof.
  unfold chains_of. intros Hp. revert chains. induction Hp as [|x l l' _ IH|x y l|l l' l'' _ IH1 _ IH2]; intros chains Hc.
  - by exists chains.
  - apply Forall2_cons_inv_l in Hc as (c & k & Hx & Hk & ->). destruct (IH _ Hk) as (k' & Hk' & Hkk).
    exists (c :: k'). split; [by constructor|by rewrite Hkk].
  - apply Forall2_cons_inv_l in Hc as (c & k & Hx & Hk & ->). apply Forall2_cons_inv_l in Hk as (d & k' & Hy & Hk' & ->).
    exists (d :: c :: k'). split; [constructor; [exact Hy|by constructor]|by apply Permutation_swap].
  - destruct (IH1 _ Hc) as (k & Hk & H1). destruct (IH2 _ Hk) as (k' & Hk' & H2). exists k'. split; [done|by rewrite H1].
Qed.
Lemma rtc_down_known height h x : h ∈ r_dag_set dag -> rtc (down height) h x -> x ∈ r_dag_set dag.
Proof.
  intros Hh Hr. induction Hr as [|h p x (md & Hst & _ & _ & Hp) _ IH]; [done|]. apply IH.
  destruct (stored_parent md p Hst Hp) as (mdp & [? _] & <- & _). done.
Qed.
Lemma add_validators_spec fuel lca l (done_ : list (Validator * BlockHash)) chains scores :
  stored_block lca -> (forall v h, (v, h) ∈ l -> h ∈ r_dag_set dag) -> 1 + out_edges (r_dag_set dag) < fuel ->
  chains_of (m_block_number lca) done_ chains -> scores_exact chains scores ->
  exists scores' chains', add_validators dag idx fuel (m_block_hash lca) l scores = Some (Ok scores') /\
    chains_of (m_block_number lca) (done_ ++ l) chains' /\ scores_exact chains' scores'.
Proof.
  intros Hlca Hl Hf. revert done_ chains scores. induction l as [|[v h] l IH]; intros done_ chains scores Hc Hs; cbn [add_validators].
  { exists scores, chains. by rewrite (right_id_L [] (++)). }
  assert (h ∈ r_dag_set dag) as Hh by (apply (Hl v); left).
  destruct (supporting_chain_spec (m_block_number lca) h fuel [h] ∅ []) as (t & Ht & Hnd & Hel).
  { split; [set_solver|apply NoDup_nil; done| |right; left|set_solver].
    intros x [Hx| ->%list_elem_of_singleton]; [set_solver|]. by split. }
  { cbn. replace (r_dag_set dag ∖ ∅) with (r_dag_set dag) by set_solver. lia. }
  destruct (add_weights t v scores Hnd) as (scores' & Ha & Hs').
  { intros x Hx%Hel. by eapply rtc_down_known. }
  unfold add_validator_weight_down_supporting_chain. rewrite stored_lookup by done. cbn [o_bind]. rewrite Ht. cbn [o_bind].
  rewrite Ha. cbn [o_bind]. replace (done_ ++ (v, h) :: l) with ((done_ ++ [(v, h)]) ++ l) by by rewrite <-app_assoc.
  apply (IH ltac:(intros; eapply Hl; by right) _ (chains ++ [(v, list_to_set t)])).
  - apply Forall2_app; [done|]. constructor; [|constructor]. split; [done|]. intros x. cbn. by rewrite elem_of_list_to_set, Hel.
  - intros b. rewrite Hs', Hs, supported_weight_snoc.
    assert (Exists (fun vc => b ∈ vc.2) (chains ++ [(v, list_to_set t)]) <->
      Exists (fun vc => b ∈ vc.2) chains \/ b ∈ t) as Hex.
    { rewrite Exists_app, Exists_cons, Exists_nil. cbn. rewrite elem_of_list_to_set. tauto. }
    destruct (decide (Exists (fun vc => b ∈ vc.2) (chains ++ [(v, list_to_set t)]))) as [He'|He'],
      (decide (b ∈ (list_to_set t : gset BlockHash))) as [Hb|Hb];
      rewrite elem_of_list_to_set in Hb; destruct (decide (Exists (fun vc => b ∈ vc.2) chains)) as [He|He];
      destruct (decide (b ∈ t)) as [Hb'|Hb']; try tauto; cbn.
    + f_equal. apply wrap_i64_add.
    + f_equal. f_equal. f_equal. unfold supported_weight. rewrite filter_nothing; [done|]. intros vc Hvc Hin.
      apply He, Exists_exists. exists vc. by split.
    + by rewrite Z.add_0_r.
Qed.

(** ** The ranking *)

Definition block_num (h : BlockHash) : Z := match idx !! h with Some md => m_block_number md | None => 0%Z end.
Lemma stored_num md : stored_block md -> block_num (m_block_hash md) = m_block_number md.
Proof. intros [_ Hst]. unfold block_num. by rewrite Hst. Qed.

Section ranking.
Context (iter : gset BlockHash -> list BlockHash).
Hypothesis iter_perm : forall s, iter s ≡ₚ elements s.
Context (scores : gmap BlockHash Z).

Definition score_key (h : BlockHash) : Z * BlockHash := ((- default 0 (scores !! h))%Z, h).
Lemma decreasing_key a b : decreasing_cmp scores a b = num_cmp (score_key a) (score_key b).
Proof.
  unfold decreasing_cmp, num_cmp, pair_cmp, score_key. cbn [fst snd]. by rewrite Z.compare_opp.
Qed.
#[local] Instance decreasing_order : CmpOrder (decreasing_cmp scores).
Proof.
  destruct (cmp_on_preorder score_key num_cmp) as [H1 H2]. split; [split|].
  - intros x y. rewrite !decreasing_key. apply H1.
  - intros x y z. unfold cmp_le in *. rewrite !decreasing_key. apply H2.
  - intros x y. rewrite decreasing_key. intros Heq%(cmp_eq num_cmp). unfold score_key in Heq. by injection Heq.
Qed.
Definition ranked (l : list BlockHash) : Prop := StronglySorted (cmp_le (decreasing_cmp scores)) l /\ NoDup l.
Lemma ranked_unique l k : ranked l -> ranked k -> (forall x, x ∈ l <-> x ∈ k) -> l = k.
Proof.
  intros [Hl Hnl] [Hk Hnk] Hel. apply (StronglySorted_unique_strong (cmp_le (decreasing_cmp scores))); [|done|done|by apply NoDup_Permutation].
  intros x y _ _ Hxy Hyx. apply (cmp_eq (decreasing_cmp scores)). by apply (cmp_le_antisym (decreasing_cmp scores)).
Qed.

(** The children that have a score *)
Definition scored_children (b : BlockHash) : gset BlockHash :=
  match children dag b with Some s => filter (.∈ dom scores) s | None => ∅ end.
Definition up (b c : BlockHash) : Prop := c ∈ scored_children b.
Definition is_tip (b : BlockHash) : Prop := scored_children b = ∅.
Lemma up_number b c : up b c -> c ∈ r_dag_set dag /\ (0 <= block_num b < block_num c)%Z.
Proof.
  unfold up, scored_children. destruct (children dag b) as [s|] eqn:Hs; [|set_solver].
  intros [_ Hc]%elem_of_filter. destruct (fd_child wf b c) as (Hin & md & Hmd & Hp); [by exists s|].
  split; [done|]. destruct (stored_of c Hin) as (md' & Hst & Hh). destruct Hst as [Hin' Hst'].
  assert (md' = md) as -> by congruence. destruct (stored_parent md b) as (mdb & Hb & <- & Hlt); [by split|done|].
  rewrite stored_num by done. subst c. rewrite stored_num by by split. split; [by apply stored_nonneg|done].
Qed.
Lemma replace_spec b x : x ∈ replace_block_hash_with_children dag iter scores b <-> (is_tip b /\ x = b) \/ up b x.
Proof.
  unfold replace_block_hash_with_children, is_tip, up, scored_children. destruct (children dag b) as [s|].
  - case_decide as He.
    + rewrite He, list_elem_of_singleton. set_solver.
    + rewrite iter_perm, elem_of_elements. naive_solver.
  - rewrite list_elem_of_singleton. set_solver.
Qed.
Lemma next_blocks_spec l :
  ranked (next_blocks dag iter scores l) /\
  forall x, x ∈ next_blocks dag iter scores l <-> exists b, b ∈ l /\ ((is_tip b /\ x = b) \/ up b x).
Proof.
  unfold next_blocks, sort_by_with_decreasing_order. split.
  - split; [apply sort_by_sorted, _|]. rewrite sort_by_perm, iter_perm. apply NoDup_elements.
  - intros x. rewrite sort_by_perm, iter_perm, elem_of_elements, elem_of_list_to_set, list_elem_of_bind.
    setoid_rewrite replace_spec. naive_solver.
Qed.
Lemma tip_dec b : is_tip b \/ exists c, up b c.
Proof.
  unfold is_tip, up. destruct (decide (scored_children b = ∅)) as [?|Hne]; [by left|right].
  by apply set_choose_L in Hne.
Qed.
(** A list that is its own next list has tips only. *)
Lemma stable_tips l : (forall x, x ∈ l -> x ∈ next_blocks dag iter scores l) -> forall x, x ∈ l -> is_tip x.
Proof.
  intros Hst. assert (forall n x, (block_num x < Z.of_nat n)%Z -> x ∈ l -> is_tip x) as Hn.
  { induction n as [|n IH]; intros x Hx Hin.
    - destruct (tip_dec x) as [?|[c Hc]]; [done|]. apply up_number in Hc. lia.
    - apply Hst, next_blocks_spec in Hin as (b & Hb & [[Ht ->]|Hu]); [done|].
      exfalso. apply up_number in Hu as Hlt. assert (is_tip b) as Ht by (apply IH; [lia|done]).
      unfold up in Hu. unfold is_tip in Ht. set_solver. }
  intros x Hx. apply (Hn (S (Z.to_nat (block_num x)))); [|done]. lia.
Qed.

Context (top : Z).
Hypothesis top_bound : forall h, h ∈ r_dag_set dag -> (block_num h <= top)%Z.
Context (root : BlockHash).
Record rank_inv (l : list BlockHash) : Prop := {
  ri_ranked : ranked l;
  ri_ne : l <> [];
  ri_known : forall x, x ∈ l -> x ∈ r_dag_set dag /\ rtc up root x;
  ri_tips : forall t, rtc up root t -> is_tip t -> exists x, x ∈ l /\ rtc up x t;
}.
Lemma rank_inv_next l : rank_inv l -> rank_inv (next_blocks dag iter scores l).
Proof.
  intros [H1 H2 H3 H4]. destruct (next_blocks_spec l) as [Hr Hel]. split; [done| | |].
  - destruct l as [|b l]; [done|]. assert (exists x, x ∈ next_blocks dag iter scores (b :: l)) as [x Hx].
    { destruct (tip_dec b) as [Ht|[c Hc]]; [exists b|exists c]; apply Hel; exists b; (split; [left|auto]). }
    intros Hnil. rewrite Hnil in Hx. by apply elem_of_nil in Hx.
  - intros x (b & Hb & [[_ ->]|Hu])%Hel; [by apply H3|]. destruct (H3 b Hb). split; [apply (up_number _ _ Hu)|by eapply rtc_r].
  - intros t Hr' Ht. destruct (H4 t Hr' Ht) as (x & Hx & Hxt). inversion Hxt as [|? y ? Hy Hyt]; subst.
    + exists t. split; [apply Hel; eauto|done].
    + exists y. split; [apply Hel; eauto|done].
Qed.
Lemma rank_spec fuel k l :
  rank_inv l -> (forall x, x ∈ l -> ~ is_tip x -> (top - block_num x < Z.of_nat k)%Z) -> k < fuel ->
  exists r, rank_forkchoices dag iter fuel scores l = Some r /\ ranked r /\ r <> [] /\
    forall t, t ∈ r <-> rtc up root t /\ is_tip t.
Proof.
  revert k l. induction fuel as [|fuel IH]; intros k l Hinv Hk Hf; [lia|]. cbn [rank_forkchoices].
  destruct (next_blocks_spec l) as [Hr Hel]. case_decide as Heq.
  - exists l. destruct Hinv as [H1 H2 H3 H4]. split_and!; [done..|].
    assert (forall x, x ∈ l -> is_tip x) as Htips by (apply stable_tips; intros x; by rewrite Heq).
    intros t. split; [intros Ht; split; [by apply H3|by apply Htips]|]. intros [Hrt Ht].
    destruct (H4 t Hrt Ht) as (x & Hx & Hxt). inversion Hxt as [|? y ? Hy _]; subst; [done|].
    apply Htips in Hx. unfold is_tip in Hx. unfold up in Hy. set_solver.
  - destruct k as [|k].
    { exfalso. apply Heq. apply ranked_unique; [done|apply Hinv|]. intros x.
      assert (forall x, x ∈ l -> is_tip x) as Htips.
      { intros y Hy. destruct (tip_dec y) as [?|[c Hc]]; [done|]. exfalso. destruct (ri_known _ Hinv y Hy) as [Hin _].
        apply top_bound in Hin. assert (~ is_tip y) as Hn by (unfold is_tip, up in *; set_solver).
        specialize (Hk y Hy Hn). lia. }
      rewrite Hel. split.
      - intros (b & Hb & [[_ ->]|Hu]); [done|]. apply Htips in Hb. unfold is_tip, up in *. set_solver.
      - intros Hx. exists x. split; [done|]. left. split; [by apply Htips|done]. }
    apply (IH k); [by apply rank_inv_next| |lia]. intros x (b & Hb & [[Ht ->]|Hu])%Hel Hn; [done|].
    assert (~ is_tip b) as Hnb by (unfold is_tip, up in *; set_solver). specialize (Hk b Hb Hnb).
    apply up_number in Hu. lia.
Qed.
End ranking.

(** ** The fork choice *)

(** What is kept of the ranking: the main parent and the blocks not too far below it *)
Definition shallow (est : Estimator) (r : list BlockHash) : list BlockHash :=
  match max_parent_depth_opt est, r with
  | Some d, main :: rest => main :: filter (fun h => block_num main - block_num h <= d)%Z rest
  | _, _ => r
  end.
Lemma lookups_known (l : list BlockHash) : (forall x, x ∈ l -> x ∈ r_dag_set dag) ->
  exists mds, lookups_unsafe dag idx l = Ok mds /\ Forall stored_block mds /\ m_block_hash <$> mds = l.
Proof.
  unfold lookups_unsafe. induction l as [|h l IH]; intros Hl; [by exists []|]. cbn [res_mapM].
  destruct (stored_of h) as (m & Hm & <-); [apply Hl; left|]. rewrite stored_lookup by done. cbn [res_bind].
  destruct IH as (mds & -> & Hst & <-); [intros; apply Hl; by right|]. cbn [res_bind]. exists (m :: mds).
  split_and!; [done|by apply Forall_cons_2|done].
Qed.
Lemma filter_deep_parents_spec est r :
  r <> [] -> (forall x, x ∈ r -> x ∈ r_dag_set dag) -> filter_deep_parents dag idx est r = Ok (shallow est r).
Proof.
  intros Hne Hr. unfold filter_deep_parents, shallow. destruct (max_parent_depth_opt est) as [d|]; [|done].
  destruct r as [|main rest]; [done|]. destruct (stored_of main) as (mm & Hmm & <-); [apply Hr; left|].
  rewrite stored_lookup by done. cbn [res_bind].
  destruct (lookups_known rest) as (mds & -> & Hst & <-); [intros; apply Hr; by right|].
  cbn [res_bind]. do 2 f_equal. rewrite stored_num by done. clear Hr. induction Hst as [|m mds Hm Hst IH]; [done|].
  csimpl. rewrite !filter_cons, stored_num by done. case_decide; csimpl; by rewrite IH.
Qed.
Lemma take_shallow_known est r x : x ∈ shallow est r -> x ∈ r.
Proof.
  unfold shallow. destruct (max_parent_depth_opt est), r; [done| |done|done].
  rewrite !elem_of_cons, list_elem_of_filter. tauto.
Qed.

Section choice.
Context (iter : gset BlockHash -> list BlockHash).
Hypothesis iter_perm : forall s, iter s ≡ₚ elements s.
Context (iter_messages : gmap Validator BlockHash -> list (Validator * BlockHash)).
Hypothesis messages_perm : forall m, iter_messages m ≡ₚ map_to_list m.
Context (est : Estimator) (fuel : nat) (genesis_block : BlockMessage) (latest : gmap Validator BlockHash) (top : Z).
Hypothesis genesis_hash : block_hash genesis_block = genesis.
Hypothesis genesis_in : genesis ∈ r_dag_set dag.
Hypothesis latest_in : forall v h, latest !! v = Some h -> h ∈ r_dag_set dag.
Hypothesis top_bound : forall h, h ∈ r_dag_set dag -> (block_num h <= top)%Z.
Hypothesis enough : size (r_dag_set dag) < fuel /\ 1 + out_edges (r_dag_set dag) < fuel /\ S (Z.to_nat (top + 1)) < fuel.

(** The valid latest messages that are recent *)
Abbreviation valid := (valid_latest dag latest).
Definition recent : list BlockMetadata := recent_messages dag idx map_to_list valid.
Lemma recent_perm : recent_messages dag idx iter_messages valid ≡ₚ recent.
Proof.
  unfold recent, recent_messages. by rewrite messages_perm.
Qed.
Lemma valid_known v h : valid !! v = Some h -> h ∈ r_dag_set dag.
Proof. unfold valid_latest. intros [Hv _]%map_lookup_filter_Some. by eapply latest_in. Qed.
Lemma recent_stored : Forall stored_block recent.
Proof.
  apply Forall_forall. intros md [_ Hmd]%list_elem_of_filter. apply list_elem_of_omap in Hmd as (h & Hh & Hl).
  apply list_elem_of_fmap in Hh as ([v h'] & -> & Hv%elem_of_map_to_list). apply valid_known in Hv. cbn in *.
  unfold lookup_block in Hl. rewrite decide_True in Hl by done. destruct (stored_of h' Hv) as (md' & Hst & <-).
  destruct Hst as [Hin Hst]. rewrite Hst in Hl. injection Hl as <-. by split.
Qed.
(** The common ancestor of the recent messages, or the first block *)
Definition chosen_lca (h : BlockHash) : Prop :=
  (recent = [] /\ h = genesis) \/ (recent <> [] /\ lowest_common (m_block_hash <$> recent) h).
Lemma calculate_lca_spec : exists lca, stored_block lca /\ chosen_lca (m_block_hash lca) /\
  calculate_lca dag idx iter_messages fuel (from_block genesis_block false None None) valid =
    Some (Ok (m_block_hash lca)).
Proof.
  pose proof recent_perm as Hp. pose proof recent_stored as Hrs. unfold calculate_lca, chosen_lca.
  destruct (recent_messages _ _ _ _) as [|m l].
  - apply Permutation_nil_l in Hp. destruct (stored_of genesis genesis_in) as (md & Hst & Hh). exists md.
    split; [done|]. split; [by left|]. cbn. by rewrite genesis_hash, Hh.
  - rewrite <-Hp in Hrs. destruct (luca_exact fuel (m :: l)) as (md & Hl & Hst & Hlow); [done..|apply enough|].
    exists md. rewrite Hl. cbn [o_bind]. split; [done|]. split; [right|done].
    split; [intros Hr; rewrite Hr in Hp; by apply Permutation_nil_r in Hp|].
    destruct Hlow as [H1 H2]. split.
    + intros b Hb. apply H1. by rewrite Hp.
    + intros y Hy Hall. apply H2; [done|]. intros b Hb. apply Hall. by rewrite <-Hp.
Qed.

(** The stakes that support the blocks, and the blocks above the common ancestor that are ranked *)
Lemma fork_choice_exact : exists lca scores chains r,
  stored_block lca /\ chosen_lca (m_block_hash lca) /\
  chains_of (m_block_number lca) (map_to_list valid) chains /\ scores_exact chains scores /\
  ranked scores r /\ (forall t, t ∈ r <-> rtc (up scores) (m_block_hash lca) t /\ is_tip scores t) /\
  tips_with_latest_messages dag idx iter iter_messages est fuel genesis_block latest =
    Some (Ok (mkForkChoice (take_i32 (max_number_of_parents est) (shallow est r)) (m_block_hash lca))).
Proof.
  destruct calculate_lca_spec as (lca & Hlca & Hch & Hcalc).
  destruct (add_validators_spec fuel lca (iter_messages valid) [] [] ∅) as (scores & chains0 & Hadd & Hchains0 & Hex0).
  { done. } { intros v h Hv. rewrite messages_perm, elem_of_map_to_list in Hv. by eapply valid_known. }
  { apply enough. } { constructor. }
  { intros b. rewrite lookup_empty. case_decide as He; [|done]. by apply Exists_nil in He. }
  destruct (chains_of_perm _ _ (map_to_list valid) _ (messages_perm valid) Hchains0) as (chains & Hchains & Hcp).
  pose proof (scores_exact_perm _ _ _ Hcp Hex0) as Hex.
  destruct (rank_spec iter iter_perm scores top top_bound (m_block_hash lca) fuel (Z.to_nat (top + 1)) [m_block_hash lca])
    as (r & Hrank & Hr & Hne & Hel).
  { split; [split; [apply SSorted_cons; [apply SSorted_nil|by apply Forall_nil]|apply NoDup_singleton]|done| |].
    - intros x ->%list_elem_of_singleton. split; [apply Hlca|done].
    - intros t Ht _. exists (m_block_hash lca). split; [left|done]. }
  { intros x ->%list_elem_of_singleton _. rewrite stored_num by done. pose proof (stored_nonneg lca Hlca). lia. }
  { lia. }
  exists lca, scores, chains, r. split_and!; [done..|]. unfold tips_with_latest_messages. rewrite Hcalc. cbn [o_bind].
  unfold build_scores_map. rewrite Hadd. cbn [o_bind]. rewrite Hrank. cbn [fmap option_fmap option_map o_bind].
  rewrite filter_deep_parents_spec; [done|done|]. intros x [Hx _]%Hel.
  assert (forall a, rtc (up scores) a x -> a ∈ r_dag_set dag -> x ∈ r_dag_set dag) as Hcl; [|apply (Hcl (m_block_hash lca)); [done|apply Hlca]].
  clear -wf iter_perm. intros a Ha. induction Ha as [|a b x Hab _ IH]; [done|]. intros _. apply IH. by eapply up_number.
Qed.
End choice.
End dag.

(** C21: the lowest universal common ancestor is exact.  For blocks of a DAG with one first block,
    [lowest_universal_common_ancestor_many] ends and returns a block that every history of every
    block goes through, and every other such block is below it: all histories of the result go
    through that block as well. *)
Theorem luca_correct dag idx genesis fuel blocks :
  fork_dag dag idx genesis -> blocks <> [] -> Forall (stored_block dag idx) blocks -> size (r_dag_set dag) < fuel ->
  exists md, lowest_universal_common_ancestor_many dag idx fuel blocks = Some (Ok md) /\ stored_block dag idx md /\
    lowest_common dag idx (m_block_hash <$> blocks) (m_block_hash md).
Proof. intros Hwf. by apply (luca_exact dag idx genesis Hwf). Qed.

(** C9: the fork choice is exact and does not depend on the order of hash maps.  The estimator
    ends; its ancestor is the lowest common one of the recent valid latest messages; a block is
    scored by the stake of exactly the validators whose latest message leads down to it through
    any of its parents; and the tips are all the scored descendants of the ancestor without a
    scored child, by decreasing score and then by hash, cut by the depth and the number of
    parents.  The ranking is of the leaves: no child is chosen greedily on the way. *)
Theorem estimator_correct dag idx genesis iter iter_messages est fuel genesis_block latest top :
  fork_dag dag idx genesis -> (forall s, iter s ≡ₚ elements s) -> (forall m, iter_messages m ≡ₚ map_to_list m) ->
  block_hash genesis_block = genesis -> genesis ∈ r_dag_set dag ->
  (forall v h, latest !! v = Some h -> h ∈ r_dag_set dag) ->
  (forall h, h ∈ r_dag_set dag -> (block_num idx h <= top)%Z) ->
  size (r_dag_set dag) < fuel /\ 1 + out_edges idx (r_dag_set dag) < fuel /\ S (Z.to_nat (top + 1)) < fuel ->
  exists lca scores chains r,
    stored_block dag idx lca /\ chosen_lca dag idx genesis latest (m_block_hash lca) /\
    chains_of dag idx (m_block_number lca) (map_to_list (valid_latest dag latest)) chains /\ scores_exact idx chains scores /\
    ranked scores r /\ (forall t, t ∈ r <-> rtc (up dag scores) (m_block_hash lca) t /\ is_tip dag scores t) /\
    tips_with_latest_messages dag idx iter iter_messages est fuel genesis_block latest =
      Some (Ok (mkForkChoice (take_i32 (max_number_of_parents est) (shallow idx est r)) (m_block_hash lca))).
Proof. intros Hwf Hi Hi' Hg Hin Hl Ht Hf. by apply (fork_choice_exact dag idx genesis Hwf iter Hi iter_messages Hi' est fuel genesis_block latest top). Qed.

(** ** A fork *)

Section check.
Context (dag : KeyValueDagRepresentation) (idx : gmap BlockHash BlockMetadata) (genesis : BlockHash).
Definition fork_block_check (h : BlockHash) : bool :=
  match idx !! h with
  | Some md =>
    bool_decide (m_block_hash md = h /\ (0 <= m_block_number md)%Z) &&
    forallb (fun p => bool_decide (p ∈ r_dag_set dag /\ (block_num idx p < m_block_number md)%Z)) (m_parents md) &&
    bool_decide (m_parents md <> [] \/ h = genesis)
  | None => false
  end.
Definition child_check (p c : BlockHash) : bool :=
  bool_decide (c ∈ r_dag_set dag) &&
  match idx !! c with Some md => bool_decide (p ∈ m_parents md) | None => false end.
Definition fork_check : bool :=
  forallb fork_block_check (elements (r_dag_set dag)) &&
  forallb (fun '(p, s) => forallb (child_check p) (elements s)) (map_to_list (r_child_map dag)).
Lemma fork_checked : fork_check = true -> fork_dag dag idx genesis.
Proof.
  unfold fork_check. rewrite andb_true_iff, !forallb_forall. intros [Hb Hc].
  assert (forall h, h ∈ r_dag_set dag -> exists md, idx !! h = Some md /\ m_block_hash md = h /\ (0 <= m_block_number md)%Z /\
    (forall p, p ∈ m_parents md -> p ∈ r_dag_set dag /\ (block_num idx p < m_block_number md)%Z) /\
    (m_parents md <> [] \/ h = genesis)) as Hblock.
  { intros h Hh. specialize (Hb h). rewrite <-list_elem_of_In, elem_of_elements in Hb. specialize (Hb Hh).
    unfold fork_block_check in Hb. destruct (idx !! h) as [md|]; [|done]. exists md.
    apply andb_true_iff in Hb as [[[H1 H2]%bool_decide_eq_true H3]%andb_true_iff H4%bool_decide_eq_true].
    split_and!; try done. intros p Hp. rewrite forallb_forall in H3. specialize (H3 p).
    rewrite <-list_elem_of_In in H3. by apply H3, bool_decide_eq_true in Hp. }
  split.
  - intros h Hh. destruct (Hblock h Hh) as (md & H1 & H2 & H3 & _). eauto.
  - intros h md p mdp Hh Hmd Hp. destruct (Hblock h Hh) as (md' & H1 & _ & _ & H4 & _).
    rewrite Hmd in H1. injection H1 as <-. destruct (H4 p Hp) as [Hin Hlt]. split; [done|].
    unfold block_num in Hlt. intros Hmdp. by rewrite Hmdp in Hlt.
  - intros h md Hh Hmd Hnil. destruct (Hblock h Hh) as (md' & H1 & _ & _ & _ & [H5|H5]); [|done].
    rewrite Hmd in H1. injection H1 as <-. done.
  - intros p c (s & Hs & Hcin). specialize (Hc (p, s)). rewrite <-list_elem_of_In, elem_of_map_to_list in Hc.
    specialize (Hc Hs). cbn beta iota in Hc. rewrite forallb_forall in Hc. specialize (Hc c).
    rewrite <-list_elem_of_In, elem_of_elements in Hc. specialize (Hc Hcin).
    unfold child_check in Hc. apply andb_true_iff in Hc as [H1%bool_decide_eq_true H2]. split; [done|].
    destruct (idx !! c) as [md|]; [|done]. exists md. split; [done|]. by apply bool_decide_eq_true in H2.
Qed.
End check.

Module Fork.
Definition hash (b : byte) : BlockHash := replicate 32 b.
Definition alice : Validator := replicate 65 xaa.
Definition bob : Validator := replicate 65 xbb.
Definition meta (b : byte) (parents : list byte) (n : Z) : BlockMetadata :=
  mkMeta (hash b) (hash <$> parents) alice [] {[alice := 10%Z; bob := 5%Z]} n n false false false f32_zero.
(** Two blocks on the first one, and one on the left of them *)
Definition idx : gmap BlockHash BlockMetadata :=
  {[hash x01 := meta x01 [] 0; hash x02 := meta x02 [x01] 1; hash x03 := meta x03 [x01] 1; hash x04 := meta x04 [x02] 2]}.
Definition dag : KeyValueDagRepresentation :=
  mkDag {[hash x01; hash x02; hash x03; hash x04]} {[alice := hash x04; bob := hash x03]}
    {[hash x01 := {[hash x02; hash x03]}; hash x02 := {[hash x04]}]}
    {[0%Z := {[hash x01]}; 1%Z := {[hash x02; hash x03]}; 2%Z := {[hash x04]}]} ∅ ∅ ∅ [] (hash x01) ∅.
Definition genesis : BlockMessage :=
  mkBlock (hash x01) (mkHead [] 0 1 []) (mkBlockBody (mkF1r3flyState [] [] [] 0) [] [] [] [])
    [] [] 0 [] EmptyString EmptyString [].
Definition est : Estimator := mkEstimator 5 (Some 3%Z).

Lemma wf : fork_dag dag idx (hash x01).
Proof. apply fork_checked. vm_compute. reflexivity. Qed.
Lemma in_fork h : bool_decide (h ∈ r_dag_set dag) = true -> h ∈ r_dag_set dag.
Proof. by intros ?%bool_decide_eq_true. Qed.
Lemma stored h : match idx !! h with Some md => bool_decide (m_block_hash md = h /\ h ∈ r_dag_set dag) | None => false end = true ->
  Forall (stored_block dag idx) (option_list (idx !! h)).
Proof.
  destruct (idx !! h) as [md|] eqn:Hmd; cbn; [|done]. intros [<- Hin]%bool_decide_eq_true. apply Forall_singleton. by split.
Qed.
Lemma luca_correct_witness : exists md,
  lowest_universal_common_ancestor_many dag idx 9 [meta x04 [x02] 2; meta x03 [x01] 1] = Some (Ok md) /\
  lowest_common dag idx [hash x04; hash x03] (m_block_hash md) /\ m_block_hash md = hash x01.
Proof.
  destruct (luca_correct dag idx (hash x01) 9 [meta x04 [x02] 2; meta x03 [x01] 1]) as (md & Hmd & _ & Hlow).
  - exact wf.
  - done.
  - apply Forall_cons_2; [|apply Forall_cons_2; [|by apply Forall_nil]].
    + exact (Forall_inv (stored (hash x04) ltac:(vm_compute; reflexivity))).
    + exact (Forall_inv (stored (hash x03) ltac:(vm_compute; reflexivity))).
  - vm_compute. lia.
  - exists md. split; [exact Hmd|]. split; [exact Hlow|].
    apply (f_equal (fun o => match o with Some (Ok m) => m_block_hash m | _ => [] end)) in Hmd. cbn beta iota in Hmd.
    rewrite <-Hmd. vm_compute. reflexivity.
Defined.

Definition latest : gmap Validator BlockHash := {[alice := hash x04; bob := hash x03]}.
Lemma latest_in v h : latest !! v = Some h -> h ∈ r_dag_set dag.
Proof.
  unfold latest. rewrite lookup_insert_Some, lookup_singleton_Some. intros [[_ <-]|[_ [_ <-]]]; apply in_fork; vm_compute; reflexivity.
Qed.
Lemma top h : h ∈ r_dag_set dag -> (block_num idx h <= 2)%Z.
Proof.
  intros Hh. cbn [r_dag_set dag] in Hh. rewrite !elem_of_union, !elem_of_singleton in Hh.
  destruct Hh as [[[->| ->]| ->]| ->]; vm_compute; discriminate.
Qed.
Definition chosen : list BlockHash :=
  match tips_with_latest_messages dag idx elements (fun m => reverse (map_to_list m)) est 20 genesis latest with
  | Some (Ok fc) => tips fc
  | _ => []
  end.
Lemma estimator_correct_witness :
  (exists lca, stored_block dag idx lca /\ chosen_lca dag idx (hash x01) latest (m_block_hash lca)) /\
  chosen = [hash x04; hash x03].
Proof.
  destruct (estimator_correct dag idx (hash x01) elements (fun m => reverse (map_to_list m)) est 20 genesis latest 2 wf
    (fun s => reflexivity _) (fun m => reverse_Permutation _) eq_refl
    ltac:(apply in_fork; vm_compute; reflexivity) latest_in top) as (lca & scores & chains & r & H1 & H2 & _).
  - split_and!; vm_compute; lia.
  - split; [exists lca; exact (conj H1 H2)|]. vm_compute. reflexivity.
Defined.
End Fork.
