(* ===== verification/Snapshot.v ===== *)
(** * The snapshot that a block is built on

    [get_snapshot] of [casper/src/rust/multi_parent_casper_impl.rs]: the parents of the next block
    among the latest messages, their common ancestor, the justifications, and the deploys of the
    recent ancestors, which are cached by the generation of the DAG.  The representation of the
    DAG is taken at the beginning and the generation is read later; [later] is what other tasks
    do to the storage in between.  The block store and the contract that tells the active validators are parameters. *)
From S2P Require Import Prelude HotStoreSig HistoryRepo CasperMessage BlockDag BlockDagThms BlockDagFinal BlockDagExamples.
From S2P Require Import ForkChoice ForkChoiceThms.
Open Scope res_scope.
Open Scope Z_scope.

(** [enum CasperError]: the variants that snapshots build themselves, and the others *)
Inductive CasperError := KvStore (e : KvStoreError) | RuntimeError (msg : string) | OtherError (what : string).
(** [KeyValueBlockStore]: reading a block, its deploys and its rejected deploys *)
Record BlockStore := mkBlockStore {
  bs_get : BlockHash -> res KvStoreError (option BlockMessage);
  bs_deploy_sigs : BlockHash -> res KvStoreError (option (list bytes));
  bs_rejected_deploy_sigs : BlockHash -> res KvStoreError (option (list bytes));
}.
(** What [CasperShardConf] says of snapshots *)
Record ShardConf := mkShardConf { c_max_number_of_parents : Z; c_max_parent_depth : Z; c_deploy_lifespan : Z }.
(** [struct OnChainCasperState], besides the configuration *)
Record OnChainCasperState := mkOnChain { bonds_map : gmap Validator Z; active_validators : list Validator }.
(** The caches of [MultiParentCasperImpl] *)
Abbreviation Sigs := (gset bytes).
Record CasperCaches := mkCaches {
  deploys_in_scope_cache : option (Z * BlockHash * Sigs * Sigs);
  active_validators_cache : gmap bytes (list Validator);
}.
(** [struct CasperSnapshot] *)
Record CasperSnapshot := mkSnapshot {
  sn_last_finalized_block : BlockHash;
  sn_lca : BlockHash;
  sn_tips : list BlockHash;
  sn_parents : list BlockMessage;
  sn_justifications : gmap Validator BlockHash;
  sn_invalid_blocks : gmap BlockHash Validator;
  sn_deploys_in_scope : Sigs;
  sn_rejected_in_scope : Sigs;
  sn_max_block_num : Z;
  sn_max_seq_nums : gmap Validator Z;
  sn_on_chain_state : OnChainCasperState;
}.
Definition MAX_ACTIVE_VALIDATORS_CACHE_ENTRIES : nat := Z.to_nat 4096.
Definition i32_max : Z := 2 ^ 31 - 1.
Definition number_of (b : BlockMessage) : Z := block_number (body_state (body b)).
Definition bonds_of (b : BlockMessage) : list Bond := bonds (body_state (body b)).
#[global] Instance Bond_eq_dec : EqDecision Bond.
Proof. solve_decision. Defined.

(** ** Parent selection *)

Definition saturating_sub_i64 (a b : Z) : Z := Z.max i64_min (Z.min i64_max (a - b)).
Definition near_tip_tolerance_blocks : Z := 0.
(** The order of the parents *)
Definition parent_cmp (max_parent_block_number : Z) (a b : BlockMessage) : comparison :=
  let a_is_near_tip := bool_decide (saturating_sub_i64 max_parent_block_number (number_of a) <= near_tip_tolerance_blocks) in
  let b_is_near_tip := bool_decide (saturating_sub_i64 max_parent_block_number (number_of b) <= near_tip_tolerance_blocks) in
  if a_is_near_tip && b_is_near_tip then bytes_cmp (block_hash a) (block_hash b)
  else match Z.compare (number_of b) (number_of a) with
       | Eq => bytes_cmp (block_hash a) (block_hash b)
       | c => c
       end.
(** [Iterator::max] of numbers and [Iterator::max_by], which returns the last of the greatest *)
Definition max_number (l : list Z) : option Z :=
  foldl (fun m x => match m with Some y => Some (Z.max y x) | None => Some x end) None l.
Definition max_by {A} (cmp : A -> A -> comparison) (l : list A) : option A :=
  foldl (fun m x => match m with Some y => match cmp y x with Gt => Some y | _ => Some x end | None => Some x end) None l.
Definition newest_cmp (a b : BlockMessage) : comparison :=
  then_with (Z.compare (number_of a) (number_of b)) (bytes_cmp (block_hash a) (block_hash b)).

Section snapshot.
Context (store : BlockStore) (conf : ShardConf) (approved_block : BlockMessage).
(** [runtime_manager.get_active_validators] and the order of the validators cache *)
Context (get_active_validators : bytes -> res CasperError (list Validator)).
Context (first_key : gmap bytes (list Validator) -> option bytes).
Context (iter : gset BlockHash -> list BlockHash) (fuel : nat).
Context (dag : KeyValueDagRepresentation) (idx : gmap BlockHash BlockMetadata).

(** The blocks of the valid latest messages *)
Definition parent_blocks_list : list BlockMessage :=
  let valid_latest_msgs := valid_latest dag (r_latest_messages_map dag) in
  let unique_parent_hashes : gset BlockHash := list_to_set (map_to_list valid_latest_msgs).*2 in
  omap (fun h => match bs_get store h with Ok (Some b) => Some b | _ => None end) (iter unique_parent_hashes).
Definition sorted_parents_list : list BlockMessage :=
  let max_parent_block_number := default 0 (max_number (number_of <$> parent_blocks_list)) in
  sort_by (parent_cmp max_parent_block_number) parent_blocks_list.
(** Those with the bonds of the newest block *)
Definition unfiltered_parents : list BlockMessage :=
  match max_by newest_cmp sorted_parents_list with
  | None => [approved_block]
  | Some newest => filter (fun b => bonds_of b = bonds_of newest) sorted_parents_list
  end.
Definition UNLIMITED_PARENTS : Z := -1.
Definition parents_after_count_limit : list BlockMessage :=
  if decide (c_max_number_of_parents conf = UNLIMITED_PARENTS) then unfiltered_parents
  else take_i32 (c_max_number_of_parents conf) unfiltered_parents.
Definition with_meta (b : BlockMessage) : option (BlockMessage * BlockMetadata) :=
  match lookup_unsafe dag idx (block_hash b) with Ok md => Some (b, md) | _ => None end.
Definition selected_parents : list BlockMessage :=
  if decide (c_max_parent_depth conf <> i32_max /\ (1 < length parents_after_count_limit)%nat) then
    let parents_with_meta := omap with_meta parents_after_count_limit in
    let max_block_num := default 0 (max_number ((fun bm => m_block_number bm.2) <$> parents_with_meta)) in
    (filter (fun bm => wrap_i64 (max_block_num - m_block_number bm.2) <= c_max_parent_depth conf) parents_with_meta).*1
  else parents_after_count_limit.
Definition snapshot_lca (parents : list BlockMessage) : Outcome BlockHash :=
  match snd <$> omap with_meta parents with
  | [] => Some (Ok (block_hash approved_block))
  | metas => md <~ lowest_universal_common_ancestor_many dag idx fuel metas ;~ Some (Ok (m_block_hash md))
  end.

(** ** [fn get_on_chain_state] *)

Definition bonds_map_of (b : BlockMessage) : gmap Validator Z :=
  foldl (fun m v => <[bond_validator v := stake v]> m) ∅ (bonds_of b).
Definition get_on_chain_state (b : BlockMessage) : ST CasperCaches (res CasperError OnChainCasperState) := fun c =>
  let cache_key := post_state_hash (body_state (body b)) in
  match active_validators_cache c !! cache_key with
  | Some cached => (Ok (mkOnChain (bonds_map_of b) cached), c)
  | None =>
    match get_active_validators cache_key with
    | Ok fetched =>
      let cache := active_validators_cache c in
      let cache :=
        if decide (MAX_ACTIVE_VALIDATORS_CACHE_ENTRIES <= size cache)%nat then
          match first_key cache with Some k => delete k cache | None => cache end
        else cache in
      let av := default fetched (cache !! cache_key) in
      (Ok (mkOnChain (bonds_map_of b) av), mkCaches (deploys_in_scope_cache c) (<[cache_key := av]> cache))
    | Err e => (Err e, c)
    | Panic => (Panic, c)
    end
  end.

(** ** The deploys in scope *)

(** [fn get_parent_metadatas_above_block_number], with [fn get_parents_metadata] *)
Definition get_parent_metadatas_above_block_number (md : BlockMetadata) (n : Z) : res KvStoreError (list BlockMetadata) :=
  parents <-! lookups_unsafe dag idx (m_parents md); Ok (filter (fun p => n <= m_block_number p) parents).
Definition neighbor_fn (earliest : Z) (md : BlockMetadata) : list BlockMetadata :=
  match get_parent_metadatas_above_block_number md earliest with Ok parents => parents | _ => [] end.
Definition add_block_sigs (acc : Sigs * Sigs) (md : BlockMetadata) : res CasperError (Sigs * Sigs) :=
  match bs_deploy_sigs store (m_block_hash md) with
  | Ok (Some block_deploy_sigs) =>
    let all_deploys := list_to_set block_deploy_sigs ∪ acc.1 in
    match bs_rejected_deploy_sigs store (m_block_hash md) with
    | Ok (Some rejected_sigs) => Ok (all_deploys, list_to_set rejected_sigs ∪ acc.2)
    | Ok None => Ok (all_deploys, acc.2)
    | Err e => Err (KvStore e)
    | Panic => Panic
    end
  | Ok None => Err (RuntimeError ("Missing block " +:+ build_string_bytes (m_block_hash md) +:+
                                  " during deploys_in_scope traversal"))
  | Err e => Err (KvStore e)
  | Panic => Panic
  end.
Definition earliest_block_number (max_block_num : Z) : Z :=
  let current_block_number := wrap_i64 (max_block_num + 1) in
  wrap_i64 (current_block_number - c_deploy_lifespan conf).
Definition compute_scope (parent_metas : list BlockMetadata) (max_block_num : Z) : option (res CasperError (Sigs * Sigs)) :=
  traversal_result ← bf_traverse (neighbor_fn (earliest_block_number max_block_num)) fuel parent_metas;
  Some (res_foldM add_block_sigs (∅, ∅) traversal_result).
(** The two phases around the cache *)
Definition scope_with_cache (current_dag_generation : Z) (parent_metas : list BlockMetadata) (max_block_num : Z) :
  ST CasperCaches (option (res CasperError (Sigs * Sigs))) := fun c =>
  let snapshot_lfb_hash := r_last_finalized_block_hash dag in
  let cached :=
    match deploys_in_scope_cache c with
    | Some (gen, cached_lfb, deploys, rejected) =>
      if decide (gen = current_dag_generation /\ cached_lfb = snapshot_lfb_hash) then Some (deploys, rejected) else None
    | None => None
    end in
  match cached with
  | Some sets => (Some (Ok sets), c)
  | None =>
    match compute_scope parent_metas max_block_num with
    | Some (Ok (all_deploys, all_rejected)) =>
      (Some (Ok (all_deploys, all_rejected)),
       mkCaches (Some (current_dag_generation, snapshot_lfb_hash, all_deploys, all_rejected)) (active_validators_cache c))
    | r => (r, c)
    end
  end.

(** ** [fn get_snapshot] *)

(** [proto_util::max_block_number_metadata] *)
Definition max_block_number_metadata (l : list BlockMetadata) : Z := foldl (fun acc md => Z.max acc (m_block_number md)) (-1) l.
Definition snapshot_justifications (on_chain : OnChainCasperState) : gmap Validator BlockHash :=
  filter (fun kv => is_Some (bonds_map on_chain !! kv.1)) (r_latest_messages_map dag).
Definition snapshot_seq_nums : gmap Validator Z :=
  omap (fun h => match lookup_unsafe dag idx h with Ok md => Some (as_u64 (m_sequence_number md)) | _ => None end)
    (r_latest_messages_map dag).
Definition lift_kv {X} (r : res KvStoreError X) : res CasperError X :=
  match r with Ok x => Ok x | Err e => Err (KvStore e) | Panic => Panic end.
End snapshot.

Section get_snapshot.
Context (store : BlockStore) (conf : ShardConf) (approved_block : BlockMessage).
Context (get_active_validators : bytes -> res CasperError (list Validator)).
Context (first_key : gmap bytes (list Validator) -> option bytes).
Context (iter : gset BlockHash -> list BlockHash) (fuel : nat).
Definition get_snapshot (storage : BlockDagKeyValueStorage) (later : BlockDagKeyValueStorage -> BlockDagKeyValueStorage) :
  ST CasperCaches (option (res CasperError CasperSnapshot)) := fun c =>
  match get_representation (E:=KvStoreError) storage with
  | Err e => (Some (Err (KvStore e)), c)
  | Panic => (Some Panic, c)
  | Ok dag =>
    let idx := metas_of storage in
    let parents := selected_parents store conf approved_block iter dag idx in
    match snapshot_lca approved_block fuel dag idx parents with
    | None => (None, c)
    | Some (Err e) => (Some (Err (KvStore e)), c)
    | Some Panic => (Some Panic, c)
    | Some (Ok lca) =>
      match head parents with
      | None => (Some Panic, c)
      | Some first =>
        match get_on_chain_state get_active_validators first_key first c with
        | (Err e, c) => (Some (Err e), c)
        | (Panic, c) => (Some Panic, c)
        | (Ok on_chain_state, c) =>
          match lookups_unsafe dag idx (block_hash <$> parents) with
          | Err e => (Some (Err (KvStore e)), c)
          | Panic => (Some Panic, c)
          | Ok parent_metas =>
            let max_block_num := max_block_number_metadata parent_metas in
            let max_seq_nums := snapshot_seq_nums dag idx in
            let storage := later storage in
            let current_dag_generation := dag_generation storage in
            match scope_with_cache store conf fuel dag (metas_of storage) current_dag_generation parent_metas max_block_num c with
            | (None, c) => (None, c)
            | (Some (Err e), c) => (Some (Err e), c)
            | (Some Panic, c) => (Some Panic, c)
            | (Some (Ok (deploys_in_scope, rejected_in_scope)), c) =>
              (Some (Ok (mkSnapshot (r_last_finalized_block_hash dag) lca (block_hash <$> parents) parents
                 (snapshot_justifications dag on_chain_state) (invalid_blocks_map dag) deploys_in_scope rejected_in_scope
                 max_block_num max_seq_nums on_chain_state)), c)
            end
          end
        end
      end
    end
  end.
End get_snapshot.

(** ** Greatest elements *)

Lemma max_by_spec {A} (cmp : A -> A -> comparison) `{!CmpPreorder cmp} (l : list A) :
  match max_by cmp l with
  | Some m => m ∈ l /\ forall x, x ∈ l -> cmp_le cmp x m
  | None => l = []
  end.
Proof.
  unfold max_by. induction l as [|x l IH] using rev_ind; [done|]. rewrite foldl_snoc.
  destruct (foldl _ None l) as [y|].
  - destruct IH as [Hy Hmax]. destruct (cmp y x) eqn:E.
    + split; [set_solver|]. intros z [Hz| ->%list_elem_of_singleton]%elem_of_app; [|by apply cmp_le_refl].
      apply (cmp_le_trans cmp z y x); [by apply Hmax|]. unfold cmp_le. congruence.
    + split; [set_solver|]. intros z [Hz| ->%list_elem_of_singleton]%elem_of_app; [|by apply cmp_le_refl].
      apply (cmp_le_trans cmp z y x); [by apply Hmax|]. unfold cmp_le. congruence.
    + split; [set_solver|]. intros z [Hz| ->%list_elem_of_singleton]%elem_of_app; [by apply Hmax|].
      by apply cmp_Gt_le.
  - subst l. split; [set_solver|]. intros z ->%list_elem_of_singleton. by apply cmp_le_refl.
Qed.
Lemma max_number_spec (l : list Z) :
  match max_number l with Some m => m ∈ l /\ forall x, x ∈ l -> x <= m | None => l = [] end.
Proof.
  unfold max_number. induction l as [|x l IH] using rev_ind; [done|]. rewrite foldl_snoc.
  destruct (foldl _ None l) as [y|].
  - destruct IH as [Hy Hmax]. split.
    + rewrite elem_of_app, list_elem_of_singleton. destruct (Z.max_spec y x) as [[_ ->]|[_ ->]]; auto.
    + intros z [Hz%Hmax| ->%list_elem_of_singleton]%elem_of_app; lia.
  - subst l. split; [set_solver|]. intros z ->%list_elem_of_singleton. lia.
Qed.
Lemma max_number_eq (l : list Z) m : m ∈ l -> (forall x, x ∈ l -> x <= m) -> max_number l = Some m.
Proof.
  intros Hm Hmax. pose proof (max_number_spec l) as Hs. destruct (max_number l) as [y|].
  - destruct Hs as [Hy Hle]. f_equal. apply Z.le_antisymm; auto.
  - subst. by apply elem_of_nil in Hm.
Qed.
Lemma max_number_perm (l k : list Z) : l ≡ₚ k -> max_number l = max_number k.
Proof.
  intros Hp. pose proof (max_number_spec k) as Hs. destruct (max_number k) as [m|].
  - destruct Hs as [Hm Hle]. apply max_number_eq; [by rewrite Hp|]. intros x. rewrite Hp. auto.
  - subst k. symmetry in Hp. apply Permutation_nil in Hp. by subst.
Qed.

(** ** The order of the parents *)

(** Blocks at the tip are compared as blocks of the same height. *)
Definition parent_key (top : Z) (b : BlockMessage) : Z * BlockHash := (- Z.min (number_of b) top, block_hash b).
Lemma parent_cmp_key top a b : parent_cmp top a b = num_cmp (parent_key top a) (parent_key top b).
Proof.
  unfold parent_cmp, num_cmp, pair_cmp, parent_key, near_tip_tolerance_blocks, saturating_sub_i64, i64_min, i64_max. cbn [fst snd].
  rewrite Z.compare_opp.
  destruct (bool_decide_reflect (Z.max (- 2 ^ 63) (Z.min (2 ^ 63 - 1) (top - number_of a)) <= 0)) as [Ha|Ha],
    (bool_decide_reflect (Z.max (- 2 ^ 63) (Z.min (2 ^ 63 - 1) (top - number_of b)) <= 0)) as [Hb|Hb]; cbn [andb].
  - rewrite !Z.min_r, Z.compare_refl by lia. done.
  - rewrite (Z.min_r (number_of a)), (Z.min_l (number_of b)) by lia.
    rewrite (proj2 (Z.compare_lt_iff (number_of b) (number_of a))), (proj2 (Z.compare_lt_iff (number_of b) top)) by lia. done.
  - rewrite (Z.min_l (number_of a)), (Z.min_r (number_of b)) by lia.
    rewrite (proj2 (Z.compare_gt_iff (number_of b) (number_of a))), (proj2 (Z.compare_gt_iff top (number_of a))) by lia. done.
  - rewrite !Z.min_l by lia. by destruct (number_of b ?= number_of a).
Qed.
#[global] Instance parent_cmp_preorder top : CmpPreorder (parent_cmp top).
Proof.
  destruct (cmp_on_preorder (parent_key top) num_cmp) as [H1 H2]. split.
  - intros x y. rewrite !parent_cmp_key. apply H1.
  - intros x y z. unfold cmp_le in *. rewrite !parent_cmp_key. apply H2.
Qed.
Definition newest_key (b : BlockMessage) : Z * BlockHash := (number_of b, block_hash b).
#[global] Instance newest_cmp_preorder : CmpPreorder newest_cmp := cmp_on_preorder newest_key num_cmp.

(** ** Which blocks become parents *)

Definition precedes (a b : BlockMessage) : Prop :=
  number_of b < number_of a \/ (number_of a = number_of b /\ bytes_cmp (block_hash a) (block_hash b) = Lt).
Lemma precedes_number a b : precedes a b -> number_of b <= number_of a.
Proof. intros [?|[? _]]; lia. Qed.
Lemma StronglySorted_filter_blocks (P : BlockMessage -> Prop) `{!forall x, Decision (P x)} l :
  StronglySorted precedes l -> StronglySorted precedes (filter P l).
Proof.
  induction 1 as [|x l Hs IH Hf]; [apply SSorted_nil|]. rewrite filter_cons. case_decide; [|done].
  apply SSorted_cons; [done|]. rewrite Forall_forall in *. intros y [_ Hy]%list_elem_of_filter. auto.
Qed.

Section parents.
Context (store : BlockStore) (conf : ShardConf) (approved_block : BlockMessage).
Context (dag : KeyValueDagRepresentation) (idx : gmap BlockHash BlockMetadata).
(** The block of a valid latest message *)
Definition candidate (b : BlockMessage) : Prop :=
  bs_get store (block_hash b) = Ok (Some b) /\
  exists v, valid_latest dag (r_latest_messages_map dag) !! v = Some (block_hash b).
Definition newest (n : BlockMessage) : Prop := candidate n /\ forall b, candidate b -> cmp_le newest_cmp b n.
Definition eligible (n b : BlockMessage) : Prop :=
  candidate b /\ bonds_of b = bonds_of n /\
  (c_max_parent_depth conf = i32_max \/ number_of n - number_of b <= c_max_parent_depth conf).
Record parents_of (n : BlockMessage) (parents : list BlockMessage) : Prop := {
  po_main : exists main, head parents = Some main /\ number_of main = number_of n;
  po_sorted : StronglySorted precedes parents;
  po_eligible : forall b, b ∈ parents -> eligible n b;
  po_limit : 0 <= c_max_number_of_parents conf -> Z.of_nat (length parents) <= c_max_number_of_parents conf;
  po_all : forall b, eligible n b -> b ∈ parents \/
    (Z.of_nat (length parents) = c_max_number_of_parents conf /\ forall p, p ∈ parents -> precedes p b);
}.
Definition parents_spec (parents : list BlockMessage) : Prop :=
  ((forall b, ~ candidate b) /\ parents = [approved_block]) \/ exists n, newest n /\ parents_of n parents.

(** The DAG and the block store agree on the blocks of the latest messages. *)
Record blocks_known : Prop := {
  bk_hash : forall h b, bs_get store h = Ok (Some b) -> block_hash b = h;
  bk_meta : forall b, candidate b -> exists md,
    lookup_unsafe dag idx (block_hash b) = Ok md /\ m_block_number md = number_of b;
  bk_range : forall b, candidate b -> 0 <= number_of b <= i64_max;
}.
Hypothesis known : blocks_known.
Hypothesis some_parent : c_max_number_of_parents conf <> 0.
Hypothesis depth_nonneg : 0 <= c_max_parent_depth conf.
Context (iter : gset BlockHash -> list BlockHash).
Hypothesis iter_perm : forall s, iter s ≡ₚ elements s.

Abbreviation blocks := (parent_blocks_list store iter dag).
Lemma blocks_elem b : b ∈ blocks <-> candidate b.
Proof.
  unfold parent_blocks_list. rewrite list_elem_of_omap. split.
  - intros (h & Hh & Hb). rewrite iter_perm, elem_of_elements, elem_of_list_to_set, list_elem_of_fmap in Hh.
    destruct Hh as ([v h'] & -> & Hv%elem_of_map_to_list). cbn in Hb |- *.
    destruct (bs_get store h') as [[b'|]| |] eqn:Hg; try done. injection Hb as ->.
    pose proof (bk_hash known _ _ Hg) as <-. split; [done|]. by exists v.
  - intros [Hg [v Hv]]. exists (block_hash b). rewrite Hg. split; [|done].
    rewrite iter_perm, elem_of_elements, elem_of_list_to_set, list_elem_of_fmap.
    exists (v, block_hash b). split; [done|]. by apply elem_of_map_to_list.
Qed.
Lemma blocks_hashes : NoDup (block_hash <$> blocks).
Proof.
  unfold parent_blocks_list.
  match goal with |- NoDup (_ <$> omap ?f (iter ?s)) =>
    assert (NoDup (iter s)) as Hnd by (rewrite iter_perm; apply NoDup_elements);
    induction Hnd as [|h l Hh _ IH]; [constructor|]; cbn [omap list_omap] end.
  destruct (bs_get store h) as [[b|]| |] eqn:Hg; [|done..]. cbn [fmap list_fmap]. apply NoDup_cons. split; [|done].
  intros (b' & Heq & (h' & Hh' & Hb')%list_elem_of_omap)%list_elem_of_fmap.
  destruct (bs_get store h') as [[b''|]| |] eqn:Hg'; try done. injection Hb' as ->.
  apply (bk_hash known) in Hg, Hg'. congruence.
Qed.
Abbreviation top := (default 0 (max_number (number_of <$> blocks))).
Abbreviation sorted := (sorted_parents_list store iter dag).
Lemma top_bound b : candidate b -> number_of b <= top.
Proof.
  intros Hb%blocks_elem. pose proof (max_number_spec (number_of <$> blocks)) as Hs.
  destruct (max_number _) as [m|]; cbn.
  - apply Hs, list_elem_of_fmap. eauto.
  - apply fmap_nil_inv in Hs. rewrite Hs in Hb. by apply elem_of_nil in Hb.
Qed.
Lemma same_hash a b : candidate a -> candidate b -> block_hash a = block_hash b -> a = b.
Proof. intros [Ha _] [Hb _] Heq. rewrite Heq in Ha. congruence. Qed.
Lemma sorted_elem b : b ∈ sorted <-> candidate b.
Proof. unfold sorted_parents_list. by rewrite elem_of_sort_by, blocks_elem. Qed.
Lemma sorted_precedes : StronglySorted precedes sorted.
Proof.
  assert (NoDup sorted) as Hnd.
  { unfold sorted_parents_list. rewrite sort_by_perm. apply (NoDup_fmap_1 block_hash), blocks_hashes. }
  pose proof (sort_by_sorted (parent_cmp top) blocks) as Hs.
  assert (forall b, b ∈ sorted -> candidate b) as Hc by (intros b; apply sorted_elem).
  unfold sorted_parents_list in *. cbn zeta in *. revert Hnd Hc.
  induction Hs as [|x l Hs IH Hf]; intros Hnd Hc; [apply SSorted_nil|].
  apply NoDup_cons in Hnd as [Hx Hnd]. apply SSorted_cons; [apply IH; [done|]; intros b Hb; apply Hc; by right|].
  rewrite Forall_forall in Hf |- *. intros y Hy. specialize (Hf y Hy).
  assert (candidate x) as Hcx by (apply Hc; left). assert (candidate y) as Hcy by (apply Hc; by right).
  pose proof (top_bound x Hcx). pose proof (top_bound y Hcy).
  unfold cmp_le in Hf. rewrite parent_cmp_key in Hf. unfold num_cmp, pair_cmp, parent_key in Hf. cbn [fst snd] in Hf.
  rewrite Z.compare_opp, !Z.min_l in Hf by done. unfold precedes.
  destruct (Z.compare_spec (number_of y) (number_of x)) as [Heq|Hlt|Hgt]; cbn in Hf; [|by left|done].
  right. split; [done|]. destruct (bytes_cmp (block_hash x) (block_hash y)) eqn:E; [exfalso|done|done].
  apply (cmp_eq bytes_cmp) in E. assert (x = y) as -> by by apply same_hash. done.
Qed.

(** The blocks with the bonds of the newest one, and those that the limit leaves *)
Lemma newest_found : (sorted = [] /\ forall b, ~ candidate b) \/
  exists n, max_by newest_cmp sorted = Some n /\ newest n.
Proof.
  pose proof (max_by_spec newest_cmp sorted) as Hs. destruct (max_by newest_cmp sorted) as [n|].
  - right. exists n. destruct Hs as [Hn Hmax]. split; [done|]. split; [by apply sorted_elem|].
    intros b Hb%sorted_elem. by apply Hmax.
  - left. split; [done|]. intros b Hb%sorted_elem. rewrite Hs in Hb. by apply elem_of_nil in Hb.
Qed.
Lemma newest_number n b : newest n -> candidate b -> number_of b <= number_of n.
Proof.
  intros [_ Hn] Hb%Hn. unfold cmp_le, newest_cmp in Hb.
  destruct (Z.compare_spec (number_of b) (number_of n)); [lia|lia|done].
Qed.
(** Cutting by depth, in terms of the blocks themselves *)
Lemma depth_cut n h l :
  newest n -> number_of h = number_of n -> h ∈ l -> (forall b, b ∈ l -> candidate b) ->
  let with_metas := omap (with_meta dag idx) l in
  let max_block_num := default 0 (max_number ((fun bm => m_block_number bm.2) <$> with_metas)) in
  (filter (fun bm => wrap_i64 (max_block_num - m_block_number bm.2) <= c_max_parent_depth conf) with_metas).*1 =
  filter (fun b => number_of n - number_of b <= c_max_parent_depth conf) l.
Proof.
  intros Hn Hh Hin Hc. cbn zeta.
  assert (forall b, b ∈ l -> exists md, with_meta dag idx b = Some (b, md) /\ m_block_number md = number_of b) as Hm.
  { intros b Hb. destruct (bk_meta known b (Hc b Hb)) as (md & Hmd & Hnum). exists md. unfold with_meta. by rewrite Hmd. }
  assert ((fun bm => m_block_number bm.2) <$> omap (with_meta dag idx) l = number_of <$> l) as ->.
  { clear Hin Hc. induction l as [|b l IH]; [done|]. cbn [omap list_omap fmap list_fmap].
    destruct (Hm b) as (md & -> & Hnum); [left|]. cbn. f_equal; [done|]. apply IH. intros b' Hb'. apply Hm. by right. }
  rewrite (max_number_eq _ (number_of n)).
  2:{ rewrite <-Hh. by apply list_elem_of_fmap_2. }
  2:{ intros x (b & -> & Hb)%list_elem_of_fmap. apply (newest_number n b Hn), Hc, Hb. }
  cbn [from_option id]. unfold id. clear Hin. induction l as [|b l IH]; [done|]. cbn [omap list_omap].
  destruct (Hm b) as (md & -> & Hnum); [left|]. rewrite !filter_cons. cbn [snd]. rewrite Hnum.
  assert (candidate b) as Hb by (apply Hc; left).
  pose proof (bk_range known b Hb). pose proof (bk_range known n (proj1 Hn)).
  rewrite (wrap_i64_id (number_of n - number_of b)) by (unfold i64_range, i64_min, i64_max in *; lia).
  case_decide; [|apply IH; intros; [apply Hc|apply Hm]; by right].
  cbn [fmap list_fmap fst]. f_equal. apply IH; intros; [apply Hc|apply Hm]; by right.
Qed.

Abbreviation bonded n := (filter (fun b => bonds_of b = bonds_of n) sorted).
Lemma bonded_head n : newest n -> exists h l, bonded n = h :: l /\ number_of h = number_of n.
Proof.
  intros Hn. pose proof (StronglySorted_filter_blocks (fun b => bonds_of b = bonds_of n) _ sorted_precedes) as Hs.
  assert (n ∈ bonded n) as Hin by (apply list_elem_of_filter; split; [done|]; apply sorted_elem, Hn).
  assert (forall b, b ∈ bonded n -> candidate b) as Hc by (intros b [_ Hb%sorted_elem]%list_elem_of_filter; done).
  destruct (bonded n) as [|h l]; [by apply elem_of_nil in Hin|]. exists h, l. split; [done|].
  apply Z.le_antisymm; [apply newest_number; [done|]; apply Hc; left|].
  apply elem_of_cons in Hin as [->|Hin]; [done|]. apply StronglySorted_inv in Hs as [_ Hf].
  rewrite Forall_forall in Hf. by apply precedes_number, Hf.
Qed.
(** The first [k] of a sorted list that has the height of the newest first, cut by depth *)
Lemma cut_parents n l h rest parents :
  newest n -> l = h :: rest -> number_of h = number_of n -> StronglySorted precedes l ->
  (forall b, b ∈ l <-> candidate b /\ bonds_of b = bonds_of n) ->
  let kept := if decide (c_max_number_of_parents conf = UNLIMITED_PARENTS) then l
              else take_i32 (c_max_number_of_parents conf) l in
  parents = (if decide (c_max_parent_depth conf <> i32_max /\ (1 < length kept)%nat)
             then filter (fun b => number_of n - number_of b <= c_max_parent_depth conf) kept else kept) ->
  parents_of n parents.
Proof.
  intros Hn Hl Hh Hs Hel kept ->.
  assert (exists k, kept = take (S k) l /\ (0 <= c_max_number_of_parents conf -> Z.of_nat (S k) = c_max_number_of_parents conf) /\
    (c_max_number_of_parents conf < 0 -> kept = l)) as (k & Hk & Hlim & Hneg).
  { unfold kept, take_i32, UNLIMITED_PARENTS. repeat case_decide.
    - exists (length l). rewrite take_ge by lia. split_and!; [done|lia|done].
    - exists (length l). rewrite take_ge by lia. split_and!; [done|lia|done].
    - exists (pred (Z.to_nat (c_max_number_of_parents conf))). split_and!; [f_equal; lia|lia|lia]. }
  clearbody kept.
  assert (StronglySorted precedes kept) as Hsk.
  { rewrite <-(take_drop (S k) l) in Hs. apply StronglySorted_app_1_l in Hs. by rewrite Hk. }
  assert (forall b, b ∈ kept -> b ∈ l) as Hsub.
  { intros b. rewrite Hk. intros Hb. rewrite <-(take_drop (S k) l). apply elem_of_app. by left. }
  assert (head kept = Some h) as Hhead by (by rewrite Hk, Hl).
  set (near := fun b => number_of n - number_of b <= c_max_parent_depth conf).
  assert (forall b, b ∈ l -> b ∈ kept \/
    (Z.of_nat (length kept) = c_max_number_of_parents conf /\ forall p, p ∈ kept -> precedes p b)) as Hout.
  { intros b Hb. destruct (decide (c_max_number_of_parents conf < 0)); [left; by rewrite Hneg|].
    rewrite <-(take_drop (S k) l), elem_of_app, <-Hk in Hb. destruct Hb as [?|Hb]; [by left|right]. split.
    - rewrite Hk, length_take_le; [apply Hlim; lia|]. destruct (decide (S k <= length l)%nat); [done|].
      rewrite drop_ge in Hb by lia. by apply elem_of_nil in Hb.
    - intros p Hp. rewrite Hk in Hp. rewrite <-(take_drop (S k) l) in Hs.
      by apply (StronglySorted_app_1_elem_of precedes _ _ p b Hs). }
  assert (Hlen : 0 <= c_max_number_of_parents conf -> Z.of_nat (length kept) <= c_max_number_of_parents conf).
  { intros H0. rewrite <-(Hlim H0), Hk, length_take. lia. }
  assert (near h) as Hnear by (unfold near; lia).
  case_decide as Hd.
  - split.
    + exists h. split; [|done]. destruct kept as [|h' kept]; [done|]. injection Hhead as ->. by rewrite filter_cons, decide_True.
    + by apply StronglySorted_filter_blocks.
    + intros b [Hb Hin]%list_elem_of_filter. apply Hsub, Hel in Hin as [? ?]. split_and!; auto.
    + intros H0. specialize (Hlen H0). pose proof (length_filter near kept). unfold near in *. lia.
    + intros b (Hc & Hbonds & [?|Hdepth]); [tauto|].
      destruct (Hout b) as [Hb|[Hlk Hpre]]; [by apply Hel|left; by apply list_elem_of_filter|right].
      rewrite filter_everything; [done|]. intros p Hp%Hpre%precedes_number. unfold near. lia.
  - split.
    + exists h. done.
    + done.
    + intros b Hb. pose proof (Hsub b Hb) as [Hc Hbonds]%Hel. split_and!; [done..|].
      destruct (decide (c_max_parent_depth conf = i32_max)); [by left|right].
      assert (kept = [h]) as Hone by (destruct kept as [|h' [|x kept]]; cbn in *; [done|congruence|lia]).
      rewrite Hone in Hb. apply list_elem_of_singleton in Hb as ->. done.
    + done.
    + intros b (Hc & Hbonds & _). apply Hout. by apply Hel.
Qed.
Lemma selected_parents_spec : parents_spec (selected_parents store conf approved_block iter dag idx).
Proof.
  unfold selected_parents, parents_after_count_limit, unfiltered_parents, parents_spec.
  destruct newest_found as [[Hnil Hnone]|(n & Hmax & Hn)].
  - left. split; [done|]. rewrite Hnil. cbn [max_by foldl].
    assert ((if decide (c_max_number_of_parents conf = UNLIMITED_PARENTS) then [approved_block]
             else take_i32 (c_max_number_of_parents conf) [approved_block]) = [approved_block]) as Hone.
    { case_decide; [done|]. unfold take_i32. case_decide; [done|].
      destruct (Z.to_nat (c_max_number_of_parents conf)) eqn:E; [lia|]. cbn. by rewrite take_nil. }
    cbn. cbn in Hone. rewrite Hone. rewrite decide_False; [done|]. cbn. lia.
  - right. exists n. split; [done|]. rewrite Hmax. destruct (bonded_head n Hn) as (h & rest & Hb & Hh).
    eapply (cut_parents n _ h rest); [done|exact Hb|done| | |].
    + apply StronglySorted_filter_blocks, sorted_precedes.
    + intros b. rewrite list_elem_of_filter, sorted_elem. tauto.
    + cbn zeta. case_decide as Hd; [|done]. apply (depth_cut n h); [done|done| |].
      * rewrite Hb. unfold take_i32. repeat case_decide; [left|left|].
        destruct (Z.to_nat (c_max_number_of_parents conf)) eqn:E; [lia|]. left.
      * intros b Hin. assert (b ∈ bonded n) as [_ Hc%sorted_elem]%list_elem_of_filter; [|done].
        unfold take_i32 in Hin. revert Hin. repeat case_decide; [done|done|].
        intros Hin. rewrite <-(take_drop (Z.to_nat (c_max_number_of_parents conf)) (bonded n)). apply elem_of_app. by left.
Qed.
End parents.
(** The choice does not depend on the order in which the latest messages are read. *)
Lemma selected_parents_order store conf approved_block dag idx iter iter' :
  blocks_known store dag idx -> (forall s, iter s ≡ₚ elements s) -> (forall s, iter' s ≡ₚ elements s) ->
  selected_parents store conf approved_block iter' dag idx = selected_parents store conf approved_block iter dag idx.
Proof.
  intros Hk Hi Hi'. assert (sorted_parents_list store iter' dag = sorted_parents_list store iter dag) as Heq.
  { assert (parent_blocks_list store iter' dag ≡ₚ parent_blocks_list store iter dag) as Hp.
    { apply NoDup_Permutation; [eapply NoDup_fmap_1, blocks_hashes; eauto..|].
      intros b. by rewrite !(blocks_elem store dag idx Hk). }
    unfold sorted_parents_list. cbn zeta.
    assert (max_number (number_of <$> parent_blocks_list store iter' dag) = max_number (number_of <$> parent_blocks_list store iter dag)) as ->.
    { apply max_number_perm. by rewrite Hp. }
    apply (sort_by_unique_on _); [|done]. intros a b Ha Hb. rewrite parent_cmp_key.
    rewrite !(blocks_elem store dag idx Hk) in * by done.
    intros E%(cmp_eq num_cmp). unfold parent_key in E. injection E as _ E. by eapply same_hash. }
  unfold selected_parents, parents_after_count_limit, unfiltered_parents. by rewrite Heq.
Qed.

(** ** Breadth-first traversal *)

Section traversal.
Context {A : Type} `{EqDecision A} (neighbors : A -> list A) (universe start : list A).
Hypothesis universe_closed : forall x y, x ∈ universe -> y ∈ neighbors x -> y ∈ universe.
Hypothesis universe_nodup : NoDup universe.
Definition edge (x y : A) : Prop := y ∈ neighbors x.
Definition reached (x : A) : Prop := exists s, s ∈ start /\ rtc edge s x.
Definition open_edges (visited : list A) : nat :=
  sum_list (length ∘ neighbors <$> filter (.∉ visited) universe).
Lemma open_edges_visit (x : A) (visited : list A) : x ∈ universe -> x ∉ visited ->
  (length (neighbors x) + open_edges (visited ++ [x]) <= open_edges visited)%nat.
Proof.
  intros Hx Hv. unfold open_edges. clear universe_closed.
  induction universe_nodup as [|y l Hy Hnd IH]; [by apply elem_of_nil in Hx|]. rewrite !filter_cons.
  destruct (decide (y = x)) as [->|Hne].
  - rewrite decide_False by set_solver. rewrite decide_True by done. cbn. apply Nat.add_le_mono_l.
    replace (filter (.∉ visited ++ [x]) l) with (filter (.∉ visited) l); [done|].
    apply filter_same_on. intros z Hz. assert (z <> x) by (by intros ->). set_solver.
  - assert (x ∈ l) as Hxl by set_solver. specialize (IH Hnd Hxl).
    destruct (decide (y ∉ visited)) as [H1|H1].
    + rewrite decide_True by set_solver. cbn. unfold compose in *. lia.
    + rewrite decide_False by set_solver. done.
Qed.
Record traverse_inv (queue visited : list A) : Prop := {
  ti_nodup : NoDup visited;
  ti_known : forall x, x ∈ visited \/ x ∈ queue -> x ∈ universe /\ reached x;
  ti_start : forall x, x ∈ start -> x ∈ visited \/ x ∈ queue;
  ti_closed : forall x y, x ∈ visited -> edge x y -> y ∈ visited \/ y ∈ queue;
}.
Lemma traverse_loop_spec fuel queue visited :
  traverse_inv queue visited -> (length queue + open_edges visited < fuel)%nat ->
  exists l, traverse_loop neighbors fuel queue visited visited = Some l /\ NoDup l /\ forall x, x ∈ l <-> reached x.
Proof.
  revert queue visited. induction fuel as [|fuel IH]; intros queue visited [H1 H2 H3 H4] Hf; [lia|].
  cbn [traverse_loop]. destruct queue as [|x queue].
  - exists visited. split_and!; [done..|]. intros x. split; [intros Hx; apply H2; by left|].
    intros (s & Hs & Hr). assert (s ∈ visited) as Hsv by (destruct (H3 s Hs) as [?|Hn]; [done|by apply elem_of_nil in Hn]).
    clear Hs. induction Hr as [|s y x Hsy _ IHr]; [done|]. apply IHr.
    destruct (H4 s y Hsv Hsy) as [?|Hn]; [done|by apply elem_of_nil in Hn].
  - case_decide as Hv.
    + apply IH; [|cbn in Hf; lia]. split; [done|..].
      * intros y [Hy|Hy]; apply H2; [by left|right; by right].
      * intros y Hy. destruct (H3 y Hy) as [?|[->|?]%elem_of_cons]; auto.
      * intros y z Hy Hyz. destruct (H4 y z Hy Hyz) as [?|[->|?]%elem_of_cons]; auto.
    + destruct (H2 x) as [Hu Hr]; [right; left|]. apply IH; [split|].
      * apply NoDup_app. split_and!; [done|set_solver|apply NoDup_singleton].
      * intros y. rewrite !elem_of_app, list_elem_of_singleton, list_elem_of_filter.
        intros [[Hy| ->]|[Hy|[_ Hy]]]; [apply H2; by left|done|apply H2; right; by right|].
        split; [by apply (universe_closed x)|]. destruct Hr as (s & Hs & Hr). exists s. split; [done|]. by eapply rtc_r.
      * intros y Hy. rewrite !elem_of_app, list_elem_of_singleton. destruct (H3 y Hy) as [?|[->|?]%elem_of_cons]; auto.
      * intros y z Hy Hyz. rewrite !elem_of_app, list_elem_of_filter, elem_of_app, list_elem_of_singleton in *.
        destruct (decide (z ∈ visited \/ z = x)) as [?|Hz]; [tauto|]. destruct Hy as [Hy| ->]; [|tauto].
        destruct (H4 y z Hy Hyz) as [?|[->|?]%elem_of_cons]; tauto.
      * pose proof (open_edges_visit x visited Hu Hv). rewrite length_app. cbn [length] in Hf.
        pose proof (length_filter (.∉ visited ++ [x]) (neighbors x)). lia.
Qed.
Lemma bf_traverse_spec fuel :
  (forall x, x ∈ start -> x ∈ universe) -> (length start + sum_list (length ∘ neighbors <$> universe) < fuel)%nat ->
  exists l, bf_traverse neighbors fuel start = Some l /\ NoDup l /\ forall x, x ∈ l <-> reached x.
Proof.
  intros Hs Hf. apply traverse_loop_spec; [split|].
  - apply NoDup_nil_2.
  - intros x [Hx|Hx]; [by apply elem_of_nil in Hx|]. split; [auto|]. exists x. split; [done|apply rtc_refl].
  - auto.
  - intros x y Hx. by apply elem_of_nil in Hx.
  - unfold open_edges. replace (filter (.∉ []) universe) with universe; [done|].
    symmetry. clear. induction universe as [|x l IH]; [done|]. rewrite filter_cons, decide_True by (by intros ?%elem_of_nil).
    by f_equal.
Qed.
End traversal.

(** ** The deploys in scope *)

Section scope.
Context (store : BlockStore) (idx : gmap BlockHash BlockMetadata).
Definition recent_parent (earliest : Z) (h p : BlockHash) : Prop :=
  exists md mdp, idx !! h = Some md /\ p ∈ m_parents md /\ idx !! p = Some mdp /\ earliest <= m_block_number mdp.
(** The blocks that recent parents lead to *)
Definition in_scope (starts : list BlockHash) (earliest : Z) (h : BlockHash) : Prop :=
  exists s, s ∈ starts /\ rtc (recent_parent earliest) s h.
Record exact_scope (starts : list BlockHash) (earliest : Z) (deploys rejected : Sigs) : Prop := {
  es_deploys : forall sig, sig ∈ deploys <->
    exists h l, in_scope starts earliest h /\ bs_deploy_sigs store h = Ok (Some l) /\ sig ∈ l;
  es_rejected : forall sig, sig ∈ rejected <->
    exists h l, in_scope starts earliest h /\ bs_rejected_deploy_sigs store h = Ok (Some l) /\ sig ∈ l;
}.
Definition sigs_stored (h : BlockHash) : Prop :=
  (exists l, bs_deploy_sigs store h = Ok (Some l)) /\ exists o, bs_rejected_deploy_sigs store h = Ok o.
Lemma add_all_sigs (l : list BlockMetadata) (acc : Sigs * Sigs) :
  (forall md, md ∈ l -> sigs_stored (m_block_hash md)) ->
  exists D R, res_foldM (add_block_sigs store) acc l = Ok (D, R) /\
    (forall sig, sig ∈ D <-> sig ∈ acc.1 \/ exists md k, md ∈ l /\ bs_deploy_sigs store (m_block_hash md) = Ok (Some k) /\ sig ∈ k) /\
    (forall sig, sig ∈ R <-> sig ∈ acc.2 \/ exists md k, md ∈ l /\ bs_rejected_deploy_sigs store (m_block_hash md) = Ok (Some k) /\ sig ∈ k).
Proof.
  revert acc. induction l as [|md l IH]; intros [D0 R0] Hl.
  { exists D0, R0. split; [done|]. split; intros sig; (split; [by left|]); intros [?|(? & ? & Hn & _)]; [done|by apply elem_of_nil in Hn|done|by apply elem_of_nil in Hn]. }
  destruct (Hl md) as [[k Hk] [o Ho]]; [left|]. cbn [res_foldM].
  assert (forall md', md' ∈ l -> sigs_stored (m_block_hash md')) as Hl' by (intros md' ?; apply Hl; by right).
  set (R1 := match o with Some r => list_to_set r ∪ R0 | None => R0 end : Sigs).
  assert (add_block_sigs store (D0, R0) md = Ok (list_to_set k ∪ D0, R1)) as ->.
  { unfold add_block_sigs, R1. rewrite Hk, Ho. by destruct o. }
  destruct (IH (list_to_set k ∪ D0, R1) Hl') as (D & R & Heq & HD & HR). exists D, R.
  split; [done|]. cbn [fst snd] in *. split; intros sig.
  - rewrite HD, elem_of_union, elem_of_list_to_set. split.
    + intros [[?|?]|(md' & k' & ? & ? & ?)]; [right; exists md, k; set_solver|by left|right; exists md', k'; set_solver].
    + intros [?|(md' & k' & [->|?]%elem_of_cons & Hk' & ?)]; [tauto| |right; eauto].
      rewrite Hk in Hk'. injection Hk' as <-. tauto.
  - rewrite HR. assert (sig ∈ R1 <-> sig ∈ R0 \/ exists r, o = Some r /\ sig ∈ r) as ->.
    { unfold R1. destruct o as [r|]; [rewrite elem_of_union, elem_of_list_to_set|]; naive_solver. }
    split.
    + intros [[?|(r & -> & ?)]|(md' & k' & ? & ? & ?)]; [by left|right; exists md, r; set_solver|right; exists md', k'; set_solver].
    + intros [?|(md' & k' & [->|?]%elem_of_cons & Hk' & ?)]; [tauto| |right; eauto].
      rewrite Ho in Hk'. injection Hk' as ->. left. right. eauto.
Qed.
End scope.

Section exact.
Context (store : BlockStore) (conf : ShardConf) (genesis : BlockHash).
Context (dag : KeyValueDagRepresentation) (idx : gmap BlockHash BlockMetadata).
Hypothesis wf : fork_dag dag idx genesis.

Lemma neighbor_fn_spec earliest md : stored_block dag idx md ->
  (length (neighbor_fn dag idx earliest md) <= length (m_parents md))%nat /\
  forall p, p ∈ neighbor_fn dag idx earliest md <->
    stored_block dag idx p /\ recent_parent idx earliest (m_block_hash md) (m_block_hash p).
Proof.
  intros Hmd. unfold neighbor_fn, get_parent_metadatas_above_block_number.
  destruct (lookups_known dag idx genesis wf (m_parents md)) as (mds & -> & Hst & Hps).
  { intros p Hp. by destruct (stored_parent dag idx genesis wf md p Hmd Hp) as (mp & [Hin _] & <- & _). }
  cbn [res_bind]. rewrite Forall_forall in Hst. split.
  { rewrite <-Hps, length_fmap. apply length_filter. }
  intros p. rewrite list_elem_of_filter. split.
  - intros [Hn Hp]. pose proof (Hst p Hp) as Hsp. split; [done|]. exists md, p.
    split_and!; [apply Hmd| |apply Hsp|done]. rewrite <-Hps. by apply list_elem_of_fmap_2.
  - intros [Hsp (md' & p' & Hmd' & Hp & Hp' & Hn)]. destruct Hmd as [_ Hmd]. rewrite Hmd in Hmd'. injection Hmd' as <-.
    destruct Hsp as [Hin Hsp]. rewrite Hsp in Hp'. injection Hp' as <-. split; [done|].
    rewrite <-Hps in Hp. apply list_elem_of_fmap in Hp as (q & Heq & Hq).
    by assert (p = q) as -> by (apply (stored_inj dag idx); [by split|by apply Hst|done]).
Qed.
Definition stored_blocks : list BlockMetadata := omap (fun h => idx !! h) (elements (r_dag_set dag)).
Lemma stored_blocks_elem md : md ∈ stored_blocks <-> stored_block dag idx md.
Proof.
  unfold stored_blocks. rewrite list_elem_of_omap. split.
  - intros (h & Hh%elem_of_elements & Hmd). destruct (fd_stored _ _ _ wf h Hh) as (md' & Hmd' & <- & _).
    rewrite Hmd' in Hmd. injection Hmd as ->. by split.
  - intros [Hin Hmd]. exists (m_block_hash md). by rewrite elem_of_elements.
Qed.
Lemma stored_blocks_nodup : NoDup stored_blocks.
Proof.
  unfold stored_blocks. pose proof (NoDup_elements (r_dag_set dag)) as Hnd.
  assert (forall h, h ∈ elements (r_dag_set dag) -> h ∈ r_dag_set dag) as Hl by (intros h; apply elem_of_elements).
  induction Hnd as [|h l Hh _ IH]; [apply NoDup_nil_2|]. cbn [omap list_omap].
  assert (forall h', h' ∈ l -> h' ∈ r_dag_set dag) as Hl' by (intros; apply Hl; by right).
  destruct (idx !! h) as [md|] eqn:Hmd; [|auto]. apply NoDup_cons. split; [|auto].
  intros (h' & Hh' & Hmd')%list_elem_of_omap.
  destruct (fd_stored _ _ _ wf h) as (m1 & H1 & <- & _); [apply Hl; left|].
  destruct (fd_stored _ _ _ wf h') as (m2 & H2 & <- & _); [by apply Hl'|]. congruence.
Qed.
Lemma stored_blocks_edges earliest :
  (sum_list (length ∘ neighbor_fn dag idx earliest <$> stored_blocks) <= out_edges idx (r_dag_set dag))%nat.
Proof.
  unfold stored_blocks, out_edges.
  assert (forall h, h ∈ elements (r_dag_set dag) -> h ∈ r_dag_set dag) as Hl by (intros h; apply elem_of_elements).
  induction (elements (r_dag_set dag)) as [|h l IH]; [done|]. cbn [omap list_omap fmap list_fmap].
  assert (forall h', h' ∈ l -> h' ∈ r_dag_set dag) as Hl' by (intros; apply Hl; by right). specialize (IH Hl').
  destruct (stored_of dag idx genesis wf h) as (md & Hmd & <-); [apply Hl; left|].
  pose proof Hmd as [_ Hlook]. rewrite Hlook. cbn. destruct (neighbor_fn_spec earliest md Hmd) as [Hlen _].
  apply Nat.add_le_mono; [exact Hlen|exact IH].
Qed.
Lemma reached_scope earliest (starts : list BlockMetadata) h : Forall (stored_block dag idx) starts ->
  (exists md, m_block_hash md = h /\ reached (neighbor_fn dag idx earliest) starts md) <->
  in_scope idx (m_block_hash <$> starts) earliest h.
Proof.
  intros Hst. rewrite Forall_forall in Hst. split.
  - intros (md & <- & s & Hs & Hr). exists (m_block_hash s). split; [by apply list_elem_of_fmap_2|].
    specialize (Hst s Hs). clear Hs. induction Hr as [|x y z Hxy _ IH]; [apply rtc_refl|].
    apply neighbor_fn_spec in Hxy as [Hy Hp]; [|done]. eapply rtc_l; [exact Hp|by apply IH].
  - intros (h0 & (s & -> & Hs)%list_elem_of_fmap & Hr). specialize (Hst s Hs) as Hss.
    assert (forall a b, rtc (recent_parent idx earliest) a b -> forall m, stored_block dag idx m -> m_block_hash m = a ->
      exists md, m_block_hash md = b /\ rtc (edge (neighbor_fn dag idx earliest)) m md) as Hgo.
    { clear -wf. intros a b Hr. induction Hr as [|a p b Hap _ IH]; intros m Hm <-; [exists m; split; [done|apply rtc_refl]|].
      assert (exists mp, stored_block dag idx mp /\ m_block_hash mp = p) as (mp & Hmp & <-).
      { destruct Hap as (m' & mp & Hm' & Hp & _). destruct Hm as [Hin Hm]. rewrite Hm in Hm'. injection Hm' as <-.
        destruct (stored_parent dag idx genesis wf m p) as (q & Hq & <- & _); [by split|done|]. by exists q. }
      destruct (IH mp Hmp eq_refl) as (md & <- & Hr). exists md. split; [done|].
      eapply rtc_l; [|exact Hr]. apply neighbor_fn_spec; done. }
    destruct (Hgo _ _ Hr s Hss eq_refl) as (md & <- & Hr'). exists md. split; [done|]. by exists s.
Qed.
Lemma compute_scope_exact fuel (metas : list BlockMetadata) max_num :
  Forall (stored_block dag idx) metas -> (forall h, h ∈ r_dag_set dag -> sigs_stored store h) ->
  (length metas + out_edges idx (r_dag_set dag) < fuel)%nat ->
  exists D R, compute_scope store conf fuel dag idx metas max_num = Some (Ok (D, R)) /\
    exact_scope store idx (m_block_hash <$> metas) (earliest_block_number conf max_num) D R.
Proof.
  intros Hst Hsigs Hf. unfold compute_scope. set (e := earliest_block_number conf max_num).
  destruct (bf_traverse_spec (neighbor_fn dag idx e) stored_blocks metas) with (fuel := fuel) as (l & -> & _ & Hl).
  - intros x y Hx%stored_blocks_elem Hy. apply neighbor_fn_spec in Hy as [Hy _]; [|done]. by apply stored_blocks_elem.
  - apply stored_blocks_nodup.
  - intros x Hx. rewrite Forall_forall in Hst. by apply stored_blocks_elem, Hst.
  - pose proof (stored_blocks_edges e). lia.
  - cbn. pose proof (reached_scope e metas) as Hsc.
    assert (forall md, md ∈ l -> stored_block dag idx md) as Hls.
    { intros md (s & Hs & Hr)%Hl. rewrite Forall_forall in Hst. specialize (Hst s Hs). clear Hs.
      induction Hr as [|x y z Hxy _ IH]; [done|]. apply neighbor_fn_spec in Hxy as [Hy _]; [auto|done]. }
    destruct (add_all_sigs store l (∅, ∅)) as (D & R & -> & HD & HR).
    { intros md Hmd. by apply Hsigs, Hls. }
    exists D, R. split; [done|]. split; intros sig; [rewrite HD|rewrite HR]; cbn [fst snd]; rewrite elem_of_empty.
    + split.
      * intros [[]|(md & k & Hmd & Hk & Hin)]. exists (m_block_hash md), k. split_and!; [|done..].
        apply Hsc; [done|]. exists md. split; [done|]. by apply Hl.
      * intros (h & k & Hh & Hk & Hin). apply Hsc in Hh as (md & <- & Hr); [|done]. right. exists md, k.
        split_and!; [by apply Hl|done..].
    + split.
      * intros [[]|(md & k & Hmd & Hk & Hin)]. exists (m_block_hash md), k. split_and!; [|done..].
        apply Hsc; [done|]. exists md. split; [done|]. by apply Hl.
      * intros (h & k & Hh & Hk & Hin). apply Hsc in Hh as (md & <- & Hr); [|done]. right. exists md, k.
        split_and!; [by apply Hl|done..].
Qed.
End exact.

(** ** How the storage evolves *)

(** What a snapshot reads of a block does not change when the block is finalized. *)
Definition seen (md : BlockMetadata) := (m_block_hash md, m_parents md, m_block_number md).
Definition keyed (s : BlockDagKeyValueStorage) : Prop := forall h md, metas_of s !! h = Some md -> m_block_hash md = h.
Record same_view (s s' : BlockDagKeyValueStorage) : Prop := {
  sv_latest : latest_messages_index s' = latest_messages_index s;
  sv_invalid : invalid_blocks_index s' = invalid_blocks_index s;
  sv_set : dag_set (state_of s') = dag_set (state_of s);
  sv_seen : forall h, seen <$> metas_of s' !! h = seen <$> metas_of s !! h;
}.
(** The generation counts the changes that a snapshot sees. *)
Definition evolves (s s' : BlockDagKeyValueStorage) : Prop :=
  keyed s -> keyed s' /\
    (dag_generation s < dag_generation s' \/ (dag_generation s' = dag_generation s /\ same_view s s')).
Lemma same_view_refl s : same_view s s.
Proof. by split. Qed.
Lemma same_view_trans a b c : same_view a b -> same_view b c -> same_view a c.
Proof. intros [H1 H2 H3 H4] [K1 K2 K3 K4]. split; [congruence..|]. intros h. by rewrite K4. Qed.
Lemma evolves_refl s : evolves s s.
Proof. intros Hk. split; [done|right]. by split. Qed.
Lemma evolves_trans a b c : evolves a b -> evolves b c -> evolves a c.
Proof.
  intros Hab Hbc Ha. destruct (Hab Ha) as [Hb H1]. destruct (Hbc Hb) as [Hc H2]. split; [done|].
  destruct H1 as [H1|[H1 V1]], H2 as [H2|[H2 V2]]; [left; lia..|right]. split; [congruence|by eapply same_view_trans].
Qed.
Lemma evolves_seen s ms : dag_set (dag_state ms) = dag_set (state_of s) ->
  (keyed s -> forall h, seen <$> meta_store ms !! h = seen <$> metas_of s !! h) -> evolves s (with_metadata s ms).
Proof.
  intros Hset Hseen Hk. specialize (Hseen Hk). split; [|right; split; [done|by split]].
  intros h md Hmd. cbn in Hmd. specialize (Hseen h). rewrite Hmd in Hseen.
  destruct (metas_of s !! h) as [md'|] eqn:Hmd'; [|done]. injection Hseen as -> _ _. by apply Hk.
Qed.

Section evolve.
Context (iter_set : gset BlockHash -> list BlockHash) (debug_block : BlockMessage -> string).
Lemma record_finalized_evolves directly indirectly ft s :
  evolves s (with_metadata s (record_finalized iter_set directly indirectly ft (block_metadata_index s)).2).
Proof.
  apply evolves_seen; unfold record_finalized.
  - by destruct (_ <-! _; _) as [[]| |].
  - intros Hk. destruct (get_batch (metas_of s) (iter_set indirectly)) as [metas| |] eqn:Hb; [|done..]. cbn [res_bind].
    unfold get_unsafe. destruct (metas_of s !! directly) as [md|] eqn:Hmd; [|done]. cbn [res_bind snd meta_store].
    intros h. unfold put_metas. cbn [foldl fst snd].
    pose proof (put_metas_lookup (fun v => with_finalized v false ft) (metas_of s) (iter_set indirectly) metas
      (<[directly := with_finalized md true ft]> (metas_of s)) h Hk Hb) as Hp. unfold put_metas in Hp. rewrite Hp.
    case_decide; [by destruct (metas_of s !! h)|]. destruct (decide (h = directly)) as [->|Hne].
    + by rewrite lookup_insert_eq, Hmd.
    + by rewrite lookup_insert_ne.
Qed.
Lemma propagate_evolves ft s : evolves s (propagate_ft_to_finalized_blocks iter_set ft s).2.
Proof.
  unfold propagate_ft_to_finalized_blocks, update_ft_if_higher.
  destruct (get_batch (metas_of s) _) as [metas| |] eqn:Hb; cbn [snd]; apply evolves_seen; [done| |done..].
  intros Hk h. cbn [meta_store].
  set (low := filter (fun m => f32_lt (m_fault_tolerance_value m) ft = true) metas).
  rewrite (put_metas_lookup (fun m => with_ft m ft) (metas_of s) (m_block_hash <$> low)); [|done|].
  - case_decide; [|done]. by destruct (metas_of s !! h).
  - apply get_batch_hashes. intros md [_ Hmd]%list_elem_of_filter. apply get_batch_Ok in Hb.
    apply list_elem_of_lookup in Hmd as [i Hi]. destruct (Forall2_lookup_r _ _ _ _ _ Hb Hi) as (k & _ & Hkm).
    by rewrite (Hk _ _ Hkm).
Qed.
Lemma persist_evolves directly ft force applied s :
  evolves s (persist_effect_applied iter_set directly ft force applied s).2.
Proof.
  unfold persist_effect_applied. destruct (_ && _); [apply evolves_refl|].
  pose proof (record_finalized_evolves directly (applied ∖ {[directly]}) ft s) as He.
  by destruct (record_finalized _ _ _ _ _).
Qed.
(** Finalization, when the effect is a task that evolves the storage *)
Lemma finalization_evolves loops directly ft effect applied s :
  (forall p s, evolves s (effect p s).2) ->
  evolves s (finalization_loop iter_set loops directly ft effect applied s).2.
Proof.
  intros He. revert applied s. induction loops as [|loops IH]; intros applied s; cbn [finalization_loop].
  - pose proof (persist_evolves directly ft false applied s) as Hp. unfold try_bind, lift.
    destruct (persist_effect_applied _ _ _ _ _ _) as [[]]; done.
  - unfold try_bind, gets. destruct (pending_effect directly applied s) as [pending| |]; [|apply evolves_refl..].
    case_decide.
    + pose proof (persist_evolves directly ft true applied s) as Hp.
      destruct (persist_effect_applied _ _ _ _ _ _) as [[]]; [|done..]. cbn in Hp.
      eapply evolves_trans; [exact Hp|]. apply propagate_evolves.
    + specialize (He pending s). destruct (effect pending s) as [[] s']; cbn in He; [| |done].
      * eapply evolves_trans; [exact He|apply IH].
      * pose proof (persist_evolves directly ft false applied s') as Hp. unfold lift.
        destruct (persist_effect_applied _ _ _ _ _ _) as [[]]; by eapply evolves_trans.
Qed.
(** An insertion that does not panic, while the counter of generations does not wrap around. *)
Lemma insert_evolves block invalid approved s :
  0 <= dag_generation s < 2 ^ 64 - 1 -> (insert iter_set debug_block block invalid approved s).1 <> Panic ->
  evolves s (insert iter_set debug_block block invalid approved s).2.
Proof.
  intros Hgen. unfold insert. repeat (case_decide; [intros _; apply evolves_refl|]).
  unfold add_metadata. destruct (validate_dag_state _) as [st|e|] eqn:Hval; [intros _| |done].
  2:{ exfalso. unfold validate_dag_state in Hval. destruct (match get_min _ with Some _ => _ | None => _ end) in Hval.
      by destruct (bool_decide _) in Hval. }
  set (s' := mkStorage _ _ _ _ _ _).
  assert (evolves s s') as Hs.
  { intros Hk. split; [|left; cbn; unfold as_u64; rewrite Z.mod_small; lia]. intros h md. unfold s'. cbn [block_metadata_index meta_store].
    destruct (decide (h = block_hash block)) as [->|Hne]; [rewrite lookup_insert_eq; by intros [= <-]|].
    rewrite lookup_insert_ne by done. apply Hk. }
  destruct approved; [|done]. eapply evolves_trans; [exact Hs|].
  pose proof (record_finalized_evolves (block_hash block) ∅ f32_one s') as Hr.
  change (block_metadata_index s') with (mkMetaStore (<[m_block_hash (from_block block invalid None None) := from_block block invalid None None]> (metas_of s)) st) in Hr.
  by destruct (record_finalized _ _ _ _ _) as [[]].
Qed.
End evolve.

(** ** Snapshots *)

(** The highest block number of some blocks *)
Definition highest (idx : gmap BlockHash BlockMetadata) (l : list BlockHash) : Z :=
  foldl (fun acc h => Z.max acc (block_num idx h)) (-1) l.

(** The representation, whatever is finalized *)
Definition view (s : BlockDagKeyValueStorage) : KeyValueDagRepresentation :=
  let st := state_of s in
  mkDag (dag_set st) (latest_messages_index s) (child_map st) (height_map st) (block_number_map st) (main_parent_map st)
    (self_justification_map st) (map_to_list (invalid_blocks_index s)).*2 [] ∅.
Lemma selected_parents_view store conf approved_block iter s dag : get_representation (E:=KvStoreError) s = Ok dag ->
  selected_parents store conf approved_block iter dag (metas_of s) =
  selected_parents store conf approved_block iter (view s) (metas_of s).
Proof. unfold get_representation. destruct (unwrap _); [|done..]. cbn [res_bind]. by intros [= <-]. Qed.
Lemma with_meta_same_view s s' b : same_view s s' ->
  option_map (fun bm => (bm.1, m_block_number bm.2)) (with_meta (view s') (metas_of s') b) =
  option_map (fun bm => (bm.1, m_block_number bm.2)) (with_meta (view s) (metas_of s) b).
Proof.
  intros [_ _ Hset Hseen]. unfold with_meta, lookup_unsafe, lookup_block. cbn [r_dag_set view]. rewrite Hset.
  case_decide; [|done]. specialize (Hseen (block_hash b)).
  destruct (metas_of s' !! block_hash b), (metas_of s !! block_hash b); try done. injection Hseen as _ _ Hn.
  cbn. by rewrite Hn.
Qed.
Lemma selected_parents_same_view store conf approved_block iter s s' : same_view s s' ->
  selected_parents store conf approved_block iter (view s') (metas_of s') =
  selected_parents store conf approved_block iter (view s) (metas_of s).
Proof.
  intros Hv. assert (parents_after_count_limit store conf approved_block iter (view s') =
    parents_after_count_limit store conf approved_block iter (view s)) as Hp.
  { unfold parents_after_count_limit, unfiltered_parents, sorted_parents_list, parent_blocks_list, valid_latest,
      invalid_latest_messages_from_hashes. cbn [r_latest_messages_map r_invalid_blocks view].
    by rewrite (sv_latest _ _ Hv), (sv_invalid _ _ Hv). }
  unfold selected_parents. rewrite Hp. case_decide; [|done]. generalize (parents_after_count_limit store conf approved_block iter (view s)).
  intros l. pose proof (fun b => with_meta_same_view s s' b Hv) as Hm. cbn zeta.
  assert ((fun bm => m_block_number bm.2) <$> omap (with_meta (view s') (metas_of s')) l =
          (fun bm => m_block_number bm.2) <$> omap (with_meta (view s) (metas_of s)) l) as ->.
  { induction l as [|b l IH]; [done|]. cbn [omap list_omap]. specialize (Hm b).
    destruct (with_meta (view s') _ b), (with_meta (view s) _ b); try done. cbn in *. injection Hm as _ ->. by f_equal. }
  generalize (default 0 (max_number ((fun bm => m_block_number bm.2) <$> omap (with_meta (view s) (metas_of s)) l))). intros top.
  induction l as [|b l IH]; [done|]. cbn [omap list_omap]. specialize (Hm b).
  destruct (with_meta (view s') _ b) as [[x mx]|], (with_meta (view s) _ b) as [[y my]|]; try done.
  cbn in Hm. injection Hm as -> Hn. rewrite !filter_cons. cbn [snd]. rewrite Hn. case_decide; [cbn; by f_equal|done].
Qed.
Lemma exact_scope_same_view store s s' starts earliest D R : same_view s s' ->
  exact_scope store (metas_of s) starts earliest D R -> exact_scope store (metas_of s') starts earliest D R.
Proof.
  intros Hv.
  assert (forall h p, recent_parent (metas_of s) earliest h p <-> recent_parent (metas_of s') earliest h p) as He.
  { intros h p. unfold recent_parent. pose proof (sv_seen _ _ Hv h) as Hh. pose proof (sv_seen _ _ Hv p) as Hp.
    destruct (metas_of s !! h), (metas_of s' !! h); try done; [|naive_solver].
    destruct (metas_of s !! p), (metas_of s' !! p); try done; [|naive_solver].
    injection Hh as _ Hps _. injection Hp as _ _ Hn.
    split; intros (md & mdp & [= <-] & ? & [= <-] & ?); eexists _, _; (split_and!; [done| |done|]); congruence. }
  assert (forall h, in_scope (metas_of s) starts earliest h <-> in_scope (metas_of s') starts earliest h) as Hs.
  { intros h. split; intros (x & Hx & Hr); exists x; (split; [done|]); (eapply rtc_subrel; [|exact Hr]); intros ? ?; apply He. }
  intros [H1 H2]. split; intros sig; [rewrite H1|rewrite H2]; by setoid_rewrite Hs.
Qed.
Lemma highest_same_view s s' l : same_view s s' -> highest (metas_of s') l = highest (metas_of s) l.
Proof.
  intros Hv. unfold highest. generalize (-1). induction l as [|h l IH]; intros z; [done|]. cbn [foldl]. rewrite IH.
  do 2 f_equal. unfold block_num. pose proof (sv_seen _ _ Hv h) as Hh.
  destruct (metas_of s !! h), (metas_of s' !! h); try done. by injection Hh as _ _ ->.
Qed.

Section node.
Context (store : BlockStore) (conf : ShardConf) (approved_block : BlockMessage) (genesis : BlockHash).
Context (get_active_validators : bytes -> res CasperError (list Validator)).
Context (first_key : gmap bytes (list Validator) -> option bytes).
Context (iter : gset BlockHash -> list BlockHash).

(** The storage has a complete DAG, and the block store has its blocks. *)
Record ready (s : BlockDagKeyValueStorage) (dag : KeyValueDagRepresentation) : Prop := {
  rd_dag : get_representation (E:=KvStoreError) s = Ok dag;
  rd_fork : fork_dag dag (metas_of s) genesis;
  rd_approved : block_hash approved_block ∈ r_dag_set dag;
  rd_latest : forall v h, r_latest_messages_map dag !! v = Some h -> h ∈ r_dag_set dag;
  rd_hash : forall h b, bs_get store h = Ok (Some b) -> block_hash b = h;
  rd_number : forall h md b, h ∈ r_dag_set dag -> metas_of s !! h = Some md -> bs_get store h = Ok (Some b) ->
    number_of b = m_block_number md /\ m_block_number md <= i64_max;
  rd_sigs : forall h, h ∈ r_dag_set dag -> sigs_stored store h;
}.
Abbreviation parents_at s dag := (selected_parents store conf approved_block iter dag (metas_of s)).
Definition scope_at (s : BlockDagKeyValueStorage) (D R : Sigs) : Prop :=
  let tips := block_hash <$> parents_at s (view s) in
  exact_scope store (metas_of s) tips (earliest_block_number conf (highest (metas_of s) tips)) D R.
(** The cached validators are those of the contract. *)
Record validators_ok (c : CasperCaches) : Prop := {
  vo_validators : forall k l, active_validators_cache c !! k = Some l -> get_active_validators k = Ok l;
  vo_bound : (size (active_validators_cache c) <= MAX_ACTIVE_VALIDATORS_CACHE_ENTRIES)%nat;
}.
(** The cached sets are those of the generation they are cached for. *)
Record cache_ok (s : BlockDagKeyValueStorage) (c : CasperCaches) : Prop := {
  co_scope : forall gen lfb D R, deploys_in_scope_cache c = Some (gen, lfb, D, R) -> gen <= dag_generation s /\
    (gen = dag_generation s -> scope_at s D R);
  co_validators : validators_ok c;
}.
(** The snapshot of a storage *)
Record snapshot_of (s : BlockDagKeyValueStorage) (dag : KeyValueDagRepresentation) (sn : CasperSnapshot) : Prop := {
  so_parents : sn_parents sn = parents_at s dag /\ parents_spec store conf approved_block dag (sn_parents sn);
  so_tips : sn_tips sn = block_hash <$> sn_parents sn;
  so_lca : lowest_common dag (metas_of s) (sn_tips sn) (sn_lca sn);
  so_scope : exact_scope store (metas_of s) (sn_tips sn)
    (earliest_block_number conf (sn_max_block_num sn)) (sn_deploys_in_scope sn) (sn_rejected_in_scope sn);
  so_number : sn_max_block_num sn = highest (metas_of s) (sn_tips sn);
  so_chain : exists main, head (sn_parents sn) = Some main /\
    get_active_validators (post_state_hash (body_state (body main))) = Ok (active_validators (sn_on_chain_state sn)) /\
    bonds_map (sn_on_chain_state sn) = bonds_map_of main;
  so_justifications : forall v h, sn_justifications sn !! v = Some h <->
    r_latest_messages_map dag !! v = Some h /\ is_Some (bonds_map (sn_on_chain_state sn) !! v);
}.

Hypothesis some_parent : c_max_number_of_parents conf <> 0.
Hypothesis depth_nonneg : 0 <= c_max_parent_depth conf.
Hypothesis iter_perm : forall s, iter s ≡ₚ elements s.
Hypothesis first_key_in : forall m, m <> ∅ -> exists k, first_key m = Some k /\ is_Some (m !! k).
Hypothesis validators_known : forall k, exists l, get_active_validators k = Ok l.

Lemma ready_known s dag : ready s dag -> blocks_known store dag (metas_of s).
Proof.
  intros Hr. assert (forall b, candidate store dag b -> exists md,
    stored_block dag (metas_of s) md /\ m_block_hash md = block_hash b /\ number_of b = m_block_number md /\ m_block_number md <= i64_max) as Hc.
  { intros b [Hg [v [Hv _]%map_lookup_filter_Some]]. apply (rd_latest _ _ Hr) in Hv.
    destruct (stored_of _ _ _ (rd_fork _ _ Hr) _ Hv) as (md & Hmd & Heq). exists md. split; [done|]. split; [done|].
    destruct Hmd as [_ Hmd]. rewrite Heq in Hmd. by apply (rd_number _ _ Hr _ _ _ Hv). }
  split.
  - apply (rd_hash _ _ Hr).
  - intros b Hb. destruct (Hc b Hb) as (md & Hmd & <- & Hn & _). exists md. split; [|done].
    by apply (stored_lookup dag (metas_of s)).
  - intros b Hb. destruct (Hc b Hb) as (md & Hmd & _ & -> & Hn). split; [|done].
    by apply (stored_nonneg _ _ _ (rd_fork _ _ Hr)).
Qed.
Lemma ready_parents s dag : ready s dag ->
  parents_spec store conf approved_block dag (parents_at s dag) /\ parents_at s dag <> [] /\
  NoDup (block_hash <$> parents_at s dag) /\ forall h, h ∈ block_hash <$> parents_at s dag -> h ∈ r_dag_set dag.
Proof.
  intros Hr. pose proof (selected_parents_spec store conf approved_block dag (metas_of s) (ready_known s dag Hr)
    some_parent depth_nonneg iter iter_perm) as Hp. split; [done|].
  destruct Hp as [[_ ->]|(n & _ & [(main & Hhead & _) Hsort Hel _ _])].
  - split_and!; [done|apply NoDup_singleton|]. intros h ->%list_elem_of_singleton. apply (rd_approved _ _ Hr).
  - split_and!; [by intros Heq; rewrite Heq in Hhead| |].
    + assert (forall b, b ∈ parents_at s dag -> candidate store dag b) as Hc by (intros b Hb; apply Hel, Hb).
      clear Hel Hhead. induction Hsort as [|x l _ IH Hf]; [apply NoDup_nil_2|]. cbn. apply NoDup_cons.
      split; [|apply IH; intros; apply Hc; by right].
      intros (y & Heq & Hy)%list_elem_of_fmap. rewrite Forall_forall in Hf.
      assert (x = y) as -> by (apply (same_hash store dag); [apply Hc; left|apply Hc; by right|done]).
      destruct (Hf y Hy) as [Hlt|[_ Hlt]]; [lia|]. by rewrite (cmp_refl bytes_cmp) in Hlt.
    + intros h (b & -> & Hb)%list_elem_of_fmap. destruct (Hel b Hb) as [[_ [v [Hv _]%map_lookup_filter_Some]] _].
      by apply (rd_latest _ _ Hr) in Hv.
Qed.
Lemma highest_metas s dag (metas : list BlockMetadata) : Forall (stored_block dag (metas_of s)) metas ->
  max_block_number_metadata metas = highest (metas_of s) (m_block_hash <$> metas).
Proof.
  unfold max_block_number_metadata, highest. generalize (-1)%Z. induction metas as [|md metas IH]; intros z Hst; [done|].
  apply Forall_cons in Hst as [Hmd Hst]. cbn [fmap list_fmap foldl]. rewrite (stored_num dag) by done. by apply IH.
Qed.
Lemma snapshot_lca_spec s dag fuel : ready s dag -> (size (r_dag_set dag) < fuel)%nat ->
  exists lca, snapshot_lca approved_block fuel dag (metas_of s) (parents_at s dag) = Some (Ok lca) /\
    lowest_common dag (metas_of s) (block_hash <$> parents_at s dag) lca.
Proof.
  intros Hr Hf. destruct (ready_parents s dag Hr) as (_ & Hne & _ & Hin). unfold snapshot_lca.
  assert (exists mds, (omap (with_meta dag (metas_of s)) (parents_at s dag)).*2 = mds /\
    Forall (stored_block dag (metas_of s)) mds /\ m_block_hash <$> mds = block_hash <$> parents_at s dag) as (mds & -> & Hst & Heq).
  { revert Hin. generalize (parents_at s dag). intros l Hin. induction l as [|b l IH]; [by exists []|].
    destruct IH as (mds & Hmds & Hst & Heq); [intros; apply Hin; by right|].
    destruct (stored_of _ _ _ (rd_fork _ _ Hr) (block_hash b)) as (md & Hmd & Hh); [apply Hin; left|].
    exists (md :: mds). cbn [omap list_omap]. unfold with_meta at 1. rewrite <-Hh, (stored_lookup dag (metas_of s)) by done.
    cbn [fmap list_fmap snd]. split_and!; [by f_equal|by apply Forall_cons_2|]. by f_equal. }
  destruct mds as [|md mds]; [symmetry in Heq; by apply fmap_nil_inv in Heq|].
  destruct (luca_exact dag (metas_of s) genesis (rd_fork _ _ Hr) fuel (md :: mds)) as (lca & Hl & _ & Hlow); [done..|].
  rewrite Hl. cbn [o_bind]. exists (m_block_hash lca). split; [done|]. by rewrite <-Heq.
Qed.
(** The cache of the active validators agrees with the contract and stays bounded. *)
Lemma on_chain_spec b c : validators_ok c ->
  exists l c', get_on_chain_state get_active_validators first_key b c = (Ok (mkOnChain (bonds_map_of b) l), c') /\
    get_active_validators (post_state_hash (body_state (body b))) = Ok l /\
    deploys_in_scope_cache c' = deploys_in_scope_cache c /\ validators_ok c'.
Proof.
  intros [H2 H3]. unfold get_on_chain_state. set (k := post_state_hash (body_state (body b))).
  destruct (active_validators_cache c !! k) as [l|] eqn:Hk; [exists l, c; split_and!; auto; by split|].
  destruct (validators_known k) as [l Hl]. rewrite Hl. cbn zeta.
  set (m := if decide (MAX_ACTIVE_VALIDATORS_CACHE_ENTRIES <= size (active_validators_cache c))%nat then _ else _).
  assert (m ⊆ active_validators_cache c /\ (size m < MAX_ACTIVE_VALIDATORS_CACHE_ENTRIES)%nat) as [Hsub Hsz].
  { unfold m. case_decide as Hd; [|split; [done|lia]].
    destruct (first_key_in (active_validators_cache c)) as (k' & -> & Hk').
    { intros He. rewrite He, map_size_empty in Hd. unfold MAX_ACTIVE_VALIDATORS_CACHE_ENTRIES in Hd. lia. }
    split; [apply delete_subseteq|]. rewrite map_size_delete_Some by done.
    assert (0 < size (active_validators_cache c))%nat; [|lia].
    unfold MAX_ACTIVE_VALIDATORS_CACHE_ENTRIES in *. lia. }
  assert (m !! k = None) as Hnone by by eapply lookup_weaken_None. rewrite Hnone. cbn [from_option id].
  eexists l, _. split; [done|]. split_and!; [done|done|]. split; cbn [deploys_in_scope_cache active_validators_cache].
  - intros k' l'. destruct (decide (k' = k)) as [->|Hne]; [rewrite lookup_insert_eq; by intros [= <-]|].
    rewrite lookup_insert_ne by done. intros Hm. by eapply H2, lookup_weaken.
  - rewrite map_size_insert_None by done. lia.
Qed.

Lemma cache_ok_evolves s s' c : keyed s -> evolves s s' -> cache_ok s c -> cache_ok s' c.
Proof.
  intros Hk He [H1 H2]. split; [|done]. intros gen lfb D R Hc. destruct (H1 gen lfb D R Hc) as [Hle Hs].
  destruct (He Hk) as [_ [Hlt|[Heq Hv]]]; (split; [lia|]); intros Hg; [lia|].
  unfold scope_at. cbn zeta. rewrite (selected_parents_same_view _ _ _ _ s s') by done.
  rewrite (highest_same_view s s') by done. apply (exact_scope_same_view _ s s'); [done|]. apply Hs. lia.
Qed.
Lemma scope_cached_spec s dag fuel (metas : list BlockMetadata) c :
  ready s dag -> cache_ok s c -> lookups_unsafe dag (metas_of s) (block_hash <$> parents_at s dag) = Ok metas ->
  Forall (stored_block dag (metas_of s)) metas -> m_block_hash <$> metas = block_hash <$> parents_at s dag ->
  (length metas + out_edges (metas_of s) (r_dag_set dag) < fuel)%nat ->
  exists D R c', scope_with_cache store conf fuel dag (metas_of s) (dag_generation s) metas (max_block_number_metadata metas) c =
      (Some (Ok (D, R)), c') /\ scope_at s D R /\ cache_ok s c'.
Proof.
  intros Hr Hc Hl Hst Heq Hf. unfold scope_with_cache.
  destruct (match deploys_in_scope_cache c with Some _ => _ | None => _ end) as [[D R]|] eqn:Hcached.
  { exists D, R, c. split; [done|]. split; [|done].
    destruct (deploys_in_scope_cache c) as [[[[gen lfb] D'] R']|] eqn:E; [|done].
    case_decide as Hd; [|done]. injection Hcached as -> ->. apply (co_scope _ _ Hc gen lfb D R E), Hd. }
  destruct (compute_scope_exact store conf genesis dag (metas_of s) (rd_fork _ _ Hr) fuel metas (max_block_number_metadata metas))
    as (D & R & -> & Hex); [done|apply (rd_sigs _ _ Hr)|done|].
  assert (scope_at s D R) as Hs.
  { unfold scope_at. cbn zeta. rewrite <-(selected_parents_view _ _ _ _ s dag) by apply (rd_dag _ _ Hr).
    rewrite <-Heq, <-(highest_metas s dag) by done. done. }
  eexists D, R, _. split; [done|]. split; [done|]. destruct Hc as [H1 [H2 H3]]. split; cbn; [|by split].
  intros gen lfb D' R' [= <- <- <- <-]. split; [lia|done].
Qed.
(** Up to the deploys in scope, a snapshot depends on the storage it begins with. *)
Record snapshot_base (s : BlockDagKeyValueStorage) (dag : KeyValueDagRepresentation) (lca : BlockHash) (on_chain : OnChainCasperState)
    (metas : list BlockMetadata) : Prop := {
  sb_lookup : lookups_unsafe dag (metas_of s) (block_hash <$> parents_at s dag) = Ok metas;
  sb_stored : Forall (stored_block dag (metas_of s)) metas;
  sb_hashes : m_block_hash <$> metas = block_hash <$> parents_at s dag;
  sb_few : (length metas <= size (r_dag_set dag))%nat;
  sb_snapshot : forall D R, exact_scope store (metas_of s) (block_hash <$> parents_at s dag)
      (earliest_block_number conf (max_block_number_metadata metas)) D R ->
    snapshot_of s dag (mkSnapshot (r_last_finalized_block_hash dag) lca (block_hash <$> parents_at s dag) (parents_at s dag)
      (snapshot_justifications dag on_chain) (invalid_blocks_map dag) D R (max_block_number_metadata metas)
      (snapshot_seq_nums dag (metas_of s)) on_chain);
}.
Lemma snapshot_begins s dag fuel later c :
  ready s dag -> validators_ok c -> (size (r_dag_set dag) < fuel)%nat ->
  exists lca on_chain metas c1, snapshot_base s dag lca on_chain metas /\
    deploys_in_scope_cache c1 = deploys_in_scope_cache c /\ validators_ok c1 /\
    forall D R c2, scope_with_cache store conf fuel dag (metas_of (later s)) (dag_generation (later s)) metas
        (max_block_number_metadata metas) c1 = (Some (Ok (D, R)), c2) ->
      get_snapshot store conf approved_block get_active_validators first_key iter fuel s later c =
        (Some (Ok (mkSnapshot (r_last_finalized_block_hash dag) lca (block_hash <$> parents_at s dag) (parents_at s dag)
          (snapshot_justifications dag on_chain) (invalid_blocks_map dag) D R (max_block_number_metadata metas)
          (snapshot_seq_nums dag (metas_of s)) on_chain)), c2).
Proof.
  intros Hr Hc Hf. destruct (ready_parents s dag Hr) as (Hspec & Hne & Hnd & Hin).
  destruct (snapshot_lca_spec s dag fuel Hr Hf) as (lca & Hlca & Hlow).
  destruct (head (parents_at s dag)) as [main|] eqn:Hmain; [|by destruct (parents_at s dag)].
  destruct (on_chain_spec main c Hc) as (l & c1 & Hon & Hl & Hc1 & Hv1).
  destruct (lookups_known _ _ _ (rd_fork _ _ Hr) (block_hash <$> parents_at s dag) Hin) as (metas & Hlk & Hst & Heq).
  assert (max_block_number_metadata metas = highest (metas_of s) (block_hash <$> parents_at s dag)) as Hhigh.
  { by rewrite (highest_metas s dag), Heq. }
  exists lca, (mkOnChain (bonds_map_of main) l), metas, c1. split_and!; [|done|done|].
  - split; [done..| |].
    + rewrite <-(length_fmap m_block_hash metas), Heq, <-(size_list_to_set (C:=gset BlockHash)) by done.
      apply subseteq_size. intros h. rewrite elem_of_list_to_set. apply Hin.
    + intros D R Hex. split; cbn; [done..|eauto|]. intros v h. unfold snapshot_justifications. by rewrite map_lookup_filter_Some.
  - intros D R c2 Hscope. unfold get_snapshot. rewrite (rd_dag _ _ Hr). cbn zeta. by rewrite Hlca, Hmain, Hon, Hlk, Hscope.
Qed.
(** A snapshot that reads the generation of the DAG it looks at is exact. *)
Lemma snapshot_exact s dag fuel c :
  ready s dag -> cache_ok s c -> (size (r_dag_set dag) + out_edges (metas_of s) (r_dag_set dag) < fuel)%nat ->
  exists sn c', get_snapshot store conf approved_block get_active_validators first_key iter fuel s (fun s => s) c =
      (Some (Ok sn), c') /\ snapshot_of s dag sn /\ cache_ok s c'.
Proof.
  intros Hr Hc Hf. destruct (snapshot_begins s dag fuel (fun s => s) c Hr (co_validators _ _ Hc)) as
    (lca & on_chain & metas & c1 & [Hlk Hst Heq Hlen Hsn] & Hc1 & Hv1 & Hget); [lia|].
  assert (cache_ok s c1) as Hok1 by (split; [rewrite Hc1; apply (co_scope _ _ Hc)|done]).
  destruct (scope_cached_spec s dag fuel metas c1) as (D & R & c2 & Hscope & Hs & Hc2); [done..|lia|].
  eexists _, c2. split; [by apply Hget|]. split; [|done]. apply Hsn. unfold scope_at in Hs. cbn zeta in Hs.
  rewrite <-(selected_parents_view _ _ _ _ s dag) in Hs by apply (rd_dag _ _ Hr). by rewrite (highest_metas s dag), Heq.
Qed.

(** ** A storage that changes during a snapshot *)

Lemma lookups_unsafe_same dag idx idx' l : (forall h, h ∈ r_dag_set dag -> idx' !! h = idx !! h) ->
  lookups_unsafe dag idx' l = lookups_unsafe dag idx l.
Proof.
  intros Hi. assert (forall h, lookup_unsafe dag idx' h = lookup_unsafe dag idx h) as Hl.
  { intros h. unfold lookup_unsafe, lookup_block. case_decide; [by rewrite Hi|done]. }
  unfold lookups_unsafe. induction l as [|h l IH]; [done|]. cbn. by rewrite Hl, IH.
Qed.
Lemma compute_scope_same dag idx idx' fuel metas n : (forall h, h ∈ r_dag_set dag -> idx' !! h = idx !! h) ->
  compute_scope store conf fuel dag idx' metas n = compute_scope store conf fuel dag idx metas n.
Proof.
  intros Hi. unfold compute_scope, bf_traverse. set (e := earliest_block_number conf n).
  assert (forall md, neighbor_fn dag idx' e md = neighbor_fn dag idx e md) as Hn.
  { intros md. unfold neighbor_fn, get_parent_metadatas_above_block_number. by rewrite (lookups_unsafe_same _ idx). }
  assert (forall queue visited result, traverse_loop (neighbor_fn dag idx' e) fuel queue visited result =
    traverse_loop (neighbor_fn dag idx e) fuel queue visited result) as Ht; [|by rewrite Ht].
  induction fuel as [|fuel IH]; intros queue visited result; [done|]. cbn [traverse_loop].
  destruct queue as [|x queue]; [done|]. case_decide; [done|]. by rewrite Hn, IH.
Qed.
(** The deploys of the older DAG are cached for the newer generation and returned for it. *)
Lemma stale_exact s dag s' dag' fuel c :
  ready s dag -> ready s' dag' -> cache_ok s c -> dag_generation s < dag_generation s' ->
  (forall h, h ∈ r_dag_set dag -> metas_of s' !! h = metas_of s !! h) ->
  r_last_finalized_block_hash dag' = r_last_finalized_block_hash dag ->
  (size (r_dag_set dag) + out_edges (metas_of s) (r_dag_set dag) < fuel)%nat -> (size (r_dag_set dag') < fuel)%nat ->
  exists sn c1 sn' c2,
    get_snapshot store conf approved_block get_active_validators first_key iter fuel s (fun _ => s') c = (Some (Ok sn), c1) /\
    snapshot_of s dag sn /\
    get_snapshot store conf approved_block get_active_validators first_key iter fuel s' (fun s => s) c1 = (Some (Ok sn'), c2) /\
    sn_parents sn' = parents_at s' dag' /\ sn_tips sn' = block_hash <$> parents_at s' dag' /\
    sn_deploys_in_scope sn' = sn_deploys_in_scope sn /\ sn_rejected_in_scope sn' = sn_rejected_in_scope sn.
Proof.
  intros Hr Hr' Hc Hgen Hsame Hlfb Hf Hf'.
  destruct (snapshot_begins s dag fuel (fun _ => s') c Hr (co_validators _ _ Hc)) as
    (lca & on_chain & metas & c1 & [Hlk Hst Heq Hlen Hsn] & Hc1 & Hv1 & Hget); [lia|].
  destruct (compute_scope_exact store conf genesis dag (metas_of s) (rd_fork _ _ Hr) fuel metas (max_block_number_metadata metas))
    as (D & R & Hcomp & Hex); [done|apply (rd_sigs _ _ Hr)|lia|]. rewrite Heq in Hex.
  set (c2 := mkCaches (Some (dag_generation s', r_last_finalized_block_hash dag, D, R)) (active_validators_cache c1)).
  assert (scope_with_cache store conf fuel dag (metas_of s') (dag_generation s') metas (max_block_number_metadata metas) c1 =
    (Some (Ok (D, R)), c2)) as Hscope.
  { unfold scope_with_cache. rewrite (compute_scope_same dag (metas_of s)), Hcomp, Hc1 by done.
    destruct (deploys_in_scope_cache c) as [[[[gen lfb] D'] R']|] eqn:E; [|done].
    rewrite decide_False; [done|]. intros [-> _]. apply (co_scope _ _ Hc) in E as [E _]. lia. }
  destruct (snapshot_begins s' dag' fuel (fun s => s) c2 Hr') as
    (lca' & on_chain' & metas' & c3 & _ & Hc3 & Hv3 & Hget'); [by destruct Hv1|lia|].
  eexists _, c2, _, c3. split; [by apply Hget|]. split; [by apply Hsn|]. split; [apply (Hget' D R)|done].
  unfold scope_with_cache. rewrite Hc3. cbn [deploys_in_scope_cache c2]. by rewrite decide_True.
Qed.
(** A deploy of a parent is in the scope of an exact snapshot. *)
Lemma snapshot_has_deploys s dag sn h l sig : snapshot_of s dag sn ->
  h ∈ sn_tips sn -> bs_deploy_sigs store h = Ok (Some l) -> sig ∈ l -> sig ∈ sn_deploys_in_scope sn.
Proof.
  intros Hsn Hh Hl Hsig. apply (es_deploys _ _ _ _ _ _ (so_scope _ _ _ Hsn)). exists h, l. split_and!; [|done..].
  exists h. split; [done|apply rtc_refl].
Qed.

(** ** Runs of a node *)

Context (debug_block : BlockMessage -> string).
(** Blocks are inserted and finalized, and snapshots are taken.  An insertion that panics poisons
    the lock of the storage, so that nothing follows it; the counter of generations has 64 bits,
    and a run ends before it wraps around. *)
Inductive node_step : BlockDagKeyValueStorage * CasperCaches -> BlockDagKeyValueStorage * CasperCaches -> Prop :=
  | node_insert s c block invalid approved :
      0 <= dag_generation s < 2 ^ 64 - 1 -> (insert iter debug_block block invalid approved s).1 <> Panic ->
      node_step (s, c) ((insert iter debug_block block invalid approved s).2, c)
  | node_finalize s c directly ft effect : (forall p s, evolves s (effect p s).2) ->
      node_step (s, c) ((record_directly_finalized iter directly ft effect s).2, c)
  | node_snapshot s c dag fuel : ready s dag -> (size (r_dag_set dag) + out_edges (metas_of s) (r_dag_set dag) < fuel)%nat ->
      node_step (s, c) (s, (get_snapshot store conf approved_block get_active_validators first_key iter fuel s (fun s => s) c).2).
Lemma node_step_ok x y : node_step x y -> keyed x.1 /\ cache_ok x.1 x.2 -> keyed y.1 /\ cache_ok y.1 y.2.
Proof.
  intros [s c block invalid approved Hgen Hno|s c directly ft effect He|s c dag fuel Hr Hf] [Hk Hc]; cbn [fst snd] in *.
  - pose proof (insert_evolves iter debug_block block invalid approved s Hgen Hno) as Hev.
    split; [by apply Hev|by apply (cache_ok_evolves s)].
  - pose proof (finalization_evolves iter MAX_FINALIZATION_RECONCILE_LOOPS directly ft effect ∅ s He) as Hev.
    split; [by apply Hev|by apply (cache_ok_evolves s)].
  - destruct (snapshot_exact s dag fuel c Hr Hc Hf) as (sn & c' & -> & _ & Hc'). done.
Qed.
Lemma node_run_ok s0 x : keyed s0 -> rtc node_step (s0, mkCaches None ∅) x -> keyed x.1 /\ cache_ok x.1 x.2.
Proof.
  intros Hk Hr.
  assert (forall a b, rtc node_step a b -> keyed a.1 /\ cache_ok a.1 a.2 -> keyed b.1 /\ cache_ok b.1 b.2) as Hgo.
  { intros a b Hab. induction Hab as [|a b z Hab _ IH]; [done|]. intros Ha. by apply IH, (node_step_ok a). }
  apply (Hgo _ _ Hr). split; [done|]. split; cbn; [done|]. split; cbn; [intros k l Hl; by rewrite lookup_empty in Hl|].
  rewrite map_size_empty. lia.
Qed.
End node.

(** C11: the parents of the next block are chosen by height, bonds and depth, by all nodes
    alike.  Without a valid latest message the approved block is the parent.  Otherwise the
    parents are blocks of valid latest messages with the bonds of the newest of them, not deeper
    below it than allowed, by decreasing height and then by hash; the main parent has the greatest
    height; and a block that could be a parent is left out only when there are as many parents as
    allowed, all of which precede it.  Stake and the estimator's ranking play no part.  The order
    in which hash maps are iterated does not matter. *)
Theorem snapshot_parents_correct store conf approved_block dag idx iter iter' :
  blocks_known store dag idx -> c_max_number_of_parents conf <> 0 -> 0 <= c_max_parent_depth conf ->
  (forall s, iter s ≡ₚ elements s) -> (forall s, iter' s ≡ₚ elements s) ->
  parents_spec store conf approved_block dag (selected_parents store conf approved_block iter dag idx) /\
  selected_parents store conf approved_block iter' dag idx = selected_parents store conf approved_block iter dag idx.
Proof.
  intros Hk Hn Hd Hi Hi'. split; [by apply selected_parents_spec|by apply selected_parents_order].
Qed.

(** C10: snapshots are exact as long as the generation that is read is that of the DAG that was
    read.  In every run that inserts blocks, finalizes blocks and takes snapshots, a snapshot
    returns; its parents are the chosen ones, its ancestor is their lowest common one, its
    deploys and rejected deploys are those of the recent ancestors, cached or not, and its active
    validators are those of the main parent's state.  The cache of validators stays bounded. *)
Theorem snapshot_run_correct store conf approved_block genesis get_active_validators first_key iter debug_block s0 s c dag fuel :
  c_max_number_of_parents conf <> 0 -> 0 <= c_max_parent_depth conf -> (forall s, iter s ≡ₚ elements s) ->
  (forall m, m <> ∅ -> exists k, first_key m = Some k /\ is_Some (m !! k)) ->
  (forall k, exists l, get_active_validators k = Ok l) ->
  keyed s0 ->
  rtc (node_step store conf approved_block genesis get_active_validators first_key iter debug_block) (s0, mkCaches None ∅) (s, c) ->
  ready store approved_block genesis s dag -> (size (r_dag_set dag) + out_edges (metas_of s) (r_dag_set dag) < fuel)%nat ->
  exists sn c', get_snapshot store conf approved_block get_active_validators first_key iter fuel s (fun s => s) c =
      (Some (Ok sn), c') /\
    snapshot_of store conf approved_block get_active_validators iter s dag sn /\
    (size (active_validators_cache c') <= MAX_ACTIVE_VALIDATORS_CACHE_ENTRIES)%nat.
Proof.
  intros Hn Hd Hi Hf Hv Hk Hrun Hr Hfuel.
  destruct (node_run_ok store conf approved_block genesis get_active_validators first_key iter Hn Hd Hi Hf Hv debug_block s0 (s, c) Hk Hrun) as [_ Hc].
  destruct (snapshot_exact store conf approved_block genesis get_active_validators first_key iter Hn Hd Hi Hf Hv s dag fuel c Hr Hc Hfuel)
    as (sn & c' & Heq & Hsn & Hc'). exists sn, c'. split_and!; [done|done|apply (co_validators _ _ _ _ _ _ _ Hc')].
Qed.

(** C22: the deploys in scope can be those of an older DAG.  The generation is read after the
    representation of the DAG.  Let the generation grow in between, by blocks that change neither
    the stored metadata of the older blocks nor the last finalized block.  Then the snapshot is
    the exact one of the older DAG, but its deploys are cached for the newer generation: the next
    snapshot has the parents of the newer DAG and the deploys of the older one, and a parent with
    a deploy that is new makes it wrong. *)
Theorem stale_scope store conf approved_block genesis get_active_validators first_key iter debug_block s0 s c dag s' dag' fuel :
  c_max_number_of_parents conf <> 0 -> 0 <= c_max_parent_depth conf -> (forall s, iter s ≡ₚ elements s) ->
  (forall m, m <> ∅ -> exists k, first_key m = Some k /\ is_Some (m !! k)) ->
  (forall k, exists l, get_active_validators k = Ok l) ->
  keyed s0 ->
  rtc (node_step store conf approved_block genesis get_active_validators first_key iter debug_block) (s0, mkCaches None ∅) (s, c) ->
  ready store approved_block genesis s dag -> ready store approved_block genesis s' dag' ->
  dag_generation s < dag_generation s' ->
  (forall h, h ∈ r_dag_set dag -> metas_of s' !! h = metas_of s !! h) ->
  r_last_finalized_block_hash dag' = r_last_finalized_block_hash dag ->
  (size (r_dag_set dag) + out_edges (metas_of s) (r_dag_set dag) < fuel)%nat -> (size (r_dag_set dag') < fuel)%nat ->
  exists sn c1 sn' c2,
    get_snapshot store conf approved_block get_active_validators first_key iter fuel s (fun _ => s') c = (Some (Ok sn), c1) /\
    snapshot_of store conf approved_block get_active_validators iter s dag sn /\
    get_snapshot store conf approved_block get_active_validators first_key iter fuel s' (fun s => s) c1 = (Some (Ok sn'), c2) /\
    sn_tips sn' = block_hash <$> selected_parents store conf approved_block iter dag' (metas_of s') /\
    sn_deploys_in_scope sn' = sn_deploys_in_scope sn /\
    (forall h l sig, h ∈ sn_tips sn' -> bs_deploy_sigs store h = Ok (Some l) -> sig ∈ l -> sig ∉ sn_deploys_in_scope sn ->
       ~ snapshot_of store conf approved_block get_active_validators iter s' dag' sn').
Proof.
  intros Hn Hd Hi Hf Hv Hk Hrun Hr Hr' Hgen Hsame Hlfb Hfuel Hfuel'.
  destruct (node_run_ok store conf approved_block genesis get_active_validators first_key iter Hn Hd Hi Hf Hv debug_block s0 (s, c) Hk Hrun) as [_ Hc].
  destruct (stale_exact store conf approved_block genesis get_active_validators first_key iter Hn Hd Hi Hf Hv s dag s' dag' fuel c)
    as (sn & c1 & sn' & c2 & H1 & H2 & H3 & _ & H4 & H5 & _); [done..|].
  exists sn, c1, sn', c2. split_and!; [done..|]. intros h l sig Hh Hl Hsig Hno Hsn'. apply Hno. rewrite <-H5.
  by eapply snapshot_has_deploys.
Qed.

(** ** A block inserted during a snapshot *)

Module Race.
Import Chain.
Definition sig1 : bytes := [x11].
Definition sig2 : bytes := [x22].
Definition blocks : list BlockMessage := [genesis; first; second].
Definition store : BlockStore := mkBlockStore
  (fun h => Ok (head (filter (fun b => block_hash b = h) blocks)))
  (fun h => Ok (Some (if decide (h = hash x02) then [sig1] else if decide (h = hash x03) then [sig2] else [])))
  (fun h => Ok None).
Definition conf : ShardConf := mkShardConf 5 10 50.
Definition validators (k : bytes) : res CasperError (list Validator) := Ok [alice].
Definition first_key (m : gmap bytes (list Validator)) : option bytes := head (map_to_list m).*1.
Definition dag_of (s : BlockDagKeyValueStorage) : KeyValueDagRepresentation :=
  match get_representation (E:=KvStoreError) s with Ok dag => dag | _ => view s end.
Abbreviation snapshot s later := (get_snapshot store conf genesis validators first_key iter 20 s later).
Definition returns (P : CasperSnapshot -> bool) (r : option (res CasperError CasperSnapshot) * CasperCaches) : bool :=
  match r with (Some (Ok sn), _) => P sn | _ => false end.
Lemma store_blocks h b : bs_get store h = Ok (Some b) -> b ∈ blocks /\ block_hash b = h.
Proof.
  unfold store. cbn [bs_get]. intros [= Hh]. assert (b ∈ filter (fun b => block_hash b = h) blocks) as Hb.
  { destruct (filter _ blocks) as [|x l]; [done|]. injection Hh as ->. left. }
  by apply list_elem_of_filter in Hb as [? ?].
Qed.
Definition ready_check (s : BlockDagKeyValueStorage) : bool :=
  let dag := dag_of s in
  match get_representation (E:=KvStoreError) s with Ok _ => true | _ => false end &&
  fork_check dag (metas_of s) (hash x01) && bool_decide (block_hash genesis ∈ r_dag_set dag) &&
  forallb (fun vh => bool_decide (vh.2 ∈ r_dag_set dag)) (map_to_list (r_latest_messages_map dag)) &&
  forallb (fun b => match metas_of s !! block_hash b with
    | Some md => bool_decide (number_of b = m_block_number md /\ m_block_number md <= i64_max)
    | None => true end) blocks.
Lemma ready_checked s : ready_check s = true -> ready store genesis (hash x01) s (dag_of s).
Proof.
  unfold ready_check. cbn zeta. rewrite !andb_true_iff. intros [[[[H1 H2] H3%bool_decide_eq_true] H4] H5]. split.
  - unfold dag_of. by destruct (get_representation s).
  - by apply fork_checked.
  - exact H3.
  - intros v h Hv%elem_of_map_to_list. rewrite forallb_forall in H4. specialize (H4 (v, h)).
    rewrite <-list_elem_of_In in H4. by apply H4, bool_decide_eq_true in Hv.
  - intros h b Hb. by apply store_blocks in Hb as [_ ?].
  - intros h md b _ Hmd [Hb <-]%store_blocks. rewrite forallb_forall in H5. specialize (H5 b).
    rewrite <-list_elem_of_In, Hmd in H5. by apply H5, bool_decide_eq_true in Hb.
  - intros h _. split; eexists; reflexivity.
Qed.
Lemma first_key_law m : m <> ∅ -> exists k, first_key m = Some k /\ is_Some (m !! k).
Proof.
  intros Hm. unfold first_key. destruct (map_to_list m) as [|[k l] rest] eqn:E; [by apply map_to_list_empty_iff in E|].
  exists k. split; [done|]. exists l. apply elem_of_map_to_list. rewrite E. left.
Qed.
Lemma empty_keyed : keyed empty_storage.
Proof. intros h md. cbn. by rewrite lookup_empty. Qed.
Lemma ok_no_panic {E A} (r : res E A) : is_okb r = true -> r <> Panic.
Proof. by destruct r. Qed.
Definition cached : CasperCaches := (snapshot s2 (fun s => s) (mkCaches None ∅)).2.
Lemma chain_run : rtc (node_step store conf genesis (hash x01) validators first_key iter no_debug)
  (empty_storage, mkCaches None ∅) (s3, cached).
Proof.
  eapply rtc_l; [refine (node_insert _ _ _ _ _ _ _ _ empty_storage _ genesis false true _ _); [by vm_compute|apply ok_no_panic; vm_compute; reflexivity]|].
  eapply rtc_l; [refine (node_insert _ _ _ _ _ _ _ _ s1 _ first false false _ _); [by vm_compute|apply ok_no_panic; vm_compute; reflexivity]|].
  eapply rtc_l; [refine (node_snapshot _ _ _ _ _ _ _ _ s2 _ (dag_of s2) 20 _ _)|].
  - apply ready_checked. vm_compute. reflexivity.
  - vm_compute. lia.
  - eapply rtc_l; [refine (node_insert _ _ _ _ _ _ _ _ s2 _ second false false _ _); [by vm_compute|apply ok_no_panic; vm_compute; reflexivity]|]. apply rtc_refl.
Qed.
Lemma snapshot_run_correct_witness : exists sn c',
  snapshot s3 (fun s => s) cached = (Some (Ok sn), c') /\
  snapshot_of store conf genesis validators iter s3 (dag_of s3) sn /\
  returns (fun sn => bool_decide (sig2 ∈ sn_deploys_in_scope sn)) (snapshot s3 (fun s => s) cached) = true.
Proof.
  destruct (snapshot_run_correct store conf genesis (hash x01) validators first_key iter no_debug empty_storage s3 cached (dag_of s3) 20
    ltac:(done) ltac:(done) iter_perm first_key_law (fun k => ex_intro _ [alice] eq_refl) empty_keyed chain_run
    (ready_checked s3 ltac:(vm_compute; reflexivity)) ltac:(vm_compute; lia)) as (sn & c' & H1 & H2 & _).
  exists sn, c'. split; [exact H1|]. split; [exact H2|]. vm_compute. reflexivity.
Defined.
Definition unchanged (s s' : BlockDagKeyValueStorage) : bool :=
  forallb (fun h => bool_decide (metas_of s' !! h = metas_of s !! h)) (elements (r_dag_set (dag_of s))).
Lemma unchanged_true s s' : unchanged s s' = true ->
  forall h, h ∈ r_dag_set (dag_of s) -> metas_of s' !! h = metas_of s !! h.
Proof.
  unfold unchanged. rewrite forallb_forall. intros Hall h Hh. apply elem_of_elements, list_elem_of_In, Hall in Hh.
  by apply bool_decide_eq_true in Hh.
Qed.
Lemma short_run : rtc (node_step store conf genesis (hash x01) validators first_key iter no_debug)
  (empty_storage, mkCaches None ∅) (s2, mkCaches None ∅).
Proof.
  eapply rtc_l; [refine (node_insert _ _ _ _ _ _ _ _ empty_storage _ genesis false true _ _); [by vm_compute|apply ok_no_panic; vm_compute; reflexivity]|].
  eapply rtc_l; [refine (node_insert _ _ _ _ _ _ _ _ s1 _ first false false _ _); [by vm_compute|apply ok_no_panic; vm_compute; reflexivity]|]. apply rtc_refl.
Qed.
(** The second block is inserted while the snapshot of the first is taken. *)
Lemma stale_scope_witness : exists sn c1 sn' c2,
  snapshot s2 (fun _ => s3) (mkCaches None ∅) = (Some (Ok sn), c1) /\
  snapshot s3 (fun s => s) c1 = (Some (Ok sn'), c2) /\
  sn_tips sn' = [hash x03] /\ sn_deploys_in_scope sn' = sn_deploys_in_scope sn /\
  ~ snapshot_of store conf genesis validators iter s3 (dag_of s3) sn'.
Proof.
  destruct (stale_scope store conf genesis (hash x01) validators first_key iter no_debug empty_storage s2 (mkCaches None ∅)
    (dag_of s2) s3 (dag_of s3) 20 ltac:(done) ltac:(done) iter_perm first_key_law (fun k => ex_intro _ [alice] eq_refl)
    empty_keyed short_run (ready_checked s2 ltac:(vm_compute; reflexivity)) (ready_checked s3 ltac:(vm_compute; reflexivity))
    ltac:(vm_compute; reflexivity) (unchanged_true s2 s3 ltac:(vm_compute; reflexivity)) ltac:(vm_compute; reflexivity)
    ltac:(vm_compute; lia) ltac:(vm_compute; lia)) as (sn & c1 & sn' & c2 & H1 & _ & H3 & H4 & H5 & H6).
  assert (sn_tips sn' = [hash x03]) as Ht by (rewrite H4; vm_compute; reflexivity).
  exists sn, c1, sn', c2. split; [exact H1|]. split; [exact H3|]. split; [exact Ht|]. split; [exact H5|].
  apply (H6 (hash x03) [sig2] sig2).
  - rewrite Ht. left.
  - vm_compute. reflexivity.
  - left.
  - assert (returns (fun sn => bool_decide (sig2 ∉ sn_deploys_in_scope sn)) (snapshot s2 (fun _ => s3) (mkCaches None ∅)) = true)
      as Hno by (vm_compute; reflexivity).
    rewrite H1 in Hno. exact (proj1 (bool_decide_eq_true _) Hno).
Defined.
Lemma snapshot_parents_correct_witness :
  parents_spec store conf genesis (dag_of s3) (selected_parents store conf genesis iter (dag_of s3) (metas_of s3)) /\
  block_hash <$> selected_parents store conf genesis (fun s => reverse (elements s)) (dag_of s3) (metas_of s3) = [hash x03].
Proof.
  destruct (snapshot_parents_correct store conf genesis (dag_of s3) (metas_of s3) iter (fun s => reverse (elements s))
    (ready_known store genesis (hash x01) s3 (dag_of s3) (ready_checked s3 ltac:(vm_compute; reflexivity)))
    ltac:(done) ltac:(done) iter_perm (fun s => reverse_Permutation (elements s))) as [H1 H2].
  split; [exact H1|]. vm_compute. reflexivity.
Defined.
End Race.
