(* ===== verification/ConflictSetMerger.v ===== *)
(** * Resolving conflicts

    [casper/src/rust/merging/conflict_set_merger.rs].  Given the units to merge,
    [resolve_conflicts] rejects those that depend on late ones, groups the rest into
    branches, rejects a cheapest set of branches that resolves all conflicts, and rejects
    further branches whose number channels would overflow or become negative;
    [compute_merged_state] applies the remaining ones to the base state.

    [R] is the unit of rejection.  A [HashSet] is a finite set; where the iteration order matters
    it is a parameter: [iter_options] for the set of rejection options, [iter_branch] for the
    units of a branch, the first of which fixes how a number channel merges.
    Costs are [u64] and sums of them wrap.  Logging, metrics and timings are left out. *)
From S2P Require Import Prelude Events HotStoreSig HistoryRepo MergingLogic RelatedSets.
From S2P Require Import StateChange NumberChannels.
Open Scope res_scope.

(** [Ord for Option<A>] *)
Definition option_cmp {A} (cmp : A -> A -> comparison) (x y : option A) : comparison :=
  match x, y with
  | Some x, Some y => cmp x y
  | Some _, None => Gt
  | None, Some _ => Lt
  | None, None => Eq
  end.

(** [Iterator::sum] on [u64] and [usize] *)
Definition wrap_u64 (z : Z) : Z := (z mod 2 ^ 64)%Z.
Definition sum_u64 (l : list Z) : Z := foldl (fun a b => wrap_u64 (a + b)) 0%Z l.

Section merger.
Context {R : Type} `{Countable R} (cmp : R -> R -> comparison).
Abbreviation Branch := (gset R).

(** [fn compare_branches] *)
Definition compare_branches (a b : Branch) : comparison :=
  let a_sorted := sort_by cmp (elements a) in
  let b_sorted := sort_by cmp (elements b) in
  then_with (Nat.compare (length a_sorted) (length b_sorted))
    (default Eq (head (filter (.≠ Eq) (zip_with cmp a_sorted b_sorted)))).

(** ** [fn get_optimal_rejection] *)

(** [branch.0.iter().min()] *)
Definition min_item (b : Branch) : option R := head (sort_by cmp (elements b)).
Definition option_sum (target_f : Branch -> Z) (o : gset Branch) : Z :=
  sum_u64 (target_f <$> elements o).
Definition option_size (o : gset Branch) : Z :=
  sum_u64 ((fun b : Branch => Z.of_nat (size b)) <$> elements o).
Definition option_first (o : gset Branch) : option R :=
  head (sort_by compare_branches (elements o)) ≫= min_item.
Definition compare_options (target_f : Branch -> Z) (a b : gset Branch) : comparison :=
  then_with (Z.compare (option_sum target_f a) (option_sum target_f b))
    (then_with (Z.compare (option_size a) (option_size b))
       (option_cmp cmp (option_first a) (option_first b))).
(** The heads that the assertion collects, one set for each option. *)
Definition option_heads (o : gset Branch) : gset R :=
  list_to_set (omap min_item (elements o)).
Definition get_optimal_rejection {E} (options : list (gset Branch)) (target_f : Branch -> Z) :
  res E (gset Branch) :=
  assert (bool_decide (length (option_heads <$> options) = length options)) ;;!
  Ok (default ∅ (head (sort_by (compare_options target_f) options))).

(** ** Balances of the number channels *)

Section balances.
Context (iter_branch : Branch -> list R) (mergeable_channels : R -> NumberChannelsDiff).
Abbreviation balance := (gmap Blake2b256Hash Z).

(** The first fold of [cal_merged_result]: the merge type of the first entry stays. *)
Definition add_diff (acc : NumberChannelsDiff) (kv : Blake2b256Hash * (Z * MergeType)) :
  NumberChannelsDiff :=
  let '(k, (incoming_diff, incoming_mt)) := kv in
  match acc !! k with
  | Some (existing, mt) =>
    <[k := (combine_mergeable_value existing incoming_diff incoming_mt, mt)]> acc
  | None => <[k := (incoming_diff, incoming_mt)]> acc
  end.
Definition branch_diff (branch : Branch) : NumberChannelsDiff :=
  foldl (fun acc x => foldl add_diff acc (btree_entries x)) ∅
    (mergeable_channels <$> iter_branch branch).

(** One channel: an integer that overflows or becomes negative rejects the branch. *)
Definition apply_diff (ba : balance) (kv : Blake2b256Hash * (Z * MergeType)) : option balance :=
  let '(channel, (diff_val, merge_type)) := kv in
  let current := default 0%Z (ba !! channel) in
  match merge_type with
  | IntegerAdd =>
    match checked_add_i64 current diff_val with
    | Some result => if decide (0 <= result)%Z then Some (<[channel := result]> ba) else None
    | None => None
    end
  | BitmaskOr =>
    Some (<[channel := wrap_i64 (Z.lor (as_u64 current) (as_u64 diff_val))]> ba)
  end.
Definition foldO {S X} (f : S -> X -> option S) (s : option S) (l : list X) : option S :=
  foldl (fun o x => s ← o; f s x) s l.
(** [fn cal_merged_result] *)
Definition cal_merged_result (branch : Branch) (origin_result : balance) : option balance :=
  foldO apply_diff (Some origin_result) (btree_entries (branch_diff branch)).

(** [fn fold_rejection] *)
Definition reject_step_balance (st : balance * gset Branch) (branch : Branch) :
  balance * gset Branch :=
  let '(balances, rejected) := st in
  match cal_merged_result branch balances with
  | Some new_balances => (new_balances, rejected)
  | None => (balances, {[branch]} ∪ rejected)
  end.
Definition fold_rejection (base_balance : balance) (branches : gset Branch) : gset Branch :=
  (foldl reject_step_balance (base_balance, ∅)
     (sort_by compare_branches (elements branches))).2.

(** Equality of branches as the code writes it out. *)
Definition same_branch (a b : Branch) : bool :=
  bool_decide (size a = size b) && forallb (fun item => bool_decide (item ∈ b)) (elements a).
Definition in_option (branch : Branch) (o : gset Branch) : bool :=
  existsb (same_branch branch) (elements o).

(** [fn get_merged_result_rejection] *)
Definition get_merged_result_rejection (branches : gset Branch)
    (reject_options : gset (gset Branch)) (base : balance) : gset (gset Branch) :=
  if decide (reject_options = ∅) then {[ fold_rejection base branches ]}
  else
    set_map (fun normal_reject_options =>
      let diff := filter (fun b => in_option b normal_reject_options = false) branches in
      normal_reject_options ∪ fold_rejection base diff) reject_options.
End balances.

(** ** [fn resolve_conflicts] *)

(** [struct ResolvedConflicts], without its timings *)
Record ResolvedConflicts := mkResolved {
  to_merge : list Branch;
  rejected_items : gset R;
  late_set_size : nat;
  actual_set_size : nat;
  branches_count : nat;
  rejected_as_dependents_count : nat;
  optimal_rejection_count : nat;
  conflict_map_conflicts_count : nat;
  rejection_options_count : nat;
}.

Section resolve.
Context {Par : Type} `{!RhoNumber Par}.
Context (iter_options : gset (gset Branch) -> list (gset Branch)) (iter_branch : Branch -> list R).
Context (depends : R -> R -> bool) (cost : R -> Z) (mergeable_channels : R -> NumberChannelsDiff).
Context (get_data : Blake2b256Hash -> res HistoryError (list (Datum (ListParWithRandom Par)))).
Context (compute_branches : gset R -> option (gset Branch)).
Context (compute_conflict_map : gset Branch -> res HistoryError (gmap Branch (gset Branch))).

(** The keys of the number channels of all branches, sorted. *)
Definition all_channel_keys (branches : gset Branch) : list Blake2b256Hash :=
  sort_by bytes_cmp (elements (list_to_set (
    elements branches ≫= fun b => elements b ≫= fun item =>
      (btree_entries (mergeable_channels item)).*1) : gset Blake2b256Hash)).
Definition base_balances (branches : gset Branch) :
  res HistoryError (gmap Blake2b256Hash Z) :=
  res_foldM (fun m channel_hash =>
    value <-! convert_to_read_number get_data channel_hash;
    Ok (<[channel_hash := default 0%Z value]> m)) ∅ (all_channel_keys branches).

Definition resolve_conflicts (actual_seq late_seq : list R) :
  res HistoryError ResolvedConflicts :=
  let actual_set : gset R := list_to_set actual_seq in
  let late_set : gset R := list_to_set late_seq in
  let late_dependent item := existsb (depends item) (elements late_set) in
  let rejected_as_dependents := filter (fun item => late_dependent item = true) actual_set in
  let merge_set := filter (fun item => late_dependent item = false) actual_set in
  branches <-! unwrap (compute_branches merge_set);
  conflict_map <-! compute_conflict_map branches;
  rejection_options <-! unwrap (compute_rejection_options conflict_map);
  base <-! base_balances branches;
  let rejection_options_with_overflow :=
    get_merged_result_rejection iter_branch mergeable_channels branches rejection_options base in
  optimal_rejection <-! get_optimal_rejection (iter_options rejection_options_with_overflow)
    (fun branch => sum_u64 (cost <$> elements branch));
  let to_merge := filter (fun b => in_option b optimal_rejection = false) (elements branches) in
  let optimal_rejection_flattened : gset R := ⋃ (elements optimal_rejection) in
  Ok (mkResolved to_merge
        (late_set ∪ rejected_as_dependents ∪ optimal_rejection_flattened)
        (size late_set) (size actual_set) (size branches) (size rejected_as_dependents)
        (size optimal_rejection)
        (length (filter (fun kv : Branch * gset Branch => kv.2 <> ∅) (map_to_list conflict_map)))
        (size rejection_options)).
End resolve.

(** ** [fn compute_merged_state] *)

Section merged.
Context {TrieAction S : Type}.
Context (state_changes : R -> res HistoryError StateChange).
Context (mergeable_channels : R -> NumberChannelsDiff).
Context (compute_trie_actions : StateChange -> NumberChannelsDiff ->
  res HistoryError (list TrieAction)).
(** Applying the actions writes to the history, a state [S]. *)
Context (apply_trie_actions : list TrieAction -> ST S (res HistoryError Blake2b256Hash)).

Definition to_merge_items (resolved : ResolvedConflicts) : list R :=
  sort_by compare_branches (to_merge resolved) ≫= fun branch => sort_by cmp (elements branch).
Definition all_changes (items : list R) : res HistoryError StateChange :=
  res_foldM (fun combined item =>
    item_changes <-! state_changes item;
    Ok (combine_state_change combined item_changes)) empty_state_change items.
(** The loop is that of [EventLogIndex::combine]. *)
Definition all_mergeable_channels (items : list R) : res HistoryError NumberChannelsDiff :=
  res_foldM (fun acc item => res_foldM add_number_channel acc (btree_entries (mergeable_channels item)))
    ∅ items.
Definition compute_merged_state (resolved : ResolvedConflicts) :
  ST S (res HistoryError Blake2b256Hash) :=
  let items := to_merge_items resolved in
  changes <- lift (all_changes items) ;?
  mergeable <- lift (all_mergeable_channels items) ;?
  trie_actions <- lift (compute_trie_actions changes mergeable) ;?
  apply_trie_actions trie_actions.
End merged.

(** ** [fn merge] *)

Definition merge_units {Par TrieAction S : Type} `{!RhoNumber Par}
    (iter_options : gset (gset Branch) -> list (gset Branch)) (iter_branch : Branch -> list R)
    (actual_seq late_seq : list R) (depends : R -> R -> bool) (cost : R -> Z)
    (state_changes : R -> res HistoryError StateChange)
    (mergeable_channels : R -> NumberChannelsDiff)
    (compute_trie_actions : StateChange -> NumberChannelsDiff ->
       res HistoryError (list TrieAction))
    (apply_trie_actions : list TrieAction -> ST S (res HistoryError Blake2b256Hash))
    (get_data : Blake2b256Hash -> res HistoryError (list (Datum (ListParWithRandom Par))))
    (compute_branches : gset R -> option (gset Branch))
    (compute_conflict_map : gset Branch -> res HistoryError (gmap Branch (gset Branch))) :
  ST S (res HistoryError (Blake2b256Hash * gset R)) :=
  resolved <- lift (resolve_conflicts iter_options iter_branch depends cost mergeable_channels get_data
    compute_branches compute_conflict_map actual_seq late_seq) ;?
  new_state <- compute_merged_state state_changes mergeable_channels compute_trie_actions
    apply_trie_actions resolved ;?
  lift (Ok (new_state, rejected_items resolved)).
End merger.
Arguments ResolvedConflicts R {_ _}.
