(* ===== verification/ConflictSetMergerThms.v ===== *)
(** * What conflict resolution guarantees

    The branches that [resolve_conflicts] keeps do not conflict, do not depend on late
    units and together leave every balance non-negative; kept and rejected units partition
    the input; and the rejection is a cheapest of the options. *)
From S2P Require Import Prelude Events HotStoreSig HistoryRepo MergingLogic MergingMaps.
From S2P Require Import MergingCombine RelatedSets StateChange NumberChannels ConflictSetMerger.
From S2P Require Import Blake2b512Random Blake2b512RandomBytes.

(** ** Orders *)

#[global] Instance option_cmp_preorder {A} (cmp : A -> A -> comparison) `{!CmpPreorder cmp} :
  CmpPreorder (option_cmp cmp).
Proof.
  split; unfold cmp_le.
  - intros [x|] [y|]; simpl; try done. apply (cmp_sym cmp).
  - intros [x|] [y|] [z|]; simpl; try done. apply (cmp_le_trans cmp x y z).
Qed.

Section sorting.
Context {A : Type} (cmp : A -> A -> comparison) `{!CmpPreorder cmp}.

Lemma StronglySorted_filter (Q : A -> Prop) `{!forall x, Decision (Q x)} l :
  StronglySorted (cmp_le cmp) l -> StronglySorted (cmp_le cmp) (filter Q l).
Proof.
  induction 1 as [|x l Hl IH Hx]; [constructor|]. rewrite filter_cons.
  case_decide; [|done]. constructor; [done|]. rewrite Forall_forall in Hx |- *.
  intros y [_ Hy]%list_elem_of_filter. by apply Hx.
Qed.
Lemma filter_sort_by (Q : A -> Prop) `{!forall x, Decision (Q x)} l :
  (forall x y, x ∈ l -> y ∈ l -> cmp x y = Eq -> x = y) ->
  filter Q (sort_by cmp l) = sort_by cmp (filter Q l).
Proof.
  intros Hinj. apply (StronglySorted_unique_strong (cmp_le cmp)).
  - intros x y. rewrite list_elem_of_filter, !elem_of_sort_by, list_elem_of_filter.
    intros [_ Hx] [_ Hy] Hxy Hyx. apply Hinj; [done..|]. by apply (cmp_le_antisym cmp).
  - by apply StronglySorted_filter, sort_by_sorted.
  - by apply sort_by_sorted.
  - by rewrite !sort_by_perm.
Qed.
Lemma first_difference (l k : list A) :
  length l = length k ->
  default Eq (head (filter (.≠ Eq) (zip_with cmp l k))) = list_cmp cmp l k.
Proof.
  revert k. induction l as [|x l IH]; intros [|y k]; try done. intros [= Hl].
  cbn [zip_with list_cmp]. rewrite filter_cons.
  destruct (cmp x y) eqn:E; simpl; [|done..]. by apply IH.
Qed.
End sorting.

Section merger.
Context {R : Type} `{Countable R} (cmp : R -> R -> comparison) `{!CmpPreorder cmp}.
Abbreviation Branch := (gset R).
Implicit Types b : Branch.

Definition branch_key b : nat * list R := (size b, sort_by cmp (elements b)).
Lemma branch_key_inj b b' : branch_key b = branch_key b' -> b = b'.
Proof.
  unfold branch_key. intros [= _ Hs]. apply set_eq. intros x.
  by rewrite <- !elem_of_elements, <- (elem_of_sort_by cmp), Hs, elem_of_sort_by.
Qed.
Lemma compare_branches_key b b' :
  compare_branches cmp b b' = pair_cmp Nat.compare (list_cmp cmp) (branch_key b) (branch_key b').
Proof.
  unfold compare_branches, pair_cmp, branch_key. cbn [fst snd].
  rewrite !length_sort_by.
  change (length (elements b)) with (size b). change (length (elements b')) with (size b').
  destruct (Nat.compare (size b) (size b')) eqn:E; [|done..]. simpl.
  apply first_difference. rewrite !length_sort_by. by apply Nat.compare_eq_iff in E.
Qed.
#[global] Instance compare_branches_preorder : CmpPreorder (compare_branches cmp).
Proof.
  split; unfold cmp_le; intros *; rewrite !compare_branches_key.
  - apply (cmp_sym (pair_cmp Nat.compare (list_cmp cmp))).
  - apply (cmp_le_trans (pair_cmp Nat.compare (list_cmp cmp)) _ (branch_key y) _).
Qed.
(** [Ord] agrees with equality on the units of a set. *)
Definition ordered_on (s : gset R) : Prop :=
  forall x y, x ∈ s -> y ∈ s -> cmp x y = Eq -> x = y.
Lemma compare_branches_eq s b b' :
  ordered_on s -> b ⊆ s -> b' ⊆ s -> compare_branches cmp b b' = Eq -> b = b'.
Proof.
  intros Hs Hb Hb'. rewrite compare_branches_key. unfold pair_cmp. intros Hc.
  apply branch_key_inj. unfold branch_key in *. cbn [fst snd] in Hc.
  destruct (Nat.compare (size b) (size b')) eqn:E; [|done..]. apply Nat.compare_eq in E.
  simpl in Hc. rewrite E. f_equal. apply list_cmp_Eq in Hc. apply list_eq_Forall2.
  apply Forall2_same_length_lookup in Hc as [Hlen Hc].
  apply Forall2_same_length_lookup. split; [done|]. intros i x y Hx Hy.
  apply Hs; [apply Hb|apply Hb'|by apply (Hc i)].
  - apply elem_of_elements, (elem_of_sort_by cmp). by eapply list_elem_of_lookup_2.
  - apply elem_of_elements, (elem_of_sort_by cmp). by eapply list_elem_of_lookup_2.
Qed.
(** Branches of ordered units. *)
Definition branches_within (s : gset R) (bs : gset Branch) : Prop := forall b, b ∈ bs -> b ⊆ s.
Lemma sort_branches_unique s bs l k :
  ordered_on s -> branches_within s bs -> (forall b, b ∈ l -> b ∈ bs) -> l ≡ₚ k ->
  sort_by (compare_branches cmp) l = sort_by (compare_branches cmp) k.
Proof.
  intros Hs Hbs Hl. apply sort_by_unique_on; [apply _|]. intros b b' Hb Hb'.
  apply (compare_branches_eq s); auto.
Qed.
#[global] Instance compare_options_preorder target_f : CmpPreorder (compare_options cmp target_f).
Proof.
  exact (cmp_on_preorder (fun o => (option_sum target_f o, (option_size o, option_first cmp o)))
    (pair_cmp Z.compare (pair_cmp Z.compare (option_cmp cmp)))).
Qed.

Lemma same_branch_true b b' : same_branch b b' = true <-> b = b'.
Proof.
  unfold same_branch. rewrite andb_true_iff, bool_decide_eq_true, forallb_forall. split.
  - intros [Hs Hin]. apply set_subseteq_size_eq; [|lia]. intros x Hx.
    apply (bool_decide_unpack _). rewrite (Hin x); [done|].
    by apply list_elem_of_In, elem_of_elements.
  - intros ->. split; [done|]. intros x Hx. apply bool_decide_eq_true.
    by apply elem_of_elements, list_elem_of_In.
Qed.
Lemma in_option_true b (o : gset Branch) : in_option b o = true <-> b ∈ o.
Proof.
  unfold in_option. rewrite existsb_exists. setoid_rewrite same_branch_true.
  setoid_rewrite <- list_elem_of_In. setoid_rewrite elem_of_elements. naive_solver.
Qed.
Lemma in_option_false b (o : gset Branch) : in_option b o = false <-> b ∉ o.
Proof. rewrite <- in_option_true. by destruct (in_option b o). Qed.

(** ** The optimal rejection *)

Lemma get_optimal_rejection_spec {E} (options : list (gset Branch)) target_f :
  options <> [] ->
  exists o, get_optimal_rejection (E:=E) cmp options target_f = Ok o /\ o ∈ options /\
    forall o', o' ∈ options -> cmp_le (compare_options cmp target_f) o o'.
Proof.
  intros Hne. unfold get_optimal_rejection. rewrite bool_decide_eq_true_2 by (by rewrite length_fmap).
  simpl. destruct (sort_by (compare_options cmp target_f) options) as [|o os] eqn:Hs.
  - exfalso. apply Hne. apply Permutation_nil_r. rewrite <- Hs. symmetry. apply sort_by_perm.
  - exists o. split; [done|]. by apply (sort_by_head _ _ _ _ Hs).
Qed.
Lemma compare_options_sum target_f o o' :
  cmp_le (compare_options cmp target_f) o o' ->
  (option_sum target_f o <= option_sum target_f o')%Z.
Proof.
  unfold cmp_le, compare_options, then_with. intros Hc.
  destruct (Z.compare_spec (option_sum target_f o) (option_sum target_f o')); [lia..|done].
Qed.

(** ** Balances *)

Section balances.
Context (iter_branch : Branch -> list R) (mergeable_channels : R -> NumberChannelsDiff).
Abbreviation balance := (gmap Blake2b256Hash Z).
Abbreviation cal := (cal_merged_result iter_branch mergeable_channels).
Definition merge_branch (s : balance) b : option balance := cal b s.

Lemma foldO_None {S X} (f : S -> X -> option S) l : foldO f None l = None.
Proof. unfold foldO. by induction l. Qed.
Lemma foldO_cons {S X} (f : S -> X -> option S) s x l :
  foldO f (Some s) (x :: l) = foldO f (f s x) l.
Proof. done. Qed.

(** The branches that are not rejected fold to the balances of the loop. *)
Lemma reject_steps l bal rej :
  NoDup l -> (forall b, b ∈ l -> b ∉ rej) ->
  let st := foldl (reject_step_balance iter_branch mergeable_channels) (bal, rej) l in
  rej ⊆ st.2 /\ (forall b, b ∈ st.2 -> b ∈ rej \/ b ∈ l) /\
  foldO merge_branch (Some bal) (filter (.∉ st.2) l) = Some st.1.
Proof.
  revert bal rej. induction l as [|b l IH]; intros bal rej Hnd Hrej.
  { split_and!; [done|auto|done]. }
  apply NoDup_cons in Hnd as [Hb Hnd]. cbv zeta. cbn [foldl reject_step_balance].
  destruct (cal b bal) as [bal'|] eqn:Hcal.
  - destruct (IH bal' rej Hnd) as (Hsub & Hin & Hf). { intros b' Hb'. apply Hrej. by right. }
    set (st := foldl _ _ l) in *. split_and!; [done|intros b' [?|?]%Hin; [by left|right; by right]|].
    rewrite filter_cons_True.
    + rewrite foldO_cons. unfold merge_branch at 2. by rewrite Hcal.
    + intros [?|?]%Hin; [|done]. apply (Hrej b); [left|done].
  - destruct (IH bal ({[b]} ∪ rej) Hnd) as (Hsub & Hin & Hf).
    { intros b' Hb' [->%elem_of_singleton|?]%elem_of_union; [done|].
      apply (Hrej b'); [by right|done]. }
    set (st := foldl _ _ l) in *. split_and!.
    + intros x Hx. apply Hsub. by apply elem_of_union_r.
    + intros b' [[->%elem_of_singleton|?]%elem_of_union|?]%Hin;
        [right; left|by left|right; by right].
    + rewrite filter_cons_False; [done|]. intros Hn. apply Hn, Hsub.
      apply elem_of_union_l. by apply elem_of_singleton.
Qed.
(** A branch that the loop rejects cannot be merged after those that it kept before. *)
Definition does_not_fit (bal : balance) (tried kept_ : list Branch) b : Prop :=
  exists before after s, tried = before ++ b :: after /\
    foldO merge_branch (Some bal) (filter (.∈ kept_) before) = Some s /\ cal b s = None.
Lemma reject_steps_because l bal rej b :
  NoDup l -> (forall b, b ∈ l -> b ∉ rej) ->
  let st := foldl (reject_step_balance iter_branch mergeable_channels) (bal, rej) l in
  b ∈ st.2 -> b ∉ rej -> does_not_fit bal l (filter (.∉ st.2) l) b.
Proof.
  revert bal rej. induction l as [|x l IH]; intros bal rej Hnd Hrej; [done|].
  apply NoDup_cons in Hnd as [Hx Hnd]. cbv zeta. cbn [foldl reject_step_balance].
  assert (forall rej', rej ⊆ rej' -> (forall y, y ∈ rej' -> y ∈ rej \/ y = x) -> forall y, y ∈ l -> y ∉ rej') as Hl.
  { intros rej' _ Hr y Hy Hyr. destruct (Hr y Hyr) as [?| ->]; [|done]. apply (Hrej y); [by right|done]. }
  assert (forall y k (before : list Branch), y ∉ before ->
    filter (.∈ y :: k) before = filter (.∈ k) before) as Hskip.
  { intros y k before Hy. apply filter_same_on. intros z Hz. rewrite elem_of_cons.
    split; [intros [->|?]; done|by right]. }
  destruct (cal x bal) as [bal'|] eqn:Hcal.
  - assert (forall y, y ∈ l -> y ∉ rej) as Hl1 by (apply Hl; [done|by left]).
    destruct (reject_steps l bal' rej Hnd Hl1) as (_ & Hin & _). specialize (IH bal' rej Hnd Hl1).
    set (st := foldl _ _ l) in *. intros Hb Hbr. destruct (IH Hb Hbr) as (before & after & s & -> & Hf & Hc).
    exists (x :: before), after, s. split_and!; [done| |done].
    assert (x ∉ st.2) as Hxs by (intros [?|?]%Hin; [by apply (Hrej x); [left|]|done]).
    rewrite (filter_cons_True (.∉ st.2)) by done. rewrite filter_cons_True by left.
    rewrite foldO_cons. unfold merge_branch at 2. rewrite Hcal. rewrite Hskip; [done|].
    intros ?. apply Hx, elem_of_app. by left.
  - assert (forall y, y ∈ l -> y ∉ ({[x]} ∪ rej : gset Branch)) as Hl1.
    { apply Hl; [set_solver|]. intros y [->%elem_of_singleton|?]%elem_of_union; auto. }
    destruct (reject_steps l bal ({[x]} ∪ rej) Hnd Hl1) as (Hsub & _ & _). specialize (IH bal ({[x]} ∪ rej) Hnd Hl1).
    set (st := foldl _ _ l) in *. intros Hb Hbr.
    assert (x ∈ st.2) as Hxs by (apply Hsub; set_solver).
    rewrite (filter_cons_False (.∉ st.2)) by (by intros Hn).
    destruct (decide (b = x)) as [->|Hne].
    { exists [], l, bal. done. }
    destruct (IH Hb ltac:(set_solver)) as (before & after & s & -> & Hf & Hc).
    exists (x :: before), after, s. split_and!; [done| |done]. rewrite filter_cons_False; [done|].
    intros [_ Hin]%list_elem_of_filter. done.
Qed.
Lemma fold_rejection_because bal (bs : gset Branch) b :
  b ∈ fold_rejection cmp iter_branch mergeable_channels bal bs ->
  does_not_fit bal (sort_by (compare_branches cmp) (elements bs))
    (elements (bs ∖ fold_rejection cmp iter_branch mergeable_channels bal bs)) b.
Proof.
  intros Hb. unfold fold_rejection in *.
  destruct (reject_steps_because (sort_by (compare_branches cmp) (elements bs)) bal ∅ b) as (before & after & s & Hl & Hf & Hc).
  { rewrite sort_by_perm. apply NoDup_elements. }
  { set_solver. }
  { done. }
  { set_solver. }
  exists before, after, s. split_and!; [done| |done]. rewrite <-Hf. f_equal. apply filter_same_on.
  intros x Hx. assert (x ∈ bs) as Hxb.
  { rewrite <-(elem_of_elements (C:=gset Branch)), <-(elem_of_sort_by (compare_branches cmp)), Hl. apply elem_of_app. by left. }
  rewrite elem_of_elements, elem_of_difference, list_elem_of_filter, elem_of_sort_by, elem_of_elements. tauto.
Qed.
Lemma fold_rejection_sub bal (bs : gset Branch) : fold_rejection cmp iter_branch mergeable_channels bal bs ⊆ bs.
Proof.
  unfold fold_rejection.
  destruct (reject_steps (sort_by (compare_branches cmp) (elements bs)) bal ∅) as (_ & Hin & _).
  { rewrite sort_by_perm. apply NoDup_elements. }
  { set_solver. }
  intros b [?|Hb]%Hin; [set_solver|]. by rewrite elem_of_sort_by, elem_of_elements in Hb.
Qed.
Lemma fold_rejection_merges s bal (bs : gset Branch) :
  ordered_on s -> branches_within s bs ->
  exists fin, foldO merge_branch (Some bal)
    (sort_by (compare_branches cmp)
       (elements (bs ∖ fold_rejection cmp iter_branch mergeable_channels bal bs))) = Some fin.
Proof.
  intros Hs Hbs. unfold fold_rejection.
  destruct (reject_steps (sort_by (compare_branches cmp) (elements bs)) bal ∅)
    as (_ & Hin & Hf).
  { rewrite sort_by_perm. apply NoDup_elements. }
  { set_solver. }
  set (st := foldl _ _ _) in *. exists st.1. rewrite <- Hf. f_equal.
  rewrite filter_sort_by; [|apply _|].
  2:{ intros b b'. rewrite !elem_of_elements. intros Hb Hb'.
      apply (compare_branches_eq s); auto. }
  apply (sort_branches_unique s bs); [done..| |].
  { intros b. rewrite elem_of_elements. set_solver. }
  apply NoDup_Permutation.
  - apply NoDup_elements.
  - apply NoDup_filter, NoDup_elements.
  - intros b. rewrite list_elem_of_filter, !elem_of_elements. set_solver.
Qed.

(** What merging a branch may do to the balances: every integer it changes is the exact sum
    and stays between 0 and the greatest [i64], bitmaps only gain bits, and the rest stays. *)
Definition branch_applies (s : balance) b (s' : balance) : Prop :=
  forall k, match branch_diff iter_branch mergeable_channels b !! k with
    | Some (d, IntegerAdd) =>
      s' !! k = Some (default 0%Z (s !! k) + d)%Z /\ (0 <= default 0%Z (s !! k) + d < 2 ^ 63)%Z
    | Some (d, BitmaskOr) =>
      s' !! k = Some (combine_mergeable_value (default 0%Z (s !! k)) d BitmaskOr)
    | None => s' !! k = s !! k
    end.
(** The branches can be merged one after the other. *)
Inductive balances_hold : balance -> list Branch -> Prop :=
  | balances_hold_nil s : balances_hold s []
  | balances_hold_cons s s' b bs :
      branch_applies s b s' -> balances_hold s' bs -> balances_hold s (b :: bs).

Lemma apply_diff_spec s s' k d t :
  apply_diff s (k, (d, t)) = Some s' ->
  s' = <[k := combine_mergeable_value (default 0%Z (s !! k)) d t]> s /\
  (t = IntegerAdd -> combine_mergeable_value (default 0%Z (s !! k)) d t = default 0%Z (s !! k) + d /\
     0 <= default 0%Z (s !! k) + d < 2 ^ 63)%Z.
Proof.
  unfold apply_diff. destruct t; [|by intros [= <-]].
  destruct (checked_add_i64 _ d) as [z|] eqn:Hc; [|done].
  apply checked_add_i64_Some in Hc as [-> Hr]. case_decide; [|done]. intros [= <-].
  simpl. rewrite wrap_i64_id by done. unfold i64_range, i64_max in Hr. split_and!; [done|intros _; lia].
Qed.
Lemma apply_diffs_lookup l s s' k :
  NoDup l.*1 -> foldO apply_diff (Some s) l = Some s' ->
  match (list_to_map l : NumberChannelsDiff) !! k with
  | Some (d, t) => s' !! k = Some (combine_mergeable_value (default 0%Z (s !! k)) d t) /\
      (t = IntegerAdd -> combine_mergeable_value (default 0%Z (s !! k)) d t = default 0%Z (s !! k) + d /\
         0 <= default 0%Z (s !! k) + d < 2 ^ 63)%Z
  | None => s' !! k = s !! k
  end.
Proof.
  revert s. induction l as [|[k' [d t]] l IH]; intros s Hnd Hf.
  { injection Hf as ->. simpl. by rewrite lookup_empty. }
  apply NoDup_cons in Hnd as [Hk Hnd]. rewrite foldO_cons in Hf.
  destruct (apply_diff s (k', (d, t))) as [s1|] eqn:E; [|by rewrite foldO_None in Hf].
  apply apply_diff_spec in E as [-> Hpos].
  specialize (IH _ Hnd Hf). simpl. destruct (decide (k' = k)) as [->|Hne].
  - apply (not_elem_of_list_to_map_1 (M:=gmap Blake2b256Hash)) in Hk. simpl in Hk.
    rewrite Hk, lookup_insert_eq in IH. by rewrite lookup_insert_eq.
  - rewrite lookup_insert_ne by done. by rewrite lookup_insert_ne in IH by done.
Qed.
Lemma cal_merged_result_applies b s s' : cal b s = Some s' -> branch_applies s b s'.
Proof.
  intros Hc k. pose proof (apply_diffs_lookup _ _ _ k (btree_entries_NoDup _) Hc) as Hk.
  rewrite list_to_map_btree_entries in Hk.
  destruct (branch_diff iter_branch mergeable_channels b !! k) as [[d []]|]; [|by apply Hk|done].
  destruct Hk as [-> Hi]. by destruct (Hi eq_refl) as [-> ?].
Qed.
Lemma merged_balances_hold bs s fin :
  foldO merge_branch (Some s) bs = Some fin -> balances_hold s bs.
Proof.
  revert s. induction bs as [|b bs IH]; intros s Hf; [constructor|].
  rewrite foldO_cons in Hf. destruct (merge_branch s b) as [s'|] eqn:E; [|by rewrite foldO_None in Hf].
  econstructor; [by apply cal_merged_result_applies|by apply IH].
Qed.
End balances.
(** ** Resolution *)

(** What the callers of [resolve_conflicts] have to provide, as its comments ask. *)
Definition partitions (bs : gset Branch) (s : gset R) : Prop :=
  (forall x, x ∈ s <-> exists b, b ∈ bs /\ x ∈ b) /\
  (forall b b' x, b ∈ bs -> b' ∈ bs -> x ∈ b -> x ∈ b' -> b = b').
Class BranchOps (units : gset R) (compute_branches : gset R -> option (gset Branch))
    (compute_conflict_map : gset Branch -> res HistoryError (gmap Branch (gset Branch))) : Prop := {
  branches_total : forall s, s ⊆ units ->
    exists bs, compute_branches s = Some bs /\ partitions bs s;
  conflict_map_no_panic : forall bs, branches_within units bs -> compute_conflict_map bs <> Panic;
  conflict_map_dom : forall bs cm, branches_within units bs ->
    compute_conflict_map bs = Ok cm -> dom cm = bs;
  conflict_map_sym : forall bs cm b b', branches_within units bs ->
    compute_conflict_map bs = Ok cm -> related cm b b' -> related cm b' b;
  conflict_map_irr : forall bs cm b, branches_within units bs ->
    compute_conflict_map bs = Ok cm -> ~ related cm b b;
}.
Lemma partitions_within bs s units : partitions bs s -> s ⊆ units -> branches_within units bs.
Proof. intros [Hp _] Hs b Hb x Hx. apply Hs, Hp. eauto. Qed.

(** The components of a symmetric relation are a partition. *)
Lemma gathered_partition (rm : gmap R (gset R)) (s : gset R) :
  dom rm = s -> (forall x y, related rm x y -> related rm y x) ->
  exists bs, gather_related_sets rm = Some bs /\ partitions bs s.
Proof.
  intros Hdom Hsym. destruct (gather_related_sets_spec rm Hsym) as (bs & Hbs & HX).
  exists bs. split; [done|].
  assert (forall k x, k ∈ s -> rtc (related rm) k x -> x ∈ s) as Hclosed.
  { intros k x Hk Hr. induction Hr as [|x y z Hxy _ IH]; [done|]. apply IH.
    apply Hsym in Hxy as (s' & Hs' & _). rewrite <- Hdom. by eapply elem_of_dom_2. }
  split.
  - intros x. split.
    + intros Hx. rewrite <- Hdom in Hx. destruct (component_reaches rm x Hx) as (X & _ & HX').
      exists X. split; [apply HX; eauto|]. by apply HX'.
    + intros (X & (k & Hk & Hr)%HX & Hx). rewrite Hdom in Hk. apply (Hclosed k); [done|].
      by apply Hr.
  - intros X Y x (k & Hk & Hr)%HX (k' & Hk' & Hr')%HX HxX HxY.
    assert (forall x y, rtc (related rm) x y -> rtc (related rm) y x) as Hback.
    { intros y z Hyz. induction Hyz as [|y w z Hyw _ IH]; [done|]. eapply rtc_r; eauto. }
    apply (reaches_sym_eq rm k k'); [done..|]. apply Hr.
    transitivity x; [by apply Hr|]. by apply Hback, Hr'.
Qed.

Section resolve.
Context {Par : Type} `{!RhoNumber Par}.
Context (iter_options : gset (gset Branch) -> list (gset Branch)).
Context (iter_perm : forall s, iter_options s ≡ₚ elements s) (iter_branch : Branch -> list R).
Context (depends : R -> R -> bool) (cost : R -> Z) (mergeable_channels : R -> NumberChannelsDiff).
Context (get_data : Blake2b256Hash -> res HistoryError (list (Datum (ListParWithRandom Par)))).
Context (compute_branches : gset R -> option (gset Branch)).
Context (compute_conflict_map : gset Branch -> res HistoryError (gmap Branch (gset Branch))).
Context (units : gset R) `{!BranchOps units compute_branches compute_conflict_map}.
Abbreviation resolve := (resolve_conflicts cmp iter_options iter_branch depends cost mergeable_channels
  get_data compute_branches compute_conflict_map).
Abbreviation base_of := (base_balances mergeable_channels get_data).

Lemma merged_rejection_spec (bs : gset Branch) (ropts : gset (gset Branch)) base :
  get_merged_result_rejection cmp iter_branch mergeable_channels bs ropts base <> ∅ /\
  forall o, o ∈ get_merged_result_rejection cmp iter_branch mergeable_channels bs ropts base ->
    exists n, (n ∈ ropts \/ (ropts = ∅ /\ n = ∅)) /\
      o = n ∪ fold_rejection cmp iter_branch mergeable_channels base (bs ∖ n).
Proof.
  assert (forall n : gset Branch,
    filter (fun b => in_option b n = false) bs = bs ∖ n) as Hdiff.
  { intros n. apply set_eq. intros b. rewrite elem_of_filter, in_option_false. set_solver. }
  unfold get_merged_result_rejection. case_decide as Hr.
  - split; [set_solver|]. intros o ->%elem_of_singleton. exists ∅. split; [by right|].
    rewrite difference_empty_L. set_solver.
  - split.
    + apply set_choose_L in Hr as [n Hn]. intros He.
      assert (n ∪ fold_rejection cmp iter_branch mergeable_channels base (filter (fun b => in_option b n = false) bs)
        ∈ (∅ : gset (gset Branch))); [|set_solver].
      rewrite <- He. apply elem_of_map. by exists n.
    + intros o (n & -> & Hn)%elem_of_map. exists n. rewrite Hdiff. auto.
Qed.

(** Reading the base state panics only if the reader does. *)
Lemma read_number_no_panic h :
  get_data h <> Panic -> convert_to_read_number get_data h <> Panic.
Proof.
  intros Hg. unfold convert_to_read_number. destruct (get_data h) as [data|e|]; [|done..].
  cbn [res_bind]. case_decide; [done|]. destruct (head data) as [d|]; [|done].
  unfold try_get_number_with_rnd. destruct (pars (datum_a d)) as [|q [|q' l]]; [done| |done].
  destruct (unapply_number q); [|done].
  destruct (random_from_bytes_total (E:=HistoryError) (random_state (datum_a d))) as [rnd ->]. done.
Qed.
Lemma base_balances_no_panic bs : (forall h, get_data h <> Panic) -> base_of bs <> Panic.
Proof.
  intros Hg. unfold base_balances. generalize (∅ : gmap Blake2b256Hash Z).
  induction (all_channel_keys mergeable_channels bs) as [|h l IH]; intros m; [done|].
  cbn [res_foldM]. pose proof (read_number_no_panic h (Hg h)) as Hn.
  destruct (convert_to_read_number get_data h); [|done..]. cbn [res_bind]. apply IH.
Qed.

(** The units that depend on a late one. *)
Definition late_dependent (late : list R) (item : R) : Prop :=
  exists l, l ∈ late /\ depends item l = true.
Lemma late_dependent_bool late x :
  existsb (depends x) (elements (list_to_set late : gset R)) = true <-> late_dependent late x.
Proof.
  unfold late_dependent. rewrite existsb_exists.
  setoid_rewrite <- list_elem_of_In. setoid_rewrite elem_of_elements.
  by setoid_rewrite elem_of_list_to_set.
Qed.

(** The set that is rejected for an option [n], and its cost. *)
Definition rejected_for base (bs n : gset Branch) : gset Branch :=
  n ∪ fold_rejection cmp iter_branch mergeable_channels base (bs ∖ n).
Definition rejection_cost (o : gset Branch) : Z :=
  option_sum (fun branch => sum_u64 (cost <$> elements branch)) o.

(** The choice of the optimal rejection. *)
Lemma optimal_rejection_inv bs cm ropts base :
  branches_within units bs ->
  compute_conflict_map bs = Ok cm -> compute_rejection_options cm = Some ropts ->
  exists n, rejection_option cm n /\
    get_optimal_rejection (E:=HistoryError) cmp
      (iter_options (get_merged_result_rejection cmp iter_branch mergeable_channels bs ropts base))
      (fun branch => sum_u64 (cost <$> elements branch)) = Ok (rejected_for base bs n) /\
    forall n', rejection_option cm n' ->
      (rejection_cost (rejected_for base bs n) <= rejection_cost (rejected_for base bs n'))%Z.
Proof.
  intros Hbs Hcm Hro.
  assert (Hsym : forall a b, related cm a b -> related cm b a)
    by (intros a b; by apply (conflict_map_sym (units:=units) bs)).
  assert (Hirr : forall a, ~ related cm a a) by (intros a; by apply (conflict_map_irr (units:=units) bs)).
  destruct (rejection_options_spec cm Hsym Hirr) as (ropts' & Hro' & Hopts).
  rewrite Hro in Hro'. injection Hro' as <-.
  destruct (merged_rejection_spec bs ropts base) as [Hne Hin].
  set (opts := get_merged_result_rejection cmp iter_branch mergeable_channels bs ropts base) in *.
  destruct (get_optimal_rejection_spec (E:=HistoryError) (iter_options opts)
    (fun branch => sum_u64 (cost <$> elements branch))) as (o & Ho & Hoin & Hmin).
  { intros He. pose proof (iter_perm opts) as Hp. rewrite He in Hp.
    apply Permutation_nil_l in Hp. by apply Hne, leibniz_equiv, elements_empty_inv. }
  destruct (rejection_option_exists cm Hsym Hirr) as [X HX%Hopts].
  rewrite iter_perm, elem_of_elements in Hoin. apply Hin in Hoin as (n & [Hn|[-> _]] & ->);
    [|set_solver].
  exists n. split_and!; [by apply Hopts|done|]. intros n' Hn'%Hopts.
  apply (compare_options_sum (fun branch => sum_u64 (cost <$> elements branch))), Hmin.
  rewrite iter_perm, elem_of_elements. unfold opts, get_merged_result_rejection.
  rewrite decide_False by set_solver. apply elem_of_map. exists n'. split; [|done].
  unfold rejected_for. do 2 f_equal. apply set_eq. intros b.
  rewrite elem_of_filter, in_option_false. set_solver.
Qed.

(** The parts of a resolution. *)
Lemma resolve_inv actual late :
  (forall h, get_data h <> Panic) -> (forall x, x ∈ actual -> x ∈ units) ->
  match resolve actual late with
  | Ok r => exists bs cm base n,
      partitions bs (filter (fun x => existsb (depends x)
        (elements (list_to_set late : gset R)) = false) (list_to_set actual)) /\
      compute_conflict_map bs = Ok cm /\ base_of bs = Ok base /\ rejection_option cm n /\
      (forall n', rejection_option cm n' ->
        (rejection_cost (rejected_for base bs n) <= rejection_cost (rejected_for base bs n'))%Z) /\
      to_merge r ≡ₚ elements (bs ∖ rejected_for base bs n) /\
      (forall x, x ∈ rejected_items r <->
         x ∈ late \/ (x ∈ actual /\ late_dependent late x) \/
         exists b, b ∈ rejected_for base bs n /\ x ∈ b)
  | Err _ => True
  | Panic => False
  end.
Proof.
  intros Hg Hu. unfold resolve_conflicts. cbv zeta.
  match goal with |- context [compute_branches ?s] =>
    destruct (branches_total (units:=units) s) as (bs & Hbs & Hpart) end.
  { intros x [_ Hx]%elem_of_filter. apply Hu. by apply elem_of_list_to_set in Hx. }
  rewrite Hbs. cbn [unwrap res_bind].
  assert (branches_within units bs) as Hw.
  { apply (partitions_within _ _ _ Hpart). intros x [_ Hx]%elem_of_filter.
    apply Hu. by apply elem_of_list_to_set in Hx. }
  pose proof (conflict_map_no_panic (units:=units) bs Hw) as Hnp.
  destruct (compute_conflict_map bs) as [cm|e|] eqn:Hcm; cbn [res_bind]; [|done..].
  destruct (rejection_options_spec cm) as (ropts & Hro & _).
  { intros a b. by apply (conflict_map_sym (units:=units) bs). }
  { intros a. by apply (conflict_map_irr (units:=units) bs). }
  rewrite Hro. cbn [unwrap res_bind]. pose proof (base_balances_no_panic bs Hg) as Hbp.
  destruct (base_of bs) as [base|e|] eqn:Hbase; cbn [res_bind]; [|done..].
  destruct (optimal_rejection_inv bs cm ropts base Hw Hcm Hro) as (n & Hn & -> & Hmin).
  cbn [res_bind to_merge rejected_items]. exists bs, cm, base, n. split_and!; [done..| |].
  - apply NoDup_Permutation; [apply NoDup_filter, NoDup_elements|apply NoDup_elements|].
    intros b. rewrite list_elem_of_filter, in_option_false, !elem_of_elements. set_solver.
  - intros x. rewrite !elem_of_union, elem_of_list_to_set, elem_of_filter, elem_of_list_to_set.
    rewrite elem_of_union_list, late_dependent_bool. setoid_rewrite elem_of_elements.
    naive_solver.
Qed.

Lemma rejected_for_branches bs cm base n :
  branches_within units bs -> compute_conflict_map bs = Ok cm -> rejection_option cm n -> rejected_for base bs n ⊆ bs.
Proof.
  intros Hw Hcm [_ Hn]. apply union_subseteq. split.
  - intros b (k & _ & Hk)%Hn.
    apply (conflict_map_sym (units:=units) bs cm) in Hk as (s & Hs & _); [|done..].
    rewrite <- (conflict_map_dom (units:=units) bs cm Hw Hcm). apply elem_of_dom. eauto.
  - pose proof (fold_rejection_sub iter_branch mergeable_channels base (bs ∖ n)). set_solver.
Qed.

(** A unit of a branch that is kept. *)
Definition kept (r : ResolvedConflicts R) (x : R) : Prop := exists b, b ∈ to_merge r /\ x ∈ b.
(** The kept branches merge one after the other without overflow. *)
Lemma kept_branches_merge bs base n l :
  ordered_on units -> branches_within units bs -> l ≡ₚ elements (bs ∖ rejected_for base bs n) ->
  exists fin, foldO (merge_branch iter_branch mergeable_channels) (Some base)
    (sort_by (compare_branches cmp) l) = Some fin.
Proof using CmpPreorder0.
  intros Ho Hw Hl.
  destruct (fold_rejection_merges iter_branch mergeable_channels units base (bs ∖ n)) as [fin Hfin]; [done| |].
  { intros b [Hb _]%elem_of_difference. by apply Hw. }
  exists fin. rewrite <- Hfin. f_equal. apply (sort_branches_unique units bs); [done..| |].
  - intros b. rewrite Hl, elem_of_elements. by intros [? _]%elem_of_difference.
  - rewrite Hl. unfold rejected_for. by rewrite difference_difference_l_L.
Qed.

Lemma resolve_spec actual late :
  (forall h, get_data h <> Panic) -> (forall x, x ∈ actual -> x ∉ late) ->
  (forall x, x ∈ actual -> x ∈ units) -> ordered_on units ->
  match resolve actual late with
  | Ok r =>
      (forall x, x ∈ actual \/ x ∈ late <-> kept r x \/ x ∈ rejected_items r) /\
      (forall x, kept r x -> x ∉ rejected_items r) /\
      (forall x l, kept r x -> l ∈ late -> depends x l = false) /\
      exists bs cm base n,
        (forall x, (exists b, b ∈ bs /\ x ∈ b) <-> x ∈ actual /\ ~ late_dependent late x) /\
        (forall b b' x, b ∈ bs -> b' ∈ bs -> x ∈ b -> x ∈ b' -> b = b') /\
        compute_conflict_map bs = Ok cm /\ base_of bs = Ok base /\ rejection_option cm n /\
        (forall b b', b ∈ to_merge r -> b' ∈ to_merge r ->
           b ∈ bs /\ b' ∈ bs /\ ~ related cm b b') /\
        balances_hold iter_branch mergeable_channels base (sort_by (compare_branches cmp) (to_merge r)) /\
        (forall n', rejection_option cm n' ->
           (rejection_cost (rejected_for base bs n) <=
            rejection_cost (rejected_for base bs n'))%Z) /\
        (forall b, b ∈ bs -> b ∈ to_merge r <-> b ∉ rejected_for base bs n) /\
        (forall b, b ∈ bs -> b ∉ to_merge r -> b ∈ n \/
           does_not_fit iter_branch mergeable_channels base
             (sort_by (compare_branches cmp) (elements (bs ∖ n))) (to_merge r) b)
  | Err _ => True
  | Panic => False
  end.
Proof.
  intros Hg Hdisj Hu Ho. pose proof (resolve_inv actual late Hg Hu) as Hr.
  destruct (resolve actual late) as [r|e|]; [|done..].
  destruct Hr as (bs & cm & base & n & [Hpart Huniq] & Hcm & Hbase & Hn & Hmin & Htm & Hrej).
  assert (branches_within units bs) as Hw.
  { apply (partitions_within _ _ _ (conj Hpart Huniq)). intros x [_ Hx]%elem_of_filter.
    apply Hu. by apply elem_of_list_to_set in Hx. }
  pose proof (rejected_for_branches bs cm base n Hw Hcm Hn) as Hsub.
  set (o := rejected_for base bs n) in *.
  assert (forall b, b ∈ to_merge r <-> b ∈ bs /\ b ∉ o) as Hk.
  { intros b. rewrite Htm, elem_of_elements. apply elem_of_difference. }
  assert (forall x, (exists b, b ∈ bs /\ x ∈ b) <-> x ∈ actual /\ ~ late_dependent late x) as Hp.
  { intros x. rewrite <- Hpart, elem_of_filter, elem_of_list_to_set, <- late_dependent_bool.
    by destruct (existsb _ _); intuition. }
  assert (forall x, kept r x -> x ∈ actual /\ ~ late_dependent late x) as Hka.
  { intros x (b & [Hb _]%Hk & Hx). apply Hp. eauto. }
  split_and!.
  - intros x. rewrite Hrej. split.
    + intros [Ha|Hl]; [|auto].
      destruct (existsb (depends x) (elements (list_to_set late : gset R))) eqn:E.
      { apply late_dependent_bool in E. auto. }
      destruct (proj2 (Hp x)) as (b & Hb & Hx).
      { split; [done|]. rewrite <- late_dependent_bool, E. done. }
      destruct (decide (b ∈ o)); [right; right; right; eauto|left; exists b; by rewrite Hk].
    + intros [[? _]%Hka|[?|[[? _]|(b & Hb & Hx)]]]; [auto..|].
      left. apply Hp. exists b. split; [by apply Hsub|done].
  - intros x Hkx. destruct (Hka x Hkx) as [Ha Hnl]. destruct Hkx as (b & [Hb Hbo]%Hk & Hx).
    rewrite Hrej. intros [?|[[_ ?]|(b' & Hb' & Hx')]]; [by apply (Hdisj x)|done|].
    rewrite (Huniq b b' x) in Hbo; auto.
  - intros x l [_ Hnl]%Hka Hl. destruct (depends x l) eqn:E; [|done].
    destruct Hnl. by exists l.
  - destruct (kept_branches_merge bs base n (to_merge r) Ho Hw Htm) as [fin Hfin].
    exists bs, cm, base, n. apply merged_balances_hold in Hfin. split_and!; [done..| |done|done| |].
    + intros b b' [Hb Hbo]%Hk [Hb' Hbo']%Hk. split_and!; [done|done|]. intros Hrel.
      destruct Hn as [Hn _]. unfold o, rejected_for in Hbo, Hbo'.
      destruct (Hn _ _ Hrel); set_solver.
    + intros b Hb. rewrite Hk. naive_solver.
    + intros b Hb Hbm. destruct (decide (b ∈ n)) as [?|Hbn]; [by left|right].
      assert (b ∈ fold_rejection cmp iter_branch mergeable_channels base (bs ∖ n)) as Hbf.
      { destruct (decide (b ∈ o)) as [Hbo|Hbo]; [|by destruct Hbm; apply Hk]. unfold o, rejected_for in Hbo. set_solver. }
      apply fold_rejection_because in Hbf as (before & after & s & Hl & Hf & Hc).
      exists before, after, s. split_and!; [done| |done]. rewrite <-Hf. f_equal. apply filter_same_on. intros x _.
      rewrite Hk, elem_of_elements. unfold o, rejected_for. set_solver.
Qed.

(** C13: [resolve_conflicts] never panics.  If it succeeds, every unit is either kept or
    rejected, and no kept unit depends on a late one.  The units that are not late and do not
    depend on a late one are partitioned into branches: no two kept branches conflict; adding
    the differences of the kept branches one after the other (those within a branch are added
    with wrap-around) never makes a balance overflow or negative.  A branch is rejected only
    because it belongs to the chosen rejection option, a minimal set that resolves all
    conflicts, or because its difference would make a balance overflow or negative after the
    branches that were kept before it.  The option is chosen such that the rejected branches,
    those that the balances reject included, cost least among the rejections that start from
    any other option and are completed in the same way. *)
Theorem resolve_conflicts_sound actual late :
  (forall h, get_data h <> Panic) -> (forall x, x ∈ actual -> x ∉ late) ->
  (forall x, x ∈ actual -> x ∈ units) -> ordered_on units ->
  match resolve actual late with
  | Ok r =>
      (forall x, x ∈ actual \/ x ∈ late <-> kept r x \/ x ∈ rejected_items r) /\
      (forall x, kept r x -> x ∉ rejected_items r) /\
      (forall x l, kept r x -> l ∈ late -> depends x l = false) /\
      exists bs cm base n,
        (forall x, (exists b, b ∈ bs /\ x ∈ b) <-> x ∈ actual /\ ~ late_dependent late x) /\
        (forall b b' x, b ∈ bs -> b' ∈ bs -> x ∈ b -> x ∈ b' -> b = b') /\
        compute_conflict_map bs = Ok cm /\ base_of bs = Ok base /\ rejection_option cm n /\
        (forall b b', b ∈ to_merge r -> b' ∈ to_merge r ->
           b ∈ bs /\ b' ∈ bs /\ ~ related cm b b') /\
        balances_hold iter_branch mergeable_channels base (sort_by (compare_branches cmp) (to_merge r)) /\
        (forall n', rejection_option cm n' ->
           (rejection_cost (rejected_for base bs n) <=
            rejection_cost (rejected_for base bs n'))%Z) /\
        (forall b, b ∈ bs -> b ∈ to_merge r <-> b ∉ rejected_for base bs n) /\
        (forall b, b ∈ bs -> b ∉ to_merge r -> b ∈ n \/
           does_not_fit iter_branch mergeable_channels base
             (sort_by (compare_branches cmp) (elements (bs ∖ n))) (to_merge r) b)
  | Err _ => True
  | Panic => False
  end.
Proof. apply resolve_spec. Qed.
End resolve.
End merger.
