(* ===== verification/MergedBalances.v ===== *)
(** * Merged balances

    [compute_merged_state] ([casper/src/rust/merging/conflict_set_merger.rs]) adds up the
    differences of all kept units in one order, [resolve_conflicts] checked them branch by
    branch in another.  Both agree: the value written for an integer channel is the one that
    was checked and is not negative, as long as no branch that changes the channel is dropped
    between the check and the sum. *)
From S2P Require Import Prelude Events HotStoreSig HistoryRepo MergingLogic MergingMaps.
From S2P Require Import MergingCombine RelatedSets StateChange NumberChannels ConflictSetMerger.
From S2P Require Import ConflictSetMergerThms.

(** ** Sums of differences *)

(** The values that units contribute to a channel; [None] contributes nothing. *)
Definition oplus (t : MergeType) (x y : option Z) : option Z :=
  match x, y with
  | Some a, Some b => Some (combine_mergeable_value a b t)
  | Some a, None => Some a
  | None, y => y
  end.
Definition ototal (t : MergeType) (l : list (option Z)) : option Z := foldr (oplus t) None l.

Lemma oplus_assoc t x y z : oplus t x (oplus t y z) = oplus t (oplus t x y) z.
Proof. destruct x, y, z; simpl; try done. by rewrite combine_mergeable_value_assoc. Qed.
Lemma oplus_comm t x y : oplus t x y = oplus t y x.
Proof. destruct x, y; simpl; try done. by rewrite combine_mergeable_value_comm. Qed.
Lemma ototal_app t l k : ototal t (l ++ k) = oplus t (ototal t l) (ototal t k).
Proof.
  unfold ototal. induction l as [|x l IH]; simpl; [done|]. by rewrite IH, oplus_assoc.
Qed.
Lemma ototal_perm t l k : l ≡ₚ k -> ototal t l = ototal t k.
Proof.
  induction 1 as [|x l k _ IH|x y l|l1 l2 l3 _ IH1 _ IH2]; simpl; [done| | |congruence].
  - unfold ototal in *. simpl. by rewrite IH.
  - unfold ototal. simpl. by rewrite !oplus_assoc, (oplus_comm t x y).
Qed.
Lemma ototal_Some t l z : ototal t l = Some z -> exists w, Some w ∈ l.
Proof.
  induction l as [|[w|] l IH]; [done|exists w; left|]. simpl.
  intros [w Hw]%IH. exists w. by right.
Qed.
Lemma ototal_bind {X Y} t (f : Y -> option Z) (g : X -> list Y) l :
  ototal t (f <$> (l ≫= g)) = ototal t ((fun x => ototal t (f <$> g x)) <$> l).
Proof.
  induction l as [|x l IH]; [done|]. cbn [mbind list_bind fmap list_fmap].
  rewrite fmap_app, ototal_app. change (ototal t (?a :: ?b)) with (oplus t a (ototal t b)).
  unfold ototal at 4. cbn [foldr]. f_equal. exact IH.
Qed.

(** Leaving out what contributes nothing does not change the sum. *)
Lemma ototal_sublist {X} t (f : X -> option Z) (k l : list X) :
  k `sublist_of` l -> NoDup l -> (forall x, x ∈ l -> x ∉ k -> f x = None) ->
  ototal t (f <$> k) = ototal t (f <$> l).
Proof.
  induction 1 as [|x k l Hs IH|x k l Hs IH]; intros Hnd Hf; [done|..];
    apply NoDup_cons in Hnd as [Hx Hnd]; unfold ototal; cbn [fmap list_fmap foldr];
    change (foldr (oplus t) None ?l) with (ototal t l).
  - rewrite IH; [done..|]. intros y Hy Hyk. apply Hf; [by right|]. intros [->|?]%elem_of_cons; done.
  - rewrite IH; [|done|intros y Hy; apply Hf; by right]. rewrite (Hf x); [done|left|].
    intros Hxk. apply Hx. by eapply sublist_subseteq.
Qed.

Section balances.
Context {R : Type} `{Countable R} (cmp : R -> R -> comparison) `{!CmpPreorder cmp}.
Context (iter_branch : gset R -> list R) (branch_perm : forall b, iter_branch b ≡ₚ elements b).
Context (mergeable_channels : R -> NumberChannelsDiff).
Abbreviation Branch := (gset R).
Abbreviation balance := (gmap Blake2b256Hash Z).
Implicit Types b : Branch.

(** What a unit contributes to a channel. *)
Definition contribution (k : Blake2b256Hash) (x : R) : option Z := fst <$> mergeable_channels x !! k.
(** The units agree on how the channel merges. *)
Definition channel_type (k : Blake2b256Hash) (t : MergeType) (items : list R) : Prop :=
  forall x v, x ∈ items -> mergeable_channels x !! k = Some v -> v.2 = t.

(** ** The differences of a branch *)

Lemma add_diffs_lookup l acc k t :
  NoDup l.*1 ->
  (forall v, acc !! k = Some v -> v.2 = t) ->
  (forall v, (list_to_map l : NumberChannelsDiff) !! k = Some v -> v.2 = t) ->
  foldl add_diff acc l !! k =
  (fun z => (z, t)) <$> oplus t (fst <$> acc !! k) (fst <$> (list_to_map l : NumberChannelsDiff) !! k).
Proof.
  revert acc. induction l as [|[k' [d mt]] l IH]; intros acc Hnd Hacc Hl.
  { simpl. rewrite lookup_empty. simpl. destruct (acc !! k) as [[z t']|] eqn:E; [|done].
    simpl. by rewrite <- (Hacc _ eq_refl). }
  apply NoDup_cons in Hnd as [Hk Hnd].
  apply (not_elem_of_list_to_map_1 (M:=gmap Blake2b256Hash)) in Hk. simpl in Hk, Hl.
  cbn [foldl add_diff]. destruct (decide (k' = k)) as [->|Hne].
  - rewrite lookup_insert_eq in Hl. specialize (Hl _ eq_refl). simpl in Hl. subst mt.
    rewrite IH; [|done|..].
    + simpl. rewrite Hk, lookup_insert_eq.
      destruct (acc !! k) as [[a at_]|] eqn:E; rewrite lookup_insert_eq; done.
    + destruct (acc !! k) as [[a at_]|] eqn:E; rewrite lookup_insert_eq; [|by intros ? [= <-]].
      intros ? [= <-]. by apply (Hacc (a, at_)).
    + by rewrite Hk.
  - rewrite lookup_insert_ne in Hl by done.
    assert (forall w, <[k' := w]> acc !! k = acc !! k) as Hi by (intros; by apply lookup_insert_ne).
    simpl. rewrite lookup_insert_ne by done.
    destruct (acc !! k') as [[a at_]|]; rewrite IH; rewrite ?Hi; done.
Qed.
Lemma branch_diffs_lookup (l : list R) acc k t :
  (forall v, acc !! k = Some v -> v.2 = t) -> channel_type k t l ->
  foldl (fun acc x => foldl add_diff acc (btree_entries x)) acc (mergeable_channels <$> l) !! k =
  (fun z => (z, t)) <$> oplus t (fst <$> acc !! k) (ototal t (contribution k <$> l)).
Proof.
  revert acc. induction l as [|x l IH]; intros acc Hacc Hl.
  { simpl. destruct (acc !! k) as [[z t']|] eqn:E; [|done]. simpl.
    by rewrite <- (Hacc _ eq_refl). }
  assert (foldl add_diff acc (btree_entries (mergeable_channels x)) !! k =
    (fun z => (z, t)) <$> oplus t (fst <$> acc !! k) (contribution k x)) as Hx.
  { unfold contribution. rewrite <- (list_to_map_btree_entries (mergeable_channels x)) at 2.
    apply add_diffs_lookup; [apply btree_entries_NoDup|done|].
    rewrite list_to_map_btree_entries. intros v. apply Hl. left. }
  cbn [fmap list_fmap foldl]. rewrite IH.
  - rewrite Hx. unfold ototal. cbn [foldr]. rewrite oplus_assoc.
    by destruct (oplus t (fst <$> acc !! k) (contribution k x)).
  - rewrite Hx. by destruct (oplus _ _ _); [intros ? [= <-]|].
  - intros y v Hy. apply Hl. by right.
Qed.
Lemma branch_diff_lookup b k t :
  channel_type k t (elements b) ->
  branch_diff iter_branch mergeable_channels b !! k =
  (fun z => (z, t)) <$> ototal t (contribution k <$> elements b).
Proof using branch_perm.
  intros Hb. unfold branch_diff. rewrite (branch_diffs_lookup _ _ _ t).
  - rewrite lookup_empty. cbn [fmap option_fmap oplus option_map].
    by rewrite (ototal_perm t (contribution k <$> iter_branch b) (contribution k <$> elements b)) by by rewrite branch_perm.
  - by rewrite lookup_empty.
  - intros x v. rewrite branch_perm. apply Hb.
Qed.

(** ** The check, branch by branch *)

Lemma merge_branches_lookup (bs : list Branch) s s' k t v0 :
  foldO (merge_branch iter_branch mergeable_channels) (Some s) bs = Some s' -> s !! k = Some v0 ->
  (forall b, b ∈ bs -> channel_type k t (elements b)) ->
  let total := ototal t ((fun b => ototal t (contribution k <$> elements b)) <$> bs) in
  s' !! k = oplus t (Some v0) total /\
  (t = IntegerAdd -> is_Some total -> (0 <= default 0%Z (s' !! k))%Z).
Proof.
  revert s v0. induction bs as [|b bs IH]; intros s v0 Hf Hs Ht.
  { injection Hf as <-. simpl. split; [done|]. by intros _ [? [=]]. }
  rewrite foldO_cons in Hf. unfold merge_branch in Hf at 2.
  destruct (cal_merged_result iter_branch mergeable_channels b s) as [s1|] eqn:E; [|by rewrite foldO_None in Hf].
  unfold cal_merged_result in E.
  pose proof (cal_merged_result_applies iter_branch mergeable_channels b s s1 E k) as Hb.
  rewrite (branch_diff_lookup b k t) in Hb by (apply Ht; left).
  cbn [fmap list_fmap]. set (c := ototal t (contribution k <$> elements b)) in *.
  set (total := ototal t ((fun b => ototal t (contribution k <$> elements b)) <$> bs)) in IH.
  change (ototal t (c :: (_ <$> bs))) with (oplus t c total).
  assert (exists v1, s1 !! k = Some v1 /\ Some v1 = oplus t (Some v0) c /\
    (t = IntegerAdd -> is_Some c -> 0 <= v1)%Z) as (v1 & Hv1 & Hv1' & Hp).
  { destruct c as [z|]; simpl in Hb.
    - rewrite Hs in Hb. simpl in Hb. destruct t.
      + destruct Hb as [Hb [Hpos Hmax]]. exists (v0 + z)%Z. simpl.
        rewrite wrap_i64_id by (unfold i64_range, i64_max, i64_min; lia). by split_and!.
      + exists (combine_mergeable_value v0 z BitmaskOr). by split_and!.
    - exists v0. rewrite Hb. split_and!; [done|done|]. by intros _ [? [=]]. }
  destruct (IH s1 v1 Hf Hv1) as [H1 H2]. { intros b' Hb'. apply Ht. by right. }
  cbv zeta in H1, H2. fold total in H1, H2. split.
  - rewrite H1, Hv1'. by rewrite oplus_assoc.
  - intros -> Hsome. destruct total as [z|]; [by apply H2; eauto|].
    rewrite H1. simpl. apply Hp; [done|]. by destruct c.
Qed.

(** ** The sum over all units *)

Lemma all_mergeable_lookup (items : list R) acc mm k d t :
  res_foldM (fun acc item => res_foldM add_number_channel acc
    (btree_entries (mergeable_channels item))) acc items = Ok mm ->
  mm !! k = Some (d, t) ->
  (forall v, acc !! k = Some v -> v.2 = t) /\ channel_type k t items /\
  Some d = oplus t (fst <$> acc !! k) (ototal t (contribution k <$> items)).
Proof.
  revert acc. induction items as [|x items IH]; intros acc Hf Hk.
  { injection Hf as ->. rewrite Hk. simpl. split_and!; [by intros ? [= <-]| |done].
    intros ? ? Hin. by apply not_elem_of_nil in Hin. }
  cbn [res_foldM] in Hf. apply res_bind_Ok in Hf as (acc1 & Hx & Hf).
  apply add_number_channels_Ok in Hx as [Hag ->]; [|apply btree_entries_NoDup].
  rewrite list_to_map_btree_entries in *.
  destruct (IH _ Hf Hk) as (Hacc & Ht & Hd). rewrite nc_union_lookup in Hacc, Hd.
  assert ((forall v, acc !! k = Some v -> v.2 = t) /\
    (forall v, mergeable_channels x !! k = Some v -> v.2 = t)) as [Ha Hm].
  { destruct (acc !! k) as [v|] eqn:Ea, (mergeable_channels x !! k) as [w|] eqn:Ew;
      split; intros u [= <-]; try exact (Hacc _ eq_refl).
    rewrite <- (Hag k v w Ea Ew). exact (Hacc _ eq_refl). }
  split_and!; [done| |].
  - intros y v [->|Hy]%elem_of_cons; [apply Hm|by apply Ht].
  - rewrite Hd. unfold ototal. cbn [fmap list_fmap foldr]. rewrite oplus_assoc. f_equal.
    unfold contribution. destruct (acc !! k) as [[v vt]|], (mergeable_channels x !! k) as [[w wt]|];
      simpl; try done. f_equal. f_equal. by apply (Ha (v, vt)).
Qed.

(** ** What is written *)

Section written.
Context {Par : Type} `{!RhoNumber Par}.
Context (iter_options : gset (gset Branch) -> list (gset Branch)).
Context (iter_perm : forall s, iter_options s ≡ₚ elements s).
Context (depends_on : R -> R -> bool) (cost : R -> Z).
Context (get_data : Blake2b256Hash -> res HistoryError (list (Datum (ListParWithRandom Par)))).
Context (compute_branches : gset R -> option (gset Branch)).
Context (compute_conflict_map : gset Branch -> res HistoryError (gmap Branch (gset Branch))).
Context (units : gset R) `{!BranchOps units compute_branches compute_conflict_map}.
Abbreviation resolve := (resolve_conflicts cmp iter_options iter_branch depends_on cost mergeable_channels
  get_data compute_branches compute_conflict_map).

(** Reading the values of a list of channels. *)
Definition read_all (m : balance) (keys : list Blake2b256Hash) : res HistoryError balance :=
  res_foldM (fun (m : balance) channel_hash =>
    res_bind (convert_to_read_number get_data channel_hash) (fun value =>
    Ok (<[channel_hash := default 0%Z value]> m))) m keys.
Lemma read_all_cons m h keys base :
  read_all m (h :: keys) = Ok base ->
  exists w, convert_to_read_number get_data h = Ok w /\
    read_all (<[h := default 0%Z w]> m) keys = Ok base.
Proof.
  unfold read_all. cbn [res_foldM]. intros (m1 & (w & Hw & [= <-])%res_bind_Ok & Hf)%res_bind_Ok.
  by exists w.
Qed.
Lemma read_all_keep (m : balance) keys base k v :
  convert_to_read_number get_data k = Ok v -> m !! k = Some (default 0%Z v) ->
  read_all m keys = Ok base -> base !! k = Some (default 0%Z v).
Proof.
  intros Hr. revert m. induction keys as [|h keys IH]; intros m Hm Hf; [by injection Hf as <-|].
  apply read_all_cons in Hf as (w & Hw & Hf). eapply IH; [|done].
  destruct (decide (h = k)) as [->|]; [|by rewrite lookup_insert_ne].
  rewrite lookup_insert_eq. rewrite Hr in Hw. by injection Hw as ->.
Qed.
Lemma read_all_lookup (m : balance) keys base k :
  read_all m keys = Ok base -> k ∈ keys ->
  exists v, convert_to_read_number get_data k = Ok v /\ base !! k = Some (default 0%Z v).
Proof.
  revert m. induction keys as [|h keys IH]; intros m Hf Hin; [by apply not_elem_of_nil in Hin|].
  apply read_all_cons in Hf as (w & Hw & Hf).
  apply elem_of_cons in Hin as [->|Hin]; [|by apply (IH _ Hf)].
  exists w. split; [done|]. eapply read_all_keep; [done| |done]. apply lookup_insert_eq.
Qed.
Lemma base_balances_lookup (bs : gset Branch) base (k : Blake2b256Hash) b x :
  base_balances mergeable_channels get_data bs = Ok base ->
  b ∈ bs -> x ∈ b -> is_Some (mergeable_channels x !! k) ->
  exists v, convert_to_read_number get_data k = Ok v /\ base !! k = Some (default 0%Z v).
Proof.
  intros Hb Hbs Hx [w Hw]. apply (read_all_lookup _ _ _ k Hb). unfold all_channel_keys.
  rewrite elem_of_sort_by, elem_of_elements, elem_of_list_to_set.
  apply list_elem_of_bind. exists b. rewrite elem_of_elements. split; [|done].
  apply list_elem_of_bind. exists x. rewrite elem_of_elements. split; [|done].
  apply (list_elem_of_fmap_2 fst _ (k, w)). by apply elem_of_btree_entries.
Qed.

(** The number written for a channel that adds up, from the differences of the units of [r'],
    is not negative when [r'] has what [resolve_conflicts] kept but for branches that do not
    change the channel. *)
Lemma merged_balance_checked actual late r r' mm k d :
  (forall h, get_data h <> Panic) ->
  (forall x, x ∈ actual -> x ∈ units) -> ordered_on cmp units ->
  resolve actual late = Ok r -> to_merge r' `sublist_of` to_merge r ->
  (forall b x, b ∈ to_merge r -> b ∉ to_merge r' -> x ∈ b -> mergeable_channels x !! k = None) ->
  all_mergeable_channels mergeable_channels (to_merge_items cmp r') = Ok mm ->
  mm !! k = Some (d, IntegerAdd) ->
  exists v, convert_to_read_number get_data k = Ok v /\
    (0 <= merged_number (default 0%Z v) d IntegerAdd)%Z.
Proof using iter_perm branch_perm BranchOps0 CmpPreorder0.
  intros Hg Hu Ho Hr Hsub Hno Hmm Hk.
  pose proof (resolve_inv cmp iter_options iter_perm iter_branch depends_on cost mergeable_channels get_data
    compute_branches compute_conflict_map units actual late Hg Hu) as Hi. rewrite Hr in Hi.
  destruct Hi as (bs & cm & base & n & Hpart & Hcm & Hbase & Hn & _ & Htm & _).
  assert (branches_within units bs) as Hw.
  { apply (partitions_within _ _ _ Hpart). intros x [_ Hx]%elem_of_filter.
    apply Hu. by apply elem_of_list_to_set in Hx. }
  assert (NoDup (to_merge r)) as Hnd by (rewrite Htm; apply NoDup_elements).
  set (sorted := sort_by (compare_branches cmp) (to_merge r)).
  destruct (kept_branches_merge cmp iter_branch mergeable_channels units bs base n (to_merge r) Ho Hw Htm)
    as [fin Hfold]. fold sorted in Hfold.
  apply (all_mergeable_lookup _ _ _ _ _ _ Hmm) in Hk as (_ & Htype & Hd).
  rewrite lookup_empty in Hd. simpl in Hd.
  set (share := fun b : Branch => ototal IntegerAdd (contribution k <$> elements b)).
  assert (forall b, b ∈ to_merge r -> b ∉ to_merge r' -> share b = None) as Hnone.
  { intros b Hb Hbr. destruct (share b) as [z|] eqn:Hz; [exfalso|done]. unfold share in Hz.
    apply ototal_Some in Hz as (w & (x & Hw' & Hx%elem_of_elements)%list_elem_of_fmap).
    unfold contribution in Hw'. by rewrite (Hno b x Hb Hbr Hx) in Hw'. }
  assert (Some d = ototal IntegerAdd (share <$> sorted)) as Hd'.
  { rewrite Hd. unfold to_merge_items. rewrite ototal_bind.
    rewrite (ototal_perm _ (share <$> sorted) (share <$> to_merge r)) by (unfold sorted; by rewrite sort_by_perm).
    rewrite <-(ototal_sublist _ share (to_merge r') (to_merge r)) by done.
    rewrite (ototal_perm _ (share <$> to_merge r') (share <$> sort_by (compare_branches cmp) (to_merge r')))
      by by rewrite sort_by_perm.
    f_equal. apply list_fmap_ext. intros i b _. apply ototal_perm. by rewrite sort_by_perm. }
  assert (forall b, b ∈ sorted -> channel_type k IntegerAdd (elements b)) as Hbt.
  { intros b Hb x v Hx Hxv. unfold sorted in Hb. rewrite elem_of_sort_by in Hb.
    destruct (decide (b ∈ to_merge r')) as [Hbr|Hbr].
    - refine (Htype x v _ Hxv). unfold to_merge_items. apply list_elem_of_bind.
      exists b. by rewrite !elem_of_sort_by.
    - apply elem_of_elements in Hx. by rewrite (Hno b x Hb Hbr Hx) in Hxv. }
  assert (exists b x, b ∈ bs /\ x ∈ b /\ is_Some (mergeable_channels x !! k)) as (b & x & Hb & Hx & Hxk).
  { symmetry in Hd'. apply ototal_Some in Hd' as (w & (b & Hwk & Hb)%list_elem_of_fmap).
    symmetry in Hwk. apply ototal_Some in Hwk as (u & (x & Hux & Hx)%list_elem_of_fmap).
    exists b, x. unfold sorted in Hb. rewrite elem_of_sort_by, Htm, elem_of_elements in Hb.
    rewrite elem_of_elements in Hx. split_and!; [set_solver|done|].
    unfold contribution in Hux. by destruct (mergeable_channels x !! k). }
  destruct (base_balances_lookup bs base k b x Hbase Hb Hx Hxk) as (v & Hv & Hv0).
  destruct (merge_branches_lookup sorted base fin k IntegerAdd (default 0%Z v) Hfold Hv0 Hbt) as [Hf Hpos].
  exists v. split; [done|]. cbv zeta in Hf, Hpos. fold share in Hf, Hpos. rewrite <- Hd' in Hf, Hpos.
  rewrite Hf in Hpos. simpl in Hpos. by apply Hpos; eauto.
Qed.
End written.
End balances.
