(* ===== verification/DeployChains.v ===== *)
(** * Deploy chains

    [casper/src/rust/merging/deploy_index.rs], [deploy_chain_index.rs], [block_index.rs] and
    [rejected_slash.rs], and [casper/src/rust/system_deploy.rs].  The deploys of a block
    that depend on one another form a chain, the unit that merging keeps or rejects.

    Two chains are equal in Rust when their sets of deploys are: a [HashSet] of chains
    keeps one chain for every set of deploys, the first it was given ([first_by]).  Likewise
    two deploys are equal when their ids, costs and logs are, and logs compare their produces
    by hash.  Sets are iterated in the orders [iter_deploys] and [iter_chains]. *)
From stdpp Require Import pretty.
From S2P Require Import Prelude Events HotStoreSig KeyValueStore Serializers HistoryRepo.
From S2P Require Import RadixTree MergingLogic MergingIndex RelatedSets StateChange ConflictSetMerger.
From S2P Require Import CasperMessage EventConverter BlockDag.
Open Scope res_scope.

(** Collecting into a [HashSet]: of the items that are the same the first stays. *)
Fixpoint first_by {X} (same : X -> X -> bool) (l : list X) : list X :=
  match l with
  | [] => []
  | x :: l => x :: filter (fun y => same x y = false) (first_by same l)
  end.

(** The errors of [enum CasperError] that merging returns. *)
Inductive CasperError :=
| CasperKvStoreError (e : KvStoreError)
| CasperRuntimeError (msg : string)
| CasperHistoryError (e : HistoryError).

(** ** System deploys *)

Definition SLASH_MARKER : byte := x01.
Definition CLOSE_BLOCK_MARKER : byte := x02.
Definition HEARTBEAT_MARKER : byte := x03.
Definition SYSTEM_DEPLOY_ID_LEN : nat := 33.
Definition is_system_deploy_id (id : bytes) : bool :=
  bool_decide (length id = SYSTEM_DEPLOY_ID_LEN) &&
  match id !! 32 with
  | Some last_byte => bool_decide (last_byte ∈ [SLASH_MARKER; CLOSE_BLOCK_MARKER; HEARTBEAT_MARKER])
  | None => false
  end.
Definition is_slash_deploy_id (id : bytes) : bool :=
  bool_decide (length id = SYSTEM_DEPLOY_ID_LEN) && bool_decide (id !! 32 = Some SLASH_MARKER).

(** ** [struct DeployIndex] *)

Record DeployIndex := mkDeployIndex {
  di_deploy_id : bytes;
  di_cost : Z;
  di_event_log_index : EventLogIndex;
}.
Definition SYS_SLASH_DEPLOY_ID : bytes := [x01].
Definition SYS_CLOSE_BLOCK_DEPLOY_ID : bytes := [x02].
Definition SYS_EMPTY_DEPLOY_ID : bytes := [x03].
Definition SYS_SLASH_DEPLOY_COST : Z := 0.
Definition SYS_CLOSE_BLOCK_DEPLOY_COST : Z := 0.
Definition SYS_EMPTY_DEPLOY_COST : Z := 0.

(** [PartialEq] of logs and deploys, derived. *)
Definition log_same (x y : EventLogIndex) : bool :=
  let same_produces (f : EventLogIndex -> produces) := bool_decide (dom (f x) = dom (f y)) in
  same_produces produces_linear && same_produces produces_persistent &&
  same_produces produces_consumed && same_produces produces_peeked &&
  same_produces produces_copied_by_peek && same_produces produces_touching_base_joins &&
  bool_decide (consumes_linear_and_peeks x = consumes_linear_and_peeks y) &&
  bool_decide (consumes_persistent x = consumes_persistent y) &&
  bool_decide (consumes_produced x = consumes_produced y) &&
  same_produces produces_mergeable &&
  bool_decide (consumes_mergeable x = consumes_mergeable y) &&
  bool_decide (number_channels_data x = number_channels_data y).
Definition deploy_same (x y : DeployIndex) : bool :=
  bool_decide (di_deploy_id x = di_deploy_id y) && bool_decide (di_cost x = di_cost y) &&
  log_same (di_event_log_index x) (di_event_log_index y).
(** [PartialOrd], derived: the fields in order. *)
Definition deploy_index_cmp (x y : DeployIndex) : comparison :=
  then_with (bytes_cmp (di_deploy_id x) (di_deploy_id y))
    (then_with (Z.compare (di_cost x) (di_cost y))
       (event_log_cmp (di_event_log_index x) (di_event_log_index y))).

#[global] Instance MergeType_countable : Countable MergeType.
Proof.
  refine (inj_countable' (fun t => match t with IntegerAdd => true | BitmaskOr => false end)
    (fun b => if b : bool then IntegerAdd else BitmaskOr) _). by intros [].
Defined.
#[global] Instance Produce_countable : Countable Produce.
Proof.
  refine (inj_countable'
    (fun p => (channel_hash p, p_hash p, p_persistent p, is_deterministic p, output_value p, failed p))
    (fun '(c, h, p, d, o, f) => mkProduce c h p d o f) _). by intros [].
Defined.
#[global] Instance EventLogIndex_eq_dec : EqDecision EventLogIndex.
Proof. solve_decision. Defined.
#[global] Instance EventLogIndex_countable : Countable EventLogIndex.
Proof.
  refine (inj_countable (fun e => [encode (produces_linear e); encode (produces_persistent e);
    encode (produces_consumed e); encode (produces_peeked e); encode (produces_copied_by_peek e);
    encode (produces_touching_base_joins e); encode (consumes_linear_and_peeks e); encode
    (consumes_persistent e); encode (consumes_produced e); encode (produces_mergeable e); encode
    (consumes_mergeable e); encode (number_channels_data e)])
    (fun l => match l with
      | [f0; f1; f2; f3; f4; f5; f6; f7; f8; f9; f10; f11] => f0 ← decode f0; f1 ← decode f1; f2 ←
        decode f2; f3 ← decode f3; f4 ← decode f4; f5 ← decode f5; f6 ← decode f6; f7 ← decode f7;
        f8 ← decode f8; f9 ← decode f9; f10 ← decode f10; f11 ← decode f11; Some (mkELI f0 f1 f2 f3
        f4 f5 f6 f7 f8 f9 f10 f11)
      | _ => None end) _).
  intros []. cbn. by rewrite !decode_encode.
Defined.
#[global] Instance DeployIndex_eq_dec : EqDecision DeployIndex.
Proof. solve_decision. Defined.
#[global] Instance DeployIndex_countable : Countable DeployIndex.
Proof.
  refine (inj_countable (fun e => [encode (di_deploy_id e); encode (di_cost e); encode (di_event_log_index e)])
    (fun l => match l with
      | [f0; f1; f2] => f0 ← decode f0; f1 ← decode f1; f2 ← decode f2; Some (mkDeployIndex f0 f1 f2)
      | _ => None end) _).
  intros []. cbn. by rewrite !decode_encode.
Defined.

(** ** [struct DeployChainIndex] *)

Record DeployIdWithCost := mkIdCost { ic_deploy_id : bytes; ic_cost : Z }.
#[global] Instance DeployIdWithCost_eq_dec : EqDecision DeployIdWithCost.
Proof. solve_decision. Defined.
#[global] Instance DeployIdWithCost_countable : Countable DeployIdWithCost.
Proof.
  refine (inj_countable' (fun d => (ic_deploy_id d, ic_cost d)) (fun '(i, c) => mkIdCost i c) _).
  by intros [].
Defined.

Record DeployChainIndex := mkChain {
  deploys_with_cost : gset DeployIdWithCost;
  ch_post_state_hash : Blake2b256Hash;
  ch_event_log_index : EventLogIndex;
  ch_state_changes : StateChange;
  source_block_hash : BlockHash;
  source_block_number : Z;
}.
#[global] Instance ChannelChange_eq_dec : EqDecision ChannelChange.
Proof. solve_decision. Defined.
#[global] Instance ChannelChange_countable : Countable ChannelChange.
Proof.
  refine (inj_countable' (fun c => (added c, removed c)) (fun '(a, r) => mkChange a r) _).
  by intros [].
Defined.
#[global] Instance StateChange_eq_dec : EqDecision StateChange.
Proof. solve_decision. Defined.
#[global] Instance StateChange_countable : Countable StateChange.
Proof.
  refine (inj_countable (fun e => [encode (datums_changes e); encode (cont_changes e); encode
    (consume_channels_to_join_serialized_map e)])
    (fun l => match l with
      | [f0; f1; f2] => f0 ← decode f0; f1 ← decode f1; f2 ← decode f2; Some (mkStateChange f0 f1 f2)
      | _ => None end) _).
  intros []. cbn. by rewrite !decode_encode.
Defined.
#[global] Instance DeployChainIndex_eq_dec : EqDecision DeployChainIndex.
Proof. solve_decision. Defined.
#[global] Instance DeployChainIndex_countable : Countable DeployChainIndex.
Proof.
  refine (inj_countable (fun e => [encode (deploys_with_cost e); encode (ch_post_state_hash e);
    encode (ch_event_log_index e); encode (ch_state_changes e); encode (source_block_hash e); encode
    (source_block_number e)])
    (fun l => match l with
      | [f0; f1; f2; f3; f4; f5] => f0 ← decode f0; f1 ← decode f1; f2 ← decode f2; f3 ← decode f3;
        f4 ← decode f4; f5 ← decode f5; Some (mkChain f0 f1 f2 f3 f4 f5)
      | _ => None end) _).
  intros []. cbn. by rewrite !decode_encode.
Defined.

(** [impl PartialEq for DeployChainIndex] *)
Definition chain_same (x y : DeployChainIndex) : bool :=
  bool_decide (deploys_with_cost x = deploys_with_cost y).

(** [impl Ord for DeployChainIndex] *)
Definition total_cost (c : DeployChainIndex) : Z :=
  sum_u64 (ic_cost <$> elements (deploys_with_cost c)).
Definition max_cost (c : DeployChainIndex) : Z :=
  foldr Z.max 0%Z (ic_cost <$> elements (deploys_with_cost c)).
Definition min_deploy (c : DeployChainIndex) : option bytes :=
  head (sort_by bytes_cmp (ic_deploy_id <$> elements (deploys_with_cost c))).
Definition chain_cmp (x y : DeployChainIndex) : comparison :=
  then_with (CompOpp (Z.compare (total_cost x) (total_cost y)))
    (then_with (CompOpp (Z.compare (max_cost x) (max_cost y)))
       (then_with (option_cmp bytes_cmp (min_deploy x) (min_deploy y))
          (bytes_cmp (ch_post_state_hash x) (ch_post_state_hash y)))).

Section block.
Context {C P A K KV : Type} `{!KeyValueStore KV, !DashOrder}.
Context (cd : Codecs C P A K) (rc : RowCodecs C P A K).
Context (iter_deploys : gset DeployIndex -> list DeployIndex).
Context (iter_chains : gset (gset DeployIndex) -> list (gset DeployIndex)).
Abbreviation repository := (HistoryRepositoryImpl KV).

(** [DeployChainIndex::new] *)
Definition DeployChainIndex_new (ds : gset DeployIndex) (pre_state_hash post_state_hash : Blake2b256Hash)
    (history_repository : repository) (source_block_hash : BlockHash) (source_block_number : Z) :
  res HistoryError DeployChainIndex :=
  event_log_index <-! res_foldM (fun acc d => combine acc (di_event_log_index d)) empty_index
    (iter_deploys ds);
  pre_history_reader <-! get_history_reader_struct pre_state_hash history_repository;
  post_history_reader <-! get_history_reader_struct post_state_hash history_repository;
  state_changes <-! StateChange_new cd rc (history_reader rc pre_history_reader)
    (history_reader rc post_history_reader) event_log_index;
  Ok (mkChain (set_map (fun d => mkIdCost (di_deploy_id d) (di_cost d)) ds) post_state_hash
        event_log_index state_changes source_block_hash source_block_number).

(** ** [struct BlockIndex] *)

Record BlockIndex := mkBlockIndex {
  bi_block_hash : BlockHash;
  bi_deploy_chains : list DeployChainIndex;
}.

(** [fn create_event_log_index]: a read of the state that fails counts as [false]. *)
Definition create_event_log_index {E : Type} (events : list CasperEvent) (history_repository : repository)
    (pre_state_hash : Blake2b256Hash) (mergeable_chs : NumberChannelsDiff) : res E EventLogIndex :=
  match get_history_reader_struct pre_state_hash history_repository with
  | Ok pre_state_reader =>
    let produce_exists_in_pre_state p :=
      match reader_data_proj rc (channel_hash p) pre_state_reader with
      | Ok d => existsb (fun d => produce_eqb (datum_source d) p) d
      | _ => false
      end in
    let produce_touches_pre_state_join p :=
      match reader_joins_proj rc (channel_hash p) pre_state_reader with
      | Ok joins => existsb (fun j => bool_decide (1 < length j)) joins
      | _ => false
      end in
    Ok (EventLogIndex_new produce_exists_in_pre_state produce_touches_pre_state_join
          (to_rspace_event <$> events) mergeable_chs)
  | _ => Panic
  end.

(** The id and the cost of a system deploy of the block. *)
Definition system_deploy_id (block_hash : BlockHash) (sd : SystemDeployData) : bytes * Z :=
  match sd with
  | Slash _ _ => (block_hash ++ SYS_SLASH_DEPLOY_ID, SYS_SLASH_DEPLOY_COST)
  | CloseBlockSystemDeployData => (block_hash ++ SYS_CLOSE_BLOCK_DEPLOY_ID, SYS_CLOSE_BLOCK_DEPLOY_COST)
  | EmptySystemDeploy => (block_hash ++ SYS_EMPTY_DEPLOY_ID, SYS_EMPTY_DEPLOY_COST)
  end.
(** The id, cost and events of the deploys that succeeded, with their number channels: the
    two loops of [new]. *)
Definition usr_successful (d : ProcessedDeploy * NumberChannelsDiff) :
  option (bytes * Z * list CasperEvent * NumberChannelsDiff) :=
  let '(d, merge_chs) := d in
  if is_failed d then None
  else Some (signed_sig (deploy d), Proto.cost (deploy_cost d), deploy_log d, merge_chs).
Definition sys_successful (block_hash : BlockHash) (d : ProcessedSystemDeploy * NumberChannelsDiff) :
  option (bytes * Z * list CasperEvent * NumberChannelsDiff) :=
  match d with
  | (Succeeded event_list sd, merge_chs) =>
    let '(id, c) := system_deploy_id block_hash sd in Some (id, c, event_list, merge_chs)
  | (Failed _ _, _) => None
  end.
Definition deploy_index {E : Type} (history_repository : repository) (pre_state_hash : Blake2b256Hash)
    (d : bytes * Z * list CasperEvent * NumberChannelsDiff) : res E DeployIndex :=
  let '(id, c, events, merge_chs) := d in
  event_log_index <-! create_event_log_index events history_repository pre_state_hash merge_chs;
  Ok (mkDeployIndex id c event_log_index).

Definition count_mismatch (block_hash : BlockHash) (mrg_count deploy_count : nat) : string :=
  "Mergeable channel count mismatch for block " +:+ encode_hex (take 10 block_hash) +:+
  ": mergeable_maps=" +:+ pretty mrg_count +:+ ", deploys=" +:+ pretty deploy_count.

(** [fn new] *)
Definition BlockIndex_new (block_hash : BlockHash) (block_number : Z)
    (usr_processed_deploys : list ProcessedDeploy)
    (sys_processed_deploys : list ProcessedSystemDeploy)
    (pre_state_hash post_state_hash : Blake2b256Hash) (history_repository : repository)
    (mergeable_chs : list NumberChannelsDiff) : res CasperError BlockIndex :=
  let usr_count := length usr_processed_deploys in
  let deploy_count := usr_count + length sys_processed_deploys in
  let mrg_count := length mergeable_chs in
  if decide (mrg_count <> deploy_count)
  then Err (CasperRuntimeError (count_mismatch block_hash mrg_count deploy_count))
  else
    let usr := omap usr_successful (zip usr_processed_deploys (take usr_count mergeable_chs)) in
    let sys := omap (sys_successful block_hash)
                 (zip sys_processed_deploys (drop usr_count mergeable_chs)) in
    usr_deploy_indices <-! res_mapM (deploy_index history_repository pre_state_hash) usr;
    sys_deploy_indices <-! res_mapM (deploy_index history_repository pre_state_hash) sys;
    let all_deploy_indices := usr_deploy_indices ++ sys_deploy_indices in
    deploy_chains <-! unwrap (compute_related_sets (list_to_set (first_by deploy_same all_deploy_indices))
      (fun l r => bool_decide (deploy_index_cmp l r = Gt))
      (fun l r => depends (di_event_log_index l) (di_event_log_index r)));
    deploy_chain_indices <-! res_mapM (fun deploy_chain =>
      map_err CasperHistoryError (DeployChainIndex_new deploy_chain pre_state_hash post_state_hash
        history_repository block_hash block_number)) (iter_chains deploy_chains);
    Ok (mkBlockIndex block_hash deploy_chain_indices).
End block.

(** ** [struct RejectedSlash] *)

Record RejectedSlash := mkRejectedSlash {
  rs_invalid_block_hash : BlockHash;
  rs_issuer_public_key : PublicKey;
  rs_source_block_hash : BlockHash;
}.
(** The second closure keeps the slashes whose hash was not seen before. *)
Definition see (st : gset BlockHash * list RejectedSlash) (rs : RejectedSlash) :
  gset BlockHash * list RejectedSlash :=
  let '(seen, kept) := st in
  if decide (rs_invalid_block_hash rs ∈ seen) then (seen, kept)
  else ({[rs_invalid_block_hash rs]} ∪ seen, kept ++ [rs]).
(** [fn filter_recoverable] *)
Definition filter_recoverable (rejected : list RejectedSlash) (own_invalid_block_hashes : list BlockHash) :
  list RejectedSlash :=
  let covered : gset BlockHash := list_to_set own_invalid_block_hashes in
  let sorted := sort_by (fun a b => bytes_cmp (rs_invalid_block_hash a) (rs_invalid_block_hash b)) rejected in
  (foldl see (∅, []) (filter (fun rs => rs_invalid_block_hash rs ∉ covered) sorted)).2.
