(* ===== verification/DagMerger.v ===== *)
(** * Merging the blocks above the last finalized one

    [casper/src/rust/merging/dag_merger.rs].  [merge] collects the deploy chains of the blocks
    in scope, drops the chains with a stale copy of a deploy, resolves the conflicts of the
    others, rejects also the chains built on the blocks of rejected chains, applies what is
    left to the state of the last finalized block, and lists the deploys that were rejected.

    The repository is the state of the model.  Loops over the DAG take fuel; running out of it
    would be a [Panic], and the theorems show that it never happens.  Sets of hashes are
    iterated in the order [iter_set].  The caches of derived data, which are keyed by the
    addresses of the items, hold functions of the items and are left out, as is logging. *)
From S2P Require Import Prelude Events HotStoreSig KeyValueStore Serializers HistoryRepo.
From S2P Require Import RadixTree MergingLogic MergingIndex RelatedSets StateChange.
From S2P Require Import NumberChannels ConflictSetMerger BlockDag DeployChains.
Open Scope res_scope.

(** [fn cost_optimal_rejection_alg] *)
Definition cost_optimal_rejection_alg (c : DeployChainIndex) : Z :=
  sum_u64 (ic_cost <$> elements (deploys_with_cost c)).

(** ** [fn descendants_within_scope]

    The queue is a stack, its last element first. *)
Section descendants.
Context (dag : KeyValueDagRepresentation) (iter_set : gset BlockHash -> list BlockHash).
Context (scope : gset BlockHash).

Definition visit_child (st : gset BlockHash * list BlockHash * gset BlockHash) (child : BlockHash) :
  gset BlockHash * list BlockHash * gset BlockHash :=
  let '(result, queue, visited) := st in
  if decide (child ∈ scope /\ child ∉ visited)
  then ({[child]} ∪ result, child :: queue, {[child]} ∪ visited)
  else st.
Fixpoint scope_loop (fuel : nat) (result : gset BlockHash) (queue : list BlockHash)
    (visited : gset BlockHash) : option (gset BlockHash) :=
  match fuel with
  | 0 => None
  | S fuel =>
    match queue with
    | [] => Some result
    | current :: queue =>
      let '(result, queue, visited) :=
        match children dag current with
        | Some cs => foldl visit_child (result, queue, visited) (iter_set cs)
        | None => (result, queue, visited)
        end in
      scope_loop fuel result queue visited
    end
  end.
Definition descendants_within_scope (start_blocks : gset BlockHash) : option (gset BlockHash) :=
  scope_loop (S (size start_blocks + size scope)) ∅ (rev (iter_set start_blocks)) start_blocks.
End descendants.

(** ** De-duplication of deploys *)

(** [Fresher = higher block number, or byte-lex smaller hash at tie] *)
Definition is_fresher (candidate best : Z * BlockHash) : bool :=
  bool_decide (best.1 < candidate.1 \/
    candidate.1 = best.1 /\ bytes_cmp candidate.2 best.2 = Lt)%Z.
Definition source_of (chain : DeployChainIndex) : Z * BlockHash :=
  (source_block_number chain, source_block_hash chain).
Definition note_source (chain : DeployChainIndex) (m : gmap bytes (Z * BlockHash))
    (d : DeployIdWithCost) : gmap bytes (Z * BlockHash) :=
  match m !! ic_deploy_id d with
  | Some best =>
    if is_fresher (source_of chain) best then <[ic_deploy_id d := source_of chain]> m else m
  | None => <[ic_deploy_id d := source_of chain]> m
  end.
Definition latest_for_deploy (chains : list DeployChainIndex) : gmap bytes (Z * BlockHash) :=
  foldl (fun m chain => foldl (note_source chain) m (elements (deploys_with_cost chain))) ∅ chains.
Definition is_freshest (latest : gmap bytes (Z * BlockHash)) (chain : DeployChainIndex)
    (d : DeployIdWithCost) : bool :=
  match latest !! ic_deploy_id d with
  | Some (best_num, best_hash) =>
    bool_decide (source_block_number chain = best_num) && bool_decide (source_block_hash chain = best_hash)
  | None => true
  end.
Definition is_retained (latest : gmap bytes (Z * BlockHash)) (chain : DeployChainIndex) : bool :=
  forallb (is_freshest latest chain) (elements (deploys_with_cost chain)).
Abbreviation deploy_pair := (bytes * BlockHash)%type.
Definition collateral_of (latest : gmap bytes (Z * BlockHash)) (chain : DeployChainIndex) :
  list deploy_pair :=
  (fun d => (ic_deploy_id d, source_block_hash chain)) <$>
    filter (fun d => is_system_deploy_id (ic_deploy_id d) = false /\ is_freshest latest chain d = true)
      (elements (deploys_with_cost chain)).
(** The chains that stay and [collateral_lost_pairs]. *)
Definition dedup (chains : list DeployChainIndex) : list DeployChainIndex * list deploy_pair :=
  match chains with
  | [] => ([], [])
  | _ =>
    let latest := latest_for_deploy chains in
    (filter (fun c => is_retained latest c = true) chains,
     filter (fun c => is_retained latest c = false) chains ≫= collateral_of latest)
  end.

(** ** The relations of chains and branches *)

(** [depends_fn] *)
Definition depends_fn (target source : DeployChainIndex) : bool :=
  let target := ch_event_log_index target in
  let source := ch_event_log_index source in
  let produces_source := produces_created_and_not_destroyed source ∖ produces_mergeable source in
  let produces_target := produces_consumed target ∖ produces_mergeable source in
  if decide (dom produces_source ∩ dom produces_target <> ∅) then true
  else bool_decide (consumes_created_and_not_destroyed source ∩ consumes_produced target <> ∅).

Abbreviation ChainBranch := (gset DeployChainIndex).
(** [struct BranchDerived] and [fn compute_branch_derived] *)
Record BranchDerived := mkDerived {
  user_deploy_ids : gset bytes;
  combined_event_log : EventLogIndex;
}.
Definition is_user_deploy (d : DeployIdWithCost) : bool := negb (is_system_deploy_id (ic_deploy_id d)).
Definition only_user_deploys (c : DeployChainIndex) : bool :=
  forallb is_user_deploy (elements (deploys_with_cost c)).
Definition branch_user_ids (branch : ChainBranch) : gset bytes :=
  list_to_set (ic_deploy_id <$> filter (fun d => is_user_deploy d = true)
    (elements branch ≫= fun c => elements (deploys_with_cost c))).
Definition compute_branch_derived (branch : ChainBranch) : res HistoryError BranchDerived :=
  combined_event_log <-! res_foldM (fun acc c => combine acc (ch_event_log_index c)) empty_index
    (filter (fun c => only_user_deploys c = true) (elements branch));
  Ok (mkDerived (branch_user_ids branch) combined_event_log).

(** [compute_conflict_map_fn] *)
Definition push_index (idx : nat) (m : gmap bytes (list nat)) (id : bytes) : gmap bytes (list nat) :=
  <[id := default [] (m !! id) ++ [idx]]> m.
Definition deploy_to_branches (derived : list BranchDerived) : gmap bytes (list nat) :=
  foldl (fun m '(idx, d) => foldl (push_index idx) m (elements (user_deploy_ids d))) ∅
    (enumerate derived).
Definition compute_conflict_map_fn (branches_set : gset ChainBranch) :
  res HistoryError (gmap ChainBranch (gset ChainBranch)) :=
  let branches := elements branches_set in
  derived <-! res_mapM compute_branch_derived branches;
  conflict_map <-! compute_conflict_map_event_indexed branches (combined_event_log <$> derived);
  res_foldM (mark branches) conflict_map
    ((map_to_list (deploy_to_branches derived)).*2 ≫= all_pairs).

(** [compute_branches_fn] *)
Definition compute_branches_fn (merge_set : gset DeployChainIndex) : option (gset ChainBranch) :=
  let chains_vec := elements merge_set in
  match compute_depends_map_event_indexed (E:=unit) chains_vec (ch_event_log_index <$> chains_vec) with
  | Ok depends_map => gather_related_sets depends_map
  | _ => None
  end.

(** ** Rejection expansion *)

(** Inserting chains into a [HashSet]: a chain that is the same as one that is there is not
    inserted. *)
Definition insert_chains (chains rejected : gset DeployChainIndex) : gset DeployChainIndex :=
  rejected ∪ filter (fun c => existsb (chain_same c) (elements rejected) = false) chains.
Definition with_rejection (r : ResolvedConflicts DeployChainIndex) (to_merge : list ChainBranch)
    (rejected : gset DeployChainIndex) : ResolvedConflicts DeployChainIndex :=
  mkResolved to_merge rejected (late_set_size r) (actual_set_size r) (branches_count r)
    (rejected_as_dependents_count r) (optimal_rejection_count r) (conflict_map_conflicts_count r)
    (rejection_options_count r).
Definition has_stale (descendant_blocks : gset BlockHash) (branch : ChainBranch) : bool :=
  existsb (fun c => bool_decide (source_block_hash c ∈ descendant_blocks)) (elements branch).
Definition expand_rejection (dag : KeyValueDagRepresentation)
    (iter_set : gset BlockHash -> list BlockHash) (actual_blocks : gset BlockHash)
    (resolved : ResolvedConflicts DeployChainIndex) : option (ResolvedConflicts DeployChainIndex) :=
  let rejected_source_blocks : gset BlockHash := set_map source_block_hash (rejected_items resolved) in
  if decide (rejected_source_blocks = ∅) then Some resolved
  else
    descendant_blocks ← descendants_within_scope dag iter_set actual_blocks rejected_source_blocks;
    if decide (descendant_blocks = ∅) then Some resolved
    else
      let stale := filter (fun b => has_stale descendant_blocks b = true) (to_merge resolved) in
      Some (with_rejection resolved
        (filter (fun b => has_stale descendant_blocks b = false) (to_merge resolved))
        (insert_chains (⋃ stale) (rejected_items resolved))).

(** ** The lists of rejected deploys *)

Definition rejected_pairs (rejected : gset DeployChainIndex) : list deploy_pair :=
  elements rejected ≫= fun chain =>
    (fun d => (ic_deploy_id d, source_block_hash chain)) <$> elements (deploys_with_cost chain).
Definition sort_pairs : list deploy_pair -> list deploy_pair := sort_by (pair_cmp bytes_cmp bytes_cmp).
Definition rejected_user_deploys (all_pairs collateral_lost_pairs : list deploy_pair) :
  list deploy_pair :=
  let rejected_user := filter (fun p => is_system_deploy_id p.1 = false) all_pairs in
  let existing_ids : gset bytes := list_to_set rejected_user.*1 in
  sort_pairs (rejected_user ++ filter (fun p => p.1 ∉ existing_ids) collateral_lost_pairs).
Definition rejected_slashes (all_pairs : list deploy_pair) : list deploy_pair :=
  sort_pairs (filter (fun p => is_slash_deploy_id p.1 = true) all_pairs).

(** ** Applying the actions *)

Section apply.
Context {C P A K KV : Type} `{!KeyValueStore KV, !DashOrder}.
Context (cd : Codecs C P A K) (rc : RowCodecs C P A K).

(** [apply_trie_actions_fn].  The new repository is dropped; the stores it wrote to are shared. *)
Definition apply_trie_actions_fn (lfb_post_state : Blake2b256Hash)
    (actions : list (HotStoreTrieAction C P A K)) :
  ST (HistoryRepositoryImpl KV) (res HistoryError Blake2b256Hash) :=
  reset_repo <- repository_reset lfb_post_state ;?
  fun self =>
    match do_checkpoint cd rc actions reset_repo with
    | Ok next => (Ok (repository_root next),
        mkRepo (current_history self) (history_store next) (roots_repository next) (leaf_store next))
    | Err e => (Err e, self)
    | Panic => (Panic, self)
    end.
End apply.

(** ** [fn merge] *)

Section merge.
Context {Par C P K KV : Type} `{!RhoNumber Par} `{!KeyValueStore KV, !DashOrder}.
Abbreviation A := (ListParWithRandom Par).
Context (cd : Codecs C P A K) (rc : RowCodecs C P A K).
Context (iter_set : gset BlockHash -> list BlockHash).
Context (iter_options : gset (gset ChainBranch) -> list (gset ChainBranch)).
Context (iter_branch : ChainBranch -> list DeployChainIndex).
Context (dag : KeyValueDagRepresentation) (idx : gmap BlockHash BlockMetadata) (fuel : nat).
Context (index : BlockHash -> res CasperError (list DeployChainIndex)).
Abbreviation repository := (HistoryRepositoryImpl KV).
Abbreviation reader := (RSpaceHistoryReaderImpl KV).

Definition fueled {X} (o : option (res KvStoreError X)) : res CasperError X :=
  map_err CasperKvStoreError (default Panic o).
Definition actual_blocks_of (lfb : BlockHash) (scope : option (gset BlockHash)) :
  res CasperError (gset BlockHash) :=
  match scope with
  | Some scope_blocks =>
    res_foldM (fun result candidate =>
      main <-! fueled (is_in_main_chain dag fuel candidate lfb);
      Ok (if main : bool then result else {[candidate]} ∪ result)) ∅ (iter_set scope_blocks)
  | None => unwrap (descendants dag fuel lfb)
  end.
Definition late_blocks_of (actual_blocks : gset BlockHash) (scope : option (gset BlockHash))
    (disable_late_block_filtering : bool) : res CasperError (gset BlockHash) :=
  if disable_late_block_filtering || bool_decide (is_Some scope) then Ok ∅
  else
    non_finalized <-! fueled (non_finalized_blocks dag idx fuel);
    Ok (non_finalized ∖ actual_blocks).
Definition chains_of (blocks : gset BlockHash) : res CasperError (list DeployChainIndex) :=
  res_foldM (fun acc h => indices <-! index h; Ok (acc ++ indices)) []
    (sort_by bytes_cmp (elements blocks)).

(** [compute_trie_actions_fn] *)
Definition handle_number_channel (history_reader : reader) (hash : Blake2b256Hash)
    (channel_changes : ChannelChange) (number_chs : NumberChannelsDiff) :
  res HistoryError (option (HotStoreTrieAction C P A K)) :=
  match number_chs !! hash with
  | Some (diff, merge_type) =>
    action <-! calculate_number_channel_merge cd rc hash diff merge_type channel_changes
      (fun h => reader_data_proj rc h history_reader);
    Ok (Some action)
  | None => Ok None
  end.
Definition compute_trie_actions_fn (reader : reader) (changes : StateChange)
    (mergeable_chs : NumberChannelsDiff) : res HistoryError (list (HotStoreTrieAction C P A K)) :=
  compute_trie_actions cd changes (history_reader rc reader) mergeable_chs
    (handle_number_channel reader).
(** The part of [merge] before the state is computed: the chains to merge and to reject, and
    the deploys lost with the chains that were dropped. *)
Definition select_chains (lfb : BlockHash) (rejection_cost_f : DeployChainIndex -> Z)
    (scope : option (gset BlockHash)) (disable_late_block_filtering : bool)
    (read_base : res CasperError reader) :
  res CasperError (reader * ResolvedConflicts DeployChainIndex * list deploy_pair) :=
  actual_blocks <-! actual_blocks_of lfb scope;
  late_blocks <-! late_blocks_of actual_blocks scope disable_late_block_filtering;
  actual_set_vec <-! chains_of actual_blocks;
  late_set_vec <-! chains_of late_blocks;
  let '(retained, collateral_lost_pairs) := dedup actual_set_vec in
  let actual_seq := first_by chain_same (sort_by chain_cmp retained) in
  let late_seq := first_by chain_same (sort_by chain_cmp late_set_vec) in
  history_reader <-! read_base;
  resolved <-! map_err CasperHistoryError (resolve_conflicts chain_cmp iter_options iter_branch depends_fn
    rejection_cost_f (fun c => number_channels_data (ch_event_log_index c))
    (fun h => reader_data_proj rc h history_reader)
    compute_branches_fn compute_conflict_map_fn actual_seq late_seq);
  let late : gset DeployChainIndex := list_to_set late_seq in
  let resolved := with_rejection resolved (to_merge resolved)
    (insert_chains (rejected_items resolved ∖ late) late) in
  resolved <-! unwrap (expand_rejection dag iter_set actual_blocks resolved);
  Ok (history_reader, resolved, collateral_lost_pairs).

Definition merge_dag (lfb : BlockHash) (lfb_post_state : Blake2b256Hash)
    (rejection_cost_f : DeployChainIndex -> Z) (scope : option (gset BlockHash))
    (disable_late_block_filtering : bool) :
  ST repository (res CasperError (Blake2b256Hash * list deploy_pair * list deploy_pair)) :=
  selected <- gets (fun self => select_chains lfb rejection_cost_f scope disable_late_block_filtering
    (map_err CasperHistoryError (get_history_reader_struct lfb_post_state self))) ;?
  let '(history_reader, resolved, collateral_lost_pairs) := selected in
  new_state <- (fun self =>
    let '(r, self) := compute_merged_state chain_cmp (fun c => Ok (ch_state_changes c))
      (fun c => number_channels_data (ch_event_log_index c))
      (compute_trie_actions_fn history_reader) (apply_trie_actions_fn cd rc lfb_post_state) resolved self in
    (map_err CasperHistoryError r, self)) ;?
  let all_pairs := rejected_pairs (rejected_items resolved) in
  lift (Ok (new_state, rejected_user_deploys all_pairs collateral_lost_pairs,
            rejected_slashes all_pairs)).
End merge.
