(* ===== verification/DagMergerOps.v ===== *)
(** * Branches and conflicts of deploy chains

    The functions that [merge] of [casper/src/rust/merging/dag_merger.rs] gives to
    [resolve_conflicts] meet what conflict resolution expects of them ([BranchOps]): the
    branches partition the chains, and the conflict map has every branch as a key and relates
    different branches in both directions. *)
From S2P Require Import Prelude Events HotStoreSig HistoryRepo MergingLogic MergingIndex.
From S2P Require Import MergingMaps MergingCombine RelatedSets StateChange.
From S2P Require Import ConflictSetMerger ConflictSetMergerThms BlockDag DeployChains DagMerger.

(** ** Orders *)

Lemma CompOpp_preorder {X} (cmp : X -> X -> comparison) `{!CmpPreorder cmp} :
  CmpPreorder (fun x y => CompOpp (cmp x y)).
Proof.
  split.
  - intros x y. by rewrite (cmp_sym cmp x y).
  - intros x y z. unfold cmp_le. rewrite <- !(cmp_sym cmp). intros Hxy Hyz.
    by apply (cmp_le_trans cmp z y x).
Qed.
#[global] Instance chain_cmp_preorder : CmpPreorder chain_cmp.
Proof.
  pose proof (CompOpp_preorder Z.compare) as Hz.
  exact (cmp_on_preorder
    (fun c => (total_cost c, (max_cost c, (min_deploy c, ch_post_state_hash c))))
    (pair_cmp (fun x y => CompOpp (Z.compare x y)) (pair_cmp (fun x y => CompOpp (Z.compare x y))
       (pair_cmp (option_cmp bytes_cmp) bytes_cmp)))).
Qed.

(** ** Dependencies *)

Lemma pinter_nonempty x y : pinter x y <> ∅ <-> dom x ∩ dom y <> ∅.
Proof.
  rewrite nonempty_is_Some. setoid_rewrite pinter_is_Some. setoid_rewrite <- elem_of_dom.
  setoid_rewrite <- elem_of_intersection. split.
  - intros [h Hh] Hx. rewrite Hx in Hh. by apply elem_of_empty in Hh.
  - by apply set_choose_L.
Qed.
(** The cached test is [depends]. *)
Lemma depends_fn_depends target source :
  depends_fn target source = depends (ch_event_log_index target) (ch_event_log_index source).
Proof.
  unfold depends_fn, depends. rewrite (bool_decide_ext _ _ (pinter_nonempty _ _)).
  case_decide as Hd; [by rewrite (bool_decide_eq_true_2 _ Hd)|by rewrite (bool_decide_eq_false_2 _ (fun Hn => Hn Hd))].
Qed.

(** ** Branches *)

Lemma coherent_sub logs logs' :
  coherent logs -> (forall e, e ∈ logs' -> e ∈ logs) -> coherent logs'.
Proof. intros [Hw Hp Hc] Hs. split; [auto|intros e e' p q He He'; eauto|eauto]. Qed.

Section chains.
Context (units : gset DeployChainIndex).
(** The logs of the chains to merge agree on the produces they share. *)
Context (Hco : coherent (ch_event_log_index <$> elements units)).

Lemma chain_coherent (cs : list DeployChainIndex) :
  (forall c, c ∈ cs -> c ∈ units) -> coherent (ch_event_log_index <$> cs).
Proof using Hco.
  intros Hs. apply (coherent_sub _ _ Hco). intros e (c & -> & Hc)%list_elem_of_fmap.
  apply list_elem_of_fmap_2, elem_of_elements. auto.
Qed.
Lemma compute_branches_partition (s : gset DeployChainIndex) :
  s ⊆ units -> exists bs, compute_branches_fn s = Some bs /\ partitions bs s.
Proof using Hco.
  intros Hs. unfold compute_branches_fn.
  rewrite (indexed_depends (elements s) ch_event_log_index (fun _ _ => false)).
  - destruct (compute_relation_map_spec (list_to_set (elements s)) (fun _ _ => false)
      (fun a b => depends (ch_event_log_index a) (ch_event_log_index b))) as [Hd Hr]; [by left|].
    apply gathered_partition; [by rewrite Hd, list_to_set_elements_L|].
    intros x y. rewrite !Hr. intros (? & ? & ? & Hrel). rewrite orb_comm in Hrel. auto.
  - apply NoDup_elements.
  - by left.
  - apply chain_coherent. intros c Hc%elem_of_elements. set_solver.
Qed.

(** ** Combined logs *)

(** What the log [z] mentions, some log of the list does. *)
Definition mentions_only (z : EventLogIndex) (logs : list EventLogIndex) : Prop :=
  index_wf z /\ (forall p, log_produce z p -> exists e, e ∈ logs /\ log_produce e p) /\
  forall c, c ∈ consumes_produced z -> exists e, e ∈ logs /\ c ∈ consumes_produced e.
Lemma elem_of_punion_plist p x y : p ∈ plist (punion x y) -> p ∈ plist x \/ p ∈ plist y.
Proof. rewrite !elem_of_plist. intros (h & [?|?]%punion_lookup); [left|right]; by exists h. Qed.
Lemma combine_mentions z logs e z' :
  mentions_only z logs -> index_wf e -> combine z e = Ok z' -> mentions_only z' (logs ++ [e]).
Proof.
  intros (Hw & Hp & Hc) He Hz. split; [by apply (combine_wf z e)|].
  assert (forall x, x ∈ logs -> x ∈ logs ++ [e]) as Hl by (intros; apply elem_of_app; by left).
  assert (e ∈ logs ++ [e]) as Hin by (apply elem_of_app; right; left).
  apply res_bind_Ok in Hz as (d & _ & [= <-]). split.
  - intros p Hpz.
    assert (log_produce z p \/ log_produce e p) as [(x & ? & ?)%Hp|?]; [|by exists x; auto|by exists e].
    unfold log_produce in *. cbn in Hpz.
    destruct Hpz as [H|[H|H]]; apply elem_of_punion_plist in H as [?|?]; auto.
  - cbn. intros c [(x & ? & ?)%Hc|?]%elem_of_union; [by exists x; auto|by exists e].
Qed.
Lemma combined_mentions (logs acc : list EventLogIndex) a z :
  mentions_only a acc -> (forall e, e ∈ logs -> index_wf e) ->
  res_foldM (fun a e => combine a e) a logs = Ok z -> mentions_only z (acc ++ logs).
Proof.
  revert acc a. induction logs as [|e logs IH]; intros acc a Ha Hw Hz.
  { injection Hz as <-. by rewrite app_nil_r. }
  cbn in Hz. apply res_bind_Ok in Hz as (a' & Ha' & Hz).
  rewrite cons_middle, app_assoc. apply (IH _ a'); [|intros; apply Hw; by right|done].
  apply (combine_mentions a _ e); [done|apply Hw; left|done].
Qed.
Lemma mentions_coherent (zs : list EventLogIndex) logs :
  coherent logs -> (forall z, z ∈ zs -> exists logs', (forall e, e ∈ logs' -> e ∈ logs) /\ mentions_only z logs') ->
  coherent zs.
Proof.
  intros [Hw Hp Hc] Hz. split.
  - intros z (logs' & _ & ? & _)%Hz. done.
  - intros z z' p q (l & Hl & _ & Hlp & _)%Hz (l' & Hl' & _ & Hlq & _)%Hz.
    intros (e & He & Hep)%Hlp (e' & He' & Heq)%Hlq. eauto.
  - intros z c (l & Hl & _ & _ & Hlc)%Hz (e & He & Hec)%Hlc. eauto.
Qed.

(** ** Shared deploys *)

Lemma push_indexes (idx : nat) (l : list bytes) (m : gmap bytes (list nat)) (id : bytes) :
  NoDup l ->
  default [] (foldl (push_index idx) m l !! id) =
  default [] (m !! id) ++ if decide (id ∈ l) then [idx] else [].
Proof.
  revert m. induction l as [|x l IH]; intros m Hnd; cbn [foldl].
  { by rewrite app_nil_r. }
  apply NoDup_cons in Hnd as [Hx Hnd]. rewrite IH by done. unfold push_index at 1.
  destruct (decide (id = x)) as [->|Hne].
  - rewrite lookup_insert_eq. rewrite decide_False by done. rewrite decide_True by left.
    cbn. by rewrite app_nil_r.
  - rewrite lookup_insert_ne by done. f_equal.
    destruct (decide (id ∈ l)).
    + by rewrite decide_True by (by right).
    + by rewrite decide_False by (by rewrite elem_of_cons; intros [?|?]).
Qed.
(** The positions under an id are those of the branches with a deploy of that id. *)
Lemma deploy_to_branches_spec (derived : list BranchDerived) (id : bytes) :
  let ids := default [] (deploy_to_branches derived !! id) in
  NoDup ids /\ forall i, i ∈ ids <-> exists d, derived !! i = Some d /\ id ∈ user_deploy_ids d.
Proof.
  induction derived as [|d derived [IHn IH]] using rev_ind.
  { split; [constructor|]. intros i. split; [by intros ?%elem_of_nil|]. by intros (d & ? & _). }
  cbn zeta. unfold deploy_to_branches, enumerate. rewrite imap_app, foldl_app. cbn [imap foldl].
  rewrite push_indexes by apply NoDup_elements. fold (enumerate derived). fold (deploy_to_branches derived).
  rewrite Nat.add_0_r. set (ids := default [] (deploy_to_branches derived !! id)) in *.
  assert (forall i, i ∈ ids -> i < length derived) as Hlt.
  { intros i (? & ?%lookup_lt_Some & _)%IH. done. }
  split.
  - apply NoDup_app. split; [done|]. case_decide; [|split; [set_solver|constructor]].
    split; [|apply NoDup_singleton]. intros i ?%Hlt ->%list_elem_of_singleton. lia.
  - intros i. rewrite elem_of_app, IH. setoid_rewrite lookup_app_Some. split.
    + intros [(d' & ? & ?)|Hi]; [by exists d'; auto|]. case_decide as Hd; [|by apply elem_of_nil in Hi].
      apply list_elem_of_singleton in Hi as ->. exists d.
      split; [right; split; [done|by rewrite Nat.sub_diag]|by apply elem_of_elements].
    + intros (d' & [Hi|[Hle Hi]] & Hid); [left; by exists d'|]. right.
      apply list_lookup_singleton_Some in Hi as [Hz ->].
      rewrite decide_True by (by apply elem_of_elements). apply list_elem_of_singleton. lia.
Qed.

(** ** The conflict map *)

Definition branch_log (b : ChainBranch) : EventLogIndex :=
  match compute_branch_derived b with Ok d => combined_event_log d | _ => empty_index end.
Lemma branch_derived_Ok b d :
  compute_branch_derived b = Ok d -> d = mkDerived (branch_user_ids b) (branch_log b).
Proof.
  intros Hd. unfold branch_log. rewrite Hd. apply res_bind_Ok in Hd as (l & _ & [= <-]). done.
Qed.
Lemma branch_derived_no_panic b : compute_branch_derived b <> Panic.
Proof.
  unfold compute_branch_derived.
  destruct (res_foldM _ _ _) eqn:E; simpl; [done|done|].
  apply res_foldM_no_panic in E as []. intros s c _. apply combine_no_panic.
Qed.
Lemma branch_log_mentions b d :
  b ⊆ units -> compute_branch_derived b = Ok d ->
  exists logs, (forall e, e ∈ logs -> e ∈ ch_event_log_index <$> elements units) /\
    mentions_only (branch_log b) logs.
Proof using Hco.
  intros Hb Hd. pose proof (branch_derived_Ok b d Hd) as ->.
  apply res_bind_Ok in Hd as (l & Hl & [= ->]).
  set (cs := filter (fun c => only_user_deploys c = true) (elements b)) in Hl.
  rewrite <- (res_foldM_fmap ch_event_log_index (fun a e => combine a e)) in Hl.
  assert (forall e, e ∈ ch_event_log_index <$> cs -> e ∈ ch_event_log_index <$> elements units) as Hsub.
  { intros e (c & -> & [_ Hc%elem_of_elements]%list_elem_of_filter)%list_elem_of_fmap.
    apply list_elem_of_fmap_2, elem_of_elements. by apply Hb. }
  exists (ch_event_log_index <$> cs). split; [done|].
  apply (combined_mentions _ [] empty_index); [|intros e ?%Hsub; by apply (co_wf _ Hco)|done].
  split_and!; [apply empty_wf| |]; cbn.
  - intros p [Hp|[Hp|Hp]]; by apply elem_of_nil in Hp.
  - set_solver.
Qed.

(** Two branches conflict when their logs do or when they share a deploy of a user. *)
Definition branches_conflict (b b' : ChainBranch) : Prop :=
  are_conflicting (branch_log b) (branch_log b') = true \/
  are_conflicting (branch_log b') (branch_log b) = true \/
  exists id, id ∈ branch_user_ids b /\ id ∈ branch_user_ids b'.

Lemma compute_conflict_map_spec (bs : gset ChainBranch) :
  branches_within units bs ->
  match compute_conflict_map_fn bs with
  | Ok cm => dom cm = bs /\
      forall b b', related cm b b' <-> b ∈ bs /\ b' ∈ bs /\ b <> b' /\ branches_conflict b b'
  | Err _ => True
  | Panic => False
  end.
Proof using Hco.
  intros Hw. unfold compute_conflict_map_fn.
  destruct (res_mapM compute_branch_derived (elements bs)) as [derived|e|] eqn:Hd; simpl; [|done|].
  2: { by apply res_mapM_no_panic in Hd; [|intros b _; apply branch_derived_no_panic]. }
  apply res_mapM_Ok in Hd.
  assert (derived = (fun b => mkDerived (branch_user_ids b) (branch_log b)) <$> elements bs) as ->.
  { clear Hw. induction Hd as [|b d l k Hb _ IH]; [done|]. cbn. f_equal; [|done].
    by apply branch_derived_Ok. }
  rewrite <- list_fmap_compose. cbn [compose].
  assert (coherent (branch_log <$> elements bs)) as Hc.
  { apply (mentions_coherent _ _ Hco). intros z (b & -> & Hb)%list_elem_of_fmap.
    apply list_elem_of_lookup in Hb as Hi. destruct Hi as [i Hi].
    destruct (Forall2_lookup_l _ _ _ _ _ Hd Hi) as (d & _ & Hbd).
    apply (branch_log_mentions b d); [|done]. apply Hw. by apply elem_of_elements. }
  rewrite (indexed_conflicts (elements bs) branch_log (fun _ _ => false));
    [|apply NoDup_elements|by left|done]. cbn [res_bind].
  rewrite list_to_set_elements_L.
  destruct (compute_relation_map_spec bs (fun _ _ => false)
    (fun a b => are_conflicting (branch_log a) (branch_log b))) as [Hdom Hr]; [by left|].
  set (cm0 := compute_relation_map bs _ _) in *.
  set (derived := (fun b => mkDerived (branch_user_ids b) (branch_log b)) <$> elements bs).
  set (pairs := _ ≫= all_pairs).
  assert (forall i j, linked pairs i j <-> i <> j /\ exists b b' id, elements bs !! i = Some b /\
    elements bs !! j = Some b' /\ id ∈ branch_user_ids b /\ id ∈ branch_user_ids b') as Hl.
  { intros i j. unfold pairs. rewrite linked_bind. split.
    - intros (ids & Hids & Hl). apply list_elem_of_fmap in Hids as ([id ids'] & -> & Hid).
      apply elem_of_map_to_list in Hid. cbn in Hl.
      destruct (deploy_to_branches_spec derived id) as [Hnd Hin]. rewrite Hid in Hnd, Hin. cbn in Hnd, Hin.
      apply linked_all_pairs in Hl as (Hi & Hj & Hne); [|done]. split; [done|].
      apply Hin in Hi as (d & Hd1 & Hi), Hj as (d' & Hd2 & Hj). unfold derived in Hd1, Hd2.
      apply list_lookup_fmap_Some in Hd1 as (b & -> & Hb), Hd2 as (b' & -> & Hb'). by exists b, b', id.
    - intros (Hne & b & b' & id & Hb & Hb' & Hi & Hj).
      destruct (deploy_to_branches_spec derived id) as [Hnd Hin].
      assert (forall k c, elements bs !! k = Some c -> id ∈ branch_user_ids c ->
        k ∈ default [] (deploy_to_branches derived !! id)) as Hk.
      { intros k c Hkc Hid. apply Hin. exists (mkDerived (branch_user_ids c) (branch_log c)).
        split; [|done]. unfold derived. by rewrite list_lookup_fmap, Hkc. }
      pose proof (Hk i b Hb Hi) as Hki. pose proof (Hk j b' Hb' Hj) as Hkj.
      destruct (deploy_to_branches derived !! id) as [ids|] eqn:Hids; [|by apply elem_of_nil in Hki].
      exists ids. split; [|by apply linked_all_pairs].
      apply list_elem_of_fmap. exists (id, ids). split; [done|]. by apply elem_of_map_to_list. }
  destruct (mark_all (E:=HistoryError) (elements bs) pairs cm0) as (cm & -> & Hdom' & Hr').
  { intros b Hb%elem_of_elements. by rewrite Hdom. }
  { intros i j Hij. destruct (proj1 (Hl i j)) as (_ & b & b' & _ & Hb & Hb' & _); [by left|].
    split; by eapply lookup_lt_Some. }
  split; [by rewrite Hdom', Hdom|]. intros b b'. rewrite Hr', Hr. setoid_rewrite Hl.
  rewrite orb_true_iff. unfold branches_conflict. split.
  - intros [(? & ? & ? & ?)|(i & j & (Hne & c & c' & id & Hbc & Hbc' & Hid) & Hb & Hb')]; [tauto|].
    simplify_eq. split_and!; [by apply elem_of_elements; eapply list_elem_of_lookup_2..| |eauto].
    intros ->. apply Hne. by apply (NoDup_lookup (elements bs) i j c' (NoDup_elements bs)).
  - intros (Hb & Hb' & Hne & Hcf). apply elem_of_elements in Hb as Hi, Hb' as Hj.
    apply list_elem_of_lookup in Hi as [i Hi], Hj as [j Hj].
    destruct Hcf as [?|[?|(id & ? & ?)]]; [tauto..|right].
    exists i, j. split; [|done]. split; [congruence|]. by exists b, b', id.
Qed.
Lemma branches_conflict_sym b b' : branches_conflict b b' -> branches_conflict b' b.
Proof. unfold branches_conflict. naive_solver. Qed.

#[export] Instance chain_branch_ops : BranchOps units compute_branches_fn compute_conflict_map_fn.
Proof using Hco.
  assert (forall bs cm, branches_within units bs -> compute_conflict_map_fn bs = Ok cm -> dom cm = bs /\
    forall b b', related cm b b' <-> b ∈ bs /\ b' ∈ bs /\ b <> b' /\ branches_conflict b b') as Hs.
  { intros bs cm Hw Hcm. pose proof (compute_conflict_map_spec bs Hw) as Hx. by rewrite Hcm in Hx. }
  split.
  - apply compute_branches_partition.
  - intros bs Hw Hcm. pose proof (compute_conflict_map_spec bs Hw) as Hx. by rewrite Hcm in Hx.
  - intros bs cm Hw Hcm. by apply (Hs bs cm).
  - intros bs cm b b' Hw Hcm. rewrite !(proj2 (Hs bs cm Hw Hcm)).
    intros (? & ? & ? & ?%branches_conflict_sym). auto.
  - intros bs cm b Hw Hcm. rewrite (proj2 (Hs bs cm Hw Hcm)). tauto.
Qed.
End chains.
