(* ===== verification/DagMergerThms.v ===== *)
(** * What merging the blocks guarantees

    [merge] of [casper/src/rust/merging/dag_merger.rs] loses no deploy of a user: each one of
    the blocks in scope is in a chain that is merged or in the list of rejected deploys.  It
    executes the freshest copy, never merges two conflicting branches, and rejects the chains
    of the descendants of rejected blocks, except for those of blocks that have a rejected
    chain themselves. *)
From S2P Require Import Prelude Events HotStoreSig KeyValueStore Serializers HistoryRepo.
From S2P Require Import RadixTree MergingLogic MergingIndex.
From S2P Require Import MergingMaps RelatedSets StateChange NumberChannels ConflictSetMerger.
From S2P Require Import ConflictSetMergerThms MergedBalances BlockDag BlockDagWalk DeployChains DagMerger DagMergerOps.

(** ** Sets of chains *)

Section first_by.
Context {X K : Type} `{EqDecision K} (key : X -> K).
Let same (x y : X) : bool := bool_decide (key x = key y).

Lemma first_by_elem x l : x ∈ first_by same l -> x ∈ l.
Proof.
  induction l as [|y l IH]; [done|]. cbn. rewrite !elem_of_cons, list_elem_of_filter. tauto.
Qed.
Lemma first_by_cover x l : x ∈ l -> exists y, y ∈ first_by same l /\ key y = key x.
Proof.
  induction l as [|z l IH]; [by intros ?%elem_of_nil|]. cbn.
  intros [->|Hx]%elem_of_cons; [exists z; split; [left|done]|].
  destruct (IH Hx) as (y & Hy & Hk). destruct (decide (key z = key y)) as [He|Hn].
  - exists z. split; [left|congruence].
  - exists y. split; [|done]. right. apply list_elem_of_filter. split; [|done].
    by apply bool_decide_eq_false.
Qed.
Lemma first_by_unique x y l :
  x ∈ first_by same l -> y ∈ first_by same l -> key x = key y -> x = y.
Proof.
  induction l as [|z l IH]; [by intros ?%elem_of_nil|]. cbn. rewrite !elem_of_cons, !list_elem_of_filter.
  unfold same. rewrite !bool_decide_eq_false.
  intros [->|[Hzx Hx]] [->|[Hzy Hy]] Hk; [done|congruence|congruence|auto].
Qed.
End first_by.

Lemma chain_same_true c c' : chain_same c c' = true <-> deploys_with_cost c = deploys_with_cost c'.
Proof. apply bool_decide_eq_true. Qed.
Lemma elem_of_insert_chains c (cs rejected : gset DeployChainIndex) :
  c ∈ insert_chains cs rejected <->
  c ∈ rejected \/ (c ∈ cs /\ forall r, r ∈ rejected -> deploys_with_cost c <> deploys_with_cost r).
Proof.
  unfold insert_chains. rewrite elem_of_union, elem_of_filter.
  assert (existsb (chain_same c) (elements rejected) = false <->
    forall r, r ∈ rejected -> deploys_with_cost c <> deploys_with_cost r) as ->; [|tauto].
  rewrite <- not_true_iff_false, existsb_exists. setoid_rewrite <- list_elem_of_In.
  setoid_rewrite elem_of_elements. setoid_rewrite chain_same_true. naive_solver.
Qed.

(** ** Descendants within the scope *)

Section descendants.
Context (dag : KeyValueDagRepresentation) (iter_set : gset BlockHash -> list BlockHash).
Context (iter_perm : forall s, iter_set s ≡ₚ elements s).
Context (scope start : gset BlockHash).

(** A child in the scope. *)
Definition scope_child (x y : BlockHash) : Prop :=
  (exists cs, children dag x = Some cs /\ y ∈ cs) /\ y ∈ scope.

Record scope_inv (result : gset BlockHash) (queue : list BlockHash) (visited : gset BlockHash) : Prop := {
  sc_visited : visited = start ∪ result;
  sc_disj : forall x, x ∈ result -> x ∉ start;
  sc_queue : forall x, x ∈ queue -> x ∈ visited;
  sc_reach : forall x, x ∈ result -> exists s, s ∈ start /\ tc scope_child s x;
  sc_scope : forall x, x ∈ result -> x ∈ scope;
}.
Definition scope_done (queue : list BlockHash) (visited : gset BlockHash) : Prop :=
  forall x y, x ∈ visited -> x ∉ queue -> scope_child x y -> y ∈ visited.

Lemma visit_children result queue visited current (l : list BlockHash) :
  scope_inv result queue visited -> current ∈ visited ->
  (forall y, y ∈ l -> exists cs, children dag current = Some cs /\ y ∈ cs) ->
  let '(result', queue', visited') := foldl (visit_child scope) (result, queue, visited) l in
  scope_inv result' queue' visited' /\
  (forall x, x ∈ queue' <-> x ∈ queue \/ (x ∈ visited' /\ x ∉ visited)) /\
  visited ⊆ visited' /\ (forall y, y ∈ l -> y ∈ scope -> y ∈ visited') /\
  length queue' + size (scope ∖ visited') = length queue + size (scope ∖ visited).
Proof.
  revert result queue visited. induction l as [|y l IH]; intros result queue visited I Hc Hl; cbn [foldl].
  { split_and!; [done| |done| |done]; [|by intros y ?%elem_of_nil]. intros x. tauto. }
  unfold visit_child at 2. case_decide as Hd.
  - destruct Hd as [Hs Hn]. destruct (Hl y) as (cs & Hcs & Hy); [left|].
    assert (scope_inv ({[y]} ∪ result) (y :: queue) ({[y]} ∪ visited)) as I'.
    { destruct I as [Hv Hdj Hq Hr Hsc]. split.
      - rewrite Hv. set_solver.
      - intros x [->%elem_of_singleton|?]%elem_of_union; [|by apply Hdj]. set_solver.
      - intros x [->|Hx]%elem_of_cons; [set_solver|]. apply Hq in Hx. set_solver.
      - intros x [->%elem_of_singleton|?]%elem_of_union; [|by apply Hr].
        assert (scope_child current y) as Hcy by (split; [by exists cs|done]).
        rewrite Hv in Hc. apply elem_of_union in Hc as [Hc|(s & Hs' & Ht)%Hr].
        + exists current. split; [done|by apply tc_once].
        + exists s. split; [done|]. by eapply tc_r.
      - intros x [->%elem_of_singleton|?]%elem_of_union; [done|auto]. }
    specialize (IH _ _ _ I' ltac:(set_solver) (fun z Hz => Hl z (list_elem_of_further _ _ _ Hz))).
    destruct (foldl _ _ l) as [[r' q'] v']. destruct IH as (I2 & Hq2 & Hv2 & Hl2 & Hm).
    split_and!; [done| |set_solver| |].
    + assert (y ∈ v') as Hyv by (apply Hv2, elem_of_union_l, elem_of_singleton_2; done).
      intros x. rewrite Hq2, elem_of_cons, not_elem_of_union, not_elem_of_singleton.
      destruct (decide (x = y)) as [->|]; tauto.
    + intros z [->|Hz]%elem_of_cons Hzs; [set_solver|auto].
    + rewrite Hm. cbn [length].
      assert (scope ∖ visited = {[y]} ∪ scope ∖ ({[y]} ∪ visited)) as ->.
      { apply set_eq. intros z. destruct (decide (z = y)); set_solver. }
      rewrite (size_union (C:=gset BlockHash) {[y]}), (size_singleton (C:=gset BlockHash)) by set_solver. lia.
  - specialize (IH _ _ _ I Hc (fun z Hz => Hl z (list_elem_of_further _ _ _ Hz))).
    destruct (foldl _ _ l) as [[r' q'] v']. destruct IH as (I2 & Hq2 & Hv2 & Hl2 & Hm).
    split_and!; [done|done|done| |done].
    intros z [->|Hz]%elem_of_cons Hzs; [|auto]. apply Hv2.
    destruct (decide (y ∈ visited)); [done|]. by destruct Hd.
Qed.

Lemma scope_loop_spec fuel result queue visited :
  scope_inv result queue visited -> scope_done queue visited ->
  length queue + size (scope ∖ visited) < fuel ->
  exists D, scope_loop dag iter_set scope fuel result queue visited = Some D /\
    scope_inv D [] (start ∪ D) /\ scope_done [] (start ∪ D).
Proof using iter_perm.
  revert result queue visited. induction fuel as [|fuel IH]; intros result queue visited I Hd Hf; [lia|].
  cbn [scope_loop]. destruct queue as [|current queue].
  { exists result. destruct (sc_visited _ _ _ I). done. }
  assert (scope_inv result queue visited) as I0.
  { destruct I as [? ? Hq ? ?]. split; [done|done| |done|done]. intros x Hx. apply Hq. by right. }
  assert (current ∈ visited) as Hc by (apply (sc_queue _ _ _ I); left).
  set (l := match children dag current with Some cs => iter_set cs | None => [] end).
  assert (forall y, y ∈ l <-> exists cs, children dag current = Some cs /\ y ∈ cs) as Hl.
  { intros y. unfold l. destruct (children dag current) as [cs|].
    - rewrite iter_perm, elem_of_elements. naive_solver.
    - split; [by intros ?%elem_of_nil|by intros (? & ? & _)]. }
  pose proof (visit_children result queue visited current l I0 Hc (fun y Hy => proj1 (Hl y) Hy)) as Hv.
  assert (match children dag current with
          | Some cs => foldl (visit_child scope) (result, queue, visited) (iter_set cs)
          | None => (result, queue, visited) end = foldl (visit_child scope) (result, queue, visited) l)
    as -> by (unfold l; by destruct (children dag current)).
  destruct (foldl _ _ l) as [[r' q'] v']. destruct Hv as (I2 & Hq2 & Hv2 & Hl2 & Hm).
  apply IH; [done| |cbn in Hf; lia].
  intros x y Hx Hxq Hxy. rewrite Hq2 in Hxq.
  destruct (decide (x = current)) as [->|Hne].
  - apply Hl2; [|apply Hxy]. apply Hl, Hxy.
  - apply Hv2. apply (Hd x y); [|rewrite elem_of_cons|done]; destruct (decide (x ∈ visited)); tauto.
Qed.

(** The blocks of the scope that descend from the start blocks through the scope, without
    the start blocks. *)
Lemma descendants_within_scope_spec :
  exists D, descendants_within_scope dag iter_set scope start = Some D /\
    forall x, x ∈ D <-> x ∉ start /\ exists s, s ∈ start /\ tc scope_child s x.
Proof using iter_perm.
  assert (forall x, x ∈ rev (iter_set start) <-> x ∈ start) as Hq.
  { intros x. rewrite <- Permutation_rev, iter_perm. apply elem_of_elements. }
  destruct (scope_loop_spec (S (size start + size scope)) ∅ (rev (iter_set start)) start)
    as (D & HD & I & Hdone).
  - split; [set_solver|set_solver|intros x; by rewrite Hq|set_solver|set_solver].
  - intros x y Hx Hn. by rewrite Hq in Hn.
  - rewrite <- (Permutation_length (Permutation_rev _)), (Permutation_length (iter_perm _)).
    assert (size (scope ∖ start) <= size scope) by (apply subseteq_size; set_solver).
    change (length (elements start)) with (size start). lia.
  - exists D. split; [done|]. intros x. split.
    + intros Hx. split; [by apply (sc_disj _ _ _ I)|by apply (sc_reach _ _ _ I)].
    + intros (Hn & s & Hs & Ht).
      assert (x ∈ start ∪ D) as Hx; [|set_solver].
      assert (s ∈ start ∪ D) as Hs' by set_solver. clear Hs Hn. revert Hs'.
      induction Ht as [s x Hsx|s y x Hsy _ IH]; intros Hs.
      * apply (Hdone s x); [done|by apply not_elem_of_nil|done].
      * apply IH, (Hdone s y); [done|by apply not_elem_of_nil|done].
Qed.
End descendants.

(** ** Freshest copies *)

(** The fresher source first. *)
Definition fresh_cmp : Z * BlockHash -> Z * BlockHash -> comparison :=
  pair_cmp (fun x y => Z.compare y x) bytes_cmp.
#[global] Instance fresh_cmp_order : CmpOrder fresh_cmp.
Proof.
  assert (CmpOrder (fun x y => Z.compare y x)) as Hz.
  { split; [split|].
    - intros x y. apply (cmp_sym Z.compare).
    - intros x y z Hxy Hyz. by apply (cmp_le_trans Z.compare z y x).
    - intros x y Hxy. symmetry. by apply Z.compare_eq. }
  exact (pair_cmp_order _ _).
Qed.
Lemma is_fresher_cmp s t : is_fresher s t = true <-> fresh_cmp s t = Lt.
Proof.
  destruct s as [n h], t as [n' h']. unfold is_fresher, fresh_cmp, pair_cmp. cbn.
  rewrite bool_decide_eq_true. destruct (Z.compare_spec n' n); cbn; naive_solver lia.
Qed.

Definition has_deploy (c : DeployChainIndex) (id : bytes) : Prop :=
  exists d, d ∈ deploys_with_cost c /\ ic_deploy_id d = id.
(** The map holds the freshest of the sources that satisfy [P]. *)
Definition freshest_of (m : gmap bytes (Z * BlockHash)) (P : Z * BlockHash -> bytes -> Prop) : Prop :=
  forall id, match m !! id with
    | Some best => P best id /\ forall s, P s id -> cmp_le fresh_cmp best s
    | None => forall s, ~ P s id
    end.
Lemma note_source_freshest m P c d :
  freshest_of m P ->
  freshest_of (note_source c m d) (fun s id => P s id \/ s = source_of c /\ id = ic_deploy_id d).
Proof.
  intros Hm id. unfold note_source. specialize (Hm id) as Hid.
  destruct (decide (id = ic_deploy_id d)) as [->|Hne].
  - destruct (m !! ic_deploy_id d) as [best|] eqn:Hb.
    + destruct Hid as [HP Hle]. destruct (is_fresher (source_of c) best) eqn:Hf.
      * rewrite lookup_insert_eq. apply is_fresher_cmp in Hf. split; [by right|].
        intros s [Hs|[-> _]]; [|apply (cmp_le_refl fresh_cmp)].
        apply (cmp_le_trans fresh_cmp _ best); [unfold cmp_le; by rewrite Hf|by apply Hle].
      * rewrite Hb. split; [by left|]. intros s [Hs|[-> _]]; [by apply Hle|].
        unfold cmp_le. rewrite (cmp_sym fresh_cmp (source_of c) best).
        intros Hx. assert (fresh_cmp (source_of c) best = Lt) as Hlt%is_fresher_cmp by
          (by destruct (fresh_cmp (source_of c) best)). congruence.
    + rewrite lookup_insert_eq. split; [by right|].
      intros s [Hs|[-> _]]; [by destruct (Hid s)|apply (cmp_le_refl fresh_cmp)].
  - assert (match m !! ic_deploy_id d with
      | Some best => if is_fresher (source_of c) best then <[ic_deploy_id d := source_of c]> m else m
      | None => <[ic_deploy_id d := source_of c]> m end !! id = m !! id) as ->.
    { repeat case_match; rewrite ?lookup_insert_ne by done; done. }
    destruct (m !! id) as [best|].
    + destruct Hid as [HP Hle]. split; [by left|]. intros s [?|[_ ?]]; [by apply Hle|done].
    + intros s [?|[_ ?]]; [by apply (Hid s)|done].
Qed.
Lemma freshest_of_ext m (P Q : Z * BlockHash -> bytes -> Prop) :
  (forall s id, P s id <-> Q s id) -> freshest_of m P -> freshest_of m Q.
Proof.
  intros HPQ Hm id. specialize (Hm id). destruct (m !! id).
  - rewrite <- HPQ. setoid_rewrite <- HPQ. done.
  - by setoid_rewrite <- HPQ.
Qed.
Lemma note_sources_freshest m P c (ds : list DeployIdWithCost) :
  freshest_of m P ->
  freshest_of (foldl (note_source c) m ds)
    (fun s id => P s id \/ s = source_of c /\ exists d, d ∈ ds /\ ic_deploy_id d = id).
Proof.
  revert m P. induction ds as [|d ds IH]; intros m P Hm; cbn [foldl].
  - apply (freshest_of_ext m P); [|done]. intros s id. split; [auto|].
    intros [?|[_ (d & ?%elem_of_nil & _)]]; done.
  - apply (note_source_freshest _ _ c d), IH in Hm. revert Hm. apply freshest_of_ext.
    intros s id. setoid_rewrite elem_of_cons. naive_solver.
Qed.
Lemma latest_freshest chains :
  freshest_of (latest_for_deploy chains)
    (fun s id => exists c, c ∈ chains /\ s = source_of c /\ has_deploy c id).
Proof.
  unfold latest_for_deploy. induction chains as [|c chains IH] using rev_ind.
  { intros id. cbn [foldl]. rewrite lookup_empty. by intros s (c & ?%elem_of_nil & _). }
  rewrite foldl_app. cbn [foldl]. apply (note_sources_freshest _ _ c (elements (deploys_with_cost c))) in IH.
  revert IH. apply freshest_of_ext. intros s id. setoid_rewrite elem_of_app.
  setoid_rewrite elem_of_elements. setoid_rewrite list_elem_of_singleton. split.
  - intros [(c' & Hc & -> & Hh)|[-> Hh]]; [exists c'|exists c]; split; [by left|done|by right|done].
  - intros (c' & [Hc| ->] & -> & Hh); [left; by exists c'|by right].
Qed.

(** A chain that stays is the freshest source of all its deploys. *)
Lemma is_freshest_true chains c d :
  c ∈ chains -> d ∈ deploys_with_cost c ->
  is_freshest (latest_for_deploy chains) c d = true <->
  latest_for_deploy chains !! ic_deploy_id d = Some (source_of c).
Proof.
  intros Hc Hd. pose proof (latest_freshest chains (ic_deploy_id d)) as Hl. unfold is_freshest, source_of.
  destruct (latest_for_deploy chains !! ic_deploy_id d) as [[n h]|].
  - rewrite andb_true_iff, !bool_decide_eq_true. naive_solver.
  - exfalso. apply (Hl (source_of c)). exists c. split_and!; [done|done|by exists d].
Qed.
Lemma is_retained_true chains c :
  c ∈ chains ->
  is_retained (latest_for_deploy chains) c = true <->
  forall id, has_deploy c id -> latest_for_deploy chains !! id = Some (source_of c).
Proof.
  intros Hc. unfold is_retained. rewrite forallb_forall. setoid_rewrite <- list_elem_of_In.
  setoid_rewrite elem_of_elements. split.
  - intros Hr id (d & Hd & <-). apply (is_freshest_true chains c d Hc Hd). by apply Hr.
  - intros Hr d Hd. apply (is_freshest_true chains c d Hc Hd). apply Hr. by exists d.
Qed.
Lemma dedup_eq chains :
  dedup chains =
  (filter (fun c => is_retained (latest_for_deploy chains) c = true) chains,
   filter (fun c => is_retained (latest_for_deploy chains) c = false) chains ≫=
     collateral_of (latest_for_deploy chains)).
Proof. by destruct chains. Qed.
Lemma elem_of_collateral chains id src :
  (id, src) ∈ (dedup chains).2 <->
  exists c, c ∈ chains /\ is_retained (latest_for_deploy chains) c = false /\ has_deploy c id /\
    source_block_hash c = src /\ is_system_deploy_id id = false /\
    latest_for_deploy chains !! id = Some (source_of c).
Proof.
  rewrite dedup_eq. cbn [snd]. rewrite list_elem_of_bind. split.
  - intros (c & Hp & [Hr Hc]%list_elem_of_filter). unfold collateral_of in Hp.
    apply list_elem_of_fmap in Hp as (d & [= -> ->] & [[Hs Hf] Hd%elem_of_elements]%list_elem_of_filter).
    exists c. split_and!; [done|done|by exists d|done|done|]. by apply (is_freshest_true chains c d Hc Hd).
  - intros (c & Hc & Hr & (d & Hd & <-) & <- & Hs & Hl). exists c. split; [|by apply list_elem_of_filter].
    apply list_elem_of_fmap. exists d. split; [done|]. apply list_elem_of_filter.
    rewrite elem_of_elements. split; [split|]; [done| |done]. by apply (is_freshest_true chains c d Hc Hd).
Qed.
(** Every deploy of a user is in a chain that stays or is collateral. *)
Lemma dedup_covers chains c id :
  c ∈ chains -> has_deploy c id -> is_system_deploy_id id = false ->
  (exists c', c' ∈ (dedup chains).1 /\ has_deploy c' id) \/ exists src, (id, src) ∈ (dedup chains).2.
Proof.
  intros Hc Hh Hs. pose proof (latest_freshest chains id) as Hl.
  destruct (latest_for_deploy chains !! id) as [best|] eqn:Hb.
  2: { exfalso. apply (Hl (source_of c)). by exists c. }
  destruct Hl as [(c' & Hc' & -> & Hh') _].
  destruct (is_retained (latest_for_deploy chains) c') eqn:Hr.
  - left. exists c'. split; [|done]. rewrite dedup_eq. by apply list_elem_of_filter.
  - right. exists (source_block_hash c'). apply elem_of_collateral. by exists c'.
Qed.

(** ** Rejection expansion *)

Lemma has_stale_true D (b : ChainBranch) :
  has_stale D b = true <-> exists c, c ∈ b /\ source_block_hash c ∈ D.
Proof.
  unfold has_stale. rewrite existsb_exists. setoid_rewrite <- list_elem_of_In.
  setoid_rewrite elem_of_elements. by setoid_rewrite bool_decide_eq_true.
Qed.
Lemma has_stale_false D (b : ChainBranch) :
  has_stale D b = false <-> forall c, c ∈ b -> source_block_hash c ∉ D.
Proof. rewrite <- not_true_iff_false, has_stale_true. naive_solver. Qed.

Section expansion.
Context (dag : KeyValueDagRepresentation) (iter_set : gset BlockHash -> list BlockHash).
Context (iter_perm : forall s, iter_set s ≡ₚ elements s).
Context (actual_blocks : gset BlockHash).
Implicit Types r : ResolvedConflicts DeployChainIndex.

(** A block of a rejected chain, and a block below one that is not one itself. *)
Definition rejected_source r (h : BlockHash) : Prop :=
  exists c, c ∈ rejected_items r /\ source_block_hash c = h.
Definition stale_block r (h : BlockHash) : Prop :=
  ~ rejected_source r h /\ exists s, rejected_source r s /\ tc (scope_child dag actual_blocks) s h.

Lemma expand_rejection_spec r :
  exists r', expand_rejection dag iter_set actual_blocks r = Some r' /\
    (forall b, b ∈ to_merge r' <->
       b ∈ to_merge r /\ forall c, c ∈ b -> ~ stale_block r (source_block_hash c)) /\
    (forall c, c ∈ rejected_items r' <-> c ∈ rejected_items r \/
       (exists b, b ∈ to_merge r /\ c ∈ b /\ exists c', c' ∈ b /\ stale_block r (source_block_hash c')) /\
       forall c', c' ∈ rejected_items r -> deploys_with_cost c <> deploys_with_cost c') /\
    (forall b, b ∈ to_merge r -> b ∈ to_merge r' \/
       exists c, c ∈ b /\ stale_block r (source_block_hash c)).
Proof using iter_perm.
  unfold expand_rejection. set (sources := set_map source_block_hash (rejected_items r) : gset BlockHash).
  assert (forall h, h ∈ sources <-> rejected_source r h) as Hs.
  { intros h. unfold sources, rejected_source. rewrite elem_of_map. naive_solver. }
  assert (forall D : gset BlockHash, (forall h, h ∈ D <-> stale_block r h) -> D = ∅ ->
    (forall b, b ∈ to_merge r <->
       b ∈ to_merge r /\ forall c, c ∈ b -> ~ stale_block r (source_block_hash c)) /\
    (forall c, c ∈ rejected_items r <-> c ∈ rejected_items r \/
       (exists b, b ∈ to_merge r /\ c ∈ b /\ exists c', c' ∈ b /\ stale_block r (source_block_hash c')) /\
       forall c', c' ∈ rejected_items r -> deploys_with_cost c <> deploys_with_cost c') /\
    (forall b, b ∈ to_merge r -> b ∈ to_merge r \/
       exists c, c ∈ b /\ stale_block r (source_block_hash c))) as Hnone.
  { intros D HD HD0. assert (forall h, ~ stale_block r h) as Hn.
    { intros h Hh%HD. rewrite HD0 in Hh. by apply elem_of_empty in Hh. }
    split_and!; [intros b; naive_solver| |by left]. intros c. split; [auto|].
    intros [?|[(b & _ & _ & c' & _ & Hc') _]]; [done|]. by apply Hn in Hc'. }
  destruct (decide (sources = ∅)) as [He|Hne].
  { exists r. split; [done|]. apply (Hnone ∅); [|done]. intros h. split; [set_solver|].
    intros (_ & s & Hrs%Hs & _). rewrite He in Hrs. set_solver. }
  destruct (descendants_within_scope_spec dag iter_set iter_perm actual_blocks sources) as (D & -> & HD).
  assert (forall h, h ∈ D <-> stale_block r h) as HD'.
  { intros h. rewrite HD. unfold stale_block. rewrite Hs. by setoid_rewrite Hs. }
  cbn [mbind option_bind]. destruct (decide (D = ∅)) as [He|Hne'].
  { exists r. split; [done|]. by apply (Hnone D). }
  eexists. split; [done|]. cbn [with_rejection to_merge rejected_items]. split_and!.
  - intros b. rewrite list_elem_of_filter, has_stale_false. setoid_rewrite HD'. tauto.
  - intros c. rewrite elem_of_insert_chains, elem_of_union_list.
    setoid_rewrite list_elem_of_filter. setoid_rewrite has_stale_true. setoid_rewrite HD'. naive_solver.
  - intros b Hb. rewrite list_elem_of_filter. destruct (has_stale D b) eqn:Hst; [right|by left].
    apply has_stale_true in Hst. by setoid_rewrite <- HD'.
Qed.
(** No chain gets lost, up to chains with the same deploys. *)
Lemma expand_covers r r' c :
  expand_rejection dag iter_set actual_blocks r = Some r' -> kept r c \/ c ∈ rejected_items r ->
  kept r' c \/ exists c', c' ∈ rejected_items r' /\ deploys_with_cost c' = deploys_with_cost c.
Proof using iter_perm.
  intros Hexp. destruct (expand_rejection_spec r) as (r1 & Hr1 & _ & Hrej & Hst).
  rewrite Hexp in Hr1. injection Hr1 as <-.
  intros [(b & Hb & Hc)|Hc]; [|right; exists c; split; [apply Hrej; by left|done]].
  destruct (Hst b Hb) as [Hbr|Hbs]; [left; by exists b|right].
  destruct (decide (set_Exists (fun c' => deploys_with_cost c' = deploys_with_cost c) (rejected_items r)))
    as [(c' & Hc' & He)|Hno]; [exists c'; split; [apply Hrej; by left|done]|].
  exists c. split; [|done]. apply Hrej. right. split; [by exists b|].
  intros c' Hc' He. apply Hno. by exists c'.
Qed.

(** The expansion leaves out branches and keeps the order of the others. *)
Lemma expand_sublist r r' : expand_rejection dag iter_set actual_blocks r = Some r' -> to_merge r' `sublist_of` to_merge r.
Proof.
  unfold expand_rejection. case_decide; [by intros [= <-]|].
  destruct (descendants_within_scope _ _ _ _) as [D|]; [|done]. cbn [mbind option_bind].
  case_decide; intros [= <-]; [done|]. cbn [with_rejection to_merge]. apply sublist_filter.
Qed.

(** C34: the expansion always ends, and rejects what it means to reject.  Suppose no block with a
    rejected chain descends, within the scope, from another one (otherwise the code keeps
    chains it should reject, see [expansion_keeps_stale_chain]).  Then exactly those branches
    are dropped that have a chain of a block that descends, within the scope, from the block of
    a rejected chain; and every chain that was kept or rejected before is kept or, up to chains
    with the same deploys, rejected afterwards. *)
Theorem rejection_expansion_exact r :
  (forall s h, rejected_source r s -> rejected_source r h -> ~ tc (scope_child dag actual_blocks) s h) ->
  exists r', expand_rejection dag iter_set actual_blocks r = Some r' /\
    (forall b, b ∈ to_merge r' <-> b ∈ to_merge r /\
       forall c s, c ∈ b -> rejected_source r s -> ~ tc (scope_child dag actual_blocks) s (source_block_hash c)) /\
    (forall c, kept r c \/ c ∈ rejected_items r -> kept r' c \/
       exists c', c' ∈ rejected_items r' /\ deploys_with_cost c' = deploys_with_cost c).
Proof using iter_perm.
  intros Hanti. destruct (expand_rejection_spec r) as (r' & Hr' & Hm & _). exists r'. split_and!; [done| |].
  - intros b. rewrite Hm. split; intros [Hb Hc]; (split; [done|]).
    + intros c s Hcb Hs Ht. apply (Hc c Hcb). split; [|by exists s]. intros Hrs. by apply (Hanti s _ Hs Hrs).
    + intros c Hcb (_ & s & Hs & Ht). by apply (Hc c s).
  - intros c. by apply expand_covers.
Qed.
End expansion.

(** ** Merging *)

Section merge.
Context {Par C P K KV : Type} `{!RhoNumber Par} `{!KeyValueStore KV, !DashOrder}.
Context (rc : RowCodecs C P (ListParWithRandom Par) K).
Context (iter_set : gset BlockHash -> list BlockHash) (iter_perm : forall s, iter_set s ≡ₚ elements s).
Context (iter_options : gset (gset ChainBranch) -> list (gset ChainBranch)).
Context (options_perm : forall s, iter_options s ≡ₚ elements s).
Context (iter_branch : ChainBranch -> list DeployChainIndex).
Context (dag : KeyValueDagRepresentation) (idx : gmap BlockHash BlockMetadata) (fuel : nat).
Context (index : BlockHash -> res CasperError (list DeployChainIndex)).
Implicit Types r : ResolvedConflicts DeployChainIndex.

(** No two chains of one block have a user's deploy in common. *)
Definition deploys_once (chains : list DeployChainIndex) : Prop :=
  forall c c' id, c ∈ chains -> c' ∈ chains -> source_of c = source_of c' ->
    has_deploy c id -> has_deploy c' id -> is_system_deploy_id id = false -> c = c'.

(** C33: a balance that is merged is not negative.  Take what [resolve_conflicts] keeps of the
    chains, which it checked branch by branch, and what the rejection expansion leaves of it.
    If the expansion drops no branch that changes a channel (otherwise the number can become
    negative, see [expansion_overdraws]), the number that [compute_merged_state] writes for
    the channel from the sum of the differences is not negative. *)
Theorem merged_balance_nonnegative (actual late : list DeployChainIndex) (cost_f : DeployChainIndex -> Z)
    (get_data : Blake2b256Hash -> res HistoryError (list (Datum (ListParWithRandom Par))))
    (blocks : gset BlockHash) (rejected : gset DeployChainIndex) r0 r mm (k : Blake2b256Hash) d :
  (forall b, iter_branch b ≡ₚ elements b) ->
  coherent (ch_event_log_index <$> elements (list_to_set actual : gset DeployChainIndex)) ->
  (forall h, get_data h <> Panic) -> ordered_on chain_cmp (list_to_set actual) ->
  resolve_conflicts (Par:=Par) chain_cmp iter_options iter_branch depends_fn cost_f
    (fun c => number_channels_data (ch_event_log_index c)) get_data
    compute_branches_fn compute_conflict_map_fn actual late = Ok r0 ->
  expand_rejection dag iter_set blocks (with_rejection r0 (to_merge r0) rejected) = Some r ->
  (forall b c, b ∈ to_merge r0 -> b ∉ to_merge r -> c ∈ b -> number_channels_data (ch_event_log_index c) !! k = None) ->
  all_mergeable_channels (fun c => number_channels_data (ch_event_log_index c)) (to_merge_items chain_cmp r) = Ok mm ->
  mm !! k = Some (d, IntegerAdd) ->
  exists v, convert_to_read_number get_data k = Ok v /\ (0 <= merged_number (default 0%Z v) d IntegerAdd)%Z.
Proof using options_perm.
  intros Hib Hco Hg Ho Hr Hexp Hno Hmm Hk. pose proof (chain_branch_ops _ Hco) as Hops.
  apply (merged_balance_checked chain_cmp iter_branch Hib (fun c => number_channels_data (ch_event_log_index c)) iter_options options_perm depends_fn cost_f get_data
    compute_branches_fn compute_conflict_map_fn (list_to_set actual) actual late r0 r mm k d); [done| |done|done| |done..].
  - intros x Hx. by apply elem_of_list_to_set.
  - by apply expand_sublist in Hexp.
Qed.

(** What the resolution leaves of the chains [actual] when nothing is late. *)
Lemma resolve_chains (actual : list DeployChainIndex) cost_f (get_data : Blake2b256Hash -> _) r :
  coherent (ch_event_log_index <$> elements (list_to_set actual : gset DeployChainIndex)) ->
  (forall h, get_data h <> Panic) ->
  resolve_conflicts (Par:=Par) chain_cmp iter_options iter_branch depends_fn cost_f
    (fun c => number_channels_data (ch_event_log_index c)) get_data
    compute_branches_fn compute_conflict_map_fn actual [] = Ok r ->
  (forall c, c ∈ actual <-> kept r c \/ c ∈ rejected_items r) /\
  (forall c, kept r c -> c ∉ rejected_items r) /\
  (forall b b' c, b ∈ to_merge r -> b' ∈ to_merge r -> c ∈ b -> c ∈ b' -> b = b') /\
  (forall b b', b ∈ to_merge r -> b' ∈ to_merge r -> b <> b' -> ~ branches_conflict b b').
Proof using options_perm.
  intros Hco Hg Hr. set (units := list_to_set actual : gset DeployChainIndex) in *.
  pose proof (chain_branch_ops units Hco) as Hops.
  assert (forall x, x ∈ actual -> x ∈ units) as Hu by (intros x Hx; by apply elem_of_list_to_set).
  pose proof (resolve_inv chain_cmp iter_options options_perm iter_branch depends_fn cost_f
    (fun c => number_channels_data (ch_event_log_index c)) get_data compute_branches_fn
    compute_conflict_map_fn units actual [] Hg Hu) as Hi.
  rewrite Hr in Hi. destruct Hi as (bs & cm & base & n & [Hpart Huniq] & Hcm & _ & Hn & _ & Htm & Hrej).
  assert (forall c, c ∈ actual <-> exists b, b ∈ bs /\ c ∈ b) as Hp.
  { intros c. rewrite <- Hpart, elem_of_filter, elem_of_list_to_set. naive_solver. }
  assert (branches_within units bs) as Hw.
  { intros b Hb c Hc. apply elem_of_list_to_set, Hp. eauto. }
  set (o := rejected_for _ _ _ base bs n) in *.
  assert (o ⊆ bs) as Hsub.
  { by apply (rejected_for_branches chain_cmp iter_options options_perm iter_branch _ compute_branches_fn
      compute_conflict_map_fn units bs cm). }
  assert (forall b, b ∈ to_merge r <-> b ∈ bs /\ b ∉ o) as Hk.
  { intros b. rewrite Htm, elem_of_elements. apply elem_of_difference. }
  assert (forall c, c ∈ rejected_items r <-> exists b, b ∈ o /\ c ∈ b) as Hrej'.
  { intros c. rewrite Hrej. split; [|auto]. intros [?%elem_of_nil|[[_ (l & ?%elem_of_nil & _)]|?]]; done. }
  split_and!.
  - intros c. rewrite Hp, Hrej'. split.
    + intros (b & Hb & Hc). destruct (decide (b ∈ o)); [right; eauto|left]. exists b. by rewrite Hk.
    + intros [(b & [? _]%Hk & ?)|(b & ?%Hsub & ?)]; eauto.
  - intros c (b & [Hb Hbo]%Hk & Hc) (b' & Hb' & Hc')%Hrej'. apply Hbo.
    rewrite (Huniq b b' c); auto.
  - intros b b' c [Hb _]%Hk [Hb' _]%Hk. eauto.
  - intros b b' [Hb Hbo]%Hk [Hb' Hbo']%Hk Hne Hcf.
    pose proof (compute_conflict_map_spec units Hco bs Hw) as Hspec. rewrite Hcm in Hspec.
    destruct Hspec as [_ Hrel]. destruct (proj1 Hn b b') as [Hx|Hx]; [by apply Hrel| |].
    + apply Hbo. by apply elem_of_union_l.
    + apply Hbo'. by apply elem_of_union_l.
Qed.

Lemma elem_of_rejected_pairs (rejected : gset DeployChainIndex) id src :
  (id, src) ∈ rejected_pairs rejected <->
  exists c, c ∈ rejected /\ has_deploy c id /\ source_block_hash c = src.
Proof.
  unfold rejected_pairs. rewrite list_elem_of_bind. setoid_rewrite elem_of_elements.
  setoid_rewrite list_elem_of_fmap. setoid_rewrite elem_of_elements. split.
  - intros (c & (d & [= -> ->] & Hd) & Hc). exists c. split_and!; [done|by exists d|done].
  - intros (c & Hc & (d & Hd & <-) & <-). exists c. split; [by exists d|done].
Qed.
Lemma elem_of_rejected_user pairs collateral id src :
  (id, src) ∈ rejected_user_deploys pairs collateral <->
  ((id, src) ∈ pairs /\ is_system_deploy_id id = false) \/
  ((id, src) ∈ collateral /\ forall src', (id, src') ∈ pairs -> is_system_deploy_id id = true).
Proof.
  unfold rejected_user_deploys, sort_pairs.
  rewrite elem_of_sort_by, elem_of_app, !list_elem_of_filter, elem_of_list_to_set, list_elem_of_fmap.
  cbn [fst]. setoid_rewrite list_elem_of_filter. split.
  - intros [[? ?]|[Hn Hc]]; [by left|]. right. split; [done|]. intros src' Hp.
    destruct (is_system_deploy_id id) eqn:E; [done|]. destruct Hn. by exists (id, src').
  - intros [[? ?]|[Hc Hn]]; [by left|]. right. split; [|done].
    intros ([id' src'] & Hi & Hs & Hp). cbn in Hi, Hs. subst id'. by rewrite (Hn src' Hp) in Hs.
Qed.

(** The chains that [select_chains] gives to the resolution, and what comes of them. *)
Lemma select_chains_inv lfb cost_f scope disable read_base blocks chains reader :
  disable || bool_decide (is_Some scope) = true ->
  actual_blocks_of iter_set dag fuel lfb scope = Ok blocks -> chains_of index blocks = Ok chains ->
  read_base = Ok reader -> coherent (ch_event_log_index <$> chains) ->
  (forall h, reader_data_proj rc h reader <> Panic) ->
  let actual := first_by chain_same (sort_by chain_cmp (dedup chains).1) in
  match select_chains rc iter_set iter_options iter_branch dag idx fuel index lfb cost_f scope disable read_base with
  | Ok (reader', r, collateral) => reader' = reader /\ collateral = (dedup chains).2 /\
      exists r0, expand_rejection dag iter_set blocks r0 = Some r /\
        (forall c, c ∈ actual <-> kept r0 c \/ c ∈ rejected_items r0) /\
        (forall c, kept r0 c -> c ∉ rejected_items r0) /\
        (forall b b' c, b ∈ to_merge r0 -> b' ∈ to_merge r0 -> c ∈ b -> c ∈ b' -> b = b') /\
        (forall b b', b ∈ to_merge r0 -> b' ∈ to_merge r0 -> b <> b' -> ~ branches_conflict b b')
  | Err _ => True
  | Panic => False
  end.
Proof using iter_perm options_perm.
  intros Hscope Hblocks Hchains Hbase Hco Hg actual. unfold select_chains.
  rewrite Hblocks. cbn [res_bind]. unfold late_blocks_of. rewrite Hscope. cbn [res_bind].
  rewrite Hchains. cbn [res_bind]. change (chains_of index ∅) with (Ok (E:=CasperError) (@nil DeployChainIndex)).
  cbn [res_bind]. destruct (dedup chains) as [retained collateral] eqn:Hdd. cbn [fst snd] in actual |- *.
  rewrite Hbase. cbn [res_bind]. change (sort_by chain_cmp []) with (@nil DeployChainIndex).
  cbn [first_by list_to_set]. fold actual.
  set (get_data := fun h => reader_data_proj rc h reader).
  assert (coherent (ch_event_log_index <$> elements (list_to_set actual : gset DeployChainIndex))) as Hco'.
  { apply (coherent_sub _ _ Hco). intros e (c & -> & Hc%elem_of_elements)%list_elem_of_fmap.
    apply elem_of_list_to_set, (first_by_elem deploys_with_cost), elem_of_sort_by in Hc.
    apply list_elem_of_fmap_2. pose proof (dedup_eq chains) as He. rewrite Hdd in He. injection He as -> _.
    by apply list_elem_of_filter in Hc as [_ ?]. }
  destruct (resolve_conflicts chain_cmp iter_options iter_branch depends_fn cost_f _ get_data _ _ actual [])
    as [r0|e|] eqn:Hr; cbn [map_err res_bind].
  - destruct (resolve_chains actual cost_f get_data r0 Hco' Hg Hr) as (H1 & H2 & H3 & H4).
    assert (insert_chains (rejected_items r0 ∖ ∅) ∅ = rejected_items r0) as ->.
    { apply set_eq. intros c. rewrite elem_of_insert_chains. set_solver. }
    destruct (expand_rejection_spec dag iter_set iter_perm blocks
      (with_rejection r0 (to_merge r0) (rejected_items r0))) as (r & Hexp & _).
    rewrite Hexp. cbn [unwrap res_bind]. split_and!; [done|done|]. eexists. split; [exact Hexp|]. done.
  - done.
  - set (units := list_to_set actual : gset DeployChainIndex) in *.
    pose proof (chain_branch_ops units Hco') as Hops.
    assert (forall x, x ∈ actual -> x ∈ units) as Hu by (intros x Hx; by apply elem_of_list_to_set).
    pose proof (resolve_inv chain_cmp iter_options options_perm iter_branch depends_fn cost_f
      (fun c => number_channels_data (ch_event_log_index c)) get_data compute_branches_fn
      compute_conflict_map_fn units actual [] Hg Hu) as Hi.
    by rewrite Hr in Hi.
Qed.

Lemma actual_retained chains c :
  c ∈ first_by chain_same (sort_by chain_cmp (dedup chains).1) ->
  c ∈ chains /\ is_retained (latest_for_deploy chains) c = true.
Proof.
  intros Hc%(first_by_elem deploys_with_cost). rewrite elem_of_sort_by, dedup_eq in Hc.
  by apply list_elem_of_filter in Hc as [? ?].
Qed.
Lemma same_deploys_has c c' id :
  deploys_with_cost c = deploys_with_cost c' -> has_deploy c id -> has_deploy c' id.
Proof. intros He (d & Hd & Hi). exists d. by rewrite <- He. Qed.

(** What becomes of the chains given to the resolution, after the expansion. *)
Lemma expanded_chains blocks (actual : list DeployChainIndex) r0 r :
  expand_rejection dag iter_set blocks r0 = Some r ->
  (forall c, c ∈ actual <-> kept r0 c \/ c ∈ rejected_items r0) ->
  (forall c, kept r0 c -> c ∉ rejected_items r0) ->
  (forall b b' c, b ∈ to_merge r0 -> b' ∈ to_merge r0 -> c ∈ b -> c ∈ b' -> b = b') ->
  (forall c, c ∈ actual -> kept r c \/
     exists c', c' ∈ rejected_items r /\ deploys_with_cost c' = deploys_with_cost c) /\
  (forall c, kept r c \/ c ∈ rejected_items r -> c ∈ actual) /\
  (forall c, kept r c -> c ∉ rejected_items r) /\ (forall b, b ∈ to_merge r -> b ∈ to_merge r0).
Proof using iter_perm.
  intros Hexp H1 H2 H3.
  destruct (expand_rejection_spec dag iter_set iter_perm blocks r0) as (r' & Hr' & Hm & Hrej & _).
  rewrite Hexp in Hr'. injection Hr' as <-.
  assert (forall c, kept r c -> kept r0 c) as Hk.
  { intros c (b & [Hb _]%Hm & Hc). by exists b. }
  split_and!.
  - intros c Hc%H1. by apply (expand_covers dag iter_set iter_perm blocks r0 r c).
  - intros c [?%Hk|Hc%Hrej]; [apply H1; by left|].
    destruct Hc as [?|[(b & Hb & Hc & _) _]]; apply H1; [by right|left; by exists b].
  - intros c Hkc [Hc|[(b & Hb & Hc & c' & Hc' & Hsc) _]]%Hrej; [by apply (H2 c (Hk c Hkc))|].
    destruct Hkc as (b' & [Hb' Hns]%Hm & Hcb'). assert (b = b') as -> by (by apply (H3 b b' c)).
    by apply (Hns c').
  - intros b [? _]%Hm. done.
Qed.

(** C12: [merge] loses no deploy of a user and repeats none.  Selecting the chains never
    panics.  If it succeeds, every user's deploy of a block to merge is in a chain that is
    merged or in the list of rejected deploys; a merged deploy comes from the freshest block
    that has it; no two merged branches conflict; only deploys of the blocks are listed; and,
    if a deploy is in at most one chain of its block, none is both merged and listed. *)
Theorem merge_accounts_for_deploys lfb cost_f scope disable read_base blocks chains reader :
  disable || bool_decide (is_Some scope) = true ->
  actual_blocks_of iter_set dag fuel lfb scope = Ok blocks -> chains_of index blocks = Ok chains ->
  read_base = Ok reader -> coherent (ch_event_log_index <$> chains) ->
  (forall h, reader_data_proj rc h reader <> Panic) ->
  match select_chains rc iter_set iter_options iter_branch dag idx fuel index lfb cost_f scope disable read_base with
  | Ok (_, r, collateral) =>
    let listed := rejected_user_deploys (rejected_pairs (rejected_items r)) collateral in
    (forall c id, c ∈ chains -> has_deploy c id -> is_system_deploy_id id = false ->
       (exists c', kept r c' /\ has_deploy c' id) \/ exists src, (id, src) ∈ listed) /\
    (forall c id, kept r c -> has_deploy c id -> c ∈ chains /\
       forall c', c' ∈ chains -> has_deploy c' id -> cmp_le fresh_cmp (source_of c) (source_of c')) /\
    (forall b b', b ∈ to_merge r -> b' ∈ to_merge r -> b <> b' -> ~ branches_conflict b b') /\
    (forall id src, (id, src) ∈ listed -> is_system_deploy_id id = false /\
       exists c, c ∈ chains /\ has_deploy c id /\ source_block_hash c = src) /\
    (deploys_once chains -> forall c id src, kept r c -> has_deploy c id ->
       is_system_deploy_id id = false -> (id, src) ∉ listed)
  | Err _ => True
  | Panic => False
  end.
Proof using iter_perm options_perm.
  intros Hscope Hblocks Hchains Hbase Hco Hg.
  pose proof (select_chains_inv lfb cost_f scope disable read_base blocks chains reader
    Hscope Hblocks Hchains Hbase Hco Hg) as Hi. cbv zeta in Hi.
  destruct (select_chains _ _ _ _ _ _ _ _ _ _ _ _) as [[[reader' r] collateral]|e|]; [|done..].
  destruct Hi as (_ & -> & r0 & Hexp & H1 & H2 & H3 & H4).
  destruct (expanded_chains blocks _ r0 r Hexp H1 H2 H3) as (E1 & E2 & E3 & E4).
  assert (forall c id, kept r c \/ c ∈ rejected_items r -> has_deploy c id ->
    c ∈ chains /\ is_retained (latest_for_deploy chains) c = true /\
    latest_for_deploy chains !! id = Some (source_of c)) as Hsel.
  { intros c id Hc%E2%actual_retained Hh. destruct Hc as [Hc Hr]. split_and!; [done|done|].
    by apply (proj1 (is_retained_true chains c Hc) Hr). }
  cbv zeta. set (pairs := rejected_pairs (rejected_items r)). split_and!.
  - intros c id Hc Hh Hs. destruct (dedup_covers chains c id Hc Hh Hs) as [(c' & Hc' & Hh')|[src Hsrc]].
    + rewrite <- (elem_of_sort_by chain_cmp) in Hc'.
      destruct (first_by_cover deploys_with_cost c' _ Hc') as (c1 & Hc1 & He).
      apply (same_deploys_has c' c1) in Hh'; [|done].
      destruct (E1 c1 Hc1) as [Hk|(c2 & Hc2 & He2)]; [left; by exists c1|right].
      exists (source_block_hash c2). apply elem_of_rejected_user. left. split; [|done].
      apply elem_of_rejected_pairs. exists c2. split_and!; [done| |done].
      by apply (same_deploys_has c1 c2).
    + right. destruct (decide (id ∈ pairs.*1)) as [([id' src'] & -> & Hp)%list_elem_of_fmap|Hn].
      * exists src'. apply elem_of_rejected_user. by left.
      * exists src. apply elem_of_rejected_user. right. split; [done|]. intros src' Hp. destruct Hn.
        apply list_elem_of_fmap. by exists (id, src').
  - intros c id Hk Hh. destruct (Hsel c id (or_introl Hk) Hh) as (Hc & _ & Hl). split; [done|].
    intros c' Hc' Hh'. pose proof (latest_freshest chains id) as Hf. rewrite Hl in Hf.
    apply Hf. by exists c'.
  - intros b b' Hb Hb'. by apply H4; apply E4.
  - intros id src [[Hp Hs]|[Hp _]]%elem_of_rejected_user.
    + split; [done|]. apply elem_of_rejected_pairs in Hp as (c & Hc & Hh & He). exists c.
      split_and!; [|done|done]. by apply (Hsel c id (or_intror Hc) Hh).
    + apply elem_of_collateral in Hp as (c & Hc & _ & Hh & He & Hs & _). split; [done|]. by exists c.
  - intros Hon c id src Hk Hh Hs Hl. destruct (Hsel c id (or_introl Hk) Hh) as (Hc & Hr & Hlc).
    apply elem_of_rejected_user in Hl as [[Hp _]|[Hp _]].
    + apply elem_of_rejected_pairs in Hp as (c' & Hc' & Hh' & _).
      destruct (Hsel c' id (or_intror Hc') Hh') as (Hcc & _ & Hlc').
      assert (c = c') as -> by (apply (Hon c c' id); [done|done|congruence|done|done|done]).
      by apply (E3 c').
    + apply elem_of_collateral in Hp as (c' & Hcc & Hr' & Hh' & _ & _ & Hlc').
      assert (c = c') as -> by (apply (Hon c c' id); [done|done|congruence|done|done|done]). congruence.
Qed.
End merge.
