(* ===== verification/OneBlockMerge.v ===== *)
(** * Merging the chains of one block

    [block_index.rs] splits a block into chains and computes for each of them the change that
    the block made to the channels the chain touched ([DeployChainIndex::new]);
    [compute_merged_state] combines the changes of the chains that are merged.  If all chains
    of a block are merged onto the state that the block was built on, the result is the state
    that the block left. *)
From S2P Require Import Prelude Events HotStoreSig HotStore RSpace KeyValueStore Serializers.
From S2P Require Import RadixCodec RadixTree RadixSpec RadixRefine RadixActions RadixHistory.
From S2P Require Import RSpaceThms HistoryRepo HistoryRepoSpec HistoryRows HistoryThms.
From S2P Require Import MergingLogic StateChange StateChangeSpec StateChangeThms BlockReplay.
From S2P Require Import ConflictSetMerger ConflictSetMergerThms BlockDag DeployChains.
From S2P Require Import DagMerger DagMergerOps.

(** ** Combining parts of one change *)

Lemma vec_diff_nil (l : list bytes) : vec_diff [] l = [].
Proof. by induction l. Qed.
Lemma vec_diff_self (l : list bytes) : vec_diff l l = [].
Proof.
  unfold vec_diff. induction l as [|x l IH]; [done|]. cbn [foldl].
  assert (position (fun y => bool_decide (y = x)) (x :: l) = Some 0) as ->; [|exact IH].
  apply position_Some. exists x. split_and!; [done|by apply bool_decide_eq_true|lia].
Qed.
Lemma combine_change_self c : combine_change c c = c.
Proof. destruct c. unfold combine_change. cbn. by rewrite !vec_diff_self, !app_nil_r. Qed.

(** The maps hold values of the functions only. *)
Definition part_of {X V} `{Countable X} (F : X -> V) (m : gmap X V) : Prop :=
  forall k v, m !! k = Some v -> v = F k.
Lemma combine_entries_part {X} `{Countable X} (F : X -> ChannelChange) (m m' : gmap X ChannelChange) k v :
  part_of F m -> part_of F m' ->
  foldl combine_entry m (map_to_list m') !! k = Some v <->
  v = F k /\ (is_Some (m !! k) \/ is_Some (m' !! k)).
Proof.
  intros Hm Hm'. rewrite combine_entries_lookup by apply NoDup_fst_map_to_list.
  rewrite list_to_map_to_list. specialize (Hm k). specialize (Hm' k).
  destruct (m !! k) as [a|] eqn:Ha, (m' !! k) as [b|] eqn:Hb.
  - rewrite (Hm a), (Hm' b), combine_change_self by done. split; [intros [= <-]; eauto|by intros [-> _]].
  - rewrite (Hm a) by done. split; [intros [= <-]; eauto|by intros [-> _]].
  - rewrite (Hm' b) by done. split; [intros [= <-]; eauto|by intros [-> _]].
  - split; [done|]. by intros [_ [[? ?]|[? ?]]].
Qed.
Lemma insert_entries_part {X V} `{Countable X} (F : X -> V) (m m' : gmap X V) k v :
  part_of F m -> part_of F m' ->
  foldl (fun m kv => <[kv.1 := kv.2]> m) m (map_to_list m') !! k = Some v <->
  v = F k /\ (is_Some (m !! k) \/ is_Some (m' !! k)).
Proof.
  intros Hm Hm'.
  assert (forall (l : list (X * V)) (m : gmap X V), NoDup l.*1 -> foldl (fun m kv => <[kv.1 := kv.2]> m) m l !! k =
    match (list_to_map l : gmap X V) !! k with Some w => Some w | None => m !! k end) as Hl.
  { induction l as [|[j w] l IH]; intros m0 Hnd; [done|]. apply NoDup_cons in Hnd as [Hj Hnd].
    cbn [foldl list_to_map foldr fst snd]. rewrite IH by done.
    apply (not_elem_of_list_to_map_1 (M:=gmap X)) in Hj. destruct (decide (k = j)) as [->|Hne].
    - cbn in Hj. by rewrite Hj, !lookup_insert_eq.
    - by rewrite !lookup_insert_ne by done. }
  rewrite Hl by apply NoDup_fst_map_to_list. rewrite list_to_map_to_list.
  specialize (Hm k). specialize (Hm' k). destruct (m' !! k) as [b|] eqn:Hb.
  - rewrite (Hm' b) by done. split; [intros [= <-]; eauto|by intros [-> _]].
  - split; [intros Hv; split; [by apply Hm|rewrite Hv; eauto]|].
    intros [-> [[a Ha]|[? ?]]]; [|done]. rewrite Ha. f_equal. by apply Hm.
Qed.

(** A change that agrees with the functions at the keys of the sets. *)
Record is_part (D : Blake2b256Hash -> ChannelChange) (K : list Blake2b256Hash -> ChannelChange)
    (J : list Blake2b256Hash -> bytes) (Xd : gset Blake2b256Hash) (Xk : gset (list Blake2b256Hash))
    (sc : StateChange) : Prop := {
  part_data : forall h v, datums_changes sc !! h = Some v <-> v = D h /\ h ∈ Xd /\ is_change v;
  part_conts : forall cs v, cont_changes sc !! cs = Some v <-> v = K cs /\ cs ∈ Xk /\ is_change v;
  part_joins : forall cs v, consume_channels_to_join_serialized_map sc !! cs = Some v <->
    v = J cs /\ cs ∈ Xk;
}.

Lemma combine_parts D K J Xd Xk Yd Yk s s' :
  is_part D K J Xd Xk s -> is_part D K J Yd Yk s' ->
  is_part D K J (Xd ∪ Yd) (Xk ∪ Yk) (combine_state_change s s').
Proof.
  intros [Hd Hk Hj] [Hd' Hk' Hj'].
  assert (part_of D (datums_changes s) /\ part_of D (datums_changes s')) as [? ?].
  { split; intros h v; [rewrite Hd|rewrite Hd']; naive_solver. }
  assert (part_of K (cont_changes s) /\ part_of K (cont_changes s')) as [? ?].
  { split; intros h v; [rewrite Hk|rewrite Hk']; naive_solver. }
  assert (part_of J (consume_channels_to_join_serialized_map s) /\
    part_of J (consume_channels_to_join_serialized_map s')) as [? ?].
  { split; intros h v; [rewrite Hj|rewrite Hj']; naive_solver. }
  split; cbn [combine_state_change datums_changes cont_changes consume_channels_to_join_serialized_map].
  - intros h v. rewrite (combine_entries_part D) by done. unfold is_Some.
    setoid_rewrite Hd. setoid_rewrite Hd'. rewrite elem_of_union. naive_solver.
  - intros h v. rewrite (combine_entries_part K) by done. unfold is_Some.
    setoid_rewrite Hk. setoid_rewrite Hk'. rewrite elem_of_union. naive_solver.
  - intros h v. rewrite (insert_entries_part J) by done. unfold is_Some.
    setoid_rewrite Hj. setoid_rewrite Hj'. rewrite elem_of_union. naive_solver.
Qed.
Lemma is_part_unique D K J Xd Xk s s' : is_part D K J Xd Xk s -> is_part D K J Xd Xk s' -> s = s'.
Proof.
  intros [Hd Hk Hj] [Hd' Hk' Hj']. destruct s as [d k j], s' as [d' k' j'].
  cbn [datums_changes cont_changes consume_channels_to_join_serialized_map] in *.
  f_equal; apply map_eq; intros x; apply option_eq; intros v.
  - by rewrite Hd, Hd'.
  - by rewrite Hk, Hk'.
  - by rewrite Hj, Hj'.
Qed.
Lemma combined_parts {X : Type} (D : Blake2b256Hash -> ChannelChange)
    (K : list Blake2b256Hash -> ChannelChange) (J : list Blake2b256Hash -> bytes)
    (xd : X -> gset Blake2b256Hash) (xk : X -> gset (list Blake2b256Hash))
    (sc : X -> StateChange) (l : list X) (acc : StateChange)
    (Xd : gset Blake2b256Hash) (Xk : gset (list Blake2b256Hash)) :
  is_part D K J Xd Xk acc -> (forall x, x ∈ l -> is_part D K J (xd x) (xk x) (sc x)) ->
  is_part D K J (Xd ∪ ⋃ (xd <$> l)) (Xk ∪ ⋃ (xk <$> l))
    (foldl (fun s x => combine_state_change s (sc x)) acc l).
Proof.
  revert acc Xd Xk. induction l as [|x l IH]; intros acc Xd Xk Hacc Hl; cbn [foldl].
  { change (⋃ (xd <$> [])) with (∅ : gset Blake2b256Hash).
    change (⋃ (xk <$> [])) with (∅ : gset (list Blake2b256Hash)). by rewrite !union_empty_r_L. }
  rewrite !fmap_cons. cbn [union_list foldr]. rewrite !union_assoc_L. apply IH; [|intros y Hy; apply Hl; by right].
  apply combine_parts; [done|]. apply Hl. left.
Qed.

(** ** The chains of a block *)

Section one_block.
Context {C P A K KV : Type} `{Countable C}.
Context `{!KeyValueStore KV, !KeyValueStoreLaws KV, !DashOrder, !DashOrderLaws}.
Context (cd : Codecs C P A K) (rc : RowCodecs C P A K) `{!RowCodecsLaws rc}.
Abbreviation hash_of := (hash_from_hashes cd).

(** The change of a log is the part of the change of the block at the channels of the log. *)
Section parts.
Context (pre post : HistoryReader C) (rpre rpost : rows) (e : EventLogIndex).
Context (V : gset (list Blake2b256Hash)) (chans : list Blake2b256Hash -> list C).
Context (Hpre : shows rc pre rpre) (Hpost : shows rc post rpost) (HV : vectors_ok cd V chans).
Context (Hjpre : joins_follow cd rc V chans rpre) (Hjpost : joins_follow cd rc V chans rpost).
Context (Hlog : log_covers cd rpre rpost e V).

Definition block_data (h : Blake2b256Hash) : ChannelChange :=
  value_change (rpre RowData h) (rpost RowData h).
Definition block_conts (cs : list Blake2b256Hash) : ChannelChange :=
  value_change (rpre RowConts (hash_of cs)) (rpost RowConts (hash_of cs)).
Lemma log_change_part e' :
  channels_of_consumes_affected e' ⊆ channels_of_consumes_affected e ->
  exists sc, StateChange_new cd rc pre post e' = Ok sc /\
    is_part block_data block_conts (join_body rc chans) (unique_produce_channels e')
      (channels_of_consumes_affected e') sc.
Proof using RowCodecsLaws0 Hpre Hpost HV Hjpre Hjpost Hlog.
  intros Hsub.
  destruct (StateChange_new_spec cd rc pre post e' _ _ _ _ _ _ (shows_rows _ _ _ Hpre)
    (shows_rows _ _ _ Hpost) (join_body rc chans)) as (sc & Hsc & Hd & Hc & Hj & Hj').
  { intros cs Hcs. by apply (join_entry_found cd rc pre post rpre rpost e V chans); auto. }
  exists sc. split; [done|]. split.
  - intros h v. rewrite Hd. unfold block_data. rewrite <- value_change_is_change. naive_solver.
  - intros cs v. rewrite Hc. unfold block_conts. rewrite <- value_change_is_change. naive_solver.
  - intros cs v. split; [intros ?%Hj'; tauto|]. intros [-> ?]. by apply Hj.
Qed.
End parts.

Lemma all_changes_Ok (items : list DeployChainIndex) :
  all_changes (fun c => Ok (ch_state_changes c)) items =
  Ok (foldl (fun s c => combine_state_change s (ch_state_changes c)) empty_state_change items).
Proof.
  unfold all_changes. generalize empty_state_change.
  induction items as [|c items IH]; intros s; [done|]. apply IH.
Qed.
Lemma no_number_channels (items : list DeployChainIndex) :
  (forall c, c ∈ items -> number_channels_data (ch_event_log_index c) = ∅) ->
  all_mergeable_channels (fun c => number_channels_data (ch_event_log_index c)) items = Ok ∅.
Proof.
  unfold all_mergeable_channels. intros Hn. induction items as [|c items IH]; [done|].
  cbn [res_foldM]. rewrite (Hn c) by left. cbn [res_bind]. apply IH. intros c' Hc'. apply Hn. by right.
Qed.

Context (U : Node -> Prop) (L : PersistedData -> Prop).
Context (HU : collision_free (blake2b256 cd) U).
Context (HL : forall d d', L d -> L d' -> leaf_hash cd rc d = leaf_hash cd rc d' -> d = d').

(** C18: merging all chains of a block onto the state it was built on gives the state it left.
    The chains hold the changes that the block made to the channels they touched, together
    they touch the channels of the log [e], which covers the rows that differ, and they use
    no number channels.  Whatever the order in which they are merged and however their
    channels overlap, [compute_merged_state] returns the post-state root of the block. *)
Theorem merge_of_one_block (h : HistoryRepositoryImpl KV) (pre_root post_root : Blake2b256Hash)
    (rd_pre rd_post : RSpaceHistoryReaderImpl KV) (e : EventLogIndex)
    (V : gset (list Blake2b256Hash)) (chans : list Blake2b256Hash -> list C)
    (handle : Blake2b256Hash -> ChannelChange -> NumberChannelsDiff ->
       res HistoryError (option (HotStoreTrieAction C P A K)))
    (r : ResolvedConflicts DeployChainIndex) :
  repo_inv cd rc U L h -> recorded_root h pre_root -> recorded_root h post_root ->
  get_history_reader_struct pre_root h = Ok rd_pre ->
  get_history_reader_struct post_root h = Ok rd_post ->
  no_empty_rows rc rd_pre -> no_empty_rows rc rd_post ->
  vectors_ok cd V chans -> joins_follow cd rc V chans (reader_row rc rd_pre) ->
  joins_follow cd rc V chans (reader_row rc rd_post) ->
  log_covers cd (reader_row rc rd_pre) (reader_row rc rd_post) e V ->
  (forall k ch, handle k ch ∅ = Ok None) ->
  let items := to_merge_items chain_cmp r in
  (forall c, c ∈ items -> number_channels_data (ch_event_log_index c) = ∅ /\
     StateChange_new cd rc (history_reader rc rd_pre) (history_reader rc rd_post)
       (ch_event_log_index c) = Ok (ch_state_changes c)) ->
  (forall k, k ∈ unique_produce_channels e <->
     exists c, c ∈ items /\ k ∈ unique_produce_channels (ch_event_log_index c)) ->
  (forall cs, cs ∈ channels_of_consumes_affected e <->
     exists c, c ∈ items /\ cs ∈ channels_of_consumes_affected (ch_event_log_index c)) ->
  exists h', compute_merged_state chain_cmp (fun c => Ok (ch_state_changes c))
    (fun c => number_channels_data (ch_event_log_index c))
    (fun changes mch => compute_trie_actions cd changes (history_reader rc rd_pre) mch handle)
    (apply_trie_actions_fn cd rc pre_root) r h = (Ok post_root, h').
Proof.
  intros Hi Hrp Hrq Hgp Hgq Hnp Hnq HV Hjp Hjq Hlog Hh items Hitems Hd Hk.
  destruct (root_forest cd rc U L HU h pre_root Hi Hrp) as (cp & rd & _ & _ & Hg & Hrdp).
  rewrite Hgp in Hg. injection Hg as <-.
  destruct (root_forest cd rc U L HU h post_root Hi Hrq) as (cq & rd & _ & _ & Hg & Hrdq).
  rewrite Hgq in Hg. injection Hg as <-.
  assert (shows rc (history_reader rc rd_pre) (reader_row rc rd_pre)) as Hpre
    by (by eapply reader_shows).
  assert (shows rc (history_reader rc rd_post) (reader_row rc rd_post)) as Hpost
    by (by eapply reader_shows).
  destruct (replay_root cd rc U L HU HL h pre_root post_root rd_pre rd_post e V chans ∅ handle)
    as (sc & acts & h1 & h2 & h' & Hsc & Hacts & Hreset & Hck & Hroot); [done..|].
  assert (forall e', channels_of_consumes_affected e' ⊆ channels_of_consumes_affected e ->
    exists sc, StateChange_new cd rc (history_reader rc rd_pre) (history_reader rc rd_post) e' = Ok sc /\
      is_part (block_data (reader_row rc rd_pre) (reader_row rc rd_post))
        (block_conts (reader_row rc rd_pre) (reader_row rc rd_post)) (join_body rc chans)
        (unique_produce_channels e') (channels_of_consumes_affected e') sc) as Hpart.
  { intros e' He'. by apply (log_change_part _ _ _ _ e V). }
  destruct (Hpart e) as (sc' & Hsc' & Hfull); [done|]. rewrite Hsc in Hsc'. injection Hsc' as <-.
  assert (foldl (fun s c => combine_state_change s (ch_state_changes c)) empty_state_change items = sc) as Hall.
  { assert (forall c, c ∈ items -> channels_of_consumes_affected (ch_event_log_index c) ⊆
      channels_of_consumes_affected e) as Hsub by (intros c Hc cs Hcs; apply Hk; by exists c).
    eapply is_part_unique; [|exact Hfull].
    assert (unique_produce_channels e = ∅ ∪ ⋃ ((fun c => unique_produce_channels (ch_event_log_index c)) <$> items)) as ->.
    { apply set_eq. intros k. rewrite Hd, union_empty_l_L, elem_of_union_list.
      setoid_rewrite list_elem_of_fmap. naive_solver. }
    assert (channels_of_consumes_affected e =
      ∅ ∪ ⋃ ((fun c => channels_of_consumes_affected (ch_event_log_index c)) <$> items)) as ->.
    { apply set_eq. intros k. rewrite Hk, union_empty_l_L, elem_of_union_list.
      setoid_rewrite list_elem_of_fmap. naive_solver. }
    apply combined_parts.
    - split; cbn; intros x v; rewrite lookup_empty; split; [done| |done| |done|]; intros Hx.
      + destruct Hx as (_ & Hx & _). by apply elem_of_empty in Hx.
      + destruct Hx as (_ & Hx & _). by apply elem_of_empty in Hx.
      + destruct Hx as (_ & Hx). by apply elem_of_empty in Hx.
    - intros c Hc. destruct (Hitems c Hc) as [_ Hnew].
      destruct (Hpart _ (Hsub c Hc)) as (s & Hs & Hp). rewrite Hnew in Hs. by injection Hs as ->. }
  unfold compute_merged_state. fold items. rewrite all_changes_Ok, Hall, no_number_channels
    by (intros c Hc; by apply Hitems).
  unfold try_bind, lift. rewrite Hacts. unfold apply_trie_actions_fn, try_bind. rewrite Hreset, Hck.
  eexists. by rewrite Hroot.
Qed.
End one_block.

(** ** An example: the block of [ReplayExample], split into two chains with one log. *)
Module OneBlockExample.
Import RSpaceThms.Example RadixHistory.RadixExample HistoryExample ReplayExample.
Definition block_change : StateChange :=
  match StateChange_new example_codecs example_rows (history_reader example_rows (reader_of pre_root))
    (history_reader example_rows (reader_of post_root)) example_log with
  | Ok sc => sc
  | _ => empty_state_change
  end.
Definition chain (id : byte) : DeployChainIndex :=
  mkChain {[mkIdCost [id] 1]} post_root example_log block_change [x01] 1.
Definition both_kept : ResolvedConflicts DeployChainIndex :=
  mkResolved [{[chain x0a]}; {[chain x0b]}] ∅ 0 2 2 0 0 0 0.

Lemma two_branches_items (a b c : DeployChainIndex) :
  c ∈ to_merge_items chain_cmp (mkResolved [{[a]}; {[b]}] ∅ 0 2 2 0 0 0 0) <-> c = a \/ c = b.
Proof.
  unfold to_merge_items. rewrite list_elem_of_bind. setoid_rewrite elem_of_sort_by.
  setoid_rewrite elem_of_elements. cbn [to_merge]. setoid_rewrite elem_of_cons.
  setoid_rewrite list_elem_of_singleton. split.
  - intros (x & Hc & [->| ->]); apply elem_of_singleton in Hc; auto.
  - intros [->| ->]; [exists {[a]}|exists {[b]}]; rewrite elem_of_singleton; auto.
Qed.
Lemma both_kept_items c : c ∈ to_merge_items chain_cmp both_kept <-> c = chain x0a \/ c = chain x0b.
Proof. exact (two_branches_items (chain x0a) (chain x0b) c). Qed.
Lemma block_change_new :
  StateChange_new example_codecs example_rows (history_reader example_rows (reader_of pre_root))
    (history_reader example_rows (reader_of post_root)) example_log = Ok block_change.
Proof.
  destruct example_repo1_ok as (Hi & Hr1 & Hr2 & _).
  destruct (replay_root example_codecs example_rows nodes_used leaves_used
    (hd_nodes _ _ _ _ _ _ example_distinct) (hd_leaves _ _ _ _ _ _ example_distinct)
    example_repo1 pre_root post_root (reader_of pre_root) (reader_of post_root) example_log
    example_vectors (fun _ => [1; 2]) ∅ (fun _ _ _ => Ok None) Hi Hr1 Hr2
    (proj1 example_readers) (proj2 example_readers) pre_no_empty post_no_empty
    example_vectors_ok pre_joins_follow post_joins_follow example_log_covers
    (fun _ _ => eq_refl)) as (sc & _ & _ & _ & _ & Hsc & _).
  unfold block_change. rewrite Hsc. reflexivity.
Qed.
Lemma merge_of_one_block_witness :
  exists h', compute_merged_state chain_cmp (fun c => Ok (ch_state_changes c))
    (fun c => number_channels_data (ch_event_log_index c))
    (fun changes mch => compute_trie_actions example_codecs changes
       (history_reader example_rows (reader_of pre_root)) mch (fun _ _ _ => Ok None))
    (apply_trie_actions_fn example_codecs example_rows pre_root) both_kept example_repo1 =
    (Ok post_root, h').
Proof.
  destruct example_repo1_ok as (Hi & Hr1 & Hr2 & _).
  apply (merge_of_one_block example_codecs example_rows nodes_used leaves_used
    (hd_nodes _ _ _ _ _ _ example_distinct) (hd_leaves _ _ _ _ _ _ example_distinct)
    example_repo1 pre_root post_root (reader_of pre_root) (reader_of post_root) example_log
    example_vectors (fun _ => [1; 2]) (fun _ _ _ => Ok None) both_kept Hi Hr1 Hr2
    (proj1 example_readers) (proj2 example_readers) pre_no_empty post_no_empty
    example_vectors_ok pre_joins_follow post_joins_follow example_log_covers
    (fun _ _ => eq_refl)).
  - intros c [->| ->]%both_kept_items; (split; [reflexivity|exact block_change_new]).
  - intros k. split.
    + intros Hk. exists (chain x0a). split; [apply both_kept_items; left; reflexivity|exact Hk].
    + intros (c & [->| ->]%both_kept_items & Hk); exact Hk.
  - intros k. split.
    + intros Hk. exists (chain x0a). split; [apply both_kept_items; left; reflexivity|exact Hk].
    + intros (c & [->| ->]%both_kept_items & Hk); exact Hk.
Defined.
End OneBlockExample.
