(* ===== verification/DagMergerExamples.v ===== *)
(** * Merging two blocks

    A chain of three blocks.  The second block has a chain with the deploys 11 and 44, the
    third one chains with the deploys 11, 22 and 33: merging them onto the first drops the
    stale copy of 11 and lists 44.  The examples of rejection expansion are about the same
    DAG. *)
From S2P Require Import Prelude Events HotStoreSig KeyValueStore Serializers HistoryRepo.
From S2P Require Import RadixCodec RadixTree RadixHistory MergingLogic MergingIndex.
From S2P Require Import MergingMaps RelatedSets StateChange NumberChannels NumberChannelsThms.
From S2P Require Import ConflictSetMerger ConflictSetMergerThms BlockDag DeployChains.
From S2P Require Import MergedBalances DagMerger DagMergerOps DagMergerThms.

Module TwoBlocks.
Import RadixHistory.RadixExample NumberExample.
Definition hash (b : byte) : BlockHash := [b].
Definition dag3 : KeyValueDagRepresentation :=
  mkDag {[hash x01; hash x02; hash x03]} ∅ {[hash x01 := {[hash x02]}; hash x02 := {[hash x03]}; hash x03 := ∅]}
    ∅ {[hash x01 := 0%Z; hash x02 := 1%Z; hash x03 := 2%Z]} {[hash x02 := hash x01; hash x03 := hash x02]}
    ∅ [] (hash x01) {[hash x01]}.
Abbreviation kv := InMemoryKeyValueStore.

Definition reader0 : RSpaceHistoryReaderImpl kv :=
  mkHistoryReader (mkHistory [] empty_node ∅ ∅) (mkInMem ∅) (mkInMem ∅).
Lemma reader0_empty h : reader_data_proj number_rows h reader0 = Ok [].
Proof. reflexivity. Qed.

Definition chain_of (ids : list byte) (b : byte) (n : Z) : DeployChainIndex :=
  mkChain (list_to_set ((fun x => mkIdCost [x] 1) <$> ids)) (hash b) empty_index empty_state_change (hash b) n.
Definition stale_chain : DeployChainIndex := chain_of [x11; x44] x02 1.
Definition fresh_chain : DeployChainIndex := chain_of [x11; x22] x03 2.
Definition other_chain : DeployChainIndex := chain_of [x33] x03 2.
Definition index_of (h : BlockHash) : res CasperError (list DeployChainIndex) :=
  if decide (h = hash x02) then Ok [stale_chain]
  else if decide (h = hash x03) then Ok [fresh_chain; other_chain] else Ok [].
Definition scope : gset BlockHash := {[hash x02; hash x03]}.
Definition options : gset (gset ChainBranch) -> list (gset ChainBranch) := elements.

Definition selected : res CasperError (RSpaceHistoryReaderImpl kv * ResolvedConflicts DeployChainIndex * list deploy_pair) :=
  select_chains number_rows elements options elements dag3 ∅ 10 index_of (hash x01) cost_optimal_rejection_alg
    (Some scope) false (Ok reader0).

Lemma selected_Ok : exists r, selected = Ok (reader0, r, [([x44], hash x02)]) /\ length (to_merge r) = 2.
Proof.
  assert (match selected with
    | Ok (rd, r, coll) => bool_decide (coll = [([x44], hash x02)]) && (length (to_merge r) =? 2)%nat
    | _ => false end = true) as Hok by (vm_compute; reflexivity).
  assert (forall rd r coll, selected = Ok (rd, r, coll) -> rd = reader0) as Hrd.
  { unfold selected, select_chains. intros rd r coll Hs. res_inv.
    destruct (dedup _) as [ret col]. res_inv. congruence. }
  destruct selected as [[[rd r] coll]|e|]; [|done..]. specialize (Hrd rd r coll eq_refl) as ->.
  apply andb_true_iff in Hok as [Hc%bool_decide_eq_true Hl%Nat.eqb_eq]. exists r. by rewrite Hc.
Qed.
Lemma has_deploy_check c id :
  has_deploy c id <-> existsb (fun d => bool_decide (ic_deploy_id d = id)) (elements (deploys_with_cost c)) = true.
Proof.
  unfold has_deploy. rewrite existsb_exists. setoid_rewrite <- list_elem_of_In.
  setoid_rewrite elem_of_elements. by setoid_rewrite bool_decide_eq_true.
Qed.
Lemma logs_coherent : coherent (ch_event_log_index <$> [stale_chain; fresh_chain; other_chain]).
Proof.
  assert (forall e, e ∈ ch_event_log_index <$> [stale_chain; fresh_chain; other_chain] -> e = empty_index) as He.
  { intros e (c & -> & Hc)%list_elem_of_fmap.
    by apply elem_of_cons in Hc as [->|[->|[->|?%elem_of_nil]%elem_of_cons]%elem_of_cons]. }
  split.
  - intros e ->%He. apply empty_wf.
  - intros e e' p q ->%He _ [Hp|[Hp|Hp]]; by apply elem_of_nil in Hp.
  - intros e c ->%He. cbn. by intros ?%elem_of_empty.
Qed.
Lemma deploys_there :
  has_deploy fresh_chain [x11] /\ has_deploy stale_chain [x44] /\ ~ has_deploy other_chain [x11].
Proof. rewrite !has_deploy_check. split_and!; by vm_compute. Qed.
Lemma blocks_Ok : actual_blocks_of elements dag3 10 (hash x01) (Some scope) = Ok scope.
Proof.
  assert (match actual_blocks_of elements dag3 10 (hash x01) (Some scope) with
    | Ok b => bool_decide (b = scope) | _ => false end = true) as Hb by (by vm_compute).
  destruct (actual_blocks_of _ _ _ _ _) as [b|e|]; [|done..]. f_equal. by apply bool_decide_eq_true in Hb.
Qed.
Lemma chains_Ok : chains_of index_of scope = Ok [stale_chain; fresh_chain; other_chain].
Proof.
  unfold chains_of. assert (sort_by bytes_cmp (elements scope) = [hash x02; hash x03]) as -> by (by vm_compute).
  reflexivity.
Qed.
Lemma merge_accounts_for_deploys_witness :
  exists r, selected = Ok (reader0, r, [([x44], hash x02)]) /\
    (forall c, kept r c -> has_deploy c [x11] -> c = fresh_chain) /\
    ((exists c, kept r c /\ has_deploy c [x44]) \/
     exists src, ([x44], src) ∈ rejected_user_deploys (rejected_pairs (rejected_items r)) [([x44], hash x02)]).
Proof.
  destruct selected_Ok as (r & Hr & _). exists r. split; [exact Hr|].
  pose proof (merge_accounts_for_deploys number_rows elements (fun s => reflexivity _) options (fun s => reflexivity _)
    elements dag3 ∅ 10 index_of (hash x01) cost_optimal_rejection_alg (Some scope) false (Ok reader0)
    scope [stale_chain; fresh_chain; other_chain] reader0) as Hm.
  fold selected in Hm. rewrite Hr in Hm. destruct Hm as (Hacc & Hfresh & _).
  - reflexivity.
  - exact blocks_Ok.
  - exact chains_Ok.
  - reflexivity.
  - exact logs_coherent.
  - intros h. by rewrite reader0_empty.
  - split.
    + intros c Hk Hh. destruct (Hfresh c [x11] Hk Hh) as [Hc Hle].
      apply elem_of_cons in Hc as [->|[->|[->|Hc%elem_of_nil]%elem_of_cons]%elem_of_cons]; [exfalso|reflexivity|exfalso|destruct Hc].
      * apply (Hle fresh_chain); [right; left|apply deploys_there|reflexivity].
      * by apply deploys_there.
    + apply (Hacc stale_chain); [left|apply deploys_there|reflexivity].
Defined.

(** ** Rejection expansion *)

Definition resolved_as (merged rejected : list DeployChainIndex) : ResolvedConflicts DeployChainIndex :=
  mkResolved ((fun c => {[c]}) <$> merged) (list_to_set rejected) 0 0 0 0 0 0 0.
Definition kept_after (r : ResolvedConflicts DeployChainIndex) : option (list ChainBranch) :=
  to_merge <$> expand_rejection dag3 elements scope r.

(** The expansion at work: the chain of the third block goes with that of the second. *)
Lemma expansion_rejects_child :
  length <$> kept_after (resolved_as [fresh_chain] [stale_chain]) = Some 0.
Proof. vm_compute. reflexivity. Qed.
(** Only the second block has a rejected chain. *)
Lemma only_second h : rejected_source (resolved_as [fresh_chain] [stale_chain]) h -> h = hash x02.
Proof. intros (c & Hc & <-). by apply elem_of_list_to_set, list_elem_of_singleton in Hc as ->. Qed.
Lemma scope_child_check p c : scope_child dag3 scope p c ->
  match children dag3 p with Some s => c ∈ s | None => False end.
Proof. unfold scope_child. by intros [(s & -> & Hc) _]. Qed.
Lemma second_third : tc (scope_child dag3 scope) (hash x02) (hash x03).
Proof.
  apply tc_once. split; [|by apply (bool_decide_unpack _); vm_compute].
  exists {[hash x03]}. split; [vm_compute; reflexivity|]. by apply elem_of_singleton.
Qed.
Lemma never_second : ~ tc (scope_child dag3 scope) (hash x02) (hash x02).
Proof.
  assert (forall q, scope_child dag3 scope (hash x02) q -> q = hash x03) as H1.
  { intros q Hq%scope_child_check. change (q ∈ ({[hash x03]} : gset BlockHash)) in Hq. by apply elem_of_singleton in Hq. }
  assert (forall q, ~ scope_child dag3 scope (hash x03) q) as H2.
  { intros q Hq%scope_child_check. change (q ∈ (∅ : gset BlockHash)) in Hq. by apply elem_of_empty in Hq. }
  intros Ht. inversion Ht as [? ? Hs|? y ? Hs Hr]; subst.
  - by apply H1 in Hs.
  - apply H1 in Hs as ->. inversion Hr as [? ? Hs|? y ? Hs _]; subst; by apply H2 in Hs.
Qed.
Lemma rejection_expansion_exact_witness :
  exists r', expand_rejection dag3 elements scope (resolved_as [fresh_chain] [stale_chain]) = Some r' /\
    {[fresh_chain]} ∉ to_merge r'.
Proof.
  destruct (rejection_expansion_exact dag3 elements (fun s => reflexivity _) scope
    (resolved_as [fresh_chain] [stale_chain])) as (r' & Hr' & Hk & _).
  - intros s h ->%only_second ->%only_second. exact never_second.
  - exists r'. split; [exact Hr'|]. intros [_ Hno]%Hk.
    apply (Hno fresh_chain (hash x02)); [by apply elem_of_singleton| |exact second_third].
    exists stale_chain. split; [|reflexivity]. apply elem_of_list_to_set. left.
Defined.
(** A chain of the third block stays although the second block, which it was executed on,
    has a rejected chain, if another chain of the third block is rejected as well. *)
Lemma expansion_keeps_stale_chain :
  length <$> kept_after (resolved_as [other_chain] [stale_chain; fresh_chain]) = Some 1.
Proof. vm_compute. reflexivity. Qed.
End TwoBlocks.

(** ** Three chains that change a balance

    The balance is 3; the chains add 5, take 2 and take 10.  The third one is rejected. *)
Module Balances.
Import NumberExample.
Definition balance_log (d : Z) : EventLogIndex :=
  mkELI ∅ ∅ ∅ ∅ ∅ ∅ ∅ ∅ ∅ ∅ ∅ {[a := (d, IntegerAdd)]}.
Definition changing (id : byte) (d c : Z) : DeployChainIndex :=
  mkChain {[mkIdCost [id] c]} [id] (balance_log d) empty_state_change [x01] 1.
Definition adds : DeployChainIndex := changing x0a 5 30.
Definition takes : DeployChainIndex := changing x0b (-2) 20.
Definition overdraws : DeployChainIndex := changing x0c (-10) 10.
Definition three : list DeployChainIndex := [adds; takes; overdraws].
Definition units : gset DeployChainIndex := list_to_set three.
Definition options : gset (gset ChainBranch) -> list (gset ChainBranch) := elements.

Lemma elem_of_three c : c ∈ three <-> c = adds \/ c = takes \/ c = overdraws.
Proof. unfold three. rewrite !elem_of_cons, elem_of_nil. tauto. Qed.
Lemma three_coherent : coherent (ch_event_log_index <$> elements units).
Proof.
  assert (forall e, e ∈ ch_event_log_index <$> elements units -> exists d, e = balance_log d) as He.
  { intros e (c & -> & Hc)%list_elem_of_fmap. apply elem_of_elements, elem_of_list_to_set, elem_of_three in Hc.
    destruct Hc as [->|[->| ->]]; by eexists. }
  split.
  - intros e [d ->]%He. split; by intros ???.
  - intros e e' p q [d ->]%He _ [Hp|[Hp|Hp]]; by apply elem_of_nil in Hp.
  - intros e c [d ->]%He. cbn. by intros ?%elem_of_empty.
Qed.
#[local] Instance three_ops : BranchOps units compute_branches_fn compute_conflict_map_fn :=
  chain_branch_ops units three_coherent.
Lemma three_ordered : ordered_on chain_cmp units.
Proof.
  assert (Forall (fun x => Forall (fun y => chain_cmp x y = Eq -> x = y) three) three) as Ho
    by (apply (bool_decide_unpack _); vm_compute; exact I).
  intros x y Hx%elem_of_list_to_set Hy%elem_of_list_to_set. rewrite Forall_forall in Ho.
  specialize (Ho x Hx). rewrite Forall_forall in Ho. exact (Ho y Hy).
Qed.
Abbreviation channels := (fun c => number_channels_data (ch_event_log_index c)).
Definition resolved : res HistoryError (ResolvedConflicts DeployChainIndex) :=
  resolve_conflicts chain_cmp options elements depends_fn cost_optimal_rejection_alg channels base_data
    compute_branches_fn compute_conflict_map_fn three [].
Lemma resolved_Ok : exists r, resolved = Ok r /\ overdraws ∈ rejected_items r.
Proof.
  assert (match resolved with Ok r => bool_decide (overdraws ∈ rejected_items r) | _ => false end = true)
    as Hr by (by vm_compute).
  destruct resolved as [r|e|]; [|done..]. exists r. by apply bool_decide_eq_true in Hr.
Qed.
Lemma resolve_conflicts_sound_witness :
  exists r, resolved = Ok r /\ overdraws ∈ rejected_items r /\ ~ kept r overdraws.
Proof.
  destruct resolved_Ok as (r & Hr & Ho). exists r. split; [exact Hr|]. split; [exact Ho|]. intros Hk.
  pose proof (resolve_conflicts_sound chain_cmp options (fun s => reflexivity _) elements depends_fn
    cost_optimal_rejection_alg channels base_data compute_branches_fn compute_conflict_map_fn units three []) as Hs.
  fold resolved in Hs. rewrite Hr in Hs. destruct Hs as (_ & Hkr & _).
  - intros h. discriminate.
  - by intros x _ ?%elem_of_nil.
  - intros x Hx. by apply elem_of_list_to_set.
  - exact three_ordered.
  - exact (Hkr overdraws Hk Ho).
Defined.

Lemma merged_Ok : exists r mm, resolved = Ok r /\
  all_mergeable_channels channels (to_merge_items chain_cmp r) = Ok mm /\ mm !! a = Some (3%Z, IntegerAdd).
Proof.
  assert (match resolved with
    | Ok r => match all_mergeable_channels channels (to_merge_items chain_cmp r) with
              | Ok mm => bool_decide (mm !! a = Some (3%Z, IntegerAdd)) | _ => false end
    | _ => false end = true) as Hr by (by vm_compute).
  destruct resolved as [r|e|]; [|done..]. exists r.
  destruct (all_mergeable_channels _ _) as [mm|e|]; [|done..]. exists mm. by apply bool_decide_eq_true in Hr.
Qed.
Definition one_block : KeyValueDagRepresentation :=
  mkDag {[[x01]]} ∅ {[[x01] := ∅]} ∅ {[[x01] := 0%Z]} ∅ ∅ [] [x01] ∅.
(** All chains are of one block, so the expansion drops nothing. *)
Lemma nothing_dropped r : resolved = Ok r ->
  expand_rejection one_block elements {[[x01]]} (with_rejection r (to_merge r) ∅) = Some (with_rejection r (to_merge r) ∅).
Proof. intros _. unfold expand_rejection. cbn [with_rejection rejected_items]. rewrite set_map_empty. by rewrite decide_True. Qed.
Lemma merged_balance_nonnegative_witness :
  exists v, convert_to_read_number base_data a = Ok v /\
    (0 <= merged_number (default 0%Z v) 3 IntegerAdd)%Z.
Proof.
  destruct merged_Ok as (r & mm & Hr & Hmm & Ha).
  apply (merged_balance_nonnegative elements options (fun s => reflexivity _) elements one_block three []
    cost_optimal_rejection_alg base_data {[[x01]]} ∅ r (with_rejection r (to_merge r) ∅) mm a 3).
  - intros b. reflexivity.
  - exact three_coherent.
  - intros h. discriminate.
  - exact three_ordered.
  - exact Hr.
  - exact (nothing_dropped r Hr).
  - intros b c Hb Hn. destruct (Hn Hb).
  - exact Hmm.
  - exact Ha.
Defined.

(** ** A balance that becomes negative

    The balance is 3.  A chain of the third block adds 5, one of the fourth takes 5, and one of
    the second block, the parent of the third, is rejected because it would take 10.  The
    expansion then rejects the chain that adds 5, which the one that takes 5 was checked with. *)
Definition from_block_of (id : byte) (d : Z) (b : byte) : DeployChainIndex :=
  mkChain {[mkIdCost [id] 1]} [b] (balance_log d) empty_state_change [b] 1.
Definition four_blocks : KeyValueDagRepresentation :=
  mkDag {[[x01]; [x02]; [x03]; [x04]]} ∅ {[[x01] := {[[x02]; [x04]]}; [x02] := {[[x03]]}; [x03] := ∅; [x04] := ∅]}
    ∅ ∅ ∅ ∅ [] [x01] ∅.
Definition overdrawn : option Z :=
  match resolve_conflicts chain_cmp options elements depends_fn cost_optimal_rejection_alg channels base_data
    compute_branches_fn compute_conflict_map_fn
    [from_block_of x0a 5 x03; from_block_of x0b (-5) x04; from_block_of x0c (-10) x02] [] with
  | Ok r0 =>
    r ← expand_rejection four_blocks elements {[[x02]; [x03]; [x04]]} r0;
    match all_mergeable_channels channels (to_merge_items chain_cmp r), convert_to_read_number base_data a with
    | Ok mm, Ok v => (fun dt => merged_number (default 0%Z v) dt.1 dt.2) <$> mm !! a
    | _, _ => None
    end
  | _ => None
  end.
Lemma expansion_overdraws : overdrawn = Some (-2)%Z.
Proof. vm_compute. reflexivity. Qed.
End Balances.
